(* ===== verification/_CoqProject ===== *)
-Q . S2P
Prelude.v
Duplex.v
Varint.v
Text.v
Frame.v
SansIo.v
Pieces.v
Deadline.v
YamuxFrame.v
YamuxSession.v
YamuxStream.v
YamuxInvariant.v
Yamux.v
Multistream.v
Negotiation.v
Ping.v
Base58.v
PeerIdentity.v
Multiaddr.v
Proto.v
Dcutr.v
Identify.v
Swarm.v
SwarmSafety.v
SwarmRuns.v
SwarmSlots.v
SwarmStreams.v
SwarmDemo.v
Keys.v
Noise.v
NoiseHandshake.v
NoiseFrames.v
NoiseSafety.v
NoiseChannel.v
SecureMux.v
SecureMuxSafety.v
SecureMuxUpgrade.v
RelayMessage.v
RelayServer.v
RelayClient.v
RelayExchange.v
Seen.v
Limiter.v
Admission.v
RelayAddress.v
RelayAgent.v
RelaySteps.v
RelayPolicy.v
RelayForward.v
PubsubMessage.v
PubsubTypes.v
MessageCache.v
Floodsub.v
FloodsubSafety.v
FloodsubFlow.v
FloodsubDemo.v
