(* ===== verification/Prelude.v ===== *)
(** * minip2p: a verification library

    minip2p is a small libp2p stack in Rust. Its protocol crates are "Sans-I/O"
    machines: a machine takes one input at a time (bytes from a stream, a call
    of its owner, a clock tick), changes its state, and queues outputs that its
    driver polls; sockets, clocks and randomness stay outside. This library
    models the machines that carry the stack's own logic and proves what their
    users rely on.

    ** Parts of the program, and the files that model them

    A connection is negotiated with multistream-select, secured with Noise,
    multiplexed with yamux, and carries protocols such as ping and identify;
    the swarm keeps one connection per peer, negotiates a protocol on every
    stream and runs ping and identify on its own; peers are named by peer identifiers and reached at multiaddresses; peers
    that cannot be reached directly talk through a relay; pubsub floods signed
    messages to the peers that subscribe. Paths are relative to [src/crates/].

    Foundations:
    - [Prelude]: outcomes of a call ([res]: value, error, panic, exhausted loop
      bound), the state-and-error monad [M] with its rules [wp] and [moves],
      machine integers with checked, saturating and wrapping operations, bytes,
      vectors ([zlen], [slice]), and [BTreeMap] as [gmap] with its key order
      ([BTreeKey], [btree_keys]).
    - [Varint]: [uvarint_len], [write_uvarint], [read_uvarint] and
      [read_uvarint_with_remainder] of [identity/src/peer_id.rs].
    - [Text]: UTF-8 validity and decimal printing, as far as error messages,
      names and negotiation use them.
    - [Frame]: [decode_frame] and [encode_frame] of [core/src/frame.rs].
    - [SansIo]: the trait of [core/src/sans_io.rs] as a class, with the contract
      drivers rely on ([SansIoContract]) and a driver proved against it.
    - [Pieces]: messages that reach a machine in pieces; [Duplex]: two machines
      joined by two byte pipes, under every schedule.
    - [Deadline]: [Now] and [Deadline] of [platform/src/clock.rs] and
      [platform/src/deadline.rs].
    - [Proto]: the protobuf cursor code the message codecs share.

    Identity and addresses:
    - [Base58]: the base58btc and base32 codecs of [identity/src/peer_id.rs];
      [PeerIdentity]: [PeerId] itself, its binary and text forms; [Keys]:
      [identity/src/key.rs] and [identity/src/ed25519.rs].
    - [Multiaddr]: the binary form of addresses, transport shapes, peer
      addresses and the choice of addresses to dial, from [core/src].

    Connections:
    - [Multistream]: [multistream-select/src/lib.rs], the message codec and the
      dialer and listener machines; [Negotiation] joins a dialer and a listener
      by two byte pipes that deliver any number of bytes at a time.
    - [Noise]: [noise/src], frames, payload, ciphers, handshake and session.
      [NoiseHandshake] runs the handshake between two honest parties,
      [NoiseFrames] reads frames off a stream that is cut anywhere,
      [NoiseSafety] has the history of a session against any peer, and
      [NoiseChannel] the two ends of a channel.
    - [YamuxFrame]: [yamux/src/frame.rs], frames, their validation and encoding,
      and the buffering [FrameDecoder]. [YamuxSession]: [yamux/src/session.rs]
      and the types of [yamux/src/lib.rs]; one definition per method.
      [YamuxStream] has the flow-control lemmas of one stream,
      [YamuxInvariant] the session's invariant and its preservation, [Yamux]
      the runs of a session, the Sans-I/O instance and the properties.
    - [SecureMux]: [secure-mux/src/session.rs], the upgrade of a byte stream by
      the three machines above. [SecureMuxSafety] has its history against any
      peer; [SecureMuxUpgrade] joins two sessions by two byte pipes.

    Protocols on a connection:
    - [Ping]: [ping/src/lib.rs], one definition per method, over any ordered
      type of peer identifiers.
    - [Identify]: [identify/src/message.rs] and [identify/src/lib.rs].
    - [Swarm]: [swarm/src/core.rs] and [events.rs], the swarm without its
      driver: the tables of connections and streams, one definition per method,
      on top of the ping, identify and negotiation machines above. [SwarmSafety]
      has its invariant and what every handler keeps, [SwarmRuns] the calls, the
      Sans-I/O instance, the runs and their properties, [SwarmSlots] the
      application's view of connections, [SwarmStreams] one stream from its
      negotiation to its data, [SwarmDemo] concrete runs.

    Pubsub:
    - [PubsubMessage]: [pubsub/src/message.rs], the RPC with its codec, framing,
      signing and verification; [PubsubTypes]: [pubsub/src/events.rs] and the
      rules for topics; [Seen]: [pubsub/src/seen.rs], the bounded cache of
      message identifiers.
    - [Floodsub]: [pubsub/src/agent.rs] and [config.rs], the floodsub router, one
      definition per method, with the loops of [on_stream_data] and the arms of
      [on_stream_closed] and [handle_tick] as definitions of their own.
      [FloodsubSafety] has its invariant and its runs, [FloodsubFlow] two routers
      together, [FloodsubDemo] concrete messages and runs.
    - [MessageCache]: [pubsub/src/gossipsub/mcache.rs], the message cache of
      gossipsub, with the queue it implements.

    Relaying:
    - [Dcutr]: [dcutr/src], the exchange by which two peers on a relayed
      connection agree to dial each other.
    - [RelayMessage]: [relay/src/message.rs], the messages of Circuit Relay v2;
      [RelayServer]: [relay/src/server.rs], the HOP responder and the STOP
      initiator; [RelayClient]: [relay/src/client.rs], the reservation, connect
      and STOP-responder machines; [RelayExchange] lets them talk.
    - [Limiter]: [relay-server/src/limiter.rs], the token buckets; [Admission]:
      [relay-server/src/config.rs] and the [AdmissionLimiters];
      [RelayAddress]: [relay-server/src/address.rs].
    - [RelayAgent]: [relay-server/src/agent.rs] and [types.rs], the relay
      service: one definition per method of [RelayServerAgent], with the arms
      of [handle_event] and [send_stream_result] as definitions of their own.
      [RelaySteps] has the lemmas on single steps (what is counted, what a
      helper leaves alone, that the drains end), [RelayPolicy] the service's
      invariant, its runs and the properties of runs, [RelayForward] what a
      circuit does with bytes.

    ** How code is rendered

    A method [fn f(&mut self, ..) -> Result<A, E>] is a value of [M S E A]: a
    function from the state to a state and an outcome, so that what a failing
    call has already changed stays changed. [?] is the monad's bind; [expect],
    [unwrap], plain subtraction and addition that leave the type's range are
    [Panic]. A block that borrows one entry of a map ([get_mut]) is a program on
    that entry, written back on every path ([with_stream] in [YamuxSession]).
    Unsigned integers are elements of [Z] with their bounds written out where
    they matter; [usize] is 64 bits wide. [Vec] and [VecDeque] are lists,
    [BTreeMap] is a [gmap] that is iterated in key order, a [String] is the list
    of its UTF-8 bytes, or of its code points where characters are looked at.
    Where an error is printed into a text, the model keeps the error itself.
    Third-party crates are parameters: classes of functions ([HashCrates],
    [SigningCrate], [NoiseCrates]) with classes of what their documentation
    promises, and concrete instances that show the promises can be kept.

    Loops whose recursion is not structural take fuel, and running out of it is
    [Diverge], which no specification accepts: [wp m Q X s] says that [m]
    returns and that neither [Panic] nor [Diverge] happens. The fuel is given by
    the callers' definitions and is enough in every reachable state: the number
    of bytes buffered for the frame loops and the splitting loop of [send] (each
    round consumes at least one), bytes plus chunks for [flush_buffered], the
    number of due times for [sweep] (each round removes one, and a sweep only
    schedules in the future), ten bytes for a varint, the input's length for a
    message decoder, three times the queued outputs for [drain_hop] (a round can
    queue a response for the request it takes) and their number for
    [drain_stop], the number of queued outputs for the loops of the swarm that
    drain a machine (handling one queues none), two rounds for [token] and the
    swarm's [next_open_token] (zero is skipped), the number of
    addresses for [reservation_wire] (each round drops one), the bytes of a
    buffer and of a data event for the two loops of [on_stream_data].

    ** What the theorems show

    - Yamux: from any valid configuration, every sequence of calls and received
      bytes keeps the session's invariant, never panics, never loops and keeps
      buffered bytes within the configured limits ([yamux_runs_are_safe]); [send]
      frames what the window allows and queues the rest, or refuses atomically;
      errors of a caller change nothing; a malformed or over-credit frame closes
      the session for good; data arrives complete and in order at the peer;
      window updates release exactly what they pay for; stream identifiers are
      never reused; polling drains in a bounded number of steps; keepalives are
      sent exactly when due. The decoder returns the frames that were encoded
      however the bytes were cut, and refines a one-line parser of the stream.
    - Negotiation: any schedule of a dialer against a listener terminates with
      both sides agreeing on the dialer's protocol if the listener supports it,
      and with a refusal seen by both otherwise, the unsupported proposal [na]
      apart ([proposing_na]); cutting messages differently changes nothing.
    - Noise: whoever is at the other end, a session yields no data before it has
      reported a peer that proved its identity key, and if a peer was expected,
      that one ([noise_authenticates_first]); after an error nothing more comes
      out; honest parties agree on names and keys however the stream is cut, and
      the channel then delivers bytes unchanged and in order.
    - Secure-mux: a session announces at most one peer, the authenticated one,
      before anything else it reports about streams; every call is answered and
      a fatal error ends the session for good; two honest parties end up
      established with each other under every schedule
      ([secure_mux_upgrades]), a composition of the negotiation, the handshake,
      the channel and the multiplexer.
    - Ping: all inputs keep at most one ping in flight and bounded buffers; an
      echoed payload is measured, an inbound payload is echoed, overdue pings
      are reported, protocol violations reset the stream, and a migrated peer
      keeps its state.
    - Identify: the message codec is exact; two nodes learn exactly what the
      other says of itself however the stream is cut; buffers stay bounded. The
      exchange also shows that a message over the limit leaves the stream open.
    - Swarm: every sequence of transport events, driver reports, calls and polls
      keeps the tables in agreement (an inbound negotiation alone may belong to a
      connection that is not known), never panics or loops and never fails the
      debug assertion ([swarm_runs_are_safe]); what it announces refines one slot
      per peer that is filled and emptied in turn ([swarm_slots_refined]), for
      peers that are not placeholders and given a transport that does not verify two connections as the same peer, for
      which [verified_twice_is_not_replaced] computes what happens; a second
      connection that names a connected peer replaces the first in order; a closed connection leaves nothing
      behind; streams are negotiated and their data handed on unchanged and in
      order however the bytes are cut.
    - Identity: the varint, base58, base32, public-key and peer-identifier
      codecs are exact inverses on what they accept; the binary form of a
      multiaddress is exact; a peer address is a transport address followed by
      the peer. One theorem records that the base58 decoder reads only the low
      byte of a character.
    - Pubsub: the RPC codec is exact, control items included; a message that
      verifies was signed by the publisher it names over everything that is
      delivered ([pubsub_verify_sound]); the seen cache answers exactly, forgets
      exactly what expired and what exceeds its limit, oldest first. A floodsub
      router keeps its bounds whatever it is told, sends only frames within the
      limit of the other side's framing, and panics at most once all tokens are used
      ([floodsub_stays_in_bounds]); an announced change of subscriptions, cut in
      any way, brings the receiver to exactly the sender's snapshot, unless it has
      more topics than the receiver allows, which leaves the two in disagreement
      ([floodsub_subscriptions_agree]); a published message is delivered once
      and passed on unchanged to exactly the peers that want it
      ([floodsub_delivers]). The message cache of gossipsub is a queue of
      messages with ages ([message_cache_is_a_queue]).
    - Relay protocol: message codecs are exact; a reservation and a
      circuit are set up between honest machines however bytes are cut, early
      circuit data is kept within its bound and handed on in order, and the HOP
      responder refines a one-page conversation in which the status is what the
      service decided, at most once ([hop_conversation]).
    - DCUtR: whatever the remote does, an initiator says CONNECT once and SYNC at
      most once, a responder answers and reports in order, and buffers stay
      bounded; honest peers learn each other's addresses exactly and lose no
      byte that belongs to the application.
    - Relay service: under a valid configuration every run of the service keeps
      its limits on circuits, per peer and in all, on pending requests and on
      buffered bytes ([relay_limits_hold]); every circuit that was reported open
      is reported closed at most once; a tick clears everything that is due; a
      circuit delivers bytes unchanged and in order both ways and is closed at
      its byte limit. Rate limiters let through at most their capacity
      plus one attempt per interval, in every span of time, and starve nobody. [lapsed_renewal_exceeds_limit] computes a run
      in which the number of reservations passes its limit.

    ** Plan

    Modelled first: the wire codecs and the multiplexer, since all traffic
    passes through them; then negotiation, ping, identity, the bounded caches
    and limiters; then the relay protocol and the relay service, identify,
    addresses, keys, Noise, secure-mux, DCUtR and the core of the swarm, which
    ties the protocols of a connection together; then pubsub with its floodsub
    router. Next would be the gossipsub router, AutoNAT, the circuit transport
    and the NAT agent, which are clients of the swarm.

    ** What is not modelled

    Sockets, TLS and QUIC (third-party code and I/O), the swarm's driver, the
    operating system's clock and randomness, the FFI and Node.js bindings, the endpoint glue in
    [minip2p], the text form of multiaddresses, and the components listed above
    as next. Allocation is unbounded; [Display] texts are modelled only where
    they become data; debug assertions are modelled in the swarm and in pubsub.

    This file is the prelude of all others. *)

From Stdlib Require Export ZArith Lia Bool.
From Stdlib Require Import Strings.Byte Strings.String.
From stdpp Require Export base list gmap sorting strings.

#[global] Open Scope Z_scope.

(** * Outcomes of a call *)

(** How a call ends: a value, an [Err] (Rust's [Result::Err]), a panic
    ([expect], [unwrap], an overflowing subtraction), or a loop that has used
    up the bound its model was given ([Diverge]; the theorems exclude it). *)
Inductive res (E A : Type) : Type :=
  | Ok (a : A)
  | Err (e : E)
  | Panic
  | Diverge.
Arguments Ok {E A} a.
Arguments Err {E A} e.
Arguments Panic {E A}.
Arguments Diverge {E A}.

#[global] Instance res_ret {E} : MRet (res E) := λ A a, Ok a.
#[global] Instance res_bind {E} : MBind (res E) := λ A B f r,
  match r with
  | Ok a => f a
  | Err e => Err e
  | Panic => Panic
  | Diverge => Diverge
  end.

(** The call returns, with a value or an error. *)
Definition returns {E A} (r : res E A) : Prop :=
  match r with Ok _ | Err _ => True | Panic | Diverge => False end.

Lemma returns_bind {E A B} (r : res E A) (f : A → res E B) :
  returns r → (∀ a, returns (f a)) → returns (r ≫= f).
Proof. intros Hr Hf. destruct r; cbn; done || apply Hf. Qed.

Lemma bind_res_ok {E A B} (r : res E A) (f : A → res E B) b :
  r ≫= f = Ok b → ∃ a, r = Ok a ∧ f a = Ok b.
Proof. destruct r; cbn; try done. eauto. Qed.

(** [Option::ok_or]. *)
Definition ok_or {E A} (o : option A) (e : E) : res E A :=
  match o with Some a => Ok a | None => Err e end.

(** [Option::expect] / [Option::unwrap]. *)
Definition expect {E A} (o : option A) : res E A :=
  match o with Some a => Ok a | None => Panic end.

(** * Code that mutates a state and may fail *)

(** A method [fn f(&mut self) -> Result<A, E>]: the state it leaves behind is
    returned on every path, so that what an early [return Err(..)] has already
    changed stays changed. *)
Definition M (S E A : Type) : Type := S → S * res E A.

#[global] Instance M_ret {S E} : MRet (M S E) := λ A a s, (s, Ok a).
#[global] Instance M_bind {S E} : MBind (M S E) := λ A B f m s,
  match m s with
  | (s', Ok a) => f a s'
  | (s', Err e) => (s', Err e)
  | (s', Panic) => (s', Panic)
  | (s', Diverge) => (s', Diverge)
  end.

Definition lift {S E A} (r : res E A) : M S E A := λ s, (s, r).
Definition gets {S E A} (f : S → A) : M S E A := λ s, (s, Ok (f s)).
Definition modify {S E} (f : S → S) : M S E unit := λ s, (f s, Ok tt).
(** A read of the state that may itself fail. *)
Definition reads {S E A} (f : S → res E A) : M S E A := λ s, (s, f s).
Definition throw {S E A} (e : E) : M S E A := λ s, (s, Err e).

(** Run [m] on a part of the state ([&mut self.field]); what it changed there
    is written back on every path. *)
Definition zoom {S T E A} (get : S → T) (put : T → S → S) (m : M T E A) : M S E A :=
  λ s, let '(t, r) := m (get s) in (put t s, r).

(** A [Result] that is matched on for its success only ([let Ok(..) = .. else]). *)
Definition attempt {S E E' A} (r : res E A) : M S E' (option A) := λ s,
  (s, match r with Ok a => Ok (Some a) | Err _ => Ok None | Panic => Panic | Diverge => Diverge end).

(** [for x in l { .. }]. *)
Fixpoint for_each {S E A} (f : A → M S E unit) (l : list A) : M S E unit :=
  match l with
  | [] => mret tt
  | x :: l => _ ← f x; for_each f l
  end.

(** [Result::expect]. *)
Definition expect_ok {E A} (r : res E A) : res E A :=
  match r with Err _ => Panic | r => r end.

Lemma bind_ok {S E A B} (m : M S E A) (f : A → M S E B) s s' b :
  (m ≫= f) s = (s', Ok b) ↔ ∃ a s1, m s = (s1, Ok a) ∧ f a s1 = (s', Ok b).
Proof.
  unfold mbind, M_bind. destruct (m s) as [s1 [a|e| |]]; split; try done; [by eauto|..].
  all: intros (? & ? & [= <- <-] & ?); done || intros (? & ? & ? & ?); done.
Qed.

(** Running a step whose result is known. *)
Lemma run_ok {S E A B} (m : M S E A) (f : A → M S E B) s s' a : m s = (s', Ok a) → (m ≫= f) s = f a s'.
Proof. intros Hm. unfold mbind, M_bind. by rewrite Hm. Qed.
(** Running a step that cannot fail. *)
Lemma run_gets {S E A B} (g : S → A) (f : A → M S E B) s : (gets g ≫= f) s = f (g s) s.
Proof. done. Qed.
Lemma run_modify {S E B} (g : S → S) (f : unit → M S E B) s : (modify g ≫= f) s = f tt (g s).
Proof. done. Qed.
Lemma run_ret {S E A B} (a : A) (f : A → M S E B) s : (mret a ≫= f) s = f a s.
Proof. done. Qed.
Lemma run_gets_bind {S E A B C} (g : S → A) (f : A → M S E B) (h : B → M S E C) s :
  ((gets g ≫= f) ≫= h) s = (f (g s) ≫= h) s.
Proof. done. Qed.
Lemma run_modify_bind {S E B C} (g : S → S) (f : unit → M S E B) (h : B → M S E C) s :
  ((modify g ≫= f) ≫= h) s = (f tt ≫= h) (g s).
Proof. done. Qed.
(** A step that leaves the state alone. *)
Lemma run_lift {S E A B} (r : res E A) (f : A → M S E B) s :
  (lift r ≫= f) s = match r with Ok a => f a s | Err e => (s, Err e) | Panic => (s, Panic) | Diverge => (s, Diverge) end.
Proof. by destruct r. Qed.
Lemma run_lift_bind {S E A B C} (r : res E A) (f : A → M S E B) (h : B → M S E C) s :
  ((lift r ≫= f) ≫= h) s =
    match r with Ok a => (f a ≫= h) s | Err e => (s, Err e) | Panic => (s, Panic) | Diverge => (s, Diverge) end.
Proof. by destruct r. Qed.
Lemma run_attempt {S E E' A B} (r : res E A) (f : option A → M S E' B) s :
  (attempt r ≫= f) s = match r with Ok a => f (Some a) s | Err _ => f None s | Panic => (s, Panic) | Diverge => (s, Diverge) end.
Proof. by destruct r. Qed.

(** [wp m Q X s]: run from [s], [m] neither panics nor runs out of its loop
    bound; a normal return satisfies [Q], an error return satisfies [X]. *)
Definition wp {S E A} (m : M S E A) (Q : A → S → Prop) (X : E → S → Prop)
    (s : S) : Prop :=
  match m s with
  | (s', Ok a) => Q a s'
  | (s', Err e) => X e s'
  | (_, Panic) => False
  | (_, Diverge) => False
  end.

Section WpRules.
Context {S E : Type}.
Implicit Types s : S.

Lemma wp_ret {A} (a : A) (Q : A → S → Prop) (X : E → S → Prop) s :
  Q a s → wp (mret a) Q X s.
Proof. done. Qed.

Lemma wp_bind {A B} (m : M S E A) (f : A → M S E B) Q X s :
  wp m (λ a s', wp (f a) Q X s') X s → wp (m ≫= f) Q X s.
Proof.
  unfold wp, mbind, M_bind. destruct (m s) as [s' [a|e| |]]; naive_solver.
Qed.

Lemma wp_gets {A} (f : S → A) (Q : A → S → Prop) (X : E → S → Prop) s :
  Q (f s) s → wp (gets f) Q X s.
Proof. done. Qed.

Lemma wp_modify (f : S → S) (Q : unit → S → Prop) (X : E → S → Prop) s :
  Q tt (f s) → wp (modify f) Q X s.
Proof. done. Qed.

Lemma wp_throw {A} e (Q : A → S → Prop) (X : E → S → Prop) s :
  X e s → wp (throw e) Q X s.
Proof. done. Qed.

Lemma wp_lift {A} (r : res E A) (Q : A → S → Prop) (X : E → S → Prop) s :
  match r with Ok a => Q a s | Err e => X e s | _ => False end →
  wp (lift r) Q X s.
Proof. destruct r; done. Qed.

Lemma wp_zoom {T A} (get : S → T) put (m : M T E A) (Q : A → S → Prop) X s :
  wp m (λ a t, Q a (put t s)) (λ e t, X e (put t s)) (get s) →
  wp (zoom get put m) Q X s.
Proof. unfold wp, zoom. destruct (m (get s)) as [t [a|e| |]]; done. Qed.

Lemma wp_reads {A} (f : S → res E A) (Q : A → S → Prop) (X : E → S → Prop) s :
  match f s with Ok a => Q a s | Err e => X e s | _ => False end →
  wp (reads f) Q X s.
Proof. unfold wp, reads. by destruct (f s). Qed.

Lemma wp_mono {A} (m : M S E A) (Q Q' : A → S → Prop) (X X' : E → S → Prop) s :
  wp m Q X s → (∀ a s', Q a s' → Q' a s') → (∀ e s', X e s' → X' e s') →
  wp m Q' X' s.
Proof. unfold wp. destruct (m s) as [s' [a|e| |]]; naive_solver. Qed.

(** A specification may mention the run it is about. *)
Lemma wp_run {A} (m : M S E A) (Q : A → S → Prop) (X : E → S → Prop) s :
  wp m Q X s →
  wp m (λ a s', m s = (s', Ok a) ∧ Q a s') (λ e s', m s = (s', Err e) ∧ X e s') s.
Proof. unfold wp. by destruct (m s) as [s' [a|e| |]]. Qed.

(** A loop keeps what each of its rounds keeps. *)
Lemma wp_for_each {A} (f : A → M S E unit) l (I : S → Prop) (X : E → S → Prop) s :
  I s → (∀ x s', x ∈ l → I s' → wp (f x) (λ _, I) X s') → wp (for_each f l) (λ _, I) X s.
Proof.
  revert s. induction l as [|x l IH]; intros s Hs Hf; [done|]. cbn [for_each].
  apply wp_bind. eapply wp_mono; [apply Hf; [by left|done]| |done].
  intros u s' Hs'. apply IH; [done|]. intros y s'' Hy. apply Hf. by right.
Qed.

(** A specification that never reports an error. *)
Lemma wp_ok_run {A} (m : M S E A) (Q : A → S → Prop) s :
  wp m Q (λ _ _, False) s → ∃ a s', m s = (s', Ok a) ∧ Q a s'.
Proof. unfold wp. destruct (m s) as [s' [a|e| |]]; naive_solver. Qed.
End WpRules.

(** [moves R m]: however [m] ends, the state it leaves is [R]-related to the
    one it started from. With [R] a preorder this is checked piece by piece. *)
Definition moves {S E A} (R : S → S → Prop) (m : M S E A) : Prop := ∀ s, R s (m s).1.

Section Moves.
Context {S E : Type} (R : S → S → Prop) `{!PreOrder R}.

Lemma moves_stay {A} (m : M S E A) : (∀ s, (m s).1 = s) → moves R m.
Proof. intros H s. rewrite H. done. Qed.

Lemma moves_bind {A B} (m : M S E A) (f : A → M S E B) :
  moves R m → (∀ a, moves R (f a)) → moves R (m ≫= f).
Proof.
  intros Hm Hf s. unfold mbind, M_bind. specialize (Hm s).
  destruct (m s) as [s' [a|e| |]]; try done. cbn in Hm. etrans; [done|apply Hf].
Qed.

Lemma moves_modify (f : S → S) : (∀ s, R s (f s)) → moves R (modify (E := E) f).
Proof. done. Qed.

Lemma moves_zoom {T A} (get : S → T) put (m : M T E A) :
  (∀ s t, R s (put t s)) → moves R (zoom get put m).
Proof. intros H s. unfold zoom. destruct (m (get s)). apply H. Qed.
End Moves.

(** Split a program into its primitive steps. *)
Ltac moves_steps :=
  repeat first
    [ progress intros
    | solve [auto with moves]
    | apply moves_bind; [typeclasses eauto|..]
    | apply moves_stay; [typeclasses eauto|]; reflexivity
    | apply moves_modify
    | progress case_match ].
Create HintDb moves.

(** One step of symbolic execution. *)
Ltac wp_step :=
  lazymatch goal with
  | |- wp (mret _) _ _ _ => apply wp_ret
  | |- wp (mbind _ _) _ _ _ => apply wp_bind
  | |- wp (gets _) _ _ _ => apply wp_gets
  | |- wp (modify _) _ _ _ => apply wp_modify
  | |- wp (throw _) _ _ _ => apply wp_throw
  | |- wp (if ?b then _ else _) _ _ _ => destruct b eqn:?
  end; cbn beta.
Ltac wp_steps := repeat wp_step.

(** Rename the current state to a convertible, shorter one. *)
Ltac wp_state s :=
  lazymatch goal with |- wp ?m ?Q ?X _ => change (wp m Q X s) end.

(** Symbolic execution of a concrete run. *)
Ltac run_simpl :=
  cbv beta iota zeta delta [mbind M_bind res_bind mret M_ret res_ret lift gets
    reads modify throw ok_or expect]; cbn beta iota.

(** * Machine integers *)

(** Unsigned [w]-bit integers are elements of [Z]; [usize] is 64 bits wide. *)
Definition u8_max : Z := 255.
Definition u16_max : Z := 65535.
Definition u32_max : Z := 4294967295.
Definition u64_max : Z := 18446744073709551615.
Definition usize_max : Z := u64_max.

Definition checked_add (max a b : Z) : option Z :=
  if a + b <=? max then Some (a + b) else None.
Definition checked_sub (a b : Z) : option Z :=
  if b <=? a then Some (a - b) else None.
Definition saturating_add (max a b : Z) : Z := Z.min max (a + b).
Definition saturating_sub (a b : Z) : Z := Z.max 0 (a - b).
Definition wrapping_add (max a b : Z) : Z := (a + b) mod (max + 1).

Lemma checked_add_Some max a b : a + b ≤ max → checked_add max a b = Some (a + b).
Proof. intros. unfold checked_add. by destruct (Z.leb_spec (a + b) max); [|lia]. Qed.
Lemma checked_sub_Some a b : b ≤ a → checked_sub a b = Some (a - b).
Proof. intros. unfold checked_sub. by destruct (Z.leb_spec b a); [|lia]. Qed.

(** Plain [a - b] and [a += b] on an unsigned type: Rust's checked profile
    panics where the result does not fit. *)
Definition sub_or_panic {E} (a b : Z) : res E Z := expect (checked_sub a b).
Definition add_or_panic {E} (max a b : Z) : res E Z := expect (checked_add max a b).

(** Gluing a low part and a shifted high part with [|] is an addition. *)
Lemma lor_shiftl_add a b n :
  0 ≤ n → 0 ≤ a < 2 ^ n → Z.lor a (Z.shiftl b n) = a + b * 2 ^ n.
Proof.
  intros Hn Ha. rewrite <- Z.shiftl_mul_pow2 by done. symmetry.
  apply Z.add_nocarry_lor. apply Z.bits_inj'. intros i Hi.
  rewrite Z.land_spec, Z.bits_0. destruct (Z.ltb_spec i n).
  - rewrite Z.shiftl_spec_low by done. by rewrite andb_false_r.
  - destruct (decide (a = 0)) as [->|]; [by rewrite Z.bits_0|].
    rewrite (Z.bits_above_log2 a i); [done|lia|].
    apply Z.lt_le_trans with n; [|done]. apply Z.log2_lt_pow2; lia.
Qed.

(** * Bytes *)

Abbreviation byte := Byte.byte.
Abbreviation bytes := (list Byte.byte).

Definition b2z (b : byte) : Z := Z.of_N (Byte.to_N b).
Definition z2b (z : Z) : byte :=
  match Byte.of_N (Z.to_N (z mod 256)) with Some b => b | None => x00 end.

Lemma b2z_range b : 0 ≤ b2z b < 256.
Proof. unfold b2z. pose proof (Byte.to_N_bounded b). lia. Qed.

Lemma b2z_z2b z : b2z (z2b z) = z mod 256.
Proof.
  unfold b2z, z2b. pose proof (Z.mod_pos_bound z 256 ltac:(lia)) as Hb.
  destruct (Byte.of_N _) as [b|] eqn:Hof.
  - apply Byte.to_of_N in Hof. rewrite Hof. lia.
  - pose proof (Byte.to_of_N_option_map (Z.to_N (z mod 256))) as H.
    rewrite Hof in H. destruct (_ <=? 255)%N eqn:Hle; [done|].
    apply N.leb_gt in Hle. lia.
Qed.

Lemma z2b_b2z b : z2b (b2z b) = b.
Proof.
  unfold z2b, b2z. pose proof (Byte.to_N_bounded b).
  rewrite Z.mod_small by lia. rewrite N2Z.id. by rewrite Byte.of_to_N.
Qed.

Lemma b2z_z2b_small z : 0 ≤ z < 256 → b2z (z2b z) = z.
Proof. intros. rewrite b2z_z2b. by apply Z.mod_small. Qed.

#[global] Instance b2z_inj : Inj (=) (=) b2z.
Proof. intros x y H. rewrite <- (z2b_b2z x), <- (z2b_b2z y). by rewrite H. Qed.

#[global] Instance byte_eq_dec : EqDecision byte := Byte.byte_eq_dec.
#[global] Program Instance byte_countable : Countable byte :=
  inj_countable Byte.to_N Byte.of_N _.
Next Obligation. intros b. apply Byte.of_to_N. Qed.

(** The bytes of an ASCII literal. *)
Definition str (s : string) : bytes := String.list_byte_of_string s.

(** [to_be_bytes] / [from_be_bytes] of an [n]-byte unsigned integer. *)
Fixpoint be_bytes (n : nat) (v : Z) : bytes :=
  match n with
  | O => []
  | S n => z2b (v / 256 ^ Z.of_nat n) :: be_bytes n v
  end.
Definition be_value (l : bytes) : Z := foldl (λ acc b, acc * 256 + b2z b) 0 l.

Lemma length_be_bytes n v : length (be_bytes n v) = n.
Proof. induction n; simpl; congruence. Qed.

Lemma foldl_be_bytes n v acc :
  foldl (λ acc b, acc * 256 + b2z b) acc (be_bytes n v) =
  acc * 256 ^ Z.of_nat n + v mod 256 ^ Z.of_nat n.
Proof.
  revert acc. induction n as [|n IH]; intros acc; simpl.
  - rewrite Z.mod_1_r. lia.
  - rewrite IH, b2z_z2b. replace (Z.of_nat (S n)) with (Z.of_nat n + 1) by lia.
    set (p := 256 ^ Z.of_nat n). assert (0 < p) by (apply Z.pow_pos_nonneg; lia).
    rewrite Z.pow_add_r by lia. fold p. change (256 ^ 1) with 256.
    rewrite (Z.rem_mul_r v p 256) by lia. lia.
Qed.

Lemma be_value_be_bytes n v :
  0 ≤ v < 256 ^ Z.of_nat n → be_value (be_bytes n v) = v.
Proof.
  intros. unfold be_value. rewrite foldl_be_bytes.
  rewrite Z.mod_small by done. lia.
Qed.

Lemma be_value_range l : 0 ≤ be_value l < 256 ^ Z.of_nat (length l).
Proof.
  induction l as [|b l IH] using rev_ind; [done|].
  unfold be_value in *. rewrite foldl_app, length_app. simpl.
  replace (Z.of_nat (length l + 1)) with (Z.of_nat (length l) + 1) by lia.
  rewrite Z.pow_add_r by lia. change (256 ^ 1) with 256.
  pose proof (b2z_range b). lia.
Qed.

Lemma be_bytes_snoc n v : be_bytes (S n) v = be_bytes n (v / 256) ++ [z2b v].
Proof.
  induction n as [|n IH].
  - simpl. by rewrite Z.div_1_r.
  - change (be_bytes (S (S n)) v) with (z2b (v / 256 ^ Z.of_nat (S n)) :: be_bytes (S n) v).
    rewrite IH. simpl. f_equal. f_equal.
    replace (Z.of_nat (S n)) with (1 + Z.of_nat n) by lia.
    rewrite Z.pow_add_r by lia. change (256 ^ 1) with 256.
    by rewrite Z.div_div by (try apply Z.pow_pos_nonneg; lia).
Qed.

Lemma be_bytes_be_value l : be_bytes (length l) (be_value l) = l.
Proof.
  induction l as [|b l IH] using rev_ind; [done|].
  rewrite length_app, Nat.add_comm. cbn [length Nat.add].
  rewrite be_bytes_snoc. unfold be_value in *. rewrite foldl_app. cbn [foldl].
  pose proof (b2z_range b). f_equal.
  - rewrite Z.div_add_l, (Z.div_small (b2z b)), Z.add_0_r by lia. done.
  - unfold z2b. rewrite Z.add_comm, Z.mod_add by lia.
    by rewrite <- (z2b_b2z b) at 2.
Qed.

(** Length of a vector, as a machine integer. *)
Definition zlen {A} (l : list A) : Z := Z.of_nat (length l).

Lemma zlen_nonneg {A} (l : list A) : 0 ≤ zlen l.
Proof. unfold zlen. lia. Qed.
Lemma zlen_nil {A} : zlen (@nil A) = 0.
Proof. done. Qed.
Lemma zlen_cons {A} (x : A) l : zlen (x :: l) = zlen l + 1.
Proof. unfold zlen. simpl. lia. Qed.
Lemma zlen_app {A} (l1 l2 : list A) : zlen (l1 ++ l2) = zlen l1 + zlen l2.
Proof. unfold zlen. rewrite length_app. lia. Qed.
Lemma zlen_take {A} n (l : list A) :
  zlen (take (Z.to_nat n) l) = Z.min (Z.max 0 n) (zlen l).
Proof. unfold zlen. rewrite length_take. lia. Qed.
Lemma zlen_drop {A} n (l : list A) :
  zlen (drop (Z.to_nat n) l) = Z.max 0 (zlen l - Z.max 0 n).
Proof. unfold zlen. rewrite length_drop. lia. Qed.
Lemma zlen_zero_inv {A} (l : list A) : zlen l = 0 → l = [].
Proof. unfold zlen. destruct l; simpl; [done|lia]. Qed.
Lemma to_nat_zlen {A} (l : list A) : Z.to_nat (zlen l) = length l.
Proof. unfold zlen. lia. Qed.

Create Rewrite HintDb zlen.
#[export] Hint Rewrite @zlen_nil @zlen_cons @zlen_app @zlen_take @zlen_drop : zlen.

(** Linear arithmetic about vector lengths. *)
Ltac zlen_lia :=
  autorewrite with zlen in *;
  repeat match goal with
  | |- context [zlen ?l] =>
      lazymatch goal with
      | H : 0 ≤ zlen l |- _ => fail
      | _ => pose proof (zlen_nonneg l)
      end
  | H0 : context [zlen ?l] |- _ =>
      lazymatch goal with
      | H : 0 ≤ zlen l |- _ => fail
      | _ => pose proof (zlen_nonneg l)
      end
  end; lia.

(** [slice.get(from..to)]. *)
Definition slice {A} (l : list A) (from to : Z) : option (list A) :=
  if (from <=? to) && (to <=? zlen l)
  then Some (take (Z.to_nat (to - from)) (drop (Z.to_nat from) l))
  else None.

Lemma slice_Some_iff {A} (l : list A) a b s :
  0 ≤ a → slice l a b = Some s ↔
  ∃ p q, l = p ++ s ++ q ∧ zlen p = a ∧ zlen s = b - a.
Proof.
  intros Ha. unfold slice. split.
  - destruct ((a <=? b) && (b <=? zlen l)) eqn:Hb; [|done]. intros [= <-].
    apply andb_prop in Hb as [H1%Z.leb_le H2%Z.leb_le].
    exists (take (Z.to_nat a) l), (drop (Z.to_nat (b - a)) (drop (Z.to_nat a) l)).
    rewrite take_drop, take_drop. split_and!; [done|zlen_lia..].
  - intros (p & q & -> & <- & Hs).
    destruct (Z.leb_spec (zlen p) b); [|zlen_lia].
    destruct (Z.leb_spec b (zlen (p ++ s ++ q))); [|zlen_lia]. simpl.
    rewrite to_nat_zlen, drop_app_length. rewrite <- Hs, to_nat_zlen.
    by rewrite take_app_length.
Qed.

Lemma slice_None {A} (l : list A) a b :
  0 ≤ a ≤ b → slice l a b = None → zlen l < b.
Proof.
  intros Hab. unfold slice. destruct (Z.leb_spec a b); [|lia].
  destruct (Z.leb_spec b (zlen l)); [done|lia].
Qed.

Lemma slice_app {A} (l more : list A) a b s :
  0 ≤ a → slice l a b = Some s → slice (l ++ more) a b = Some s.
Proof.
  intros Ha. rewrite !slice_Some_iff by done. intros (p & q & -> & Hp & Hs).
  exists p, (q ++ more). by rewrite <- !app_assoc.
Qed.

Lemma slice_after {A} (p l : list A) n :
  0 ≤ n ≤ zlen l → slice (p ++ l) (zlen p) (zlen p + n) = Some (take (Z.to_nat n) l).
Proof.
  intros Hn. apply slice_Some_iff; [apply zlen_nonneg|].
  exists p, (drop (Z.to_nat n) l). rewrite take_drop.
  split_and!; [done|done|zlen_lia].
Qed.

(** [vec.drain(..n)] keeps what follows the first [n] elements; a range past
    the end panics. *)
Definition drain_front {E A} (l : list A) (n : Z) : res E (list A) :=
  if n <=? zlen l then Ok (drop (Z.to_nat n) l) else Panic.

(** Two splits of one list: one of the first parts is longer. *)
Lemma app_split_cases {A} (l1 l2 k1 k2 : list A) :
  l1 ++ l2 = k1 ++ k2 →
  (∃ k, l1 = k1 ++ k ∧ k2 = k ++ l2) ∨
  (∃ k, k ≠ [] ∧ k1 = l1 ++ k ∧ l2 = k ++ k2).
Proof.
  intros (k & [[-> ->]|[-> ->]])%app_eq_app; [by left; exists k|].
  destruct (decide (k = [])) as [->|]; [|by right; exists k].
  left. exists []. by rewrite !app_nil_r.
Qed.

Lemma drain_front_app {E A} (l k : list A) : drain_front (E := E) (l ++ k) (zlen l) = Ok k.
Proof.
  unfold drain_front. destruct (Z.leb_spec (zlen l) (zlen (l ++ k))); [|zlen_lia].
  by rewrite to_nat_zlen, drop_app_length.
Qed.

(** [b] is a beginning of [f], but not all of it. *)
Definition strict_prefix {A} (b f : list A) : Prop := ∃ k, k ≠ [] ∧ f = b ++ k.

Lemma strict_prefix_app {A} (b d f : list A) : strict_prefix (b ++ d) f → strict_prefix b f.
Proof.
  intros (k & Hk & ->). exists (d ++ k). rewrite <- app_assoc. split; [|done].
  by intros [_ ?]%app_eq_nil.
Qed.

(** Where a sequence of pieces completes its beginning [f]. *)
Lemma chunks_complete {A} (cs : list (list A)) (f rest : list A) :
  f ≠ [] → concat cs = f ++ rest →
  ∃ pre c post r, cs = pre ++ c :: post ∧ strict_prefix (concat pre) f ∧
    concat pre ++ c = f ++ r ∧ rest = r ++ concat post.
Proof.
  revert f. induction cs as [|c cs IH]; intros f Hf Hc; cbn in Hc.
  { symmetry in Hc. by apply app_eq_nil in Hc as [-> _]. }
  pose proof Hc as [(k & -> & Hr)|(k & Hk & -> & Hr)]%app_split_cases.
  - exists [], (f ++ k), cs, k. split_and!; [done|by exists f|done|done].
  - destruct (IH k Hk Hr) as (pre & c' & post & r & -> & (k' & Hk' & ->) & Hcut & ->).
    exists (c :: pre), c', post, r. cbn. split_and!; [done|exists k'; by rewrite app_assoc| |done].
    rewrite <- !app_assoc in *. by rewrite Hcut.
Qed.

(** * Ordered maps *)

(** The keys of a [BTreeMap]: a type with a total order ([Ord]). *)
Class BTreeKey (K : Type) `{Countable K} := {
  key_le : relation K;
  key_le_dec :: RelDecision key_le;
  key_le_order :: TotalOrder key_le;
}.

#[global] Instance Z_le_order : TotalOrder Z.le.
Proof. split; [split; [apply _|intros ? ? ? ?; lia]|intros ? ?; unfold strict; lia]. Qed.
#[global] Instance Z_btree_key : BTreeKey Z := {| key_le := Z.le |}.

(** [BTreeMap<K, _>] is a [gmap K _]; its iteration order is the increasing
    order of the keys. *)
Section BTree.
Context `{BTreeKey K} {A : Type}.
Implicit Types m : gmap K A.

Definition btree_keys m : list K := merge_sort key_le (map_to_list m).*1.

Lemma btree_keys_perm m : btree_keys m ≡ₚ (map_to_list m).*1.
Proof. apply merge_sort_Permutation. Qed.

Lemma elem_of_btree_keys m k : k ∈ btree_keys m ↔ is_Some (m !! k).
Proof.
  rewrite btree_keys_perm, list_elem_of_fmap. split.
  - intros [[k' x] [-> Hin]]. apply elem_of_map_to_list in Hin. by exists x.
  - intros [x Hx]. exists (k, x). split; [done|]. by apply elem_of_map_to_list.
Qed.

Lemma NoDup_btree_keys m : NoDup (btree_keys m).
Proof. rewrite btree_keys_perm. apply NoDup_fst_map_to_list. Qed.

Lemma Sorted_btree_keys m : Sorted key_le (btree_keys m).
Proof. apply Sorted_merge_sort. apply _. Qed.

Lemma btree_keys_empty : btree_keys ∅ = [].
Proof. unfold btree_keys. by rewrite map_to_list_empty. Qed.
End BTree.

(** The entries of a [BTreeMap] in its iteration order. *)
Definition btree_iter `{BTreeKey K} {A} (m : gmap K A) : list (K * A) :=
  omap (λ k, (k,.) <$> m !! k) (btree_keys m).

Lemma elem_of_btree_iter `{BTreeKey K} {A} (m : gmap K A) k x : (k, x) ∈ btree_iter m ↔ m !! k = Some x.
Proof.
  unfold btree_iter. rewrite list_elem_of_omap. split.
  - intros (k' & _ & Hk). destruct (m !! k') as [y|] eqn:Hy; [|done]. cbn in Hk. by injection Hk as <- <-.
  - intros Hk. exists k. split; [by apply elem_of_btree_keys; exists x|]. by rewrite Hk.
Qed.

(** Keys compared through an injection, and pairs compared field by field, as
    [derive(Ord)] does. *)
Section DerivedOrder.
Context `{BTreeKey K} {A : Type} `{Countable A} (f : A → K) `{!Inj (=) (=) f}.

#[local] Instance inj_key_order : TotalOrder (λ x y, key_le (f x) (f y)).
Proof.
  split; [split; [split|]|].
  - intros x. reflexivity.
  - intros x y z. apply transitivity.
  - intros x y Hxy Hyx. apply (inj f). by apply (anti_symm key_le).
  - intros x y. destruct (trichotomy (strict key_le) (f x) (f y)) as [Hs|[Hs|Hs]]; unfold strict in *;
      [by left|right; left; by apply (inj f)|by right; right].
Qed.
#[local] Instance inj_key_dec : RelDecision (λ x y, key_le (f x) (f y)).
Proof. intros x y. apply key_le_dec. Defined.
Definition inj_btree_key : BTreeKey A := {| key_le x y := key_le (f x) (f y) |}.
End DerivedOrder.

Section PairOrder.
Context `{BTreeKey K} `{BTreeKey L}.

Definition pair_le (x y : K * L) : Prop := strict key_le x.1 y.1 ∨ x.1 = y.1 ∧ key_le x.2 y.2.
#[local] Instance pair_le_dec : RelDecision pair_le.
Proof. intros x y. unfold pair_le, strict. apply _. Defined.
#[local] Instance pair_order : TotalOrder pair_le.
Proof.
  split; [split; [split|]|].
  - intros x. by right.
  - intros [x1 x2] [y1 y2] [z1 z2] [Hxy|[Hxy Hxy2]] [Hyz|[Hyz Hyz2]]; cbn in *; subst;
      [left; by etrans|by left|by left|right; cbn; split; [done|by etrans]].
  - intros [x1 x2] [y1 y2] [[? ?]|[Hx Hxy]] [[? ?]|[Hy Hyx]]; cbn in *; subst; try done.
    f_equal. by apply (anti_symm key_le).
  - intros [x1 x2] [y1 y2]. unfold pair_le, strict. cbn.
    destruct (trichotomy (strict key_le) x1 y1) as [Hs|[->|Hs]].
    + left. split; [by left|]. intros [[? ?]|[-> ?]]; destruct Hs; tauto.
    + destruct (trichotomy (strict key_le) x2 y2) as [[Hs Hn]|[->|[Hs Hn]]]; [left|by right; left|right; right].
      all: split; [by right|]; intros [[? ?]|[_ ?]]; done.
    + right. right. split; [by left|]. intros [[? ?]|[-> ?]]; destruct Hs; tauto.
Qed.
#[global] Instance pair_btree_key : BTreeKey (K * L) := {| key_le := pair_le |}.
End PairOrder.

(** Byte strings of one length, compared as [[u8; N]] compares them. *)
Definition bytes_key (b : bytes) : Z * Z := (zlen b, be_value b).
#[global] Instance bytes_key_inj : Inj (=) (=) bytes_key.
Proof.
  intros x y [= Hl Hv]. rewrite <- (be_bytes_be_value x), <- (be_bytes_be_value y), Hv.
  f_equal. unfold zlen in Hl. lia.
Qed.

(** [iter().min()]. *)
Definition list_min (l : list Z) : option Z :=
  foldr (λ x o, Some match o with Some y => Z.min x y | None => x end) None l.
(** [into_iter().flatten().min()]. *)
Definition min_of (l : list (option Z)) : option Z := list_min (omap id l).

Lemma list_min_Some l d : list_min l = Some d → d ∈ l ∧ ∀ x, x ∈ l → d ≤ x.
Proof.
  revert d. induction l as [|x l IH]; [done|]. intros d Hd.
  change (list_min (x :: l)) with (Some match list_min l with Some y => Z.min x y | None => x end) in Hd.
  injection Hd as <-. destruct (list_min l) as [y|] eqn:Hy.
  - destruct (IH y eq_refl) as [Hin Hle]. split.
    + destruct (Z.min_spec x y) as [[_ ->]|[_ ->]]; [by left|by right].
    + intros z [->|Hz]%elem_of_cons; [lia|]. specialize (Hle z Hz). lia.
  - split; [by left|]. intros z [->|Hz]%elem_of_cons; [lia|]. destruct l; [by apply elem_of_nil in Hz|done].
Qed.

(** How many entries of a map satisfy a test. *)
Section MapCount.
Context `{Countable K} {A : Type} (f : K → A → bool).
Implicit Types m : gmap K A.

Definition map_count m : Z := map_fold (λ k x acc, (if f k x then 1 else 0) + acc) 0 m.

Lemma map_count_empty : map_count ∅ = 0.
Proof. apply map_fold_empty. Qed.
Lemma map_count_insert_None m k x :
  m !! k = None → map_count (<[k:=x]> m) = (if f k x then 1 else 0) + map_count m.
Proof. intros. unfold map_count. rewrite map_fold_insert_L; [done| |done]. lia. Qed.
Lemma map_count_nonneg m : 0 ≤ map_count m.
Proof.
  induction m as [|k x m Hk IH] using map_ind; [by rewrite map_count_empty|].
  rewrite map_count_insert_None by done. destruct (f k x); lia.
Qed.
Lemma map_count_delete m k x :
  m !! k = Some x → map_count m = (if f k x then 1 else 0) + map_count (delete k m).
Proof.
  intros Hk. rewrite <- (insert_delete_id m k x Hk) at 1. apply map_count_insert_None, lookup_delete_eq.
Qed.
Lemma map_count_insert_le m k x : map_count (<[k:=x]> m) ≤ (if f k x then 1 else 0) + map_count m.
Proof.
  rewrite <- insert_delete_eq, map_count_insert_None by apply lookup_delete_eq.
  destruct (m !! k) as [y|] eqn:Hy.
  - rewrite (map_count_delete m k y Hy). destruct (f k y); lia.
  - rewrite delete_id by done. lia.
Qed.
End MapCount.

(** A map whose counted entries are counted entries of another. *)
Lemma map_count_mono `{Countable K} {A B} (f : K → A → bool) (g : K → B → bool) (m : gmap K A) (n : gmap K B) :
  (∀ k x, m !! k = Some x → f k x = true → ∃ y, n !! k = Some y ∧ g k y = true) →
  map_count f m ≤ map_count g n.
Proof.
  revert n. induction m as [|k x m Hk IH] using map_ind; intros n Hn.
  { rewrite map_count_empty. apply map_count_nonneg. }
  rewrite map_count_insert_None by done. destruct (f k x) eqn:Hf.
  - destruct (Hn k x) as (y & Hy & Hg); [apply lookup_insert_eq|done|].
    rewrite (map_count_delete g n k y Hy), Hg. specialize (IH (delete k n)).
    assert (map_count f m ≤ map_count g (delete k n)); [|lia]. apply IH. intros j z Hj Hfj.
    assert (k ≠ j) by (intros ->; congruence).
    destruct (Hn j z) as (y' & Hy' & Hg'); [by rewrite lookup_insert_ne|done|].
    exists y'. by rewrite lookup_delete_ne.
  - assert (map_count f m ≤ map_count g n); [|lia]. apply IH. intros j z Hj Hfj.
    apply (Hn j z); [|done]. rewrite lookup_insert_ne; [done|]. intros ->. congruence.
Qed.

Lemma map_count_size `{Countable K} {A} (m : gmap K A) : map_count (λ _ _, true) m = Z.of_nat (size m).
Proof.
  induction m as [|k x m Hk IH] using map_ind; [by rewrite map_count_empty, map_size_empty|].
  rewrite map_count_insert_None, map_size_insert_None, IH by done. lia.
Qed.

(** Sum of a weight over the values of a map. *)
Section MapSum.
Context `{Countable K} {A : Type} (f : A → Z).
Implicit Types m : gmap K A.

Definition map_sum m : Z := map_fold (λ _ x acc, f x + acc) 0 m.

Lemma map_sum_empty : map_sum ∅ = 0.
Proof. apply map_fold_empty. Qed.

Lemma map_sum_insert_None m k x :
  m !! k = None → map_sum (<[k:=x]> m) = f x + map_sum m.
Proof. intros. unfold map_sum. rewrite map_fold_insert_L; [done| |done]. lia. Qed.

Lemma map_sum_delete m k x :
  m !! k = Some x → map_sum m = f x + map_sum (delete k m).
Proof.
  intros Hk. rewrite <- (insert_delete_id m k x Hk) at 1.
  apply map_sum_insert_None, lookup_delete_eq.
Qed.

Lemma map_sum_update m k x y :
  m !! k = Some x → map_sum (<[k:=y]> m) = map_sum m - f x + f y.
Proof.
  intros Hk. rewrite <- insert_delete_eq, map_sum_insert_None
    by apply lookup_delete_eq.
  rewrite (map_sum_delete m k x Hk). lia.
Qed.

Lemma map_sum_nonneg m :
  (∀ k x, m !! k = Some x → 0 ≤ f x) → 0 ≤ map_sum m.
Proof.
  induction m as [|k x m Hk IH] using map_ind; intros Hf.
  - by rewrite map_sum_empty.
  - rewrite map_sum_insert_None by done.
    assert (0 ≤ f x) by (apply (Hf k); apply lookup_insert_eq).
    assert (0 ≤ map_sum m); [|lia].
    apply IH. intros j y Hj. apply (Hf j). rewrite lookup_insert_ne; [done|].
    intros ->. congruence.
Qed.
End MapSum.
