(* ===== verification/Duplex.v ===== *)
(** Two machines joined by two byte pipes that may cut what is in flight
    anywhere, under every schedule of polls and arrivals: if what each machine
    has put out is a function of the bytes it has received, however they came,
    then every run of the pair is bounded, never stuck before it is over, and
    ends with both having heard the other out. *)

From S2P Require Import Prelude.

(** The two sides are [true] and [false]. *)
Definition upd {T} (b : bool) (x : T) (f : bool → T) : bool → T := λ c, if bool_decide (c = b) then x else f c.
Lemma upd_same {T} b (x : T) f : upd b x f b = x.
Proof. unfold upd. by rewrite bool_decide_true. Qed.
Lemma upd_other {T} b c (x : T) f : c ≠ b → upd b x f c = f c.
Proof. intros Hne. unfold upd. by rewrite bool_decide_false. Qed.
Lemma side_cases (b c : bool) : c = b ∨ c = negb b.
Proof. destruct b, c; auto. Qed.
Lemma negb_ne b : negb b ≠ b.
Proof. by destruct b. Qed.

Section Duplex.
Context {S O Ev : Type}.
(** Taking the next output, offering bytes, what an output puts on the wire and
    what it tells the owner. *)
Context (pop : S → option (O * S)) (feed : bytes → S → option S) (pending : S → list O) (wire : O → bytes) (event : O → list Ev).

Record Duplex := mkDuplex {
  machine : bool → S;
  (** The bytes on their way to a side. *)
  pipe : bool → bytes;
  log : bool → list Ev;
}.

Inductive duplex_step : Duplex → Duplex → Prop :=
  | duplex_poll b o s' n :
      pop (machine n b) = Some (o, s') →
      duplex_step n {| machine := upd b s' (machine n);
                       pipe := upd (negb b) (pipe n (negb b) ++ wire o) (pipe n);
                       log := upd b (log n b ++ event o) (log n) |}
  | duplex_arrive b chunk rest s' n :
      pipe n b = chunk ++ rest → chunk ≠ [] → feed chunk (machine n b) = Some s' →
      duplex_step n {| n with machine := upd b s' (machine n); pipe := upd b rest (pipe n) |}.

Definition duplex_quiescent (n : Duplex) : Prop := ∀ b, pending (machine n b) = [] ∧ pipe n b = [].

Definition wires (os : list O) : bytes := concat (wire <$> os).
Definition events (os : list O) : list Ev := concat (event <$> os).
Lemma duplex_wires_app a b : wires (a ++ b) = wires a ++ wires b.
Proof. unfold wires. by rewrite fmap_app, concat_app. Qed.
Lemma duplex_events_app a b : events (a ++ b) = events a ++ events b.
Proof. unfold events. by rewrite fmap_app, concat_app. Qed.

(** [view b rx outs s]: side [b], having received [rx], has put out [outs] in
    all and stands at [s]; the queue of outputs in [s] does not matter. [all b]
    is everything side [b] has to say. *)
Context (view : bool → bytes → list O → S → Prop) (all : bool → bytes) (most : nat) (verdict : bool → list Ev) (final : bool → S → Prop).
Record duplex_spec (init : bool → S) : Prop := {
  pop_Some s o s' : pop s = Some (o, s') → pending s = o :: pending s';
  pop_None s : pop s = None → pending s = [];
  view_pop b rx outs s o s' : view b rx outs s → pop s = Some (o, s') → view b rx outs s';
  view_feed b rx outs s chunk : view b rx outs s → chunk ≠ [] → rx ++ chunk `prefix_of` all (negb b) →
    ∃ s' new, feed chunk s = Some s' ∧ pending s' = pending s ++ new ∧ view b (rx ++ chunk) (outs ++ new) s';
  view_outs b rx outs s : view b rx outs s →
    wires outs `prefix_of` all b ∧ (length outs ≤ most)%nat ∧ events outs `prefix_of` verdict b;
  (** Two sides that have heard everything the other has said so far have heard
      everything. *)
  view_over rx outs ss : (∀ b, view b (rx b) (outs b) (ss b)) → (∀ b, rx b = wires (outs (negb b))) →
    ∀ b, events (outs b) = verdict b ∧ final b (ss b);
  view_init b : view b [] (pending (init b)) (init b);
}.
Context (init : bool → S) (Hspec : duplex_spec init).

Definition duplex_init : Duplex := mkDuplex init (λ _, []) (λ _, []).

Record duplex_inv (k : nat) (n : Duplex) (rx : bool → bytes) (sent : bool → list O) : Prop := {
  di_view b : view b (rx b) (sent b ++ pending (machine n b)) (machine n b);
  di_log b : log n b = events (sent b);
  di_pipe b : wires (sent (negb b)) = rx b ++ pipe n b;
  di_steps : (k ≤ length (rx true) + length (rx false) + length (sent true) + length (sent false))%nat;
}.

Lemma duplex_init_ok : duplex_inv 0 duplex_init (λ _, []) (λ _, []).
Proof. split; [apply (view_init _ Hspec)|done|done|lia]. Qed.

Lemma duplex_poll_ok k n rx sent b o s' :
  duplex_inv k n rx sent → pop (machine n b) = Some (o, s') →
  duplex_inv (1 + k) {| machine := upd b s' (machine n); pipe := upd (negb b) (pipe n (negb b) ++ wire o) (pipe n);
    log := upd b (log n b ++ event o) (log n) |} rx (upd b (sent b ++ [o]) sent).
Proof.
  intros [Hv Hl Hp Hk] Hpop. pose proof (pop_Some _ Hspec _ _ _ Hpop) as Hpend. split; cbn [machine pipe log].
  - intros c. destruct (side_cases b c) as [->| ->].
    + rewrite !upd_same, <- app_assoc. cbn. rewrite <- Hpend. by eapply (view_pop _ Hspec).
    + by rewrite !upd_other by apply negb_ne.
  - intros c. destruct (side_cases b c) as [->| ->].
    + rewrite !upd_same, duplex_events_app, Hl. unfold events at 3. cbn. by rewrite app_nil_r.
    + by rewrite !upd_other by apply negb_ne.
  - intros c. destruct (side_cases b c) as [->| ->].
    + rewrite !upd_other by (apply negb_ne || (symmetry; apply negb_ne) || by destruct b). apply Hp.
    + rewrite negb_involutive, !upd_same, duplex_wires_app. pose proof (Hp (negb b)) as Hpb. rewrite negb_involutive in Hpb. rewrite Hpb.
      unfold wires. cbn. by rewrite app_nil_r, app_assoc.
  - destruct b; rewrite upd_same, upd_other, length_app by done; cbn; lia.
Qed.

Lemma duplex_arrive_ok k n rx sent b chunk rest s' :
  duplex_inv k n rx sent → pipe n b = chunk ++ rest → chunk ≠ [] → feed chunk (machine n b) = Some s' →
  duplex_inv (1 + k) {| n with machine := upd b s' (machine n); pipe := upd b rest (pipe n) |} (upd b (rx b ++ chunk) rx) sent.
Proof.
  intros [Hv Hl Hp Hk] Hpipe Hne Hfeed.
  destruct (view_feed _ Hspec b (rx b) (sent b ++ pending (machine n b)) (machine n b) chunk (Hv b) Hne) as (s1 & new & Hs1 & Hpend & Hv').
  { destruct (view_outs _ Hspec (negb b) _ _ _ (Hv (negb b))) as (Hw & _). etrans; [|exact Hw]. rewrite duplex_wires_app.
    rewrite (Hp b), Hpipe. exists (rest ++ wires (pending (machine n (negb b)))). by rewrite <- !app_assoc. }
  rewrite Hfeed in Hs1. injection Hs1 as <-. split; cbn [machine pipe log].
  - intros c. destruct (side_cases b c) as [->| ->].
    + rewrite !upd_same, Hpend, app_assoc. done.
    + by rewrite !upd_other by apply negb_ne.
  - done.
  - intros c. destruct (side_cases b c) as [->| ->].
    + by rewrite !upd_same, (Hp b), Hpipe, <- app_assoc.
    + by rewrite !upd_other by apply negb_ne.
  - destruct chunk; [done|]. destruct b; rewrite upd_same, upd_other, length_app by done; cbn; lia.
Qed.

Lemma duplex_steps_ok k n : nsteps duplex_step k duplex_init n → ∃ rx sent, duplex_inv k n rx sent.
Proof.
  intros H. assert (∀ m n0, (∃ rx sent, duplex_inv m n0 rx sent) → nsteps duplex_step k n0 n → ∃ rx sent, duplex_inv (m + k) n rx sent) as Hgen.
  { clear H. induction k as [|k IH]; intros m n0 H0 Hs.
    - inversion Hs; subst. by rewrite Nat.add_0_r.
    - inversion Hs as [|? ? n1 ? Hstep Hrest]; subst. rewrite <- Nat.add_succ_comm. eapply IH; [|done].
      destruct H0 as (rx & sent & Hinv). destruct Hstep as [b o s' n0 Hpop|b chunk rest s' n0 Hpipe Hne Hfeed].
      + eexists _, _. by apply duplex_poll_ok.
      + eexists _, _. by eapply duplex_arrive_ok. }
  apply (Hgen 0%nat duplex_init); [|done]. eexists _, _. apply duplex_init_ok.
Qed.

Lemma duplex_bounded k n : nsteps duplex_step k duplex_init n → (k ≤ length (all true) + length (all false) + 2 * most)%nat.
Proof.
  intros (rx & sent & [Hv _ Hp Hk])%duplex_steps_ok.
  assert (∀ b, (length (rx b) ≤ length (all (negb b)))%nat ∧ (length (sent b) ≤ most)%nat) as Hb.
  { intros b. destruct (view_outs _ Hspec _ _ _ _ (Hv b)) as (_ & Hm & _). destruct (view_outs _ Hspec _ _ _ _ (Hv (negb b))) as (Hw%prefix_length & _).
    rewrite duplex_wires_app, (Hp b), !length_app in Hw. rewrite length_app in Hm. lia. }
  pose proof (Hb true). pose proof (Hb false). cbn in *. lia.
Qed.
Lemma duplex_logs k n b : nsteps duplex_step k duplex_init n → log n b `prefix_of` verdict b.
Proof.
  intros (rx & sent & [Hv Hl _ _])%duplex_steps_ok. destruct (view_outs _ Hspec _ _ _ _ (Hv b)) as (_ & _ & He). rewrite Hl. etrans; [|exact He].
  rewrite duplex_events_app. by apply prefix_app_r.
Qed.
(** Whatever piece of what is in flight arrives, it is accepted. *)
Lemma duplex_accepts k n b chunk rest :
  nsteps duplex_step k duplex_init n → pipe n b = chunk ++ rest → chunk ≠ [] → ∃ s', feed chunk (machine n b) = Some s'.
Proof.
  intros (rx & sent & [Hv _ Hp _])%duplex_steps_ok Hpipe Hne.
  destruct (view_feed _ Hspec b (rx b) (sent b ++ pending (machine n b)) (machine n b) chunk (Hv b) Hne) as (s1 & new & Hs1 & _); [|by exists s1].
  destruct (view_outs _ Hspec (negb b) _ _ _ (Hv (negb b))) as (Hw & _). etrans; [|exact Hw]. rewrite duplex_wires_app, (Hp b), Hpipe.
  exists (rest ++ wires (pending (machine n (negb b)))). by rewrite <- !app_assoc.
Qed.
Lemma duplex_progress k n : nsteps duplex_step k duplex_init n → ¬ duplex_quiescent n → ∃ n', duplex_step n n'.
Proof.
  intros Hs Hq. destruct (decide (pipe n true = [] ∧ pipe n false = [])) as [[Ht Hf]|Hpipe].
  - destruct (pop (machine n true)) as [[o s']|] eqn:H1; [by eexists; eapply duplex_poll|].
    destruct (pop (machine n false)) as [[o s']|] eqn:H2; [by eexists; eapply duplex_poll|].
    destruct Hq. intros []; (split; [by apply (pop_None _ Hspec)|done]).
  - assert (∃ b, pipe n b ≠ []) as [b Hb]. { destruct (decide (pipe n true = [])); [exists false|by exists true]. intros ?. by apply Hpipe. }
    destruct (duplex_accepts k n b (pipe n b) [] Hs ltac:(by rewrite app_nil_r) Hb) as [s1 Hs1].
    eexists. eapply (duplex_arrive b (pipe n b) []); [by rewrite app_nil_r|done|done].
Qed.
Lemma duplex_over k n b : nsteps duplex_step k duplex_init n → duplex_quiescent n → log n b = verdict b ∧ final b (machine n b).
Proof.
  intros (rx & sent & [Hv Hl Hp _])%duplex_steps_ok Hq. rewrite Hl. apply (view_over _ Hspec rx sent (machine n)).
  - intros c. destruct (Hq c) as [Hpend _]. pose proof (Hv c) as Hvc. by rewrite Hpend, app_nil_r in Hvc.
  - intros c. destruct (Hq c) as [_ Hpipe]. by rewrite (Hp c), Hpipe, app_nil_r.
Qed.
End Duplex.
