(* ===== verification/Varint.v ===== *)
(** Unsigned varints, from [crates/identity/src/peer_id.rs]: [uvarint_len],
    [write_uvarint], [read_uvarint] and [read_uvarint_with_remainder]. Every
    length prefix of the wire formats (multistream-select, the shared frame
    codec, the protobuf-style messages) goes through these four functions. *)

From S2P Require Import Prelude.

Inductive VarintError := BufferTooShort | Overflow | NonCanonical.

#[global] Instance VarintError_eq_dec : EqDecision VarintError.
Proof. solve_decision. Defined.

(** The loops below shift a value right by 7 until it is small enough;
    [log2] bounds how often that can happen. *)
Definition varint_fuel (value : Z) : nat := S (Z.to_nat (Z.log2 value)).

Fixpoint uvarint_len_loop (fuel : nat) (value len : Z) : Z :=
  match fuel with
  | O => len
  | S fuel =>
      if 0x80 <=? value
      then uvarint_len_loop fuel (Z.shiftr value 7) (len + 1)
      else len
  end.

Definition uvarint_len (value : Z) : Z :=
  uvarint_len_loop (varint_fuel value) value 1.

Fixpoint write_uvarint_loop (fuel : nat) (value : Z) (out : bytes) : bytes :=
  match fuel with
  | O => out
  | S fuel =>
      let byte := Z.land value 0x7f in
      let value := Z.shiftr value 7 in
      let byte := if negb (value =? 0) then Z.lor byte 0x80 else byte in
      let out := out ++ [z2b byte] in
      if value =? 0 then out else write_uvarint_loop fuel value out
  end.

(** [write_uvarint(value, out)] appends to [out]. *)
Definition write_uvarint (value : Z) (out : bytes) : bytes :=
  write_uvarint_loop (varint_fuel value) value out.

(** [low << shift] on a [u64]. *)
Definition u64_shl (low shift : Z) : Z := Z.shiftl low shift mod (u64_max + 1).

Fixpoint read_uvarint_loop (idx shift value : Z) (input : bytes)
    : res VarintError (Z * bytes) :=
  match input with
  | [] => Err BufferTooShort
  | byte :: rest =>
      let byte := b2z byte in
      if 10 <=? idx then Err Overflow
      else if (idx =? 9) && (negb (Z.land byte 0x80 =? 0) || (1 <? byte))
      then Err Overflow
      else
        let low := Z.land byte 0x7f in
        let value := Z.lor value (u64_shl low shift) in
        if Z.land byte 0x80 =? 0
        then
          if negb (idx + 1 =? uvarint_len value)
          then Err NonCanonical
          else Ok (value, rest)
        else read_uvarint_loop (idx + 1) (shift + 7) value rest
  end.

Definition read_uvarint_with_remainder (input : bytes)
    : res VarintError (Z * bytes) :=
  read_uvarint_loop 0 0 0 input.

Definition read_uvarint (input : bytes) : res VarintError (Z * Z) :=
  '(value, remaining) ← read_uvarint_with_remainder input;
  mret (value, zlen input - zlen remaining).

(** ** The loops as recursion equations *)

Lemma shiftr7 v : Z.shiftr v 7 = v / 128.
Proof. by rewrite Z.shiftr_div_pow2. Qed.

Lemma log2_shiftr7 v : 128 ≤ v → Z.log2 (Z.shiftr v 7) = Z.log2 v - 7.
Proof. intros. rewrite Z.log2_shiftr by lia.
  pose proof (Z.log2_le_mono 128 v ltac:(lia)).
  change (Z.log2 128) with 7 in *. lia. Qed.

Lemma uvarint_len_loop_acc fuel v len :
  uvarint_len_loop fuel v len = uvarint_len_loop fuel v 1 + (len - 1).
Proof.
  revert v len. induction fuel as [|fuel IH]; intros v len; simpl; [lia|].
  destruct (128 <=? v); [|lia].
  rewrite (IH _ (len + 1)), (IH _ (1 + 1)). lia.
Qed.

Lemma uvarint_len_loop_fuel f1 f2 v len :
  0 ≤ v → Z.log2 v < Z.of_nat f1 → Z.log2 v < Z.of_nat f2 →
  uvarint_len_loop f1 v len = uvarint_len_loop f2 v len.
Proof.
  revert f2 v len. induction f1 as [|f1 IH]; intros f2 v len Hv H1 H2.
  - pose proof (Z.log2_nonneg v). lia.
  - destruct f2 as [|f2]; [pose proof (Z.log2_nonneg v); lia|]. simpl.
    destruct (128 <=? v) eqn:Hle; [|done]. apply Z.leb_le in Hle.
    pose proof (log2_shiftr7 v Hle).
    apply IH; [apply Z.shiftr_nonneg; lia|lia|lia].
Qed.

Lemma varint_fuel_enough v : Z.log2 v < Z.of_nat (varint_fuel v).
Proof. unfold varint_fuel. pose proof (Z.log2_nonneg v). lia. Qed.

Lemma uvarint_len_small v : 0 ≤ v < 128 → uvarint_len v = 1.
Proof.
  intros. unfold uvarint_len, varint_fuel. simpl.
  by destruct (Z.leb_spec 128 v); [lia|].
Qed.

Lemma uvarint_len_step v : 128 ≤ v → uvarint_len v = 1 + uvarint_len (v / 128).
Proof.
  intros Hv. unfold uvarint_len at 1, varint_fuel. simpl.
  destruct (Z.leb_spec 128 v); [|lia].
  rewrite uvarint_len_loop_acc.
  pose proof (log2_shiftr7 v Hv). unfold uvarint_len.
  rewrite (uvarint_len_loop_fuel _ (varint_fuel (v / 128)));
    rewrite <- ?shiftr7; [lia|apply Z.shiftr_nonneg; lia| |apply varint_fuel_enough].
  pose proof (Z.log2_nonneg (Z.shiftr v 7)). lia.
Qed.

(** A canonical encoding, byte by byte: seven value bits per byte, the top
    bit set on every byte but the last. *)
Definition low7 (v : Z) : byte := z2b (v mod 128).
Definition cont7 (v : Z) : byte := z2b (v mod 128 + 128).

Lemma land_7f v : Z.land v 0x7f = v mod 128.
Proof. apply (Z.land_ones v 7). lia. Qed.

Lemma lor_cont v : Z.lor (v mod 128) 0x80 = v mod 128 + 128.
Proof.
  pose proof (Z.mod_pos_bound v 128 ltac:(lia)).
  apply (lor_shiftl_add (v mod 128) 1 7); lia.
Qed.

Lemma write_uvarint_loop_acc fuel v out :
  write_uvarint_loop fuel v out = out ++ write_uvarint_loop fuel v [].
Proof.
  revert v out. induction fuel as [|fuel IH]; intros v out; simpl.
  - by rewrite app_nil_r.
  - destruct (Z.shiftr v 7 =? 0); [done|].
    rewrite IH, (IH _ [_]). by rewrite app_assoc.
Qed.

Lemma write_uvarint_loop_fuel f1 f2 v out :
  0 ≤ v → Z.log2 v < Z.of_nat f1 → Z.log2 v < Z.of_nat f2 →
  write_uvarint_loop f1 v out = write_uvarint_loop f2 v out.
Proof.
  revert f2 v out. induction f1 as [|f1 IH]; intros f2 v out Hv H1 H2.
  - pose proof (Z.log2_nonneg v). lia.
  - destruct f2 as [|f2]; [pose proof (Z.log2_nonneg v); lia|]. simpl.
    destruct (Z.shiftr v 7 =? 0) eqn:Hz; [done|]. apply Z.eqb_neq in Hz.
    rewrite shiftr7 in Hz.
    assert (128 ≤ v) as Hle.
    { destruct (decide (v < 128)); [|lia].
      rewrite Z.div_small in Hz by lia. lia. }
    pose proof (log2_shiftr7 v Hle).
    apply IH; [apply Z.shiftr_nonneg; lia|lia|lia].
Qed.

Lemma write_uvarint_app v out : write_uvarint v out = out ++ write_uvarint v [].
Proof. apply write_uvarint_loop_acc. Qed.

Lemma write_uvarint_small v : 0 ≤ v < 128 → write_uvarint v [] = [low7 v].
Proof.
  intros. unfold write_uvarint, varint_fuel, low7. simpl.
  rewrite shiftr7, Z.div_small by lia. simpl. by rewrite land_7f.
Qed.

Lemma write_uvarint_step v :
  128 ≤ v → write_uvarint v [] = cont7 v :: write_uvarint (v / 128) [].
Proof.
  intros Hv. unfold write_uvarint at 1, varint_fuel, cont7. simpl.
  rewrite shiftr7. assert (v / 128 ≠ 0).
  { pose proof (Z.div_le_lower_bound v 128 1). lia. }
  destruct (Z.eqb_spec (v / 128) 0); [done|]. simpl.
  rewrite write_uvarint_loop_acc, land_7f, lor_cont. simpl. f_equal.
  pose proof (log2_shiftr7 v Hv) as Hlog. rewrite shiftr7 in Hlog.
  apply write_uvarint_loop_fuel; [apply Z.div_pos; lia| |apply varint_fuel_enough].
  pose proof (Z.log2_nonneg (v / 128)). lia.
Qed.

(** Induction along the seven-bit groups of a value. *)
Lemma varint_ind (P : Z → Prop) :
  (∀ v, 0 ≤ v < 128 → P v) →
  (∀ v, 128 ≤ v → 0 < v / 128 → P (v / 128) → P v) →
  ∀ v, 0 ≤ v → P v.
Proof.
  intros Hs Hl v. induction (Z.lt_wf 0 v) as [v _ IH]. intros Hv.
  destruct (decide (v < 128)); [apply Hs; lia|].
  assert (0 < v / 128) by (apply Z.div_str_pos; lia).
  apply Hl; [lia|done|]. apply IH; [|lia]. split; [lia|]. apply Z.div_lt; lia.
Qed.

(** [Enc w l]: [l] spells [w] in seven-bit groups, minimally or not. *)
Inductive Enc : Z → bytes → Prop :=
  | Enc_last b : b2z b < 128 → Enc (b2z b) [b]
  | Enc_more b w l : 128 ≤ b2z b → Enc w l →
      Enc (b2z b - 128 + 128 * w) (b :: l).

Lemma Enc_nonneg w l : Enc w l → 0 ≤ w.
Proof. induction 1 as [b|b w l]; pose proof (b2z_range b); lia. Qed.

Lemma Enc_length w l : Enc w l → 1 ≤ zlen l.
Proof. induction 1; zlen_lia. Qed.

Lemma low7_b2z b : b2z b < 128 → low7 (b2z b) = b.
Proof.
  intros. pose proof (b2z_range b). unfold low7.
  rewrite Z.mod_small by lia. apply z2b_b2z.
Qed.

Lemma uvarint_len_pos v : 0 ≤ v → 1 ≤ uvarint_len v.
Proof.
  revert v. apply varint_ind; [intros v ?|intros v ? ? IH].
  - rewrite uvarint_len_small; lia.
  - rewrite uvarint_len_step; lia.
Qed.

(** A spelling of the minimal length is the one [write_uvarint] produces. *)
Lemma Enc_canonical w l : Enc w l → zlen l = uvarint_len w → l = write_uvarint w [].
Proof.
  induction 1 as [b Hb|b w l Hb Henc IH]; intros Hlen.
  - pose proof (b2z_range b). rewrite write_uvarint_small by lia.
    by rewrite low7_b2z.
  - pose proof (b2z_range b). pose proof (Enc_nonneg _ _ Henc).
    pose proof (Enc_length _ _ Henc).
    destruct (decide (w = 0)) as [->|].
    { rewrite uvarint_len_small in Hlen by lia. zlen_lia. }
    assert ((b2z b - 128 + 128 * w) / 128 = w) as Hdiv.
    { rewrite Z.mul_comm, Z.div_add, Z.div_small; lia. }
    rewrite write_uvarint_step by lia. rewrite uvarint_len_step in Hlen by lia.
    rewrite Hdiv in *. rewrite <- IH by zlen_lia. f_equal.
    unfold cont7. rewrite Z.mul_comm, Z.mod_add, Z.mod_small by lia.
    replace (b2z b - 128 + 128) with (b2z b) by lia. by rewrite z2b_b2z.
Qed.

Lemma zlen_write_uvarint v : 0 ≤ v → zlen (write_uvarint v []) = uvarint_len v.
Proof.
  revert v. apply varint_ind; [intros v ?|intros v ? ? IH].
  - by rewrite write_uvarint_small, uvarint_len_small by lia.
  - rewrite write_uvarint_step, uvarint_len_step by lia. zlen_lia.
Qed.

(** ** Reading *)

Lemma land_80 b : (Z.land (b2z b) 0x80 =? 0) = (b2z b <? 128).
Proof. by destruct b. Qed.
Lemma land_7f_byte b : Z.land (b2z b) 0x7f = if b2z b <? 128 then b2z b else b2z b - 128.
Proof. by destruct b. Qed.

(** State of the loop after [idx] bytes: [idx] groups of seven bits read. *)
Definition reading (idx shift acc : Z) : Prop :=
  0 ≤ idx ≤ 10 ∧ shift = 7 * idx ∧ 0 ≤ acc < 2 ^ shift.

Lemma reading_or idx shift acc low :
  reading idx shift acc → idx ≤ 9 → 0 ≤ low < 128 → (idx = 9 → low ≤ 1) →
  Z.lor acc (u64_shl low shift) = acc + low * 2 ^ shift.
Proof.
  intros (Hi & -> & Hacc) H9 Hlow Htop. unfold u64_shl.
  rewrite Z.mod_small.
  - apply lor_shiftl_add; lia.
  - rewrite Z.shiftl_mul_pow2 by lia.
    assert (0 < 2 ^ (7 * idx)) by (apply Z.pow_pos_nonneg; lia).
    split; [nia|]. unfold u64_max. destruct (decide (idx = 9)) as [->|].
    + change (2 ^ (7 * 9)) with (2 ^ 63) in *. lia.
    + assert (2 ^ (7 * idx) ≤ 2 ^ 56) by (apply Z.pow_le_mono_r; lia).
      change (2 ^ 56) with 72057594037927936 in *. nia.
Qed.

Lemma reading_next idx shift acc low :
  reading idx shift acc → idx ≤ 9 → 0 ≤ low < 128 →
  reading (idx + 1) (shift + 7) (acc + low * 2 ^ shift).
Proof.
  intros (Hi & -> & Hacc) H9 Hlow.
  assert (0 < 2 ^ (7 * idx)) by (apply Z.pow_pos_nonneg; lia).
  split; [lia|]. split; [lia|].
  rewrite Z.pow_add_r by lia. change (2 ^ 7) with 128. nia.
Qed.

(** What a successful read consumed spells the value it returned. *)
Lemma read_uvarint_loop_Enc idx shift acc input v rest :
  reading idx shift acc →
  read_uvarint_loop idx shift acc input = Ok (v, rest) →
  ∃ w l, input = l ++ rest ∧ Enc w l ∧ v = acc + w * 2 ^ shift ∧
    idx + zlen l = uvarint_len v ∧ 0 ≤ v ≤ u64_max.
Proof.
  revert idx shift acc. induction input as [|b input IH]; simpl;
    intros idx shift acc Hr; [done|].
  rewrite land_80, land_7f_byte. pose proof (b2z_range b).
  destruct (Z.leb_spec 10 idx); [done|].
  destruct ((idx =? 9) && _) eqn:Htop; [done|].
  assert (idx = 9 → b2z b ≤ 1).
  { intros ->. destruct (Z.ltb_spec 1 (b2z b)); [|done].
    rewrite Z.eqb_refl, orb_true_r in Htop. done. }
  destruct (Z.ltb_spec (b2z b) 128).
  - rewrite (reading_or idx) by (done || lia).
    destruct (_ =? uvarint_len _) eqn:Hlen; simpl; [|done].
    apply Z.eqb_eq in Hlen. intros [= <- <-]. exists (b2z b), [b].
    split_and!; [done|by constructor|done|zlen_lia|..].
    + destruct Hr as (? & -> & ?). assert (0 < 2 ^ (7 * idx)) by lia. nia.
    + pose proof (reading_next _ _ _ (b2z b) Hr) as Hn.
      destruct (decide (idx = 9)) as [->|].
      * destruct Hr as (_ & -> & Hacc). unfold u64_max.
        change (2 ^ (7 * 9)) with 9223372036854775808 in *. nia.
      * destruct Hn as (_ & _ & Hv); [lia..|].
        destruct Hr as (_ & -> & _).
        assert (2 ^ (7 * idx + 7) ≤ 2 ^ 63) by (apply Z.pow_le_mono_r; lia).
        change (2 ^ 63) with 9223372036854775808 in *. unfold u64_max. lia.
  - rewrite (reading_or idx) by (done || lia). intros Hread.
    apply IH in Hread as (w & l & -> & Henc & -> & Hlen & Hv);
      [|apply reading_next; (done || lia)].
    destruct Hr as (? & -> & ?).
    exists (b2z b - 128 + 128 * w), (b :: l).
    split_and!; [done|by constructor| |zlen_lia|lia|lia].
    rewrite Z.pow_add_r by lia. change (2 ^ 7) with 128. lia.
Qed.

Lemma read_uvarint_with_remainder_canonical input v rest :
  read_uvarint_with_remainder input = Ok (v, rest) →
  0 ≤ v ≤ u64_max ∧ input = write_uvarint v [] ++ rest.
Proof.
  intros H. apply read_uvarint_loop_Enc in H
    as (w & l & -> & Henc & Hv & Hlen & Hb); [|split_and!; lia].
  replace v with w in * by lia. split; [done|]. f_equal.
  by apply Enc_canonical.
Qed.

Lemma uvarint_len_shift (n : nat) acc w :
  0 < w → 0 ≤ acc < 2 ^ (7 * Z.of_nat n) →
  uvarint_len (acc + w * 2 ^ (7 * Z.of_nat n)) = Z.of_nat n + uvarint_len w.
Proof.
  intros Hw. revert acc. induction n as [|n IH]; intros acc Hacc.
  - change (7 * Z.of_nat 0) with 0 in *.
    replace (acc + w * 2 ^ 0) with w by lia. lia.
  - replace (7 * Z.of_nat (S n)) with (7 * Z.of_nat n + 7) in * by lia.
    rewrite Z.pow_add_r in * by lia. change (2 ^ 7) with 128 in *.
    assert (0 < 2 ^ (7 * Z.of_nat n)) by (apply Z.pow_pos_nonneg; lia).
    assert (0 ≤ acc / 128 < 2 ^ (7 * Z.of_nat n)) as Hd.
    { split; [apply Z.div_pos; lia|]. apply Z.div_lt_upper_bound; lia. }
    assert (1 ≤ w * 2 ^ (7 * Z.of_nat n)) by nia.
    rewrite Z.mul_assoc, uvarint_len_step by lia.
    rewrite Z.div_add by lia. rewrite IH by done. lia.
Qed.

Lemma reading_len idx shift acc w :
  reading idx shift acc → 0 ≤ w → (idx = 0 ∨ 0 < w) →
  uvarint_len (acc + w * 2 ^ shift) = idx + uvarint_len w.
Proof.
  intros (Hi & -> & Hacc) Hw [->|Hpos].
  - change (7 * 0) with 0 in *. replace (acc + w * 2 ^ 0) with w by lia. lia.
  - replace idx with (Z.of_nat (Z.to_nat idx)) in * by lia.
    by apply uvarint_len_shift.
Qed.

Lemma b2z_low7 v : b2z (low7 v) = v mod 128.
Proof.
  unfold low7. pose proof (Z.mod_pos_bound v 128 ltac:(lia)).
  apply b2z_z2b_small. lia.
Qed.
Lemma b2z_cont7 v : b2z (cont7 v) = v mod 128 + 128.
Proof.
  unfold cont7. pose proof (Z.mod_pos_bound v 128 ltac:(lia)).
  apply b2z_z2b_small. lia.
Qed.

(** The top group of a value that fits 64 bits has one bit. *)
Lemma reading_top idx shift acc w :
  reading idx shift acc → acc + w * 2 ^ shift ≤ u64_max → 0 ≤ w →
  idx = 9 → w ≤ 1.
Proof.
  intros (_ & -> & Hacc) Hmax Hw ->. unfold u64_max in *.
  change (2 ^ (7 * 9)) with 9223372036854775808 in *. lia.
Qed.

Lemma read_uvarint_loop_write w :
  0 ≤ w → ∀ idx shift acc rest,
  reading idx shift acc → idx ≤ 9 → (idx = 0 ∨ 0 < w) →
  acc + w * 2 ^ shift ≤ u64_max →
  read_uvarint_loop idx shift acc (write_uvarint w [] ++ rest) =
    Ok (acc + w * 2 ^ shift, rest).
Proof.
  revert w. apply (varint_ind (λ w, ∀ idx shift acc rest, _ → _ → _ → _ → _));
    [intros w Hw|intros w Hw Hdiv IH]; intros idx shift acc rest Hr H9 Hpos Hmax;
    pose proof (reading_top _ _ _ _ Hr Hmax ltac:(lia)) as Htop.
  - rewrite write_uvarint_small by done. simpl.
    rewrite land_80, land_7f_byte, b2z_low7, (Z.mod_small w) by done.
    destruct (Z.leb_spec 10 idx); [lia|].
    destruct (Z.ltb_spec w 128); [|lia]. simpl.
    destruct (Z.eqb_spec idx 9), (Z.ltb_spec 1 w); simpl; try lia;
      rewrite (reading_or idx) by (done || lia);
      rewrite (reading_len idx), (uvarint_len_small w), Z.eqb_refl by (done || lia);
      done.
  - rewrite write_uvarint_step by done. simpl.
    rewrite land_80, land_7f_byte, b2z_cont7.
    pose proof (Z.mod_pos_bound w 128 ltac:(lia)).
    destruct (Z.leb_spec 10 idx); [lia|].
    destruct (Z.ltb_spec (w mod 128 + 128) 128); [lia|]. simpl.
    destruct (Z.eqb_spec idx 9); [specialize (Htop e); lia|]. simpl.
    rewrite (reading_or idx) by (done || lia).
    replace (w mod 128 + 128 - 128) with (w mod 128) by lia.
    assert (acc + w mod 128 * 2 ^ shift + w / 128 * 2 ^ (shift + 7)
            = acc + w * 2 ^ shift) as Hval.
    { destruct Hr as (? & -> & _). rewrite Z.pow_add_r by lia.
      change (2 ^ 7) with 128. pose proof (Z.div_mod w 128 ltac:(lia)). nia. }
    rewrite IH; [by rewrite Hval| |lia|lia|by rewrite Hval].
    apply reading_next; (done || lia).
Qed.

Lemma read_uvarint_loop_app idx shift acc input more r :
  read_uvarint_loop idx shift acc input = r → r ≠ Err BufferTooShort →
  read_uvarint_loop idx shift acc (input ++ more) =
    '(v, rest) ← r; mret (v, rest ++ more).
Proof.
  revert idx shift acc. induction input as [|b input IH]; simpl;
    intros idx shift acc <-; [done|].
  repeat match goal with |- context [if ?b then _ else _] => destruct b end;
    naive_solver.
Qed.

(** ** Correctness of the varint codec *)

Lemma read_write_uvarint v rest :
  0 ≤ v ≤ u64_max →
  read_uvarint_with_remainder (write_uvarint v [] ++ rest) = Ok (v, rest).
Proof.
  intros Hv. unfold read_uvarint_with_remainder.
  rewrite read_uvarint_loop_write; [|lia|split_and!; lia|lia|by left|lia].
  by rewrite Z.mul_1_r.
Qed.

Lemma read_uvarint_loop_outcome idx shift acc input :
  read_uvarint_loop idx shift acc input ≠ Panic ∧
  read_uvarint_loop idx shift acc input ≠ Diverge.
Proof.
  revert idx shift acc. induction input as [|b input IH]; simpl;
    intros idx shift acc; [done|].
  repeat match goal with |- context [if ?b then _ else _] => destruct b end;
    first [done|apply IH].
Qed.

Lemma read_uvarint_outcome input :
  read_uvarint input ≠ Panic ∧ read_uvarint input ≠ Diverge.
Proof.
  unfold read_uvarint, read_uvarint_with_remainder.
  pose proof (read_uvarint_loop_outcome 0 0 0 input).
  destruct (read_uvarint_loop 0 0 0 input) as [[]| | |]; simpl; intuition done.
Qed.

Lemma read_uvarint_ok_iff input v used :
  read_uvarint input = Ok (v, used) ↔
  0 ≤ v ≤ u64_max ∧ used = uvarint_len v ∧
  ∃ rest, input = write_uvarint v [] ++ rest.
Proof.
  unfold read_uvarint. split.
  - destruct (read_uvarint_with_remainder input) as [[v' rest]| | |] eqn:Hr;
      simpl; try done. intros [= <- <-].
    apply read_uvarint_with_remainder_canonical in Hr as [Hb ->].
    split_and!; [lia|lia| |by eauto].
    rewrite zlen_app, zlen_write_uvarint by lia. lia.
  - intros (Hb & -> & rest & ->). rewrite read_write_uvarint by done. simpl.
    unfold mret, res_ret. do 2 f_equal.
    rewrite zlen_app, zlen_write_uvarint by lia. lia.
Qed.

(** Reading more bytes never changes an answer other than "too short". *)
Lemma read_uvarint_app input more r :
  read_uvarint input = r → r ≠ Err BufferTooShort →
  read_uvarint (input ++ more) = r.
Proof.
  unfold read_uvarint, read_uvarint_with_remainder. intros <-.
  destruct (read_uvarint_loop 0 0 0 input) as [[v rest]|e| |] eqn:Hr; simpl;
    intros Hne.
  - rewrite (read_uvarint_loop_app _ _ _ _ more _ Hr) by done. simpl.
    unfold mret, res_ret. do 2 f_equal. zlen_lia.
  - rewrite (read_uvarint_loop_app _ _ _ _ more _ Hr) by naive_solver. done.
  - by apply read_uvarint_loop_outcome in Hr.
  - by apply read_uvarint_loop_outcome in Hr.
Qed.

Lemma read_uvarint_prefix v p q :
  0 ≤ v ≤ u64_max → write_uvarint v [] = p ++ q → q ≠ [] →
  read_uvarint p = Err BufferTooShort.
Proof.
  intros Hv Hpq Hq.
  assert (read_uvarint (p ++ q) = Ok (v, uvarint_len v)) as Hfull.
  { rewrite <- Hpq. apply read_uvarint_ok_iff. split_and!; [lia..|].
    exists []. by rewrite app_nil_r. }
  destruct (read_uvarint p) as [[v' used]|[]| |] eqn:Hp; [|done|..];
    pose proof (read_uvarint_app _ q _ Hp ltac:(done)) as Happ;
    rewrite Hfull in Happ; try done.
  injection Happ as <- <-. apply read_uvarint_ok_iff in Hp as (_ & _ & rest & ->).
  rewrite <- app_assoc in Hpq. apply (f_equal zlen) in Hpq.
  destruct q; [done|]. zlen_lia.
Qed.

(** The reader accepts exactly the encodings the writer produces: a value
    outside [u64], a padded encoding and a truncated one are all refused, and
    what follows the varint is returned untouched. *)
Theorem uvarint_codec_exact input v rest :
  read_uvarint_with_remainder input = Ok (v, rest) ↔
  0 ≤ v ≤ u64_max ∧ input = write_uvarint v [] ++ rest.
Proof.
  split; [apply read_uvarint_with_remainder_canonical|].
  intros [Hv ->]. by apply read_write_uvarint.
Qed.

Lemma uvarint_len_bound v : 0 ≤ v ≤ u64_max → 1 ≤ uvarint_len v ≤ 10.
Proof.
  intros Hv. split; [apply uvarint_len_pos; lia|].
  assert (∀ (n : nat) w, 0 ≤ w < 2 ^ (7 * Z.of_nat n + 7) →
    uvarint_len w ≤ Z.of_nat n + 1) as H.
  { clear. intros n. induction n as [|n IH]; intros w Hw.
    - change (7 * Z.of_nat 0 + 7) with 7 in *. change (2 ^ 7) with 128 in *.
      rewrite uvarint_len_small; lia.
    - destruct (decide (w < 128)); [rewrite uvarint_len_small; lia|].
      rewrite uvarint_len_step by lia.
      replace (7 * Z.of_nat (S n) + 7) with (7 * Z.of_nat n + 7 + 7) in Hw by lia.
      rewrite Z.pow_add_r in Hw by lia. change (2 ^ 7) with 128 in *.
      assert (uvarint_len (w / 128) ≤ Z.of_nat n + 1); [|lia].
      apply IH. split; [apply Z.div_pos; lia|].
      apply Z.div_lt_upper_bound; lia. }
  apply (H 9%nat). change (2 ^ (7 * Z.of_nat 9 + 7)) with 1180591620717411303424.
  unfold u64_max in *. lia.
Qed.

(** A varint that is still "too short" has fewer than ten bytes. *)
Lemma read_uvarint_loop_short idx shift acc input :
  0 ≤ idx ≤ 9 → read_uvarint_loop idx shift acc input = Err BufferTooShort →
  idx + zlen input < 10.
Proof.
  revert idx shift acc. induction input as [|b input IH]; simpl;
    intros idx shift acc Hi; [zlen_lia|].
  destruct (Z.leb_spec 10 idx); [done|].
  destruct ((idx =? 9) && _) eqn:Htop; [done|].
  destruct (Z.land (b2z b) 128 =? 0) eqn:Hc; [by case_match|].
  destruct (Z.eqb_spec idx 9); [done|].
  intros Hr. apply IH in Hr; zlen_lia.
Qed.

Lemma read_uvarint_short input :
  read_uvarint input = Err BufferTooShort → zlen input < 10.
Proof.
  unfold read_uvarint, read_uvarint_with_remainder.
  destruct (read_uvarint_loop 0 0 0 input) as [[v rest]|e| |] eqn:Hr; simpl;
    try done. intros [= ->].
  apply read_uvarint_loop_short in Hr; lia.
Qed.
