(* ===== verification/Text.v ===== *)
(** What the crates use of Rust's [str]: UTF-8 validity and the decimal
    printing of integers. A [String] is the list of its UTF-8 bytes. *)

From Stdlib Require Import Strings.Byte.
From S2P Require Import Prelude Varint.

(** ** UTF-8 *)

Definition utf8_cont (b : byte) : bool := (128 <=? b2z b) && (b2z b <=? 191).

(** [core::str::from_utf8(l).is_ok()]: the well-formed byte sequences, without
    overlong forms and surrogates, up to U+10FFFF. *)
Fixpoint utf8_valid (l : bytes) : bool :=
  match l with
  | [] => true
  | b0 :: l =>
      let c := b2z b0 in
      if c <? 128 then utf8_valid l
      else
        match l with
        | [] => false
        | b1 :: l =>
            if (194 <=? c) && (c <=? 223) then utf8_cont b1 && utf8_valid l
            else
              match l with
              | [] => false
              | b2 :: l =>
                  if (224 <=? c) && (c <=? 239) then
                    utf8_cont b1 && utf8_cont b2
                    && (negb (c =? 224) || (160 <=? b2z b1))
                    && (negb (c =? 237) || (b2z b1 <=? 159))
                    && utf8_valid l
                  else
                    match l with
                    | [] => false
                    | b3 :: l =>
                        (240 <=? c) && (c <=? 244)
                        && utf8_cont b1 && utf8_cont b2 && utf8_cont b3
                        && (negb (c =? 240) || (144 <=? b2z b1))
                        && (negb (c =? 244) || (b2z b1 <=? 143))
                        && utf8_valid l
                    end
              end
        end
  end.

Example utf8_accepts : utf8_valid [xc3; xa9; x61; xf0; x9f; x98; x80] = true.
Proof. reflexivity. Qed.
Example utf8_rejects :
  utf8_valid [xc0; xaf] = false ∧ utf8_valid [xed; xa0; x80] = false ∧ utf8_valid [xff] = false.
Proof. done. Qed.

Lemma utf8_app_n n l1 l2 :
  (length l1 ≤ n)%nat → utf8_valid l1 = true → utf8_valid (l1 ++ l2) = utf8_valid l2.
Proof.
  revert l1. induction n as [|n IH]; intros l1 Hn H1.
  { by destruct l1; [|simpl in Hn; lia]. }
  destruct l1 as [|b0 l1]; [done|]. cbn [utf8_valid app] in *.
  destruct (b2z b0 <? 128); [apply IH; [simpl in Hn; lia|done]|].
  destruct l1 as [|b1 l1]; [done|]. cbn [app] in *.
  destruct ((194 <=? b2z b0) && (b2z b0 <=? 223)).
  { apply andb_prop in H1 as [-> H1]. apply IH; [simpl in Hn; lia|done]. }
  destruct l1 as [|b2 l1]; [done|]. cbn [app] in *.
  destruct ((224 <=? b2z b0) && (b2z b0 <=? 239)).
  { apply andb_prop in H1 as [-> H1]. apply IH; [simpl in Hn; lia|done]. }
  destruct l1 as [|b3 l1]; [done|]. cbn [app] in *.
  apply andb_prop in H1 as [-> H1]. apply IH; [simpl in Hn; lia|done].
Qed.

Lemma utf8_app l1 l2 : utf8_valid l1 = true → utf8_valid (l1 ++ l2) = utf8_valid l2.
Proof. by apply (utf8_app_n (length l1)). Qed.

Lemma utf8_ascii l : Forall (λ b, b2z b < 128) l → utf8_valid l = true.
Proof.
  induction 1 as [|b l Hb _ IH]; [done|]. cbn [utf8_valid].
  by destruct (Z.ltb_spec (b2z b) 128); [|lia].
Qed.

(** [str::chars]: the code points of a valid string. *)
Fixpoint utf8_chars (l : bytes) : list Z :=
  match l with
  | [] => []
  | b0 :: l =>
      let c := b2z b0 in
      if c <? 128 then c :: utf8_chars l
      else
        match l with
        | [] => []
        | b1 :: l =>
            if c <=? 223 then ((c - 192) * 64 + (b2z b1 - 128)) :: utf8_chars l
            else
              match l with
              | [] => []
              | b2 :: l =>
                  if c <=? 239
                  then ((c - 224) * 4096 + (b2z b1 - 128) * 64 + (b2z b2 - 128)) :: utf8_chars l
                  else
                    match l with
                    | [] => []
                    | b3 :: l =>
                        ((c - 240) * 262144 + (b2z b1 - 128) * 4096 + (b2z b2 - 128) * 64 + (b2z b3 - 128))
                          :: utf8_chars l
                    end
              end
        end
  end.

(** [char::is_whitespace]: the Unicode property [White_Space]. *)
Definition is_whitespace (c : Z) : bool :=
  ((9 <=? c) && (c <=? 13)) || (c =? 32) || (c =? 0x85) || (c =? 0xa0) || (c =? 0x1680) ||
  ((0x2000 <=? c) && (c <=? 0x200a)) || (c =? 0x2028) || (c =? 0x2029) || (c =? 0x202f) ||
  (c =? 0x205f) || (c =? 0x3000).
(** [char::is_control]: the general category [Cc]. *)
Definition is_control (c : Z) : bool := (c <=? 31) || ((127 <=? c) && (c <=? 159)).

Example utf8_chars_demo : utf8_chars [xc3; xa9; x61; xe2; x82; xac; xf0; x9f; x98; x80] = [0xe9; 0x61; 0x20ac; 0x1f600].
Proof. done. Qed.

(** ** Decimal *)

(** [write!(f, "{n}")] of an unsigned integer: digits pushed from the least
    significant one. [fuel] bounds the number of digits. *)
Fixpoint dec_loop (fuel : nat) (n : Z) (acc : bytes) : bytes :=
  match fuel with
  | O => acc
  | S fuel =>
      let acc := z2b (48 + n mod 10) :: acc in
      if n <? 10 then acc else dec_loop fuel (n / 10) acc
  end.

(** Twenty digits are enough for every [u64]. *)
Definition dec (n : Z) : bytes := dec_loop 20 n [].

Definition parse_digit (b : byte) : option Z :=
  if (48 <=? b2z b) && (b2z b <=? 57) then Some (b2z b - 48) else None.

Definition dec_value (acc : Z) (l : bytes) : Z := foldl (λ a b, a * 10 + (b2z b - 48)) acc l.

Lemma b2z_digit n : b2z (z2b (48 + n mod 10)) = 48 + n mod 10.
Proof. apply b2z_z2b_small. pose proof (Z.mod_pos_bound n 10). lia. Qed.

Lemma dec_loop_value fuel n acc :
  0 ≤ n < 10 ^ Z.of_nat fuel → (0 < fuel)%nat →
  ∃ ds, dec_loop fuel n acc = ds ++ acc ∧ ds ≠ [] ∧
    Forall (λ b, 48 ≤ b2z b ≤ 57) ds ∧ ∀ a, dec_value a ds = a * 10 ^ zlen ds + n.
Proof.
  revert n acc. induction fuel as [|fuel IH]; intros n acc Hn Hf; [lia|].
  cbn [dec_loop]. set (d := z2b (48 + n mod 10)).
  pose proof (Z.mod_pos_bound n 10 ltac:(lia)) as Hm.
  assert (b2z d = 48 + n mod 10) as Hd by apply b2z_digit.
  destruct (Z.ltb_spec n 10).
  - exists [d]. split_and!; try done; [constructor; [lia|done]|].
    intros a. unfold dec_value. change (zlen [d]) with 1. cbn. rewrite Hd, Z.mod_small by lia. lia.
  - rewrite Nat2Z.inj_succ, Z.pow_succ_r in Hn by lia.
    assert (0 ≤ n / 10 < 10 ^ Z.of_nat fuel) as Hq.
    { split; [apply Z.div_pos; lia|]. apply Z.div_lt_upper_bound; lia. }
    destruct (decide (fuel = 0%nat)) as [->|]; [simpl in Hq; lia|].
    destruct (IH (n / 10) (d :: acc) Hq) as (ds & -> & Hne & Hall & Hv); [lia|].
    exists (ds ++ [d]). rewrite <- app_assoc. split_and!; [done|by destruct ds| |].
    + apply Forall_app. split; [done|]. constructor; [lia|done].
    + intros a. unfold dec_value in *. rewrite foldl_app, Hv. cbn. rewrite Hd.
      replace (zlen (ds ++ [d])) with (zlen ds + 1) by zlen_lia.
      rewrite Z.pow_add_r by (try lia; apply zlen_nonneg).
      pose proof (Z.div_mod n 10 ltac:(lia)). nia.
Qed.

Lemma dec_spec n :
  0 ≤ n ≤ u64_max →
  dec n ≠ [] ∧ Forall (λ b, 48 ≤ b2z b ≤ 57) (dec n) ∧ dec_value 0 (dec n) = n.
Proof.
  intros Hn. destruct (dec_loop_value 20 n []) as (ds & Hds & Hne & Hall & Hv).
  { unfold u64_max in Hn. change (10 ^ Z.of_nat 20) with 100000000000000000000. lia. }
  { lia. }
  unfold dec. rewrite Hds, app_nil_r. by rewrite Hv.
Qed.

Example dec_demo : dec 1025 = str "1025" ∧ dec 0 = str "0".
Proof. done. Qed.

(** ** Errors of the varint reader, as text *)

Definition VarintError_display (e : VarintError) : bytes :=
  match e with
  | BufferTooShort => str "buffer ended before varint terminated"
  | Overflow => str "varint overflows u64"
  | NonCanonical => str "varint is not minimally encoded"
  end.
