(* ===== verification/Frame.v ===== *)
(** The frame codec shared by the protocol crates, from
    [crates/core/src/frame.rs]: [<uvarint payload length><payload>]. *)

From Stdlib Require Import Strings.Byte.
From S2P Require Import Prelude Varint.

Inductive FrameDecode :=
  | Complete (payload : bytes) (consumed : Z)
  | Incomplete
  | TooLarge (len : Z)
  | FrameError (e : VarintError).

Definition decode_frame (input : bytes) (max_len : Z) : FrameDecode :=
  match input with
  | [] => Incomplete
  | _ =>
      match read_uvarint input with
      | Ok (length, used) =>
          if max_len <? length then TooLarge length
          else
            match checked_add usize_max used length with
            | None => Incomplete
            | Some total =>
                match slice input used total with
                | None => Incomplete
                | Some payload => Complete payload total
                end
            end
      | Err BufferTooShort => Incomplete
      | Err e => FrameError e
      | Panic | Diverge => Incomplete
      end
  end.

Definition encode_frame (payload : bytes) : bytes :=
  write_uvarint (zlen payload) [] ++ payload.

Lemma zlen_encode_frame p : zlen (encode_frame p) = uvarint_len (zlen p) + zlen p.
Proof.
  unfold encode_frame. rewrite zlen_app, zlen_write_uvarint by apply zlen_nonneg.
  done.
Qed.

Lemma decode_frame_nonempty input max_len :
  input ≠ [] → decode_frame input max_len =
    match read_uvarint input with
    | Ok (length, used) =>
        if max_len <? length then TooLarge length
        else match checked_add usize_max used length with
             | None => Incomplete
             | Some total =>
                 match slice input used total with
                 | None => Incomplete
                 | Some payload => Complete payload total
                 end
             end
    | Err BufferTooShort => Incomplete
    | Err e => FrameError e
    | Panic | Diverge => Incomplete
    end.
Proof. by destruct input. Qed.

Lemma decode_frame_iff input max_len p c :
  decode_frame input max_len = Complete p c ↔
  zlen p ≤ max_len ∧ c = zlen (encode_frame p) ∧ c ≤ usize_max ∧
  ∃ rest, input = encode_frame p ++ rest.
Proof.
  rewrite zlen_encode_frame. split.
  - destruct (decide (input = [])) as [->|Hne]; [done|].
    rewrite decode_frame_nonempty by done.
    destruct (read_uvarint input) as [[len used]|[]| |] eqn:Hr; try done.
    apply read_uvarint_ok_iff in Hr as (Hb & -> & rest & ->).
    destruct (Z.ltb_spec max_len len); [done|].
    unfold checked_add. destruct (Z.leb_spec (uvarint_len len + len) usize_max); [|done].
    pose proof (uvarint_len_pos len ltac:(lia)).
    destruct (slice _ _ _) as [s|] eqn:Hs; [|done]. intros [= <- <-].
    apply slice_Some_iff in Hs as (p & q & Happ & Hp & Hl); [|lia].
    assert (zlen s = len) as Hsl by lia.
    apply app_inj_1 in Happ as [<- ->];
      [|apply Nat2Z.inj; fold (zlen (write_uvarint len [])); fold (zlen p);
        rewrite zlen_write_uvarint; lia].
    unfold encode_frame. rewrite Hsl. split_and!; [lia..|].
    exists q. by rewrite app_assoc.
  - intros (Hmax & -> & Hc & rest & ->). pose proof (zlen_nonneg p).
    pose proof (uvarint_len_pos (zlen p) ltac:(lia)).
    assert (read_uvarint (encode_frame p ++ rest)
      = Ok (zlen p, uvarint_len (zlen p))) as Hr.
    { apply read_uvarint_ok_iff. unfold usize_max in Hc.
      split_and!; [lia..|]. exists (p ++ rest). unfold encode_frame.
      by rewrite <- app_assoc. }
    rewrite decode_frame_nonempty, Hr.
    2:{ intros He. apply (f_equal zlen) in He.
        rewrite zlen_app, zlen_encode_frame in He. zlen_lia. }
    destruct (Z.ltb_spec max_len (zlen p)); [lia|].
    unfold checked_add. destruct (Z.leb_spec (uvarint_len (zlen p) + zlen p) usize_max); [|lia].
    assert (slice (encode_frame p ++ rest) (uvarint_len (zlen p))
              (uvarint_len (zlen p) + zlen p) = Some p) as ->; [|done].
    apply slice_Some_iff; [lia|].
    exists (write_uvarint (zlen p) []), rest. unfold encode_frame.
    rewrite zlen_write_uvarint, app_assoc by lia. split_and!; [done|done|lia].
Qed.

(** ** Correctness of the frame codec *)

(** [decode_frame] accepts exactly the frames [encode_frame] produces
    whose payload respects the limit, and reports how many bytes they take. *)
Theorem frame_codec_exact input max_len p c :
  decode_frame input max_len = Complete p c ↔
  zlen p ≤ max_len ∧ c = zlen (encode_frame p) ∧ c ≤ usize_max ∧
  ∃ rest, input = encode_frame p ++ rest.
Proof. apply decode_frame_iff. Qed.

Lemma decode_frame_app input more max_len :
  decode_frame input max_len ≠ Incomplete →
  decode_frame (input ++ more) max_len = decode_frame input max_len.
Proof.
  destruct (decide (input = [])) as [->|Hne]; [done|].
  rewrite !decode_frame_nonempty by (destruct input; done).
  destruct (read_uvarint input) as [[l u]|[]| |] eqn:Hr; try done;
    rewrite (read_uvarint_app _ more _ Hr) by done; [|done..].
  apply read_uvarint_ok_iff in Hr as (Hb & -> & _).
  pose proof (uvarint_len_pos l ltac:(lia)).
  destruct (max_len <? l); [done|]. destruct (checked_add _ _ _); [|done].
  destruct (slice input _ _) eqn:Hs; [|done].
  erewrite slice_app; [done| |exact Hs]. lia.
Qed.

(** [Incomplete] is answered only while little is buffered. *)
Lemma decode_frame_short input max_len :
  0 ≤ max_len → zlen input ≤ usize_max ∨ max_len + 10 ≤ usize_max →
  decode_frame input max_len = Incomplete → zlen input < max_len + 10.
Proof.
  intros Hmax Hin Hd. destruct (decide (input = [])) as [->|Hne]; [zlen_lia|].
  rewrite decode_frame_nonempty in Hd by done.
  destruct (read_uvarint input) as [[l u]|[]| |] eqn:Hr; try done.
  - apply read_uvarint_ok_iff in Hr as (Hb & -> & rest & ->).
    pose proof (uvarint_len_bound l Hb).
    destruct (Z.ltb_spec max_len l); [done|]. unfold checked_add in Hd.
    destruct (Z.leb_spec (uvarint_len l + l) usize_max); [|lia].
    destruct (slice _ _ _) eqn:Hs; [done|]. apply slice_None in Hs; lia.
  - apply read_uvarint_short in Hr. lia.
  - by apply read_uvarint_outcome in Hr.
  - by apply read_uvarint_outcome in Hr.
Qed.

(** ** Frames on a stream *)

Lemma encode_frame_nonempty p : encode_frame p ≠ [].
Proof.
  intros Hn%(f_equal zlen). rewrite zlen_encode_frame, zlen_nil in Hn. pose proof (zlen_nonneg p).
  pose proof (uvarint_len_pos (zlen p) ltac:(lia)). lia.
Qed.

Lemma decode_frame_complete p rest max_len :
  zlen p ≤ max_len → max_len + 10 ≤ usize_max → decode_frame (encode_frame p ++ rest) max_len = Complete p (zlen (encode_frame p)).
Proof.
  intros Hp Hmax. apply decode_frame_iff. split_and!; [done|done| |by eexists].
  rewrite zlen_encode_frame. pose proof (zlen_nonneg p). pose proof (uvarint_len_bound (zlen p) ltac:(unfold usize_max in *; lia)). lia.
Qed.

(** A frame that is not all there is waited for. *)
Lemma decode_frame_prefix p b max_len :
  zlen p ≤ max_len → max_len + 10 ≤ usize_max → strict_prefix b (encode_frame p) → decode_frame b max_len = Incomplete.
Proof.
  intros Hp Hmax (k & Hk & Hf). pose proof (decode_frame_complete p [] max_len Hp Hmax) as Hc. rewrite app_nil_r in Hc.
  assert (¬ decode_frame b max_len ≠ Incomplete) as Hn; [intros Hd|destruct (decode_frame b max_len); [by destruct Hn|done|by destruct Hn..]].
  pose proof (decode_frame_app b k max_len Hd) as Ha. rewrite <- Hf, Hc in Ha. symmetry in Ha.
  apply decode_frame_iff in Ha as (_ & _ & _ & rest & ->).
  apply (f_equal zlen) in Hf. rewrite !zlen_app in Hf. pose proof (zlen_nonneg rest).
  pose proof (zlen_nonneg k). apply Hk, zlen_zero_inv. lia.
Qed.

(** Below 2^14 bytes the length takes at most two bytes. *)
Lemma zlen_short_frame p : zlen p < 16384 → 0 < zlen (encode_frame p) ≤ zlen p + 2.
Proof.
  intros Hp. rewrite zlen_encode_frame. pose proof (zlen_nonneg p). pose proof (uvarint_len_pos (zlen p) ltac:(lia)).
  destruct (Z.lt_ge_cases (zlen p) 128); [rewrite uvarint_len_small by lia; lia|].
  rewrite uvarint_len_step by lia. rewrite uvarint_len_small; [lia|].
  split; [apply Z.div_pos; lia|apply Z.div_lt_upper_bound; lia].
Qed.

(** Feeding a frame piecewise is safe and bounded: an answer other than
    [Incomplete] does not change when more bytes arrive, and [Incomplete] is
    only answered while fewer than [max_len + 10] bytes are buffered, so a
    reader that stops at a verdict never buffers more than one legal frame. *)
Theorem frame_decode_incremental input more max_len :
  zlen input ≤ usize_max → 0 ≤ max_len →
  (decode_frame input max_len ≠ Incomplete ∧
   decode_frame (input ++ more) max_len = decode_frame input max_len) ∨
  (decode_frame input max_len = Incomplete ∧ zlen input < max_len + 10).
Proof.
  intros Hin Hmax.
  destruct (decode_frame input max_len) as [p c| | |] eqn:Hd.
  1,3,4: left; split; [done|]; rewrite <- Hd; apply decode_frame_app; by rewrite Hd.
  right. split; [done|]. apply decode_frame_short; auto.
Qed.

Lemma frame_decode_incremental_witness :
  decode_frame ([x02; x61] ++ [x62]) 8 = Complete [x61; x62] 3 ∧
  decode_frame (([x02; x61] ++ [x62]) ++ [x05]) 8 = Complete [x61; x62] 3.
Proof.
  split; [reflexivity|].
  destruct (frame_decode_incremental ([x02; x61] ++ [x62]) [x05] 8) as [[_ H]|[H _]].
  - unfold zlen, usize_max, u64_max. cbn. lia.
  - lia.
  - exact H.
  - discriminate H.
Defined.
