(* ===== verification/SansIo.v ===== *)
(** The interface every protocol machine offers its driver, from
    [crates/core/src/sans_io.rs], with the contract its documentation states:
    one input at a time, then outputs until there are none. *)

From S2P Require Import Prelude.

(** [trait SansIoProtocol]: [poll_output] is [&mut self], so it may change the
    machine; [is_idle] only looks. *)
Class SansIoProtocol (P Input Output Error : Type) := {
  handle_input : Input → M P Error unit;
  poll_output : M P Error (option Output);
  is_idle : P → bool;
}.

(** What a driver relies on. [inv] describes the reachable machines and
    [admissible] the inputs the environment may offer; [backlog] bounds the
    outputs a machine can still produce without further input. *)
Class SansIoContract {P Input Output Error : Type} `{!SansIoProtocol P Input Output Error}
    (inv : P → Prop) (admissible : P → Input → Prop) := {
  backlog : P → nat;
  input_safe s i :
    inv s → admissible s i → wp (handle_input i) (λ _, inv) (λ _, inv) s;
  output_step s :
    inv s → ∃ o s', poll_output s = (s', Ok o) ∧ inv s' ∧
      match o with
      | Some _ => is_idle s = false ∧ (backlog s' < backlog s)%nat
      | None => is_idle s = true ∧ s' = s
      end;
}.

(** Inputs offered one after another; the first that is refused ends the run. *)
Fixpoint handle_inputs {P Input Output Error : Type} `{!SansIoProtocol P Input Output Error} (inputs : list Input) : M P Error unit :=
  match inputs with
  | [] => mret tt
  | i :: inputs => _ ← handle_input i; handle_inputs inputs
  end.

Section Inputs.
Context {P Input Output Error : Type} `{!SansIoProtocol P Input Output Error}.

Lemma handle_inputs_app is1 is2 s :
  handle_inputs (is1 ++ is2) s = (_ ← handle_inputs is1; handle_inputs is2) s.
Proof.
  revert s. induction is1 as [|i is1 IH]; intros s; [done|]. cbn [app handle_inputs].
  unfold mbind, M_bind in *. by destruct (handle_input i s) as [s1 [u|e| |]]; try apply IH.
Qed.

(** A machine that only collects what it is given, while [ok] holds of what it
    has. *)
Lemma handle_inputs_collect {A} (mk : list A → Input) (at_ : list A → P) (ok : list A → Prop) cs b :
  (∀ b d, ok (b ++ d) → ok b) →
  (∀ b d, ok (b ++ d) → handle_input (mk d) (at_ b) = (at_ (b ++ d), Ok tt)) →
  ok (b ++ concat cs) →
  handle_inputs (mk <$> cs) (at_ b) = (at_ (b ++ concat cs), Ok tt).
Proof.
  intros Hmono Hstep. revert b. induction cs as [|c cs IH]; intros b Hok; cbn in *; [by rewrite app_nil_r|].
  rewrite app_assoc in Hok. unfold mbind, M_bind. rewrite Hstep by (by eapply Hmono).
  rewrite IH by done. by rewrite app_assoc.
Qed.
End Inputs.

(** What a driver has polled so far, and the machine it is left with. *)
Inductive trace {P Input Output Error : Type} `{!SansIoProtocol P Input Output Error}
    (admissible : P → Input → Prop) (init : P) : list Output → P → Prop :=
  | trace_start : trace admissible init [] init
  | trace_input os s i :
      trace admissible init os s → admissible s i → trace admissible init os (handle_input i s).1
  | trace_poll os s o s' :
      trace admissible init os s → poll_output s = (s', Ok (Some o)) → trace admissible init (os ++ [o]) s'
  | trace_idle os s s' :
      trace admissible init os s → poll_output s = (s', Ok None) → trace admissible init os s'.

(** The same with the inputs that were accepted on record. *)
Inductive exchange {P Input Output Error : Type} `{!SansIoProtocol P Input Output Error}
    (init : P) : list Input → list Output → P → Prop :=
  | exchange_start : exchange init [] [] init
  | exchange_accept ins os s i s' :
      exchange init ins os s → handle_input i s = (s', Ok tt) → exchange init (ins ++ [i]) os s'
  | exchange_refuse ins os s i s' e :
      exchange init ins os s → handle_input i s = (s', Err e) → exchange init ins os s'
  | exchange_poll ins os s o s' :
      exchange init ins os s → poll_output s = (s', Ok (Some o)) → exchange init ins (os ++ [o]) s'
  | exchange_idle ins os s s' :
      exchange init ins os s → poll_output s = (s', Ok None) → exchange init ins os s'.

Section Driver.
Context {P Input Output Error : Type} `{!SansIoProtocol P Input Output Error}.
Context (inv : P → Prop) (admissible : P → Input → Prop).
Context {C : SansIoContract inv admissible}.

(** The driver's loop: poll until [None]. *)
Fixpoint drain (fuel : nat) : M P Error (list Output) :=
  match fuel with
  | O => lift Diverge
  | S fuel =>
      o ← poll_output;
      match o with
      | None => mret []
      | Some x => xs ← drain fuel; mret (x :: xs)
      end
  end.

Lemma drain_spec n s :
  inv s → (backlog s < n)%nat →
  ∃ xs s', drain n s = (s', Ok xs) ∧ inv s' ∧ is_idle s' = true ∧
    (length xs ≤ backlog s)%nat ∧ (xs = [] ↔ is_idle s = true).
Proof.
  revert s. induction n as [|n IH]; intros s Hs Hn; [lia|].
  destruct (output_step s Hs) as (o & s1 & Hpoll & Hs1 & Ho).
  cbn [drain]. unfold mbind, M_bind. rewrite Hpoll.
  destruct o as [x|].
  - destruct Ho as [Hidle Hlt].
    destruct (IH s1 Hs1) as (xs & s2 & -> & ? & ? & ? & _); [lia|].
    exists (x :: xs), s2. split_and!; try done; [simpl; lia|]. by rewrite Hidle.
  - destruct Ho as [Hidle ->]. exists [], s. split_and!; try done. simpl. lia.
Qed.

(** One turn of a driver: offer the inputs, then take every output. *)
Definition drain_all : M P Error (list Output) := λ s, drain (S (backlog s)) s.
Definition talk (inputs : list Input) : M P Error (list Output) :=
  _ ← handle_inputs inputs;
  drain_all.

(** The machines a driver can bring about: inputs and polls in any order. *)
Inductive driven (init : P → Prop) : P → Prop :=
  | driven_init s : init s → driven init s
  | driven_input s i : driven init s → admissible s i → driven init (handle_input i s).1
  | driven_poll s : driven init s → driven init (poll_output s).1.

Lemma driven_inv (init : P → Prop) s :
  (∀ s, init s → inv s) → driven init s → inv s.
Proof.
  intros Hinit. induction 1 as [s Hs|s i _ IH Ha|s _ IH]; [auto| |].
  - pose proof (input_safe s i IH Ha) as Hw. unfold wp in Hw.
    by destruct (handle_input i s) as [? []].
  - destruct (output_step s IH) as (o & s' & -> & Hs' & _). done.
Qed.
End Driver.

#[global] Arguments drain_all {P Input Output Error _ inv admissible C}.
#[global] Arguments talk {P Input Output Error _ inv admissible C} inputs.
