(* ===== verification/Pieces.v ===== *)
(** What a machine makes of a message that arrives in pieces, whatever the
    machine and whatever the message. *)

From S2P Require Import Prelude SansIo.

(** Decides the tests on states that are known. *)
Ltac known_states :=
  cbn; repeat match goal with
  | |- context [bool_decide (?a = ?b)] =>
      first [rewrite (bool_decide_false (a = b)) by done | rewrite (bool_decide_true (a = b)) by done]; cbn
  end.

(** A stream: the pieces are not empty and add up to what was sent. *)
Definition delivers (cut : bytes → list bytes) : Prop := ∀ b, concat (cut b) = b ∧ [] ∉ cut b.

Section Pieces.
Context {P Input Output Error : Type} `{!SansIoProtocol P Input Output Error}.
(** The machine collects pieces as long as the message is not complete. *)
Context (mk : bytes → Input) (waiting : bytes → P) (frame : bytes) (Hframe : frame ≠ []).
Context (collects : ∀ b d, strict_prefix (b ++ d) frame → handle_input (mk d) (waiting b) = (waiting (b ++ d), Ok tt)).

Lemma arrive_wait cs b :
  strict_prefix (b ++ concat cs) frame → handle_inputs (mk <$> cs) (waiting b) = (waiting (b ++ concat cs), Ok tt).
Proof.
  apply (handle_inputs_collect mk waiting (λ b, strict_prefix b frame)); [|done].
  intros b0 d. apply strict_prefix_app.
Qed.

(** A message and what follows it: one piece completes the message. *)
Lemma arrive_complete (after : bytes → P) cs rest :
  (∀ b d r, b ++ d = frame ++ r → zlen r ≤ zlen rest → handle_input (mk d) (waiting b) = (after r, Ok tt)) →
  concat cs = frame ++ rest →
  ∃ r post, rest = r ++ concat post ∧ ([] ∉ cs → rest = [] → post = []) ∧
    handle_inputs (mk <$> cs) (waiting []) = handle_inputs (mk <$> post) (after r).
Proof.
  intros Hdone Hcs. destruct (chunks_complete cs _ rest Hframe Hcs) as (pre & c & post & r & -> & Hpre & Hcut & ->).
  exists r, post. split_and!; [done| |].
  - intros Hne [_ Hpost]%app_eq_nil. destruct post as [|x post]; [done|]. cbn in Hpost.
    apply app_eq_nil in Hpost as [-> _]. set_solver.
  - rewrite fmap_app, handle_inputs_app. unfold mbind, M_bind. rewrite arrive_wait by done. cbn.
    unfold mbind, M_bind. rewrite (Hdone _ _ r); [done|done|zlen_lia].
Qed.

Lemma arrive_whole cut (after : P) :
  delivers cut → (∀ b d, b ++ d = frame → handle_input (mk d) (waiting b) = (after, Ok tt)) →
  handle_inputs (mk <$> cut frame) (waiting []) = (after, Ok tt).
Proof.
  intros Hcut Hdone. destruct (Hcut frame) as [Hc Hne].
  destruct (arrive_complete (λ _, after) (cut frame) []) as (r & post & Hr & Hpost & ->).
  - intros b d r Hb Hz. rewrite zlen_nil in Hz. pose proof (zlen_nonneg r).
    assert (r = []) as -> by (apply zlen_zero_inv; lia). rewrite app_nil_r in Hb. by apply Hdone.
  - by rewrite app_nil_r.
  - by rewrite Hpost.
Qed.
End Pieces.

(** ** Turns *)

Section Turns.
Context {P Input Output Error : Type} `{!SansIoProtocol P Input Output Error}.

Lemma talk_then {inv : P → Prop} {admissible : P → Input → Prop} {C : SansIoContract inv admissible} ins (s s1 : P) :
  handle_inputs ins s = (s1, Ok tt) → talk ins s = drain_all s1.
Proof. intros Hi. unfold talk, mbind, M_bind. by rewrite Hi. Qed.

Lemma one_input (i : Input) (s s1 : P) : handle_input i s = (s1, Ok tt) → handle_inputs [i] s = (s1, Ok tt).
Proof. intros Hi. cbn. unfold mbind, M_bind. by rewrite Hi. Qed.
End Turns.
