(* ===== verification/Deadline.v ===== *)
(** Time, from [crates/platform/src/deadline.rs] and [clock.rs]: samples of a
    monotonic clock and the deadlines components report to their host. *)

From S2P Require Import Prelude.

Record Now := mkNow { monotonic_ms : Z; unix_seconds : option Z }.

Definition MAX_MONOTONIC_MS : Z := u64_max - 1.

Definition Now_from_millis (ms : Z) : Now := mkNow ms None.
Definition Now_new (ms unix : Z) : Now := mkNow ms (Some unix).
Definition with_unix_seconds (n : Now) (unix : Z) : Now := {| n with unix_seconds := Some unix |}.
Definition saturating_millis_since (n earlier : Now) : Z :=
  saturating_sub (monotonic_ms n) (monotonic_ms earlier).

(** [Deadline(u64)]. *)
Record Deadline := mkDeadline { as_millis : Z }.

Definition NEVER : Deadline := mkDeadline u64_max.
Definition IMMEDIATE : Deadline := mkDeadline 0.
Definition from_millis (ms : Z) : Deadline := mkDeadline ms.
Definition is_never (d : Deadline) : bool := as_millis d =? u64_max.
Definition is_expired_at (d : Deadline) (now : Now) : bool :=
  negb (is_never d) && (as_millis d <=? monotonic_ms now).
Definition millis_until (d : Deadline) (now : Now) : Z :=
  if is_never d then u64_max else saturating_sub (as_millis d) (monotonic_ms now).
Definition saturating_add_millis (d : Deadline) (ms : Z) : Deadline :=
  mkDeadline (saturating_add u64_max (as_millis d) ms).
Definition earliest (a b : Deadline) : Deadline := if as_millis a <=? as_millis b then a else b.
Definition earliest_opt (l r : option Deadline) : option Deadline :=
  match l, r with
  | Some l, Some r => Some (earliest l r)
  | Some only, None | None, Some only => Some only
  | None, None => None
  end.

Definition deadline_after (n : Now) (ms : Z) : Deadline :=
  from_millis (saturating_add u64_max (monotonic_ms n) ms).
Definition as_deadline (n : Now) : Deadline := from_millis (monotonic_ms n).

(** A sample of a clock that keeps its contract, and a [u64]. *)
Definition now_ok (n : Now) : Prop := 0 ≤ monotonic_ms n ≤ MAX_MONOTONIC_MS.
Definition deadline_ok (d : Deadline) : Prop := 0 ≤ as_millis d ≤ u64_max.

#[global] Instance Deadline_eq_dec : EqDecision Deadline.
Proof. solve_decision. Defined.

(** The host waits for the earliest of many deadlines. *)
Definition earliest_all (ds : list (option Deadline)) : option Deadline :=
  foldr earliest_opt None ds.

Lemma expired_iff d now :
  deadline_ok d → now_ok now → is_expired_at d now = true ↔ as_millis d ≤ monotonic_ms now.
Proof.
  unfold deadline_ok, now_ok, MAX_MONOTONIC_MS, is_expired_at, is_never. intros Hd Hn.
  rewrite andb_true_iff, negb_true_iff, Z.eqb_neq, Z.leb_le. lia.
Qed.

Lemma earliest_le a b d : as_millis (earliest a b) ≤ as_millis d ↔
  as_millis a ≤ as_millis d ∨ as_millis b ≤ as_millis d.
Proof. unfold earliest. destruct (Z.leb_spec (as_millis a) (as_millis b)); lia. Qed.

Lemma earliest_all_min ds :
  match earliest_all ds with
  | None => Forall (λ o, o = None) ds
  | Some d => Some d ∈ ds ∧ ∀ d', Some d' ∈ ds → as_millis d ≤ as_millis d'
  end.
Proof.
  induction ds as [|o ds IH]; cbn; [done|]. fold (earliest_all ds).
  destruct o as [a|], (earliest_all ds) as [b|]; cbn.
  - destruct IH as [Hin Hmin]. split.
    + unfold earliest. case_match; rewrite elem_of_cons; auto.
    + intros d' [[= ->]|Hd']%elem_of_cons; apply earliest_le; [by left|right; auto].
  - split; [by apply elem_of_cons; left|].
    intros d' [[= ->]|Hd']%elem_of_cons; [done|].
    rewrite Forall_forall in IH. by specialize (IH _ Hd').
  - destruct IH as [Hin Hmin]. split; [by apply elem_of_cons; right|].
    intros d' [?|Hd']%elem_of_cons; [done|auto].
  - by constructor.
Qed.

(** ** Properties *)

(** A deadline set [ms] ahead is due exactly once [ms] milliseconds have
    passed on the same clock, also where the addition saturates at [NEVER]; and
    a deadline is due exactly when no time remains until it. *)
Theorem deadline_after_exact start later ms :
  now_ok start → now_ok later → 0 ≤ ms ≤ u64_max →
  (is_expired_at (deadline_after start ms) later = true ↔
     monotonic_ms start ≤ monotonic_ms later ∧ ms ≤ saturating_millis_since later start) ∧
  (is_expired_at (deadline_after start ms) later = true ↔
     millis_until (deadline_after start ms) later = 0).
Proof.
  intros Hs Hl Hms. set (d := deadline_after start ms).
  assert (as_millis d = Z.min u64_max (monotonic_ms start + ms)) as Hd by done.
  unfold now_ok, MAX_MONOTONIC_MS in *.
  assert (deadline_ok d) as Hdo by (unfold deadline_ok; lia).
  assert (is_expired_at d later = true ↔ as_millis d ≤ monotonic_ms later) as He
    by (by apply expired_iff).
  split.
  - rewrite He. unfold saturating_millis_since, saturating_sub. lia.
  - rewrite He. unfold millis_until, is_never, saturating_sub.
    destruct (Z.eqb_spec (as_millis d) u64_max); [unfold u64_max in *|]; lia.
Qed.

Lemma deadline_after_exact_witness :
  is_expired_at (deadline_after (Now_from_millis 5) 10) (Now_from_millis 15) = true.
Proof.
  destruct (deadline_after_exact (Now_from_millis 5) (Now_from_millis 15) 10) as [[_ H] _];
    [by vm_compute..|]. apply H. by vm_compute.
Defined.

(** Merging deadlines loses nothing. The earliest of the deadlines of any
    number of components is one of them, and it is due as soon as any of them
    is, so a host that sleeps until it is never late for another; there is none
    exactly when no component has one. *)
Theorem earliest_never_late ds now :
  Forall (λ o, match o with Some d => deadline_ok d | None => True end) ds → now_ok now →
  match earliest_all ds with
  | None => ∀ d, Some d ∉ ds
  | Some d => Some d ∈ ds ∧
      (is_expired_at d now = true ↔ ∃ d', Some d' ∈ ds ∧ is_expired_at d' now = true)
  end.
Proof.
  intros Hds Hn. rewrite Forall_forall in Hds. pose proof (earliest_all_min ds) as Hmin.
  destruct (earliest_all ds) as [d|].
  - destruct Hmin as [Hin Hmin]. split; [done|]. split; [by eauto|].
    intros (d' & Hd' & He). pose proof (Hds _ Hin) as Hok. pose proof (Hds _ Hd') as Hok'.
    apply expired_iff; [done|done|]. apply expired_iff in He; [|done..].
    specialize (Hmin d' Hd'). lia.
  - rewrite Forall_forall in Hmin. intros d Hd. by specialize (Hmin _ Hd).
Qed.

Lemma earliest_never_late_witness :
  Some (from_millis 7) ∈ [None; Some (from_millis 9); Some (from_millis 7)].
Proof.
  pose proof (earliest_never_late [None; Some (from_millis 9); Some (from_millis 7)] (Now_from_millis 8)) as H.
  apply H.
  - repeat constructor; by vm_compute.
  - by vm_compute.
Defined.
