(* ===== verification/YamuxFrame.v ===== *)
(** Yamux wire frames, from [crates/yamux/src/frame.rs] and the error type of
    [crates/yamux/src/lib.rs]: the frame constructors, [Frame::encode],
    [Frame::validate] and the incremental [FrameDecoder]. *)

From Stdlib Require Import Strings.Byte.
From S2P Require Import Prelude.

Definition HEADER_LEN : Z := 12.

Definition FLAG_SYN : Z := 1.
Definition FLAG_ACK : Z := 2.
Definition FLAG_FIN : Z := 4.
Definition FLAG_RST : Z := 8.
Definition STREAM_FLAGS : Z :=
  Z.lor (Z.lor (Z.lor FLAG_SYN FLAG_ACK) FLAG_FIN) FLAG_RST.
Definition PING_FLAGS : Z := Z.lor FLAG_SYN FLAG_ACK.

Inductive FrameType := TData | TWindowUpdate | TPing | TGoAway.

#[global] Instance FrameType_eq_dec : EqDecision FrameType.
Proof. solve_decision. Defined.

Inductive YamuxError :=
  | InvalidConfig (reason : string)
  | UnsupportedVersion (v : Z)
  | UnknownFrameType (v : Z)
  | InvalidFlags (frame_type : FrameType) (flags : Z)
  | InvalidStreamId (frame_type : FrameType) (stream : Z)
  | FrameTooLarge (length max : Z)
  | FrameLengthOverflow
  | Protocol (reason : string)
  | ReceiveWindowExceeded (stream : Z)
  | WindowOverflow (stream : Z)
  | TooManyStreams
  | StreamsExhausted
  | UnknownStream (stream : Z)
  | StreamWriteClosed (stream : Z)
  | SendBufferFull (stream attempted per_stream_limit total_limit : Z)
  | SessionClosed
  | Failed.

(** [self.frame_type as u8]. *)
Definition FrameType_tag (t : FrameType) : Z :=
  match t with TData => 0 | TWindowUpdate => 1 | TPing => 2 | TGoAway => 3 end.

Definition FrameType_decode (value : Z) : res YamuxError FrameType :=
  match value with
  | 0 => Ok TData
  | 1 => Ok TWindowUpdate
  | 2 => Ok TPing
  | 3 => Ok TGoAway
  | other => Err (UnknownFrameType other)
  end.

Record Frame := mkFrame {
  frame_type : FrameType;
  flags : Z;
  stream_id : Z;
  value : Z;
  payload : bytes;
}.

(** [flags & !allowed] on a [u16]. *)
Definition outside_flags (flags allowed : Z) : Z :=
  Z.land flags (Z.lxor allowed u16_max).

Definition validate (f : Frame) : res YamuxError unit :=
  let allowed :=
    match frame_type f with
    | TData | TWindowUpdate => STREAM_FLAGS
    | TPing => PING_FLAGS
    | TGoAway => 0
    end in
  if negb (outside_flags (flags f) allowed =? 0)
     || (bool_decide (frame_type f = TPing)
         && negb ((flags f =? FLAG_SYN) || (flags f =? FLAG_ACK)))
  then Err (InvalidFlags (frame_type f) (flags f))
  else
    let valid_stream :=
      match frame_type f with
      | TData | TWindowUpdate => negb (stream_id f =? 0)
      | TPing | TGoAway => stream_id f =? 0
      end in
    if negb valid_stream
    then Err (InvalidStreamId (frame_type f) (stream_id f))
    else Ok tt.

Definition Frame_data (stream flags : Z) (payload : bytes) : res YamuxError Frame :=
  if u32_max <? zlen payload then Err FrameLengthOverflow
  else
    let frame := mkFrame TData flags stream (zlen payload) payload in
    _ ← validate frame;
    mret frame.

Definition Frame_window_update (stream flags credit : Z) : res YamuxError Frame :=
  let frame := mkFrame TWindowUpdate flags stream credit [] in
  _ ← validate frame;
  mret frame.

Definition Frame_ping (flags nonce : Z) : res YamuxError Frame :=
  let frame := mkFrame TPing flags 0 nonce [] in
  _ ← validate frame;
  mret frame.

Definition Frame_go_away (code : Z) : Frame := mkFrame TGoAway 0 0 code [].

Definition encode (f : Frame) : bytes :=
  [z2b 0; z2b (FrameType_tag (frame_type f))]
  ++ be_bytes 2 (flags f) ++ be_bytes 4 (stream_id f) ++ be_bytes 4 (value f)
  ++ payload f.

(** ** The incremental decoder *)

Record FrameDecoder := mkDecoder {
  buffer : bytes;
  offset : Z;
  max_frame_len : Z;
}.

Definition decoder_new (max_frame_len : Z) : FrameDecoder :=
  mkDecoder [] 0 max_frame_len.

Definition push (bs : bytes) (d : FrameDecoder) : FrameDecoder :=
  {| d with buffer := buffer d ++ bs |}.

Definition clear (d : FrameDecoder) : FrameDecoder :=
  {| d with buffer := []; offset := 0 |}.

Definition compact_if_needed (d : FrameDecoder) : FrameDecoder :=
  if offset d =? zlen (buffer d) then clear d
  else if zlen (buffer d) / 2 <=? offset d
  then {| d with buffer := drop (Z.to_nat (offset d)) (buffer d); offset := 0 |}
  else d.

Definition next_frame : M FrameDecoder YamuxError (option Frame) := λ d,
  let run : M FrameDecoder YamuxError (option Frame) :=
    available ← lift (ok_or (checked_sub (zlen (buffer d)) (offset d))
                            FrameLengthOverflow);
    if available <? HEADER_LEN then mret None
    else
      header_end ← lift (ok_or (checked_add usize_max (offset d) HEADER_LEN)
                               FrameLengthOverflow);
      header ← lift (ok_or (slice (buffer d) (offset d) header_end)
                           FrameLengthOverflow);
      match header with
      | [version; frame_type_raw; flags_high; flags_low;
         stream_3; stream_2; stream_1; stream_0;
         value_3; value_2; value_1; value_0] =>
          if negb (b2z version =? 0)
          then throw (UnsupportedVersion (b2z version))
          else
            frame_type ← lift (FrameType_decode (b2z frame_type_raw));
            let flags := be_value [flags_high; flags_low] in
            let stream_id := be_value [stream_3; stream_2; stream_1; stream_0] in
            let value := be_value [value_3; value_2; value_1; value_0] in
            if bool_decide (frame_type = TData) && (max_frame_len d <? value)
            then throw (FrameTooLarge value (max_frame_len d))
            else
              let payload_len := if bool_decide (frame_type = TData) then value else 0 in
              frame_len ← lift (ok_or (checked_add usize_max HEADER_LEN payload_len)
                                      FrameLengthOverflow);
              if available <? frame_len then mret None
              else
                payload_end ← lift (ok_or (checked_add usize_max header_end payload_len)
                                          FrameLengthOverflow);
                payload ← lift (ok_or (slice (buffer d) header_end payload_end)
                                      FrameLengthOverflow);
                let frame := mkFrame frame_type flags stream_id value payload in
                _ ← lift (validate frame);
                offset' ← lift (ok_or (checked_add usize_max (offset d) frame_len)
                                      FrameLengthOverflow);
                _ ← modify (λ d, compact_if_needed {| d with offset := offset' |});
                mret (Some frame)
      | _ => throw FrameLengthOverflow
      end in
  run d.

Example decode_window_update :
  let f := mkFrame TWindowUpdate FLAG_SYN 3 70000 [] in
  snd (next_frame (push (encode f ++ str "tail") (decoder_new 1024))) = Ok (Some f).
Proof. vm_compute. reflexivity. Qed.

(** ** The byte-stream view of the decoder *)

(** One frame off the front of a byte stream, with no buffer management. *)
Definition parse_frame (max : Z) (l : bytes) : res YamuxError (option (Frame * bytes)) :=
  match l with
  | version :: ft :: f1 :: f0 :: s3 :: s2 :: s1 :: s0 :: v3 :: v2 :: v1 :: v0 :: rest =>
      if negb (b2z version =? 0) then Err (UnsupportedVersion (b2z version))
      else
        ft ← FrameType_decode (b2z ft);
        let value := be_value [v3; v2; v1; v0] in
        if bool_decide (ft = TData) && (max <? value)
        then Err (FrameTooLarge value max)
        else
          let n := if bool_decide (ft = TData) then value else 0 in
          if zlen rest <? n then Ok None
          else
            let frame := mkFrame ft (be_value [f1; f0]) (be_value [s3; s2; s1; s0])
                           value (take (Z.to_nat n) rest) in
            _ ← validate frame;
            Ok (Some (frame, drop (Z.to_nat n) rest))
  | _ => Ok None
  end.

(** The bytes received and not yet returned in a frame. *)
Definition unread (d : FrameDecoder) : bytes := drop (Z.to_nat (offset d)) (buffer d).

Definition decoder_ok (d : FrameDecoder) : Prop :=
  0 ≤ offset d ≤ zlen (buffer d) ∧ zlen (buffer d) ≤ usize_max.

Lemma compact_unread d :
  decoder_ok d →
  unread (compact_if_needed d) = unread d ∧ decoder_ok (compact_if_needed d) ∧
  max_frame_len (compact_if_needed d) = max_frame_len d ∧
  zlen (buffer (compact_if_needed d)) ≤ zlen (buffer d).
Proof.
  intros [Ho Hm]. unfold compact_if_needed, unread, decoder_ok.
  destruct (Z.eqb_spec (offset d) (zlen (buffer d))) as [He|].
  - simpl. rewrite drop_ge by (unfold zlen in He; lia).
    split_and!; [done|zlen_lia..|done|zlen_lia].
  - destruct (_ <=? _); simpl; [|done]. rewrite drop_0.
    split_and!; [done|zlen_lia..|done|zlen_lia].
Qed.

Lemma parse_frame_short max l : zlen l < 12 → parse_frame max l = Ok None.
Proof.
  intros H. do 12 (destruct l as [|? l]; [done|]). zlen_lia.
Qed.

Lemma long_list (l : bytes) :
  12 ≤ zlen l → ∃ b0 b1 b2 b3 b4 b5 b6 b7 b8 b9 b10 b11 rest,
    l = b0::b1::b2::b3::b4::b5::b6::b7::b8::b9::b10::b11::rest.
Proof.
  intros H. do 12 (destruct l as [|? l]; [zlen_lia|]). by repeat eexists.
Qed.

Lemma validate_outcome f : validate f = Ok tt ∨ ∃ e, validate f = Err e.
Proof.
  unfold validate.
  repeat match goal with |- context [if ?b then _ else _] => destruct b end; eauto.
Qed.

Lemma FrameType_decode_outcome v :
  (∃ t, FrameType_decode v = Ok t ∧ v = FrameType_tag t) ∨
  FrameType_decode v = Err (UnknownFrameType v).
Proof. destruct v as [|[[]|[]|]|]; simpl; eauto. Qed.

(** What the buffered decoder does, given what the stream parser answers. *)
Definition decodes_as (d : FrameDecoder) (r : res YamuxError (option (Frame * bytes)))
    (out : FrameDecoder * res YamuxError (option Frame)) : Prop :=
  match r with
  | Ok None => out = (d, Ok None)
  | Ok (Some (f, rest)) =>
      out.2 = Ok (Some f) ∧ unread out.1 = rest ∧ decoder_ok out.1 ∧
      max_frame_len out.1 = max_frame_len d ∧
      zlen (buffer out.1) ≤ zlen (buffer d)
  | Err e => out = (d, Err e)
  | _ => False
  end.

(** The buffered decoder computes [parse_frame] of its unread bytes. *)
Lemma next_frame_parse d :
  decoder_ok d →
  decodes_as d (parse_frame (max_frame_len d) (unread d)) (next_frame d).
Proof.
  intros [Ho Hm]. unfold unread.
  set (p := take (Z.to_nat (offset d)) (buffer d)).
  set (l := drop (Z.to_nat (offset d)) (buffer d)).
  assert (buffer d = p ++ l) as Hbuf by (symmetry; apply take_drop).
  assert (offset d = zlen p) as Hp by (unfold p; zlen_lia). clearbody p l.
  unfold next_frame. rewrite Hbuf, Hp in *.
  rewrite checked_sub_Some by zlen_lia. run_simpl.
  replace (zlen (p ++ l) - zlen p) with (zlen l) by zlen_lia.
  unfold HEADER_LEN in *.
  destruct (Z.ltb_spec (zlen l) 12) as [Hlt|Hge].
  { by rewrite parse_frame_short. }
  rewrite checked_add_Some by zlen_lia. run_simpl. rewrite slice_after by lia.
  destruct (long_list l Hge) as
    (b0&b1&b2&b3&b4&b5&b6&b7&b8&b9&b10&b11&rest&->).
  change (Z.to_nat 12) with 12%nat. cbn [take parse_frame]. rewrite take_0. run_simpl.
  set (hd := [b0; b1; b2; b3; b4; b5; b6; b7; b8; b9; b10; b11]).
  match goal with |- context [p ++ ?l] => set (L := l) in * end.
  assert (L = hd ++ rest) as HL by done. assert (zlen hd = 12) as Hhd by done.
  clearbody L hd. subst L.
  destruct (negb (b2z b0 =? 0)); [done|].
  destruct (FrameType_decode_outcome (b2z b1)) as [(ft & -> & _)| ->]; [|done].
  destruct (bool_decide (ft = TData) && _); [done|].
  pose proof (be_value_range [b8; b9; b10; b11]) as Hv.
  set (n := if bool_decide (ft = TData) then _ else 0).
  assert (0 ≤ n ≤ u32_max) as Hn.
  { unfold n, u32_max. simpl in Hv. case_bool_decide; lia. }
  rewrite checked_add_Some by (unfold usize_max, u64_max, u32_max in *; lia).
  run_simpl.
  destruct (Z.ltb_spec (zlen (hd ++ rest)) (12 + n)) as [Hs|Hs].
  { destruct (Z.ltb_spec (zlen rest) n); [done|zlen_lia]. }
  destruct (Z.ltb_spec (zlen rest) n); [zlen_lia|].
  rewrite checked_add_Some by zlen_lia. run_simpl.
  replace (zlen p + 12) with (zlen (p ++ hd)) by zlen_lia.
  rewrite app_assoc, slice_after by lia. run_simpl.
  destruct (validate_outcome (mkFrame ft (be_value [b2; b3])
    (be_value [b4; b5; b6; b7]) (be_value [b8; b9; b10; b11])
    (take (Z.to_nat n) rest))) as [-> |[e ->]]; [|done].
  rewrite checked_add_Some by zlen_lia. run_simpl. unfold decodes_as. split; [done|].
  cbn [fst snd].
  edestruct (compact_unread {| d with offset := zlen p + (12 + n) |}) as (-> & ? & -> & ?).
  { split; simpl; rewrite Hbuf; zlen_lia. }
  split_and!; [|done..]. unfold unread. simpl. rewrite Hbuf, app_assoc.
  replace (Z.to_nat (zlen p + (12 + n))) with (length (p ++ hd) + Z.to_nat n)%nat
    by (rewrite length_app; unfold zlen in *; lia).
  by rewrite drop_app_add.
Qed.

(** ** Which byte streams hold a frame *)

(** A frame as the constructors build it: valid flags and stream, fields of
    their width, and a payload exactly for data frames. *)
Definition frame_ok (f : Frame) : Prop :=
  validate f = Ok tt ∧ 0 ≤ flags f ≤ u16_max ∧ 0 ≤ stream_id f ≤ u32_max ∧
  0 ≤ value f ≤ u32_max ∧
  (if bool_decide (frame_type f = TData) then value f = zlen (payload f)
   else payload f = []).

Definition fits (max : Z) (f : Frame) : Prop :=
  frame_ok f ∧ (frame_type f = TData → value f ≤ max).

Lemma be2 a b v : be_value [a; b] = v → [a; b] = be_bytes 2 v.
Proof. intros <-. symmetry. apply (be_bytes_be_value [a; b]). Qed.
Lemma be4 a b c d v : be_value [a; b; c; d] = v → [a; b; c; d] = be_bytes 4 v.
Proof. intros <-. symmetry. apply (be_bytes_be_value [a; b; c; d]). Qed.

Lemma parse_frame_sound max l f rest :
  parse_frame max l = Ok (Some (f, rest)) → fits max f ∧ l = encode f ++ rest.
Proof.
  destruct (decide (zlen l < 12)) as [|Hge]; [by rewrite parse_frame_short|].
  destruct (long_list l) as
    (b0&b1&b2&b3&b4&b5&b6&b7&b8&b9&b10&b11&tl&->); [lia|]. cbn [parse_frame].
  destruct (Z.eqb_spec (b2z b0) 0) as [H0|]; [|done].
  destruct (FrameType_decode_outcome (b2z b1)) as [(ft & -> & Ht)| ->]; [|done].
  run_simpl. cbn [negb]. destruct (bool_decide (ft = TData) && _) eqn:Hbig; [done|].
  set (n := if bool_decide (ft = TData) then _ else 0).
  destruct (Z.ltb_spec (zlen tl) n) as [|Hn]; [done|].
  destruct (validate_outcome (mkFrame ft (be_value [b2; b3])
    (be_value [b4; b5; b6; b7]) (be_value [b8; b9; b10; b11])
    (take (Z.to_nat n) tl))) as [Hval|[e ->]]; [|done].
  rewrite Hval. intros [= <- <-].
  pose proof (be_value_range [b2; b3]). pose proof (be_value_range [b4; b5; b6; b7]).
  pose proof (be_value_range [b8; b9; b10; b11]) as Hv.
  change (256 ^ Z.of_nat (length [b8; b9; b10; b11])) with 4294967296 in *.
  change (256 ^ Z.of_nat (length [b4; b5; b6; b7])) with 4294967296 in *.
  change (256 ^ Z.of_nat (length [b2; b3])) with 65536 in *.
  split.
  - unfold fits, frame_ok, u16_max, u32_max. cbn [flags stream_id value payload frame_type].
    split_and!; [done|lia..| |].
    + unfold n in *. case_bool_decide; [zlen_lia|done].
    + intros ->. simpl in Hbig. lia.
  - unfold encode. cbn [flags stream_id value payload frame_type].
    rewrite <- Ht, <- H0, !z2b_b2z.
    rewrite <- (be2 b2 b3 _ eq_refl), <- (be4 b4 b5 b6 b7 _ eq_refl),
      <- (be4 b8 b9 b10 b11 _ eq_refl).
    rewrite <- !app_assoc, take_drop. done.
Qed.

Lemma parse_frame_encode max f rest :
  fits max f → parse_frame max (encode f ++ rest) = Ok (Some (f, rest)).
Proof.
  intros [(Hval & Hf & Hs & Hv & Hp) Hmax]. destruct f as [ft fl st v pl].
  cbn [flags stream_id value payload frame_type] in *.
  unfold u16_max, u32_max in *.
  pose proof (be_value_be_bytes 2 fl ltac:(simpl; lia)) as E1.
  pose proof (be_value_be_bytes 4 st ltac:(simpl; lia)) as E2.
  pose proof (be_value_be_bytes 4 v ltac:(simpl; lia)) as E3.
  unfold encode. cbn [flags stream_id value payload frame_type].
  destruct (be_bytes 2 fl) as [|f1 [|f0 []]] eqn:B1; try done.
  destruct (be_bytes 4 st) as [|s3 [|s2 [|s1 [|s0 []]]]] eqn:B2; try done.
  destruct (be_bytes 4 v) as [|v3 [|v2 [|v1 [|v0 []]]]] eqn:B3; try done.
  cbn [app parse_frame]. rewrite E1, E2, E3.
  replace (FrameType_decode (b2z (z2b (FrameType_tag ft)))) with (@Ok YamuxError _ ft)
    by (by destruct ft).
  change (negb (b2z (z2b 0) =? 0)) with false. run_simpl.
  case_bool_decide as Hd; cbn [andb].
  - destruct (Z.ltb_spec max v); [specialize (Hmax Hd); lia|].
    destruct (Z.ltb_spec (zlen (pl ++ rest)) v); [zlen_lia|].
    rewrite Hp, to_nat_zlen, take_app_length, drop_app_length, <- Hp.
    by rewrite Hval.
  - subst pl. destruct (Z.ltb_spec (zlen ([] ++ rest)) 0); [zlen_lia|].
    change (Z.to_nat 0) with 0%nat. rewrite take_0, drop_0. by rewrite Hval.
Qed.

Lemma parse_frame_outcome max l :
  parse_frame max l ≠ Panic ∧ parse_frame max l ≠ Diverge.
Proof.
  do 12 (destruct l as [|? l]; [done|]). cbn [parse_frame].
  destruct (negb _); [done|].
  destruct (FrameType_decode_outcome (b2z b0)) as [(ft & -> & _)| ->]; [|done].
  run_simpl. destruct (bool_decide (ft = TData) && _); [done|].
  destruct (_ <? _); [done|].
  match goal with |- context [validate ?f] =>
    destruct (validate_outcome f) as [-> |[e ->]]; done end.
Qed.

Lemma parse_frame_app max l more :
  parse_frame max l ≠ Ok None →
  parse_frame max (l ++ more) =
    o ← parse_frame max l;
    Ok (match o with Some (f, rest) => Some (f, rest ++ more) | None => None end).
Proof.
  intros Hne. destruct (parse_frame max l) as [[[f rest]|]|e| |] eqn:Hp; simpl.
  - apply parse_frame_sound in Hp as [Hf ->]. rewrite <- app_assoc.
    by apply parse_frame_encode.
  - done.
  - destruct (decide (zlen l < 12)) as [|Hge]; [by rewrite parse_frame_short in Hp|].
    destruct (long_list l) as
      (b0&b1&b2&b3&b4&b5&b6&b7&b8&b9&b10&b11&tl&->); [lia|].
    cbn [app parse_frame] in *. destruct (negb _); [done|].
    destruct (FrameType_decode _) as [ft| | |]; try done. revert Hp. run_simpl.
    destruct (bool_decide (ft = TData) && _); [done|].
    set (n := if bool_decide (ft = TData) then _ else 0).
    destruct (Z.ltb_spec (zlen tl) n); [done|].
    destruct (Z.ltb_spec (zlen (tl ++ more)) n); [zlen_lia|].
    rewrite take_app_le by (unfold zlen in *; lia).
    destruct (validate _) as [[]| | |]; done.
  - by apply parse_frame_outcome in Hp.
  - by apply parse_frame_outcome in Hp.
Qed.

(** A strict prefix of a frame is waited for, never refused. *)
Lemma parse_frame_prefix max f p q :
  fits max f → encode f = p ++ q → q ≠ [] → parse_frame max p = Ok None.
Proof.
  intros Hf Hpq Hq. pose proof (parse_frame_encode max f [] Hf) as Hfull.
  rewrite app_nil_r, Hpq in Hfull.
  destruct (parse_frame max p) as [[[f' rest]|]|e| |] eqn:Hp; [|done|..];
    rewrite parse_frame_app, Hp in Hfull by (by rewrite Hp); try done.
  injection Hfull as <- Hnil. by destruct rest, q.
Qed.

(** ** Draining a decoder *)

(** What the receive loop of a session does with a decoder: frames until the
    decoder asks for more bytes. *)
Fixpoint drain_frames (fuel : nat) : M FrameDecoder YamuxError (list Frame) :=
  match fuel with
  | O => lift Diverge
  | S fuel =>
      o ← next_frame;
      match o with
      | None => mret []
      | Some f => fs ← drain_frames fuel; mret (f :: fs)
      end
  end.

Definition feed (chunk : bytes) : M FrameDecoder YamuxError (list Frame) := λ d,
  let d := push chunk d in drain_frames (S (length (unread d))) d.

Fixpoint feed_all (chunks : list bytes) : M FrameDecoder YamuxError (list Frame) :=
  match chunks with
  | [] => mret []
  | c :: chunks => fs ← feed c; gs ← feed_all chunks; mret (fs ++ gs)
  end.

Lemma length_encode f : length (encode f) = (12 + length (payload f))%nat.
Proof. unfold encode. rewrite !length_app, !length_be_bytes. simpl. lia. Qed.

Lemma drain_frames_spec max fs : Forall (fits max) fs → ∀ fuel d w,
  decoder_ok d → max_frame_len d = max → (length (unread d) < fuel)%nat →
  unread d ++ w = concat (encode <$> fs) →
  ∃ fs1 fs2 d', drain_frames fuel d = (d', Ok fs1) ∧ fs = fs1 ++ fs2 ∧
    decoder_ok d' ∧ max_frame_len d' = max ∧
    zlen (buffer d') ≤ zlen (buffer d) ∧
    unread d' ++ w = concat (encode <$> fs2) ∧
    ∀ f fs3, fs2 = f :: fs3 → zlen (unread d') < zlen (encode f).
Proof.
  induction 1 as [|f fs Hf Hfs IH]; intros fuel d w Hd Hmax Hfuel Hw;
    (destruct fuel as [|fuel]; [lia|]); cbn [drain_frames]; unfold mbind, M_bind;
    pose proof (next_frame_parse d Hd) as Hnf; rewrite Hmax in Hnf.
  - apply app_eq_nil in Hw as [Hu ->]. rewrite Hu in Hnf. simpl in Hnf. rewrite Hnf.
    exists [], [], d. rewrite Hu. by split_and!.
  - rewrite fmap_cons, concat_cons in Hw.
    apply app_split_cases in Hw as [(k & Hu & HE)|(k & Hk & HE & ->)].
    + rewrite Hu, parse_frame_encode in Hnf by done.
      destruct (next_frame d) as [d' r]. simpl in Hnf.
      destruct Hnf as (-> & Hk & Hd' & Hmax' & Hb).
      destruct (IH fuel d' w) as (fs1 & fs2 & d2 & Hrun & -> & ? & ? & ? & ? & ?).
      { done. } { congruence. }
      { rewrite Hk. rewrite Hu, length_app, length_encode in Hfuel. lia. }
      { by rewrite Hk. }
      exists (f :: fs1), fs2, d2. rewrite Hrun. split_and!; [done..|lia|done|done].
    + rewrite (parse_frame_prefix max f (unread d) k) in Hnf by done. simpl in Hnf.
      rewrite Hnf. exists [], (f :: fs), d. split_and!; try done.
      { rewrite fmap_cons, concat_cons, HE. by rewrite <- app_assoc. }
      { intros f' fs3 [= <- <-]. rewrite HE, zlen_app. destruct k; [done|]. rewrite zlen_cons. pose proof (zlen_nonneg k). lia. }
Qed.

Lemma push_unread c d :
  decoder_ok d → zlen (buffer d) + zlen c ≤ usize_max →
  decoder_ok (push c d) ∧ unread (push c d) = unread d ++ c.
Proof.
  intros [Ho Hm] Hc. unfold decoder_ok, unread, push. simpl.
  split; [split; zlen_lia|]. rewrite drop_app_le; [done|]. unfold zlen in *. lia.
Qed.

(** What has arrived of a frame that is not complete. *)
Definition incomplete (max : Z) (part : bytes) : Prop :=
  part = [] ∨ ∃ f rest, fits max f ∧ rest ≠ [] ∧ encode f = part ++ rest.

(** The frames that are still to come: none is complete, and the stream ends
    within the last one. *)
Lemma waiting_for_last f rest part u (fs : list Frame) :
  encode f = part ++ rest → rest ≠ [] → u ++ rest = concat (encode <$> fs) → last fs = Some f →
  (∀ g fs', fs = g :: fs' → zlen u < zlen (encode g)) → fs = [f].
Proof.
  intros Hf Hr Hu Hl Hshort. destruct fs as [|g fs]; [done|]. destruct fs as [|g' fs]; [by injection Hl as ->|]. exfalso.
  specialize (Hshort _ _ eq_refl). apply last_Some in Hl as [fs' Hfs]. rewrite Hfs in Hu.
  destruct fs' as [|g0 fs']; [by injection Hfs as _ ?|]. injection Hfs as <- Hfs.
  apply (f_equal zlen) in Hu. rewrite fmap_app, concat_app, fmap_cons, concat_cons in Hu. cbn [fmap list_fmap concat] in Hu.
  rewrite app_nil_r, !zlen_app, Hf, zlen_app in Hu. pose proof (zlen_nonneg part). pose proof (zlen_nonneg (concat (encode <$> fs'))). lia.
Qed.

Lemma feed_all_spec max f rest part chunks : ∀ fs d,
  Forall (fits max) (fs ++ [f]) → encode f = part ++ rest → rest ≠ [] → decoder_ok d → max_frame_len d = max →
  zlen (buffer d) + zlen (concat chunks) ≤ usize_max →
  unread d ++ concat chunks = concat (encode <$> fs) ++ part →
  (chunks = [] → fs = []) →
  (feed_all chunks d).2 = Ok fs.
Proof.
  induction chunks as [|c chunks IH]; intros fs d Hfs Hf Hrest Hd Hmax Hlen Hcat Hend.
  { by rewrite Hend. }
  rewrite concat_cons, zlen_app in *.
  destruct (push_unread c d Hd ltac:(zlen_lia)) as [Hd1 Hu1].
  assert (concat (encode <$> fs ++ [f]) = (concat (encode <$> fs) ++ part) ++ rest) as Hall
    by (rewrite fmap_app, concat_app; cbn [fmap list_fmap concat]; by rewrite app_nil_r, Hf, app_assoc).
  destruct (drain_frames_spec max (fs ++ [f]) Hfs (S (length (unread (push c d)))) (push c d)
    (concat chunks ++ rest)) as (fs1 & fs2 & d' & Hrun & Hsplit & Hd' & Hmax' & Hb & Hu' & Hlast);
    [done|done|lia|by rewrite Hu1, Hall, <- Hcat, <- !app_assoc|].
  assert (∃ fs3, fs2 = fs3 ++ [f] ∧ fs = fs1 ++ fs3) as (fs3 & -> & ->).
  { destruct fs2 as [|g fs2 _] using rev_ind.
    - apply (f_equal zlen) in Hu'. rewrite !zlen_app in Hu'. change (zlen (concat (encode <$> []))) with 0 in Hu'.
      assert (zlen rest ≠ 0) by (by intros ?%zlen_zero_inv). pose proof (zlen_nonneg rest). pose proof (zlen_nonneg (unread d')). pose proof (zlen_nonneg (concat chunks)). lia.
    - rewrite app_assoc in Hsplit. apply app_inj_tail in Hsplit as [-> <-]. by exists fs2. }
  cbn [feed_all]. unfold mbind, M_bind, feed. rewrite Hrun.
  rewrite fmap_app, concat_app in Hu'. cbn [fmap list_fmap concat] in Hu'. rewrite app_nil_r, Hf, !app_assoc in Hu'. apply app_inv_tail in Hu'.
  rewrite <- app_assoc, Forall_app in Hfs. destruct Hfs as [_ Hfs2].
  assert ((feed_all chunks d').2 = Ok fs3) as Hres.
  { apply IH; try done.
    - cbn [buffer push] in Hb. zlen_lia.
    - intros ->. cbn [concat] in Hu'. rewrite app_nil_r in Hu'.
      assert (fs3 ++ [f] = [f]) as He.
      { apply (waiting_for_last f rest part (unread d')); [done|done| |by rewrite last_snoc|exact Hlast].
        rewrite Hu', fmap_app, concat_app. cbn [fmap list_fmap concat]. by rewrite app_nil_r, Hf, app_assoc. }
      by apply (app_inv_tail [f] fs3 []). }
  destruct (feed_all chunks d') as [d2 r]. cbn [snd] in Hres. by rewrite Hres.
Qed.

(** C29: The decoder reassembles a frame stream whatever way the transport cut
    it, and delays nothing: however the encodings of any legal frames, and the
    first bytes of one more, have arrived in chunks, draining after each chunk
    has returned exactly those frames in order, with no error and no frame lost
    or duplicated; a frame is there as soon as its last byte is. *)
Theorem decoder_reassembles max fs part chunks :
  Forall (fits max) fs → incomplete max part →
  concat chunks = concat (encode <$> fs) ++ part →
  zlen (concat chunks) ≤ usize_max →
  (feed_all chunks (decoder_new max)).2 = Ok fs.
Proof.
  intros Hfs Hpart Hcat Hlen.
  assert (∃ f rest, Forall (fits max) (fs ++ [f]) ∧ encode f = part ++ rest ∧ rest ≠ []) as (f & rest & Hall & Hf & Hr).
  { destruct Hpart as [->|(f & rest & Hf & Hr & He)].
    - exists (mkFrame TPing 1 0 0 []), (encode (mkFrame TPing 1 0 0 [])). split_and!; [|done|done]. apply Forall_app. split; [done|]. constructor; [|constructor]. split; [|done]. split_and!; by vm_compute.
    - exists f, rest. split_and!; [apply Forall_app; split; [done|by constructor]|done|done]. }
  apply (feed_all_spec max f rest part); [done|done|done|split; simpl; zlen_lia|done|done|done|].
  intros ->. simpl in Hcat. destruct fs as [|g fs]; [done|].
  apply (f_equal length) in Hcat. rewrite fmap_cons, concat_cons in Hcat.
  rewrite !length_app, length_encode in Hcat. simpl in Hcat. lia.
Qed.

(** The decoder, with its offset and its in-place compaction, computes the
    stream parser on the bytes it has not yet returned, for every input,
    malformed ones included; on [Err] and on "need more" it is unchanged. *)
Theorem decoder_refines_parser d :
  decoder_ok d →
  decodes_as d (parse_frame (max_frame_len d) (unread d)) (next_frame d).
Proof. apply next_frame_parse. Qed.

Lemma decoder_reassembles_witness :
  let f := mkFrame TData 0 1 2 [x61; x62] in
  let g := mkFrame TPing 1 0 7 [] in
  let h := mkFrame TPing 1 0 8 [] in
  let stream := encode f ++ encode g ++ take 11 (encode h) in
  (feed_all [take 5 stream; drop 5 stream] (decoder_new 16)).2 = Ok [f; g].
Proof.
  intros f g h stream. apply (decoder_reassembles 16 [f; g] (take 11 (encode h)) [take 5 stream; drop 5 stream]).
  - repeat constructor; vm_compute; done.
  - right. exists h, (drop 11 (encode h)). split_and!; [split; [split_and!|]; by vm_compute|by vm_compute|reflexivity].
  - reflexivity.
  - unfold zlen, usize_max, u64_max. vm_compute. discriminate.
Defined.

Lemma decoder_refines_parser_witness :
  decodes_as (mkDecoder (x00 :: encode (mkFrame TPing 1 0 7 [])) 1 16)
    (Ok (Some (mkFrame TPing 1 0 7 [], [])))
    (next_frame (mkDecoder (x00 :: encode (mkFrame TPing 1 0 7 [])) 1 16)).
Proof.
  apply (decoder_refines_parser (mkDecoder (x00 :: encode (mkFrame TPing 1 0 7 [])) 1 16)).
  split; unfold zlen, usize_max, u64_max; vm_compute; repeat split; discriminate.
Defined.
