(* ===== verification/YamuxSession.v ===== *)
(** The Yamux session, from [crates/yamux/src/session.rs] with the
    configuration and output types of [crates/yamux/src/lib.rs]: stream
    bookkeeping, flow control in both directions, keepalive, GoAway and the
    fail-closed reaction to protocol errors. *)

From S2P Require Import Prelude Deadline YamuxFrame.

(** ** Configuration and outputs *)

Definition KEEPALIVE_INTERVAL_MS : Z := 30000.
Definition DEFAULT_RECEIVE_WINDOW : Z := 256 * 1024.
Definition DEFAULT_MAX_FRAME_LEN : Z := 1024 * 1024.
Definition DEFAULT_MAX_STREAMS : Z := 256.
Definition DEFAULT_MAX_BUFFERED_SEND : Z := 256 * 1024.
Definition DEFAULT_MAX_TOTAL_BUFFERED_SEND : Z := 4 * 1024 * 1024.

Inductive YamuxRole := Client | Server.

Record YamuxConfig := mkConfig {
  cfg_receive_window : Z;
  cfg_max_frame_len : Z;
  max_streams : Z;
  max_buffered_send : Z;
  max_total_buffered_send : Z;
}.

Definition YamuxConfig_default : YamuxConfig :=
  mkConfig DEFAULT_RECEIVE_WINDOW DEFAULT_MAX_FRAME_LEN DEFAULT_MAX_STREAMS
    DEFAULT_MAX_BUFFERED_SEND DEFAULT_MAX_TOTAL_BUFFERED_SEND.

Inductive YamuxInput := Data (data : bytes).

Inductive YamuxOutput :=
  | Outbound (data : bytes)
  | IncomingStream (stream : Z)
  | DataReceived (stream : Z) (data : bytes)
  | RemoteWriteClosed (stream : Z)
  | StreamClosed (stream : Z)
  | GoAwayReceived (code : Z).

(** ** Per-stream state *)

Inductive OpenFlag := Syn | Ack.

Record StreamState := mkStream {
  locally_opened : bool;
  pending_open : option OpenFlag;
  acknowledged : bool;
  send_window : Z;
  receive_window : Z;
  delivered_since_update : Z;
  pending_credit : Z;
  send_buffer : list bytes;
  buffered_send : Z;
  close_pending : bool;
  local_write_closed : bool;
  remote_write_closed : bool;
}.

Definition StreamState_outbound (config : YamuxConfig) : res YamuxError StreamState :=
  credit ← sub_or_panic (cfg_receive_window config) DEFAULT_RECEIVE_WINDOW;
  mret (mkStream true (Some Syn) false DEFAULT_RECEIVE_WINDOW DEFAULT_RECEIVE_WINDOW
          0 credit [] 0 false false false).

Definition StreamState_inbound (config : YamuxConfig) (send_window : Z)
    : res YamuxError StreamState :=
  credit ← sub_or_panic (cfg_receive_window config) DEFAULT_RECEIVE_WINDOW;
  mret (mkStream false (Some Ack) false send_window DEFAULT_RECEIVE_WINDOW
          0 credit [] 0 false false false).

Definition take_open_flag : M StreamState YamuxError Z := λ st,
  match pending_open st with
  | Some Syn => ({| st with pending_open := None |}, Ok FLAG_SYN)
  | Some Ack => ({| st with pending_open := None; acknowledged := true |}, Ok FLAG_ACK)
  | None => (st, Ok 0)
  end.

Definition has_deferred_control (st : StreamState) : bool :=
  match pending_open st with Some _ => true | None => false end
  || negb (pending_credit st =? 0).

(** ** The session *)

Record YamuxSession := mkSession {
  role : YamuxRole;
  config : YamuxConfig;
  decoder : FrameDecoder;
  streams : gmap Z StreamState;
  next_stream_id : option Z;
  pending : list YamuxOutput;
  total_buffered_send : Z;
  failed : bool;
  local_go_away : bool;
  remote_go_away : bool;
  last_activity_ms : option Z;
  dirty : bool;
  next_ping_nonce : Z;
}.

Definition from_validated_config (r : YamuxRole) (c : YamuxConfig) : YamuxSession :=
  mkSession r c (decoder_new (cfg_max_frame_len c)) ∅
    (Some (match r with Client => 1 | Server => 2 end))
    [] 0 false false false None false 1.

Definition session_new (r : YamuxRole) : YamuxSession :=
  from_validated_config r YamuxConfig_default.

Definition with_config (r : YamuxRole) (c : YamuxConfig) : res YamuxError YamuxSession :=
  if cfg_receive_window c <? DEFAULT_RECEIVE_WINDOW
  then Err (InvalidConfig "receive_window is below Yamux's initial 256 KiB credit")
  else if cfg_max_frame_len c =? 0
  then Err (InvalidConfig "max_frame_len must be greater than zero")
  else Ok (from_validated_config r c).

Abbreviation Y := (M YamuxSession YamuxError).

Definition push_pending (o : YamuxOutput) : Y unit :=
  modify (λ s, {| s with pending := pending s ++ [o] |}).

Definition queue_frame (f : Frame) : Y unit :=
  modify (λ s, {| s with dirty := true; pending := pending s ++ [Outbound (encode f)] |}).

Fixpoint queue_frames (fs : list Frame) : Y unit :=
  match fs with
  | [] => mret tt
  | f :: fs => _ ← queue_frame f; queue_frames fs
  end.

Definition ensure_active : Y unit := λ s,
  if failed s then (s, Err Failed)
  else if local_go_away s || remote_go_away s then (s, Err SessionClosed)
  else (s, Ok tt).

(** A block that holds [self.streams.get_mut(&stream)]; [missing] is what the
    [ok_or] or [expect] on the lookup does. *)
Definition with_stream {A} (missing : res YamuxError A) (stream : Z)
    (m : M StreamState YamuxError A) : Y A := λ s,
  match streams s !! stream with
  | None => (s, missing)
  | Some st =>
      let '(st', r) := m st in
      ({| s with streams := <[stream := st']> (streams s) |}, r)
  end.

Definition remove_stream (stream : Z) (emit : bool) : Y unit := λ s,
  match streams s !! stream with
  | None => (s, Ok tt)
  | Some st =>
      (let run : Y unit :=
         _ ← modify (λ s, {| s with streams := delete stream (streams s) |});
         total ← lift (sub_or_panic (total_buffered_send s) (buffered_send st));
         _ ← modify (λ s, {| s with total_buffered_send := total |});
         if emit then push_pending (StreamClosed stream) else mret tt in
       run) s
  end.

Definition close_all_streams : Y unit := modify (λ s,
  {| s with streams := ∅; total_buffered_send := 0;
     pending := pending s ++ (StreamClosed <$> btree_keys (streams s)) |}).

Definition valid_remote_stream_id (s : YamuxSession) (stream : Z) : bool :=
  negb (stream =? 0)
  && match role s with
     | Client => stream mod 2 =? 0
     | Server => negb (stream mod 2 =? 0)
     end.

Definition fail_protocol {A} (error : YamuxError) : Y A :=
  keys ← gets (λ s, btree_keys (streams s));
  _ ← modify (λ s, {| s with failed := true; streams := ∅; total_buffered_send := 0;
                      decoder := clear (decoder s); pending := [] |});
  _ ← queue_frame (Frame_go_away 1);
  _ ← modify (λ s, {| s with pending := pending s ++ (StreamClosed <$> keys) |});
  throw error.

Definition queue_reset_for_unknown (stream : Z) : Y unit :=
  f ← lift (Frame_data stream FLAG_RST []);
  queue_frame f.

(** ** Caller operations *)

Definition poll (now : Now) : Y unit :=
  _ ← ensure_active;
  _ ← modify (λ s,
        if dirty s || negb (bool_decide (is_Some (last_activity_ms s)))
        then {| s with last_activity_ms := Some (monotonic_ms now); dirty := false |}
        else s);
  last ← reads (λ s, expect (last_activity_ms s));
  if KEEPALIVE_INTERVAL_MS <=? saturating_sub (monotonic_ms now) last
  then
    nonce ← gets next_ping_nonce;
    _ ← modify (λ s, {| s with next_ping_nonce := wrapping_add u32_max (next_ping_nonce s) 1 |});
    f ← lift (Frame_ping FLAG_SYN nonce);
    _ ← queue_frame f;
    modify (λ s, {| s with last_activity_ms := Some (monotonic_ms now); dirty := false |})
  else mret tt.

Definition next_deadline (s : YamuxSession) : option Deadline :=
  if failed s || local_go_away s || remote_go_away s then None
  else
    last ← last_activity_ms s;
    Some (from_millis (saturating_add u64_max last KEEPALIVE_INTERVAL_MS)).

Definition open_stream : Y Z :=
  _ ← ensure_active;
  full ← gets (λ s, max_streams (config s) <=? Z.of_nat (size (streams s)));
  if full : bool then throw TooManyStreams
  else
    stream ← reads (λ s, ok_or (next_stream_id s) StreamsExhausted);
    _ ← modify (λ s, {| s with next_stream_id := checked_add u32_max stream 2 |});
    st ← reads (λ s, StreamState_outbound (config s));
    _ ← modify (λ s, {| s with streams := <[stream := st]> (streams s) |});
    mret stream.

(** The [while !immediate.is_empty()] loop of [send]. *)
Fixpoint send_loop (fuel : nat) (stream max_len : Z) (immediate : bytes) (first : bool)
    (frames : list Frame) : M StreamState YamuxError (list Frame) :=
  match immediate with
  | [] => mret frames
  | _ =>
      match fuel with
      | O => lift Diverge
      | S fuel =>
          let '(immediate, rest) :=
            if max_len <? zlen immediate
            then (take (Z.to_nat max_len) immediate, drop (Z.to_nat max_len) immediate)
            else (immediate, []) in
          flags ← (if first then take_open_flag else mret 0);
          f ← lift (Frame_data stream flags immediate);
          send_loop fuel stream max_len rest false (frames ++ [f])
      end
  end.

(** The frames [send] builds for the part that fits the window; an empty write
    on a stream not yet announced still announces it. *)
Definition send_frames (c : YamuxConfig) (stream : Z) (data immediate : bytes)
    : M StreamState YamuxError (list Frame) :=
  opening ← gets (λ st, bool_decide (is_Some (pending_open st)));
  if bool_decide (data = []) && opening
  then
    flags ← take_open_flag;
    f ← lift (Frame_data stream flags []);
    mret [f]
  else if negb (zlen immediate =? 0)
  then send_loop (length immediate) stream (cfg_max_frame_len c) immediate true []
  else mret [].

(** The block of [send] that holds the stream; returns the frames to queue and
    the number of bytes added to the stream's queue. *)
Definition send_block (c : YamuxConfig) (total_before stream : Z) (data : bytes)
    : M StreamState YamuxError (list Frame * Z) :=
  closed ← gets (λ st, local_write_closed st || close_pending st);
  if closed : bool then throw (StreamWriteClosed stream)
  else
    immediate_len ← gets (λ st, Z.min (zlen data) (send_window st));
    let queued_len := zlen data - immediate_len in
    full ← gets (λ st,
      match checked_add usize_max (buffered_send st) queued_len with
      | Some v => max_buffered_send c <? v | None => true end
      || match checked_add usize_max total_before queued_len with
         | Some v => max_total_buffered_send c <? v | None => true end);
    if full : bool
    then throw (SendBufferFull stream queued_len (max_buffered_send c)
                  (max_total_buffered_send c))
    else
      w ← reads (λ st, sub_or_panic (send_window st) immediate_len);
      _ ← modify (λ st, {| st with send_window := w |});
      let immediate := take (Z.to_nat immediate_len) data in
      let queued := drop (Z.to_nat immediate_len) data in
      frames ← send_frames c stream data immediate;
      _ ← (if negb (queued_len =? 0)
           then
             b ← reads (λ st, add_or_panic usize_max (buffered_send st) queued_len);
             modify (λ st, {| st with send_buffer := send_buffer st ++ [queued];
                              buffered_send := b |})
           else mret tt);
      mret (frames, queued_len).

Definition send (stream : Z) (data : bytes) : Y unit :=
  _ ← ensure_active;
  c ← gets config;
  total_before ← gets total_buffered_send;
  '(frames, buffered_added) ← with_stream (Err (UnknownStream stream)) stream
    (send_block c total_before stream data);
  total ← reads (λ s, add_or_panic usize_max (total_buffered_send s) buffered_added);
  _ ← modify (λ s, {| s with total_buffered_send := total |});
  queue_frames frames.

(** The block of [close_write]: [None] where the method returns early. *)
Definition close_write_block (stream : Z) : M StreamState YamuxError (option (Frame * bool)) :=
  closed ← gets (λ st, local_write_closed st || close_pending st);
  if closed : bool then mret None
  else
    busy ← gets (λ st, negb (buffered_send st =? 0));
    if busy : bool
    then _ ← modify (λ st, {| st with close_pending := true |}); mret None
    else
      flags ← take_open_flag;
      frame ← lift (Frame_data stream (Z.lor flags FLAG_FIN) []);
      _ ← modify (λ st, {| st with local_write_closed := true |});
      close_stream ← gets remote_write_closed;
      mret (Some (frame, close_stream)).

Definition close_write (stream : Z) : Y unit :=
  _ ← ensure_active;
  o ← with_stream (Err (UnknownStream stream)) stream (close_write_block stream);
  match o with
  | None => mret tt
  | Some (frame, close_stream) =>
      _ ← queue_frame frame;
      if close_stream : bool then remove_stream stream true else mret tt
  end.

Definition reset (stream : Z) : Y unit :=
  _ ← ensure_active;
  st ← reads (λ s, ok_or (streams s !! stream) (UnknownStream stream));
  _ ← modify (λ s, {| s with streams := delete stream (streams s) |});
  total ← reads (λ s, sub_or_panic (total_buffered_send s) (buffered_send st));
  _ ← modify (λ s, {| s with total_buffered_send := total |});
  f ← lift (Frame_data stream FLAG_RST []);
  _ ← queue_frame f;
  push_pending (StreamClosed stream).

Definition go_away (code : Z) : Y unit :=
  stop ← gets (λ s, local_go_away s || failed s);
  if stop : bool then mret tt
  else
    _ ← modify (λ s, {| s with local_go_away := true |});
    _ ← queue_frame (Frame_go_away code);
    _ ← close_all_streams;
    modify (λ s, {| s with decoder := clear (decoder s) |}).

(** ** Frames received from the remote *)

(** The [while state.send_window != 0] loop of [flush_buffered]: the frames
    built so far and the bytes drained so far are threaded through. *)
Fixpoint flush_loop (fuel : nat) (stream max_len : Z) (frames : list Frame) (drained : Z)
    : M StreamState YamuxError (list Frame * Z) :=
  window ← gets send_window;
  if window =? 0 then mret (frames, drained)
  else
    buf ← gets send_buffer;
    match buf with
    | [] => mret (frames, drained)
    | chunk :: rest_buf =>
        match fuel with
        | O => lift Diverge
        | S fuel =>
            _ ← modify (λ st, {| st with send_buffer := rest_buf |});
            let send_len := Z.min (Z.min (zlen chunk) window) max_len in
            let remainder := drop (Z.to_nat send_len) chunk in
            w ← reads (λ st, sub_or_panic (send_window st) send_len);
            _ ← modify (λ st, {| st with send_window := w |});
            b ← reads (λ st, sub_or_panic (buffered_send st) send_len);
            _ ← modify (λ st, {| st with buffered_send := b |});
            drained ← lift (add_or_panic usize_max drained send_len);
            flags ← take_open_flag;
            f ← lift (Frame_data stream flags (take (Z.to_nat send_len) chunk));
            _ ← (if bool_decide (remainder = []) then mret tt
                 else modify (λ st, {| st with send_buffer := remainder :: send_buffer st |}));
            flush_loop fuel stream max_len (frames ++ [f]) drained
        end
    end.

(** Bytes still queued, plus one per queued chunk: enough rounds for the loop. *)
Definition flush_fuel (st : StreamState) : nat :=
  length (concat (send_buffer st)) + length (send_buffer st).

Definition flush_block (c : YamuxConfig) (stream : Z)
    : M StreamState YamuxError (list Frame * Z * bool) :=
  fuel ← gets flush_fuel;
  '(frames, drained) ← flush_loop fuel stream (cfg_max_frame_len c) [] 0;
  finish ← gets (λ st, bool_decide (send_buffer st = []) && close_pending st);
  '(frames, close_after_flush) ←
    (if finish : bool
     then
       _ ← modify (λ st, {| st with close_pending := false; local_write_closed := true |});
       flags ← take_open_flag;
       f ← lift (Frame_data stream (Z.lor flags FLAG_FIN) []);
       mret (frames ++ [f], true)
     else mret (frames, false));
  rwc ← gets remote_write_closed;
  mret (frames, drained, close_after_flush && rwc).

Definition flush_buffered (stream : Z) : Y unit :=
  c ← gets config;
  '(frames, drained, fully_closed) ←
    with_stream (Err (UnknownStream stream)) stream (flush_block c stream);
  total ← reads (λ s, sub_or_panic (total_buffered_send s) drained);
  _ ← modify (λ s, {| s with total_buffered_send := total |});
  _ ← queue_frames frames;
  if fully_closed : bool then remove_stream stream true else mret tt.

(** Once more than half the window has been delivered, all of it is credited
    back to the remote with the next window update. *)
Definition grant_credit (c : YamuxConfig) : M StreamState YamuxError unit :=
  grant ← gets (λ st, cfg_receive_window c / 2 <? delivered_since_update st);
  if grant : bool
  then
    pc ← reads (λ st, add_or_panic u64_max (pending_credit st) (delivered_since_update st));
    modify (λ st, {| st with pending_credit := pc; delivered_since_update := 0 |})
  else mret tt.

(** The block of [on_data]: returns the payload to deliver, whether the remote
    closed its side now, and whether both sides are closed. *)
Definition data_block (c : YamuxConfig) (stream : Z) (f : Frame)
    : M StreamState YamuxError (option bytes * bool * bool) :=
  _ ← modify (λ st,
        if negb (Z.land (flags f) FLAG_ACK =? 0) && locally_opened st
        then {| st with acknowledged := true |} else st);
  after_fin ← gets (λ st, remote_write_closed st && negb (bool_decide (payload f = [])));
  if after_fin : bool then throw (Protocol "data after FIN")
  else
    over ← gets (λ st, receive_window st <? value f);
    if over : bool then throw (ReceiveWindowExceeded stream)
    else
      w ← reads (λ st, sub_or_panic (receive_window st) (value f));
      _ ← modify (λ st, {| st with receive_window := w |});
      d ← reads (λ st, ok_or (checked_add u32_max (delivered_since_update st) (value f))
                             (Protocol "receive accounting overflow"));
      _ ← modify (λ st, {| st with delivered_since_update := d |});
      let data_output := if bool_decide (payload f = []) then None else Some (payload f) in
      _ ← grant_credit c;
      fin ← gets (λ st, negb (Z.land (flags f) FLAG_FIN =? 0) && negb (remote_write_closed st));
      _ ← modify (λ st, if fin : bool then {| st with remote_write_closed := true |} else st);
      fully_closed ← gets (λ st, remote_write_closed st && local_write_closed st);
      mret (data_output, fin, fully_closed).

(** The part [on_data] and [on_window_update] start with: RST, then the checks
    on SYN. [Some true]: a new inbound stream may be created; [Some false]: the
    stream is known; [None]: the frame has been dealt with. *)
Definition on_stream_frame (stream flags : Z) : Y (option bool) :=
  known ← gets (λ s, bool_decide (is_Some (streams s !! stream)));
  if negb (Z.land flags FLAG_RST =? 0)
  then _ ← remove_stream stream known; mret None
  else if negb (Z.land flags FLAG_SYN =? 0)
  then
    valid ← gets (λ s, valid_remote_stream_id s stream);
    if negb valid then throw (Protocol "remote used a local-parity stream id")
    else if known : bool then throw (Protocol "duplicate SYN for an existing stream")
    else
      full ← gets (λ s, max_streams (config s) <=? Z.of_nat (size (streams s)));
      if full : bool then _ ← queue_reset_for_unknown stream; mret None
      else mret (Some true)
  else if negb known then _ ← queue_reset_for_unknown stream; mret None
  else mret (Some false).

Definition insert_inbound (stream send_window : Z) : Y unit :=
  st ← reads (λ s, StreamState_inbound (config s) send_window);
  _ ← modify (λ s, {| s with streams := <[stream := st]> (streams s) |});
  push_pending (IncomingStream stream).

Definition on_data (f : Frame) : Y unit :=
  let stream := stream_id f in
  go ← on_stream_frame stream (flags f);
  match go with
  | None => mret tt
  | Some fresh =>
      _ ← (if fresh : bool then insert_inbound stream DEFAULT_RECEIVE_WINDOW else mret tt);
      c ← gets config;
      '(data_output, remote_closed, fully_closed) ←
        with_stream Panic stream (data_block c stream f);
      _ ← match data_output with
          | Some data => push_pending (DataReceived stream data)
          | None => mret tt
          end;
      _ ← (if remote_closed : bool then push_pending (RemoteWriteClosed stream) else mret tt);
      if fully_closed : bool then remove_stream stream true else mret tt
  end.

(** [Z.land flags FLAG_FIN] closes the remote's side; both sides closed ends
    the stream. *)
Definition fin_block (f : Frame) : M StreamState YamuxError (bool * bool) :=
  fin ← gets (λ st, negb (Z.land (flags f) FLAG_FIN =? 0) && negb (remote_write_closed st));
  _ ← modify (λ st, if fin : bool then {| st with remote_write_closed := true |} else st);
  fully_closed ← gets (λ st, remote_write_closed st && local_write_closed st);
  mret (fin, fully_closed).

(** The credit a WindowUpdate carries: on top of the initial window of a stream
    it creates, or added to the window of the stream it names. *)
Definition credit_window (fresh : bool) (f : Frame) : Y unit :=
  let stream := stream_id f in
  if fresh
  then
    w ← lift (ok_or (checked_add u32_max DEFAULT_RECEIVE_WINDOW (value f))
                    (WindowOverflow stream));
    insert_inbound stream w
  else
    with_stream Panic stream (
      w ← reads (λ st, ok_or (checked_add u32_max (send_window st) (value f))
                             (WindowOverflow stream));
      modify (λ st, {| st with send_window := w |})).

Definition on_window_update (f : Frame) : Y unit :=
  let stream := stream_id f in
  go ← on_stream_frame stream (flags f);
  match go with
  | None => mret tt
  | Some fresh =>
      _ ← credit_window fresh f;
      _ ← with_stream Panic stream (modify (λ st,
            if negb (Z.land (flags f) FLAG_ACK =? 0) && locally_opened st
            then {| st with acknowledged := true |} else st));
      _ ← flush_buffered stream;
      alive ← gets (λ s, bool_decide (is_Some (streams s !! stream)));
      if negb alive then mret tt
      else
        '(remote_closed, fully_closed) ← with_stream Panic stream (fin_block f);
        _ ← (if remote_closed : bool then push_pending (RemoteWriteClosed stream) else mret tt);
        if fully_closed : bool then remove_stream stream true else mret tt
  end.

Definition on_ping (f : Frame) : Y unit :=
  if flags f =? FLAG_SYN
  then g ← lift (Frame_ping FLAG_ACK (value f)); queue_frame g
  else mret tt.

Definition process_frame (f : Frame) : Y unit :=
  match frame_type f with
  | TData => on_data f
  | TWindowUpdate => on_window_update f
  | TPing => on_ping f
  | TGoAway =>
      _ ← modify (λ s, {| s with remote_go_away := true |});
      _ ← push_pending (GoAwayReceived (value f));
      close_all_streams
  end.

(** [m] with its error, if any, handed to [h]. *)
Definition catch {A} (m : Y A) (h : YamuxError → Y A) : Y A := λ s,
  match m s with (s', Err e) => h e s' | out => out end.

Fixpoint handle_data_loop (fuel : nat) : Y unit :=
  match fuel with
  | O => lift Diverge
  | S fuel =>
      r ← catch (zoom decoder (λ d s, {| s with decoder := d |}) next_frame)
                fail_protocol;
      match r with
      | None => mret tt
      | Some frame =>
          _ ← catch (process_frame frame) fail_protocol;
          _ ← modify (λ s, {| s with dirty := true |});
          gone ← gets remote_go_away;
          if gone : bool
          then modify (λ s, {| s with decoder := clear (decoder s) |})
          else handle_data_loop fuel
      end
  end.

Definition handle_data (bs : bytes) : Y unit :=
  failed' ← gets failed;
  if failed' : bool then throw Failed
  else
    closed ← gets (λ s, local_go_away s || remote_go_away s);
    if closed : bool then throw SessionClosed
    else
      _ ← modify (λ s, {| s with decoder := push bs (decoder s) |});
      fuel ← gets (λ s, S (length (unread (decoder s))));
      handle_data_loop fuel.

(** ** Outputs *)

Definition find_deferred (s : YamuxSession) : option Z :=
  List.find (λ id, match streams s !! id with
                   | Some st => has_deferred_control st
                   | None => false
                   end) (btree_keys (streams s)).

Definition materialize_block (stream : Z) : M StreamState YamuxError Frame :=
  flags ← take_open_flag;
  credit ← gets (λ st, Z.min (pending_credit st) u32_max);
  pc ← reads (λ st, sub_or_panic (pending_credit st) credit);
  _ ← modify (λ st, {| st with pending_credit := pc |});
  w ← reads (λ st, expect (checked_add u32_max (receive_window st) credit));
  _ ← modify (λ st, {| st with receive_window := w |});
  lift (expect_ok (Frame_window_update stream flags credit)).

Definition materialize_deferred_control : Y unit :=
  o ← gets find_deferred;
  match o with
  | None => mret tt
  | Some stream =>
      f ← with_stream Panic stream (materialize_block stream);
      queue_frame f
  end.

Definition pop_pending : Y (option YamuxOutput) := λ s,
  match pending s with
  | [] => (s, Ok None)
  | o :: rest => ({| s with pending := rest |}, Ok (Some o))
  end.

Definition poll_output : Y (option YamuxOutput) :=
  o ← pop_pending;
  match o with
  | Some output => mret (Some output)
  | None =>
      live ← gets (λ s, negb (failed s) && negb (local_go_away s) && negb (remote_go_away s));
      _ ← (if live : bool then materialize_deferred_control else mret tt);
      pop_pending
  end.

Definition handle_input (input : YamuxInput) : Y unit :=
  match input with Data bs => handle_data bs end.

Definition is_idle (s : YamuxSession) : bool :=
  bool_decide (pending s = [])
  && forallb (λ st, negb (has_deferred_control st)) (map_to_list (streams s)).*2.

Example yamux_demo :
  let run : Y (list (option YamuxOutput)) :=
    id ← open_stream;
    _ ← send id (str "hello");
    a ← poll_output;
    b ← poll_output;
    mret [a; b] in
  snd (run (session_new Client)) =
    Ok [Some (Outbound (encode (mkFrame TData FLAG_SYN 1 5 (str "hello")))); None].
Proof. vm_compute. reflexivity. Qed.
