(* ===== verification/YamuxStream.v ===== *)
(** Flow control of one Yamux stream: what the blocks of [YamuxSession] that
    hold a single stream do to it, and the invariant they keep. *)

From S2P Require Import Prelude YamuxFrame YamuxSession.

(** ** Frames the session builds *)

Lemma stream_flag_bits fl : 0 ≤ fl < 16 → outside_flags fl STREAM_FLAGS = 0.
Proof.
  intros H. unfold outside_flags.
  change (Z.lxor STREAM_FLAGS u16_max) with 0xfff0.
  apply Z.bits_inj'. intros i Hi. rewrite Z.land_spec, Z.bits_0.
  destruct (decide (i < 4)).
  - assert (i = 0 ∨ i = 1 ∨ i = 2 ∨ i = 3) as [->|[->|[->| ->]]] by lia;
      apply andb_false_r.
  - rewrite (Z.bits_above_log2 fl i); [done|lia|].
    destruct (decide (fl = 0)) as [->|]; [simpl; lia|].
    enough (Z.log2 fl < 4) by lia. apply Z.log2_lt_pow2; lia.
Qed.

(** A stream identifier as Yamux carries it. *)
Definition stream_id_ok (id : Z) : Prop := 1 ≤ id ≤ u32_max.

Lemma validate_stream_frame t fl id v p :
  t = TData ∨ t = TWindowUpdate → 0 ≤ fl < 16 → stream_id_ok id →
  validate (mkFrame t fl id v p) = Ok tt.
Proof.
  intros Ht Hf Hid. unfold validate, stream_id_ok in *. cbn.
  destruct (Z.eqb_spec id 0); [lia|].
  destruct Ht as [-> | ->]; rewrite stream_flag_bits by done; done.
Qed.

Lemma Frame_data_ok id fl p :
  stream_id_ok id → 0 ≤ fl < 16 → zlen p ≤ u32_max →
  Frame_data id fl p = Ok (mkFrame TData fl id (zlen p) p) ∧
  frame_ok (mkFrame TData fl id (zlen p) p).
Proof.
  intros Hid Hf Hp.
  pose proof (validate_stream_frame TData fl id (zlen p) p ltac:(by left) Hf Hid) as Hv.
  split.
  - unfold Frame_data. destruct (Z.ltb_spec u32_max (zlen p)); [lia|].
    by rewrite Hv.
  - unfold frame_ok, stream_id_ok, u16_max in *. cbn. split_and!; [done|lia..|zlen_lia|lia|done].
Qed.

Lemma Frame_window_update_ok id fl v :
  stream_id_ok id → 0 ≤ fl < 16 → 0 ≤ v ≤ u32_max →
  Frame_window_update id fl v = Ok (mkFrame TWindowUpdate fl id v []) ∧
  frame_ok (mkFrame TWindowUpdate fl id v []).
Proof.
  intros Hid Hf Hp.
  pose proof (validate_stream_frame TWindowUpdate fl id v [] ltac:(by right) Hf Hid) as Hv.
  split.
  - unfold Frame_window_update. by rewrite Hv.
  - unfold frame_ok, stream_id_ok, u16_max in *. cbn. split_and!; [done|lia..|done].
Qed.

Lemma wp_Frame_data {S} id fl p (Q : Frame → S → Prop) X s :
  stream_id_ok id → 0 ≤ fl < 16 → zlen p ≤ u32_max →
  (frame_ok (mkFrame TData fl id (zlen p) p) → Q (mkFrame TData fl id (zlen p) p) s) →
  wp (lift (Frame_data id fl p)) Q X s.
Proof.
  intros Hid Hf Hp HQ. destruct (Frame_data_ok id fl p Hid Hf Hp) as [-> ?].
  apply wp_lift. auto.
Qed.

(** ** Opening flags *)

Definition open_flag (st : StreamState) : Z :=
  match pending_open st with Some Syn => FLAG_SYN | Some Ack => FLAG_ACK | None => 0 end.

Definition opened (st : StreamState) : StreamState :=
  match pending_open st with
  | Some Syn => {| st with pending_open := None |}
  | Some Ack => {| st with pending_open := None; acknowledged := true |}
  | None => st
  end.

Lemma wp_take_open_flag (Q : Z → StreamState → Prop) X st :
  Q (open_flag st) (opened st) → wp take_open_flag Q X st.
Proof. unfold wp, take_open_flag, open_flag, opened. by destruct (pending_open st) as [[]|]. Qed.

Lemma open_flag_bits st : 0 ≤ open_flag st < 4.
Proof.
  unfold open_flag, FLAG_SYN, FLAG_ACK. destruct (pending_open st) as [[]|]; lia.
Qed.

Lemma open_flag_fin st : 0 ≤ Z.lor (open_flag st) FLAG_FIN < 16.
Proof.
  unfold open_flag. by destruct (pending_open st) as [[]|].
Qed.

(** [opened] only touches the opening handshake. *)
Definition same_flow (st st' : StreamState) : Prop :=
  ∃ po ak, st' = {| st with pending_open := po; acknowledged := ak |}.

Lemma same_flow_refl st : same_flow st st.
Proof. exists (pending_open st), (acknowledged st). by destruct st. Qed.

Lemma same_flow_opened st : same_flow st (opened st).
Proof.
  exists (pending_open (opened st)), (acknowledged (opened st)).
  unfold opened. by destruct st as [? [[]|]].
Qed.

Lemma opened_pending st : pending_open (opened st) = None.
Proof. unfold opened. by destruct (pending_open st) as [[]|] eqn:?. Qed.

(** ** The invariant of a stream *)

Definition config_ok (c : YamuxConfig) : Prop :=
  DEFAULT_RECEIVE_WINDOW ≤ cfg_receive_window c ≤ u32_max ∧
  1 ≤ cfg_max_frame_len c ≤ u32_max ∧
  0 ≤ max_streams c ≤ usize_max ∧
  0 ≤ max_buffered_send c ≤ usize_max ∧
  0 ≤ max_total_buffered_send c ≤ usize_max.

Record stream_core (c : YamuxConfig) (st : StreamState) : Prop := {
  (** The receive window, what was delivered without being credited back, and
      the credit not yet announced add up to the configured window. *)
  so_receive : 0 ≤ receive_window st;
  so_delivered : 0 ≤ delivered_since_update st;
  so_credit : 0 ≤ pending_credit st;
  so_window : receive_window st + delivered_since_update st + pending_credit st
              = cfg_receive_window c;
  so_send : 0 ≤ send_window st ≤ u32_max;
  (** The queue: no empty chunk, and its size is cached and capped. *)
  so_chunks : Forall (λ chunk, chunk ≠ []) (send_buffer st);
  so_buffered : buffered_send st = zlen (concat (send_buffer st));
  so_limit : buffered_send st ≤ max_buffered_send c;
  (** A deferred close waits for queued bytes; a closed side queues nothing. *)
  so_closing : close_pending st = true →
    local_write_closed st = false ∧ send_buffer st ≠ [];
  so_closed : local_write_closed st = true → send_buffer st = [];
}.

(** Bytes wait only while the remote window is exhausted. *)
Definition blocked (st : StreamState) : Prop :=
  send_buffer st ≠ [] → send_window st = 0.

Definition stream_ok (c : YamuxConfig) (st : StreamState) : Prop :=
  stream_core c st ∧ blocked st.

(** At least one direction is still open. *)
Definition half_open (st : StreamState) : Prop :=
  local_write_closed st && remote_write_closed st = false.

Lemma stream_ok_same_flow c st st' : same_flow st st' → stream_ok c st → stream_ok c st'.
Proof. intros (po & ak & ->) [[] ?]. by split. Qed.

Lemma half_open_same_flow st st' : same_flow st st' → half_open st → half_open st'.
Proof. by intros (po & ak & ->). Qed.

Lemma stream_ok_outbound c :
  config_ok c → ∃ st, StreamState_outbound c = Ok st ∧ stream_ok c st ∧ half_open st ∧
    locally_opened st = true ∧ buffered_send st = 0.
Proof.
  intros (Hr & _ & _ & Hb & _). unfold StreamState_outbound, sub_or_panic.
  rewrite checked_sub_Some by lia. eexists. split; [done|].
  unfold DEFAULT_RECEIVE_WINDOW, u32_max in *.
  split; [split; [split; cbn; try done; lia|intros Hne; by destruct Hne]|by split_and!].
Qed.

Lemma stream_ok_inbound c w :
  config_ok c → 0 ≤ w ≤ u32_max →
  ∃ st, StreamState_inbound c w = Ok st ∧ stream_ok c st ∧ half_open st ∧
    locally_opened st = false ∧ buffered_send st = 0 ∧ send_buffer st = [] ∧
    local_write_closed st = false.
Proof.
  intros (Hr & _ & _ & Hb & _) Hw. unfold StreamState_inbound, sub_or_panic.
  rewrite checked_sub_Some by lia. eexists. split; [done|].
  unfold DEFAULT_RECEIVE_WINDOW, u32_max in *.
  split; [split; [split; cbn; try done; lia|intros Hne; by destruct Hne]|by split_and!].
Qed.

(** ** Cutting accepted bytes into frames *)

Definition data_frame (id max : Z) (f : Frame) : Prop :=
  frame_ok f ∧ frame_type f = TData ∧ stream_id f = id ∧ value f ≤ max.

(** The opening flag travels on the first frame only. *)
Definition flags_from (first : Z) (fs : list Frame) : Prop :=
  match fs with
  | [] => True
  | f :: fs => flags f = first ∧ Forall (λ f, flags f = 0) fs
  end.

Lemma data_frame_intro id max fl p :
  frame_ok (mkFrame TData fl id (zlen p) p) → zlen p ≤ max →
  data_frame id max (mkFrame TData fl id (zlen p) p).
Proof. done. Qed.

Lemma wp_send_loop fuel id max (imm : bytes) (first : bool) frames st (Q : list Frame → StreamState → Prop) X :
  (length imm ≤ fuel)%nat → stream_id_ok id → 1 ≤ max ≤ u32_max →
  (∀ fs, Forall (data_frame id max) fs → concat (payload <$> fs) = imm →
    flags_from (if first then open_flag st else 0) fs →
    Q (frames ++ fs) (if first && negb (bool_decide (imm = [])) then opened st else st)) →
  wp (send_loop fuel id max imm first frames) Q X st.
Proof.
  revert imm first frames st.
  induction fuel as [|fuel IH]; intros imm first frames st Hlen Hid Hmax HQ.
  { destruct imm; [|simpl in Hlen; lia]. apply wp_ret.
    rewrite <- (app_nil_r frames). specialize (HQ [] ltac:(done) eq_refl I).
    by rewrite andb_false_r in HQ. }
  destruct (decide (imm = [])) as [->|Hne].
  { apply wp_ret. rewrite <- (app_nil_r frames).
    specialize (HQ [] ltac:(done) eq_refl I). by rewrite andb_false_r in HQ. }
  assert (∀ cut rest, imm = cut ++ rest → 1 ≤ zlen cut ≤ max →
    wp ((if first then take_open_flag else mret 0) ≫= λ fl : Z,
        lift (Frame_data id fl cut) ≫= λ f,
        send_loop fuel id max rest false (frames ++ [f])) Q X st) as Hcut.
  { intros cut rest -> Hc. apply wp_bind.
    set (fl := if first then open_flag st else 0).
    assert (0 ≤ fl < 16) by (pose proof (open_flag_bits st); destruct first; lia).
    assert (wp (lift (Frame_data id fl cut) ≫= λ f,
              send_loop fuel id max rest false (frames ++ [f]))
              Q X (if first then opened st else st)) as Hrest.
    { apply wp_bind, wp_Frame_data; [done|lia|lia|]. intros Hok.
      apply IH; [|done|done|].
      { rewrite length_app in Hlen. unfold zlen in Hc. lia. }
      intros fs Hfs Hcat Hfl. rewrite bool_decide_false, andb_true_r in HQ.
      2:{ intros [-> _]%app_eq_nil. by destruct Hc. }
      rewrite <- app_assoc. apply HQ.
      - constructor; [|done]. apply data_frame_intro; [done|lia].
      - rewrite fmap_app, concat_app, Hcat. cbn. by rewrite app_nil_r.
      - split; [done|]. destruct fs; [done|]. destruct Hfl. by constructor. }
    destruct first; [by apply wp_take_open_flag|by apply wp_ret]. }
  assert (1 ≤ zlen imm) by (destruct imm; [done|zlen_lia]).
  destruct imm as [|b imm']; [done|]. cbn [send_loop].
  destruct (Z.ltb_spec max (zlen (b :: imm'))).
  - apply Hcut; [symmetry; apply take_drop|]. zlen_lia.
  - apply Hcut; [symmetry; apply app_nil_r|]. lia.
Qed.

(** What [send] does to its stream: the bytes that fit the remote window leave
    in order, in frames no longer than the limit, and the window pays for
    them; the rest joins the end of the queue. *)
Definition sent (id max : Z) (data : bytes) (st : StreamState)
    (r : list Frame * Z) (st' : StreamState) : Prop :=
  ∃ now later, data = now ++ later ∧
    Forall (data_frame id max) r.1 ∧ flags_from (open_flag st) r.1 ∧
    concat (payload <$> r.1) = now ∧ r.2 = zlen later ∧
    send_window st' = send_window st - zlen now ∧
    (later ≠ [] → send_window st' = 0) ∧
    send_buffer st' = send_buffer st ++ (if bool_decide (later = []) then [] else [later]) ∧
    buffered_send st' = buffered_send st + zlen later ∧
    remote_write_closed st' = remote_write_closed st ∧
    local_write_closed st' = false ∧ close_pending st' = false ∧
    locally_opened st' = locally_opened st.

Lemma stream_ok_sent c id data st r st' :
  stream_ok c st → local_write_closed st || close_pending st = false →
  sent id (cfg_max_frame_len c) data st r st' →
  receive_window st' = receive_window st →
  delivered_since_update st' = delivered_since_update st →
  pending_credit st' = pending_credit st →
  0 ≤ send_window st' → buffered_send st' ≤ max_buffered_send c →
  stream_ok c st' ∧ half_open st'.
Proof.
  intros Hok Hcl (now & later & -> & _ & _ & _ & _ & Hw & Hblock & Hbuf & Hb & _ & Hlc & Hcp & _)
    Hrw Hds Hpc Hpos Hlim.
  apply orb_false_iff in Hcl as [Hlc0 Hcp0]. destruct Hok as [[] Hbl].
  split; [|unfold half_open; by rewrite Hlc].
  pose proof (zlen_nonneg now). pose proof (zlen_nonneg later).
  assert (blocked st').
  { intros Hne. destruct (decide (later = [])) as [->|]; [|auto].
    rewrite Hbuf, bool_decide_true, app_nil_r in Hne by done.
    specialize (Hbl Hne). lia. }
  split; [|done]. split; try congruence; try lia.
  - rewrite Hbuf. apply Forall_app. split; [done|].
    case_bool_decide; [done|]. by constructor.
  - rewrite Hbuf, concat_app, zlen_app, Hb, so_buffered0.
    case_bool_decide as Hl; [subst; done|]. cbn. by rewrite app_nil_r.
Qed.

Lemma wp_send_frames c id data now later st (Q : list Frame → StreamState → Prop) X :
  1 ≤ cfg_max_frame_len c ≤ u32_max → stream_id_ok id → data = now ++ later →
  (∀ fs st', Forall (data_frame id (cfg_max_frame_len c)) fs →
    flags_from (open_flag st) fs → concat (payload <$> fs) = now →
    same_flow st st' → Q fs st') →
  wp (send_frames c id data now) Q X st.
Proof.
  intros Hmax Hid -> HQ. pose proof (open_flag_bits st).
  unfold send_frames. wp_step. wp_step. wp_step.
  - apply andb_prop in Heqb as [[-> ->]%bool_decide_eq_true%app_eq_nil _].
    wp_step. apply wp_take_open_flag. cbn beta.
    wp_step. apply wp_Frame_data; [done|lia|done|]. intros Hf. wp_step.
    apply HQ; [|done|done|apply same_flow_opened].
    constructor; [|done]. apply data_frame_intro; [done|zlen_lia].
  - wp_step.
    + apply wp_send_loop; [done|done|done|]. intros fs Hfs Hcat Hfl.
      apply HQ; [done|done|done|].
      destruct (true && _); [apply same_flow_opened|apply same_flow_refl].
    + apply negb_false_iff, Z.eqb_eq, zlen_zero_inv in Heqb0. subst now.
      wp_step. apply HQ; [done|done|done|apply same_flow_refl].
Qed.

(** The part of [data] the remote's window does not cover. *)
Definition surplus (data : bytes) (st : StreamState) : Z :=
  zlen data - Z.min (zlen data) (send_window st).

(** Why [send] turns [data] down: the write side is closed or closing, or the
    surplus does not fit one of the two buffer limits. *)
Definition refused (c : YamuxConfig) (total id : Z) (data : bytes) (st : StreamState)
    (e : YamuxError) : Prop :=
  e = StreamWriteClosed id ∧ local_write_closed st || close_pending st = true ∨
  e = SendBufferFull id (surplus data st) (max_buffered_send c) (max_total_buffered_send c) ∧
    local_write_closed st || close_pending st = false ∧
    (max_buffered_send c < buffered_send st + surplus data st ∨
     max_total_buffered_send c < total + surplus data st).

Lemma wp_send_block c total id data st :
  config_ok c → stream_ok c st → stream_id_ok id →
  0 ≤ total ≤ max_total_buffered_send c →
  wp (send_block c total id data)
    (λ r st', sent id (cfg_max_frame_len c) data st r st' ∧
       stream_ok c st' ∧ half_open st' ∧ 0 ≤ r.2 ∧
       total + r.2 ≤ max_total_buffered_send c)
    (λ e st', st' = st ∧ refused c total id data st e) st.
Proof.
  intros (_ & Hmf & _ & Hmb & Hmt) Hok Hid Htot. pose proof Hok as [Hok' _]. destruct Hok'.
  unfold send_block, refused, surplus. wp_step. wp_step.
  wp_step; [wp_step; split; [done|by left]|]. wp_step. wp_step.
  set (n := Z.min (zlen data) (send_window st)).
  assert (0 ≤ n ≤ zlen data ∧ n ≤ send_window st) as (Hn & Hnw) by (unfold n; zlen_lia).
  wp_step. wp_step. wp_step.
  { wp_step. split; [done|right]. split_and!; [done|done|].
    unfold checked_add in Heqb0.
    destruct (Z.leb_spec (buffered_send st + (zlen data - n)) usize_max); [|lia].
    destruct (Z.leb_spec (total + (zlen data - n)) usize_max); [|lia].
    apply orb_true_iff in Heqb0 as [?%Z.ltb_lt|?%Z.ltb_lt]; lia. }
  apply orb_false_iff in Heqb0 as [Hper Htotal].
  unfold checked_add in Hper, Htotal.
  destruct (Z.leb_spec (buffered_send st + (zlen data - n)) usize_max); [|done].
  destruct (Z.leb_spec (total + (zlen data - n)) usize_max); [|done].
  apply Z.ltb_ge in Hper, Htotal.
  apply wp_bind, wp_reads. unfold sub_or_panic. rewrite checked_sub_Some by done.
  cbn [expect]. wp_step. wp_step. wp_step.
  set (now := take (Z.to_nat n) data). set (later := drop (Z.to_nat n) data).
  assert (data = now ++ later) as Hdata by (symmetry; apply take_drop).
  assert (zlen now = n) as Hnow by (unfold now; zlen_lia).
  assert (zlen later = zlen data - n) as Hlater by (unfold later; zlen_lia).
  rewrite <- Hlater in *. apply (wp_send_frames c id data now later); [done|done|done|].
  intros fs st2 Hfs Hfl Hcat (po & ak & ->). change (open_flag _) with (open_flag st) in Hfl.
  set (st2 := {| st with pending_open := po; acknowledged := ak;
                 send_window := send_window st - n |}). wp_state st2.
  set (st' := {| st2 with send_buffer := send_buffer st ++
        (if bool_decide (later = []) then [] else [later]);
        buffered_send := buffered_send st + zlen later |}).
  assert (sent id (cfg_max_frame_len c) data st (fs, zlen later) st') as Hsent.
  { apply orb_false_iff in Heqb as [Hlc0 Hcp0]. exists now, later.
    cbn. split_and!; try done; [lia|].
    intros Hne. assert (zlen later ≠ 0) by (by intros ?%zlen_zero_inv). lia. }
  assert (stream_ok c st' ∧ half_open st') as [Hok' Hhalf'].
  { eapply stream_ok_sent; [done|done|done|..]; cbn; [done..|lia|lia]. }
  assert (0 ≤ zlen later) by zlen_lia.
  wp_step. wp_step.
  - wp_step. apply wp_reads. unfold add_or_panic.
    cbn [buffered_send]. rewrite checked_add_Some by done. cbn [expect].
    wp_step. wp_step. assert (later ≠ []) by (by intros ->).
    unfold st' in *. rewrite bool_decide_false in * by done. by split_and!.
  - apply negb_false_iff, Z.eqb_eq, zlen_zero_inv in Heqb0. wp_step. wp_step.
    replace st2 with st'; [by split_and!|]. unfold st', st2. cbn.
    by rewrite Heqb0, bool_decide_true, app_nil_r, zlen_nil, Z.add_0_r by done.
Qed.

(** ** Draining the queue when the remote grants credit *)

Definition queue_ok (st : StreamState) : Prop :=
  0 ≤ send_window st ≤ u32_max ∧ Forall (λ chunk, chunk ≠ []) (send_buffer st) ∧
  buffered_send st = zlen (concat (send_buffer st)).

(** The queue after [out] has left it. *)
Definition flushed (id max : Z) (st : StreamState) (fs : list Frame) (st' : StreamState) : Prop :=
  Forall (data_frame id max) fs ∧ flags_from (open_flag st) fs ∧
  concat (payload <$> fs) ++ concat (send_buffer st') = concat (send_buffer st) ∧
  send_window st' = send_window st - zlen (concat (payload <$> fs)) ∧
  queue_ok st' ∧ (send_window st' = 0 ∨ send_buffer st' = []) ∧
  ∃ po ak w buf b, st' = {| st with pending_open := po; acknowledged := ak;
    send_window := w; send_buffer := buf; buffered_send := b |}.

Lemma flushed_nil id max st :
  queue_ok st → (send_window st = 0 ∨ send_buffer st = []) → flushed id max st [] st.
Proof.
  intros Hq Hd. split_and!; try done; [cbn; rewrite zlen_nil; lia|].
  exists (pending_open st), (acknowledged st), (send_window st), (send_buffer st),
    (buffered_send st). by destruct st.
Qed.

(** Taking the opening flag commutes with the bookkeeping of a round. *)
Lemma opened_queue st w buf b :
  opened {| st with send_window := w; send_buffer := buf; buffered_send := b |} =
  {| (opened st) with send_window := w; send_buffer := buf; buffered_send := b |}.
Proof. by destruct st as [? [[]|]]. Qed.

(** One round: [cut], the front of the first chunk, leaves in a frame. *)
Definition flush_round (st : StreamState) (cut rem : bytes) (rest : list bytes) : StreamState :=
  {| (opened st) with send_window := send_window st - zlen cut;
     buffered_send := buffered_send st - zlen cut;
     send_buffer := if bool_decide (rem = []) then rest else rem :: rest |}.

Lemma concat_rem (rem : bytes) rest :
  concat (if bool_decide (rem = []) then rest else rem :: rest) = rem ++ concat rest.
Proof. case_bool_decide as H; [by subst|done]. Qed.

Lemma queue_ok_round st cut rem rest :
  queue_ok st → send_buffer st = (cut ++ rem) :: rest → zlen cut ≤ send_window st →
  queue_ok (flush_round st cut rem rest).
Proof.
  intros (Hw & Hne & Hb) Hbuf Hcut. rewrite Hbuf in *. pose proof (zlen_nonneg cut).
  apply Forall_cons in Hne as [_ Hne].
  split_and!; cbn [flush_round send_window send_buffer buffered_send]; [lia|lia|..].
  - case_bool_decide; [done|by constructor].
  - rewrite concat_rem, Hb. cbn. zlen_lia.
Qed.

Lemma flushed_round id max st cut rem rest fs st' :
  send_buffer st = (cut ++ rem) :: rest → zlen cut ≤ max →
  frame_ok (mkFrame TData (open_flag st) id (zlen cut) cut) →
  flushed id max (flush_round st cut rem rest) fs st' →
  flushed id max st (mkFrame TData (open_flag st) id (zlen cut) cut :: fs) st'.
Proof.
  intros Hbuf Hmax Hf (Hfs & Hfl & Hcat & Hw & Hq & Hend & po & ak & w & buf & b & Hst').
  set (f := mkFrame _ _ _ _ _).
  assert (concat (payload <$> f :: fs) = cut ++ concat (payload <$> fs)) as Hp by done.
  split_and!; try done.
  - constructor; [by apply data_frame_intro|done].
  - split; [done|]. unfold flags_from in Hfl. destruct fs; [done|].
    destruct Hfl as [Hfl ?]. constructor; [|done]. rewrite Hfl.
    unfold open_flag, flush_round. cbn. by rewrite opened_pending.
  - rewrite Hp, <- app_assoc, Hcat, Hbuf. cbn [flush_round send_buffer].
    rewrite concat_rem. cbn. by rewrite app_assoc.
  - rewrite Hp, Hw. cbn [flush_round send_window]. zlen_lia.
  - destruct (same_flow_opened st) as (po' & ak' & Ho).
    exists po, ak, w, buf, b. rewrite Hst'. unfold flush_round. by rewrite Ho.
Qed.

Lemma wp_flush_loop fuel id max frames drained st
    (Q : list Frame * Z → StreamState → Prop) X :
  stream_id_ok id → 1 ≤ max ≤ u32_max → queue_ok st → (flush_fuel st ≤ fuel)%nat →
  0 ≤ drained → drained + buffered_send st ≤ usize_max →
  (∀ fs st', flushed id max st fs st' →
    Q (frames ++ fs, drained + zlen (concat (payload <$> fs))) st') →
  wp (flush_loop fuel id max frames drained) Q X st.
Proof.
  intros Hid Hmax. revert frames drained st.
  induction fuel as [|fuel IH]; intros frames drained st Hq Hfuel Hd0 Hdr HQ;
    cbn [flush_loop]; wp_step; wp_step.
  all: assert (send_window st = 0 ∨ send_buffer st = [] →
    Q (frames, drained) st) as Hstop by
    (intros Hs; specialize (HQ [] st (flushed_nil _ _ _ Hq Hs)); cbn in HQ;
     by rewrite app_nil_r, zlen_nil, Z.add_0_r in HQ).
  all: wp_step; [apply Z.eqb_eq in Heqb; wp_step; auto|].
  all: apply Z.eqb_neq in Heqb; wp_step; wp_step.
  all: destruct (send_buffer st) as [|chunk rest] eqn:Hbuf; [wp_step; auto|].
  { unfold flush_fuel in Hfuel. rewrite Hbuf in Hfuel. simpl in Hfuel. lia. }
  pose proof Hq as (Hw & Hne & Hb). rewrite Hbuf in Hne, Hb.
  apply Forall_cons in Hne as [Hc _].
  set (n := Z.min (Z.min (zlen chunk) (send_window st)) max).
  assert (1 ≤ zlen chunk) by (destruct chunk; [done|zlen_lia]).
  assert (1 ≤ n ≤ zlen chunk ∧ n ≤ send_window st ∧ n ≤ max) as (Hn & Hnw & Hnm) by lia.
  set (cut := take (Z.to_nat n) chunk). set (rem := drop (Z.to_nat n) chunk).
  assert (chunk = cut ++ rem) as Hchunk by (symmetry; apply take_drop).
  assert (zlen cut = n) as Hcut by (unfold cut; zlen_lia).
  assert (zlen chunk ≤ buffered_send st) by (rewrite Hb; cbn; zlen_lia).
  clearbody cut rem. rewrite Hchunk in Hbuf.
  wp_step. wp_step. wp_step. apply wp_reads. cbn [send_window].
  unfold sub_or_panic. rewrite checked_sub_Some by done. cbn [expect].
  wp_step. wp_step. wp_step. apply wp_reads. cbn [buffered_send].
  rewrite checked_sub_Some by lia. cbn [expect]. wp_step. wp_step.
  wp_step. apply wp_lift. unfold add_or_panic. rewrite checked_add_Some by lia.
  cbn [expect]. wp_step. apply wp_take_open_flag.
  set (st1 := {| st with send_window := send_window st - n; send_buffer := rest;
                 buffered_send := buffered_send st - n |}).
  wp_state (opened st1).
  match goal with |- context [open_flag ?x] => change (open_flag x) with (open_flag st) end.
  pose proof (open_flag_bits st).
  wp_step. apply wp_Frame_data; [done|lia|lia|]. intros Hf.
  assert (wp (flush_loop fuel id max (frames ++ [mkFrame TData (open_flag st) id (zlen cut) cut])
            (drained + n)) Q X (flush_round st cut rem rest)) as Hnext.
  { apply IH; [by apply queue_ok_round; [..|lia]| |lia|cbn [flush_round buffered_send]; lia|].
    - unfold flush_fuel in *. rewrite Hbuf in Hfuel. cbn [flush_round send_buffer].
      rewrite concat_rem. cbn [concat length] in Hfuel. rewrite !length_app in *.
      unfold zlen in *. case_bool_decide; cbn [length] in *; lia.
    - intros fs st' Hfl.
      pose proof (flushed_round id max st cut rem rest fs st' Hbuf ltac:(lia) Hf Hfl) as Hfl'.
      specialize (HQ _ _ Hfl'). cbn in HQ. rewrite zlen_app, Hcut, Z.add_assoc in HQ.
      rewrite <- app_assoc, Hcut. exact HQ. }
  revert Hnext. unfold flush_round, st1. rewrite Hcut, opened_queue.
  case_bool_decide; intros Hnext; wp_step; wp_step; exact Hnext.
Qed.

Lemma stream_core_queue_ok c st : stream_core c st → queue_ok st.
Proof. by intros []. Qed.

(** What [flush_buffered] does to its stream: the frames of [flushed], and the
    deferred FIN once the queue has run empty. *)
Definition flush_result (c : YamuxConfig) (id : Z) (st : StreamState)
    (r : list Frame * Z * bool) (st' : StreamState) : Prop :=
  ∃ fs st1, flushed id (cfg_max_frame_len c) st fs st1 ∧
    r.1.2 = zlen (concat (payload <$> fs)) ∧
    (r.1.1 = fs ∧ st' = st1 ∨
     send_buffer st1 = [] ∧ close_pending st = true ∧
     r.1.1 = fs ++ [mkFrame TData (Z.lor (open_flag st1) FLAG_FIN) id 0 []] ∧
     st' = opened {| st1 with close_pending := false; local_write_closed := true |}).

Lemma flushed_core c id st fs st' :
  stream_core c st → flushed id (cfg_max_frame_len c) st fs st' →
  buffered_send st' = buffered_send st - zlen (concat (payload <$> fs)) ∧
  0 ≤ zlen (concat (payload <$> fs)) ≤ buffered_send st ∧ blocked st' ∧
  (close_pending st = false ∨ send_buffer st' ≠ [] → stream_core c st').
Proof.
  intros [] (_ & _ & Hcat & Hw & (Hq1 & Hq2 & Hq3) & Hend & po & ak & w & buf & b & Hst').
  assert (zlen (concat (payload <$> fs)) + zlen (concat (send_buffer st'))
    = buffered_send st) as Hlen by (rewrite so_buffered0, <- Hcat; zlen_lia).
  split_and!; [lia|zlen_lia|zlen_lia|intros Hne; by destruct Hend|].
  intros Hcl. subst st'. cbn in *.
  split; cbn; try done; [zlen_lia| |].
  { intros Hc. split; [by apply so_closing0|]. destruct Hcl; [congruence|done]. }
  intros Hc. specialize (so_closed0 Hc). rewrite so_closed0 in Hcat.
  apply app_eq_nil in Hcat as [_ Hnil].
  destruct buf as [|ch buf]; [done|]. apply Forall_cons in Hq2 as [Hch _]. cbn in Hnil.
  by apply app_eq_nil in Hnil as [? _].
Qed.

Lemma wp_flush_block c id st :
  config_ok c → stream_core c st → half_open st → stream_id_ok id →
  wp (flush_block c id)
    (λ r st', flush_result c id st r st' ∧ Forall frame_ok r.1.1 ∧
       stream_ok c st' ∧ 0 ≤ r.1.2 ≤ buffered_send st ∧
       buffered_send st' = buffered_send st - r.1.2 ∧
       locally_opened st' = locally_opened st ∧
       r.2 = local_write_closed st' && remote_write_closed st')
    (λ _ _, False) st.
Proof.
  intros (_ & Hmf & _ & Hmb & _) Hok Hhalf Hid. unfold flush_block.
  wp_step. wp_step. wp_step.
  apply wp_flush_loop; [done|done|by eapply stream_core_queue_ok|done|done| |].
  { destruct Hok. lia. }
  intros fs st1 Hfl. destruct (flushed_core c id st fs st1 Hok Hfl) as (Hb & Hz & Hbl & Hcore).
  pose proof Hfl as (Hfs & _ & _ & _ & (Hq1 & _ & Hq3) & _ & po & ak & w & buf & nb & Hst1).
  assert (Forall frame_ok fs) by (eapply Forall_impl; [done|]; by intros ? []).
  cbn [app]. wp_step. wp_step. wp_step. wp_step.
  - apply andb_prop in Heqb as [Hnil%bool_decide_eq_true Hcp].
    assert (close_pending st = true) as Hcp0 by (by rewrite Hst1 in Hcp).
    wp_step. wp_step. wp_step. apply wp_take_open_flag.
    set (st2 := {| st1 with close_pending := false; local_write_closed := true |}).
    wp_state (opened st2).
    match goal with |- context [open_flag ?x] => change (open_flag x) with (open_flag st1) end.
    wp_step. apply wp_Frame_data; [done|apply open_flag_fin|done|]. intros Hf.
    wp_step. wp_step. wp_step. wp_step. cbn [fst snd andb].
    destruct (same_flow_opened st2) as (po' & ak' & Ho).
    split; [exists fs, st1; split_and!; [done|done|by right]|].
    split; [apply Forall_app; split; [done|by constructor]|].
    split; [|rewrite Ho; cbn; split_and!; [lia|lia|lia|by rewrite Hst1|done]].
    eapply stream_ok_same_flow; [apply same_flow_opened|].
    split; [|intros Hne; by destruct Hne].
    destruct Hok. unfold st2. rewrite Hst1 in *. cbn in *. subst buf.
    split; cbn; try done; lia.
  - wp_step. wp_step. wp_step. cbn [fst snd andb].
    assert (close_pending st = false ∨ send_buffer st1 ≠ []) as Hnf.
    { apply andb_false_iff in Heqb as [?%bool_decide_eq_false|Hcp]; [by right|left].
      by rewrite Hst1 in Hcp. }
    split; [exists fs, st1; split_and!; [done|done|by left]|].
    split; [done|]. split; [split; [by apply Hcore|done]|].
    rewrite Hst1 at 2 3 4. cbn. by split_and!; [lia|lia|lia|done|].
Qed.

(** ** Receiving data *)

(** A stream that differs from [st] only in the fields the receive side owns. *)
Definition received (st : StreamState) (n : Z) (fin : bool) (st' : StreamState) : Prop :=
  receive_window st' = receive_window st - n ∧
  remote_write_closed st' = remote_write_closed st || fin ∧
  ∃ ak rw ds pc rc, st' = {| st with acknowledged := ak; receive_window := rw;
    delivered_since_update := ds; pending_credit := pc; remote_write_closed := rc |}.

Definition fin_flag (f : Frame) : bool := negb (Z.land (flags f) FLAG_FIN =? 0).

Lemma wp_grant_credit c st (Q : unit → StreamState → Prop) X :
  pending_credit st + delivered_since_update st ≤ u64_max →
  (let g := cfg_receive_window c / 2 <? delivered_since_update st in
   Q tt {| st with
     delivered_since_update := if g then 0 else delivered_since_update st;
     pending_credit := if g then pending_credit st + delivered_since_update st
                       else pending_credit st |}) →
  wp (grant_credit c) Q X st.
Proof.
  intros Hmax HQ. unfold grant_credit. wp_step. wp_step. cbv zeta in HQ.
  destruct (_ <? _).
  - wp_step. apply wp_reads. unfold add_or_panic. rewrite checked_add_Some by done.
    cbn [expect]. by wp_step.
  - wp_step. by destruct st.
Qed.

Lemma wp_data_block c id f st :
  config_ok c → stream_ok c st → frame_ok f → frame_type f = TData →
  wp (data_block c id f)
    (λ r st', stream_ok c st' ∧ received st (value f) (fin_flag f) st' ∧
       value f ≤ receive_window st ∧
       (payload f ≠ [] → remote_write_closed st = false) ∧
       r = (if bool_decide (payload f = []) then None else Some (payload f),
            fin_flag f && negb (remote_write_closed st),
            remote_write_closed st' && local_write_closed st'))
    (λ e _, e = Protocol "data after FIN" ∧ remote_write_closed st = true ∧ payload f ≠ [] ∨
            e = ReceiveWindowExceeded id ∧ receive_window st < value f) st.
Proof.
  intros (Hrw & _) [Hok Hbl] (_ & _ & _ & Hv & _) Ht. pose proof Hok as Hcore. destruct Hok.
  unfold data_block. wp_step. wp_step.
  set (st1 := if _ && locally_opened st then _ else st).
  assert (∃ ak, st1 = {| st with acknowledged := ak |}) as (ak & Hst1).
  { unfold st1. destruct (_ && _); [by eexists|]. exists (acknowledged st). by destruct st. }
  clearbody st1. subst st1.
  wp_step. wp_step. cbn [remote_write_closed]. wp_step.
  { wp_step. left. apply andb_prop in Heqb as [? ?%negb_true_iff%bool_decide_eq_false].
    done. }
  assert (payload f ≠ [] → remote_write_closed st = false) as Hfin.
  { intros Hne. apply andb_false_iff in Heqb as [|Hp%negb_false_iff%bool_decide_eq_true]; done. }
  wp_step. wp_step. cbn [receive_window]. wp_step.
  { wp_step. right. split; [done|]. lia. }
  apply Z.ltb_ge in Heqb0.
  wp_step. apply wp_reads. cbn [receive_window]. unfold sub_or_panic.
  rewrite checked_sub_Some by done. cbn [expect]. wp_step. wp_step.
  wp_step. apply wp_reads. cbn [delivered_since_update].
  rewrite checked_add_Some by lia. cbn [ok_or]. wp_step. wp_step.
  set (d := delivered_since_update st + value f) in *.
  wp_step. apply wp_grant_credit.
  { cbn [pending_credit delivered_since_update]. unfold d, u64_max, u32_max in *. lia. }
  cbn [pending_credit delivered_since_update].
  set (g := cfg_receive_window c / 2 <? d).
  set (st2 := {| st with acknowledged := ak; receive_window := receive_window st - value f;
    delivered_since_update := if g then 0 else d;
    pending_credit := if g then pending_credit st + d else pending_credit st |}).
  wp_state st2.
  wp_step. wp_step. wp_step. wp_step. wp_step. wp_step. wp_step.
  fold (fin_flag f). cbn [remote_write_closed local_write_closed].
  set (fin := fin_flag f && negb (remote_write_closed st)).
  match goal with |- stream_ok c ?s ∧ _ => set (st3 := s) end.
  assert (st3 = {| st2 with remote_write_closed := remote_write_closed st || fin_flag f |}) as ->.
  { unfold st3, fin. destruct st, (fin_flag f), remote_write_closed; done. }
  split; [|split_and!; try done; by repeat eexists].
  split; [|exact Hbl]. unfold st2. split; cbn; try done; destruct g; lia.
Qed.

Lemma wp_fin_block c f st :
  stream_ok c st →
  wp (fin_block f)
    (λ r st', stream_ok c st' ∧
       st' = {| st with remote_write_closed := remote_write_closed st || fin_flag f |} ∧
       r = (fin_flag f && negb (remote_write_closed st),
            remote_write_closed st' && local_write_closed st'))
    (λ _ _, False) st.
Proof.
  intros [[] Hbl]. unfold fin_block. wp_steps. fold (fin_flag f).
  match goal with |- stream_ok c ?s ∧ _ => set (st3 := s) end.
  assert (st3 = {| st with remote_write_closed := remote_write_closed st || fin_flag f |}) as ->.
  { unfold st3. destruct st, (fin_flag f), remote_write_closed; done. }
  split_and!; [|done|done]. by split; [split|].
Qed.

(** ** Closing the local side *)

Lemma wp_close_write_block c id st :
  stream_ok c st → half_open st → stream_id_ok id →
  wp (close_write_block id)
    (λ r st', stream_ok c st' ∧ buffered_send st' = buffered_send st ∧
       locally_opened st' = locally_opened st ∧
       remote_write_closed st' = remote_write_closed st ∧
       match r with
       | None =>
           half_open st' ∧ (local_write_closed st || close_pending st = true ∧ st' = st ∨
           send_buffer st ≠ [] ∧ st' = {| st with close_pending := true |})
       | Some (f, close) =>
           send_buffer st = [] ∧ frame_ok f ∧
           f = mkFrame TData (Z.lor (open_flag st) FLAG_FIN) id 0 [] ∧
           local_write_closed st' = true ∧ close = remote_write_closed st'
       end)
    (λ _ _, False) st.
Proof.
  intros [Hok Hbl] Hhalf Hid. unfold close_write_block. wp_step. wp_step. wp_step.
  { wp_step. split_and!; try done. by left. }
  apply orb_false_iff in Heqb as [Hlc Hcp].
  wp_step. wp_step. pose proof Hok as Hok'. destruct Hok'.
  wp_step.
  - apply negb_true_iff, Z.eqb_neq in Heqb. wp_step. wp_step. wp_step.
    assert (send_buffer st ≠ []) as Hne.
    { intros Hnil. by rewrite Hnil in so_buffered0. }
    split; [split; [by split|exact Hbl]|]. split_and!; try done; [by right].
  - apply negb_false_iff, Z.eqb_eq in Heqb.
    assert (send_buffer st = []) as Hnil.
    { destruct (send_buffer st) as [|ch l]; [done|]. exfalso.
      apply Forall_cons in so_chunks0 as [Hch _]. apply Hch, zlen_zero_inv.
      cbn in so_buffered0. zlen_lia. }
    wp_step. apply wp_take_open_flag. wp_step.
    apply wp_Frame_data; [done|apply open_flag_fin|done|]. intros Hf.
    wp_step. wp_step. wp_step. wp_step. wp_step.
    destruct (same_flow_opened st) as (po & ak & ->). cbn.
    split; [split; [split; cbn; try done; by rewrite Hcp|exact Hbl]|]. by split_and!.
Qed.

(** ** Announcing a stream and crediting the remote *)

Definition materialized (st : StreamState) : StreamState :=
  {| (opened st) with pending_credit := 0;
     receive_window := receive_window st + pending_credit st |}.

Lemma wp_materialize_block c id st :
  config_ok c → stream_ok c st → stream_id_ok id →
  wp (materialize_block id)
    (λ f st', f = mkFrame TWindowUpdate (open_flag st) id (pending_credit st) [] ∧
       frame_ok f ∧ st' = materialized st)
    (λ _ _, False) st.
Proof.
  intros (Hrw & _) [[] Hbl] Hid. unfold materialize_block.
  wp_step. apply wp_take_open_flag. wp_step. wp_step.
  destruct (same_flow_opened st) as (po & ak & Ho).
  assert (pending_credit (opened st) = pending_credit st) as -> by (by rewrite Ho).
  rewrite Z.min_l by lia. wp_step. apply wp_reads.
  assert (pending_credit (opened st) = pending_credit st) as -> by (by rewrite Ho).
  unfold sub_or_panic. rewrite checked_sub_Some, Z.sub_diag by lia. cbn [expect].
  wp_step. wp_step. wp_step. apply wp_reads. cbn [receive_window].
  assert (receive_window (opened st) = receive_window st) as -> by (by rewrite Ho).
  rewrite checked_add_Some by lia. cbn [expect]. wp_step. wp_step.
  apply wp_lift. pose proof (open_flag_bits st).
  destruct (Frame_window_update_ok id (open_flag st) (pending_credit st)) as [-> Hf];
    [done|lia|lia|]. done.
Qed.

Lemma materialized_ok c st :
  stream_ok c st → stream_ok c (materialized st) ∧
  has_deferred_control (materialized st) = false ∧
  buffered_send (materialized st) = buffered_send st ∧
  locally_opened (materialized st) = locally_opened st ∧
  local_write_closed (materialized st) = local_write_closed st ∧
  remote_write_closed (materialized st) = remote_write_closed st.
Proof.
  intros [[] Hbl]. unfold materialized, has_deferred_control. cbn.
  rewrite opened_pending. destruct (same_flow_opened st) as (po & ak & ->). cbn.
  split; [|done]. split; [split; cbn; try done; lia|exact Hbl].
Qed.
