(* ===== verification/YamuxInvariant.v ===== *)
(** The invariant of a Yamux session and the proof that every operation of
    [YamuxSession] keeps it, without panicking and without looping. *)

From S2P Require Import Prelude YamuxFrame YamuxSession YamuxStream.

(** ** The invariant *)

(** Client streams are odd, server streams even. *)
Definition local_id (r : YamuxRole) (id : Z) : bool :=
  match r with Client => negb (id mod 2 =? 0) | Server => id mod 2 =? 0 end.

Record base_ok (s : YamuxSession) : Prop := {
  bo_config : config_ok (config s);
  bo_next : match next_stream_id s with
            | Some n => stream_id_ok n ∧ local_id (role s) n = true
            | None => True
            end;
  bo_nonce : 0 ≤ next_ping_nonce s ≤ u32_max;
  bo_decoder : decoder_ok (decoder s);
  bo_max : max_frame_len (decoder s) = cfg_max_frame_len (config s);
}.

(** Identifiers handed out locally are below the next one. *)
Definition below_next (s : YamuxSession) (id : Z) : Prop :=
  match next_stream_id s with
  | Some n => local_id (role s) id = true → id < n
  | None => True
  end.

Record tracked (exc : option Z) (s : YamuxSession) (id : Z) (st : StreamState) : Prop := {
  tr_ok : stream_ok (config s) st;
  tr_half : exc ≠ Some id → half_open st;
  tr_id : stream_id_ok id;
  tr_parity : locally_opened st = local_id (role s) id;
  tr_below : below_next s id;
}.

Definition is_closed (s : YamuxSession) : bool :=
  failed s || local_go_away s || remote_go_away s.

(** [exc] names a stream that may have both its sides closed: it is about to
    be removed. *)
Record session_ok_but (exc : option Z) (s : YamuxSession) : Prop := {
  se_base : base_ok s;
  se_streams : map_Forall (tracked exc s) (streams s);
  se_count : Z.of_nat (size (streams s)) ≤ max_streams (config s);
  se_total : total_buffered_send s = map_sum buffered_send (streams s);
  se_cap : total_buffered_send s ≤ max_total_buffered_send (config s);
  se_closed : is_closed s = true → streams s = ∅;
}.

Abbreviation session_ok := (session_ok_but None).

Lemma total_bounds exc s id st :
  session_ok_but exc s → streams s !! id = Some st →
  0 ≤ buffered_send st ≤ total_buffered_send s.
Proof.
  intros [? Hst ? Htot ? ?] Hid. rewrite Htot, (map_sum_delete _ _ _ _ Hid).
  assert (∀ j st, streams s !! j = Some st → 0 ≤ buffered_send st) as Hpos.
  { intros j st' Hj. destruct (Hst j st' Hj) as [[[]] ? ? ? ?]. zlen_lia. }
  pose proof (Hpos id st Hid).
  assert (0 ≤ map_sum buffered_send (delete id (streams s))); [|lia].
  apply map_sum_nonneg. intros j st' [_ Hj]%lookup_delete_Some. eauto.
Qed.

Lemma session_total_nonneg exc s : session_ok_but exc s → 0 ≤ total_buffered_send s.
Proof.
  intros [? Hst ? -> ? ?]. apply map_sum_nonneg. intros j st Hj.
  destruct (Hst j st Hj) as [[[]] ? ? ? ?]. zlen_lia.
Qed.

(** *** How the invariant moves *)

(** Outputs, activity stamps and the keepalive flag are not part of it. *)
Lemma session_ok_outputs exc s p d a :
  session_ok_but exc s →
  session_ok_but exc {| s with pending := p; dirty := d; last_activity_ms := a |}.
Proof. intros [[] Hst ? ? ? ?]. split; [by split|..]; try done. intros j st Hj.
  by destruct (Hst j st Hj). Qed.

Lemma session_ok_update exc s id st st' total :
  session_ok_but exc s → streams s !! id = Some st →
  stream_ok (config s) st' → locally_opened st' = locally_opened st →
  total = total_buffered_send s - buffered_send st + buffered_send st' →
  total ≤ max_total_buffered_send (config s) →
  (exc = None ∨ exc = Some id) →
  session_ok_but (Some id)
    {| s with streams := <[id := st']> (streams s); total_buffered_send := total |}.
Proof.
  intros [[] Hst Hn Htot ? Hcl] Hid Hok Hlo -> Hcap Hexc. split; cbn; try done.
  - apply map_Forall_insert_2.
    + destruct (Hst id st Hid) as [? ? ? Hp ?]. split; try done. by rewrite Hlo.
    + intros j stj Hj. destruct (Hst j stj Hj) as [? Hh ? ? ?]. split; try done.
      intros Hne. apply Hh. destruct Hexc; congruence.
  - rewrite map_size_insert_Some by eauto. done.
  - rewrite (map_sum_update _ _ _ _ _ Hid). lia.
  - intros Hc. specialize (Hcl Hc). rewrite Hcl in Hid. by rewrite lookup_empty in Hid.
Qed.

Lemma session_ok_half s id st :
  session_ok_but (Some id) s → streams s !! id = Some st → half_open st → session_ok s.
Proof.
  intros [? Hst ? ? ? ?] Hid Hh. split; try done.
  intros j stj Hj. destruct (Hst j stj Hj) as [? Hhj ? ? ?]. split; try done.
  intros _. destruct (decide (j = id)) as [->|]; [congruence|].
  apply Hhj. congruence.
Qed.

Lemma session_ok_weaken s id : session_ok s → session_ok_but (Some id) s.
Proof.
  intros [? Hst ? ? ? ?]. split; try done.
  intros j stj Hj. destruct (Hst j stj Hj) as [? Hhj ? ? ?]. split; try done. auto.
Qed.

Lemma session_ok_delete s id st :
  session_ok_but (Some id) s → streams s !! id = Some st →
  session_ok {| s with streams := delete id (streams s);
                total_buffered_send := total_buffered_send s - buffered_send st |}.
Proof.
  intros Hs Hid. pose proof (total_bounds _ _ _ _ Hs Hid). destruct Hs as [[] Hst Hn Htot ? Hcl].
  split; cbn; [by split|..|lia|].
  - intros j stj [Hne Hj]%lookup_delete_Some. destruct (Hst j stj Hj) as [? Hhj ? ? ?].
    split; try done. intros _. apply Hhj. congruence.
  - rewrite map_size_delete_Some by eauto. lia.
  - rewrite Htot, (map_sum_delete _ _ _ _ Hid). lia.
  - intros Hc. rewrite (Hcl Hc). apply delete_empty.
Qed.

Lemma session_ok_insert s id st :
  session_ok s → streams s !! id = None → is_closed s = false →
  stream_ok (config s) st → half_open st → buffered_send st = 0 → stream_id_ok id →
  locally_opened st = local_id (role s) id → below_next s id →
  Z.of_nat (size (streams s)) < max_streams (config s) →
  session_ok {| s with streams := <[id := st]> (streams s) |}.
Proof.
  intros [[] Hst Hn Htot ? Hcl] Hid Hopen Hok Hh Hb Hsid Hlo Hbel Hsize.
  split; cbn; [by split|..|done|].
  - apply map_Forall_insert_2; [by split|].
    intros j stj Hj. by destruct (Hst j stj Hj).
  - rewrite map_size_insert_None by done. lia.
  - rewrite map_sum_insert_None by done. lia.
  - intros Hc. change (is_closed s = true) in Hc. congruence.
Qed.

(** ** Rules for the session's building blocks *)

Lemma wp_with_stream {A} miss id (m : M StreamState YamuxError A) Q X s st :
  streams s !! id = Some st →
  wp m (λ a st', Q a {| s with streams := <[id := st']> (streams s) |})
       (λ e st', X e {| s with streams := <[id := st']> (streams s) |}) st →
  wp (with_stream miss id m) Q X s.
Proof. intros Hid. unfold wp, with_stream. rewrite Hid. by destruct (m st) as [? []]. Qed.

Lemma wp_with_stream_missing {A} e id (m : M StreamState YamuxError A) Q X s :
  streams s !! id = None → X e s → wp (with_stream (Err e) id m) Q X s.
Proof. intros Hid. unfold wp, with_stream. by rewrite Hid. Qed.

Lemma wp_ensure_active (Q : unit → YamuxSession → Prop) (X : YamuxError → YamuxSession → Prop) s :
  (is_closed s = false → Q tt s) →
  (is_closed s = true → X (if failed s then Failed else SessionClosed) s) →
  wp ensure_active Q X s.
Proof.
  intros HQ HX. unfold wp, ensure_active, is_closed in *.
  destruct (failed s); [by apply HX|].
  destruct (local_go_away s || remote_go_away s) eqn:Hc; [by apply HX|by apply HQ].
Qed.

Definition outs (fs : list Frame) : list YamuxOutput := (λ f, Outbound (encode f)) <$> fs.

Lemma wp_queue_frames fs (Q : unit → YamuxSession → Prop) X s :
  (∀ d, Q tt {| s with dirty := d; pending := pending s ++ outs fs |}) →
  wp (queue_frames fs) Q X s.
Proof.
  revert s. induction fs as [|f fs IH]; intros s HQ; cbn [queue_frames].
  - wp_step. specialize (HQ (dirty s)). cbn in HQ. rewrite app_nil_r in HQ. by destruct s.
  - wp_step. unfold queue_frame. wp_step. apply IH. intros d. cbn.
    rewrite <- app_assoc. apply HQ.
Qed.

Lemma wp_remove_stream id (emit : bool) (Q : unit → YamuxSession → Prop) X s st exc :
  session_ok_but exc s → streams s !! id = Some st →
  Q tt {| s with streams := delete id (streams s);
          total_buffered_send := total_buffered_send s - buffered_send st;
          pending := pending s ++ (if emit then [StreamClosed id] else []) |} →
  wp (remove_stream id emit) Q X s.
Proof.
  intros Hs Hid HQ. pose proof (total_bounds _ _ _ _ Hs Hid).
  unfold wp, remove_stream. rewrite Hid. apply wp_bind, wp_modify.
  apply wp_bind, wp_lift. unfold sub_or_panic. rewrite checked_sub_Some by lia. cbn [expect].
  apply wp_bind, wp_modify. destruct emit.
  - by apply wp_modify.
  - apply wp_ret. by rewrite app_nil_r in HQ.
Qed.

Lemma wp_remove_stream_missing id (emit : bool) (Q : unit → YamuxSession → Prop) X s :
  streams s !! id = None → Q tt s → wp (remove_stream id emit) Q X s.
Proof. intros Hid HQ. unfold wp, remove_stream. by rewrite Hid. Qed.

(** What stream traffic leaves alone. *)
Definition ctl (s : YamuxSession) :=
  (role s, config s, decoder s, next_stream_id s, failed s, local_go_away s,
   remote_go_away s, next_ping_nonce s).

Lemma base_ok_ctl s s' : ctl s' = ctl s → base_ok s → base_ok s'.
Proof.
  unfold ctl. intros [= Hr Hc Hd Hn _ _ _ Hp] [].
  by split; rewrite ?Hr, ?Hc, ?Hd, ?Hn, ?Hp.
Qed.

(** Removing a stream whose two sides are closed restores the invariant. *)
Lemma wp_close_if id (full : bool) s st X :
  session_ok_but (Some id) s → streams s !! id = Some st →
  full = local_write_closed st && remote_write_closed st →
  wp (if full then remove_stream id true else mret tt)
    (λ _ s', session_ok s' ∧ ctl s' = ctl s) X s.
Proof.
  intros Hs Hid Hfull. destruct full.
  - eapply wp_remove_stream; [done|done|]. split; [|done].
    refine (session_ok_outputs None {| s with streams := delete id (streams s);
             total_buffered_send := total_buffered_send s - buffered_send st |}
             (pending s ++ [StreamClosed id]) (dirty s) (last_activity_ms s) _).
    by apply session_ok_delete.
  - apply wp_ret. split; [|done]. eapply session_ok_half; [done|done|].
    by unfold half_open.
Qed.

Lemma session_ok_push exc s os d :
  session_ok_but exc s →
  session_ok_but exc {| s with dirty := d; pending := pending s ++ os |}.
Proof.
  exact (session_ok_outputs exc s (pending s ++ os) d (last_activity_ms s)).
Qed.

Lemma wp_push_pending o (Q : unit → YamuxSession → Prop) X s :
  Q tt {| s with pending := pending s ++ [o] |} → wp (push_pending o) Q X s.
Proof. done. Qed.

Lemma wp_queue_frame f (Q : unit → YamuxSession → Prop) X s :
  Q tt {| s with dirty := true; pending := pending s ++ [Outbound (encode f)] |} →
  wp (queue_frame f) Q X s.
Proof. done. Qed.

(** ** Caller operations keep the invariant *)

Lemma session_ok_new r c : config_ok c → session_ok (from_validated_config r c).
Proof.
  intros Hc. pose proof Hc as (? & ? & ? & ? & ?). split; cbn.
  - split; cbn; [done| |unfold u32_max; lia| |done].
    + unfold stream_id_ok, u32_max. destruct r; (split; [lia|done]).
    + split; cbn; zlen_lia.
  - apply map_Forall_empty.
  - rewrite map_size_empty. lia.
  - by rewrite map_sum_empty.
  - lia.
  - done.
Qed.

(** What an accepted [send] leaves behind. *)
Definition send_done (id : Z) (data : bytes) (s s' : YamuxSession) : Prop :=
  ∃ st r st', streams s !! id = Some st ∧
    sent id (cfg_max_frame_len (config s)) data st r st' ∧
    streams s' = <[id := st']> (streams s) ∧
    pending s' = pending s ++ outs r.1 ∧
    total_buffered_send s' = total_buffered_send s + r.2 ∧ ctl s' = ctl s.

Definition send_refused (id : Z) (data : bytes) (s : YamuxSession) (e : YamuxError) : Prop :=
  is_closed s = true ∧ e = (if failed s then Failed else SessionClosed) ∨
  is_closed s = false ∧ streams s !! id = None ∧ e = UnknownStream id ∨
  is_closed s = false ∧ ∃ st, streams s !! id = Some st ∧
    refused (config s) (total_buffered_send s) id data st e.

Lemma send_ok s id data :
  session_ok s →
  wp (send id data) (λ _ s', session_ok s' ∧ send_done id data s s')
    (λ e s', s' = s ∧ send_refused id data s e) s.
Proof.
  intros Hs. unfold send_refused, send. wp_step. apply wp_ensure_active; [|by auto]. intros Hopen.
  wp_step. wp_step. wp_step. wp_step. wp_step.
  destruct (streams s !! id) as [st|] eqn:Hid; [|apply wp_with_stream_missing; [done|split; auto 10]].
  pose proof (total_bounds _ _ _ _ Hs Hid) as Hb. pose proof Hs as Hs'.
  destruct Hs' as [[Hc _ _ _ _] Hst _ _ Hcap _].
  destruct (Hst id st Hid) as [Hok Hh Hsid Hlo Hbel].
  eapply wp_with_stream; [done|].
  eapply wp_mono; [apply (wp_send_block (config s)); try done; lia| |].
  2:{ intros e st' [-> He]. rewrite insert_id by done. split; [by destruct s|right; right; by eauto]. }
  intros [fs n] st' (Hsent & Hok' & Hh' & Hn & Hcap'). cbn [fst snd] in *.
  wp_step. apply wp_reads. unfold add_or_panic. cbn [total_buffered_send].
  destruct Hc as (_ & _ & _ & _ & Hmt).
  rewrite checked_add_Some by lia. cbn [expect]. wp_step. wp_step.
  apply wp_queue_frames. intros d. split; [|by exists st, (fs, n), st'].
  refine (session_ok_push None {| s with streams := <[id:=st']> (streams s);
           total_buffered_send := total_buffered_send s + n |} _ _ _).
  eapply session_ok_half; [|apply lookup_insert_eq|done].
  destruct Hsent as (now & later & _ & _ & _ & _ & Hr & _ & _ & _ & Hb' & _ & _ & _ & Hlo').
  cbn in Hr. eapply session_ok_update; [done|done|done|done| |done|by left]. lia.
Qed.

Lemma close_write_ok s id :
  session_ok s →
  wp (close_write id) (λ _ s', session_ok s') (λ _ s', s' = s) s.
Proof.
  intros Hs. unfold close_write. wp_step. apply wp_ensure_active; [|done]. intros Hopen.
  wp_step.
  destruct (streams s !! id) as [st|] eqn:Hid; [|by apply wp_with_stream_missing].
  pose proof Hs as [[Hc _ _ _ _] Hst _ _ Hcap _].
  destruct (Hst id st Hid) as [Hok Hh Hsid Hlo Hbel].
  eapply wp_with_stream; [done|].
  eapply wp_mono; [apply (wp_close_write_block (config s)); by auto| |done].
  intros r st' (Hok' & Hb & Hlo' & Hrc & Hr).
  assert (session_ok_but (Some id) {| s with streams := <[id:=st']> (streams s) |}) as Hs1.
  { refine (session_ok_update None s id st st' (total_buffered_send s) _ _ _ _ _ _ _);
      [done|done|done|done|lia|done|by left]. }
  destruct r as [[f close]|].
  - destruct Hr as (_ & Hf & _ & Hlc & ->). wp_step. apply wp_queue_frame.
    eapply wp_mono; [eapply wp_close_if; [|apply lookup_insert_eq|by rewrite Hlc]|by intros ? ? []|intros ? ? H; exact H].
    exact (session_ok_push (Some id) {| s with streams := <[id:=st']> (streams s) |} _ _ Hs1).
  - destruct Hr as [Hh' _]. wp_step. eapply session_ok_half; [done|apply lookup_insert_eq|done].
Qed.

Lemma open_stream_ok s :
  session_ok s →
  wp open_stream
    (λ id s', session_ok s' ∧ streams s !! id = None ∧ local_id (role s) id = true ∧
       is_Some (streams s' !! id) ∧ next_stream_id s = Some id)
    (λ _ s', s' = s) s.
Proof.
  intros Hs. unfold open_stream. wp_step. apply wp_ensure_active; [|done]. intros Hopen.
  wp_step. wp_step. wp_step; [by wp_step|]. apply Z.leb_gt in Heqb.
  wp_step. apply wp_reads. destruct (next_stream_id s) as [n|] eqn:Hn; cbn [ok_or]; [|done].
  pose proof Hs as [[Hc Hnext Hnonce Hd Hm] Hst Hcnt Htot Hcap Hcl]. rewrite Hn in Hnext.
  destruct Hnext as [Hnid Hloc].
  wp_step. wp_step. wp_step. apply wp_reads. cbn [config].
  destruct (stream_ok_outbound (config s) Hc) as (st & -> & Hok & Hh & Hlo & Hb).
  wp_step. wp_step. wp_step. cbn [streams].
  assert (streams s !! n = None) as Hfresh.
  { destruct (streams s !! n) as [st'|] eqn:Hl; [|done].
    destruct (Hst n st' Hl) as [_ _ _ _ Hbel]. unfold below_next in Hbel.
    rewrite Hn in Hbel. specialize (Hbel Hloc). lia. }
  split_and!; [|done|done|rewrite lookup_insert_eq; eauto|done].
  set (next := checked_add u32_max n 2).
  assert (next = Some (n + 2) ∧ n + 2 ≤ u32_max ∨ next = None) as Hnx.
  { unfold next, checked_add. destruct (Z.leb_spec (n + 2) u32_max); auto. }
  assert (local_id (role s) (n + 2) = true) as Hloc2.
  { rewrite <- Hloc. unfold local_id. by rewrite (Z.add_mod_idemp_r n 2 2), Z.mod_same,
      Z.add_0_r || (replace (n + 2) with (n + 1 * 2) by lia; by rewrite Z.mod_add). }
  apply (session_ok_insert {| s with next_stream_id := next |}); try done.
  - split; cbn; try done.
    + split; cbn; try done. unfold stream_id_ok in *.
      destruct Hnx as [[-> ?]| ->]; [split; [lia|done]|done].
    + intros j stj Hj. destruct (Hst j stj Hj) as [? ? ? ? Hbel]. split; try done.
      unfold below_next in *. cbn. rewrite Hn in Hbel.
      destruct Hnx as [[-> ?]| ->]; [|done]. intros Hl. specialize (Hbel Hl). lia.
  - cbn. by rewrite Hlo, Hloc.
  - unfold below_next. cbn. destruct Hnx as [[-> ?]| ->]; [lia|done].
Qed.

Lemma reset_ok s id :
  session_ok s → wp (reset id) (λ _ s', session_ok s' ∧ streams s' !! id = None) (λ _ s', s' = s) s.
Proof.
  intros Hs. unfold reset. wp_step. apply wp_ensure_active; [|done]. intros Hopen.
  wp_step. apply wp_reads. destruct (streams s !! id) as [st|] eqn:Hid; cbn [ok_or]; [|done].
  pose proof (total_bounds _ _ _ _ Hs Hid) as Hb. pose proof Hs as [_ Hst _ _ _ _].
  destruct (Hst id st Hid) as [_ _ Hsid _ _].
  wp_step. wp_step. wp_step. apply wp_reads. unfold sub_or_panic. cbn [total_buffered_send].
  rewrite checked_sub_Some by lia. cbn [expect]. wp_step. wp_step.
  wp_step. apply wp_Frame_data; [done|by unfold FLAG_RST|done|]. intros Hf.
  wp_step. apply wp_queue_frame, wp_push_pending. cbn [pending streams].
  split; [|apply lookup_delete_eq]. rewrite <- app_assoc.
  refine (session_ok_push None {| s with streams := delete id (streams s);
           total_buffered_send := total_buffered_send s - buffered_send st |} _ _ _).
  apply session_ok_delete; [by apply session_ok_weaken|done].
Qed.

(** Both ways a session ends leave it without streams. *)
Lemma session_ok_shut s' :
  base_ok s' → streams s' = ∅ → total_buffered_send s' = 0 → session_ok s'.
Proof.
  intros Hb He Ht. pose proof Hb as [(_ & _ & ? & _ & ?) _ _ _ _].
  split; rewrite ?He, ?Ht; [done|apply map_Forall_empty| | |lia|done].
  - rewrite map_size_empty. lia.
  - by rewrite map_sum_empty.
Qed.

Lemma go_away_ok s code :
  session_ok s →
  wp (go_away code) (λ _ s', session_ok s' ∧ is_closed s' = true) (λ _ _, False) s.
Proof.
  intros Hs. unfold go_away, close_all_streams. wp_step. wp_step. wp_step.
  - wp_step. split; [done|]. unfold is_closed. apply orb_true_iff in Heqb as [-> | ->];
      [|done]. by rewrite orb_true_r.
  - wp_step. wp_step. wp_step. apply wp_queue_frame. wp_step. wp_step. wp_step.
    split; [|unfold is_closed; cbn; by rewrite orb_true_r].
    apply session_ok_shut; try done.
    destruct Hs as [[] _ _ _ _ _]. by split.
Qed.

Lemma fail_protocol_ok {A} s e :
  base_ok s →
  wp (fail_protocol (A := A) e) (λ _ _, False)
    (λ e' s', e' = e ∧ session_ok s' ∧ failed s' = true ∧ streams s' = ∅ ∧
       pending s' = outs [Frame_go_away 1] ++ (StreamClosed <$> btree_keys (streams s))) s.
Proof.
  intros []. unfold fail_protocol. wp_step. wp_step. wp_step. wp_step. wp_step.
  apply wp_queue_frame. wp_step. wp_step. wp_step. split_and!; try done.
  by apply session_ok_shut.
Qed.

Lemma wrapping_add_u32 a b : 0 ≤ wrapping_add u32_max a b ≤ u32_max.
Proof.
  unfold wrapping_add. pose proof (Z.mod_pos_bound (a + b) (u32_max + 1)).
  unfold u32_max in *. lia.
Qed.

Lemma Frame_ping_ok fl nonce :
  fl = FLAG_SYN ∨ fl = FLAG_ACK → 0 ≤ nonce ≤ u32_max →
  Frame_ping fl nonce = Ok (mkFrame TPing fl 0 nonce []) ∧
  frame_ok (mkFrame TPing fl 0 nonce []).
Proof.
  intros Hf Hn.
  assert (Frame_ping fl nonce = Ok (mkFrame TPing fl 0 nonce [])) by (by destruct Hf as [-> | ->]).
  split; [done|]. unfold frame_ok, u16_max, u32_max in *.
  split_and!; destruct Hf as [-> | ->]; cbn; done || lia.
Qed.

Lemma poll_ok s now :
  session_ok s → wp (poll now) (λ _ s', session_ok s') (λ _ s', s' = s) s.
Proof.
  intros Hs. unfold poll. wp_step. apply wp_ensure_active; [|done]. intros Hopen.
  wp_step. wp_step.
  match goal with |- wp _ _ _ ?x => set (s1 := x) end.
  assert (∃ a d, s1 = {| s with last_activity_ms := Some a; dirty := d |}) as (a & d & ->).
  { unfold s1. destruct (last_activity_ms s) as [a|] eqn:Ha; destruct (dirty s) eqn:Hd; cbn.
    all: try (by repeat eexists). exists a, false. destruct s; cbn in *; by subst. }
  wp_step. apply wp_reads. cbn [last_activity_ms expect]. wp_step.
  - wp_step. wp_step. wp_step. wp_step. wp_step. apply wp_lift. cbn [next_ping_nonce].
    destruct (Frame_ping_ok FLAG_SYN (next_ping_nonce s)) as [-> _];
      [by left|by destruct Hs as [[]]|].
    wp_step. apply wp_queue_frame. wp_step.
    refine (session_ok_outputs None
      {| s with next_ping_nonce := wrapping_add u32_max (next_ping_nonce s) 1 |} _ _ _ _).
    destruct Hs as [[] Hst ? ? ? ?]. split; try done.
    + split; try done. apply wrapping_add_u32.
    + intros j st Hj. by destruct (Hst j st Hj).
  - wp_step. by apply (session_ok_outputs None s (pending s) d (Some a)).
Qed.

(** ** Frames from the remote keep the invariant *)

Lemma on_stream_frame_ok s id fl :
  session_ok s → is_closed s = false → stream_id_ok id →
  wp (on_stream_frame id fl)
    (λ r s', ctl s' = ctl s ∧
       match r with
       | None => session_ok s'
       | Some true => s' = s ∧ streams s !! id = None ∧
           local_id (role s) id = false ∧
           Z.of_nat (size (streams s)) < max_streams (config s)
       | Some false => s' = s ∧ is_Some (streams s !! id)
       end)
    (λ _ s', s' = s) s.
Proof.
  intros Hs Hopen Hid.
  assert (∀ X, wp (_ ← queue_reset_for_unknown id; mret None)
    (λ r s', ctl s' = ctl s ∧ match r : option bool with None => session_ok s' | _ => False end)
    X s) as Hreset.
  { intros X. unfold queue_reset_for_unknown. wp_step. wp_step.
    apply wp_Frame_data; [done|by unfold FLAG_RST|done|]. intros Hf.
    apply wp_queue_frame. wp_step. split; [done|]. by apply session_ok_push. }
  unfold on_stream_frame. wp_step. wp_step. wp_step.
  { wp_step. destruct (streams s !! id) as [st|] eqn:Hl.
    - eapply wp_remove_stream; [done|done|]. wp_step. split; [done|].
      refine (session_ok_outputs None {| s with streams := delete id (streams s);
               total_buffered_send := total_buffered_send s - buffered_send st |} _
               (dirty s) (last_activity_ms s) _).
      apply session_ok_delete; [by apply session_ok_weaken|done].
    - apply wp_remove_stream_missing; [done|]. by wp_step. }
  wp_step.
  - wp_step. wp_step. wp_step; [by wp_step|]. apply negb_false_iff in Heqb1.
    case_bool_decide as Hk; [by wp_step|].
    assert (streams s !! id = None) by (by apply eq_None_not_Some).
    wp_step. wp_step. wp_step; [|].
    + eapply wp_mono; [apply (Hreset (λ _ _, False))| |done].
      intros [[]|] s' []; done.
    + wp_step. apply Z.leb_gt in Heqb2. split_and!; try done.
      unfold valid_remote_stream_id, local_id in *. apply andb_prop in Heqb1 as [_ Hp].
      destruct (role s); [by rewrite Hp|by apply negb_true_iff].
  - case_bool_decide as Hk; cbn [negb].
    + by wp_step.
    + eapply wp_mono; [apply (Hreset (λ _ _, False))| |done].
      intros [[]|] s' []; done.
Qed.

Lemma insert_inbound_ok s id w :
  session_ok s → is_closed s = false → stream_id_ok id → 0 ≤ w ≤ u32_max →
  streams s !! id = None → local_id (role s) id = false →
  Z.of_nat (size (streams s)) < max_streams (config s) →
  wp (insert_inbound id w)
    (λ _ s', session_ok s' ∧ ctl s' = ctl s ∧ ∃ st, streams s' !! id = Some st)
    (λ _ _, False) s.
Proof.
  intros Hs Hopen Hid Hw Hfresh Hloc Hsize. pose proof Hs as [[Hc _ _ _ _] _ _ _ _ _].
  unfold insert_inbound. wp_step. apply wp_reads.
  destruct (stream_ok_inbound (config s) w Hc Hw) as (st & -> & Hok & Hh & Hlo & Hb & _).
  wp_step. wp_step. apply wp_push_pending. cbn [streams].
  split_and!; [|done|rewrite lookup_insert_eq; eauto].
  refine (session_ok_outputs None {| s with streams := <[id:=st]> (streams s) |} _
            (dirty s) (last_activity_ms s) _).
  apply session_ok_insert; try done; [congruence|].
  unfold below_next. by destruct (next_stream_id s); [rewrite Hloc|].
Qed.

(** The invariant, up to stream [id] being about to close. *)
Definition closing (id : Z) (st : StreamState) (s0 s : YamuxSession) : Prop :=
  session_ok_but (Some id) s ∧ streams s !! id = Some st ∧ ctl s = ctl s0.

Lemma wp_closing_push id st s0 s (b : bool) o X :
  closing id st s0 s →
  wp (if b then push_pending o else mret tt) (λ _ s', closing id st s0 s') X s.
Proof.
  intros (Hs & Hst & Hc). destruct b; [|by wp_step]. apply wp_push_pending.
  split; [|done].
  exact (session_ok_outputs (Some id) s (pending s ++ [o]) (dirty s) (last_activity_ms s) Hs).
Qed.

Lemma wp_closing_end id st s0 s (full : bool) X :
  closing id st s0 s → full = local_write_closed st && remote_write_closed st →
  wp (if full then remove_stream id true else mret tt)
    (λ _ s', session_ok s' ∧ ctl s' = ctl s0) X s.
Proof. intros (Hs & Hst & <-) Hf. by eapply wp_close_if. Qed.

Lemma frame_stream_id f :
  frame_ok f → frame_type f = TData ∨ frame_type f = TWindowUpdate →
  stream_id_ok (stream_id f).
Proof.
  intros (Hv & _ & ? & _) Ht. unfold stream_id_ok. unfold validate in Hv.
  destruct Ht as [Ht|Ht]; rewrite Ht in Hv; repeat case_match; try done; lia.
Qed.

Lemma on_data_ok s f :
  session_ok s → is_closed s = false → frame_ok f → frame_type f = TData →
  wp (on_data f) (λ _ s', session_ok s' ∧ ctl s' = ctl s) (λ _ s', ctl s' = ctl s) s.
Proof.
  intros Hs Hopen Hf Ht. unfold on_data.
  pose proof (frame_stream_id f Hf ltac:(by left)) as Hid.
  wp_step. eapply wp_mono; [by apply on_stream_frame_ok| |by intros ? ? ->].
  intros go s1 (Hctl & Hgo). destruct go as [fresh|]; [|by wp_step].
  wp_step. eapply (wp_mono _ (λ _ s2, session_ok s2 ∧ ctl s2 = ctl s ∧
    ∃ st, streams s2 !! stream_id f = Some st) _ (λ _ _, False)); [| |done].
  { destruct fresh.
    - destruct Hgo as (-> & Hn & Hl & Hsz). apply insert_inbound_ok; try done.
    - destruct Hgo as (-> & st & Hst). wp_step. eauto. }
  intros _ s2 (Hs2 & Hctl2 & st & Hst). wp_step. wp_step. wp_step.
  pose proof Hs2 as [[Hc2 _ _ _ _] Htr _ _ Hcap _]. destruct (Htr _ _ Hst) as [Hok Hh Hid2 Hlo Hbel].
  eapply wp_with_stream; [done|]. eapply wp_mono; [by apply wp_data_block| |].
  2:{ intros e st' _. exact Hctl2. }
  intros r st' (Hok' & (_ & _ & ak & rw & ds & pc & rc & Hst') & _ & _ & ->).
  assert (closing (stream_id f) st' s
    {| s2 with streams := <[stream_id f:=st']> (streams s2) |}) as Hs3.
  { split_and!; [|apply lookup_insert_eq|exact Hctl2].
    refine (session_ok_update None s2 _ st st' (total_buffered_send s2) Hs2 Hst Hok' _ _ Hcap _);
      [by rewrite Hst'|rewrite Hst'; cbn; lia|by left]. }
  wp_step. eapply (wp_mono _ (λ _ s', closing (stream_id f) st' s s') _ (λ _ _, False)); [| |done].
  { case_bool_decide; [by wp_step|]. by apply (wp_closing_push _ _ _ _ true). }
  intros _ s4 Hs4. wp_step. eapply wp_mono; [by apply wp_closing_push| |intros ? ? H; exact H].
  intros ? s5 Hs5. cbn in Hs5. eapply wp_closing_end; [done|apply andb_comm].
Qed.

Lemma flush_buffered_ok s id st w ak :
  session_ok s → streams s !! id = Some st → 0 ≤ w ≤ u32_max →
  wp (flush_buffered id) (λ _ s', session_ok s' ∧ ctl s' = ctl s) (λ _ _, False)
    {| s with streams := <[id := {| st with send_window := w; acknowledged := ak |}]> (streams s) |}.
Proof.
  intros Hs Hst Hw. pose proof (total_bounds _ _ _ _ Hs Hst) as Hb.
  pose proof Hs as [[Hc _ _ _ _] Htr _ _ Hcap _].
  destruct (Htr id st Hst) as [[Hok _] Hh Hid Hlo Hbel].
  set (st1 := {| st with send_window := w; acknowledged := ak |}).
  unfold flush_buffered. wp_step. wp_step. cbn [config]. wp_step.
  eapply wp_with_stream; [apply lookup_insert_eq|].
  eapply wp_mono; [apply wp_flush_block; [done| |by apply Hh|done]| |done].
  { destruct Hok. by split. }
  intros [[fs n] full] st2 (_ & _ & Hok2 & Hn & Hb2 & Hlo2 & Hfull). cbn [fst snd] in *.
  wp_step. apply wp_reads. unfold sub_or_panic. cbn [total_buffered_send].
  change (buffered_send st1) with (buffered_send st) in *.
  rewrite checked_sub_Some by lia. cbn [expect]. wp_step. wp_step. wp_step.
  apply wp_queue_frames. intros d.
  set (s2 := {| s with streams := <[id:=st2]> (streams s);
                total_buffered_send := total_buffered_send s - n |}).
  assert (session_ok_but (Some id) s2) as Hs2.
  { eapply (session_ok_update None); [done|done|done|done|lia|lia|by left]. }
  apply (wp_closing_end id st2 s); [|done]. split_and!; [|cbn; by rewrite lookup_insert_eq|done].
  cbn [streams pending]. rewrite insert_insert_eq. exact (session_ok_push _ s2 (outs fs) d Hs2).
Qed.

(** The stream a WindowUpdate is about, with its credit added. *)
Lemma credit_window_ok s f (fresh : bool) :
  session_ok s → is_closed s = false → stream_id_ok (stream_id f) → 0 ≤ value f →
  (if fresh
   then streams s !! stream_id f = None ∧ local_id (role s) (stream_id f) = false ∧
        Z.of_nat (size (streams s)) < max_streams (config s)
   else is_Some (streams s !! stream_id f)) →
  wp (credit_window fresh f)
    (λ _ s', ∃ s0 st w, session_ok s0 ∧ ctl s0 = ctl s ∧
       streams s0 !! stream_id f = Some st ∧ 0 ≤ w ≤ u32_max ∧
       s' = {| s0 with streams := <[stream_id f := {| st with send_window := w |}]> (streams s0) |})
    (λ _ s', ctl s' = ctl s) s.
Proof.
  intros Hs Hopen Hid Hv Hgo. unfold credit_window. destruct fresh.
  - destruct Hgo as (Hn & Hl & Hsz). wp_step. apply wp_lift.
    unfold checked_add. destruct (Z.leb_spec (DEFAULT_RECEIVE_WINDOW + value f) u32_max);
      cbn [ok_or]; [|done].
    eapply wp_mono; [apply insert_inbound_ok; try done|..|done].
    { unfold DEFAULT_RECEIVE_WINDOW in *. lia. }
    intros _ s2 (Hs2 & Hctl2 & st & Hst). pose proof Hs2 as [_ Htr _ _ _ _].
    destruct (Htr _ _ Hst) as [[[] _] _ _ _ _].
    exists s2, st, (send_window st). split_and!; try done; try lia.
    rewrite insert_id by (rewrite Hst; by destruct st). by destruct s2.
  - destruct Hgo as (st & Hst). pose proof Hs as [_ Htr _ _ _ _].
    destruct (Htr _ _ Hst) as [[[] _] _ _ _ _].
    eapply wp_with_stream; [done|]. wp_step. apply wp_reads.
    unfold checked_add. destruct (Z.leb_spec (send_window st + value f) u32_max);
      cbn [ok_or]; [|done].
    wp_step. exists s, st, (send_window st + value f). split_and!; try done; lia.
Qed.

Lemma on_window_update_ok s f :
  session_ok s → is_closed s = false → frame_ok f → frame_type f = TWindowUpdate →
  wp (on_window_update f) (λ _ s', session_ok s' ∧ ctl s' = ctl s) (λ _ s', ctl s' = ctl s) s.
Proof.
  intros Hs Hopen Hf Ht. unfold on_window_update.
  pose proof (frame_stream_id f Hf ltac:(by right)) as Hid.
  destruct Hf as (_ & _ & _ & Hv & _).
  wp_step. eapply wp_mono; [by apply on_stream_frame_ok| |by intros ? ? ->].
  intros go s1 (Hctl & Hgo). destruct go as [fresh|]; [|by wp_step].
  wp_step. eapply wp_mono.
  { apply (credit_window_ok s1 f fresh); destruct fresh, Hgo as [-> ?]; done || lia. }
  2:{ intros ? ? ->. done. }
  intros _ s2 (s0 & st & w & Hs0 & Hctl0 & Hst & Hw & ->). rewrite Hctl in Hctl0.
  wp_step. eapply wp_with_stream; [apply lookup_insert_eq|]. wp_step.
  cbn [streams]. rewrite insert_insert_eq.
  match goal with |- wp _ _ _ ?S => match S with context [if ?b then ?x else ?y] =>
    assert (∃ ak, (if b then x else y) = {| st with send_window := w; acknowledged := ak |})
      as (ak & ->) end end.
  { destruct (_ && _); [by eexists|]. exists (acknowledged st). by destruct st. }
  wp_step. eapply (wp_mono _ _ _ (λ _ _, False));
    [exact (flush_buffered_ok s0 (stream_id f) st w ak Hs0 Hst Hw)| |done].
  intros _ s4 (Hs4 & Hctl4). rewrite Hctl0 in Hctl4. wp_step. wp_step.
  case_bool_decide as Halive; cbn [negb]; [|by wp_step].
  destruct Halive as [st4 Hst4]. pose proof Hs4 as [_ Htr4 _ _ Hcap4 _].
  destruct (Htr4 _ _ Hst4) as [Hok4 Hh4 _ _ _].
  wp_step. eapply wp_with_stream; [done|].
  eapply (wp_mono _ _ _ (λ _ _, False)); [by apply (wp_fin_block (config s4))| |done].
  intros r st5 (Hok5 & Hst5 & ->).
  assert (closing (stream_id f) st5 s
    {| s4 with streams := <[stream_id f:=st5]> (streams s4) |}) as Hs5.
  { split_and!; [|apply lookup_insert_eq|exact Hctl4].
    refine (session_ok_update None s4 _ st4 st5 (total_buffered_send s4) Hs4 Hst4 Hok5 _ _ Hcap4 _);
      [by rewrite Hst5|rewrite Hst5; cbn; lia|by left]. }
  wp_step. eapply wp_mono; [by apply wp_closing_push| |intros ? ? H; exact H].
  intros ? s6 Hs6. cbn in Hs6. eapply wp_closing_end; [done|apply andb_comm].
Qed.

Lemma process_frame_ok s f :
  session_ok s → is_closed s = false → frame_ok f →
  wp (process_frame f)
    (λ _ s', session_ok s' ∧ decoder s' = decoder s ∧
       (remote_go_away s' = true ∨ is_closed s' = false))
    (λ _ s', ctl s' = ctl s) s.
Proof.
  intros Hs Hopen Hf.
  assert (∀ s', session_ok s' ∧ ctl s' = ctl s →
    session_ok s' ∧ decoder s' = decoder s ∧
    (remote_go_away s' = true ∨ is_closed s' = false)) as Hctl.
  { unfold ctl, is_closed in *. intros s' [Hs' [= _ _ Hd _ Hfl Hlg Hrg _]].
    split_and!; [done|done|]. right. by rewrite Hfl, Hlg, Hrg. }
  unfold process_frame. destruct (frame_type f) eqn:Ht.
  - eapply wp_mono; [by apply on_data_ok|auto|done].
  - eapply wp_mono; [by apply on_window_update_ok|auto|done].
  - unfold on_ping. wp_step; [|by wp_step; auto].
    destruct Hf as (_ & _ & _ & Hv & _).
    wp_step. apply wp_lift. destruct (Frame_ping_ok FLAG_ACK (value f)) as [-> _];
      [by right|done|]. apply wp_queue_frame. apply Hctl. split; [|done].
    by apply session_ok_push.
  - wp_step. wp_step. wp_step. apply wp_push_pending. unfold close_all_streams. wp_step.
    split_and!; [|done|by left]. apply session_ok_shut; try done.
    destruct Hs as [[] _ _ _ _ _]. by split.
Qed.

Lemma wp_catch {A} (m : Y A) h (Q : A → YamuxSession → Prop) X s :
  wp m Q (λ e s', wp (h e) Q X s') s → wp (catch m h) Q X s.
Proof. unfold wp, catch. by destruct (m s) as [? []]. Qed.

Lemma session_ok_decoder s d :
  session_ok s → decoder_ok d → max_frame_len d = max_frame_len (decoder s) →
  session_ok {| s with decoder := d |}.
Proof.
  intros [[] Hst ? ? ? ?] Hd Hm. split; cbn; try done.
  - split; cbn; try done. congruence.
  - intros j st Hj. by destruct (Hst j st Hj).
Qed.

(** [breaks e s mid]: reading frames from [s], some are processed until one is
    malformed or refused with [e]; [mid] is the session at that moment. *)
Inductive breaks (e : YamuxError) : YamuxSession → YamuxSession → Prop :=
  | breaks_decode s :
      next_frame (decoder s) = (decoder s, Err e) → breaks e s s
  | breaks_frame s f d mid :
      next_frame (decoder s) = (d, Ok (Some f)) →
      process_frame f {| s with decoder := d |} = (mid, Err e) → breaks e s mid
  | breaks_later s f d s2 mid :
      next_frame (decoder s) = (d, Ok (Some f)) →
      process_frame f {| s with decoder := d |} = (s2, Ok tt) →
      breaks e {| s2 with dirty := true |} mid → breaks e s mid.

(** A session that has failed closed: no stream is left, and the outputs are a
    protocol-error GoAway followed by the end of every stream that was open. *)
Definition failed_closed (e : YamuxError) (s s' : YamuxSession) : Prop :=
  session_ok s' ∧ failed s' = true ∧ streams s' = ∅ ∧
  ∃ mid, breaks e s mid ∧
    pending s' = outs [Frame_go_away 1] ++ (StreamClosed <$> btree_keys (streams mid)).

Lemma fail_protocol_closed {A} s mid e (Q : A → YamuxSession → Prop) :
  base_ok mid → breaks e s mid → wp (fail_protocol e) Q (λ e' s', failed_closed e' s s') mid.
Proof.
  intros Hb Hbr. eapply wp_mono; [by apply fail_protocol_ok|done|].
  intros e' s' (-> & Hs & Hf & He & Hp). split_and!; try done. by exists mid.
Qed.

Lemma wp_next_frame s (Q : option Frame → YamuxSession → Prop) X :
  decoder_ok (decoder s) →
  (∀ e, next_frame (decoder s) = (decoder s, Err e) → X e s) → Q None s →
  (∀ f d, next_frame (decoder s) = (d, Ok (Some f)) →
    fits (max_frame_len (decoder s)) f → decoder_ok d →
    max_frame_len d = max_frame_len (decoder s) →
    unread (decoder s) = encode f ++ unread d →
    Q (Some f) {| s with decoder := d |}) →
  wp (zoom decoder (λ d s, {| s with decoder := d |}) next_frame) Q X s.
Proof.
  intros Hd HX HN HS. apply wp_zoom. pose proof (next_frame_parse _ Hd) as Hp.
  assert ({| s with decoder := decoder s |} = s) as Heta by (by destruct s).
  unfold wp. destruct (parse_frame _ _) as [[[f rest]|]|e| |] eqn:Hpf; cbn in Hp; try done.
  - apply parse_frame_sound in Hpf as [Hf Hu].
    destruct (next_frame (decoder s)) as [d r]. cbn in Hp.
    destruct Hp as (-> & <- & Hd' & Hm & _). by apply HS.
  - rewrite Hp. by rewrite Heta.
  - rewrite Hp. rewrite Heta. by apply HX.
Qed.

Lemma handle_data_loop_ok fuel s :
  session_ok s → is_closed s = false → (length (unread (decoder s)) < fuel)%nat →
  wp (handle_data_loop fuel) (λ _ s', session_ok s') (λ e s', failed_closed e s s') s.
Proof.
  revert s. induction fuel as [|fuel IH]; intros s Hs Hopen Hfuel; [lia|].
  pose proof Hs as [Hbase _ _ _ _ _]. cbn [handle_data_loop].
  wp_step. apply wp_catch, wp_next_frame.
  { by destruct Hbase. }
  { intros e Hn. apply fail_protocol_closed; [done|by apply breaks_decode]. }
  { by wp_step. }
  intros f d Hn [Hf _] Hd Hm Hu.
  assert (session_ok {| s with decoder := d |}) as Hs1 by (by apply session_ok_decoder).
  wp_step. apply wp_catch.
  eapply wp_mono; [by apply wp_run, process_frame_ok| |].
  2:{ intros e s' [Hpf Hctl]. apply fail_protocol_closed; [|exact (breaks_frame e s f d s' Hn Hpf)].
      eapply base_ok_ctl; [exact Hctl|]. exact (se_base _ _ Hs1). }
  intros [] s2 [Hpf (Hs2 & Hd2 & Hgone)]. wp_step. wp_step. wp_step. wp_step.
  cbn [remote_go_away].
  set (s3 := {| s2 with dirty := true |}).
  assert (session_ok s3) as Hs3.
  { exact (session_ok_outputs None s2 (pending s2) true (last_activity_ms s2) Hs2). }
  wp_step.
  - wp_step. refine (session_ok_decoder s3 _ Hs3 _ _); [by unfold decoder_ok|done].
  - eapply wp_mono; [apply IH; [done| |]|done|].
    3:{ intros e s' (? & ? & ? & mid & Hbr & ?). split_and!; try done. exists mid.
        split; [|done]. unfold s3 in Hbr. rewrite <- Heqb in Hbr.
        exact (breaks_later e s f d s2 mid Hn Hpf Hbr). }
    + destruct Hgone as [|Hg]; [congruence|]. unfold is_closed in *. rewrite Heqb in Hg. exact Hg.
    + change (decoder s3) with (decoder s2). rewrite Hd2. cbn [decoder].
      rewrite Hu, length_app, length_encode in Hfuel. lia.
Qed.

Lemma handle_data_ok s bs :
  session_ok s → zlen (buffer (decoder s)) + zlen bs ≤ usize_max →
  wp (handle_data bs) (λ _ s', session_ok s')
    (λ e s', is_closed s = true ∧ s' = s ∨
       failed_closed e {| s with decoder := push bs (decoder s) |} s') s.
Proof.
  intros Hs Hlen. unfold handle_data. wp_step. wp_step. wp_step.
  { wp_step. left. by unfold is_closed; rewrite Heqb. }
  wp_step. wp_step. wp_step.
  { wp_step. left. unfold is_closed. by rewrite <- orb_assoc, Heqb0, orb_true_r. }
  wp_step. wp_step. wp_step. wp_step.
  destruct (push_unread bs (decoder s)) as [Hd Hu]; [by destruct Hs as [[]]|done|].
  eapply wp_mono; [apply handle_data_loop_ok| |].
  - by apply session_ok_decoder.
  - change (is_closed s = false). unfold is_closed. by rewrite <- orb_assoc, Heqb, Heqb0.
  - cbn [decoder]. lia.
  - done.
  - intros e s' Hf. right. by rewrite <- Heqb.
Qed.

(** ** Outputs *)

Lemma find_deferred_Some s id :
  find_deferred s = Some id →
  ∃ st, streams s !! id = Some st ∧ has_deferred_control st = true.
Proof.
  intros [_ Hd]%List.find_some. destruct (streams s !! id) as [st|]; [by eauto|done].
Qed.

Lemma find_deferred_None s :
  find_deferred s = None ↔ ∀ id st, streams s !! id = Some st → has_deferred_control st = false.
Proof.
  split.
  - intros Hn id st Hst.
    assert (In id (btree_keys (streams s))) as Hin
      by (apply list_elem_of_In, elem_of_btree_keys; eauto).
    pose proof (List.find_none _ _ Hn id Hin) as Hf. cbn in Hf. by rewrite Hst in Hf.
  - intros Hall. destruct (find_deferred s) as [id|] eqn:Hf; [|done].
    apply find_deferred_Some in Hf as (st & Hst & Hd). by rewrite (Hall id st Hst) in Hd.
Qed.

Lemma is_idle_iff s :
  is_idle s = true ↔ pending s = [] ∧ find_deferred s = None.
Proof.
  unfold is_idle. rewrite andb_true_iff, bool_decide_eq_true, find_deferred_None, forallb_forall.
  split; intros [Hp Hall]; (split; [done|]).
  - intros id st Hst. apply negb_true_iff, Hall. apply list_elem_of_In, list_elem_of_fmap.
    exists (id, st). split; [done|]. by apply elem_of_map_to_list.
  - intros st Hin. apply list_elem_of_In, list_elem_of_fmap in Hin as ([id st'] & -> & Hin).
    apply elem_of_map_to_list in Hin. apply negb_true_iff. by eapply Hall.
Qed.

Definition deferred_weight (st : StreamState) : Z :=
  if has_deferred_control st then 1 else 0.

Lemma deferred_count_nonneg s : 0 ≤ map_sum deferred_weight (streams s).
Proof. apply map_sum_nonneg. intros ? st _. unfold deferred_weight. by destruct (has_deferred_control st). Qed.

(** Outputs queued, plus one for each stream that still owes a control frame. *)
Definition yamux_backlog (s : YamuxSession) : nat :=
  length (pending s) + Z.to_nat (map_sum deferred_weight (streams s)).

Lemma materialize_ok s id st :
  session_ok s → find_deferred s = Some id → streams s !! id = Some st →
  ∃ d, materialize_deferred_control s =
    ({| s with streams := <[id := materialized st]> (streams s); dirty := d;
        pending := pending s ++ outs [mkFrame TWindowUpdate (open_flag st) id (pending_credit st) []] |},
     Ok tt).
Proof.
  intros Hs Hf Hst. destruct Hs as [[Hc _ _ _ _] Htr _ _ _ _].
  destruct (Htr id st Hst) as [Hok _ Hid _ _].
  destruct (wp_ok_run _ _ _ (wp_materialize_block (config s) id st Hc Hok Hid))
    as (f & st' & Hrun & -> & _ & ->).
  exists true. unfold materialize_deferred_control, mbind, M_bind, gets. rewrite Hf.
  unfold with_stream. rewrite Hst, Hrun. done.
Qed.

Lemma session_ok_materialized s id st :
  session_ok s → streams s !! id = Some st →
  session_ok {| s with streams := <[id := materialized st]> (streams s) |}.
Proof.
  intros Hs Hst. pose proof Hs as [[Hc _ _ _ _] Htr _ _ Hcap _].
  destruct (Htr id st Hst) as [Hok Hh Hid _ _].
  destruct (materialized_ok (config s) st Hok) as (Hok' & _ & Hb & Hlo & Hlc & Hrc).
  eapply session_ok_half; [|apply lookup_insert_eq|].
  - refine (session_ok_update None s id st _ (total_buffered_send s) Hs Hst Hok' Hlo _ Hcap _);
      [lia|by left].
  - unfold half_open. rewrite Hlc, Hrc. by apply Hh.
Qed.

Lemma deferred_count_materialized s id st :
  session_ok s → streams s !! id = Some st → has_deferred_control st = true →
  map_sum deferred_weight (<[id := materialized st]> (streams s)) =
    map_sum deferred_weight (streams s) - 1 ∧ 1 ≤ map_sum deferred_weight (streams s).
Proof.
  intros [_ Htr _ _ _ _] Hst Hd. destruct (Htr id st Hst) as [Hok _ _ _ _].
  destruct (materialized_ok (config s) st Hok) as (_ & Hm & _).
  pose proof (map_sum_update deferred_weight _ id st (materialized st) Hst) as Hu.
  pose proof (map_sum_delete deferred_weight _ id st Hst) as Hdel.
  assert (0 ≤ map_sum deferred_weight (delete id (streams s))).
  { apply map_sum_nonneg. intros ? x _. unfold deferred_weight. by destruct (has_deferred_control x). }
  assert (deferred_weight st = 1) as Hw by (unfold deferred_weight; by rewrite Hd).
  assert (deferred_weight (materialized st) = 0) as Hw' by (unfold deferred_weight; by rewrite Hm).
  lia.
Qed.

Lemma poll_output_step s :
  session_ok s →
  ∃ o s', poll_output s = (s', Ok o) ∧ session_ok s' ∧
    match o with
    | Some _ => is_idle s = false ∧ (yamux_backlog s' < yamux_backlog s)%nat
    | None => is_idle s = true ∧ s' = s
    end.
Proof.
  intros Hs. unfold poll_output, mbind, M_bind, pop_pending, yamux_backlog.
  pose proof (deferred_count_nonneg s).
  destruct (pending s) as [|o rest] eqn:Hp.
  2:{ exists (Some o), {| s with pending := rest |}. split_and!; [done| | |cbn; lia].
      - exact (session_ok_outputs None s rest (dirty s) (last_activity_ms s) Hs).
      - unfold is_idle. by rewrite Hp. }
  unfold gets. destruct (find_deferred s) as [id|] eqn:Hf.
  - destruct (find_deferred_Some s id Hf) as (st & Hst & Hd).
    assert (negb (failed s) && negb (local_go_away s) && negb (remote_go_away s) = true) as ->.
    { destruct Hs as [_ _ _ _ _ Hcl]. unfold is_closed in Hcl.
      destruct (failed s), (local_go_away s), (remote_go_away s); try done;
        (rewrite Hcl in Hst by done; by rewrite lookup_empty in Hst). }
    cbn beta iota. destruct (materialize_ok s id st Hs Hf Hst) as (d & ->). rewrite Hp.
    eexists _, _. split; [done|]. split_and!.
    + refine (session_ok_outputs None {| s with streams := <[id := materialized st]> (streams s) |}
               [] d (last_activity_ms s) _). by apply session_ok_materialized.
    + apply not_true_iff_false. rewrite is_idle_iff, Hf. by intros [].
    + pose proof (deferred_count_materialized s id st Hs Hst Hd). cbn. lia.
  - exists None, s. assert (materialize_deferred_control s = (s, Ok tt)) as Hm.
    { unfold materialize_deferred_control, mbind, M_bind, gets. by rewrite Hf. }
    split_and!; [|done|by apply is_idle_iff|done].
    destruct (negb (failed s) && negb (local_go_away s) && negb (remote_go_away s));
      [rewrite Hm|cbn]; by rewrite Hp.
Qed.
