(* ===== verification/Yamux.v ===== *)
(** What the Yamux session promises its owner: the session as a protocol
    machine, the runs it can take, and the properties of those runs. *)

From S2P Require Import Prelude Deadline YamuxFrame YamuxSession YamuxStream YamuxInvariant SansIo.

(** ** Runs *)

(** Every method of the session that changes it. *)
Inductive Op :=
  | OpOpen
  | OpSend (stream : Z) (data : bytes)
  | OpCloseWrite (stream : Z)
  | OpReset (stream : Z)
  | OpGoAway (code : Z)
  | OpPoll (now : Now)
  | OpData (data : bytes)
  | OpOutput.

Definition run_op (op : Op) : Y unit :=
  match op with
  | OpOpen => _ ← open_stream; mret tt
  | OpSend stream data => send stream data
  | OpCloseWrite stream => close_write stream
  | OpReset stream => reset stream
  | OpGoAway code => go_away code
  | OpPoll now => poll now
  | OpData data => handle_data data
  | OpOutput => _ ← YamuxSession.poll_output; mret tt
  end.

(** What a caller can offer: a received chunk fits the address space together
    with what the decoder still holds. *)
Definition admissible (s : YamuxSession) (op : Op) : Prop :=
  match op with
  | OpData data => zlen (buffer (decoder s)) + zlen data ≤ usize_max
  | _ => True
  end.

(** A configuration is a value of its Rust type: [u32] and [usize] fields. *)
Definition config_typed (c : YamuxConfig) : Prop :=
  0 ≤ cfg_receive_window c ≤ u32_max ∧ 0 ≤ cfg_max_frame_len c ≤ u32_max ∧
  0 ≤ max_streams c ≤ usize_max ∧ 0 ≤ max_buffered_send c ≤ usize_max ∧
  0 ≤ max_total_buffered_send c ≤ usize_max.

Inductive reachable (r : YamuxRole) (c : YamuxConfig) : YamuxSession → Prop :=
  | reach_start s : with_config r c = Ok s → reachable r c s
  | reach_step s op : reachable r c s → admissible s op → reachable r c (run_op op s).1.

Lemma with_config_ok r c s : config_typed c → with_config r c = Ok s → session_ok s.
Proof.
  unfold with_config, config_typed. intros Ht.
  destruct (Z.ltb_spec (cfg_receive_window c) DEFAULT_RECEIVE_WINDOW); [done|].
  destruct (Z.eqb_spec (cfg_max_frame_len c) 0); [done|].
  intros [= <-]. apply session_ok_new. unfold config_ok. lia.
Qed.

Lemma run_op_ok s op :
  session_ok s → admissible s op →
  wp (run_op op) (λ _ s', session_ok s') (λ _ s', session_ok s') s.
Proof.
  intros Hs Ha. destruct op; cbn [run_op admissible] in *.
  - wp_step. eapply wp_mono; [by apply open_stream_ok| |by intros ? ? ->].
    intros ? ? []. by wp_step.
  - eapply wp_mono; [by apply send_ok|by intros ? ? []|by intros ? ? [-> _]].
  - eapply wp_mono; [by apply close_write_ok|done|by intros ? ? ->].
  - eapply wp_mono; [by apply reset_ok|by intros ? ? []|by intros ? ? ->].
  - eapply wp_mono; [by apply go_away_ok|by intros ? ? []|done].
  - eapply wp_mono; [by apply poll_ok|done|by intros ? ? ->].
  - eapply wp_mono; [by apply handle_data_ok|done|].
    intros ? ? [[_ ->]|[]]; done.
  - wp_step. destruct (poll_output_step s Hs) as (o & s' & Hp & Hs' & _).
    unfold wp. rewrite Hp. done.
Qed.

Lemma wp_final {S E A} (m : M S E A) (I : S → Prop) s :
  wp m (λ _, I) (λ _, I) s → I (m s).1.
Proof. unfold wp. by destruct (m s) as [? []]. Qed.

Lemma reachable_ok r c s : config_typed c → reachable r c s → session_ok s.
Proof.
  intros Ht. induction 1 as [s Hs|s op Hr IH Ha]; [by eapply with_config_ok|].
  apply wp_final. by apply run_op_ok.
Qed.

(** What a run never takes back. *)
Definition next_le (a b : option Z) : Prop :=
  match a, b with
  | Some n, Some m => n ≤ m
  | None, Some _ => False
  | _, None => True
  end.

Definition ratchet (s s' : YamuxSession) : Prop :=
  role s' = role s ∧ config s' = config s ∧
  (is_closed s = true → is_closed s' = true) ∧
  next_le (next_stream_id s) (next_stream_id s').

#[global] Instance ratchet_preorder : PreOrder ratchet.
Proof.
  split.
  - intros s. split_and!; try done. by destruct (next_stream_id s) eqn:E; cbn; rewrite ?E.
  - intros s1 s2 s3 (Hr & Hc & H12 & N12) (Hr' & Hc' & H23 & N23).
    split_and!; [congruence|congruence|auto|].
    destruct (next_stream_id s1), (next_stream_id s2), (next_stream_id s3); cbn in *; lia || done.
Qed.

(** A step that leaves these four alone. *)
Lemma ratchet_same s s' :
  role s' = role s → config s' = config s → next_stream_id s' = next_stream_id s →
  (is_closed s = true → is_closed s' = true) → ratchet s s'.
Proof.
  intros Hr Hc Hn Hcl. split_and!; try done. rewrite Hn. by destruct (next_stream_id s) as [n|]; cbn.
Qed.

Ltac ratchet_done :=
  apply ratchet_same; [reflexivity..|];
  first [exact (λ H, H) | intros _; unfold is_closed; cbn; rewrite ?orb_true_r; reflexivity].

Lemma moves_with_stream {A} (miss : res YamuxError A) id m : moves ratchet (with_stream miss id m).
Proof.
  intros s. unfold with_stream. destruct (streams s !! id) as [st|]; [|done].
  destruct (m st). by ratchet_done.
Qed.

Lemma moves_queue_frames fs : moves ratchet (queue_frames fs).
Proof.
  induction fs as [|f fs IH]; cbn [queue_frames]; unfold queue_frame; moves_steps; ratchet_done.
Qed.

Lemma moves_remove_stream id emit : moves ratchet (remove_stream id emit).
Proof.
  intros s. unfold remove_stream. destruct (streams s !! id) as [st|]; [|done].
  match goal with |- ratchet _ (?m _).1 => enough (moves ratchet m) as Hm by apply Hm end.
  unfold push_pending. moves_steps; ratchet_done.
Qed.

Lemma moves_fail_protocol {A} e : moves ratchet (fail_protocol (A := A) e).
Proof. unfold fail_protocol, queue_frame. moves_steps; ratchet_done. Qed.

Lemma moves_ensure_active : moves ratchet ensure_active.
Proof. apply moves_stay; [apply _|]. intros s. unfold ensure_active. by repeat case_match. Qed.

Lemma moves_pop : moves ratchet pop_pending.
Proof. intros s. unfold pop_pending. destruct (pending s); [done|ratchet_done]. Qed.

Lemma moves_catch {A} (m : Y A) h :
  moves ratchet m → (∀ e, moves ratchet (h e)) → moves ratchet (catch m h).
Proof.
  intros Hm Hh s. unfold catch. specialize (Hm s). destruct (m s) as [s' [a|e| |]]; try done.
  cbn in Hm. etrans; [done|apply Hh].
Qed.

#[global] Hint Resolve moves_with_stream moves_queue_frames moves_remove_stream
  moves_fail_protocol moves_ensure_active moves_pop : moves.

Lemma moves_stream_frame id fl : moves ratchet (on_stream_frame id fl).
Proof. unfold on_stream_frame, queue_reset_for_unknown, queue_frame. moves_steps; ratchet_done. Qed.

Lemma moves_insert_inbound id w : moves ratchet (insert_inbound id w).
Proof. unfold insert_inbound, push_pending. moves_steps; ratchet_done. Qed.

#[global] Hint Resolve moves_stream_frame moves_insert_inbound : moves.

Lemma moves_on_data f : moves ratchet (on_data f).
Proof. unfold on_data, push_pending. moves_steps; ratchet_done. Qed.

Lemma moves_flush id : moves ratchet (flush_buffered id).
Proof. unfold flush_buffered. moves_steps; ratchet_done. Qed.

#[global] Hint Resolve moves_on_data moves_flush : moves.

Lemma moves_on_window_update f : moves ratchet (on_window_update f).
Proof. unfold on_window_update, credit_window, push_pending. moves_steps; ratchet_done. Qed.

Lemma moves_on_ping f : moves ratchet (on_ping f).
Proof. unfold on_ping, queue_frame. moves_steps; ratchet_done. Qed.

#[global] Hint Resolve moves_on_window_update moves_on_ping : moves.

Lemma moves_process_frame f : moves ratchet (process_frame f).
Proof. unfold process_frame, push_pending, close_all_streams. moves_steps; ratchet_done. Qed.

Lemma moves_handle_data_loop fuel : moves ratchet (handle_data_loop fuel).
Proof.
  induction fuel as [|fuel IH]; cbn [handle_data_loop]; moves_steps; try ratchet_done.
  - apply moves_catch; [|auto with moves]. apply moves_zoom. intros; ratchet_done.
  - apply moves_catch; [|auto with moves]. apply moves_process_frame.
Qed.

Lemma moves_open_stream : moves ratchet open_stream.
Proof.
  unfold open_stream. apply moves_bind; [apply _|auto with moves|intros _].
  apply moves_bind; [apply _|by apply moves_stay; [apply _|]|intros full].
  destruct full; [by apply moves_stay; [apply _|]|]. intros s.
  unfold mbind, M_bind, reads, modify, mret, M_ret. 
  destruct (next_stream_id s) as [n|] eqn:Hn; [|done]. cbn [ok_or config].
  assert (ratchet s {| s with next_stream_id := checked_add u32_max n 2 |}) as Hr.
  { split_and!; try done. cbn. rewrite Hn. unfold checked_add. destruct (_ <=? _); cbn; [lia|done]. }
  destruct (StreamState_outbound (config s)) as [st|e| |]; try exact Hr.
Qed.

#[global] Hint Resolve moves_open_stream moves_handle_data_loop : moves.

Lemma moves_run_op op : moves ratchet (run_op op).
Proof.
  destruct op; cbn [run_op].
  - moves_steps.
  - unfold send. moves_steps; ratchet_done.
  - unfold close_write, queue_frame. moves_steps; ratchet_done.
  - unfold reset, queue_frame, push_pending. moves_steps; ratchet_done.
  - unfold go_away, queue_frame, close_all_streams. moves_steps; ratchet_done.
  - unfold poll, queue_frame. moves_steps; ratchet_done.
  - unfold handle_data. moves_steps; ratchet_done.
  - unfold YamuxSession.poll_output, materialize_deferred_control, queue_frame.
    moves_steps; ratchet_done.
Qed.

(** ** Delivery *)

(** The frame continues a stream: it neither opens, resets nor ends it. *)
Definition mid_stream (f : Frame) : Prop :=
  Z.land (flags f) FLAG_RST = 0 ∧ Z.land (flags f) FLAG_SYN = 0 ∧ Z.land (flags f) FLAG_FIN = 0.

(** What the receiver reports for them: each payload that is not empty. *)
Definition delivered (id : Z) (fs : list Frame) : list YamuxOutput :=
  fs ≫= λ f, if bool_decide (payload f = []) then [] else [DataReceived id (payload f)].

Lemma on_stream_frame_known s id fl :
  is_Some (streams s !! id) → Z.land fl FLAG_RST = 0 → Z.land fl FLAG_SYN = 0 →
  on_stream_frame id fl s = (s, Ok (Some false)).
Proof.
  intros Hk Hr Hs. unfold on_stream_frame, mbind, M_bind, gets. rewrite Hr, Hs. cbn.
  by rewrite bool_decide_true.
Qed.

Lemma on_data_mid s f st :
  session_ok s → is_closed s = false → frame_ok f → frame_type f = TData →
  streams s !! stream_id f = Some st → mid_stream f →
  value f ≤ receive_window st → remote_write_closed st = false →
  ∃ s' st', on_data f s = (s', Ok tt) ∧ session_ok s' ∧ ctl s' = ctl s ∧
    streams s' !! stream_id f = Some st' ∧ received st (value f) false st' ∧
    pending s' = pending s ++ delivered (stream_id f) [f].
Proof.
  intros Hs Hopen Hf Ht Hst (Hrst & Hsyn & Hfin) Hfit Hrc.
  pose proof (on_data_ok s f Hs Hopen Hf Ht) as Hinv. unfold wp in Hinv. revert Hinv.
  unfold on_data, mbind, M_bind. rewrite on_stream_frame_known by eauto.
  cbn. unfold with_stream. rewrite Hst.
  pose proof Hs as [[Hc _ _ _ _] Htr _ _ _ _]. destruct (Htr _ _ Hst) as [Hok Hh _ _ _].
  pose proof (wp_data_block (config s) (stream_id f) f st Hc Hok Hf Ht) as Hw. unfold wp in Hw.
  destruct (data_block _ _ _ _) as [st' [r|e| |]]; [| |done|done].
  2:{ rewrite Hrc in Hw. destruct Hw as [(_ & ? & _)|(_ & ?)]; [done|lia]. }
  assert (fin_flag f = false) as Hff by (unfold fin_flag; by rewrite Hfin).
  destruct Hw as (_ & Hrec & _ & _ & ->). pose proof Hrec as (_ & Hrc' & _).
  rewrite Hff in *. rewrite Hrc, Hrc' in *. cbn [andb orb negb].
  unfold delivered. cbn [mbind list_bind].
  case_bool_decide as Hp; unfold push_pending, modify; cbn; intros [Hs' Hctl'];
    eexists _, st'; (split; [reflexivity|]); split_and!; try done;
    try (cbn; apply lookup_insert_eq); cbn; by rewrite ?app_nil_r.
Qed.

Lemma handle_data_loop_mid fs : ∀ fuel s st id,
  session_ok s → is_closed s = false → streams s !! id = Some st →
  Forall (data_frame id (cfg_max_frame_len (config s))) fs → Forall mid_stream fs →
  unread (decoder s) = concat (encode <$> fs) → (length (unread (decoder s)) < fuel)%nat →
  zlen (concat (payload <$> fs)) ≤ receive_window st → remote_write_closed st = false →
  ∃ s' st', handle_data_loop fuel s = (s', Ok tt) ∧ session_ok s' ∧
    streams s' !! id = Some st' ∧
    receive_window st' = receive_window st - zlen (concat (payload <$> fs)) ∧
    pending s' = pending s ++ delivered id fs.
Proof.
  induction fs as [|f fs IH]; intros fuel s st id Hs Hopen Hst Hfs Hmid Hu Hfuel Hfit Hrc;
    (destruct fuel as [|fuel]; [lia|]); cbn [handle_data_loop];
    pose proof Hs as [[_ _ _ Hd Hmax] _ _ _ _ _];
    pose proof (next_frame_parse _ Hd) as Hp; rewrite Hmax, Hu in Hp;
    unfold mbind, M_bind, catch, zoom.
  - cbn in Hp. rewrite Hp. exists s, st. unfold delivered. cbn. rewrite app_nil_r, zlen_nil.
    split_and!; try done; [by destruct s|lia].
  - apply Forall_cons in Hfs as [(Hf & Ht & <- & Hv) Hfs]. apply Forall_cons in Hmid as [Hm Hmid].
    pose proof Hf as (_ & _ & _ & Hv0 & Hpl).
    rewrite fmap_cons, concat_cons, parse_frame_encode in Hp by (split; [done|rewrite Ht; done || lia]).
    destruct (next_frame (decoder s)) as [d r]. cbn in Hp. destruct Hp as (-> & Hu' & Hd' & Hm' & _).
    set (s1 := {| s with decoder := d |}).
    assert (session_ok s1) as Hs1 by (by apply session_ok_decoder; [..|congruence]).
    assert (zlen (payload f) = value f) as Hlen. { by rewrite Ht in Hpl. }
    rewrite fmap_cons, concat_cons, zlen_app in Hfit.
    destruct (on_data_mid s1 f st) as (s2 & st2 & Hrun & Hs2 & Hctl & Hst2 & Hrec & Hpend);
      try done; [pose proof (zlen_nonneg (concat (payload <$> fs))); lia|].
    unfold process_frame. rewrite Ht, Hrun. unfold modify, gets. cbn [decoder remote_go_away].
    assert (is_closed s2 = false ∧ decoder s2 = d ∧ config s2 = config s ∧ remote_go_away s2 = false)
      as (Hop2 & Hdec & Hcfg & Hrg).
    { unfold ctl in Hctl. injection Hctl as _ Hc2 Hd2 _ E1 E2 E3 _. unfold is_closed in *.
      rewrite E1, E2, E3, Hd2, Hc2. split_and!; try done.
      by destruct (failed s), (local_go_away s), (remote_go_away s). }
    rewrite Hrg. cbn [decoder]. destruct Hrec as (Hrw & Hrc2 & _). rewrite Hrc in Hrc2.
    destruct (IH fuel {| s2 with dirty := true |} st2 (stream_id f)) as
      (s3 & st3 & Hrun3 & Hs3 & Hst3 & Hrw3 & Hp3); cbn [decoder config streams]; try done.
    { exact (session_ok_outputs None s2 (pending s2) true (last_activity_ms s2) Hs2). }
    { by rewrite Hcfg. } { by rewrite Hdec. }
    { rewrite Hdec, Hu'. rewrite Hu, fmap_cons, concat_cons, length_app, length_encode in Hfuel. lia. }
    { lia. }
    exists s3, st3. split_and!; try done.
    + by rewrite <- Hrun3, Hrg.
    + rewrite fmap_cons, concat_cons, zlen_app. lia.
    + rewrite Hp3. cbn [pending]. rewrite Hpend. cbn [s1 pending]. rewrite <- app_assoc. f_equal.
      unfold delivered. by rewrite <- bind_app.
Qed.

Lemma handle_data_mid s id st fs :
  session_ok s → is_closed s = false → streams s !! id = Some st →
  unread (decoder s) = [] → zlen (buffer (decoder s)) + zlen (concat (encode <$> fs)) ≤ usize_max →
  Forall (data_frame id (cfg_max_frame_len (config s))) fs → Forall mid_stream fs →
  zlen (concat (payload <$> fs)) ≤ receive_window st → remote_write_closed st = false →
  ∃ s' st', handle_data (concat (encode <$> fs)) s = (s', Ok tt) ∧
    streams s' !! id = Some st' ∧
    receive_window st' = receive_window st - zlen (concat (payload <$> fs)) ∧
    pending s' = pending s ++ delivered id fs.
Proof.
  intros Hs Hopen Hst Hu Hfit Hfs Hmid Hwin Hrc.
  pose proof Hs as [[_ _ _ Hd Hmax] _ _ _ _ _].
  destruct (push_unread (concat (encode <$> fs)) (decoder s) Hd Hfit) as [Hd' Hu'].
  rewrite Hu in Hu'. set (s1 := {| s with decoder := push (concat (encode <$> fs)) (decoder s) |}).
  assert (session_ok s1) as Hs1 by (by apply session_ok_decoder).
  destruct (handle_data_loop_mid fs (S (length (unread (decoder s1)))) s1 st id)
    as (s' & st' & Hrun & _ & Hst' & Hrw & Hp); try done; [lia|].
  exists s', st'. split_and!; try done.
  unfold handle_data, mbind, M_bind, gets. unfold is_closed in Hopen.
  apply orb_false_iff in Hopen as [[-> ->]%orb_false_iff ->]. exact Hrun.
Qed.

(** Data frames that carry at most the acknowledgement are mid-stream. *)
Lemma flags_mid st fs :
  pending_open st ≠ Some Syn → flags_from (open_flag st) fs → Forall mid_stream fs.
Proof.
  intros Hsyn Hfl. destruct fs as [|f fs]; [done|]. destruct Hfl as [Hf Hfs]. constructor.
  - unfold mid_stream. rewrite Hf. unfold open_flag. by destruct (pending_open st) as [[]|].
  - eapply Forall_impl; [done|]. intros g Hg. unfold mid_stream. by rewrite Hg.
Qed.

Lemma delivered_chunks id fs :
  ∃ chunks, delivered id fs = DataReceived id <$> chunks ∧
    concat chunks = concat (payload <$> fs).
Proof.
  induction fs as [|f fs (chunks & Hd & Hc)]; [by exists []|]. unfold delivered in *. cbn.
  case_bool_decide as Hp; cbn; rewrite Hd.
  - exists chunks. rewrite Hc, Hp. done.
  - exists (payload f :: chunks). by rewrite <- Hc.
Qed.

(** ** Credit *)

(** What a stream's queue turns into when the remote grants credit. *)
Definition flush_done (id : Z) (st1 : StreamState) (s s' : YamuxSession) : Prop :=
  ∃ fs n closed st2, flush_result (config s) id st1 (fs, n, closed) st2 ∧
    closed = local_write_closed st2 && remote_write_closed st2 ∧
    pending s' = pending s ++ outs fs ++ (if closed then [StreamClosed id] else []) ∧
    streams s' = if closed then delete id (streams s) else <[id := st2]> (streams s).

Lemma flush_buffered_run s id st w ak :
  session_ok s → streams s !! id = Some st → 0 ≤ w ≤ u32_max →
  wp (flush_buffered id) (λ _ s', flush_done id {| st with send_window := w; acknowledged := ak |} s s')
    (λ _ _, False)
    {| s with streams := <[id := {| st with send_window := w; acknowledged := ak |}]> (streams s) |}.
Proof.
  intros Hs Hst Hw. pose proof (total_bounds _ _ _ _ Hs Hst) as Hb.
  pose proof Hs as [[Hc _ _ _ _] Htr _ _ Hcap _].
  destruct (Htr id st Hst) as [[Hok _] Hh Hid Hlo Hbel].
  set (st1 := {| st with send_window := w; acknowledged := ak |}).
  unfold flush_buffered. wp_step. wp_step. cbn [config]. wp_step.
  eapply wp_with_stream; [apply lookup_insert_eq|].
  eapply wp_mono; [apply wp_flush_block; [done| |by apply Hh|done]| |done].
  { destruct Hok. by split. }
  intros [[fs n] full] st2 (Hres & _ & Hok2 & Hn & Hb2 & Hlo2 & Hfull). cbn [fst snd] in *.
  wp_step. apply wp_reads. unfold sub_or_panic. cbn [total_buffered_send].
  change (buffered_send st1) with (buffered_send st) in *.
  rewrite checked_sub_Some by lia. cbn [expect]. wp_step. wp_step. wp_step.
  apply wp_queue_frames. intros d. cbn [streams pending]. rewrite insert_insert_eq.
  assert (∀ s', pending s' = pending s ++ outs fs ++ (if full then [StreamClosed id] else []) →
    streams s' = (if full then delete id (streams s) else <[id := st2]> (streams s)) →
    flush_done id st1 s s') as Hdone by (intros; by exists fs, n, full, st2).
  destruct full; [|wp_step; by apply Hdone; cbn; rewrite ?app_nil_r].
  eapply wp_remove_stream; [|apply lookup_insert_eq|].
  - refine (session_ok_push (Some id) {| s with streams := <[id:=st2]> (streams s);
      total_buffered_send := total_buffered_send s - n |} (outs fs) d _).
    eapply (session_ok_update None); [done|done|done|done|lia|lia|by left].
  - apply Hdone; cbn; [by rewrite <- app_assoc|apply delete_insert_eq].
Qed.

Lemma on_window_update_mid s f st :
  session_ok s → is_closed s = false → frame_ok f → frame_type f = TWindowUpdate →
  streams s !! stream_id f = Some st → mid_stream f → send_window st + value f ≤ u32_max →
  ∃ ak s', on_window_update f s = (s', Ok tt) ∧
    flush_done (stream_id f) {| st with send_window := send_window st + value f;
                                acknowledged := ak |} s s'.
Proof.
  intros Hs Hopen Hf Ht Hst (Hr & Hsy & Hfin) Hw. destruct Hf as (_ & _ & _ & Hv & _).
  pose proof Hs as [_ Htr _ _ _ _]. destruct (Htr _ _ Hst) as [[[] _] _ _ _ _].
  unfold on_window_update, mbind, M_bind. rewrite on_stream_frame_known by eauto.
  unfold credit_window, with_stream. rewrite Hst.
  unfold mbind, M_bind, reads, modify. rewrite checked_add_Some by lia. cbn [ok_or streams].
  rewrite lookup_insert_eq. cbn [locally_opened streams]. rewrite insert_insert_eq.
  match goal with |- context [if ?b then ?x else ?y] =>
    lazymatch type of x with StreamState => idtac end;
    assert (∃ ak, (if b then x else y) = {| st with send_window := send_window st + value f;
      acknowledged := ak |}) as (ak & ->) end.
  { destruct (_ && _); [by eexists|]. exists (acknowledged st). by destruct st. }
  exists ak. destruct (wp_ok_run _ _ _ (flush_buffered_run s (stream_id f) st
    (send_window st + value f) ak Hs Hst ltac:(lia))) as ([] & s' & Hrun & Hd).
  cbn. rewrite Hrun.
  destruct Hd as (fs & n & closed & st2 & Hres & Hcl & Hp & Hstr). rewrite Hstr.
  destruct closed.
  - rewrite lookup_delete_eq. cbn. exists s'. split; [done|]. by exists fs, n, true, st2.
  - unfold fin_block, mbind, M_bind, gets, modify. rewrite Hfin. cbn.
    rewrite lookup_insert_eq. cbn. rewrite Hstr, lookup_insert_eq. rewrite andb_comm, <- Hcl.
    eexists. split; [done|]. exists fs, n, false, st2. cbn. by rewrite insert_insert_eq.
Qed.

(** ** The session as a protocol machine *)

#[global] Instance yamux_protocol : SansIoProtocol YamuxSession YamuxInput YamuxOutput YamuxError := {|
  SansIo.handle_input := YamuxSession.handle_input;
  SansIo.poll_output := YamuxSession.poll_output;
  SansIo.is_idle := YamuxSession.is_idle;
|}.

Definition input_fits (s : YamuxSession) (data : bytes) : Prop :=
  zlen (buffer (decoder s)) + zlen data ≤ usize_max.

Definition yamux_admissible (s : YamuxSession) (input : YamuxInput) : Prop :=
  match input with Data data => input_fits s data end.

#[global] Program Instance yamux_contract :
    SansIoContract (P := YamuxSession) (Input := YamuxInput) session_ok yamux_admissible := {|
  backlog := yamux_backlog;
|}.
Next Obligation.
  intros s [data] Hs Hfit. eapply wp_mono; [by apply handle_data_ok|done|].
  intros ? ? [[_ ->]|[]]; done.
Qed.
Next Obligation. exact poll_output_step. Qed.

(** ** Properties *)

(** C1: from every session [with_config] returns, through every sequence of
    opens, sends, closes, resets, GoAways, keepalive polls, received chunks and
    output polls, the session invariant holds, and no such operation panics or
    loops: each returns [Ok] or [Err] and leaves the invariant intact. *)
Theorem yamux_runs_are_safe r c s :
  config_typed c → reachable r c s →
  session_ok s ∧
  ∀ op, admissible s op →
    ∃ s' o, run_op op s = (s', o) ∧ (o = Ok tt ∨ ∃ e, o = Err e) ∧ session_ok s'.
Proof.
  intros Ht Hr. pose proof (reachable_ok r c s Ht Hr) as Hs. split; [done|]. intros op Ha.
  pose proof (run_op_ok s op Hs Ha) as Hw. unfold wp in Hw.
  destruct (run_op op s) as [s' [[]|e| |]]; naive_solver.
Qed.

(** A [send] either splits the data into a front that leaves at once, in
    order, in frames no longer than the configured maximum and within the
    remote's window (the opening flag on the first one), and a rest that joins
    the back of the stream's queue; or it reports the exact reason for refusing
    and changes nothing. *)
Theorem send_splits_or_refuses r c s id data :
  config_typed c → reachable r c s →
  match send id data s with
  | (s', Ok _) => send_done id data s s'
  | (s', Err e) => s' = s ∧ send_refused id data s e
  | _ => False
  end.
Proof.
  intros Ht Hr. pose proof (send_ok s id data (reachable_ok r c s Ht Hr)) as Hw. unfold wp in Hw.
  by destruct (send id data s) as [s' [a|e| |]]; [destruct Hw|..].
Qed.

(** A caller operation that returns an error has changed nothing: no
    stream, no queued output, no counter. *)
Theorem caller_errors_change_nothing r c s op s' e :
  config_typed c → reachable r c s → run_op op s = (s', Err e) →
  (∀ data, op ≠ OpData data) → s' = s.
Proof.
  intros Ht Hr Hrun Hop. pose proof (reachable_ok r c s Ht Hr) as Hs.
  assert (wp (run_op op) (λ _ _, True) (λ _ s', s' = s) s) as Hw; [|unfold wp in Hw; by rewrite Hrun in Hw].
  destruct op as [|id data|id|id|code|now|data|]; cbn [run_op]; [..|by destruct (Hop data)|].
  - wp_step. eapply wp_mono; [by apply open_stream_ok|done|by intros ? ? ->].
  - eapply wp_mono; [by apply send_ok|done|by intros ? ? [-> _]].
  - eapply wp_mono; [by apply close_write_ok|done|by intros ? ? ->].
  - eapply wp_mono; [by apply reset_ok|done|by intros ? ? ->].
  - eapply wp_mono; [by apply go_away_ok|done|done].
  - eapply wp_mono; [by apply poll_ok|done|by intros ? ? ->].
  - wp_step. destruct (poll_output_step s Hs) as (o & s1 & Hp & _). unfold wp. by rewrite Hp.
Qed.

(** C28: bytes from the remote that break the protocol close the session for
    good, at the first offending frame: the frames before it are processed as
    usual and lead to a session [mid]; then every stream of [mid] is dropped,
    what had been queued is replaced by one GoAway(1) followed by a
    [StreamClosed] for each of those streams in ascending order, and the session
    is marked failed. *)
Theorem handle_data_fails_closed r c s data s' e :
  config_typed c → reachable r c s → input_fits s data → is_closed s = false →
  handle_data data s = (s', Err e) →
  failed s' = true ∧ streams s' = ∅ ∧
  ∃ mid, breaks e {| s with decoder := push data (decoder s) |} mid ∧
    pending s' = Outbound (encode (Frame_go_away 1)) ::
      (StreamClosed <$> btree_keys (streams mid)).
Proof.
  intros Ht Hr Hfit Hopen Hrun.
  pose proof (handle_data_ok s data (reachable_ok r c s Ht Hr) Hfit) as Hw.
  unfold wp in Hw. rewrite Hrun in Hw. destruct Hw as [[? _]|(_ & Hf & He & Hids)]; [congruence|].
  by split_and!.
Qed.

(** C38: polling for outputs terminates: from every reachable session, as many
    polls as there are queued outputs and streams owing a control frame empty
    it, and it is then idle; a poll finds something exactly when the session is
    not idle. *)
Theorem yamux_drains r c s :
  config_typed c → reachable r c s →
  ∃ os s', drain (S (yamux_backlog s)) s = (s', Ok os) ∧ session_ok s' ∧
    YamuxSession.is_idle s' = true ∧ (length os ≤ yamux_backlog s)%nat ∧
    (os = [] ↔ YamuxSession.is_idle s = true).
Proof.
  intros Ht Hr. exact (drain_spec session_ok yamux_admissible _ s (reachable_ok r c s Ht Hr)
    (Nat.lt_succ_diag_r _)).
Qed.

(** Stream identifiers are never reused: whatever happens between two
    successful [open_stream] calls, the second identifier is greater than the
    first; each has the parity of the session's role and names no stream the
    session already holds. *)
Theorem stream_ids_never_reused r c s1 s1' id1 s2 s2' id2 :
  config_typed c → reachable r c s1 → open_stream s1 = (s1', Ok id1) →
  rtc (λ a b, ∃ op, b = (run_op op a).1) s1' s2 → session_ok s2 →
  open_stream s2 = (s2', Ok id2) →
  id1 < id2 ∧ local_id (role s1) id1 = true ∧ local_id (role s1) id2 = true ∧
  streams s2 !! id2 = None.
Proof.
  intros Ht Hr H1 Hsteps Hs2 H2.
  pose proof (open_stream_ok s1 (reachable_ok r c s1 Ht Hr)) as W1.
  pose proof (open_stream_ok s2 Hs2) as W2. unfold wp in W1, W2. rewrite H1 in W1. rewrite H2 in W2.
  destruct W1 as (Hs1' & _ & Hl1 & [st Hst] & Hn1). destruct W2 as (_ & Hnew & Hl2 & _ & Hn2).
  assert (ratchet s1' s2) as (Hrole & _ & _ & Hle).
  { clear -Hsteps. induction Hsteps as [|a b d (op & ->) _ IH]; [done|].
    etrans; [apply moves_run_op|done]. }
  pose proof (moves_open_stream s1) as (Hrole1 & _ & _ & _). rewrite H1 in Hrole1. cbn in Hrole1.
  rewrite Hn2 in Hle. rewrite <- Hrole1, <- Hrole. split_and!; try done; [|congruence].
  destruct Hs1' as [_ Htr _ _ _ _]. destruct (Htr id1 st Hst) as [_ _ _ _ Hbel].
  unfold below_next in Hbel. destruct (next_stream_id s1') as [n|]; [|done]. cbn in Hle.
  rewrite Hrole1 in Hbel. specialize (Hbel Hl1). lia.
Qed.

(** A session that has failed, said GoAway or received one stays closed:
    no later operation reopens it, it holds no stream, and every operation that
    needs a live session is refused. *)
Theorem closed_sessions_stay_closed r c s :
  config_typed c → reachable r c s → is_closed s = true →
  streams s = ∅ ∧ (∀ op, is_closed (run_op op s).1 = true) ∧
  ∀ op, match op with
        | OpGoAway _ | OpOutput => True
        | _ => run_op op s = (s, Err (if failed s then Failed else SessionClosed))
        end.
Proof.
  intros Ht Hr Hc. pose proof (reachable_ok r c s Ht Hr) as [_ _ _ _ _ Hcl]. split_and!.
  - auto.
  - intros op. destruct (moves_run_op op s) as (_ & _ & H & _). auto.
  - intros op. unfold is_closed in Hc. rewrite <- orb_assoc in Hc.
    assert (ensure_active s = (s, Err (if failed s then Failed else SessionClosed))) as He.
    { unfold ensure_active. destruct (failed s); [done|]. cbn in Hc. by rewrite Hc. }
    destruct op; cbn [run_op]; try done;
      unfold open_stream, send, close_write, reset, poll, handle_data, mbind, M_bind, gets;
      rewrite ?He; try done.
    destruct (failed s); [done|]. cbn in Hc. by rewrite Hc.
Qed.

(** Keepalive. On a live session on which nothing happened since its last
    activity, [poll] does nothing until [next_deadline] has expired, and from
    then on queues exactly one ping, with the next nonce, and restarts the
    clock. After activity it only restarts the clock. *)
Theorem poll_keepalive s now :
  session_ok s → is_closed s = false → now_ok now →
  match last_activity_ms s with
  | Some last =>
      0 ≤ last ≤ u64_max → dirty s = false →
      ∃ deadline, next_deadline s = Some deadline ∧
      if is_expired_at deadline now
      then ∃ s', poll now s = (s', Ok tt) ∧
        pending s' = pending s ++
          [Outbound (encode (mkFrame TPing FLAG_SYN 0 (next_ping_nonce s) []))] ∧
        streams s' = streams s ∧ last_activity_ms s' = Some (monotonic_ms now) ∧ dirty s' = false
      else poll now s = (s, Ok tt)
  | None => True
  end ∧
  (dirty s = true ∨ last_activity_ms s = None →
   poll now s = ({| s with last_activity_ms := Some (monotonic_ms now); dirty := false |}, Ok tt)).
Proof.
  intros Hs Hopen Hnow. pose proof Hs as [[_ _ Hnonce _ _] _ _ _ _ _].
  assert (ensure_active s = (s, Ok tt)) as He.
  { unfold ensure_active, is_closed in *. destruct (failed s); [done|]. cbn in Hopen. by rewrite Hopen. }
  unfold poll, mbind, M_bind. rewrite He. cbn. split.
  - destruct (last_activity_ms s) as [last|] eqn:Hl; [|done]. intros Hr Hd. rewrite Hd. cbn.
    unfold reads. rewrite Hl. cbn.
    unfold next_deadline. unfold is_closed in Hopen. rewrite Hopen, Hl. cbn.
    set (d := from_millis _). exists d. split; [done|].
    assert (as_millis d = Z.min u64_max (last + KEEPALIVE_INTERVAL_MS)) as Hdm by done.
    assert (is_expired_at d now = true ↔ as_millis d ≤ monotonic_ms now) as Hx.
    { apply expired_iff; [|done]. unfold deadline_ok, KEEPALIVE_INTERVAL_MS in *. lia. }
    unfold now_ok, MAX_MONOTONIC_MS, saturating_sub, KEEPALIVE_INTERVAL_MS in *.
    destruct (is_expired_at d now).
    + destruct (Z.leb_spec 30000 (Z.max 0 (monotonic_ms now - last))) as [|Hlt];
        [|pose proof (proj1 Hx eq_refl); lia].
      unfold gets, modify. cbn. destruct (Frame_ping_ok FLAG_SYN (next_ping_nonce s)) as [-> _];
        [by left|done|]. cbn. by eexists.
    + destruct (Z.leb_spec 30000 (Z.max 0 (monotonic_ms now - last))); [|done].
      exfalso. assert (false = true) by (apply Hx; lia). done.
  - intros Hd. assert (dirty s || negb (bool_decide (is_Some (last_activity_ms s))) = true) as ->.
    { destruct Hd as [-> | ->]; [done|apply orb_true_r]. }
    unfold reads. cbn. unfold saturating_sub. rewrite Z.sub_diag. done.
Qed.

(** C22: bytes written on one end arrive at the other in order. An accepted
    [send] on an announced stream queues frames that carry exactly as much of
    the data as the remote has granted credit for, from its start, and keeps the
    rest behind what it already holds for the stream. Those frames, handed to
    the other session (open, at a frame boundary, with a decoder that takes
    frames of that size and a receive window no smaller than the credit), are
    accepted and reported as [DataReceived] chunks that concatenate to exactly
    that part of the data; the receiver's window shrinks by its length. *)
Theorem transfer_in_order a a' b id data sta stb :
  session_ok a → send id data a = (a', Ok tt) →
  streams a !! id = Some sta → pending_open sta ≠ Some Syn →
  session_ok b → is_closed b = false → streams b !! id = Some stb →
  remote_write_closed stb = false → unread (decoder b) = [] →
  cfg_max_frame_len (config a) ≤ cfg_max_frame_len (config b) →
  send_window sta ≤ receive_window stb →
  let credit := Z.to_nat (send_window sta) in
  ∃ fs sta', pending a' = pending a ++ outs fs ∧ concat (payload <$> fs) = take credit data ∧
    streams a' !! id = Some sta' ∧ concat (send_buffer sta') = concat (send_buffer sta) ++ drop credit data ∧
    (input_fits b (concat (encode <$> fs)) →
     ∃ b' stb' chunks, handle_data (concat (encode <$> fs)) b = (b', Ok tt) ∧
       pending b' = pending b ++ (DataReceived id <$> chunks) ∧
       concat chunks = take credit data ∧
       streams b' !! id = Some stb' ∧
       receive_window stb' = receive_window stb - zlen (take credit data)).
Proof.
  intros Ha Hsend Hsta Hsyn Hb Hopen Hstb Hrc Hun Hmax Hwin credit.
  pose proof (send_ok a id data Ha) as Hw. unfold wp in Hw. rewrite Hsend in Hw.
  destruct Hw as [Ha' (st & [fs n] & st' & Hst & Hsent & Hsts & Hpend & _)]. cbn [fst] in *.
  assert (st = sta) as -> by congruence.
  destruct Hsent as (now & later & -> & Hfs & Hfl & Hcat & _ & Hsw & Hz & Hbuf & _). cbn [fst] in *.
  assert (streams a' !! id = Some st') as Hl by (rewrite Hsts; apply lookup_insert_eq).
  assert (0 ≤ send_window st') as Hpos.
  { destruct Ha' as [_ Htr _ _ _ _]. destruct (Htr id st' Hl) as [[[? ? ? ? ? ? ? ? ? ?] _] _ _ _ _]. lia. }
  assert (take credit (now ++ later) = now ∧ drop credit (now ++ later) = later) as [-> ->].
  { unfold credit. destruct (decide (later = [])) as [->|Hne].
    - rewrite app_nil_r, take_ge, drop_ge by (unfold zlen in *; lia). done.
    - specialize (Hz Hne). rewrite take_app_length', drop_app_length' by (unfold zlen in *; lia). done. }
  exists fs, st'. split_and!; [done|done|done| |].
  { rewrite Hbuf, concat_app. f_equal. case_bool_decide as He; [by rewrite He|]. cbn. by rewrite app_nil_r. }
  intros Hfit. assert (Forall mid_stream fs) as Hmid by (by eapply flags_mid).
  destruct (handle_data_mid b id stb fs) as (b' & stb' & Hrun & Hst' & Hrw & Hp); try done.
  { apply (Forall_impl _ _ _ Hfs). intros f (Hf & Ht & Hi & Hv). by split_and!; [..|lia]. }
  { rewrite Hcat. lia. }
  destruct (delivered_chunks id fs) as (chunks & Hd & Hc).
  exists b', stb', chunks. rewrite Hc, <- Hd, Hcat in *. by split_and!.
Qed.

(** Credit is spent in order. A window update on a known stream releases
    the queued bytes from the front, in frames within the new window and the
    frame limit; what is left is exactly the rest of the queue, and bytes stay
    queued only when the window is used up. A close that waited for the queue is
    sent once it is empty, and a stream closed on both sides is dropped. *)
Theorem window_update_releases_queue r c s f st :
  config_typed c → reachable r c s → is_closed s = false →
  frame_ok f → frame_type f = TWindowUpdate →
  streams s !! stream_id f = Some st → mid_stream f → send_window st + value f ≤ u32_max →
  ∃ ak s', process_frame f s = (s', Ok tt) ∧
    flush_done (stream_id f) {| st with send_window := send_window st + value f;
                                acknowledged := ak |} s s'.
Proof.
  intros Ht Hr Hopen Hf Hty Hst Hm Hw. unfold process_frame. rewrite Hty.
  apply on_window_update_mid; try done. exact (reachable_ok r c s Ht Hr).
Qed.

(** ** The properties at work *)

(** A client that has opened stream 1 and written to it, and the server that
    has received what it wrote. *)
Definition demo_client : YamuxSession :=
  (run_op (OpSend 1 (str "hello")) (run_op OpOpen (session_new Client)).1).1.
Definition demo_wire : bytes := encode (mkFrame TData FLAG_SYN 1 5 (str "hello")).
Definition demo_server : YamuxSession := (run_op (OpData demo_wire) (session_new Server)).1.
Definition demo_stream (s : YamuxSession) : StreamState :=
  default (mkStream false None false 0 0 0 0 [] 0 false false false) (streams s !! 1).

Lemma default_typed : config_typed YamuxConfig_default.
Proof. split_and!; by vm_compute. Qed.

Lemma demo_client_reachable : reachable Client YamuxConfig_default demo_client.
Proof.
  apply (reach_step _ _ _ (OpSend _ _)); [|done]. apply (reach_step _ _ _ OpOpen); [|done].
  by apply reach_start.
Qed.

Lemma demo_server_reachable : reachable Server YamuxConfig_default demo_server.
Proof. apply (reach_step _ _ _ (OpData _)); [by apply reach_start|by vm_compute]. Qed.

Lemma yamux_runs_are_safe_witness :
  ∃ s' o, run_op (OpCloseWrite 1) demo_client = (s', o) ∧ (o = Ok tt ∨ ∃ e, o = Err e) ∧
    session_ok s'.
Proof.
  destruct (yamux_runs_are_safe Client YamuxConfig_default demo_client default_typed
    demo_client_reachable) as [_ H]. exact (H (OpCloseWrite 1) I).
Defined.

Lemma send_splits_or_refuses_witness :
  match send 1 (str " world") demo_client with
  | (s', Ok _) => send_done 1 (str " world") demo_client s'
  | (s', Err e) => s' = demo_client ∧ send_refused 1 (str " world") demo_client e
  | _ => False
  end.
Proof.
  exact (send_splits_or_refuses Client YamuxConfig_default demo_client 1 (str " world")
    default_typed demo_client_reachable).
Defined.

Lemma caller_errors_change_nothing_witness :
  (run_op (OpReset 3) demo_client).1 = demo_client.
Proof.
  apply (caller_errors_change_nothing Client YamuxConfig_default demo_client (OpReset 3) _
    (UnknownStream 3) default_typed demo_client_reachable); [vm_compute; reflexivity|done].
Defined.

Lemma handle_data_fails_closed_witness :
  failed (handle_data (replicate 12 Byte.x01) demo_client).1 = true.
Proof.
  apply (handle_data_fails_closed Client YamuxConfig_default demo_client (replicate 12 Byte.x01) _
    (UnsupportedVersion 1) default_typed demo_client_reachable);
    [by vm_compute|done|vm_compute; reflexivity].
Defined.

Lemma yamux_drains_witness :
  ∃ os s', drain (S (yamux_backlog demo_client)) demo_client = (s', Ok os) ∧ session_ok s' ∧
    YamuxSession.is_idle s' = true ∧ (length os ≤ yamux_backlog demo_client)%nat ∧
    (os = [] ↔ YamuxSession.is_idle demo_client = true).
Proof.
  exact (yamux_drains Client YamuxConfig_default demo_client default_typed demo_client_reachable).
Defined.

Lemma stream_ids_never_reused_witness : (1 < 3)%Z ∧ streams demo_client !! 3 = None.
Proof.
  assert (reachable Client YamuxConfig_default (session_new Client)) as Hr by (by apply reach_start).
  destruct (stream_ids_never_reused Client YamuxConfig_default (session_new Client)
    (open_stream (session_new Client)).1 1 demo_client (open_stream demo_client).1 3
    default_typed Hr) as (H & _ & _ & Hn); [vm_compute; reflexivity| | |vm_compute; reflexivity|done].
  - apply rtc_once. by exists (OpSend 1 (str "hello")).
  - exact (reachable_ok _ _ _ default_typed demo_client_reachable).
Defined.

Lemma closed_sessions_stay_closed_witness :
  send 1 [] (go_away 0 demo_client).1 = ((go_away 0 demo_client).1, Err SessionClosed).
Proof.
  destruct (closed_sessions_stay_closed Client YamuxConfig_default (go_away 0 demo_client).1
    default_typed) as (_ & _ & H); [|done|exact (H (OpSend 1 []))].
  exact (reach_step _ _ _ (OpGoAway 0) demo_client_reachable I).
Defined.

Lemma poll_keepalive_witness :
  let s := (poll (Now_from_millis 1000) (session_new Client)).1 in
  ∃ s', poll (Now_from_millis 40000) s = (s', Ok tt) ∧
    pending s' = pending s ++ [Outbound (encode (mkFrame TPing FLAG_SYN 0 1 []))].
Proof.
  assert (session_ok (poll (Now_from_millis 1000) (session_new Client)).1) as Hs.
  { apply (reachable_ok Client YamuxConfig_default); [exact default_typed|].
    apply (reach_step _ _ _ (OpPoll (Now_from_millis 1000))); [by apply reach_start|done]. }
  destruct (poll_keepalive (poll (Now_from_millis 1000) (session_new Client)).1
    (Now_from_millis 40000) Hs) as [H _]; [done|by vm_compute|].
  destruct H as (deadline & [= <-] & H); [by vm_compute|done|].
  destruct H as (s' & Hrun & Hp & _). by exists s'.
Defined.

Lemma transfer_in_order_witness :
  let credit := Z.to_nat (send_window (demo_stream demo_client)) in
  ∃ fs sta', pending (send 1 (str " world") demo_client).1 = pending demo_client ++ outs fs ∧
    concat (payload <$> fs) = take credit (str " world") ∧
    streams (send 1 (str " world") demo_client).1 !! 1 = Some sta' ∧
    concat (send_buffer sta') = concat (send_buffer (demo_stream demo_client)) ++ drop credit (str " world") ∧
    (input_fits demo_server (concat (encode <$> fs)) →
     ∃ b' stb' chunks, handle_data (concat (encode <$> fs)) demo_server = (b', Ok tt) ∧
       pending b' = pending demo_server ++ (DataReceived 1 <$> chunks) ∧
       concat chunks = take credit (str " world") ∧
       streams b' !! 1 = Some stb' ∧
       receive_window stb' = receive_window (demo_stream demo_server) - zlen (take credit (str " world"))).
Proof.
  apply (transfer_in_order demo_client _ demo_server 1 (str " world") (demo_stream demo_client)).
  - exact (reachable_ok _ _ _ default_typed demo_client_reachable).
  - vm_compute. reflexivity.
  - vm_compute. reflexivity.
  - done.
  - exact (reachable_ok _ _ _ default_typed demo_server_reachable).
  - done.
  - vm_compute. reflexivity.
  - done.
  - vm_compute. reflexivity.
  - done.
  - vm_compute. done.
Defined.

Lemma window_update_releases_queue_witness :
  ∃ ak s', process_frame (mkFrame TWindowUpdate 0 1 100 []) demo_client = (s', Ok tt) ∧
    flush_done 1 {| (demo_stream demo_client) with
      send_window := send_window (demo_stream demo_client) + 100; acknowledged := ak |}
      demo_client s'.
Proof.
  apply (window_update_releases_queue Client YamuxConfig_default demo_client
    (mkFrame TWindowUpdate 0 1 100 []) (demo_stream demo_client) default_typed
    demo_client_reachable); try (vm_compute; reflexivity).
  - split_and!; by vm_compute.
  - by split_and!.
  - by vm_compute.
Defined.
