(* ===== verification/Multistream.v ===== *)
(** Protocol negotiation, from [crates/multistream-select/src/lib.rs]: the
    message codec, the dialer and listener machines, and the exchange of a
    dialer with a listener. *)

From Stdlib Require Import Strings.Byte.
From S2P Require Import Prelude Varint Text Frame SansIo.

Definition MULTISTREAM_PROTOCOL_ID : bytes := str "/multistream/1.0.0".
Definition NOT_AVAILABLE : bytes := str "na".
Definition MAX_MESSAGE_LEN : Z := 1024.

Inductive MultistreamOutput :=
  | OutboundData (data : bytes)
  | Negotiated (protocol : bytes)
  | NotAvailable
  | ProtocolError (reason : bytes).

Inductive MultistreamInput := Start | Data (data : bytes).

Inductive MultistreamError :=
  | MessageTooLong (len : Z)
  | InvalidVarint (e : VarintError)
  | NonUtf8
  | MissingNewline
  | EmptyProtocol
  | UnexpectedHeader (actual : bytes)
  | UnexpectedProtocolResponse (actual : bytes).

(** The [#[error(..)]] texts. *)
Definition MultistreamError_display (e : MultistreamError) : bytes :=
  match e with
  | MessageTooLong len =>
      str "message exceeds maximum length (" ++ dec len ++ str " > " ++ dec MAX_MESSAGE_LEN ++ str ")"
  | InvalidVarint e => str "invalid varint in message frame: " ++ VarintError_display e
  | NonUtf8 => str "non-utf8 message payload"
  | MissingNewline => str "message missing trailing newline"
  | EmptyProtocol => str "empty protocol line"
  | UnexpectedHeader actual => str "unexpected multistream header: " ++ actual
  | UnexpectedProtocolResponse actual => str "unexpected protocol response: " ++ actual
  end.

Inductive Role := Dialer | Listener.

Inductive State :=
  | WaitingForRemoteHeader
  | WaitingForProtocolRequest
  | WaitingForProtocolResponse
  | Done.

#[global] Instance State_eq_dec : EqDecision State.
Proof. solve_decision. Defined.

Record MultistreamSelect := mkSelect {
  role : Role;
  state : State;
  desired_protocol : option bytes;
  supported_protocols : gset bytes;
  recv_buf : bytes;
  started : bool;
  pending_outputs : list MultistreamOutput;
}.

Definition dialer (desired : bytes) : MultistreamSelect :=
  mkSelect Dialer WaitingForRemoteHeader (Some desired) ∅ [] false [].

Definition listener (protocols : list bytes) : MultistreamSelect :=
  mkSelect Listener WaitingForRemoteHeader None (list_to_set protocols) [] false [].

(** ** Messages *)

Definition encode_message (protocol : bytes) : bytes :=
  write_uvarint (zlen protocol + 1) [] ++ protocol ++ [x0a].

#[global] Arguments encode_message : simpl never.
#[global] Arguments MULTISTREAM_PROTOCOL_ID : simpl never.
#[global] Arguments NOT_AVAILABLE : simpl never.

Inductive DecodeResult :=
  | DComplete (payload : bytes) (consumed : Z)
  | DIncomplete
  | DError (e : MultistreamError).

(** [slice.split_last()]. *)
Definition split_last {A} (l : list A) : option (A * list A) :=
  match last l with Some x => Some (x, removelast l) | None => None end.

Definition decode_message (buf : bytes) : DecodeResult :=
  match buf with
  | [] => DIncomplete
  | _ =>
      match read_uvarint buf with
      | Err BufferTooShort => DIncomplete
      | Err e => DError (InvalidVarint e)
      | Panic | Diverge => DIncomplete
      | Ok (msg_len, varint_bytes) =>
          if usize_max <? msg_len then DError (InvalidVarint Overflow)
          else if MAX_MESSAGE_LEN <? msg_len then DError (MessageTooLong msg_len)
          else
            let total := varint_bytes + msg_len in
            if zlen buf <? total then DIncomplete
            else
              match slice buf varint_bytes total with
              | None => DIncomplete
              | Some msg_bytes =>
                  match split_last msg_bytes with
                  | Some (x0a, payload) =>
                      if negb (utf8_valid payload) then DError NonUtf8
                      else if bool_decide (payload = []) then DError EmptyProtocol
                      else DComplete payload total
                  | _ => DError MissingNewline
                  end
              end
      end
  end.

(** ** The machine *)

Definition protocol_error (e : MultistreamError) : State * list MultistreamOutput :=
  (Done, [ProtocolError (MultistreamError_display e)]).

Definition handle_message (role : Role) (state : State) (desired : option bytes)
    (supported : gset bytes) (line : bytes)
    : res MultistreamError (State * list MultistreamOutput) :=
  match state with
  | WaitingForRemoteHeader =>
      if negb (bool_decide (line = MULTISTREAM_PROTOCOL_ID))
      then mret (protocol_error (UnexpectedHeader line))
      else
        match role with
        | Dialer =>
            desired ← expect desired;
            mret (WaitingForProtocolResponse, [OutboundData (encode_message desired)])
        | Listener => mret (WaitingForProtocolRequest, [])
        end
  | WaitingForProtocolRequest =>
      if bool_decide (line ∈ supported)
      then mret (Done, [OutboundData (encode_message line); Negotiated line])
      else mret (WaitingForProtocolRequest,
                 [OutboundData (encode_message NOT_AVAILABLE); NotAvailable])
  | WaitingForProtocolResponse =>
      desired ← expect desired;
      if bool_decide (line = desired) then mret (Done, [Negotiated desired])
      else if bool_decide (line = NOT_AVAILABLE) then mret (Done, [NotAvailable])
      else mret (protocol_error (UnexpectedProtocolResponse line))
  | Done => mret (Done, [])
  end.

Abbreviation MS := (M MultistreamSelect MultistreamError).

Definition start : MS (list MultistreamOutput) :=
  already ← gets started;
  if already : bool then mret []
  else
    _ ← modify (λ s, {| s with started := true |});
    mret [OutboundData (encode_message MULTISTREAM_PROTOCOL_ID)].

Definition take_remaining_buffer : MS bytes :=
  buf ← gets recv_buf;
  _ ← modify (λ s, {| s with recv_buf := [] |});
  mret buf.

(** The [loop] of [receive]. *)
Fixpoint receive_loop (fuel : nat) (outputs : list MultistreamOutput)
    : MS (list MultistreamOutput) :=
  st ← gets state;
  if bool_decide (st = Done) then mret outputs
  else
    r ← gets (λ s, decode_message (recv_buf s));
    match r with
    | DIncomplete => mret outputs
    | DError err =>
        _ ← modify (λ s, {| s with state := Done |});
        mret (outputs ++ [ProtocolError (MultistreamError_display err)])
    | DComplete payload consumed =>
        match fuel with
        | O => lift Diverge
        | S fuel =>
            '(next_state, produced) ← reads (λ s,
              handle_message (role s) (state s) (desired_protocol s) (supported_protocols s) payload);
            buf ← reads (λ s, drain_front (recv_buf s) consumed);
            _ ← modify (λ s, {| s with recv_buf := buf; state := next_state |});
            receive_loop fuel (outputs ++ produced)
        end
    end.

(** Every message takes at least one byte of the buffer. *)
Definition receive (bs : bytes) : MS (list MultistreamOutput) :=
  st ← gets state;
  if bool_decide (st = Done) then mret []
  else
    _ ← modify (λ s, {| s with recv_buf := recv_buf s ++ bs |});
    fuel ← gets (λ s, length (recv_buf s));
    receive_loop fuel [].

Definition handle_input (input : MultistreamInput) : MS unit :=
  outputs ← match input with
            | Start => start
            | Data data => receive data
            end;
  modify (λ s, {| s with pending_outputs := pending_outputs s ++ outputs |}).

Definition poll_output : MS (option MultistreamOutput) := λ s,
  match pending_outputs s with
  | [] => (s, Ok None)
  | o :: rest => ({| s with pending_outputs := rest |}, Ok (Some o))
  end.

Definition is_idle (s : MultistreamSelect) : bool := bool_decide (pending_outputs s = []).

Example multistream_demo :
  let run : MS (list (option MultistreamOutput)) :=
    _ ← handle_input Start;
    _ ← handle_input (Data (encode_message MULTISTREAM_PROTOCOL_ID ++ encode_message (str "/x/1")));
    a ← poll_output; b ← poll_output; c ← poll_output; d ← poll_output;
    mret [a; b; c; d] in
  snd (run (listener [str "/x/1"])) =
    Ok [Some (OutboundData (encode_message MULTISTREAM_PROTOCOL_ID));
        Some (OutboundData (encode_message (str "/x/1")));
        Some (Negotiated (str "/x/1")); None].
Proof. vm_compute. reflexivity. Qed.

(** ** The codec *)

(** A protocol name that fits one message. *)
Definition message_ok (p : bytes) : Prop :=
  p ≠ [] ∧ utf8_valid p = true ∧ zlen p < MAX_MESSAGE_LEN.

Lemma encode_message_frame p : encode_message p = encode_frame (p ++ [x0a]).
Proof. unfold encode_message, encode_frame. by rewrite zlen_app. Qed.

(** The checks on a message once its frame is complete. *)
Definition message_line (m : bytes) (consumed : Z) : DecodeResult :=
  match split_last m with
  | Some (x0a, payload) =>
      if negb (utf8_valid payload) then DError NonUtf8
      else if bool_decide (payload = []) then DError EmptyProtocol
      else DComplete payload consumed
  | _ => DError MissingNewline
  end.

Lemma decode_message_frame buf :
  decode_message buf =
    match decode_frame buf MAX_MESSAGE_LEN with
    | Complete m consumed => message_line m consumed
    | Incomplete => DIncomplete
    | TooLarge len => DError (MessageTooLong len)
    | FrameError e => DError (InvalidVarint e)
    end.
Proof.
  destruct (decide (buf = [])) as [->|Hne]; [done|].
  rewrite decode_frame_nonempty by done. unfold decode_message.
  destruct buf as [|b buf]; [done|]. set (l := b :: buf) in *.
  destruct (read_uvarint l) as [[len used]|[]| |] eqn:Hr; try done.
  apply read_uvarint_ok_iff in Hr as (Hb & -> & _).
  pose proof (uvarint_len_bound len Hb).
  destruct (Z.ltb_spec usize_max len); [unfold usize_max in *; lia|].
  destruct (Z.ltb_spec MAX_MESSAGE_LEN len); [done|].
  unfold MAX_MESSAGE_LEN in *.
  rewrite checked_add_Some by (unfold usize_max, u64_max; lia).
  destruct (Z.ltb_spec (zlen l) (uvarint_len len + len)); [|by destruct (slice l _ _)].
  destruct (slice l _ _) as [m|] eqn:Hs; [|done].
  apply slice_Some_iff in Hs as (p & q & Hl & Hp & Hm); [|lia].
  rewrite Hl in *. zlen_lia.
Qed.

Lemma split_last_app {A} (l : list A) x : split_last (l ++ [x]) = Some (x, l).
Proof. unfold split_last. by rewrite last_snoc, removelast_last. Qed.

Lemma message_line_iff m c p n :
  message_line m c = DComplete p n ↔
  m = p ++ [x0a] ∧ n = c ∧ p ≠ [] ∧ utf8_valid p = true.
Proof.
  unfold message_line. split.
  - destruct m as [|x l _] using rev_ind; [done|]. rewrite split_last_app.
    destruct x; try done. destruct (utf8_valid l) eqn:Hu; [|done].
    cbn. case_bool_decide; [done|]. by intros [= -> ->].
  - intros (-> & -> & Hne & Hu). rewrite split_last_app, Hu. cbn.
    by rewrite bool_decide_false.
Qed.

Lemma decode_message_iff buf p n :
  decode_message buf = DComplete p n ↔
  message_ok p ∧ n = zlen (encode_message p) ∧ ∃ rest, buf = encode_message p ++ rest.
Proof.
  rewrite decode_message_frame, encode_message_frame. unfold message_ok, MAX_MESSAGE_LEN.
  pose proof (zlen_encode_frame (p ++ [x0a])) as Hlen. rewrite zlen_app in Hlen.
  change (zlen [x0a]) with 1 in Hlen. split.
  - destruct (decode_frame buf 1024) as [m c| | |] eqn:Hd; try done.
    intros (-> & -> & Hne & Hu)%message_line_iff.
    apply decode_frame_iff in Hd as (Hm & -> & _ & rest & ->).
    rewrite zlen_app in Hm. change (zlen [x0a]) with 1 in Hm.
    split_and!; try done; [lia|by exists rest].
  - intros ((Hne & Hu & Hl) & -> & Hrest).
    assert (decode_frame buf 1024 = Complete (p ++ [x0a]) (zlen (encode_frame (p ++ [x0a])))) as ->.
    { apply decode_frame_iff. rewrite Hlen, zlen_app. change (zlen [x0a]) with 1.
      pose proof (zlen_nonneg p).
      pose proof (uvarint_len_bound (zlen p + 1) ltac:(unfold u64_max; lia)).
      split_and!; try done; unfold usize_max, u64_max; lia. }
    by apply message_line_iff.
Qed.

Lemma decode_message_app buf more :
  decode_message buf ≠ DIncomplete → decode_message (buf ++ more) = decode_message buf.
Proof.
  rewrite !decode_message_frame. intros Hne.
  rewrite decode_frame_app; [done|]. intros Hd. by rewrite Hd in Hne.
Qed.

Lemma encode_message_nonempty p : encode_message p ≠ [].
Proof. unfold encode_message. intros H. apply (f_equal length) in H. rewrite !length_app in H. simpl in H. lia. Qed.

Lemma decode_message_complete p rest :
  message_ok p → decode_message (encode_message p ++ rest) = DComplete p (zlen (encode_message p)).
Proof. intros. apply decode_message_iff. eauto. Qed.

Lemma decode_message_prefix p a b :
  message_ok p → encode_message p = a ++ b → b ≠ [] → decode_message a = DIncomplete.
Proof.
  intros Hp Hab Hb. pose proof (decode_message_complete p [] Hp) as Hc.
  rewrite app_nil_r, Hab in Hc.
  destruct (decode_message a) as [q n| |e] eqn:Ha; [|done|].
  - rewrite decode_message_app, Ha in Hc by (by rewrite Ha). injection Hc as -> ->.
    apply decode_message_iff in Ha as (_ & Hn & rest & ->).
    apply (f_equal zlen) in Hab. autorewrite with zlen in *.
    assert (zlen b ≠ 0) by (by intros ?%zlen_zero_inv). zlen_lia.
  - by rewrite decode_message_app, Ha in Hc by (by rewrite Ha).
Qed.

(** ** What [receive] computes *)

(** The messages of the buffer, taken one after the other. *)
Inductive runs : MultistreamSelect → list MultistreamOutput → MultistreamSelect → Prop :=
  | runs_done s : state s = Done → runs s [] s
  | runs_wait s :
      state s ≠ Done → decode_message (recv_buf s) = DIncomplete → runs s [] s
  | runs_err s e :
      state s ≠ Done → decode_message (recv_buf s) = DError e →
      runs s [ProtocolError (MultistreamError_display e)] {| s with state := Done |}
  | runs_msg s p n rest st' produced outs s' :
      state s ≠ Done → decode_message (recv_buf s) = DComplete p n →
      recv_buf s = encode_message p ++ rest →
      handle_message (role s) (state s) (desired_protocol s) (supported_protocols s) p
        = Ok (st', produced) →
      runs {| s with recv_buf := rest; state := st' |} outs s' →
      runs s (produced ++ outs) s'.

(** A dialer has something to propose. *)
Definition select_ok (s : MultistreamSelect) : Prop :=
  (role s = Dialer ∨ state s = WaitingForProtocolResponse) → is_Some (desired_protocol s).

Lemma handle_message_total s p :
  select_ok s →
  ∃ st' produced,
    handle_message (role s) (state s) (desired_protocol s) (supported_protocols s) p
      = Ok (st', produced) ∧
    (∀ buf, select_ok {| s with recv_buf := buf; state := st' |}).
Proof.
  intros Hok. unfold handle_message.
  assert (∀ st' buf, st' ≠ WaitingForProtocolResponse ∨ is_Some (desired_protocol s) →
    select_ok {| s with recv_buf := buf; state := st' |}) as Hkeep.
  { intros st' buf Hst [?|?]; [by apply Hok; left|by destruct Hst]. }
  destruct (state s) eqn:Hst; cbn.
  - case_bool_decide; cbn; [|by eexists _, _; split; [done|]; intros buf; apply (Hkeep _ buf); left].
    destruct (role s) eqn:Hr; cbn; [|by eexists _, _; split; [done|]; intros buf; apply (Hkeep _ buf); left].
    destruct Hok as [d Hd]; [by left|]. rewrite Hd. cbn.
    eexists _, _; split; [done|]. intros buf _. by eexists.
  - case_bool_decide; eexists _, _; (split; [done|]); intros buf; by apply (Hkeep _ buf); left.
  - destruct Hok as [d Hd]; [by right|]. rewrite Hd. cbn.
    repeat case_bool_decide; eexists _, _; (split; [done|]); intros buf _; by eexists.
  - eexists _, _; split; [done|]. intros buf. by apply (Hkeep _ buf); left.
Qed.

Lemma receive_loop_runs fuel acc s :
  select_ok s → (length (recv_buf s) ≤ fuel)%nat →
  ∃ outs s', receive_loop fuel acc s = (s', Ok (acc ++ outs)) ∧ runs s outs s' ∧ select_ok s'.
Proof.
  revert acc s. induction fuel as [|fuel IH]; intros acc s Hok Hlen;
    cbn [receive_loop]; unfold mbind, M_bind, gets;
    (case_bool_decide as Hst; [exists [], s; rewrite app_nil_r; by split_and!; [|apply runs_done|]|]);
    (destruct (decode_message (recv_buf s)) as [p n| |e] eqn:Hd;
      [|exists [], s; rewrite app_nil_r; by split_and!; [|apply runs_wait|]
       |eexists _, _; split_and!; [done|by apply runs_err|by intros [?|?]; [apply Hok; left|]]]).
  all: pose proof Hd as (Hp & Hn & rest & Hrest)%decode_message_iff.
  { rewrite Hrest, length_app in Hlen. pose proof (encode_message_nonempty p).
    destruct (encode_message p); [done|simpl in Hlen; lia]. }
  destruct (handle_message_total s p Hok) as (st' & produced & Hh & Hok').
  unfold reads, drain_front. rewrite Hh.
  assert (zlen (recv_buf s) = n + zlen rest) as Hzl by (rewrite Hrest, Hn; zlen_lia).
  pose proof (zlen_nonneg rest).
  destruct (Z.leb_spec n (zlen (recv_buf s))); [|lia]. unfold modify.
  rewrite Hrest, Hn, to_nat_zlen, drop_app_length.
  destruct (IH (acc ++ produced) {| s with recv_buf := rest; state := st' |})
    as (outs & s' & Hrun & Hruns & Hs'); [done| |].
  { cbn. rewrite Hrest, length_app in Hlen. pose proof (encode_message_nonempty p).
    destruct (encode_message p); [done|simpl in Hlen; lia]. }
  exists (produced ++ outs), s'. rewrite app_assoc. split_and!; try done.
  eapply runs_msg; eauto.
Qed.

Lemma runs_det s o1 s1 o2 s2 : runs s o1 s1 → runs s o2 s2 → o1 = o2 ∧ s1 = s2.
Proof.
  intros H1. revert o2 s2. induction H1 as [s|s|s|s p n rest st' pr outs s' Hst Hd Hb Hh _ IH];
    intros o2 s2 H2;
    inversion H2 as [? Hx|? Hx Hy|? e' Hx Hy|? p' n' rest' st2 pr2 outs2 s2' Hx Hd' Hb' Hh' Hr'];
    subst; try done; try congruence; try (split; congruence).
  assert (p' = p) as -> by congruence.
  assert (st2 = st' ∧ pr2 = pr) as [-> ->] by (split; congruence).
  assert (rest' = rest) as -> by (eapply (app_inv_head (encode_message p)); congruence).
  by destruct (IH _ _ Hr') as [-> ->].
Qed.

Lemma runs_end s outs s' :
  runs s outs s' → state s' = Done ∨ decode_message (recv_buf s') = DIncomplete.
Proof. induction 1; cbn; auto. Qed.

(** Bytes that arrive later are bytes that could have been there from the start. *)
Lemma runs_app s o1 s1 more o2 s2 :
  runs s o1 s1 → state s1 ≠ Done →
  runs {| s1 with recv_buf := recv_buf s1 ++ more |} o2 s2 →
  runs {| s with recv_buf := recv_buf s ++ more |} (o1 ++ o2) s2.
Proof.
  induction 1 as [s Hst|s Hst Hd|s e Hst Hd|s p n rest st' pr outs s' Hst Hd Hb Hh _ IH];
    intros Hnd H2; try done.
  rewrite <- app_assoc. eapply runs_msg; cbn; [done| |by rewrite Hb, <- app_assoc|done|by apply IH].
  rewrite decode_message_app by (by rewrite Hd). done.
Qed.

Lemma runs_app_done s o1 s1 more :
  runs s o1 s1 → state s1 = Done →
  runs {| s with recv_buf := recv_buf s ++ more |} o1 {| s1 with recv_buf := recv_buf s1 ++ more |}.
Proof.
  induction 1 as [s Hst|s Hst Hd|s e Hst Hd|s p n rest st' pr outs s' Hst Hd Hb Hh _ IH];
    intros Hdone; try done.
  - by apply runs_done.
  - refine (runs_err {| s with recv_buf := recv_buf s ++ more |} e Hst _). cbn.
    rewrite decode_message_app by (by rewrite Hd). done.
  - eapply runs_msg; cbn; [done| |by rewrite Hb, <- app_assoc|done|by apply IH].
    rewrite decode_message_app by (by rewrite Hd). done.
Qed.

Lemma receive_runs bs s :
  select_ok s → state s ≠ Done →
  ∃ outs s', receive bs s = (s', Ok outs) ∧
    runs {| s with recv_buf := recv_buf s ++ bs |} outs s' ∧ select_ok s'.
Proof.
  intros Hok Hst. unfold receive, mbind, M_bind, gets, modify.
  rewrite bool_decide_false by done.
  destruct (receive_loop_runs (length (recv_buf s ++ bs)) []
    {| s with recv_buf := recv_buf s ++ bs |}) as (outs & s' & Hrun & Hruns & Hok'); [done|done|].
  by exists outs, s'.
Qed.

Lemma receive_runs_inv bs s outs s' :
  select_ok s → state s ≠ Done →
  runs {| s with recv_buf := recv_buf s ++ bs |} outs s' → receive bs s = (s', Ok outs).
Proof.
  intros Hok Hst Hruns. destruct (receive_runs bs s Hok Hst) as (o & t & -> & Hr & _).
  by destruct (runs_det _ _ _ _ _ Hr Hruns) as [-> ->].
Qed.

Lemma receive_done bs s : state s = Done → receive bs s = (s, Ok []).
Proof. intros Hst. unfold receive, mbind, M_bind, gets. by rewrite bool_decide_true. Qed.

(** ** Properties of one machine *)

(** The message codec is exact: the decoder accepts a buffer as a message
    exactly when it starts with the encoding of a non-empty, well-formed UTF-8
    line of less than 1024 bytes, and it reports how many bytes that took. *)
Theorem multistream_message_exact buf p n :
  decode_message buf = DComplete p n ↔
  message_ok p ∧ n = zlen (encode_message p) ∧ ∃ rest, buf = encode_message p ++ rest.
Proof. apply decode_message_iff. Qed.

(** C39: how the transport cuts the bytes into chunks does not matter: receiving
    [a] and then [b] produces the outputs, and reaches the state, of receiving
    them together. Once the negotiation has ended, later bytes are not touched;
    those that came along with its last message stay in the buffer. *)
Theorem multistream_chunking a b s :
  select_ok s →
  ∃ s1 o1 s2 o2 s12,
    receive a s = (s1, Ok o1) ∧ receive b s1 = (s2, Ok o2) ∧
    receive (a ++ b) s = (s12, Ok (o1 ++ o2)) ∧ state s12 = state s2 ∧
    (state s1 ≠ Done → s12 = s2) ∧
    (state s1 = Done → s2 = s1 ∧ (state s ≠ Done → recv_buf s12 = recv_buf s1 ++ b)).
Proof.
  intros Hok. destruct (decide (state s = Done)) as [Hd|Hnd].
  { exists s, [], s, [], s. rewrite !receive_done by done. by split_and!. }
  destruct (receive_runs a s Hok Hnd) as (o1 & s1 & H1 & Hr1 & Hok1).
  destruct (decide (state s1 = Done)) as [Hd1|Hnd1].
  - exists s1, o1, s1, [], {| s1 with recv_buf := recv_buf s1 ++ b |}.
    rewrite (receive_done b s1), app_nil_r by done. split_and!; try done.
    apply receive_runs_inv; [done|done|]. rewrite app_assoc.
    exact (runs_app_done _ _ _ b Hr1 Hd1).
  - destruct (receive_runs b s1 Hok1 Hnd1) as (o2 & s2 & H2 & Hr2 & _).
    exists s1, o1, s2, o2, s2. split_and!; try done.
    apply receive_runs_inv; [done|done|]. rewrite app_assoc.
    exact (runs_app _ _ _ b _ _ Hr1 Hnd1 Hr2).
Qed.

Lemma multistream_chunking_witness :
  ∃ s1 o1 s2 o2 s12,
    receive [x13] (listener [str "/x/1"]) = (s1, Ok o1) ∧
    receive (str "/multi") s1 = (s2, Ok o2) ∧
    receive ([x13] ++ str "/multi") (listener [str "/x/1"]) = (s12, Ok (o1 ++ o2)) ∧
    state s12 = state s2.
Proof.
  destruct (multistream_chunking [x13] (str "/multi") (listener [str "/x/1"]))
    as (s1 & o1 & s2 & o2 & s12 & H1 & H2 & H3 & H4 & _).
  - intros [H|H]; discriminate H.
  - exists s1, o1, s2, o2, s12. auto.
Defined.

Lemma handle_request s p :
  state s = WaitingForProtocolRequest →
  handle_message (role s) (state s) (desired_protocol s) (supported_protocols s) p =
    Ok (if bool_decide (p ∈ supported_protocols s)
        then (Done, [OutboundData (encode_message p); Negotiated p])
        else (WaitingForProtocolRequest,
              [OutboundData (encode_message NOT_AVAILABLE); NotAvailable])).
Proof. intros ->. unfold handle_message. by case_bool_decide. Qed.

Lemma runs_requests ps p trailing s :
  state s = WaitingForProtocolRequest →
  Forall message_ok ps → Forall (λ q, q ∉ supported_protocols s) ps →
  message_ok p → p ∈ supported_protocols s →
  recv_buf s = concat (encode_message <$> ps) ++ encode_message p ++ trailing →
  runs s (concat ((λ _, [OutboundData (encode_message NOT_AVAILABLE); NotAvailable]) <$> ps)
          ++ [OutboundData (encode_message p); Negotiated p])
    {| s with state := Done; recv_buf := trailing |}.
Proof.
  revert s. induction ps as [|q ps IH]; intros s Hst Hm Hn Hp Hin Hb; cbn in *.
  - eapply (runs_msg s p _ trailing Done [OutboundData (encode_message p); Negotiated p] []);
      [by rewrite Hst|rewrite Hb; by apply decode_message_complete|done| |by apply runs_done].
    by rewrite handle_request, bool_decide_true by done.
  - apply Forall_cons in Hm as [Hq Hm]. apply Forall_cons in Hn as [Hnq Hn].
    rewrite <- !app_assoc in Hb.
    refine (runs_msg s q _ (concat (encode_message <$> ps) ++ encode_message p ++ trailing)
      WaitingForProtocolRequest [OutboundData (encode_message NOT_AVAILABLE); NotAvailable]
      _ _ _ _ Hb _ _);
      [by rewrite Hst|rewrite Hb; by apply decode_message_complete| |].
    + by rewrite handle_request, bool_decide_false by done.
    + exact (IH {| s with recv_buf := _; state := WaitingForProtocolRequest |}
        eq_refl Hm Hn Hp Hin eq_refl).
Qed.

(** A listener that has seen the header refuses, with [na], each proposal it
    does not support and accepts the first one it does, echoing its name; what
    the dialer pipelined behind that proposal is left for the protocol. *)
Theorem listener_accepts_first_supported s ps p trailing :
  state s = WaitingForProtocolRequest → recv_buf s = [] → role s = Listener →
  Forall message_ok ps → Forall (λ q, q ∉ supported_protocols s) ps →
  message_ok p → p ∈ supported_protocols s →
  receive (concat (encode_message <$> ps) ++ encode_message p ++ trailing) s =
    ({| s with state := Done; recv_buf := trailing |},
     Ok (concat ((λ _, [OutboundData (encode_message NOT_AVAILABLE); NotAvailable]) <$> ps)
         ++ [OutboundData (encode_message p); Negotiated p])).
Proof.
  intros Hst Hb Hr Hm Hn Hp Hin. apply receive_runs_inv.
  - intros [?|?]; congruence.
  - by rewrite Hst.
  - rewrite Hb. exact (runs_requests ps p trailing
      {| s with recv_buf := _ |} Hst Hm Hn Hp Hin eq_refl).
Qed.

Lemma listener_accepts_first_supported_witness :
  (receive (encode_message (str "/y/1") ++ encode_message (str "/x/1") ++ str "more")
    {| (listener [str "/x/1"]) with state := WaitingForProtocolRequest |}).2 =
  Ok [OutboundData (encode_message NOT_AVAILABLE); NotAvailable;
      OutboundData (encode_message (str "/x/1")); Negotiated (str "/x/1")].
Proof.
  pose proof (listener_accepts_first_supported
    {| (listener [str "/x/1"]) with state := WaitingForProtocolRequest |}
    [str "/y/1"] (str "/x/1") (str "more")) as H.
  cbn [fmap list_fmap concat app] in H. rewrite app_nil_r in H.
  rewrite H; try reflexivity.
  - constructor; [split_and!; by vm_compute|done].
  - constructor; [vm_compute; intros Hin; discriminate Hin|done].
  - split_and!; by vm_compute.
Defined.

(** ** The machine behind the driver's interface *)

#[global] Instance multistream_protocol :
    SansIoProtocol MultistreamSelect MultistreamInput MultistreamOutput MultistreamError := {|
  SansIo.handle_input := handle_input;
  SansIo.poll_output := poll_output;
  SansIo.is_idle := is_idle;
|}.

#[global] Program Instance multistream_contract :
    SansIoContract (P := MultistreamSelect) (Input := MultistreamInput) select_ok (λ _ _, True) := {|
  backlog s := length (pending_outputs s);
|}.
Next Obligation.
  intros s [|data] Hok _; cbn; unfold handle_input; wp_step.
  - unfold start. wp_step. wp_step. wp_step; [by repeat wp_step|]. by repeat wp_step.
  - destruct (decide (state s = Done)) as [Hd|Hnd].
    + unfold wp at 1. rewrite receive_done by done. by wp_step.
    + destruct (receive_runs data s Hok Hnd) as (outs & s' & Hrun & _ & Hok').
      unfold wp at 1. rewrite Hrun. by wp_step.
Qed.
Next Obligation.
  intros s Hok. cbn. unfold poll_output, is_idle.
  destruct (pending_outputs s) as [|o os] eqn:Hp; eexists _, _; (split; [done|]); (split; [done|]).
  - by rewrite bool_decide_true.
  - cbn. split; [done|lia].
Qed.
