(* ===== verification/Negotiation.v ===== *)
(** A dialer and a listener of [crates/multistream-select/src/lib.rs] joined by
    two byte pipes: whatever the schedule, they agree. *)

From Stdlib Require Import Strings.Byte.
From S2P Require Import Prelude Varint Text Frame SansIo Multistream.

(** ** The network *)

Record Net := mkNet {
  net_d : MultistreamSelect;
  net_l : MultistreamSelect;
  to_l : bytes;
  to_d : bytes;
  log_d : list MultistreamOutput;
  log_l : list MultistreamOutput;
}.

(** What an output puts on the wire, and what it tells the owner. *)
Definition wire (o : MultistreamOutput) : bytes :=
  match o with OutboundData data => data | _ => [] end.
Definition event (o : MultistreamOutput) : list MultistreamOutput :=
  match o with OutboundData _ => [] | o => [o] end.

Definition wires (os : list MultistreamOutput) : bytes := concat (wire <$> os).
Definition events (os : list MultistreamOutput) : list MultistreamOutput := concat (event <$> os).

(** Either side is polled, or any non-empty front of what is in flight arrives. *)
Inductive net_step : Net → Net → Prop :=
  | poll_dialer d d' l tl td ld ll o :
      poll_output d = (d', Ok (Some o)) →
      net_step (mkNet d l tl td ld ll) (mkNet d' l (tl ++ wire o) td (ld ++ event o) ll)
  | poll_listener d l l' tl td ld ll o :
      poll_output l = (l', Ok (Some o)) →
      net_step (mkNet d l tl td ld ll) (mkNet d l' tl (td ++ wire o) ld (ll ++ event o))
  | arrive_dialer d d' l tl chunk td ld ll :
      chunk ≠ [] → handle_input (Data chunk) d = (d', Ok tt) →
      net_step (mkNet d l tl (chunk ++ td) ld ll) (mkNet d' l tl td ld ll)
  | arrive_listener d l l' chunk tl td ld ll :
      chunk ≠ [] → handle_input (Data chunk) l = (l', Ok tt) →
      net_step (mkNet d l (chunk ++ tl) td ld ll) (mkNet d l' tl td ld ll).

(** Both sides are created and told to start. *)
Definition net_init (p : bytes) (protocols : list bytes) : Net :=
  mkNet (handle_input Start (dialer p)).1 (handle_input Start (listener protocols)).1 [] [] [] [].

Definition quiescent (n : Net) : Prop :=
  is_idle (net_d n) = true ∧ is_idle (net_l n) = true ∧ to_l n = [] ∧ to_d n = [].

Section Agreement.
Context (p : bytes) (protocols : list bytes).
Context (Hp : message_ok p) (Hna : p = NOT_AVAILABLE → p ∈ protocols).

Definition header : bytes := encode_message MULTISTREAM_PROTOCOL_ID.

Definition accepted : bool := bool_decide (p ∈ protocols).
Definition response : bytes := if accepted then p else NOT_AVAILABLE.
Definition verdict : MultistreamOutput := if accepted then Negotiated p else NotAvailable.

Definition dialer_at (st : State) (buf : bytes) (out : list MultistreamOutput) : MultistreamSelect :=
  mkSelect Dialer st (Some p) ∅ buf true out.
Definition listener_at (st : State) (buf : bytes) (out : list MultistreamOutput) : MultistreamSelect :=
  mkSelect Listener st None (list_to_set protocols) buf true out.

(** Where a side is after receiving [rx], and everything it has ever output. *)
Inductive dialer_view : bytes → list MultistreamOutput → State → bytes → Prop :=
  | dv_header rx z : header = rx ++ z → z ≠ [] →
      dialer_view rx [OutboundData header] WaitingForRemoteHeader rx
  | dv_response rx z : encode_message response = rx ++ z → z ≠ [] →
      dialer_view (header ++ rx) [OutboundData header; OutboundData (encode_message p)]
        WaitingForProtocolResponse rx
  | dv_done :
      dialer_view (header ++ encode_message response)
        [OutboundData header; OutboundData (encode_message p); verdict] Done [].

Inductive listener_view : bytes → list MultistreamOutput → State → bytes → Prop :=
  | lv_header rx z : header = rx ++ z → z ≠ [] →
      listener_view rx [OutboundData header] WaitingForRemoteHeader rx
  | lv_request rx z : encode_message p = rx ++ z → z ≠ [] →
      listener_view (header ++ rx) [OutboundData header] WaitingForProtocolRequest rx
  | lv_done :
      listener_view (header ++ encode_message p)
        [OutboundData header; OutboundData (encode_message response); verdict]
        (if accepted then Done else WaitingForProtocolRequest) [].

Lemma header_ok : message_ok MULTISTREAM_PROTOCOL_ID.
Proof. split_and!; by vm_compute. Qed.

Lemma response_ok : message_ok response.
Proof. unfold response. destruct accepted; [done|]. split_and!; by vm_compute. Qed.

(** A prefix of a message and what follows it: either the message is still
    incomplete, or it is all there. *)
Lemma prefix_cases (msg tail x : bytes) :
  x `prefix_of` msg ++ tail →
  (∃ z, msg = x ++ z ∧ z ≠ []) ∨ ∃ y, x = msg ++ y ∧ y `prefix_of` tail.
Proof.
  intros [k Hk]. apply app_split_cases in Hk as [(k' & Hm & ->)|(k' & Hne & -> & ->)].
  - destruct (decide (k' = [])) as [->|]; [|by left; exists k'].
    right. exists []. rewrite app_nil_r in *. subst. split; [done|by apply prefix_nil].
  - right. exists k'. split; [done|by exists k].
Qed.

Lemma runs_incomplete s msg z :
  message_ok msg → state s ≠ Done → encode_message msg = recv_buf s ++ z → z ≠ [] →
  runs s [] s.
Proof. intros. apply runs_wait; [done|by eapply decode_message_prefix]. Qed.

Lemma dialer_reads_response y pend :
  y `prefix_of` encode_message response →
  ∃ st' buf' o, runs (dialer_at WaitingForProtocolResponse y pend) o (dialer_at st' buf' pend) ∧
    dialer_view (header ++ y)
      ([OutboundData header; OutboundData (encode_message p)] ++ o) st' buf'.
Proof.
  rewrite <- (app_nil_r (encode_message response)).
  intros [(z & Hz & Hne)|(y' & -> & ->%prefix_nil_inv)]%prefix_cases.
  - exists WaitingForProtocolResponse, y, []. split; [|by eapply dv_response].
    by eapply (runs_incomplete _ response); [apply response_ok|..].
  - exists Done, [], [verdict]. rewrite app_nil_r. split; [|apply dv_done].
    rewrite <- (app_nil_r [verdict]).
    eapply (runs_msg _ response _ [] Done [verdict]); cbn; [done| |by rewrite app_nil_r| |].
    + rewrite <- (app_nil_r (encode_message response)).
      apply decode_message_complete, response_ok.
    + unfold response, verdict. destruct accepted eqn:Ha; [by rewrite bool_decide_true|].
      apply bool_decide_eq_false in Ha. by rewrite bool_decide_false, bool_decide_true by naive_solver.
    + by apply runs_done.
Qed.

Lemma dialer_reads_header x pend :
  x `prefix_of` header ++ encode_message response →
  ∃ st' buf' o, runs (dialer_at WaitingForRemoteHeader x pend) o (dialer_at st' buf' pend) ∧
    dialer_view x ([OutboundData header] ++ o) st' buf'.
Proof.
  intros [(z & Hz & Hne)|(y & -> & Hy)]%prefix_cases.
  - exists WaitingForRemoteHeader, x, []. split; [|by eapply dv_header].
    by eapply (runs_incomplete _ MULTISTREAM_PROTOCOL_ID); [apply header_ok|..].
  - destruct (dialer_reads_response y pend Hy) as (st' & buf' & o & Hr & Hv).
    exists st', buf', ([OutboundData (encode_message p)] ++ o). split; [|done].
    eapply (runs_msg _ MULTISTREAM_PROTOCOL_ID); cbn; [done| |done| |exact Hr].
    + apply decode_message_complete, header_ok.
    + by rewrite bool_decide_true.
Qed.

Lemma listener_reads_request y pend :
  y `prefix_of` encode_message p →
  ∃ st' buf' o, runs (listener_at WaitingForProtocolRequest y pend) o (listener_at st' buf' pend) ∧
    listener_view (header ++ y) ([OutboundData header] ++ o) st' buf'.
Proof.
  rewrite <- (app_nil_r (encode_message p)).
  intros [(z & Hz & Hne)|(y' & -> & ->%prefix_nil_inv)]%prefix_cases.
  - exists WaitingForProtocolRequest, y, []. split; [|by eapply lv_request].
    by eapply (runs_incomplete _ p).
  - exists (if accepted then Done else WaitingForProtocolRequest), [],
      [OutboundData (encode_message response); verdict].
    rewrite app_nil_r. split; [|apply lv_done].
    rewrite <- (app_nil_r [_; _]).
    eapply (runs_msg _ p _ [] (if accepted then Done else WaitingForProtocolRequest)
      [OutboundData (encode_message response); verdict]); cbn; [done| |by rewrite app_nil_r| |].
    + rewrite <- (app_nil_r (encode_message p)). by apply decode_message_complete.
    + assert (bool_decide (p ∈@{gset bytes} list_to_set protocols) = accepted) as ->
        by (apply bool_decide_ext, elem_of_list_to_set).
      unfold response, verdict. by destruct accepted.
    + destruct accepted; [by apply runs_done|by apply runs_wait].
Qed.

Lemma listener_reads_header x pend :
  x `prefix_of` header ++ encode_message p →
  ∃ st' buf' o, runs (listener_at WaitingForRemoteHeader x pend) o (listener_at st' buf' pend) ∧
    listener_view x ([OutboundData header] ++ o) st' buf'.
Proof.
  intros [(z & Hz & Hne)|(y & -> & Hy)]%prefix_cases.
  - exists WaitingForRemoteHeader, x, []. split; [|by eapply lv_header].
    by eapply (runs_incomplete _ MULTISTREAM_PROTOCOL_ID); [apply header_ok|..].
  - destruct (listener_reads_request y pend Hy) as (st' & buf' & o & Hr & Hv).
    exists st', buf', o. split; [|done].
    rewrite <- (app_nil_l o). eapply (runs_msg _ MULTISTREAM_PROTOCOL_ID); cbn; [done| |done| |exact Hr].
    + apply decode_message_complete, header_ok.
    + by rewrite bool_decide_true.
Qed.

Lemma handle_data_runs s chunk outs s' :
  select_ok s → state s ≠ Done →
  runs {| s with recv_buf := recv_buf s ++ chunk |} outs s' →
  handle_input (Data chunk) s =
    ({| s' with pending_outputs := pending_outputs s' ++ outs |}, Ok tt).
Proof.
  intros Hok Hst Hr. unfold handle_input, mbind, M_bind.
  by rewrite (receive_runs_inv chunk s outs s' Hok Hst Hr).
Qed.

(** Receiving a chunk moves the view forward by that chunk. *)
Lemma dialer_arrives rx outs st buf chunk pend :
  dialer_view rx outs st buf → chunk ≠ [] → rx ++ chunk `prefix_of` header ++ encode_message response →
  ∃ st' buf' o, handle_input (Data chunk) (dialer_at st buf pend) =
      (dialer_at st' buf' (pend ++ o), Ok tt) ∧
    dialer_view (rx ++ chunk) (outs ++ o) st' buf'.
Proof.
  intros Hv Hne Hpre.
  assert (∀ st' buf' o, st ≠ Done →
    runs (dialer_at st (buf ++ chunk) pend) o (dialer_at st' buf' pend) →
    handle_input (Data chunk) (dialer_at st buf pend) =
      (dialer_at st' buf' (pend ++ o), Ok tt)) as Hrun.
  { intros st' buf' o Hst Hr. exact (handle_data_runs (dialer_at st buf pend) chunk o _ ltac:(by eexists) Hst Hr). }
  destruct Hv as [rx z Hz Hzne|rx z Hz Hzne|].
  - destruct (dialer_reads_header (rx ++ chunk) pend Hpre) as (st' & buf' & o & Hr & Hv).
    exists st', buf', o. split; [by apply Hrun|done].
  - rewrite <- app_assoc in Hpre. apply prefix_app_inv in Hpre.
    destruct (dialer_reads_response (rx ++ chunk) pend Hpre) as (st' & buf' & o & Hr & Hv).
    exists st', buf', o. rewrite <- app_assoc. split; [by apply Hrun|done].
  - exfalso. apply prefix_length in Hpre. rewrite length_app in Hpre.
    destruct chunk; [done|simpl in Hpre; lia].
Qed.

Lemma listener_arrives rx outs st buf chunk pend :
  listener_view rx outs st buf → chunk ≠ [] → rx ++ chunk `prefix_of` header ++ encode_message p →
  ∃ st' buf' o, handle_input (Data chunk) (listener_at st buf pend) =
      (listener_at st' buf' (pend ++ o), Ok tt) ∧
    listener_view (rx ++ chunk) (outs ++ o) st' buf'.
Proof.
  intros Hv Hne Hpre.
  assert (∀ st' buf' o, st ≠ Done → st ≠ WaitingForProtocolResponse →
    runs (listener_at st (buf ++ chunk) pend) o (listener_at st' buf' pend) →
    handle_input (Data chunk) (listener_at st buf pend) =
      (listener_at st' buf' (pend ++ o), Ok tt)) as Hrun.
  { intros st' buf' o Hst Hst2 Hr.
    exact (handle_data_runs (listener_at st buf pend) chunk o _ ltac:(by intros [|]) Hst Hr). }
  destruct Hv as [rx z Hz Hzne|rx z Hz Hzne|].
  - destruct (listener_reads_header (rx ++ chunk) pend Hpre) as (st' & buf' & o & Hr & Hv).
    exists st', buf', o. split; [by apply Hrun|done].
  - rewrite <- app_assoc in Hpre. apply prefix_app_inv in Hpre.
    destruct (listener_reads_request (rx ++ chunk) pend Hpre) as (st' & buf' & o & Hr & Hv).
    exists st', buf', o. rewrite <- app_assoc. split; [by apply Hrun|done].
  - exfalso. apply prefix_length in Hpre. rewrite length_app in Hpre.
    destruct chunk; [done|simpl in Hpre; lia].
Qed.

(** ** The invariant of the network *)

Lemma wires_app a b : wires (a ++ b) = wires a ++ wires b.
Proof. unfold wires. by rewrite fmap_app, concat_app. Qed.
Lemma events_app a b : events (a ++ b) = events a ++ events b.
Proof. unfold events. by rewrite fmap_app, concat_app. Qed.

Lemma wires_snoc a o : wires (a ++ [o]) = wires a ++ wire o.
Proof. rewrite wires_app. unfold wires at 2. cbn. by rewrite app_nil_r. Qed.
Lemma events_snoc a o : events (a ++ [o]) = events a ++ event o.
Proof. rewrite events_app. unfold events at 2. cbn. by rewrite app_nil_r. Qed.

Lemma wires_verdict : wire verdict = [].
Proof. unfold verdict. by destruct accepted. Qed.
Lemma events_verdict : event verdict = [verdict].
Proof. unfold verdict. by destruct accepted. Qed.

(** What a side ever outputs: at most three things, whose bytes start the two
    messages it has to say and whose only event is the verdict. *)
Lemma dialer_view_outs rx outs st buf :
  dialer_view rx outs st buf →
  (length outs ≤ 3)%nat ∧ wires outs `prefix_of` header ++ encode_message p ∧
  events outs `prefix_of` [verdict].
Proof.
  destruct 1; unfold wires, events; cbn; rewrite ?app_nil_r, ?wires_verdict, ?events_verdict;
    (split; [lia|]); split; rewrite ?app_nil_r; try done;
    first [apply prefix_nil | by apply prefix_app_r].
Qed.

Lemma listener_view_outs rx outs st buf :
  listener_view rx outs st buf →
  (length outs ≤ 3)%nat ∧ wires outs `prefix_of` header ++ encode_message response ∧
  events outs `prefix_of` [verdict].
Proof.
  destruct 1; unfold wires, events; cbn; rewrite ?app_nil_r, ?wires_verdict, ?events_verdict;
    (split; [lia|]); split; rewrite ?app_nil_r; try done;
    first [apply prefix_nil | by apply prefix_app_r].
Qed.

Record net_inv (n : nat) (net : Net) rxd outd std bufd sentd pendd rxl outl stl bufl sentl pendl
    : Prop := {
  ni_d : net_d net = dialer_at std bufd pendd;
  ni_l : net_l net = listener_at stl bufl pendl;
  ni_dview : dialer_view rxd outd std bufd;
  ni_lview : listener_view rxl outl stl bufl;
  ni_dout : outd = sentd ++ pendd;
  ni_lout : outl = sentl ++ pendl;
  ni_dlog : log_d net = events sentd;
  ni_llog : log_l net = events sentl;
  ni_tol : wires sentd = rxl ++ to_l net;
  ni_tod : wires sentl = rxd ++ to_d net;
  ni_steps : n = 0%nat ∨ (n ≤ length rxd + length rxl + length sentd + length sentl)%nat;
}.

Definition net_ok (n : nat) (net : Net) : Prop :=
  ∃ rxd outd std bufd sentd pendd rxl outl stl bufl sentl pendl,
    net_inv n net rxd outd std bufd sentd pendd rxl outl stl bufl sentl pendl.

Lemma net_init_ok : net_ok 0 (net_init p protocols).
Proof.
  exists [], [OutboundData header], WaitingForRemoteHeader, [], [], [OutboundData header],
    [], [OutboundData header], WaitingForRemoteHeader, [], [], [OutboundData header].
  split; try done; [apply (dv_header [] header)|apply (lv_header [] header)|by left]; done.
Qed.

Lemma net_step_ok n net net' : net_ok n net → net_step net net' → net_ok (S n) net'.
Proof.
  intros (rxd & outd & std & bufd & sentd & pendd & rxl & outl & stl & bufl & sentl & pendl &
    [Hd Hl Hdv Hlv Hdo Hlo Hdl Hll Htl Htd Hn]) Hstep.
  destruct Hstep as [d d' l tl td ld ll o Hpoll|d l l' tl td ld ll o Hpoll
    |d d' l tl chunk td ld ll Hne Hin|d l l' chunk tl td ld ll Hne Hin];
    cbn [net_d net_l to_l to_d log_d log_l] in *; subst.
  - unfold poll_output in Hpoll. cbn in Hpoll. destruct pendd as [|o' pendd]; [done|].
    injection Hpoll as <- <-.
    exists rxd, (sentd ++ o' :: pendd), std, bufd, (sentd ++ [o']), pendd, rxl, (sentl ++ pendl),
      stl, bufl, sentl, pendl.
    split; cbn; try done; [by rewrite <- app_assoc|by rewrite events_snoc|..].
    + by rewrite wires_snoc, Htl, <- app_assoc.
    + rewrite length_app. simpl. lia.
  - unfold poll_output in Hpoll. cbn in Hpoll. destruct pendl as [|o' pendl]; [done|].
    injection Hpoll as <- <-.
    exists rxd, (sentd ++ pendd), std, bufd, sentd, pendd, rxl, (sentl ++ o' :: pendl),
      stl, bufl, (sentl ++ [o']), pendl.
    split; cbn; try done; [by rewrite <- app_assoc|by rewrite events_snoc|..].
    + by rewrite wires_snoc, Htd, <- app_assoc.
    + rewrite length_app. simpl. lia.
  - destruct (dialer_arrives rxd (sentd ++ pendd) std bufd chunk pendd Hdv Hne)
      as (st' & buf' & o & Hrun & Hv).
    { destruct (listener_view_outs _ _ _ _ Hlv) as (_ & Hw & _).
      etrans; [|exact Hw]. rewrite wires_app, Htd. exists (td ++ wires pendl). by rewrite <- !app_assoc. }
    rewrite Hrun in Hin. injection Hin as <-.
    exists (rxd ++ chunk), (sentd ++ pendd ++ o), st', buf', sentd, (pendd ++ o), rxl,
      (sentl ++ pendl), stl, bufl, sentl, pendl.
    split; cbn; try done; [by rewrite app_assoc|by rewrite Htd, <- app_assoc|].
    rewrite length_app. destruct chunk; [done|simpl; lia].
  - destruct (listener_arrives rxl (sentl ++ pendl) stl bufl chunk pendl Hlv Hne)
      as (st' & buf' & o & Hrun & Hv).
    { destruct (dialer_view_outs _ _ _ _ Hdv) as (_ & Hw & _).
      etrans; [|exact Hw]. rewrite wires_app, Htl. exists (tl ++ wires pendd). by rewrite <- !app_assoc. }
    rewrite Hrun in Hin. injection Hin as <-.
    exists rxd, (sentd ++ pendd), std, bufd, sentd, pendd, (rxl ++ chunk), (sentl ++ pendl ++ o),
      st', buf', sentl, (pendl ++ o).
    split; cbn; try done; [by rewrite app_assoc|by rewrite Htl, <- app_assoc|].
    rewrite length_app. destruct chunk; [done|simpl; lia].
Qed.

Lemma net_ok_steps n net : nsteps net_step n (net_init p protocols) net → net_ok n net.
Proof.
  intros H. assert (∀ m net0, net_ok m net0 → nsteps net_step n net0 net → net_ok (m + n) net) as Hgen.
  { clear H. induction n as [|n IH]; intros m net0 H0 Hs.
    - inversion Hs; subst. by rewrite Nat.add_0_r.
    - inversion Hs as [|? ? net1 ? Hstep Hrest]; subst. rewrite <- Nat.add_succ_comm.
      eapply IH; [|done]. by eapply net_step_ok. }
  exact (Hgen 0%nat _ net_init_ok H).
Qed.

(** More steps than bytes to deliver and outputs to poll are impossible. *)
Definition step_bound : nat :=
  length (header ++ encode_message response) + length (header ++ encode_message p) + 6.

Lemma net_ok_bound n net : net_ok n net → (n ≤ step_bound)%nat.
Proof.
  intros (rxd & outd & std & bufd & sentd & pendd & rxl & outl & stl & bufl & sentl & pendl &
    [Hd Hl Hdv Hlv Hdo Hlo Hdl Hll Htl Htd Hn]).
  destruct (dialer_view_outs _ _ _ _ Hdv) as (Hd3 & Hdw%prefix_length & _).
  destruct (listener_view_outs _ _ _ _ Hlv) as (Hl3 & Hlw%prefix_length & _).
  subst. rewrite wires_app, length_app in Hdw, Hlw. rewrite Htl, Htd in *.
  rewrite length_app in *. unfold step_bound. rewrite !length_app in *. lia.
Qed.

Lemma net_ok_logs n net :
  net_ok n net → log_d net `prefix_of` [verdict] ∧ log_l net `prefix_of` [verdict].
Proof.
  intros (rxd & outd & std & bufd & sentd & pendd & rxl & outl & stl & bufl & sentl & pendl & []).
  destruct (dialer_view_outs _ _ _ _ ni_dview0) as (_ & _ & H1).
  destruct (listener_view_outs _ _ _ _ ni_lview0) as (_ & _ & H2). subst.
  rewrite events_app in *. rewrite ni_dlog0, ni_llog0.
  split; [etrans; [|exact H1]|etrans; [|exact H2]]; by apply prefix_app_r.
Qed.

Lemma header_nonempty : header ≠ [].
Proof. apply encode_message_nonempty. Qed.

Lemma net_ok_quiescent n net :
  net_ok n net → quiescent net → log_d net = [verdict] ∧ log_l net = [verdict].
Proof.
  intros (rxd & outd & std & bufd & sentd & pendd & rxl & outl & stl & bufl & sentl & pendl & [])
    (Hqd & Hql & Htl & Htd).
  unfold is_idle in Hqd, Hql. apply bool_decide_eq_true in Hqd, Hql.
  rewrite ni_d0 in Hqd. rewrite ni_l0 in Hql. cbn in Hqd, Hql.
  rewrite Hqd, app_nil_r in ni_dout0. rewrite Hql, app_nil_r in ni_lout0.
  rewrite Htl, app_nil_r in ni_tol0. rewrite Htd, app_nil_r in ni_tod0. subst sentd sentl.
  rewrite ni_dlog0, ni_llog0.
  destruct ni_dview0 as [rxd z Hz Hne|rxd z Hz Hne|]; destruct ni_lview0 as [rxl y Hy Hny|rxl y Hy Hny|];
    unfold wires, events in *; cbn in ni_tol0, ni_tod0 |- *;
    rewrite ?app_nil_r, ?wires_verdict, ?events_verdict in *; try done; exfalso;
    repeat match goal with H : @eq bytes _ _ |- _ =>
      apply (f_equal length) in H; rewrite ?length_app in H end;
    try (destruct z; [done|]); try (destruct y; [done|]); simpl in *; lia.
Qed.

Lemma net_ok_progress n net : net_ok n net → ¬ quiescent net → ∃ net', net_step net net'.
Proof.
  intros (rxd & outd & std & bufd & sentd & pendd & rxl & outl & stl & bufl & sentl & pendl &
    [Hd Hl Hdv Hlv Hdo Hlo Hdl Hll Htl Htd Hn]) Hq.
  destruct net as [d l tl td ld ll]. cbn [net_d net_l to_l to_d log_d log_l] in *. subst.
  destruct pendd as [|o pendd]; [|by eexists; apply poll_dialer].
  destruct pendl as [|o pendl]; [|by eexists; apply poll_listener].
  destruct (decide (td = [])) as [->|Hntd]; [destruct (decide (tl = [])) as [->|Hntl]|].
  - by destruct Hq.
  - destruct (listener_arrives rxl (sentl ++ []) stl bufl tl [] Hlv Hntl) as (? & ? & ? & Hrun & _).
    { destruct (dialer_view_outs _ _ _ _ Hdv) as (_ & Hw & _). by rewrite app_nil_r, Htl in Hw. }
    eexists. rewrite <- (app_nil_r tl). by eapply arrive_listener.
  - destruct (dialer_arrives rxd (sentd ++ []) std bufd td [] Hdv Hntd) as (? & ? & ? & Hrun & _).
    { destruct (listener_view_outs _ _ _ _ Hlv) as (_ & Hw & _). by rewrite app_nil_r, Htd in Hw. }
    eexists. rewrite <- (app_nil_r td). by eapply arrive_dialer.
Qed.

End Agreement.

(** ** Agreement *)

(** C3: a dialer proposing [p] and a listener supporting [protocols] agree under
    every schedule, for every [p] that is a message of the protocol (non-empty
    text of less than 1024 bytes) and is not the very text that says no, [na],
    proposed to a listener that does not support it (then the two disagree,
    see [proposing_na]). Whatever the order of polls and deliveries and however
    the bytes are cut: neither side ever reports anything but the right verdict
    ([Negotiated p] if the listener supports [p], [NotAvailable] otherwise); a
    run has a bounded number of steps; as long as the network is not quiet some
    step is possible; and when it is quiet, both sides have reported it. *)
Theorem negotiation_agreement p protocols n net :
  message_ok p → (p = NOT_AVAILABLE → p ∈ protocols) → nsteps net_step n (net_init p protocols) net →
  let v := if bool_decide (p ∈ protocols) then Negotiated p else NotAvailable in
  log_d net `prefix_of` [v] ∧ log_l net `prefix_of` [v] ∧
  (n ≤ step_bound p protocols)%nat ∧
  (¬ quiescent net → ∃ net', net_step net net') ∧
  (quiescent net → log_d net = [v] ∧ log_l net = [v]).
Proof.
  intros Hp Hna Hrun. pose proof (net_ok_steps p protocols Hp Hna n net Hrun) as Hok.
  destruct (net_ok_logs p protocols n net Hok) as [H1 H2]. cbn zeta. split_and!; [done|done|..].
  - exact (net_ok_bound p protocols n net Hok).
  - exact (net_ok_progress p protocols Hp Hna n net Hok).
  - exact (net_ok_quiescent p protocols n net Hok).
Qed.

Lemma negotiation_agreement_witness :
  ∃ net', net_step (net_init (str "/x/1") [str "/x/1"]) net'.
Proof.
  apply (negotiation_agreement (str "/x/1") [str "/x/1"] 0); [|done|constructor|].
  - split_and!; by vm_compute.
  - intros H. vm_compute in H. destruct_and?. discriminate.
Defined.

(** What the agreement leaves out: a listener that does
    not support [na] answers the proposal of [na] with [na], which the dialer
    takes for its confirmation. *)
Lemma proposing_na :
  let run_of i m := (handle_input i m).1 in
  let l := run_of (Data (encode_message MULTISTREAM_PROTOCOL_ID ++ encode_message NOT_AVAILABLE))
             (run_of Start (listener [])) in
  let d := run_of (Data (wires (pending_outputs l))) (run_of Start (dialer NOT_AVAILABLE)) in
  message_ok NOT_AVAILABLE ∧ wires (pending_outputs d) = encode_message MULTISTREAM_PROTOCOL_ID ++ encode_message NOT_AVAILABLE ∧
  events (pending_outputs l) = [NotAvailable] ∧ events (pending_outputs d) = [Negotiated NOT_AVAILABLE].
Proof. cbn zeta. split; [split_and!; by vm_compute|]. split_and!; by vm_compute. Qed.
