(* ===== verification/Ping.v ===== *)
(** The ping protocol, from [crates/ping/src/lib.rs]: round-trip measurement on
    an outbound stream, echo on inbound streams, timeouts, and the buffering of
    fragmented payloads. *)

From S2P Require Import Prelude Varint Text SansIo.

Definition PING_PROTOCOL_ID : bytes := str "/ipfs/ping/1.0.0".
Definition PING_PAYLOAD_LEN : Z := 32.
Definition MAX_INBOUND_STREAMS : Z := 2.

Record PingConfig := mkPingConfig { request_timeout_ms : Z }.
Definition PingConfig_default : PingConfig := mkPingConfig 10000.

Section Ping.
(** [PeerId] is the type of another crate; ping only compares identifiers and
    keys a [BTreeMap] with them. [StreamId] is a [u64]. *)
Context {PeerId : Type} `{BTreeKey PeerId}.

(** ** Data *)

Inductive PingAction :=
  | Send (peer_id : PeerId) (stream_id : Z) (data : bytes)
  | CloseStreamWrite (peer_id : PeerId) (stream_id : Z)
  | ResetStream (peer_id : PeerId) (stream_id : Z).

Inductive PingEvent :=
  | OutboundStreamRegistered (peer_id : PeerId) (stream_id : Z)
  | InboundStreamAccepted (peer_id : PeerId) (stream_id : Z)
  | RttMeasured (peer_id : PeerId) (stream_id : Z) (rtt_ms : Z)
  | Timeout (peer_id : PeerId) (stream_id : Z) (timeout_ms : Z)
  | OutboundStreamClosed (peer_id : PeerId) (stream_id : Z)
  | StreamLimitExceeded (peer_id : PeerId) (stream_id : Z) (limit : Z)
  | ProtocolViolation (peer_id : PeerId) (stream_id : Z) (reason : bytes).

Inductive PingInput :=
  | RegisterOutboundStream (peer_id : PeerId) (stream_id : Z)
  | RegisterInboundStream (peer_id : PeerId) (stream_id : Z)
  | SendPing (peer_id : PeerId) (payload : bytes) (now_ms : Z)
  | CloseOutboundStreamWrite (peer_id : PeerId)
  | StreamData (peer_id : PeerId) (stream_id : Z) (data : bytes) (now_ms : Z)
  | StreamRemoteWriteClosed (peer_id : PeerId) (stream_id : Z)
  | StreamClosed (peer_id : PeerId) (stream_id : Z)
  | RemovePeer (peer_id : PeerId)
  | MigratePeer (old_peer_id new_peer_id : PeerId)
  | Tick (now_ms : Z).

Inductive PingOutput := Action (a : PingAction) | Event (e : PingEvent).

Inductive PingError :=
  | OutboundStreamExists (peer_id : PeerId) (existing_stream : Z)
  | OutboundStreamMissing (peer_id : PeerId)
  | PingAlreadyInFlight (peer_id : PeerId) (stream_id : Z)
  | InvalidPayloadLength (actual : Z).

Record PendingPing := mkPending { payload : bytes; sent_at_ms : Z }.

Record PeerPingState := mkPeer {
  outbound_stream : option Z;
  inbound_streams : gset Z;
  pending_ping : option PendingPing;
  recv_bufs : gmap Z bytes;
}.

Definition PeerPingState_default : PeerPingState := mkPeer None ∅ None ∅.

Record PingProtocol := mkPing {
  peers : gmap PeerId PeerPingState;
  pending_events : list PingEvent;
  pending_actions : list PingAction;
  config : PingConfig;
}.

Definition ping_new (config : PingConfig) : PingProtocol := mkPing ∅ [] [] config.

Abbreviation P := (M PingProtocol PingError).

(** ** Operations *)

Definition push_event (e : PingEvent) : P unit :=
  modify (λ s, {| s with pending_events := pending_events s ++ [e] |}).

(** Writing through the [&mut PeerPingState] of [peers.get_mut] / [entry]. *)
Definition set_peer (peer_id : PeerId) (peer : PeerPingState) : P unit :=
  modify (λ s, {| s with peers := <[peer_id := peer]> (peers s) |}).

(** [peers.entry(peer_id).or_default()]. *)
Definition entry_or_default (peer_id : PeerId) : P PeerPingState :=
  peer ← gets (λ s, default PeerPingState_default (peers s !! peer_id));
  _ ← set_peer peer_id peer;
  mret peer.

Definition protocol_violation (peer_id : PeerId) (stream_id : Z) (reason : bytes)
    : P (list PingAction) :=
  _ ← push_event (ProtocolViolation peer_id stream_id reason);
  mret [ResetStream peer_id stream_id].

Definition register_outbound_stream (peer_id : PeerId) (stream_id : Z) : P unit :=
  peer ← entry_or_default peer_id;
  match outbound_stream peer with
  | Some existing =>
      if negb (existing =? stream_id) then throw (OutboundStreamExists peer_id existing)
      else mret tt
  | None =>
      _ ← set_peer peer_id {| peer with outbound_stream := Some stream_id |};
      push_event (OutboundStreamRegistered peer_id stream_id)
  end.

Definition outbound_stream_of (s : PingProtocol) (peer_id : PeerId) : option Z :=
  peer ← peers s !! peer_id;
  outbound_stream peer.

Definition register_inbound_stream (peer_id : PeerId) (stream_id : Z) : P (list PingAction) :=
  peer ← entry_or_default peer_id;
  if bool_decide (stream_id ∈ inbound_streams peer) then mret []
  else if MAX_INBOUND_STREAMS <=? Z.of_nat (size (inbound_streams peer))
  then
    _ ← push_event (StreamLimitExceeded peer_id stream_id MAX_INBOUND_STREAMS);
    mret [ResetStream peer_id stream_id]
  else
    _ ← set_peer peer_id {| peer with inbound_streams := {[stream_id]} ∪ inbound_streams peer |};
    _ ← push_event (InboundStreamAccepted peer_id stream_id);
    mret [].

Definition send_ping (peer_id : PeerId) (data : bytes) (now_ms : Z) : P PingAction :=
  if negb (zlen data =? PING_PAYLOAD_LEN) then throw (InvalidPayloadLength (zlen data))
  else
    peer ← reads (λ s, ok_or (peers s !! peer_id) (OutboundStreamMissing peer_id));
    stream_id ← lift (ok_or (outbound_stream peer) (OutboundStreamMissing peer_id));
    match pending_ping peer with
    | Some _ => throw (PingAlreadyInFlight peer_id stream_id)
    | None =>
        _ ← set_peer peer_id {| peer with pending_ping := Some (mkPending data now_ms) |};
        mret (Send peer_id stream_id data)
    end.

Definition close_outbound_stream_write (peer_id : PeerId) : P PingAction :=
  peer ← reads (λ s, ok_or (peers s !! peer_id) (OutboundStreamMissing peer_id));
  stream_id ← lift (ok_or (outbound_stream peer) (OutboundStreamMissing peer_id));
  match pending_ping peer with
  | Some _ => throw (PingAlreadyInFlight peer_id stream_id)
  | None => mret (CloseStreamWrite peer_id stream_id)
  end.

Definition process_complete_payload (peer_id : PeerId) (stream_id : Z) (received : bytes)
    (now_ms : Z) : P (list PingAction) :=
  peer ← reads (λ s, expect (peers s !! peer_id));
  if bool_decide (outbound_stream peer = Some stream_id)
  then
    _ ← set_peer peer_id {| peer with pending_ping := None |};
    match pending_ping peer with
    | None =>
        protocol_violation peer_id stream_id
          (str "received ping response with no in-flight request")
    | Some pending =>
        if negb (bool_decide (payload pending = received))
        then protocol_violation peer_id stream_id (str "ping response payload mismatch")
        else
          let rtt_ms := saturating_sub now_ms (sent_at_ms pending) in
          _ ← push_event (RttMeasured peer_id stream_id rtt_ms);
          mret []
    end
  else if bool_decide (stream_id ∈ inbound_streams peer)
  then mret [Send peer_id stream_id received]
  else mret [].

Definition is_known (s : PingProtocol) (peer_id : PeerId) (stream_id : Z) : bool :=
  match peers s !! peer_id with
  | Some p => bool_decide (outbound_stream p = Some stream_id)
              || bool_decide (stream_id ∈ inbound_streams p)
  | None => false
  end.

Definition on_stream_data (peer_id : PeerId) (stream_id : Z) (data : bytes) (now_ms : Z)
    : P (list PingAction) :=
  known ← gets (λ s, is_known s peer_id stream_id);
  if negb known
  then protocol_violation peer_id stream_id (str "ping data on unknown stream")
  else
    o ← gets (λ s, peers s !! peer_id);
    match o with
    | None =>
        protocol_violation peer_id stream_id
          (str "ping peer state disappeared while receiving data")
    | Some peer =>
        let buf := default [] (recv_bufs peer !! stream_id) ++ data in
        _ ← set_peer peer_id {| peer with recv_bufs := <[stream_id := buf]> (recv_bufs peer) |};
        let buf_len := zlen buf in
        if PING_PAYLOAD_LEN <? buf_len
        then
          _ ← modify (λ s, {| s with peers :=
                alter (λ p, {| p with recv_bufs := delete stream_id (recv_bufs p) |}) peer_id (peers s) |});
          protocol_violation peer_id stream_id
            (str "recv buffer " ++ dec buf_len ++ str " bytes exceeds payload size "
             ++ dec PING_PAYLOAD_LEN)
        else if buf_len <? PING_PAYLOAD_LEN then mret []
        else
          o ← gets (λ s, peers s !! peer_id);
          match o with
          | None =>
              protocol_violation peer_id stream_id
                (str "ping peer state disappeared before processing data")
          | Some peer =>
              match recv_bufs peer !! stream_id with
              | None =>
                  protocol_violation peer_id stream_id
                    (str "ping receive buffer disappeared before processing")
              | Some received =>
                  _ ← set_peer peer_id {| peer with recv_bufs := delete stream_id (recv_bufs peer) |};
                  if negb (zlen received =? PING_PAYLOAD_LEN)
                  then protocol_violation peer_id stream_id
                         (str "ping receive buffer changed size before processing")
                  else process_complete_payload peer_id stream_id received now_ms
              end
          end
    end.

Definition on_stream_remote_write_closed (peer_id : PeerId) (stream_id : Z)
    : P (list PingAction) :=
  o ← gets (λ s, peers s !! peer_id);
  match o with
  | None => mret []
  | Some peer =>
      if bool_decide (stream_id ∈ inbound_streams peer)
      then
        _ ← set_peer peer_id {| peer with inbound_streams := inbound_streams peer ∖ {[stream_id]};
                                recv_bufs := delete stream_id (recv_bufs peer) |};
        mret []
      else if bool_decide (outbound_stream peer = Some stream_id)
      then
        match pending_ping peer with
        | Some _ =>
            _ ← set_peer peer_id {| peer with pending_ping := None; outbound_stream := None;
                                    recv_bufs := delete stream_id (recv_bufs peer) |};
            protocol_violation peer_id stream_id
              (str "outbound stream closed before ping response")
        | None =>
            _ ← set_peer peer_id {| peer with outbound_stream := None;
                                    recv_bufs := delete stream_id (recv_bufs peer) |};
            _ ← push_event (OutboundStreamClosed peer_id stream_id);
            mret []
        end
      else mret []
  end.

Definition on_stream_closed (peer_id : PeerId) (stream_id : Z) : P unit :=
  o ← gets (λ s, peers s !! peer_id);
  match o with
  | None => mret tt
  | Some peer =>
      let peer := {| peer with inbound_streams := inbound_streams peer ∖ {[stream_id]};
                     recv_bufs := delete stream_id (recv_bufs peer) |} in
      set_peer peer_id
        (if bool_decide (outbound_stream peer = Some stream_id)
         then {| peer with outbound_stream := None; pending_ping := None |}
         else peer)
  end.

Definition remove_peer (peer_id : PeerId) : P unit :=
  modify (λ s, {| s with peers := delete peer_id (peers s) |}).

(** [if peer_id == old_peer_id { *peer_id = new_peer_id.clone(); }]. *)
Definition rename (old_peer_id new_peer_id peer_id : PeerId) : PeerId :=
  if bool_decide (peer_id = old_peer_id) then new_peer_id else peer_id.

Definition rename_event (old new : PeerId) (e : PingEvent) : PingEvent :=
  match e with
  | OutboundStreamRegistered p i => OutboundStreamRegistered (rename old new p) i
  | InboundStreamAccepted p i => InboundStreamAccepted (rename old new p) i
  | RttMeasured p i r => RttMeasured (rename old new p) i r
  | Timeout p i t => Timeout (rename old new p) i t
  | OutboundStreamClosed p i => OutboundStreamClosed (rename old new p) i
  | StreamLimitExceeded p i l => StreamLimitExceeded (rename old new p) i l
  | ProtocolViolation p i r => ProtocolViolation (rename old new p) i r
  end.

Definition migrate_peer (old_peer_id new_peer_id : PeerId) : P unit :=
  if bool_decide (old_peer_id = new_peer_id) then mret tt
  else
    _ ← modify (λ s,
          match peers s !! old_peer_id with
          | Some state =>
              {| s with peers := <[new_peer_id := state]> (delete old_peer_id (peers s)) |}
          | None => s
          end);
    modify (λ s, {| s with pending_events := rename_event old_peer_id new_peer_id <$> pending_events s |}).

(** One round of the [for] loop of [on_tick]. *)
Definition tick_peer (now_ms : Z) (peer_id : PeerId) : P (list PingAction) :=
  timeout_ms ← gets (λ s, request_timeout_ms (config s));
  o ← gets (λ s, peers s !! peer_id);
  match o with
  | None => mret []
  | Some peer =>
      match outbound_stream peer, pending_ping peer with
      | Some stream_id, Some pending =>
          let elapsed := saturating_sub now_ms (sent_at_ms pending) in
          if timeout_ms <? elapsed
          then
            _ ← set_peer peer_id {| peer with pending_ping := None; outbound_stream := None;
                                    recv_bufs := delete stream_id (recv_bufs peer) |};
            _ ← push_event (Timeout peer_id stream_id timeout_ms);
            _ ← push_event (OutboundStreamClosed peer_id stream_id);
            mret [ResetStream peer_id stream_id]
          else mret []
      | _, _ => mret []
      end
  end.

Fixpoint on_tick_loop (now_ms : Z) (ids : list PeerId) (actions : list PingAction)
    : P (list PingAction) :=
  match ids with
  | [] => mret actions
  | peer_id :: ids =>
      new ← tick_peer now_ms peer_id;
      on_tick_loop now_ms ids (actions ++ new)
  end.

Definition on_tick (now_ms : Z) : P (list PingAction) :=
  ids ← gets (λ s, btree_keys (peers s));
  on_tick_loop now_ms ids [].

Definition extend_actions (actions : list PingAction) : P unit :=
  modify (λ s, {| s with pending_actions := pending_actions s ++ actions |}).

Definition handle_input (input : PingInput) : P unit :=
  match input with
  | RegisterOutboundStream peer_id stream_id => register_outbound_stream peer_id stream_id
  | RegisterInboundStream peer_id stream_id =>
      actions ← register_inbound_stream peer_id stream_id; extend_actions actions
  | SendPing peer_id data now_ms =>
      action ← send_ping peer_id data now_ms; extend_actions [action]
  | CloseOutboundStreamWrite peer_id =>
      action ← close_outbound_stream_write peer_id; extend_actions [action]
  | StreamData peer_id stream_id data now_ms =>
      actions ← on_stream_data peer_id stream_id data now_ms; extend_actions actions
  | StreamRemoteWriteClosed peer_id stream_id =>
      actions ← on_stream_remote_write_closed peer_id stream_id; extend_actions actions
  | StreamClosed peer_id stream_id => on_stream_closed peer_id stream_id
  | RemovePeer peer_id => remove_peer peer_id
  | MigratePeer old_peer_id new_peer_id => migrate_peer old_peer_id new_peer_id
  | Tick now_ms => actions ← on_tick now_ms; extend_actions actions
  end.

Definition poll_output : P (option PingOutput) := λ s,
  match pending_actions s with
  | a :: rest => ({| s with pending_actions := rest |}, Ok (Some (Action a)))
  | [] =>
      match pending_events s with
      | e :: rest => ({| s with pending_events := rest |}, Ok (Some (Event e)))
      | [] => (s, Ok None)
      end
  end.

Definition is_idle (s : PingProtocol) : bool :=
  bool_decide (pending_actions s = []) && bool_decide (pending_events s = []).

(** ** The invariant *)

(** A peer has at most two inbound streams; a buffer belongs to a stream the
    peer has and is shorter than a payload; a request in flight has a full
    payload and a stream to be answered on. *)
Record peer_ok (p : PeerPingState) : Prop := {
  po_inbound : Z.of_nat (size (inbound_streams p)) ≤ MAX_INBOUND_STREAMS;
  po_bufs : map_Forall (λ i b, zlen b < PING_PAYLOAD_LEN ∧
              (outbound_stream p = Some i ∨ i ∈ inbound_streams p)) (recv_bufs p);
  po_pending : match pending_ping p with
               | Some q => zlen (payload q) = PING_PAYLOAD_LEN ∧ is_Some (outbound_stream p)
               | None => True
               end;
}.

Definition ping_ok (s : PingProtocol) : Prop := map_Forall (λ _, peer_ok) (peers s).

Lemma peer_ok_default : peer_ok PeerPingState_default.
Proof. split; cbn; [rewrite size_empty; unfold MAX_INBOUND_STREAMS; lia|apply map_Forall_empty|done]. Qed.

Lemma ping_ok_lookup s k p : ping_ok s → peers s !! k = Some p → peer_ok p.
Proof. intros Hs Hk. exact (Hs k p Hk). Qed.

Lemma ping_ok_insert s k p ev ac :
  ping_ok s → peer_ok p →
  ping_ok {| s with peers := <[k := p]> (peers s); pending_events := ev; pending_actions := ac |}.
Proof. intros Hs Hp. by apply map_Forall_insert_2. Qed.

Lemma ping_ok_outputs s ev ac :
  ping_ok s → ping_ok {| s with pending_events := ev; pending_actions := ac |}.
Proof. done. Qed.

Lemma peer_ok_drop_buf p i :
  peer_ok p → peer_ok {| p with recv_bufs := delete i (recv_bufs p) |}.
Proof. intros []. split; cbn; [done|by apply map_Forall_delete|done]. Qed.

(** Losing the inbound stream [i], with its buffer. *)
Lemma peer_ok_drop_inbound p i :
  peer_ok p → peer_ok {| p with inbound_streams := inbound_streams p ∖ {[i]};
                         recv_bufs := delete i (recv_bufs p) |}.
Proof.
  intros [Hin Hb Hp]. split; cbn; [| |done].
  - assert (size (inbound_streams p ∖ {[i]}) ≤ size (inbound_streams p))%nat; [|lia].
    apply subseteq_size. set_solver.
  - intros j b [Hne Hj]%lookup_delete_Some. destruct (Hb j b Hj) as [? [?|?]]; [auto|].
    split; [done|]. right. set_solver.
Qed.

(** Losing the outbound stream [i], with its buffer and the request on it. *)
Lemma peer_ok_drop_outbound p i :
  peer_ok p → outbound_stream p = Some i →
  peer_ok {| p with pending_ping := None; outbound_stream := None;
             recv_bufs := delete i (recv_bufs p) |}.
Proof.
  intros [Hin Hb Hp] Ho. split; cbn; [done| |done].
  intros j b [Hne Hj]%lookup_delete_Some. destruct (Hb j b Hj) as [? [Hout|?]]; [|auto].
  congruence.
Qed.

Lemma peer_ok_no_pending p : peer_ok p → peer_ok {| p with pending_ping := None |}.
Proof. intros []. by split. Qed.

Lemma wp_push_event e (Q : unit → PingProtocol → Prop) X s :
  Q tt {| s with pending_events := pending_events s ++ [e] |} → wp (push_event e) Q X s.
Proof. done. Qed.

Lemma wp_set_peer k p (Q : unit → PingProtocol → Prop) X s :
  Q tt {| s with peers := <[k := p]> (peers s) |} → wp (set_peer k p) Q X s.
Proof. done. Qed.

Lemma wp_violation k i r (Q : list PingAction → PingProtocol → Prop) X s :
  Q [ResetStream k i] {| s with pending_events := pending_events s ++ [ProtocolViolation k i r] |} →
  wp (protocol_violation k i r) Q X s.
Proof. done. Qed.

Lemma register_outbound_ok s k i :
  ping_ok s →
  wp (register_outbound_stream k i) (λ _ s', ping_ok s') (λ _ s', s' = s) s.
Proof.
  intros Hs. unfold register_outbound_stream, entry_or_default.
  wp_step. wp_step. wp_step. wp_step. apply wp_set_peer. wp_step.
  set (p := default _ _).
  assert (peer_ok p) as Hp.
  { unfold p. destruct (peers s !! k) eqn:Hk; [by eapply ping_ok_lookup|apply peer_ok_default]. }
  destruct (outbound_stream p) as [e|] eqn:Ho.
  - wp_step.
    + wp_step. unfold p in *. destruct (peers s !! k) as [q|] eqn:Hk; [|done].
      cbn. rewrite insert_id by done. by destruct s.
    + wp_step. by apply (ping_ok_insert s k p (pending_events s) (pending_actions s)).
  - wp_step. apply wp_set_peer, wp_push_event. cbn. rewrite insert_insert_eq.
    apply (ping_ok_insert s k {| p with outbound_stream := Some i |} _ (pending_actions s)); [done|].
    destruct Hp as [Hin Hb Hpp]. split; cbn; [done| |].
    + intros j b Hj. destruct (Hb j b Hj) as [? [?|?]]; [congruence|auto].
    + destruct (pending_ping p) as [q|]; [|done]. destruct Hpp as [_ []]. congruence.
Qed.

Lemma register_inbound_ok s k i :
  ping_ok s →
  wp (register_inbound_stream k i) (λ _ s', ping_ok s') (λ _ _, False) s.
Proof.
  intros Hs. unfold register_inbound_stream, entry_or_default.
  wp_step. wp_step. wp_step. wp_step. apply wp_set_peer. wp_step.
  set (p := default _ _).
  assert (peer_ok p) as Hp.
  { unfold p. destruct (peers s !! k) eqn:Hk; [by eapply ping_ok_lookup|apply peer_ok_default]. }
  wp_step; [wp_step; by apply (ping_ok_insert s k p (pending_events s) (pending_actions s))|].
  wp_step.
  - wp_step. apply wp_push_event. wp_step. by apply (ping_ok_insert s k p _ (pending_actions s)).
  - apply Z.leb_gt in Heqb0. apply bool_decide_eq_false in Heqb.
    wp_step. apply wp_set_peer. wp_step. apply wp_push_event. wp_step.
    cbn. rewrite insert_insert_eq.
    apply (ping_ok_insert s k {| p with inbound_streams := {[i]} ∪ inbound_streams p |} _ (pending_actions s)); [done|].
    destruct Hp as [Hin Hb Hpp]. split; cbn; [|intros j b Hj; destruct (Hb j b Hj); set_solver|done].
    rewrite size_union, size_singleton by set_solver. lia.
Qed.

Lemma send_ping_ok s k data now :
  ping_ok s → wp (send_ping k data now) (λ _ s', ping_ok s') (λ _ s', s' = s) s.
Proof.
  intros Hs. unfold send_ping. wp_step; [by wp_step|]. apply negb_false_iff, Z.eqb_eq in Heqb.
  wp_step. apply wp_reads. destruct (peers s !! k) as [p|] eqn:Hk; cbn; [|done].
  wp_step. apply wp_lift. destruct (outbound_stream p) as [i|] eqn:Ho; cbn; [|done].
  destruct (pending_ping p) eqn:Hpp; [by wp_step|]. wp_step. apply wp_set_peer. wp_step.
  apply (ping_ok_insert s k _ (pending_events s) (pending_actions s)); [done|].
  destruct (ping_ok_lookup s k p Hs Hk). split; cbn; try done. by rewrite <- Ho.
Qed.

Lemma close_outbound_ok s k :
  ping_ok s → wp (close_outbound_stream_write k) (λ _ s', s' = s) (λ _ s', s' = s) s.
Proof.
  intros Hs. unfold close_outbound_stream_write. wp_step. apply wp_reads.
  destruct (peers s !! k) as [p|]; cbn; [|done]. wp_step. apply wp_lift.
  destruct (outbound_stream p) as [i|]; cbn; [|done]. destruct (pending_ping p); by wp_step.
Qed.

Lemma process_payload_ok s k i data now :
  ping_ok s → is_Some (peers s !! k) →
  wp (process_complete_payload k i data now) (λ _ s', ping_ok s') (λ _ _, False) s.
Proof.
  intros Hs [p Hk]. pose proof (ping_ok_lookup s k p Hs Hk) as Hp.
  unfold process_complete_payload. wp_step. apply wp_reads. rewrite Hk. cbn [expect].
  wp_step.
  - wp_step. apply wp_set_peer. pose proof (peer_ok_no_pending p Hp) as Hp'.
    destruct (pending_ping p) as [q|].
    + wp_step.
      * apply wp_violation. by apply (ping_ok_insert s k _ _ (pending_actions s)).
      * wp_step. apply wp_push_event. wp_step. by apply (ping_ok_insert s k _ _ (pending_actions s)).
    + apply wp_violation. by apply (ping_ok_insert s k _ _ (pending_actions s)).
  - wp_step; by wp_step.
Qed.

Lemma on_stream_data_ok s k i data now :
  ping_ok s → wp (on_stream_data k i data now) (λ _ s', ping_ok s') (λ _ _, False) s.
Proof.
  intros Hs. unfold on_stream_data. wp_step. wp_step. wp_step; [by apply wp_violation|].
  apply negb_false_iff in Heqb. unfold is_known in Heqb.
  wp_step. wp_step. destruct (peers s !! k) as [p|] eqn:Hk; [|done].
  pose proof (ping_ok_lookup s k p Hs Hk) as Hp.
  set (buf := default [] (recv_bufs p !! i) ++ data).
  assert (∀ ev, ping_ok {| s with peers := <[k := {| p with recv_bufs :=
    delete i (recv_bufs p) |}]> (peers s); pending_events := ev |}) as Hdrop.
  { intros ev. apply (ping_ok_insert s k _ ev (pending_actions s)); [done|by apply peer_ok_drop_buf]. }
  wp_step. apply wp_set_peer. wp_step.
  - wp_step. wp_step. apply wp_violation. cbn [peers]. rewrite alter_insert_eq. cbn.
    rewrite delete_insert_eq. apply Hdrop.
  - apply Z.ltb_ge in Heqb0. wp_step.
    + apply Z.ltb_lt in Heqb1. wp_step.
      apply (ping_ok_insert s k _ (pending_events s) (pending_actions s)); [done|].
      destruct Hp as [Hin Hb Hpp]. split; cbn; [done| |done].
      apply map_Forall_insert_2; [split; [done|]|done].
      apply orb_true_iff in Heqb as [?%bool_decide_eq_true|?%bool_decide_eq_true]; auto.
    + wp_step. wp_step. cbn [peers]. rewrite lookup_insert_eq. cbn [recv_bufs].
      rewrite lookup_insert_eq. wp_step. apply wp_set_peer. cbn [peers]. rewrite insert_insert_eq.
      cbn. rewrite delete_insert_eq. wp_step; [apply wp_violation; apply Hdrop|].
      apply process_payload_ok; [exact (Hdrop (pending_events s))|].
      cbn. rewrite lookup_insert_eq. by eexists.
Qed.

Lemma remote_closed_ok s k i :
  ping_ok s → wp (on_stream_remote_write_closed k i) (λ _ s', ping_ok s') (λ _ _, False) s.
Proof.
  intros Hs. unfold on_stream_remote_write_closed. wp_step. wp_step.
  destruct (peers s !! k) as [p|] eqn:Hk; [|by wp_step].
  pose proof (ping_ok_lookup s k p Hs Hk) as Hp. wp_step.
  { wp_step. apply wp_set_peer. wp_step.
    apply (ping_ok_insert s k _ (pending_events s) (pending_actions s)); [done|by apply peer_ok_drop_inbound]. }
  wp_step; [|by wp_step]. apply bool_decide_eq_true in Heqb0.
  pose proof (peer_ok_drop_outbound p i Hp Heqb0) as Hp'.
  destruct (pending_ping p) eqn:Hpp.
  - wp_step. apply wp_set_peer, wp_violation. by apply (ping_ok_insert s k _ _ (pending_actions s)).
  - wp_step. apply wp_set_peer. wp_step. apply wp_push_event. wp_step.
    apply (ping_ok_insert s k _ _ (pending_actions s)); [done|]. exact Hp'.
Qed.

Lemma stream_closed_ok s k i :
  ping_ok s → wp (on_stream_closed k i) (λ _ s', ping_ok s') (λ _ _, False) s.
Proof.
  intros Hs. unfold on_stream_closed. wp_step. wp_step.
  destruct (peers s !! k) as [p|] eqn:Hk; [|by wp_step].
  pose proof (peer_ok_drop_inbound p i (ping_ok_lookup s k p Hs Hk)) as Hp. apply wp_set_peer.
  apply (ping_ok_insert s k _ (pending_events s) (pending_actions s)); [done|].
  case_bool_decide as Ho; [|done]. pose proof (peer_ok_drop_outbound _ i Hp Ho) as Hp'.
  cbn in Hp'. by rewrite delete_delete_eq in Hp'.
Qed.

(** ** Timeouts *)

(** The outbound stream of a peer whose request has been out for longer than
    the timeout. *)
Definition expired (now timeout : Z) (p : PeerPingState) : option Z :=
  i ← outbound_stream p;
  q ← pending_ping p;
  if timeout <? saturating_sub now (sent_at_ms q) then Some i else None.

Definition after_tick (now timeout : Z) (p : PeerPingState) : PeerPingState :=
  match expired now timeout p with
  | Some i => {| p with pending_ping := None; outbound_stream := None;
                 recv_bufs := delete i (recv_bufs p) |}
  | None => p
  end.

Definition tick_events (now timeout : Z) (m : gmap PeerId PeerPingState) (k : PeerId) : list PingEvent :=
  match m !! k ≫= expired now timeout with
  | Some i => [Timeout k i timeout; OutboundStreamClosed k i]
  | None => []
  end.

Definition tick_actions (now timeout : Z) (m : gmap PeerId PeerPingState) (k : PeerId) : list PingAction :=
  match m !! k ≫= expired now timeout with
  | Some i => [ResetStream k i]
  | None => []
  end.

Lemma tick_peer_run now k s :
  tick_peer now k s =
    ({| s with peers := alter (after_tick now (request_timeout_ms (config s))) k (peers s);
        pending_events := pending_events s ++
          tick_events now (request_timeout_ms (config s)) (peers s) k |},
     Ok (tick_actions now (request_timeout_ms (config s)) (peers s) k)).
Proof.
  set (t := request_timeout_ms (config s)).
  unfold tick_peer, mbind at 1 2, M_bind at 1 2, gets, tick_events, tick_actions. fold t.
  destruct (peers s !! k) as [p|] eqn:Hk.
  2:{ cbn. rewrite app_nil_r, alter_id' by done. by destruct s. }
  assert (expired now t p = None → alter (after_tick now t) k (peers s) = peers s) as Hid.
  { intros He. apply alter_id. intros x Hx. unfold after_tick. by simplify_eq; rewrite He. }
  assert (∀ i, expired now t p = Some i →
    alter (after_tick now t) k (peers s) =
      <[k := {| p with pending_ping := None; outbound_stream := None;
                recv_bufs := delete i (recv_bufs p) |}]> (peers s)) as Hex.
  { intros i He. rewrite <- (insert_id (peers s) k p Hk) at 1. rewrite alter_insert_eq.
    unfold after_tick. by rewrite He. }
  cbn [option_bind mbind]. unfold expired in *.
  destruct (outbound_stream p) as [i|]; cbn in *;
    [|rewrite app_nil_r, Hid by done; by destruct s].
  destruct (pending_ping p) as [q|]; cbn in *;
    [|rewrite app_nil_r, Hid by done; by destruct s].
  destruct (t <? _).
  - rewrite (Hex i) by done. unfold mbind, M_bind, set_peer, push_event, modify. cbn.
    by rewrite <- app_assoc.
  - rewrite app_nil_r, Hid by done. by destruct s.
Qed.

(** The rounds of the loop do not interfere: each looks at its own peer. *)
Lemma on_tick_loop_run now ids acts s :
  NoDup ids →
  ∃ m, on_tick_loop now ids acts s =
    ({| s with peers := m;
        pending_events := pending_events s ++
          (ids ≫= tick_events now (request_timeout_ms (config s)) (peers s)) |},
     Ok (acts ++ (ids ≫= tick_actions now (request_timeout_ms (config s)) (peers s)))) ∧
    ∀ k, m !! k = if bool_decide (k ∈ ids)
                  then after_tick now (request_timeout_ms (config s)) <$> peers s !! k
                  else peers s !! k.
Proof.
  set (t := request_timeout_ms (config s)) at 1.
  revert acts s t. induction ids as [|k ids IH]; intros acts s t Hnd; cbn [on_tick_loop].
  { exists (peers s). cbn. rewrite !app_nil_r. split; [by destruct s|done]. }
  apply NoDup_cons in Hnd as [Hk Hnd]. unfold mbind at 1, M_bind at 1. rewrite tick_peer_run.
  fold t. set (s1 := {| s with peers := _; pending_events := _ |}).
  destruct (IH (acts ++ tick_actions now t (peers s) k) s1 Hnd) as (m & -> & Hm).
  exists m. cbn [s1 config peers pending_events] in *. fold t in Hm |- *.
  assert (∀ j, j ∈ ids → alter (after_tick now t) k (peers s) !! j = peers s !! j) as Hsame.
  { intros j Hj. apply lookup_alter_ne. congruence. }
  assert (∀ {B} (f : gmap PeerId PeerPingState → PeerId → list B),
    (∀ m1 m2 j, m1 !! j = m2 !! j → f m1 j = f m2 j) →
    ids ≫= f (alter (after_tick now t) k (peers s)) = ids ≫= f (peers s)) as Hbind.
  { intros B f Hf. apply Forall_bind_ext, Forall_forall. intros j Hj. apply Hf. by apply Hsame. }
  split.
  - rewrite (Hbind _ (tick_events now t)), (Hbind _ (tick_actions now t)).
    + cbn. by rewrite <- !app_assoc.
    + intros m1 m2 j Hj. unfold tick_actions. by rewrite Hj.
    + intros m1 m2 j Hj. unfold tick_events. by rewrite Hj.
  - intros j. rewrite Hm. destruct (decide (j = k)) as [->|Hjk].
    + rewrite bool_decide_false, bool_decide_true by (done || set_solver).
      apply lookup_alter_eq.
    + rewrite lookup_alter_ne by done.
      by rewrite (bool_decide_ext (j ∈ ids) (j ∈ k :: ids)) by set_solver.
Qed.

(** What one tick does, to every peer at once. *)
Lemma on_tick_run now s :
  let t := request_timeout_ms (config s) in
  on_tick now s =
    ({| s with peers := after_tick now t <$> peers s;
        pending_events := pending_events s ++ (btree_keys (peers s) ≫= tick_events now t (peers s)) |},
     Ok (btree_keys (peers s) ≫= tick_actions now t (peers s))).
Proof.
  cbn zeta. unfold on_tick, mbind at 1, M_bind at 1, gets.
  destruct (on_tick_loop_run now (btree_keys (peers s)) [] s (NoDup_btree_keys _)) as (m & -> & Hm).
  cbn [app]. do 3 f_equal. apply map_eq. intros k. rewrite Hm, lookup_fmap.
  case_bool_decide as Hk; [done|]. rewrite elem_of_btree_keys in Hk.
  apply eq_None_not_Some in Hk. by rewrite Hk.
Qed.

Lemma on_tick_ok s now :
  ping_ok s → wp (on_tick now) (λ _ s', ping_ok s') (λ _ _, False) s.
Proof.
  intros Hs. unfold wp. rewrite on_tick_run. intros k p Hk. cbn in Hk.
  rewrite lookup_fmap in Hk. destruct (peers s !! k) as [q|] eqn:Hq; [|done].
  injection Hk as <-. pose proof (ping_ok_lookup s k q Hs Hq) as Hok. unfold after_tick.
  destruct (expired now _ q) as [i|] eqn:He; [|done]. apply peer_ok_drop_outbound; [done|].
  unfold expired in He. destruct (outbound_stream q); [|done]. cbn in He.
  destruct (pending_ping q); [|done]. cbn in He. by case_match; simplify_eq.
Qed.

Lemma migrate_ok s old new :
  ping_ok s → wp (migrate_peer old new) (λ _ s', ping_ok s') (λ _ _, False) s.
Proof.
  intros Hs. unfold migrate_peer. wp_step; [by wp_step|]. wp_step. wp_step. wp_step.
  destruct (peers s !! old) as [p|] eqn:Hk; [|done].
  apply map_Forall_insert_2; [by eapply ping_ok_lookup|by apply map_Forall_delete].
Qed.

(** Every input keeps the invariant; a refused one changes nothing. *)
Lemma handle_input_ok s input :
  ping_ok s → wp (handle_input input) (λ _ s', ping_ok s') (λ _ s', s' = s) s.
Proof.
  intros Hs. destruct input; cbn [handle_input].
  - by apply register_outbound_ok.
  - wp_step. eapply wp_mono; [by apply register_inbound_ok| |done]. intros acts s' Hs'. exact Hs'.
  - wp_step. eapply wp_mono; [by apply send_ping_ok| |done]. intros acts s' Hs'. exact Hs'.
  - wp_step. eapply wp_mono; [by apply close_outbound_ok| |done]. intros acts s' ->. exact Hs.
  - wp_step. eapply wp_mono; [by apply on_stream_data_ok| |done]. intros acts s' Hs'. exact Hs'.
  - wp_step. eapply wp_mono; [by apply remote_closed_ok| |done]. intros acts s' Hs'. exact Hs'.
  - eapply wp_mono; [by apply stream_closed_ok|done|done].
  - apply wp_modify. by apply map_Forall_delete.
  - eapply wp_mono; [by apply migrate_ok|done|done].
  - wp_step. eapply wp_mono; [by apply on_tick_ok| |done]. intros acts s' Hs'. exact Hs'.
Qed.

(** ** Fragmented payloads *)

(** A payload arrives as a sequence of chunks, each with its time. *)
Fixpoint feed (k : PeerId) (i : Z) (chunks : list (bytes * Z)) : P unit :=
  match chunks with
  | [] => mret tt
  | (data, now) :: chunks => _ ← handle_input (StreamData k i data now); feed k i chunks
  end.

Definition buffered (p : PeerPingState) (i : Z) : bytes := default [] (recv_bufs p !! i).

Definition owns (p : PeerPingState) (i : Z) : bool :=
  bool_decide (outbound_stream p = Some i) || bool_decide (i ∈ inbound_streams p).

(** Same peer, but for the buffer of stream [i]. *)
Definition same_but_buffer (i : Z) (p p' : PeerPingState) : Prop :=
  ∃ bufs, p' = {| p with recv_bufs := bufs |} ∧ delete i bufs = delete i (recv_bufs p).

Lemma data_partial s k p i data now :
  peers s !! k = Some p → owns p i = true → zlen (buffered p i ++ data) < PING_PAYLOAD_LEN →
  handle_input (StreamData k i data now) s =
    ({| s with peers := <[k := {| p with recv_bufs :=
          <[i := buffered p i ++ data]> (recv_bufs p) |}]> (peers s) |}, Ok tt).
Proof.
  intros Hk Ho Hlen. cbn [handle_input]. unfold on_stream_data, mbind, M_bind, gets, is_known.
  rewrite Hk. fold (owns p i). rewrite Ho. cbn [negb]. rewrite Hk. fold (buffered p i).
  unfold set_peer, modify. destruct (Z.ltb_spec PING_PAYLOAD_LEN (zlen (buffered p i ++ data))); [lia|].
  destruct (Z.ltb_spec (zlen (buffered p i ++ data)) PING_PAYLOAD_LEN); [|lia].
  unfold extend_actions, modify, mret, M_ret. cbn. by rewrite app_nil_r.
Qed.

Lemma data_complete s k p i data now :
  peers s !! k = Some p → owns p i = true → zlen (buffered p i ++ data) = PING_PAYLOAD_LEN →
  handle_input (StreamData k i data now) s =
    (acts ← process_complete_payload k i (buffered p i ++ data) now; extend_actions acts)
      {| s with peers := <[k := {| p with recv_bufs := delete i (recv_bufs p) |}]> (peers s) |}.
Proof.
  intros Hk Ho Hlen. cbn [handle_input].
  unfold on_stream_data at 1, mbind, M_bind, gets, is_known.
  rewrite Hk. fold (owns p i). rewrite Ho. cbn [negb]. rewrite Hk. fold (buffered p i).
  unfold set_peer, modify. rewrite Hlen. destruct (Z.ltb_spec PING_PAYLOAD_LEN PING_PAYLOAD_LEN); [lia|].
  cbn [peers]. rewrite lookup_insert_eq. cbn [recv_bufs]. rewrite lookup_insert_eq.
  rewrite Hlen, Z.eqb_refl. cbn [negb peers]. rewrite insert_insert_eq. cbn. by rewrite delete_insert_eq.
Qed.

Lemma same_but_buffer_insert i p p' b :
  same_but_buffer i p p' →
  same_but_buffer i p {| p' with recv_bufs := <[i := b]> (recv_bufs p') |}.
Proof.
  intros (bufs & -> & Hd). exists (<[i := b]> bufs). split; [done|].
  by rewrite delete_insert_eq.
Qed.

Lemma feed_partial chunks : ∀ s k p i,
  peers s !! k = Some p → owns p i = true →
  zlen (buffered p i ++ concat chunks.*1) < PING_PAYLOAD_LEN →
  ∃ p', feed k i chunks s = ({| s with peers := <[k := p']> (peers s) |}, Ok tt) ∧
    same_but_buffer i p p' ∧ buffered p' i = buffered p i ++ concat chunks.*1.
Proof.
  induction chunks as [|[data now] chunks IH]; intros s k p i Hk Ho Hlen; cbn [feed].
  - exists p. cbn. rewrite insert_id, app_nil_r by done. split_and!; [by destruct s| |done].
    exists (recv_bufs p). by destruct p.
  - cbn [fst fmap list_fmap concat] in *. unfold mbind, M_bind.
    rewrite (data_partial s k p i data now) by (done || zlen_lia).
    set (p1 := {| p with recv_bufs := <[i := buffered p i ++ data]> (recv_bufs p) |}).
    assert (buffered p1 i = buffered p i ++ data) as Hb1
      by (unfold buffered at 1; cbn; by rewrite lookup_insert_eq).
    destruct (IH {| s with peers := <[k := p1]> (peers s) |} k p1 i) as (p' & Hrun & Hsame & Hb).
    { apply lookup_insert_eq. } { done. } { rewrite Hb1, <- app_assoc. exact Hlen. }
    exists p'. rewrite Hrun. cbn [peers]. rewrite insert_insert_eq. split_and!; [done| |].
    + destruct Hsame as (bufs & -> & Hd). exists bufs. split; [done|]. cbn in Hd.
      by rewrite delete_insert_eq in Hd.
    + by rewrite Hb, Hb1, <- app_assoc.
Qed.

Lemma feed_complete chunks s k p i data now :
  peers s !! k = Some p → owns p i = true → recv_bufs p !! i = None → data ≠ [] →
  zlen (concat chunks.*1 ++ data) = PING_PAYLOAD_LEN →
  (_ ← feed k i chunks; handle_input (StreamData k i data now)) s =
    (acts ← process_complete_payload k i (concat chunks.*1 ++ data) now; extend_actions acts) s.
Proof.
  intros Hk Ho Hn Hne Hlen.
  assert (buffered p i = []) as Hb0 by (unfold buffered; by rewrite Hn).
  assert (zlen data ≠ 0) by (by intros ?%zlen_zero_inv).
  destruct (feed_partial chunks s k p i Hk Ho) as (p' & Hrun & (bufs & -> & Hd) & Hb).
  { rewrite Hb0. zlen_lia. }
  unfold mbind at 1, M_bind at 1. rewrite Hrun. rewrite Hb0 in Hb. cbn [app] in Hb.
  rewrite (data_complete _ k {| p with recv_bufs := bufs |} i data now).
  - rewrite Hb. f_equal. cbn. rewrite insert_insert_eq, Hd, delete_id by done.
    rewrite insert_id by (rewrite Hk; by destruct p). by destruct s.
  - cbn. apply lookup_insert_eq.
  - done.
  - by rewrite Hb.
Qed.

(** ** The machine behind the driver's interface *)

#[global] Instance ping_protocol :
    SansIoProtocol PingProtocol PingInput PingOutput PingError := {|
  SansIo.handle_input := handle_input;
  SansIo.poll_output := poll_output;
  SansIo.is_idle := is_idle;
|}.

#[global] Program Instance ping_contract :
    SansIoContract (P := PingProtocol) (Input := PingInput) ping_ok (λ _ _, True) := {|
  backlog s := (length (pending_actions s) + length (pending_events s))%nat;
|}.
Next Obligation.
  intros s input Hs _. eapply wp_mono; [by apply handle_input_ok|done|by intros ? ? ->].
Qed.
Next Obligation.
  intros s Hs. cbn. unfold poll_output, is_idle.
  destruct (pending_actions s) as [|a acts] eqn:Ha.
  - destruct (pending_events s) as [|e evs] eqn:He; eexists _, _; (split; [done|]); (split; [done|]).
    + done.
    + split; [done|cbn; lia].
  - eexists _, _. split; [done|]. split; [done|]. split; [done|cbn; lia].
Qed.

(** ** Properties *)

(** C30: from a fresh machine, through every sequence of inputs and polls, no
    operation panics; a refused input leaves the machine as it was; and what is
    kept per peer stays bounded: at most two inbound streams, and for each
    stream the peer has, fewer than 32 buffered bytes. *)
Theorem ping_runs_are_bounded c s input :
  driven (λ _ _, True) (λ s0, s0 = ping_new c) s →
  ping_ok s ∧
  match handle_input input s with
  | (s', Ok _) => ping_ok s'
  | (s', Err _) => s' = s
  | _ => False
  end.
Proof.
  intros Hs. assert (ping_ok s) as Hok.
  { refine (driven_inv ping_ok (λ _ _, True) (λ s0, s0 = ping_new c) s _ Hs).
    intros ? ->. apply map_Forall_empty. }
  split; [done|]. exact (handle_input_ok s input Hok).
Qed.

(** Round trip. The answer to a ping in flight may arrive in any number of
    fragments: once the 32 bytes that were sent are complete, the machine
    reports exactly one round-trip time, the time since the ping was sent, and
    nothing else; the request is no longer in flight. *)
Theorem ping_round_trip s k p i q chunks data now :
  peers s !! k = Some p → outbound_stream p = Some i → pending_ping p = Some q →
  recv_bufs p !! i = None → data ≠ [] →
  zlen (payload q) = PING_PAYLOAD_LEN → concat chunks.*1 ++ data = payload q →
  (_ ← feed k i chunks; handle_input (StreamData k i data now)) s =
    ({| s with peers := <[k := {| p with pending_ping := None |}]> (peers s);
        pending_events := pending_events s ++
          [RttMeasured k i (saturating_sub now (sent_at_ms q))] |}, Ok tt).
Proof.
  intros Hk Ho Hq Hb Hne Hlen Hcat.
  rewrite (feed_complete chunks s k p i data now); try done; [|unfold owns; by rewrite Ho, bool_decide_true|by rewrite Hcat].
  unfold process_complete_payload, mbind, M_bind, reads. rewrite Hk. cbn [expect].
  rewrite Ho, bool_decide_true, Hq, Hcat, bool_decide_true by done. cbn.
  unfold extend_actions, modify, mret, M_ret. cbn. by rewrite app_nil_r.
Qed.

(** Echo. A payload of 32 bytes that arrives on an inbound stream, in any
    number of fragments, is sent back on that stream unchanged, once; no event
    is raised and the peer's state is as before. *)
Theorem ping_echoes s k p i chunks data now :
  peers s !! k = Some p → i ∈ inbound_streams p → outbound_stream p ≠ Some i →
  recv_bufs p !! i = None → data ≠ [] →
  zlen (concat chunks.*1 ++ data) = PING_PAYLOAD_LEN →
  (_ ← feed k i chunks; handle_input (StreamData k i data now)) s =
    ({| s with pending_actions := pending_actions s ++ [Send k i (concat chunks.*1 ++ data)] |}, Ok tt).
Proof.
  intros Hk Hin Ho Hb Hne Hlen.
  rewrite (feed_complete chunks s k p i data now); try done;
    [|unfold owns; by rewrite (bool_decide_true (i ∈ _)), orb_true_r].
  unfold process_complete_payload, mbind, M_bind, reads. rewrite Hk. cbn [expect].
  by rewrite bool_decide_false, bool_decide_true.
Qed.

(** A tick reports every request that has been out for longer than the
    timeout, and no other: in the order of the peers, one [Timeout] and one
    [OutboundStreamClosed] event and one reset of its stream; the other peers
    are untouched, and afterwards no request is overdue. *)
Theorem tick_expires_overdue s now s' r :
  handle_input (Tick now) s = (s', r) →
  let t := request_timeout_ms (config s) in
  let overdue := btree_keys (peers s) in
  r = Ok tt ∧ peers s' = after_tick now t <$> peers s ∧
  pending_events s' = pending_events s ++ (overdue ≫= tick_events now t (peers s)) ∧
  pending_actions s' = pending_actions s ++ (overdue ≫= tick_actions now t (peers s)) ∧
  ∀ k p, peers s' !! k = Some p → expired now t p = None.
Proof.
  cbn [handle_input]. unfold mbind, M_bind. rewrite on_tick_run. unfold extend_actions, modify.
  cbn. intros [= <- <-]. split_and!; try done. cbn. intros k p Hk. rewrite lookup_fmap in Hk.
  destruct (peers s !! k) as [q|]; [|done]. injection Hk as <-. unfold after_tick.
  destruct (expired now _ q) eqn:He; [done|exact He].
Qed.

(** Data that cannot be a ping answer or request is refused: on a stream the
    peer does not have, past the 32 bytes of a payload, or complete but not what
    was sent. Each time the machine reports one violation and resets the
    stream. *)
Theorem ping_violations_reset s k i data now :
  ping_ok s →
  (is_known s k i = false ∨
   ∃ p, peers s !! k = Some p ∧ owns p i = true ∧
     (PING_PAYLOAD_LEN < zlen (buffered p i ++ data) ∨
      zlen (buffered p i ++ data) = PING_PAYLOAD_LEN ∧ outbound_stream p = Some i ∧
      (∀ q, pending_ping p = Some q → payload q ≠ buffered p i ++ data))) →
  ∃ s' reason, handle_input (StreamData k i data now) s = (s', Ok tt) ∧
    pending_events s' = pending_events s ++ [ProtocolViolation k i reason] ∧
    pending_actions s' = pending_actions s ++ [ResetStream k i].
Proof.
  intros Hs [Hn|(p & Hk & Ho & Hbad)].
  - cbn [handle_input]. unfold on_stream_data, mbind, M_bind, gets. rewrite Hn.
    by eexists _, _.
  - destruct Hbad as [Hlong|(Hlen & Hout & Hq)].
    + cbn [handle_input]. unfold on_stream_data, mbind, M_bind, gets, is_known.
      rewrite Hk. fold (owns p i). rewrite Ho. cbn [negb]. rewrite Hk. fold (buffered p i).
      unfold set_peer, modify.
      destruct (Z.ltb_spec PING_PAYLOAD_LEN (zlen (buffered p i ++ data))); [|lia].
      by eexists _, _.
    + rewrite (data_complete s k p i data now) by done.
      unfold process_complete_payload, mbind, M_bind, reads. cbn [peers]. rewrite lookup_insert_eq.
      cbn [expect outbound_stream]. rewrite bool_decide_true by done. cbn [pending_ping].
      destruct (pending_ping p) as [q|]; [|by eexists _, _].
      rewrite bool_decide_false by (by apply Hq). by eexists _, _.
Qed.

(** The verified identity replaces the placeholder. Migrating a peer moves
    its whole state to the new identifier, leaves nothing under the old one, and
    renames the old identifier in every queued event. *)
Theorem migrate_moves_everything s old new p :
  old ≠ new → peers s !! old = Some p →
  ∃ s', handle_input (MigratePeer old new) s = (s', Ok tt) ∧
    peers s' !! new = Some p ∧ peers s' !! old = None ∧
    (∀ k, k ≠ old → k ≠ new → peers s' !! k = peers s !! k) ∧
    pending_events s' = rename_event old new <$> pending_events s.
Proof.
  intros Hne Hp. cbn [handle_input]. unfold migrate_peer. rewrite bool_decide_false by done.
  unfold mbind, M_bind, modify. rewrite Hp. eexists. split; [done|]. cbn. split_and!; [..|done].
  - apply lookup_insert_eq.
  - rewrite lookup_insert_ne by done. apply lookup_delete_eq.
  - intros k Ho Hn. rewrite lookup_insert_ne, lookup_delete_ne by done. done.
Qed.

End Ping.

Arguments PingInput : clear implicits.
Arguments ping_new {PeerId _ _} config.

(** ** The properties at work *)

(** Peer 7 with an outbound stream 4, an inbound stream 9 and a ping in flight
    since time 100. *)
Definition demo_payload : bytes := replicate 32 Byte.x2a.
Definition demo_peer : PeerPingState :=
  mkPeer (Some 4) {[9]} (Some (mkPending demo_payload 100)) ∅.
Definition demo_ping : PingProtocol (PeerId := Z) :=
  mkPing {[7 := demo_peer]} [] [] PingConfig_default.

Lemma demo_peer_ok : peer_ok demo_peer.
Proof. split; [by vm_compute|apply map_Forall_empty|]. split; [by vm_compute|by eexists]. Qed.

Lemma ping_runs_are_bounded_witness :
  ping_ok (ping_new (PeerId := Z) PingConfig_default).
Proof.
  apply (ping_runs_are_bounded PingConfig_default (ping_new PingConfig_default) (Tick 5)).
  by apply driven_init.
Defined.

Lemma ping_round_trip_witness :
  pending_events ((_ ← feed 7 4 [(replicate 10 Byte.x2a, 120)];
    handle_input (StreamData 7 4 (replicate 22 Byte.x2a) 130)) demo_ping).1 = [RttMeasured 7 4 30].
Proof.
  rewrite (ping_round_trip demo_ping 7 demo_peer 4 (mkPending demo_payload 100)
    [(replicate 10 Byte.x2a, 120)] (replicate 22 Byte.x2a) 130); try reflexivity; done.
Defined.

Lemma ping_echoes_witness :
  pending_actions ((_ ← feed 7 9 [(replicate 10 Byte.x01, 1)];
    handle_input (StreamData 7 9 (replicate 22 Byte.x01) 2)) demo_ping).1
  = [Send 7 9 (replicate 32 Byte.x01)].
Proof.
  rewrite (ping_echoes demo_ping 7 demo_peer 9 [(replicate 10 Byte.x01, 1)] (replicate 22 Byte.x01) 2);
    try reflexivity; done.
Defined.

Lemma tick_expires_overdue_witness :
  pending_events (handle_input (Tick 20000) demo_ping).1 = [Timeout 7 4 10000; OutboundStreamClosed 7 4].
Proof.
  destruct (tick_expires_overdue demo_ping 20000 (handle_input (Tick 20000) demo_ping).1 (Ok tt))
    as (_ & _ & -> & _); vm_compute; reflexivity.
Defined.

Lemma ping_violations_reset_witness :
  ∃ s' reason, handle_input (StreamData 7 5 [] 3) demo_ping = (s', Ok tt) ∧
    pending_events s' = pending_events demo_ping ++ [ProtocolViolation 7 5 reason] ∧
    pending_actions s' = pending_actions demo_ping ++ [ResetStream 7 5].
Proof.
  apply (ping_violations_reset demo_ping 7 5 [] 3).
  - apply map_Forall_singleton, demo_peer_ok.
  - left. vm_compute. reflexivity.
Defined.

Lemma migrate_moves_everything_witness :
  peers (handle_input (MigratePeer 7 8) demo_ping).1 !! 8 = Some demo_peer.
Proof.
  destruct (migrate_moves_everything demo_ping 7 8 demo_peer) as (s' & Hrun & H & _);
    [done|reflexivity|]. rewrite Hrun. exact H.
Defined.

(** The documentation of [migrate_peer] calls it a no-op when there is no state
    for the old identifier; queued events are renamed all the same. *)
Example migrate_without_state_renames :
  let s := (_ ← handle_input (RegisterOutboundStream 7 4); handle_input (RemovePeer 7))
             (ping_new PingConfig_default) in
  peers s.1 !! 7 = None ∧
  pending_events (handle_input (MigratePeer 7 8) s.1).1 = [OutboundStreamRegistered 8 4] ∧
  pending_events s.1 = [OutboundStreamRegistered 7 4].
Proof. vm_compute. done. Qed.
