(* ===== verification/Base58.v ===== *)
(** The text encodings of [crates/identity/src/peer_id.rs]: base58btc and
    unpadded base32. A [&str] is the list of its characters (code points). *)

From Stdlib Require Import Strings.Byte.
From S2P Require Import Prelude Varint.

Abbreviation char := Z (only parsing).
Abbreviation text := (list Z) (only parsing).

Definition chars (s : bytes) : text := b2z <$> s.

Definition BASE58_ALPHABET : text :=
  chars (str "123456789ABCDEFGHJKLMNPQRSTUVWXYZabcdefghijkmnopqrstuvwxyz").
Definition BASE32_ALPHABET_LOWER : text := chars (str "abcdefghijklmnopqrstuvwxyz234567").

#[global] Arguments BASE58_ALPHABET : simpl never.
#[global] Arguments BASE32_ALPHABET_LOWER : simpl never.

Inductive PeerIdError :=
  | EmptyInput
  | UnsupportedMultibase (prefix : char)
  | UnsupportedCidVersion (version : Z)
  | UnsupportedMulticodec (codec : Z)
  | InvalidSha256DigestLength (actual : Z)
  | InvalidBase58Character (character : char) (index : Z)
  | InvalidBase32Character (character : char) (index : Z)
  | InvalidCidVersionVarint (e : VarintError)
  | InvalidCidMulticodecVarint (e : VarintError)
  | InvalidMultihash (reason : bytes).

(** [iter().take_while(p).count()]. *)
Fixpoint count_while {A} (p : A → bool) (l : list A) : nat :=
  match l with
  | x :: l => if p x then S (count_while p l) else 0%nat
  | [] => 0%nat
  end.

(** ** base58btc *)

(** [for digit in &mut digits]: multiply the little-endian digits by 256 and
    add [carry]; returns the new digits and the carry left over. *)
Fixpoint b58_mul (digits : list Z) (carry : Z) : list Z * Z :=
  match digits with
  | [] => ([], carry)
  | digit :: digits =>
      let value := digit * 256 + carry in
      let '(ds, carry) := b58_mul digits (value / 58) in
      (value mod 58 :: ds, carry)
  end.

(** [while carry > 0]. *)
Fixpoint b58_push (fuel : nat) (carry : Z) : list Z :=
  match fuel with
  | O => []
  | S fuel => if 0 <? carry then carry mod 58 :: b58_push fuel (carry / 58) else []
  end.

Definition b58_byte (digits : list Z) (b : byte) : list Z :=
  let '(digits, carry) := b58_mul digits (b2z b) in
  let digits := digits ++ b58_push (Z.to_nat (Z.log2 carry + 1)) carry in
  match digits with [] => [0] | _ => digits end.

Definition encode_base58 (input : bytes) : res PeerIdError text :=
  match input with
  | [] => mret []
  | _ =>
      let leading_zeros := count_while (λ b, b2z b =? 0) input in
      let digits := foldl b58_byte [] (drop leading_zeros input) in
      let zeros := replicate leading_zeros 49 in
      match digits with
      | [] => mret zeros
      | _ =>
          rest ← expect (mapM (λ d, BASE58_ALPHABET !! Z.to_nat d) (reverse digits));
          mret (zeros ++ rest)
      end
  end.

(** [BASE58_ALPHABET.iter().position(|v| *v == c as u8)]: the cast keeps the low
    eight bits of the code point. *)
Definition base58_value (c : char) : option Z :=
  Z.of_nat <$> (fst <$> list_find (λ v, v = c mod 256) BASE58_ALPHABET).

Fixpoint b256_mul (bs : list Z) (carry : Z) : list Z * Z :=
  match bs with
  | [] => ([], carry)
  | b :: bs =>
      let acc := b * 58 + carry in
      let '(out, carry) := b256_mul bs (Z.shiftr acc 8) in
      (Z.land acc 255 :: out, carry)
  end.

Fixpoint b256_push (fuel : nat) (carry : Z) : list Z :=
  match fuel with
  | O => []
  | S fuel => if 0 <? carry then Z.land carry 255 :: b256_push fuel (Z.shiftr carry 8) else []
  end.

Definition b256_char (bs : list Z) (value : Z) : list Z :=
  let bs := match bs with [] => [0] | _ => bs end in
  let '(bs, carry) := b256_mul bs value in
  bs ++ b256_push (Z.to_nat (Z.log2 carry + 1)) carry.

Fixpoint decode_base58_loop (index : Z) (input : text) (bs : list Z) : res PeerIdError (list Z) :=
  match input with
  | [] => mret bs
  | ch :: input =>
      value ← ok_or (base58_value ch) (InvalidBase58Character ch index);
      decode_base58_loop (index + 1) input (b256_char bs value)
  end.

Definition decode_base58 (input : text) : res PeerIdError bytes :=
  match input with
  | [] => Err EmptyInput
  | _ =>
      let leading_zeros := count_while (λ c, c =? 49) input in
      bs ← decode_base58_loop (Z.of_nat leading_zeros) (drop leading_zeros input) [];
      mret (replicate leading_zeros x00 ++ (z2b <$> reverse bs))
  end.

(** ** base32 *)

(** [while bits >= 5] of the encoder: the indices emitted and the bits left. *)
Fixpoint b32_emit (fuel : nat) (buffer bits : Z) : list Z * Z :=
  match fuel with
  | O => ([], bits)
  | S fuel =>
      if 5 <=? bits
      then let '(out, bits') := b32_emit fuel buffer (bits - 5) in
           (Z.land (Z.shiftr buffer (bits - 5)) 31 :: out, bits')
      else ([], bits)
  end.

(** The [for] loop over the bytes; [buffer] is a [u16]. *)
Fixpoint encode_base32_loop (input : bytes) (buffer bits : Z) : list Z * Z * Z :=
  match input with
  | [] => ([], buffer, bits)
  | b :: input =>
      let buffer := Z.lor (Z.shiftl buffer 8 mod 65536) (b2z b) in
      let bits := bits + 8 in
      let '(out, bits) := b32_emit (Z.to_nat bits) buffer bits in
      let '(rest, buffer, bits) := encode_base32_loop input buffer bits in
      (out ++ rest, buffer, bits)
  end.

Definition encode_base32_nopad_lower (input : bytes) : res PeerIdError text :=
  match input with
  | [] => mret []
  | _ =>
      let '(out, buffer, bits) := encode_base32_loop input 0 0 in
      let idx := if 0 <? bits then out ++ [Z.land (Z.shiftl buffer (5 - bits) mod 65536) 31] else out in
      expect (mapM (λ i, BASE32_ALPHABET_LOWER !! Z.to_nat i) idx)
  end.

(** [char::to_ascii_lowercase]. *)
Definition to_ascii_lowercase (c : char) : char :=
  if (65 <=? c) && (c <=? 90) then c + 32 else c.

Definition base32_value (c : char) : option Z :=
  let lower := to_ascii_lowercase c in
  if (97 <=? lower) && (lower <=? 122) then Some (lower - 97)
  else if (50 <=? lower) && (lower <=? 55) then Some (26 + (lower - 50))
  else None.

Fixpoint b32_bytes (fuel : nat) (buffer bits : Z) : bytes * Z :=
  match fuel with
  | O => ([], bits)
  | S fuel =>
      if 8 <=? bits
      then let '(out, bits') := b32_bytes fuel buffer (bits - 8) in
           (z2b (Z.land (Z.shiftr buffer (bits - 8)) 255) :: out, bits')
      else ([], bits)
  end.

(** The loop over the characters; [buffer] is a [u32]. *)
Fixpoint decode_base32_loop (index : Z) (input : text) (buffer bits : Z) : res PeerIdError bytes :=
  match input with
  | [] => mret []
  | ch :: input =>
      value ← ok_or (base32_value ch) (InvalidBase32Character ch index);
      let buffer := Z.lor (Z.shiftl buffer 5 mod 4294967296) value in
      let bits := bits + 5 in
      let '(out, bits) := b32_bytes (Z.to_nat bits) buffer bits in
      rest ← decode_base32_loop (index + 1) input buffer bits;
      mret (out ++ rest)
  end.

Definition decode_base32_nopad (input : text) : res PeerIdError bytes :=
  match input with
  | [] => mret []
  | _ => decode_base32_loop 0 input 0 0
  end.

Example base58_demo :
  encode_base58 [x00; x00; x28; x7f; xb4; xcd] = Ok (chars (str "11233QC4")) ∧
  decode_base58 (chars (str "11233QC4")) = Ok [x00; x00; x28; x7f; xb4; xcd].
Proof. by vm_compute. Qed.

Example base32_demo :
  encode_base32_nopad_lower (str "fooba") = Ok (chars (str "mzxw6ytb")) ∧
  encode_base32_nopad_lower (str "foob") = Ok (chars (str "mzxw6yq")) ∧
  decode_base32_nopad (chars (str "mzxw6yq")) = Ok (str "foob").
Proof. by vm_compute. Qed.

(** ** Positional numerals *)

Section Digits.
Context (B : Z) (HB : 2 ≤ B).

Definition le_value (ds : list Z) : Z := foldr (λ d acc, d + B * acc) 0 ds.

(** Digits in range, and no zero at the most significant end. *)
Definition canonical (ds : list Z) : Prop :=
  Forall (λ d, 0 ≤ d < B) ds ∧ last ds ≠ Some 0.

Lemma le_value_cons d ds : le_value (d :: ds) = d + B * le_value ds.
Proof. done. Qed.

Lemma le_value_nonneg ds : Forall (λ d, 0 ≤ d < B) ds → 0 ≤ le_value ds.
Proof. induction 1; [done|]. rewrite le_value_cons. nia. Qed.

Lemma le_value_app a b : le_value (a ++ b) = le_value a + B ^ zlen a * le_value b.
Proof.
  induction a as [|d a IH]; [rewrite (zlen_nil (A := Z)), Z.pow_0_r; cbn [app]; change (le_value []) with 0; lia|].
  cbn [app]. rewrite !le_value_cons, IH.
  rewrite zlen_cons, Z.pow_add_r by (try lia; apply zlen_nonneg). lia.
Qed.

Lemma le_value_lt ds : Forall (λ d, 0 ≤ d < B) ds → le_value ds < B ^ zlen ds.
Proof.
  induction 1 as [|d ds Hd Hds IH]; [done|]. rewrite le_value_cons.
  rewrite zlen_cons, Z.pow_add_r by (try lia; apply zlen_nonneg). nia.
Qed.

Lemma canonical_cons d ds : canonical (d :: ds) → 0 ≤ d < B ∧ canonical ds ∧ (ds = [] → d ≠ 0).
Proof.
  intros [[Hd Hds]%Forall_cons Hl]. split_and!; [lia|lia| |].
  - split; [done|]. by destruct ds.
  - intros ->. cbn in Hl. congruence.
Qed.

Lemma canonical_pos ds : canonical ds → ds ≠ [] → B ^ (zlen ds - 1) ≤ le_value ds.
Proof.
  induction ds as [|d ds IH]; [done|]. intros (Hd & Hc & H0)%canonical_cons _. rewrite le_value_cons.
  rewrite zlen_cons. replace (zlen ds + 1 - 1) with (zlen ds) by lia.
  destruct (decide (ds = [])) as [->|Hne].
  - specialize (H0 eq_refl). change (zlen []) with 0. change (le_value []) with 0. lia.
  - specialize (IH Hc Hne). assert (1 ≤ zlen ds).
    { destruct ds; [done|]. zlen_lia. }
    replace (zlen ds) with (1 + (zlen ds - 1)) at 1 by lia. rewrite Z.pow_add_r by lia. nia.
Qed.

Lemma canonical_zero ds : canonical ds → le_value ds = 0 → ds = [].
Proof.
  intros Hc Hv. destruct (decide (ds = [])) as [|Hne]; [done|].
  pose proof (canonical_pos ds Hc Hne). assert (0 < B ^ (zlen ds - 1)); [|lia].
  apply Z.pow_pos_nonneg; [lia|]. destruct ds; [done|]. zlen_lia.
Qed.

Lemma canonical_inj a b : canonical a → canonical b → le_value a = le_value b → a = b.
Proof.
  revert b. induction a as [|d a IH]; intros b Ha Hb Hv.
  - symmetry. by apply canonical_zero.
  - destruct b as [|e b]; [by apply canonical_zero in Hv; [|done]|].
    apply canonical_cons in Ha as (Hd & Ha & _). apply canonical_cons in Hb as (He & Hb & _).
    rewrite !le_value_cons in Hv.
    assert (d = e ∧ le_value a = le_value b) as [-> Hab].
    { assert (d = e); [|split; nia].
      assert ((d + B * le_value a) mod B = (e + B * le_value b) mod B) as Hm by congruence.
      rewrite !(Z.mul_comm B), !Z.mod_add, !Z.mod_small in Hm by lia. done. }
    f_equal. by apply IH.
Qed.

(** Multiplying by [m] and adding [c], digit by digit. *)
Fixpoint mul_add (m : Z) (ds : list Z) (c : Z) : list Z * Z :=
  match ds with
  | [] => ([], c)
  | d :: ds =>
      let v := d * m + c in
      let '(r, c') := mul_add m ds (v / B) in (v mod B :: r, c')
  end.

Fixpoint push (fuel : nat) (c : Z) : list Z :=
  match fuel with
  | O => []
  | S fuel => if 0 <? c then c mod B :: push fuel (c / B) else []
  end.

Definition numeral_step (m : Z) (ds : list Z) (c : Z) : list Z :=
  let '(r, c') := mul_add m ds c in r ++ push (Z.to_nat (Z.log2 c' + 1)) c'.

Lemma mul_add_spec m ds c r c' :
  0 ≤ m → 0 ≤ c → Forall (λ d, 0 ≤ d < B) ds → mul_add m ds c = (r, c') →
  le_value r + B ^ zlen ds * c' = m * le_value ds + c ∧ length r = length ds ∧
  Forall (λ d, 0 ≤ d < B) r ∧ 0 ≤ c'.
Proof.
  intros Hm. revert c r c'. induction ds as [|d ds IH]; intros c r c' Hc Hds Hr; cbn in Hr.
  - injection Hr as <- <-. change (le_value []) with 0. rewrite (zlen_nil (A := Z)), Z.pow_0_r.
    split_and!; [lia|done|done|done].
  - apply Forall_cons in Hds as [Hd Hds].
    destruct (mul_add m ds ((d * m + c) / B)) as [r1 c1] eqn:Hrec. injection Hr as <- <-.
    destruct (IH _ _ _ (Z.div_pos (d * m + c) B ltac:(nia) ltac:(lia)) Hds Hrec)
      as (Hv & Hl & Hr & Hc1).
    pose proof (Z.div_mod (d * m + c) B ltac:(lia)) as Hdm.
    pose proof (Z.mod_pos_bound (d * m + c) B ltac:(lia)).
    split_and!; [|by cbn; rewrite Hl|by constructor|done].
    rewrite !le_value_cons.
    rewrite zlen_cons, Z.pow_add_r by (try lia; apply zlen_nonneg). nia.
Qed.

Lemma push_spec fuel c :
  0 ≤ c < B ^ Z.of_nat fuel → canonical (push fuel c) ∧ le_value (push fuel c) = c.
Proof.
  revert c. induction fuel as [|fuel IH]; intros c Hc; cbn [push].
  - change (B ^ Z.of_nat 0) with 1 in Hc. split; [by split|cbn; lia].
  - destruct (Z.ltb_spec 0 c); [|split; [by split|cbn; lia]].
    rewrite Nat2Z.inj_succ, Z.pow_succ_r in Hc by lia.
    destruct (IH (c / B)) as [[Hds Hl] Hv].
    { split; [apply Z.div_pos; lia|apply Z.div_lt_upper_bound; lia]. }
    pose proof (Z.mod_pos_bound c B ltac:(lia)). pose proof (Z.div_mod c B ltac:(lia)) as Hdm.
    split; [split; [by constructor|]|rewrite le_value_cons; lia].
    destruct (push fuel (c / B)) as [|e l] eqn:Hp; [|exact Hl].
    cbn in Hv |- *. intros [= Hz]. lia.
Qed.

Lemma push_log2 c : 0 ≤ c → canonical (push (Z.to_nat (Z.log2 c + 1)) c) ∧
  le_value (push (Z.to_nat (Z.log2 c + 1)) c) = c.
Proof.
  intros Hc. pose proof (Z.log2_nonneg c). apply push_spec. split; [done|].
  rewrite Z2Nat.id by lia.
  apply Z.lt_le_trans with (2 ^ (Z.log2 c + 1)); [|apply Z.pow_le_mono_l; lia].
  destruct (decide (c = 0)) as [->|]; [done|]. apply Z.log2_spec. lia.
Qed.

Lemma last_app_nonempty {A} (a b : list A) : b ≠ [] → last (a ++ b) = last b.
Proof. intros. rewrite last_app. destruct (last b) eqn:Hl; [done|]. by apply last_None in Hl. Qed.

(** A step keeps numerals canonical and computes [m * v + c]. *)
Lemma numeral_step_spec m ds c :
  1 ≤ m → 0 ≤ c → canonical ds →
  canonical (numeral_step m ds c) ∧ le_value (numeral_step m ds c) = m * le_value ds + c.
Proof.
  intros Hm Hc Hds. unfold numeral_step. destruct (mul_add m ds c) as [r c'] eqn:Hr.
  apply mul_add_spec in Hr as (Hv & Hl & Hrd & Hc'); [|lia|lia|apply Hds].
  destruct (push_log2 c' Hc') as [Hp Hpv]. set (p := push _ _) in *.
  assert (zlen r = zlen ds) as Hzl by (unfold zlen; lia).
  rewrite le_value_app, Hpv, Hzl. split; [|lia]. split; [apply Forall_app; split; [done|apply Hp]|].
  destruct (decide (p = [])) as [Hpe|Hpe]; [|by rewrite last_app_nonempty by done; apply Hp].
  rewrite Hpe, app_nil_r in *. assert (c' = 0) as -> by (rewrite <- Hpv; done).
  intros Hl0. destruct r as [|x r'] using rev_ind; [done|]. clear IHr'.
  rewrite last_snoc in Hl0. injection Hl0 as ->.
  assert (ds ≠ []) as Hne by (intros ->; rewrite length_app in Hl; simpl in Hl; lia).
  pose proof (canonical_pos ds Hds Hne). apply Forall_app in Hrd as [Hrd _].
  pose proof (le_value_lt r' Hrd). rewrite le_value_app in Hv. cbn in Hv.
  rewrite zlen_app in Hzl. change (zlen [0]) with 1 in Hzl.
  replace (zlen ds - 1) with (zlen r') in * by lia. nia.
Qed.
End Digits.

(** Most significant digit first. *)
Definition be_numeral (B : Z) (acc : Z) (l : list Z) : Z := foldl (λ a d, a * B + d) acc l.

Lemma le_value_reverse B l : le_value B (reverse l) = be_numeral B 0 l.
Proof.
  induction l as [|x l IH] using rev_ind; [done|].
  rewrite reverse_snoc, le_value_cons, IH. unfold be_numeral. rewrite foldl_app. cbn. lia.
Qed.

Lemma be_value_numeral l : be_value l = be_numeral 256 0 (b2z <$> l).
Proof.
  unfold be_value, be_numeral. generalize 0. induction l as [|b l IH]; intros acc; [done|]. apply IH.
Qed.

(** ** What the base58 loops compute *)

Lemma b58_mul_eq ds c : b58_mul ds c = mul_add 58 256 ds c.
Proof. revert c. induction ds as [|d ds IH]; intros c; [done|]. cbn. by rewrite IH. Qed.

Lemma b58_push_eq fuel c : b58_push fuel c = push 58 fuel c.
Proof. revert c. induction fuel as [|f IH]; intros c; [done|]. cbn. by rewrite IH. Qed.

Lemma land_255 a : Z.land a 255 = a mod 256.
Proof. change 255 with (Z.ones 8). by rewrite Z.land_ones. Qed.
Lemma shiftr_8 a : Z.shiftr a 8 = a / 256.
Proof. by rewrite Z.shiftr_div_pow2. Qed.

Lemma b256_mul_eq ds c : b256_mul ds c = mul_add 256 58 ds c.
Proof.
  revert c. induction ds as [|d ds IH]; intros c; [done|]. cbn [b256_mul mul_add].
  by rewrite land_255, shiftr_8, IH.
Qed.

Lemma b256_push_eq fuel c : b256_push fuel c = push 256 fuel c.
Proof.
  revert c. induction fuel as [|f IH]; intros c; [done|]. cbn [b256_push push].
  by rewrite land_255, shiftr_8, IH.
Qed.

Lemma b58_byte_spec ds b :
  canonical 58 ds → 0 < 256 * le_value 58 ds + b2z b →
  canonical 58 (b58_byte ds b) ∧ le_value 58 (b58_byte ds b) = 256 * le_value 58 ds + b2z b.
Proof.
  intros Hc Hpos. pose proof (b2z_range b).
  destruct (numeral_step_spec 58 ltac:(lia) 256 ds (b2z b)) as [Hc' Hv]; [lia|lia|done|].
  unfold b58_byte, numeral_step in *. rewrite b58_mul_eq. destruct (mul_add 58 256 ds (b2z b)) as [r c].
  rewrite b58_push_eq. destruct (r ++ push 58 _ c) as [|d l]; [|done]. cbn in Hv. lia.
Qed.

Lemma b58_fold_spec bs ds :
  canonical 58 ds → (0 < le_value 58 ds ∨ head bs ≠ Some x00) →
  canonical 58 (foldl b58_byte ds bs) ∧
  le_value 58 (foldl b58_byte ds bs) = be_numeral 256 (le_value 58 ds) (b2z <$> bs).
Proof.
  revert ds. induction bs as [|b bs IH]; intros ds Hc Hpos; [done|]. cbn [foldl fmap list_fmap].
  pose proof (le_value_nonneg 58 ltac:(lia) ds (proj1 Hc)). pose proof (b2z_range b).
  assert (0 < 256 * le_value 58 ds + b2z b) as Hp.
  { destruct Hpos as [?|Hb]; [lia|]. assert (b2z b ≠ 0); [|lia].
    intros Hz. apply Hb. cbn. f_equal. apply b2z_inj. by rewrite Hz. }
  destruct (b58_byte_spec ds b Hc Hp) as [Hc' Hv].
  destruct (IH _ Hc' ltac:(left; lia)) as [Hc2 Hv2]. split; [done|]. rewrite Hv2, Hv.
  unfold be_numeral. cbn. f_equal. lia.
Qed.

Lemma b256_char_spec bs v :
  canonical 256 bs → 0 ≤ v < 58 → 0 < 58 * le_value 256 bs + v →
  canonical 256 (b256_char bs v) ∧ le_value 256 (b256_char bs v) = 58 * le_value 256 bs + v.
Proof.
  intros Hc Hv Hpos. unfold b256_char. destruct bs as [|b bs].
  - cbn [b256_mul]. rewrite land_255, shiftr_8. rewrite Z.mul_0_l, Z.add_0_l.
    rewrite Z.mod_small, Z.div_small by lia.
    change ([v] ++ b256_push (Z.to_nat (Z.log2 0 + 1)) 0) with [v]. change (le_value 256 []) with 0 in *.
    split; [split; [constructor; [lia|done]|]|unfold le_value; cbn; lia].
    cbn. intros [= ->]. lia.
  - destruct (numeral_step_spec 256 ltac:(lia) 58 (b :: bs) v) as [Hc' Hv']; [lia|lia|done|].
    unfold numeral_step in *. rewrite b256_mul_eq. destruct (mul_add 256 58 (b :: bs) v) as [r c].
    by rewrite b256_push_eq.
Qed.

Lemma b256_fold_spec vs bs :
  canonical 256 bs → Forall (λ v, 0 ≤ v < 58) vs →
  (0 < le_value 256 bs ∨ head vs ≠ Some 0) →
  canonical 256 (foldl b256_char bs vs) ∧
  le_value 256 (foldl b256_char bs vs) = be_numeral 58 (le_value 256 bs) vs.
Proof.
  revert bs. induction vs as [|v vs IH]; intros bs Hc Hvs Hpos; [done|]. cbn [foldl].
  apply Forall_cons in Hvs as [Hv Hvs].
  pose proof (le_value_nonneg 256 ltac:(lia) bs (proj1 Hc)).
  assert (0 < 58 * le_value 256 bs + v) as Hp.
  { destruct Hpos as [?|Hb]; [lia|]. assert (v ≠ 0) by (intros ->; by apply Hb). lia. }
  destruct (b256_char_spec bs v Hc Hv Hp) as [Hc' Hv'].
  destruct (IH _ Hc' Hvs ltac:(left; lia)) as [Hc2 Hv2]. split; [done|]. rewrite Hv2, Hv'.
  unfold be_numeral. cbn. f_equal. lia.
Qed.

(** *** The alphabet *)

Lemma alphabet_value d :
  0 ≤ d < 58 → ∃ c, BASE58_ALPHABET !! Z.to_nat d = Some c ∧ base58_value c = Some d ∧
    0 ≤ c < 256 ∧ (c = 49 ↔ d = 0).
Proof.
  intros Hd.
  assert (forallb (λ n, match BASE58_ALPHABET !! n with
    | Some c => bool_decide (base58_value c = Some (Z.of_nat n)) && (0 <=? c) && (c <? 256)
                && Bool.eqb (c =? 49) (Nat.eqb n 0)
    | None => false end) (seq 0 58) = true) as Hall by (vm_compute; reflexivity).
  rewrite forallb_forall in Hall. specialize (Hall (Z.to_nat d)).
  destruct (BASE58_ALPHABET !! Z.to_nat d) as [c|]; [|by (discriminate Hall; apply in_seq; lia)].
  specialize (Hall ltac:(apply in_seq; lia)). exists c. split; [done|].
  apply andb_prop in Hall as [[[H1%bool_decide_eq_true H2%Z.leb_le]%andb_prop H3%Z.ltb_lt]%andb_prop
    H4%Bool.eqb_prop]. rewrite Z2Nat.id in H1 by lia. split_and!; try done.
  destruct (Z.eqb_spec c 49), (Nat.eqb_spec (Z.to_nat d) 0); (done || lia).
Qed.

Lemma value_alphabet c d :
  base58_value c = Some d → 0 ≤ c < 256 → 0 ≤ d < 58 ∧ BASE58_ALPHABET !! Z.to_nat d = Some c.
Proof.
  unfold base58_value. intros Hv Hc.
  destruct (list_find (λ v, v = c mod 256) BASE58_ALPHABET) as [[i x]|] eqn:Hf; [|done].
  cbn in Hv. injection Hv as <-. apply list_find_Some in Hf as (Hi & -> & _).
  rewrite Z.mod_small in Hi by done. rewrite Nat2Z.id. split; [|done].
  apply lookup_lt_Some in Hi. change (length BASE58_ALPHABET) with 58%nat in Hi. lia.
Qed.

(** *** Leading zeros *)

Lemma count_while_split {A} (p : A → bool) l :
  Forall (λ x, p x = true) (take (count_while p l) l) ∧
  match drop (count_while p l) l with x :: _ => p x = false | [] => True end.
Proof.
  induction l as [|x l [IH1 IH2]]; [done|]. cbn [count_while].
  destruct (p x) eqn:Hp; cbn; [by split; [constructor|]|done].
Qed.

Lemma count_while_app {A} (p : A → bool) a b :
  Forall (λ x, p x = true) a → match b with x :: _ => p x = false | [] => True end →
  count_while p (a ++ b) = length a.
Proof.
  induction 1 as [|x a Hx _ IH]; intros Hb; cbn.
  - destruct b as [|y b]; [done|]. cbn. by rewrite Hb.
  - rewrite Hx. by rewrite IH.
Qed.

Lemma take_zeros {A} (p : A → bool) (z : A) l :
  (∀ x, p x = true → x = z) → take (count_while p l) l = replicate (count_while p l) z.
Proof.
  intros Hz. destruct (count_while_split p l) as [Hall _].
  assert (length (take (count_while p l) l) = count_while p l) as Hlen.
  { clear. induction l as [|x l IH]; [done|]. cbn. destruct (p x); cbn; [by rewrite IH|done]. }
  rewrite <- Hlen at 2. revert Hall. generalize (take (count_while p l) l). intros k Hk.
  induction Hk as [|x k Hx _ IH]; [done|]. cbn. f_equal; [by apply Hz|done].
Qed.

(** Text, digits and the alphabet between them. *)
Lemma alphabet_mapM ds :
  Forall (λ d, 0 ≤ d < 58) ds →
  ∃ cs, mapM (λ d, BASE58_ALPHABET !! Z.to_nat d) ds = Some cs ∧
    Forall2 (λ c d, base58_value c = Some d) cs ds ∧ Forall (λ c, 0 ≤ c < 256) cs ∧
    (head ds ≠ Some 0 → head cs ≠ Some 49).
Proof.
  induction 1 as [|d ds Hd Hds (cs & Hm & H2 & Hb & _)]; [by exists []|].
  destruct (alphabet_value d Hd) as (c & Hc & Hv & Hcb & H0).
  exists (c :: cs). cbn. rewrite Hc. cbn. rewrite Hm. cbn. split_and!; try done; [by constructor|by constructor|].
  intros Hne [= ->]. apply Hne. f_equal. by apply H0.
Qed.

Lemma mapM_alphabet cs ds :
  Forall2 (λ c d, base58_value c = Some d) cs ds → Forall (λ c, 0 ≤ c < 256) cs →
  Forall (λ d, 0 ≤ d < 58) ds ∧ mapM (λ d, BASE58_ALPHABET !! Z.to_nat d) ds = Some cs.
Proof.
  induction 1 as [|c d cs ds Hv _ IH]; intros Hb; [done|].
  apply Forall_cons in Hb as [Hc Hb]. destruct (value_alphabet c d Hv Hc) as [Hd Ha].
  destruct (IH Hb) as [Hds Hm]. split; [by constructor|]. cbn. rewrite Ha. cbn. by rewrite Hm.
Qed.

Lemma decode_loop_ok idx cs bs r :
  decode_base58_loop idx cs bs = Ok r ↔
  ∃ vs, Forall2 (λ c d, base58_value c = Some d) cs vs ∧ r = foldl b256_char bs vs.
Proof.
  revert idx bs. induction cs as [|c cs IH]; intros idx bs; cbn [decode_base58_loop].
  - split; [intros [= <-]; by exists []|]. intros (vs & Hvs & ->). by inversion Hvs.
  - unfold mbind, res_bind. destruct (base58_value c) as [v|] eqn:Hv; cbn [ok_or].
    + rewrite IH. split.
      * intros (vs & Hvs & ->). exists (v :: vs). split; [by constructor|done].
      * intros (vs & Hvs & ->). inversion Hvs as [|? v' ? vs' Hv' Hvs']; subst.
        exists vs'. split; [done|]. cbn. congruence.
    + split; [done|]. intros (vs & Hvs & _). inversion Hvs; congruence.
Qed.

Lemma bytes_numeral (bs : list Z) (x : bytes) :
  canonical 256 bs → head x ≠ Some x00 → le_value 256 bs = be_value x →
  bs = reverse (b2z <$> x).
Proof.
  intros Hc Hh Hv. apply (canonical_inj 256); [lia|done| |].
  - split.
    + apply Forall_reverse, Forall_fmap, Forall_true. intros b. apply b2z_range.
    + rewrite last_reverse. destruct x as [|b x]; [done|]. cbn. intros [= Hb].
      apply Hh. cbn. f_equal. apply b2z_inj. by rewrite Hb.
  - by rewrite le_value_reverse, <- be_value_numeral.
Qed.

Lemma z2b_reverse (x : bytes) : z2b <$> reverse (reverse (b2z <$> x)) = x.
Proof.
  rewrite reverse_involutive, <- list_fmap_compose. rewrite <- (list_fmap_id x) at 2.
  apply list_fmap_ext. intros _ b _. cbn. apply z2b_b2z.
Qed.

Lemma is_zero_byte b : (b2z b =? 0) = true → b = x00.
Proof. intros Hz%Z.eqb_eq. apply b2z_inj. by rewrite Hz. Qed.

(** The shape of an encoding: a ['1'] per leading zero byte, then the digits of
    the number the rest stands for. *)
Lemma encode_base58_shape lz x :
  replicate lz x00 ++ x ≠ [] → head x ≠ Some x00 →
  ∃ ds cs, canonical 58 ds ∧ le_value 58 ds = be_value x ∧
    mapM (λ d, BASE58_ALPHABET !! Z.to_nat d) (reverse ds) = Some cs ∧
    encode_base58 (replicate lz x00 ++ x) = Ok (replicate lz 49 ++ cs).
Proof.
  intros Hne Hh.
  assert (count_while (λ b, b2z b =? 0) (replicate lz x00 ++ x) = lz) as Hcount.
  { rewrite count_while_app, length_replicate; [done| |].
    - apply Forall_replicate. done.
    - destruct x as [|b x]; [done|]. apply Z.eqb_neq. intros Hz. apply Hh. cbn. f_equal.
      apply is_zero_byte. by apply Z.eqb_eq. }
  destruct (b58_fold_spec x []) as [Hc Hv]; [by split|by right|].
  destruct (alphabet_mapM (reverse (foldl b58_byte [] x))) as (cs & Hm & _).
  { apply Forall_reverse, Hc. }
  exists (foldl b58_byte [] x), cs. split_and!; try done.
  - by rewrite Hv, be_value_numeral.
  - unfold encode_base58. destruct (replicate lz x00 ++ x) as [|b l] eqn:Hl; [done|].
    rewrite <- Hl in *. rewrite Hcount, drop_app_length' by by rewrite length_replicate.
    unfold mbind, res_bind. destruct (foldl b58_byte [] x) as [|d ds] eqn:Hds.
    + cbn in Hm. injection Hm as <-. by rewrite app_nil_r.
    + by rewrite Hm.
Qed.

Lemma encode_base58_total x : x ≠ [] → ∃ s, encode_base58 x = Ok s.
Proof.
  intros Hx. set (n := count_while (λ b, b2z b =? 0) x).
  pose proof (take_zeros (λ b, b2z b =? 0) x00 x is_zero_byte) as Ht.
  destruct (count_while_split (λ b, b2z b =? 0) x) as [_ Hd]. fold n in Ht, Hd.
  assert (x = replicate n x00 ++ drop n x) as Hsplit by (rewrite <- Ht; symmetry; apply take_drop).
  destruct (encode_base58_shape n (drop n x)) as (ds & cs & _ & _ & _ & He).
  - by rewrite <- Hsplit.
  - destruct (drop n x) as [|b l]; [done|]. intros [= ->]. done.
  - rewrite <- Hsplit in He. by eexists.
Qed.

Lemma split_zeros {A} (p : A → bool) (z : A) l :
  (∀ x, p x = true ↔ x = z) →
  ∃ n l', l = replicate n z ++ l' ∧ head l' ≠ Some z ∧ count_while p l = n ∧ drop n l = l'.
Proof.
  intros Hz. pose proof (take_zeros p z l (λ x, proj1 (Hz x))) as Ht.
  destruct (count_while_split p l) as [_ Hd].
  exists (count_while p l), (drop (count_while p l) l). split_and!; try done.
  - rewrite <- Ht. symmetry. apply take_drop.
  - destruct (drop _ l) as [|x l']; [done|]. cbn. intros [= ->].
    by rewrite (proj2 (Hz z) eq_refl) in Hd.
Qed.

Lemma Forall2_option_fun {A C} (f : A → option C) l a b :
  Forall2 (λ x y, f x = Some y) l a → Forall2 (λ x y, f x = Some y) l b → a = b.
Proof.
  intros Ha. revert b. induction Ha as [|x y l a Hx _ IH]; intros b Hb; inversion Hb; subst; [done|].
  f_equal; [congruence|by apply IH].
Qed.

Lemma decode_base58_shape lz cs x :
  replicate lz 49 ++ cs ≠ [] → head cs ≠ Some 49 →
  decode_base58 (replicate lz 49 ++ cs) = Ok x ↔
  ∃ vs, Forall2 (λ c d, base58_value c = Some d) cs vs ∧
    x = replicate lz x00 ++ (z2b <$> reverse (foldl b256_char [] vs)).
Proof.
  intros Hne Hh. unfold decode_base58.
  destruct (replicate lz 49 ++ cs) as [|c l] eqn:Hl; [done|]. rewrite <- Hl in *.
  assert (count_while (λ c, c =? 49) (replicate lz 49 ++ cs) = lz) as ->.
  { rewrite count_while_app, length_replicate; [done|by apply Forall_replicate|].
    destruct cs as [|c' cs]; [done|]. apply Z.eqb_neq. intros ->. by apply Hh. }
  rewrite drop_app_length' by by rewrite length_replicate.
  unfold mbind, res_bind.
  assert (∀ vs, Forall2 (λ c d, base58_value c = Some d) cs vs →
    decode_base58_loop (Z.of_nat lz) cs [] = Ok (foldl b256_char [] vs)) as Hok.
  { intros vs Hvs. apply decode_loop_ok. eauto. }
  destruct (decode_base58_loop (Z.of_nat lz) cs []) as [r|e| |] eqn:Hd.
  2-4: split; [done|]; intros (vs & Hvs & _); by specialize (Hok vs Hvs).
  apply decode_loop_ok in Hd as (vs & Hvs & ->). split.
  - intros [= <-]. by exists vs.
  - intros (vs' & Hvs' & ->). by rewrite (Forall2_option_fun _ _ _ _ Hvs' Hvs).
Qed.

Lemma Forall2_head {A C} (R : A → C → Prop) l k :
  Forall2 R l k → head l = None ∧ head k = None ∨
  ∃ x y, head l = Some x ∧ head k = Some y ∧ R x y.
Proof. destruct 1; [by left|right; eauto 10]. Qed.

Lemma value_one c : base58_value c = Some 0 → 0 ≤ c < 256 → c = 49.
Proof.
  intros Hv Hc. destruct (value_alphabet c 0 Hv Hc) as [_ Ha].
  change (BASE58_ALPHABET !! Z.to_nat 0) with (Some 49) in Ha. congruence.
Qed.

Lemma base58_decode_encode x s : x ≠ [] → encode_base58 x = Ok s →
  decode_base58 s = Ok x ∧ Forall (λ c, 0 ≤ c < 256) s.
Proof.
  intros Hx He.
  destruct (split_zeros (λ b, b2z b =? 0) x00 x) as (lz & x' & -> & Hh & _).
  { intros b. split; [apply is_zero_byte|by intros ->]. }
  destruct (encode_base58_shape lz x' Hx Hh) as (ds & cs & Hc & Hv & Hm & He').
  rewrite He in He'. injection He' as ->.
  destruct (alphabet_mapM (reverse ds)) as (cs' & Hm' & H2 & Hb & Hhead); [apply Forall_reverse, Hc|].
  rewrite Hm in Hm'. injection Hm' as <-.
  assert (head (reverse ds) ≠ Some 0) as Hhd by (rewrite head_reverse; apply Hc).
  split; [|apply Forall_app; split; [by apply Forall_replicate|done]].
  apply decode_base58_shape; [|by apply Hhead|].
  { intros Hnil. apply Hx. apply app_eq_nil in Hnil as [Hz ->].
    destruct lz; [|done]. cbn. apply Forall2_nil_inv_l in H2.
    apply (f_equal reverse) in H2. rewrite reverse_involutive in H2. subst ds.
    destruct x' as [|b x']; [done|]. exfalso.
    assert ([] = reverse (b2z <$> b :: x')) as Habs by (by apply bytes_numeral; [split|done|]).
    apply (f_equal length) in Habs. by rewrite length_reverse in Habs. }
  exists (reverse ds). split; [done|]. f_equal.
  destruct (b256_fold_spec (reverse ds) []) as [Hc2 Hv2]; [by split|by apply Forall_reverse, Hc|by right|].
  rewrite (bytes_numeral (foldl b256_char [] (reverse ds)) x'); [by rewrite z2b_reverse|done|done|].
  rewrite Hv2. change (le_value 256 []) with 0. by rewrite <- le_value_reverse, reverse_involutive.
Qed.

Lemma base58_encode_decode x s : Forall (λ c, 0 ≤ c < 256) s → decode_base58 s = Ok x →
  encode_base58 x = Ok s ∧ x ≠ [].
Proof.
  intros Hs Hd.
  assert (s ≠ []) as Hne by (by intros ->).
  destruct (split_zeros (λ c, c =? 49) 49 s) as (lz & cs & -> & Hh & _).
  { intros c. apply Z.eqb_eq. }
  apply decode_base58_shape in Hd as (vs & Hvs & ->); [|done|done].
  apply Forall_app in Hs as [_ Hcs]. destruct (mapM_alphabet cs vs Hvs Hcs) as [Hvb Hm].
  assert (head vs ≠ Some 0) as Hh0.
  { intros H0. apply Forall2_head in Hvs as [[_ Hn]|(c & v & Hhc & Hhv & Hcv)]; [congruence|].
    rewrite H0 in Hhv. injection Hhv as <-. apply Hh. rewrite Hhc. f_equal.
    apply value_one; [done|]. destruct cs; [done|]. injection Hhc as ->.
    by apply Forall_cons in Hcs as []. }
  destruct (b256_fold_spec vs []) as [Hc2 Hv2]; [by split|done|by right|].
  set (bs := foldl b256_char [] vs) in *. set (x' := z2b <$> reverse bs).
  assert (b2z <$> x' = reverse bs) as Hx'.
  { unfold x'. rewrite <- list_fmap_compose. rewrite <- (list_fmap_id (reverse bs)) at 2.
    apply list_fmap_ext. intros i z Hz. cbn. apply b2z_z2b_small.
    assert (Forall (λ d, 0 ≤ d < 256) (reverse bs)) as Hall by (apply Forall_reverse, Hc2).
    rewrite Forall_lookup in Hall. by apply (Hall i). }
  assert (be_value x' = le_value 256 bs) as Hbv
    by (by rewrite be_value_numeral, Hx', <- le_value_reverse, reverse_involutive).
  assert (head x' ≠ Some x00) as Hhx.
  { intros H0. assert (head (b2z <$> x') = Some 0) as H1 by (destruct x'; [done|by injection H0 as ->]).
    rewrite Hx', head_reverse in H1. by apply Hc2. }
  assert (replicate lz x00 ++ x' ≠ []) as Hxne.
  { intros [Hz Hn]%app_eq_nil. destruct lz; [|done]. cbn in Hne.
    assert (bs = []) as Hbs.
    { apply (f_equal (fmap b2z)) in Hn. rewrite Hx' in Hn. cbn in Hn.
      apply (f_equal reverse) in Hn. by rewrite reverse_involutive in Hn. }
    rewrite Hbs in Hv2. change (le_value 256 []) with 0 in Hv2.
    assert (canonical 58 (reverse vs)) as Hcv by (split; [by apply Forall_reverse|by rewrite last_reverse]).
    apply (canonical_zero 58) in Hcv; [|lia|by rewrite le_value_reverse].
    apply (f_equal reverse) in Hcv. rewrite reverse_involutive in Hcv. subst vs.
    by apply Forall2_nil_inv_r in Hvs. }
  split; [|done].
  destruct (encode_base58_shape lz x' Hxne Hhx) as (ds & cs' & Hc & Hv & Hm' & ->).
  assert (ds = reverse vs) as ->.
  { apply (canonical_inj 58); [lia|done| |].
    - split; [by apply Forall_reverse|by rewrite last_reverse].
    - by rewrite Hv, Hbv, Hv2, le_value_reverse. }
  rewrite reverse_involutive in Hm'. congruence.
Qed.

(** Base58btc is exact: encoding a non-empty byte string never fails, and a
    text of characters below U+0100 decodes to exactly the byte string it is the
    encoding of; no other such text decodes to it. *)
Theorem base58_exact x :
  x ≠ [] →
  (∃ s, encode_base58 x = Ok s) ∧
  ∀ s, encode_base58 x = Ok s ↔ decode_base58 s = Ok x ∧ Forall (λ c, 0 ≤ c < 256) s.
Proof.
  intros Hx. split; [by apply encode_base58_total|]. intros s. split.
  - by apply base58_decode_encode.
  - intros [Hd Hb]. by apply base58_encode_decode.
Qed.

Lemma base58_exact_witness :
  decode_base58 (chars (str "11233QC4")) = Ok [x00; x00; x28; x7f; xb4; xcd].
Proof.
  destruct (base58_exact [x00; x00; x28; x7f; xb4; xcd]) as [_ H]; [done|].
  apply H. vm_compute. reflexivity.
Defined.

(** The base58 decoder does not look at a whole character: the cast in
    [base58_value] keeps its low eight bits, so that a text decodes to the same
    bytes when its first character is moved beyond U+00FF by a multiple of 256,
    instead of being refused; U+0132 reads as ['2']. *)
Theorem base58_reads_low_bytes c k rest :
  c ≠ 0x31 → c + 256 * k ≠ 0x31 → is_Some (base58_value c) →
  decode_base58 (c + 256 * k :: rest) = decode_base58 (c :: rest).
Proof.
  intros Hc Hk [v Hv]. unfold decode_base58.
  assert (base58_value (c + 256 * k) = base58_value c) as Heq.
  { unfold base58_value. by rewrite (Z.mul_comm 256), Z.mod_add. }
  cbn [count_while]. destruct (Z.eqb_spec c 0x31); [done|]. destruct (Z.eqb_spec (c + 256 * k) 0x31); [done|].
  cbn. by rewrite Heq, Hv.
Qed.

Lemma base58_reads_low_bytes_witness : decode_base58 [0x132] = Ok [x01].
Proof.
  transitivity (decode_base58 [0x32]); [|by vm_compute].
  apply (base58_reads_low_bytes 0x32 1 []); [lia|lia|by exists 1].
Defined.

(** ** What the base32 loops compute *)

(** Groups of [w] bits, most significant first. *)
Fixpoint emit (w : Z) (fuel : nat) (buffer bits : Z) : list Z * Z :=
  match fuel with
  | O => ([], bits)
  | S fuel =>
      if w <=? bits
      then let '(out, bits') := emit w fuel buffer (bits - w) in
           ((buffer / 2 ^ (bits - w)) mod 2 ^ w :: out, bits')
      else ([], bits)
  end.

Lemma b32_emit_eq fuel buffer bits : b32_emit fuel buffer bits = emit 5 fuel buffer bits.
Proof.
  revert bits. induction fuel as [|fuel IH]; intros bits; [done|]. cbn [b32_emit emit].
  destruct (Z.leb_spec 5 bits); [|done]. rewrite IH. destruct (emit 5 fuel buffer (bits - 5)).
  change 31 with (Z.ones 5). by rewrite Z.land_ones, Z.shiftr_div_pow2 by lia.
Qed.

Lemma b32_bytes_eq fuel buffer bits :
  b32_bytes fuel buffer bits = (z2b <$> (emit 8 fuel buffer bits).1, (emit 8 fuel buffer bits).2).
Proof.
  revert bits. induction fuel as [|fuel IH]; intros bits; [done|]. cbn [b32_bytes emit].
  destruct (Z.leb_spec 8 bits); [|done]. rewrite IH. destruct (emit 8 fuel buffer (bits - 8)).
  change 255 with (Z.ones 8). by rewrite Z.land_ones, Z.shiftr_div_pow2 by lia.
Qed.

Lemma mod_pow_split a m n :
  0 ≤ m → 0 ≤ n → a mod 2 ^ (m + n) = a mod 2 ^ m + 2 ^ m * ((a / 2 ^ m) mod 2 ^ n).
Proof.
  intros Hm Hn. rewrite Z.pow_add_r by done.
  apply Z.rem_mul_r; [|apply Z.pow_pos_nonneg; lia]. apply Z.pow_nonzero; lia.
Qed.

Lemma emit_spec w fuel buffer bits :
  1 ≤ w → 0 ≤ bits ≤ Z.of_nat fuel →
  let '(out, bits') := emit w fuel buffer bits in
  0 ≤ bits' < w ∧ w * zlen out + bits' = bits ∧ Forall (λ i, 0 ≤ i < 2 ^ w) out ∧
  ∀ acc, be_numeral (2 ^ w) acc out * 2 ^ bits' + buffer mod 2 ^ bits' =
    acc * 2 ^ bits + buffer mod 2 ^ bits.
Proof.
  intros Hw. revert bits. induction fuel as [|fuel IH]; intros bits Hb; cbn [emit].
  { rewrite (zlen_nil (A := Z)). split_and!; try done; lia. }
  destruct (Z.leb_spec w bits) as [Hle|]; [|rewrite (zlen_nil (A := Z)); split_and!; try done; lia].
  specialize (IH (bits - w) ltac:(lia)). destruct (emit w fuel buffer (bits - w)) as [out b'].
  destruct IH as (Hb' & Hlen & Hall & Hval). rewrite zlen_cons.
  pose proof (Z.mod_pos_bound (buffer / 2 ^ (bits - w)) (2 ^ w) ltac:(apply Z.pow_pos_nonneg; lia)).
  split_and!; [lia|lia|lia|by constructor|]. intros acc.
  unfold be_numeral in *. cbn [foldl]. rewrite Hval.
  pose proof (mod_pow_split buffer (bits - w) w ltac:(lia) ltac:(lia)) as Hs.
  pose proof (Z.pow_add_r 2 (bits - w) w ltac:(lia) ltac:(lia)) as Hp.
  replace (bits - w + w) with bits in Hs, Hp by lia. nia.
Qed.

Lemma shift_in a n b m :
  0 ≤ n → 0 ≤ b < 2 ^ n → n ≤ m → Z.lor (Z.shiftl a n mod 2 ^ m) b = (a mod 2 ^ (m - n)) * 2 ^ n + b.
Proof.
  intros Hn Hb Hm. rewrite Z.shiftl_mul_pow2 by lia.
  replace m with ((m - n) + n) at 1 by lia. rewrite Z.pow_add_r by lia.
  rewrite Z.mul_mod_distr_r by (apply Z.pow_nonzero; lia).
  rewrite Z.lor_comm, <- (Z.shiftl_mul_pow2 (a mod 2 ^ (m - n))) at 1 by lia.
  rewrite lor_shiftl_add by lia. lia.
Qed.

(** A byte shifted into the [u16], or a group into the [u32]: the pending bits
    are those before, followed by the new ones. *)
Lemma shift_in_low a n b m k :
  0 ≤ n → 0 ≤ b < 2 ^ n → 0 ≤ k → n + k ≤ m →
  Z.lor (Z.shiftl a n mod 2 ^ m) b mod 2 ^ (k + n) = (a mod 2 ^ k) * 2 ^ n + b.
Proof.
  intros Hn Hb Hk Hm. rewrite shift_in by lia.
  rewrite (Z.add_comm k n), mod_pow_split by lia.
  rewrite (Z.add_comm _ b), Z.mod_add by (apply Z.pow_nonzero; lia).
  rewrite Z.mod_small by done. rewrite Z.div_add, Z.div_small by (try done; apply Z.pow_nonzero; lia).
  rewrite Z.add_0_l. replace (m - n) with (k + (m - n - k)) by lia.
  rewrite mod_pow_split by lia. rewrite Z.mul_comm, (Z.mul_comm (2 ^ k)), Z.mod_add
    by (apply Z.pow_nonzero; lia). rewrite Z.mod_mod by (apply Z.pow_nonzero; lia). lia.
Qed.

Lemma encode_base32_loop_spec input : ∀ buffer bits,
  0 ≤ bits < 5 →
  let '(out, buffer', bits') := encode_base32_loop input buffer bits in
  0 ≤ bits' < 5 ∧ 5 * zlen out + bits' = 8 * zlen input + bits ∧ Forall (λ i, 0 ≤ i < 32) out ∧
  ∀ acc, be_numeral 32 acc out * 2 ^ bits' + buffer' mod 2 ^ bits' =
    be_numeral 256 (acc * 2 ^ bits + buffer mod 2 ^ bits) (b2z <$> input).
Proof.
  induction input as [|b input IH]; intros buffer bits Hb; cbn [encode_base32_loop].
  { rewrite (zlen_nil (A := Z)), (zlen_nil (A := byte)). split_and!; try done; lia. }
  pose proof (b2z_range b) as Hbr.
  set (buf := Z.lor (Z.shiftl buffer 8 mod 65536) (b2z b)).
  assert (buf mod 2 ^ (bits + 8) = (buffer mod 2 ^ bits) * 2 ^ 8 + b2z b) as Hlow.
  { unfold buf. change 65536 with (2 ^ 16). apply shift_in_low; [lia|lia|lia|lia]. }
  rewrite b32_emit_eq. pose proof (emit_spec 5 (Z.to_nat (bits + 8)) buf (bits + 8)) as He.
  destruct (emit 5 (Z.to_nat (bits + 8)) buf (bits + 8)) as [o b1].
  destruct He as (Hb1 & Hl1 & Ho1 & Hv1); [lia|lia|].
  specialize (IH buf b1 Hb1). destruct (encode_base32_loop input buf b1) as [[out buf'] bits'].
  destruct IH as (Hb' & Hl & Ho & Hv). rewrite zlen_app, zlen_cons.
  split_and!; [lia|lia|lia|by apply Forall_app|]. intros acc.
  unfold be_numeral at 1. rewrite foldl_app. fold (be_numeral 32 acc o).
  specialize (Hv (be_numeral 32 acc o)). unfold be_numeral at 1 in Hv. rewrite Hv.
  specialize (Hv1 acc). change (2 ^ 5) with 32 in Hv1. rewrite Hv1, Hlow.
  unfold be_numeral. cbn [fmap list_fmap foldl]. f_equal.
  rewrite Z.pow_add_r by lia. change (2 ^ 8) with 256. lia.
Qed.

Lemma decode_base32_loop_spec cs vs :
  Forall2 (λ c v, base32_value c = Some v) cs vs → Forall (λ v, 0 ≤ v < 32) vs →
  ∀ idx buffer bits, 0 ≤ bits < 8 →
  ∃ out bits' r, decode_base32_loop idx cs buffer bits = Ok out ∧
    0 ≤ bits' < 8 ∧ 0 ≤ r < 2 ^ bits' ∧ 8 * zlen out + bits' = 5 * zlen vs + bits ∧
    ∀ acc, be_numeral 256 acc (b2z <$> out) * 2 ^ bits' + r =
      be_numeral 32 (acc * 2 ^ bits + buffer mod 2 ^ bits) vs.
Proof.
  induction 1 as [|c v cs vs Hc _ IH]; intros Hvs idx buffer bits Hb; cbn [decode_base32_loop].
  { exists [], bits, (buffer mod 2 ^ bits). rewrite (zlen_nil (A := Z)), (zlen_nil (A := byte)).
    pose proof (Z.mod_pos_bound buffer (2 ^ bits) ltac:(apply Z.pow_pos_nonneg; lia)).
    split_and!; try done; lia. }
  apply Forall_cons in Hvs as [Hv Hvs]. unfold mbind, res_bind. rewrite Hc. cbn [ok_or].
  set (buf := Z.lor (Z.shiftl buffer 5 mod 4294967296) v).
  assert (buf mod 2 ^ (bits + 5) = (buffer mod 2 ^ bits) * 2 ^ 5 + v) as Hlow.
  { unfold buf. change 4294967296 with (2 ^ 32). apply shift_in_low; [lia|lia|lia|lia]. }
  rewrite b32_bytes_eq. pose proof (emit_spec 8 (Z.to_nat (bits + 5)) buf (bits + 5)) as He.
  destruct (emit 8 (Z.to_nat (bits + 5)) buf (bits + 5)) as [o b1]. cbn [fst snd].
  destruct He as (Hb1 & Hl1 & Ho1 & Hv1); [lia|lia|].
  destruct (IH Hvs (idx + 1) buf b1 Hb1) as (out & bits' & r & -> & Hb' & Hr & Hl & Hval).
  exists ((z2b <$> o) ++ out), bits', r. split_and!; try done; [lia|lia|lia|lia| |].
  - rewrite zlen_app, zlen_cons. unfold zlen at 1. rewrite length_fmap. fold (zlen o). lia.
  - intros acc. assert (b2z <$> (z2b <$> o) = o) as Hfm.
    { rewrite <- list_fmap_compose. rewrite <- (list_fmap_id o) at 2.
      apply list_fmap_ext. intros i z Hz. cbn. apply b2z_z2b_small.
      rewrite Forall_lookup in Ho1. by apply (Ho1 i). }
    rewrite fmap_app, Hfm. unfold be_numeral at 1. rewrite foldl_app. fold (be_numeral 256 acc o).
    specialize (Hval (be_numeral 256 acc o)). unfold be_numeral at 1 in Hval. rewrite Hval.
    specialize (Hv1 acc). change (2 ^ 8) with 256 in Hv1. rewrite Hv1, Hlow.
    unfold be_numeral. cbn [foldl]. f_equal. rewrite Z.pow_add_r by lia. change (2 ^ 5) with 32. lia.
Qed.

Lemma alphabet32_value i :
  0 ≤ i < 32 → ∃ c, BASE32_ALPHABET_LOWER !! Z.to_nat i = Some c ∧ base32_value c = Some i.
Proof.
  intros Hi.
  assert (forallb (λ n, match BASE32_ALPHABET_LOWER !! n with
    | Some c => bool_decide (base32_value c = Some (Z.of_nat n)) | None => false end)
    (seq 0 32) = true) as Hall by (vm_compute; reflexivity).
  rewrite forallb_forall in Hall. specialize (Hall (Z.to_nat i) ltac:(apply in_seq; lia)).
  destruct (BASE32_ALPHABET_LOWER !! Z.to_nat i) as [c|]; [|done]. exists c. split; [done|].
  apply bool_decide_eq_true in Hall. by rewrite Z2Nat.id in Hall by lia.
Qed.

Lemma alphabet32_mapM ix :
  Forall (λ i, 0 ≤ i < 32) ix →
  ∃ cs, mapM (λ i, BASE32_ALPHABET_LOWER !! Z.to_nat i) ix = Some cs ∧
    Forall2 (λ c i, base32_value c = Some i) cs ix.
Proof.
  induction 1 as [|i ix Hi _ (cs & Hm & H2)]; [by exists []|].
  destruct (alphabet32_value i Hi) as (c & Hc & Hv). exists (c :: cs). cbn.
  rewrite Hc. cbn. rewrite Hm. by split; [|constructor].
Qed.

Lemma be_value_inj (a b : bytes) : length a = length b → be_value a = be_value b → a = b.
Proof. intros Hl Hv. rewrite <- (be_bytes_be_value a), <- (be_bytes_be_value b). by rewrite Hl, Hv. Qed.

(** The groups of an encoding, the last one padded with zero bits. *)
Lemma base32_groups x :
  ∃ ix pad, 0 ≤ pad < 5 ∧ Forall (λ i, 0 ≤ i < 32) ix ∧ 5 * zlen ix = 8 * zlen x + pad ∧
    be_numeral 32 0 ix = be_value x * 2 ^ pad ∧
    (x ≠ [] → encode_base32_nopad_lower x =
      expect (mapM (λ i, BASE32_ALPHABET_LOWER !! Z.to_nat i) ix)).
Proof.
  pose proof (encode_base32_loop_spec x 0 0 ltac:(lia)) as Hl.
  destruct (encode_base32_loop x 0 0) as [[out buf] bits] eqn:He.
  destruct Hl as (Hb & Hlen & Hall & Hv). specialize (Hv 0).
  change (0 * 2 ^ 0 + 0 mod 2 ^ 0) with 0 in Hv. rewrite <- be_value_numeral in Hv.
  destruct (Z.ltb_spec 0 bits) as [Hpos|].
  - set (last := Z.land (Z.shiftl buf (5 - bits) mod 65536) 31).
    assert (last = (buf mod 2 ^ bits) * 2 ^ (5 - bits)) as Hlast.
    { unfold last. change 31 with (Z.ones 5). rewrite Z.land_ones, Z.shiftl_mul_pow2 by lia.
      change 65536 with (2 ^ (5 + 11)). rewrite mod_pow_split by lia.
      rewrite (Z.mul_comm (2 ^ 5)), Z.mod_add, Z.mod_mod by lia.
      replace (2 ^ 5) with (2 ^ bits * 2 ^ (5 - bits)) by (rewrite <- Z.pow_add_r by lia; f_equal; lia).
      apply Z.mul_mod_distr_r; apply Z.pow_nonzero; lia. }
    pose proof (Z.mod_pos_bound buf (2 ^ bits) ltac:(apply Z.pow_pos_nonneg; lia)) as Hm.
    assert (2 ^ bits * 2 ^ (5 - bits) = 32) as H32 by (rewrite <- Z.pow_add_r by lia; by replace (bits + (5 - bits)) with 5 by lia).
    assert (0 < 2 ^ (5 - bits)) by (apply Z.pow_pos_nonneg; lia).
    exists (out ++ [last]), (5 - bits). split_and!; [lia|lia| |rewrite zlen_app; change (zlen [last]) with 1; lia| |].
    + apply Forall_app. split; [done|]. constructor; [|done]. rewrite Hlast. nia.
    + unfold be_numeral. rewrite foldl_app.
      change (be_numeral 32 0 out * 32 + last = be_value x * 2 ^ (5 - bits)).
      by rewrite <- Hv, Hlast, Z.mul_add_distr_r, <- Z.mul_assoc, H32.
    + intros Hx. unfold encode_base32_nopad_lower. destruct x; [done|]. rewrite He.
      by destruct (Z.ltb_spec 0 bits); [|lia].
  - assert (bits = 0) as -> by lia. exists out, 0. split_and!; try done; [lia| |].
    + rewrite <- Hv. change (2 ^ 0) with 1. rewrite Z.mod_1_r. lia.
    + intros Hx. unfold encode_base32_nopad_lower. destruct x; [done|]. by rewrite He.
Qed.

Lemma base32_decode_encode x :
  ∃ s, encode_base32_nopad_lower x = Ok s ∧ decode_base32_nopad s = Ok x.
Proof.
  destruct (decide (x = [])) as [->|Hx]; [by exists []|].
  destruct (base32_groups x) as (ix & pad & Hpad & Hall & Hlen & Hv & He).
  destruct (alphabet32_mapM ix Hall) as (cs & Hm & H2). exists cs. rewrite He, Hm by done.
  split; [done|].
  destruct (decode_base32_loop_spec cs ix H2 Hall 0 0 0 ltac:(lia))
    as (out & bits & r & Hd & Hb & Hr & Hl & Hval).
  specialize (Hval 0). change (0 * 2 ^ 0 + 0 mod 2 ^ 0) with 0 in Hval.
  rewrite <- be_value_numeral, Hv in Hval.
  assert (zlen out = zlen x ∧ bits = pad) as [Hzl ->] by lia.
  assert (out = x) as ->.
  { apply be_value_inj; [unfold zlen in Hzl; lia|].
    assert (0 < 2 ^ pad) by (apply Z.pow_pos_nonneg; lia). nia. }
  unfold decode_base32_nopad. destruct cs as [|c cs]; [|done].
  apply Forall2_nil_inv_l in H2. subst ix. rewrite (zlen_nil (A := Z)) in Hlen.
  destruct x; [done|]. zlen_lia.
Qed.

(** Unpadded base32 loses nothing: every byte string has an encoding, and
    decoding it gives the byte string back. *)
Theorem base32_round_trip x :
  ∃ s, encode_base32_nopad_lower x = Ok s ∧ decode_base32_nopad s = Ok x.
Proof. apply base32_decode_encode. Qed.
