(* ===== verification/PeerIdentity.v ===== *)
(** Peer identifiers, from [crates/identity/src/peer_id.rs]: a validated
    multihash, and its two text forms. The [multihash] and [sha2] crates are
    parameters; what is used of them is their documented behaviour. *)

From Stdlib Require Import Strings.Byte.
From S2P Require Import Prelude Varint Base58.

Definition IDENTITY_MULTIHASH_CODE : Z := 0x00.
Definition SHA256_MULTIHASH_CODE : Z := 0x12.
Definition LIBP2P_KEY_MULTICODEC : Z := 0x72.
Definition MAX_INLINE_KEY_LENGTH : Z := 42.
Definition PEER_ID_MULTIHASH_SIZE : Z := 64.

(** [Multihash<64>] of the [multihash] crate and [Sha256] of [sha2]. *)
Class HashCrates (Multihash : Type) := {
  mh_wrap : Z → bytes → res bytes Multihash;
  mh_from_bytes : bytes → res bytes Multihash;
  mh_to_bytes : Multihash → bytes;
  mh_code : Multihash → Z;
  mh_digest : Multihash → bytes;
  sha256_digest : bytes → bytes;
}.

(** A value of the Rust type: a [u64] code and at most 64 digest bytes. *)
Definition mh_typed `{HashCrates Multihash} (m : Multihash) : Prop :=
  0 ≤ mh_code m ≤ u64_max ∧ zlen (mh_digest m) ≤ PEER_ID_MULTIHASH_SIZE.

(** What the two crates document: [wrap] fails only past the capacity; the byte
    form is [<code><size><digest>], with the two numbers as varints; parsing
    reports a malformed input as an error and returns a multihash of at most 64
    digest bytes; reading the byte form back gives the multihash; a SHA-256
    digest has 32 bytes. *)
Class HashCratesSpec (Multihash : Type) `{!HashCrates Multihash} := {
  mh_wrap_spec c d : 0 ≤ c ≤ u64_max → zlen d ≤ PEER_ID_MULTIHASH_SIZE →
    ∃ m, mh_wrap c d = Ok m ∧ mh_code m = c ∧ mh_digest m = d;
  mh_format m : mh_typed m →
    mh_to_bytes m = write_uvarint (mh_code m) [] ++ write_uvarint (zlen (mh_digest m)) [] ++ mh_digest m;
  mh_from_bytes_returns bs : returns (mh_from_bytes bs);
  mh_from_bytes_typed bs m : mh_from_bytes bs = Ok m → mh_typed m;
  mh_read_back m : mh_typed m → mh_from_bytes (mh_to_bytes m) = Ok m;
  sha256_length k : zlen (sha256_digest k) = 32;
}.

Section PeerId.
Context `{HashCrates Multihash}.

Record PeerId := mkPeerId { multihash : Multihash }.

Definition validate_multihash (m : Multihash) : res PeerIdError unit :=
  let digest_len := zlen (mh_digest m) in
  if (mh_code m =? SHA256_MULTIHASH_CODE) && negb (digest_len =? 32)
  then Err (InvalidSha256DigestLength digest_len)
  else Ok tt.

Definition build_multihash (code : Z) (digest : bytes) : res PeerIdError Multihash :=
  match mh_wrap code digest with Ok m => Ok m | _ => Panic end.

Definition from_public_key_protobuf (encoded_public_key : bytes) : res PeerIdError PeerId :=
  m ← (if zlen encoded_public_key <=? MAX_INLINE_KEY_LENGTH
       then build_multihash IDENTITY_MULTIHASH_CODE encoded_public_key
       else build_multihash SHA256_MULTIHASH_CODE (sha256_digest encoded_public_key));
  mret (mkPeerId m).

Definition from_multihash (m : Multihash) : res PeerIdError PeerId :=
  _ ← validate_multihash m;
  mret (mkPeerId m).

Definition from_bytes (bs : bytes) : res PeerIdError PeerId :=
  parsed ← match mh_from_bytes bs with
           | Ok m => Ok m
           | Err reason => Err (InvalidMultihash reason)
           | Panic => Panic
           | Diverge => Diverge
           end;
  from_multihash parsed.

Definition to_bytes (p : PeerId) : bytes := mh_to_bytes (multihash p).
Definition digest_bytes (p : PeerId) : bytes := mh_digest (multihash p).

Definition to_base58 (p : PeerId) : res PeerIdError text := encode_base58 (to_bytes p).

Definition to_cid_base32 (p : PeerId) : res PeerIdError text :=
  let cid := write_uvarint LIBP2P_KEY_MULTICODEC (write_uvarint 1 []) ++ to_bytes p in
  body ← encode_base32_nopad_lower cid;
  mret (98 :: body).

Definition from_base58 (input : text) : res PeerIdError PeerId :=
  multihash ← decode_base58 input;
  from_bytes multihash.

(** [slice.get(from..)]. *)
Definition slice_from {A} (l : list A) (from : Z) : option (list A) :=
  if from <=? zlen l then Some (drop (Z.to_nat from) l) else None.

Definition map_varint {A} (wrap : VarintError → PeerIdError) (r : res VarintError A)
    : res PeerIdError A :=
  match r with Ok a => Ok a | Err e => Err (wrap e) | Panic => Panic | Diverge => Diverge end.

Definition from_cid (input : text) : res PeerIdError PeerId :=
  match input with
  | [] => Err EmptyInput
  | prefix :: payload =>
      cid_bytes ← (if (prefix =? 98) || (prefix =? 66) then decode_base32_nopad payload
                   else if prefix =? 122 then decode_base58 payload
                   else Err (UnsupportedMultibase prefix));
      '(version, version_len) ← map_varint InvalidCidVersionVarint (read_uvarint cid_bytes);
      if negb (version =? 1) then Err (UnsupportedCidVersion version)
      else
        codec_input ← ok_or (slice_from cid_bytes version_len)
                            (InvalidCidMulticodecVarint BufferTooShort);
        '(codec, codec_len) ← map_varint InvalidCidMulticodecVarint (read_uvarint codec_input);
        if negb (codec =? LIBP2P_KEY_MULTICODEC) then Err (UnsupportedMulticodec codec)
        else
          multihash_offset ← ok_or (checked_add usize_max version_len codec_len)
                                   (InvalidCidMulticodecVarint Overflow);
          multihash ← ok_or (slice_from cid_bytes multihash_offset)
                            (InvalidCidMulticodecVarint BufferTooShort);
          from_bytes multihash
  end.

(** [impl FromStr]: ['1'] and ["Qm"] announce the legacy form. *)
Definition from_str (s : text) : res PeerIdError PeerId :=
  match s with
  | 49 :: _ => from_base58 s
  | 81 :: 109 :: _ => from_base58 s
  | _ => from_cid s
  end.

(** ** Round trips *)

Context `{!HashCratesSpec Multihash}.

(** What [validate_multihash] lets through. *)
Definition peer_ok (p : PeerId) : Prop :=
  mh_typed (multihash p) ∧
  (mh_code (multihash p) = SHA256_MULTIHASH_CODE → zlen (mh_digest (multihash p)) = 32).

Lemma from_bytes_to_bytes p : peer_ok p → from_bytes (to_bytes p) = Ok p.
Proof.
  intros [Ht Hlen]. unfold from_bytes, to_bytes. rewrite mh_read_back by done.
  cbn. unfold from_multihash, validate_multihash.
  destruct (Z.eqb_spec (mh_code (multihash p)) SHA256_MULTIHASH_CODE) as [Hc|]; cbn.
  - rewrite (Hlen Hc). cbn. by destruct p.
  - by destruct p.
Qed.

Lemma from_bytes_returns bs : returns (from_bytes bs).
Proof.
  unfold from_bytes. pose proof (mh_from_bytes_returns bs) as Hr. destruct (mh_from_bytes bs); try done.
  cbn. unfold from_multihash, validate_multihash. by case_match.
Qed.

Lemma from_bytes_peer_ok bs p : from_bytes bs = Ok p → peer_ok p.
Proof.
  unfold from_bytes. destruct (mh_from_bytes bs) as [m|e| |] eqn:Hm; try done. cbn.
  apply mh_from_bytes_typed in Hm. unfold from_multihash, validate_multihash.
  destruct (Z.eqb_spec (mh_code m) SHA256_MULTIHASH_CODE); cbn.
  - destruct (Z.eqb_spec (zlen (mh_digest m)) 32); cbn; [|done]. by intros [= <-].
  - by intros [= <-].
Qed.

Lemma to_bytes_nonempty p : peer_ok p → to_bytes p ≠ [].
Proof.
  intros [Ht _] Hn. unfold to_bytes in Hn. rewrite mh_format in Hn by done.
  apply (f_equal zlen) in Hn. destruct Ht as [Hc _].
  rewrite zlen_app, zlen_write_uvarint in Hn by lia.
  pose proof (uvarint_len_pos _ (proj1 Hc)). zlen_lia.
Qed.

Lemma base58_round_trip p s :
  peer_ok p → to_base58 p = Ok s → from_base58 s = Ok p.
Proof.
  intros Hp He. apply base58_decode_encode in He as [Hd _]; [|by apply to_bytes_nonempty].
  unfold from_base58. rewrite Hd. cbn. by apply from_bytes_to_bytes.
Qed.

Lemma slice_from_app {A} (l k : list A) : slice_from (l ++ k) (zlen l) = Some k.
Proof.
  unfold slice_from. destruct (Z.leb_spec (zlen l) (zlen (l ++ k))); [|zlen_lia].
  by rewrite to_nat_zlen, drop_app_length.
Qed.

Lemma cid_round_trip p : peer_ok p → ∃ s, to_cid_base32 p = Ok s ∧ from_str s = Ok p.
Proof.
  intros Hp. unfold to_cid_base32.
  set (cid := write_uvarint LIBP2P_KEY_MULTICODEC (write_uvarint 1 []) ++ to_bytes p).
  destruct (base32_decode_encode cid) as (body & He & Hd). exists (98 :: body). rewrite He. split; [done|].
  unfold from_str, from_cid. cbn [orb Z.eqb Pos.eqb]. rewrite Hd. cbn [mbind res_bind].
  assert (cid = [x01] ++ [x72] ++ to_bytes p) as Hcid by done.
  assert (∀ v b rest, 0 ≤ v < 128 → write_uvarint v [] = [b] → read_uvarint ([b] ++ rest) = Ok (v, 1)) as Hread.
  { intros v b rest Hv Hw. apply read_uvarint_ok_iff. unfold u64_max. split_and!; [lia|lia| |].
    - by rewrite uvarint_len_small.
    - exists rest. by rewrite Hw. }
  rewrite Hcid, (Hread 1 x01) by (done || lia). cbn [map_varint mbind res_bind negb Z.eqb Pos.eqb].
  pose proof (slice_from_app [x01] ([x72] ++ to_bytes p)) as Hs1. change (zlen [x01]) with 1 in Hs1.
  pose proof (slice_from_app [x01; x72] (to_bytes p)) as Hs2. change (zlen [x01; x72]) with 2 in Hs2.
  change (1 + 1) with 2. cbn [app] in *.
  rewrite Hs1. cbn [ok_or mbind res_bind].
  rewrite (Hread LIBP2P_KEY_MULTICODEC x72 (to_bytes p)) by (done || by vm_compute).
  cbn [map_varint mbind res_bind]. rewrite Z.eqb_refl. cbn [negb].
  change (checked_add usize_max 1 1) with (Some 2).
  cbn [ok_or mbind res_bind]. rewrite Hs2. cbn [ok_or mbind res_bind].
  by apply from_bytes_to_bytes.
Qed.
(** An encoding starts with ['1'] exactly where the bytes start with zero. *)
Lemma encode_zero_head x s : encode_base58 (x00 :: x) = Ok s → ∃ rest, s = 49 :: rest.
Proof.
  intros He. destruct (split_zeros (λ b, b2z b =? 0) x00 (x00 :: x)) as (lz & x' & Hx & Hh & _).
  { intros b. split; [apply is_zero_byte|by intros ->]. }
  destruct lz as [|lz]; [cbn in Hx; by subst x'|].
  destruct (encode_base58_shape (S lz) x') as (ds & cs & _ & _ & _ & Hs); [done|done|].
  rewrite <- Hx, He in Hs. injection Hs as ->. by exists (replicate lz 49 ++ cs).
Qed.

(** The two most significant base58 digits of a number between [0x1220] and
    [0x1221] times [2^256] are those of ["Qm"]. *)
Lemma sha256_top_digits ds :
  canonical 58 ds → 0x1220 * 2 ^ 256 ≤ le_value 58 ds < 0x1221 * 2 ^ 256 →
  ∃ low, ds = low ++ [44; 23].
Proof.
  intros Hc Hv. exists (take 44 ds). rewrite <- (take_drop 44 ds) at 1. f_equal.
  assert (le_value 58 ds = le_value 58 (take 44 ds) + 58 ^ zlen (take 44 ds) * le_value 58 (drop 44 ds)) as Hsplit
    by (rewrite <- le_value_app, take_drop; done || lia).
  pose proof Hc as [Hall Hlast].
  pose proof (le_value_nonneg 58 ltac:(lia) (take 44 ds) ltac:(by apply Forall_take)) as Hlo.
  pose proof (le_value_lt 58 ltac:(lia) (take 44 ds) ltac:(by apply Forall_take)) as Hhi.
  destruct (decide (length ds ≤ 44)%nat) as [Hshort|Hlong].
  { exfalso. pose proof (le_value_lt 58 ltac:(lia) ds Hall) as Hlt.
    assert (58 ^ zlen ds ≤ 58 ^ 44) by (apply Z.pow_le_mono_r; unfold zlen; lia).
    assert (58 ^ 44 ≤ 0x1220 * 2 ^ 256) by (by vm_compute). lia. }
  assert (zlen (take 44 ds) = 44) as Hlen by (unfold zlen; rewrite length_take; lia).
  rewrite Hlen in *. apply (canonical_inj 58); [lia| |split; [repeat constructor; lia|done]|].
  - split; [by apply Forall_drop|].
    rewrite <- (last_app_nonempty (take 44 ds) (drop 44 ds)), take_drop; [done|].
    intros Hn%(f_equal length). rewrite length_drop in Hn. simpl in Hn. lia.
  - change (le_value 58 [44; 23]) with 1378.
    assert (1378 * 58 ^ 44 ≤ 0x1220 * 2 ^ 256 ∧ 0x1221 * 2 ^ 256 ≤ 1379 * 58 ^ 44) as [H1 H2]
      by (by vm_compute). nia.
Qed.

Lemma encode_sha256_head d s :
  zlen d = 32 → encode_base58 (x12 :: x20 :: d) = Ok s → ∃ rest, s = 81 :: 109 :: rest.
Proof.
  intros Hd He.
  destruct (encode_base58_shape 0 (x12 :: x20 :: d)) as (ds & cs & Hc & Hv & Hm & Hs); [done|done|].
  cbn [replicate app] in Hs. rewrite He in Hs. injection Hs as ->.
  destruct (sha256_top_digits ds Hc) as [low ->].
  { rewrite Hv. change (x12 :: x20 :: d) with ([x12; x20] ++ d). unfold be_value.
    rewrite foldl_app. change (foldl _ 0 [x12; x20]) with 0x1220.
    pose proof (be_value_range d) as Hr. unfold zlen in Hd. rewrite Hd in Hr.
    change (256 ^ 32) with (2 ^ 256) in Hr.
    assert (∀ acc l, foldl (λ a b, a * 256 + b2z b) acc l = acc * 256 ^ Z.of_nat (length l) + be_value l) as Hf.
    { clear. intros acc l. unfold be_value. rewrite <- (be_bytes_be_value l) at 1 3.
      rewrite !foldl_be_bytes. lia. }
    rewrite Hf, Hd. change (256 ^ 32) with (2 ^ 256). lia. }
  rewrite reverse_app in Hm. change (reverse [44; 23]) with [23; 44] in Hm.
  cbn [app mapM] in Hm.
  change (BASE58_ALPHABET !! Z.to_nat 23) with (Some 81) in Hm.
  change (BASE58_ALPHABET !! Z.to_nat 44) with (Some 109) in Hm. cbn in Hm.
  destruct (mapM _ (reverse low)) as [rest|]; [|done]. cbn in Hm. injection Hm as <-. by exists rest.
Qed.

Lemma display_round_trip p s :
  peer_ok p → mh_code (multihash p) = IDENTITY_MULTIHASH_CODE ∨
    mh_code (multihash p) = SHA256_MULTIHASH_CODE →
  to_base58 p = Ok s → from_str s = Ok p.
Proof.
  intros Hp Hcode He. pose proof (base58_round_trip p s Hp He) as Hb.
  unfold to_base58, to_bytes in He. destruct Hp as [Ht H32]. rewrite mh_format in He by done.
  destruct Hcode as [Hc|Hc]; rewrite Hc in He.
  - apply encode_zero_head in He as [rest ->]. exact Hb.
  - rewrite (H32 Hc) in He. apply encode_sha256_head in He as [rest ->]; [exact Hb|by apply H32].
Qed.

(** The identifier of a key: its bytes, or their digest. *)
Lemma public_key_peer k :
  ∃ p, from_public_key_protobuf k = Ok p ∧ peer_ok p ∧
    if zlen k <=? 42 then mh_code (multihash p) = 0 ∧ mh_digest (multihash p) = k
    else mh_code (multihash p) = 0x12 ∧ mh_digest (multihash p) = sha256_digest k.
Proof.
  unfold from_public_key_protobuf, build_multihash, MAX_INLINE_KEY_LENGTH.
  destruct (Z.leb_spec (zlen k) 42).
  - destruct (mh_wrap_spec IDENTITY_MULTIHASH_CODE k) as (m & -> & Hc & Hd);
      [by vm_compute|unfold PEER_ID_MULTIHASH_SIZE; lia|].
    exists (mkPeerId m). split; [done|]. unfold peer_ok, mh_typed. cbn. rewrite Hc, Hd.
    split_and!; try done. unfold PEER_ID_MULTIHASH_SIZE. lia.
  - pose proof (sha256_length k) as Hl.
    destruct (mh_wrap_spec SHA256_MULTIHASH_CODE (sha256_digest k)) as (m & -> & Hc & Hd);
      [by vm_compute|by rewrite Hl|].
    exists (mkPeerId m). split; [done|]. unfold peer_ok, mh_typed. cbn. rewrite Hc, Hd, Hl.
    by split_and!.
Qed.
Lemma public_key_peer_ok k :
  ∃ p, from_public_key_protobuf k = Ok p ∧ peer_ok p ∧
    (mh_code (multihash p) = IDENTITY_MULTIHASH_CODE ∨ mh_code (multihash p) = SHA256_MULTIHASH_CODE).
Proof.
  destruct (public_key_peer k) as (p & Hk & Hp & Hc). exists p. split_and!; [done..|]. destruct (zlen k <=? 42); destruct Hc; auto.
Qed.

(** ** Properties *)

(** C37: text forms of a peer id. From every encoded public key a peer id is
    built without panicking: a key of up to 42 bytes is inlined (the identity
    multihash, code 0), a longer one is hashed (SHA-256, code 0x12). Printing
    the id and parsing the text gives it back, in the legacy base58 form, which
    starts with "1" for an inlined and with "Qm" for a hashed key, as well as in
    the CIDv1 form. *)
Theorem peer_id_text_round_trip k :
  ∃ p s cid, from_public_key_protobuf k = Ok p ∧
    (if zlen k <=? 42 then mh_code (multihash p) = 0 ∧ mh_digest (multihash p) = k
     else mh_code (multihash p) = 0x12 ∧ mh_digest (multihash p) = sha256_digest k) ∧
    to_base58 p = Ok s ∧ (∃ rest, s = (if zlen k <=? 42 then [49] else [81; 109]) ++ rest) ∧ from_str s = Ok p ∧
    to_cid_base32 p = Ok cid ∧ from_str cid = Ok p.
Proof.
  destruct (public_key_peer k) as (p & Hk & Hp & Hc).
  destruct (encode_base58_total (to_bytes p) (to_bytes_nonempty p Hp)) as [s Hs].
  destruct (cid_round_trip p Hp) as (cid & Hcid & Hback).
  exists p, s, cid. split_and!; try done.
  - pose proof Hp as [Ht H32]. unfold to_bytes in Hs. rewrite mh_format in Hs by done.
    destruct (zlen k <=? 42); destruct Hc as [Hc Hd]; rewrite Hc in Hs.
    + apply encode_zero_head in Hs as [rest ->]. by exists rest.
    + rewrite (H32 Hc) in Hs. apply encode_sha256_head in Hs as [rest ->]; [by exists rest|by apply H32].
  - apply display_round_trip; [done| |done]. destruct (zlen k <=? 42); destruct Hc; auto.
Qed.
End PeerId.

(** ** An instance of the two crates *)

(** A multihash as its code and digest; a digest of 32 bytes for SHA-256. *)
#[local] Instance demo_crates : HashCrates (Z * bytes) := {|
  mh_wrap c d := if zlen d <=? PEER_ID_MULTIHASH_SIZE then Ok (c, d) else Err [];
  mh_from_bytes bs :=
    match read_uvarint_with_remainder bs with
    | Ok (c, rest) =>
        match read_uvarint_with_remainder rest with
        | Ok (n, d) =>
            if (zlen d =? n) && (n <=? PEER_ID_MULTIHASH_SIZE) then Ok (c, d) else Err []
        | _ => Err []
        end
    | _ => Err []
    end;
  mh_to_bytes m := write_uvarint m.1 [] ++ write_uvarint (zlen m.2) [] ++ m.2;
  mh_code := fst;
  mh_digest := snd;
  sha256_digest _ := replicate 32 x00;
|}.

#[local] Instance demo_crates_spec : HashCratesSpec (Z * bytes).
Proof.
  split.
  - intros c d _ Hd. cbn. destruct (Z.leb_spec (zlen d) PEER_ID_MULTIHASH_SIZE); [by eexists|lia].
  - done.
  - intros bs. cbn. by repeat case_match.
  - intros bs [c d]. cbn. destruct (read_uvarint_with_remainder bs) as [[c' rest]|e| |] eqn:Hr; try done.
    destruct (read_uvarint_with_remainder rest) as [[n d']|e| |]; try done.
    destruct (Z.eqb_spec (zlen d') n) as [<-|]; [|done].
    destruct (Z.leb_spec (zlen d') PEER_ID_MULTIHASH_SIZE); [|done]. cbn. intros [= <- <-].
    apply read_uvarint_with_remainder_canonical in Hr as [Hc _]. by split.
  - intros [c d] [Hc Hd]. pose proof (zlen_nonneg d).
    cbn [mh_from_bytes mh_to_bytes mh_code mh_digest demo_crates fst snd] in *.
    unfold PEER_ID_MULTIHASH_SIZE, u64_max in *.
    rewrite read_write_uvarint by (unfold u64_max; lia).
    rewrite read_write_uvarint by (unfold u64_max; lia). rewrite Z.eqb_refl.
    by destruct (Z.leb_spec (zlen d) 64); [|lia].
  - done.
Qed.

Lemma peer_id_text_round_trip_witness :
  ∃ p s cid, from_public_key_protobuf (str "a key") = Ok p ∧ (mh_code (multihash p) = 0 ∧ mh_digest (multihash p) = str "a key") ∧
    to_base58 p = Ok s ∧ (∃ rest, s = [49] ++ rest) ∧ from_str s = Ok p ∧ to_cid_base32 p = Ok cid ∧ from_str cid = Ok p.
Proof. exact (peer_id_text_round_trip (str "a key")). Defined.
