(* ===== verification/Multiaddr.v ===== *)
(** Network addresses, from [crates/core/src/protocol.rs],
    [crates/core/src/multiaddr.rs], [crates/core/src/peer_addr.rs] and
    [crates/core/src/candidates.rs]: the binary form, the shapes transports can
    dial, addresses that name a peer, and the choice of addresses to try. The
    text form is not modelled. *)

From Stdlib Require Import Strings.Byte.
From S2P Require Import Prelude Varint Text Base58 PeerIdentity.

Definition IP4_CODE : Z := 0x04.
Definition IP6_CODE : Z := 0x29.
Definition DNS_CODE : Z := 0x35.
Definition DNS4_CODE : Z := 0x36.
Definition DNS6_CODE : Z := 0x37.
Definition TCP_CODE : Z := 0x06.
Definition UDP_CODE : Z := 0x0111.
Definition QUIC_V1_CODE : Z := 0x01cd.
Definition P2P_CODE : Z := 0x01a5.
Definition P2P_CIRCUIT_CODE : Z := 0x0122.

(** The source keeps the printed form of the error that made a binary value
    invalid; here it is the error itself. *)
Inductive BinaryReason := NotUtf8 | InvalidDns | InvalidPeer (e : PeerIdError).

(** The errors of the binary form. *)
Inductive MultiaddrError :=
  | UnknownProtocolCode (code : Z)
  | TruncatedBinaryValue (protocol : bytes)
  | InvalidBinaryValue (protocol : bytes) (reason : BinaryReason)
  | MVarint (e : VarintError).

Inductive PeerAddrError :=
  | MissingPeerId
  | NonTerminalPeerId
  | TransportContainsPeerId
  | EmptyTransport.

(** [value.contains('/')] looks for one byte. *)
Definition is_valid_dns (value : bytes) : bool :=
  negb (bool_decide (value = [])) && negb (bool_decide (x2f ∈ value)) &&
  negb (existsb (λ ch, is_whitespace ch || is_control ch) (utf8_chars value)).

Section Multiaddr.
Context `{HashCrates Multihash}.
Abbreviation PeerId := (PeerIdentity.PeerId (Multihash := Multihash)).

(** Names are the UTF-8 bytes of a [String]; ports are [u16]. *)
Inductive Protocol :=
  | Ip4 (b : bytes)
  | Ip6 (b : bytes)
  | Dns (name : bytes)
  | Dns4 (name : bytes)
  | Dns6 (name : bytes)
  | Tcp (port : Z)
  | Udp (port : Z)
  | QuicV1
  | P2p (peer_id : PeerId)
  | P2pCircuit.

Definition is_host (p : Protocol) : bool :=
  match p with Ip4 _ | Ip6 _ | Dns _ | Dns4 _ | Dns6 _ => true | _ => false end.

Definition code (p : Protocol) : Z :=
  match p with
  | Ip4 _ => IP4_CODE
  | Ip6 _ => IP6_CODE
  | Dns _ => DNS_CODE
  | Dns4 _ => DNS4_CODE
  | Dns6 _ => DNS6_CODE
  | Tcp _ => TCP_CODE
  | Udp _ => UDP_CODE
  | QuicV1 => QUIC_V1_CODE
  | P2p _ => P2P_CODE
  | P2pCircuit => P2P_CIRCUIT_CODE
  end.

Definition write_binary (p : Protocol) (out : bytes) : bytes :=
  let out := write_uvarint (code p) out in
  match p with
  | Ip4 b | Ip6 b => out ++ b
  | Dns name | Dns4 name | Dns6 name => write_uvarint (zlen name) out ++ name
  | Tcp port | Udp port => out ++ be_bytes 2 port
  | QuicV1 | P2pCircuit => out
  | P2p peer_id => let body := to_bytes peer_id in write_uvarint (zlen body) out ++ body
  end.

(** [split_first_chunk::<N>]. *)
Definition fixed (n : Z) (b : bytes) (protocol : bytes) : res MultiaddrError (bytes * bytes) :=
  if n <=? zlen b then Ok (take (Z.to_nat n) b, drop (Z.to_nat n) b)
  else Err (TruncatedBinaryValue protocol).

Definition map_mvarint {A} (r : res VarintError A) : res MultiaddrError A :=
  match r with Ok a => Ok a | Err e => Err (MVarint e) | Panic => Panic | Diverge => Diverge end.

Definition length_prefixed (b : bytes) (protocol : bytes) : res MultiaddrError (bytes * bytes) :=
  '(len, rest) ← map_mvarint (read_uvarint_with_remainder b);
  if zlen rest <? len then Err (TruncatedBinaryValue protocol)
  else Ok (take (Z.to_nat len) rest, drop (Z.to_nat len) rest).

Definition read_binary (b : bytes) : res MultiaddrError (Protocol * bytes) :=
  '(code, rest) ← map_mvarint (read_uvarint_with_remainder b);
  if code =? IP4_CODE then '(value, rest) ← fixed 4 rest (str "ip4"); mret (Ip4 value, rest)
  else if code =? IP6_CODE then '(value, rest) ← fixed 16 rest (str "ip6"); mret (Ip6 value, rest)
  else if code =? TCP_CODE then '(value, rest) ← fixed 2 rest (str "tcp"); mret (Tcp (be_value value), rest)
  else if code =? UDP_CODE then '(value, rest) ← fixed 2 rest (str "udp"); mret (Udp (be_value value), rest)
  else if code =? QUIC_V1_CODE then mret (QuicV1, rest)
  else if code =? P2P_CIRCUIT_CODE then mret (P2pCircuit, rest)
  else if (code =? DNS_CODE) || (code =? DNS4_CODE) || (code =? DNS6_CODE) then
    let label := if code =? DNS_CODE then str "dns" else if code =? DNS4_CODE then str "dns4" else str "dns6" in
    '(name, rest) ← length_prefixed rest label;
    if negb (utf8_valid name) then Err (InvalidBinaryValue label NotUtf8)
    else if negb (is_valid_dns name) then Err (InvalidBinaryValue label InvalidDns)
    else
      mret (if code =? DNS_CODE then Dns name else if code =? DNS4_CODE then Dns4 name else Dns6 name, rest)
  else if code =? P2P_CODE then
    '(body, rest) ← length_prefixed rest (str "p2p");
    peer_id ← match from_bytes body with
              | Ok p => Ok p
              | Err e => Err (InvalidBinaryValue (str "p2p") (InvalidPeer e))
              | Panic => Panic
              | Diverge => Diverge
              end;
    mret (P2p peer_id, rest)
  else Err (UnknownProtocolCode code).

Record Multiaddr := mkMultiaddr { protocols : list Protocol }.

Definition push (m : Multiaddr) (p : Protocol) : Multiaddr := mkMultiaddr (protocols m ++ [p]).
Definition encapsulate (m other : Multiaddr) : Multiaddr := mkMultiaddr (protocols m ++ protocols other).
Fixpoint find_peer_id (l : list Protocol) : option PeerId :=
  match l with [] => None | P2p p :: _ => Some p | _ :: l => find_peer_id l end.
Definition multiaddr_peer_id (m : Multiaddr) : option PeerId := find_peer_id (protocols m).

Definition multiaddr_to_bytes (m : Multiaddr) : bytes :=
  foldl (λ out p, write_binary p out) [] (protocols m).

(** Every component takes at least one byte. *)
Fixpoint from_bytes_loop (fuel : nat) (remaining : bytes) (ps : list Protocol) : res MultiaddrError Multiaddr :=
  match remaining with
  | [] => Ok (mkMultiaddr ps)
  | _ =>
      match fuel with
      | O => Diverge
      | S fuel =>
          '(p, rest) ← read_binary remaining;
          from_bytes_loop fuel rest (ps ++ [p])
      end
  end.
Definition multiaddr_from_bytes (b : bytes) : res MultiaddrError Multiaddr :=
  from_bytes_loop (length b) b [].

(** ** Shapes *)

Inductive TransportKind := TcpKind | QuicKind.

Definition is_quic_transport_slice (l : list Protocol) : bool :=
  match l with [host; Udp _; QuicV1] => is_host host | _ => false end.
Definition is_tcp_transport_slice (l : list Protocol) : bool :=
  match l with [host; Tcp _] => is_host host | _ => false end.
Definition transport_kind_of (l : list Protocol) : option TransportKind :=
  if is_tcp_transport_slice l then Some TcpKind
  else if is_quic_transport_slice l then Some QuicKind
  else None.
Definition transport_kind (m : Multiaddr) : option TransportKind := transport_kind_of (protocols m).

Definition is_wildcard_host (m : Multiaddr) : bool :=
  match protocols m with
  | Ip4 b :: _ => bool_decide (b = replicate 4 x00)
  | Ip6 b :: _ => bool_decide (b = replicate 16 x00)
  | _ => false
  end.

(** [split_last]. *)
Definition split_last {A} (l : list A) : option (A * list A) :=
  match reverse l with [] => None | x :: r => Some (x, reverse r) end.

Definition is_relay_circuit_transport (m : Multiaddr) : bool :=
  match split_last (protocols m) with
  | Some (P2pCircuit, head) =>
      match split_last head with
      | Some (P2p _, leg) => bool_decide (is_Some (transport_kind_of leg))
      | _ => false
      end
  | _ => false
  end.

(** ** Addresses that name a peer *)

Record PeerAddr := mkPeerAddr { transport : Multiaddr; addr_peer_id : PeerId }.

Definition is_p2p (p : Protocol) : bool := match p with P2p _ => true | _ => false end.

Definition PeerAddr_new (transport : Multiaddr) (peer_id : PeerId) : res PeerAddrError PeerAddr :=
  if existsb is_p2p (protocols transport) then Err TransportContainsPeerId
  else
    match protocols transport with
    | [] => Err EmptyTransport
    | _ => Ok (mkPeerAddr transport peer_id)
    end.

(** [iter().position(f)] and [iter().rposition(f)]. *)
Definition position {A} (f : A → bool) (l : list A) : option nat := fst <$> list_find (λ x, f x = true) l.
Definition rposition {A} (f : A → bool) (l : list A) : option nat :=
  (λ i, (length l - 1 - i)%nat) <$> position f (reverse l).

Definition PeerAddr_from_multiaddr (m : Multiaddr) : res PeerAddrError PeerAddr :=
  last ← ok_or (rposition is_p2p (protocols m)) MissingPeerId;
  match split_last (protocols m) with
  | Some (P2p peer_id, transport_slice) =>
      first ← ok_or (position is_p2p (protocols m)) MissingPeerId;
      if negb (bool_decide (first = last)) then Err NonTerminalPeerId
      else
        match transport_slice with
        | [] => Err EmptyTransport
        | _ => Ok (mkPeerAddr (mkMultiaddr transport_slice) peer_id)
        end
  | _ => Err NonTerminalPeerId
  end.

Definition PeerAddr_to_multiaddr (a : PeerAddr) : Multiaddr :=
  mkMultiaddr (protocols (transport a) ++ [P2p (addr_peer_id a)]).

(** ** Comparing addresses *)

Context `{!EqDecision Multihash}.

#[global] Instance PeerId_eq_dec : EqDecision PeerId.
Proof. solve_decision. Defined.
#[global] Program Instance PeerId_countable `{!Countable Multihash} : Countable PeerId :=
  inj_countable' multihash mkPeerId _.
Next Obligation. by intros ? []. Qed.
#[global] Instance Protocol_eq_dec : EqDecision Protocol.
Proof. solve_decision. Defined.
#[global] Instance Multiaddr_eq_dec : EqDecision Multiaddr.
Proof. solve_decision. Defined.

(** The loop of [decapsulate], from index [n - 1] down. *)
Fixpoint decapsulate_loop (n : nat) (ps suffix : list Protocol) : option Multiaddr :=
  match n with
  | O => None
  | S idx =>
      if bool_decide (slice ps (Z.of_nat idx) (Z.of_nat idx + zlen suffix) = Some suffix)
      then mkMultiaddr <$> slice ps 0 (Z.of_nat idx)
      else decapsulate_loop idx ps suffix
  end.
Definition decapsulate (m suffix : Multiaddr) : option Multiaddr :=
  match protocols suffix with
  | [] => Some m
  | _ =>
      if zlen (protocols m) <? zlen (protocols suffix) then None
      else decapsulate_loop (S (length (protocols m) - length (protocols suffix))) (protocols m) (protocols suffix)
  end.

Definition push_candidate (accepted : list Multiaddr) (addr : Multiaddr) : list Multiaddr :=
  if is_wildcard_host addr then accepted
  else if bool_decide (transport_kind addr = None) then accepted
  else if bool_decide (addr ∈ accepted) then accepted
  else accepted ++ [addr].

Definition select_direct_addrs (manual : list Multiaddr) (identify_observed listen : option Multiaddr)
    : list Multiaddr :=
  let accepted := foldl push_candidate [] manual in
  let accepted := match identify_observed with Some addr => push_candidate accepted addr | None => accepted end in
  match listen with Some addr => push_candidate accepted addr | None => accepted end.

(** ** The binary form *)

Context `{!HashCratesSpec Multihash}.

(** The components a Rust value can have, with a name its text form can carry. *)
Definition protocol_ok (p : Protocol) : Prop :=
  match p with
  | Ip4 b => zlen b = 4
  | Ip6 b => zlen b = 16
  | Dns n | Dns4 n | Dns6 n => utf8_valid n = true ∧ is_valid_dns n = true ∧ zlen n ≤ u64_max
  | Tcp port | Udp port => 0 ≤ port ≤ u16_max
  | P2p p => peer_ok p
  | QuicV1 | P2pCircuit => True
  end.

(** The bytes of one component. *)
Definition value_part (p : Protocol) : bytes :=
  match p with
  | Ip4 b | Ip6 b => b
  | Dns n | Dns4 n | Dns6 n => write_uvarint (zlen n) [] ++ n
  | Tcp port | Udp port => be_bytes 2 port
  | QuicV1 | P2pCircuit => []
  | P2p p => write_uvarint (zlen (to_bytes p)) [] ++ to_bytes p
  end.
Definition component (p : Protocol) : bytes := write_uvarint (code p) [] ++ value_part p.

Lemma write_component p out : write_binary p out = out ++ component p.
Proof.
  unfold write_binary, component, value_part.
  destruct p; cbv zeta; rewrite ?(write_uvarint_app (zlen _) (write_uvarint _ _)), (write_uvarint_app (code _) out);
    by rewrite ?app_nil_r, ?app_assoc.
Qed.

Lemma to_bytes_components m : multiaddr_to_bytes m = concat (component <$> protocols m).
Proof.
  unfold multiaddr_to_bytes. destruct m as [ps]. cbn.
  assert (∀ out, foldl (λ out p, write_binary p out) out ps = out ++ concat (component <$> ps)) as Ho; [|apply Ho].
  induction ps as [|p ps IH]; intros out; cbn; [by rewrite app_nil_r|].
  by rewrite IH, write_component, app_assoc.
Qed.

Lemma code_range p : 0 ≤ code p ≤ u64_max.
Proof. destruct p; by vm_compute. Qed.

Lemma read_fixed n l b rest : zlen b = n → fixed n (b ++ rest) l = Ok (b, rest).
Proof.
  intros <-. unfold fixed. destruct (Z.leb_spec (zlen b) (zlen (b ++ rest))); [|zlen_lia].
  by rewrite to_nat_zlen, take_app_length, drop_app_length.
Qed.

Lemma read_prefixed l b rest :
  zlen b ≤ u64_max → length_prefixed (write_uvarint (zlen b) [] ++ b ++ rest) l = Ok (b, rest).
Proof.
  intros Hb. pose proof (zlen_nonneg b). unfold length_prefixed. rewrite read_write_uvarint by lia. cbn.
  destruct (Z.ltb_spec (zlen (b ++ rest)) (zlen b)); [zlen_lia|].
  by rewrite to_nat_zlen, take_app_length, drop_app_length.
Qed.

Lemma zlen_peer_bytes p : peer_ok p → zlen (to_bytes p) ≤ u64_max.
Proof.
  intros [[Hc Hd] _]. unfold to_bytes. rewrite mh_format by done. rewrite !zlen_app.
  pose proof (zlen_nonneg (mh_digest (multihash p))). unfold PEER_ID_MULTIHASH_SIZE, u64_max in *.
  rewrite !zlen_write_uvarint by lia. pose proof (uvarint_len_bound (mh_code (multihash p)) Hc).
  assert (1 ≤ uvarint_len (zlen (mh_digest (multihash p))) ≤ 10) by (apply uvarint_len_bound; unfold u64_max; lia). lia.
Qed.

Lemma read_component p rest : protocol_ok p → read_binary (component p ++ rest) = Ok (p, rest).
Proof.
  intros Hp. unfold component, read_binary. rewrite <- app_assoc, read_write_uvarint by apply code_range. cbn [map_mvarint].
  unfold mbind, res_bind at 1. destruct p; cbn [code value_part] in *; cbn -[fixed length_prefixed app write_uvarint be_bytes be_value].
  1,2: by rewrite read_fixed.
  - destruct Hp as (Hu & Hv & Hz). rewrite <- app_assoc, read_prefixed by done. cbn. by rewrite Hu, Hv.
  - destruct Hp as (Hu & Hv & Hz). rewrite <- app_assoc, read_prefixed by done. cbn. by rewrite Hu, Hv.
  - destruct Hp as (Hu & Hv & Hz). rewrite <- app_assoc, read_prefixed by done. cbn. by rewrite Hu, Hv.
  - rewrite read_fixed by done. cbn -[be_bytes be_value]. rewrite be_value_be_bytes; [done|]. unfold protocol_ok, u16_max in Hp.
    change (256 ^ Z.of_nat 2) with 65536. lia.
  - rewrite read_fixed by done. cbn -[be_bytes be_value]. rewrite be_value_be_bytes; [done|]. unfold protocol_ok, u16_max in Hp.
    change (256 ^ Z.of_nat 2) with 65536. lia.
  - done.
  - rewrite <- app_assoc, read_prefixed by (by apply zlen_peer_bytes). cbn. by rewrite from_bytes_to_bytes.
  - done.
Qed.

Lemma component_nonempty p : component p ≠ [].
Proof.
  unfold component. intros [Hn _]%app_eq_nil. apply (f_equal zlen) in Hn.
  pose proof (code_range p). rewrite zlen_write_uvarint, zlen_nil in Hn by lia.
  pose proof (uvarint_len_pos (code p) ltac:(lia)). lia.
Qed.

Lemma from_bytes_loop_ok fuel ps done_ :
  Forall protocol_ok ps → (length (concat (component <$> ps)) ≤ fuel)%nat →
  from_bytes_loop fuel (concat (component <$> ps)) done_ = Ok (mkMultiaddr (done_ ++ ps)).
Proof.
  revert fuel done_. induction ps as [|p ps IH]; intros fuel done_ Hps Hf.
  { rewrite app_nil_r. by destruct fuel. }
  rewrite fmap_cons, concat_cons in *. apply Forall_cons in Hps as [Hp Hps]. pose proof (component_nonempty p) as Hne. rewrite length_app in Hf.
  destruct (component p ++ concat (component <$> ps)) as [|x l] eqn:Hl; [by apply app_eq_nil in Hl as [? _]|].
  assert (length (component p) ≠ 0)%nat by (by destruct (component p)).
  destruct fuel as [|fuel]; [lia|]. cbn [from_bytes_loop]. rewrite <- Hl, read_component by done. cbn.
  rewrite IH by (done || lia). by rewrite <- app_assoc.
Qed.

Lemma fixed_ok n b l v rest : 0 ≤ n → fixed n b l = Ok (v, rest) → zlen v = n ∧ b = v ++ rest.
Proof.
  intros Hn. unfold fixed. destruct (Z.leb_spec n (zlen b)); [|done]. intros [= <- <-].
  by rewrite zlen_take, take_drop; split; [lia|].
Qed.
Lemma length_prefixed_ok b l v rest :
  length_prefixed b l = Ok (v, rest) → zlen v ≤ u64_max ∧ zlen rest < zlen b.
Proof.
  unfold length_prefixed. destruct (read_uvarint_with_remainder b) as [[len r]|e| |] eqn:Hr; try done. cbn.
  apply read_uvarint_with_remainder_canonical in Hr as [Hlen ->].
  destruct (Z.ltb_spec (zlen r) len); [done|]. intros [= <- <-]. pose proof (uvarint_len_pos len ltac:(lia)).
  rewrite zlen_take, zlen_drop, zlen_app, zlen_write_uvarint by lia. pose proof (zlen_nonneg r). lia.
Qed.

Lemma read_binary_ok b p rest : read_binary b = Ok (p, rest) → protocol_ok p ∧ zlen rest < zlen b.
Proof.
  unfold read_binary. destruct (read_uvarint_with_remainder b) as [[c r]|e| |] eqn:Hr; try done. cbn [map_mvarint].
  apply read_uvarint_with_remainder_canonical in Hr as [Hc ->]. unfold mbind, res_bind at 1.
  pose proof (uvarint_len_pos c ltac:(lia)). rewrite zlen_app, zlen_write_uvarint by lia.
  assert (∀ n l (k : bytes → Protocol), 0 ≤ n → (∀ v, zlen v = n → protocol_ok (k v)) →
    ('(value, rest) ← fixed n r l; mret (k value, rest)) = Ok (p, rest) →
    protocol_ok p ∧ zlen rest < uvarint_len c + zlen r) as Hfix.
  { intros n l k Hn Hk Hrun. apply bind_res_ok in Hrun as ([v r'] & Hv & [= <- ->]).
    apply fixed_ok in Hv as [Hv ->]; [|done]. split; [by apply Hk|zlen_lia]. }
  destruct (c =? IP4_CODE); [by apply Hfix|]. destruct (c =? IP6_CODE); [by apply Hfix|].
  assert (∀ v, zlen v = 2 → 0 ≤ be_value v ≤ u16_max) as Hport.
  { intros v Hv. pose proof (be_value_range v) as Hrange. unfold zlen in Hv. rewrite Hv in Hrange.
    change (256 ^ 2) with 65536 in Hrange. unfold u16_max. lia. }
  destruct (c =? TCP_CODE); [by apply Hfix|]. destruct (c =? UDP_CODE); [by apply Hfix|].
  destruct (c =? QUIC_V1_CODE); [intros [= <- <-]; split; [done|lia]|].
  destruct (c =? P2P_CIRCUIT_CODE); [intros [= <- <-]; split; [done|lia]|].
  destruct (_ || _ || _).
  - intros ([v r'] & Hv & Hrun)%bind_res_ok. apply length_prefixed_ok in Hv as [Hz Hlt].
    destruct (utf8_valid v) eqn:Hu; [|done]. destruct (is_valid_dns v) eqn:Hd; [|done]. cbn in Hrun.
    injection Hrun as <- <-. split; [|lia]. by repeat case_match.
  - destruct (c =? P2P_CODE); [|done]. intros ([v r'] & Hv & Hrun)%bind_res_ok.
    apply length_prefixed_ok in Hv as [Hz Hlt]. destruct (from_bytes v) as [q|e| |] eqn:Hq; try done. cbn in Hrun.
    injection Hrun as <- <-. split; [by eapply from_bytes_peer_ok|lia].
Qed.

Lemma read_binary_returns b : returns (read_binary b).
Proof.
  assert (∀ l, returns (map_mvarint (read_uvarint_with_remainder l))) as Hrv.
  { intros l. pose proof (read_uvarint_loop_outcome 0 0 0 l) as Ho.
    unfold read_uvarint_with_remainder. destruct (read_uvarint_loop 0 0 0 l); cbn; try done; by destruct Ho. }
  assert (∀ n r l, returns (fixed n r l)) as Hfix by (intros; unfold fixed; by case_match).
  assert (∀ r l, returns (length_prefixed r l)) as Hlen.
  { intros r l. apply returns_bind; [apply Hrv|]. intros [n d]. by case_match. }
  unfold read_binary. apply returns_bind; [apply Hrv|]. intros [c r].
  assert (∀ n l (k : bytes → Protocol), returns ('(value, rest) ← fixed n r l; mret (k value, rest))) as Hf.
  { intros n l k. apply returns_bind; [apply Hfix|]. by intros []. }
  do 4 (case_match; [apply Hf|]). do 2 (case_match; [done|]). case_match.
  - apply returns_bind; [apply Hlen|]. intros [v r']. by repeat case_match.
  - case_match; [|done]. apply returns_bind; [apply Hlen|]. intros [v r'].
    pose proof (from_bytes_returns v) as Hr. by destruct (from_bytes v).
Qed.

Lemma from_bytes_loop_typed fuel b ps :
  (length b ≤ fuel)%nat → Forall protocol_ok ps →
  match from_bytes_loop fuel b ps with Ok m => Forall protocol_ok (protocols m) | Err _ => True | _ => False end.
Proof.
  revert b ps. induction fuel as [|fuel IH]; intros b ps Hf Hps; destruct b as [|x b]; try done; [cbn in Hf; lia|].
  cbn [from_bytes_loop]. pose proof (read_binary_returns (x :: b)) as Hr.
  destruct (read_binary (x :: b)) as [[p rest]|e| |] eqn:Hp; try done. cbn.
  apply read_binary_ok in Hp as [Hp Hlt]. apply IH.
  - unfold zlen in Hlt. cbn in *. lia.
  - apply Forall_app. auto.
Qed.

Lemma multiaddr_round_trip m : Forall protocol_ok (protocols m) → multiaddr_from_bytes (multiaddr_to_bytes m) = Ok m.
Proof. destruct m as [ps]. intros Hps. unfold multiaddr_from_bytes. rewrite to_bytes_components. by rewrite from_bytes_loop_ok. Qed.

(** C40: the binary form of an address is exact. Writing an address and reading
    the bytes gives it back; whatever bytes arrive, the reader answers with an
    error or with an address all of whose components are well formed, so that
    a name it accepts is one the text form can carry; and what was read is
    written in a form that reads back as the same address. *)
Theorem multiaddr_binary_exact m b :
  (Forall protocol_ok (protocols m) → multiaddr_from_bytes (multiaddr_to_bytes m) = Ok m) ∧
  match multiaddr_from_bytes b with
  | Ok m' => Forall protocol_ok (protocols m') ∧ multiaddr_from_bytes (multiaddr_to_bytes m') = Ok m'
  | Err _ => True
  | _ => False
  end.
Proof.
  split; [apply multiaddr_round_trip|]. pose proof (from_bytes_loop_typed (length b) b [] ltac:(done) ltac:(done)) as Ht.
  unfold multiaddr_from_bytes at 1. destruct (from_bytes_loop _ b []); try done. auto using multiaddr_round_trip.
Qed.

(** ** Candidates *)

Definition dialable (addr : Multiaddr) : Prop :=
  is_wildcard_host addr = false ∧ is_Some (transport_kind addr).
#[global] Instance dialable_dec addr : Decision (dialable addr).
Proof. unfold dialable. apply _. Defined.

(** The elements of [l] where they occur first. *)
Fixpoint firsts (l : list Multiaddr) : list Multiaddr :=
  match l with [] => [] | x :: l => x :: filter (λ y, y ≠ x) (firsts l) end.

Lemma push_candidate_cases acc a :
  push_candidate acc a = if decide (dialable a ∧ a ∉ acc) then acc ++ [a] else acc.
Proof.
  unfold push_candidate. destruct (decide (dialable a ∧ a ∉ acc)) as [[[Hw [k Hk]] Hn]|Hno].
  { rewrite Hw, Hk. by rewrite bool_decide_false, bool_decide_false by done. }
  destruct (is_wildcard_host a) eqn:Hw; [done|].
  case_bool_decide as Hk; [done|]. case_bool_decide as Hn; [done|].
  destruct Hno. split; [|done]. split; [done|]. by destruct (transport_kind a).
Qed.

Lemma filter_filter_and (P Q : Multiaddr → Prop) `{∀ x, Decision (P x), ∀ x, Decision (Q x)} (l : list Multiaddr) :
  filter P (filter Q l) = filter (λ x, P x ∧ Q x) l.
Proof. by rewrite list_filter_filter. Qed.

Lemma push_candidates acc l :
  foldl push_candidate acc l = acc ++ filter (λ a, a ∉ acc) (firsts (filter dialable l)).
Proof.
  revert acc. induction l as [|a l IH]; intros acc; cbn [foldl]; [by rewrite app_nil_r|].
  rewrite IH, push_candidate_cases, filter_cons. destruct (decide (dialable a)) as [Ha|Ha].
  - cbn [firsts]. rewrite filter_cons. destruct (decide (a ∈ acc)) as [Hin|Hin].
    + rewrite decide_False by naive_solver. rewrite decide_False by naive_solver. f_equal.
      rewrite filter_filter_and. apply list_filter_iff. naive_solver.
    + rewrite decide_True by naive_solver. rewrite decide_True by done. rewrite <- app_assoc. cbn. do 2 f_equal.
      rewrite filter_filter_and. apply list_filter_iff. intros x. rewrite elem_of_app, elem_of_cons, elem_of_nil. naive_solver.
  - by rewrite decide_False by naive_solver.
Qed.

Definition opt_list {A} (o : option A) : list A := match o with Some a => [a] | None => [] end.

(** The addresses to dial directly are the dialable ones (an address some
    transport can dial, of a host that is not a wildcard) among the manual, the
    observed and the listen addresses, in that order, each where it occurs
    first. *)
Theorem direct_addrs_exact manual observed listen :
  select_direct_addrs manual observed listen =
    firsts (filter dialable (manual ++ opt_list observed ++ opt_list listen)).
Proof.
  clear HashCratesSpec0. assert (select_direct_addrs manual observed listen =
    foldl push_candidate [] (manual ++ opt_list observed ++ opt_list listen)) as ->.
  { rewrite !foldl_app. by destruct observed, listen. }
  rewrite push_candidates. cbn [app].
  rewrite (list_filter_iff (λ a, a ∉ []) (λ _, True)) by (intros; set_solver).
  induction (firsts _) as [|x l IH]; [done|]. by rewrite filter_cons_True, IH.
Qed.

(** ** Peer addresses *)

Lemma split_last_snoc {A} (l : list A) x : split_last (l ++ [x]) = Some (x, l).
Proof. unfold split_last. by rewrite reverse_snoc, reverse_involutive. Qed.

Lemma position_none {A} (f : A → bool) l : existsb f l = false → position f l = None.
Proof.
  intros Hl. unfold position. replace (list_find _ l) with (@None (nat * A)); [done|]. symmetry.
  apply list_find_None, Forall_forall. intros x Hx Hf.
  assert (existsb f l = true) by (apply existsb_exists; exists x; by rewrite <- list_elem_of_In). congruence.
Qed.
Lemma position_app_found {A} (f : A → bool) l k :
  existsb f l = true → ∃ i, position f (l ++ k) = Some i ∧ (i < length l)%nat.
Proof.
  induction l as [|x l IH]; cbn; [done|]. unfold position in *. cbn. destruct (f x) eqn:Hf; cbn.
  { intros _. exists O. rewrite decide_True by done. split; [done|lia]. }
  intros Hl. destruct (IH Hl) as (i & Hi & Hlt). rewrite decide_False by done.
  destruct (list_find _ (l ++ k)) as [[j y]|]; cbn in *; [|done]. injection Hi as ->. exists (S i). split; [done|lia].
Qed.
Lemma position_app_none {A} (f : A → bool) l x :
  existsb f l = false → f x = true → position f (l ++ [x]) = Some (length l).
Proof.
  intros Hl Hx. induction l as [|y l IH]; unfold position in *; cbn in *; [by rewrite Hx|].
  apply orb_false_iff in Hl as [Hy Hl]. rewrite decide_False by (by rewrite Hy). specialize (IH Hl).
  destruct (list_find _ (l ++ [x])) as [[j z]|]; cbn in *; [|done]. by injection IH as ->.
Qed.
Lemma rposition_snoc {A} (f : A → bool) l x : f x = true → rposition f (l ++ [x]) = Some (length l).
Proof.
  intros Hx. unfold rposition, position. rewrite reverse_snoc. cbn. rewrite decide_True by done. cbn.
  f_equal. rewrite length_app. cbn. lia.
Qed.

(** A multiaddr names a peer exactly when it is a transport address that
    [PeerAddr::new] accepts followed by the peer's component: parsing it gives
    that transport address and that peer, and nothing else parses. *)
Theorem peer_addr_exact m a :
  PeerAddr_from_multiaddr m = Ok a ↔
    PeerAddr_new (transport a) (addr_peer_id a) = Ok a ∧ m = PeerAddr_to_multiaddr a.
Proof.
  destruct m as [ps], a as [[ts] p]. unfold PeerAddr_to_multiaddr, PeerAddr_from_multiaddr, PeerAddr_new.
  cbn [protocols transport addr_peer_id]. destruct ps as [|x r _] using rev_ind.
  { cbn. split; [done|]. intros [_ [= Heq]]. by destruct ts. }
  rewrite split_last_snoc. destruct (is_p2p x) eqn:Hx; cycle 1.
  { split.
    - destruct (rposition _ _); cbn; by destruct x.
    - intros [_ [= Heq]]. apply app_inj_tail in Heq as [_ ->]. done. }
  rewrite rposition_snoc by done. destruct x as [| | | | | | | |q|]; try done. cbn.
  destruct (existsb is_p2p r) eqn:Hr.
  - destruct (position_app_found is_p2p r [P2p q] Hr) as (i & -> & Hi). cbn.
    rewrite bool_decide_false by lia. cbn. split; [done|]. intros [Hn [= Heq]].
    apply app_inj_tail in Heq as [-> _]. by rewrite Hr in Hn.
  - rewrite position_app_none by done. cbn. rewrite bool_decide_true by done. cbn. split.
    + destruct r; [done|]. intros [= <- <-]. by rewrite Hr.
    + intros [Hn [= Heq]]. apply app_inj_tail in Heq as [-> [= ->]]. rewrite Hr in Hn. by destruct ts.
Qed.
End Multiaddr.

#[local] Existing Instance demo_crates.
#[local] Existing Instance demo_crates_spec.

Lemma multiaddr_binary_exact_witness :
  let m := mkMultiaddr (Multihash := Z * bytes) [Dns4 (str "relay.example"); Udp 4001; QuicV1] in
  multiaddr_from_bytes (multiaddr_to_bytes m) = Ok m.
Proof. intros m. apply (proj1 (multiaddr_binary_exact m [])). repeat first [apply Forall_cons; split | apply Forall_nil]; cbn; unfold u16_max, u64_max; try done; try lia; by split_and!. Defined.
