(* ===== verification/Proto.v ===== *)
(** Protobuf fields: the cursor code that the relay, DCUtR and identify crates
    each carry for their messages ([crates/relay/src/message.rs],
    [crates/dcutr/src/message.rs], [crates/identify/src/message.rs]), over any
    error type, and what it accepts: exactly the concatenations of well-formed
    fields. *)

From S2P Require Import Prelude Varint.

#[global] Arguments uvarint_len : simpl never.
#[global] Arguments write_uvarint : simpl never.

Definition WIRE_VARINT : Z := 0.
Definition WIRE_I64 : Z := 1.
Definition WIRE_LEN : Z := 2.
Definition WIRE_I32 : Z := 5.

(** How a crate reports each way a field can be malformed. [err_past_end] is
    the error for an index beyond the input, [err_wide] the one for a length
    that does not fit in a [usize]; neither happens in a run of a decoder. *)
Class ProtoErrors (E : Type) := {
  err_varint : VarintError → E;
  err_past_end : Z → E;
  err_overflow : Z → Z → Z → E;
  err_wide : Z → Z → Z → E;
  err_wire_type : Z → Z → E;
}.

(** ** Writing *)

(** [(field << 3) | wire_type] on a [u8]. *)
Definition tag_byte (field wire_type : Z) : Z :=
  Z.lor (Z.shiftl field 3 mod (u8_max + 1)) wire_type.

Definition encode_varint_field (tag value : Z) : bytes := z2b tag :: write_uvarint value [].
Definition encode_bytes_field (tag : Z) (data : bytes) : bytes :=
  z2b tag :: write_uvarint (zlen data) [] ++ data.

(** ** Reading *)

Section Cursor.
Context `{ProtoErrors E}.

(** The state of a decoder is the index into its input. *)
Abbreviation C := (M Z E).

Definition map_varint_err {A} (r : res VarintError A) : res E A :=
  match r with Ok a => Ok a | Err e => Err (err_varint e) | Panic => Panic | Diverge => Diverge end.

(** [input.get(idx..)]. *)
Definition get_from (input : bytes) (idx : Z) : option bytes :=
  if idx <=? zlen input then Some (drop (Z.to_nat idx) input) else None.

Definition advance (input : bytes) (length : Z) : C unit := λ idx,
  let remaining := saturating_sub (zlen input) idx in
  match checked_add usize_max idx length with
  | Some stop =>
      if stop <=? zlen input then (stop, Ok tt) else (idx, Err (err_overflow idx length remaining))
  | None => (idx, Err (err_overflow idx length remaining))
  end.

Definition read_varint_value (input : bytes) : C Z :=
  rest ← reads (λ idx, ok_or (get_from input idx) (err_past_end idx));
  '(value, used) ← lift (map_varint_err (read_uvarint rest));
  _ ← advance input used;
  mret value.

(** [usize::try_from(length)]. *)
Definition try_usize (input : bytes) (length : Z) : C Z := λ idx,
  (idx, if length <=? usize_max then Ok length
        else Err (err_wide idx length (saturating_sub (zlen input) idx))).

Definition read_len_delimited (input : bytes) : C bytes :=
  length ← read_varint_value input;
  length ← try_usize input length;
  remaining ← gets (λ idx, saturating_sub (zlen input) idx);
  if remaining <? length
  then idx ← gets id; throw (err_overflow idx length remaining)
  else
    stop ← reads (λ idx, ok_or (checked_add usize_max idx length) (err_overflow idx length remaining));
    value ← reads (λ idx, ok_or (slice input idx stop) (err_overflow idx length remaining));
    _ ← modify (λ _, stop);
    mret value.

Definition read_tag (input : bytes) : C (option (Z * Z)) := λ idx,
  if zlen input <=? idx then (idx, Ok None)
  else
    (tag_value ← read_varint_value input;
     mret (Some (Z.shiftr tag_value 3, Z.land tag_value 7))) idx.

Definition skip_unknown_field (input : bytes) (wire_type : Z) : C unit :=
  if wire_type =? WIRE_VARINT then _ ← read_varint_value input; mret tt
  else if wire_type =? WIRE_LEN then
    length ← read_varint_value input;
    length ← try_usize input length;
    remaining ← gets (λ idx, saturating_sub (zlen input) idx);
    if remaining <? length
    then idx ← gets id; throw (err_overflow idx length remaining)
    else advance input length
  else if wire_type =? WIRE_I32 then advance input 4
  else if wire_type =? WIRE_I64 then advance input 8
  else idx ← gets id; throw (err_wire_type wire_type idx).

(** [while let Some((field, wire_type)) = read_tag(input, &mut idx)?], with the
    loop's body as [step] and the message under construction as its state. *)
Fixpoint fields_loop {Msg} (fuel : nat) (input : bytes) (step : Z → Z → Msg → C Msg) (msg : Msg)
    : C Msg :=
  tag ← read_tag input;
  match tag with
  | None => mret msg
  | Some (field, wire_type) =>
      match fuel with
      | O => lift Diverge
      | S fuel => msg ← step field wire_type msg; fields_loop fuel input step msg
      end
  end.

(** A whole decoder: start at index 0; the index is dropped at the end. *)
Definition decode_fields {Msg} (input : bytes) (step : Z → Z → Msg → C Msg) (msg : Msg) : res E Msg :=
  (fields_loop (length input) input step msg 0).2.

(** ** What is read *)

Inductive Value := VVarint (v : Z) | VLen (b : bytes) | VI32 (b : bytes) | VI64 (b : bytes).

Definition wire (v : Value) : Z :=
  match v with
  | VVarint _ => WIRE_VARINT | VLen _ => WIRE_LEN | VI32 _ => WIRE_I32 | VI64 _ => WIRE_I64
  end.
Definition value_bytes (v : Value) : bytes :=
  match v with
  | VVarint v => write_uvarint v []
  | VLen b => write_uvarint (zlen b) [] ++ b
  | VI32 b | VI64 b => b
  end.
Definition value_ok (v : Value) : Prop :=
  match v with
  | VVarint v => 0 ≤ v ≤ u64_max
  | VLen b => zlen b ≤ u64_max
  | VI32 b => zlen b = 4
  | VI64 b => zlen b = 8
  end.

(** One field of a message. *)
Definition token : Type := Z * Value.
Definition token_bytes (t : token) : bytes := write_uvarint (t.1 * 8 + wire t.2) [] ++ value_bytes t.2.
Definition token_ok (t : token) : Prop := 0 ≤ t.1 < 2 ^ 61 ∧ value_ok t.2.

(** Reading a value of a given wire type. *)
Definition read_any (input : bytes) (wire_type : Z) : C Value :=
  if wire_type =? WIRE_VARINT then v ← read_varint_value input; mret (VVarint v)
  else if wire_type =? WIRE_LEN then b ← read_len_delimited input; mret (VLen b)
  else if wire_type =? WIRE_I32 then
    b ← gets (λ idx, take 4 (drop (Z.to_nat idx) input)); _ ← advance input 4; mret (VI32 b)
  else if wire_type =? WIRE_I64 then
    b ← gets (λ idx, take 8 (drop (Z.to_nat idx) input)); _ ← advance input 8; mret (VI64 b)
  else idx ← gets id; throw (err_wire_type wire_type idx).

Section Reads.
Context (input : bytes) (Hlen : zlen input ≤ usize_max).

Abbreviation tail idx := (drop (Z.to_nat idx) input).

Lemma advance_ok idx n idx' u :
  0 ≤ idx ≤ zlen input → 0 ≤ n →
  advance input n idx = (idx', Ok u) ↔ idx' = idx + n ∧ idx' ≤ zlen input.
Proof.
  intros Hi Hn. unfold advance. destruct (decide (idx + n ≤ zlen input)) as [Hle|Hgt].
  - rewrite checked_add_Some by lia. destruct (Z.leb_spec (idx + n) (zlen input)); [|lia].
    destruct u. split; [by intros [= <-]|by intros [-> _]].
  - unfold checked_add. destruct (Z.leb_spec (idx + n) usize_max).
    + destruct (Z.leb_spec (idx + n) (zlen input)); [lia|]. split; [done|lia].
    + split; [done|lia].
Qed.

Lemma advance_wp idx n :
  0 ≤ idx ≤ zlen input → 0 ≤ n →
  wp (advance input n) (λ _ idx', idx' = idx + n ∧ idx' ≤ zlen input) (λ _ _, True) idx.
Proof.
  intros Hi Hn. pose proof (advance_ok idx n) as H0. unfold wp.
  destruct (advance input n idx) as [idx' [u|e| |]] eqn:Ha; [by apply (H0 _ u)|done|..];
    unfold advance in Ha; repeat case_match; discriminate.
Qed.

Lemma read_varint_ok idx idx' v :
  0 ≤ idx ≤ zlen input →
  read_varint_value input idx = (idx', Ok v) ↔
  0 ≤ v ≤ u64_max ∧ idx' = idx + uvarint_len v ∧ ∃ rest, tail idx = write_uvarint v [] ++ rest.
Proof.
  intros Hi. unfold read_varint_value, get_from, mbind, M_bind, reads, lift.
  destruct (Z.leb_spec idx (zlen input)); [|lia]. cbn.
  pose proof (zlen_drop idx input) as Hd.
  destruct (read_uvarint (tail idx)) as [[w used]|e| |] eqn:Hr; cbn.
  - pose proof Hr as (Hw & -> & rest & Ht)%read_uvarint_ok_iff.
    pose proof (zlen_write_uvarint w ltac:(lia)) as Hz. pose proof (uvarint_len_pos w ltac:(lia)).
    assert (zlen (tail idx) = uvarint_len w + zlen rest) as Hs by (rewrite Ht, zlen_app; lia).
    pose proof (zlen_nonneg rest).
    rewrite (proj2 (advance_ok idx (uvarint_len w) (idx + uvarint_len w) tt Hi ltac:(lia))) by lia.
    split; [intros [= <- <-]; eauto|]. intros (Hv & -> & rest' & Ht').
    assert (read_uvarint (tail idx) = Ok (v, uvarint_len v)) as Hr'
      by (apply read_uvarint_ok_iff; eauto).
    rewrite Hr in Hr'. by injection Hr' as -> _.
  - split; [done|]. intros (Hv & -> & rest & Ht). exfalso.
    assert (read_uvarint (tail idx) = Ok (v, uvarint_len v)) as Hr'
      by (apply read_uvarint_ok_iff; eauto). congruence.
  - by destruct (read_uvarint_outcome (tail idx)).
  - by destruct (read_uvarint_outcome (tail idx)).
Qed.

Lemma read_varint_outcome idx :
  0 ≤ idx ≤ zlen input →
  ∃ idx' r, read_varint_value input idx = (idx', r) ∧ r ≠ Panic ∧ r ≠ Diverge.
Proof.
  intros Hi. unfold read_varint_value, get_from, mbind, M_bind, reads, lift.
  destruct (Z.leb_spec idx (zlen input)); [|lia]. cbn.
  destruct (read_uvarint_outcome (tail idx)) as [H1 H2].
  destruct (read_uvarint (tail idx)) as [[w used]|e| |] eqn:Hr; cbn; try done; [|by eauto].
  unfold advance. repeat case_match; simplify_eq; eauto.
Qed.

Lemma varint_range idx v rest :
  0 ≤ idx ≤ zlen input → 0 ≤ v → tail idx = write_uvarint v [] ++ rest →
  idx + uvarint_len v ≤ zlen input ∧ tail (idx + uvarint_len v) = rest ∧ 1 ≤ uvarint_len v.
Proof.
  intros Hi Hv Ht. pose proof (zlen_drop idx input) as Hd. rewrite Ht, zlen_app, zlen_write_uvarint in Hd by lia.
  pose proof (zlen_nonneg rest). pose proof (uvarint_len_pos v Hv). split_and!; [lia| |lia].
  rewrite Z2Nat.inj_add by lia. rewrite <- drop_drop, Ht.
  rewrite <- (zlen_write_uvarint v) by done. by rewrite to_nat_zlen, drop_app_length.
Qed.

Lemma read_len_ok idx idx' b :
  0 ≤ idx ≤ zlen input →
  read_len_delimited input idx = (idx', Ok b) ↔
  zlen b ≤ u64_max ∧ idx' = idx + uvarint_len (zlen b) + zlen b ∧
  ∃ rest, tail idx = write_uvarint (zlen b) [] ++ b ++ rest.
Proof.
  intros Hi. unfold read_len_delimited. rewrite bind_ok. split.
  - intros (n & i1 & (Hn & -> & rest & Ht)%read_varint_ok & Hrun); [|done].
    apply bind_ok in Hrun as (n' & i2 & Hty & Hrun).
    destruct (varint_range idx n rest Hi ltac:(lia) Ht) as (Hr & Ht1 & Hp).
    unfold try_usize in Hty. destruct (Z.leb_spec n usize_max); [|done]. injection Hty as <- <-.
    unfold mbind, M_bind, gets, reads, modify, throw in Hrun. cbn in Hrun.
    destruct (Z.ltb_spec (saturating_sub (zlen input) (idx + uvarint_len n)) n); [done|].
    unfold saturating_sub in *. rewrite checked_add_Some in Hrun by (unfold usize_max in *; lia). cbn in Hrun.
    destruct (slice input (idx + uvarint_len n) (idx + uvarint_len n + n)) as [s|] eqn:Hs; [|done].
    cbn in Hrun. injection Hrun as <- <-.
    apply slice_Some_iff in Hs as (p & q & Hin & Hzp & Hzs); [|lia].
    assert (zlen s = n) as <- by lia. split_and!; [lia|done|].
    exists q. rewrite Ht. f_equal. rewrite <- Ht1. rewrite Hin at 1. rewrite <- Hzp.
    by rewrite to_nat_zlen, drop_app_length.
  - intros (Hb & -> & rest & Ht). exists (zlen b), (idx + uvarint_len (zlen b)).
    pose proof (zlen_nonneg b) as Hb0.
    destruct (varint_range idx (zlen b) (b ++ rest) Hi Hb0 Ht) as (Hr & Ht1 & Hp).
    split; [apply read_varint_ok; [done|]; split_and!; [lia|lia|done|by eexists]|].
    apply bind_ok. exists (zlen b), (idx + uvarint_len (zlen b)). unfold try_usize.
    assert (zlen (tail (idx + uvarint_len (zlen b))) = zlen b + zlen rest) as Hz by (by rewrite Ht1, zlen_app).
    rewrite zlen_drop in Hz. pose proof (zlen_nonneg rest).
    split; [by destruct (Z.leb_spec (zlen b) usize_max); [|unfold usize_max in *; lia]|].
    unfold mbind, M_bind, gets, reads, modify, throw. cbn.
    destruct (Z.ltb_spec (saturating_sub (zlen input) (idx + uvarint_len (zlen b))) (zlen b));
      [unfold saturating_sub in *; lia|].
    rewrite checked_add_Some by lia. cbn.
    rewrite (proj2 (slice_Some_iff input (idx + uvarint_len (zlen b)) _ b ltac:(lia))); [done|].
    exists (take (Z.to_nat (idx + uvarint_len (zlen b))) input), rest. rewrite <- Ht1, take_drop.
    split_and!; [done|rewrite zlen_take; lia|lia].
Qed.

Lemma read_len_outcome idx :
  0 ≤ idx ≤ zlen input →
  ∃ idx' r, read_len_delimited input idx = (idx', r) ∧ r ≠ Panic ∧ r ≠ Diverge.
Proof.
  intros Hi. unfold read_len_delimited, mbind, M_bind.
  destruct (read_varint_outcome idx Hi) as (i1 & r & -> & H1 & H2).
  destruct r as [n|e| |]; try done; [|by eauto].
  unfold try_usize, gets, reads, modify, throw. repeat (case_match; simplify_eq; cbn); eauto;
    repeat match goal with Hx : ok_or ?o _ = _ |- _ => destruct o; cbn in Hx; simplify_eq end; eauto.
Qed.

Lemma read_fixed_ok idx idx' (n : nat) (con : bytes → Value) v :
  0 ≤ idx ≤ zlen input → (∀ b, value_bytes (con b) = b) → 0 < Z.of_nat n →
  (b ← gets (λ idx, take n (tail idx)); _ ← advance input (Z.of_nat n); mret (con b)) idx = (idx', Ok v) ↔
  ∃ b rest, v = con b ∧ zlen b = Z.of_nat n ∧ idx' = idx + zlen b ∧ tail idx = b ++ rest.
Proof.
  intros Hi Hcon Hn. rewrite bind_ok. pose proof (zlen_drop idx input) as Hd. split.
  - intros (b & i1 & [= <- <-] & (u & i2 & (-> & Hle)%advance_ok & [= <- <-])%bind_ok); [|done|lia].
    exists (take n (tail idx)), (drop n (tail idx)). rewrite take_drop.
    assert (zlen (take n (tail idx)) = Z.of_nat n) as -> by (unfold zlen in *; rewrite length_take; lia).
    done.
  - intros (b & rest & -> & Hb & -> & Ht). eexists _, _. split; [done|].
    assert (take n (tail idx) = b) as ->.
    { rewrite Ht. rewrite <- (Nat2Z.id n), <- Hb, to_nat_zlen. apply take_app_length. }
    apply bind_ok. exists tt, (idx + zlen b). split; [|done]. apply advance_ok; [done|lia|].
    rewrite Ht, zlen_app in Hd. pose proof (zlen_nonneg rest). lia.
Qed.

Lemma read_any_ok idx idx' w v :
  0 ≤ idx ≤ zlen input →
  read_any input w idx = (idx', Ok v) ↔
  value_ok v ∧ wire v = w ∧ idx' = idx + zlen (value_bytes v) ∧ ∃ rest, tail idx = value_bytes v ++ rest.
Proof.
  intros Hi. unfold read_any. split.
  - destruct (Z.eqb_spec w WIRE_VARINT) as [->|]; [|destruct (Z.eqb_spec w WIRE_LEN) as [->|];
      [|destruct (Z.eqb_spec w WIRE_I32) as [->|]; [|destruct (Z.eqb_spec w WIRE_I64) as [->|]; [|done]]]].
    + intros (n & i1 & (Hn & -> & rest & Ht)%read_varint_ok & [= <- <-])%bind_ok; [|done].
      cbn. split_and!; [lia|lia|done|by rewrite zlen_write_uvarint by lia|by eexists].
    + intros (b & i1 & (Hn & -> & rest & Ht)%read_len_ok & [= <- <-])%bind_ok; [|done].
      pose proof (zlen_nonneg b). cbn. split_and!; [lia|done|rewrite zlen_app, zlen_write_uvarint by lia; lia|].
      exists rest. by rewrite <- app_assoc.
    + intros (b & rest & -> & Hb & -> & Ht)%(read_fixed_ok idx idx' 4 VI32 v Hi); [|done|lia]. eauto.
    + intros (b & rest & -> & Hb & -> & Ht)%(read_fixed_ok idx idx' 8 VI64 v Hi); [|done|lia]. eauto.
  - intros (Hv & <- & -> & rest & Ht). destruct v as [n|b|b|b]; cbn in *.
    + apply bind_ok. exists n, (idx + uvarint_len n). rewrite zlen_write_uvarint by lia.
      split; [apply read_varint_ok; eauto|done].
    + pose proof (zlen_nonneg b). rewrite zlen_app, zlen_write_uvarint by lia.
      apply bind_ok. eexists b, _. split; [apply read_len_ok; [done|]|done].
      split_and!; [done|lia|]. exists rest. by rewrite app_assoc.
    + apply (read_fixed_ok idx _ 4 VI32 (VI32 b) Hi); [done|lia|]. exists b, rest. by rewrite Hv.
    + apply (read_fixed_ok idx _ 8 VI64 (VI64 b) Hi); [done|lia|]. exists b, rest. by rewrite Hv.
Qed.

Lemma read_any_outcome idx w :
  0 ≤ idx ≤ zlen input →
  ∃ idx' r, read_any input w idx = (idx', r) ∧ r ≠ Panic ∧ r ≠ Diverge.
Proof.
  intros Hi. unfold read_any, mbind, M_bind, gets, throw.
  destruct (read_varint_outcome idx Hi) as (i1 & r1 & Hr1 & ? & ?).
  destruct (read_len_outcome idx Hi) as (i2 & r2 & Hr2 & ? & ?).
  destruct (w =? WIRE_VARINT); cbn beta iota; [rewrite Hr1; destruct r1; try done; eauto|].
  destruct (w =? WIRE_LEN); cbn beta iota; [rewrite Hr2; destruct r2; try done; eauto|].
  unfold advance. repeat (case_match; simplify_eq); eauto 10.
Qed.

(** Skipping a field of unknown number reads a value of its wire type. *)
Lemma skip_read idx w :
  0 ≤ idx ≤ zlen input →
  skip_unknown_field input w idx = (_ ← read_any input w; mret tt) idx.
Proof.
  intros Hi. unfold skip_unknown_field, read_any.
  destruct (w =? WIRE_VARINT).
  { unfold mbind, M_bind. by destruct (read_varint_value input idx) as [? []]. }
  destruct (w =? WIRE_LEN).
  { unfold read_len_delimited, mbind, M_bind.
    destruct (read_varint_value input idx) as [i1 [n|e| |]] eqn:Hr; try done.
    apply read_varint_ok in Hr as (Hn & -> & rest & Ht); [|done].
    destruct (varint_range idx n rest Hi ltac:(lia) Ht) as (Hle & _ & Hp).
    unfold try_usize, gets, reads, modify. destruct (Z.leb_spec n usize_max); [|done].
    destruct (Z.ltb_spec (saturating_sub (zlen input) (idx + uvarint_len n)) n); [done|].
    unfold saturating_sub in *.
    destruct (advance input n (idx + uvarint_len n)) as [i2 r] eqn:Ha.
    pose proof (proj2 (advance_ok (idx + uvarint_len n) n (idx + uvarint_len n + n) tt
      ltac:(lia) ltac:(lia)) ltac:(lia)) as Ha'.
    rewrite Ha in Ha'. injection Ha' as -> ->. rewrite checked_add_Some by lia. cbn.
    unfold slice. destruct (Z.leb_spec (idx + uvarint_len n) (idx + uvarint_len n + n)); [|lia].
    destruct (Z.leb_spec (idx + uvarint_len n + n) (zlen input)); [|lia]. done. }
  destruct (w =? WIRE_I32); [|destruct (w =? WIRE_I64); [|done]];
    unfold mbind, M_bind, gets; destruct (advance _ _ idx) as [? [[]|? | |]]; done.
Qed.

Lemma read_tag_ok idx idx' f w :
  0 ≤ idx ≤ zlen input →
  read_tag input idx = (idx', Ok (Some (f, w))) ↔
  0 ≤ f < 2 ^ 61 ∧ 0 ≤ w < 8 ∧ idx' = idx + uvarint_len (f * 8 + w) ∧
  ∃ rest, tail idx = write_uvarint (f * 8 + w) [] ++ rest.
Proof.
  intros Hi. unfold read_tag. pose proof (zlen_drop idx input) as Hd. split.
  - destruct (Z.leb_spec (zlen input) idx); [done|].
    intros (n & i1 & (Hn & -> & rest & Ht)%read_varint_ok & [= <- <- <-])%bind_ok; [|done].
    change 7 with (Z.ones 3). rewrite Z.shiftr_div_pow2, Z.land_ones by lia. change (2 ^ 3) with 8.
    pose proof (Z.div_mod n 8 ltac:(lia)). pose proof (Z.mod_pos_bound n 8 ltac:(lia)).
    assert (n / 8 * 8 + n mod 8 = n) as -> by lia. unfold u64_max in *.
    split_and!; [lia|lia|lia|lia|done|by eexists].
  - intros (Hf & Hw & -> & rest & Ht). rewrite Ht, zlen_app, zlen_write_uvarint in Hd by lia.
    pose proof (zlen_nonneg rest). pose proof (uvarint_len_pos (f * 8 + w) ltac:(lia)).
    destruct (Z.leb_spec (zlen input) idx); [lia|]. apply bind_ok.
    exists (f * 8 + w), (idx + uvarint_len (f * 8 + w)). split.
    + apply read_varint_ok; [done|]. unfold u64_max. split_and!; [lia|lia|done|by eexists].
    + change 7 with (Z.ones 3). rewrite Z.shiftr_div_pow2, Z.land_ones by lia. change (2 ^ 3) with 8.
      rewrite Z.div_add_l, Z.div_small, Z.add_0_r by lia. rewrite Z.add_comm, Z.mod_add, Z.mod_small by lia.
      done.
Qed.

Lemma read_tag_end idx : zlen input ≤ idx → read_tag input idx = (idx, Ok None).
Proof. intros. unfold read_tag. by destruct (Z.leb_spec (zlen input) idx); [|lia]. Qed.

Lemma read_tag_outcome idx :
  0 ≤ idx < zlen input →
  (∃ idx' f w, read_tag input idx = (idx', Ok (Some (f, w)))) ∨
  (∃ idx' e, read_tag input idx = (idx', Err e)).
Proof.
  intros Hi. unfold read_tag. destruct (Z.leb_spec (zlen input) idx); [lia|].
  unfold mbind, M_bind. destruct (read_varint_outcome idx ltac:(lia)) as (i1 & [n|e| |] & -> & ? & ?);
    try done; [left|right]; by eauto.
Qed.
End Reads.

(** ** What a decoder accepts *)

Lemma token_bytes_nonempty t : token_ok t → token_bytes t ≠ [].
Proof.
  intros [Hf _] Ht%(f_equal zlen). unfold token_bytes in Ht.
  assert (0 ≤ wire t.2) by (by destruct t.2).
  rewrite zlen_app, zlen_write_uvarint, (zlen_nil (A := byte)) in Ht by lia.
  pose proof (uvarint_len_pos (t.1 * 8 + wire t.2) ltac:(lia)). pose proof (zlen_nonneg (value_bytes t.2)). lia.
Qed.

(** The message a sequence of fields stands for. *)
Fixpoint interpret {Msg} (interp : Z → Value → Msg → res E Msg) (ts : list token) (msg : Msg) : res E Msg :=
  match ts with
  | [] => Ok msg
  | (f, v) :: ts => msg ← interp f v msg; interpret interp ts msg
  end.

(** A loop body that reads the value its wire type announces and then looks at
    the field number. *)
Definition reads_fields {Msg} (input : bytes) (step : Z → Z → Msg → C Msg)
    (interp : Z → Value → Msg → res E Msg) : Prop :=
  ∀ f w msg idx, 0 ≤ idx ≤ zlen input →
    step f w msg idx = (v ← read_any input w; lift (interp f v msg)) idx.

Lemma interpret_app {Msg} (interp : Z → Value → Msg → res E Msg) ts1 ts2 m m' :
  interpret interp ts1 m = Ok m' → interpret interp (ts1 ++ ts2) m = interpret interp ts2 m'.
Proof.
  revert m. induction ts1 as [|[f v] ts1 IH]; cbn; intros m; [by intros [= ->]|].
  destruct (interp f v m) as [m1|e| |]; try done. apply IH.
Qed.

(** What every field keeps true of the message holds of the whole. *)
Lemma interpret_preserves {Msg} (interp : Z → Value → Msg → res E Msg) (I : Msg → Prop) ts m m' :
  (∀ f v m m', value_ok v → I m → interp f v m = Ok m' → I m') →
  Forall token_ok ts → I m → interpret interp ts m = Ok m' → I m'.
Proof.
  intros Hstep Hts. revert m. induction Hts as [|[f v] ts [_ Hv] _ IH]; cbn; intros m Hm; [by intros [= <-]|].
  destruct (interp f v m) as [m1|e| |] eqn:Hi; try done. by apply IH, (Hstep f v m).
Qed.

(** Fields a decoder does not know leave the message alone. *)
Lemma interpret_ignored {Msg} (interp : Z → Value → Msg → res E Msg) ts m :
  Forall (λ t, ∀ m, interp t.1 t.2 m = Ok m) ts → interpret interp ts m = Ok m.
Proof. induction 1 as [|[f v] ts Ht _ IH]; cbn in *; [done|]. rewrite Ht. apply IH. Qed.

(** A repeated field. *)
Lemma interpret_repeated {Msg A} (interp : Z → Value → Msg → res E Msg) (tok : A → token)
    (put : list A → Msg) l l0 :
  (∀ l a, interp (tok a).1 (tok a).2 (put l) = Ok (put (l ++ [a]))) →
  interpret interp (tok <$> l) (put l0) = Ok (put (l0 ++ l)).
Proof.
  intros Hp. revert l0. induction l as [|a l IH]; cbn; intros l0; [by rewrite app_nil_r|].
  pose proof (Hp l0 a) as Ha. destruct (tok a) as [f v]. cbn in Ha. rewrite Ha. cbn. rewrite IH.
  by rewrite <- app_assoc.
Qed.

Section Decoding.
Context {Msg : Type} (input : bytes) (Hlen : zlen input ≤ usize_max).
Context (step : Z → Z → Msg → C Msg) (interp : Z → Value → Msg → res E Msg).
Context (Hstep : reads_fields input step interp).

Abbreviation tail idx := (drop (Z.to_nat idx) input).

Lemma step_ok f w msg msg' idx idx' :
  0 ≤ idx ≤ zlen input →
  step f w msg idx = (idx', Ok msg') ↔
  ∃ v rest, value_ok v ∧ wire v = w ∧ tail idx = value_bytes v ++ rest ∧
    idx' = idx + zlen (value_bytes v) ∧ interp f v msg = Ok msg'.
Proof.
  intros Hi. rewrite Hstep by done. rewrite bind_ok. split.
  - intros (v & i1 & (Hv & Hw & -> & rest & Ht)%read_any_ok & [= <- Hin]); [|done|done]. eauto 10.
  - intros (v & rest & Hv & Hw & Ht & -> & Hin). eexists v, _. rewrite read_any_ok by done.
    unfold lift. rewrite Hin. eauto 10.
Qed.

(** One round of the loop reads one field. *)
Lemma fields_round_ok fuel msg msg' idx :
  0 ≤ idx < zlen input →
  (fields_loop (S fuel) input step msg idx).2 = Ok msg' ↔
  ∃ f v rest msg1, token_ok (f, v) ∧ tail idx = token_bytes (f, v) ++ rest ∧ interp f v msg = Ok msg1 ∧
    (fields_loop fuel input step msg1 (idx + zlen (token_bytes (f, v)))).2 = Ok msg'.
Proof.
  intros Hi. cbn [fields_loop]. split.
  - unfold mbind at 1, M_bind at 1. destruct (read_tag_outcome input idx Hi) as [(i1 & f & w & Hr)|(i1 & e & Hr)];
      rewrite Hr; [|done].
    apply read_tag_ok in Hr as (Hf & Hw & -> & rest & Ht); [|done|lia].
    destruct (varint_range input idx (f * 8 + w) rest ltac:(lia) ltac:(lia) Ht) as (Hle & Htl & Hp).
    unfold mbind, M_bind. destruct (step f w msg (idx + uvarint_len (f * 8 + w))) as [i2 [m1|e| |]] eqn:Hs; try done.
    apply step_ok in Hs as (v & rest' & Hv & <- & Ht' & -> & Hin); [|lia]. intros Hgo.
    exists f, v, rest', m1. unfold token_bytes at 2. cbn. rewrite zlen_app, zlen_write_uvarint by lia.
    rewrite Z.add_assoc. split_and!; [done| |done|done].
    unfold token_bytes. cbn. rewrite Ht. rewrite <- app_assoc. by rewrite <- Ht', Htl.
  - intros (f & v & rest & msg1 & [Hf Hv] & Ht & Hin & Hgo). cbn in Hf, Hv.
    unfold token_bytes in Ht, Hgo. cbn in Ht, Hgo. rewrite <- app_assoc in Ht.
    assert (0 ≤ wire v < 8) as Hw by (by destruct v).
    destruct (varint_range input idx (f * 8 + wire v) (value_bytes v ++ rest) ltac:(lia) ltac:(lia) Ht) as (Hle & Htl & Hp).
    unfold mbind at 1, M_bind at 1.
    rewrite (proj2 (read_tag_ok input Hlen idx _ f (wire v) ltac:(lia)))
      by (split_and!; [lia|lia|lia|lia|done|by eexists]).
    unfold mbind, M_bind.
    rewrite (proj2 (step_ok f (wire v) msg msg1 (idx + uvarint_len (f * 8 + wire v)) _ ltac:(lia)))
      by (exists v, rest; split_and!; [done|done|done|reflexivity|done]).
    rewrite zlen_app, zlen_write_uvarint, Z.add_assoc in Hgo by lia. exact Hgo.
Qed.

Lemma token_tail idx t rest :
  0 ≤ idx ≤ zlen input → token_ok t → tail idx = token_bytes t ++ rest →
  0 ≤ idx + zlen (token_bytes t) ≤ zlen input ∧ tail (idx + zlen (token_bytes t)) = rest ∧
  0 < zlen (token_bytes t).
Proof.
  intros Hi Htok Ht. pose proof (zlen_drop idx input) as Hd. rewrite Ht, zlen_app in Hd.
  pose proof (zlen_nonneg rest). pose proof (zlen_nonneg (token_bytes t)).
  assert (zlen (token_bytes t) ≠ 0) by (intros ?%zlen_zero_inv; by eapply token_bytes_nonempty).
  split_and!; [lia|lia| |lia]. rewrite Z2Nat.inj_add by lia. rewrite <- drop_drop, Ht.
  by rewrite to_nat_zlen, drop_app_length.
Qed.

Lemma no_tokens ts : Forall token_ok ts → concat (token_bytes <$> ts) = [] → ts = [].
Proof.
  destruct ts as [|t ts]; [done|]. intros [Ht _]%Forall_cons. rewrite fmap_cons, concat_cons.
  intros [Hn _]%app_eq_nil. by destruct (token_bytes_nonempty t).
Qed.

Lemma fields_loop_ok fuel msg msg' idx :
  0 ≤ idx ≤ zlen input → (length (tail idx) ≤ fuel)%nat →
  (fields_loop fuel input step msg idx).2 = Ok msg' ↔
  ∃ ts, Forall token_ok ts ∧ tail idx = concat (token_bytes <$> ts) ∧ interpret interp ts msg = Ok msg'.
Proof.
  revert msg idx. induction fuel as [|fuel IH]; intros msg idx Hi Hfuel; cbn [fields_loop].
  - assert (tail idx = []) as Ht by (by apply nil_length_inv; lia).
    pose proof (zlen_drop idx input) as Hd. rewrite Ht, (zlen_nil (A := byte)) in Hd.
    unfold mbind, M_bind. rewrite read_tag_end by lia. cbn. rewrite Ht. split.
    + intros [= <-]. by exists [].
    + intros (ts & Hts & Hc & Hin). by rewrite (no_tokens ts) in Hin.
  - destruct (decide (idx = zlen input)) as [->|Hne].
    { unfold mbind, M_bind. rewrite read_tag_end by lia. cbn.
      rewrite to_nat_zlen, drop_all. split; [intros [= <-]; by exists []|].
      intros (ts & Hts & Hc & Hin). by rewrite (no_tokens ts) in Hin. }
    split.
    + intros Hrun. destruct (fields_round_ok fuel msg msg' idx) as [Hfw _]; [lia|].
      destruct (Hfw Hrun) as (f & v & rest & msg1 & Htok & Ht & Hin & Hgo).
      destruct (token_tail idx (f, v) rest ltac:(lia) Htok Ht) as (Hr & Htl & Hpos).
      apply IH in Hgo as (ts & Hts & Hc & Hint); [|lia|rewrite Htl; rewrite Ht, length_app in Hfuel;
        unfold zlen in Hpos; lia].
      exists ((f, v) :: ts). split_and!; [by constructor| |cbn; by rewrite Hin].
      rewrite fmap_cons, concat_cons, <- Hc, Htl. done.
    + intros (ts & Hts & Hc & Hint). destruct ts as [|[f v] ts].
      { exfalso. apply (f_equal zlen) in Hc. rewrite zlen_drop in Hc. cbn in Hc. unfold zlen in Hc at 2. cbn in Hc. lia. }
      apply Forall_cons in Hts as [Htok Hts]. cbn in Hint.
      destruct (interp f v msg) as [msg1|e| |] eqn:Hin; try done. cbn in Hint.
      rewrite fmap_cons, concat_cons in Hc.
      destruct (token_tail idx (f, v) _ ltac:(lia) Htok Hc) as (Hr & Htl & Hpos).
      apply (fields_round_ok fuel msg msg' idx ltac:(lia)). exists f, v, (concat (token_bytes <$> ts)), msg1.
      split_and!; [done|done|done|]. apply IH; [lia| |eauto].
      rewrite Htl. rewrite Hc, length_app in Hfuel. unfold zlen in Hpos. lia.
Qed.

Lemma fields_loop_returns fuel msg idx :
  (∀ f v m, zlen (value_bytes v) ≤ zlen input → returns (interp f v m)) →
  0 ≤ idx ≤ zlen input → (length (tail idx) ≤ fuel)%nat →
  returns (fields_loop fuel input step msg idx).2.
Proof.
  intros Hint. revert msg idx. induction fuel as [|fuel IH]; intros msg idx Hi Hfuel; cbn [fields_loop];
    (destruct (decide (idx = zlen input)) as [->|Hne];
      [unfold mbind, M_bind; by rewrite read_tag_end|]).
  { unfold zlen in *. rewrite length_drop in Hfuel. lia. }
  unfold mbind at 1, M_bind at 1.
  destruct (read_tag_outcome input idx ltac:(lia)) as [(i1 & f & w & Hr)|(i1 & e & Hr)]; rewrite Hr; [|done].
  apply read_tag_ok in Hr as (Hf & Hw & -> & rest & Ht); [|done|lia].
  destruct (varint_range input idx (f * 8 + w) rest ltac:(lia) ltac:(lia) Ht) as (Hle & Htl & Hp).
  rewrite Ht, length_app in Hfuel. pose proof (zlen_write_uvarint (f * 8 + w) ltac:(lia)) as Hz.
  unfold mbind, M_bind. rewrite Hstep by lia. unfold mbind, M_bind.
  destruct (read_any_outcome input (idx + uvarint_len (f * 8 + w)) w ltac:(lia)) as (i2 & r & Hra & Hp1 & Hp2).
  rewrite Hra. destruct r as [v|e| |]; try done. unfold lift.
  apply read_any_ok in Hra as (Hv & _ & -> & rest' & Ht'); [|done|lia].
  pose proof (zlen_drop (idx + uvarint_len (f * 8 + w)) input) as Hd. rewrite Ht', zlen_app in Hd.
  pose proof (zlen_nonneg rest'). pose proof (zlen_nonneg (value_bytes v)).
  pose proof (Hint f v msg ltac:(lia)) as Hi1. destruct (interp f v msg) as [m1|e| |]; try done.
  apply IH; [lia|]. rewrite Z2Nat.inj_add by lia. rewrite <- drop_drop, Ht'.
  rewrite to_nat_zlen, drop_app_length. rewrite <- Htl, Ht' in Hfuel. rewrite length_app in Hfuel.
  unfold zlen in Hz, Hp. lia.
Qed.

(** A decoder accepts exactly the inputs that are a sequence of well-formed
    fields, and returns the message they stand for. *)
Lemma decode_fields_ok msg msg' :
  decode_fields input step msg = Ok msg' ↔
  ∃ ts, Forall token_ok ts ∧ input = concat (token_bytes <$> ts) ∧ interpret interp ts msg = Ok msg'.
Proof. apply (fields_loop_ok (length input) msg msg' 0); [zlen_lia|done]. Qed.

Lemma decode_fields_returns msg :
  (∀ f v m, zlen (value_bytes v) ≤ zlen input → returns (interp f v m)) →
  returns (decode_fields input step msg).
Proof. intros. apply fields_loop_returns; [done|zlen_lia|done]. Qed.
End Decoding.

(** Skipping, when the message is kept as it is. *)
Lemma skip_varint {A} input (a : A) :
  (_ ← skip_unknown_field input WIRE_VARINT; mret a) = (_ ← (_ ← read_varint_value input; mret tt); mret a).
Proof. done. Qed.

Lemma skip_len {A} input (a : A) idx :
  zlen input ≤ usize_max → 0 ≤ idx ≤ zlen input →
  (_ ← skip_unknown_field input WIRE_LEN; mret a) idx = (_ ← read_len_delimited input; mret a) idx.
Proof.
  intros Hlen Hi. unfold mbind at 1, M_bind at 1. rewrite skip_read by done. unfold read_any. cbn.
  unfold mbind, M_bind. by destruct (read_len_delimited input idx) as [? []].
Qed.

(** How a loop body is shown to read fields: one obligation per wire type. *)
Lemma reads_fields_intro {Msg} input (step : Z → Z → Msg → C Msg) interp :
  zlen input ≤ usize_max →
  (∀ f msg idx, 0 ≤ idx ≤ zlen input →
    step f WIRE_VARINT msg idx = (v ← read_varint_value input; lift (interp f (VVarint v) msg)) idx) →
  (∀ f msg idx, 0 ≤ idx ≤ zlen input →
    step f WIRE_LEN msg idx = (b ← read_len_delimited input; lift (interp f (VLen b) msg)) idx) →
  (∀ f w msg idx, w ≠ WIRE_VARINT → w ≠ WIRE_LEN →
    step f w msg idx = (_ ← skip_unknown_field input w; mret msg) idx) →
  (∀ f b msg, interp f (VI32 b) msg = Ok msg) → (∀ f b msg, interp f (VI64 b) msg = Ok msg) →
  reads_fields input step interp.
Proof.
  intros Hlen Hv Hl Ho H32 H64 f w msg idx Hi.
  destruct (decide (w = WIRE_VARINT)) as [->|Hnv].
  { rewrite Hv by done. unfold read_any. cbn. unfold mbind, M_bind.
    by destruct (read_varint_value input idx) as [? []]. }
  destruct (decide (w = WIRE_LEN)) as [->|Hnl].
  { rewrite Hl by done. unfold read_any. cbn. unfold mbind, M_bind.
    by destruct (read_len_delimited input idx) as [? []]. }
  rewrite Ho by done. unfold mbind at 1, M_bind at 1. rewrite skip_read by done. unfold mbind, M_bind.
  destruct (read_any input w idx) as [i [v|e| |]] eqn:Hr; try done.
  apply read_any_ok in Hr as (_ & <- & _); [|done|done].
  destruct v; cbn in *; try done; unfold lift; by rewrite ?H32, ?H64.
Qed.
End Cursor.

(** The encoders write a one-byte tag, which is the varint of a small tag. *)
Lemma tag_byte_varint f w :
  0 ≤ f < 16 → 0 ≤ w < 8 → [z2b (tag_byte f w)] = write_uvarint (f * 8 + w) [].
Proof.
  intros Hf Hw. rewrite write_uvarint_small by lia. unfold tag_byte, low7, u8_max.
  rewrite (Z.mod_small (Z.shiftl f 3)) by (rewrite Z.shiftl_mul_pow2 by lia; lia).
  rewrite Z.lor_comm, lor_shiftl_add by lia. rewrite Z.mod_small by lia. do 2 f_equal. lia.
Qed.

(** What has to be checked of fields whose bytes fit in memory. *)
Definition token_typed (t : token) : Prop :=
  0 ≤ t.1 < 2 ^ 61 ∧
  match t.2 with
  | VVarint v => 0 ≤ v ≤ u64_max | VLen _ => True | VI32 b => zlen b = 4 | VI64 b => zlen b = 8
  end.

Lemma tokens_fit ts :
  Forall token_typed ts → zlen (concat (token_bytes <$> ts)) ≤ usize_max → Forall token_ok ts.
Proof.
  induction 1 as [|[f v] ts [Hf Hv] _ IH]; intros Hz; [done|].
  rewrite fmap_cons, concat_cons, zlen_app in Hz.
  pose proof (zlen_nonneg (concat (token_bytes <$> ts))). pose proof (zlen_nonneg (token_bytes (f, v))).
  constructor; [|apply IH; lia]. split; [done|]. destruct v as [v|b|b|b]; cbn in *; try done.
  unfold token_bytes in *. cbn in *. rewrite !zlen_app in *. unfold usize_max in *.
  pose proof (zlen_nonneg (write_uvarint (f * 8 + WIRE_LEN) [])).
  pose proof (zlen_nonneg (write_uvarint (zlen b) [])). lia.
Qed.

Lemma encode_varint_token f v :
  0 ≤ f < 16 → encode_varint_field (tag_byte f WIRE_VARINT) v = token_bytes (f, VVarint v).
Proof.
  intros Hf. unfold encode_varint_field, token_bytes. cbn [fst snd wire value_bytes].
  rewrite <- tag_byte_varint by (unfold WIRE_VARINT; lia). done.
Qed.

Lemma encode_bytes_token f b :
  0 ≤ f < 16 → encode_bytes_field (tag_byte f WIRE_LEN) b = token_bytes (f, VLen b).
Proof.
  intros Hf. unfold encode_bytes_field, token_bytes. cbn [fst snd wire value_bytes].
  rewrite <- tag_byte_varint by (unfold WIRE_LEN; lia). done.
Qed.

(** Optional and repeated fields. *)
Definition opt_bytes {A} (f : A → bytes) (o : option A) : bytes :=
  match o with Some a => f a | None => [] end.
Definition opt_token {A} (f : A → token) (o : option A) : list token :=
  match o with Some a => [f a] | None => [] end.
Definition opt_typed {A} (P : A → Prop) (o : option A) : Prop := match o with Some a => P a | None => True end.

Lemma concat_fields (f : Z) (l : list bytes) :
  0 ≤ f < 16 →
  concat (encode_bytes_field (tag_byte f WIRE_LEN) <$> l) = concat (token_bytes <$> ((λ a, (f, VLen a)) <$> l)).
Proof.
  intros Hf. rewrite <- list_fmap_compose. f_equal. apply list_fmap_ext. intros i b _. by apply encode_bytes_token.
Qed.

Create HintDb tokens.
Create Rewrite HintDb tokens.
#[export] Hint Rewrite @fmap_app @concat_app encode_varint_token encode_bytes_token concat_fields
  using lia : tokens.

Abbreviation fields_bytes ts := (concat (token_bytes <$> ts)).

(** Fields of higher numbers are not known to the decoders. *)
Definition unknown_fields (last : Z) (ts : list token) : Prop := Forall (λ t, token_typed t ∧ last < t.1) ts.

(** A field is no longer than the message it is in. *)
Lemma len_value_small (b : bytes) n : zlen (value_bytes (VLen b)) ≤ n → zlen b ≤ n.
Proof.
  cbn. rewrite zlen_app. pose proof (zlen_nonneg (write_uvarint (zlen b) [])). lia.
Qed.
Lemma token_part_le f b ts n :
  (f, VLen b) ∈ ts → zlen (concat (token_bytes <$> ts)) ≤ n → zlen b ≤ n.
Proof.
  induction ts as [|t ts IH]; [by intros ?%not_elem_of_nil|].
  rewrite elem_of_cons, fmap_cons, concat_cons, zlen_app.
  pose proof (zlen_nonneg (concat (token_bytes <$> ts))). pose proof (zlen_nonneg (token_bytes t)).
  intros [<-|Hin] Hn; [|apply IH; [done|lia]]. unfold token_bytes in *. cbn [fst snd] in *. rewrite zlen_app in Hn.
  pose proof (zlen_nonneg (write_uvarint (f * 8 + wire (VLen b)) [])).
  assert (zlen (value_bytes (VLen b)) ≤ n) as Hb by lia. by apply len_value_small in Hb.
Qed.

(** Proves [reads_fields] of a loop body written as a cascade of tests on the
    field number and the wire type. *)
Ltac field_cases :=
  repeat match goal with |- context [?f =? ?n] => is_var f; destruct (f =? n) end;
  cbn [andb]; unfold mbind, M_bind, lift;
  repeat match goal with
  | |- context [read_varint_value ?i ?x] => destruct (read_varint_value i x) as [? []]
  | |- context [read_len_delimited ?i ?x] => destruct (read_len_delimited i x) as [? []]
  end; cbn; try done;
  repeat (case_match; cbn; try done).
Ltac solve_reads_fields step interp :=
  apply reads_fields_intro;
  [ assumption
  | intros f msg idx Hidx; unfold step, interp;
    change (WIRE_VARINT =? WIRE_LEN) with false; change (WIRE_VARINT =? WIRE_VARINT) with true;
    rewrite ?andb_true_r, ?andb_false_r; rewrite ?skip_varint; field_cases
  | intros f msg idx Hidx; unfold step, interp;
    change (WIRE_LEN =? WIRE_LEN) with true; change (WIRE_LEN =? WIRE_VARINT) with false;
    rewrite ?andb_true_r, ?andb_false_r;
    repeat match goal with |- context [?f =? ?n] => is_var f; destruct (f =? n) end;
    rewrite ?skip_len by assumption; field_cases
  | intros f w msg idx Hv Hl; unfold step;
    rewrite ?(proj2 (Z.eqb_neq w WIRE_VARINT) Hv), ?(proj2 (Z.eqb_neq w WIRE_LEN) Hl);
    rewrite ?andb_false_r; reflexivity
  | done
  | done ].
