(* ===== verification/Dcutr.v ===== *)
(** Direct connection upgrade through a relay, from [crates/dcutr/src]: the
    [HolePunch] message and the two machines that exchange it. *)

From Stdlib Require Import Strings.Byte.
From S2P Require Import Prelude Varint Text Frame Proto SansIo Pieces Base58 PeerIdentity Multiaddr.

Definition MAX_MESSAGE_SIZE : Z := 4096.

(** ** The message *)

Inductive HolePunchType := PunchConnect | PunchSync.
#[global] Instance HolePunchType_eq_dec : EqDecision HolePunchType.
Proof. solve_decision. Defined.
Definition HolePunchType_from_u64 (value : Z) : option HolePunchType :=
  match value with 100 => Some PunchConnect | 300 => Some PunchSync | _ => None end.
(** [kind as u64]. *)
Definition HolePunchType_tag (k : HolePunchType) : Z := match k with PunchConnect => 100 | PunchSync => 300 end.
Definition punch_debug (k : HolePunchType) : bytes := match k with PunchConnect => str "Connect" | PunchSync => str "Sync" end.

Record HolePunch := mkHolePunch { punch_kind : HolePunchType; obs_addrs : list bytes }.

Inductive DcutrMessageError :=
  | DVarint (e : VarintError)
  | DFieldOverflow (offset length remaining : Z)
  | DUnsupportedWireType (wire_type offset : Z)
  | DMissingType
  | DInvalidType (value : Z).

(** A length that does not fit a [usize] is reported as [usize::MAX]. *)
#[global] Instance dcutr_proto_errors : ProtoErrors DcutrMessageError := {|
  err_varint := DVarint;
  err_past_end := λ _, DVarint BufferTooShort;
  err_overflow := DFieldOverflow;
  err_wide := λ offset _ remaining, DFieldOverflow offset usize_max remaining;
  err_wire_type := DUnsupportedWireType;
|}.

Definition HolePunch_encode (m : HolePunch) : bytes :=
  encode_varint_field (tag_byte 1 WIRE_VARINT) (HolePunchType_tag (punch_kind m)) ++
  concat (encode_bytes_field (tag_byte 2 WIRE_LEN) <$> obs_addrs m).

(** The local variables of [HolePunch::decode]. *)
Record PunchFields := mkPunchFields { pf_kind : option HolePunchType; pf_addrs : list bytes }.

Definition HolePunch_step (input : bytes) (field wire_type : Z) (m : PunchFields) : M Z DcutrMessageError PunchFields :=
  if (field =? 1) && (wire_type =? WIRE_VARINT) then
    value ← read_varint_value input;
    kind ← lift (ok_or (HolePunchType_from_u64 value) (DInvalidType value));
    mret {| m with pf_kind := Some kind |}
  else if (field =? 2) && (wire_type =? WIRE_LEN) then
    value ← read_len_delimited input; mret {| m with pf_addrs := pf_addrs m ++ [value] |}
  else if wire_type =? WIRE_VARINT then _ ← read_varint_value input; mret m
  else if wire_type =? WIRE_LEN then _ ← read_len_delimited input; mret m
  else if wire_type =? WIRE_I64 then _ ← advance input 8; mret m
  else if wire_type =? WIRE_I32 then _ ← advance input 4; mret m
  else idx ← gets id; throw (DUnsupportedWireType wire_type idx).

Definition HolePunch_decode (input : bytes) : res DcutrMessageError HolePunch :=
  m ← decode_fields input (HolePunch_step input) (mkPunchFields None []);
  kind ← ok_or (pf_kind m) DMissingType;
  mret (mkHolePunch kind (pf_addrs m)).

Definition dcutr_decode_frame (input : bytes) : FrameDecode := decode_frame input MAX_MESSAGE_SIZE.

(** ** Shared helpers *)

Inductive DcutrError :=
  | DMessageTooLarge (len : Z)
  | DFrameTooLarge (len : Z)
  | DMalformed (e : DcutrMessageError)
  | DUnexpectedMessage (reason : bytes).

Definition MAX_FRAME_PREFIX_LEN : Z := 2.
Definition enforce_max_size (buf : bytes) : res DcutrError unit :=
  if MAX_MESSAGE_SIZE + MAX_FRAME_PREFIX_LEN <? zlen buf then Err (DMessageTooLarge (zlen buf)) else Ok tt.
Definition checked_outbound_frame (payload : bytes) : res DcutrError bytes :=
  if MAX_MESSAGE_SIZE <? zlen payload then Err (DMessageTooLarge (zlen payload)) else Ok (encode_frame payload).

Section Dcutr.
Context `{HC : HashCrates Multihash}.
Abbreviation Multiaddr := (Multiaddr.Multiaddr (Multihash := Multihash)).

Definition encode_multiaddr (a : Multiaddr) : bytes := multiaddr_to_bytes a.
(** [filter_map(|bytes| Multiaddr::from_bytes(bytes).ok())]. *)
Definition decode_remote_addrs (raw : list bytes) : list Multiaddr :=
  omap (λ b, match multiaddr_from_bytes b with Ok a => Some a | _ => None end) raw.
Definition own_connect (own_addrs : list Multiaddr) : HolePunch := mkHolePunch PunchConnect (encode_multiaddr <$> own_addrs).

(** ** The initiator *)

Inductive InitiatorOutcome := DialNow (remote_addrs : list Multiaddr) (remote_addr_bytes : list bytes) (rtt_ms : Z).
Inductive DcutrInitiatorInput := DIFlush | DIData (data : bytes) (rtt_ms : Z) | DIRemoteWriteClosed | DISendSync.
Inductive DcutrInitiatorOutput := DIOutbound (frame : bytes) | DIOutcome (outcome : InitiatorOutcome).

Inductive InitiatorState := InitiatorPending | AwaitingConnectReply | ReadyToSync | SyncPending | InitiatorDone.
#[global] Instance InitiatorState_eq_dec : EqDecision InitiatorState.
Proof. solve_decision. Defined.
Definition initiator_state_debug (s : InitiatorState) : bytes :=
  match s with
  | InitiatorPending => str "Pending"
  | AwaitingConnectReply => str "AwaitingConnectReply"
  | ReadyToSync => str "ReadyToSync"
  | SyncPending => str "SyncPending"
  | InitiatorDone => str "Done"
  end.

Record DcutrInitiator := mkInitiator {
  di_outbound : bytes;
  di_recv_buf : bytes;
  di_state : InitiatorState;
  di_outcome : option InitiatorOutcome;
  di_emitted_outcome : bool;
  di_pending_error : option DcutrError;
}.
Abbreviation DI := (M DcutrInitiator DcutrError).

Definition DcutrInitiator_new (own_addrs : list Multiaddr) : DcutrInitiator :=
  match checked_outbound_frame (HolePunch_encode (own_connect own_addrs)) with
  | Ok frame => mkInitiator frame [] InitiatorPending None false None
  | Err err => mkInitiator [] [] InitiatorDone None false (Some err)
  | Panic | Diverge => mkInitiator [] [] InitiatorDone None false None
  end.

Definition di_take_outbound : DI bytes := λ s,
  ({| s with di_outbound := [];
             di_state := match di_state s with
                         | InitiatorPending => AwaitingConnectReply
                         | SyncPending => InitiatorDone
                         | other => other
                         end |}, Ok (di_outbound s)).

Definition fail_reply {A} (error : DcutrError) : DI A :=
  _ ← modify (λ s, {| s with di_state := InitiatorDone; di_recv_buf := [] |});
  throw error.

Definition try_decode_reply (rtt_ms : Z) : DI unit :=
  state ← gets di_state;
  if negb (bool_decide (state = AwaitingConnectReply)) then mret tt
  else
    recv_buf ← gets di_recv_buf;
    match dcutr_decode_frame recv_buf with
    | Incomplete =>
        match enforce_max_size recv_buf with
        | Err e => fail_reply e
        | _ => mret tt
        end
    | TooLarge len => fail_reply (DFrameTooLarge len)
    | FrameError e => fail_reply (DMalformed (DVarint e))
    | Complete payload consumed =>
        match HolePunch_decode payload with
        | Err e => fail_reply (DMalformed e)
        | Panic => lift Panic
        | Diverge => lift Diverge
        | Ok reply =>
            rest ← lift (drain_front recv_buf consumed);
            _ ← modify (λ s, {| s with di_recv_buf := rest |});
            if negb (bool_decide (punch_kind reply = PunchConnect))
            then fail_reply (DUnexpectedMessage (str "expected HolePunch CONNECT but got " ++ punch_debug (punch_kind reply)))
            else
              _ ← modify (λ s, {| s with di_state := ReadyToSync |});
              modify (λ s, {| s with
                di_outcome := Some (DialNow (decode_remote_addrs (obs_addrs reply)) (obs_addrs reply) rtt_ms);
                di_emitted_outcome := false |})
        end
    end.

Definition di_on_data (data : bytes) (rtt_ms : Z) : DI unit :=
  state ← gets di_state;
  if negb (bool_decide (state = AwaitingConnectReply)) then mret tt
  else
    _ ← modify (λ s, {| s with di_recv_buf := di_recv_buf s ++ data |});
    try_decode_reply rtt_ms.

Definition di_is_done (s : DcutrInitiator) : bool := bool_decide (di_state s = InitiatorDone).
Definition di_take_trailing_data (s : DcutrInitiator) : DcutrInitiator * option bytes :=
  if bool_decide (di_state s = InitiatorDone) && bool_decide (is_Some (di_outcome s))
  then ({| s with di_recv_buf := [] |}, Some (di_recv_buf s))
  else (s, None).

Definition send_sync : DI unit :=
  state ← gets di_state;
  if negb (bool_decide (state = ReadyToSync))
  then throw (DUnexpectedMessage (str "cannot send SYNC from state " ++ initiator_state_debug state))
  else
    frame ← lift (checked_outbound_frame (HolePunch_encode (mkHolePunch PunchSync [])));
    modify (λ s, {| s with di_outbound := di_outbound s ++ frame; di_state := SyncPending |}).

Definition DcutrInitiator_handle_input (input : DcutrInitiatorInput) : DI unit :=
  pending ← gets di_pending_error;
  match pending with
  | Some err => _ ← modify (λ s, {| s with di_pending_error := None |}); throw err
  | None =>
      match input with
      | DIFlush => mret tt
      | DIData data rtt_ms => di_on_data data rtt_ms
      | DIRemoteWriteClosed => mret tt
      | DISendSync => send_sync
      end
  end.

Definition DcutrInitiator_poll_output : DI (option DcutrInitiatorOutput) :=
  outbound ← di_take_outbound;
  match outbound with
  | _ :: _ => mret (Some (DIOutbound outbound))
  | [] =>
      s ← gets id;
      match di_emitted_outcome s, di_outcome s with
      | false, Some outcome =>
          _ ← modify (λ s, {| s with di_emitted_outcome := true |});
          mret (Some (DIOutcome outcome))
      | _, _ => mret None
      end
  end.

Definition DcutrInitiator_is_idle (s : DcutrInitiator) : bool :=
  bool_decide (di_pending_error s = None) && bool_decide (di_outbound s = []) &&
  (di_emitted_outcome s || bool_decide (di_outcome s = None)).

#[export] Instance DcutrInitiator_protocol : SansIoProtocol DcutrInitiator DcutrInitiatorInput DcutrInitiatorOutput DcutrError := {|
  handle_input := DcutrInitiator_handle_input;
  poll_output := DcutrInitiator_poll_output;
  is_idle := DcutrInitiator_is_idle;
|}.

(** ** The responder *)

Inductive ResponderEvent := ConnectReceived (remote_addrs : list Multiaddr) (remote_addr_bytes : list bytes) | SyncReceived.
Inductive DcutrResponderInput := DRFlush | DRData (data : bytes) | DRRemoteWriteClosed.
Inductive DcutrResponderOutput := DROutbound (frame : bytes) | DREvent (event : ResponderEvent).

Inductive ResponderState := AwaitingConnect | AwaitingSync | ResponderDone | ResponderFailed.
#[global] Instance ResponderState_eq_dec : EqDecision ResponderState.
Proof. solve_decision. Defined.
Definition responder_state_debug (s : ResponderState) : bytes :=
  match s with
  | AwaitingConnect => str "AwaitingConnect"
  | AwaitingSync => str "AwaitingSync"
  | ResponderDone => str "Done"
  | ResponderFailed => str "Failed"
  end.

Record DcutrResponder := mkResponder {
  dr_connect_reply : bytes;
  dr_outbound : bytes;
  dr_recv_buf : bytes;
  dr_state : ResponderState;
  dr_events : list ResponderEvent;
  dr_pending_error : option DcutrError;
}.
Abbreviation DR := (M DcutrResponder DcutrError).

Definition DcutrResponder_new (own_addrs : list Multiaddr) : DcutrResponder :=
  match checked_outbound_frame (HolePunch_encode (own_connect own_addrs)) with
  | Ok frame => mkResponder frame [] [] AwaitingConnect [] None
  | Err err => mkResponder [] [] [] ResponderFailed [] (Some err)
  | Panic | Diverge => mkResponder [] [] [] ResponderFailed [] None
  end.

Definition dr_take_outbound : DR bytes := λ s, ({| s with dr_outbound := [] |}, Ok (dr_outbound s)).
Definition dr_fail {A} (error : DcutrError) : DR A :=
  _ ← modify (λ s, {| s with dr_state := ResponderFailed |});
  throw error.

(** [loop]: each round but the last takes a frame off the buffer. *)
Fixpoint try_decode (fuel : nat) : DR unit :=
  state ← gets dr_state;
  if bool_decide (state = ResponderDone) then mret tt
  else if bool_decide (state = ResponderFailed) then mret tt
  else
    recv_buf ← gets dr_recv_buf;
    match dcutr_decode_frame recv_buf with
    | Incomplete =>
        match enforce_max_size recv_buf with
        | Err e => dr_fail e
        | _ => mret tt
        end
    | TooLarge len => dr_fail (DFrameTooLarge len)
    | FrameError e => dr_fail (DMalformed (DVarint e))
    | Complete payload consumed =>
        match HolePunch_decode payload with
        | Err e => dr_fail (DMalformed e)
        | Panic => lift Panic
        | Diverge => lift Diverge
        | Ok msg =>
            rest ← lift (drain_front recv_buf consumed);
            _ ← modify (λ s, {| s with dr_recv_buf := rest |});
            _ ← match state, punch_kind msg with
                | AwaitingConnect, PunchConnect =>
                    modify (λ s, {| s with
                      dr_outbound := dr_outbound s ++ dr_connect_reply s;
                      dr_connect_reply := [];
                      dr_events := dr_events s ++ [ConnectReceived (decode_remote_addrs (obs_addrs msg)) (obs_addrs msg)];
                      dr_state := AwaitingSync |})
                | AwaitingSync, PunchSync =>
                    modify (λ s, {| s with dr_events := dr_events s ++ [SyncReceived]; dr_state := ResponderDone |})
                | current_state, actual_kind =>
                    dr_fail (DUnexpectedMessage (str "unexpected " ++ punch_debug actual_kind ++ str " in state " ++ responder_state_debug current_state))
                end;
            match fuel with
            | O => lift Diverge
            | S fuel => try_decode fuel
            end
        end
    end.
Definition dr_try_decode : DR unit := λ s, try_decode (length (dr_recv_buf s)) s.

Definition dr_on_data (data : bytes) : DR unit :=
  state ← gets dr_state;
  if bool_decide (state = ResponderDone) || bool_decide (state = ResponderFailed) then mret tt
  else
    _ ← modify (λ s, {| s with dr_recv_buf := dr_recv_buf s ++ data |});
    dr_try_decode.

Definition dr_is_done (s : DcutrResponder) : bool :=
  bool_decide (dr_state s = ResponderDone) || bool_decide (dr_state s = ResponderFailed).
Definition dr_take_trailing_data (s : DcutrResponder) : DcutrResponder * option bytes :=
  if bool_decide (dr_state s = ResponderDone) then ({| s with dr_recv_buf := [] |}, Some (dr_recv_buf s)) else (s, None).

Definition DcutrResponder_handle_input (input : DcutrResponderInput) : DR unit :=
  pending ← gets dr_pending_error;
  match pending with
  | Some err => _ ← modify (λ s, {| s with dr_pending_error := None |}); throw err
  | None =>
      match input with
      | DRFlush => mret tt
      | DRData data => dr_on_data data
      | DRRemoteWriteClosed => dr_try_decode
      end
  end.

(** [self.events.pop_front()]. *)
Definition dr_pop_event : DR (option ResponderEvent) := λ s,
  match dr_events s with
  | [] => (s, Ok None)
  | e :: events => ({| s with dr_events := events |}, Ok (Some e))
  end.
Definition DcutrResponder_poll_output : DR (option DcutrResponderOutput) :=
  outbound ← dr_take_outbound;
  match outbound with
  | _ :: _ => mret (Some (DROutbound outbound))
  | [] => event ← dr_pop_event; mret (DREvent <$> event)
  end.

Definition DcutrResponder_is_idle (s : DcutrResponder) : bool :=
  bool_decide (dr_pending_error s = None) && bool_decide (dr_outbound s = []) && bool_decide (dr_events s = []).

#[export] Instance DcutrResponder_protocol : SansIoProtocol DcutrResponder DcutrResponderInput DcutrResponderOutput DcutrError := {|
  handle_input := DcutrResponder_handle_input;
  poll_output := DcutrResponder_poll_output;
  is_idle := DcutrResponder_is_idle;
|}.
End Dcutr.

#[global] Arguments HolePunch_encode : simpl never.
#[global] Arguments HolePunch_decode : simpl never.
#[global] Arguments encode_frame : simpl never.
#[global] Arguments dcutr_decode_frame : simpl never.
#[global] Arguments enforce_max_size : simpl never.

(** ** The codec *)

Definition HolePunch_interp (f : Z) (v : Value) (m : PunchFields) : res DcutrMessageError PunchFields :=
  match v with
  | VVarint v =>
      if f =? 1 then kind ← ok_or (HolePunchType_from_u64 v) (DInvalidType v); Ok {| m with pf_kind := Some kind |} else Ok m
  | VLen b => if f =? 2 then Ok {| m with pf_addrs := pf_addrs m ++ [b] |} else Ok m
  | _ => Ok m
  end.

Lemma Punch_reads input : zlen input ≤ usize_max → reads_fields input (HolePunch_step input) HolePunch_interp.
Proof.
  intros Hl. apply reads_fields_intro; [done|..|done|done]; unfold HolePunch_step, HolePunch_interp.
  - intros f m idx Hi. cbn. rewrite ?andb_true_r, ?andb_false_r. destruct (f =? 1).
    + unfold mbind, M_bind, lift. destruct (read_varint_value input idx) as [i [v|e| |]]; try done. by destruct (ok_or _ _).
    + done.
  - intros f m idx Hi. cbn. rewrite ?andb_true_r, ?andb_false_r. by destruct (f =? 2).
  - intros f w m idx Hv Hn. rewrite (proj2 (Z.eqb_neq w WIRE_VARINT) Hv), (proj2 (Z.eqb_neq w WIRE_LEN) Hn), !andb_false_r.
    unfold skip_unknown_field. rewrite (proj2 (Z.eqb_neq w WIRE_VARINT) Hv), (proj2 (Z.eqb_neq w WIRE_LEN) Hn).
    by destruct (Z.eqb_spec w WIRE_I64) as [->|]; [|destruct (w =? WIRE_I32)].
Qed.

Lemma Punch_decode_returns input : zlen input ≤ usize_max → returns (HolePunch_decode input).
Proof.
  intros Hl. apply returns_bind.
  - apply (decode_fields_returns _ Hl _ _ (Punch_reads _ Hl)). intros f v m _. unfold HolePunch_interp.
    repeat case_match; try done. by destruct (HolePunchType_from_u64 _).
  - intros m. by destruct (pf_kind m).
Qed.

Definition Punch_tokens (m : HolePunch) : list token :=
  [(1, VVarint (HolePunchType_tag (punch_kind m)))] ++ ((λ a, (2, VLen a)) <$> obs_addrs m).
Lemma Punch_encode_tokens m : HolePunch_encode m = concat (token_bytes <$> Punch_tokens m).
Proof. unfold HolePunch_encode, Punch_tokens. autorewrite with tokens. cbn [fmap list_fmap concat]. by rewrite app_nil_r. Qed.

Lemma Punch_round_trip m us vs :
  unknown_fields 2 us → unknown_fields 2 vs → zlen (fields_bytes us ++ HolePunch_encode m ++ fields_bytes vs) ≤ usize_max →
  HolePunch_decode (fields_bytes us ++ HolePunch_encode m ++ fields_bytes vs) = Ok m.
Proof.
  intros Hus Hvs Hl. unfold HolePunch_decode. rewrite Punch_encode_tokens in *. rewrite <- !concat_app, <- !fmap_app in *.
  assert (∀ ts, unknown_fields 2 ts → Forall (λ t, ∀ m, HolePunch_interp t.1 t.2 m = Ok m) ts) as Hign.
  { intros ts Hts. eapply Forall_impl; [exact Hts|]. intros [f v] [_ Hf] m0. cbn in *. unfold HolePunch_interp.
    rewrite !(proj2 (Z.eqb_neq f _)) by lia. by destruct v. }
  erewrite (proj2 (decode_fields_ok _ Hl _ _ (Punch_reads _ Hl) _ (mkPunchFields (Some (punch_kind m)) (obs_addrs m)))).
  { cbn. by destruct m. }
  eexists. split_and!; [|reflexivity|].
  - apply tokens_fit; [|done]. rewrite !Forall_app. split_and!; [| |];
      [eapply Forall_impl; [exact Hus|]; by intros ? [? _]| |eapply Forall_impl; [exact Hvs|]; by intros ? [? _]].
    unfold Punch_tokens. rewrite Forall_app. split.
    + repeat constructor; destruct (punch_kind m); cbn; unfold u64_max; lia.
    + apply Forall_fmap, Forall_true. intros a. cbn. split; [cbn; lia|done].
  - rewrite (interpret_app _ _ _ _ (mkPunchFields None [])) by (by apply interpret_ignored, Hign).
    erewrite interpret_app; [by apply interpret_ignored, Hign|]. unfold Punch_tokens.
    rewrite (interpret_app _ _ _ _ (mkPunchFields (Some (punch_kind m)) [])) by (by destruct (punch_kind m)).
    by apply (interpret_repeated _ (λ a, (2, VLen a)) (mkPunchFields (Some (punch_kind m))) _ []).
Qed.
Lemma Punch_decode_fits m : zlen (HolePunch_encode m) ≤ MAX_MESSAGE_SIZE → HolePunch_decode (HolePunch_encode m) = Ok m.
Proof.
  intros Hz. pose proof (Punch_round_trip m [] [] ltac:(constructor) ltac:(constructor)) as Hrt.
  cbn [fmap list_fmap concat app] in Hrt. rewrite app_nil_r in Hrt. apply Hrt. unfold MAX_MESSAGE_SIZE, usize_max, u64_max in *. lia.
Qed.
Lemma Punch_decode_payload p : zlen p ≤ MAX_MESSAGE_SIZE → returns (HolePunch_decode p).
Proof. intros. apply Punch_decode_returns. unfold MAX_MESSAGE_SIZE, usize_max, u64_max in *. lia. Qed.

(** ** Frames *)

Definition awaits (b : bytes) : Prop := dcutr_decode_frame b = Incomplete ∧ enforce_max_size b = Ok tt.
Lemma awaits_nil : awaits [].
Proof. done. Qed.
Lemma awaits_short b : awaits b → zlen b ≤ MAX_MESSAGE_SIZE + MAX_FRAME_PREFIX_LEN.
Proof. intros [_ He]. unfold enforce_max_size in He. by destruct (Z.ltb_spec (MAX_MESSAGE_SIZE + MAX_FRAME_PREFIX_LEN) (zlen b)). Qed.
Lemma punch_frame_complete p rest :
  zlen p ≤ MAX_MESSAGE_SIZE → dcutr_decode_frame (encode_frame p ++ rest) = Complete p (zlen (encode_frame p)).
Proof. intros Hp. by apply decode_frame_complete. Qed.
Lemma punch_frame_awaits p b : zlen p ≤ MAX_MESSAGE_SIZE → strict_prefix b (encode_frame p) → awaits b.
Proof.
  intros Hp Hb. split; [by eapply decode_frame_prefix|]. destruct Hb as (k & _ & Hf). unfold MAX_MESSAGE_SIZE in Hp.
  pose proof (zlen_short_frame p ltac:(lia)) as Hz. unfold enforce_max_size, MAX_FRAME_PREFIX_LEN, MAX_MESSAGE_SIZE. rewrite Hf, zlen_app in Hz.
  pose proof (zlen_nonneg k). by destruct (Z.ltb_spec (4096 + 2) (zlen b)); [lia|].
Qed.
Lemma punch_frame_fits b p c : dcutr_decode_frame b = Complete p c → zlen p ≤ MAX_MESSAGE_SIZE ∧ 0 < c ≤ zlen b.
Proof.
  intros (Hp & -> & _ & rest & ->)%decode_frame_iff. unfold MAX_MESSAGE_SIZE in *. pose proof (zlen_short_frame p ltac:(lia)).
  split; [done|zlen_lia].
Qed.

Section Runs.
Context `{HC : HashCrates Multihash}.
Abbreviation Multiaddr := (Multiaddr.Multiaddr (Multihash := Multihash)).
Abbreviation DcutrInitiator := (Dcutr.DcutrInitiator (Multihash := Multihash)).
Abbreviation DcutrResponder := (Dcutr.DcutrResponder (Multihash := Multihash)).
Abbreviation DcutrInitiatorOutput := (Dcutr.DcutrInitiatorOutput (Multihash := Multihash)).
Abbreviation DcutrResponderOutput := (Dcutr.DcutrResponderOutput (Multihash := Multihash)).
Implicit Types (own : list Multiaddr).

Definition fits own : Prop := zlen (HolePunch_encode (own_connect own)) ≤ MAX_MESSAGE_SIZE.
Definition connect_frame own : bytes := encode_frame (HolePunch_encode (own_connect own)).
Definition sync_frame : bytes := encode_frame (HolePunch_encode (mkHolePunch PunchSync [])).

Lemma connect_frame_ok own : fits own → checked_outbound_frame (HolePunch_encode (own_connect own)) = Ok (connect_frame own).
Proof. unfold fits, checked_outbound_frame. intros Hf. by destruct (Z.ltb_spec MAX_MESSAGE_SIZE (zlen (HolePunch_encode (own_connect own)))); [lia|]. Qed.
Lemma sync_fits : zlen (HolePunch_encode (mkHolePunch PunchSync [])) ≤ MAX_MESSAGE_SIZE.
Proof. by vm_compute. Qed.
Lemma sync_frame_ok : checked_outbound_frame (HolePunch_encode (mkHolePunch PunchSync [])) = Ok sync_frame.
Proof. by vm_compute. Qed.
Lemma frame_cons p : ∃ x l, encode_frame p = x :: l.
Proof. pose proof (encode_frame_nonempty p). destruct (encode_frame p); naive_solver. Qed.

(** ** The initiator against any remote *)

(** What a driver has seen of an initiator, and where it stands. *)
Inductive initiator_at own : list DcutrInitiatorOutput → DcutrInitiator → Prop :=
  | at_pending : initiator_at own [] (mkInitiator (connect_frame own) [] InitiatorPending None false None)
  | at_awaiting b : awaits b →
      initiator_at own [DIOutbound (connect_frame own)] (mkInitiator [] b AwaitingConnectReply None false None)
  | at_refused :
      initiator_at own [DIOutbound (connect_frame own)] (mkInitiator [] [] InitiatorDone None false None)
  | at_ready b o (told : bool) :
      initiator_at own (DIOutbound (connect_frame own) :: if told then [DIOutcome o] else [])
        (mkInitiator [] b ReadyToSync (Some o) told None)
  | at_sync b o (told : bool) :
      initiator_at own (DIOutbound (connect_frame own) :: if told then [DIOutcome o] else [])
        (mkInitiator sync_frame b SyncPending (Some o) told None)
  | at_done b o (told later : bool) :
      initiator_at own (DIOutbound (connect_frame own) :: (if told then [DIOutcome o] else []) ++
          DIOutbound sync_frame :: if later && negb told then [DIOutcome o] else [])
        (mkInitiator [] b InitiatorDone (Some o) (told || later) None).

Lemma initiator_at_new own : fits own → initiator_at own [] (DcutrInitiator_new own).
Proof. intros Hf. unfold DcutrInitiator_new. rewrite connect_frame_ok by done. constructor. Qed.

Lemma initiator_decode own outs b rtt :
  outs = [DIOutbound (connect_frame own)] →
  wp (try_decode_reply rtt) (λ _, initiator_at own outs) (λ _, initiator_at own outs) (mkInitiator [] b AwaitingConnectReply None false None).
Proof.
  intros ->. unfold try_decode_reply. wp_step. apply wp_gets. rewrite bool_decide_true by done. cbn [negb]. wp_step. apply wp_gets. cbn [di_recv_buf].
  unfold fail_reply. destruct (dcutr_decode_frame b) as [p c| |len|e] eqn:Hf.
  - apply punch_frame_fits in Hf as [Hp Hc]. pose proof (Punch_decode_payload p Hp) as Hr.
    destruct (HolePunch_decode p) as [m|e| |]; [|wp_steps; constructor|done|done].
    wp_step. apply wp_lift. unfold drain_front. destruct (Z.leb_spec c (zlen b)); [|lia]. wp_steps; [constructor|].
    apply (at_ready own _ _ false).
  - destruct (enforce_max_size b) as [[]|e| |] eqn:He; [by apply wp_ret; constructor|wp_steps; constructor|..];
      unfold enforce_max_size in He; by destruct (_ <? _).
  - wp_steps. constructor.
  - wp_steps. constructor.
Qed.

Lemma initiator_input own outs s i :
  initiator_at own outs s → wp (handle_input i) (λ _, initiator_at own outs) (λ _, initiator_at own outs) s.
Proof.
  intros Ha. cbn -[wp]. unfold DcutrInitiator_handle_input. wp_step. apply wp_gets.
  assert (di_pending_error s = None) as -> by (by destruct Ha). destruct i as [|d rtt| |]; [by apply wp_ret| |by apply wp_ret|].
  - unfold di_on_data. wp_step. apply wp_gets. destruct Ha; try (by apply wp_ret; constructor).
    cbn [di_state]. rewrite bool_decide_true by done. cbn [negb]. wp_step. apply wp_modify. by apply initiator_decode.
  - unfold send_sync. wp_step. apply wp_gets. destruct Ha; try (by apply wp_throw; constructor).
    cbn [di_state]. rewrite bool_decide_true by done. cbn [negb]. wp_step. apply wp_lift. rewrite sync_frame_ok. apply wp_modify. constructor.
Qed.

Definition initiator_backlog (s : DcutrInitiator) : nat :=
  (match di_outbound s with [] => 0 | _ => 1 end + match di_emitted_outcome s, di_outcome s with false, Some _ => 1 | _, _ => 0 end)%nat.
Lemma initiator_poll own outs s :
  initiator_at own outs s →
  ∃ o s', poll_output s = (s', Ok o) ∧ initiator_at own (outs ++ option_list o) s' ∧
    match o with
    | Some _ => is_idle s = false ∧ (initiator_backlog s' < initiator_backlog s)%nat
    | None => is_idle s = true ∧ s' = s
    end.
Proof.
  intros Ha. destruct (frame_cons (HolePunch_encode (own_connect own))) as (x & l & Hc). destruct Ha as [|b Hb| |b o told|b o told|b o told later].
  - unfold connect_frame. rewrite Hc. eexists _, _. split; [reflexivity|]. split; [|by split; [|cbn; lia]].
    cbn. rewrite <- Hc. by apply (at_awaiting own []).
  - eexists None, _. split; [reflexivity|]. rewrite app_nil_r. by split; [constructor|].
  - eexists None, _. split; [reflexivity|]. rewrite app_nil_r. by split; [constructor|].
  - destruct told.
    + eexists None, _. split; [reflexivity|]. rewrite app_nil_r. by split; [apply (at_ready own b o true)|].
    + eexists (Some _), _. split; [reflexivity|]. by split; [apply (at_ready own b o true)|split; [|cbn; lia]].
  - eexists (Some _), _. split; [reflexivity|]. split; [|split; [done|]].
    2: { destruct (frame_cons (HolePunch_encode (mkHolePunch PunchSync []))) as (y & k & Hs). unfold initiator_backlog, sync_frame.
         cbn [di_outbound]. rewrite Hs. destruct told; cbn; lia. }
    pose proof (at_done own b o told false) as Hd. rewrite orb_false_r in Hd. done.
  - destruct told, later; cbn.
    + eexists None, _. split; [reflexivity|]. by split; [apply (at_done own b o true true)|].
    + eexists None, _. split; [reflexivity|]. by split; [apply (at_done own b o true false)|].
    + eexists None, _. split; [reflexivity|]. by split; [apply (at_done own b o false true)|].
    + eexists (Some _), _. split; [reflexivity|]. by split; [apply (at_done own b o false true)|split; [|cbn; lia]].
Qed.

#[export] Instance DcutrInitiator_contract :
  SansIoContract (λ s, ∃ own outs, fits own ∧ initiator_at own outs s) (λ _ (_ : DcutrInitiatorInput), True).
Proof.
  unshelve refine {| backlog := initiator_backlog |}.
  - intros s i (own & outs & Hf & Ha) _. eapply wp_mono; [by apply initiator_input|..]; naive_solver.
  - intros s (own & outs & Hf & Ha). destruct (initiator_poll own outs s Ha) as (o & s' & Hp & Ha' & Ho). exists o, s'. naive_solver.
Defined.

(** ** The responder against any remote *)

(** What it has put out but nobody has taken. *)
Definition responder_pending (s : DcutrResponder) : list DcutrResponderOutput :=
  (match dr_outbound s with [] => [] | out => [DROutbound out] end) ++ (DREvent <$> dr_events s).
(** What it says when it hears a CONNECT with the addresses [raw]. *)
Definition answered own (raw : list bytes) : list DcutrResponderOutput :=
  [DROutbound (connect_frame own); DREvent (ConnectReceived (decode_remote_addrs raw) raw)].

Record responder_at own (outs : list DcutrResponderOutput) (s : DcutrResponder) : Prop := {
  ra_error : dr_pending_error s = None;
  ra_state :
    match dr_state s with
    | AwaitingConnect => outs = [] ∧ dr_connect_reply s = connect_frame own ∧ dr_outbound s = [] ∧ dr_events s = []
    | AwaitingSync => ∃ raw, outs ++ responder_pending s = answered own raw
    | ResponderDone => ∃ raw, outs ++ responder_pending s = answered own raw ++ [DREvent SyncReceived]
    | ResponderFailed => outs ++ responder_pending s = [] ∨ ∃ raw, outs ++ responder_pending s = answered own raw
    end;
}.
(** Between calls, what it holds of a frame is short. *)
Definition responder_idle own outs (s : DcutrResponder) : Prop :=
  responder_at own outs s ∧ (dr_is_done s = false → awaits (dr_recv_buf s)).

Lemma responder_at_new own : fits own → responder_idle own [] (DcutrResponder_new own).
Proof. intros Hf. unfold DcutrResponder_new. rewrite connect_frame_ok by done. by split; [split|]. Qed.

Lemma responder_fails own outs s :
  responder_at own outs s → dr_state s ≠ ResponderDone → responder_idle own outs {| s with dr_state := ResponderFailed |}.
Proof.
  intros [He Hs] Hnd. split; [|done]. split; [done|]. cbn. unfold responder_pending in *. cbn in *.
  destruct (dr_state s); [|by right|done|done]. destruct Hs as (-> & _ & -> & ->). by left.
Qed.

Lemma responder_decode own outs fuel s :
  responder_at own outs s → (length (dr_recv_buf s) ≤ fuel)%nat →
  wp (try_decode fuel) (λ _, responder_idle own outs) (λ _, responder_idle own outs) s.
Proof.
  revert s. induction fuel as [|fuel IH]; intros s Ha Hfuel; cbn [try_decode].
  all: wp_step; apply wp_gets; case_bool_decide as Hd; [apply wp_ret; split; [done|unfold dr_is_done; by rewrite bool_decide_true]|].
  all: case_bool_decide as Hfl; [apply wp_ret; split; [done|unfold dr_is_done; by rewrite Hfl]|]; wp_step; apply wp_gets; unfold dr_fail.
  all: destruct (dcutr_decode_frame (dr_recv_buf s)) as [p c| |len|e] eqn:Hf;
    [|destruct (enforce_max_size (dr_recv_buf s)) as [[]|e| |] eqn:He; [by apply wp_ret|wp_steps; by apply responder_fails|..];
       unfold enforce_max_size in He; by destruct (_ <? _)|wp_steps; by apply responder_fails|wp_steps; by apply responder_fails].
  all: apply punch_frame_fits in Hf as [Hp Hc].
  { unfold zlen in Hc. lia. }
  pose proof (Punch_decode_payload p Hp) as Hr. destruct (HolePunch_decode p) as [m|e| |]; [|wp_steps; by apply responder_fails|done|done].
  wp_step. apply wp_lift. unfold drain_front. destruct (Z.leb_spec c (zlen (dr_recv_buf s))); [|lia].
  wp_step. apply wp_modify. set (s1 := {| s with dr_recv_buf := drop (Z.to_nat c) (dr_recv_buf s) |}).
  assert (responder_at own outs s1) as Ha1.
  { by destruct Ha. }
  assert (length (dr_recv_buf s1) ≤ fuel)%nat as Hfuel1.
  { cbn. rewrite length_drop. unfold zlen in *. lia. }
  assert (dr_state s1 ≠ ResponderDone) as Hd1 by done.
  wp_step. destruct (dr_state s) eqn:Hst, (punch_kind m); try done; try (wp_steps; by apply responder_fails).
  - apply wp_modify. apply IH; [|done]. destruct Ha1 as [He Hs]. subst s1. cbn in He, Hs.
    destruct Hs as (-> & Hreply & Hout & Hev). split; [done|]. cbn. exists (obs_addrs m). unfold responder_pending, answered. cbn in *. rewrite Hreply, Hout, Hev.
    cbn. unfold connect_frame. by destruct (frame_cons (HolePunch_encode (own_connect own))) as (x & l & ->).
  - apply wp_modify. apply IH; [|done]. destruct Ha1 as [He Hs]. subst s1. cbn in He, Hs.
    destruct Hs as [raw Hs]. split; [done|]. cbn. exists raw. unfold responder_pending in *. cbn in *.
    rewrite fmap_app. etrans; [|exact (f_equal (λ l, l ++ [DREvent SyncReceived]) Hs)]. by rewrite <- !app_assoc.
Qed.

Lemma responder_input own outs s i :
  responder_idle own outs s → wp (handle_input i) (λ _, responder_idle own outs) (λ _, responder_idle own outs) s.
Proof.
  intros [Ha Hw]. cbn -[wp]. unfold DcutrResponder_handle_input. wp_step. apply wp_gets. rewrite (ra_error _ _ _ Ha).
  destruct i as [|d|]; [by apply wp_ret| |by apply responder_decode].
  unfold dr_on_data. wp_step. apply wp_gets. case_bool_decide as Hd; [by apply wp_ret|]. case_bool_decide as Hf; [by apply wp_ret|].
  cbn [orb]. wp_step. apply wp_modify. apply responder_decode; [|done]. by destruct Ha.
Qed.

Lemma responder_poll own outs s :
  responder_idle own outs s →
  ∃ o s', poll_output s = (s', Ok o) ∧ responder_idle own (outs ++ option_list o) s' ∧
    match o with
    | Some _ => is_idle s = false ∧ (length (responder_pending s') < length (responder_pending s))%nat
    | None => is_idle s = true ∧ s' = s
    end.
Proof.
  intros [[He Hs] Hw]. destruct s as [reply out buf st evs er]. cbn in He. subst er. unfold responder_pending in *. cbn in Hs, Hw.
  cbn. unfold DcutrResponder_poll_output, DcutrResponder_is_idle. run_simpl. cbn. destruct out as [|x out]; cbn in *.
  - destruct evs as [|e evs]; eexists _, _; (split; [reflexivity|]); cbn.
    + rewrite app_nil_r. by split; [split|].
    + split; [|split; [done|cbn; lia]]. split; [|done]. split; [done|]. unfold responder_pending. cbn. destruct st; [naive_solver|..]; by rewrite <- app_assoc.
  - eexists _, _. split; [reflexivity|]. cbn. split; [|split; [done|cbn; lia]]. split; [|done]. split; [done|]. unfold responder_pending. cbn.
    destruct st; [naive_solver|..]; by rewrite <- app_assoc.
Qed.

#[export] Instance DcutrResponder_contract :
  SansIoContract (λ s, ∃ own outs, fits own ∧ responder_idle own outs s) (λ _ (_ : DcutrResponderInput), True).
Proof.
  unshelve refine {| backlog s := length (responder_pending s) |}.
  - intros s i (own & outs & Hf & Ha) _. eapply wp_mono; [by apply responder_input|..]; naive_solver.
  - intros s (own & outs & Hf & Ha). destruct (responder_poll own outs s Ha) as (o & s' & Hp & Ha' & Ho). exists o, s'. naive_solver.
Defined.

(** ** Runs *)

Lemma initiator_trace own outs s :
  fits own → trace (λ _ (_ : DcutrInitiatorInput), True) (DcutrInitiator_new own) outs s → initiator_at own outs s.
Proof.
  intros Hf. induction 1 as [|outs s i _ IH _|outs s o s' _ IH Hp|outs s s' _ IH Hp].
  - by apply initiator_at_new.
  - pose proof (initiator_input own outs s i IH) as Hw. unfold wp in Hw. by destruct (handle_input i s) as [? []].
  - destruct (initiator_poll own outs s IH) as (o' & s1 & Hp' & Ha & _). rewrite Hp in Hp'. by injection Hp' as <- <-.
  - destruct (initiator_poll own outs s IH) as (o' & s1 & Hp' & Ha & _). rewrite Hp in Hp'. injection Hp' as <- <-. by rewrite app_nil_r in Ha.
Qed.
Lemma responder_trace own outs s :
  fits own → trace (λ _ (_ : DcutrResponderInput), True) (DcutrResponder_new own) outs s → responder_idle own outs s.
Proof.
  intros Hf. induction 1 as [|outs s i _ IH _|outs s o s' _ IH Hp|outs s s' _ IH Hp].
  - by apply responder_at_new.
  - pose proof (responder_input own outs s i IH) as Hw. unfold wp in Hw. by destruct (handle_input i s) as [? []].
  - destruct (responder_poll own outs s IH) as (o' & s1 & Hp' & Ha & _). rewrite Hp in Hp'. by injection Hp' as <- <-.
  - destruct (responder_poll own outs s IH) as (o' & s1 & Hp' & Ha & _). rewrite Hp in Hp'. injection Hp' as <- <-. by rewrite app_nil_r in Ha.
Qed.

(** A machine that could not be made says nothing. *)
Lemma oversized own : ¬ fits own → ∃ e, checked_outbound_frame (HolePunch_encode (own_connect own)) = Err e.
Proof. unfold fits, checked_outbound_frame. intros Hf. destruct (Z.ltb_spec MAX_MESSAGE_SIZE (zlen (HolePunch_encode (own_connect own)))); [by eexists|lia]. Qed.
Lemma initiator_silent own outs s :
  ¬ fits own → trace (λ _ (_ : DcutrInitiatorInput), True) (DcutrInitiator_new own) outs s → outs = [].
Proof.
  intros [e He]%oversized Ht. assert (∃ er, outs = [] ∧ s = mkInitiator [] [] InitiatorDone None false er) as (_ & -> & _); [|done].
  induction Ht as [|outs s i _ (er & -> & ->) _|outs s o s' _ (er & -> & ->) Hp|outs s s' _ (er & -> & ->) Hp]; [|..|by injection Hp as <-; eauto].
  - unfold DcutrInitiator_new. rewrite He. by eexists.
  - destruct er, i; by eexists.
  - done.
Qed.
Lemma responder_silent own outs s :
  ¬ fits own → trace (λ _ (_ : DcutrResponderInput), True) (DcutrResponder_new own) outs s → outs = [].
Proof.
  intros [e He]%oversized Ht. assert (∃ er, outs = [] ∧ s = mkResponder [] [] [] ResponderFailed [] er) as (_ & -> & _); [|done].
  induction Ht as [|outs s i _ (er & -> & ->) _|outs s o s' _ (er & -> & ->) Hp|outs s s' _ (er & -> & ->) Hp]; [|..|by injection Hp as <-; eauto].
  - unfold DcutrResponder_new. rewrite He. by eexists.
  - destruct er, i; by eexists.
  - done.
Qed.

(** What an initiator may have said: CONNECT, then its outcome and SYNC, in the
    order in which its owner asks for them. *)
Definition initiator_said own (outs : list DcutrInitiatorOutput) : Prop :=
  ∃ o, outs `prefix_of` [DIOutbound (connect_frame own); DIOutcome o; DIOutbound sync_frame] ∨
       outs `prefix_of` [DIOutbound (connect_frame own); DIOutbound sync_frame; DIOutcome o].
Lemma initiator_at_said own outs s : initiator_at own outs s → initiator_said own outs.
Proof.
  intros Ha. pose proof (DialNow (Multihash := Multihash) [] [] 0) as o0. unfold initiator_said.
  destruct Ha as [|b Hb| |b o told|b o told|b o told later]; [exists o0; left..|exists o; left|exists o; left|exists o].
  all: try (by eexists); try (by destruct told; eexists).
  destruct told; cbn [app orb andb negb]; [left|right; destruct later]; rewrite ?andb_false_r; by eexists.
Qed.

(** Whatever the remote sends and the owner asks for, in any order, a
    machine answers every call without a panic or an endless loop and holds at
    most one incomplete frame of 4098 bytes. An initiator says CONNECT first,
    and then reports one outcome and says SYNC at most once; a responder
    answers one CONNECT and then reports it, and SYNC after it, at most once. A
    machine whose addresses do not fit in a frame says nothing at all. *)
Theorem dcutr_runs_are_safe own :
  (fits own →
   (∀ outs s, trace (λ _ (_ : DcutrInitiatorInput), True) (DcutrInitiator_new own) outs s →
      initiator_said own outs ∧ (di_state s = AwaitingConnectReply → zlen (di_recv_buf s) ≤ MAX_MESSAGE_SIZE + MAX_FRAME_PREFIX_LEN) ∧
      ∀ i, returns (handle_input i s).2) ∧
   (∀ outs s, trace (λ _ (_ : DcutrResponderInput), True) (DcutrResponder_new own) outs s →
      (∃ raw, outs `prefix_of` answered own raw ++ [DREvent SyncReceived]) ∧
      (dr_is_done s = false → zlen (dr_recv_buf s) ≤ MAX_MESSAGE_SIZE + MAX_FRAME_PREFIX_LEN) ∧
      ∀ i, returns (handle_input i s).2)) ∧
  (¬ fits own →
   (∀ outs s, trace (λ _ (_ : DcutrInitiatorInput), True) (DcutrInitiator_new own) outs s → outs = []) ∧
   (∀ outs s, trace (λ _ (_ : DcutrResponderInput), True) (DcutrResponder_new own) outs s → outs = [])).
Proof.
  split; intros Hf; split; intros outs s Ht.
  - apply initiator_trace in Ht; [|done]. split; [by eapply initiator_at_said|]. split.
    + intros Hst. destruct Ht; try done. by apply awaits_short.
    + intros i. pose proof (initiator_input own outs s i Ht) as Hw. unfold wp in Hw. by destruct (handle_input i s) as [? []].
  - apply responder_trace in Ht; [|done]. split; [|split].
    + destruct Ht as [[_ Hs] _]. destruct (dr_state s).
      * destruct Hs as [-> _]. exists []. apply prefix_nil.
      * destruct Hs as [raw Hs]. exists raw. rewrite <- Hs, <- app_assoc. by apply prefix_app_r.
      * destruct Hs as [raw Hs]. exists raw. rewrite <- Hs. by apply prefix_app_r.
      * destruct Hs as [[-> _]%app_eq_nil|[raw Hs]]; [exists []; apply prefix_nil|]. exists raw. rewrite <- Hs, <- app_assoc. by apply prefix_app_r.
    + intros Hd. apply awaits_short, Ht, Hd.
    + intros i. pose proof (responder_input own outs s i Ht) as Hw. unfold wp in Hw. by destruct (handle_input i s) as [? []].
  - by apply (initiator_silent own outs s).
  - by apply (responder_silent own outs s).
Qed.

(** ** An exchange *)

Definition initiator_waiting (b : bytes) : DcutrInitiator := mkInitiator [] b AwaitingConnectReply None false None.
Definition responder_waiting own (b : bytes) : DcutrResponder := mkResponder (connect_frame own) [] b AwaitingConnect [] None.
Definition responder_ready (b : bytes) : DcutrResponder := mkResponder [] [] b AwaitingSync [] None.

Lemma initiator_collects b d rtt : awaits (b ++ d) → handle_input (DIData d rtt) (initiator_waiting b) = (initiator_waiting (b ++ d), Ok tt).
Proof.
  intros [Hi He]. cbn. unfold DcutrInitiator_handle_input, di_on_data, try_decode_reply. run_simpl. cbn. known_states. by rewrite Hi, He.
Qed.
Lemma initiator_pieces ps b :
  (∀ c, c `prefix_of` b ++ concat ps.*1 → awaits c) →
  handle_inputs ((λ p, DIData p.1 p.2) <$> ps) (initiator_waiting b) = (initiator_waiting (b ++ concat ps.*1), Ok tt).
Proof.
  revert b. induction ps as [|[d rtt] ps IH]; intros b Hb; cbn [fmap list_fmap fst snd concat handle_inputs] in *; [by rewrite app_nil_r|].
  rewrite (run_ok _ _ _ _ _ (initiator_collects b d rtt ltac:(apply Hb; rewrite app_assoc; by apply prefix_app_r))).
  rewrite app_assoc in Hb |- *. by apply IH.
Qed.
Lemma initiator_completes m b d rest rtt :
  zlen (HolePunch_encode m) ≤ MAX_MESSAGE_SIZE → punch_kind m = PunchConnect → b ++ d = encode_frame (HolePunch_encode m) ++ rest →
  handle_input (DIData d rtt) (initiator_waiting b) =
    (mkInitiator [] rest ReadyToSync (Some (DialNow (decode_remote_addrs (obs_addrs m)) (obs_addrs m) rtt)) false None, Ok tt).
Proof.
  intros Hz Hk Hb. cbn. unfold DcutrInitiator_handle_input, di_on_data, try_decode_reply. run_simpl. cbn. known_states.
  rewrite Hb, punch_frame_complete, Punch_decode_fits, drain_front_app by done. cbn. rewrite Hk. by known_states.
Qed.

Lemma responder_collects own b d : awaits (b ++ d) → handle_input (DRData d) (responder_waiting own b) = (responder_waiting own (b ++ d), Ok tt).
Proof.
  intros [Hi He]. cbn. unfold DcutrResponder_handle_input, dr_on_data, dr_try_decode. run_simpl. cbn. known_states.
  destruct (length (b ++ d)); cbn [try_decode]; run_simpl; cbn; known_states; by rewrite Hi, He.
Qed.
Lemma ready_collects b d : awaits (b ++ d) → handle_input (DRData d) (responder_ready b) = (responder_ready (b ++ d), Ok tt).
Proof.
  intros [Hi He]. cbn. unfold DcutrResponder_handle_input, dr_on_data, dr_try_decode. run_simpl. cbn. known_states.
  destruct (length (b ++ d)); cbn [try_decode]; run_simpl; cbn; known_states; by rewrite Hi, He.
Qed.
Lemma responder_completes own m b d :
  zlen (HolePunch_encode m) ≤ MAX_MESSAGE_SIZE → punch_kind m = PunchConnect → b ++ d = encode_frame (HolePunch_encode m) →
  handle_input (DRData d) (responder_waiting own b) =
    (mkResponder [] (connect_frame own) [] AwaitingSync [ConnectReceived (decode_remote_addrs (obs_addrs m)) (obs_addrs m)] None, Ok tt).
Proof.
  intros Hz Hk Hb. cbn. unfold DcutrResponder_handle_input, dr_on_data, dr_try_decode. run_simpl. cbn. known_states. rewrite Hb.
  destruct (frame_cons (HolePunch_encode m)) as (x & l & Hc). pose proof (f_equal length Hc) as Hlen. rewrite Hlen. cbn [length try_decode]. run_simpl. cbn. known_states.
  rewrite <- (app_nil_r (encode_frame _)), punch_frame_complete, Punch_decode_fits, drain_front_app by done. cbn. rewrite Hk. run_simpl. cbn.
  destruct (length l); cbn [try_decode]; run_simpl; cbn; by known_states.
Qed.
Lemma ready_completes b d rest :
  b ++ d = sync_frame ++ rest →
  handle_input (DRData d) (responder_ready b) = (mkResponder [] [] rest ResponderDone [SyncReceived] None, Ok tt).
Proof.
  intros Hb. cbn. unfold DcutrResponder_handle_input, dr_on_data, dr_try_decode. run_simpl. cbn. known_states. rewrite Hb. unfold sync_frame.
  destruct (frame_cons (HolePunch_encode (mkHolePunch PunchSync []))) as (x & l & Hc).
  pose proof (f_equal (λ f, length (f ++ rest)) Hc) as Hlen. cbn beta in Hlen. rewrite Hlen. cbn [length app try_decode]. run_simpl. cbn. known_states.
  rewrite punch_frame_complete, Punch_decode_fits, drain_front_app by apply sync_fits. cbn. destruct (length (l ++ rest)); cbn [try_decode]; run_simpl; cbn; by known_states.
Qed.

Section Exchange.
Context `{!HashCratesSpec Multihash}.
Definition addr_ok (a : Multiaddr) : Prop := Forall protocol_ok (protocols a).

(** Well-formed addresses survive the trip. *)
Lemma decode_own own : Forall addr_ok own → decode_remote_addrs (encode_multiaddr <$> own) = own.
Proof.
  induction 1 as [|a own Ha _ IH]; [done|]. unfold decode_remote_addrs in *. cbn. unfold encode_multiaddr at 1.
  by rewrite multiaddr_round_trip, IH.
Qed.
Lemma prefix_strict (x y f : bytes) : strict_prefix x f → y `prefix_of` x → strict_prefix y f.
Proof. intros Hx [k ->]. by eapply strict_prefix_app. Qed.

(** C31: Two peers on a relayed stream exchange their addresses and agree on the
    moment to dial, where the addresses of each are well-formed and their
    message is within the size limit. The initiator's CONNECT, in whatever
    pieces, is answered with the responder's and reported with exactly the
    initiator's addresses; the answer, in whatever pieces, is reported with
    exactly the responder's addresses and the round-trip time of the piece that
    completed it; SYNC, when the owner asks for it, is reported to the
    responder. Bytes that come in one piece with the end of the answer or of
    SYNC belong to the application and are handed over unchanged. *)
Theorem dcutr_exchange cut (A B : list Multiaddr) pre c rtt early pre' c' late :
  delivers cut → Forall addr_ok A → Forall addr_ok B → fits A → fits B →
  strict_prefix (concat pre.*1) (connect_frame B) → concat pre.*1 ++ c = connect_frame B ++ early →
  strict_prefix (concat pre') sync_frame → concat pre' ++ c' = sync_frame ++ late →
  ∃ i r i1 i2 r1,
    talk [DIFlush] (DcutrInitiator_new A) = (i, Ok [DIOutbound (connect_frame A)]) ∧
    talk (DRData <$> cut (connect_frame A)) (DcutrResponder_new B) =
      (r, Ok [DROutbound (connect_frame B); DREvent (ConnectReceived A (encode_multiaddr <$> A))]) ∧
    talk ((λ p, DIData p.1 p.2) <$> pre ++ [(c, rtt)]) i = (i1, Ok [DIOutcome (DialNow B (encode_multiaddr <$> B) rtt)]) ∧
    talk [DISendSync] i1 = (i2, Ok [DIOutbound sync_frame]) ∧
    di_is_done i2 = true ∧ (di_take_trailing_data i2).2 = Some early ∧
    talk (DRData <$> pre' ++ [c']) r = (r1, Ok [DREvent SyncReceived]) ∧
    dr_is_done r1 = true ∧ (dr_take_trailing_data r1).2 = Some late.
Proof.
  intros Hcut HA HB FA FB Hpre Hc Hpre' Hc'.
  exists (initiator_waiting []), (responder_ready []),
    (mkInitiator [] early ReadyToSync (Some (DialNow B (encode_multiaddr <$> B) rtt)) true None),
    (mkInitiator [] early InitiatorDone (Some (DialNow B (encode_multiaddr <$> B) rtt)) true None),
    (mkResponder [] [] late ResponderDone [] None).
  destruct (frame_cons (HolePunch_encode (own_connect A))) as (xA & lA & EA). destruct (frame_cons (HolePunch_encode (own_connect B))) as (xB & lB & EB).
  split_and!; try done.
  - unfold DcutrInitiator_new. rewrite connect_frame_ok by done.
    rewrite (talk_then _ _ (mkInitiator (connect_frame A) [] InitiatorPending None false None)) by done. unfold connect_frame. by rewrite EA.
  - rewrite (talk_then _ _ (mkResponder [] (connect_frame B) [] AwaitingSync [ConnectReceived A (encode_multiaddr <$> A)] None)).
    + unfold connect_frame. by rewrite EB.
    + unfold DcutrResponder_new. rewrite connect_frame_ok by done.
      apply (arrive_whole DRData (responder_waiting B) (connect_frame A) (encode_frame_nonempty _)); [|done|].
      * intros b d Hp. apply responder_collects. exact (punch_frame_awaits _ _ FA Hp).
      * intros b d Hb. rewrite (responder_completes B (own_connect A)) by done. cbn [own_connect obs_addrs]. by rewrite decode_own.
  - rewrite (talk_then _ _ (mkInitiator [] early ReadyToSync (Some (DialNow B (encode_multiaddr <$> B) rtt)) false None)); [done|].
    rewrite fmap_app, handle_inputs_app. rewrite (run_ok _ _ _ _ _ (initiator_pieces pre [] (λ x Hx, punch_frame_awaits _ _ FB (prefix_strict _ _ _ Hpre Hx)))).
    apply one_input. cbn [app fst snd]. rewrite (initiator_completes (own_connect B) _ _ early) by done. cbn [own_connect obs_addrs]. by rewrite decode_own.
  - rewrite (talk_then _ _ (mkResponder [] [] late ResponderDone [SyncReceived] None)); [done|].
    rewrite fmap_app, handle_inputs_app.
    assert (∀ b d, strict_prefix (b ++ d) sync_frame → handle_input (DRData d) (responder_ready b) = (responder_ready (b ++ d), Ok tt)) as Hcol.
    { intros b d Hp. apply ready_collects. exact (punch_frame_awaits _ _ sync_fits Hp). }
    rewrite (run_ok _ _ _ _ _ (arrive_wait DRData responder_ready sync_frame Hcol pre' [] Hpre')). by apply one_input, ready_completes.
Qed.
End Exchange.
End Runs.

(** ** Two peers *)

#[local] Existing Instance demo_crates.
#[local] Existing Instance demo_crates_spec.
Definition demo_addr (port : Z) : Multiaddr (Multihash := Z * bytes) := mkMultiaddr [Dns4 (str "a.example"); Udp port; QuicV1].
Lemma demo_addr_ok port : 0 ≤ port ≤ u16_max → addr_ok (demo_addr port).
Proof. intros Hp. repeat first [apply Forall_cons; split | apply Forall_nil]; cbn; try done; by split_and!. Qed.

Lemma dcutr_runs_are_safe_witness :
  fits [demo_addr 1] ∧
  initiator_said [demo_addr 1] [DIOutbound (connect_frame [demo_addr 1])].
Proof.
  assert (fits [demo_addr 1]) as Hf by (by vm_compute). split; [done|].
  destruct (dcutr_runs_are_safe [demo_addr 1]) as [Hs _]. destruct (Hs Hf) as [Hi _]. eapply Hi.
  change [DIOutbound (connect_frame [demo_addr 1])] with ([] ++ [DIOutbound (Multihash := Z * bytes) (connect_frame [demo_addr 1])]).
  eapply trace_poll; [apply trace_start|]. by vm_compute.
Defined.

Lemma dcutr_exchange_witness :
  ∃ i r r', talk [DIFlush] (DcutrInitiator_new [demo_addr 1]) = (i, Ok [DIOutbound (connect_frame [demo_addr 1])]) ∧
    talk (DRData <$> [connect_frame [demo_addr 1]]) (DcutrResponder_new [demo_addr 2]) =
      (r, Ok [DROutbound (connect_frame [demo_addr 2]); DREvent (ConnectReceived [demo_addr 1] [multiaddr_to_bytes (demo_addr 1)])]) ∧
    talk [DRData (take 2 sync_frame); DRData (drop 2 sync_frame ++ str "app")] r = (r', Ok [DREvent SyncReceived]) ∧
    (dr_take_trailing_data r').2 = Some (str "app").
Proof.
  destruct (dcutr_exchange (λ b, match b with [] => [] | _ => [b] end) [demo_addr 1] [demo_addr 2] [] (connect_frame [demo_addr 2]) 7 []
    [take 2 sync_frame] (drop 2 sync_frame ++ str "app") (str "app")) as (i & r & i1 & i2 & r1 & Hi & Hr & _ & _ & _ & _ & Hr1 & _ & Ht).
  - intros [|x b]; cbn; [by split; [|set_solver]|]. rewrite app_nil_r. split; [done|]. set_solver.
  - apply Forall_singleton. by apply demo_addr_ok.
  - apply Forall_singleton. by apply demo_addr_ok.
  - by vm_compute.
  - by vm_compute.
  - exists (connect_frame [demo_addr 2]). split; [apply encode_frame_nonempty|done].
  - by rewrite app_nil_r.
  - exists (drop 2 sync_frame). split; [by vm_compute|by vm_compute].
  - by vm_compute.
  - exists i, r, r1. split_and!; [exact Hi|exact Hr|exact Hr1|exact Ht].
Defined.
