(* ===== verification/Identify.v ===== *)
(** The identify protocol, from [crates/identify/src/message.rs] and
    [crates/identify/src/lib.rs]: the message two peers introduce themselves
    with, and the machine that sends and collects it. *)

From Stdlib Require Import Strings.Byte.
From S2P Require Import Prelude Varint Text SansIo Proto Base58 PeerIdentity Multiaddr.

(** ** The message *)

Record IdentifyMessage := mkIdentify {
  public_key : option bytes;
  listen_addrs : list bytes;
  id_protocols : list bytes;
  observed_addr : option bytes;
  protocol_version : option bytes;
  agent_version : option bytes;
}.
Definition IdentifyMessage_default : IdentifyMessage := mkIdentify None [] [] None None None.

Inductive IdentifyMessageError :=
  | IVarint (e : VarintError)
  | IFieldOverflow (offset length remaining : Z)
  | IInvalidUtf8 (field_number : Z)
  | IUnsupportedWireType (wire_type offset : Z).

#[global] Instance identify_proto_errors : ProtoErrors IdentifyMessageError := {|
  err_varint := IVarint;
  err_past_end := λ idx, IFieldOverflow idx 0 0;
  err_overflow := IFieldOverflow;
  err_wide := IFieldOverflow;
  err_wire_type := IUnsupportedWireType;
|}.
Abbreviation IC := (M Z IdentifyMessageError).

Definition FIELD_PUBLIC_KEY : Z := 1.
Definition FIELD_LISTEN_ADDRS : Z := 2.
Definition FIELD_PROTOCOLS : Z := 3.
Definition FIELD_OBSERVED_ADDR : Z := 4.
Definition FIELD_PROTOCOL_VERSION : Z := 5.
Definition FIELD_AGENT_VERSION : Z := 6.

Definition TAG_PUBLIC_KEY : Z := tag_byte FIELD_PUBLIC_KEY WIRE_LEN.
Definition TAG_LISTEN_ADDRS : Z := tag_byte FIELD_LISTEN_ADDRS WIRE_LEN.
Definition TAG_PROTOCOLS : Z := tag_byte FIELD_PROTOCOLS WIRE_LEN.
Definition TAG_OBSERVED_ADDR : Z := tag_byte FIELD_OBSERVED_ADDR WIRE_LEN.
Definition TAG_PROTOCOL_VERSION : Z := tag_byte FIELD_PROTOCOL_VERSION WIRE_LEN.
Definition TAG_AGENT_VERSION : Z := tag_byte FIELD_AGENT_VERSION WIRE_LEN.

Definition IdentifyMessage_encode (m : IdentifyMessage) : bytes :=
  opt_bytes (encode_bytes_field TAG_PUBLIC_KEY) (public_key m) ++
  concat (encode_bytes_field TAG_LISTEN_ADDRS <$> listen_addrs m) ++
  concat (encode_bytes_field TAG_PROTOCOLS <$> id_protocols m) ++
  opt_bytes (encode_bytes_field TAG_OBSERVED_ADDR) (observed_addr m) ++
  opt_bytes (encode_bytes_field TAG_PROTOCOL_VERSION) (protocol_version m) ++
  opt_bytes (encode_bytes_field TAG_AGENT_VERSION) (agent_version m).

(** [core::str::from_utf8]. *)
Definition from_utf8 (field_number : Z) (value : bytes) : res IdentifyMessageError bytes :=
  if utf8_valid value then Ok value else Err (IInvalidUtf8 field_number).

(** What a length-delimited field means. *)
Definition identify_field (field_number : Z) (value : bytes) (msg : IdentifyMessage)
    : res IdentifyMessageError IdentifyMessage :=
  if field_number =? FIELD_PUBLIC_KEY then Ok {| msg with public_key := Some value |}
  else if field_number =? FIELD_LISTEN_ADDRS then Ok {| msg with listen_addrs := listen_addrs msg ++ [value] |}
  else if field_number =? FIELD_PROTOCOLS then
    s ← from_utf8 field_number value; Ok {| msg with id_protocols := id_protocols msg ++ [s] |}
  else if field_number =? FIELD_OBSERVED_ADDR then Ok {| msg with observed_addr := Some value |}
  else if field_number =? FIELD_PROTOCOL_VERSION then
    s ← from_utf8 field_number value; Ok {| msg with protocol_version := Some s |}
  else if field_number =? FIELD_AGENT_VERSION then
    s ← from_utf8 field_number value; Ok {| msg with agent_version := Some s |}
  else Ok msg.

Definition identify_step (input : bytes) (field_number wire_type : Z) (msg : IdentifyMessage) : IC IdentifyMessage :=
  if wire_type =? WIRE_LEN then
    value ← read_len_delimited input; lift (identify_field field_number value msg)
  else if wire_type =? WIRE_VARINT then _ ← read_varint_value input; mret msg
  else if wire_type =? WIRE_I32 then _ ← advance input 4; mret msg
  else if wire_type =? WIRE_I64 then _ ← advance input 8; mret msg
  else idx ← gets id; throw (IUnsupportedWireType wire_type idx).
Definition IdentifyMessage_decode (input : bytes) : res IdentifyMessageError IdentifyMessage :=
  decode_fields input (identify_step input) IdentifyMessage_default.

Definition encode_length_prefixed (payload : bytes) : bytes := write_uvarint (zlen payload) [] ++ payload.
Definition decode_length_prefixed (buf : bytes) : res IdentifyMessageError bytes :=
  '(len, consumed) ← map_varint_err (read_uvarint buf);
  body ← ok_or (get_from buf consumed) (IFieldOverflow consumed len 0);
  let remaining := zlen body in
  if remaining <? len then Err (IFieldOverflow consumed len remaining)
  else
    stop ← ok_or (checked_add usize_max consumed len) (IFieldOverflow consumed len remaining);
    ok_or (slice buf consumed stop) (IFieldOverflow consumed len remaining).

(** ** What the message codec accepts *)

Definition identify_interp (f : Z) (v : Value) (m : IdentifyMessage) : res IdentifyMessageError IdentifyMessage :=
  match v with VLen b => identify_field f b m | _ => Ok m end.

Lemma identify_reads input : zlen input ≤ usize_max → reads_fields input (identify_step input) identify_interp.
Proof.
  intros Hl. apply reads_fields_intro; try done.
  intros f w msg idx Hv Hn. unfold identify_step, skip_unknown_field.
  rewrite (proj2 (Z.eqb_neq w WIRE_VARINT) Hv), (proj2 (Z.eqb_neq w WIRE_LEN) Hn).
  destruct (w =? WIRE_I32), (w =? WIRE_I64); done.
Qed.

Lemma identify_field_returns f b m : returns (identify_field f b m).
Proof. unfold identify_field, from_utf8. repeat case_match; done. Qed.

Lemma identify_decode_returns input : zlen input ≤ usize_max → returns (IdentifyMessage_decode input).
Proof.
  intros Hl. apply (decode_fields_returns _ Hl _ _ (identify_reads _ Hl)).
  intros f v m _. destruct v; try done. apply identify_field_returns.
Qed.

Definition utf8 (b : bytes) : Prop := utf8_valid b = true.
(** The fields that are a [String] hold UTF-8. *)
Definition identify_typed (m : IdentifyMessage) : Prop :=
  Forall utf8 (id_protocols m) ∧ opt_typed utf8 (protocol_version m) ∧ opt_typed utf8 (agent_version m).

Lemma from_utf8_ok f b s : from_utf8 f b = Ok s ↔ s = b ∧ utf8 b.
Proof. unfold from_utf8, utf8. destruct (utf8_valid b); naive_solver. Qed.

Lemma identify_field_typed f b m m' : identify_typed m → identify_field f b m = Ok m' → identify_typed m'.
Proof.
  intros (Hp & Hv & Ha). unfold identify_field. repeat case_match; intros Heq; simplify_eq; try (by split_and!);
    apply bind_res_ok in Heq as (s & [-> Hs]%from_utf8_ok & [= <-]); split_and!; cbn; try done.
  apply Forall_app. split; [done|]. by repeat constructor.
Qed.

Lemma identify_decode_typed input m :
  zlen input ≤ usize_max → IdentifyMessage_decode input = Ok m → identify_typed m.
Proof.
  intros Hl (ts & Hts & _ & Hi)%(decode_fields_ok _ Hl _ _ (identify_reads _ Hl)).
  eapply interpret_preserves, Hi; [|done|by split_and!; constructor]. intros f v m0 m' _ Hm Hf.
  destruct v; cbn in Hf; simplify_eq; try done. by eapply identify_field_typed.
Qed.

Definition identify_tokens (m : IdentifyMessage) : list token :=
  opt_token (λ b, (FIELD_PUBLIC_KEY, VLen b)) (public_key m) ++
  ((λ b, (FIELD_LISTEN_ADDRS, VLen b)) <$> listen_addrs m) ++
  ((λ b, (FIELD_PROTOCOLS, VLen b)) <$> id_protocols m) ++
  opt_token (λ b, (FIELD_OBSERVED_ADDR, VLen b)) (observed_addr m) ++
  opt_token (λ b, (FIELD_PROTOCOL_VERSION, VLen b)) (protocol_version m) ++
  opt_token (λ b, (FIELD_AGENT_VERSION, VLen b)) (agent_version m).

Lemma opt_field_tokens f (o : option bytes) :
  0 ≤ f < 16 → opt_bytes (encode_bytes_field (tag_byte f WIRE_LEN)) o = fields_bytes (opt_token (λ b, (f, VLen b)) o).
Proof. intros Hf. destruct o; [|done]. cbn [opt_bytes opt_token fmap list_fmap concat]. rewrite app_nil_r. by apply encode_bytes_token. Qed.

Lemma identify_encode_tokens m : IdentifyMessage_encode m = fields_bytes (identify_tokens m).
Proof.
  unfold IdentifyMessage_encode, identify_tokens.
  unfold TAG_PUBLIC_KEY, TAG_LISTEN_ADDRS, TAG_PROTOCOLS, TAG_OBSERVED_ADDR, TAG_PROTOCOL_VERSION, TAG_AGENT_VERSION.
  rewrite !fmap_app, !concat_app, !opt_field_tokens, !concat_fields by done. done.
Qed.

Lemma identify_tokens_typed m : Forall token_typed (identify_tokens m).
Proof.
  unfold identify_tokens. rewrite !Forall_app. split_and!;
    try (apply Forall_fmap, Forall_true; intros b; split; [cbn; by compute|done]);
    match goal with |- Forall _ (opt_token _ ?o) => destruct o; repeat constructor; by compute end.
Qed.

Lemma interpret_protocols m l :
  Forall utf8 l →
  interpret identify_interp ((λ b, (FIELD_PROTOCOLS, VLen b)) <$> l) m = Ok {| m with id_protocols := id_protocols m ++ l |}.
Proof.
  intros Hl. revert m. induction Hl as [|b l Hb _ IH]; intros m; cbn; [by destruct m; cbn; rewrite app_nil_r|].
  rewrite (proj2 (from_utf8_ok _ _ b)) by done. cbn. rewrite IH. destruct m; cbn. by rewrite <- app_assoc.
Qed.

Lemma identify_interpret m :
  identify_typed m → interpret identify_interp (identify_tokens m) IdentifyMessage_default = Ok m.
Proof.
  destruct m as [k la ps oa pv av]. intros (Hp & Hv & Ha). unfold identify_tokens. cbn in *.
  rewrite (interpret_app _ _ _ _ (mkIdentify k [] [] None None None)) by (by destruct k).
  rewrite (interpret_app _ _ _ _ (mkIdentify k la [] None None None))
    by (by apply (interpret_repeated _ (λ b, (FIELD_LISTEN_ADDRS, VLen b)) (λ l, mkIdentify k l [] None None None) _ [])).
  rewrite (interpret_app _ _ _ _ (mkIdentify k la ps None None None)) by (by apply interpret_protocols).
  rewrite (interpret_app _ _ _ _ (mkIdentify k la ps oa None None)) by (by destruct oa).
  rewrite (interpret_app _ _ _ _ (mkIdentify k la ps oa pv None)).
  - destruct av as [b|]; [|done]. cbn. by rewrite (proj2 (from_utf8_ok _ _ b)).
  - destruct pv as [b|]; [|done]. cbn. by rewrite (proj2 (from_utf8_ok _ _ b)).
Qed.

Lemma identify_ignores ts : unknown_fields 6 ts → Forall (λ t, ∀ m, identify_interp t.1 t.2 m = Ok m) ts.
Proof.
  intros Hts. eapply Forall_impl; [exact Hts|]. intros [f v] [_ Hf] m. cbn in *. destruct v; try done. cbn.
  unfold identify_field. rewrite !(proj2 (Z.eqb_neq f _)); [done|unfold FIELD_PUBLIC_KEY, FIELD_LISTEN_ADDRS,
    FIELD_PROTOCOLS, FIELD_OBSERVED_ADDR, FIELD_PROTOCOL_VERSION, FIELD_AGENT_VERSION; lia..].
Qed.

Lemma identify_round_trip m us vs :
  identify_typed m → unknown_fields 6 us → unknown_fields 6 vs →
  zlen (fields_bytes us ++ IdentifyMessage_encode m ++ fields_bytes vs) ≤ usize_max →
  IdentifyMessage_decode (fields_bytes us ++ IdentifyMessage_encode m ++ fields_bytes vs) = Ok m.
Proof.
  intros Hm Hus Hvs Hl. rewrite identify_encode_tokens in *. rewrite <- !concat_app, <- !fmap_app in *.
  apply (decode_fields_ok _ Hl _ _ (identify_reads _ Hl)). eexists. split_and!; [|reflexivity|].
  - apply tokens_fit; [|done]. rewrite !Forall_app. split_and!; [|apply identify_tokens_typed|];
      (eapply Forall_impl; [eassumption|]; by intros ? [? _]).
  - rewrite (interpret_app _ _ _ _ IdentifyMessage_default) by (by apply interpret_ignored, identify_ignores).
    erewrite interpret_app; [apply interpret_ignored, identify_ignores; done|]. by apply identify_interpret.
Qed.

(** The identify codec is exact. A message decodes from what it encodes to,
    also with fields of a later version around it; and whatever bytes arrive,
    the decoder answers with an error or with a message whose strings are
    UTF-8, which encodes to bytes that decode to it again. *)
Theorem identify_message_exact m us vs input :
  zlen (fields_bytes us ++ IdentifyMessage_encode m ++ fields_bytes vs) ≤ usize_max → zlen input ≤ usize_max →
  (identify_typed m → unknown_fields 6 us → unknown_fields 6 vs →
    IdentifyMessage_decode (fields_bytes us ++ IdentifyMessage_encode m ++ fields_bytes vs) = Ok m) ∧
  match IdentifyMessage_decode input with
  | Ok m' => identify_typed m' ∧
      (zlen (IdentifyMessage_encode m') ≤ usize_max → IdentifyMessage_decode (IdentifyMessage_encode m') = Ok m')
  | Err _ => True
  | _ => False
  end.
Proof.
  intros Hl Hi. split; [by intros; apply identify_round_trip|].
  pose proof (identify_decode_returns input Hi) as Hr. destruct (IdentifyMessage_decode input) as [m'|e| |] eqn:Hd; try done.
  apply identify_decode_typed in Hd; [|done]. split; [done|]. intros Hz.
  pose proof (identify_round_trip m' [] [] Hd (Forall_nil_2 _) (Forall_nil_2 _)) as Hrt. cbn in Hrt.
  rewrite app_nil_r in Hrt. by apply Hrt.
Qed.

Lemma identify_message_exact_witness :
  let m := mkIdentify (Some (str "key")) [str "addr"] [str "/ipfs/ping/1.0.0"] None (Some (str "ipfs/0.1.0")) None in
  IdentifyMessage_decode (fields_bytes [(8, VVarint 300)] ++ IdentifyMessage_encode m ++ fields_bytes []) = Ok m.
Proof.
  intros m. apply (proj1 (identify_message_exact m [(8, VVarint 300)] [] [] ltac:(by vm_compute) ltac:(by vm_compute))).
  - split_and!; repeat constructor; by vm_compute.
  - repeat constructor; by vm_compute.
  - constructor.
Defined.

(** ** The machine *)

Definition MAX_MESSAGE_SIZE : Z := 8192.

Record IdentifyConfig := mkIdentifyConfig {
  cfg_protocol_version : bytes;
  cfg_agent_version : bytes;
  cfg_protocols : list bytes;
  cfg_public_key : bytes;
}.

(** The source prints the size or the decoder's error into the text of an error
    event; here it is the value itself. *)
Inductive IdentifyFailure :=
  | ExceedsMaximumSize (size : Z)
  | FailedToDecode (e : IdentifyMessageError).

Record PeerIdentifyState := mkPeerIdentify {
  outbound_stream : option Z;
  inbound_streams : gmap Z bytes;
}.
Definition PeerIdentifyState_default : PeerIdentifyState := mkPeerIdentify None ∅.

Section Identify.
Context `{HashCrates Multihash} `{!EqDecision Multihash} `{!Countable Multihash}.
Abbreviation PeerId := (PeerIdentity.PeerId (Multihash := Multihash)).
Abbreviation Multiaddr := (Multiaddr.Multiaddr (Multihash := Multihash)).

Inductive IdentifyAction :=
  | ISend (peer_id : PeerId) (stream_id : Z) (data : bytes)
  | ICloseStreamWrite (peer_id : PeerId) (stream_id : Z).

Inductive IdentifyEvent :=
  | Received (peer_id : PeerId) (info : IdentifyMessage)
  | IError (peer_id : PeerId) (stream_id : Z) (error : IdentifyFailure).

Inductive IdentifyInput :=
  | IRegisterOutboundStream (peer_id : PeerId) (stream_id : Z) (observed : option Multiaddr) (listen : list Multiaddr)
  | IRegisterInboundStream (peer_id : PeerId) (stream_id : Z)
  | IStreamData (peer_id : PeerId) (stream_id : Z) (data : bytes)
  | IStreamRemoteWriteClosed (peer_id : PeerId) (stream_id : Z)
  | IStreamClosed (peer_id : PeerId) (stream_id : Z)
  | IRemovePeer (peer_id : PeerId)
  | IMigratePeer (old_peer_id new_peer_id : PeerId).

Inductive IdentifyOutput :=
  | IAction (a : IdentifyAction)
  | IEvent (e : IdentifyEvent).

Inductive IdentifyError := IStreamAlreadyRegistered (peer_id : PeerId).

Record IdentifyProtocol := mkIdentifyProtocol {
  id_peers : gmap PeerId PeerIdentifyState;
  id_events : list IdentifyEvent;
  id_actions : list IdentifyAction;
  id_config : IdentifyConfig;
}.
Abbreviation I := (M IdentifyProtocol IdentifyError).

Definition IdentifyProtocol_new (config : IdentifyConfig) : IdentifyProtocol :=
  mkIdentifyProtocol ∅ [] [] config.

Definition add_protocol (id : bytes) : I unit :=
  known ← gets (λ s, existsb (λ p, bool_decide (p = id)) (cfg_protocols (id_config s)));
  if known : bool then mret tt
  else modify (λ s, {| s with id_config := {| (id_config s) with cfg_protocols := cfg_protocols (id_config s) ++ [id] |} |}).

Definition put_peer (peer_id : PeerId) (state : PeerIdentifyState) : I unit :=
  modify (λ s, {| s with id_peers := <[peer_id := state]> (id_peers s) |}).
Definition push_identify_event (e : IdentifyEvent) : I unit :=
  modify (λ s, {| s with id_events := id_events s ++ [e] |}).

(** [self.peers.entry(peer_id).or_default()]. *)
Definition peer_entry (peer_id : PeerId) : I PeerIdentifyState :=
  state ← gets (λ s, default PeerIdentifyState_default (id_peers s !! peer_id));
  _ ← put_peer peer_id state;
  mret state.

(** The message a node describes itself with. *)
Definition own_message (config : IdentifyConfig) (observed : option Multiaddr) (listen : list Multiaddr) : IdentifyMessage :=
  {| protocol_version := Some (cfg_protocol_version config);
     agent_version := Some (cfg_agent_version config);
     public_key := Some (cfg_public_key config);
     listen_addrs := multiaddr_to_bytes <$> listen;
     observed_addr := multiaddr_to_bytes <$> observed;
     id_protocols := cfg_protocols config |}.

Definition register_outbound_stream (peer_id : PeerId) (stream_id : Z) (observed : option Multiaddr)
    (listen : list Multiaddr) : I (list IdentifyAction) :=
  state ← peer_entry peer_id;
  match outbound_stream state with
  | Some _ => throw (IStreamAlreadyRegistered peer_id)
  | None =>
      _ ← put_peer peer_id {| state with outbound_stream := Some stream_id |};
      config ← gets id_config;
      let encoded := IdentifyMessage_encode (own_message config observed listen) in
      mret [ISend peer_id stream_id (encode_length_prefixed encoded); ICloseStreamWrite peer_id stream_id]
  end.

Definition register_inbound_stream (peer_id : PeerId) (stream_id : Z) : I unit :=
  state ← peer_entry peer_id;
  put_peer peer_id {| state with inbound_streams :=
    <[stream_id := default [] (inbound_streams state !! stream_id)]> (inbound_streams state) |}.

Definition on_stream_data (peer_id : PeerId) (stream_id : Z) (data : bytes) : I (list IdentifyAction) :=
  state ← gets (λ s, id_peers s !! peer_id);
  match state with
  | None => mret []
  | Some state =>
      match inbound_streams state !! stream_id with
      | None => mret []
      | Some buf =>
          let buf := buf ++ data in
          _ ← put_peer peer_id {| state with inbound_streams := <[stream_id := buf]> (inbound_streams state) |};
          _ ← (if MAX_MESSAGE_SIZE <? zlen buf then
                 _ ← push_identify_event (IError peer_id stream_id (ExceedsMaximumSize (zlen buf)));
                 put_peer peer_id {| state with inbound_streams := delete stream_id (inbound_streams state) |}
               else mret tt);
          mret []
      end
  end.

Definition on_stream_remote_write_closed (peer_id : PeerId) (stream_id : Z) : I (list IdentifyAction) :=
  state ← gets (λ s, id_peers s !! peer_id);
  match state with
  | None => mret []
  | Some state =>
      match inbound_streams state !! stream_id with
      | None => mret []
      | Some buf =>
          _ ← put_peer peer_id {| state with inbound_streams := delete stream_id (inbound_streams state) |};
          _ ← match decode_length_prefixed buf ≫= IdentifyMessage_decode with
              | Ok info => push_identify_event (Received peer_id info)
              | Err e => push_identify_event (IError peer_id stream_id (FailedToDecode e))
              | Panic => lift Panic
              | Diverge => lift Diverge
              end;
          mret [ICloseStreamWrite peer_id stream_id]
      end
  end.

Definition on_stream_closed (peer_id : PeerId) (stream_id : Z) : I unit :=
  state ← gets (λ s, id_peers s !! peer_id);
  match state with
  | None => mret tt
  | Some state =>
      let out := if bool_decide (outbound_stream state = Some stream_id) then None else outbound_stream state in
      let ins := delete stream_id (inbound_streams state) in
      _ ← put_peer peer_id (mkPeerIdentify out ins);
      if bool_decide (out = None) && bool_decide (ins = ∅)
      then modify (λ s, {| s with id_peers := delete peer_id (id_peers s) |})
      else mret tt
  end.

Definition remove_peer (peer_id : PeerId) : I unit :=
  modify (λ s, {| s with id_peers := delete peer_id (id_peers s) |}).

Definition rename_identify_event (old new : PeerId) (e : IdentifyEvent) : IdentifyEvent :=
  match e with
  | Received p info => Received (if decide (p = old) then new else p) info
  | IError p stream error => IError (if decide (p = old) then new else p) stream error
  end.
Definition migrate_peer (old new : PeerId) : I unit :=
  if decide (old = new) then mret tt
  else
    state ← gets (λ s, id_peers s !! old);
    _ ← match state with
        | Some state => modify (λ s, {| s with id_peers := <[new := state]> (delete old (id_peers s)) |})
        | None => mret tt
        end;
    modify (λ s, {| s with id_events := rename_identify_event old new <$> id_events s |}).

(** [self.actions.extend(..)]. *)
Definition extend_actions (l : list IdentifyAction) : I unit :=
  modify (λ s, {| s with id_actions := id_actions s ++ l |}).

Definition Identify_handle_input (i : IdentifyInput) : I unit :=
  match i with
  | IRegisterOutboundStream peer_id stream_id observed listen =>
      l ← register_outbound_stream peer_id stream_id observed listen; extend_actions l
  | IRegisterInboundStream peer_id stream_id => register_inbound_stream peer_id stream_id
  | IStreamData peer_id stream_id data => l ← on_stream_data peer_id stream_id data; extend_actions l
  | IStreamRemoteWriteClosed peer_id stream_id =>
      l ← on_stream_remote_write_closed peer_id stream_id; extend_actions l
  | IStreamClosed peer_id stream_id => on_stream_closed peer_id stream_id
  | IRemovePeer peer_id => remove_peer peer_id
  | IMigratePeer old new => migrate_peer old new
  end.

Definition Identify_poll_output : I (option IdentifyOutput) := λ s,
  match id_actions s with
  | a :: rest => ({| s with id_actions := rest |}, Ok (Some (IAction a)))
  | [] =>
      match id_events s with
      | e :: rest => ({| s with id_events := rest |}, Ok (Some (IEvent e)))
      | [] => (s, Ok None)
      end
  end.
Definition Identify_is_idle (s : IdentifyProtocol) : bool :=
  bool_decide (id_actions s = []) && bool_decide (id_events s = []).

#[global] Instance Identify_protocol
    : SansIoProtocol IdentifyProtocol IdentifyInput IdentifyOutput IdentifyError := {|
  handle_input := Identify_handle_input;
  poll_output := Identify_poll_output;
  is_idle := Identify_is_idle;
|}.

(** ** Bounded buffers *)

Definition buffers_ok (st : PeerIdentifyState) : Prop :=
  map_Forall (λ _ b, zlen b ≤ MAX_MESSAGE_SIZE) (inbound_streams st).
(** What a node keeps for its peers: at most one message per stream. *)
Definition identify_ok (s : IdentifyProtocol) : Prop := map_Forall (λ _, buffers_ok) (id_peers s).

Lemma peer_ok_insert p st s :
  identify_ok s → buffers_ok st → identify_ok {| s with id_peers := <[p := st]> (id_peers s) |}.
Proof. intros Hs Hst. by apply map_Forall_insert_2. Qed.
Lemma buffers_default s p : identify_ok s → buffers_ok (default PeerIdentifyState_default (id_peers s !! p)).
Proof.
  intros Hs. destruct (id_peers s !! p) as [st|] eqn:Hp; [by apply (Hs p)|]. apply map_Forall_empty.
Qed.
Lemma buffers_delete st k : buffers_ok st → buffers_ok {| st with inbound_streams := delete k (inbound_streams st) |}.
Proof. intros Hst. by apply map_Forall_delete. Qed.
Lemma buffers_insert st k b :
  buffers_ok st → zlen b ≤ MAX_MESSAGE_SIZE → buffers_ok {| st with inbound_streams := <[k := b]> (inbound_streams st) |}.
Proof. intros Hst Hb. by apply map_Forall_insert_2. Qed.
Lemma identify_delete s p : identify_ok s → identify_ok {| s with id_peers := delete p (id_peers s) |}.
Proof. intros Hs. by apply map_Forall_delete. Qed.

(** ** Frames *)

Lemma decode_length_prefixed_spec buf :
  zlen buf ≤ usize_max →
  match decode_length_prefixed buf with Ok b => zlen b ≤ zlen buf | Err _ => True | _ => False end.
Proof.
  intros Hl. unfold decode_length_prefixed. destruct (read_uvarint_outcome buf) as [H1 H2].
  destruct (read_uvarint buf) as [[len used]|e| |] eqn:Hr; try done. cbn.
  unfold get_from. destruct (Z.leb_spec used (zlen buf)); [|done]. cbn.
  destruct (Z.ltb_spec (zlen (drop (Z.to_nat used) buf)) len); [done|].
  destruct (checked_add usize_max used len) as [stop|] eqn:Hs; [|done]. cbn.
  apply read_uvarint_ok_iff in Hr as (Hlen & -> & rest & Hbuf). pose proof (uvarint_len_pos len ltac:(lia)).
  destruct (slice buf (uvarint_len len) stop) as [b|] eqn:Hsl; [|done]. cbn.
  apply slice_Some_iff in Hsl as (p & q & -> & _ & _); [|lia]. rewrite !zlen_app. pose proof (zlen_nonneg p). pose proof (zlen_nonneg q). lia.
Qed.

Lemma length_prefix_round_trip p :
  zlen (encode_length_prefixed p) ≤ usize_max → decode_length_prefixed (encode_length_prefixed p) = Ok p.
Proof.
  intros Hl. unfold encode_length_prefixed in *. pose proof (zlen_nonneg p). rewrite zlen_app in Hl.
  pose proof (zlen_nonneg (write_uvarint (zlen p) [])). pose proof (zlen_write_uvarint (zlen p) ltac:(lia)) as Hw.
  unfold decode_length_prefixed.
  rewrite (proj2 (read_uvarint_ok_iff _ (zlen p) (uvarint_len (zlen p)))); cycle 1.
  { split_and!; [lia|unfold usize_max, u64_max in *; lia|done|by exists p]. }
  cbn. unfold get_from. rewrite zlen_app. destruct (Z.leb_spec (uvarint_len (zlen p)) (zlen (write_uvarint (zlen p) []) + zlen p)); [|lia].
  cbn. rewrite <- Hw, to_nat_zlen, drop_app_length. rewrite Z.ltb_irrefl. rewrite checked_add_Some by lia. cbn.
  rewrite slice_after by lia. by rewrite to_nat_zlen, take_ge by done.
Qed.

Lemma collected_returns buf : zlen buf ≤ usize_max → returns (decode_length_prefixed buf ≫= IdentifyMessage_decode).
Proof.
  intros Hl. pose proof (decode_length_prefixed_spec buf Hl) as Hd.
  destruct (decode_length_prefixed buf) as [b|e| |]; try done. cbn. apply identify_decode_returns. lia.
Qed.

(** ** Every run *)

Lemma peer_entry_ok p (Q : PeerIdentifyState → IdentifyProtocol → Prop) X s :
  identify_ok s → (∀ st s', st = default PeerIdentifyState_default (id_peers s !! p) → buffers_ok st → identify_ok s' → Q st s') →
  wp (peer_entry p) Q X s.
Proof.
  intros Hs HQ. unfold peer_entry, put_peer. wp_steps. apply HQ; [done|by apply buffers_default|].
  apply peer_ok_insert; [done|by apply buffers_default].
Qed.

(** What an input may be refused for. *)
Definition refusal (s : IdentifyProtocol) (i : IdentifyInput) (e : IdentifyError) : Prop :=
  ∃ p k observed listen st j, e = IStreamAlreadyRegistered p ∧ i = IRegisterOutboundStream p k observed listen ∧
    id_peers s !! p = Some st ∧ outbound_stream st = Some j.

Lemma identify_input_ok i s :
  identify_ok s → wp (Identify_handle_input i) (λ _, identify_ok) (λ e s', identify_ok s' ∧ refusal s i e) s.
Proof.
  intros Hs. destruct i as [p k ob la|p k|p k d|p k|p k|p|old new]; cbn [Identify_handle_input].
  - unfold register_outbound_stream. wp_steps. apply peer_entry_ok; [done|]. intros st s1 Hst Hb Hs1.
    destruct (outbound_stream st) as [j|] eqn:Hj; cbn beta; unfold put_peer, extend_actions; wp_steps.
    + split; [done|]. destruct (id_peers s !! p) as [st0|] eqn:Hp; cbn in Hst; subst; [|done].
      by exists p, k, ob, la, st0, j.
    + by apply (peer_ok_insert p {| st with outbound_stream := Some k |}).
  - unfold register_inbound_stream. wp_steps. apply peer_entry_ok; [done|]. intros st s1 _ Hb Hs1.
    unfold put_peer. wp_steps. apply peer_ok_insert; [done|]. apply buffers_insert; [done|].
    destruct (inbound_streams st !! k) as [b|] eqn:Hk; cbn; [by apply (Hb k)|]. by compute.
  - unfold on_stream_data, extend_actions. wp_steps. destruct (id_peers s !! p) as [st|] eqn:Hp; [|by wp_steps].
    destruct (inbound_streams st !! k) as [b|] eqn:Hk; [|by wp_steps]. unfold put_peer, push_identify_event. wp_steps.
    + unfold identify_ok. cbn [id_peers]. rewrite insert_insert_eq. apply map_Forall_insert_2; [by apply buffers_delete, (Hs p)|done].
    + cbn beta. apply (peer_ok_insert p); [done|]. apply buffers_insert; [by apply (Hs p)|]. apply Z.ltb_ge. done.
  - unfold on_stream_remote_write_closed, extend_actions. wp_steps.
    destruct (id_peers s !! p) as [st|] eqn:Hp; [|by wp_steps].
    destruct (inbound_streams st !! k) as [b|] eqn:Hk; [|by wp_steps]. unfold put_peer, push_identify_event. wp_steps.
    pose proof (collected_returns b) as Hr. specialize (Hs p st Hp) as Hst. specialize (Hst k b Hk) as Hb. cbn in Hb.
    unfold MAX_MESSAGE_SIZE, usize_max, u64_max in *. specialize (Hr ltac:(lia)).
    destruct (decode_length_prefixed b ≫= IdentifyMessage_decode); try done; wp_steps;
      (apply (peer_ok_insert p); [done|by apply buffers_delete, (Hs p)]).
  - unfold on_stream_closed, put_peer. wp_steps. destruct (id_peers s !! p) as [st|] eqn:Hp; [|by wp_steps].
    wp_steps.
    + apply (identify_delete {| s with id_peers := _ |}). apply peer_ok_insert; [done|]. by apply map_Forall_delete, (Hs p).
    + apply peer_ok_insert; [done|]. by apply map_Forall_delete, (Hs p).
  - unfold remove_peer. wp_steps. by apply identify_delete.
  - unfold migrate_peer. case_decide; [by wp_steps|]. wp_steps. destruct (id_peers s !! old) as [st|] eqn:Hp; wp_steps; [|done].
    apply map_Forall_insert_2; [by apply (Hs old)|]. by apply map_Forall_delete.
Qed.

#[export] Instance Identify_contract : SansIoContract identify_ok (λ _ (_ : IdentifyInput), True).
Proof.
  unshelve refine {| backlog s := (length (id_actions s) + length (id_events s))%nat |}.
  - intros s i Hs _. eapply wp_mono; [by apply identify_input_ok|done|naive_solver].
  - intros [ps es al c] Hs. cbn. unfold Identify_poll_output, Identify_is_idle. cbn.
    destruct al as [|a al]; [destruct es as [|e es]|]; cbn; eexists _, _; (split; [reflexivity|]); (split; [done|]);
      try done; split; cbn; done || lia.
Defined.

Lemma trace_identify_ok config os s :
  trace (λ _ (_ : IdentifyInput), True) (IdentifyProtocol_new config) os s → identify_ok s.
Proof.
  induction 1 as [|os s i _ IH _|os s o s' _ IH Hp|os s s' _ IH Hp]; [apply map_Forall_empty| |..].
  - pose proof (identify_input_ok i s IH) as Hw. unfold wp in Hw. cbn.
    destruct (Identify_handle_input i s) as [s' [u|e| |]]; cbn; naive_solver.
  - destruct (output_step s IH) as (o' & s1 & Hp' & Hs1 & _). rewrite Hp in Hp'. by simplify_eq.
  - destruct (output_step s IH) as (o' & s1 & Hp' & Hs1 & _). rewrite Hp in Hp'. by simplify_eq.
Qed.

(** Whatever a node is told and however its outputs are polled, it holds at
    most one message's worth of bytes per stream; no input makes it fail, and
    the only one it refuses is a second stream to send its own message on
    while the first is open. *)
Theorem identify_runs_are_bounded config os s i :
  trace (λ _ (_ : IdentifyInput), True) (IdentifyProtocol_new config) os s →
  (∀ p st k b, id_peers s !! p = Some st → inbound_streams st !! k = Some b → zlen b ≤ MAX_MESSAGE_SIZE) ∧
  match (handle_input i s).2 with Ok _ => True | Err e => refusal s i e | _ => False end.
Proof.
  intros Hs%trace_identify_ok. split; [intros p st k b Hp Hk; exact (Hs p st Hp k b Hk)|].
  pose proof (identify_input_ok i s Hs) as Hw. unfold wp in Hw. cbn.
  destruct (Identify_handle_input i s) as [s' [u|e| |]]; cbn; naive_solver.
Qed.

(** ** An exchange *)

(** A node that has collected [b] of a message of [p] on stream [k]. *)
Definition holding (p : PeerId) (st : PeerIdentifyState) (k : Z) (s : IdentifyProtocol) (b : bytes) : IdentifyProtocol :=
  {| s with id_peers := <[p := {| st with inbound_streams := <[k := b]> (inbound_streams st) |}]> (id_peers s) |}.
(** A node that no longer reads stream [k]. *)
Definition released (p : PeerId) (st : PeerIdentifyState) (k : Z) (s : IdentifyProtocol) : IdentifyProtocol :=
  {| s with id_peers := <[p := {| st with inbound_streams := delete k (inbound_streams st) |}]> (id_peers s) |}.

Lemma holding_start p st k s b :
  id_peers s !! p = Some st → inbound_streams st !! k = Some b → s = holding p st k s b.
Proof.
  intros Hp Hk. unfold holding. destruct s, st. cbn in *. rewrite (insert_id inbound_streams0) by done. by rewrite insert_id.
Qed.

Lemma holding_data p st k s b d :
  handle_input (IStreamData p k d) (holding p st k s b) =
    if MAX_MESSAGE_SIZE <? zlen (b ++ d)
    then ({| (released p st k s) with id_events := id_events s ++ [IError p k (ExceedsMaximumSize (zlen (b ++ d)))] |}, Ok tt)
    else (holding p st k s (b ++ d), Ok tt).
Proof.
  cbn. unfold on_stream_data, holding, released, put_peer, push_identify_event, extend_actions. run_simpl. cbn.
  rewrite lookup_insert_eq. cbn. rewrite lookup_insert_eq. run_simpl. cbn.
  destruct (MAX_MESSAGE_SIZE <? _); run_simpl; cbn; rewrite ?app_nil_r, ?insert_insert_eq, ?delete_insert_eq; by destruct s.
Qed.

Lemma holding_closed p st k s b :
  handle_input (IStreamRemoteWriteClosed p k) (holding p st k s b) =
    match decode_length_prefixed b ≫= IdentifyMessage_decode with
    | Ok info => ({| (released p st k s) with id_events := id_events s ++ [Received p info];
                       id_actions := id_actions s ++ [ICloseStreamWrite p k] |}, Ok tt)
    | Err e => ({| (released p st k s) with id_events := id_events s ++ [IError p k (FailedToDecode e)];
                     id_actions := id_actions s ++ [ICloseStreamWrite p k] |}, Ok tt)
    | Panic => (released p st k s, Panic)
    | Diverge => (released p st k s, Diverge)
    end.
Proof.
  cbn. unfold on_stream_remote_write_closed, holding, released, put_peer, push_identify_event, extend_actions. run_simpl. cbn.
  rewrite lookup_insert_eq. cbn. rewrite lookup_insert_eq. run_simpl. cbn. rewrite !insert_insert_eq, delete_insert_eq.
  by destruct (decode_length_prefixed b) as [b'|e| |]; [destruct (IdentifyMessage_decode b')|..].
Qed.

(** Bytes of a stream that is no longer read. *)
Lemma released_data p st k s chunks :
  handle_inputs ((IStreamData p k <$> chunks) ++ [IStreamRemoteWriteClosed p k]) (released p st k s) = (released p st k s, Ok tt).
Proof.
  induction chunks as [|d chunks IH]; cbn; unfold mbind, M_bind.
  - unfold on_stream_remote_write_closed, released, extend_actions. run_simpl. cbn. rewrite lookup_insert_eq. cbn.
    rewrite lookup_delete_eq. run_simpl. cbn. by rewrite app_nil_r.
  - unfold on_stream_data, released at 1, extend_actions. run_simpl. cbn. rewrite lookup_insert_eq. cbn.
    rewrite lookup_delete_eq. run_simpl. cbn. rewrite app_nil_r. exact IH.
Qed.

Lemma holding_collects p st k s chunks b :
  zlen (b ++ concat chunks) ≤ MAX_MESSAGE_SIZE →
  handle_inputs (IStreamData p k <$> chunks) (holding p st k s b) = (holding p st k s (b ++ concat chunks), Ok tt).
Proof.
  intros Hz. apply (handle_inputs_collect (IStreamData p k) (holding p st k s) (λ b, zlen b ≤ MAX_MESSAGE_SIZE)); [| |done].
  - intros b' d. rewrite zlen_app. pose proof (zlen_nonneg d). lia.
  - intros b' d Hd. rewrite holding_data. by destruct (Z.ltb_spec MAX_MESSAGE_SIZE (zlen (b' ++ d))); [lia|].
Qed.

Lemma holding_overflows p st k s chunks b :
  zlen b ≤ MAX_MESSAGE_SIZE → MAX_MESSAGE_SIZE < zlen (b ++ concat chunks) →
  ∃ n, MAX_MESSAGE_SIZE < n ∧
    handle_inputs ((IStreamData p k <$> chunks) ++ [IStreamRemoteWriteClosed p k]) (holding p st k s b) =
    ({| (released p st k s) with id_events := id_events s ++ [IError p k (ExceedsMaximumSize n)] |}, Ok tt).
Proof.
  revert b. induction chunks as [|d chunks IH]; intros b Hb Hz; [rewrite app_nil_r in Hz; lia|].
  rewrite concat_cons, app_assoc in Hz. cbn [fmap list_fmap app handle_inputs]. pose proof (holding_data p st k s b d) as Hd.
  destruct (Z.ltb_spec MAX_MESSAGE_SIZE (zlen (b ++ d))).
  - exists (zlen (b ++ d)). split; [done|]. rewrite (run_ok _ _ _ _ _ Hd).
    exact (released_data p st k {| s with id_events := _ |} chunks).
  - rewrite (run_ok _ _ _ _ _ Hd). by apply IH.
Qed.

(** The strings of a [String] configuration. *)
Definition config_typed (c : IdentifyConfig) : Prop :=
  utf8 (cfg_protocol_version c) ∧ utf8 (cfg_agent_version c) ∧ Forall utf8 (cfg_protocols c).

Lemma register_outbound_run p j observed listen s :
  (id_peers s !! p ≫= outbound_stream) = None →
  ∃ s', handle_input (IRegisterOutboundStream p j observed listen) s = (s', Ok tt) ∧
    id_actions s' = id_actions s ++ [ISend p j
      (encode_length_prefixed (IdentifyMessage_encode (own_message (id_config s) observed listen))); ICloseStreamWrite p j].
Proof.
  intros Hn. cbn. unfold register_outbound_stream, peer_entry, put_peer, extend_actions. run_simpl. cbn.
  destruct (id_peers s !! p) as [st|]; cbn in *; [rewrite Hn|]; run_simpl; by eexists.
Qed.

(** C32: two nodes introduce themselves. The node asked to send its message sends
    one frame and closes its side; however the stream cuts the frame, the other
    node reports exactly the message that describes the sender, closes its own
    side and keeps nothing of the stream. A message over the limit is reported
    as such once, and nothing else happens: not even the close. *)
Theorem identify_exchange alice bob j k observed listen sA sB st :
  (id_peers sA !! bob ≫= outbound_stream) = None → config_typed (id_config sA) →
  id_peers sB !! alice = Some st → inbound_streams st !! k = Some [] →
  ∃ sA' wire, handle_input (IRegisterOutboundStream bob j observed listen) sA = (sA', Ok tt) ∧
    id_actions sA' = id_actions sA ++ [ISend bob j wire; ICloseStreamWrite bob j] ∧
    ∀ chunks, concat chunks = wire →
      ∃ sB', handle_inputs ((IStreamData alice k <$> chunks) ++ [IStreamRemoteWriteClosed alice k]) sB = (sB', Ok tt) ∧
        id_peers sB' = <[alice := {| st with inbound_streams := delete k (inbound_streams st) |}]> (id_peers sB) ∧
        if zlen wire <=? MAX_MESSAGE_SIZE
        then id_events sB' = id_events sB ++ [Received alice (own_message (id_config sA) observed listen)] ∧
             id_actions sB' = id_actions sB ++ [ICloseStreamWrite alice k]
        else ∃ n, id_events sB' = id_events sB ++ [IError alice k (ExceedsMaximumSize n)] ∧ id_actions sB' = id_actions sB.
Proof.
  intros Hout (Hv & Ha & Hps) Hp Hk. destruct (register_outbound_run bob j observed listen sA Hout) as (sA' & Hreg & Hact).
  eexists sA', _. split; [exact Hreg|]. split; [exact Hact|]. intros chunks Hc.
  pose proof (holding_start alice st k sB [] Hp Hk) as Hst. set (m := own_message _ _ _) in *.
  destruct (Z.leb_spec (zlen (encode_length_prefixed (IdentifyMessage_encode m))) MAX_MESSAGE_SIZE) as [Hle|Hgt].
  - pose proof (holding_closed alice st k sB (encode_length_prefixed (IdentifyMessage_encode m))) as Hcl.
    unfold MAX_MESSAGE_SIZE in Hle. rewrite length_prefix_round_trip in Hcl by (unfold usize_max, u64_max; lia). cbn [mbind res_bind] in Hcl.
    assert (IdentifyMessage_decode (IdentifyMessage_encode m) = Ok m) as Hdec.
    { pose proof (identify_round_trip m [] [] ltac:(by split_and!) (Forall_nil_2 _) (Forall_nil_2 _)) as Hrt. cbn [fmap list_fmap concat app] in Hrt.
      rewrite app_nil_r in Hrt. apply Hrt. unfold encode_length_prefixed in Hle. rewrite zlen_app in Hle.
      pose proof (zlen_nonneg (write_uvarint (zlen (IdentifyMessage_encode m)) [])). unfold usize_max, u64_max. lia. }
    rewrite Hdec in Hcl. eexists. split; [|split; [|split]].
    { rewrite Hst at 1. rewrite handle_inputs_app.
      rewrite (run_ok _ _ _ _ _ (holding_collects alice st k sB chunks [] ltac:(by rewrite Hc))).
      cbn [app handle_inputs]. rewrite Hc. exact (run_ok _ _ _ _ _ Hcl). }
    all: done.
  - destruct (holding_overflows alice st k sB chunks [] ltac:(by compute) ltac:(by rewrite Hc)) as (n & _ & Ho).
    eexists. split; [rewrite Hst at 1; exact Ho|]. split; [done|]. by exists n.
Qed.
End Identify.

(** ** Witnesses *)

#[local] Existing Instance demo_crates.
#[local] Existing Instance demo_crates_spec.

Abbreviation DemoIdentify := (IdentifyProtocol (Multihash := Z * bytes)).
Definition id_alice : PeerIdentity.PeerId (Multihash := Z * bytes) := mkPeerId (18, replicate 32 x02).
Definition id_bob : PeerIdentity.PeerId (Multihash := Z * bytes) := mkPeerId (18, replicate 32 x03).
Definition demo_config : IdentifyConfig :=
  mkIdentifyConfig (str "ipfs/0.1.0") (str "minip2p/0.1.0") [str "/ipfs/ping/1.0.0"] (str "key").
Definition demo_sender : DemoIdentify := IdentifyProtocol_new demo_config.
Definition demo_state : PeerIdentifyState := mkPeerIdentify None {[ 7 := [] ]}.
Definition demo_receiver : DemoIdentify := mkIdentifyProtocol {[ id_alice := demo_state ]} [] [] demo_config.

Lemma identify_exchange_witness :
  ∃ sA' sB' wire, handle_input (IRegisterOutboundStream id_bob 3 None []) demo_sender = (sA', Ok tt) ∧
    handle_inputs ((IStreamData id_alice 7 <$> [take 5 wire; drop 5 wire]) ++ [IStreamRemoteWriteClosed id_alice 7]) demo_receiver =
      (sB', Ok tt) ∧
    id_events sB' = [Received id_alice (own_message (Multihash := Z * bytes) demo_config None [])].
Proof.
  destruct (identify_exchange id_alice id_bob 3 7 None [] demo_sender demo_receiver demo_state)
    as (sA' & wire & Hreg & Hact & Hrun).
  - reflexivity.
  - split_and!; repeat constructor; by vm_compute.
  - apply lookup_singleton_eq.
  - apply lookup_singleton_eq.
  - destruct (Hrun [take 5 wire; drop 5 wire]) as (sB' & Hb & _ & He).
    { cbn. rewrite app_nil_r. apply take_drop. }
    exists sA', sB', wire. split; [exact Hreg|]. split; [exact Hb|].
    cbn in Hreg. injection Hreg as <-. cbn in Hact. injection Hact as <-.
    replace (zlen _ <=? MAX_MESSAGE_SIZE) with true in He by (by vm_compute). exact (proj1 He).
Defined.

Lemma identify_runs_are_bounded_witness :
  let s := (handle_input (IRegisterOutboundStream id_alice 7 None []) demo_sender).1 in
  trace (λ _ _, True) demo_sender [] s ∧
  match (handle_input (IRegisterOutboundStream id_alice 8 None []) s).2 with
  | Ok _ => True | Err e => refusal s (IRegisterOutboundStream id_alice 8 None []) e | _ => False
  end.
Proof.
  intros s. assert (trace (λ _ _, True) demo_sender [] s) as Ht by (apply trace_input; [apply trace_start|done]).
  split; [exact Ht|]. exact (proj2 (identify_runs_are_bounded demo_config [] s (IRegisterOutboundStream id_alice 8 None []) Ht)).
Defined.
