(* ===== verification/Swarm.v ===== *)
(** The swarm's core, from [crates/swarm/src/core.rs] and [events.rs]: it turns
    the events of a transport into connections, negotiated streams and the ping
    and identify protocols, and the wishes of an application into actions for
    the driver. *)

From Stdlib Require Import Strings.Byte.
From S2P Require Import Prelude Varint Text SansIo Multistream Ping Base58 PeerIdentity Multiaddr Proto Identify.

Definition IDENTIFY_PROTOCOL_ID : bytes := str "/ipfs/id/1.0.0".
Definition RESERVED_PROTOCOL_IDS : list bytes := [IDENTIFY_PROTOCOL_ID; PING_PROTOCOL_ID].

(** A connection id and a stream id, both [u64]. *)
Abbreviation StreamKey := (Z * Z)%type.

Inductive ProtocolKind := PingKind | IdentifyResponder | IdentifyInitiator | User (protocol : bytes).
#[global] Instance ProtocolKind_eq_dec : EqDecision ProtocolKind.
Proof. solve_decision. Defined.
Definition is_user (k : ProtocolKind) : bool := match k with User _ => true | _ => false end.

Record PendingOutbound := mkPendingOutbound { negotiator : MultistreamSelect; target : ProtocolKind }.
Record PendingOpen := mkPendingOpen { open_conn_id : Z; open_protocol : bytes; open_target : ProtocolKind }.

Inductive ConnectionCloseCause := CloseTransport | CloseSuperseded.

Inductive SwarmErrorKind :=
  | KTransport | KMultistream | KIdentify | KPing | KIdentifyStreamRejected | KOpenStreamFailed | KUnsupportedProtocol | KDriver.

Definition push_unique (protocols : list bytes) (protocol_id : bytes) : list bytes :=
  if existsb (λ p, bool_decide (p = protocol_id)) protocols then protocols else protocols ++ [protocol_id].

Section Swarm.
Context `{HC : HashCrates Multihash} `{!EqDecision Multihash} `{!Countable Multihash}.
Abbreviation PeerId := (PeerIdentity.PeerId (Multihash := Multihash)).
Abbreviation Multiaddr := (Multiaddr.Multiaddr (Multihash := Multihash)).
(** The order of peer identifiers is that of the [multihash] crate. *)
Context `{BK : !BTreeKey PeerId}.
Abbreviation PingProtocol := (Ping.PingProtocol (PeerId := PeerId)).
Abbreviation PingError := (Ping.PingError (PeerId := PeerId)).
Abbreviation PingInput := (Ping.PingInput PeerId).
Abbreviation PingAction := (Ping.PingAction (PeerId := PeerId)).
Abbreviation PingEvent := (Ping.PingEvent (PeerId := PeerId)).
Abbreviation IdentifyInput := (Identify.IdentifyInput (Multihash := Multihash)).
Abbreviation IdentifyAction := (Identify.IdentifyAction (Multihash := Multihash)).
Abbreviation IdentifyEvent := (Identify.IdentifyEvent (Multihash := Multihash)).
Abbreviation IdentifyProtocol := (Identify.IdentifyProtocol (Multihash := Multihash)).
Abbreviation IdentifyError := (Identify.IdentifyError (Multihash := Multihash)).

(** ** Events, actions and errors *)

Record ConnectionEndpoint := mkEndpoint { transport : Multiaddr; endpoint_peer_id : option PeerId }.

Inductive TransportEvent :=
  | Connected (id : Z) (endpoint : ConnectionEndpoint)
  | TStreamOpened (id stream_id : Z)
  | IncomingStream (id stream_id : Z)
  | TStreamData (id stream_id : Z) (data : bytes)
  | TStreamRemoteWriteClosed (id stream_id : Z)
  | TStreamClosed (id stream_id : Z)
  | Closed (id : Z)
  | TError (id : Z) (message : bytes)
  | IncomingConnection (id : Z) (endpoint : ConnectionEndpoint)
  | PeerIdentityVerified (id : Z) (endpoint : ConnectionEndpoint) (previous_peer_id : option PeerId)
  | Listening (addr : Multiaddr).

Inductive SwarmError :=
  | NotConnected (peer_id : PeerId)
  | ProtocolNotRegistered (protocol_id : bytes)
  | ReservedProtocol (protocol_id : bytes)
  | RemoteDoesNotSupport (peer_id : PeerId) (protocol_id : bytes)
  | StreamNotFound (peer_id : PeerId) (stream_id : Z)
  | SwarmPingError (e : PingError).

(** The text of a runtime error: what is formatted into it. *)
Inductive Detail :=
  | DetailText (text : bytes)
  | DetailTransport (conn_id : Z) (message : bytes)
  | DetailUnknownToken (token : Z)
  | DetailWrongConnection (conn_id requested : Z)
  | DetailStartFailed (stream_id : Z) (e : MultistreamError)
  | DetailInputFailed (stream_id : Z) (e : MultistreamError)
  | DetailNotSupported (stream_id : Z)
  | DetailMultistream (stream_id : Z) (reason : bytes)
  | DetailOpenFailed (pending : option (bytes * Z)) (reason : bytes)
  | DetailQueueFailed (peer_id : PeerId) (e : SwarmError)
  | DetailIdentifyRefused (e : IdentifyError)
  | DetailPingRefused (e : PingError)
  | DetailPingViolation (peer_id : PeerId) (reason : bytes)
  | DetailIdentify (e : IdentifyFailure).

Record SwarmRuntimeError := mkRuntimeError {
  error_kind : SwarmErrorKind;
  error_peer_id : option PeerId;
  error_conn_id : option Z;
  error_stream_id : option Z;
  error_detail : Detail;
}.

Inductive SwarmEvent :=
  | ConnectionEstablished (peer_id : PeerId) (conn_id : Z)
  | ConnectionClosed (peer_id : PeerId) (conn_id : Z) (cause : ConnectionCloseCause)
  | IdentifyReceived (peer_id : PeerId) (info : IdentifyMessage)
  | PeerReady (peer_id : PeerId) (protocols : list bytes)
  | PingRttMeasured (peer_id : PeerId) (rtt_ms : Z)
  | PingTimeout (peer_id : PeerId)
  | StreamReady (peer_id : PeerId) (conn_id stream_id : Z) (protocol_id : bytes) (initiated_locally : bool)
  | StreamData (peer_id : PeerId) (conn_id stream_id : Z) (data : bytes)
  | StreamRemoteWriteClosed (peer_id : PeerId) (conn_id stream_id : Z)
  | StreamClosed (peer_id : PeerId) (conn_id stream_id : Z)
  | RuntimeErrorEvent (error : SwarmRuntimeError).

Definition matches_stream (peer_id : PeerId) (stream_id : Z) (e : SwarmEvent) : bool :=
  match e with
  | StreamReady peer _ stream _ _ | StreamData peer _ stream _ | StreamRemoteWriteClosed peer _ stream | StreamClosed peer _ stream =>
      bool_decide (peer = peer_id) && (stream =? stream_id)
  | _ => false
  end.

Inductive SwarmInput :=
  | Transport (event : TransportEvent) (now_ms : Z)
  | Tick (now_ms : Z)
  | StreamOpened (conn_id stream_id token : Z) (now_ms : Z)
  | OpenStreamFailed (token : Z) (reason : bytes) (now_ms : Z)
  | RuntimeError (error : SwarmRuntimeError).

Inductive SwarmAction :=
  | OpenStream (conn_id token : Z)
  | SendStream (conn_id stream_id : Z) (data : bytes)
  | CloseStreamWrite (conn_id stream_id : Z)
  | ResetStream (conn_id stream_id : Z)
  | CloseConnection (conn_id : Z).

Inductive SwarmOutput := Action (a : SwarmAction) | Event (e : SwarmEvent).

Definition stream_action_matches (a : SwarmAction) (conn_id stream_id : Z) : bool :=
  match a with
  | SendStream c s _ | CloseStreamWrite c s | ResetStream c s => (c =? conn_id) && (s =? stream_id)
  | _ => false
  end.
Definition connection_action_matches (a : SwarmAction) (conn_id : Z) : bool :=
  match a with
  | OpenStream c _ | SendStream c _ _ | CloseStreamWrite c _ | ResetStream c _ | CloseConnection c => c =? conn_id
  end.

(** ** The state *)

Record SwarmCore := mkSwarm {
  ping : PingProtocol;
  identify : IdentifyProtocol;
  conn_to_peer : gmap Z PeerId;
  peer_to_conn : gmap PeerId Z;
  conn_to_remote_addr : gmap Z Multiaddr;
  inbound_negotiators : gmap StreamKey MultistreamSelect;
  outbound_negotiators : gmap StreamKey PendingOutbound;
  stream_owner : gmap StreamKey ProtocolKind;
  reset_pending : gset StreamKey;
  abandoned_streams : gset StreamKey;
  pending_opens : gmap Z PendingOpen;
  next_open_token : Z;
  inbound_protocols : list bytes;
  outbound_protocols : list bytes;
  pending_pings : gmap PeerId bytes;
  ping_deadlines : gmap PeerId Z;
  ping_timeout_ms : Z;
  local_addresses : list Multiaddr;
  peer_info : gmap PeerId IdentifyMessage;
  ready_peers : gset PeerId;
  established_peers : gset PeerId;
  events : list SwarmEvent;
  actions : list SwarmAction;
  after_event_actions : list SwarmAction;
}.
Abbreviation W := (M SwarmCore SwarmError).

Definition SwarmCore_new (identify_config : IdentifyConfig) (ping_config : PingConfig) : SwarmCore :=
  {| ping := ping_new ping_config; identify := IdentifyProtocol_new identify_config;
     conn_to_peer := ∅; peer_to_conn := ∅; conn_to_remote_addr := ∅;
     inbound_negotiators := ∅; outbound_negotiators := ∅; stream_owner := ∅; reset_pending := ∅; abandoned_streams := ∅;
     pending_opens := ∅; next_open_token := 1;
     inbound_protocols := [IDENTIFY_PROTOCOL_ID; PING_PROTOCOL_ID]; outbound_protocols := [];
     pending_pings := ∅; ping_deadlines := ∅; ping_timeout_ms := request_timeout_ms ping_config;
     local_addresses := []; peer_info := ∅; ready_peers := ∅; established_peers := ∅;
     events := []; actions := []; after_event_actions := [] |}.

Definition push_event (e : SwarmEvent) : W unit := modify (λ s, {| s with events := events s ++ [e] |}).
Definition push_action (a : SwarmAction) : W unit := modify (λ s, {| s with actions := actions s ++ [a] |}).

(** A call on a machine that is a field; its error is a value, its panic a
    panic. *)
Definition nested {T E A} (get : SwarmCore → T) (put : T → SwarmCore → SwarmCore) (m : M T E A) : W (A + E) := λ s,
  match m (get s) with
  | (t, Ok a) => (put t s, Ok (inl a))
  | (t, Err e) => (put t s, Ok (inr e))
  | (t, Panic) => (put t s, Panic)
  | (t, Diverge) => (put t s, Diverge)
  end.
Definition on_ping {A} : M PingProtocol PingError A → W (A + PingError) := nested ping (λ p s, {| s with ping := p |}).
Definition on_identify {A} : M IdentifyProtocol IdentifyError A → W (A + IdentifyError) :=
  nested identify (λ i s, {| s with identify := i |}).

(** ** Lookups *)

Definition conn_for (s : SwarmCore) (peer_id : PeerId) : option Z := peer_to_conn s !! peer_id.
Definition connected_peers (s : SwarmCore) : list PeerId := merge_sort key_le (elements (established_peers s)).
Definition has_tracked_connections (s : SwarmCore) : bool := negb (bool_decide (conn_to_remote_addr s = ∅)).

(** [.iter().find_map(..)] over the streams, in the order of their keys. *)
Definition find_stream {A} (m : gmap StreamKey A) (f : StreamKey → A → bool) : option Z :=
  fst ∘ fst <$> head (filter (λ kv, f kv.1 kv.2 = true) (btree_iter m)).

Definition require_conn (peer_id : PeerId) : W Z := reads (λ s, ok_or (peer_to_conn s !! peer_id) (NotConnected peer_id)).
Definition user_stream_conn (s : SwarmCore) (peer_id : PeerId) (stream_id : Z) : option Z :=
  find_stream (stream_owner s) (λ k p, (k.2 =? stream_id) && is_user p && bool_decide (conn_to_peer s !! k.1 = Some peer_id)).
Definition require_stream_conn (peer_id : PeerId) (stream_id : Z) : W Z :=
  reads (λ s, ok_or (user_stream_conn s peer_id stream_id) (StreamNotFound peer_id stream_id)).
Definition conn_for_owned_stream (s : SwarmCore) (peer_id : PeerId) (stream_id : Z) (expected : ProtocolKind) : option Z :=
  find_stream (stream_owner s) (λ k p, (k.2 =? stream_id) && bool_decide (p = expected) && bool_decide (conn_to_peer s !! k.1 = Some peer_id)).
Definition established_peer_for_conn (s : SwarmCore) (conn_id : Z) : option PeerId :=
  match conn_to_peer s !! conn_id with
  | Some peer_id => if bool_decide (peer_id ∈ established_peers s) then Some peer_id else None
  | None => None
  end.

Definition emit_error_for_stream (kind : SwarmErrorKind) (peer_id : option PeerId) (conn_id stream_id : option Z) (detail : Detail) : W unit :=
  push_event (RuntimeErrorEvent (mkRuntimeError kind peer_id conn_id stream_id detail)).
Definition emit_error (kind : SwarmErrorKind) (peer_id : option PeerId) (conn_id : option Z) (detail : Detail) : W unit :=
  emit_error_for_stream kind peer_id conn_id None detail.

Definition try_emit_peer_ready (peer_id : PeerId) : W unit :=
  s ← gets id;
  if bool_decide (peer_id ∈ ready_peers s) then mret tt
  else
    match peer_info s !! peer_id with
    | None => mret tt
    | Some info =>
        if negb (bool_decide (is_Some (peer_to_conn s !! peer_id))) then mret tt
        else
          _ ← modify (λ s, {| s with ready_peers := {[peer_id]} ∪ ready_peers s |});
          push_event (PeerReady peer_id (id_protocols info))
    end.

Definition record_ping_deadline (peer_id : PeerId) (now_ms : Z) : W unit :=
  modify (λ s, {| s with ping_deadlines :=
    <[peer_id := saturating_add u64_max (saturating_add u64_max now_ms (ping_timeout_ms s)) 1]> (ping_deadlines s) |}).

Definition has_pending_ping_stream (s : SwarmCore) (peer_id : PeerId) : bool :=
  match peer_to_conn s !! peer_id with
  | None => false
  | Some conn =>
      existsb (λ kv : StreamKey * PendingOutbound, (kv.1.1 =? conn) && bool_decide (target kv.2 = PingKind)) (btree_iter (outbound_negotiators s)) ||
      existsb (λ kv : Z * PendingOpen, (open_conn_id kv.2 =? conn) && bool_decide (open_target kv.2 = PingKind)) (btree_iter (pending_opens s))
  end.

(** [loop]: zero is skipped. *)
Definition take_open_token : W Z :=
  raw ← gets next_open_token;
  _ ← modify (λ s, {| s with next_open_token := (next_open_token s + 1) mod (u64_max + 1) |});
  if negb (raw =? 0) then mret raw
  else
    raw ← gets next_open_token;
    _ ← modify (λ s, {| s with next_open_token := (next_open_token s + 1) mod (u64_max + 1) |});
    if negb (raw =? 0) then mret raw else lift Diverge.

(** The [debug_assert_eq!] of the source is a panic. *)
Definition queue_open_protocol_stream (peer_id : PeerId) (protocol_id : bytes) (target : ProtocolKind) : W unit :=
  conn_id ← require_conn peer_id;
  _ ← reads (λ s, if bool_decide (conn_to_peer s !! conn_id = Some peer_id) then Ok tt else Panic);
  token ← take_open_token;
  _ ← modify (λ s, {| s with pending_opens := <[token := mkPendingOpen conn_id protocol_id target]> (pending_opens s) |});
  push_action (OpenStream conn_id token).

Definition ensure_peer_id_for_conn (conn_id : Z) : W PeerId :=
  known ← gets (λ s, conn_to_peer s !! conn_id);
  match known with
  | Some peer_id => mret peer_id
  | None =>
      peer_id ← lift (match from_public_key_protobuf (str "minip2p-synthetic-conn-" ++ dec conn_id) with
                      | Ok p => Ok p | Err _ => Panic | Panic => Panic | Diverge => Diverge end);
      _ ← modify (λ s, {| s with conn_to_peer := <[conn_id := peer_id]> (conn_to_peer s);
                                 peer_to_conn := <[peer_id := conn_id]> (peer_to_conn s) |});
      mret peer_id
  end.

(** ** The protocols inside *)

Definition inform_ping (i : PingInput) : W unit := _ ← on_ping (Ping.handle_input i); mret tt.
Definition inform_identify (i : IdentifyInput) : W unit := _ ← on_identify (Identify_handle_input i); mret tt.

Definition on_owned_ping_stream (peer_id : PeerId) (stream_id : Z) (action : Z → SwarmAction) : W unit :=
  conn ← gets (λ s, conn_for_owned_stream s peer_id stream_id PingKind);
  match conn with Some conn_id => push_action (action conn_id) | None => mret tt end.
Definition execute_ping_action (a : PingAction) : W unit :=
  match a with
  | Ping.Send peer_id stream_id data => on_owned_ping_stream peer_id stream_id (λ conn_id, SendStream conn_id stream_id data)
  | Ping.CloseStreamWrite peer_id stream_id => on_owned_ping_stream peer_id stream_id (λ conn_id, CloseStreamWrite conn_id stream_id)
  | Ping.ResetStream peer_id stream_id => on_owned_ping_stream peer_id stream_id (λ conn_id, ResetStream conn_id stream_id)
  end.

Definition execute_identify_action (a : IdentifyAction) : W unit :=
  match a with
  | ISend peer_id stream_id data =>
      conn ← gets (λ s, peer_to_conn s !! peer_id);
      match conn with Some conn_id => push_action (SendStream conn_id stream_id data) | None => mret tt end
  | ICloseStreamWrite peer_id stream_id =>
      conn ← gets (λ s, peer_to_conn s !! peer_id);
      match conn with Some conn_id => push_action (CloseStreamWrite conn_id stream_id) | None => mret tt end
  end.

Definition disarm_ping (peer_id : PeerId) : W unit := modify (λ s, {| s with ping_deadlines := delete peer_id (ping_deadlines s) |}).
Definition handle_ping_event (e : PingEvent) : W unit :=
  match e with
  | RttMeasured peer_id _ rtt_ms => _ ← disarm_ping peer_id; push_event (PingRttMeasured peer_id rtt_ms)
  | Timeout peer_id _ _ => _ ← disarm_ping peer_id; push_event (PingTimeout peer_id)
  | OutboundStreamClosed peer_id _ => disarm_ping peer_id
  | ProtocolViolation peer_id _ reason =>
      conn ← gets (λ s, conn_for s peer_id);
      emit_error KPing (Some peer_id) conn (DetailPingViolation peer_id reason)
  | _ => mret tt
  end.

Definition handle_identify_event (e : IdentifyEvent) : W unit :=
  match e with
  | Received peer_id info =>
      _ ← modify (λ s, {| s with peer_info := <[peer_id := info]> (peer_info s) |});
      _ ← push_event (IdentifyReceived peer_id info);
      try_emit_peer_ready peer_id
  | IError _ _ error => emit_error KIdentify None None (DetailIdentify error)
  end.

(** [while let Some(output) = .. poll_output() { .. }]; [poll_output] has no
    error. *)
Fixpoint drain_nested {Output Error} (poll : W (option Output + Error)) (handle : Output → W unit) (fuel : nat) : W unit :=
  o ← poll;
  match o, fuel with
  | inr _, _ => lift Panic
  | inl None, _ => mret tt
  | inl (Some _), O => lift Diverge
  | inl (Some o), S fuel => _ ← handle o; drain_nested poll handle fuel
  end.
Definition handle_ping_output (o : Ping.PingOutput) : W unit :=
  match o with Ping.Action a => execute_ping_action a | Ping.Event e => handle_ping_event e end.
Definition handle_identify_output (o : IdentifyOutput) : W unit :=
  match o with IAction a => execute_identify_action a | IEvent e => handle_identify_event e end.
Definition drain_ping_outputs : W unit := λ s,
  drain_nested (on_ping Ping.poll_output) handle_ping_output
    (length (pending_actions (ping s)) + length (pending_events (ping s))) s.
Definition drain_identify_outputs : W unit := λ s,
  drain_nested (on_identify Identify_poll_output) handle_identify_output
    (length (id_actions (identify s)) + length (id_events (identify s))) s.
Definition collect_protocol_events : W unit := _ ← drain_ping_outputs; drain_identify_outputs.

(** ** Connections *)

(** [.retain(|(cid, _)| *cid != conn_id)], on each of the maps and sets of
    streams, and on the opens. *)
Definition forget_connection (conn_id : Z) : W unit :=
  modify (λ s, {| s with
    stream_owner := filter (λ kv, kv.1.1 ≠ conn_id) (stream_owner s);
    reset_pending := filter (λ k, k.1 ≠ conn_id) (reset_pending s);
    abandoned_streams := filter (λ k, k.1 ≠ conn_id) (abandoned_streams s);
    inbound_negotiators := filter (λ kv, kv.1.1 ≠ conn_id) (inbound_negotiators s);
    outbound_negotiators := filter (λ kv, kv.1.1 ≠ conn_id) (outbound_negotiators s);
    pending_opens := filter (λ kv, open_conn_id kv.2 ≠ conn_id) (pending_opens s) |}).

(** What is known of a peer, beside its connection. *)
Definition forget_peer (peer_id : PeerId) : W unit :=
  modify (λ s, {| s with
    ping_deadlines := delete peer_id (ping_deadlines s);
    peer_info := delete peer_id (peer_info s);
    ready_peers := ready_peers s ∖ {[peer_id]};
    established_peers := established_peers s ∖ {[peer_id]} |}).

Definition queue_ping (peer_id : PeerId) (payload : bytes) : W unit :=
  modify (λ s, {| s with pending_pings := <[peer_id := payload]> (pending_pings s) |}).
Definition supersede_peer (old_id : Z) (peer_id : PeerId) : W unit :=
  _ ← modify (λ s, {| s with conn_to_peer := delete old_id (conn_to_peer s) |});
  _ ← push_event (ConnectionClosed peer_id old_id CloseSuperseded);
  pending_ping ← gets (λ s, pending_pings s !! peer_id);
  _ ← modify (λ s, {| s with pending_pings := delete peer_id (pending_pings s) |});
  _ ← inform_ping (Ping.RemovePeer peer_id);
  _ ← inform_identify (IRemovePeer peer_id);
  _ ← drain_ping_outputs;
  _ ← drain_identify_outputs;
  _ ← match pending_ping with Some payload => queue_ping peer_id payload | None => mret tt end;
  forget_peer peer_id.
Definition supersede_connection (old_id : Z) : W unit :=
  owner ← gets (λ s, conn_to_peer s !! old_id);
  _ ← match owner with Some peer_id => supersede_peer old_id peer_id | None => mret tt end;
  _ ← modify (λ s, {| s with conn_to_remote_addr := delete old_id (conn_to_remote_addr s) |});
  _ ← forget_connection old_id;
  modify (λ s, {| s with
    actions := filter (λ a, connection_action_matches a old_id = false) (actions s);
    after_event_actions :=
      filter (λ a, connection_action_matches a old_id = false) (after_event_actions s) ++ [CloseConnection old_id] |}).

(** [if let Err(e) = self.queue_open_protocol_stream(..)]: the error becomes an
    event. *)
Definition queue_or_report (kind : SwarmErrorKind) (conn_id : Z) (peer_id : PeerId) (protocol_id : bytes) (target : ProtocolKind) : W unit := λ s,
  match queue_open_protocol_stream peer_id protocol_id target s with
  | (s', Err e) => emit_error kind (Some peer_id) (Some conn_id) (DetailQueueFailed peer_id e) s'
  | out => out
  end.

Definition register_connection (conn_id : Z) (peer_id : PeerId) : W unit :=
  is_new ← gets (λ s, negb (bool_decide (is_Some (conn_to_peer s !! conn_id))));
  existing ← gets (λ s, peer_to_conn s !! peer_id);
  _ ← match existing with
      | Some existing_id => if negb (existing_id =? conn_id) then supersede_connection existing_id else mret tt
      | None => mret tt
      end;
  _ ← modify (λ s, {| s with conn_to_peer := <[conn_id := peer_id]> (conn_to_peer s);
                             peer_to_conn := <[peer_id := conn_id]> (peer_to_conn s) |});
  if negb is_new then mret tt
  else
    _ ← modify (λ s, {| s with established_peers := {[peer_id]} ∪ established_peers s |});
    _ ← push_event (ConnectionEstablished peer_id conn_id);
    _ ← queue_or_report KIdentify conn_id peer_id IDENTIFY_PROTOCOL_ID IdentifyInitiator;
    again ← gets (λ s, bool_decide (is_Some (pending_pings s !! peer_id)) &&
                       bool_decide (outbound_stream_of (ping s) peer_id = None) && negb (has_pending_ping_stream s peer_id));
    if again : bool then queue_or_report KPing conn_id peer_id PING_PROTOCOL_ID PingKind else mret tt.

Definition rename_peer (old new peer_id : PeerId) : PeerId := if bool_decide (peer_id = old) then new else peer_id.
Definition migrate_event (old new : PeerId) (e : SwarmEvent) : SwarmEvent :=
  let r := rename_peer old new in
  match e with
  | ConnectionEstablished p c => ConnectionEstablished (r p) c
  | ConnectionClosed p c cause => ConnectionClosed (r p) c cause
  | PingTimeout p => PingTimeout (r p)
  | IdentifyReceived p info => IdentifyReceived (r p) info
  | PingRttMeasured p rtt => PingRttMeasured (r p) rtt
  | StreamReady p c st protocol local => StreamReady (r p) c st protocol local
  | StreamData p c st data => StreamData (r p) c st data
  | StreamRemoteWriteClosed p c st => StreamRemoteWriteClosed (r p) c st
  | StreamClosed p c st => StreamClosed (r p) c st
  | PeerReady p protocols => PeerReady (r p) protocols
  | RuntimeErrorEvent error => RuntimeErrorEvent {| error with error_peer_id := r <$> error_peer_id error |}
  end.
Definition migrate_buffered_events (old new : PeerId) : W unit := modify (λ s, {| s with events := migrate_event old new <$> events s |}).

(** [if let Some(x) = map.remove(old) { map.insert(new, x) }]. *)
Definition move_key {A} (old new : PeerId) (m : gmap PeerId A) : gmap PeerId A :=
  match m !! old with Some x => <[new := x]> (delete old m) | None => m end.
Definition move_member (old new : PeerId) (x : gset PeerId) : gset PeerId :=
  if bool_decide (old ∈ x) then {[new]} ∪ (x ∖ {[old]}) else x.

Definition migrate_peer_state (stale new_peer_id : PeerId) : W unit :=
  _ ← modify (λ s, {| s with peer_to_conn := delete stale (peer_to_conn s) |});
  _ ← inform_ping (Ping.MigratePeer stale new_peer_id);
  _ ← inform_identify (IMigratePeer stale new_peer_id);
  _ ← drain_ping_outputs;
  _ ← drain_identify_outputs;
  _ ← modify (λ s, {| s with
        pending_pings := move_key stale new_peer_id (pending_pings s);
        ping_deadlines := move_key stale new_peer_id (ping_deadlines s);
        peer_info := move_key stale new_peer_id (peer_info s);
        ready_peers := move_member stale new_peer_id (ready_peers s);
        established_peers := move_member stale new_peer_id (established_peers s) |});
  migrate_buffered_events stale new_peer_id.

Definition upgrade_connection_identity (conn_id : Z) (new_peer_id : PeerId) : W unit :=
  existing ← gets (λ s, conn_to_peer s !! conn_id);
  if bool_decide (existing = Some new_peer_id) then mret tt
  else
    _ ← match existing with Some stale => migrate_peer_state stale new_peer_id | None => mret tt end;
    _ ← modify (λ s, {| s with conn_to_peer := <[conn_id := new_peer_id]> (conn_to_peer s);
                               peer_to_conn := <[new_peer_id := conn_id]> (peer_to_conn s);
                               established_peers := {[new_peer_id]} ∪ established_peers s |});
    _ ← push_event (ConnectionEstablished new_peer_id conn_id);
    _ ← try_emit_peer_ready new_peer_id;
    queue_or_report KIdentify conn_id new_peer_id IDENTIFY_PROTOCOL_ID IdentifyInitiator.

(** The peer of the connection, if it is its active one. *)
Definition close_active (conn_id : Z) (peer_id : PeerId) : W unit :=
  _ ← modify (λ s, {| s with peer_to_conn := delete peer_id (peer_to_conn s) |});
  _ ← inform_ping (Ping.RemovePeer peer_id);
  _ ← inform_identify (IRemovePeer peer_id);
  _ ← drain_ping_outputs;
  _ ← drain_identify_outputs;
  _ ← modify (λ s, {| s with pending_pings := delete peer_id (pending_pings s) |});
  _ ← forget_peer peer_id;
  push_event (ConnectionClosed peer_id conn_id CloseTransport).
Definition handle_connection_closed (conn_id : Z) : W unit :=
  _ ← modify (λ s, {| s with conn_to_remote_addr := delete conn_id (conn_to_remote_addr s) |});
  owner ← gets (λ s, conn_to_peer s !! conn_id);
  _ ← match owner with
      | None => mret tt
      | Some peer_id =>
          _ ← modify (λ s, {| s with conn_to_peer := delete conn_id (conn_to_peer s) |});
          was_active ← gets (λ s, bool_decide (peer_to_conn s !! peer_id = Some conn_id));
          if was_active : bool then close_active conn_id peer_id else mret tt
      end;
  forget_connection conn_id.

(** ** Negotiation *)

(** A call on the negotiator of a stream, through [get_mut]: [None] if there is
    none. *)
Definition entry_call {T A} (get : SwarmCore → option T) (put : T → SwarmCore → SwarmCore) (sel : T → MultistreamSelect)
    (upd : MultistreamSelect → T → T) (m : M MultistreamSelect MultistreamError A) : W (option (A + MultistreamError)) := λ s,
  match get s with
  | None => (s, Ok None)
  | Some t =>
      match m (sel t) with
      | (n, Ok a) => (put (upd n t) s, Ok (Some (inl a)))
      | (n, Err e) => (put (upd n t) s, Ok (Some (inr e)))
      | (n, Panic) => (put (upd n t) s, Panic)
      | (n, Diverge) => (put (upd n t) s, Diverge)
      end
  end.
Definition put_inbound (key : StreamKey) (n : MultistreamSelect) (s : SwarmCore) : SwarmCore :=
  {| s with inbound_negotiators := <[key := n]> (inbound_negotiators s) |}.
Definition put_outbound (key : StreamKey) (p : PendingOutbound) (s : SwarmCore) : SwarmCore :=
  {| s with outbound_negotiators := <[key := p]> (outbound_negotiators s) |}.
Definition on_inbound {A} (key : StreamKey) (m : M MultistreamSelect MultistreamError A) : W (option (A + MultistreamError)) :=
  entry_call (λ s, inbound_negotiators s !! key) (put_inbound key) id (λ n _, n) m.
Definition on_outbound {A} (key : StreamKey) (m : M MultistreamSelect MultistreamError A) : W (option (A + MultistreamError)) :=
  entry_call (λ s, outbound_negotiators s !! key) (put_outbound key) negotiator (λ n p, {| p with negotiator := n |}) m.
Definition remove_inbound (key : StreamKey) : W unit :=
  modify (λ s, {| s with inbound_negotiators := delete key (inbound_negotiators s) |}).
Definition remove_outbound (key : StreamKey) : W unit :=
  modify (λ s, {| s with outbound_negotiators := delete key (outbound_negotiators s) |}).

(** [poll_output] has no error. *)
Definition polled {A} (o : option (option A + MultistreamError)) : res SwarmError (option A) :=
  match o with None => Ok None | Some (inl o) => Ok o | Some (inr _) => Panic end.

Definition established_error (kind : SwarmErrorKind) (conn_id stream_id : Z) (detail : Detail) : W unit :=
  peer_id ← gets (λ s, established_peer_for_conn s conn_id);
  emit_error_for_stream kind peer_id (Some conn_id) (Some stream_id) detail.

(** Returns whether the stream failed; [negotiated_protocol] is a [&mut]. *)
Definition handle_multistream_output (conn_id stream_id : Z) (output : MultistreamOutput) (negotiated_protocol : option bytes)
    : W (bool * option bytes) :=
  match output with
  | OutboundData bs => _ ← push_action (SendStream conn_id stream_id bs); mret (false, negotiated_protocol)
  | Negotiated protocol => mret (false, Some protocol)
  | NotAvailable => mret (false, negotiated_protocol)
  | ProtocolError reason =>
      _ ← established_error KMultistream conn_id stream_id (DetailMultistream stream_id reason);
      mret (true, negotiated_protocol)
  end.

Definition set_owner (key : StreamKey) (kind : ProtocolKind) : W unit :=
  modify (λ s, {| s with stream_owner := <[key := kind]> (stream_owner s) |}).

Definition dispatch_protocol_data (conn_id stream_id : Z) (data : bytes) (now_ms : Z) : W unit :=
  owner ← gets (λ s, stream_owner s !! (conn_id, stream_id));
  match owner with
  | None => mret tt
  | Some protocol =>
      peer_id ← ensure_peer_id_for_conn conn_id;
      match protocol with
      | PingKind => _ ← inform_ping (Ping.StreamData peer_id stream_id data now_ms); drain_ping_outputs
      | IdentifyInitiator => _ ← inform_identify (IStreamData peer_id stream_id data); drain_identify_outputs
      | IdentifyResponder => mret tt
      | User _ => push_event (StreamData peer_id conn_id stream_id data)
      end
  end.

Definition on_inbound_negotiated (conn_id stream_id : Z) (protocol : bytes) : W unit :=
  peer_id ← ensure_peer_id_for_conn conn_id;
  if bool_decide (protocol = PING_PROTOCOL_ID) then
    _ ← set_owner (conn_id, stream_id) PingKind;
    _ ← inform_ping (Ping.RegisterInboundStream peer_id stream_id);
    drain_ping_outputs
  else if bool_decide (protocol = IDENTIFY_PROTOCOL_ID) then
    observed ← gets (λ s, conn_to_remote_addr s !! conn_id);
    listen ← gets local_addresses;
    r ← on_identify (Identify_handle_input (IRegisterOutboundStream peer_id stream_id observed listen));
    match r with
    | inl _ => _ ← set_owner (conn_id, stream_id) IdentifyResponder; drain_identify_outputs
    | inr e =>
        _ ← emit_error KIdentifyStreamRejected (Some peer_id) (Some conn_id) (DetailIdentifyRefused e);
        push_action (ResetStream conn_id stream_id)
    end
  else
    registered ← gets (λ s, existsb (λ p, bool_decide (p = protocol)) (inbound_protocols s));
    if registered : bool then
      _ ← set_owner (conn_id, stream_id) (User protocol);
      push_event (StreamReady peer_id conn_id stream_id protocol false)
    else mret tt.

Definition send_pending_ping (conn_id : Z) (peer_id : PeerId) (now_ms : Z) : W unit :=
  pending ← gets (λ s, pending_pings s !! peer_id);
  match pending with
  | None => mret tt
  | Some payload =>
      _ ← modify (λ s, {| s with pending_pings := delete peer_id (pending_pings s) |});
      r ← on_ping (Ping.handle_input (Ping.SendPing peer_id payload now_ms));
      match r with
      | inl _ => _ ← record_ping_deadline peer_id now_ms; drain_ping_outputs
      | inr e => emit_error KPing (Some peer_id) (Some conn_id) (DetailPingRefused e)
      end
  end.

Definition on_outbound_negotiated (conn_id stream_id : Z) (target : ProtocolKind) (now_ms : Z) : W unit :=
  peer_id ← ensure_peer_id_for_conn conn_id;
  _ ← set_owner (conn_id, stream_id) target;
  match target with
  | PingKind =>
      r ← on_ping (Ping.handle_input (Ping.RegisterOutboundStream peer_id stream_id));
      match r with
      | inr e =>
          _ ← emit_error KPing (Some peer_id) (Some conn_id) (DetailPingRefused e);
          _ ← modify (λ s, {| s with stream_owner := delete (conn_id, stream_id) (stream_owner s) |});
          push_action (ResetStream conn_id stream_id)
      | inl _ => _ ← drain_ping_outputs; send_pending_ping conn_id peer_id now_ms
      end
  | IdentifyInitiator => _ ← inform_identify (IRegisterInboundStream peer_id stream_id); drain_identify_outputs
  | IdentifyResponder => mret tt
  | User protocol_id => push_event (StreamReady peer_id conn_id stream_id protocol_id true)
  end.

(** The [while let] loops take one queued output a round. [None]: the stream
    failed. *)
Definition queued (n : option MultistreamSelect) : nat := length (default [] (pending_outputs <$> n)).
Fixpoint drain_inbound (fuel : nat) (conn_id stream_id : Z) (negotiated : option bytes) : W (option (option bytes)) :=
  o ← on_inbound (conn_id, stream_id) Multistream.poll_output;
  o ← lift (polled o);
  match o, fuel with
  | None, _ => mret (Some negotiated)
  | Some _, O => lift Diverge
  | Some output, S fuel =>
      '(failed, negotiated) ← handle_multistream_output conn_id stream_id output negotiated;
      if failed : bool then mret None else drain_inbound fuel conn_id stream_id negotiated
  end.
(** The loop of [handle_incoming_stream], which passes [&mut None] and ignores
    what is returned. *)
Fixpoint flush_inbound (fuel : nat) (conn_id stream_id : Z) : W unit :=
  o ← on_inbound (conn_id, stream_id) Multistream.poll_output;
  o ← lift (polled o);
  match o, fuel with
  | None, _ => mret tt
  | Some _, O => lift Diverge
  | Some output, S fuel =>
      _ ← handle_multistream_output conn_id stream_id output None;
      flush_inbound fuel conn_id stream_id
  end.
Fixpoint drain_outbound (fuel : nat) (conn_id stream_id : Z) (negotiated : bool) : W (option bool) :=
  o ← on_outbound (conn_id, stream_id) Multistream.poll_output;
  o ← lift (polled o);
  match o, fuel with
  | None, _ => mret (Some negotiated)
  | Some _, O => lift Diverge
  | Some (Negotiated _), S fuel => drain_outbound fuel conn_id stream_id true
  | Some NotAvailable, S fuel =>
      _ ← established_error KUnsupportedProtocol conn_id stream_id (DetailNotSupported stream_id);
      mret None
  | Some output, S fuel =>
      '(failed, _) ← handle_multistream_output conn_id stream_id output None;
      if failed : bool then mret None else drain_outbound fuel conn_id stream_id negotiated
  end.
(** The loop of [handle_stream_opened], on a negotiator of its own. *)
Fixpoint flush_dialer (fuel : nat) (conn_id stream_id : Z) (n : MultistreamSelect) : W MultistreamSelect :=
  match Multistream.poll_output n, fuel with
  | (n, Ok None), _ => mret n
  | (n, Ok (Some output)), S fuel =>
      _ ← handle_multistream_output conn_id stream_id output None;
      flush_dialer fuel conn_id stream_id n
  | (n, Ok (Some output)), O => lift Diverge
  | (n, _), _ => lift Panic
  end.

(** [take_remaining_buffer], or nothing if there is no negotiator. *)
Definition remaining (o : option (bytes + MultistreamError)) : res SwarmError bytes :=
  match o with None => Ok [] | Some (inl b) => Ok b | Some (inr _) => Panic end.
Definition dispatch_remaining (conn_id stream_id : Z) (rest : bytes) (now_ms : Z) : W unit :=
  if bool_decide (rest = []) then mret tt else dispatch_protocol_data conn_id stream_id rest now_ms.

Definition feed_inbound_negotiator (conn_id stream_id : Z) (data : bytes) (now_ms : Z) : W unit :=
  let key := (conn_id, stream_id) in
  r ← on_inbound key (Multistream.handle_input (Data data));
  match r with
  | None => mret tt
  | Some (inr error) =>
      _ ← established_error KMultistream conn_id stream_id (DetailInputFailed stream_id error);
      _ ← remove_inbound key;
      push_action (ResetStream conn_id stream_id)
  | Some (inl _) =>
      fuel ← gets (λ s, queued (inbound_negotiators s !! key));
      r ← drain_inbound fuel conn_id stream_id None;
      match r with
      | None => _ ← remove_inbound key; push_action (ResetStream conn_id stream_id)
      | Some None => mret tt
      | Some (Some protocol) =>
          rest ← on_inbound key take_remaining_buffer;
          rest ← lift (remaining rest);
          _ ← remove_inbound key;
          _ ← on_inbound_negotiated conn_id stream_id protocol;
          dispatch_remaining conn_id stream_id rest now_ms
      end
  end.

Definition feed_outbound_negotiator (conn_id stream_id : Z) (data : bytes) (now_ms : Z) : W unit :=
  let key := (conn_id, stream_id) in
  r ← on_outbound key (Multistream.handle_input (Data data));
  pending ← gets (λ s, outbound_negotiators s !! key);
  match r, pending with
  | None, _ | _, None => mret tt
  | Some (inr error), _ =>
      _ ← established_error KMultistream conn_id stream_id (DetailInputFailed stream_id error);
      _ ← remove_outbound key;
      push_action (ResetStream conn_id stream_id)
  | Some (inl _), Some pending =>
      r ← drain_outbound (queued (Some (negotiator pending))) conn_id stream_id false;
      match r with
      | None => _ ← remove_outbound key; push_action (ResetStream conn_id stream_id)
      | Some false => mret tt
      | Some true =>
          rest ← on_outbound key take_remaining_buffer;
          rest ← lift (remaining rest);
          _ ← remove_outbound key;
          _ ← on_outbound_negotiated conn_id stream_id (target pending) now_ms;
          dispatch_remaining conn_id stream_id rest now_ms
      end
  end.

(** ** Events of the transport and reports of the driver *)

Definition handle_incoming_stream (conn_id stream_id : Z) : W unit :=
  protocols ← gets inbound_protocols;
  let '(n, r) := Multistream.handle_input Start (listener protocols) in
  _ ← match r with
      | Ok _ => mret tt
      | Err error =>
          peer_id ← gets (λ s, established_peer_for_conn s conn_id);
          emit_error KMultistream peer_id (Some conn_id) (DetailStartFailed stream_id error)
      | Panic => lift Panic
      | Diverge => lift Diverge
      end;
  _ ← modify (put_inbound (conn_id, stream_id) n);
  flush_inbound (length (pending_outputs n)) conn_id stream_id.

Definition handle_stream_data (conn_id stream_id : Z) (data : bytes) (now_ms : Z) : W unit :=
  let key := (conn_id, stream_id) in
  inbound ← gets (λ s, bool_decide (is_Some (inbound_negotiators s !! key)));
  if inbound : bool then feed_inbound_negotiator conn_id stream_id data now_ms
  else
    outbound ← gets (λ s, bool_decide (is_Some (outbound_negotiators s !! key)));
    if outbound : bool then feed_outbound_negotiator conn_id stream_id data now_ms
    else dispatch_protocol_data conn_id stream_id data now_ms.

Definition handle_stream_remote_write_closed (conn_id stream_id : Z) : W unit :=
  owner ← gets (λ s, stream_owner s !! (conn_id, stream_id));
  match owner with
  | None => mret tt
  | Some protocol =>
      peer_id ← ensure_peer_id_for_conn conn_id;
      match protocol with
      | PingKind => _ ← inform_ping (Ping.StreamRemoteWriteClosed peer_id stream_id); drain_ping_outputs
      | IdentifyInitiator => _ ← inform_identify (IStreamRemoteWriteClosed peer_id stream_id); drain_identify_outputs
      | IdentifyResponder => mret tt
      | User _ => push_event (StreamRemoteWriteClosed peer_id conn_id stream_id)
      end
  end.

Definition remove_negotiators (key : StreamKey) : W unit := _ ← remove_inbound key; remove_outbound key.
Definition close_owned (conn_id stream_id : Z) : W unit :=
  owner ← gets (λ s, stream_owner s !! (conn_id, stream_id));
  match owner with
  | None => mret tt
  | Some protocol =>
      _ ← modify (λ s, {| s with stream_owner := delete (conn_id, stream_id) (stream_owner s) |});
      peer ← gets (λ s, conn_to_peer s !! conn_id);
      match peer with
      | None => mret tt
      | Some peer_id =>
          match protocol with
          | PingKind => _ ← inform_ping (Ping.StreamClosed peer_id stream_id); drain_ping_outputs
          | IdentifyInitiator | IdentifyResponder => _ ← inform_identify (IStreamClosed peer_id stream_id); drain_identify_outputs
          | User _ => push_event (StreamClosed peer_id conn_id stream_id)
          end
      end
  end.
Definition handle_stream_closed (conn_id stream_id : Z) : W unit :=
  let key := (conn_id, stream_id) in
  _ ← modify (λ s, {| s with reset_pending := reset_pending s ∖ {[key]} |});
  abandoned ← gets (λ s, bool_decide (key ∈ abandoned_streams s));
  if abandoned : bool then
    _ ← modify (λ s, {| s with abandoned_streams := abandoned_streams s ∖ {[key]} |});
    remove_negotiators key
  else
    _ ← close_owned conn_id stream_id;
    remove_negotiators key.

Definition record_remote_addr (conn_id : Z) (endpoint : ConnectionEndpoint) : W unit :=
  modify (λ s, {| s with conn_to_remote_addr := <[conn_id := transport endpoint]> (conn_to_remote_addr s) |}).

Definition handle_transport_event (event : TransportEvent) (now_ms : Z) : W unit :=
  match event with
  | Connected conn_id endpoint =>
      _ ← record_remote_addr conn_id endpoint;
      match endpoint_peer_id endpoint with
      | Some peer_id => register_connection conn_id peer_id
      | None => _ ← ensure_peer_id_for_conn conn_id; mret tt
      end
  | PeerIdentityVerified conn_id endpoint _ =>
      _ ← record_remote_addr conn_id endpoint;
      match endpoint_peer_id endpoint with
      | Some peer_id => upgrade_connection_identity conn_id peer_id
      | None => mret tt
      end
  | IncomingConnection conn_id endpoint => record_remote_addr conn_id endpoint
  | IncomingStream conn_id stream_id => handle_incoming_stream conn_id stream_id
  | TStreamOpened _ _ => mret tt
  | TStreamData conn_id stream_id data => handle_stream_data conn_id stream_id data now_ms
  | TStreamRemoteWriteClosed conn_id stream_id => handle_stream_remote_write_closed conn_id stream_id
  | TStreamClosed conn_id stream_id => handle_stream_closed conn_id stream_id
  | Closed conn_id => handle_connection_closed conn_id
  | Listening _ => mret tt
  | TError conn_id message =>
      peer_id ← gets (λ s, established_peer_for_conn s conn_id);
      emit_error KTransport peer_id (Some conn_id) (DetailTransport conn_id message)
  end.

Definition handle_tick (now_ms : Z) : W unit :=
  _ ← inform_ping (Ping.Tick now_ms);
  _ ← collect_protocol_events;
  modify (λ s, {| s with ping_deadlines := filter (λ kv, now_ms < kv.2) (ping_deadlines s) |}).

Definition take_pending_open (token : Z) : W (option PendingOpen) :=
  pending ← gets (λ s, pending_opens s !! token);
  _ ← modify (λ s, {| s with pending_opens := delete token (pending_opens s) |});
  mret pending.

Definition handle_stream_opened (conn_id stream_id token : Z) (now_ms : Z) : W unit :=
  pending ← take_pending_open token;
  match pending with
  | None => emit_error KDriver None None (DetailUnknownToken token)
  | Some pending =>
      if negb (open_conn_id pending =? conn_id) then
        peer_id ← gets (λ s, established_peer_for_conn s conn_id);
        emit_error KDriver peer_id (Some conn_id) (DetailWrongConnection conn_id (open_conn_id pending))
      else
        let '(n, r) := Multistream.handle_input Start (dialer (open_protocol pending)) in
        _ ← match r with
            | Ok _ => mret tt
            | Err error => established_error KMultistream conn_id stream_id (DetailStartFailed stream_id error)
            | Panic => lift Panic
            | Diverge => lift Diverge
            end;
        n ← flush_dialer (length (pending_outputs n)) conn_id stream_id n;
        modify (put_outbound (conn_id, stream_id) (mkPendingOutbound n (open_target pending)))
  end.

Definition handle_open_stream_failed (token : Z) (reason : bytes) (now_ms : Z) : W unit :=
  pending ← take_pending_open token;
  match pending with
  | Some p =>
      peer_id ← gets (λ s, established_peer_for_conn s (open_conn_id p));
      emit_error KOpenStreamFailed peer_id (Some (open_conn_id p)) (DetailOpenFailed (Some (open_protocol p, open_conn_id p)) reason)
  | None => emit_error KOpenStreamFailed None None (DetailOpenFailed None reason)
  end.

Definition record_runtime_error (error : SwarmRuntimeError) : W unit := push_event (RuntimeErrorEvent error).

Definition handle_input (input : SwarmInput) : W unit :=
  match input with
  | Transport event now_ms => handle_transport_event event now_ms
  | Tick now_ms => handle_tick now_ms
  | StreamOpened conn_id stream_id token now_ms => handle_stream_opened conn_id stream_id token now_ms
  | OpenStreamFailed token reason now_ms => handle_open_stream_failed token reason now_ms
  | RuntimeError error => record_runtime_error error
  end.

Definition poll_output : W (option SwarmOutput) := λ s,
  match actions s with
  | a :: rest => ({| s with actions := rest |}, Ok (Some (Action a)))
  | [] =>
      match events s with
      | e :: rest => ({| s with events := rest |}, Ok (Some (Event e)))
      | [] =>
          match after_event_actions s with
          | a :: rest => ({| s with after_event_actions := rest |}, Ok (Some (Action a)))
          | [] => (s, Ok None)
          end
      end
  end.
Definition is_idle (s : SwarmCore) : bool :=
  bool_decide (actions s = []) && bool_decide (events s = []) && bool_decide (after_event_actions s = []).
Definition next_timeout (s : SwarmCore) (now_ms : Z) : option Z :=
  match (btree_iter (ping_deadlines s)).*2 with
  | [] => None
  | d :: ds => Some (saturating_sub (foldr Z.min d ds) now_ms)
  end.

(** ** What the application asks for *)

Definition set_local_addresses (addrs : list Multiaddr) : W unit := modify (λ s, {| s with local_addresses := addrs |}).

Definition validate_service_protocol (protocol_id : bytes) : res SwarmError unit :=
  if existsb (λ p, bool_decide (p = protocol_id)) RESERVED_PROTOCOL_IDS then Err (ReservedProtocol protocol_id) else Ok tt.
Definition push_inbound (protocol_id : bytes) : W unit :=
  modify (λ s, {| s with inbound_protocols := push_unique (inbound_protocols s) protocol_id |}).
Definition push_outbound (protocol_id : bytes) : W unit :=
  modify (λ s, {| s with outbound_protocols := push_unique (outbound_protocols s) protocol_id |}).
Definition advertise (protocol_id : bytes) : W unit := _ ← on_identify (Identify.add_protocol protocol_id); mret tt.
Definition add_protocol (protocol_id : bytes) : W unit :=
  _ ← lift (validate_service_protocol protocol_id);
  _ ← push_inbound protocol_id;
  _ ← push_outbound protocol_id;
  advertise protocol_id.
Definition add_inbound_protocol (protocol_id : bytes) : W unit :=
  _ ← lift (validate_service_protocol protocol_id);
  push_inbound protocol_id.
Definition add_outbound_protocol (protocol_id : bytes) : W unit :=
  _ ← lift (validate_service_protocol protocol_id);
  push_outbound protocol_id.
Definition add_advertised_protocol (protocol_id : bytes) : W unit :=
  _ ← lift (validate_service_protocol protocol_id);
  advertise protocol_id.

(** The method [ping]. *)
Definition ping_peer (peer_id : PeerId) (payload : bytes) (now_ms : Z) : W unit :=
  s ← gets id;
  if negb (bool_decide (is_Some (peer_to_conn s !! peer_id))) then throw (NotConnected peer_id)
  else if bool_decide (is_Some (outbound_stream_of (ping s) peer_id)) then
    r ← on_ping (Ping.handle_input (Ping.SendPing peer_id payload now_ms));
    match r with
    | inr e => throw (SwarmPingError e)
    | inl _ => _ ← record_ping_deadline peer_id now_ms; drain_ping_outputs
    end
  else if has_pending_ping_stream s peer_id then queue_ping peer_id payload
  else
    _ ← queue_ping peer_id payload;
    queue_open_protocol_stream peer_id PING_PROTOCOL_ID PingKind.

Definition supports (info : option IdentifyMessage) (protocol_id : bytes) : bool :=
  match info with Some info => existsb (λ p, bool_decide (p = protocol_id)) (id_protocols info) | None => false end.
Definition open_stream (peer_id : PeerId) (protocol_id : bytes) : W unit :=
  s ← gets id;
  if negb (existsb (λ p, bool_decide (p = protocol_id)) (outbound_protocols s)) then throw (ProtocolNotRegistered protocol_id)
  else if negb (bool_decide (is_Some (peer_to_conn s !! peer_id))) then throw (NotConnected peer_id)
  else if bool_decide (peer_id ∈ ready_peers s) && negb (supports (peer_info s !! peer_id) protocol_id)
  then throw (RemoteDoesNotSupport peer_id protocol_id)
  else queue_open_protocol_stream peer_id protocol_id (User protocol_id).

Definition send_stream (peer_id : PeerId) (stream_id : Z) (data : bytes) : W unit :=
  conn_id ← require_stream_conn peer_id stream_id;
  push_action (SendStream conn_id stream_id data).
Definition close_stream_write (peer_id : PeerId) (stream_id : Z) : W unit :=
  conn_id ← require_stream_conn peer_id stream_id;
  push_action (CloseStreamWrite conn_id stream_id).

(** [if self.reset_pending.insert(key) { self.actions.push_back(..) }]. *)
Definition queue_reset (key : StreamKey) : W unit :=
  pending ← gets (λ s, bool_decide (key ∈ reset_pending s));
  if pending : bool then mret tt
  else
    _ ← modify (λ s, {| s with reset_pending := {[key]} ∪ reset_pending s |});
    push_action (ResetStream key.1 key.2).
Definition reset_stream (peer_id : PeerId) (stream_id : Z) : W unit :=
  conn_id ← require_stream_conn peer_id stream_id;
  queue_reset (conn_id, stream_id).
Definition reset_stream_failed (conn_id stream_id : Z) : W unit :=
  modify (λ s, {| s with reset_pending := reset_pending s ∖ {[(conn_id, stream_id)]} |}).

Definition forget_stream (conn_id stream_id : Z) : W unit :=
  let key := (conn_id, stream_id) in
  modify (λ s, {| s with
    stream_owner := delete key (stream_owner s);
    inbound_negotiators := delete key (inbound_negotiators s);
    outbound_negotiators := delete key (outbound_negotiators s);
    reset_pending := reset_pending s ∖ {[key]};
    abandoned_streams := abandoned_streams s ∖ {[key]};
    actions := filter (λ a, stream_action_matches a conn_id stream_id = false) (actions s);
    after_event_actions := filter (λ a, stream_action_matches a conn_id stream_id = false) (after_event_actions s) |}).

Definition abandoned_key (s : SwarmCore) (peer_id : PeerId) (stream_id : Z) : option StreamKey :=
  head (filter (λ k : StreamKey, k.2 = stream_id ∧ conn_to_peer s !! k.1 = Some peer_id)
    (merge_sort key_le (elements (abandoned_streams s)))).
Definition abandonable_conn (s : SwarmCore) (peer_id : PeerId) (stream_id : Z) : option Z :=
  match find_stream (outbound_negotiators s) (λ k _, (k.2 =? stream_id) && bool_decide (conn_to_peer s !! k.1 = Some peer_id)) with
  | Some conn_id => Some conn_id
  | None => user_stream_conn s peer_id stream_id
  end.
Definition abandon_stream (peer_id : PeerId) (stream_id : Z) : W unit :=
  _ ← modify (λ s, {| s with events := filter (λ e, matches_stream peer_id stream_id e = false) (events s) |});
  abandoned ← gets (λ s, abandoned_key s peer_id stream_id);
  match abandoned with
  | Some key => queue_reset key
  | None =>
      conn_id ← reads (λ s, ok_or (abandonable_conn s peer_id stream_id) (StreamNotFound peer_id stream_id));
      let key := (conn_id, stream_id) in
      _ ← queue_reset key;
      modify (λ s, {| s with
        abandoned_streams := {[key]} ∪ abandoned_streams s;
        stream_owner := delete key (stream_owner s);
        inbound_negotiators := delete key (inbound_negotiators s);
        outbound_negotiators := delete key (outbound_negotiators s) |})
  end.

Definition disconnect (peer_id : PeerId) : W unit :=
  conn_id ← require_conn peer_id;
  push_action (CloseConnection conn_id).
End Swarm.
