(* ===== verification/SwarmSafety.v ===== *)
(** The swarm's books: what its tables say at the same time, kept by every event
    of a transport, every report of a driver and every call of an application. *)

From S2P Require Import Prelude Varint Text SansIo Multistream Ping Base58 PeerIdentity Multiaddr Proto Identify Swarm.

Section SwarmSafety.
Context `{HC : HashCrates Multihash} `{!EqDecision Multihash} `{!Countable Multihash} {HS : HashCratesSpec Multihash}.
Abbreviation PeerId := (PeerIdentity.PeerId (Multihash := Multihash)).
Context `{BK : !BTreeKey PeerId}.
Abbreviation SwarmCore := (Swarm.SwarmCore (Multihash := Multihash)).
Abbreviation SwarmEvent := (Swarm.SwarmEvent (Multihash := Multihash)).
Abbreviation W := (M SwarmCore (SwarmError (Multihash := Multihash))).
Implicit Types s : SwarmCore.

(** ** What the protocols inside change *)

(** The events that say which connection a peer has. *)
Definition slot_event (e : SwarmEvent) : bool :=
  match e with ConnectionEstablished _ _ | ConnectionClosed _ _ _ => true | _ => false end.

(** Ping and identify, and what is done with their outputs: requests for the
    driver and events about peers, never about connections. *)
Definition quiet s s' : Prop :=
  ∃ pg idf dl info ready evs acts,
    s' = {| s with ping := pg; identify := idf; ping_deadlines := dl; peer_info := info; ready_peers := ready;
                   events := events s ++ evs; actions := actions s ++ acts |} ∧
    Forall (λ e, slot_event e = false) evs ∧
    (∀ p, is_Some (peer_info s !! p) → is_Some (info !! p)) ∧
    (∀ p, p ∈ ready → p ∈ ready_peers s ∨ is_Some (info !! p) ∧ is_Some (peer_to_conn s !! p)).

#[export] Instance quiet_preorder : PreOrder quiet.
Proof.
  split.
  - intros s. exists (ping s), (identify s), (ping_deadlines s), (peer_info s), (ready_peers s), [], [].
    rewrite !app_nil_r. split_and!; [by destruct s|done|done|by left].
  - intros s1 s2 s3 (pg & idf & dl & info & rd & ev & ac & -> & He & Hi & Hr) (pg' & idf' & dl' & info' & rd' & ev' & ac' & -> & He' & Hi' & Hr').
    cbn in *. exists pg', idf', dl', info', rd', (ev ++ ev'), (ac ++ ac'). rewrite !app_assoc. split_and!; [done|by apply Forall_app|auto|].
    intros p [Hp|Hp]%Hr'; [|by right]. destruct (Hr p Hp) as [?|[? ?]]; [by left|right; auto].
Qed.

Definition at_rest s : Prop := Ping.is_idle (ping s) = true ∧ Identify_is_idle (identify s) = true.
Definition machines_ok s : Prop := ping_ok (ping s) ∧ identify_ok (identify s).

(** A step that leaves the two machines alone. *)
Definition quietly {A} (m : W A) : Prop := ∀ s,
  wp m (λ _ s', quiet s s' ∧ ping s' = ping s ∧ identify s' = identify s) (λ _ _, False) s.

Lemma quietly_ret {A} (a : A) : quietly (mret a).
Proof. intros s. by wp_step. Qed.
Lemma quietly_bind {A B} (m : W A) (f : A → W B) : quietly m → (∀ a, quietly (f a)) → quietly (m ≫= f).
Proof.
  intros Hm Hf s. wp_step. eapply wp_mono; [apply Hm| |done]. intros a s1 (Hq & Hp & Hi).
  eapply wp_mono; [apply Hf| |done]. intros b s2 (Hq' & -> & ->). split_and!; [by etrans|done|done].
Qed.
Lemma quietly_gets {A} (f : SwarmCore → A) : quietly (gets f).
Proof. intros s. by wp_step. Qed.
Lemma quietly_event e : slot_event e = false → quietly (push_event e).
Proof.
  intros He s. unfold push_event. wp_step. split_and!; [|done|done].
  exists (ping s), (identify s), (ping_deadlines s), (peer_info s), (ready_peers s), [e], [].
  rewrite app_nil_r. split_and!; [done|by constructor|done|by left].
Qed.
Lemma quietly_action a : quietly (push_action a).
Proof.
  intros s. unfold push_action. wp_step. split_and!; [|done|done].
  exists (ping s), (identify s), (ping_deadlines s), (peer_info s), (ready_peers s), [], [a].
  rewrite app_nil_r. split_and!; [done|done|done|by left].
Qed.
Lemma quietly_deadlines f : quietly (modify (λ s, {| s with ping_deadlines := f s |})).
Proof.
  intros s. wp_step. split_and!; [|done|done].
  exists (ping s), (identify s), (f s), (peer_info s), (ready_peers s), [], [].
  rewrite !app_nil_r. split_and!; [done|done|done|by left].
Qed.
Lemma quietly_info p i : quietly (modify (λ s, {| s with peer_info := <[p := i]> (peer_info s) |})).
Proof.
  intros s. wp_step. split_and!; [|done|done].
  exists (ping s), (identify s), (ping_deadlines s), (<[p := i]> (peer_info s)), (ready_peers s), [], [].
  rewrite !app_nil_r. split_and!; [done|done| |by left].
  intros q Hq. apply lookup_insert_is_Some'. by right.
Qed.
Lemma quietly_ready p : quietly (try_emit_peer_ready p).
Proof.
  intros s. unfold try_emit_peer_ready, push_event. wp_step. wp_step. wp_step; [by wp_step|].
  destruct (peer_info s !! p) as [info|] eqn:Hi; cbn [id]; rewrite ?Hi; [|by wp_step].
  destruct (decide (is_Some (peer_to_conn s !! p))) as [Hc|Hc]; [rewrite bool_decide_true by done|rewrite bool_decide_false by done; by wp_step].
  cbn [negb]. wp_steps. split_and!; [|done|done].
  exists (ping s), (identify s), (ping_deadlines s), (peer_info s), ({[p]} ∪ ready_peers s), [PeerReady p (id_protocols info)], [].
  rewrite !app_nil_r. split_and!; [done|by constructor|done|].
  intros q [->%elem_of_singleton|Hq]%elem_of_union; [|by left]. right. split; [by rewrite Hi|done].
Qed.

Ltac quiet_steps :=
  repeat first
    [ progress intros
    | apply quietly_ret | apply quietly_gets | apply quietly_action | by apply quietly_event
    | apply quietly_deadlines | apply quietly_info | apply quietly_ready
    | apply quietly_bind | progress case_match ].

Lemma quietly_ping_output o : quietly (handle_ping_output o).
Proof.
  unfold handle_ping_output, execute_ping_action, on_owned_ping_stream, handle_ping_event, disarm_ping, emit_error, emit_error_for_stream.
  quiet_steps.
Qed.
Lemma quietly_identify_output o : quietly (handle_identify_output o).
Proof.
  unfold handle_identify_output, execute_identify_action, handle_identify_event, emit_error, emit_error_for_stream. quiet_steps.
Qed.
(** A loop that polls a machine inside. *)
Lemma drain_nested_spec {Output Error} (poll : W (option Output + Error)) handle (I D : SwarmCore → Prop) (left : SwarmCore → nat) fuel s :
  (∀ s, I s → ∃ o s', poll s = (s', Ok (inl o)) ∧
     match o with
     | Some o => (left s' < left s)%nat ∧ wp (handle o) (λ _ s'', I s'' ∧ (left s'' ≤ left s')%nat) (λ _ _, False) s'
     | None => s' = s ∧ D s
     end) →
  I s → (left s ≤ fuel)%nat → wp (drain_nested poll handle fuel) (λ _ s', I s' ∧ D s') (λ _ _, False) s.
Proof.
  intros Hstep. revert s. induction fuel as [|fuel IH]; intros s Hs Hn; cbn [drain_nested]; wp_step;
    destruct (Hstep s Hs) as (o & s1 & Hpoll & Ho); unfold wp at 1; rewrite Hpoll; destruct o as [o|].
  1: lia. all: try (destruct Ho as [-> Hz]; by wp_step).
  destruct Ho as [Hlt Ho]. wp_step. eapply wp_mono; [exact Ho| |done]. intros u s2 [Hs2 Hle]. apply IH; [done|lia].
Qed.

Lemma quiet_with_ping s pg : quiet s {| s with ping := pg |}.
Proof.
  exists pg, (identify s), (ping_deadlines s), (peer_info s), (ready_peers s), [], []. rewrite !app_nil_r.
  split_and!; [done|done|done|by left].
Qed.
Lemma quiet_with_identify s i : quiet s {| s with identify := i |}.
Proof.
  exists (ping s), i, (ping_deadlines s), (peer_info s), (ready_peers s), [], []. rewrite !app_nil_r.
  split_and!; [done|done|done|by left].
Qed.

(** One of the machines inside is drained: [get] and [put] are its field, [other]
    is what the handling of its outputs leaves alone. *)
Lemma drain_machine {Pm Input Output Error} `{!SansIoProtocol Pm Input Output Error} (inv : Pm → Prop) (admissible : Pm → Input → Prop)
    {C : SansIoContract inv admissible} (get : SwarmCore → Pm) (put : Pm → SwarmCore → SwarmCore) handle (other : SwarmCore → Prop) s :
  (∀ p s, get (put p s) = p) → (∀ s, put (get s) s = s) → (∀ p s, quiet s (put p s)) → (∀ p s, other s → other (put p s)) →
  (∀ o s, other s → wp (handle o) (λ _ s', quiet s s' ∧ get s' = get s ∧ other s') (λ _ _, False) s) →
  inv (get s) → other s →
  wp (drain_nested (nested get put SansIo.poll_output) handle (backlog (get s)))
    (λ _ s', quiet s s' ∧ inv (get s') ∧ SansIo.is_idle (get s') = true ∧ other s') (λ _ _, False) s.
Proof.
  intros Hgp Hpg Hput Hop Hh Hs Ho.
  eapply wp_mono; [apply (drain_nested_spec _ _ (λ s', quiet s s' ∧ inv (get s') ∧ other s') (λ s, SansIo.is_idle (get s) = true) (λ s, backlog (get s)))|..].
  - intros s1 (Hq & Hp & Ho1). destruct (output_step (get s1) Hp) as (o & p' & Hpoll & Hp' & Hn).
    exists o, (put p' s1). unfold nested. rewrite Hpoll. split; [done|]. destruct o as [o|].
    + destruct Hn as [_ Hlt]. rewrite Hgp. split; [done|]. eapply wp_mono; [apply Hh; auto| |done].
      intros u s2 (Hq2 & Hg2 & Ho2). rewrite Hg2, Hgp. split_and!; try done. etrans; [done|]. etrans; [apply Hput|done].
    + destruct Hn as [Hidle ->]. by split; [apply Hpg|].
  - by split_and!.
  - done.
  - by intros u s' ((Hq & Hp & Ho') & Hz).
  - done.
Qed.

Lemma drain_ping_spec s :
  ping_ok (ping s) →
  wp drain_ping_outputs (λ _ s', quiet s s' ∧ ping_ok (ping s') ∧ Ping.is_idle (ping s') = true ∧ identify s' = identify s) (λ _ _, False) s.
Proof.
  intros Hs. apply (drain_machine (C := ping_contract) ping_ok (λ _ _, True) ping (λ p s, {| s with ping := p |})
    handle_ping_output (λ s', identify s' = identify s)); try done.
  - by intros [].
  - intros p s1. apply quiet_with_ping.
  - intros o s1 Hi. eapply wp_mono; [apply quietly_ping_output| |done]. intros u s2 (? & ? & ->). by rewrite Hi.
Qed.
Lemma drain_identify_spec s :
  identify_ok (identify s) →
  wp drain_identify_outputs (λ _ s', quiet s s' ∧ identify_ok (identify s') ∧ Identify_is_idle (identify s') = true ∧ ping s' = ping s)
    (λ _ _, False) s.
Proof.
  intros Hs. apply (drain_machine (C := Identify_contract) identify_ok (λ _ _, True) identify (λ i s, {| s with identify := i |})
    handle_identify_output (λ s', ping s' = ping s)); try done.
  - by intros [].
  - intros p s1. apply quiet_with_identify.
  - intros o s1 Hi. eapply wp_mono; [apply quietly_identify_output| |done]. intros u s2 (? & -> & ?). by rewrite Hi.
Qed.

Lemma inform_ping_spec i s :
  ping_ok (ping s) → wp (inform_ping i) (λ _ s', ∃ pg, s' = {| s with ping := pg |} ∧ ping_ok pg) (λ _ _, False) s.
Proof.
  intros Hs. unfold inform_ping, on_ping, nested. pose proof (handle_input_ok (ping s) i Hs) as Hw. unfold wp in Hw.
  wp_step. unfold wp at 1. destruct (Ping.handle_input i (ping s)) as [pg [[]|e| |]]; try done; wp_step; exists pg; [done|].
  by subst pg.
Qed.
Lemma inform_identify_spec i s :
  identify_ok (identify s) →
  wp (inform_identify i) (λ _ s', ∃ idf, s' = {| s with identify := idf |} ∧ identify_ok idf) (λ _ _, False) s.
Proof.
  intros Hs. unfold inform_identify, on_identify, nested. pose proof (identify_input_ok i (identify s) Hs) as Hw. unfold wp in Hw.
  wp_step. unfold wp at 1. destruct (Identify_handle_input i (identify s)) as [pg [[]|e| |]]; try done; wp_step; exists pg; [done|].
  by destruct Hw.
Qed.

(** ** Telling the protocols, and doing what they want *)

Definition settled s s' : Prop := quiet s s' ∧ machines_ok s' ∧ at_rest s'.

Lemma tell_ping i s :
  machines_ok s → at_rest s → wp (_ ← inform_ping i; drain_ping_outputs) (λ _ s', settled s s') (λ _ _, False) s.
Proof.
  intros [Hp Hi] [_ Hr]. wp_step. eapply wp_mono; [by apply inform_ping_spec| |done]. intros u s1 (pg & -> & Hpg).
  eapply wp_mono; [by apply drain_ping_spec| |done]. intros u' s2 (Hq & Hp2 & Hr2 & Hi2).
  split; [etrans; [apply quiet_with_ping|done]|]. unfold machines_ok, at_rest. rewrite Hi2. done.
Qed.
Lemma tell_identify i s :
  machines_ok s → at_rest s → wp (_ ← inform_identify i; drain_identify_outputs) (λ _ s', settled s s') (λ _ _, False) s.
Proof.
  intros [Hp Hi] [Hr _]. wp_step. eapply wp_mono; [by apply inform_identify_spec| |done]. intros u s1 (idf & -> & Hidf).
  eapply wp_mono; [by apply drain_identify_spec| |done]. intros u' s2 (Hq & Hp2 & Hr2 & Hi2).
  split; [etrans; [apply quiet_with_identify|done]|]. unfold machines_ok, at_rest. rewrite Hi2. done.
Qed.
Lemma collect_spec s :
  machines_ok s → wp collect_protocol_events (λ _ s', settled s s') (λ _ _, False) s.
Proof.
  intros [Hp Hi]. unfold collect_protocol_events. wp_step. eapply wp_mono; [by apply drain_ping_spec| |done].
  intros u s1 (Hq & Hp1 & Hr1 & Hi1). eapply wp_mono; [apply drain_identify_spec; by rewrite Hi1| |done].
  intros u' s2 (Hq2 & Hi2 & Hr2 & Hp2). split; [by etrans|]. unfold machines_ok, at_rest. by rewrite Hp2.
Qed.
Lemma tell_both i j s :
  machines_ok s →
  wp (_ ← inform_ping i; _ ← inform_identify j; _ ← drain_ping_outputs; drain_identify_outputs) (λ _ s', settled s s') (λ _ _, False) s.
Proof.
  intros [Hp Hi]. wp_step. eapply wp_mono; [by apply inform_ping_spec| |done]. intros u s1 (pg & -> & Hpg).
  wp_step. eapply wp_mono; [by apply inform_identify_spec| |done]. intros u' s2 (idf & -> & Hidf). cbn beta.
  eapply wp_mono; [apply (collect_spec {| s with ping := pg; identify := idf |}); by split| |done].
  done.
Qed.

(** ** The books *)

Definition tracked s (c : Z) : Prop := is_Some (conn_to_peer s !! c).
Definition negotiator_ok (n : MultistreamSelect) : Prop := select_ok n ∧ pending_outputs n = [].

(** A peer's connection is recorded as that peer's; who is established or ready
    is connected, and who is ready has introduced itself; everything kept for a
    stream belongs to a connection with a peer; negotiators have said all they
    have to say. *)
Record books_ok s : Prop := {
  bo_active p c : peer_to_conn s !! p = Some c → conn_to_peer s !! c = Some p;
  bo_established p : p ∈ established_peers s → is_Some (peer_to_conn s !! p);
  bo_ready p : p ∈ ready_peers s → is_Some (peer_info s !! p) ∧ is_Some (peer_to_conn s !! p);
  bo_opens t o : pending_opens s !! t = Some o → tracked s (open_conn_id o);
  bo_owner k o : stream_owner s !! k = Some o → tracked s k.1;
  bo_outbound k o : outbound_negotiators s !! k = Some o → tracked s k.1 ∧ negotiator_ok (negotiator o);
  bo_inbound k n : inbound_negotiators s !! k = Some n → negotiator_ok n;
  bo_reset k : k ∈ reset_pending s → tracked s k.1;
  bo_abandoned k : k ∈ abandoned_streams s → tracked s k.1;
  bo_token : 0 ≤ next_open_token s ≤ u64_max;
}.
Definition swarm_ok s : Prop := books_ok s ∧ machines_ok s ∧ at_rest s.

Ltac books Hs := destruct Hs; constructor; cbn in *; try done.

Lemma books_quiet s s' : quiet s s' → books_ok s → books_ok s'.
Proof.
  intros (pg & idf & dl & info & rd & ev & ac & -> & He & Hi & Hr) Hs. books Hs.
  intros p [Hp|?]%Hr; [|done]. naive_solver.
Qed.
Lemma swarm_settled s s' : books_ok s → settled s s' → swarm_ok s'.
Proof. intros Hb (Hq & Hm & Hr). split_and!; [by eapply books_quiet|done|done]. Qed.

(** Steps that only report or ask. *)
Definition emits s s' : Prop :=
  ∃ evs acts, s' = {| s with events := events s ++ evs; actions := actions s ++ acts |} ∧ Forall (λ e, slot_event e = false) evs.
#[export] Instance emits_preorder : PreOrder emits.
Proof.
  split.
  - intros s. exists [], []. rewrite !app_nil_r. split; [by destruct s|done].
  - intros s1 s2 s3 (ev & ac & -> & He) (ev' & ac' & -> & He'). exists (ev ++ ev'), (ac ++ ac'). cbn. rewrite !app_assoc.
    split; [done|by apply Forall_app].
Qed.
Lemma emits_settled s s' : emits s s' → machines_ok s → at_rest s → settled s s'.
Proof.
  intros (ev & ac & -> & He) Hm Hr. split; [|done].
  exists (ping s), (identify s), (ping_deadlines s), (peer_info s), (ready_peers s), ev, ac. split_and!; [done|done|done|by left].
Qed.
Lemma swarm_emits s s' : emits s s' → swarm_ok s → swarm_ok s'.
Proof. intros He (Hb & Hm & Hr). eapply swarm_settled; [done|by apply emits_settled]. Qed.

Definition emitting {A} (m : W A) : Prop := ∀ s, wp m (λ _ s', emits s s') (λ _ _, False) s.
Lemma emitting_ret {A} (a : A) : emitting (mret a).
Proof. intros s. by wp_step. Qed.
Lemma emitting_bind {A B} (m : W A) (f : A → W B) : emitting m → (∀ a, emitting (f a)) → emitting (m ≫= f).
Proof.
  intros Hm Hf s. wp_step. eapply wp_mono; [apply Hm| |done]. intros a s1 Hq.
  eapply wp_mono; [apply Hf| |done]. intros b s2 Hq'. exact (transitivity Hq Hq').
Qed.
Lemma emitting_gets {A} (f : SwarmCore → A) : emitting (gets f).
Proof. intros s. by wp_step. Qed.
Lemma emitting_event e : slot_event e = false → emitting (push_event e).
Proof. intros He s. unfold push_event. wp_step. exists [e], []. rewrite app_nil_r. split; [done|by constructor]. Qed.
Lemma emitting_action a : emitting (push_action a).
Proof. intros s. unfold push_action. wp_step. exists [], [a]. by rewrite app_nil_r. Qed.
Ltac emit_steps :=
  unfold established_error, emit_error, emit_error_for_stream;
  repeat first
    [ progress intros
    | apply emitting_ret | apply emitting_gets | apply emitting_action | by apply emitting_event
    | apply emitting_bind | progress case_match ].
Lemma emitting_error kind c st d : emitting (established_error kind c st d).
Proof. emit_steps. Qed.
Lemma emitting_output c st o neg : emitting (handle_multistream_output c st o neg).
Proof. unfold handle_multistream_output. emit_steps. Qed.

(** ** Negotiators *)

Lemma poll_select n :
  select_ok n →
  ∃ o n', Multistream.poll_output n = (n', Ok o) ∧ select_ok n' ∧
    match o with Some _ => length (pending_outputs n) = S (length (pending_outputs n')) | None => n' = n ∧ pending_outputs n = [] end.
Proof.
  intros Hn. unfold Multistream.poll_output. destruct (pending_outputs n) as [|o os] eqn:Ho; eexists _, _; split_and!; done.
Qed.

Lemma drain_inbound_spec fuel c st neg s n :
  inbound_negotiators s !! (c, st) = Some n → select_ok n → (length (pending_outputs n) ≤ fuel)%nat →
  wp (drain_inbound fuel c st neg)
    (λ r s', ∃ n', emits (put_inbound (c, st) n' s) s' ∧ select_ok n' ∧ (r ≠ None → pending_outputs n' = [])) (λ _ _, False) s.
Proof.
  revert neg s n. induction fuel as [|fuel IH]; intros neg s n Hn Hok Hlen; cbn [drain_inbound]; wp_step;
    unfold wp at 1, on_inbound, entry_call; rewrite Hn; cbn [id];
    destruct (poll_select n Hok) as (o & n1 & -> & Hok1 & Ho); wp_step; apply wp_lift; cbn [polled]; destruct o as [o|].
  1: lia.
  1, 3: destruct Ho as [-> Hempty]; wp_step; exists n; split_and!; [reflexivity|done|done].
  wp_step. eapply wp_mono; [apply emitting_output| |done]. intros [failed neg'] s1 He. cbn beta.
  assert (inbound_negotiators s1 !! (c, st) = Some n1) as Hn1 by (destruct He as (? & ? & -> & _); apply lookup_insert_eq).
  wp_step; [wp_step; by exists n1|].
  eapply wp_mono; [apply (IH neg' s1 n1); [done|done|lia]| |done]. intros r s2 (n2 & He2 & Hok2 & Hr).
  exists n2. split_and!; [|done|done]. etrans; [|done]. destruct He as (ev & ac & -> & He). exists ev, ac. split; [|done].
  unfold put_inbound. cbn. by rewrite insert_insert_eq.
Qed.

Lemma flush_inbound_spec fuel c st s n :
  inbound_negotiators s !! (c, st) = Some n → select_ok n → (length (pending_outputs n) ≤ fuel)%nat →
  wp (flush_inbound fuel c st) (λ _ s', ∃ n', emits (put_inbound (c, st) n' s) s' ∧ negotiator_ok n') (λ _ _, False) s.
Proof.
  revert s n. induction fuel as [|fuel IH]; intros s n Hn Hok Hlen; cbn [flush_inbound]; wp_step;
    unfold wp at 1, on_inbound, entry_call; rewrite Hn; cbn [id];
    destruct (poll_select n Hok) as (o & n1 & -> & Hok1 & Ho); wp_step; apply wp_lift; cbn [polled]; destruct o as [o|].
  1: lia.
  1, 3: destruct Ho as [-> Hempty]; wp_step; by exists n.
  wp_step. eapply wp_mono; [apply emitting_output| |done]. intros r s1 He. cbn beta.
  assert (inbound_negotiators s1 !! (c, st) = Some n1) as Hn1 by (destruct He as (? & ? & -> & _); apply lookup_insert_eq).
  eapply wp_mono; [apply (IH s1 n1); [done|done|lia]| |done]. intros r' s2 (n2 & He2 & Hok2).
  exists n2. split; [|done]. etrans; [|done]. destruct He as (ev & ac & -> & He). exists ev, ac. split; [|done].
  unfold put_inbound. cbn. by rewrite insert_insert_eq.
Qed.

Lemma drain_outbound_spec fuel c st neg s p :
  outbound_negotiators s !! (c, st) = Some p → select_ok (negotiator p) → (length (pending_outputs (negotiator p)) ≤ fuel)%nat →
  wp (drain_outbound fuel c st neg)
    (λ r s', ∃ n', emits (put_outbound (c, st) {| p with negotiator := n' |} s) s' ∧ select_ok n' ∧ (r ≠ None → pending_outputs n' = []))
    (λ _ _, False) s.
Proof.
  revert neg s p. induction fuel as [|fuel IH]; intros neg s p Hn Hok Hlen; cbn [drain_outbound]; wp_step;
    unfold wp at 1, on_outbound, entry_call; rewrite Hn;
    destruct (poll_select (negotiator p) Hok) as (o & n1 & -> & Hok1 & Ho); wp_step; apply wp_lift; cbn [polled]; destruct o as [o|].
  1: lia.
  1, 3: destruct Ho as [-> Hempty]; wp_step; exists (negotiator p); by split_and!.
  set (p1 := {| p with negotiator := n1 |}).
  assert (∀ neg' s1, emits (put_outbound (c, st) p1 s) s1 →
    wp (drain_outbound fuel c st neg')
      (λ r s', ∃ n', emits (put_outbound (c, st) {| p with negotiator := n' |} s) s' ∧ select_ok n' ∧ (r ≠ None → pending_outputs n' = []))
      (λ _ _, False) s1) as Hgo.
  { intros neg' s1 He.
    assert (outbound_negotiators s1 !! (c, st) = Some p1) as Hn1 by (destruct He as (? & ? & -> & _); apply lookup_insert_eq).
    eapply wp_mono; [apply (IH neg' s1 p1); [done|done|cbn; lia]| |done]. intros r s2 (n2 & He2 & Hok2 & Hr).
    exists n2. split_and!; [|done|done]. etrans; [|done]. destruct He as (ev & ac & -> & He). exists ev, ac. split; [|done].
    unfold put_outbound. cbn. by rewrite insert_insert_eq. }
  destruct o as [d|q| |reason].
  - wp_step. eapply wp_mono; [apply emitting_output| |done]. intros [failed neg'] s1 He. cbn beta.
    wp_step; [wp_step; by exists n1|by apply Hgo].
  - by apply Hgo.
  - wp_step. eapply wp_mono; [apply emitting_error| |done]. intros u s1 He. wp_step. by exists n1.
  - wp_step. eapply wp_mono; [apply emitting_output| |done]. intros [failed neg'] s1 He. cbn beta.
    wp_step; [wp_step; by exists n1|by apply Hgo].
Qed.

Lemma flush_dialer_spec fuel c st n s :
  select_ok n → (length (pending_outputs n) ≤ fuel)%nat →
  wp (flush_dialer fuel c st n) (λ n' s', emits s s' ∧ negotiator_ok n') (λ _ _, False) s.
Proof.
  revert n s. induction fuel as [|fuel IH]; intros n s Hok Hlen; cbn [flush_dialer];
    destruct (poll_select n Hok) as (o & n1 & -> & Hok1 & Ho); destruct o as [o|].
  1: lia.
  1, 3: destruct Ho as [-> Hempty]; by wp_step.
  wp_step. eapply wp_mono; [apply emitting_output| |done]. intros r s1 He.
  eapply wp_mono; [apply (IH n1 s1); [done|lia]| |done]. intros n2 s2 [He2 Hok2]. split; [exact (transitivity He He2)|done].
Qed.

Lemma select_input i n :
  select_ok n → ∃ n' r, Multistream.handle_input i n = (n', r) ∧ select_ok n' ∧ match r with Ok _ | Err _ => True | _ => False end.
Proof.
  intros Hn. pose proof (input_safe (SansIoContract := multistream_contract) n i Hn I) as Hw. cbn in Hw. unfold wp in Hw.
  destruct (Multistream.handle_input i n) as [n' r]. exists n', r. by destruct r.
Qed.

(** ** One table at a time *)

Lemma swarm_inbound s m :
  swarm_ok s → map_Forall (λ _, negotiator_ok) m → swarm_ok {| s with inbound_negotiators := m |}.
Proof. intros (Hb & Hm & Hr) Hok. split_and!; [|done|done]. by books Hb. Qed.
Lemma swarm_outbound s m :
  swarm_ok s → map_Forall (λ k p, tracked s k.1 ∧ negotiator_ok (negotiator p)) m → swarm_ok {| s with outbound_negotiators := m |}.
Proof. intros (Hb & Hm & Hr) Hok. split_and!; [|done|done]. by books Hb. Qed.
Lemma swarm_owner s m :
  swarm_ok s → map_Forall (λ k _, tracked s k.1) m → swarm_ok {| s with stream_owner := m |}.
Proof. intros (Hb & Hm & Hr) Hok. split_and!; [|done|done]. by books Hb. Qed.
Lemma swarm_opens s m :
  swarm_ok s → map_Forall (λ _ o, tracked s (open_conn_id o)) m → swarm_ok {| s with pending_opens := m |}.
Proof. intros (Hb & Hm & Hr) Hok. split_and!; [|done|done]. by books Hb. Qed.
Lemma swarm_reset s x :
  swarm_ok s → (∀ k, k ∈ x → tracked s k.1) → swarm_ok {| s with reset_pending := x |}.
Proof. intros (Hb & Hm & Hr) Hok. split_and!; [|done|done]. by books Hb. Qed.
Lemma swarm_abandoned s x :
  swarm_ok s → (∀ k, k ∈ x → tracked s k.1) → swarm_ok {| s with abandoned_streams := x |}.
Proof. intros (Hb & Hm & Hr) Hok. split_and!; [|done|done]. by books Hb. Qed.
Lemma swarm_pings s m : swarm_ok s → swarm_ok {| s with pending_pings := m |}.
Proof. intros (Hb & Hm & Hr). split_and!; [|done|done]. by books Hb. Qed.
Lemma swarm_deadlines s m : swarm_ok s → swarm_ok {| s with ping_deadlines := m |}.
Proof. intros (Hb & Hm & Hr). split_and!; [|done|done]. by books Hb. Qed.
Lemma swarm_queues s ev ac af : swarm_ok s → swarm_ok {| s with events := ev; actions := ac; after_event_actions := af |}.
Proof. intros (Hb & Hm & Hr). split_and!; [|done|done]. by books Hb. Qed.
Lemma swarm_addresses s m : swarm_ok s → swarm_ok {| s with conn_to_remote_addr := m |}.
Proof. intros (Hb & Hm & Hr). split_and!; [|done|done]. by books Hb. Qed.

(** What is kept of a stream may always be dropped. *)
Lemma swarm_drop_inbound s k : swarm_ok s → swarm_ok {| s with inbound_negotiators := delete k (inbound_negotiators s) |}.
Proof. intros Hs. apply swarm_inbound; [done|]. apply map_Forall_delete. exact (bo_inbound s (proj1 Hs)). Qed.
Lemma swarm_drop_outbound s k : swarm_ok s → swarm_ok {| s with outbound_negotiators := delete k (outbound_negotiators s) |}.
Proof. intros Hs. apply swarm_outbound; [done|]. apply map_Forall_delete. exact (bo_outbound s (proj1 Hs)). Qed.
Lemma swarm_drop_owner s k : swarm_ok s → swarm_ok {| s with stream_owner := delete k (stream_owner s) |}.
Proof. intros Hs. apply swarm_owner; [done|]. apply map_Forall_delete. exact (bo_owner s (proj1 Hs)). Qed.
Lemma swarm_drop_reset s k : swarm_ok s → swarm_ok {| s with reset_pending := reset_pending s ∖ {[k]} |}.
Proof. intros Hs. apply swarm_reset; [done|]. intros k' [Hk _]%elem_of_difference. by apply (bo_reset s (proj1 Hs)). Qed.
Lemma swarm_drop_abandoned s k : swarm_ok s → swarm_ok {| s with abandoned_streams := abandoned_streams s ∖ {[k]} |}.
Proof. intros Hs. apply swarm_abandoned; [done|]. intros k' [Hk _]%elem_of_difference. by apply (bo_abandoned s (proj1 Hs)). Qed.

(** ** Handlers *)

(** Returns, without an error, and keeps the books. *)
Definition keeps {A} (m : W A) : Prop := ∀ s, swarm_ok s → wp m (λ _, swarm_ok) (λ _ _, False) s.

Lemma keeps_bind {A B} (m : W A) (f : A → W B) : keeps m → (∀ a, keeps (f a)) → keeps (m ≫= f).
Proof. intros Hm Hf s Hs. wp_step. eapply wp_mono; [by apply Hm| |done]. intros a s1 Hs1. by apply Hf. Qed.
Lemma keeps_emitting {A} (m : W A) : emitting m → keeps m.
Proof. intros Hm s Hs. eapply wp_mono; [apply Hm| |done]. intros a s1 He. exact (swarm_emits _ _ He Hs). Qed.
Lemma keeps_modify f : (∀ s, swarm_ok s → swarm_ok (f s)) → keeps (modify f).
Proof. intros Hf s Hs. wp_step. by apply Hf. Qed.
Lemma keeps_tell_ping i : keeps (_ ← inform_ping i; drain_ping_outputs).
Proof. intros s (Hb & Hm & Hr). eapply wp_mono; [by apply tell_ping| |done]. intros u s1. by apply swarm_settled. Qed.
Lemma keeps_tell_identify i : keeps (_ ← inform_identify i; drain_identify_outputs).
Proof. intros s (Hb & Hm & Hr). eapply wp_mono; [by apply tell_identify| |done]. intros u s1. by apply swarm_settled. Qed.
Lemma keeps_drain_ping : keeps drain_ping_outputs.
Proof.
  intros s (Hb & [Hp Hi] & Hr & Hri). eapply wp_mono; [by apply drain_ping_spec| |done]. intros u s1 (Hq & Hp1 & Hr1 & Hi1).
  split_and!; [by eapply books_quiet|split; [done|by rewrite Hi1]|split; [done|by rewrite Hi1]].
Qed.
Lemma keeps_drain_identify : keeps drain_identify_outputs.
Proof.
  intros s (Hb & [Hp Hi] & Hr & Hri). eapply wp_mono; [by apply drain_identify_spec| |done]. intros u s1 (Hq & Hp1 & Hr1 & Hi1).
  split_and!; [by eapply books_quiet|split; [by rewrite Hi1|done]|split; [by rewrite Hi1|done]].
Qed.

Lemma keeps_remove_inbound k : keeps (remove_inbound k).
Proof. apply keeps_modify. intros s. apply swarm_drop_inbound. Qed.
Lemma keeps_remove_outbound k : keeps (remove_outbound k).
Proof. apply keeps_modify. intros s. apply swarm_drop_outbound. Qed.

(** A placeholder of a connection whose peer is not known. *)
Definition placeholder_of (c : Z) (p : PeerId) : Prop := from_public_key_protobuf (str "minip2p-synthetic-conn-" ++ dec c) = Ok p.
Definition with_peer (c : Z) (p : PeerId) s : SwarmCore :=
  {| s with conn_to_peer := <[c := p]> (conn_to_peer s); peer_to_conn := <[p := c]> (peer_to_conn s) |}.

Lemma tracked_insert s c p c' : tracked s c' → is_Some (<[c := p]> (conn_to_peer s) !! c').
Proof. intros Hc. apply lookup_insert_is_Some'. by right. Qed.

Lemma ensure_spec c s :
  wp (ensure_peer_id_for_conn c)
    (λ p s', conn_to_peer s' !! c = Some p ∧
       (s' = s ∨ conn_to_peer s !! c = None ∧ placeholder_of c p ∧ s' = with_peer c p s)) (λ _ _, False) s.
Proof.
  unfold ensure_peer_id_for_conn. wp_steps. destruct (conn_to_peer s !! c) as [p|] eqn:Hc; [wp_step; by split; [|left]|].
  destruct (public_key_peer_ok (str "minip2p-synthetic-conn-" ++ dec c)) as (p & Hp & _).
  wp_step. apply wp_lift. rewrite Hp. wp_steps. split; [apply lookup_insert_eq|]. by right.
Qed.
Lemma with_peer_ok c p s : swarm_ok s → conn_to_peer s !! c = None → swarm_ok (with_peer c p s).
Proof.
  intros (Hb & Hm & Hr) Hc. split_and!; [|done|done]. unfold with_peer. destruct Hb. constructor; unfold tracked in *; cbn in *; eauto using tracked_insert.
  - intros q d. destruct (decide (p = q)) as [->|]; [rewrite !lookup_insert_eq; intros [= ->]; by rewrite lookup_insert_eq|].
    rewrite lookup_insert_ne by done. intros Hq%bo_active0. rewrite lookup_insert_ne; congruence.
  - intros q Hq%bo_established0. apply lookup_insert_is_Some'. by right.
  - intros q [Hi Hq]%bo_ready0. split; [done|]. apply lookup_insert_is_Some'. by right.
  - intros t o Ho%bo_opens0. by apply tracked_insert.
  - intros k o Ho%bo_owner0. by apply tracked_insert.
  - intros k o [? ?]%bo_outbound0. split; [by apply tracked_insert|done].
  - intros k Ho%bo_reset0. by apply tracked_insert.
  - intros k Ho%bo_abandoned0. by apply tracked_insert.
Qed.
Lemma ensure_ok c s :
  swarm_ok s → wp (ensure_peer_id_for_conn c) (λ p s', swarm_ok s' ∧ conn_to_peer s' !! c = Some p) (λ _ _, False) s.
Proof.
  intros Hs. eapply wp_mono; [apply ensure_spec| |done]. intros p s1 [Hp [->|(Hn & _ & ->)]]; split; try done. by apply with_peer_ok.
Qed.

(** ** Streams *)

Ltac keep_steps :=
  repeat first
    [ progress intros
    | apply keeps_tell_ping | apply keeps_tell_identify | apply keeps_drain_ping | apply keeps_drain_identify
    | apply keeps_remove_inbound | apply keeps_remove_outbound
    | apply keeps_emitting; solve [emit_steps]
    | apply keeps_bind | progress case_match ].

Lemma keeps_ensure {B} c (f : PeerId → W B) : (∀ p, keeps (f p)) → keeps (p ← ensure_peer_id_for_conn c; f p).
Proof. intros Hf s Hs. wp_step. eapply wp_mono; [by apply ensure_ok| |done]. intros p s1 [Hs1 _]. by apply Hf. Qed.

Lemma dispatch_keeps c st d now : keeps (dispatch_protocol_data c st d now).
Proof.
  unfold dispatch_protocol_data. apply keeps_bind; [apply keeps_emitting; emit_steps|]. intros [kind|]; [|keep_steps].
  apply keeps_ensure. intros p. destruct kind; keep_steps.
Qed.
Lemma remote_write_closed_keeps c st : keeps (handle_stream_remote_write_closed c st).
Proof.
  unfold handle_stream_remote_write_closed. apply keeps_bind; [apply keeps_emitting; emit_steps|]. intros [kind|]; [|keep_steps].
  apply keeps_ensure. intros p. destruct kind; keep_steps.
Qed.
Lemma stream_closed_keeps c st : keeps (handle_stream_closed c st).
Proof.
  unfold handle_stream_closed, remove_negotiators, close_owned. apply keeps_bind.
  { apply keeps_modify. intros s. apply swarm_drop_reset. }
  intros _. apply keeps_bind; [apply keeps_emitting; emit_steps|]. intros abandoned. destruct abandoned.
  - apply keeps_bind; [apply keeps_modify; intros s; apply swarm_drop_abandoned|]. keep_steps.
  - apply keeps_bind; [|keep_steps]. apply keeps_bind; [apply keeps_emitting; emit_steps|]. intros [kind|]; [|keep_steps].
    apply keeps_bind; [apply keeps_modify; intros s; apply swarm_drop_owner|]. keep_steps.
Qed.

Lemma set_owner_ok k kind s (Q : unit → SwarmCore → Prop) X :
  swarm_ok s → tracked s k.1 →
  (swarm_ok {| s with stream_owner := <[k := kind]> (stream_owner s) |} → Q tt {| s with stream_owner := <[k := kind]> (stream_owner s) |}) →
  wp (set_owner k kind) Q X s.
Proof.
  intros Hs Hk HQ. unfold set_owner. wp_step. apply HQ. apply swarm_owner; [done|].
  apply map_Forall_insert_2; [done|]. exact (bo_owner s (proj1 Hs)).
Qed.

(** The refusal of a responder leaves nothing to send. *)
Lemma identify_refusal p st ob la idf idf' e :
  Identify_handle_input (IRegisterOutboundStream p st ob la) idf = (idf', Err e) →
  id_actions idf' = id_actions idf ∧ id_events idf' = id_events idf.
Proof.
  cbn [Identify_handle_input]. unfold Identify.register_outbound_stream, peer_entry, put_peer, Identify.extend_actions. run_simpl.
  by destruct (outbound_stream _); intros [= <- _].
Qed.

Lemma inbound_negotiated_keeps c st protocol : keeps (on_inbound_negotiated c st protocol).
Proof.
  intros s Hs. unfold on_inbound_negotiated. wp_step. eapply wp_mono; [by apply ensure_ok| |done]. intros p s1 [Hs1 Hp].
  assert (tracked s1 c) as Ht by (by exists p). cbn beta. wp_step.
  { wp_step. apply set_owner_ok; [done..|]. intros Hs2. by apply keeps_tell_ping. }
  wp_step.
  - do 3 wp_step. wp_step. cbn beta. wp_step. unfold wp at 1, on_identify, nested.
    pose proof (identify_input_ok (IRegisterOutboundStream p st (conn_to_remote_addr s1 !! c) (local_addresses s1)) (identify s1)
      (proj2 (proj1 (proj2 Hs1)))) as Hw. unfold wp in Hw.
    destruct (Identify_handle_input _ (identify s1)) as [idf r] eqn:Hrun. destruct Hs1 as (Hb1 & [Hp1 Hi1] & Hr1 & Hri1).
    assert (books_ok {| s1 with identify := idf |}) as Hb2 by (eapply books_quiet; [apply quiet_with_identify|done]).
    destruct r as [[]|e| |]; [| |destruct Hw|destruct Hw].
    + wp_step. unfold set_owner. wp_step. eapply wp_mono; [by apply drain_identify_spec| |done].
      intros u s3 (Hq3 & Hi3 & Hr3 & Hp3). split_and!; [|split; [by rewrite Hp3|done]|split; [by rewrite Hp3|done]].
      eapply books_quiet; [done|]. destruct Hb2. constructor; try done. cbn. intros k o. destruct (decide ((c, st) = k)) as [<-|]; [done|].
      rewrite lookup_insert_ne by done. apply bo_owner0.
    + eapply (keeps_emitting (_ ← _; _)); [emit_steps|]. destruct Hw as [Hi2 _]. apply identify_refusal in Hrun as [Ha He].
      split_and!; [done|by split|]. split; [done|]. unfold Identify_is_idle in *. cbn in *. by rewrite Ha, He.
  - wp_step. wp_step. cbn beta. wp_step; [|by wp_step]. wp_step. apply set_owner_ok; [done..|]. intros Hs2.
    by apply keeps_emitting; [apply emitting_event|].
Qed.

(** A request ping may refuse: a refusal changes nothing. *)
Lemma ask_ping i s (Q : unit + Ping.PingError → SwarmCore → Prop) :
  swarm_ok s →
  (∀ e, Q (inr e) s) →
  (∀ pg, ping_ok pg → Q (inl tt) {| s with ping := pg |}) →
  wp (on_ping (Ping.handle_input i)) Q (λ _ _, False) s.
Proof.
  intros (_ & [Hp _] & _) He Hok. unfold wp, on_ping, nested. pose proof (handle_input_ok (ping s) i Hp) as Hw. unfold wp in Hw.
  destruct (Ping.handle_input i (ping s)) as [pg [[]|e| |]]; try done; [by apply Hok|]. subst pg.
  specialize (He e). by destruct s.
Qed.
Lemma after_ping pg s :
  swarm_ok s → ping_ok pg → wp drain_ping_outputs (λ _, swarm_ok) (λ _ _, False) {| s with ping := pg |}.
Proof.
  intros (Hb & [Hp Hi] & Hr & Hri) Hpg. eapply wp_mono; [by apply drain_ping_spec| |done]. intros u s1 (Hq & Hp1 & Hr1 & Hi1).
  split_and!; [|split; [done|by rewrite Hi1]|split; [done|by rewrite Hi1]].
  eapply books_quiet; [done|]. by eapply books_quiet; [apply quiet_with_ping|].
Qed.

Lemma record_and_drain pg p now s :
  swarm_ok s → ping_ok pg →
  wp (_ ← record_ping_deadline p now; drain_ping_outputs) (λ _, swarm_ok) (λ _ _, False) {| s with ping := pg |}.
Proof.
  intros Hs Hpg. unfold record_ping_deadline. wp_step. wp_step. cbn [ping_timeout_ms ping_deadlines].
  exact (after_ping pg {| s with ping_deadlines := _ |} (swarm_deadlines _ _ Hs) Hpg).
Qed.

Lemma send_pending_ping_keeps c p now : keeps (send_pending_ping c p now).
Proof.
  intros s Hs. unfold send_pending_ping. wp_step. wp_step. destruct (pending_pings s !! p) as [payload|]; [|by wp_step].
  wp_step. wp_step. cbn beta. apply (swarm_pings s (delete p (pending_pings s))) in Hs. revert Hs.
  generalize {| s with pending_pings := delete p (pending_pings s) |}. clear s. intros s Hs.
  wp_step. apply ask_ping; [done| |].
  - intros e. apply keeps_emitting; [emit_steps|done].
  - intros pg Hpg. by apply record_and_drain.
Qed.

Lemma outbound_negotiated_keeps c st target now : keeps (on_outbound_negotiated c st target now).
Proof.
  intros s Hs. unfold on_outbound_negotiated. wp_step. eapply wp_mono; [by apply ensure_ok| |done]. intros p s1 [Hs1 Hp].
  wp_step. apply set_owner_ok; [done|by exists p|]. intros Hs2. destruct target.
  - wp_step. apply ask_ping; [done| |].
    + intros e. apply keeps_bind; [apply keeps_emitting; emit_steps| |done]. intros _.
      apply keeps_bind; [apply keeps_modify; intros s3; apply swarm_drop_owner|]. keep_steps.
    + intros pg Hpg. wp_step. eapply wp_mono; [apply (after_ping pg _ Hs2 Hpg)| |done]. intros u s3 Hs3. by apply send_pending_ping_keeps.
  - by wp_step.
  - by apply keeps_tell_identify.
  - by apply keeps_emitting; [apply emitting_event|].
Qed.

Lemma dispatch_remaining_keeps c st rest now : keeps (dispatch_remaining c st rest now).
Proof. unfold dispatch_remaining. case_bool_decide; [keep_steps|apply dispatch_keeps]. Qed.

(** The books without a stream's negotiator, when it is about to be dropped or
    put back at rest. *)
Lemma swarm_put_inbound k n s s' :
  swarm_ok s → emits (put_inbound k n s) s' →
  swarm_ok {| s' with inbound_negotiators := delete k (inbound_negotiators s') |} ∧ (negotiator_ok n → swarm_ok s').
Proof.
  intros Hs He. assert (map_Forall (λ _, negotiator_ok) (inbound_negotiators s)) as Hin by exact (bo_inbound s (proj1 Hs)).
  assert (∀ m, map_Forall (λ _, negotiator_ok) m → swarm_ok {| s' with inbound_negotiators := m |}) as Hm.
  { intros m Hm. apply (swarm_inbound s m Hs) in Hm. eapply swarm_emits; [|exact Hm]. destruct He as (ev & ac & -> & He). by exists ev, ac. }
  destruct He as (ev & ac & -> & He). cbn in *. split.
  - apply Hm. rewrite delete_insert_eq. by apply map_Forall_delete.
  - intros Hn. apply Hm. by apply map_Forall_insert_2.
Qed.
Lemma put_inbound_twice k n n' s : put_inbound k n (put_inbound k n' s) = put_inbound k n s.
Proof. unfold put_inbound. cbn. by rewrite insert_insert_eq. Qed.

Lemma swarm_put_outbound k p s s' :
  swarm_ok s → tracked s k.1 → emits (put_outbound k p s) s' →
  swarm_ok {| s' with outbound_negotiators := delete k (outbound_negotiators s') |} ∧ (negotiator_ok (negotiator p) → swarm_ok s').
Proof.
  intros Hs Hk He. pose (P := λ (k : StreamKey) (p : PendingOutbound), tracked s k.1 ∧ negotiator_ok (negotiator p)).
  assert (map_Forall P (outbound_negotiators s)) as Hin by exact (bo_outbound s (proj1 Hs)).
  assert (∀ m, map_Forall P m → swarm_ok {| s' with outbound_negotiators := m |}) as Hm.
  { intros m Hm. apply (swarm_outbound s m Hs) in Hm. eapply swarm_emits; [|exact Hm]. destruct He as (ev & ac & -> & He). by exists ev, ac. }
  destruct He as (ev & ac & -> & He). cbn in *. split.
  - apply Hm. rewrite delete_insert_eq. by apply map_Forall_delete.
  - intros Hn. apply Hm. by apply map_Forall_insert_2.
Qed.
Lemma put_outbound_twice k n n' s : put_outbound k n (put_outbound k n' s) = put_outbound k n s.
Proof. unfold put_outbound. cbn. by rewrite insert_insert_eq. Qed.

(** The end of a negotiation: the negotiator gives back what it did not read,
    and is dropped. *)
Lemma finish_inbound {B} k s n (f : bytes → W B) (Q : B → SwarmCore → Prop) :
  inbound_negotiators s !! k = Some n →
  wp (f (recv_buf n)) Q (λ _ _, False) {| s with inbound_negotiators := delete k (inbound_negotiators s) |} →
  wp (r ← on_inbound k take_remaining_buffer; rest ← lift (remaining r); _ ← remove_inbound k; f rest) Q (λ _ _, False) s.
Proof.
  intros Hn Hf. wp_step. unfold wp at 1, on_inbound, entry_call. rewrite Hn. cbn [id].
  change (take_remaining_buffer n) with ({| n with recv_buf := [] |}, Ok (E := MultistreamError) (recv_buf n)). cbn iota.
  wp_step. apply wp_lift. cbn [remaining]. wp_step. unfold remove_inbound. wp_step. cbn. by rewrite delete_insert_eq.
Qed.
Lemma finish_outbound {B} k s p (f : bytes → W B) (Q : B → SwarmCore → Prop) :
  outbound_negotiators s !! k = Some p →
  wp (f (recv_buf (negotiator p))) Q (λ _ _, False) {| s with outbound_negotiators := delete k (outbound_negotiators s) |} →
  wp (r ← on_outbound k take_remaining_buffer; rest ← lift (remaining r); _ ← remove_outbound k; f rest) Q (λ _ _, False) s.
Proof.
  intros Hn Hf. wp_step. unfold wp at 1, on_outbound, entry_call. rewrite Hn.
  change (take_remaining_buffer (negotiator p)) with
    ({| (negotiator p) with recv_buf := [] |}, Ok (E := MultistreamError) (recv_buf (negotiator p))). cbn iota.
  wp_step. apply wp_lift. cbn [remaining]. wp_step. unfold remove_outbound. wp_step. cbn. by rewrite delete_insert_eq.
Qed.

Lemma feed_inbound_keeps c st d now : keeps (feed_inbound_negotiator c st d now).
Proof.
  intros s Hs. unfold feed_inbound_negotiator. wp_step. unfold wp at 1, on_inbound at 1, entry_call.
  destruct (inbound_negotiators s !! (c, st)) as [n|] eqn:Hn; [|by wp_step]. cbn [id].
  destruct (bo_inbound s (proj1 Hs) _ _ Hn) as [Hok _]. destruct (select_input (Data d) n Hok) as (n1 & r & -> & Hok1 & Hr).
  destruct r as [[]|e| |]; [| |destruct Hr|destruct Hr].
  - wp_step. wp_step. cbn beta. wp_step.
    assert (inbound_negotiators (put_inbound (c, st) n1 s) !! (c, st) = Some n1) as Hn1 by apply lookup_insert_eq.
    eapply wp_mono; [apply (drain_inbound_spec _ c st None _ n1 Hn1 Hok1); by rewrite Hn1| |done]. intros r s1 (n2 & He & Hok2 & Hrest).
    rewrite put_inbound_twice in He. destruct (swarm_put_inbound _ _ _ _ Hs He) as [Hdrop Hkeep].
    assert (inbound_negotiators s1 !! (c, st) = Some n2) as Hn2 by (destruct He as (? & ? & -> & _); apply lookup_insert_eq).
    destruct r as [[protocol|]|].
    + apply (finish_inbound _ _ n2); [done|]. wp_step. eapply wp_mono; [by apply inbound_negotiated_keeps| |done].
      intros u s2 Hs2. by apply dispatch_remaining_keeps.
    + wp_step. apply Hkeep. split; [done|]. by apply Hrest.
    + unfold remove_inbound. wp_step. wp_step. by apply keeps_emitting; [apply emitting_action|].
  - wp_step. eapply wp_mono; [apply emitting_error| |done]. intros u s1 He.
    destruct (swarm_put_inbound _ _ _ _ Hs He) as [Hdrop _]. unfold remove_inbound. wp_step. wp_step.
    by apply keeps_emitting; [apply emitting_action|].
Qed.

Lemma feed_outbound_keeps c st d now : keeps (feed_outbound_negotiator c st d now).
Proof.
  intros s Hs. unfold feed_outbound_negotiator. wp_step. unfold wp at 1, on_outbound at 1, entry_call.
  destruct (outbound_negotiators s !! (c, st)) as [p|] eqn:Hn; [|wp_step; wp_step; by wp_step].
  destruct (bo_outbound s (proj1 Hs) _ _ Hn) as [Ht [Hok _]]. destruct (select_input (Data d) (negotiator p) Hok) as (n1 & r & -> & Hok1 & Hr).
  set (p1 := {| p with negotiator := n1 |}).
  assert (outbound_negotiators (put_outbound (c, st) p1 s) !! (c, st) = Some p1) as Hn1 by apply lookup_insert_eq.
  destruct r as [[]|e| |]; [| |destruct Hr|destruct Hr]; wp_step; wp_step; rewrite Hn1.
  - wp_step. eapply wp_mono; [apply (drain_outbound_spec _ c st false _ p1 Hn1 Hok1); done| |done]. intros r s1 (n2 & He & Hok2 & Hrest).
    rewrite put_outbound_twice in He. destruct (swarm_put_outbound _ _ _ _ Hs Ht He) as [Hdrop Hkeep].
    destruct r as [[|]|].
    + eapply (finish_outbound _ _ {| p1 with negotiator := n2 |}); [destruct He as (? & ? & -> & _); apply lookup_insert_eq|].
      wp_step. eapply wp_mono; [by apply outbound_negotiated_keeps| |done]. intros u s2 Hs2. by apply dispatch_remaining_keeps.
    + wp_step. apply Hkeep. split; [done|]. by apply Hrest.
    + unfold remove_outbound. wp_step. wp_step. by apply keeps_emitting; [apply emitting_action|].
  - wp_step. eapply wp_mono; [apply emitting_error| |done]. intros u s1 He.
    destruct (swarm_put_outbound _ _ _ _ Hs Ht He) as [Hdrop _]. unfold remove_outbound. wp_step. wp_step.
    by apply keeps_emitting; [apply emitting_action|].
Qed.

(** ** Opening streams *)

Lemma take_open_token_spec s :
  0 ≤ next_open_token s ≤ u64_max →
  wp take_open_token (λ t s', ∃ next, s' = {| s with next_open_token := next |} ∧ 0 ≤ next ≤ u64_max ∧ 0 < t ≤ u64_max) (λ _ _, False) s.
Proof.
  intros Hn. assert (∀ x, 0 ≤ x mod (u64_max + 1) ≤ u64_max) as Hmod.
  { intros x. pose proof (Z.mod_pos_bound x (u64_max + 1) ltac:(done)). lia. }
  unfold take_open_token. wp_steps; cbn in *.
  - eexists. split; [reflexivity|]. split; [apply Hmod|]. apply negb_true_iff, Z.eqb_neq in Heqb. lia.
  - eexists. split; [reflexivity|]. split; [apply Hmod|]. apply negb_true_iff, Z.eqb_neq in Heqb0. specialize (Hmod (next_open_token s + 1)). lia.
  - apply negb_false_iff, Z.eqb_eq in Heqb. rewrite Heqb in *. by apply negb_false_iff in Heqb0.
Qed.

(** The state after an open is queued. *)
Definition opening c proto kind tok next s : SwarmCore :=
  {| s with next_open_token := next; pending_opens := <[tok := mkPendingOpen c proto kind]> (pending_opens s);
            actions := actions s ++ [OpenStream c tok] |}.
Lemma queue_open_spec p c proto kind s :
  peer_to_conn s !! p = Some c → conn_to_peer s !! c = Some p → 0 ≤ next_open_token s ≤ u64_max →
  wp (queue_open_protocol_stream p proto kind)
    (λ _ s', ∃ tok next, s' = opening c proto kind tok next s ∧ 0 ≤ next ≤ u64_max) (λ _ _, False) s.
Proof.
  intros Hp Hc Hn. unfold queue_open_protocol_stream, require_conn, push_action. wp_step. apply wp_reads. rewrite Hp. cbn [ok_or].
  wp_step. apply wp_reads. rewrite bool_decide_true by done. wp_step. eapply wp_mono; [by apply take_open_token_spec| |done].
  intros tok s1 (next & -> & Hnext & Htok). wp_steps. by exists tok, next.
Qed.
Lemma opening_ok c proto kind tok next s :
  swarm_ok s → tracked s c → 0 ≤ next ≤ u64_max → swarm_ok (opening c proto kind tok next s).
Proof.
  intros (Hb & Hm & Hr) Hc Hn. split_and!; [|done|done]. books Hb.
  intros t o. destruct (decide (tok = t)) as [->|]; [rewrite lookup_insert_eq; by intros [= <-]|rewrite lookup_insert_ne by done; apply bo_opens0].
Qed.
(** Asking for a stream to a peer that is connected. *)
Lemma queue_open_ok p proto kind s :
  swarm_ok s → is_Some (peer_to_conn s !! p) → wp (queue_open_protocol_stream p proto kind) (λ _, swarm_ok) (λ _ _, False) s.
Proof.
  intros Hs [c Hc]. pose proof (bo_active s (proj1 Hs) _ _ Hc) as Hp.
  eapply wp_mono; [apply (queue_open_spec p c); [done..|apply (bo_token s (proj1 Hs))]| |done].
  intros u s1 (tok & next & -> & Hn). apply opening_ok; [done| |done]. by exists p.
Qed.
(** What has been announced about connections and is not polled yet. *)
Definition slots s : list SwarmEvent := filter (λ e, slot_event e = true) (events s).
Lemma queue_or_report_ok kind c p d proto target s :
  swarm_ok s → peer_to_conn s !! p = Some d →
  wp (queue_or_report kind c p proto target)
    (λ _ s', swarm_ok s' ∧ peer_to_conn s' = peer_to_conn s ∧ slots s' = slots s ∧
       after_event_actions s' = after_event_actions s ∧ ∃ tok, actions s' = actions s ++ [OpenStream d tok]) (λ _ _, False) s.
Proof.
  intros Hs Hd. pose proof (bo_active s (proj1 Hs) _ _ Hd) as Hp.
  pose proof (queue_open_spec p d proto target s Hd Hp (bo_token s (proj1 Hs))) as Hw. unfold wp, queue_or_report in *.
  destruct (queue_open_protocol_stream p proto target s) as [s' [u|e| |]]; try done.
  destruct Hw as (tok & next & -> & Hn). split_and!; [|done|done|done|by exists tok]. apply opening_ok; [done| |done]. by exists p.
Qed.

(** ** Connections *)

(** What is left when a connection [c] of [p] is forgotten. *)
Lemma books_forget c p s info rd :
  books_ok s → conn_to_peer s !! c = Some p →
  (∀ q, q ∈ rd → is_Some (info !! q) ∧ is_Some (peer_to_conn s !! q)) →
  books_ok {| s with
    conn_to_peer := delete c (conn_to_peer s); peer_to_conn := delete p (peer_to_conn s);
    peer_info := delete p info; ready_peers := rd ∖ {[p]}; established_peers := established_peers s ∖ {[p]};
    stream_owner := filter (λ kv, kv.1.1 ≠ c) (stream_owner s);
    reset_pending := filter (λ k, k.1 ≠ c) (reset_pending s);
    abandoned_streams := filter (λ k, k.1 ≠ c) (abandoned_streams s);
    inbound_negotiators := filter (λ kv, kv.1.1 ≠ c) (inbound_negotiators s);
    outbound_negotiators := filter (λ kv, kv.1.1 ≠ c) (outbound_negotiators s);
    pending_opens := filter (λ kv, open_conn_id kv.2 ≠ c) (pending_opens s) |}.
Proof.
  intros Hb Hc Hrd.
  assert (∀ c', tracked s c' → c' ≠ c → is_Some (delete c (conn_to_peer s) !! c')) as Ht.
  { intros c' Hc' Hne. by rewrite lookup_delete_ne. }
  destruct Hb. constructor; unfold tracked in *; cbn; try done.
  - intros q d [Hne Hq]%lookup_delete_Some. apply bo_active0 in Hq. rewrite lookup_delete_ne by congruence. done.
  - intros q [Hq Hne]%elem_of_difference. rewrite lookup_delete_ne by set_solver. auto.
  - intros q [Hq Hne]%elem_of_difference. rewrite !lookup_delete_ne by set_solver. auto.
  - intros t o [Ho Hne]%map_lookup_filter_Some. eauto.
  - intros k o [Ho Hne]%map_lookup_filter_Some. eauto.
  - intros k o [[? ?]%bo_outbound0 Hne]%map_lookup_filter_Some. eauto.
  - intros k n [Hn _]%map_lookup_filter_Some. eauto.
  - intros k [Hne Hk]%elem_of_filter. eauto.
  - intros k [Hne Hk]%elem_of_filter. eauto.
Qed.

(** Machines at rest have nothing to say. *)
Lemma idle_ping pg : Ping.is_idle pg = true → pending_actions pg = [] ∧ pending_events (PeerId := PeerId) pg = [].
Proof. unfold Ping.is_idle. intros [?%bool_decide_eq_true ?%bool_decide_eq_true]%andb_prop. done. Qed.
Lemma idle_identify (i : IdentifyProtocol (Multihash := Multihash)) : Identify_is_idle i = true → id_actions i = [] ∧ id_events i = [].
Proof. unfold Identify_is_idle. intros [?%bool_decide_eq_true ?%bool_decide_eq_true]%andb_prop. done. Qed.
Lemma drain_ping_idle s : Ping.is_idle (ping s) = true → drain_ping_outputs s = (s, Ok tt).
Proof.
  intros [Ha He]%idle_ping. unfold drain_ping_outputs. rewrite Ha, He. cbn [length Nat.add drain_nested]. unfold mbind, M_bind, on_ping, nested.
  unfold Ping.poll_output. rewrite Ha, He. by destruct s.
Qed.
Lemma drain_identify_idle s : Identify_is_idle (identify s) = true → drain_identify_outputs s = (s, Ok tt).
Proof.
  intros [Ha He]%idle_identify. unfold drain_identify_outputs. rewrite Ha, He. cbn [length Nat.add drain_nested].
  unfold mbind, M_bind, on_identify, nested, Identify_poll_output. rewrite Ha, He. by destruct s.
Qed.

(** The two protocols without a peer. *)
Definition machines_without (p : PeerId) s : SwarmCore :=
  {| s with ping := {| (ping s) with peers := delete p (peers (ping s)) |};
            identify := {| (identify s) with id_peers := delete p (id_peers (identify s)) |} |}.
Lemma tell_removed {B} p s (f : unit → W B) :
  at_rest s →
  (_ ← inform_ping (Ping.RemovePeer p); _ ← inform_identify (IRemovePeer p); _ ← drain_ping_outputs; u ← drain_identify_outputs; f u) s
  = f tt (machines_without p s).
Proof.
  intros [Hp Hi].
  rewrite (run_ok (inform_ping (Ping.RemovePeer p)) _ s {| s with ping := {| (ping s) with peers := delete p (peers (ping s)) |} |} tt) by done.
  rewrite (run_ok (inform_identify (IRemovePeer p)) _ _ (machines_without p s) tt) by done.
  rewrite (run_ok _ _ _ _ _ (drain_ping_idle (machines_without p s) Hp)).
  by rewrite (run_ok _ _ _ _ _ (drain_identify_idle (machines_without p s) Hi)).
Qed.
Lemma machines_without_ok p s : machines_ok s → at_rest s → machines_ok (machines_without p s) ∧ at_rest (machines_without p s).
Proof. intros [Hp Hi] Hr. split; [|done]. split; by apply map_Forall_delete. Qed.

(** A connection's streams are dropped; so is what is known of its peer. *)
Definition drop_streams (c : Z) s : SwarmCore := {| s with
  conn_to_remote_addr := delete c (conn_to_remote_addr s);
  stream_owner := filter (λ kv, kv.1.1 ≠ c) (stream_owner s);
  reset_pending := filter (λ k, k.1 ≠ c) (reset_pending s);
  abandoned_streams := filter (λ k, k.1 ≠ c) (abandoned_streams s);
  inbound_negotiators := filter (λ kv, kv.1.1 ≠ c) (inbound_negotiators s);
  outbound_negotiators := filter (λ kv, kv.1.1 ≠ c) (outbound_negotiators s);
  pending_opens := filter (λ kv, open_conn_id kv.2 ≠ c) (pending_opens s) |}.
Definition drop_peer (p : PeerId) s : SwarmCore := {| (machines_without p s) with
  ping_deadlines := delete p (ping_deadlines s);
  peer_info := delete p (peer_info s);
  ready_peers := ready_peers s ∖ {[p]};
  established_peers := established_peers s ∖ {[p]} |}.
Definition superseded (c : Z) (p : PeerId) s : SwarmCore := {| (drop_streams c (drop_peer p s)) with
  conn_to_peer := delete c (conn_to_peer s);
  events := events s ++ [ConnectionClosed p c CloseSuperseded];
  actions := filter (λ a, connection_action_matches a c = false) (actions s);
  after_event_actions := filter (λ a, connection_action_matches a c = false) (after_event_actions s) ++ [CloseConnection c] |}.
Definition closed (c : Z) (p : PeerId) s : SwarmCore := {| (drop_streams c (drop_peer p s)) with
  conn_to_peer := delete c (conn_to_peer s);
  peer_to_conn := delete p (peer_to_conn s);
  pending_pings := delete p (pending_pings s);
  events := events s ++ [ConnectionClosed p c CloseTransport] |}.

Lemma supersede_peer_run c p s :
  at_rest s →
  supersede_peer c p s =
    ({| (drop_peer p s) with conn_to_peer := delete c (conn_to_peer s); events := events s ++ [ConnectionClosed p c CloseSuperseded] |}, Ok tt).
Proof.
  intros Hr. unfold supersede_peer.
  etransitivity; [exact (tell_removed p
    {| s with conn_to_peer := delete c (conn_to_peer s); events := events s ++ [ConnectionClosed p c CloseSuperseded];
              pending_pings := delete p (pending_pings s) |} _ Hr)|].
  unfold forget_peer, queue_ping. cbn [pending_pings]. destruct (pending_pings s !! p) as [payload|] eqn:Hp; run_simpl.
  - unfold drop_peer, machines_without. cbn. by rewrite insert_delete_eq, insert_id.
  - unfold drop_peer, machines_without. cbn. by rewrite (delete_id (pending_pings s)).
Qed.
Lemma supersede_run c p s :
  at_rest s → conn_to_peer s !! c = Some p → supersede_connection c s = (superseded c p s, Ok tt).
Proof.
  intros Hr Hc. unfold supersede_connection. rewrite run_gets, Hc. by rewrite (run_ok _ _ _ _ _ (supersede_peer_run c p s Hr)).
Qed.

Lemma closed_run c p s :
  at_rest s → conn_to_peer s !! c = Some p → peer_to_conn s !! p = Some c →
  handle_connection_closed c s = (closed c p s, Ok tt).
Proof.
  intros Hr Hc Ha. unfold handle_connection_closed.
  rewrite (run_ok _ _ s {| s with conn_to_remote_addr := delete c (conn_to_remote_addr s) |} tt) by done.
  rewrite run_gets. cbn [conn_to_peer]. rewrite Hc.
  rewrite (run_ok _ _ _ {| (drop_peer p s) with conn_to_remote_addr := delete c (conn_to_remote_addr s);
    conn_to_peer := delete c (conn_to_peer s); peer_to_conn := delete p (peer_to_conn s);
    pending_pings := delete p (pending_pings s); events := events s ++ [ConnectionClosed p c CloseTransport] |} tt); [done|].
  rewrite (run_ok _ _ _ {| s with conn_to_remote_addr := delete c (conn_to_remote_addr s);
    conn_to_peer := delete c (conn_to_peer s) |} tt) by done.
  rewrite run_gets. cbn [peer_to_conn]. rewrite bool_decide_true by done. unfold close_active.
  exact (tell_removed p {| s with conn_to_remote_addr := delete c (conn_to_remote_addr s);
    conn_to_peer := delete c (conn_to_peer s); peer_to_conn := delete p (peer_to_conn s) |} _ Hr).
Qed.
(** A connection that is not its peer's active one. *)
Lemma closed_other_run c s :
  (∀ p, conn_to_peer s !! c = Some p → peer_to_conn s !! p ≠ Some c) →
  handle_connection_closed c s = ({| (drop_streams c s) with conn_to_peer := delete c (conn_to_peer s) |}, Ok tt).
Proof.
  intros Hna. unfold handle_connection_closed.
  rewrite (run_ok _ _ s {| s with conn_to_remote_addr := delete c (conn_to_remote_addr s) |} tt) by done.
  rewrite run_gets. cbn [conn_to_peer]. destruct (conn_to_peer s !! c) as [p|] eqn:Hc.
  - rewrite (run_ok _ _ _ {| s with conn_to_remote_addr := delete c (conn_to_remote_addr s);
      conn_to_peer := delete c (conn_to_peer s) |} tt); [done|].
    rewrite (run_ok _ _ _ {| s with conn_to_remote_addr := delete c (conn_to_remote_addr s);
      conn_to_peer := delete c (conn_to_peer s) |} tt) by done.
    rewrite run_gets. cbn [peer_to_conn]. by rewrite bool_decide_false by (by apply Hna).
  - unfold mret, M_ret, forget_connection. run_simpl. unfold drop_streams. cbn. by rewrite (delete_id (conn_to_peer s)).
Qed.

Lemma forget_ok c p s s' :
  swarm_ok s → conn_to_peer s !! c = Some p → books_ok s' →
  ping s' = ping (machines_without p s) → identify s' = identify (machines_without p s) → swarm_ok s'.
Proof.
  intros (_ & Hm & Hr) _ Hb Hp Hi. destruct (machines_without_ok p s Hm Hr) as [Hm' Hr'].
  split; [done|]. unfold machines_ok, at_rest. by rewrite Hp, Hi.
Qed.
Lemma closed_ok c p s : swarm_ok s → conn_to_peer s !! c = Some p → swarm_ok (closed c p s).
Proof.
  intros Hs Hc. apply (forget_ok c p s); [done..| |done|done].
  pose proof (books_forget c p s (peer_info s) (ready_peers s) (proj1 Hs) Hc (bo_ready s (proj1 Hs))) as Hb. by books Hb.
Qed.
Lemma superseded_ok old c p s :
  swarm_ok s → conn_to_peer s !! old = Some p → conn_to_peer s !! c = None → swarm_ok (with_peer c p (superseded old p s)).
Proof.
  intros Hs Ho Hc.
  assert (swarm_ok {| (superseded old p s) with peer_to_conn := delete p (peer_to_conn s) |}) as H1.
  { apply (forget_ok old p s); [done..| |done|done].
    pose proof (books_forget old p s (peer_info s) (ready_peers s) (proj1 Hs) Ho (bo_ready s (proj1 Hs))) as Hb. by books Hb. }
  apply (with_peer_ok c p) in H1; [|by apply lookup_delete_None; right]. unfold with_peer in *. cbn in *. by rewrite insert_delete_eq in H1.
Qed.
Lemma closed_other_ok c s :
  swarm_ok s → (∀ p, conn_to_peer s !! c = Some p → peer_to_conn s !! p ≠ Some c) →
  swarm_ok {| (drop_streams c s) with conn_to_peer := delete c (conn_to_peer s) |}.
Proof.
  intros (Hb & Hm & Hr) Hna. split_and!; [|done|done].
  assert (∀ c', tracked s c' → c' ≠ c → is_Some (delete c (conn_to_peer s) !! c')) as Ht.
  { intros c' Hc' Hne. by rewrite lookup_delete_ne. }
  destruct Hb. constructor; unfold tracked in *; cbn; try done.
  - intros q d Hq. pose proof (bo_active0 q d Hq) as Hd. rewrite lookup_delete_ne; [done|]. intros ->. by apply (Hna q).
  - intros t o [Ho Hne]%map_lookup_filter_Some. eauto.
  - intros k o [Ho Hne]%map_lookup_filter_Some. eauto.
  - intros k o [[? ?]%bo_outbound0 Hne]%map_lookup_filter_Some. eauto.
  - intros k n [Hn _]%map_lookup_filter_Some. eauto.
  - intros k [Hne Hk]%elem_of_filter. eauto.
  - intros k [Hne Hk]%elem_of_filter. eauto.
Qed.
Lemma connection_closed_keeps c : keeps (handle_connection_closed c).
Proof.
  intros s Hs. unfold wp. pose proof Hs as (Hb & Hm & Hr).
  destruct (conn_to_peer s !! c) as [p|] eqn:Hc; [destruct (decide (peer_to_conn s !! p = Some c)) as [Ha|Ha]|].
  - rewrite (closed_run c p) by done. by apply closed_ok.
  - rewrite closed_other_run by (intros q; congruence). apply closed_other_ok; [done|]. intros q; congruence.
  - rewrite closed_other_run by (intros q; congruence). apply closed_other_ok; [done|]. intros q; congruence.
Qed.

Lemma established_ok p s : swarm_ok s → is_Some (peer_to_conn s !! p) → swarm_ok {| s with established_peers := {[p]} ∪ established_peers s |}.
Proof.
  intros (Hb & Hm & Hr) Hp. split_and!; [|done|done]. books Hb. intros q [->%elem_of_singleton|Hq]%elem_of_union; auto.
Qed.

(** The announcement of a new connection. *)
Lemma swarm_event e s : swarm_ok s → swarm_ok {| s with events := events s ++ [e] |}.
Proof. intros (Hb & Hm & Hr). split_and!; [|done|done]. by books Hb. Qed.

Lemma slots_event e s : slots {| s with events := events s ++ [e] |} = slots s ++ (if slot_event e then [e] else []).
Proof. unfold slots. cbn. rewrite filter_app. f_equal. rewrite filter_cons. by destruct (slot_event e). Qed.
Lemma slots_quiet s s' : quiet s s' → slots s' = slots s ∧ peer_to_conn s' = peer_to_conn s.
Proof.
  intros (pg & idf & dl & info & rd & ev & ac & -> & He & _). split; [|done]. unfold slots. cbn. rewrite filter_app.
  replace (filter (λ e, slot_event e = true) ev) with (@nil SwarmEvent); [by rewrite app_nil_r|].
  induction He as [|e ev He _ IH]; [done|]. rewrite filter_cons, He. exact IH.
Qed.

(** The connection a peer had, when another one is registered. *)
Definition replaced (p : PeerId) s : list SwarmEvent :=
  match peer_to_conn s !! p with Some old => [ConnectionClosed p old CloseSuperseded] | None => [] end.

(** The driver is asked to close the replaced connection, after everything that
    is announced; nothing else is asked about it. *)
Definition lets_go (p : PeerId) (acts after : list SwarmAction) s : Prop :=
  match peer_to_conn s !! p with
  | Some old =>
      Forall (λ a, connection_action_matches a old = false) acts ∧
      ∃ before, after = before ++ [CloseConnection old] ∧ Forall (λ a, connection_action_matches a old = false) before
  | None => True
  end.

Lemma Forall_not_about old (l : list SwarmAction) :
  Forall (λ a, connection_action_matches a old = false) (filter (λ a, connection_action_matches a old = false) l).
Proof. apply Forall_forall. by intros a [? _]%list_elem_of_filter. Qed.

Lemma register_prefix {B} c p s (f : unit → W B) Q :
  swarm_ok s → conn_to_peer s !! c = None →
  (∀ s1, swarm_ok s1 → peer_to_conn s1 = <[p := c]> (peer_to_conn s) → slots s1 = slots s ++ replaced p s →
     lets_go p (actions s1) (after_event_actions s1) s → wp (f tt) Q (λ _ _, False) s1) →
  wp (existing ← gets (λ s, peer_to_conn s !! p);
      _ ← match existing with
          | Some existing_id => if negb (existing_id =? c) then supersede_connection existing_id else mret tt
          | None => mret tt
          end;
      u ← modify (with_peer c p); f u) Q (λ _ _, False) s.
Proof.
  intros Hs Hc Hf. pose proof Hs as (Hb & Hm & Hr). wp_step. wp_step. unfold replaced, lets_go in Hf. destruct (peer_to_conn s !! p) as [old|] eqn:Hp.
  - pose proof (bo_active s Hb _ _ Hp) as Ho. destruct (Z.eqb_spec old c) as [->|Hne]; [congruence|]. cbn [negb].
    wp_step. unfold wp at 1. rewrite (supersede_run old p) by done. wp_step. wp_step. apply Hf; [by apply superseded_ok|done| |].
    + exact (slots_event (ConnectionClosed p old CloseSuperseded) s).
    + split; [apply Forall_not_about|]. eexists. split; [done|apply Forall_not_about].
  - wp_step. wp_step. wp_step. wp_step. apply Hf; [by apply with_peer_ok|done|by rewrite app_nil_r|done].
Qed.

Lemma lets_go_opening p c tok acts after s :
  conn_to_peer s !! c = None → (∀ old, peer_to_conn s !! p = Some old → conn_to_peer s !! old = Some p) →
  lets_go p acts after s → lets_go p (acts ++ [OpenStream c tok]) after s.
Proof.
  intros Hc Ho. unfold lets_go. destruct (peer_to_conn s !! p) as [old|]; [|done]. intros [Ha Hl]. split; [|done].
  apply Forall_app. split; [done|]. constructor; [|done]. apply Z.eqb_neq. specialize (Ho old eq_refl). congruence.
Qed.

Lemma register_spec c p s :
  swarm_ok s → conn_to_peer s !! c = None →
  wp (register_connection c p)
    (λ _ s', swarm_ok s' ∧ peer_to_conn s' = <[p := c]> (peer_to_conn s) ∧
       slots s' = slots s ++ replaced p s ++ [ConnectionEstablished p c] ∧
       lets_go p (actions s') (after_event_actions s') s) (λ _ _, False) s.
Proof.
  intros Hs Hc. unfold register_connection. wp_step. wp_step. rewrite bool_decide_false by (rewrite Hc; by intros []). cbn [negb].
  apply (register_prefix c p); [done..|]. intros s1 Hs1 Hp1 Hsl1 Hl1.
  assert (peer_to_conn s1 !! p = Some c) as Hc1 by (by rewrite Hp1, lookup_insert_eq).
  unfold push_event. wp_step. wp_step. wp_step. wp_step. cbn beta.
  pose (s2 := {| s1 with established_peers := {[p]} ∪ established_peers s1; events := events s1 ++ [ConnectionEstablished p c] |}).
  assert (swarm_ok s2) as Hs2 by exact (swarm_event _ _ (established_ok p s1 Hs1 (mk_is_Some _ _ Hc1))).
  assert (slots s2 = slots s ++ replaced p s ++ [ConnectionEstablished p c]) as Hsl2.
  { rewrite app_assoc, <- Hsl1. exact (slots_event (ConnectionEstablished p c) s1). }
  assert (lets_go p (actions s2) (after_event_actions s2) s) as Hl2 by exact Hl1.
  assert (peer_to_conn s2 = <[p := c]> (peer_to_conn s)) as Hp2 by exact Hp1. wp_state s2. clearbody s2. clear s1 Hs1 Hp1 Hsl1 Hc1 Hl1.
  pose proof (λ tok acts after, lets_go_opening p c tok acts after s Hc (bo_active s (proj1 Hs) p)) as Hopen.
  assert (peer_to_conn s2 !! p = Some c) as Hc2 by (by rewrite Hp2, lookup_insert_eq).
  wp_step. eapply wp_mono; [by apply (queue_or_report_ok _ _ _ c)| |done]. intros u s3 (Hs3 & Hp3 & Hsl3 & Haf3 & tok3 & Hac3).
  assert (lets_go p (actions s3) (after_event_actions s3) s) as Hl3 by (rewrite Hac3, Haf3; auto). wp_step. wp_step. cbn beta.
  wp_step; [|wp_step; split_and!; congruence].
  eapply wp_mono; [apply (queue_or_report_ok _ _ _ c); [done|by rewrite Hp3]| |done]. intros u' s4 (Hs4 & Hp4 & Hsl4 & Haf4 & tok4 & Hac4).
  split_and!; [done|congruence|congruence|]. rewrite Hac4, Haf4. auto.
Qed.

(** ** Identities that become known *)

Lemma tell_migrated old new s :
  machines_ok s → at_rest s →
  ∃ pg idf, ping_ok pg ∧ identify_ok idf ∧ Ping.is_idle pg = true ∧ Identify_is_idle idf = true ∧
    ∀ (f : unit → W unit),
    (_ ← inform_ping (Ping.MigratePeer old new); _ ← inform_identify (IMigratePeer old new); _ ← drain_ping_outputs; u ← drain_identify_outputs; f u) s
    = f tt {| s with ping := pg; identify := idf |}.
Proof.
  intros [Hp Hi] [[Hpa Hpe]%idle_ping [Hia Hie]%idle_identify].
  pose proof (handle_input_ok (ping s) (Ping.MigratePeer old new) Hp) as Hw. unfold wp in Hw.
  pose proof (identify_input_ok (IMigratePeer old new) (identify s) Hi) as Hv. unfold wp in Hv.
  destruct (Ping.handle_input (Ping.MigratePeer old new) (ping s)) as [pg r] eqn:Hrun.
  destruct (Identify_handle_input (IMigratePeer old new) (identify s)) as [idf r'] eqn:Hrun'.
  assert (r = Ok tt ∧ Ping.is_idle pg = true) as [-> Hpi].
  { revert Hrun. cbn [Ping.handle_input]. unfold Ping.migrate_peer. case_bool_decide; run_simpl; intros [= <- <-]; (split; [done|]);
      unfold Ping.is_idle; [by rewrite Hpa, Hpe|]. destruct (peers (ping s) !! old); cbn; by rewrite Hpa, Hpe. }
  assert (r' = Ok tt ∧ Identify_is_idle idf = true) as [-> Hii].
  { revert Hrun'. cbn [Identify_handle_input]. unfold Identify.migrate_peer. case_decide; run_simpl; [|destruct (id_peers (identify s) !! old)];
      intros [= <- <-]; (split; [done|]); unfold Identify_is_idle; cbn; by rewrite Hia, Hie. }
  exists pg, idf. split_and!; try done. intros f.
  rewrite (run_ok (inform_ping (Ping.MigratePeer old new)) _ s {| s with ping := pg |} tt);
    [|unfold inform_ping, on_ping, nested; run_simpl; by rewrite Hrun].
  rewrite (run_ok (inform_identify (IMigratePeer old new)) _ _ {| s with ping := pg; identify := idf |} tt);
    [|unfold inform_identify, on_identify, nested; run_simpl; cbn [identify]; by rewrite Hrun'].
  rewrite (run_ok _ _ _ _ _ (drain_ping_idle {| s with ping := pg; identify := idf |} Hpi)).
  by rewrite (run_ok _ _ _ _ _ (drain_identify_idle {| s with ping := pg; identify := idf |} Hii)).
Qed.

(** What was kept for [stale] is kept for [new]. *)
Definition renamed (stale new : PeerId) pg idf s : SwarmCore := {| s with
  ping := pg; identify := idf;
  peer_to_conn := delete stale (peer_to_conn s);
  pending_pings := move_key stale new (pending_pings s);
  ping_deadlines := move_key stale new (ping_deadlines s);
  peer_info := move_key stale new (peer_info s);
  ready_peers := move_member stale new (ready_peers s);
  established_peers := move_member stale new (established_peers s);
  events := migrate_event stale new <$> events s |}.
Definition known_as (c : Z) (p : PeerId) s : SwarmCore := {| (with_peer c p s) with established_peers := {[p]} ∪ established_peers s |}.

Lemma migrate_run stale new s :
  machines_ok s → at_rest s →
  ∃ pg idf, ping_ok pg ∧ identify_ok idf ∧ Ping.is_idle pg = true ∧ Identify_is_idle idf = true ∧
    migrate_peer_state stale new s = (renamed stale new pg idf s, Ok tt).
Proof.
  intros Hm Hr. unfold migrate_peer_state. destruct (tell_migrated stale new {| s with peer_to_conn := delete stale (peer_to_conn s) |})
    as (pg & idf & H1 & H2 & H3 & H4 & Hrun); [exact Hm|exact Hr|]. exists pg, idf. split_and!; try done.
  rewrite (run_ok _ _ s {| s with peer_to_conn := delete stale (peer_to_conn s) |} tt) by done. apply Hrun.
Qed.

Lemma move_member_spec old new (x : gset PeerId) q : old ≠ new → q ∈ move_member old new x → q ≠ old ∧ (q = new ∧ old ∈ x ∨ q ∈ x).
Proof. intros Hne. unfold move_member. case_bool_decide; set_solver. Qed.
Lemma move_key_is_Some {A} old new (m : gmap PeerId A) q : q ≠ old → is_Some (m !! q) ∨ q = new ∧ is_Some (m !! old) → is_Some (move_key old new m !! q).
Proof.
  intros Hq Hs. unfold move_key. destruct (m !! old) as [x|] eqn:Ho.
  - apply lookup_insert_is_Some'. destruct Hs as [Hs|[-> _]]; [right; by rewrite lookup_delete_ne|by left].
  - by destruct Hs as [?|[_ []]].
Qed.

Lemma renamed_ok c stale new pg idf s :
  swarm_ok s → conn_to_peer s !! c = Some stale → stale ≠ new → ping_ok pg → identify_ok idf →
  Ping.is_idle pg = true → Identify_is_idle idf = true → swarm_ok (known_as c new (renamed stale new pg idf s)).
Proof.
  intros (Hb & _) Hc Hne Hp Hi Hpi Hii. split_and!; [|done|done].
  destruct Hb. constructor; unfold tracked in *; cbn; try done.
  - intros q d. destruct (decide (new = q)) as [->|Hnq]; [rewrite !lookup_insert_eq; intros [= ->]; by rewrite lookup_insert_eq|].
    rewrite lookup_insert_ne by done. intros [Hsq Hq%bo_active0]%lookup_delete_Some. rewrite lookup_insert_ne; congruence.
  - intros q Hq. apply lookup_insert_is_Some'. apply elem_of_union in Hq as [->%elem_of_singleton|Hq]; [by left|].
    apply move_member_spec in Hq as [Hsq [[-> _]|Hq]]; [by left| |done]. right. rewrite lookup_delete_ne by done. auto.
  - intros q [Hsq Hq]%move_member_spec; [|done]. split.
    + apply move_key_is_Some; [done|]. destruct Hq as [[-> Hq%bo_ready0]|Hq%bo_ready0]; naive_solver.
    + apply lookup_insert_is_Some'. destruct Hq as [[-> _]|[_ Hq]%bo_ready0]; [by left|right; by rewrite lookup_delete_ne].
  - intros t o Ho%bo_opens0. by apply tracked_insert.
  - intros k o Ho%bo_owner0. by apply tracked_insert.
  - intros k o [? ?]%bo_outbound0. split; [by apply tracked_insert|done].
  - intros k Ho%bo_reset0. by apply tracked_insert.
  - intros k Ho%bo_abandoned0. by apply tracked_insert.
Qed.

Lemma announce_spec c p s :
  swarm_ok s → is_Some (peer_to_conn s !! p) →
  wp (_ ← push_event (ConnectionEstablished p c); _ ← try_emit_peer_ready p;
      queue_or_report KIdentify c p IDENTIFY_PROTOCOL_ID IdentifyInitiator)
    (λ _ s', swarm_ok s' ∧ peer_to_conn s' = peer_to_conn s ∧ slots s' = slots s ++ [ConnectionEstablished p c]) (λ _ _, False) s.
Proof.
  intros Hs Hp. wp_step. unfold push_event. wp_step. apply (swarm_event (ConnectionEstablished p c)) in Hs as Hs1.
  pose proof (slots_event (ConnectionEstablished p c) s) as Hsl. cbn [slot_event] in Hsl.
  wp_step. eapply wp_mono; [apply quietly_ready| |done]. intros u s2 (Hq & Hpg & Hid). destruct (slots_quiet _ _ Hq) as [Hsl2 Hp2].
  assert (swarm_ok s2) as Hs2.
  { destruct Hs1 as (Hb & Hm & Hr). split; [by eapply books_quiet|]. unfold machines_ok, at_rest. by rewrite Hpg, Hid. }
  destruct Hp as [d Hd]. eapply wp_mono; [apply (queue_or_report_ok _ _ _ d); [done|by rewrite Hp2]| |done].
  intros u' s3 (Hs3 & Hp3 & Hsl3 & _). split_and!; [done|by rewrite Hp3, Hp2|by rewrite Hsl3, Hsl2].
Qed.

Lemma slots_renamed stale new pg idf s : slots (renamed stale new pg idf s) = migrate_event stale new <$> slots s.
Proof.
  unfold slots. cbn. induction (events s) as [|e es IH]; [done|]. rewrite fmap_cons, !filter_cons.
  assert (slot_event (migrate_event stale new e) = slot_event e) as -> by (by destruct e).
  destruct (slot_event e); cbn; by rewrite IH.
Qed.

Lemma upgrade_spec c p s :
  swarm_ok s →
  wp (upgrade_connection_identity c p)
    (λ _ s', swarm_ok s' ∧
       if decide (conn_to_peer s !! c = Some p) then s' = s
       else match conn_to_peer s !! c with
            | Some stale => peer_to_conn s' = <[p := c]> (delete stale (peer_to_conn s)) ∧
                slots s' = (migrate_event stale p <$> slots s) ++ [ConnectionEstablished p c]
            | None => peer_to_conn s' = <[p := c]> (peer_to_conn s) ∧ slots s' = slots s ++ [ConnectionEstablished p c]
            end) (λ _ _, False) s.
Proof.
  intros Hs. unfold upgrade_connection_identity. wp_step. wp_step. case_decide as Hk; [rewrite bool_decide_true by done; by wp_step|].
  rewrite bool_decide_false by done. wp_step. pose proof Hs as (Hb & Hm & Hr).
  assert (∀ s1, swarm_ok (known_as c p s1) → wp (_ ← modify (known_as c p); _ ← push_event (ConnectionEstablished p c);
      _ ← try_emit_peer_ready p; queue_or_report KIdentify c p IDENTIFY_PROTOCOL_ID IdentifyInitiator)
      (λ _ s', swarm_ok s' ∧ peer_to_conn s' = <[p := c]> (peer_to_conn s1) ∧ slots s' = slots s1 ++ [ConnectionEstablished p c])
      (λ _ _, False) s1) as Hgo.
  { intros s1 Hs1. wp_step. wp_step. apply (announce_spec c p (known_as c p s1)); [done|]. cbn. rewrite lookup_insert_eq. by eexists. }
  destruct (conn_to_peer s !! c) as [stale|] eqn:Hc.
  - destruct (migrate_run stale p s Hm Hr) as (pg & idf & H1 & H2 & H3 & H4 & Hrun). unfold wp at 1. rewrite Hrun.
    eapply wp_mono; [apply Hgo, renamed_ok; done || congruence| |done]. cbn beta. intros u s' (Hs' & Hp' & Hsl'). rewrite slots_renamed in Hsl'. done.
  - wp_step. apply Hgo. apply (established_ok p (with_peer c p s)); [by apply with_peer_ok|]. cbn. rewrite lookup_insert_eq. by eexists.
Qed.

(** ** Inputs *)

Lemma incoming_stream_keeps c st : keeps (handle_incoming_stream c st).
Proof.
  intros s Hs. unfold handle_incoming_stream. wp_step. wp_step.
  assert (select_ok (listener (inbound_protocols s))) as Hl by (by intros [?|?]).
  destruct (select_input Start _ Hl) as (n & r & -> & Hn & Hr).
  assert (∀ s1, swarm_ok s1 → wp (_ ← modify (put_inbound (c, st) n); flush_inbound (length (pending_outputs n)) c st)
    (λ _, swarm_ok) (λ _ _, False) s1) as Hgo.
  { intros s1 Hs1. wp_step. wp_step. eapply wp_mono; [apply (flush_inbound_spec _ c st _ n); [apply lookup_insert_eq|done|done]| |done].
    intros u s2 (n' & He & Hok). rewrite put_inbound_twice in He. by destruct (swarm_put_inbound _ _ _ _ Hs1 He) as [_ Hkeep]; auto. }
  destruct r as [[]|e| |]; [| |destruct Hr|destruct Hr]; cbn beta zeta; wp_step; [wp_step; by apply Hgo|].
  eapply wp_mono; [apply (keeps_emitting (_ ← _; _)); [emit_steps|done]| |done]. intros u s1 Hs1. by apply Hgo.
Qed.
Lemma stream_data_keeps c st d now : keeps (handle_stream_data c st d now).
Proof.
  unfold handle_stream_data. apply keeps_bind; [apply keeps_emitting; emit_steps|]. intros []; [apply feed_inbound_keeps|].
  apply keeps_bind; [apply keeps_emitting; emit_steps|]. intros []; [apply feed_outbound_keeps|apply dispatch_keeps].
Qed.
Lemma tick_keeps now : keeps (handle_tick now).
Proof.
  intros s Hs. pose proof Hs as (Hb & [Hp Hi] & Hr). unfold handle_tick. wp_step. eapply wp_mono; [by apply inform_ping_spec| |done].
  intros u s1 (pg & -> & Hpg). wp_step. eapply wp_mono; [apply collect_spec; by split| |done]. intros u2 s2 Hse. wp_step.
  apply swarm_deadlines. eapply swarm_settled; [|exact Hse]. eapply books_quiet; [apply quiet_with_ping|done].
Qed.
Lemma take_pending_open_spec token s :
  swarm_ok s →
  wp (take_pending_open token) (λ o s', swarm_ok s' ∧ match o with Some o => tracked s' (open_conn_id o) | None => True end) (λ _ _, False) s.
Proof.
  intros Hs. unfold take_pending_open. wp_steps. split.
  - apply swarm_opens; [done|]. apply map_Forall_delete. exact (bo_opens s (proj1 Hs)).
  - destruct (pending_opens s !! token) as [o|] eqn:Ho; [|done]. exact (bo_opens s (proj1 Hs) _ _ Ho).
Qed.
Lemma stream_opened_keeps c st token now : keeps (handle_stream_opened c st token now).
Proof.
  intros s Hs. unfold handle_stream_opened. wp_step. eapply wp_mono; [by apply take_pending_open_spec| |done].
  intros [o|] s1 [Hs1 Ht]; cbn beta; [|by apply keeps_emitting; [emit_steps|]].
  destruct (Z.eqb_spec (open_conn_id o) c) as [<-|Hne]; cbn [negb]; [|by apply keeps_emitting; [emit_steps|]].
  assert (select_ok (dialer (open_protocol o))) as Hl by (by eexists).
  destruct (select_input Start _ Hl) as (n & r & -> & Hn & Hr).
  assert (∀ s2, swarm_ok s2 → tracked s2 (open_conn_id o) →
    wp (n ← flush_dialer (length (pending_outputs n)) (open_conn_id o) st n;
        modify (put_outbound (open_conn_id o, st) (mkPendingOutbound n (open_target o)))) (λ _, swarm_ok) (λ _ _, False) s2) as Hgo.
  { intros s2 Hs2 Ht2. wp_step. eapply wp_mono; [by apply flush_dialer_spec| |done]. intros n' s3 [He Hok]. wp_step.
    assert (tracked s3 (open_conn_id o)) by (by destruct He as (? & ? & -> & _)). apply (swarm_emits _ _ He) in Hs2.
    apply swarm_outbound; [done|]. apply map_Forall_insert_2; [done|]. exact (bo_outbound s3 (proj1 Hs2)). }
  destruct r as [[]|e| |]; [| |destruct Hr|destruct Hr]; cbn beta zeta; wp_step; [wp_step; by apply Hgo|].
  eapply wp_mono; [apply emitting_error| |done]. intros u s2 He. apply Hgo; [exact (swarm_emits _ _ He Hs1)|by destruct He as (? & ? & -> & _)].
Qed.
Lemma open_failed_keeps token reason now : keeps (handle_open_stream_failed token reason now).
Proof.
  intros s Hs. unfold handle_open_stream_failed. wp_step. eapply wp_mono; [by apply take_pending_open_spec| |done].
  intros [o|] s1 [Hs1 _]; by apply keeps_emitting; [emit_steps|].
Qed.

(** A transport announces a connection under an id that is not in use. *)
Definition admissible s (i : SwarmInput (Multihash := Multihash)) : Prop :=
  match i with Transport (Connected c _) _ => conn_to_peer s !! c = None | _ => True end.

Lemma handle_input_keeps i s : swarm_ok s → admissible s i → wp (handle_input i) (λ _, swarm_ok) (λ _ _, False) s.
Proof.
  intros Hs Ha. destruct i as [e now|now|c st tok now|tok reason now|err]; cbn [handle_input].
  2: by apply tick_keeps. 2: by apply stream_opened_keeps. 2: by apply open_failed_keeps. 2: by apply keeps_emitting; [emit_steps|].
  assert (∀ c ep, swarm_ok {| s with conn_to_remote_addr := <[c := transport ep]> (conn_to_remote_addr s) |}) as Hadr
    by (intros; by apply swarm_addresses).
  destruct e as [c ep|c st|c st|c st d|c st|c st|c|c msg|c ep|c ep prev|addr]; cbn [handle_transport_event].
  - unfold record_remote_addr. wp_step. wp_step. destruct (endpoint_peer_id ep) as [p|].
    + eapply wp_mono; [by apply register_spec| |done]. by intros u s1 (? & _).
    + wp_step. eapply wp_mono; [by apply ensure_ok| |done]. intros p s1 [Hs1 _]. by wp_step.
  - by wp_step.
  - by apply incoming_stream_keeps.
  - by apply stream_data_keeps.
  - by apply remote_write_closed_keeps.
  - by apply stream_closed_keeps.
  - by apply connection_closed_keeps.
  - by apply keeps_emitting; [emit_steps|].
  - unfold record_remote_addr. wp_step. apply Hadr.
  - unfold record_remote_addr. wp_step. wp_step. destruct (endpoint_peer_id ep) as [p|]; [|wp_step; apply Hadr].
    eapply wp_mono; [by apply upgrade_spec| |done]. by intros u s1 (? & _).
  - by wp_step.
Qed.
End SwarmSafety.
