(* ===== verification/SwarmRuns.v ===== *)
(** Runs of a swarm: inputs, calls of the application and polls in any order;
    what is announced about a peer's connection, and what a closed or replaced
    connection leaves behind. *)

From S2P Require Import Prelude Varint Text SansIo Multistream Ping Base58 PeerIdentity Multiaddr Proto Identify Swarm SwarmSafety.

Section SwarmRuns.
Context `{HC : HashCrates Multihash} `{!EqDecision Multihash} `{!Countable Multihash} {HS : HashCratesSpec Multihash}.
Abbreviation PeerId := (PeerIdentity.PeerId (Multihash := Multihash)).
Context `{BK : !BTreeKey PeerId}.
Abbreviation SwarmCore := (Swarm.SwarmCore (Multihash := Multihash)).
Abbreviation SwarmEvent := (Swarm.SwarmEvent (Multihash := Multihash)).
Abbreviation SwarmInput := (Swarm.SwarmInput (Multihash := Multihash)).
Abbreviation SwarmOutput := (Swarm.SwarmOutput (Multihash := Multihash)).
Abbreviation W := (M SwarmCore (SwarmError (Multihash := Multihash))).
Implicit Types s : SwarmCore.

(** ** Calls *)

Inductive Call :=
  | CallInput (i : SwarmInput)
  | CallSetLocalAddresses (addrs : list (Multiaddr.Multiaddr (Multihash := Multihash)))
  | CallAddProtocol (protocol_id : bytes)
  | CallAddInboundProtocol (protocol_id : bytes)
  | CallAddOutboundProtocol (protocol_id : bytes)
  | CallAddAdvertisedProtocol (protocol_id : bytes)
  | CallPing (peer_id : PeerId) (payload : bytes) (now_ms : Z)
  | CallOpenStream (peer_id : PeerId) (protocol_id : bytes)
  | CallSendStream (peer_id : PeerId) (stream_id : Z) (data : bytes)
  | CallCloseStreamWrite (peer_id : PeerId) (stream_id : Z)
  | CallResetStream (peer_id : PeerId) (stream_id : Z)
  | CallResetStreamFailed (conn_id stream_id : Z)
  | CallForgetStream (conn_id stream_id : Z)
  | CallAbandonStream (peer_id : PeerId) (stream_id : Z)
  | CallDisconnect (peer_id : PeerId).

Definition perform (c : Call) : W unit :=
  match c with
  | CallInput i => handle_input i
  | CallSetLocalAddresses addrs => set_local_addresses addrs
  | CallAddProtocol protocol_id => add_protocol protocol_id
  | CallAddInboundProtocol protocol_id => add_inbound_protocol protocol_id
  | CallAddOutboundProtocol protocol_id => add_outbound_protocol protocol_id
  | CallAddAdvertisedProtocol protocol_id => add_advertised_protocol protocol_id
  | CallPing peer_id payload now_ms => ping_peer peer_id payload now_ms
  | CallOpenStream peer_id protocol_id => open_stream peer_id protocol_id
  | CallSendStream peer_id stream_id data => send_stream peer_id stream_id data
  | CallCloseStreamWrite peer_id stream_id => close_stream_write peer_id stream_id
  | CallResetStream peer_id stream_id => reset_stream peer_id stream_id
  | CallResetStreamFailed conn_id stream_id => reset_stream_failed conn_id stream_id
  | CallForgetStream conn_id stream_id => forget_stream conn_id stream_id
  | CallAbandonStream peer_id stream_id => abandon_stream peer_id stream_id
  | CallDisconnect peer_id => disconnect peer_id
  end.
Definition allowed s (c : Call) : Prop := match c with CallInput i => admissible s i | _ => True end.

(** A refused call changes nothing; an application that abandons a stream gets
    no more of its events even then. *)
Definition refused (c : Call) s s' : Prop :=
  s' = s ∨ ∃ p st, c = CallAbandonStream p st ∧
    s' = {| s with events := filter (λ e, matches_stream p st e = false) (events s) |}.

Lemma find_stream_Some {A} (m : gmap StreamKey A) f c :
  find_stream m f = Some c → ∃ st x, m !! (c, st) = Some x ∧ f (c, st) x = true.
Proof.
  unfold find_stream. destruct (filter _ _) as [|[[c' st] x] l] eqn:Hf; [done|]. cbn. intros [= <-].
  assert (((c', st), x) ∈ filter (λ kv : StreamKey * A, f kv.1 kv.2 = true) (btree_iter m)) as Hin by (rewrite Hf; left).
  apply list_elem_of_filter in Hin as [Hb Hin]. exists st, x. split; [|done]. by apply elem_of_btree_iter.
Qed.
Lemma user_stream_tracked s p st c : swarm_ok s → user_stream_conn s p st = Some c → tracked s c.
Proof. intros Hs (st' & x & Hx & _)%find_stream_Some. exact (bo_owner s (proj1 Hs) _ _ Hx). Qed.

Lemma queue_reset_keeps k s : swarm_ok s → tracked s k.1 → wp (queue_reset k) (λ _ s', swarm_ok s' ∧ conn_to_peer s' = conn_to_peer s) (λ _ _, False) s.
Proof.
  intros Hs Hk. unfold queue_reset. wp_step. wp_step. wp_step; [by wp_step|]. wp_step. wp_step. cbn beta.
  assert (swarm_ok {| s with reset_pending := {[k]} ∪ reset_pending s |}) as Hs1.
  { apply swarm_reset; [done|]. intros k' [->%elem_of_singleton|Hk']%elem_of_union; [done|]. by apply (bo_reset s (proj1 Hs)). }
  eapply wp_mono; [apply emitting_action| |done]. intros u s2 He. split; [exact (swarm_emits _ _ He Hs1)|by destruct He as (? & ? & -> & _)].
Qed.

Lemma protocols_ok s a b : swarm_ok s → swarm_ok {| s with inbound_protocols := a; outbound_protocols := b |}.
Proof. intros (Hb & Hm & Hr). split_and!; [|done|done]. destruct Hb; by constructor. Qed.
Lemma advertise_keeps protocol_id : keeps (advertise protocol_id : W unit).
Proof.
  intros s (Hb & [Hp Hi] & Hr & Hri). unfold wp, advertise, on_identify, nested, Identify.add_protocol. run_simpl.
  destruct (existsb _ _); (split_and!; [|by split|by split]); destruct Hb; by constructor.
Qed.
Lemma validated protocol_id (m : W unit) s :
  keeps m → swarm_ok s → wp (_ ← lift (validate_service_protocol protocol_id); m) (λ _, swarm_ok) (λ _ s', s' = s) s.
Proof.
  intros Hm Hs. wp_step. apply wp_lift. unfold validate_service_protocol. destruct (existsb _ _); [done|].
  eapply wp_mono; [by apply Hm|done|done].
Qed.

(** What is kept of one stream is dropped. *)
Lemma drop_stream_ok k rs ab ac af s :
  swarm_ok s → rs ⊆ reset_pending s → (∀ k', k' ∈ ab → tracked s k'.1) →
  swarm_ok {| s with stream_owner := delete k (stream_owner s); inbound_negotiators := delete k (inbound_negotiators s);
    outbound_negotiators := delete k (outbound_negotiators s); reset_pending := rs; abandoned_streams := ab;
    actions := ac; after_event_actions := af |}.
Proof.
  intros (Hb & Hm & Hr) Hrs Hab. split_and!; [|exact Hm|exact Hr]. destruct Hb. constructor; unfold tracked in *; cbn; try done.
  - intros k' o [_ Ho]%lookup_delete_Some. eauto.
  - intros k' o [_ Ho]%lookup_delete_Some. eauto.
  - intros k' o [_ Ho]%lookup_delete_Some. eauto.
  - intros k' Hk%Hrs. eauto.
Qed.
Lemma forget_call_ok c st s : swarm_ok s → wp (forget_stream c st) (λ _, swarm_ok) (λ _ _, False) s.
Proof.
  intros Hs. unfold forget_stream. wp_step. apply drop_stream_ok; [done|set_solver|].
  intros k' [Hk _]%elem_of_difference. by apply (bo_abandoned s (proj1 Hs)).
Qed.

Lemma queue_open_call p proto kind s c (Hs : swarm_ok s) :
  is_Some (peer_to_conn s !! p) → wp (queue_open_protocol_stream p proto kind) (λ _, swarm_ok) (λ _ s', refused c s s') s.
Proof. intros Hp. eapply wp_mono; [by apply queue_open_ok|done|done]. Qed.
Lemma ping_call_ok p payload now s :
  swarm_ok s → wp (ping_peer p payload now) (λ _, swarm_ok) (λ _ s', refused (CallPing p payload now) s s') s.
Proof.
  intros Hs. unfold ping_peer, queue_ping. wp_step. wp_step. cbn beta zeta. unfold id.
  destruct (decide (is_Some (peer_to_conn s !! p))) as [Hp|Hp];
    [rewrite bool_decide_true by done|rewrite bool_decide_false by done; cbn [negb]; wp_step; by left]. cbn [negb].
  wp_step; [|wp_step; [wp_step; by apply swarm_pings|]].
  - wp_step. eapply wp_mono; [apply (ask_ping _ s (λ r s', match r with inl _ => ∃ pg, s' = {| s with ping := pg |} ∧ ping_ok pg | inr _ => s' = s end))| |done].
    + done.
    + done.
    + intros pg Hpg. by exists pg.
    + intros [[]|e] s1; cbn beta.
      * intros (pg & -> & Hpg). eapply wp_mono; [by apply record_and_drain|done|done].
      * intros ->. wp_step. by left.
  - wp_step. wp_step. eapply wp_mono; [apply queue_open_ok; [by apply swarm_pings|done]|done|done].
Qed.

Lemma stream_call_ok p st (f : Z → W unit) c s :
  swarm_ok s → (∀ conn, tracked s conn → wp (f conn) (λ _, swarm_ok) (λ _ _, False) s) →
  wp (conn ← require_stream_conn p st; f conn) (λ _, swarm_ok) (λ _ s', refused c s s') s.
Proof.
  intros Hs Hf. wp_step. unfold require_stream_conn. apply wp_reads. destruct (user_stream_conn s p st) as [conn|] eqn:Hc; cbn; [|by left].
  eapply wp_mono; [apply Hf; by eapply user_stream_tracked|done|done].
Qed.

Lemma abandoned_key_Some s p st k : abandoned_key s p st = Some k → k ∈ abandoned_streams s.
Proof.
  unfold abandoned_key. intros Hh. destruct (filter _ _) as [|k' l] eqn:Hf; [done|]. injection Hh as ->.
  assert (k ∈ filter (λ k : StreamKey, k.2 = st ∧ conn_to_peer s !! k.1 = Some p) (merge_sort key_le (elements (abandoned_streams s)))) as Hin
    by (rewrite Hf; left).
  apply list_elem_of_filter in Hin as [_ Hin]. rewrite merge_sort_Permutation in Hin. by apply elem_of_elements.
Qed.
Lemma abandon_call_ok p st s :
  swarm_ok s → wp (abandon_stream p st) (λ _, swarm_ok) (λ _ s', refused (CallAbandonStream p st) s s') s.
Proof.
  intros Hs. unfold abandon_stream. wp_step. wp_step. cbn beta.
  pose (s1 := {| s with events := filter (λ e, matches_stream p st e = false) (events s) |}).
  assert (swarm_ok s1) as Hs1 by exact (swarm_queues s _ (actions s) (after_event_actions s) Hs).
  assert (refused (CallAbandonStream p st) s s1) as Href by (right; by exists p, st). wp_state s1. clearbody s1.
  wp_step. wp_step. destruct (abandoned_key s1 p st) as [k|] eqn:Hk.
  - apply abandoned_key_Some in Hk. eapply wp_mono; [apply queue_reset_keeps; [done|by apply (bo_abandoned s1 (proj1 Hs1))]| |done].
    by intros u s2 [? _].
  - wp_step. apply wp_reads. destruct (abandonable_conn s1 p st) as [c|] eqn:Hc; cbn [ok_or]; [|done].
    assert (tracked s1 c) as Ht.
    { unfold abandonable_conn in Hc. destruct (find_stream _ _) as [c'|] eqn:Hf; [|by eapply user_stream_tracked].
      injection Hc as ->. apply find_stream_Some in Hf as (st' & x & Hx & _). apply (bo_outbound s1 (proj1 Hs1) _ _ Hx). }
    wp_step. eapply wp_mono; [by apply queue_reset_keeps| |done]. intros u s2 [Hs2 Ht2]. wp_step.
    apply (drop_stream_ok (c, st) (reset_pending s2) ({[(c, st)]} ∪ abandoned_streams s2) (actions s2) (after_event_actions s2)); [done|done|].
    intros k' [->%elem_of_singleton|Hk']%elem_of_union; [unfold tracked; by rewrite Ht2|by apply (bo_abandoned s2 (proj1 Hs2))].
Qed.

Lemma open_call_ok p proto s :
  swarm_ok s → wp (open_stream p proto) (λ _, swarm_ok) (λ _ s', refused (CallOpenStream p proto) s s') s.
Proof.
  intros Hs. unfold open_stream. wp_step. wp_step. cbn beta zeta. unfold id. wp_step; [wp_step; by left|].
  destruct (decide (is_Some (peer_to_conn s !! p))) as [Hp|Hp];
    [rewrite bool_decide_true by done|rewrite bool_decide_false by done; cbn [negb]; wp_step; by left]. cbn [negb].
  wp_step; [wp_step; by left|]. by apply queue_open_call.
Qed.
Lemma keeps_push_inbound p : keeps (push_inbound p : W unit).
Proof. apply keeps_modify. intros s Hs. by apply (protocols_ok s _ (outbound_protocols s)). Qed.
Lemma keeps_push_outbound p : keeps (push_outbound p : W unit).
Proof. apply keeps_modify. intros s Hs. by apply (protocols_ok s (inbound_protocols s)). Qed.
Lemma disconnect_call_ok p s :
  swarm_ok s → wp (disconnect p) (λ _, swarm_ok) (λ _ s', refused (CallDisconnect p) s s') s.
Proof.
  intros Hs. unfold disconnect, require_conn. wp_step. apply wp_reads. destruct (peer_to_conn s !! p); cbn [ok_or]; [|by left].
  eapply wp_mono; [by apply keeps_emitting; [apply emitting_action|]|done|done].
Qed.
Lemma addresses_call_ok addrs s : swarm_ok s → wp (set_local_addresses addrs) (λ _, swarm_ok) (λ _ _, False) s.
Proof.
  intros (Hb & Hm & Hr). unfold set_local_addresses. wp_step. split_and!; [|exact Hm|exact Hr]. destruct Hb; by constructor.
Qed.

Lemma perform_ok c s :
  swarm_ok s → allowed s c → wp (perform c) (λ _, swarm_ok) (λ _ s', refused c s s') s.
Proof.
  intros Hs Ha. destruct c; cbn [perform].
  - eapply wp_mono; [by apply handle_input_keeps|done|done].
  - eapply wp_mono; [by apply addresses_call_ok|done|done].
  - eapply wp_mono; [apply validated; [|done]|done|by left].
    apply keeps_bind; [apply keeps_push_inbound|]. intros _. apply keeps_bind; [apply keeps_push_outbound|]. intros _. apply advertise_keeps.
  - eapply wp_mono; [apply validated; [apply keeps_push_inbound|done]|done|by left].
  - eapply wp_mono; [apply validated; [apply keeps_push_outbound|done]|done|by left].
  - eapply wp_mono; [apply validated; [apply advertise_keeps|done]|done|by left].
  - by apply ping_call_ok.
  - by apply open_call_ok.
  - apply stream_call_ok; [done|]. intros conn _. by apply keeps_emitting; [apply emitting_action|].
  - apply stream_call_ok; [done|]. intros conn _. by apply keeps_emitting; [apply emitting_action|].
  - apply stream_call_ok; [done|]. intros conn Ht. eapply wp_mono; [by apply queue_reset_keeps|by intros u s1 [? _]|done].
  - unfold reset_stream_failed. wp_step. by apply swarm_drop_reset.
  - eapply wp_mono; [by apply forget_call_ok|done|done].
  - by apply abandon_call_ok.
  - by apply disconnect_call_ok.
Qed.
(** ** The machine behind the driver's interface *)

#[export] Instance swarm_protocol : SansIoProtocol SwarmCore SwarmInput SwarmOutput (SwarmError (Multihash := Multihash)) := {|
  SansIo.handle_input := handle_input;
  SansIo.poll_output := poll_output;
  SansIo.is_idle := is_idle;
|}.
#[export] Instance swarm_contract : SansIoContract swarm_ok admissible.
Proof using HS.
  unshelve refine {| backlog s := (length (actions s) + length (events s) + length (after_event_actions s))%nat |}.
  - intros s i Hs Ha. eapply wp_mono; [by apply handle_input_keeps|done|done].
  - intros s Hs. cbn. unfold poll_output, is_idle.
    destruct (actions s) as [|a acts] eqn:Ha; [destruct (events s) as [|e evs] eqn:He; [destruct (after_event_actions s) as [|a af] eqn:Hf|]|];
      eexists _, _; (split; [reflexivity|]); split; try done.
    + exact (swarm_queues s _ _ af Hs).
    + cbn. split; [done|lia].
    + exact (swarm_queues s evs _ _ Hs).
    + cbn. split; [done|lia].
    + exact (swarm_queues s _ acts _ Hs).
    + cbn. split; [done|lia].
Defined.

(** ** Runs *)

(** Calls that [may] be made, and polls, in any order, with what was polled. *)
Inductive run (may : SwarmCore → Call → Prop) (init : SwarmCore) : list SwarmOutput → SwarmCore → Prop :=
  | run_start : run may init [] init
  | run_call os s c : run may init os s → may s c → run may init os (perform c s).1
  | run_poll os s o s' : run may init os s → poll_output s = (s', Ok (Some o)) → run may init (os ++ [o]) s'.

Lemma swarm_new_ok ic pc : swarm_ok (SwarmCore_new ic pc : SwarmCore).
Proof.
  split_and!; [|by split; apply map_Forall_empty|done]. constructor; unfold tracked; cbn; try done; try set_solver.
Qed.

Lemma swarm_poll_ok s s' o : swarm_ok s → poll_output s = (s', Ok o) → swarm_ok s'.
Proof. intros Hs Hp. destruct (output_step s Hs) as (o' & s1 & Hrun & Hs1 & _). cbn in Hrun. congruence. Qed.

Lemma run_ok_inv may ic pc os s :
  (∀ s c, may s c → allowed s c) → run may (SwarmCore_new ic pc) os s → swarm_ok s.
Proof.
  intros Hmay. induction 1 as [|os s c _ IH Hc|os s o s' _ IH Hp]; [apply swarm_new_ok| |by eapply swarm_poll_ok].
  pose proof (perform_ok c s IH (Hmay _ _ Hc)) as Hw. unfold wp in Hw. destruct (perform c s) as [s' [u|e| |]]; try done.
  destruct Hw as [->|(p & st & _ & ->)]; [done|]. exact (swarm_queues s _ (actions s) (after_event_actions s) IH).
Qed.

(** C4: from a fresh swarm, through every sequence of events of a transport,
    reports of its driver, calls of the application and polls, as long as a
    connection is announced under an id that is not in use: no operation
    panics or loops, and no debug assertion fails; the tables agree (a peer's
    connection is recorded as that peer's; who is ready has introduced itself
    and is connected; every stream that has an owner, negotiates outbound, is
    being opened, is being reset or was abandoned belongs to a connection with
    a peer, while an inbound negotiation is recorded for any connection the
    transport names, known or not; no protocol machine is left with unsent
    output); and a refused call changes nothing, except that abandoning a
    stream drops its queued events. *)
Theorem swarm_runs_are_safe ic pc os s c :
  run allowed (SwarmCore_new ic pc) os s → allowed s c →
  swarm_ok s ∧
  match perform c s with
  | (s', Ok _) => swarm_ok s'
  | (s', Err _) => refused c s s'
  | _ => False
  end.
Proof.
  intros Hrun Hc. assert (swarm_ok s) as Hs by (by eapply run_ok_inv). split; [done|].
  pose proof (perform_ok c s Hs Hc) as Hw. unfold wp in Hw. by destruct (perform c s) as [s' [u|e| |]].
Qed.

(** ** Closing a connection *)

(** C12: when the transport reports that a peer's connection is closed, nothing of
    the connection or of the peer is left: no stream, negotiation, pending open
    or reset of the connection, no ping or identify state, timer, queued ping,
    readiness or identify message of the peer; the close is announced once;
    every other connection keeps what it had. *)
Theorem swarm_close_forgets ic pc os s c p now :
  run allowed (SwarmCore_new ic pc) os s →
  conn_to_peer s !! c = Some p → peer_to_conn s !! p = Some c →
  ∃ s', handle_input (Transport (Closed c) now) s = (s', Ok tt) ∧
    conn_to_peer s' = delete c (conn_to_peer s) ∧ peer_to_conn s' = delete p (peer_to_conn s) ∧
    conn_to_remote_addr s' = delete c (conn_to_remote_addr s) ∧
    (∀ k, stream_owner s' !! k = (if decide (k.1 = c) then None else stream_owner s !! k)) ∧
    (∀ k, inbound_negotiators s' !! k = (if decide (k.1 = c) then None else inbound_negotiators s !! k)) ∧
    (∀ k, outbound_negotiators s' !! k = (if decide (k.1 = c) then None else outbound_negotiators s !! k)) ∧
    (∀ k, k ∈ reset_pending s' ↔ k ∈ reset_pending s ∧ k.1 ≠ c) ∧ (∀ k, k ∈ abandoned_streams s' ↔ k ∈ abandoned_streams s ∧ k.1 ≠ c) ∧
    (∀ t o, pending_opens s' !! t = Some o ↔ pending_opens s !! t = Some o ∧ open_conn_id o ≠ c) ∧
    peers (ping s') = delete p (peers (ping s)) ∧ id_peers (identify s') = delete p (id_peers (identify s)) ∧
    ping_deadlines s' = delete p (ping_deadlines s) ∧ pending_pings s' = delete p (pending_pings s) ∧
    peer_info s' = delete p (peer_info s) ∧ ready_peers s' = ready_peers s ∖ {[p]} ∧ established_peers s' = established_peers s ∖ {[p]} ∧
    events s' = events s ++ [ConnectionClosed p c CloseTransport] ∧ actions s' = actions s.
Proof.
  intros Hrun Hc Hp. assert (swarm_ok s) as (Hb & Hm & Hr) by (by eapply run_ok_inv).
  exists (closed c p s). split; [by apply closed_run|]. clear Hrun.
  assert (∀ A (m : gmap StreamKey A) k, filter (λ kv, kv.1.1 ≠ c) m !! k = (if decide (k.1 = c) then None else m !! k)) as Hf.
  { intros A m k. rewrite map_lookup_filter. destruct (m !! k) as [x|]; cbn; [|by case_decide].
    destruct (decide (k.1 = c)); [by rewrite option_guard_False by auto|by rewrite option_guard_True]. }
  cbn. split_and!; try done; try (intros k; by rewrite elem_of_filter, (comm (∧))).
  intros t o. by rewrite map_lookup_filter_Some.
Qed.
(** ** Replacing a connection *)

Definition output_event (o : SwarmOutput) : option SwarmEvent := match o with Event e => Some e | Action _ => None end.
Definition told (os : list SwarmOutput) : list SwarmEvent := omap output_event os.

(** Polling until nothing is left: actions, then events, then what waits for
    the events. *)
Definition queued_outputs s : list SwarmOutput := (Action <$> actions s) ++ (Event <$> events s) ++ (Action <$> after_event_actions s).
Lemma drain_queues n s :
  (length (queued_outputs s) < n)%nat →
  drain n s = ({| s with actions := []; events := []; after_event_actions := [] |}, Ok (queued_outputs s)).
Proof.
  revert s. induction n as [|n IH]; intros s Hn; [lia|]. cbn [drain SansIo.poll_output swarm_protocol]. unfold mbind, M_bind, poll_output.
  destruct s as [? ? ? ? ? ? ? ? ? ? ? ? ? ? ? ? ? ? ? ? ? evs acts after]. unfold queued_outputs in *. cbn in *.
  destruct acts as [|a acts]; [destruct evs as [|e evs]; [destruct after as [|a after]; [done|]|]|]; cbn in *; rewrite IH by (cbn; lia); done.
Qed.
Lemma drain_all_queues s :
  drain_all (C := swarm_contract) s = ({| s with actions := []; events := []; after_event_actions := [] |}, Ok (queued_outputs s)).
Proof. apply drain_queues. unfold queued_outputs. cbn. rewrite !length_app, !length_fmap. lia. Qed.
Lemma told_queued s : told (queued_outputs s) = events s.
Proof.
  unfold told, queued_outputs. rewrite !omap_app.
  assert (∀ l : list SwarmAction, omap output_event (Action <$> l) = []) as Ha by (by induction l).
  rewrite !Ha, app_nil_r. cbn [app]. induction (events s) as [|e es IH]; [done|]. cbn. f_equal. exact IH.
Qed.

(** C9: when a connection is announced under an id that is not in use, and its
    endpoint names a peer that is connected already, the new connection
    replaces the old one: draining the swarm announces the end of the old
    connection before the new one, asks for nothing more on the old connection,
    and asks for it to be closed only after both announcements; afterwards the
    peer's connection is the new one. Connections whose peer is verified only
    after they were announced are not the subject: those replace nothing. *)
Theorem swarm_replaces_connection ic pc os s c ep p old now :
  run allowed (SwarmCore_new ic pc) os s →
  conn_to_peer s !! c = None → endpoint_peer_id ep = Some p → peer_to_conn s !! p = Some old →
  ∃ s' before, talk (C := swarm_contract) [Transport (Connected c ep) now] s = (s', Ok (before ++ [Action (CloseConnection old)])) ∧
    peer_to_conn s' !! p = Some c ∧
    filter (λ e, slot_event e = true) (told before) = slots s ++ [ConnectionClosed p old CloseSuperseded; ConnectionEstablished p c] ∧
    (∀ a, Action a ∈ before → connection_action_matches a old = false).
Proof.
  intros Hrun Hc Hep Hp. assert (swarm_ok s) as Hs by (by eapply run_ok_inv).
  pose proof (register_spec c p _ (swarm_addresses s (<[c := transport ep]> (conn_to_remote_addr s)) Hs) Hc) as Hw.
  apply wp_ok_run in Hw as (u & s1 & Hrun1 & Hs1 & Hp1 & Hsl1 & Hl1). destruct u. unfold replaced, lets_go in *. cbn [peer_to_conn] in *.
  rewrite Hp in *. destruct Hl1 as (Ha & before & Haf & Hb).
  exists {| s1 with actions := []; events := []; after_event_actions := [] |}, ((Action <$> actions s1) ++ (Event <$> events s1) ++ (Action <$> before)).
  split_and!.
  - unfold talk. rewrite (run_ok _ _ s s1 tt).
    + rewrite drain_all_queues. unfold queued_outputs. rewrite Haf, fmap_app, <- !app_assoc. done.
    + cbn [handle_inputs]. rewrite (run_ok _ _ s s1 tt); [done|]. cbn [SansIo.handle_input swarm_protocol handle_input handle_transport_event].
      rewrite (run_ok _ _ s {| s with conn_to_remote_addr := <[c := transport ep]> (conn_to_remote_addr s) |} tt) by done. by rewrite Hep.
  - cbn. by rewrite Hp1, lookup_insert_eq.
  - change (told _) with (told (queued_outputs {| s1 with after_event_actions := before |})). rewrite told_queued. exact Hsl1.
  - intros a. rewrite !elem_of_app, !list_elem_of_fmap. intros [(a' & [= ->] & Hin)|[(e & [=] & _)|(a' & [= ->] & Hin)]].
    + by apply (proj1 (Forall_forall _ _) Ha).
    + by apply (proj1 (Forall_forall _ _) Hb).
Qed.
End SwarmRuns.
