(* ===== verification/SwarmSlots.v ===== *)
(** What an application is told of its peers' connections, against what the
    swarm keeps: one slot per peer, filled and emptied in turn. *)

From S2P Require Import Prelude Varint Text SansIo Multistream Ping Base58 PeerIdentity Multiaddr Proto Identify Swarm SwarmSafety SwarmRuns.

Section SwarmSlots.
Context `{HC : HashCrates Multihash} `{!EqDecision Multihash} `{!Countable Multihash} {HS : HashCratesSpec Multihash}.
Abbreviation PeerId := (PeerIdentity.PeerId (Multihash := Multihash)).
Context `{BK : !BTreeKey PeerId}.
Abbreviation SwarmCore := (Swarm.SwarmCore (Multihash := Multihash)).
Abbreviation SwarmEvent := (Swarm.SwarmEvent (Multihash := Multihash)).
Abbreviation W := (M SwarmCore (SwarmError (Multihash := Multihash))).
Implicit Types s : SwarmCore.

(** ** The specification *)

(** An application that keeps one slot for peer [p]: [None] if an announcement
    does not fit what it has. *)
Fixpoint replay (p : PeerId) (slot : option Z) (evs : list SwarmEvent) : option (option Z) :=
  match evs with
  | [] => Some slot
  | ConnectionEstablished q c :: evs =>
      if decide (q = p) then match slot with None => replay p (Some c) evs | Some _ => None end else replay p slot evs
  | ConnectionClosed q c _ :: evs =>
      if decide (q = p) then if decide (slot = Some c) then replay p None evs else None else replay p slot evs
  | _ :: evs => replay p slot evs
  end.

Lemma replay_app p slot l1 l2 : replay p slot (l1 ++ l2) = replay p slot l1 ≫= λ slot', replay p slot' l2.
Proof. revert slot. induction l1 as [|e l1 IH]; intros slot; [done|]. destruct e; cbn; rewrite ?IH; repeat case_decide; destruct slot; done. Qed.
Lemma replay_slots p slot evs : replay p slot (filter (λ e, slot_event e = true) evs) = replay p slot evs.
Proof.
  revert slot. induction evs as [|e evs IH]; intros slot; [done|]. rewrite filter_cons.
  destruct e; cbn [slot_event]; first [rewrite decide_True by done|rewrite decide_False by done]; cbn; repeat case_decide;
    destruct slot; done || apply IH.
Qed.

(** The identifiers that stand for peers that are not known yet. *)
Definition placeholder (p : PeerId) : Prop := ∃ c, placeholder_of c p.

(** A driver that drains the swarm before it reports an identity, and a
    transport whose connections get an identity once, and not that of a peer
    that is connected already. *)
Definition orderly s (c : Call (Multihash := Multihash)) : Prop :=
  allowed s c ∧
  match c with
  | CallInput (Transport (PeerIdentityVerified c ep _) _) =>
      ∀ p, endpoint_peer_id ep = Some p →
        conn_to_peer s !! c = Some p ∨
        is_idle s = true ∧ peer_to_conn s !! p = None ∧ (∀ q, conn_to_peer s !! c = Some q → placeholder q)
  | _ => True
  end.

(** ** Steps that leave the slots alone *)

Definition steady s s' : Prop :=
  slots s' = slots s ∧ ∀ p, ¬ placeholder p → peer_to_conn s' !! p = peer_to_conn s !! p.
#[local] Instance steady_preorder : PreOrder steady.
Proof.
  split; [done|]. intros s1 s2 s3 [H1 H2] [H3 H4]. split; [congruence|]. intros p Hp. rewrite H4, H2; done.
Qed.
Lemma steady_same s s' : events s' = events s → peer_to_conn s' = peer_to_conn s → steady s s'.
Proof. intros He Hp. split; [unfold slots; by rewrite He|]. intros p _. by rewrite Hp. Qed.

Lemma steady_event e : slot_event e = false → moves steady (push_event e : W unit).
Proof. intros He s. split; [|done]. etransitivity; [exact (slots_event e s)|]. rewrite He. apply app_nil_r. Qed.
Lemma steady_action a : moves steady (push_action a : W unit).
Proof. intros s. by apply steady_same. Qed.
Lemma steady_on_ping {A} (m : M Ping.PingProtocol _ A) : moves steady (on_ping m : W _).
Proof. intros s. unfold on_ping, nested. destruct (m (ping s)) as [t []]; by apply steady_same. Qed.
Lemma steady_on_identify {A} (m : M IdentifyProtocol _ A) : moves steady (on_identify m : W _).
Proof. intros s. unfold on_identify, nested. destruct (m (identify s)) as [t []]; by apply steady_same. Qed.
Lemma steady_on_inbound {A} k (m : M MultistreamSelect _ A) : moves steady (on_inbound k m : W _).
Proof.
  intros s. unfold on_inbound, entry_call. destruct (inbound_negotiators s !! k) as [n|]; [|done].
  destruct (m (id n)) as [t []]; by apply steady_same.
Qed.
Lemma steady_on_outbound {A} k (m : M MultistreamSelect _ A) : moves steady (on_outbound k m : W _).
Proof.
  intros s. unfold on_outbound, entry_call. destruct (outbound_negotiators s !! k) as [n|]; [|done].
  destruct (m (negotiator n)) as [t []]; by apply steady_same.
Qed.
Lemma steady_lift {A} (r : res _ A) : moves steady (lift r : W A).
Proof. done. Qed.
Lemma steady_reads {A} (f : SwarmCore → res _ A) : moves steady (reads f : W A).
Proof. done. Qed.
#[local] Hint Resolve steady_action steady_on_ping steady_on_identify steady_on_inbound steady_on_outbound steady_lift steady_reads : moves.
#[local] Hint Extern 1 (moves steady (push_event _)) => apply steady_event; reflexivity : moves.
#[local] Hint Extern 2 (steady _ _) => apply steady_same; reflexivity : moves.

Ltac steady_steps := moves_steps; auto with moves.

Lemma steady_error kind p c st d : moves steady (emit_error_for_stream kind p c st d : W unit).
Proof. unfold emit_error_for_stream. steady_steps. Qed.
Lemma steady_emit_error kind p c d : moves steady (emit_error kind p c d : W unit).
Proof. apply steady_error. Qed.
Lemma steady_established kind c st d : moves steady (established_error kind c st d : W unit).
Proof. unfold established_error. moves_steps. apply steady_error. Qed.
#[local] Hint Resolve steady_error steady_emit_error steady_established : moves.

Lemma steady_ready p : moves steady (try_emit_peer_ready p : W unit).
Proof. unfold try_emit_peer_ready. steady_steps. Qed.
#[local] Hint Resolve steady_ready : moves.
Lemma steady_ping_output o : moves steady (handle_ping_output o : W unit).
Proof. unfold handle_ping_output, execute_ping_action, on_owned_ping_stream, handle_ping_event, disarm_ping. steady_steps. Qed.
Lemma steady_identify_output o : moves steady (handle_identify_output o : W unit).
Proof. unfold handle_identify_output, execute_identify_action, handle_identify_event. steady_steps. Qed.
Lemma steady_drain {Output Error} (poll : W (option Output + Error)) handle fuel :
  moves steady poll → (∀ o, moves steady (handle o)) → moves steady (drain_nested poll handle fuel).
Proof.
  intros Hp Hh. induction fuel as [|fuel IH]; cbn [drain_nested]; moves_steps; auto with moves.
Qed.
Lemma steady_drain_ping : moves steady (drain_ping_outputs : W unit).
Proof. intros s. unfold drain_ping_outputs. apply steady_drain; auto using steady_ping_output with moves. Qed.
Lemma steady_drain_identify : moves steady (drain_identify_outputs : W unit).
Proof. intros s. unfold drain_identify_outputs. apply steady_drain; auto using steady_identify_output with moves. Qed.
Lemma steady_inform_ping i : moves steady (inform_ping i : W unit).
Proof. unfold inform_ping. steady_steps. Qed.
Lemma steady_inform_identify i : moves steady (inform_identify i : W unit).
Proof. unfold inform_identify. steady_steps. Qed.
#[local] Hint Resolve steady_drain_ping steady_drain_identify steady_inform_ping steady_inform_identify : moves.

Lemma steady_ensure c : moves steady (ensure_peer_id_for_conn c : W PeerId).
Proof.
  intros s. pose proof (ensure_spec c s) as Hw. unfold wp in Hw. destruct (ensure_peer_id_for_conn c s) as [s' [p|e| |]]; try done. cbn.
  destruct Hw as [_ [->|(_ & Hp & ->)]]; [done|]. split; [done|]. intros q Hq. apply lookup_insert_ne. intros ->. apply Hq. by exists c.
Qed.
Lemma steady_output c st o neg : moves steady (handle_multistream_output c st o neg : W _).
Proof. unfold handle_multistream_output. steady_steps. Qed.
#[local] Hint Resolve steady_ensure steady_output : moves.

Lemma steady_dispatch c st d now : moves steady (dispatch_protocol_data c st d now : W unit).
Proof. unfold dispatch_protocol_data. steady_steps. Qed.
Lemma steady_inbound_negotiated c st proto : moves steady (on_inbound_negotiated c st proto : W unit).
Proof. unfold on_inbound_negotiated, set_owner. steady_steps. Qed.
Lemma steady_outbound_negotiated c st kind now : moves steady (on_outbound_negotiated c st kind now : W unit).
Proof. unfold on_outbound_negotiated, set_owner, send_pending_ping, record_ping_deadline. steady_steps. Qed.
Lemma steady_drain_inbound fuel c st neg : moves steady (drain_inbound fuel c st neg : W _).
Proof. revert neg. induction fuel as [|fuel IH]; intros neg; cbn [drain_inbound]; steady_steps. Qed.
Lemma steady_flush_inbound fuel c st : moves steady (flush_inbound fuel c st : W _).
Proof. induction fuel as [|fuel IH]; cbn [flush_inbound]; steady_steps. Qed.
Lemma steady_drain_outbound fuel c st neg : moves steady (drain_outbound fuel c st neg : W _).
Proof. revert neg. induction fuel as [|fuel IH]; intros neg; cbn [drain_outbound]; steady_steps. Qed.
Lemma steady_flush_dialer fuel c st n : moves steady (flush_dialer fuel c st n : W _).
Proof. revert n. induction fuel as [|fuel IH]; intros n; cbn [flush_dialer]; steady_steps. Qed.
#[local] Hint Resolve steady_dispatch steady_inbound_negotiated steady_outbound_negotiated steady_drain_inbound steady_flush_inbound
  steady_drain_outbound steady_flush_dialer : moves.

Lemma steady_feed_inbound c st d now : moves steady (feed_inbound_negotiator c st d now : W unit).
Proof. unfold feed_inbound_negotiator, remove_inbound, dispatch_remaining. steady_steps. Qed.
Lemma steady_feed_outbound c st d now : moves steady (feed_outbound_negotiator c st d now : W unit).
Proof. unfold feed_outbound_negotiator, remove_outbound, dispatch_remaining. steady_steps. Qed.
Lemma steady_queue_open p proto kind : moves steady (queue_open_protocol_stream p proto kind : W unit).
Proof. unfold queue_open_protocol_stream, require_conn, take_open_token. steady_steps. Qed.
Lemma steady_queue_reset k : moves steady (queue_reset k : W unit).
Proof. unfold queue_reset. steady_steps. Qed.
#[local] Hint Resolve steady_feed_inbound steady_feed_outbound steady_queue_open steady_queue_reset : moves.

(** The inputs that open or close a connection, or say whose it is. *)
Definition about_slots (i : SwarmInput (Multihash := Multihash)) : bool :=
  match i with Transport (Connected _ _ | Closed _ | PeerIdentityVerified _ _ _) _ => true | _ => false end.

Lemma steady_input i : about_slots i = false → moves steady (handle_input i : W unit).
Proof.
  intros Hi. destruct i as [e now|now|c st tok now|tok reason now|err]; cbn [handle_input].
  - destruct e; try done; cbn [handle_transport_event];
      unfold record_remote_addr, handle_incoming_stream, handle_stream_data, handle_stream_remote_write_closed, handle_stream_closed,
        close_owned, remove_negotiators, remove_inbound, remove_outbound; steady_steps.
  - unfold handle_tick, collect_protocol_events. steady_steps.
  - unfold handle_stream_opened, take_pending_open. steady_steps.
  - unfold handle_open_stream_failed, take_pending_open. steady_steps.
  - unfold record_runtime_error. steady_steps.
Qed.

(** Dropping a stream's events drops nothing about connections. *)
Lemma steady_abandon p st : moves steady (abandon_stream p st : W unit).
Proof.
  unfold abandon_stream. apply moves_bind; [apply _| |steady_steps]. apply moves_modify. intros s. split; [|done]. unfold slots. cbn.
  induction (events s) as [|e es IH]; [done|]. rewrite !filter_cons. destruct (matches_stream p st e) eqn:Hm; cbn.
  - rewrite decide_False by done. rewrite IH. destruct e; try done; by rewrite decide_False.
  - rewrite decide_True by done. rewrite filter_cons. by destruct (decide (slot_event e = true)); rewrite IH.
Qed.

Definition slot_call (c : Call (Multihash := Multihash)) : bool := match c with CallInput i => about_slots i | _ => false end.
Lemma steady_call c : slot_call c = false → moves steady (perform c : W unit).
Proof.
  destruct c; cbn [perform]; intros Hc; [by apply steady_input|..|apply steady_abandon|].
  all: unfold set_local_addresses, add_protocol, add_inbound_protocol, add_outbound_protocol, add_advertised_protocol, push_inbound,
    push_outbound, advertise, ping_peer, queue_ping, record_ping_deadline, open_stream, send_stream, close_stream_write, reset_stream,
    reset_stream_failed, forget_stream, disconnect, require_stream_conn, require_conn; steady_steps.
Qed.

(** ** The slots *)

(** The announcements that were polled and those that are queued, replayed. *)
Definition in_step (os : list (SwarmOutput (Multihash := Multihash))) s : Prop :=
  ∀ p, ¬ placeholder p → replay p None (told os ++ events s) = Some (peer_to_conn s !! p).

Lemma in_step_slots os s :
  in_step os s ↔ ∀ p, ¬ placeholder p → replay p None (told os ++ slots s) = Some (peer_to_conn s !! p).
Proof.
  unfold in_step. apply forall_proper; intros p. unfold slots. rewrite !replay_app.
  destruct (replay p None (told os)); [|done]. cbn. by rewrite replay_slots.
Qed.
Lemma in_step_steady os s s' : in_step os s → steady s s' → in_step os s'.
Proof. rewrite !in_step_slots. intros Hs [Hsl Hp] p Hnp. rewrite Hsl, Hp by done. auto. Qed.

(** Announcing more, when the replay can follow. *)
Lemma in_step_more os s s' evs :
  in_step os s → slots s' = slots s ++ evs →
  (∀ p, ¬ placeholder p → replay p (peer_to_conn s !! p) evs = Some (peer_to_conn s' !! p)) → in_step os s'.
Proof.
  rewrite !in_step_slots. intros Hs -> Hev p Hp. rewrite app_assoc, replay_app, Hs by done. cbn. auto.
Qed.

Lemma in_step_connected os s c ep now :
  swarm_ok s → conn_to_peer s !! c = None → in_step os s → in_step os (handle_input (Transport (Connected c ep) now) s).1.
Proof.
  intros Hs Hc Hst. cbn [handle_input handle_transport_event].
  set (s0 := {| s with conn_to_remote_addr := <[c := transport ep]> (conn_to_remote_addr s) |}).
  rewrite (run_ok (record_remote_addr c ep) _ s s0 tt) by done.
  assert (swarm_ok s0) as Hs0 by exact (swarm_addresses s _ Hs). assert (in_step os s0) as Hst0 by exact Hst.
  destruct (endpoint_peer_id ep) as [p|].
  - pose proof (register_spec c p s0 Hs0 Hc) as Hw. apply wp_ok_run in Hw as (u & s1 & -> & _ & Hp1 & Hsl1 & _). cbn [fst].
    apply (in_step_more os s0 s1 _ Hst0 Hsl1). intros q Hq. rewrite Hp1. unfold replaced.
    destruct (decide (q = p)) as [->|Hne].
    + rewrite lookup_insert_eq. destruct (peer_to_conn s0 !! p) as [old|]; cbn; by rewrite !decide_True.
    + rewrite lookup_insert_ne by done. destruct (peer_to_conn s0 !! p) as [old|]; cbn; by rewrite !decide_False.
  - eapply in_step_steady; [exact Hst0|]. refine (moves_bind steady _ _ (steady_ensure c) _ s0). by intros a s1.
Qed.
Lemma in_step_closed os s c now :
  swarm_ok s → in_step os s → in_step os (handle_input (Transport (Closed c) now) s).1.
Proof.
  intros Hs Hst. pose proof Hs as (Hb & Hm & Hr). cbn [handle_input handle_transport_event].
  assert ((∃ p, conn_to_peer s !! c = Some p ∧ peer_to_conn s !! p = Some c) ∨
          (∀ p, conn_to_peer s !! c = Some p → peer_to_conn s !! p ≠ Some c)) as [(p & Hc & Ha)|Hna].
  { destruct (conn_to_peer s !! c) as [p|]; [|by right]. destruct (decide (peer_to_conn s !! p = Some c)); [left; by exists p|right; congruence]. }
  - rewrite (closed_run c p) by done. cbn [fst]. apply (in_step_more os s _ [ConnectionClosed p c CloseTransport]); [done| |].
    + exact (slots_event (ConnectionClosed p c CloseTransport) s).
    + intros q Hq. cbn. destruct (decide (p = q)) as [<-|Hne].
      * by rewrite decide_True, lookup_delete_eq.
      * by rewrite lookup_delete_ne.
  - rewrite closed_other_run by done. eapply in_step_steady; [exact Hst|]. by apply steady_same.
Qed.
Lemma in_step_verified os s c ep prev now :
  swarm_ok s → orderly s (CallInput (Transport (PeerIdentityVerified c ep prev) now)) → in_step os s →
  in_step os (handle_input (Transport (PeerIdentityVerified c ep prev) now) s).1.
Proof.
  intros Hs [_ Ho] Hst. cbn [handle_input handle_transport_event].
  set (s0 := {| s with conn_to_remote_addr := <[c := transport ep]> (conn_to_remote_addr s) |}).
  rewrite (run_ok (record_remote_addr c ep) _ s s0 tt) by done.
  assert (swarm_ok s0) as Hs0 by exact (swarm_addresses s _ Hs). assert (in_step os s0) as Hst0 by exact Hst.
  destruct (endpoint_peer_id ep) as [p|]; [|done]. specialize (Ho p eq_refl).
  pose proof (upgrade_spec c p s0 Hs0) as Hw. apply wp_ok_run in Hw as (u & s1 & -> & _ & Hw). cbn [fst].
  case_decide as Hk; [by subst|]. destruct Ho as [?|(Hidle & Hnone & Hph)]; [done|].
  assert (slots s0 = []) as Hsl0.
  { unfold slots. cbn. unfold is_idle in Hidle. destruct (events s); [done|]. by rewrite andb_false_r in Hidle. }
  apply (in_step_more os s0 s1 [ConnectionEstablished p c] Hst0).
  - change (conn_to_peer s0) with (conn_to_peer s) in Hw. rewrite Hsl0 in *. by destruct (conn_to_peer s !! c); destruct Hw as [_ ->].
  - change (conn_to_peer s0) with (conn_to_peer s) in Hw. change (peer_to_conn s0) with (peer_to_conn s) in *. intros q Hq. cbn.
    destruct (decide (p = q)) as [<-|Hne].
    + rewrite Hnone. destruct (conn_to_peer s !! c); destruct Hw as [-> _]; by rewrite lookup_insert_eq.
    + destruct (conn_to_peer s !! c) as [stale|] eqn:Hc; destruct Hw as [-> _]; rewrite lookup_insert_ne by done; [|done].
      rewrite lookup_delete_ne; [done|]. intros ->. by apply Hq, Hph.
Qed.

(** C5: refinement. An application that follows the announcements keeps exactly
    one slot per peer: a connection is announced only while the peer has none,
    its end only while it is the one the peer has, and after all that is polled
    or queued the slot holds the connection the swarm has for the peer. This
    holds of every peer identifier but the placeholders that the swarm makes up
    for connections whose peer is not known yet (the end of such a connection is
    announced although its begin was not). The runs are those of a transport
    that announces a connection under an id that is not in use, verifies its
    peer once and not as a peer that is connected already, and of a driver that
    polls everything before it reports the verification. *)
Theorem swarm_slots_refined ic pc os s p :
  run orderly (SwarmCore_new ic pc) os s → ¬ placeholder p →
  replay p None (told os ++ events s) = Some (peer_to_conn s !! p).
Proof.
  intros Hrun. revert p. change (in_step os s).
  induction Hrun as [|os s c Hrun IH [Ha Ho]|os s o s' Hrun IH Hpoll]; [done| |].
  - assert (swarm_ok s) as Hs by (eapply run_ok_inv, Hrun; by intros ? ? []).
    destruct (slot_call c) eqn:Hsc; [|eapply in_step_steady; [done|]; by apply steady_call].
    destruct c as [i| | | | | | | | | | | | | |]; try done. destruct i as [e now| | | |]; try done.
    destruct e; try done; cbn [perform].
    + by apply in_step_connected.
    + by apply in_step_closed.
    + by apply in_step_verified.
  - intros p Hp. specialize (IH p Hp). unfold poll_output in Hpoll. unfold told in *. rewrite omap_app.
    destruct (actions s); [destruct (events s) as [|e es] eqn:He; [destruct (after_event_actions s); [done|]|]|];
      injection Hpoll as <- <-; cbn; rewrite ?app_nil_r; rewrite ?He in *; try done; [by rewrite app_nil_r in IH|by rewrite <- app_assoc].
Qed.
End SwarmSlots.
