(* ===== verification/SwarmStreams.v ===== *)
(** Streams of applications: however the bytes of a negotiation and of what
    follows it are cut, the application gets one stream, and its bytes. *)

From S2P Require Import Prelude Varint Text SansIo Pieces Multistream Negotiation Ping Base58 PeerIdentity Multiaddr Proto Identify Swarm SwarmSafety SwarmRuns.

(** ** A negotiator that is fed in pieces *)

(** Outputs that neither end nor fail a negotiation: a listener goes on after a
    refusal, a dialer does not. *)
Definition goes_on (r : Role) (o : MultistreamOutput) : bool :=
  match o with OutboundData _ => true | NotAvailable => match r with Listener => true | Dialer => false end | _ => false end.

(** Only a listener waits for a request. *)
Definition role_ok (n : MultistreamSelect) : Prop := role n = Dialer → state n ≠ WaitingForProtocolRequest.

Lemma handle_goes_on n p st' pr :
  role_ok n → handle_message (role n) (state n) (desired_protocol n) (supported_protocols n) p = Ok (st', pr) → st' ≠ Done →
  forallb (goes_on (role n)) pr = true ∧ ∀ rest, role_ok {| n with recv_buf := rest; state := st' |}.
Proof.
  unfold role_ok, handle_message. intros Hn Hh Hst'. destruct (state n); cbn in Hh.
  - case_bool_decide; cbn in Hh; [|by injection Hh as <- <-].
    destruct (role n); [destruct (desired_protocol n)|]; cbn in Hh; try done; by injection Hh as <- <-.
  - destruct (role n) eqn:Hl; [by destruct Hn|]. case_bool_decide; by injection Hh as <- <-.
  - destruct (desired_protocol n); [|done]. cbn in Hh. repeat case_bool_decide; by injection Hh as <- <-.
  - by injection Hh as <- <-.
Qed.
Lemma runs_goes_on n o n' :
  runs n o n' → role_ok n → state n' ≠ Done → role n' = role n ∧ pending_outputs n' = pending_outputs n ∧ forallb (goes_on (role n)) o = true.
Proof.
  induction 1 as [n Hst|n Hst Hd|n e Hst Hd|n p k rest st' pr outs n' Hst Hd Hb Hh Hr IH]; intros Hn Hnd; try done.
  assert (st' ≠ Done) as Hst'. { intros ->. apply Hnd. by inversion Hr. }
  destruct (handle_goes_on n p st' pr Hn Hh Hst') as [Hpr Hn']. destruct (IH (Hn' rest) Hnd) as (Hrole & Hpend & Hall).
  split_and!; [done|done|]. rewrite forallb_app. by apply andb_true_intro.
Qed.

Section Fed.
(** From [n], the bytes [wire] agree on [p] after the outputs [outs]. *)
Context (n : MultistreamSelect) (wire : bytes) (outs : list MultistreamOutput) (p : bytes).
Context (Hn : select_ok n) (Hrole : role_ok n) (Hstate : state n ≠ Done) (Hbuf : recv_buf n = []).
Context (Hfull : ∀ r, runs {| n with recv_buf := wire ++ r |} (outs ++ [Negotiated p]) {| n with state := Done; recv_buf := r |}).

(** What [receive] has made of the bytes [b]. *)
Definition stage (b : bytes) : MultistreamSelect := (receive b n).1.
Definition said (b : bytes) : list MultistreamOutput := match (receive b n).2 with Ok o => o | _ => [] end.

Lemma stage_runs b :
  receive b n = (stage b, Ok (said b)) ∧ runs {| n with recv_buf := b |} (said b) (stage b) ∧ select_ok (stage b).
Proof.
  destruct (receive_runs b n Hn Hstate) as (o & n' & Hrun & Hr & Hok). unfold stage, said. rewrite Hrun. rewrite Hbuf in Hr. done.
Qed.
Lemma stage_waits b : strict_prefix b wire → state (stage b) ≠ Done.
Proof.
  intros (k & Hk & Hw) Hd. destruct (stage_runs b) as (_ & Hr & _).
  apply (runs_app_done _ _ _ k) in Hr; [|done]. cbn in Hr. specialize (Hfull []). rewrite app_nil_r, Hw in Hfull.
  destruct (runs_det _ _ _ _ _ Hr Hfull) as [_ Hs]. apply (f_equal recv_buf) in Hs. cbn in Hs. by apply app_eq_nil in Hs as [_ ->].
Qed.
Lemma stage_goes_on b : strict_prefix b wire → forallb (goes_on (role n)) (said b) = true ∧ pending_outputs (stage b) = pending_outputs n.
Proof.
  intros Hb. destruct (stage_runs b) as (_ & Hr & _). by destruct (runs_goes_on _ _ _ Hr Hrole (stage_waits b Hb)) as (_ & ? & ?).
Qed.

(** More bytes, still not all. *)
Lemma stage_more b d :
  strict_prefix (b ++ d) wire → ∃ o, receive d (stage b) = (stage (b ++ d), Ok o) ∧ said (b ++ d) = said b ++ o ∧ forallb (goes_on (role n)) o = true.
Proof.
  intros Hbd. pose proof (strict_prefix_app _ _ _ Hbd) as Hb. pose proof (stage_waits b Hb) as Hw.
  destruct (stage_runs b) as (_ & Hr & Hok). destruct (receive_runs d (stage b) Hok Hw) as (o & n' & Hrun & Hr2 & _).
  pose proof (runs_app _ _ _ d _ _ Hr Hw Hr2) as Hr12. cbn in Hr12. destruct (stage_runs (b ++ d)) as (_ & Hr' & _).
  destruct (runs_det _ _ _ _ _ Hr12 Hr') as [Ho <-]. exists o. split_and!; [done|done|].
  pose proof (proj1 (stage_goes_on _ Hbd)) as Hall. rewrite <- Ho, forallb_app in Hall. by apply andb_prop in Hall as [_ ?].
Qed.
(** The last bytes, and some that follow. *)
Lemma stage_completes b d r :
  strict_prefix b wire → b ++ d = wire ++ r →
  ∃ o, receive d (stage b) = ({| n with state := Done; recv_buf := r |}, Ok (o ++ [Negotiated p])) ∧ outs = said b ++ o.
Proof.
  intros Hb Hbd. pose proof (stage_waits b Hb) as Hw. destruct (stage_runs b) as (_ & Hr & Hok).
  destruct (receive_runs d (stage b) Hok Hw) as (o & n' & Hrun & Hr2 & _).
  pose proof (runs_app _ _ _ d _ _ Hr Hw Hr2) as Hr12. cbn in Hr12. rewrite Hbd in Hr12.
  destruct (runs_det _ _ _ _ _ Hr12 (Hfull r)) as [Ho ->]. destruct (exists_last (l := o)) as (o' & x & ->).
  { intros ->. rewrite app_nil_r in Ho. pose proof (proj1 (stage_goes_on _ Hb)) as Hall. rewrite Ho, forallb_app in Hall.
    by apply andb_prop in Hall as [_ ?]. }
  rewrite app_assoc in Ho. apply app_inj_tail in Ho as [<- <-]. by exists o'.
Qed.
Lemma stage_nil : stage [] = n ∧ said [] = [].
Proof.
  clear Hfull Hrole. assert (receive [] n = (n, Ok [])) as Hr.
  { apply receive_runs_inv; [done|done|]. rewrite Hbuf. cbn. replace {| n with recv_buf := [] |} with n by (destruct n; cbn in *; by subst).
    apply runs_wait; [done|]. rewrite Hbuf. by vm_compute. }
  unfold stage, said. by rewrite Hr.
Qed.
End Fed.

(** ** The two sides of a negotiation *)

(** What a dialer sends that proposes [ps] in vain and then [p], and what it
    hears; what a listener sends that accepts [p]. *)
Definition offer (ps : list bytes) (p : bytes) : bytes := header ++ concat (encode_message <$> ps) ++ encode_message p.
Definition answers (ps : list bytes) (p : bytes) : list bytes := ((λ _, encode_message NOT_AVAILABLE) <$> ps) ++ [encode_message p].
Definition listening (protocols : list bytes) : MultistreamSelect := {| (listener protocols) with started := true |}.
Definition dialing (p : bytes) : MultistreamSelect := {| (dialer p) with started := true |}.


Lemma listening_runs protocols ps p r :
  Forall message_ok ps → Forall (λ q, q ∉ protocols) ps → message_ok p → p ∈ protocols →
  runs {| (listening protocols) with recv_buf := offer ps p ++ r |}
    ((concat ((λ _, [OutboundData (encode_message NOT_AVAILABLE); NotAvailable]) <$> ps) ++ [OutboundData (encode_message p)]) ++ [Negotiated p])
    {| (listening protocols) with state := Done; recv_buf := r |}.
Proof.
  intros Hps Hn Hp Hin. rewrite <- app_assoc. unfold offer. rewrite <- !app_assoc.
  set (rest := concat (encode_message <$> ps) ++ encode_message p ++ r).
  eapply (runs_msg {| (listening protocols) with recv_buf := header ++ rest |} MULTISTREAM_PROTOCOL_ID _ rest WaitingForProtocolRequest []);
    [done|apply decode_message_complete, header_ok|done|done|].
  apply (runs_requests ps p r {| (listening protocols) with state := WaitingForProtocolRequest; recv_buf := rest |}); try done.
  - eapply Forall_impl; [exact Hn|]. intros q Hq. cbn. by rewrite elem_of_list_to_set.
  - cbn. by apply elem_of_list_to_set.
Qed.
Lemma dialing_runs p r :
  message_ok p →
  runs {| (dialing p) with recv_buf := (header ++ encode_message p) ++ r |} ([OutboundData (encode_message p)] ++ [Negotiated p])
    {| (dialing p) with state := Done; recv_buf := r |}.
Proof.
  intros Hp. rewrite <- app_assoc.
  eapply (runs_msg {| (dialing p) with recv_buf := header ++ encode_message p ++ r |} MULTISTREAM_PROTOCOL_ID _ (encode_message p ++ r)
    WaitingForProtocolResponse [OutboundData (encode_message p)] [Negotiated p]);
    [done|apply decode_message_complete, header_ok|done|done|].
  eapply (runs_msg {| (dialing p) with state := WaitingForProtocolResponse; recv_buf := encode_message p ++ r |} p _ r Done [Negotiated p] []);
    [done|by apply decode_message_complete|done| |by apply runs_done].
  cbn. by rewrite bool_decide_true.
Qed.

Section SwarmStreams.
Context `{HC : HashCrates Multihash} `{!EqDecision Multihash} `{!Countable Multihash} {HS : HashCratesSpec Multihash}.
Abbreviation PeerId := (PeerIdentity.PeerId (Multihash := Multihash)).
Context `{BK : !BTreeKey PeerId}.
Abbreviation SwarmCore := (Swarm.SwarmCore (Multihash := Multihash)).
Abbreviation W := (M SwarmCore (SwarmError (Multihash := Multihash))).
Implicit Types s : SwarmCore.

(** ** The loops over a negotiator's outputs *)

Definition sends (c st : Z) (o : list MultistreamOutput) : list SwarmAction :=
  omap (λ o, match o with OutboundData b => Some (SendStream c st b) | _ => None end) o.
Definition agreed (o : list MultistreamOutput) (neg : option bytes) : option bytes :=
  foldl (λ neg o, match o with Negotiated p => Some p | _ => neg end) neg o.
(** Outputs that do not fail an inbound, an outbound stream. *)
Definition accepted (r : Role) (o : MultistreamOutput) : bool := match o with Negotiated _ => true | _ => goes_on r o end.

Lemma goes_on_accepted r o : forallb (goes_on r) o = true → forallb (accepted r) o = true.
Proof. induction o as [|x o IH]; [done|]. cbn. intros [Hx Ho]%andb_prop. apply andb_true_intro. split; [by destruct x|auto]. Qed.
Lemma goes_on_agreed r o neg : forallb (goes_on r) o = true → agreed o neg = neg.
Proof. revert neg. induction o as [|x o IH]; intros neg; [done|]. cbn. intros [Hx Ho]%andb_prop. destruct x; try done; by apply IH. Qed.

Lemma poll_inbound {B} k s n (f : option MultistreamOutput → W B) :
  inbound_negotiators s !! k = Some n →
  (r ← on_inbound k Multistream.poll_output; o ← lift (polled r); f o) s =
    match pending_outputs n with
    | [] => f None s
    | o :: os => f (Some o) (put_inbound k {| n with pending_outputs := os |} s)
    end.
Proof.
  intros Hk. unfold mbind, M_bind, on_inbound, entry_call. rewrite Hk. cbn [id]. unfold Multistream.poll_output.
  destruct (pending_outputs n); [|done]. cbn. unfold put_inbound. rewrite insert_id by done. by destruct s.
Qed.
Lemma poll_outbound {B} k s po (f : option MultistreamOutput → W B) :
  outbound_negotiators s !! k = Some po →
  (r ← on_outbound k Multistream.poll_output; o ← lift (polled r); f o) s =
    match pending_outputs (negotiator po) with
    | [] => f None s
    | o :: os => f (Some o) (put_outbound k {| po with negotiator := {| (negotiator po) with pending_outputs := os |} |} s)
    end.
Proof.
  intros Hk. unfold mbind, M_bind, on_outbound, entry_call. rewrite Hk. unfold Multistream.poll_output.
  destruct (pending_outputs (negotiator po)); [|done]. cbn. unfold put_outbound. rewrite insert_id by (by destruct po). by destruct s.
Qed.
(** The state after the loop. *)
Definition more_actions (l : list SwarmAction) s : SwarmCore := {| s with actions := actions s ++ l |}.
Lemma put_inbound_more k n l s : put_inbound k n (more_actions l s) = more_actions l (put_inbound k n s).
Proof. done. Qed.
Lemma put_outbound_more k po l s : put_outbound k po (more_actions l s) = more_actions l (put_outbound k po s).
Proof. done. Qed.
Lemma drop_put_inbound k n s :
  {| (put_inbound k n s) with inbound_negotiators := delete k (inbound_negotiators (put_inbound k n s)) |}
  = {| s with inbound_negotiators := delete k (inbound_negotiators s) |}.
Proof. destruct s. unfold put_inbound. cbn. by rewrite delete_insert_eq. Qed.
Lemma drop_put_outbound k po s :
  {| (put_outbound k po s) with outbound_negotiators := delete k (outbound_negotiators (put_outbound k po s)) |}
  = {| s with outbound_negotiators := delete k (outbound_negotiators s) |}.
Proof. destruct s. unfold put_outbound. cbn. by rewrite delete_insert_eq. Qed.
Lemma put_inbound_id k s n : inbound_negotiators s !! k = Some n → put_inbound k n s = s.
Proof. intros Hk. unfold put_inbound. rewrite insert_id by done. by destruct s. Qed.
Lemma put_outbound_id k s po : outbound_negotiators s !! k = Some po → put_outbound k po s = s.
Proof. intros Hk. unfold put_outbound. rewrite insert_id by done. by destruct s. Qed.
Lemma more_actions_nil s : more_actions [] s = s.
Proof. unfold more_actions. rewrite app_nil_r. by destruct s. Qed.
Lemma more_actions_app l1 l2 s : more_actions l2 (more_actions l1 s) = more_actions (l1 ++ l2) s.
Proof. unfold more_actions. cbn. by rewrite app_assoc. Qed.

Lemma drain_inbound_run fuel c st neg s n :
  inbound_negotiators s !! (c, st) = Some n → forallb (accepted Listener) (pending_outputs n) = true → (length (pending_outputs n) ≤ fuel)%nat →
  drain_inbound fuel c st neg s =
    (more_actions (sends c st (pending_outputs n)) (put_inbound (c, st) {| n with pending_outputs := [] |} s), Ok (Some (agreed (pending_outputs n) neg))).
Proof.
  revert neg s n. induction fuel as [|fuel IH]; intros neg s n Hk Ha Hf; cbn [drain_inbound]; rewrite (poll_inbound _ _ n) by done;
    destruct (pending_outputs n) as [|o os] eqn:Ho; cbn in Hf; try lia.
  1, 2: assert ({| n with pending_outputs := [] |} = n) as -> by (destruct n; cbn in *; by subst); by rewrite put_inbound_id, more_actions_nil.
  cbn in Ha. apply andb_prop in Ha as [Hx Hos]. set (n1 := {| n with pending_outputs := os |}).
  assert (∀ l neg', drain_inbound fuel c st neg' (more_actions l (put_inbound (c, st) n1 s)) =
    (more_actions (l ++ sends c st os) (put_inbound (c, st) {| n with pending_outputs := [] |} s), Ok (Some (agreed os neg')))) as Hgo.
  { intros l neg'. rewrite (IH neg' _ n1) by (apply lookup_insert_eq || done || (cbn; lia)). by rewrite <- more_actions_app, put_inbound_more, put_inbound_twice. }
  destruct o as [b|q| |]; try done.
  - exact (Hgo [SendStream c st b] neg).
  - pose proof (Hgo [] (Some q)) as H. rewrite more_actions_nil in H. exact H.
  - pose proof (Hgo [] neg) as H. rewrite more_actions_nil in H. exact H.
Qed.
Lemma drain_outbound_run fuel c st neg s po :
  outbound_negotiators s !! (c, st) = Some po → forallb (accepted Dialer) (pending_outputs (negotiator po)) = true →
  (length (pending_outputs (negotiator po)) ≤ fuel)%nat →
  drain_outbound fuel c st neg s =
    (more_actions (sends c st (pending_outputs (negotiator po)))
       (put_outbound (c, st) {| po with negotiator := {| (negotiator po) with pending_outputs := [] |} |} s),
     Ok (Some (if agreed (pending_outputs (negotiator po)) None then true else neg))).
Proof.
  revert neg s po. induction fuel as [|fuel IH]; intros neg s po Hk Ha Hf; cbn [drain_outbound]; rewrite (poll_outbound _ _ po) by done;
    destruct (pending_outputs (negotiator po)) as [|o os] eqn:Ho; cbn in Hf; try lia.
  1, 2: assert ({| po with negotiator := {| (negotiator po) with pending_outputs := [] |} |} = po) as ->
      by (destruct po as [n tg]; cbn in *; destruct n; cbn in *; by subst); by rewrite put_outbound_id, more_actions_nil.
  cbn in Ha. apply andb_prop in Ha as [Hx Hos]. set (po1 := {| po with negotiator := {| (negotiator po) with pending_outputs := os |} |}).
  assert (∀ l neg', drain_outbound fuel c st neg' (more_actions l (put_outbound (c, st) po1 s)) =
    (more_actions (l ++ sends c st os) (put_outbound (c, st) {| po with negotiator := {| (negotiator po) with pending_outputs := [] |} |} s),
     Ok (Some (if agreed os None then true else neg')))) as Hgo.
  { intros l neg'. rewrite (IH neg' _ po1) by (apply lookup_insert_eq || done || (cbn; lia)). by rewrite <- more_actions_app, put_outbound_more, put_outbound_twice. }
  destruct o as [b|q| |]; try done.
  - exact (Hgo [SendStream c st b] neg).
  - pose proof (Hgo [] true) as H. rewrite more_actions_nil in H. cbn -[agreed]. rewrite H. cbn.
    assert (∀ o q, is_Some (foldl (λ neg o, match o with Negotiated p => Some p | _ => neg end) (Some q) o)) as Hsome.
    { intros l. induction l as [|x l IHl]; intros q'; [by eexists|]. cbn. destruct x; apply IHl. }
    destruct (Hsome os q) as [x ->]. by destruct (agreed os None).
Qed.

(** ** One piece of bytes for a negotiator *)

Lemma select_data d n n' o :
  receive d n = (n', Ok o) → Multistream.handle_input (Data d) n = ({| n' with pending_outputs := pending_outputs n' ++ o |}, Ok tt).
Proof. intros Hr. unfold Multistream.handle_input. by rewrite (run_ok _ _ _ _ _ Hr). Qed.

(** The end of a negotiation: what was not read is given back. *)
Lemma finish_inbound_run {B} k n l s (f : bytes → W B) :
  (r ← on_inbound k take_remaining_buffer; rest ← lift (remaining r); _ ← remove_inbound k; f rest) (more_actions l (put_inbound k n s)) =
    f (recv_buf n) (more_actions l {| s with inbound_negotiators := delete k (inbound_negotiators s) |}).
Proof.
  rewrite (run_ok _ _ _ (put_inbound k {| n with recv_buf := [] |} (more_actions l (put_inbound k n s))) (Some (inl (recv_buf n))));
    [|unfold on_inbound, entry_call; cbn [more_actions put_inbound inbound_negotiators]; by rewrite lookup_insert_eq].
  rewrite run_lift. cbn [remaining].
  rewrite (run_ok _ _ _ (more_actions l {| s with inbound_negotiators := delete k (inbound_negotiators s) |}) tt); [done|].
  rewrite put_inbound_more, put_inbound_twice. unfold remove_inbound, modify. f_equal.
  exact (f_equal (more_actions l) (drop_put_inbound k _ s)).
Qed.
Lemma finish_outbound_run {B} k po l s (f : bytes → W B) :
  (r ← on_outbound k take_remaining_buffer; rest ← lift (remaining r); _ ← remove_outbound k; f rest) (more_actions l (put_outbound k po s)) =
    f (recv_buf (negotiator po)) (more_actions l {| s with outbound_negotiators := delete k (outbound_negotiators s) |}).
Proof.
  rewrite (run_ok _ _ _ (put_outbound k {| po with negotiator := {| (negotiator po) with recv_buf := [] |} |} (more_actions l (put_outbound k po s))) (Some (inl (recv_buf (negotiator po)))));
    [|unfold on_outbound, entry_call; cbn [more_actions put_outbound outbound_negotiators]; by rewrite lookup_insert_eq].
  rewrite run_lift. cbn [remaining].
  rewrite (run_ok _ _ _ (more_actions l {| s with outbound_negotiators := delete k (outbound_negotiators s) |}) tt); [done|].
  rewrite put_outbound_more, put_outbound_twice. unfold remove_outbound, modify. f_equal.
  exact (f_equal (more_actions l) (drop_put_outbound k _ s)).
Qed.

Lemma feed_inbound_waits c st d now s n n' o :
  inbound_negotiators s !! (c, st) = Some n → receive d n = (n', Ok o) → pending_outputs n' = [] → forallb (goes_on Listener) o = true →
  feed_inbound_negotiator c st d now s = (more_actions (sends c st o) (put_inbound (c, st) n' s), Ok tt).
Proof.
  intros Hk Hr Hp Ho. unfold feed_inbound_negotiator.
  rewrite (run_ok _ _ s (put_inbound (c, st) {| n' with pending_outputs := o |} s) (Some (inl tt)));
    [|unfold on_inbound, entry_call; rewrite Hk; cbn [id]; by rewrite (select_data _ _ _ _ Hr), Hp].
  rewrite run_gets. cbn [inbound_negotiators put_inbound]. rewrite lookup_insert_eq.
  rewrite (run_ok _ _ _ _ _ (drain_inbound_run (length o) c st None (put_inbound (c, st) {| n' with pending_outputs := o |} s)
    {| n' with pending_outputs := o |} (lookup_insert_eq _ _ _) (goes_on_accepted _ _ Ho) ltac:(done))).
  cbn [pending_outputs]. rewrite (goes_on_agreed Listener) by done. rewrite put_inbound_twice.
  destruct n'; cbn in Hp; by subst.
Qed.
Lemma feed_inbound_ends c st d now s n n' o p :
  inbound_negotiators s !! (c, st) = Some n → receive d n = (n', Ok (o ++ [Negotiated p])) → pending_outputs n' = [] → forallb (goes_on Listener) o = true →
  feed_inbound_negotiator c st d now s =
    (_ ← on_inbound_negotiated c st p; dispatch_remaining c st (recv_buf n') now)
      (more_actions (sends c st o) {| s with inbound_negotiators := delete (c, st) (inbound_negotiators s) |}).
Proof.
  intros Hk Hr Hp Ho. unfold feed_inbound_negotiator. set (o' := o ++ [Negotiated p]) in *.
  assert (forallb (accepted Listener) o' = true) as Ho'.
  { unfold o'. rewrite forallb_app. apply andb_true_intro. split; [by apply goes_on_accepted|done]. }
  rewrite (run_ok _ _ s (put_inbound (c, st) {| n' with pending_outputs := o' |} s) (Some (inl tt)));
    [|unfold on_inbound, entry_call; rewrite Hk; cbn [id]; by rewrite (select_data _ _ _ _ Hr), Hp].
  rewrite run_gets. cbn [inbound_negotiators put_inbound]. rewrite lookup_insert_eq.
  rewrite (run_ok _ _ _ _ _ (drain_inbound_run (length o') c st None (put_inbound (c, st) {| n' with pending_outputs := o' |} s)
    {| n' with pending_outputs := o' |} (lookup_insert_eq _ _ _) Ho' ltac:(done))).
  cbn [pending_outputs]. unfold o', agreed. rewrite foldl_app. cbn [foldl]. rewrite put_inbound_twice.
  assert (sends c st (o ++ [Negotiated p]) = sends c st o) as ->.
  { unfold sends. rewrite omap_app. apply app_nil_r. }
  exact (finish_inbound_run (c, st) _ _ s _).
Qed.
Lemma feed_outbound_waits c st d now s po n' o :
  outbound_negotiators s !! (c, st) = Some po → receive d (negotiator po) = (n', Ok o) → pending_outputs n' = [] → forallb (goes_on Dialer) o = true →
  feed_outbound_negotiator c st d now s = (more_actions (sends c st o) (put_outbound (c, st) {| po with negotiator := n' |} s), Ok tt).
Proof.
  intros Hk Hr Hp Ho. unfold feed_outbound_negotiator. set (po1 := {| po with negotiator := {| n' with pending_outputs := o |} |}).
  rewrite (run_ok _ _ s (put_outbound (c, st) po1 s) (Some (inl tt)));
    [|unfold on_outbound, entry_call; rewrite Hk; by rewrite (select_data _ _ _ _ Hr), Hp].
  rewrite run_gets. cbn [outbound_negotiators put_outbound]. rewrite lookup_insert_eq.
  rewrite (run_ok _ _ _ _ _ (drain_outbound_run (length o) c st false (put_outbound (c, st) po1 s)
    po1 (lookup_insert_eq _ _ _) (goes_on_accepted _ _ Ho) ltac:(done))).
  unfold po1. cbn [pending_outputs negotiator]. rewrite (goes_on_agreed Dialer) by done. rewrite put_outbound_twice.
  destruct n'; cbn in Hp; by subst.
Qed.
Lemma feed_outbound_ends c st d now s po n' o p :
  outbound_negotiators s !! (c, st) = Some po → receive d (negotiator po) = (n', Ok (o ++ [Negotiated p])) → pending_outputs n' = [] →
  forallb (goes_on Dialer) o = true →
  feed_outbound_negotiator c st d now s =
    (_ ← on_outbound_negotiated c st (target po) now; dispatch_remaining c st (recv_buf n') now)
      (more_actions (sends c st o) {| s with outbound_negotiators := delete (c, st) (outbound_negotiators s) |}).
Proof.
  intros Hk Hr Hp Ho. unfold feed_outbound_negotiator. set (o' := o ++ [Negotiated p]) in *.
  assert (forallb (accepted Dialer) o' = true) as Ho'.
  { unfold o'. rewrite forallb_app. apply andb_true_intro. split; [by apply goes_on_accepted|done]. }
  set (po1 := {| po with negotiator := {| n' with pending_outputs := o' |} |}).
  rewrite (run_ok _ _ s (put_outbound (c, st) po1 s) (Some (inl tt)));
    [|unfold on_outbound, entry_call; rewrite Hk; by rewrite (select_data _ _ _ _ Hr), Hp].
  rewrite run_gets. cbn [outbound_negotiators put_outbound]. rewrite lookup_insert_eq.
  rewrite (run_ok _ _ _ _ _ (drain_outbound_run (length o') c st false (put_outbound (c, st) po1 s) po1 (lookup_insert_eq _ _ _) Ho' ltac:(done))).
  unfold po1. cbn [pending_outputs negotiator]. unfold o', agreed. rewrite foldl_app. cbn [foldl]. rewrite put_outbound_twice.
  assert (sends c st (o ++ [Negotiated p]) = sends c st o) as ->.
  { unfold sends. rewrite omap_app. apply app_nil_r. }
  exact (finish_outbound_run (c, st) _ _ s _).
Qed.

(** ** Streams *)

Definition more_events (l : list (SwarmEvent (Multihash := Multihash))) s : SwarmCore := {| s with events := events s ++ l |}.
Definition data_input (c st now : Z) (d : bytes) : SwarmInput (Multihash := Multihash) := Transport (TStreamData c st d) now.

(** A stream of the application is passed on as it comes. *)
Definition user_stream (c st : Z) (q : PeerId) (p : bytes) s : Prop :=
  stream_owner s !! (c, st) = Some (User p) ∧ conn_to_peer s !! c = Some q ∧
  inbound_negotiators s !! (c, st) = None ∧ outbound_negotiators s !! (c, st) = None.

Lemma dispatch_user c st q p d now s :
  user_stream c st q p s → dispatch_protocol_data c st d now s = (more_events [StreamData q c st d] s, Ok tt).
Proof.
  intros (Ho & Hc & _). unfold dispatch_protocol_data. rewrite run_gets, Ho.
  by rewrite (run_ok _ _ s s q) by (unfold ensure_peer_id_for_conn; rewrite run_gets; by rewrite Hc).
Qed.
Lemma user_data c st q p d now s :
  user_stream c st q p s → handle_input (data_input c st now d) s = (more_events [StreamData q c st d] s, Ok tt).
Proof.
  intros Hu. pose proof Hu as (_ & _ & Hi & Ho). cbn [handle_input data_input handle_transport_event]. unfold handle_stream_data.
  rewrite run_gets, Hi, bool_decide_false by (by intros []). rewrite run_gets, Ho, bool_decide_false by (by intros []). by apply (dispatch_user _ _ q p).
Qed.
Lemma user_inputs c st q p now ds s :
  user_stream c st q p s → handle_inputs (data_input c st now <$> ds) s = (more_events (StreamData q c st <$> ds) s, Ok tt).
Proof.
  revert s. induction ds as [|d ds IH]; intros s Hu; cbn [fmap list_fmap handle_inputs].
  - unfold more_events. rewrite app_nil_r. by destruct s.
  - rewrite (run_ok _ _ _ _ _ (user_data c st q p d now s Hu)). rewrite IH by done. unfold more_events. cbn. by rewrite <- app_assoc.
Qed.
Lemma dispatch_rest c st q p rest now s :
  user_stream c st q p s →
  dispatch_remaining c st rest now s = (more_events (StreamData q c st <$> (if bool_decide (rest = []) then [] else [rest])) s, Ok tt).
Proof.
  intros Hu. unfold dispatch_remaining. case_bool_decide; [|by apply (dispatch_user _ _ q p)].
  unfold more_events. cbn. rewrite app_nil_r. by destruct s.
Qed.

Lemma sends_answers c st ps p :
  sends c st (concat ((λ _, [OutboundData (encode_message NOT_AVAILABLE); NotAvailable]) <$> ps) ++ [OutboundData (encode_message p)])
  = SendStream c st <$> answers ps p.
Proof. induction ps as [|x ps IH]; [done|]. cbn. f_equal. exact IH. Qed.
Lemma sends_app c st o1 o2 : sends c st (o1 ++ o2) = sends c st o1 ++ sends c st o2.
Proof. apply omap_app. Qed.

Lemma incoming_run c st now s :
  handle_input (Transport (IncomingStream c st) now) s =
    (more_actions [SendStream c st header] (put_inbound (c, st) (listening (inbound_protocols s)) s), Ok tt).
Proof.
  cbn [handle_input handle_transport_event]. unfold handle_incoming_stream. rewrite run_gets.
  change (Multistream.handle_input Start (listener (inbound_protocols s)))
    with ({| (listening (inbound_protocols s)) with pending_outputs := [OutboundData header] |}, Ok (E := MultistreamError) tt).
  cbn iota. rewrite (run_ok _ _ s s tt) by done.
  rewrite (run_ok _ _ s (put_inbound (c, st) {| (listening (inbound_protocols s)) with pending_outputs := [OutboundData header] |} s) tt) by done.
  cbn [pending_outputs length flush_inbound].
  rewrite (poll_inbound _ _ {| (listening (inbound_protocols s)) with pending_outputs := [OutboundData header] |}) by apply lookup_insert_eq.
  cbn [pending_outputs]. rewrite put_inbound_twice.
  rewrite (run_ok _ _ _ (more_actions [SendStream c st header] (put_inbound (c, st) (listening (inbound_protocols s)) s)) (false, None)) by done.
  by rewrite (poll_inbound _ _ (listening (inbound_protocols s))) by apply lookup_insert_eq.
Qed.

Lemma inbound_agreed_run c st q p rest now s :
  user_stream c st q p {| s with stream_owner := <[(c, st) := User p]> (stream_owner s) |} →
  p ∈ inbound_protocols s → p ∉ RESERVED_PROTOCOL_IDS →
  (_ ← on_inbound_negotiated c st p; dispatch_remaining c st rest now) s =
    (more_events (StreamReady q c st p false :: (StreamData q c st <$> (if bool_decide (rest = []) then [] else [rest])))
       {| s with stream_owner := <[(c, st) := User p]> (stream_owner s) |}, Ok tt).
Proof.
  intros Hu Hin Hres. pose proof Hu as (_ & Hc & _). cbn [conn_to_peer] in Hc.
  rewrite (run_ok _ _ s (more_events [StreamReady q c st p false] {| s with stream_owner := <[(c, st) := User p]> (stream_owner s) |}) tt).
  - rewrite (dispatch_rest c st q p) by done. unfold more_events. cbn. by rewrite <- app_assoc.
  - unfold on_inbound_negotiated. rewrite (run_ok _ _ s s q) by (unfold ensure_peer_id_for_conn; rewrite run_gets; by rewrite Hc).
    rewrite !bool_decide_false by (intros ->; apply Hres; unfold RESERVED_PROTOCOL_IDS; set_solver). rewrite run_gets.
    assert (existsb (λ p0, bool_decide (p0 = p)) (inbound_protocols s) = true) as ->; [|done].
    apply existsb_exists. exists p. split; [by apply list_elem_of_In|by apply bool_decide_true].
Qed.

(** Once its negotiator is dropped, a stream has only added actions. *)
Lemma dropped_inbound k n l1 l2 s :
  inbound_negotiators s !! k = None →
  more_actions l2 {| (more_actions l1 (put_inbound k n s)) with
    inbound_negotiators := delete k (inbound_negotiators (more_actions l1 (put_inbound k n s))) |} = more_actions (l1 ++ l2) s.
Proof. intros Hk. destruct s. unfold more_actions, put_inbound. cbn in *. by rewrite delete_insert_eq, delete_id, <- app_assoc. Qed.
Lemma dropped_outbound k po l1 l2 s :
  outbound_negotiators s !! k = None →
  more_actions l2 {| (more_actions l1 (put_outbound k po s)) with
    outbound_negotiators := delete k (outbound_negotiators (more_actions l1 (put_outbound k po s))) |} = more_actions (l1 ++ l2) s.
Proof. intros Hk. destruct s. unfold more_actions, put_outbound. cbn in *. by rewrite delete_insert_eq, delete_id, <- app_assoc. Qed.

(** A stream whose negotiation is under way, and what becomes of it: [waiting b]
    when the bytes [b] have arrived, [base] with the stream's events afterwards. *)
Lemma negotiated_stream n wire outs p c st q ready (waiting : bytes → SwarmCore) base now chunks data :
  select_ok n → role_ok n → state n ≠ Done → recv_buf n = [] → pending_outputs n = [] → wire ≠ [] →
  (∀ r, runs {| n with recv_buf := wire ++ r |} (outs ++ [Negotiated p]) {| n with state := Done; recv_buf := r |}) →
  forallb (goes_on (role n)) outs = true →
  (∀ b d o, receive d (stage n b) = (stage n (b ++ d), Ok o) → said n (b ++ d) = said n b ++ o → pending_outputs (stage n (b ++ d)) = [] →
     forallb (goes_on (role n)) o = true → handle_input (data_input c st now d) (waiting b) = (waiting (b ++ d), Ok tt)) →
  (∀ b d o r, receive d (stage n b) = ({| n with state := Done; recv_buf := r |}, Ok (o ++ [Negotiated p])) → outs = said n b ++ o →
     forallb (goes_on (role n)) o = true →
     handle_input (data_input c st now d) (waiting b) =
       (more_events (ready :: (StreamData q c st <$> (if bool_decide (r = []) then [] else [r]))) base, Ok tt)) →
  user_stream c st q p base → concat chunks = wire ++ data →
  ∃ pieces, concat pieces = data ∧
    handle_inputs (data_input c st now <$> chunks) (waiting []) = (more_events (ready :: (StreamData q c st <$> pieces)) base, Ok tt).
Proof.
  intros Hn Hrole Hst Hbuf Hpend Hwire Hfull Houts Hwaits Hends Huser Hcs.
  destruct (chunks_complete chunks wire data Hwire Hcs) as (pre & d & post & r & -> & Hpre & Hcut & ->).
  exists ((if bool_decide (r = []) then [] else [r]) ++ post). split; [rewrite concat_app; case_bool_decide; subst; cbn; by rewrite ?app_nil_r|].
  rewrite fmap_app, handle_inputs_app.
  rewrite (run_ok _ _ _ (waiting (concat pre)) tt).
  - cbn [fmap list_fmap handle_inputs SansIo.handle_input swarm_protocol].
    destruct (stage_completes n wire outs p Hn Hrole Hst Hbuf Hfull _ _ _ Hpre Hcut) as (o & Hr & Ho).
    rewrite (run_ok _ _ _ _ _ (Hends _ _ o r Hr Ho ltac:(rewrite Ho, forallb_app in Houts; by apply andb_prop in Houts as [_ ?]))).
    rewrite (user_inputs c st q p) by done. unfold more_events. cbn. by rewrite fmap_app, <- !app_assoc.
  - apply (arrive_wait (data_input c st now) waiting wire); [|done]. intros b d' Hbd. cbn [SansIo.handle_input swarm_protocol].
    destruct (stage_more n wire outs p Hn Hrole Hst Hbuf Hfull b d' Hbd) as (o & Hr & Hs & Ho).
    destruct (stage_goes_on n wire outs p Hn Hrole Hst Hbuf Hfull _ Hbd) as [_ Hp]. by apply (Hwaits b d' o); [..|congruence|].
Qed.

(** C10: an inbound stream of an application protocol. However the transport cuts
    the bytes of the remote's negotiation (proposals that are refused, then one
    that is registered) and of the data that follows, also in the same piece,
    the application is told once that the stream is ready, by which peer, and
    then gets exactly the data, in order; the remote gets the header, one refusal
    per refused proposal and the acceptance; nothing else changes. *)
Theorem swarm_inbound_stream s c st q ps p data chunks now :
  conn_to_peer s !! c = Some q → inbound_negotiators s !! (c, st) = None → outbound_negotiators s !! (c, st) = None →
  Forall message_ok ps → Forall (λ p', p' ∉ inbound_protocols s) ps →
  message_ok p → p ∈ inbound_protocols s → p ∉ RESERVED_PROTOCOL_IDS →
  concat chunks = offer ps p ++ data →
  ∃ pieces, concat pieces = data ∧
    handle_inputs (Transport (IncomingStream c st) now :: (data_input c st now <$> chunks)) s =
      ({| s with stream_owner := <[(c, st) := User p]> (stream_owner s);
          actions := actions s ++ (SendStream c st <$> header :: answers ps p);
          events := events s ++ StreamReady q c st p false :: (StreamData q c st <$> pieces) |}, Ok tt).
Proof.
  intros Hc Hi Ho Hps Hnps Hp Hin Hres Hcs. set (n := listening (inbound_protocols s)).
  set (outs := concat ((λ _, [OutboundData (encode_message NOT_AVAILABLE); NotAvailable]) <$> ps) ++ [OutboundData (encode_message p)]).
  set (waiting b := more_actions (SendStream c st header :: sends c st (said n b)) (put_inbound (c, st) (stage n b) s)).
  set (base := {| s with stream_owner := <[(c, st) := User p]> (stream_owner s); actions := actions s ++ (SendStream c st <$> header :: answers ps p) |}).
  assert (user_stream c st q p base) as Hu by (split_and!; [apply lookup_insert_eq|exact Hc|exact Hi|exact Ho]).
  assert (∀ b d, handle_input (data_input c st now d) (waiting b) = feed_inbound_negotiator c st d now (waiting b)) as Hfeed.
  { intros b d. cbn [handle_input data_input handle_transport_event]. unfold handle_stream_data. rewrite run_gets.
    rewrite bool_decide_true; [done|]. unfold waiting. cbn [more_actions put_inbound inbound_negotiators]. rewrite lookup_insert_eq. by eexists. }
  assert (∀ b, inbound_negotiators (waiting b) !! (c, st) = Some (stage n b)) as Hw by (intros b; apply lookup_insert_eq).
  destruct (negotiated_stream n (offer ps p) outs p c st q (StreamReady q c st p false) waiting base now chunks data)
    as (pieces & Hpieces & Hrun); try done.
  - by intros [?|?].
  - intros r. by apply listening_runs.
  - unfold outs. clear. induction ps; done.
  - intros b d o Hr Hs Hp' Ho'. rewrite Hfeed. rewrite (feed_inbound_waits c st d now _ _ _ o (Hw b) Hr Hp' Ho'). unfold waiting.
    rewrite Hs, sends_app, put_inbound_more, put_inbound_twice, more_actions_app. done.
  - intros b d o r Hr Houts Ho'. rewrite Hfeed. rewrite (feed_inbound_ends c st d now _ _ _ o p (Hw b) Hr eq_refl Ho'). cbn [recv_buf].
    unfold waiting at 1. rewrite dropped_inbound by done. cbn [app]. rewrite <- sends_app, <- Houts. unfold outs. rewrite sends_answers.
    rewrite (inbound_agreed_run c st q p); [done|exact Hu|done|done].
  - exists pieces. split; [done|]. cbn [handle_inputs SansIo.handle_input swarm_protocol]. rewrite (run_ok _ _ _ _ _ (incoming_run c st now s)).
    destruct (stage_nil n) as [Hstage Hsaid]; [by intros [?|?]|done|done|]. unfold waiting in Hrun. rewrite Hstage, Hsaid in Hrun. exact Hrun.
Qed.

Lemma opened_run c st tok p now s :
  pending_opens s !! tok = Some (mkPendingOpen c p (User p)) →
  handle_input (StreamOpened c st tok now) s =
    (more_actions [SendStream c st header]
       (put_outbound (c, st) (mkPendingOutbound (dialing p) (User p)) {| s with pending_opens := delete tok (pending_opens s) |}), Ok tt).
Proof.
  intros Hk. cbn [handle_input]. unfold handle_stream_opened.
  rewrite (run_ok _ _ s {| s with pending_opens := delete tok (pending_opens s) |} (Some (mkPendingOpen c p (User p))))
    by (unfold take_pending_open; rewrite run_gets; by rewrite Hk).
  cbn [open_conn_id open_protocol open_target]. by rewrite Z.eqb_refl.
Qed.
Lemma outbound_agreed_run c st q p rest now s :
  user_stream c st q p {| s with stream_owner := <[(c, st) := User p]> (stream_owner s) |} →
  (_ ← on_outbound_negotiated c st (User p) now; dispatch_remaining c st rest now) s =
    (more_events (StreamReady q c st p true :: (StreamData q c st <$> (if bool_decide (rest = []) then [] else [rest])))
       {| s with stream_owner := <[(c, st) := User p]> (stream_owner s) |}, Ok tt).
Proof.
  intros Hu. pose proof Hu as (_ & Hc & _). cbn [conn_to_peer] in Hc.
  rewrite (run_ok _ _ s (more_events [StreamReady q c st p true] {| s with stream_owner := <[(c, st) := User p]> (stream_owner s) |}) tt).
  - rewrite (dispatch_rest c st q p) by done. unfold more_events. cbn. by rewrite <- app_assoc.
  - unfold on_outbound_negotiated. by rewrite (run_ok _ _ s s q) by (unfold ensure_peer_id_for_conn; rewrite run_gets; by rewrite Hc).
Qed.

(** C11: an outbound stream of an application protocol. Once the driver has opened
    it, and however the remote's acceptance and the data that follows are cut,
    the application is told once that the stream is ready and then gets exactly
    the data, in order; the remote gets the header and the proposal; nothing
    else changes. *)
Theorem swarm_outbound_stream s c st tok q p data chunks now :
  pending_opens s !! tok = Some (mkPendingOpen c p (User p)) → conn_to_peer s !! c = Some q →
  inbound_negotiators s !! (c, st) = None → outbound_negotiators s !! (c, st) = None →
  message_ok p → concat chunks = (header ++ encode_message p) ++ data →
  ∃ pieces, concat pieces = data ∧
    handle_inputs (StreamOpened c st tok now :: (data_input c st now <$> chunks)) s =
      ({| s with pending_opens := delete tok (pending_opens s);
          stream_owner := <[(c, st) := User p]> (stream_owner s);
          actions := actions s ++ (SendStream c st <$> [header; encode_message p]);
          events := events s ++ StreamReady q c st p true :: (StreamData q c st <$> pieces) |}, Ok tt).
Proof.
  intros Htok Hc Hi Ho Hp Hcs. set (n := dialing p). set (s0 := {| s with pending_opens := delete tok (pending_opens s) |}).
  set (waiting b := more_actions (SendStream c st header :: sends c st (said n b)) (put_outbound (c, st) (mkPendingOutbound (stage n b) (User p)) s0)).
  set (base := {| s0 with stream_owner := <[(c, st) := User p]> (stream_owner s); actions := actions s ++ (SendStream c st <$> [header; encode_message p]) |}).
  assert (user_stream c st q p base) as Hu by (split_and!; [apply lookup_insert_eq|exact Hc|exact Hi|exact Ho]).
  assert (∀ b d, handle_input (data_input c st now d) (waiting b) = feed_outbound_negotiator c st d now (waiting b)) as Hfeed.
  { intros b d. cbn [handle_input data_input handle_transport_event]. unfold handle_stream_data. rewrite run_gets.
    rewrite bool_decide_false; [|unfold waiting; cbn [more_actions put_outbound inbound_negotiators s0]; rewrite Hi; by intros []].
    rewrite run_gets. rewrite bool_decide_true; [done|]. unfold waiting. cbn [more_actions put_outbound outbound_negotiators].
    rewrite lookup_insert_eq. by eexists. }
  assert (∀ b, outbound_negotiators (waiting b) !! (c, st) = Some (mkPendingOutbound (stage n b) (User p))) as Hw by (intros b; apply lookup_insert_eq).
  destruct (negotiated_stream n (header ++ encode_message p) [OutboundData (encode_message p)] p c st q (StreamReady q c st p true) waiting base now chunks data)
    as (pieces & Hpieces & Hrun); try done.
  - by eexists.
  - intros r. by apply dialing_runs.
  - intros b d o Hr Hs Hp' Ho'. rewrite Hfeed. rewrite (feed_outbound_waits c st d now _ _ _ o (Hw b) Hr Hp' Ho'). unfold waiting.
    rewrite Hs, sends_app, put_outbound_more, put_outbound_twice, more_actions_app. done.
  - intros b d o r Hr Houts Ho'. rewrite Hfeed. rewrite (feed_outbound_ends c st d now _ _ _ o p (Hw b) Hr eq_refl Ho'). cbn [recv_buf target].
    unfold waiting at 1. rewrite dropped_outbound by done. cbn [app]. rewrite <- sends_app, <- Houts.
    rewrite (outbound_agreed_run c st q p); [done|exact Hu].
  - exists pieces. split; [done|]. cbn [handle_inputs SansIo.handle_input swarm_protocol]. rewrite (run_ok _ _ _ _ _ (opened_run c st tok p now s Htok)).
    destruct (stage_nil n) as [Hstage Hsaid]; [by eexists|done|done|]. unfold waiting in Hrun. rewrite Hstage, Hsaid in Hrun. exact Hrun.
Qed.
End SwarmStreams.
