(* ===== verification/SwarmDemo.v ===== *)
(** The swarm's properties on concrete runs, and two runs that show what its
    announcements do not promise. *)

From Stdlib Require Import Strings.Byte.
From S2P Require Import Prelude Varint Text SansIo Multistream Negotiation Ping Base58 PeerIdentity Multiaddr Proto Identify Swarm SwarmSafety SwarmRuns SwarmSlots SwarmStreams.

#[local] Existing Instance demo_crates.
#[local] Existing Instance demo_crates_spec.

Abbreviation DemoId := (PeerIdentity.PeerId (Multihash := Z * bytes)).
Definition peer_key (p : DemoId) : Z := Zpos (encode p).
#[local] Instance peer_key_inj : Inj (=) (=) peer_key.
Proof. intros p q [= H]. by apply (inj encode). Qed.
#[local] Instance peer_btree_key : BTreeKey DemoId := inj_btree_key peer_key.

Abbreviation DemoSwarm := (SwarmCore (Multihash := Z * bytes)).
Definition endpoint_of (p : option DemoId) : ConnectionEndpoint (Multihash := Z * bytes) := mkEndpoint (mkMultiaddr []) p.
Definition fresh : DemoSwarm := SwarmCore_new demo_config PingConfig_default.
Definition connect (c : Z) (p : DemoId) : Call (Multihash := Z * bytes) := CallInput (Transport (Connected c (endpoint_of (Some p))) 0).
Definition chat : bytes := str "/chat/1".
(** Bob connects, and a protocol is registered. *)
Definition swarm1 : DemoSwarm := (perform (connect 1 id_bob) fresh).1.
Definition swarm2 : DemoSwarm := (perform (CallAddProtocol chat) swarm1).1.
(** A stream to him is asked for. *)
Definition swarm3 : DemoSwarm := (perform (CallOpenStream id_bob chat) swarm2).1.

Lemma swarm1_run : run allowed fresh [] swarm1.
Proof. unfold swarm1. apply run_call; [apply run_start|vm_compute; reflexivity]. Qed.

Lemma swarm_runs_are_safe_witness :
  swarm_ok swarm1 ∧ match perform (CallPing id_bob (replicate 32 x2a) 5) swarm1 with (s', Ok _) => swarm_ok s' | _ => True end.
Proof.
  destruct (swarm_runs_are_safe demo_config PingConfig_default [] swarm1 (CallPing id_bob (replicate 32 x2a) 5) swarm1_run I) as [H1 H2].
  split; [exact H1|]. by destruct (perform (CallPing id_bob (replicate 32 x2a) 5) swarm1) as [s' [u|e| |]].
Defined.

Lemma swarm_close_forgets_witness :
  ∃ s', handle_input (Transport (Closed 1) 9) swarm1 = (s', Ok tt) ∧ peer_to_conn s' = delete id_bob (peer_to_conn swarm1).
Proof.
  destruct (swarm_close_forgets demo_config PingConfig_default [] swarm1 1 id_bob 9 swarm1_run) as (s' & Hrun & _ & Hp & _);
    [vm_compute; reflexivity|vm_compute; reflexivity|]. exists s'. exact (conj Hrun Hp).
Defined.

Lemma swarm_replaces_connection_witness :
  ∃ s' before, talk (C := swarm_contract) [Transport (Connected 2 (endpoint_of (Some id_bob))) 9] swarm1 =
    (s', Ok (before ++ [Action (CloseConnection 1)])) ∧ peer_to_conn s' !! id_bob = Some 2.
Proof.
  destruct (swarm_replaces_connection demo_config PingConfig_default [] swarm1 2 (endpoint_of (Some id_bob)) id_bob 1 9 swarm1_run)
    as (s' & before & Hrun & Hp & _); [vm_compute; reflexivity|reflexivity|vm_compute; reflexivity|]. exists s', before. exact (conj Hrun Hp).
Defined.

(** Placeholders carry the name of their connection, in clear or hashed. *)
Lemma bob_is_no_placeholder : ¬ placeholder (Multihash := Z * bytes) id_bob.
Proof.
  intros [c Hc]. unfold placeholder_of, from_public_key_protobuf, build_multihash in Hc.
  set (key := str "minip2p-synthetic-conn-" ++ dec c) in Hc. clearbody key. destruct (zlen key <=? MAX_INLINE_KEY_LENGTH).
  - cbn [mh_wrap demo_crates] in Hc. by destruct (zlen key <=? PEER_ID_MULTIHASH_SIZE).
  - vm_compute in Hc. discriminate Hc.
Qed.
Lemma swarm_slots_refined_witness :
  replay (Multihash := Z * bytes) id_bob None (told [] ++ events swarm1) = Some (Some 1).
Proof.
  rewrite (swarm_slots_refined demo_config PingConfig_default [] swarm1 id_bob); [vm_compute; reflexivity| |exact bob_is_no_placeholder].
  unfold swarm1. apply run_call; [apply run_start|split; [vm_compute; reflexivity|exact I]].
Defined.

Lemma swarm_inbound_stream_witness :
  ∃ pieces, concat pieces = str "hello" ∧
    events (handle_inputs (Transport (IncomingStream 1 4) 7 ::
      (data_input 1 4 7 <$> [take 9 (offer [str "/other"] chat); drop 9 (offer [str "/other"] chat) ++ str "he"; str "llo"])) swarm2).1
    = events swarm2 ++ StreamReady id_bob 1 4 chat false :: (StreamData id_bob 1 4 <$> pieces).
Proof.
  destruct (swarm_inbound_stream swarm2 1 4 id_bob [str "/other"] chat (str "hello")
    [take 9 (offer [str "/other"] chat); drop 9 (offer [str "/other"] chat) ++ str "he"; str "llo"] 7) as (pieces & Hp & Hrun).
  1, 2, 3: vm_compute; reflexivity.
  - constructor; [split_and!; by vm_compute|done].
  - constructor; [|done]. refine (bool_decide_eq_true_1 _ _). vm_compute. reflexivity.
  - split_and!; by vm_compute.
  - refine (bool_decide_eq_true_1 _ _). vm_compute. reflexivity.
  - refine (bool_decide_eq_true_1 _ _). vm_compute. reflexivity.
  - vm_compute. reflexivity.
  - exists pieces. split; [exact Hp|]. rewrite Hrun. reflexivity.
Defined.
Lemma swarm_outbound_stream_witness :
  ∃ pieces, concat pieces = str "hello" ∧
    events (handle_inputs (StreamOpened 1 8 2 7 :: (data_input 1 8 7 <$> [take 9 header; drop 9 header ++ encode_message chat ++ str "hel"; str "lo"])) swarm3).1
    = events swarm3 ++ StreamReady id_bob 1 8 chat true :: (StreamData id_bob 1 8 <$> pieces).
Proof.
  destruct (swarm_outbound_stream swarm3 1 8 2 id_bob chat (str "hello")
    [take 9 header; drop 9 header ++ encode_message chat ++ str "hel"; str "lo"] 7) as (pieces & Hp & Hrun).
  1, 2, 3, 4: vm_compute; reflexivity.
  - split_and!; by vm_compute.
  - vm_compute. reflexivity.
  - exists pieces. split; [exact Hp|]. rewrite Hrun. reflexivity.
Defined.

(** ** What the announcements do not promise *)

Definition verified (c : Z) (p : DemoId) : Call (Multihash := Z * bytes) :=
  CallInput (Transport (PeerIdentityVerified c (endpoint_of (Some p)) None) 0).
Definition unidentified (c : Z) : Call (Multihash := Z * bytes) := CallInput (Transport (Connected c (endpoint_of None)) 0).

(** A transport that learns identities after the handshake: when a second
    connection turns out to be Bob's, it is announced although the first is
    never announced as closed, not even when it ends, nor asked to be closed;
    the application's slot cannot follow. A second [Connected] replaces the first connection instead
    ([swarm_replaces_connection]). *)
Example verified_twice_is_not_replaced :
  let s := (_ ← perform (unidentified 1); _ ← perform (verified 1 id_bob); _ ← perform (unidentified 2); perform (verified 2 id_bob)) fresh in
  filter (λ e, slot_event e = true) (events s.1) = [ConnectionEstablished id_bob 1; ConnectionEstablished id_bob 2] ∧
  replay (Multihash := Z * bytes) id_bob None (events s.1) = None ∧
  conn_to_peer s.1 !! 1 = Some id_bob ∧ peer_to_conn s.1 !! id_bob = Some 2 ∧ after_event_actions s.1 = [] ∧
  events (perform (CallInput (Transport (Closed 1) 0)) s.1).1 = events s.1.
Proof. vm_compute. done. Qed.

(** A connection that closes before its peer is known: the application is told
    that a connection of a placeholder, which it never saw, is closed. *)
Example placeholder_close_is_announced :
  let s := (_ ← perform (unidentified 1); perform (CallInput (Transport (Closed 1) 0))) fresh in
  ∃ p, placeholder_of (Multihash := Z * bytes) 1 p ∧ events s.1 = [ConnectionClosed p 1 CloseTransport].
Proof. eexists. vm_compute. done. Qed.
