(* ===== verification/Keys.v ===== *)
(** Public keys and Ed25519 key pairs, from [crates/identity/src/key.rs] and
    [crates/identity/src/ed25519.rs]. The [ed25519-dalek] crate is a parameter;
    what is used of it is its documented behaviour. *)

From Stdlib Require Import Strings.Byte.
From S2P Require Import Prelude Varint Proto Base58 PeerIdentity.

Inductive KeyType := Rsa | Ed25519 | Secp256k1 | Ecdsa.
#[global] Instance KeyType_eq_dec : EqDecision KeyType.
Proof. solve_decision. Defined.

Definition KeyType_tag (k : KeyType) : Z :=
  match k with Rsa => 0 | Ed25519 => 1 | Secp256k1 => 2 | Ecdsa => 3 end.

Inductive PublicKeyError :=
  | KEmptyInput
  | KInvalidFieldTag (expected : byte) (found : option byte)
  | KVarint (e : VarintError)
  | UnknownKeyType (value : Z)
  | LengthOverflow
  | InvalidLength (expected_total actual_total : Z).

Inductive VerifyError :=
  | UnsupportedKeyType (k : KeyType)
  | InvalidEd25519PublicKeyLength (actual : Z)
  | InvalidEd25519PublicKey
  | InvalidSignature.

Definition KeyType_try_from (value : Z) : res PublicKeyError KeyType :=
  if value =? 0 then Ok Rsa
  else if value =? 1 then Ok Ed25519
  else if value =? 2 then Ok Secp256k1
  else if value =? 3 then Ok Ecdsa
  else Err (UnknownKeyType value).

Record PublicKey := mkPublicKey { key_type : KeyType; key_data : bytes }.
#[global] Instance PublicKey_eq_dec : EqDecision PublicKey.
Proof. solve_decision. Defined.

Definition encode_protobuf (k : PublicKey) : bytes :=
  [x08] ++ write_uvarint (KeyType_tag (key_type k)) [] ++ [x12] ++ write_uvarint (zlen (key_data k)) [] ++ key_data k.

Definition map_kvarint {A} (r : res VarintError A) : res PublicKeyError A :=
  match r with Ok a => Ok a | Err e => Err (KVarint e) | Panic => Panic | Diverge => Diverge end.

(** [input.get(idx)]. *)
Definition get_at (input : bytes) (idx : Z) : option byte := input !! Z.to_nat idx.

(** [input.get(idx).copied() != Some(tag)]. *)
Definition expect_tag (input : bytes) (idx : Z) (tag : byte) : res PublicKeyError unit :=
  if bool_decide (get_at input idx = Some tag) then Ok tt else Err (KInvalidFieldTag tag (get_at input idx)).

(** The end of the decoder: the data must fill the input. *)
Definition decode_data (kt : KeyType) (input : bytes) (idx data_len : Z) : res PublicKeyError PublicKey :=
  data_len ← (if data_len <=? usize_max then Ok data_len else Err LengthOverflow);
  expected_total ← ok_or (checked_add usize_max idx data_len) LengthOverflow;
  if negb (expected_total =? zlen input) then Err (InvalidLength expected_total (zlen input))
  else
    data ← ok_or (get_from input idx) (InvalidLength expected_total (zlen input));
    Ok (mkPublicKey kt data).

Definition decode_protobuf (input : bytes) : res PublicKeyError PublicKey :=
  if bool_decide (input = []) then Err KEmptyInput
  else
    _ ← expect_tag input 0 x08;
    let idx := 1 in
    remaining ← ok_or (get_from input idx) (InvalidLength idx (zlen input));
    '(key_type_raw, used) ← map_kvarint (read_uvarint remaining);
    let idx := idx + used in
    kt ← KeyType_try_from key_type_raw;
    _ ← expect_tag input idx x12;
    let idx := idx + 1 in
    remaining ← ok_or (get_from input idx) (InvalidLength idx (zlen input));
    '(data_len, used) ← map_kvarint (read_uvarint remaining);
    decode_data kt input (idx + used) data_len.

(** [SigningKey] and [VerifyingKey] of the [ed25519-dalek] crate: the public key
    of a secret, signing, whether 32 bytes are a public key, and
    [verify_strict]. *)
Class SigningCrate := {
  ed_public : bytes → bytes;
  ed_sign : bytes → bytes → bytes;
  ed_key_ok : bytes → bool;
  ed_verify : bytes → bytes → bytes → bool;
}.
(** What the crate documents of a 32-byte secret: its public key has 32 bytes
    and is a valid key, a signature has 64, and a signature verifies under the
    public key of the secret it was made with. *)
Class SigningSpec `{!SigningCrate} := {
  ed_public_length sk : zlen sk = 32 → zlen (ed_public sk) = 32;
  ed_sign_length sk m : zlen sk = 32 → zlen (ed_sign sk m) = 64;
  ed_public_ok sk : zlen sk = 32 → ed_key_ok (ed_public sk) = true;
  ed_verify_sign sk m : zlen sk = 32 → ed_verify (ed_public sk) m (ed_sign sk m) = true;
}.

Section Keys.
Context `{SigningCrate}.

Definition verify (k : PublicKey) (message signature : bytes) : res VerifyError unit :=
  match key_type k with
  | Ed25519 =>
      if negb (zlen (key_data k) =? 32) then Err (InvalidEd25519PublicKeyLength (zlen (key_data k)))
      else if negb (ed_key_ok (key_data k)) then Err InvalidEd25519PublicKey
      else if ed_verify (key_data k) message signature then Ok tt
      else Err InvalidSignature
  | other => Err (UnsupportedKeyType other)
  end.

Record Ed25519Keypair := mkKeypair { secret_key : bytes; keypair_public : bytes }.

Definition from_secret_key_bytes (sk : bytes) : Ed25519Keypair := mkKeypair sk (ed_public sk).
Definition keypair_public_key (k : Ed25519Keypair) : PublicKey := mkPublicKey Ed25519 (keypair_public k).
Definition sign (k : Ed25519Keypair) (message : bytes) : bytes := ed_sign (secret_key k) message.

(** A key pair built from a 32-byte secret; there is no other way to build one. *)
Definition keypair_ok (k : Ed25519Keypair) : Prop := zlen (secret_key k) = 32 ∧ keypair_public k = ed_public (secret_key k).

Context `{HashCrates Multihash}.
Definition from_public_key (k : PublicKey) : res PeerIdError (PeerId (Multihash := Multihash)) :=
  from_public_key_protobuf (encode_protobuf k).
Definition keypair_peer_id (k : Ed25519Keypair) : res PeerIdError (PeerId (Multihash := Multihash)) :=
  from_public_key (keypair_public_key k).
End Keys.

(** ** The protobuf form *)

Lemma KeyType_round_trip k : KeyType_try_from (KeyType_tag k) = Ok k.
Proof. by destruct k. Qed.
Lemma KeyType_try_from_ok v k : KeyType_try_from v = Ok k → v = KeyType_tag k.
Proof.
  unfold KeyType_try_from. destruct (Z.eqb_spec v 0), (Z.eqb_spec v 1), (Z.eqb_spec v 2), (Z.eqb_spec v 3);
    intros Hk; simplify_eq; done.
Qed.
Lemma KeyType_tag_range k : 0 ≤ KeyType_tag k ≤ 3.
Proof. destruct k; cbn; lia. Qed.

(** Reading at an index that is the end of a known prefix. *)
Lemma get_from_at (input p l : bytes) i : input = p ++ l → i = zlen p → get_from input i = Some l.
Proof.
  intros -> ->. unfold get_from. rewrite zlen_app. pose proof (zlen_nonneg l).
  destruct (Z.leb_spec (zlen p) (zlen p + zlen l)); [|lia]. by rewrite to_nat_zlen, drop_app_length.
Qed.
Lemma expect_tag_at (input p l : bytes) i tag u :
  input = p ++ l → i = zlen p → expect_tag input i tag = Ok u ↔ ∃ l', l = tag :: l'.
Proof.
  intros -> ->. unfold expect_tag, get_at. rewrite to_nat_zlen, lookup_app_r by done. rewrite Nat.sub_diag. destruct u.
  destruct l as [|b l]; cbn; [split; [done|naive_solver]|]. case_bool_decide; naive_solver.
Qed.
Lemma read_uvarint_prefixed v rest : 0 ≤ v ≤ u64_max → read_uvarint (write_uvarint v [] ++ rest) = Ok (v, uvarint_len v).
Proof. intros Hv. apply read_uvarint_ok_iff. eauto. Qed.

Lemma decode_data_ok kt input p l n k :
  input = p ++ l → zlen input ≤ usize_max →
  decode_data kt input (zlen p) n = Ok k ↔ n = zlen l ∧ k = mkPublicKey kt l.
Proof.
  intros Hin Hl. pose proof (f_equal zlen Hin) as Hz. rewrite zlen_app in Hz. pose proof (zlen_nonneg p).
  unfold decode_data. rewrite (get_from_at _ p l) by done. split.
  - destruct (Z.leb_spec n usize_max); [|done]. cbn. destruct (checked_add usize_max (zlen p) n) as [t|] eqn:Ht; [|done].
    unfold checked_add in Ht. destruct (Z.leb_spec (zlen p + n) usize_max); [|done]. injection Ht as <-. cbn.
    destruct (Z.eqb_spec (zlen p + n) (zlen input)); [|done]. cbn. intros [= <-]. split; [lia|done].
  - intros [-> ->]. destruct (Z.leb_spec (zlen l) usize_max); [|lia]. cbn. rewrite checked_add_Some by lia. cbn.
    by destruct (Z.eqb_spec (zlen p + zlen l) (zlen input)); [|lia].
Qed.

Lemma decode_protobuf_sound input k : zlen input ≤ usize_max → decode_protobuf input = Ok k → input = encode_protobuf k.
Proof.
  intros Hl. unfold decode_protobuf. case_bool_decide; [done|]. intros (u & Ht & Hd)%bind_res_ok.
  apply (expect_tag_at _ [] input) in Ht as [l1 ->]; [|done..].
  rewrite (get_from_at _ [x08] l1) in Hd by done. cbn [ok_or mbind res_bind] in Hd.
  destruct (read_uvarint l1) as [[kt used]|e| |] eqn:Hr; try done. cbn [map_kvarint mbind res_bind] in Hd.
  apply read_uvarint_ok_iff in Hr as (Hkt & -> & l2 & ->). pose proof (zlen_write_uvarint kt ltac:(lia)) as Hw.
  apply bind_res_ok in Hd as (t & ->%KeyType_try_from_ok & (u' & Ht & Hd)%bind_res_ok).
  apply (expect_tag_at _ ([x08] ++ write_uvarint (KeyType_tag t) []) l2) in Ht as [l3 ->];
    [|by rewrite <- app_assoc|rewrite zlen_app, Hw; done].
  rewrite (get_from_at _ ([x08] ++ write_uvarint (KeyType_tag t) [] ++ [x12]) l3) in Hd;
    [|cbn; by rewrite <- app_assoc|rewrite !zlen_app, Hw, !zlen_cons, !zlen_nil; lia]. cbn [ok_or mbind res_bind] in Hd.
  destruct (read_uvarint l3) as [[n used]|e| |] eqn:Hr; try done. cbn [map_kvarint mbind res_bind] in Hd.
  apply read_uvarint_ok_iff in Hr as (Hn & -> & d & ->). pose proof (zlen_write_uvarint n ltac:(lia)) as Hw2.
  set (p := [x08] ++ write_uvarint (KeyType_tag t) [] ++ [x12] ++ write_uvarint n []).
  replace (1 + uvarint_len (KeyType_tag t) + 1 + uvarint_len n) with (zlen p) in Hd
    by (unfold p; rewrite !zlen_app, Hw, Hw2, !zlen_cons, !zlen_nil; lia).
  eapply (decode_data_ok t _ p d) in Hd as [-> ->]; [done| |done]. unfold p. cbn. by rewrite <- !app_assoc.
Qed.

Lemma decode_protobuf_complete k : zlen (encode_protobuf k) ≤ usize_max → decode_protobuf (encode_protobuf k) = Ok k.
Proof.
  intros Hl. unfold decode_protobuf. destruct k as [t d]. unfold encode_protobuf in *. cbn [key_type key_data] in *.
  pose proof (KeyType_tag_range t). pose proof (zlen_nonneg d).
  pose proof (zlen_write_uvarint (KeyType_tag t) ltac:(lia)) as Hw. pose proof (zlen_write_uvarint (zlen d) ltac:(lia)) as Hw2.
  pose proof (uvarint_len_pos (KeyType_tag t) ltac:(lia)). pose proof (uvarint_len_pos (zlen d) ltac:(lia)).
  assert (zlen d ≤ u64_max) as Hd by (rewrite !zlen_app in Hl; unfold usize_max in *; rewrite !zlen_cons, !zlen_nil in Hl; lia).
  rewrite bool_decide_false by done. set (w1 := write_uvarint (KeyType_tag t) []) in *. set (w2 := write_uvarint (zlen d) []) in *.
  assert (∀ r, read_uvarint (w1 ++ r) = Ok (KeyType_tag t, uvarint_len (KeyType_tag t))) as Hr1
    by (intros; apply read_uvarint_prefixed; unfold u64_max; lia).
  assert (∀ r, read_uvarint (w2 ++ r) = Ok (zlen d, uvarint_len (zlen d))) as Hr2 by (intros; by apply read_uvarint_prefixed).
  rewrite (proj2 (expect_tag_at ([x08] ++ w1 ++ [x12] ++ w2 ++ d) [] _ 0 x08 tt eq_refl eq_refl)) by (by eexists).
  cbn [mbind res_bind]. rewrite (get_from_at _ [x08] (w1 ++ [x12] ++ w2 ++ d) 1) by done. cbn [ok_or mbind res_bind].
  rewrite Hr1. cbn [map_kvarint mbind res_bind]. rewrite KeyType_round_trip. cbn [mbind res_bind].
  rewrite (proj2 (expect_tag_at ([x08] ++ w1 ++ [x12] ++ w2 ++ d) ([x08] ++ w1) ([x12] ++ w2 ++ d) (1 + uvarint_len (KeyType_tag t)) x12 tt
    ltac:(by rewrite <- app_assoc) ltac:(rewrite zlen_app, Hw, zlen_cons, zlen_nil; lia))) by (by eexists). cbn [mbind res_bind].
  rewrite (get_from_at _ ([x08] ++ w1 ++ [x12]) (w2 ++ d));
    [|by rewrite <- !app_assoc|rewrite !zlen_app, Hw, !zlen_cons, !zlen_nil; lia]. cbn [ok_or mbind res_bind].
  rewrite Hr2. cbn [map_kvarint mbind res_bind].
  set (p := [x08] ++ w1 ++ [x12] ++ w2).
  replace (1 + uvarint_len (KeyType_tag t) + 1 + uvarint_len (zlen d)) with (zlen p)
    by (unfold p; rewrite !zlen_app, Hw, Hw2, !zlen_cons, !zlen_nil; lia).
  apply (decode_data_ok t _ p d); [by unfold p; rewrite <- !app_assoc|done|done].
Qed.

Lemma decode_protobuf_returns input : returns (decode_protobuf input).
Proof.
  assert (∀ l, returns (map_kvarint (read_uvarint l))) as Hv
    by (intros l; destruct (read_uvarint_outcome l); by destruct (read_uvarint l)).
  assert (∀ A (o : option A) (e : PublicKeyError), returns (ok_or o e)) as Ho by (by intros ? []).
  unfold decode_protobuf, expect_tag, KeyType_try_from, decode_data. case_match; [done|].
  repeat (apply returns_bind; [first [done|apply Ho|apply Hv|by repeat case_match]|]; intros ?; repeat case_match); done.
Qed.

(** The protobuf form of a public key is exact: the decoder accepts the
    encoding of a key, gives that key back, and accepts nothing else. *)
Theorem public_key_exact input k :
  zlen input ≤ usize_max → decode_protobuf input = Ok k ↔ input = encode_protobuf k.
Proof. intros Hl. split; [by apply decode_protobuf_sound|]. intros ->. by apply decode_protobuf_complete. Qed.

Lemma public_key_exact_witness :
  let k := mkPublicKey Ed25519 (replicate 32 x07) in decode_protobuf (encode_protobuf k) = Ok k.
Proof. intros k. apply (public_key_exact (encode_protobuf k) k); [by vm_compute|reflexivity]. Defined.

(** ** An instance of the crate *)

#[local] Instance demo_signing : SigningCrate := {|
  ed_public sk := sk;
  ed_sign sk m := take 64 (sk ++ m ++ replicate 64 x00);
  ed_key_ok _ := true;
  ed_verify k m sig := bool_decide (sig = take 64 (k ++ m ++ replicate 64 x00));
|}.
#[local] Instance demo_signing_spec : SigningSpec.
Proof.
  split; cbn [ed_public ed_sign ed_key_ok ed_verify demo_signing]; [done| |done|].
  - intros sk m _. unfold zlen. rewrite length_take, !length_app, length_replicate. lia.
  - intros sk m _. by rewrite bool_decide_true.
Qed.
