(* ===== verification/Noise.v ===== *)
(** The Noise security protocol, from [crates/noise/src]: ciphers, frames, key
    derivation, the identity payload, the XX handshake and the session. The
    crates [x25519-dalek], [chacha20poly1305], [hmac] and [sha2] are parameters;
    what is used of them is their documented behaviour. *)

From Stdlib Require Import Strings.Byte.
From S2P Require Import Prelude Varint Proto SansIo Base58 PeerIdentity Multiaddr Keys.

(** The X25519 public key of a secret and the shared secret with a public key;
    ChaCha20-Poly1305 under a key, a nonce and associated data; HMAC-SHA256. *)
Class NoiseCrates := {
  x25519_public : bytes → bytes;
  x25519 : bytes → bytes → bytes;
  aead_encrypt : bytes → bytes → bytes → bytes → option bytes;
  aead_decrypt : bytes → bytes → bytes → bytes → option bytes;
  hmac_sha256 : bytes → bytes → bytes;
}.
(** What the crates document: keys and digests have 32 bytes; two parties derive
    the same shared secret; a message of at most 65,535 bytes is encrypted to
    sixteen bytes more, and decrypts to itself under the same key, nonce and
    data; whatever decrypts is sixteen bytes shorter. *)
Class NoiseCratesSpec `{!NoiseCrates} := {
  x25519_public_length s : zlen s = 32 → zlen (x25519_public s) = 32;
  x25519_length s p : zlen s = 32 → zlen p = 32 → zlen (x25519 s p) = 32;
  x25519_agree a b : zlen a = 32 → zlen b = 32 → x25519 a (x25519_public b) = x25519 b (x25519_public a);
  aead_round_trip k n ad m : zlen k = 32 → zlen n = 12 → zlen m ≤ u16_max →
    ∃ c, aead_encrypt k n ad m = Some c ∧ zlen c = zlen m + 16 ∧ aead_decrypt k n ad c = Some m;
  aead_decrypt_length k n ad c m : aead_decrypt k n ad c = Some m → zlen c = zlen m + 16;
  hmac_length k m : zlen (hmac_sha256 k m) = 32;
}.

Inductive NoiseError :=
  | FrameTooLarge (len : Z)
  | AlreadyStarted
  | InvalidInput (reason : bytes)
  | InvalidState (reason : bytes)
  | UnexpectedHandshakeMessage
  | InvalidHandshakeMessage (reason : bytes)
  | InvalidPayload (reason : bytes)
  | InvalidIdentityKey
  | InvalidIdentitySignature
  | IdentityMismatch
  | NonContributory
  | Encryption
  | Decryption
  | NonceExhausted
  | NoiseFailed.

Definition is_terminal (e : NoiseError) : bool :=
  match e with AlreadyStarted | InvalidInput _ => false | _ => true end.

(** ** Frames *)

Definition MAX_FRAME_LEN : Z := u16_max.

Record FrameDecoder := mkNoiseDecoder { nd_buffer : bytes; nd_offset : Z }.
Definition FrameDecoder_new : FrameDecoder := mkNoiseDecoder [] 0.
Definition noise_push (bs : bytes) (d : FrameDecoder) : FrameDecoder := {| d with nd_buffer := nd_buffer d ++ bs |}.

(** [buffer.len() - offset] where the offset is not past the end. *)
Definition noise_compact (d : FrameDecoder) : FrameDecoder :=
  if nd_offset d =? zlen (nd_buffer d) then mkNoiseDecoder [] 0
  else if zlen (nd_buffer d) / 2 <=? nd_offset d
  then mkNoiseDecoder (drop (Z.to_nat (nd_offset d)) (nd_buffer d)) 0
  else d.

(** [l.get(..n)]. *)
Definition get_to (l : bytes) (n : Z) : option bytes := slice l 0 n.

(** The [?] of an [Option]: nothing has changed when it returns early. *)
Definition noise_next_frame (d : FrameDecoder) : FrameDecoder * option bytes :=
  match
    (remaining ← get_from (nd_buffer d) (nd_offset d);
     length ← get_to remaining 2;
     let len := be_value length in
     rest ← get_from remaining 2;
     payload ← get_to rest len;
     offset ← checked_add usize_max (nd_offset d) 2;
     offset ← checked_add usize_max offset len;
     Some (payload, offset))
  with
  | Some (payload, offset) => (noise_compact {| d with nd_offset := offset |}, Some payload)
  | None => (d, None)
  end.

Definition noise_encode_frame (payload : bytes) : res NoiseError bytes :=
  if zlen payload <=? u16_max then Ok (be_bytes 2 (zlen payload) ++ payload) else Err (FrameTooLarge (zlen payload)).

(** ** The identity payload *)

Record NoiseHandshakePayload := mkPayload {
  identity_key : bytes;
  identity_sig : bytes;
  extensions : option bytes;
}.

(** [(field << 3) | 2] on a [u64]. *)
Definition write_bytes_field (field : Z) (value : bytes) : bytes :=
  write_uvarint (Z.lor (Z.shiftl field 3) 2) [] ++ write_uvarint (zlen value) [] ++ value.
Definition payload_encode (p : NoiseHandshakePayload) : bytes :=
  write_bytes_field 1 (identity_key p) ++ write_bytes_field 2 (identity_sig p) ++
  opt_bytes (write_bytes_field 4) (extensions p).

(** The cursor of the decoder is its state. *)
Abbreviation PC := (M Z NoiseError).

Definition invalid_payload {A} (r : res VarintError A) (reason : bytes) : res NoiseError A :=
  match r with Ok a => Ok a | Err _ => Err (InvalidPayload reason) | Panic => Panic | Diverge => Diverge end.

(** [cursor.checked_add(n).filter(|end| *end <= input.len())]. *)
Definition cursor_add (input : bytes) (n : Z) (reason : bytes) : PC unit := λ cursor,
  match checked_add usize_max cursor n with
  | Some stop => if stop <=? zlen input then (stop, Ok tt) else (cursor, Err (InvalidPayload reason))
  | None => (cursor, Err (InvalidPayload reason))
  end.

Definition read_bytes (input : bytes) : PC bytes :=
  remaining ← reads (λ c, ok_or (get_from input c) (InvalidPayload (str "truncated field length")));
  '(len, used) ← lift (invalid_payload (read_uvarint remaining) (str "invalid field length"));
  _ ← cursor_add input used (str "invalid field length");
  len ← lift (if len <=? usize_max then Ok len else Err (InvalidPayload (str "field length overflow")));
  stop ← reads (λ c, ok_or (checked_add usize_max c len) (InvalidPayload (str "field length overflow")));
  value ← reads (λ c, ok_or (slice input c stop) (InvalidPayload (str "truncated field")));
  _ ← modify (λ _, stop);
  mret value.

Definition skip_unknown (input : bytes) (wire : Z) : PC unit :=
  if wire =? 2 then _ ← read_bytes input; mret tt
  else
    count ← (if wire =? 0 then
               remaining ← reads (λ c, ok_or (get_from input c) (InvalidPayload (str "truncated unknown field")));
               '(_, used) ← lift (invalid_payload (read_uvarint remaining) (str "invalid unknown varint"));
               mret used
             else if wire =? 1 then mret 8
             else if wire =? 5 then mret 4
             else throw (InvalidPayload (str "unsupported protobuf wire type")));
    cursor_add input count (str "truncated unknown field").

Record PayloadFields := mkPayloadFields {
  pf_key : option bytes;
  pf_sig : option bytes;
  pf_extensions : option bytes;
}.

(** [slot.replace(value).is_some()]. *)
Definition put_slot (field : Z) (value : bytes) (fs : PayloadFields) : res NoiseError PayloadFields :=
  if field =? 1 then
    match pf_key fs with
    | None => Ok {| fs with pf_key := Some value |}
    | Some _ => Err (InvalidPayload (str "duplicate identity key"))
    end
  else if field =? 2 then
    match pf_sig fs with
    | None => Ok {| fs with pf_sig := Some value |}
    | Some _ => Err (InvalidPayload (str "duplicate identity signature"))
    end
  else
    match pf_extensions fs with
    | None => Ok {| fs with pf_extensions := Some value |}
    | Some _ => Err (InvalidPayload (str "duplicate extensions"))
    end.

Definition payload_round (input : bytes) (fs : PayloadFields) : PC PayloadFields :=
  remaining ← reads (λ c, ok_or (get_from input c) (InvalidPayload (str "truncated field tag")));
  '(tag, used) ← lift (invalid_payload (read_uvarint remaining) (str "invalid field tag"));
  _ ← cursor_add input used (str "invalid field tag");
  let field := Z.shiftr tag 3 in
  let wire := Z.land tag 7 in
  if field =? 0 then throw (InvalidPayload (str "invalid field number zero"))
  else if (field =? 1) || (field =? 2) || (field =? 4) then
    if negb (wire =? 2) then throw (InvalidPayload (str "known field has non-length-delimited wire type"))
    else value ← read_bytes input; lift (put_slot field value fs)
  else _ ← skip_unknown input wire; mret fs.

Fixpoint payload_loop (fuel : nat) (input : bytes) (fs : PayloadFields) : PC PayloadFields := λ cursor,
  if zlen input <=? cursor then (cursor, Ok fs)
  else
    match fuel with
    | O => (cursor, Diverge)
    | S fuel => (fs ← payload_round input fs; payload_loop fuel input fs) cursor
    end.

Definition payload_decode (input : bytes) : res NoiseError NoiseHandshakePayload :=
  fs ← (payload_loop (length input) input (mkPayloadFields None None None) 0).2;
  key ← ok_or (pf_key fs) (InvalidPayload (str "missing identity key"));
  sig ← ok_or (pf_sig fs) (InvalidPayload (str "missing identity signature"));
  Ok (mkPayload key sig (pf_extensions fs)).

(** ** Ciphers *)

Section Noise.
Context `{NoiseCrates} `{SigningCrate} `{HashCrates Multihash} `{!EqDecision Multihash}.
Abbreviation PeerId := (PeerIdentity.PeerId (Multihash := Multihash)).

Record CipherState := mkCipher { cs_key : option bytes; cs_nonce : Z }.
Definition CipherState_new : CipherState := mkCipher None 0.
Definition initialize_key (key : bytes) (c : CipherState) : CipherState := mkCipher (Some key) 0.

Definition le_bytes (n : nat) (v : Z) : bytes := reverse (be_bytes n v).
Definition next_nonce (c : CipherState) : res NoiseError bytes :=
  if cs_nonce c =? u64_max then Err NonceExhausted else Ok (replicate 4 x00 ++ le_bytes 8 (cs_nonce c)).

Abbreviation CM := (M CipherState NoiseError).
Definition encrypt_with_ad (ad plaintext : bytes) : CM bytes :=
  key ← gets cs_key;
  match key with
  | None => mret plaintext
  | Some key =>
      nonce ← reads next_nonce;
      ciphertext ← lift (ok_or (aead_encrypt key nonce ad plaintext) Encryption);
      _ ← modify (λ c, {| c with cs_nonce := cs_nonce c + 1 |});
      mret ciphertext
  end.
Definition decrypt_with_ad (ad ciphertext : bytes) : CM bytes :=
  key ← gets cs_key;
  match key with
  | None => mret ciphertext
  | Some key =>
      nonce ← reads next_nonce;
      plaintext ← lift (ok_or (aead_decrypt key nonce ad ciphertext) Decryption);
      _ ← modify (λ c, {| c with cs_nonce := cs_nonce c + 1 |});
      mret plaintext
  end.

Definition derive2 (chaining_key input : bytes) : bytes * bytes :=
  let temp_key := hmac_sha256 chaining_key input in
  let output1 := hmac_sha256 temp_key [x01] in
  let output2 := hmac_sha256 temp_key (output1 ++ [x02]) in
  (output1, output2).

(** ** The symmetric state *)

Definition PROTOCOL_NAME : bytes := str "Noise_XX_25519_ChaChaPoly_SHA256".
Definition SIGNATURE_PREFIX : bytes := str "noise-libp2p-static-key:".

Record SymmetricState := mkSymmetric { chaining_key : bytes; hs_hash : bytes; hs_cipher : CipherState }.
Abbreviation SM := (M SymmetricState NoiseError).

Definition mix_hash (data : bytes) (s : SymmetricState) : SymmetricState :=
  {| s with hs_hash := sha256_digest (hs_hash s ++ data) |}.
Definition with_prologue (prologue : bytes) : SymmetricState :=
  let initial :=
    if zlen PROTOCOL_NAME <=? 32 then PROTOCOL_NAME ++ replicate (32 - length PROTOCOL_NAME) x00
    else sha256_digest PROTOCOL_NAME in
  mix_hash prologue (mkSymmetric initial initial CipherState_new).
Definition mix_key (input : bytes) (s : SymmetricState) : SymmetricState :=
  let '(ck, temp_key) := derive2 (chaining_key s) input in
  {| s with chaining_key := ck; hs_cipher := initialize_key temp_key (hs_cipher s) |}.

Definition on_cipher {A} (m : CM A) : SM A := zoom hs_cipher (λ c s, {| s with hs_cipher := c |}) m.
Definition encrypt_and_hash (plaintext : bytes) : SM bytes :=
  hash ← gets hs_hash;
  ciphertext ← on_cipher (encrypt_with_ad hash plaintext);
  _ ← modify (mix_hash ciphertext);
  mret ciphertext.
Definition decrypt_and_hash (ciphertext : bytes) : SM bytes :=
  hash ← gets hs_hash;
  plaintext ← on_cipher (decrypt_with_ad hash ciphertext);
  _ ← modify (mix_hash ciphertext);
  mret plaintext.
Definition split (s : SymmetricState) : CipherState * CipherState :=
  let '(first, second) := derive2 (chaining_key s) [] in
  (initialize_key first CipherState_new, initialize_key second CipherState_new).

(** ** The handshake *)

Inductive NoiseRole := NInitiator | NResponder.
Inductive Step :=
  | InitiatorWriteMessage1
  | InitiatorReadMessage2
  | InitiatorWriteMessage3
  | ResponderReadMessage1
  | ResponderWriteMessage2
  | ResponderReadMessage3
  | Complete.

Record HandshakeResult := mkResult {
  hr_send : CipherState;
  hr_receive : CipherState;
  hr_peer : PeerId;
  hr_identity_key : PublicKey;
}.

Record HandshakeState := mkHandshake {
  hs_role : NoiseRole;
  hs_step : Step;
  identity : Ed25519Keypair;
  local_static : bytes;
  local_ephemeral : bytes;
  remote_ephemeral : option bytes;
  expected_peer : option PeerId;
  symmetric : SymmetricState;
}.
Abbreviation HM := (M HandshakeState NoiseError).

Definition HandshakeState_new (role : NoiseRole) (id : Ed25519Keypair) (st ep : bytes) (expected : option PeerId) : HandshakeState :=
  {| hs_role := role;
     hs_step := match role with NInitiator => InitiatorWriteMessage1 | NResponder => ResponderReadMessage1 end;
     identity := id; local_static := st; local_ephemeral := ep; remote_ephemeral := None; expected_peer := expected;
     symmetric := with_prologue [] |}.

Definition public_key (secret : bytes) : bytes := x25519_public secret.
Definition dh (secret public : bytes) : res NoiseError bytes :=
  let shared := x25519 secret public in
  if forallb (λ b, bool_decide (b = x00)) shared then Err NonContributory else Ok shared.
Definition exact_array (n : Z) (input reason : bytes) : res NoiseError bytes :=
  if zlen input =? n then Ok input else Err (InvalidHandshakeMessage reason).
Definition required {A} (o : option A) : res NoiseError A := ok_or o (InvalidState (str "missing handshake key")).

Definition on_symmetric {A} (m : SM A) : HM A := zoom symmetric (λ x h, {| h with symmetric := x |}) m.
Definition set_step (step : Step) : HM unit := modify (λ h, {| h with hs_step := step |}).

Definition signed_text (static_public : bytes) : bytes := SIGNATURE_PREFIX ++ static_public.
Definition local_payload (h : HandshakeState) (static_public : bytes) : bytes :=
  payload_encode (mkPayload (encode_protobuf (keypair_public_key (identity h)))
    (sign (identity h) (signed_text static_public)) None).

Definition verify_payload (payload remote_static : bytes) (h : HandshakeState) : res NoiseError (PeerId * PublicKey) :=
  payload ← payload_decode payload;
  key ← match decode_protobuf (identity_key payload) with
        | Ok k => Ok k | Err _ => Err InvalidIdentityKey | Panic => Panic | Diverge => Diverge end;
  signature ← (if zlen (identity_sig payload) =? 64 then Ok (identity_sig payload) else Err InvalidIdentitySignature);
  _ ← match verify key (signed_text remote_static) signature with
      | Ok _ => Ok tt | Err _ => Err InvalidIdentitySignature | Panic => Panic | Diverge => Diverge end;
  peer ← match from_public_key key with Ok p => Ok p | _ => Panic end;
  if match expected_peer h with Some expected => bool_decide (expected ≠ peer) | None => false end
  then Err IdentityMismatch
  else Ok (peer, key).

Definition finish_with_peer (peer : PeerId) (key : PublicKey) (h : HandshakeState) : HandshakeResult :=
  let '(first, second) := split (symmetric h) in
  let '(send, receive) := match hs_role h with NInitiator => (first, second) | NResponder => (second, first) end in
  mkResult send receive peer key.

Definition write_message2 : HM bytes :=
  remote_e ← reads (λ h, required (remote_ephemeral h));
  local_e ← gets local_ephemeral;
  local_s ← gets local_static;
  let local_e_public := public_key local_e in
  _ ← on_symmetric (modify (mix_hash local_e_public));
  shared ← lift (dh local_e remote_e);
  _ ← on_symmetric (modify (mix_key shared));
  let local_s_public := public_key local_s in
  c1 ← on_symmetric (encrypt_and_hash local_s_public);
  shared ← lift (dh local_s remote_e);
  _ ← on_symmetric (modify (mix_key shared));
  payload ← gets (λ h, local_payload h local_s_public);
  c2 ← on_symmetric (encrypt_and_hash payload);
  _ ← set_step ResponderReadMessage3;
  mret (local_e_public ++ c1 ++ c2).

Definition too_short (n : Z) : NoiseError :=
  InvalidHandshakeMessage (if n =? 2 then str "Noise message 2 is too short" else str "Noise message 3 is too short").

Definition read_message2 (message : bytes) : HM (PeerId * PublicKey) :=
  if zlen message <? 32 + 48 + 16 then throw (too_short 2)
  else
    remote_e ← lift (m ← ok_or (get_to message 32) (too_short 2); exact_array 32 m (str "invalid remote ephemeral key"));
    _ ← modify (λ h, {| h with remote_ephemeral := Some remote_e |});
    local_e ← gets local_ephemeral;
    _ ← on_symmetric (modify (mix_hash remote_e));
    shared ← lift (dh local_e remote_e);
    _ ← on_symmetric (modify (mix_key shared));
    c1 ← lift (ok_or (slice message 32 80) (too_short 2));
    remote_s_bytes ← on_symmetric (decrypt_and_hash c1);
    remote_s ← lift (exact_array 32 remote_s_bytes (str "invalid remote static key"));
    shared ← lift (dh local_e remote_s);
    _ ← on_symmetric (modify (mix_key shared));
    c2 ← lift (ok_or (get_from message 80) (too_short 2));
    payload ← on_symmetric (decrypt_and_hash c2);
    reads (verify_payload payload remote_s).

Definition write_message3 : HM bytes :=
  remote_e ← reads (λ h, required (remote_ephemeral h));
  local_s ← gets local_static;
  let local_s_public := public_key local_s in
  c1 ← on_symmetric (encrypt_and_hash local_s_public);
  shared ← lift (dh local_s remote_e);
  _ ← on_symmetric (modify (mix_key shared));
  payload ← gets (λ h, local_payload h local_s_public);
  c2 ← on_symmetric (encrypt_and_hash payload);
  _ ← set_step Complete;
  mret (c1 ++ c2).

Definition read_message3 (message : bytes) : HM (PeerId * PublicKey) :=
  if zlen message <? 48 + 16 then throw (too_short 3)
  else
    c1 ← lift (ok_or (get_to message 48) (too_short 3));
    remote_s_bytes ← on_symmetric (decrypt_and_hash c1);
    remote_s ← lift (exact_array 32 remote_s_bytes (str "invalid remote static key"));
    local_e ← gets local_ephemeral;
    shared ← lift (dh local_e remote_s);
    _ ← on_symmetric (modify (mix_key shared));
    c2 ← lift (ok_or (get_from message 48) (too_short 3));
    payload ← on_symmetric (decrypt_and_hash c2);
    verified ← reads (verify_payload payload remote_s);
    _ ← set_step Complete;
    mret verified.

Definition handshake_start : HM (option bytes) :=
  step ← gets hs_step;
  match step with
  | InitiatorWriteMessage1 =>
      local_e ← gets local_ephemeral;
      let public := public_key local_e in
      _ ← on_symmetric (modify (mix_hash public));
      _ ← on_symmetric (encrypt_and_hash []);
      _ ← set_step InitiatorReadMessage2;
      mret (Some public)
  | ResponderReadMessage1 => mret None
  | _ => throw AlreadyStarted
  end.

Definition read_message (message : bytes) : HM (option bytes * option HandshakeResult) :=
  step ← gets hs_step;
  match step with
  | ResponderReadMessage1 =>
      remote ← lift (exact_array 32 message (str "invalid Noise message 1 length"));
      _ ← modify (λ h, {| h with remote_ephemeral := Some remote |});
      _ ← on_symmetric (modify (mix_hash remote));
      _ ← on_symmetric (decrypt_and_hash []);
      _ ← set_step ResponderWriteMessage2;
      response ← write_message2;
      mret (Some response, None)
  | InitiatorReadMessage2 =>
      '(peer, key) ← read_message2 message;
      _ ← set_step InitiatorWriteMessage3;
      response ← write_message3;
      result ← gets (finish_with_peer peer key);
      mret (Some response, Some result)
  | ResponderReadMessage3 =>
      '(peer, key) ← read_message3 message;
      result ← gets (finish_with_peer peer key);
      mret (None, Some result)
  | _ => throw UnexpectedHandshakeMessage
  end.

(** ** The session *)

Definition MAX_TRANSPORT_PLAINTEXT : Z := MAX_FRAME_LEN - 16.

Record NoiseConfig := mkNoiseConfig {
  nc_role : NoiseRole;
  nc_identity : Ed25519Keypair;
  static_secret : bytes;
  ephemeral_secret : bytes;
  nc_expected_peer : option PeerId;
}.

Inductive NoiseInput := NStart | NData (bs : bytes) | NEncrypt (plaintext : bytes).
Inductive NoiseOutput :=
  | NOutbound (bs : bytes)
  | NHandshakeComplete (peer : PeerId) (key : PublicKey)
  | NDecrypted (bs : bytes).

Record NoiseSession := mkNoise {
  handshake : option HandshakeState;
  send_cipher : option CipherState;
  receive_cipher : option CipherState;
  noise_decoder : FrameDecoder;
  noise_pending : list NoiseOutput;
  noise_started : bool;
  noise_failed : bool;
}.
Abbreviation N := (M NoiseSession NoiseError).

Definition NoiseSession_new (c : NoiseConfig) : NoiseSession :=
  {| handshake := Some (HandshakeState_new (nc_role c) (nc_identity c) (static_secret c) (ephemeral_secret c) (nc_expected_peer c));
     send_cipher := None; receive_cipher := None; noise_decoder := FrameDecoder_new; noise_pending := [];
     noise_started := false; noise_failed := false |}.

Definition is_handshake_complete (s : NoiseSession) : bool :=
  bool_decide (is_Some (send_cipher s)) && bool_decide (is_Some (receive_cipher s)).

Definition push_pending (o : NoiseOutput) : N unit := modify (λ s, {| s with noise_pending := noise_pending s ++ [o] |}).

(** [self.field.as_mut().ok_or(..)?] and a call on what is there. *)
Definition on_handshake {A} (m : HM A) : N A := λ s,
  match handshake s with
  | None => (s, Err (InvalidState (str "handshake is unavailable")))
  | Some h => let '(h', r) := m h in ({| s with handshake := Some h' |}, r)
  end.
Definition on_receive_cipher {A} (m : CM A) : N A := λ s,
  match receive_cipher s with
  | None => (s, Err (InvalidState (str "receive cipher is unavailable")))
  | Some c => let '(c', r) := m c in ({| s with receive_cipher := Some c' |}, r)
  end.
Definition on_send_cipher {A} (m : CM A) : N A := λ s,
  match send_cipher s with
  | None => (s, Err (InvalidInput (str "handshake is not complete")))
  | Some c => let '(c', r) := m c in ({| s with send_cipher := Some c' |}, r)
  end.

Definition push_frame (message : bytes) : N unit :=
  frame ← lift (noise_encode_frame message); push_pending (NOutbound frame).

Definition noise_start : N unit :=
  started ← gets noise_started;
  if started : bool then throw AlreadyStarted
  else
    _ ← modify (λ s, {| s with noise_started := true |});
    outbound ← on_handshake handshake_start;
    match outbound with Some message => push_frame message | None => mret tt end.

Definition complete_handshake (r : HandshakeResult) : N unit :=
  _ ← modify (λ s, {| s with send_cipher := Some (hr_send r); receive_cipher := Some (hr_receive r); handshake := None |});
  push_pending (NHandshakeComplete (hr_peer r) (hr_identity_key r)).

(** One round of the loop of [receive], for a frame that has been taken. *)
Definition receive_frame (message : bytes) : N unit :=
  complete ← gets is_handshake_complete;
  if complete : bool then
    plaintext ← on_receive_cipher (decrypt_with_ad [] message);
    push_pending (NDecrypted plaintext)
  else
    '(outbound, complete) ← on_handshake (read_message message);
    _ ← match outbound with Some outbound => push_frame outbound | None => mret tt end;
    match complete with Some result => complete_handshake result | None => mret tt end.

Fixpoint receive_loop (fuel : nat) : N unit :=
  message ← (λ s, let '(d, m) := noise_next_frame (noise_decoder s) in ({| s with noise_decoder := d |}, Ok m));
  match message with
  | None => mret tt
  | Some message =>
      match fuel with
      | O => lift Diverge
      | S fuel => _ ← receive_frame message; receive_loop fuel
      end
  end.

Definition receive (bs : bytes) : N unit :=
  started ← gets noise_started;
  if negb started then throw (InvalidInput (str "session has not been started"))
  else
    _ ← modify (λ s, {| s with noise_decoder := noise_push bs (noise_decoder s) |});
    fuel ← gets (λ s, length (nd_buffer (noise_decoder s)));
    receive_loop fuel.

(** [plaintext.chunks(n)]; at least one byte is taken in each round. *)
Fixpoint chunks (fuel : nat) (n : nat) (l : bytes) : list bytes :=
  match fuel, l with
  | S fuel, _ :: _ => take n l :: chunks fuel n (drop n l)
  | _, _ => []
  end.

Definition encrypt_segment (segment : bytes) : N unit :=
  ciphertext ← on_send_cipher (encrypt_with_ad [] segment);
  push_frame ciphertext.
Definition noise_encrypt (plaintext : bytes) : N unit :=
  match plaintext with
  | [] => encrypt_segment plaintext
  | _ =>
      (** [send_cipher] is looked up once, before the loop. *)
      _ ← on_send_cipher (mret tt);
      for_each encrypt_segment (chunks (length plaintext) (Z.to_nat MAX_TRANSPORT_PLAINTEXT) plaintext)
  end.

Definition noise_handle_input (i : NoiseInput) : N unit := λ s,
  if noise_failed s then (s, Err NoiseFailed)
  else
    match (match i with NStart => noise_start | NData bs => receive bs | NEncrypt plaintext => noise_encrypt plaintext end) s with
    | (s', Err e) =>
        (if is_terminal e then {| s' with noise_failed := true; noise_pending := [] |} else s', Err e)
    | out => out
    end.
Definition noise_poll_output : N (option NoiseOutput) := λ s,
  match noise_pending s with
  | [] => (s, Ok None)
  | o :: rest => ({| s with noise_pending := rest |}, Ok (Some o))
  end.
Definition noise_is_idle (s : NoiseSession) : bool := bool_decide (noise_pending s = []).

#[global] Instance Noise_protocol : SansIoProtocol NoiseSession NoiseInput NoiseOutput NoiseError := {|
  handle_input := noise_handle_input;
  poll_output := noise_poll_output;
  is_idle := noise_is_idle;
|}.
End Noise.
