(* ===== verification/NoiseHandshake.v ===== *)
(** The Noise handshake between two honest parties: the codecs are inverse to
    each other, the ciphers and the symmetric state of the two sides stay in
    step, and the XX handshake ends with the same keys on both sides and each
    side knowing the other. *)

From Stdlib Require Import Strings.Byte.
From S2P Require Import Prelude Varint Proto SansIo Base58 PeerIdentity Multiaddr Keys Noise.

(** ** The identity payload *)

Lemma cursor_add_at (input p q : bytes) n reason :
  input = p ++ q → zlen input ≤ usize_max → 0 ≤ n ≤ zlen q →
  cursor_add input n reason (zlen p) = (zlen p + n, Ok tt).
Proof.
  intros -> Hl Hn. rewrite zlen_app in Hl. unfold cursor_add. rewrite checked_add_Some by lia. rewrite zlen_app.
  by destruct (Z.leb_spec (zlen p + n) (zlen p + zlen q)); [|lia].
Qed.

Lemma read_bytes_at (input p v q : bytes) :
  input = p ++ (write_uvarint (zlen v) [] ++ v) ++ q → zlen input ≤ usize_max →
  read_bytes input (zlen p) = (zlen p + zlen (write_uvarint (zlen v) [] ++ v), Ok v).
Proof.
  intros Hin Hl. pose proof (f_equal zlen Hin) as Hz. rewrite !zlen_app in Hz. pose proof (zlen_nonneg p).
  pose proof (zlen_nonneg q). pose proof (zlen_nonneg v). pose proof (zlen_write_uvarint (zlen v) ltac:(lia)) as Hw.
  pose proof (uvarint_len_pos (zlen v) ltac:(lia)). unfold read_bytes, mbind, M_bind, reads, lift, modify.
  rewrite (get_from_at input p _ _ Hin) by done. cbn [ok_or]. rewrite <- app_assoc.
  rewrite read_uvarint_prefixed by (unfold usize_max in *; lia). cbn [invalid_payload].
  rewrite (cursor_add_at input p _ _ _ Hin Hl) by (rewrite !zlen_app; lia).
  destruct (Z.leb_spec (zlen v) usize_max); [|lia]. rewrite checked_add_Some by lia. cbn [ok_or].
  rewrite (proj2 (slice_Some_iff input (zlen p + uvarint_len (zlen v)) (zlen p + uvarint_len (zlen v) + zlen v) v ltac:(lia))); [cbn [ok_or]; rewrite zlen_app, Hw, Z.add_assoc; done|].
  exists (p ++ write_uvarint (zlen v) []), q. rewrite zlen_app. split_and!; [|lia|lia]. rewrite Hin. by rewrite <- !app_assoc.
Qed.

Definition known_field (f : Z) : Prop := f = 1 ∨ f = 2 ∨ f = 4.

Lemma payload_round_at (input p v q : bytes) f fs :
  known_field f → input = p ++ write_bytes_field f v ++ q → zlen input ≤ usize_max →
  payload_round input fs (zlen p) = (zlen p + zlen (write_bytes_field f v), put_slot f v fs).
Proof.
  intros Hf Hin Hl. set (tag := Z.lor (Z.shiftl f 3) 2).
  assert (0 ≤ tag ≤ u64_max ∧ Z.shiftr tag 3 = f ∧ Z.land tag 7 = 2) as (Htag & Hs & Hw) by (by destruct Hf as [->|[->| ->]]).
  unfold write_bytes_field in *. fold tag in Hin |- *. pose proof (zlen_write_uvarint tag ltac:(lia)) as Hwt.
  pose proof (zlen_nonneg v). pose proof (zlen_nonneg q). pose proof (uvarint_len_pos tag ltac:(lia)).
  pose proof (zlen_nonneg (write_uvarint (zlen v) [])).
  unfold payload_round, mbind, M_bind, reads, lift. rewrite (get_from_at input p _ _ Hin) by done. cbn [ok_or].
  rewrite <- app_assoc. rewrite read_uvarint_prefixed by done. cbn [invalid_payload].
  rewrite (cursor_add_at input p _ _ _ Hin Hl) by (rewrite !zlen_app; lia). rewrite Hs, Hw.
  replace (f =? 0) with false by (by destruct Hf as [->|[->| ->]]).
  replace ((f =? 1) || (f =? 2) || (f =? 4)) with true by (by destruct Hf as [->|[->| ->]]). cbn [negb Z.eqb Pos.eqb].
  replace (zlen p + uvarint_len tag) with (zlen (p ++ write_uvarint tag [])) by (rewrite zlen_app; lia).
  rewrite (read_bytes_at input (p ++ write_uvarint tag []) v q); [|by rewrite Hin, <- !app_assoc|done].
  f_equal. rewrite !zlen_app. lia.
Qed.

Lemma write_bytes_field_pos f v : known_field f → 0 < zlen (write_bytes_field f v).
Proof.
  intros Hf. unfold write_bytes_field. rewrite zlen_app. pose proof (zlen_nonneg (write_uvarint (zlen v) [] ++ v)).
  assert (0 ≤ Z.lor (Z.shiftl f 3) 2) by (by destruct Hf as [->|[->| ->]]).
  rewrite zlen_write_uvarint by done. pose proof (uvarint_len_pos (Z.lor (Z.shiftl f 3) 2) ltac:(done)). lia.
Qed.

Lemma payload_loop_field fuel (input p v q : bytes) f fs fs' :
  known_field f → input = p ++ write_bytes_field f v ++ q → zlen input ≤ usize_max → put_slot f v fs = Ok fs' →
  payload_loop (S fuel) input fs (zlen p) = payload_loop fuel input fs' (zlen (p ++ write_bytes_field f v)).
Proof.
  intros Hf Hin Hl Hp. pose proof (write_bytes_field_pos f v Hf). pose proof (f_equal zlen Hin) as Hz. rewrite !zlen_app in Hz.
  pose proof (zlen_nonneg q). cbn [payload_loop]. destruct (Z.leb_spec (zlen input) (zlen p)); [lia|].
  rewrite (run_ok _ _ _ (zlen p + zlen (write_bytes_field f v)) fs'); [by rewrite zlen_app|].
  rewrite (payload_round_at input p v q f fs Hf Hin Hl). by rewrite Hp.
Qed.
Lemma payload_loop_end fuel input fs : payload_loop fuel input fs (zlen input) = (zlen input, Ok fs).
Proof. destruct fuel; cbn; by rewrite Z.leb_refl. Qed.

Lemma payload_round_trip p : zlen (payload_encode p) ≤ usize_max → payload_decode (payload_encode p) = Ok p.
Proof.
  destruct p as [k g e]. unfold payload_decode, payload_encode. cbn [identity_key identity_sig extensions].
  set (a := write_bytes_field 1 k). set (b := write_bytes_field 2 g). set (c := opt_bytes (write_bytes_field 4) e).
  intros Hl. pose proof (write_bytes_field_pos 1 k ltac:(by left)) as Ha. pose proof (write_bytes_field_pos 2 g ltac:(by right; left)) as Hb.
  fold a in Ha. fold b in Hb. unfold zlen in Ha, Hb.
  destruct (length (a ++ b ++ c)) as [|[|fuel]] eqn:Hfuel; [rewrite !length_app in Hfuel; lia..|].
  change 0 with (zlen (A := byte) []) at 1.
  rewrite (payload_loop_field _ (a ++ b ++ c) [] k (b ++ c) 1 _ (mkPayloadFields (Some k) None None)); [|by left|done|done|done].
  rewrite (payload_loop_field _ (a ++ b ++ c) ([] ++ a) g c 2 _ (mkPayloadFields (Some k) (Some g) None)); [|by right; left|done|done|done].
  destruct e as [e|]; cbn [opt_bytes] in *; unfold c in *; cycle 1.
  { rewrite app_nil_r. rewrite payload_loop_end. done. }
  pose proof (write_bytes_field_pos 4 e ltac:(by right; right)) as Hc. unfold zlen in Hc.
  destruct fuel as [|fuel]; [rewrite !length_app in Hfuel; lia|].
  rewrite (payload_loop_field _ _ (([] ++ a) ++ b) e [] 4 _ (mkPayloadFields (Some k) (Some g) (Some e)));
    [|by right; right|by rewrite app_nil_r; cbn; rewrite <- !app_assoc|done|done].
  replace ((([] ++ a) ++ b) ++ write_bytes_field 4 e) with (a ++ b ++ write_bytes_field 4 e) by (cbn; by rewrite <- app_assoc).
  by rewrite payload_loop_end.
Qed.

(** ** Both sides in step *)

Section Handshake.
Context `{NoiseCrates} `{!NoiseCratesSpec} `{SigningCrate} `{!SigningSpec}.
Context `{HashCrates Multihash} `{!HashCratesSpec Multihash} `{!EqDecision Multihash}.
Abbreviation PeerId := (PeerIdentity.PeerId (Multihash := Multihash)).
Abbreviation HandshakeState := (Noise.HandshakeState (Multihash := Multihash)).

Lemma zlen_nonce n : zlen (replicate 4 x00 ++ le_bytes 8 n) = 12.
Proof. unfold zlen, le_bytes. by rewrite length_app, length_replicate, length_reverse, length_be_bytes. Qed.

(** A cipher encrypts, and the other side's cipher, being equal, decrypts. *)
Lemma cipher_step k n ad m :
  zlen k = 32 → 0 ≤ n < u64_max → zlen m ≤ u16_max →
  ∃ c, zlen c = zlen m + 16 ∧
    encrypt_with_ad ad m (mkCipher (Some k) n) = (mkCipher (Some k) (n + 1), Ok c) ∧
    decrypt_with_ad ad c (mkCipher (Some k) n) = (mkCipher (Some k) (n + 1), Ok m).
Proof.
  intros Hk Hn Hm. destruct (aead_round_trip k (replicate 4 x00 ++ le_bytes 8 n) ad m Hk (zlen_nonce n) Hm) as (c & He & Hc & Hd).
  exists c. split; [done|]. unfold encrypt_with_ad, decrypt_with_ad, next_nonce. run_simpl. cbn [cs_key cs_nonce].
  destruct (Z.eqb_spec n u64_max); [lia|]. cbn [ok_or]. by rewrite He, Hd.
Qed.

(** A symmetric state that has a key, and how it looks after one message. *)
Definition keyed (s : SymmetricState) (n : Z) : Prop := ∃ k, zlen k = 32 ∧ hs_cipher s = mkCipher (Some k) n.

Lemma symmetric_step s n m :
  keyed s n → 0 ≤ n < u64_max → zlen m ≤ u16_max →
  ∃ c s', zlen c = zlen m + 16 ∧ encrypt_and_hash m s = (s', Ok c) ∧ decrypt_and_hash c s = (s', Ok m) ∧ keyed s' (n + 1).
Proof.
  intros (k & Hk & Hc) Hn Hm. destruct s as [ck h ci]. cbn in Hc. subst ci.
  destruct (cipher_step k n h m Hk Hn Hm) as (c & Hz & He & Hd). eexists c, _. split; [done|].
  unfold encrypt_and_hash, decrypt_and_hash, on_cipher, zoom. run_simpl. cbn. rewrite He, Hd. cbn.
  split; [reflexivity|]. split; [reflexivity|]. by exists k.
Qed.
Lemma mix_key_keyed input s : keyed (mix_key input s) 0.
Proof. unfold keyed, mix_key, derive2. cbn. eexists. split; [|done]. apply hmac_length. Qed.
Lemma mix_hash_keyed data s n : keyed s n → keyed (mix_hash data s) n.
Proof. done. Qed.
(** Without a key messages are not encrypted, but they count. *)
Lemma symmetric_empty s :
  hs_cipher s = CipherState_new →
  encrypt_and_hash [] s = (mix_hash [] s, Ok []) ∧ decrypt_and_hash [] s = (mix_hash [] s, Ok []).
Proof. destruct s as [ck h c]. cbn. intros ->. done. Qed.

(** ** The payload proves the static key *)

Lemma zlen_write_uvarint_small v : 0 ≤ v < 128 → zlen (write_uvarint v []) = 1.
Proof. intros Hv. rewrite write_uvarint_small by lia. done. Qed.

Lemma zlen_local_payload (h : HandshakeState) pub :
  keypair_ok (identity h) → zlen (local_payload h pub) = 104.
Proof.
  intros [Hs Hp]. unfold local_payload, payload_encode, write_bytes_field, encode_protobuf, keypair_public_key, sign. cbn [identity_key identity_sig extensions key_type key_data KeyType_tag opt_bytes].
  rewrite !zlen_app, Hp. rewrite ed_public_length, ed_sign_length by done. rewrite !zlen_cons, !zlen_nil.
  rewrite !zlen_write_uvarint_small by (by cbn). lia.
Qed.

Lemma from_public_key_ok k : ∃ p : PeerId, from_public_key k = Ok p.
Proof.
  unfold from_public_key, from_public_key_protobuf, build_multihash.
  destruct (Z.leb_spec (zlen (encode_protobuf k)) MAX_INLINE_KEY_LENGTH).
  - destruct (mh_wrap_spec IDENTITY_MULTIHASH_CODE (encode_protobuf k)) as (m & -> & _).
    + by compute.
    + unfold MAX_INLINE_KEY_LENGTH, PEER_ID_MULTIHASH_SIZE in *. lia.
    + by eexists.
  - destruct (mh_wrap_spec SHA256_MULTIHASH_CODE (sha256_digest (encode_protobuf k))) as (m & -> & _).
    + by compute.
    + rewrite sha256_length. by compute.
    + by eexists.
Qed.

Definition expects (h : HandshakeState) (p : PeerId) : Prop := match expected_peer h with Some q => q = p | None => True end.

Lemma verify_local (h h' : HandshakeState) pub (p : PeerId) :
  keypair_ok (identity h) → keypair_peer_id (identity h) = Ok p → expects h' p →
  verify_payload (local_payload h pub) pub h' = Ok (p, keypair_public_key (identity h)).
Proof.
  intros Hk Hp Hex. pose proof (zlen_local_payload h pub Hk) as Hz. destruct Hk as [Hs Hpub].
  unfold verify_payload. unfold local_payload at 1. rewrite payload_round_trip; cycle 1.
  { unfold local_payload in Hz. rewrite Hz. by compute. }
  cbn [mbind res_bind identity_key identity_sig]. rewrite decode_protobuf_complete; cycle 1.
  { unfold encode_protobuf, keypair_public_key. cbn [key_type key_data KeyType_tag]. rewrite Hpub, !zlen_app, ed_public_length by done.
    rewrite !zlen_write_uvarint_small by (by cbn). by compute. }
  cbn [mbind res_bind]. unfold sign. rewrite ed_sign_length by done. cbn [mbind res_bind Z.eqb Pos.eqb].
  unfold verify, keypair_public_key. cbn [key_type key_data]. rewrite Hpub, ed_public_length, ed_public_ok, ed_verify_sign by done.
  cbn [mbind res_bind Z.eqb Pos.eqb negb]. unfold keypair_peer_id, keypair_public_key in Hp. rewrite Hpub in Hp. rewrite Hp. cbn [mbind res_bind].
  unfold expects in Hex. destruct (expected_peer h') as [q|]; [|done]. subst q. by rewrite bool_decide_false by auto.
Qed.

(** ** The messages *)

#[local] Arguments mix_key : simpl never.
#[local] Arguments mix_hash : simpl never.
#[local] Arguments public_key : simpl never.
#[local] Arguments dh : simpl never.
#[local] Arguments encrypt_and_hash : simpl never.
#[local] Arguments decrypt_and_hash : simpl never.
#[local] Arguments local_payload : simpl never.
#[local] Arguments verify_payload : simpl never.

(** A shared secret that is not all zero; the handshake refuses the others. *)
Definition contributory (a b : bytes) : Prop := forallb (λ x, bool_decide (x = x00)) (x25519 a (public_key b)) = false.

Lemma dh_agree a b :
  zlen a = 32 → zlen b = 32 → contributory a b →
  ∃ z, dh a (public_key b) = Ok z ∧ dh b (public_key a) = Ok z.
Proof.
  intros Ha Hb Hc. exists (x25519 a (public_key b)). unfold dh, contributory, public_key in *.
  rewrite <- (x25519_agree a b) by done. by rewrite Hc.
Qed.

(** What one party brings to a handshake. *)
Record party := mkParty { p_identity : Ed25519Keypair; p_static : bytes; p_ephemeral : bytes; p_expected : option PeerId }.
Record honest (p : party) (name : PeerId) : Prop := {
  ho_identity : keypair_ok (p_identity p);
  ho_name : keypair_peer_id (p_identity p) = Ok name;
  ho_static : zlen (p_static p) = 32;
  ho_ephemeral : zlen (p_ephemeral p) = 32;
}.
Definition new_party (role : NoiseRole) (p : party) : HandshakeState :=
  HandshakeState_new role (p_identity p) (p_static p) (p_ephemeral p) (p_expected p).

(** A handshake state of party [p]. *)
Record of_party (p : party) (role : NoiseRole) (step : Step) (remote : option bytes) (s : SymmetricState) (h : HandshakeState) : Prop := {
  op_role : hs_role h = role;
  op_step : hs_step h = step;
  op_identity : identity h = p_identity p;
  op_static : local_static h = p_static p;
  op_ephemeral : local_ephemeral h = p_ephemeral p;
  op_expected : expected_peer h = p_expected p;
  op_remote : remote_ephemeral h = remote;
  op_symmetric : symmetric h = s;
}.

(** The two parties have not spoken yet: their states are equal. *)
Definition opening (e : bytes) : SymmetricState := mix_hash [] (mix_hash (public_key e) (with_prologue [])).

Lemma message1 p :
  ∃ h, handshake_start (new_party NInitiator p) = (h, Ok (Some (public_key (p_ephemeral p)))) ∧
    of_party p NInitiator InitiatorReadMessage2 None (opening (p_ephemeral p)) h.
Proof.
  unfold handshake_start, new_party, HandshakeState_new, on_symmetric, zoom, set_step. run_simpl.
  cbn [hs_step local_ephemeral symmetric].
  rewrite (proj1 (symmetric_empty (mix_hash (public_key (p_ephemeral p)) (with_prologue [])) eq_refl)).
  eexists. split; [reflexivity|]. by split.
Qed.

Lemma get_to_first (a b : bytes) n : zlen a = n → get_to (a ++ b) n = Some a.
Proof. intros <-. unfold get_to. apply slice_Some_iff; [done|]. exists [], b. split_and!; [done|done|lia]. Qed.
Lemma slice_middle (a b c : bytes) i j : zlen a = i → zlen b = j - i → slice (a ++ b ++ c) i j = Some b.
Proof. intros <- Hb. apply slice_Some_iff; [apply zlen_nonneg|]. by exists a, c. Qed.
Lemma exact_array_ok n b reason : zlen b = n → exact_array n b reason = Ok b.
Proof. intros <-. unfold exact_array. by rewrite Z.eqb_refl. Qed.

(** The responder's message, and the initiator reading it. *)
Lemma message2 (pI pR : party) nameI nameR s hR :
  honest pI nameI → honest pR nameR → contributory (p_ephemeral pI) (p_ephemeral pR) → contributory (p_ephemeral pI) (p_static pR) →
  of_party pR NResponder ResponderWriteMessage2 (Some (public_key (p_ephemeral pI))) s hR →
  (match p_expected pI with Some q => q = nameR | None => True end) →
  ∃ m s' hR', zlen m ≤ u16_max ∧ keyed s' 1 ∧ write_message2 hR = (hR', Ok m) ∧
    of_party pR NResponder ResponderReadMessage3 (Some (public_key (p_ephemeral pI))) s' hR' ∧
    ∀ hI step, of_party pI NInitiator step None s hI →
      ∃ hI', read_message2 m hI = (hI', Ok (nameR, keypair_public_key (p_identity pR))) ∧
        of_party pI NInitiator step (Some (public_key (p_ephemeral pR))) s' hI'.
Proof.
  intros [Ii In Is Ie] [Ri Rn Rs Re] Cee Ces HR Hex.
  destruct (dh_agree _ _ Ie Re Cee) as (z1 & Hz1 & Hz1'). destruct (dh_agree _ _ Ie Rs Ces) as (z2 & Hz2 & Hz2').
  set (s1 := mix_key z1 (mix_hash (public_key (p_ephemeral pR)) s)).
  pose proof (x25519_public_length (p_static pR) Rs) as Lps. pose proof (x25519_public_length (p_ephemeral pR) Re) as Lpe.
  fold (public_key (p_static pR)) in Lps. fold (public_key (p_ephemeral pR)) in Lpe.
  destruct (symmetric_step s1 0 (public_key (p_static pR))) as (c1 & s2 & Lc1 & E1 & D1 & K2);
    [apply mix_key_keyed|by compute|rewrite Lps; by compute|].
  set (s3 := mix_key z2 s2). destruct HR as [R1 R2 R3 R4 R5 R6 R7 R8].
  pose proof (zlen_local_payload hR (public_key (p_static pR)) ltac:(by rewrite R3)) as Lp.
  set (payload := local_payload hR (public_key (p_static pR))) in *.
  destruct (symmetric_step s3 0 payload) as (c2 & s4 & Lc2 & E2 & D2 & K4); [apply mix_key_keyed|by compute|rewrite Lp; by compute|].
  exists (public_key (p_ephemeral pR) ++ c1 ++ c2), s4. eexists. split; [rewrite !zlen_app; rewrite Lpe, Lc1, Lc2, Lps, Lp; by compute|].
  split; [done|]. split.
  { unfold write_message2, on_symmetric, zoom, set_step. run_simpl. rewrite R7. cbn [required ok_or]. rewrite R5, R4, R8. cbn.
    rewrite Hz1'. cbn. fold s1. rewrite E1. cbn. rewrite Hz2'. cbn. fold s3.
    match goal with |- context [local_payload ?h _] => change (local_payload h (public_key (p_static pR))) with payload end.
    rewrite E2. cbn. reflexivity. }
  split; [by split|].
  intros hI step [I1 I2 I3 I4 I5 I6 I7 I8]. eexists. split.
  { unfold read_message2. rewrite !zlen_app, Lpe, Lc1, Lc2, Lps, Lp. change (_ <? _) with false. cbn beta iota.
    run_simpl. rewrite (get_to_first _ (c1 ++ c2) 32 Lpe). cbn [ok_or]. rewrite exact_array_ok by done.
    unfold on_symmetric, zoom. cbn. rewrite I5, I8. rewrite Hz1. cbn. fold s1.
    rewrite (slice_middle _ c1 c2 32 80 Lpe) by (rewrite Lc1, Lps; done). cbn [ok_or]. rewrite D1. cbn. rewrite exact_array_ok by done.
    rewrite Hz2. cbn. fold s3.
    rewrite (get_from_at _ (public_key (p_ephemeral pR) ++ c1) c2); [|by rewrite <- app_assoc|rewrite zlen_app, Lpe, Lc1, Lps; done].
    cbn [ok_or]. rewrite D2. cbn. unfold payload. rewrite (verify_local hR _ _ nameR); [rewrite R3; reflexivity|by rewrite R3..|].
    unfold expects. cbn. by rewrite I6. }
  by split.
Qed.

(** The initiator's second message, and the responder reading it. *)
Lemma message3 (pI pR : party) nameI nameR s stepI hI hR :
  honest pI nameI → honest pR nameR → contributory (p_static pI) (p_ephemeral pR) →
  keyed s 1 → of_party pI NInitiator stepI (Some (public_key (p_ephemeral pR))) s hI →
  of_party pR NResponder ResponderReadMessage3 (Some (public_key (p_ephemeral pI))) s hR →
  (match p_expected pR with Some q => q = nameI | None => True end) →
  ∃ m s' hI' hR', zlen m ≤ u16_max ∧
    write_message3 hI = (hI', Ok m) ∧ of_party pI NInitiator Complete (Some (public_key (p_ephemeral pR))) s' hI' ∧
    read_message3 m hR = (hR', Ok (nameI, keypair_public_key (p_identity pI))) ∧
    of_party pR NResponder Complete (Some (public_key (p_ephemeral pI))) s' hR'.
Proof.
  intros [Ii In Is Ie] [Ri Rn Rs Re] Cse HK [I1 I2 I3 I4 I5 I6 I7 I8] [R1 R2 R3 R4 R5 R6 R7 R8] Hex.
  destruct (dh_agree _ _ Is Re Cse) as (z & Hz & Hz').
  pose proof (x25519_public_length (p_static pI) Is) as Lps. fold (public_key (p_static pI)) in Lps.
  destruct (symmetric_step s 1 (public_key (p_static pI))) as (c1 & s1 & Lc1 & E1 & D1 & K1);
    [done|by compute|rewrite Lps; by compute|].
  set (s2 := mix_key z s1).
  pose proof (zlen_local_payload hI (public_key (p_static pI)) ltac:(by rewrite I3)) as Lp.
  set (payload := local_payload hI (public_key (p_static pI))) in *.
  destruct (symmetric_step s2 0 payload) as (c2 & s3 & Lc2 & E2 & D2 & K3); [apply mix_key_keyed|by compute|rewrite Lp; by compute|].
  exists (c1 ++ c2), s3. eexists _, _. split; [rewrite zlen_app, Lc1, Lc2, Lps, Lp; by compute|]. split.
  { unfold write_message3, on_symmetric, zoom, set_step. run_simpl. rewrite I7. cbn [required ok_or]. rewrite I4, I8. cbn.
    rewrite E1. cbn. rewrite Hz. cbn. fold s2.
    match goal with |- context [local_payload ?h _] => change (local_payload h (public_key (p_static pI))) with payload end.
    rewrite E2. cbn. reflexivity. }
  split; [by split|]. split.
  { unfold read_message3, set_step. rewrite zlen_app, Lc1, Lc2, Lps, Lp. change (_ <? _) with false. cbn beta iota.
    run_simpl. rewrite (get_to_first c1 c2 48) by (rewrite Lc1, Lps; done). cbn [ok_or]. unfold on_symmetric, zoom. cbn.
    rewrite R8, D1. cbn. rewrite exact_array_ok by done. rewrite R5, Hz'. cbn. fold s2.
    rewrite (get_from_at _ c1 c2) by (done || (rewrite Lc1, Lps; done)). cbn [ok_or]. rewrite D2. cbn. unfold payload.
    rewrite (verify_local hI _ _ nameI); [rewrite I3; reflexivity|by rewrite I3..|]. unfold expects. cbn. by rewrite R6. }
  by split.
Qed.

(** Both sides end with the same pair of keys, one for each direction. *)
Lemma split_ok s : ∃ k1 k2, zlen k1 = 32 ∧ zlen k2 = 32 ∧ split s = (mkCipher (Some k1) 0, mkCipher (Some k2) 0).
Proof. unfold split, derive2. cbn. eexists _, _. split_and!; [apply hmac_length|apply hmac_length|done]. Qed.

(** The four steps of a handshake between honest parties that do not expect
    somebody else. *)
Lemma handshake_run (pI pR : party) nameI nameR :
  honest pI nameI → honest pR nameR →
  contributory (p_ephemeral pI) (p_ephemeral pR) → contributory (p_ephemeral pI) (p_static pR) →
  contributory (p_static pI) (p_ephemeral pR) →
  (match p_expected pI with Some q => q = nameR | None => True end) →
  (match p_expected pR with Some q => q = nameI | None => True end) →
  ∃ m1 m2 m3 h1 h2 h3 h4 k1 k2,
    zlen m1 ≤ u16_max ∧ zlen m2 ≤ u16_max ∧ zlen m3 ≤ u16_max ∧ zlen k1 = 32 ∧ zlen k2 = 32 ∧
    handshake_start (new_party NInitiator pI) = (h1, Ok (Some m1)) ∧
    handshake_start (new_party NResponder pR) = (new_party NResponder pR, Ok None) ∧
    read_message m1 (new_party NResponder pR) = (h2, Ok (Some m2, None)) ∧
    read_message m2 h1 = (h3, Ok (Some m3, Some (mkResult (mkCipher (Some k1) 0) (mkCipher (Some k2) 0)
      nameR (keypair_public_key (p_identity pR))))) ∧
    read_message m3 h2 = (h4, Ok (None, Some (mkResult (mkCipher (Some k2) 0) (mkCipher (Some k1) 0)
      nameI (keypair_public_key (p_identity pI))))).
Proof.
  intros HI HR Cee Ces Cse XI XR. destruct (message1 pI) as (h1 & Hs & P1).
  pose proof (x25519_public_length (p_ephemeral pI) (ho_ephemeral _ _ HI)) as L1. fold (public_key (p_ephemeral pI)) in L1.
  set (hR := {| (new_party NResponder pR) with remote_ephemeral := Some (public_key (p_ephemeral pI));
    symmetric := opening (p_ephemeral pI); hs_step := ResponderWriteMessage2 |}).
  destruct (message2 pI pR nameI nameR (opening (p_ephemeral pI)) hR HI HR Cee Ces ltac:(by split) XI)
    as (m2 & s2 & h2 & L2 & K2 & W2 & P2 & Hread2).
  destruct (Hread2 h1 _ P1) as (h1' & R2 & P1').
  destruct (message3 pI pR nameI nameR s2 InitiatorWriteMessage3 {| h1' with hs_step := InitiatorWriteMessage3 |} h2 HI HR Cse K2
    ltac:(by destruct P1'; split) P2 XR) as (m3 & s3 & h3 & h4 & L3 & W3 & P3 & R3 & P4).
  destruct (split_ok s3) as (k1 & k2 & Lk1 & Lk2 & Hsp).
  exists (public_key (p_ephemeral pI)), m2, m3, h1, h2, h3, h4, k1, k2.
  split; [rewrite L1; by compute|]. split; [done|]. split; [done|]. split; [done|]. split; [done|]. split; [done|]. split; [done|]. split; [|split].
  - unfold read_message. rewrite run_gets. cbn [new_party HandshakeState_new hs_step]. rewrite run_lift, exact_array_ok by done.
    rewrite run_modify. unfold on_symmetric, zoom, set_step. unfold mbind at 1, M_bind at 1. cbn.
    unfold mbind at 1, M_bind at 1. cbn.
    rewrite (proj2 (symmetric_empty (mix_hash (public_key (p_ephemeral pI)) (with_prologue [])) eq_refl)).
    rewrite run_modify. cbn. rewrite (run_ok _ _ _ _ _ W2). done.
  - unfold read_message. rewrite run_gets. destruct P1 as [_ -> _]. rewrite (run_ok _ _ _ _ _ R2). unfold set_step. rewrite run_modify.
    rewrite (run_ok _ _ _ _ _ W3), run_gets. destruct P3 as [PR _ _ _ _ _ _ PS]. unfold finish_with_peer. by rewrite PS, Hsp, PR.
  - unfold read_message. rewrite run_gets. destruct P2 as [_ -> _]. rewrite (run_ok _ _ _ _ _ R3), run_gets.
    destruct P4 as [PR _ _ _ _ _ _ PS]. unfold finish_with_peer. by rewrite PS, Hsp, PR.
Qed.
End Handshake.

(** ** An instance of the crates *)

(** A shared secret that does not depend on the order of the two keys, a tag
    made of the nonce and the key, and signatures that repeat the message. *)
Definition mark (a b : byte) : byte := if bool_decide (a = b) then x01 else x02.
Definition demo_tag (k n : bytes) : bytes := take 16 (n ++ k ++ replicate 16 x00).
Lemma length_demo_tag k n : length (demo_tag k n) = 16%nat.
Proof. unfold demo_tag. rewrite length_take, !length_app, length_replicate. lia. Qed.
#[local] Instance demo_noise : NoiseCrates := {|
  x25519_public s := s;
  x25519 s p := zip_with mark s p;
  aead_encrypt k n _ m := Some (m ++ demo_tag k n);
  aead_decrypt k n _ c :=
    if bool_decide (drop (length c - 16) c = demo_tag k n) then Some (take (length c - 16) c) else None;
  hmac_sha256 k m := take 32 (k ++ m ++ replicate 32 x00);
|}.
#[local] Instance demo_noise_spec : NoiseCratesSpec.
Proof.
  split; cbn [x25519_public x25519 aead_encrypt aead_decrypt hmac_sha256 demo_noise].
  - done.
  - intros s p Hs Hp. unfold zlen in *. rewrite length_zip_with. lia.
  - intros a b Ha Hb. apply list_eq. intros i. rewrite !lookup_zip_with. destruct (a !! i), (b !! i); cbn; try done.
    f_equal. unfold mark. by rewrite (bool_decide_ext (b0 = b1) (b1 = b0)).
  - intros k n ad m Hk Hn Hm. exists (m ++ demo_tag k n).
    pose proof (length_demo_tag k n) as Ht.
    split; [done|]. rewrite zlen_app. split; [unfold zlen; lia|]. rewrite length_app, Ht.
    replace (length m + 16 - 16)%nat with (length m) by lia. rewrite drop_app_length, take_app_length. by rewrite bool_decide_true.
  - intros k n ad c m. case_bool_decide as Ht; [|done]. intros [= <-]. apply (f_equal length) in Ht.
    unfold zlen in *. rewrite length_drop, length_demo_tag in Ht. rewrite length_take. lia.
  - intros k m. unfold zlen. rewrite length_take, !length_app, length_replicate. lia.
Qed.
#[local] Existing Instance demo_signing.
#[local] Existing Instance demo_signing_spec.
