(* ===== verification/NoiseFrames.v ===== *)
(** The length-prefixed frames of a Noise stream, from [crates/noise/src/frames.rs]:
    how a byte stream is cut into frames, and that the decoder returns just
    those, however the bytes arrive. *)

From Stdlib Require Import Strings.Byte.
From S2P Require Import Prelude Varint Proto SansIo Base58 PeerIdentity Multiaddr Keys Noise.

(** ** Frames in a stream *)

Definition unread (d : FrameDecoder) : bytes := drop (Z.to_nat (nd_offset d)) (nd_buffer d).
Definition decoder_in (d : FrameDecoder) : Prop := 0 ≤ nd_offset d ≤ zlen (nd_buffer d).
(** A decoder that has nothing left to read keeps no bytes. *)
Record decoder_ok (d : FrameDecoder) : Prop := {
  do_offset : decoder_in d;
  do_fits : zlen (nd_buffer d) ≤ usize_max;
  do_tidy : nd_offset d = zlen (nd_buffer d) → d = FrameDecoder_new;
}.

Definition framed (p : bytes) : bytes := be_bytes 2 (zlen p) ++ p.
Definition small (p : bytes) : Prop := zlen p ≤ u16_max.
(** Not yet a whole frame. *)
Definition incomplete (l : bytes) : Prop := zlen l < 2 ∨ zlen l < 2 + be_value (take 2 l).

Lemma zlen_be2 v : zlen (be_bytes 2 v) = 2.
Proof. unfold zlen. by rewrite length_be_bytes. Qed.
Lemma zlen_framed p : zlen (framed p) = 2 + zlen p.
Proof. unfold framed. by rewrite zlen_app, zlen_be2. Qed.
Lemma take2_be v (l : bytes) : take 2 (be_bytes 2 v ++ l) = be_bytes 2 v.
Proof. by rewrite take_app_length' by (by rewrite length_be_bytes). Qed.
Lemma be2_value p : small p → be_value (be_bytes 2 (zlen p)) = zlen p.
Proof. intros Hp. apply be_value_be_bytes. pose proof (zlen_nonneg p). unfold small, u16_max in Hp. cbn. lia. Qed.

Lemma framed_complete p l : small p → ¬ incomplete (framed p ++ l).
Proof.
  intros Hp. unfold incomplete, framed. rewrite <- app_assoc, take2_be, be2_value by done. rewrite !zlen_app, zlen_be2.
  pose proof (zlen_nonneg p). pose proof (zlen_nonneg l). lia.
Qed.
Lemma framed_inj p q l l' : small p → small q → framed p ++ l = framed q ++ l' → p = q ∧ l = l'.
Proof.
  intros Hp Hq Heq. unfold framed in Heq. rewrite <- !app_assoc in Heq.
  apply app_inj_1 in Heq as [Hb Heq]; [|by rewrite !length_be_bytes].
  apply (f_equal be_value) in Hb. rewrite !be2_value in Hb by done. apply app_inj_1 in Heq as [-> ->]; [done|].
  unfold zlen in Hb. lia.
Qed.
(** A list of bytes that is not incomplete starts with a frame. *)
Lemma complete_framed l : ¬ incomplete l → ∃ p rest, small p ∧ l = framed p ++ rest.
Proof.
  intros Hc. assert (2 ≤ zlen l ∧ 2 + be_value (take 2 l) ≤ zlen l) as [H2 Hv] by (unfold incomplete in Hc; lia).
  set (n := be_value (take 2 l)) in *. pose proof (be_value_range (take 2 l)) as Hr. fold n in Hr.
  assert (length (take 2 l) = 2%nat) as Ht by (rewrite length_take; unfold zlen in H2; lia). rewrite Ht in Hr. cbn in Hr.
  exists (take (Z.to_nat n) (drop 2 l)), (drop (Z.to_nat n) (drop 2 l)).
  assert (zlen (take (Z.to_nat n) (drop 2 l)) = n) as Hz by (unfold zlen in *; rewrite length_take, length_drop; lia).
  split; [unfold small, u16_max; lia|]. unfold framed. rewrite Hz, <- app_assoc, take_drop. unfold n.
  rewrite <- Ht at 1. by rewrite be_bytes_be_value, take_drop.
Qed.

(** How a stream is cut into frames. *)
Record parsed (l : bytes) (fs : list bytes) (rest : bytes) : Prop := {
  pa_bytes : l = concat (framed <$> fs) ++ rest;
  pa_small : Forall small fs;
  pa_rest : incomplete rest;
}.
Lemma incomplete_nil : incomplete [].
Proof. by left. Qed.
Lemma parsed_rest l : incomplete l → parsed l [] l.
Proof. by split. Qed.
Lemma parsed_cons p l fs rest : small p → parsed l fs rest → parsed (framed p ++ l) (p :: fs) rest.
Proof. intros Hp [-> Hs Hr]. split; [by rewrite fmap_cons, concat_cons, <- app_assoc|by constructor|done]. Qed.

Lemma incomplete_dec l : incomplete l ∨ ¬ incomplete l.
Proof. unfold incomplete. lia. Qed.

Lemma parsed_total n l : (length l ≤ n)%nat → ∃ fs rest, parsed l fs rest.
Proof.
  revert l. induction n as [|n IH]; intros l Hn; (destruct (incomplete_dec l) as [Hl|Hl]; [by exists [], l; apply parsed_rest|]);
    apply complete_framed in Hl as (p & rest & Hp & ->); pose proof (zlen_framed p) as Hz; pose proof (zlen_nonneg p);
    rewrite length_app in Hn; unfold zlen in Hz; [lia|].
  destruct (IH rest) as (fs & r & Hr); [lia|]. exists (p :: fs), r. by apply parsed_cons.
Qed.
(** Bytes that come later do not change the frames that are there. *)
Lemma parsed_app l fs rest more gs rest' :
  parsed l fs rest → parsed (l ++ more) gs rest' → ∃ hs, gs = fs ++ hs ∧ parsed (rest ++ more) hs rest'.
Proof.
  intros [-> Hs Hr]. revert gs. induction Hs as [|p fs Hp _ IH]; intros gs [Hl Hg Hr'].
  - exists gs. split; [done|]. by split.
  - rewrite fmap_cons, concat_cons, <- !app_assoc in Hl. destruct gs as [|q gs].
    + exfalso. apply (framed_complete p (concat (framed <$> fs) ++ rest ++ more)); [done|]. by rewrite Hl.
    + rewrite fmap_cons, concat_cons in Hl. apply Forall_cons in Hg as [Hq Hg]. rewrite <- !app_assoc in Hl. apply framed_inj in Hl as [-> Hl]; [|done..].
      destruct (IH gs) as (hs & -> & Hp'); [split; [by rewrite <- !app_assoc|done|done]|]. by exists hs.
Qed.
Lemma parsed_length l fs rest : parsed l fs rest → (length fs ≤ length l)%nat.
Proof.
  intros [-> _ _]. induction fs as [|p fs IH]; cbn; [lia|]. rewrite !length_app in *. pose proof (zlen_framed p) as Hz. pose proof (zlen_nonneg p).
  unfold zlen in Hz. lia.
Qed.

(** ** The decoder *)

Lemma push_ok bs d :
  decoder_ok d → zlen (nd_buffer d) + zlen bs ≤ usize_max →
  decoder_ok (noise_push bs d) ∧ unread (noise_push bs d) = unread d ++ bs.
Proof.
  intros [Ho Hf Ht] Hl. pose proof (zlen_nonneg bs). unfold noise_push, unread, decoder_in in *. split.
  - split; unfold decoder_in; cbn [nd_buffer nd_offset]; rewrite zlen_app; [lia..|]. intros Heq.
    assert (bs = []) as -> by (apply zlen_zero_inv; lia). rewrite app_nil_r, zlen_nil in *. rewrite <- Ht by lia. by destruct d.
  - cbn [nd_buffer nd_offset]. unfold zlen in Ho. by rewrite drop_app_le by lia.
Qed.

Lemma compact_ok d : decoder_in d → zlen (nd_buffer d) ≤ usize_max →
  decoder_ok (noise_compact d) ∧ unread (noise_compact d) = unread d ∧ zlen (nd_buffer (noise_compact d)) ≤ zlen (nd_buffer d).
Proof.
  intros Ho Hf. unfold noise_compact, decoder_in in *. pose proof (zlen_nonneg (nd_buffer d)).
  destruct (Z.eqb_spec (nd_offset d) (zlen (nd_buffer d))) as [He|Hne].
  - unfold unread. cbn. rewrite He, to_nat_zlen, drop_all. split; [by split; vm_compute|]. split; [done|]. change (0 ≤ zlen (nd_buffer d)). lia.
  - destruct (_ <=? _); [|by split_and!]. unfold unread. pose proof (zlen_drop (nd_offset d) (nd_buffer d)) as Hz.
    split; [|split; [done|cbn [nd_buffer]; lia]].
    split; unfold decoder_in; cbn [nd_buffer nd_offset]; [split; [done|apply zlen_nonneg]|lia|]. lia.
Qed.
Lemma unread_nil d : decoder_ok d → unread d = [] → d = FrameDecoder_new.
Proof.
  intros [Ho _ Ht] Hu. apply Ht. unfold unread, decoder_in in *. pose proof (zlen_drop (nd_offset d) (nd_buffer d)) as Hz. rewrite Hu, zlen_nil in Hz. lia.
Qed.

Lemma next_frame_cases d :
  decoder_ok d →
  (incomplete (unread d) ∧ noise_next_frame d = (d, None)) ∨
  (∃ p rest d', small p ∧ unread d = framed p ++ rest ∧ noise_next_frame d = (d', Some p) ∧ decoder_ok d' ∧ unread d' = rest ∧
    zlen (nd_buffer d') ≤ zlen (nd_buffer d)).
Proof.
  intros Hd. pose proof Hd as [Ho Hf _]. unfold decoder_in in Ho. unfold noise_next_frame, get_from, get_to.
  destruct (Z.leb_spec (nd_offset d) (zlen (nd_buffer d))); [|lia]. cbn. fold (unread d).
  destruct (incomplete_dec (unread d)) as [Hi|Hi]; [left|right].
  - split; [done|]. destruct (slice (unread d) 0 2) as [len|] eqn:Hlen; [|done].
    apply slice_Some_iff in Hlen as (p0 & q & Hu & Hp0 & Hl); [|done]. apply zlen_zero_inv in Hp0 as ->. cbn [app] in Hu.
    unfold incomplete in Hi. rewrite Hu, zlen_app in Hi |- *. pose proof (zlen_nonneg q).
    rewrite take_app_length' in Hi by (unfold zlen in Hl; lia). cbn [mbind option_bind].
    destruct (Z.leb_spec 2 (zlen len + zlen q)); [|done]. cbn [mbind option_bind].
    rewrite drop_app_length' by (unfold zlen in Hl; lia). unfold slice.
    destruct (Z.leb_spec (be_value len) (zlen q)); [lia|]. by rewrite andb_false_r.
  - apply complete_framed in Hi as (p & rest & Hp & Hu). pose proof (zlen_nonneg p). pose proof (zlen_nonneg rest).
    pose proof (f_equal zlen Hu) as Hz. rewrite zlen_app, zlen_framed in Hz. unfold unread in Hz at 1. rewrite zlen_drop in Hz.
    exists p, rest. rewrite Hu. unfold framed. rewrite <- app_assoc.
    rewrite (proj2 (slice_Some_iff _ 0 2 (be_bytes 2 (zlen p)) ltac:(lia))); cycle 1.
    { exists [], (p ++ rest). split_and!; [done|done|by rewrite zlen_be2]. }
    cbn [mbind option_bind]. rewrite be2_value by done. rewrite !zlen_app, zlen_be2.
    destruct (Z.leb_spec 2 (2 + (zlen p + zlen rest))); [|lia]. cbn [mbind option_bind].
    rewrite drop_app_length' by (by rewrite length_be_bytes).
    rewrite (proj2 (slice_Some_iff (p ++ rest) 0 (zlen p) p ltac:(lia))); cycle 1.
    { exists [], rest. split_and!; [done|done|lia]. }
    cbn [mbind option_bind]. rewrite checked_add_Some by lia. cbn [mbind option_bind]. rewrite checked_add_Some by lia. cbn [mbind option_bind].
    set (d1 := {| d with nd_offset := _ |}).
    assert (decoder_in d1) as Hd1 by (unfold decoder_in; cbn; lia). destruct (compact_ok d1 Hd1 Hf) as (Hok & Hun & Hle).
    eexists. split; [done|]. split; [done|]. split; [reflexivity|]. split; [done|]. split; [|done]. rewrite Hun. unfold d1, unread in *. cbn [nd_buffer nd_offset].
    rewrite !Z2Nat.inj_add by lia. rewrite <- Nat.add_assoc, <- drop_drop, Hu.
    rewrite <- drop_drop, to_nat_zlen. unfold framed. rewrite <- app_assoc. rewrite (drop_app_length' _ _ (Z.to_nat 2)) by (by rewrite length_be_bytes).
    by rewrite drop_app_length.
Qed.

(** ** Handling a frame does not look at the decoder *)

Section Blind.
Context `{NoiseCrates} `{SigningCrate} `{HashCrates Multihash} `{!EqDecision Multihash}.
Abbreviation NoiseSession := (Noise.NoiseSession (Multihash := Multihash)).
Abbreviation N := (M NoiseSession NoiseError).
Implicit Types (s : NoiseSession) (d : FrameDecoder).

Definition with_decoder d s : NoiseSession := {| s with noise_decoder := d |}.
Lemma with_decoder_same s : with_decoder (noise_decoder s) s = s.
Proof. by destruct s. Qed.

(** The decoder and the two flags are carried along. *)
Record blind {A} (m : N A) : Prop := {
  bl_decoder d s : m (with_decoder d s) = (with_decoder d (m s).1, (m s).2);
  bl_started s : noise_started (m s).1 = noise_started s;
  bl_failed s : noise_failed (m s).1 = noise_failed s;
}.

Lemma blind_keeps {A} (m : N A) s : blind m → noise_decoder (m s).1 = noise_decoder s.
Proof. intros [Hd _ _]. rewrite <- (with_decoder_same s) at 1. by rewrite Hd. Qed.
Lemma blind_bind {A B} (m : N A) (f : A → N B) : blind m → (∀ a, blind (f a)) → blind (m ≫= f).
Proof.
  intros [Hd Hs Hf] H'. split.
  - intros d s. unfold mbind, M_bind. rewrite Hd. destruct (m s) as [s1 [a|e| |]]; cbn; [|done..]. apply H'.
  - intros s. unfold mbind, M_bind. specialize (Hs s). destruct (m s) as [s1 [a|e| |]]; try done. cbn in Hs. rewrite <- Hs. apply H'.
  - intros s. unfold mbind, M_bind. specialize (Hf s). destruct (m s) as [s1 [a|e| |]]; try done. cbn in Hf. rewrite <- Hf. apply H'.
Qed.
Lemma blind_lift {A} (r : res NoiseError A) : blind (lift r).
Proof. by split. Qed.
Lemma blind_gets_complete : blind (gets is_handshake_complete).
Proof. by split. Qed.
Lemma blind_push_pending o : blind (push_pending o).
Proof. by split. Qed.
Lemma blind_on_handshake {A} (m : M HandshakeState NoiseError A) : blind (on_handshake m).
Proof.
  split; [intros d s|intros s..]; unfold on_handshake; cbn [with_decoder handshake]; (destruct (handshake s) as [h|]; [|done]);
    by destruct (m h) as [h' r].
Qed.
Lemma blind_on_receive_cipher {A} (m : M CipherState NoiseError A) : blind (on_receive_cipher m).
Proof.
  split; [intros d s|intros s..]; unfold on_receive_cipher; cbn [with_decoder receive_cipher]; (destruct (receive_cipher s) as [h|]; [|done]);
    by destruct (m h) as [h' r].
Qed.
Lemma blind_push_frame m : blind (push_frame m).
Proof. apply blind_bind; [apply blind_lift|intros; apply blind_push_pending]. Qed.
Lemma blind_complete_handshake r : blind (complete_handshake r).
Proof. apply blind_bind; [by split|intros; apply blind_push_pending]. Qed.

Lemma blind_receive_frame m : blind (receive_frame m).
Proof.
  apply blind_bind; [apply blind_gets_complete|]. intros [].
  - apply blind_bind; [apply blind_on_receive_cipher|]. intros. apply blind_push_pending.
  - apply blind_bind; [apply blind_on_handshake|]. intros [out res].
    apply blind_bind; [by destruct out; [apply blind_push_frame|split]|]. intros _. by destruct res; [apply blind_complete_handshake|split].
Qed.
Lemma blind_for_each {A} (f : A → N unit) l : (∀ x, blind (f x)) → blind (for_each f l).
Proof. intros Hf. induction l as [|x l IH]; [by split|]. by apply blind_bind. Qed.

(** ** Receiving bytes is handling the frames in them *)

Lemma receive_loop_frames fuel s fs rest s' r :
  decoder_ok (noise_decoder s) → parsed (unread (noise_decoder s)) fs rest → (length fs ≤ fuel)%nat →
  for_each receive_frame fs s = (s', Ok r) →
  ∃ d, receive_loop fuel s = (with_decoder d s', Ok tt) ∧ decoder_ok d ∧ unread d = rest ∧
    zlen (nd_buffer d) ≤ zlen (nd_buffer (noise_decoder s)).
Proof.
  revert fuel s s'. induction fs as [|f fs IH]; intros fuel s s' Hd [Hl Hs Hr] Hf Hrun.
  - cbn in Hl, Hrun. injection Hrun as <- _. destruct (next_frame_cases _ Hd) as [[_ Hn]|(p & q & _ & Hp & Hu & _)].
    + exists (noise_decoder s). rewrite with_decoder_same. split; [|done]. destruct fuel; cbn; unfold mbind, M_bind; rewrite Hn; by destruct s.
    + destruct (framed_complete p q Hp). by rewrite <- Hu, Hl.
  - destruct fuel as [|fuel]; [cbn in Hf; lia|]. rewrite fmap_cons, concat_cons, <- app_assoc in Hl. apply Forall_cons in Hs as [Hsf Hs].
    destruct (next_frame_cases _ Hd) as [[Hi _]|(p & q & d & Hp & Hu & Hn & Hd' & Hq & Hle)].
    { destruct (framed_complete f (concat (framed <$> fs) ++ rest) Hsf). by rewrite <- Hl. }
    rewrite Hu in Hl. apply framed_inj in Hl as [-> Hl]; [|done..]. cbn [receive_loop for_each] in *. unfold mbind, M_bind in *. rewrite Hn.
    pose proof (blind_receive_frame f) as Hb. change ({| s with noise_decoder := d |}) with (with_decoder d s). rewrite (bl_decoder _ Hb).
    destruct (receive_frame f s) as [s1 [[]|e| |]] eqn:Hf1; try done. cbn [fst snd].
    destruct (IH fuel (with_decoder d s1) (with_decoder d s')) as (d2 & Hrun2 & Hd2 & Hu2 & Hle2).
    + done.
    + split; [by rewrite <- Hl|done|done].
    + cbn in Hf. lia.
    + rewrite (bl_decoder _ (blind_for_each _ fs blind_receive_frame)), Hrun. reflexivity.
    + exists d2. rewrite Hrun2. split; [done|]. split; [done|]. split; [done|]. cbn in Hle2. lia.
Qed.

Lemma for_each_app {A} (f : A → N unit) l k s :
  for_each f (l ++ k) s = (_ ← for_each f l; for_each f k) s.
Proof.
  revert s. induction l as [|x l IH]; intros s; [done|]. cbn [app for_each]. unfold mbind, M_bind in *.
  by destruct (f x s) as [s1 [u|e| |]]; try apply IH.
Qed.
Lemma length_unread d : (length (unread d) ≤ length (nd_buffer d))%nat.
Proof. unfold unread. rewrite length_drop. lia. Qed.

(** However a stream is cut, the frames in it are handled in order. *)
Lemma receive_chunks cs s fs rest s' :
  decoder_ok (noise_decoder s) → noise_started s = true → noise_failed s = false → incomplete (unread (noise_decoder s)) →
  zlen (nd_buffer (noise_decoder s)) + zlen (concat cs) ≤ usize_max →
  parsed (unread (noise_decoder s) ++ concat cs) fs rest → for_each receive_frame fs s = (s', Ok tt) →
  ∃ d, handle_inputs (NData <$> cs) s = (with_decoder d s', Ok tt) ∧ decoder_ok d ∧ unread d = rest.
Proof.
  revert s fs s'. induction cs as [|c cs IH]; intros s fs s' Hd Hst Hfa Hi Hl Hp Hrun.
  - cbn in Hp. rewrite app_nil_r in Hp. destruct Hp as [Hu Hsm Hr]. destruct fs as [|f fs].
    + injection Hrun as <-. exists (noise_decoder s). rewrite with_decoder_same. by rewrite Hu.
    + apply Forall_cons in Hsm as [Hf _]. rewrite fmap_cons, concat_cons, <- app_assoc in Hu.
      destruct (framed_complete f (concat (framed <$> fs) ++ rest) Hf). by rewrite <- Hu.
  - rewrite concat_cons, zlen_app in Hl. rewrite concat_cons, app_assoc in Hp. pose proof (zlen_nonneg (concat cs)).
    destruct (parsed_total (length (unread (noise_decoder s) ++ c)) (unread (noise_decoder s) ++ c)) as (fs1 & rest1 & Hp1); [done|].
    destruct (parsed_app _ _ _ _ _ _ Hp1 Hp) as (hs & -> & Hp2). rewrite for_each_app in Hrun. unfold mbind, M_bind in Hrun.
    destruct (for_each receive_frame fs1 s) as [s1 [[]|e| |]] eqn:Hrun1; try done.
    destruct (push_ok c (noise_decoder s) Hd ltac:(lia)) as [Hd1 Hu1]. set (d1 := noise_push c (noise_decoder s)) in *.
    pose proof (blind_for_each _ fs1 blind_receive_frame) as Hb.
    destruct (receive_loop_frames (length (nd_buffer d1)) (with_decoder d1 s) fs1 rest1 (with_decoder d1 s1) tt) as (d2 & Hloop & Hd2 & Hu2 & Hle2).
    + done.
    + by rewrite <- Hu1 in Hp1.
    + apply parsed_length in Hp1. rewrite <- Hu1 in Hp1. pose proof (length_unread d1). lia.
    + rewrite (bl_decoder _ Hb), Hrun1. done.
    + cbn [noise_decoder with_decoder] in Hle2.
      assert (zlen (nd_buffer d1) = zlen (nd_buffer (noise_decoder s)) + zlen c) as Hb1 by (unfold d1, noise_push; cbn; by rewrite zlen_app).
      pose proof (bl_started _ Hb s) as Hst1. pose proof (bl_failed _ Hb s) as Hfa1. rewrite Hrun1 in Hst1, Hfa1. cbn in Hst1, Hfa1.
      destruct (IH (with_decoder d2 s1) hs (with_decoder d2 s')) as (d3 & Hrun3 & Hd3 & Hu3).
      * done.
      * cbn. by rewrite Hst1.
      * cbn. by rewrite Hfa1.
      * cbn. rewrite Hu2. apply Hp1.
      * cbn [noise_decoder with_decoder]. lia.
      * cbn [noise_decoder with_decoder]. by rewrite Hu2.
      * rewrite (bl_decoder _ (blind_for_each _ hs blind_receive_frame)), Hrun. done.
      * exists d3. split; [|done]. cbn [fmap list_fmap handle_inputs]. unfold mbind, M_bind. cbn [handle_input Noise_protocol].
        unfold noise_handle_input. rewrite Hfa. unfold receive. rewrite run_gets, Hst. cbn [negb]. rewrite run_modify, run_gets. cbn [noise_decoder].
        fold d1. change ({| s with noise_decoder := d1 |}) with (with_decoder d1 s). rewrite Hloop. exact Hrun3.
Qed.
End Blind.
