(* ===== verification/NoiseSafety.v ===== *)
(** What a Noise session guarantees against any peer: every input is answered
    without a panic and without an endless loop, nothing is decrypted before the
    peer has proved its identity, and a session that has failed stays silent. *)

From Stdlib Require Import Strings.Byte.
From S2P Require Import Prelude Varint Proto SansIo Base58 PeerIdentity Multiaddr Keys Noise NoiseHandshake NoiseFrames.

(** A result that is not a panic and not an exhausted loop. *)
Definition answered {E A} (r : res E A) : Prop := match r with Ok _ | Err _ => True | _ => False end.

Lemma answered_ok_or {E A} (o : option A) (e : E) : answered (ok_or o e).
Proof. by destruct o. Qed.
Lemma answered_bind {E A B} (r : res E A) (f : A → res E B) : answered r → (∀ a, answered (f a)) → answered (r ≫= f).
Proof. destruct r; cbn; auto. Qed.
Lemma answered_varint l : answered (read_uvarint l).
Proof. pose proof (read_uvarint_outcome l). destruct (read_uvarint l); naive_solver. Qed.

Create HintDb answered.
#[export] Hint Resolve answered_ok_or answered_varint : answered.

(** ** Decoders *)

Lemma decode_data_answered kt input idx n : answered (decode_data kt input idx n).
Proof.
  unfold decode_data. apply answered_bind; [by case_match|]. intros len. apply answered_bind; [auto with answered|]. intros total.
  case_match; [done|]. apply answered_bind; [auto with answered|]. done.
Qed.
Lemma KeyType_answered v : answered (KeyType_try_from v).
Proof. unfold KeyType_try_from. by repeat case_match. Qed.
Lemma expect_tag_answered input idx tag : answered (expect_tag input idx tag).
Proof. unfold expect_tag. by case_match. Qed.
Lemma kvarint_answered l : answered (map_kvarint (read_uvarint l)).
Proof. pose proof (answered_varint l). by destruct (read_uvarint l). Qed.
#[export] Hint Resolve decode_data_answered KeyType_answered expect_tag_answered kvarint_answered : answered.

Lemma decode_protobuf_answered input : answered (decode_protobuf input).
Proof.
  unfold decode_protobuf. case_match; [done|].
  repeat (apply answered_bind; [auto with answered|]; intros ?; repeat case_match); auto with answered.
Qed.

(** A position from which the rest of the input is still to be read. *)
Definition within (input : bytes) (c : Z) : Prop := 0 ≤ c ≤ zlen input.

Lemma invalid_payload_cases l reason v used :
  invalid_payload (read_uvarint l) reason = Ok (v, used) → 0 ≤ v ∧ 0 < used.
Proof.
  destruct (read_uvarint l) as [[v' u]|e| |] eqn:Hr; try done. cbn. intros [= -> ->].
  apply read_uvarint_ok_iff in Hr as (Hv & -> & _). pose proof (uvarint_len_pos v ltac:(lia)). lia.
Qed.

(** An error that ends the session. *)
Definition terminal {S} (e : NoiseError) (s : S) : Prop := is_terminal e = true.
Definition settled {A} (r : res NoiseError A) : Prop := match r with Ok _ => True | Err e => is_terminal e = true | _ => False end.

Lemma settled_bind {A B} (r : res NoiseError A) (f : A → res NoiseError B) : settled r → (∀ a, r = Ok a → settled (f a)) → settled (r ≫= f).
Proof. destruct r; cbn; auto. Qed.
Lemma settled_ok_or {A} (o : option A) e : is_terminal e = true → settled (ok_or o e).
Proof. by destruct o. Qed.
Lemma invalid_payload_settled l reason : settled (invalid_payload (read_uvarint l) reason).
Proof. pose proof (answered_varint l). by destruct (read_uvarint l). Qed.

(** The three kinds of step of the decoder. *)
Lemma wp_reads_ok_or {S A} (f : S → option A) e (Q : A → S → Prop) c :
  is_terminal e = true → (∀ a, f c = Some a → Q a c) → wp (reads (λ c, ok_or (f c) e)) Q terminal c.
Proof. intros He HQ. apply wp_reads. destruct (f c) eqn:Hf; cbn; auto. Qed.
Lemma wp_varint l reason (Q : Z * Z → Z → Prop) c :
  (∀ v used, 0 ≤ v → 0 < used → Q (v, used) c) → wp (lift (invalid_payload (read_uvarint l) reason)) Q terminal c.
Proof.
  intros HQ. apply wp_lift. pose proof (invalid_payload_settled l reason).
  destruct (invalid_payload (read_uvarint l) reason) as [[v used]|e| |] eqn:Hr; try done.
  apply invalid_payload_cases in Hr as []. auto.
Qed.
Lemma wp_cursor_add input n reason (Q : unit → Z → Prop) c :
  (c + n ≤ zlen input → Q tt (c + n)) → wp (cursor_add input n reason) Q terminal c.
Proof.
  intros HQ. unfold wp, cursor_add, checked_add. destruct (c + n <=? usize_max); [|done].
  destruct (Z.leb_spec (c + n) (zlen input)); [auto|done].
Qed.

Lemma read_bytes_within input c :
  within input c → wp (read_bytes input) (λ _ c', c ≤ c' ≤ zlen input) terminal c.
Proof.
  intros Hc. unfold read_bytes. apply wp_bind, wp_reads_ok_or; [done|]. intros rem _. apply wp_bind, wp_varint. intros v used Hv Hu.
  apply wp_bind, wp_cursor_add. intros Hc1. apply wp_bind, wp_lift. destruct (v <=? usize_max); [|done].
  apply wp_bind, wp_reads_ok_or; [done|]. intros stop Hs. apply wp_bind, wp_reads_ok_or; [done|]. intros value Hvalue.
  apply wp_bind, wp_modify, wp_ret. unfold within in *. unfold checked_add in Hs. destruct (_ <=? usize_max); [|done]. injection Hs as <-.
  unfold slice in Hvalue. destruct (Z.leb_spec (c + used + v) (zlen input)); [lia|]. by rewrite andb_false_r in Hvalue.
Qed.

Lemma skip_unknown_within input wire c :
  within input c → wp (skip_unknown input wire) (λ _ c', c ≤ c' ≤ zlen input) terminal c.
Proof.
  intros Hc. unfold skip_unknown. destruct (wire =? 2).
  { apply wp_bind. eapply wp_mono; [by apply read_bytes_within|done|done]. }
  apply wp_bind. apply (wp_mono _ (λ n c', 0 ≤ n ∧ c' = c) _ terminal); [|intros n ? [Hn ->]|done].
  - destruct (wire =? 0); [|by repeat case_match]. apply wp_bind, wp_reads_ok_or; [done|]. intros rem _. apply wp_bind, wp_varint. intros v used Hv Hu.
    split; [lia|done].
  - apply wp_cursor_add. unfold within in *. lia.
Qed.

Lemma put_slot_settled value fs f : settled (put_slot f value fs).
Proof. unfold put_slot. by repeat case_match. Qed.
Lemma payload_round_within input fs c :
  within input c → wp (payload_round input fs) (λ _ c', c < c' ∧ within input c') terminal c.
Proof.
  intros Hc. unfold payload_round. apply wp_bind, wp_reads_ok_or; [done|]. intros rem _. apply wp_bind, wp_varint. intros tag used Ht Hu.
  apply wp_bind, wp_cursor_add. intros Hc1. assert (within input (c + used)) as Hw by (unfold within in *; lia).
  cbv zeta. case_match; [done|]. case_match; [case_match; [done|]|].
  - apply wp_bind. eapply wp_mono; [by apply read_bytes_within| |done]. intros value c' Hc'. cbn beta in Hc'. apply wp_lift.
    pose proof (put_slot_settled value fs (Z.shiftr tag 3)) as Hp. unfold within in *. destruct (put_slot _ value fs); try done. lia.
  - apply wp_bind. eapply wp_mono; [by apply skip_unknown_within| |done]. intros value c' Hc'. cbn beta in Hc'. apply wp_ret.
    unfold within in *. lia.
Qed.

Lemma payload_loop_within fuel input fs c :
  within input c → zlen input - c ≤ Z.of_nat fuel → wp (payload_loop fuel input fs) (λ _ _, True) terminal c.
Proof.
  revert fs c. induction fuel as [|fuel IH]; intros fs c Hc Hf; unfold wp, within in *; cbn [payload_loop];
    destruct (Z.leb_spec (zlen input) c); try done; [lia|].
  change (wp (fs ← payload_round input fs; payload_loop fuel input fs) (λ _ _, True) terminal c).
  apply wp_bind. eapply wp_mono; [by apply payload_round_within| |done]. intros fs' c' [Hlt Hc']. apply IH; [done|lia].
Qed.

Lemma payload_decode_settled input : settled (payload_decode input).
Proof.
  unfold payload_decode. pose proof (payload_loop_within (length input) input (mkPayloadFields None None None) 0) as Hw.
  unfold wp, within, zlen in Hw. pose proof (zlen_nonneg input) as Hz. unfold zlen in Hz. specialize (Hw ltac:(lia) ltac:(lia)).
  destruct (payload_loop _ _ _ _) as [c r]. cbn [snd]. apply settled_bind; [by destruct r|]. intros fs _.
  apply settled_bind; [by apply settled_ok_or|]. intros key _. by apply settled_bind; [by apply settled_ok_or|].
Qed.

Section Safety.
Context `{NC : NoiseCrates} `{SC : SigningCrate} `{HC : HashCrates Multihash} `{!HashCratesSpec Multihash} `{!EqDecision Multihash}.
Abbreviation PeerId := (PeerIdentity.PeerId (Multihash := Multihash)).
Abbreviation HandshakeState := (Noise.HandshakeState (Multihash := Multihash)).
Abbreviation NoiseConfig := (Noise.NoiseConfig (Multihash := Multihash)).
Abbreviation NoiseSession := (Noise.NoiseSession (Multihash := Multihash)).
Abbreviation NoiseOutput := (Noise.NoiseOutput (Multihash := Multihash)).
Implicit Types (cfg : NoiseConfig) (s : NoiseSession) (h : HandshakeState) (os : list NoiseOutput).

(** ** What a completed handshake has established *)

(** The peer's name is that of its key, it is the one that was asked for, and
    with that key it signed the static key that our ephemeral secret was
    combined with. *)
Record authenticated cfg (p : PeerId) (k : PublicKey) : Prop := {
  au_name : from_public_key k = Ok p;
  au_expected : match nc_expected_peer cfg with Some q => q = p | None => True end;
  au_signed : ∃ static signature z, zlen static = 32 ∧ dh (ephemeral_secret cfg) static = Ok z ∧
    verify k (signed_text static) signature = Ok tt;
}.

(** The part of a handshake that never changes. *)
Record hs_of cfg h : Prop := {
  ho_role : hs_role h = nc_role cfg;
  ho_eph : local_ephemeral h = ephemeral_secret cfg;
  ho_expects : expected_peer h = nc_expected_peer cfg;
}.

Lemma verify_answered k m sig : answered (verify k m sig).
Proof. unfold verify. by repeat case_match. Qed.

Lemma verify_payload_settled payload remote h : settled (verify_payload payload remote h).
Proof.
  unfold verify_payload. apply settled_bind; [apply payload_decode_settled|]. intros pl _.
  apply settled_bind; [pose proof (decode_protobuf_answered (identity_key pl)); by destruct (decode_protobuf _)|]. intros key _.
  apply settled_bind; [by case_match|]. intros sig _.
  apply settled_bind; [pose proof (verify_answered key (signed_text remote) sig); by destruct (verify _ _ _)|]. intros _ _.
  apply settled_bind; [by destruct (from_public_key_ok key) as [p ->]|]. intros p _. by case_match.
Qed.
Lemma verify_payload_sound payload remote h p k :
  verify_payload payload remote h = Ok (p, k) →
  from_public_key k = Ok p ∧ (match expected_peer h with Some q => q = p | None => True end) ∧
  ∃ sig, verify k (signed_text remote) sig = Ok tt.
Proof.
  unfold verify_payload. intros Hv. destruct (payload_decode payload) as [pl|e| |]; try done. cbn [mbind res_bind] in Hv.
  destruct (decode_protobuf (identity_key pl)) as [key|e| |]; try done. cbn [mbind res_bind] in Hv. destruct (zlen (identity_sig pl) =? 64); [|done]. cbn [mbind res_bind] in Hv.
  destruct (verify key _ _) as [[]|e| |] eqn:Hver; try done. cbn [mbind res_bind] in Hv. destruct (from_public_key key) as [q|e| |] eqn:Hq; try done. cbn [mbind res_bind] in Hv.
  destruct (expected_peer h) as [x|]; [case_bool_decide as Hx; [done|]|]; simplify_eq; eauto.
Qed.

(** ** The handshake only ends in an authenticated peer *)

Definition settles {S A} (m : M S NoiseError A) : Prop := ∀ x : S, wp m (λ _ _, True) terminal x.

Lemma cipher_settles ad m : settles (encrypt_with_ad ad m) ∧ settles (decrypt_with_ad ad m).
Proof.
  split; intros [[k|] n]; unfold wp, encrypt_with_ad, decrypt_with_ad, next_nonce; run_simpl; cbn [cs_key cs_nonce]; try done;
    destruct (n =? u64_max); try done; [destruct (aead_encrypt _ _ _ _)|destruct (aead_decrypt _ _ _ _)]; done.
Qed.
Lemma on_cipher_settles {A} (m : M CipherState NoiseError A) : settles m → settles (on_cipher m).
Proof. intros Hm s. apply wp_zoom. eapply wp_mono; [apply Hm|done|done]. Qed.
Lemma encrypt_and_hash_settles m : settles (encrypt_and_hash m).
Proof. intros s. apply wp_bind, wp_gets, wp_bind. eapply wp_mono; [apply on_cipher_settles, cipher_settles|done|done]. Qed.
Lemma decrypt_and_hash_settles m : settles (decrypt_and_hash m).
Proof. intros s. apply wp_bind, wp_gets, wp_bind. eapply wp_mono; [apply on_cipher_settles, cipher_settles|done|done]. Qed.
Lemma modify_settles {S} (f : S → S) : settles (modify f).
Proof. done. Qed.

(** A step on the symmetric state leaves the rest of the handshake alone. *)
Lemma wp_symmetric {A} cfg (m : M SymmetricState NoiseError A) (Q : A → HandshakeState → Prop) h :
  settles m → hs_of cfg h → (∀ a h', hs_of cfg h' → Q a h') → wp (on_symmetric m) Q terminal h.
Proof.
  intros Hm [] HQ. apply wp_zoom. eapply wp_mono; [apply Hm| |done]. intros a s' _. apply HQ. by split.
Qed.
Lemma wp_dh a b (Q : bytes → HandshakeState → Prop) h : (∀ z, dh a b = Ok z → Q z h) → wp (lift (dh a b)) Q terminal h.
Proof. intros HQ. apply wp_lift. destruct (dh a b) as [z|e| |] eqn:Hd; [by auto|..]; revert Hd; unfold dh; case_match; by intros [= <-]. Qed.
Lemma wp_exact n input reason (Q : bytes → HandshakeState → Prop) h :
  (zlen input = n → Q input h) → wp (lift (exact_array n input reason)) Q terminal h.
Proof. intros HQ. apply wp_lift. unfold exact_array. destruct (Z.eqb_spec (zlen input) n); [by auto|done]. Qed.
Lemma wp_lift_ok_or {S A} (o : option A) e (Q : A → S → Prop) (s : S) :
  is_terminal e = true → (∀ a, o = Some a → Q a s) → wp (lift (ok_or o e)) Q terminal s.
Proof. intros He HQ. apply wp_lift. destruct o; cbn; auto. Qed.

Lemma too_short_terminal n : is_terminal (too_short n) = true.
Proof. done. Qed.

(** What [read_message2] and [read_message3] end with. *)
Lemma verify_authenticates cfg h payload remote z (Q : PeerId * PublicKey → HandshakeState → Prop) :
  hs_of cfg h → zlen remote = 32 → dh (ephemeral_secret cfg) remote = Ok z →
  (∀ p k, authenticated cfg p k → Q (p, k) h) → wp (reads (verify_payload payload remote)) Q terminal h.
Proof.
  intros [_ _ Hex] Hr Hz HQ. apply wp_reads. pose proof (verify_payload_settled payload remote h) as Hs.
  destruct (verify_payload payload remote h) as [[p k]|e| |] eqn:Hv; try done. apply HQ.
  apply verify_payload_sound in Hv as (Hname & Hexp & sig & Hsig). rewrite Hex in Hexp. split; [done|done|by exists remote, sig, z].
Qed.
#[local] Hint Resolve encrypt_and_hash_settles decrypt_and_hash_settles modify_settles : core.

Lemma write_message2_keeps cfg h : hs_of cfg h → wp write_message2 (λ _, hs_of cfg) terminal h.
Proof.
  intros Hh. unfold write_message2. apply wp_bind, wp_reads_ok_or; [done|]. intros e _. apply wp_bind, wp_gets, wp_bind, wp_gets. cbv zeta.
  apply wp_bind, (wp_symmetric cfg); [done..|]. intros _ h1 H1. apply wp_bind, wp_dh. intros z1 _.
  apply wp_bind, (wp_symmetric cfg); [done..|]. intros _ h2 H2. apply wp_bind, (wp_symmetric cfg); [done..|]. intros c1 h3 H3.
  apply wp_bind, wp_dh. intros z2 _. apply wp_bind, (wp_symmetric cfg); [done..|]. intros _ h4 H4. apply wp_bind, wp_gets.
  apply wp_bind, (wp_symmetric cfg); [done..|]. intros c2 h5 [? ? ?]. apply wp_bind, wp_modify, wp_ret. by split.
Qed.
Lemma write_message3_keeps cfg h : hs_of cfg h → wp write_message3 (λ _, hs_of cfg) terminal h.
Proof.
  intros Hh. unfold write_message3. apply wp_bind, wp_reads_ok_or; [done|]. intros e _. apply wp_bind, wp_gets. cbv zeta.
  apply wp_bind, (wp_symmetric cfg); [done..|]. intros c1 h3 H3. apply wp_bind, wp_dh. intros z2 _.
  apply wp_bind, (wp_symmetric cfg); [done..|]. intros _ h4 H4. apply wp_bind, wp_gets.
  apply wp_bind, (wp_symmetric cfg); [done..|]. intros c2 h5 [? ? ?]. apply wp_bind, wp_modify, wp_ret. by split.
Qed.
Lemma read_message2_authenticates cfg m h :
  hs_of cfg h → wp (read_message2 m) (λ r h', hs_of cfg h' ∧ authenticated cfg r.1 r.2) terminal h.
Proof.
  intros Hh. unfold read_message2. case_match; [done|]. apply wp_bind. apply (wp_mono _ (λ _ h', h' = h) _ terminal); [|intros e ? ->|done].
  { apply wp_lift. unfold get_to. destruct (slice m 0 32) as [b|]; [|done]. cbn [ok_or mbind res_bind]. unfold exact_array. by destruct (zlen b =? 32). }
  apply wp_bind, wp_modify, wp_bind, wp_gets.
  assert (hs_of cfg {| h with remote_ephemeral := Some e |}) as H0 by (by destruct Hh; split).
  rewrite (ho_eph _ _ H0). apply wp_bind, (wp_symmetric cfg); [done..|]. intros _ h1 H1. apply wp_bind, wp_dh. intros z1 _.
  apply wp_bind, (wp_symmetric cfg); [done..|]. intros _ h2 H2. apply wp_bind, wp_lift_ok_or; [done|]. intros c1 _.
  apply wp_bind, (wp_symmetric cfg); [done..|]. intros sb h3 H3. apply wp_bind, wp_exact. intros Hsb. apply wp_bind, wp_dh. intros z Hz.
  apply wp_bind, (wp_symmetric cfg); [done..|]. intros _ h4 H4. apply wp_bind, wp_lift_ok_or; [done|]. intros c2 _.
  apply wp_bind, (wp_symmetric cfg); [done..|]. intros payload h5 H5. by apply (verify_authenticates cfg _ _ _ z).
Qed.
Lemma read_message3_authenticates cfg m h :
  hs_of cfg h → wp (read_message3 m) (λ r h', hs_of cfg h' ∧ authenticated cfg r.1 r.2) terminal h.
Proof.
  intros Hh. unfold read_message3. case_match; [done|]. apply wp_bind, wp_lift_ok_or; [done|]. intros c1 _.
  apply wp_bind, (wp_symmetric cfg); [done..|]. intros sb h3 H3. apply wp_bind, wp_exact. intros Hsb. apply wp_bind, wp_gets.
  rewrite (ho_eph _ _ H3). apply wp_bind, wp_dh. intros z Hz.
  apply wp_bind, (wp_symmetric cfg); [done..|]. intros _ h4 H4. apply wp_bind, wp_lift_ok_or; [done|]. intros c2 _.
  apply wp_bind, (wp_symmetric cfg); [done..|]. intros payload h5 H5. apply wp_bind, (verify_authenticates cfg _ _ _ z); [done..|].
  intros p k Hpk. apply wp_bind, wp_modify, wp_ret. split; [by destruct H5; split|done].
Qed.

Lemma read_message_authenticates cfg m h :
  hs_of cfg h → wp (read_message m) (λ r h', hs_of cfg h' ∧
    match r.2 with None => True | Some res => authenticated cfg (hr_peer res) (hr_identity_key res) ∧
      0 ≤ cs_nonce (hr_send res) ≤ u64_max ∧ 0 ≤ cs_nonce (hr_receive res) ≤ u64_max end) terminal h.
Proof.
  intros Hh. unfold read_message. apply wp_bind, wp_gets. destruct (hs_step h); try done.
  - apply wp_bind. eapply wp_mono; [by apply (read_message2_authenticates cfg)| |done]. intros [p k] h1 [H1 Ha]. apply wp_bind, wp_modify, wp_bind.
    eapply wp_mono; [apply (write_message3_keeps cfg); by destruct H1; split| |done]. intros out h2 H2.
    apply wp_bind, wp_gets, wp_ret. split; [done|]. cbn [snd]. unfold finish_with_peer, split, derive2. by destruct (hs_role h2).
  - apply wp_bind, wp_exact. intros _. apply wp_bind, wp_modify, wp_bind, (wp_symmetric cfg); [done|by destruct Hh; split|].
    intros _ h1 H1. apply wp_bind, (wp_symmetric cfg); [done..|]. intros _ h2 H2. apply wp_bind, wp_modify, wp_bind.
    eapply wp_mono; [apply (write_message2_keeps cfg); by destruct H2; split| |done]. intros out h3 H3. done.
  - apply wp_bind. eapply wp_mono; [by apply (read_message3_authenticates cfg)| |done]. intros [p k] h1 [H1 Ha].
    apply wp_bind, wp_gets, wp_ret. split; [done|]. cbn [snd]. unfold finish_with_peer, split, derive2. by destruct (hs_role h1).
Qed.

(** ** The order of the outputs *)

Definition outbound (o : NoiseOutput) : Prop := match o with NOutbound _ => True | _ => False end.
Definition transport (o : NoiseOutput) : Prop := match o with NHandshakeComplete _ _ => False | _ => True end.

(** One completion, of an authenticated peer: before it there is nothing but
    outbound bytes, and nothing is decrypted. *)
Definition opened cfg os : Prop := ∃ pre p k post,
  os = pre ++ NHandshakeComplete p k :: post ∧ Forall outbound pre ∧ Forall transport post ∧ authenticated cfg p k.
Definition ordered cfg os : Prop := Forall outbound os ∨ opened cfg os.

Lemma opened_app cfg os os' : opened cfg os → Forall transport os' → opened cfg (os ++ os').
Proof.
  intros (pre & p & k & post & -> & Hpre & Hpost & Ha) Ho. exists pre, p, k, (post ++ os').
  rewrite <- app_assoc. split_and!; [done|done|by apply Forall_app|done].
Qed.
Lemma ordered_prefix cfg os os' : ordered cfg (os ++ os') → ordered cfg os.
Proof.
  intros [Ho|(pre & p & k & post & Heq & Hpre & Hpost & Ha)]; [left; by apply Forall_app in Ho as []|].
  apply app_eq_inv in Heq as [(l & -> & Heq)|(l & -> & _)]; [|left; by apply Forall_app in Hpre as []].
  destruct l as [|x l]; [left; by rewrite app_nil_r|]. injection Heq as <- ->. right. exists pre, p, k, l.
  split_and!; [done|done|by apply Forall_app in Hpost as []|done].
Qed.

Definition nonce_ok (c : CipherState) : Prop := 0 ≤ cs_nonce c ≤ u64_max.

(** Where a session that has not failed stands; [os] is all it has put out. *)
Definition phase_ok cfg os s : Prop :=
  match handshake s with
  | Some h => hs_of cfg h ∧ send_cipher s = None ∧ receive_cipher s = None ∧ Forall outbound os
  | None => ∃ cs cr, send_cipher s = Some cs ∧ receive_cipher s = Some cr ∧ nonce_ok cs ∧ nonce_ok cr ∧ opened cfg os
  end.
Record running cfg os s : Prop := {
  ru_phase : phase_ok cfg (os ++ noise_pending s) s;
  ru_decoder : decoder_ok (noise_decoder s);
  ru_started : noise_started s = true;
  ru_failed : noise_failed s = false;
}.
(** The outputs taken so far and the session they leave. *)
Definition history cfg os s : Prop :=
  (s = NoiseSession_new cfg ∧ os = []) ∨ running cfg os s ∨ (noise_failed s = true ∧ noise_pending s = [] ∧ ordered cfg os).

Lemma phase_ordered cfg os s : phase_ok cfg os s → ordered cfg os.
Proof. unfold phase_ok. destruct (handshake s); [by left; naive_solver|by right; naive_solver]. Qed.

(** Inputs that fit in memory. *)
Definition fits s (i : NoiseInput) : Prop :=
  match i with NData bs => zlen (nd_buffer (noise_decoder s)) + zlen bs ≤ usize_max | _ => True end.

(** *** The steps of a session *)

Lemma push_frame_running cfg os m s (Q : NoiseSession → Prop) :
  running cfg os s → (∀ s', running cfg os s' → send_cipher s' = send_cipher s → handshake s' = handshake s → Q s') →
  wp (push_frame m) (λ _, Q) terminal s.
Proof.
  intros [Hp Hd Hs Hf] HQ. unfold push_frame, noise_encode_frame. apply wp_bind, wp_lift. destruct (zlen m <=? u16_max); [|done]. apply wp_modify, HQ; [|done..].
  split; cbn; [|done..]. rewrite app_assoc. unfold phase_ok in *. cbn. destruct (handshake s).
  - destruct Hp as (? & ? & ? & Ho). split_and!; [done..|]. by apply Forall_app_2; [done|repeat constructor].
  - destruct Hp as (cs & cr & ? & ? & ? & ? & Ho). exists cs, cr. split_and!; [done..|]. apply opened_app; [done|by repeat constructor].
Qed.

Lemma complete_handshake_running cfg os r s h :
  running cfg os s → handshake s = Some h → authenticated cfg (hr_peer r) (hr_identity_key r) → nonce_ok (hr_send r) → nonce_ok (hr_receive r) →
  wp (complete_handshake r) (λ _, running cfg os) terminal s.
Proof.
  intros [Hp Hd Hs Hf] Hh Ha Hns Hnr. unfold phase_ok in Hp. rewrite Hh in Hp. destruct Hp as (_ & _ & _ & Ho).
  apply wp_bind, wp_modify, wp_modify. split; cbn; [|done..]. exists (hr_send r), (hr_receive r). split_and!; [done..|].
  exists (os ++ noise_pending s), (hr_peer r), (hr_identity_key r), []. split_and!; [by rewrite app_assoc|done|constructor|done].
Qed.

Lemma cipher_nonce ad m c :
  nonce_ok c → wp (encrypt_with_ad ad m) (λ _, nonce_ok) terminal c ∧ wp (decrypt_with_ad ad m) (λ _, nonce_ok) terminal c.
Proof.
  destruct c as [[k|] n]; intros Hn; [|done]. unfold wp, encrypt_with_ad, decrypt_with_ad, next_nonce, nonce_ok in *. run_simpl. cbn [cs_key cs_nonce] in *.
  destruct (Z.eqb_spec n u64_max); [done|]. cbn. split; [destruct (aead_encrypt _ _ _ _)|destruct (aead_decrypt _ _ _ _)]; cbn; try done; lia.
Qed.

Lemma receive_frame_running cfg os m s : running cfg os s → wp (receive_frame m) (λ _, running cfg os) terminal s.
Proof.
  intros Hr. pose proof Hr as [Hp Hd Hs Hf]. unfold receive_frame. apply wp_bind, wp_gets. unfold is_handshake_complete. unfold phase_ok in Hp.
  destruct (handshake s) as [h|] eqn:Hh.
  - destruct Hp as (Hof & Hsc & Hrc & Ho). rewrite Hsc, Hrc, !bool_decide_false by (by intros []). cbn [andb]. apply wp_bind.
    unfold on_handshake. unfold wp at 1. rewrite Hh.
    pose proof (read_message_authenticates cfg m h Hof) as Hw. unfold wp in Hw. destruct (read_message m h) as [h' [[out res]|e| |]]; try done.
    destruct Hw as [Hof' Hres]. cbn beta iota. apply wp_bind.
    assert (running cfg os {| s with handshake := Some h' |}) as Hr1 by (by split).
    assert (∀ s', running cfg os s' → handshake s' = Some h' →
      wp (match res with Some r => complete_handshake r | None => mret tt end) (λ _, running cfg os) terminal s') as Hend.
    { intros s' Hr' Hh'. destruct res as [r|]; [|done]. destruct Hres as (Ha & Hns & Hnr). by eapply complete_handshake_running. }
    destruct out as [out|]; [|by apply wp_ret, Hend]. apply (push_frame_running cfg os); [done|]. intros s' Hr' _ Hh'. by apply Hend.
  - destruct Hp as (cs & cr & Hsc & Hrc & Hns & Hnr & Ho). rewrite Hsc, Hrc, !bool_decide_true by eauto. cbn [andb]. apply wp_bind.
    unfold on_receive_cipher. unfold wp at 1. rewrite Hrc.
    pose proof (proj2 (cipher_nonce [] m cr Hnr)) as Hw. unfold wp in Hw. destruct (decrypt_with_ad [] m cr) as [cr' [pt|e| |]]; try done.
    apply wp_modify. split; cbn; [|done..]. unfold phase_ok. cbn. rewrite Hh. exists cs, cr'. split_and!; [done..|].
    rewrite app_assoc. apply opened_app; [done|by repeat constructor].
Qed.

Lemma receive_loop_running cfg os fuel s :
  running cfg os s → zlen (unread (noise_decoder s)) ≤ Z.of_nat fuel → wp (receive_loop fuel) (λ _, running cfg os) terminal s.
Proof.
  revert s. induction fuel as [|fuel IH]; intros s Hr Hf; cbn [receive_loop]; apply wp_bind; unfold wp at 1;
    (destruct (next_frame_cases _ (ru_decoder _ _ _ Hr)) as [[_ ->]|(p & rest & d & _ & Hu & -> & Hd & Hrest & _)]; [by destruct s, Hr|]);
    rewrite Hu, zlen_app, zlen_framed in Hf; pose proof (zlen_nonneg p); pose proof (zlen_nonneg rest); [lia|].
  apply wp_bind. eapply wp_mono; [apply wp_run, (receive_frame_running cfg os)| |].
  - destruct Hr as [? ? ? ?]. by split.
  - intros [] s' [Hrun Hr']. apply IH; [done|].
    pose proof (blind_keeps _ {| s with noise_decoder := d |} (blind_receive_frame p)) as Hk. rewrite Hrun in Hk. cbn in Hk. rewrite Hk, Hrest. lia.
  - by intros e s' [].
Qed.

Lemma encrypt_segment_running cfg os m s :
  running cfg os s → handshake s = None →
  wp (encrypt_segment m) (λ _ s', running cfg os s' ∧ handshake s' = None) terminal s.
Proof.
  intros [Hp Hd Hs Hf] Hh. unfold encrypt_segment. apply wp_bind. unfold on_send_cipher. unfold wp at 1. unfold phase_ok in Hp. rewrite Hh in Hp.
  destruct Hp as (cs & cr & Hsc & Hrc & Hns & Hnr & Ho). rewrite Hsc.
  pose proof (proj1 (cipher_nonce [] m cs Hns)) as Hw. unfold wp in Hw. destruct (encrypt_with_ad [] m cs) as [cs' [ct|e| |]]; try done.
  apply (push_frame_running cfg os).
  - split; cbn; [|done..]. unfold phase_ok. cbn. rewrite Hh. by exists cs', cr.
  - intros s' Hr' _ Hh'. cbn in Hh'. by rewrite Hh'.
Qed.

(** Refusals that leave the session as it is. *)
Definition refused s (e : NoiseError) s' : Prop := is_terminal e = true ∨ s' = s.

Lemma noise_encrypt_running cfg os m s :
  running cfg os s → wp (noise_encrypt m) (λ _, running cfg os) (refused s) s.
Proof.
  intros Hr. destruct (handshake s) as [h|] eqn:Hh.
  - pose proof (ru_phase _ _ _ Hr) as Hp. unfold phase_ok in Hp. rewrite Hh in Hp. destruct Hp as (_ & Hsc & _).
    destruct m as [|b m]; unfold noise_encrypt, encrypt_segment; apply wp_bind; unfold wp, on_send_cipher; rewrite Hsc; by right.
  - apply (wp_mono _ (λ _ s', running cfg os s' ∧ handshake s' = None) _ terminal); [|naive_solver|by left].
    destruct m as [|b m]; unfold noise_encrypt; [by apply encrypt_segment_running|]. apply wp_bind.
    pose proof (ru_phase _ _ _ Hr) as Hp. unfold phase_ok in Hp. rewrite Hh in Hp. destruct Hp as (cs & cr & Hsc & _).
    unfold on_send_cipher. unfold wp at 1. rewrite Hsc. cbn beta iota. cbn [mret M_ret].
    replace ({| s with send_cipher := Some cs |}) with s by (destruct s; cbn in *; congruence).
    apply wp_for_each; [done|]. intros x s' _ [Hr' Hh']. by apply encrypt_segment_running.
Qed.

Lemma receive_running cfg os bs s :
  running cfg os s → fits s (NData bs) → wp (receive bs) (λ _, running cfg os) terminal s.
Proof.
  intros Hr Hfit. unfold receive. apply wp_bind, wp_gets. rewrite (ru_started _ _ _ Hr). cbn [negb].
  destruct (push_ok bs (noise_decoder s) (ru_decoder _ _ _ Hr) Hfit) as [Hd Hu].
  apply wp_bind, wp_modify, wp_bind, wp_gets, (receive_loop_running cfg os).
  - destruct Hr. by split.
  - cbn [noise_decoder]. set (d := noise_push bs _) in *. destruct Hd as [Ho _]. unfold unread. rewrite zlen_drop. unfold zlen in *. lia.
Qed.

Lemma noise_start_running cfg :
  wp noise_start (λ _, running cfg []) terminal (NoiseSession_new cfg).
Proof.
  unfold noise_start. apply wp_bind, wp_gets. cbn [noise_started NoiseSession_new]. apply wp_bind, wp_modify, wp_bind.
  set (s := {| (NoiseSession_new cfg) with noise_started := true |}).
  assert (running cfg [] s) as Hr by (split; [|by split; vm_compute|done|done]; by cbn).
  set (h := HandshakeState_new (nc_role cfg) (nc_identity cfg) (static_secret cfg) (ephemeral_secret cfg) (nc_expected_peer cfg)).
  unfold on_handshake. unfold wp at 1. change (handshake s) with (Some h). cbn beta iota. assert (hs_of cfg h) as Hh by done.
  assert (wp handshake_start (λ _, hs_of cfg) terminal h) as Hw.
  { unfold handshake_start. apply wp_bind, wp_gets. unfold h at 1. cbn [hs_step HandshakeState_new]. destruct (nc_role cfg); [|done].
    apply wp_bind, wp_gets. cbv zeta. apply wp_bind, (wp_symmetric cfg); [done..|]. intros _ h1 H1.
    apply wp_bind, (wp_symmetric cfg); [done..|]. intros _ h2 H2. apply wp_bind, wp_modify, wp_ret. by destruct H2; split. }
  unfold wp in Hw. destruct (handshake_start h) as [h' [out|e| |]]; try done.
  assert (running cfg [] {| s with handshake := Some h' |}) as Hr' by (destruct Hr; split; [|done..]; by cbn).
  destruct out as [out|]; [|done]. by apply (push_frame_running cfg []).
Qed.

Lemma running_pending cfg os s : running cfg os s → ordered cfg os.
Proof. intros Hr. apply (ordered_prefix _ _ (noise_pending s)), (phase_ordered _ _ s), Hr. Qed.

Lemma history_ordered cfg os s : history cfg os s → ordered cfg os.
Proof. intros [[_ ->]|[Hr|(_ & _ & Ho)]]; [by left|by eapply running_pending|done]. Qed.

(** Every input is answered; the session goes on, fails for good, or is as it
    was. *)
Lemma input_history cfg os s i :
  history cfg os s → fits s i →
  wp (noise_handle_input i) (λ _, running cfg os)
    (λ e s', history cfg os s' ∧ if is_terminal e then noise_failed s' = true ∧ noise_pending s' = [] else s' = s) s.
Proof.
  intros Hh Hi. unfold wp, noise_handle_input. destruct Hh as [[-> ->]|[Hr|(Hf & Hp & Ho)]].
  - assert (history cfg [] (NoiseSession_new cfg)) as H0 by (by left). cbn [noise_failed NoiseSession_new]. destruct i as [|bs|pt].
    + pose proof (noise_start_running cfg) as Hw. unfold wp, terminal in Hw. destruct (noise_start _) as [s' [a|e| |]]; try done.
      rewrite Hw. split; [right; right; cbn; split_and!; [done..|by left]|done].
    + done.
    + destruct pt; done.
  - rewrite (ru_failed _ _ _ Hr).
    assert (wp (match i with NStart => noise_start | NData bs => receive bs | NEncrypt pt => noise_encrypt pt end) (λ _, running cfg os) (refused s) s) as Hw.
    { destruct i as [|bs|pt].
      - unfold noise_start. apply wp_bind, wp_gets. rewrite (ru_started _ _ _ Hr). by right.
      - eapply wp_mono; [by apply (receive_running cfg os)|done|by left].
      - by apply noise_encrypt_running. }
    unfold wp in Hw. destruct (_ s) as [s' [a|e| |]]; try done. destruct (is_terminal e) eqn:He.
    + split; [|done]. right; right. cbn. split_and!; [done..|by eapply running_pending].
    + destruct Hw as [Hw| ->]; [by rewrite Hw in He|]. split; [by right; left|done].
  - rewrite Hf. split; [by right; right|]. done.
Qed.
Lemma poll_history cfg os s o s' : history cfg os s → noise_poll_output s = (s', Ok (Some o)) → history cfg (os ++ [o]) s'.
Proof.
  unfold noise_poll_output. intros Hh Hp. destruct (noise_pending s) as [|o' rest] eqn:Hrest; [done|]. injection Hp as <- <-.
  destruct Hh as [[-> _]|[[Hph Hd Hs Hf]|(_ & Hnil & _)]]; [done| |by rewrite Hrest in Hnil].
  right; left. split; cbn; [|done..]. rewrite Hrest in Hph. by rewrite <- app_assoc.
Qed.
Lemma trace_history cfg os s : trace fits (NoiseSession_new cfg) os s → history cfg os s.
Proof.
  induction 1 as [|os s i _ IH Ha|os s o s' _ IH Hp|os s s' _ IH Hp]; [by left| |by eapply poll_history|].
  - pose proof (input_history cfg os s i IH Ha) as Hw. unfold wp in Hw. cbn in *.
    by destruct (noise_handle_input i s) as [s' [a|e| |]]; [right; left|destruct Hw|..].
  - cbn in Hp. unfold noise_poll_output in Hp. destruct (noise_pending s); [|done]. by injection Hp as <-.
Qed.

(** C19: Whatever the peer sends, and in whatever pieces, a Noise session puts out
    nothing but handshake bytes until it reports the completed handshake; it
    reports it once, and only for a peer whose name is that of the key with
    which it signed the static key our ephemeral secret was combined with, and
    who is the peer that was asked for. Plaintext comes only after that. *)
Theorem noise_authenticates_first cfg os s :
  trace fits (NoiseSession_new cfg) os s → ordered cfg os.
Proof. intros Ht. by eapply history_ordered, trace_history. Qed.

(** In every state a driver can bring about, every input is answered without
    a panic and without an endless loop. An error that is not terminal leaves
    the session untouched; a terminal one discards all pending output, and from
    then on every input is refused and nothing is put out. *)
Theorem noise_fails_closed cfg os s i :
  trace fits (NoiseSession_new cfg) os s → fits s i →
  wp (handle_input i) (λ _ _, True)
    (λ e s', if is_terminal e
             then (∀ j, handle_input j s' = (s', Err NoiseFailed)) ∧ poll_output s' = (s', Ok None)
             else s' = s) s.
Proof.
  intros Ht Hi. eapply wp_mono; [by apply (input_history cfg os), Hi; apply trace_history|done|]. intros e s' [_ He]. cbn beta.
  destruct (is_terminal e); [|done]. destruct He as [Hf Hp]. split; [intros j|]; cbn; unfold noise_handle_input, noise_poll_output.
  - by rewrite Hf.
  - by rewrite Hp.
Qed.

Instance Noise_contract cfg : SansIoContract (λ s, ∃ os, history cfg os s) fits.
Proof using HashCratesSpec0.
  unshelve refine {| backlog s := length (noise_pending s) |}.
  - intros s i [os Hs] Hi. eapply wp_mono; [by apply (input_history cfg os)|intros ? s' Hr; exists os; by right; left|naive_solver].
  - intros s [os Hs]. cbn. unfold noise_is_idle. destruct (noise_poll_output s) as [s' r] eqn:Hp. pose proof Hp as Hp'.
    unfold noise_poll_output in Hp'. destruct (noise_pending s) as [|o rest] eqn:Hrest; injection Hp' as <- <-.
    + exists None, s. split_and!; [done|by exists os|by rewrite bool_decide_true|done].
    + eexists (Some o), _. split; [reflexivity|]. split; [exists (os ++ [o]); by eapply poll_history|]. cbn. split; [done|lia].
Defined.
End Safety.
#[export] Existing Instance Noise_contract.
