(* ===== verification/NoiseChannel.v ===== *)
(** Two Noise sessions joined by byte streams that cut frames anywhere: the
    handshake of two honest parties ends in agreement, and what one side
    encrypts the other decrypts, in order and complete. *)

From Stdlib Require Import Strings.Byte.
From S2P Require Import Prelude Varint Proto SansIo Base58 PeerIdentity Multiaddr Keys Noise NoiseHandshake NoiseFrames NoiseSafety.

Section Channel.
Context `{NC : NoiseCrates} `{!NoiseCratesSpec} `{SC : SigningCrate} `{!SigningSpec}.
Context `{HC : HashCrates Multihash} `{!HashCratesSpec Multihash} `{!EqDecision Multihash}.
Abbreviation PeerId := (PeerIdentity.PeerId (Multihash := Multihash)).
Abbreviation NoiseConfig := (Noise.NoiseConfig (Multihash := Multihash)).
Abbreviation NoiseSession := (Noise.NoiseSession (Multihash := Multihash)).
Abbreviation NoiseOutput := (Noise.NoiseOutput (Multihash := Multihash)).
Abbreviation HandshakeState := (Noise.HandshakeState (Multihash := Multihash)).
Abbreviation HandshakeResult := (Noise.HandshakeResult (Multihash := Multihash)).
Abbreviation N := (M NoiseSession NoiseError).
Implicit Types (s : NoiseSession) (os : list NoiseOutput).

(** One turn of a driver: offer the inputs, then take every output. *)
Definition noise_drain : N (list NoiseOutput) := λ s, drain (S (length (noise_pending s))) s.
Definition noise_turn (inputs : list NoiseInput) : N (list NoiseOutput) :=
  _ ← handle_inputs inputs; noise_drain.

Definition with_pending os s : NoiseSession := {| s with noise_pending := os |}.

Lemma drain_pending n os s :
  (length os < n)%nat → noise_pending s = os → drain n s = (with_pending [] s, Ok os).
Proof.
  revert n s. induction os as [|o os IH]; intros n s Hn Hp; (destruct n as [|n]; [cbn in Hn; lia|]); cbn [drain].
  - rewrite (run_ok _ _ s s None); [destruct s; cbn in *; by subst|]. cbn. unfold noise_poll_output. by rewrite Hp.
  - rewrite (run_ok _ _ s (with_pending os s) (Some o)); [|cbn; unfold noise_poll_output; by rewrite Hp].
    rewrite (run_ok _ _ _ (with_pending [] s) os); [done|]. by apply (IH n (with_pending os s)); [cbn in Hn; lia|].
Qed.
Lemma turn_ok inputs s s' : handle_inputs inputs s = (s', Ok tt) → noise_turn inputs s = (with_pending [] s', Ok (noise_pending s')).
Proof. intros Hh. unfold noise_turn. rewrite (run_ok _ _ _ _ _ Hh). apply drain_pending; [lia|done]. Qed.

(** ** The frames of a stream of messages *)

Lemma parsed_frames fs : Forall small fs → parsed (concat (framed <$> fs)) fs [].
Proof. intros Hs. split; [by rewrite app_nil_r|done|apply incomplete_nil]. Qed.
Lemma encode_frame_small p : small p → noise_encode_frame p = Ok (framed p).
Proof. intros Hp. unfold noise_encode_frame. by destruct (Z.leb_spec (zlen p) u16_max); [|unfold small in Hp; lia]. Qed.

(** A session between turns: nothing buffered, nothing pending. *)
Record quiet s : Prop := {
  qu_decoder : noise_decoder s = FrameDecoder_new;
  qu_pending : noise_pending s = [];
  qu_started : noise_started s = true;
  qu_failed : noise_failed s = false;
}.

(** A turn that delivers whole frames, in any pieces. *)
Lemma turn_frames cs fs s s' :
  quiet s → concat cs = concat (framed <$> fs) → zlen (concat cs) ≤ usize_max → Forall small fs →
  for_each receive_frame fs s = (s', Ok tt) →
  noise_turn (NData <$> cs) s = (with_pending [] s', Ok (noise_pending s')) ∧ quiet (with_pending [] s').
Proof.
  intros [Hd Hp Hst Hf] Hc Hl Hs Hrun. destruct (receive_chunks cs s fs [] s') as (d & Hin & Hok & Hu); rewrite ?Hd; try done.
  - apply incomplete_nil.
  - cbn [unread nd_buffer FrameDecoder_new nd_offset drop app]. rewrite Hc. by apply parsed_frames.
  - apply unread_nil in Hu as ->; [|done]. pose proof (blind_for_each _ fs blind_receive_frame) as Hb.
    pose proof (blind_keeps _ s Hb) as Hk. pose proof (bl_started _ Hb s) as H1. pose proof (bl_failed _ Hb s) as H2.
    rewrite Hrun in Hk, H1, H2. cbn in Hk, H1, H2. rewrite Hd in Hk. rewrite <- Hk, with_decoder_same in Hin.
    split; [by apply turn_ok|]. split; cbn; congruence.
Qed.

(** ** The handshake *)

Definition party_of (c : NoiseConfig) : party := mkParty (nc_identity c) (static_secret c) (ephemeral_secret c) (nc_expected_peer c).

(** A session that is still shaking hands. *)
Definition opening_session h s : Prop := handshake s = Some h ∧ send_cipher s = None ∧ receive_cipher s = None ∧ quiet s.

Definition out_frame (out : option bytes) : list NoiseOutput := match out with Some m => [NOutbound (framed m)] | None => [] end.
Definition out_complete (res : option HandshakeResult) : list NoiseOutput :=
  match res with Some r => [NHandshakeComplete (hr_peer r) (hr_identity_key r)] | None => [] end.
Definition small_opt (out : option bytes) : Prop := match out with Some m => small m | None => True end.

(** The state a handshake message leads to. *)
Definition after_message h' (res : option HandshakeResult) s : NoiseSession :=
  match res with
  | None => {| s with handshake := Some h' |}
  | Some r => {| s with handshake := None; send_cipher := Some (hr_send r); receive_cipher := Some (hr_receive r) |}
  end.

Lemma receive_handshake m h h' out res s :
  handshake s = Some h → send_cipher s = None → receive_cipher s = None → read_message m h = (h', Ok (out, res)) → small_opt out →
  receive_frame m s = (with_pending (noise_pending s ++ out_frame out ++ out_complete res) (after_message h' res s), Ok tt).
Proof.
  intros Hh Hs Hr Hm Ho. unfold receive_frame. rewrite run_gets. unfold is_handshake_complete.
  rewrite Hs, Hr, !bool_decide_false by (by intros []). cbn [andb]. rewrite (run_ok _ _ _ {| s with handshake := Some h' |} (out, res)); cycle 1.
  { unfold on_handshake. by rewrite Hh, Hm. }
  assert ((match out with Some m => push_frame m | None => mret tt end) {| s with handshake := Some h' |} =
    (with_pending (noise_pending s ++ out_frame out) {| s with handshake := Some h' |}, Ok tt)) as Hout.
  { destruct out as [o|]; cbn [out_frame]; [|by rewrite app_nil_r]. unfold push_frame. by rewrite run_lift, encode_frame_small. }
  rewrite (run_ok _ _ _ _ _ Hout), app_assoc. destruct res as [r|]; cbn [out_complete after_message]; [done|]. by rewrite app_nil_r.
Qed.

(** A turn with one handshake message in any pieces. *)
Lemma turn_message cs m h h' out res s :
  opening_session h s → concat cs = framed m → small m → read_message m h = (h', Ok (out, res)) → small_opt out →
  noise_turn (NData <$> cs) s = (after_message h' res s, Ok (out_frame out ++ out_complete res)) ∧ quiet (after_message h' res s).
Proof.
  intros Hs Hc Hm Hr Ho. pose proof Hs as (_ & _ & _ & Hq). pose proof Hs as (Hh & Hsc & Hrc & _).
  pose proof (receive_handshake m h h' out res s Hh Hsc Hrc Hr Ho) as Hf. rewrite (qu_pending _ Hq) in Hf. cbn [app] in Hf.
  destruct (turn_frames cs [m] s (with_pending (out_frame out ++ out_complete res) (after_message h' res s))) as [Ht Hq']; [done|..].
  - rewrite fmap_cons, concat_cons. cbn. by rewrite app_nil_r.
  - rewrite Hc, zlen_framed. unfold small, u16_max, usize_max, u64_max in *. lia.
  - by constructor.
  - cbn [for_each]. by rewrite (run_ok _ _ _ _ _ Hf).
  - assert (with_pending [] (with_pending (out_frame out ++ out_complete res) (after_message h' res s)) = after_message h' res s) as Heq.
    { destruct Hq as [_ Hp _ _]. destruct s, res; cbn in *; by subst. }
    rewrite Heq in Ht, Hq'. done.
Qed.

(** Sessions that hold the same keys, one for each direction. *)
Record paired (a b : NoiseSession) (n m : Z) : Prop := {
  pd_keys : ∃ k l, zlen k = 32 ∧ zlen l = 32 ∧
    send_cipher a = Some (mkCipher (Some k) n) ∧ receive_cipher b = Some (mkCipher (Some k) n) ∧
    send_cipher b = Some (mkCipher (Some l) m) ∧ receive_cipher a = Some (mkCipher (Some l) m);
  pd_left : quiet a;
  pd_right : quiet b;
}.

Lemma start_input c h out :
  handshake_start (new_party (nc_role c) (party_of c)) = (h, Ok out) → small_opt out →
  noise_handle_input NStart (NoiseSession_new c) = (with_pending (out_frame out) (mkNoise (Some h) None None FrameDecoder_new [] true false), Ok tt).
Proof.
  intros Hs Ho. set (s := mkNoise (Some h) None None FrameDecoder_new [] true false).
  unfold noise_handle_input. cbn [noise_failed NoiseSession_new]. unfold noise_start. rewrite run_gets. cbn [noise_started NoiseSession_new].
  rewrite run_modify. rewrite (run_ok _ _ _ s out); cycle 1.
  { unfold on_handshake. cbn [handshake NoiseSession_new].
    change (HandshakeState_new _ _ _ _ _) with (new_party (nc_role c) (party_of c)). by rewrite Hs. }
  destruct out as [out|]; [|done]. unfold push_frame. by rewrite run_lift, encode_frame_small.
Qed.
Lemma start_turn c h out :
  handshake_start (new_party (nc_role c) (party_of c)) = (h, Ok out) → small_opt out →
  ∃ s, noise_turn [NStart] (NoiseSession_new c) = (s, Ok (out_frame out)) ∧ opening_session h s.
Proof.
  intros Hs Ho. set (s := mkNoise (Some h) None None FrameDecoder_new [] true false). exists s. split; [|by split_and!].
  assert (handle_inputs [NStart] (NoiseSession_new c) = (with_pending (out_frame out) s, Ok tt)) as Hin; [|by apply turn_ok in Hin].
  cbn [handle_inputs]. by rewrite (run_ok _ _ _ _ _ (start_input c h out Hs Ho)).
Qed.

(** C20: Two honest parties, each of which expects the other or nobody in
    particular, complete the handshake whatever pieces their streams are cut
    into: each side reports the other's name and key exactly once, and the two
    sessions end with the same two keys, one for each direction. *)
Theorem noise_handshake_agrees (cI cR : NoiseConfig) nameI nameR :
  nc_role cI = NInitiator → nc_role cR = NResponder →
  honest (party_of cI) nameI → honest (party_of cR) nameR →
  contributory (ephemeral_secret cI) (ephemeral_secret cR) → contributory (ephemeral_secret cI) (static_secret cR) →
  contributory (static_secret cI) (ephemeral_secret cR) →
  (match nc_expected_peer cI with Some q => q = nameR | None => True end) →
  (match nc_expected_peer cR with Some q => q = nameI | None => True end) →
  ∃ sI sR w1, noise_turn [NStart] (NoiseSession_new cI) = (sI, Ok [NOutbound w1]) ∧
    noise_turn [NStart] (NoiseSession_new cR) = (sR, Ok []) ∧
    ∀ cut1, concat cut1 = w1 →
  ∃ sR1 w2, noise_turn (NData <$> cut1) sR = (sR1, Ok [NOutbound w2]) ∧
    ∀ cut2, concat cut2 = w2 →
  ∃ sI1 w3, noise_turn (NData <$> cut2) sI = (sI1, Ok [NOutbound w3; NHandshakeComplete nameR (keypair_public_key (nc_identity cR))]) ∧
    ∀ cut3, concat cut3 = w3 →
  ∃ sR2, noise_turn (NData <$> cut3) sR1 = (sR2, Ok [NHandshakeComplete nameI (keypair_public_key (nc_identity cI))]) ∧
    paired sI1 sR2 0 0.
Proof.
  intros RI RR HI HR Cee Ces Cse XI XR.
  destruct (handshake_run (party_of cI) (party_of cR) nameI nameR HI HR Cee Ces Cse XI XR)
    as (m1 & m2 & m3 & h1 & h2 & h3 & h4 & k1 & k2 & L1 & L2 & L3 & Lk1 & Lk2 & S1 & S2 & D1 & D2 & D3).
  destruct (start_turn cI h1 (Some m1)) as (sI & TI & OI); [by rewrite RI|done|].
  destruct (start_turn cR (new_party NResponder (party_of cR)) None) as (sR & TR & OR); [by rewrite RR|done|].
  exists sI, sR, (framed m1). split; [done|]. split; [done|]. intros cut1 Hc1.
  destruct (turn_message cut1 m1 _ h2 (Some m2) None sR OR Hc1 L1 D1 L2) as [T1 Q1].
  eexists _, (framed m2). split; [exact T1|]. intros cut2 Hc2.
  destruct (turn_message cut2 m2 h1 h3 (Some m3) _ sI OI Hc2 L2 D2 L3) as [T2 Q2].
  eexists _, (framed m3). split; [exact T2|]. intros cut3 Hc3.
  assert (opening_session h2 (after_message h2 None sR)) as O2 by (destruct OR as (? & ? & ? & ?); by split_and!).
  destruct (turn_message cut3 m3 h2 h4 None _ _ O2 Hc3 L3 D3 I) as [T3 Q3].
  eexists. split; [exact T3|]. split; [|done|done]. by exists k1, k2.
Qed.

(** ** Messages after the handshake *)

Definition segment_length : nat := Z.to_nat MAX_TRANSPORT_PLAINTEXT.
(** The pieces a plaintext is encrypted in. *)
Definition segments (m : bytes) : list bytes :=
  match m with [] => [[]] | _ => chunks (length m) segment_length m end.
Definition fits_segment (x : bytes) : Prop := zlen x ≤ MAX_TRANSPORT_PLAINTEXT.

Lemma chunks_ok fuel l :
  (length l ≤ fuel)%nat → concat (chunks fuel segment_length l) = l ∧ Forall fits_segment (chunks fuel segment_length l).
Proof.
  assert (0 < segment_length)%nat as Hk by (unfold segment_length, MAX_TRANSPORT_PLAINTEXT, MAX_FRAME_LEN, u16_max; lia).
  revert l. induction fuel as [|fuel IH]; intros [|b l] Hl; cbn [chunks]; try done; [cbn in Hl; lia|].
  destruct (IH (drop segment_length (b :: l))) as [Hc Hf]; [rewrite length_drop; cbn [length] in *; lia|].
  split; [rewrite concat_cons, Hc; apply take_drop|]. constructor; [|done].
  unfold fits_segment, zlen. rewrite length_take. unfold segment_length, MAX_TRANSPORT_PLAINTEXT, MAX_FRAME_LEN, u16_max. lia.
Qed.
Lemma segments_ok m : concat (segments m) = m ∧ Forall fits_segment (segments m).
Proof.
  destruct m as [|b m]; [|by apply chunks_ok]. split; [done|]. constructor; [by vm_compute|done].
Qed.

Definition advance_send (k : bytes) n (os : list NoiseOutput) s : NoiseSession :=
  {| s with send_cipher := Some (mkCipher (Some k) n); noise_pending := noise_pending s ++ os |}.
Definition advance_receive (k : bytes) n (os : list NoiseOutput) s : NoiseSession :=
  {| s with receive_cipher := Some (mkCipher (Some k) n); noise_pending := noise_pending s ++ os |}.

Lemma advance_same k n s : send_cipher s = Some (mkCipher (Some k) n) → advance_send k n [] s = s.
Proof. destruct s. cbn. intros ->. unfold advance_send. cbn. by rewrite app_nil_r. Qed.
Lemma advance_receive_same k n s : receive_cipher s = Some (mkCipher (Some k) n) → advance_receive k n [] s = s.
Proof. destruct s. cbn. intros ->. unfold advance_receive. cbn. by rewrite app_nil_r. Qed.
Lemma advance_trans k n n' os os' s : advance_send k n' os' (advance_send k n os s) = advance_send k n' (os ++ os') s.
Proof. unfold advance_send. cbn. by rewrite app_assoc. Qed.
Lemma advance_receive_trans k n n' os os' s : advance_receive k n' os' (advance_receive k n os s) = advance_receive k n' (os ++ os') s.
Proof. unfold advance_receive. cbn. by rewrite app_assoc. Qed.

(** One segment: encrypted here, decrypted there. *)
Lemma segment_step k n x :
  zlen k = 32 → 0 ≤ n < u64_max → fits_segment x →
  ∃ c, small c ∧
    (∀ s, send_cipher s = Some (mkCipher (Some k) n) → encrypt_segment x s = (advance_send k (n + 1) [NOutbound (framed c)] s, Ok tt)) ∧
    (∀ s, receive_cipher s = Some (mkCipher (Some k) n) → is_Some (send_cipher s) →
      receive_frame c s = (advance_receive k (n + 1) [NDecrypted x] s, Ok tt)).
Proof.
  intros Hk Hn Hx. unfold fits_segment, MAX_TRANSPORT_PLAINTEXT, MAX_FRAME_LEN in Hx.
  destruct (cipher_step k n [] x Hk Hn ltac:(lia)) as (c & Hc & He & Hd). exists c. assert (small c) as Hs by (unfold small; lia).
  split; [done|]. split.
  - intros s Hsc. unfold encrypt_segment. rewrite (run_ok _ _ _ {| s with send_cipher := Some (mkCipher (Some k) (n + 1)) |} c); cycle 1.
    { unfold on_send_cipher. by rewrite Hsc, He. }
    unfold push_frame. by rewrite run_lift, encode_frame_small.
  - intros s Hrc Hsc. unfold receive_frame. rewrite run_gets. unfold is_handshake_complete. rewrite Hrc, !bool_decide_true by eauto. cbn [andb].
    rewrite (run_ok _ _ _ {| s with receive_cipher := Some (mkCipher (Some k) (n + 1)) |} x); [done|].
    unfold on_receive_cipher. by rewrite Hrc, Hd.
Qed.

Lemma segments_step k n xs :
  zlen k = 32 → 0 ≤ n → n + zlen xs ≤ u64_max → Forall fits_segment xs →
  ∃ cs, Forall small cs ∧
    (∀ s, send_cipher s = Some (mkCipher (Some k) n) →
      for_each encrypt_segment xs s = (advance_send k (n + zlen xs) ((λ c, NOutbound (framed c)) <$> cs) s, Ok tt)) ∧
    (∀ s, receive_cipher s = Some (mkCipher (Some k) n) → is_Some (send_cipher s) →
      for_each receive_frame cs s = (advance_receive k (n + zlen xs) (NDecrypted <$> xs) s, Ok tt)).
Proof.
  intros Hk. revert n. induction xs as [|x xs IH]; intros n Hn Hl Hf.
  - exists []. rewrite zlen_nil, Z.add_0_r. split; [done|]. split; intros s Hs; [by rewrite advance_same|intros _; by rewrite advance_receive_same].
  - rewrite zlen_cons in *. pose proof (zlen_nonneg xs). apply Forall_cons in Hf as [Hx Hf].
    destruct (segment_step k n x Hk ltac:(lia) Hx) as (c & Hc & He & Hd). destruct (IH (n + 1) ltac:(lia) ltac:(lia) Hf) as (cs & Hcs & Hes & Hds).
    exists (c :: cs). replace (n + (zlen xs + 1)) with (n + 1 + zlen xs) by lia. split; [by constructor|]. split.
    + intros s Hs. cbn [for_each]. rewrite (run_ok _ _ _ _ _ (He s Hs)). etrans; [by apply Hes|]. by rewrite advance_trans.
    + intros s Hs Hsc. cbn [for_each]. rewrite (run_ok _ _ _ _ _ (Hd s Hs Hsc)). etrans; [by apply Hds|]. by rewrite advance_receive_trans.
Qed.

(** Encrypting a message is encrypting its segments. *)
Lemma noise_encrypt_segments m s :
  is_Some (send_cipher s) → noise_encrypt m s = for_each encrypt_segment (segments m) s.
Proof.
  intros [c Hc]. destruct m as [|b m]; cbn [noise_encrypt segments].
  - cbn [for_each]. unfold mbind, M_bind. by destruct (encrypt_segment [] s) as [s' [[]|e| |]].
  - rewrite (run_ok _ _ s s tt); [done|]. unfold on_send_cipher. rewrite Hc. destruct s; cbn in *. by subst.
Qed.
Lemma encrypt_inputs ms k n s :
  zlen k = 32 → 0 ≤ n → n + zlen (concat (segments <$> ms)) ≤ u64_max →
  noise_failed s = false → send_cipher s = Some (mkCipher (Some k) n) →
  handle_inputs (NEncrypt <$> ms) s = for_each encrypt_segment (concat (segments <$> ms)) s.
Proof.
  intros Hk. revert n s. induction ms as [|m ms IH]; intros n s Hn Hl Hf Hs; [done|].
  rewrite fmap_cons, concat_cons, zlen_app in Hl. rewrite !fmap_cons, concat_cons, for_each_app. cbn [handle_inputs].
  pose proof (zlen_nonneg (segments m)). pose proof (zlen_nonneg (concat (segments <$> ms))). destruct (segments_ok m) as [_ Hseg].
  destruct (segments_step k n (segments m) Hk Hn ltac:(lia) Hseg) as (cs & _ & He & _). specialize (He s Hs).
  set (s1 := advance_send _ _ _ _) in He. rewrite (run_ok _ _ _ _ _ He). rewrite (run_ok _ _ _ s1 tt).
  - apply (IH (n + zlen (segments m))); [lia|lia|done|done].
  - cbn [handle_input Noise_protocol]. unfold noise_handle_input. rewrite Hf, noise_encrypt_segments by eauto. by rewrite He.
Qed.

Lemma paired_sym a b n m : paired a b n m → paired b a m n.
Proof. intros [(k & l & ? & ? & ? & ? & ? & ?) ? ?]. split; [by exists l, k|done|done]. Qed.

Lemma concat_segments ms : concat (concat (segments <$> ms)) = concat ms.
Proof. induction ms as [|m ms IH]; [done|]. rewrite fmap_cons, !concat_cons, concat_app, IH. by rewrite (proj1 (segments_ok m)). Qed.
Lemma fits_segments ms : Forall fits_segment (concat (segments <$> ms)).
Proof. induction ms as [|m ms IH]; [done|]. rewrite fmap_cons, concat_cons. by apply Forall_app; split; [apply segments_ok|]. Qed.

(** C21: After a handshake, what one side encrypts the other decrypts: the frames
    put out for any messages, cut into any pieces, come out as the same bytes in
    the same order, in segments of at most 65,519 bytes, as long as there are
    nonces for them; and the two sessions are ready for more. *)
Theorem noise_delivers a b n m ms :
  paired a b n m → 0 ≤ n → n + zlen (concat (segments <$> ms)) ≤ u64_max →
  ∃ a' frames, noise_turn (NEncrypt <$> ms) a = (a', Ok (NOutbound <$> frames)) ∧
    ∀ cuts, concat cuts = concat frames → zlen (concat cuts) ≤ usize_max →
    ∃ b' ds, noise_turn (NData <$> cuts) b = (b', Ok (NDecrypted <$> ds)) ∧
      concat ds = concat ms ∧ Forall fits_segment ds ∧ paired a' b' (n + zlen ds) m.
Proof.
  intros [(k & l & Hk & Hlk & Hsa & Hrb & Hsb & Hra) Ha Hb] Hn Hl. set (xs := concat (segments <$> ms)) in *.
  destruct (segments_step k n xs Hk Hn Hl (fits_segments ms)) as (cs & Hcs & He & Hd).
  exists (with_pending [] (advance_send k (n + zlen xs) [] a)), (framed <$> cs). split.
  - rewrite (turn_ok _ a (advance_send k (n + zlen xs) ((λ c, NOutbound (framed c)) <$> cs) a)).
    + unfold advance_send. cbn. rewrite (qu_pending _ Ha). cbn. by rewrite <- list_fmap_compose.
    + rewrite (encrypt_inputs ms k n); [by apply He|done|done|done|apply Ha|done].
  - intros cuts Hc Hz. destruct (turn_frames cuts cs b _ Hb Hc Hz Hcs (Hd b Hrb ltac:(by rewrite Hsb))) as [Ht Hq].
    eexists _, xs. split; [rewrite Ht; unfold advance_receive; cbn; by rewrite (qu_pending _ Hb)|].
    split; [apply concat_segments|]. split; [apply fits_segments|]. split; [by exists k, l|by destruct Ha; split|done].
Qed.
End Channel.

(** ** Two parties *)

#[local] Existing Instance demo_crates.
#[local] Existing Instance demo_crates_spec.
#[local] Existing Instance demo_noise.
#[local] Existing Instance demo_noise_spec.
#[local] Existing Instance demo_signing.
#[local] Existing Instance demo_signing_spec.
Definition demo_identity (b : byte) : Ed25519Keypair := from_secret_key_bytes (replicate 32 b).
Definition demo_name (b : byte) : PeerId (Multihash := Z * bytes) := mkPeerId (0, encode_protobuf (keypair_public_key (demo_identity b))).
Definition demo_noise_config (role : NoiseRole) (b : byte) (expected : option (PeerId (Multihash := Z * bytes))) : NoiseConfig :=
  mkNoiseConfig role (demo_identity b) (replicate 31 b ++ [x05]) (replicate 31 b ++ [x06]) expected.
Definition demo_initiator : NoiseConfig := demo_noise_config NInitiator x01 (Some (demo_name x02)).
Definition demo_responder : NoiseConfig := demo_noise_config NResponder x02 None.

Lemma demo_honest role b expected : honest (party_of (demo_noise_config role b expected)) (demo_name b).
Proof. split; [by split|reflexivity|done|done]. Qed.

(** The whole wire in one piece. *)
Lemma concat_one (w : bytes) : concat [w] = w.
Proof. cbn. by rewrite app_nil_r. Qed.

Lemma noise_handshake_agrees_witness :
  ∃ sI sR sR1 sI1 sR2 w1 w2 w3,
    noise_turn [NStart] (NoiseSession_new demo_initiator) = (sI, Ok [NOutbound w1]) ∧
    noise_turn [NStart] (NoiseSession_new demo_responder) = (sR, Ok []) ∧
    noise_turn [NData w1] sR = (sR1, Ok [NOutbound w2]) ∧
    noise_turn [NData (take 9 w2); NData (drop 9 w2)] sI =
      (sI1, Ok [NOutbound w3; NHandshakeComplete (demo_name x02) (keypair_public_key (demo_identity x02))]) ∧
    noise_turn [NData w3] sR1 = (sR2, Ok [NHandshakeComplete (demo_name x01) (keypair_public_key (demo_identity x01))]) ∧
    paired sI1 sR2 0 0.
Proof.
  destruct (noise_handshake_agrees demo_initiator demo_responder (demo_name x01) (demo_name x02)) as (sI & sR & w1 & HI & HR & H1);
    [done|done|apply demo_honest|apply demo_honest|by vm_compute|by vm_compute|by vm_compute|done|done|].
  destruct (H1 [w1] (concat_one w1)) as (sR1 & w2 & HR1 & H2).
  destruct (H2 [take 9 w2; drop 9 w2]) as (sI1 & w3 & HI1 & H3); [cbn [concat]; by rewrite app_nil_r, take_drop|].
  destruct (H3 [w3] (concat_one w3)) as (sR2 & HR2 & Hp). by exists sI, sR, sR1, sI1, sR2, w1, w2, w3.
Defined.

(** A pair of sessions as a handshake leaves them. *)
Definition demo_session (send receive : byte) : NoiseSession (Multihash := Z * bytes) :=
  mkNoise None (Some (mkCipher (Some (replicate 32 send)) 0)) (Some (mkCipher (Some (replicate 32 receive)) 0)) FrameDecoder_new [] true false.

Lemma noise_delivers_witness :
  ∃ a frames b ds, noise_turn [NEncrypt (str "hello"); NEncrypt []] (demo_session x01 x02) = (a, Ok (NOutbound <$> frames)) ∧
    noise_turn [NData (concat frames)] (demo_session x02 x01) = (b, Ok (NDecrypted <$> ds)) ∧ concat ds = str "hello".
Proof.
  destruct (noise_delivers (demo_session x01 x02) (demo_session x02 x01) 0 0 [str "hello"; []]) as (a & frames & Ha & Hd).
  - split; [by exists (replicate 32 x01), (replicate 32 x02)|done|done].
  - done.
  - by vm_compute.
  - destruct (Hd [concat frames] (concat_one _)) as (b & ds & Hb & Hds & _).
    + rewrite concat_one. assert (∃ f g, frames = [f; g] ∧ zlen f = 23 ∧ zlen g = 18) as (f & g & -> & Hf & Hg); cycle 1.
      { cbn [concat]. rewrite app_nil_r, zlen_app, Hf, Hg. by vm_compute. }
      vm_compute in Ha. destruct frames as [|f [|g [|]]]; try done. injection Ha as _ <- <-. eexists _, _. split; [reflexivity|]. by vm_compute.
    + by exists a, frames, b, ds.
Defined.

Lemma noise_authenticates_first_witness :
  let s := (handle_input NStart (NoiseSession_new demo_initiator)).1 in
  ∃ o s', poll_output s = (s', Ok (Some o)) ∧ ordered demo_initiator [o].
Proof.
  intros s. destruct (poll_output s) as [s' [[o|]|e| |]] eqn:Hp; [|by vm_compute in Hp..].
  exists o, s'. split; [done|]. apply (noise_authenticates_first demo_initiator [o] s').
  change [o] with ([] ++ [o]). eapply trace_poll; [|exact Hp]. apply trace_input; [apply trace_start|done].
Defined.

Lemma noise_fails_closed_witness :
  wp (handle_input (NData [])) (λ _ _, True)
    (λ e s', if is_terminal e then (∀ j, handle_input j s' = (s', Err NoiseFailed)) ∧ poll_output s' = (s', Ok None)
             else s' = NoiseSession_new demo_initiator) (NoiseSession_new demo_initiator).
Proof. apply (noise_fails_closed demo_initiator []); [apply trace_start|by vm_compute]. Defined.
