(* ===== verification/SecureMux.v ===== *)
(** The upgrade of an ordered byte stream to an authenticated, multiplexed
    session, from [crates/secure-mux/src/session.rs]: multistream-select, Noise,
    multistream-select again inside Noise, then yamux. *)

From Stdlib Require Import Strings.Byte.
From S2P Require Import Prelude Varint Deadline SansIo YamuxFrame YamuxSession YamuxStream YamuxInvariant Yamux Multistream Base58 PeerIdentity Keys Noise.

Definition NOISE_PROTOCOL_ID : bytes := str "/noise".
Definition YAMUX_PROTOCOL_ID : bytes := str "/yamux/1.0.0".

Inductive SessionRole := SInitiator | SResponder.
#[global] Instance SessionRole_eq_dec : EqDecision SessionRole.
Proof. solve_decision. Defined.

(** The text of a protocol failure: a fixed message, or a prefix and the error
    that is formatted after it. *)
Inductive Reason :=
  | Text (message : bytes)
  | MultistreamFailed (prefix : bytes) (e : MultistreamError)
  | RemoteError (prefix reason : bytes)
  | NoiseFault (prefix : bytes) (e : NoiseError)
  | YamuxFault (prefix : bytes) (e : YamuxError).

Inductive SessionError :=
  | Protocol (r : Reason)
  | NotEstablished
  | SUnknownStream (stream : Z)
  | GoAway (code : Z)
  | SYamux (e : YamuxError).

Section SecureMux.
Context `{NoiseCrates} `{SigningCrate} `{HashCrates Multihash} `{!EqDecision Multihash}.
Abbreviation PeerId := (PeerIdentity.PeerId (Multihash := Multihash)).
Abbreviation NoiseSession := (Noise.NoiseSession (Multihash := Multihash)).
Abbreviation NoiseOutput := (Noise.NoiseOutput (Multihash := Multihash)).

Record SessionConfig := mkSessionConfig {
  sc_role : SessionRole;
  sc_identity : Ed25519Keypair;
  sc_static_secret : bytes;
  sc_ephemeral_secret : bytes;
  sc_expected_peer : option PeerId;
  sc_yamux : YamuxConfig;
}.

Inductive SessionOutput :=
  | Write (bs : bytes)
  | Established (peer : PeerId)
  | SIncomingStream (stream : Z)
  | SStreamData (stream : Z) (data : bytes)
  | SRemoteWriteClosed (stream : Z)
  | SStreamClosed (stream : Z).

Inductive Phase :=
  | SelectNoise (select : MultistreamSelect) (noise : option NoiseSession)
  | PNoise (noise : NoiseSession)
  | SelectYamux (noise : NoiseSession) (select : MultistreamSelect) (peer : PeerId)
  | Ready (noise : NoiseSession) (yamux : YamuxSession) (peer : PeerId).

Record SecureMuxSession := mkMux {
  mux_role : SessionRole;
  mux_yamux_config : YamuxConfig;
  mux_phase : option Phase;
  mux_outputs : list SessionOutput;
}.
Abbreviation X := (M SecureMuxSession SessionError).

Definition noise_role (r : SessionRole) : NoiseRole := match r with SInitiator => NInitiator | SResponder => NResponder end.
Definition select_for (r : SessionRole) (protocol : bytes) : MultistreamSelect :=
  match r with SInitiator => dialer protocol | SResponder => listener [protocol] end.
Definition noise_config (c : SessionConfig) : NoiseConfig :=
  mkNoiseConfig (noise_role (sc_role c)) (sc_identity c) (sc_static_secret c) (sc_ephemeral_secret c) (sc_expected_peer c).

Definition SecureMuxSession_new (c : SessionConfig) : SecureMuxSession :=
  {| mux_role := sc_role c; mux_yamux_config := sc_yamux c;
     mux_phase := Some (SelectNoise (select_for (sc_role c) NOISE_PROTOCOL_ID) (Some (NoiseSession_new (noise_config c))));
     mux_outputs := [] |}.

(** ** Calls on the machines inside *)

Definition fault (message : bytes) : SessionError := Protocol (Text message).

(** A call on a machine that is held by value; a panic of it is a panic here. *)
Definition call {T E A} (m : M T E A) (t : T) : X (T * (A + E)) := λ s,
  match m t with
  | (t', Ok a) => (s, Ok (t', inl a))
  | (t', Err e) => (s, Ok (t', inr e))
  | (_, Panic) => (s, Panic)
  | (_, Diverge) => (s, Diverge)
  end.
(** [call(..).map_err(..)?]: the machine is dropped when it fails. *)
Definition call_or {T E A} (wrap : E → Reason) (m : M T E A) (t : T) : X (T * A) :=
  '(t', r) ← call m t;
  match r with inl a => mret (t', a) | inr e => throw (Protocol (wrap e)) end.

(** [while let Some(output) = machine.poll_output()], with what the loop carries
    along. [poll_output] has no error in the code. *)
Fixpoint while_output {T I O E A} `{!SansIoProtocol T I O E} (fuel : nat) (body : O → A → X A) (acc : A) (t : T) : X (T * A) :=
  '(t', r) ← call SansIo.poll_output t;
  match r with
  | inr _ => lift Panic
  | inl None => mret (t', acc)
  | inl (Some o) =>
      match fuel with
      | O => lift Diverge
      | S fuel => acc ← body o acc; while_output fuel body acc t'
      end
  end.

Definition push_output (o : SessionOutput) : X unit := modify (λ s, {| s with mux_outputs := mux_outputs s ++ [o] |}).
Definition write (bs : bytes) : X unit := push_output (Write bs).

Definition drain_noise (noise : NoiseSession) : X (NoiseSession * (option PeerId * list bytes)) :=
  while_output (length (noise_pending noise))
    (λ o '(peer, decrypted),
       match o with
       | NOutbound bs => _ ← write bs; mret (peer, decrypted)
       | NHandshakeComplete authenticated _ => mret (Some authenticated, decrypted)
       | NDecrypted bs => mret (peer, decrypted ++ [bs])
       end) (None, []) noise.

Definition encrypt (noise : NoiseSession) (plaintext : bytes) : X NoiseSession :=
  '(noise, _) ← call_or (NoiseFault (str "Noise encryption failed: ")) (noise_handle_input (NEncrypt plaintext)) noise;
  '(noise, (peer, decrypted)) ← drain_noise noise;
  if bool_decide (is_Some peer) || negb (bool_decide (decrypted = []))
  then throw (fault (str "unexpected Noise output while encrypting"))
  else mret noise.

Definition drain_raw_select (select : MultistreamSelect) : X MultistreamSelect :=
  '(select, _) ← while_output (length (pending_outputs select))
    (λ o (_ : unit), match o with OutboundData bs => write bs | _ => mret tt end) tt select;
  mret select.

Definition drain_encrypted_select (noise : NoiseSession) (select : MultistreamSelect) : X (MultistreamSelect * NoiseSession) :=
  while_output (length (pending_outputs select))
    (λ o noise, match o with OutboundData bs => encrypt noise bs | _ => mret noise end) noise select.

Definition drain_yamux (noise : NoiseSession) (yamux : YamuxSession) : X (NoiseSession * YamuxSession) :=
  '(yamux, (noise, go_away)) ← while_output (yamux_backlog yamux)
    (λ o '(noise, go_away),
       match o with
       | Outbound bs => noise ← encrypt noise bs; mret (noise, go_away)
       | IncomingStream stream => _ ← push_output (SIncomingStream stream); mret (noise, go_away)
       | DataReceived stream data => _ ← push_output (SStreamData stream data); mret (noise, go_away)
       | RemoteWriteClosed stream => _ ← push_output (SRemoteWriteClosed stream); mret (noise, go_away)
       | StreamClosed stream => _ ← push_output (SStreamClosed stream); mret (noise, go_away)
       | GoAwayReceived code => mret (noise, Some (default code go_away))
       end) (noise, None) yamux;
  match go_away with
  | Some code => throw (GoAway code)
  | None => mret (noise, yamux)
  end.

(** ** Feeding bytes *)

(** The loop over the outputs of a negotiation, once with [write] and once with
    [encrypt] for its bytes: whether [protocol] was negotiated, and the noise
    session it went through. *)
Definition select_outputs {A} (protocol unavailable failed : bytes) (out : A → bytes → X A) (a : A) (select : MultistreamSelect)
    : X (MultistreamSelect * (A * bool)) :=
  while_output (length (pending_outputs select))
    (λ o '(a, negotiated),
       role ← gets mux_role;
       match o with
       | OutboundData bs => a ← out a bs; mret (a, negotiated)
       | Negotiated p =>
           if bool_decide (p = protocol) then mret (a, true) else throw (fault unavailable)
       | NotAvailable =>
           if bool_decide (role = SResponder) then mret (a, negotiated) else throw (fault unavailable)
       | ProtocolError reason => throw (Protocol (RemoteError failed reason))
       end) (a, false) select.

(** [yamux.handle_input(..)], its outputs, then its error. *)
Definition feed_yamux (noise : NoiseSession) (yamux : YamuxSession) (plaintext : bytes) : X (NoiseSession * YamuxSession) :=
  '(yamux, result) ← call (YamuxSession.handle_input (YamuxSession.Data plaintext)) yamux;
  '(noise, yamux) ← drain_yamux noise yamux;
  match result with
  | inl _ => mret (noise, yamux)
  | inr e => throw (Protocol (YamuxFault (str "Yamux protocol failed: ") e))
  end.

(** [self.outputs.truncate(n)] when [m] fails. *)
Definition or_truncate {A} (n : nat) (m : X A) : X A := λ s,
  match m s with
  | (s', Err e) => ({| s' with mux_outputs := take n (mux_outputs s') |}, Err e)
  | out => out
  end.

(** The part of [feed_decrypted_yamux_select] after the negotiation. *)
Definition yamux_negotiated (noise : NoiseSession) (remaining : bytes) (peer : PeerId) : X Phase :=
  role ← gets mux_role;
  config ← gets mux_yamux_config;
  yamux ← lift (match with_config (match role with SInitiator => Client | SResponder => Server end) config with
                | Ok y => Ok y
                | Err e => Err (Protocol (YamuxFault (str "invalid Yamux configuration: ") e))
                | Panic => Panic | Diverge => Diverge
                end);
  established_at ← gets (λ s, length (mux_outputs s));
  '(noise, yamux) ← (if bool_decide (remaining = []) then mret (noise, yamux)
                     else or_truncate established_at (feed_yamux noise yamux remaining));
  _ ← modify (λ s, {| s with mux_outputs := take established_at (mux_outputs s) ++ [Established peer] ++ drop established_at (mux_outputs s) |});
  mret (Ready noise yamux peer).

Definition feed_decrypted_yamux_select (noise : NoiseSession) (select : MultistreamSelect) (peer : PeerId) (plaintext : bytes) : X Phase :=
  '(select, _) ← call_or (MultistreamFailed (str "Yamux multistream failed: ")) (Multistream.handle_input (Multistream.Data plaintext)) select;
  '(select, (noise, negotiated)) ← select_outputs YAMUX_PROTOCOL_ID (str "remote did not negotiate Yamux")
    (str "Yamux multistream protocol error: ") encrypt noise select;
  if negb negotiated then mret (SelectYamux noise select peer)
  else
    '(_, remaining) ← call_or (MultistreamFailed []) take_remaining_buffer select;
    yamux_negotiated noise remaining peer.

Definition feed_decrypted_transport (phase : Phase) (plaintext : bytes) : X Phase :=
  match phase with
  | SelectYamux noise select peer => feed_decrypted_yamux_select noise select peer plaintext
  | Ready noise yamux peer => '(noise, yamux) ← feed_yamux noise yamux plaintext; mret (Ready noise yamux peer)
  | _ => throw (fault (str "decrypted transport data arrived before Yamux selection"))
  end.

Fixpoint feed_all (phase : Phase) (plaintexts : list bytes) : X Phase :=
  match plaintexts with
  | [] => mret phase
  | plaintext :: rest => phase ← feed_decrypted_transport phase plaintext; feed_all phase rest
  end.

(** [noise.handle_input(NoiseInput::Data(..))?] and its outputs. *)
Definition feed_noise (prefix : bytes) (noise : NoiseSession) (data : bytes) : X (NoiseSession * (option PeerId * list bytes)) :=
  '(noise, _) ← call_or (NoiseFault prefix) (noise_handle_input (NData data)) noise;
  drain_noise noise.

Definition feed_handshake (noise : NoiseSession) (data : bytes) : X Phase :=
  '(noise, (peer, decrypted)) ← feed_noise (str "Noise handshake failed: ") noise data;
  match peer with
  | None =>
      if negb (bool_decide (decrypted = [])) then throw (fault (str "Noise decrypted data before authentication"))
      else mret (PNoise noise)
  | Some peer =>
      role ← gets mux_role;
      let select := select_for role YAMUX_PROTOCOL_ID in
      '(select, _) ← call_or (MultistreamFailed (str "Yamux multistream start failed: ")) (Multistream.handle_input Start) select;
      '(select, noise) ← drain_encrypted_select noise select;
      feed_all (SelectYamux noise select peer) decrypted
  end.

Definition authenticated_once (peer : option PeerId) : X unit :=
  if bool_decide (is_Some peer) then throw (fault (str "Noise authenticated twice")) else mret tt.

Definition feed_phase (phase : Phase) (data : bytes) : X Phase :=
  match phase with
  | SelectNoise select noise =>
      '(select, _) ← call_or (MultistreamFailed (str "Noise multistream failed: ")) (Multistream.handle_input (Multistream.Data data)) select;
      '(select, (_, negotiated)) ← select_outputs NOISE_PROTOCOL_ID (str "remote did not negotiate Noise")
        (str "Noise multistream protocol error: ") (λ _, write) tt select;
      if negb negotiated then mret (SelectNoise select noise)
      else
        '(_, remaining) ← call_or (MultistreamFailed []) take_remaining_buffer select;
        noise ← lift (ok_or noise (fault (str "Noise session unavailable")));
        '(noise, _) ← call_or (NoiseFault (str "Noise start failed: ")) (noise_handle_input NStart) noise;
        '(noise, (peer, decrypted)) ← drain_noise noise;
        if bool_decide (is_Some peer) || negb (bool_decide (decrypted = []))
        then throw (fault (str "Noise produced transport data before input"))
        else if bool_decide (remaining = []) then mret (PNoise noise)
        else feed_handshake noise remaining
  | PNoise noise => feed_handshake noise data
  | SelectYamux noise select peer =>
      '(noise, (unexpected_peer, decrypted)) ← feed_noise (str "Noise transport failed: ") noise data;
      _ ← authenticated_once unexpected_peer;
      feed_all (SelectYamux noise select peer) decrypted
  | Ready noise yamux peer =>
      '(noise, (unexpected_peer, decrypted)) ← feed_noise (str "Noise transport failed: ") noise data;
      _ ← authenticated_once unexpected_peer;
      feed_all (Ready noise yamux peer) decrypted
  end.

(** ** The interface *)

Definition take_phase : X Phase := λ s,
  match mux_phase s with
  | Some phase => ({| s with mux_phase := None |}, Ok phase)
  | None => (s, Err (fault (str "session already failed")))
  end.
Definition put_phase (phase : Phase) : X unit := modify (λ s, {| s with mux_phase := Some phase |}).

Definition mux_start : X unit :=
  phase ← take_phase;
  phase ← match phase with
          | SelectNoise select noise =>
              '(select, _) ← call_or (MultistreamFailed (str "Noise multistream start failed: ")) (Multistream.handle_input Start) select;
              select ← drain_raw_select select;
              mret (SelectNoise select noise)
          | other => mret other
          end;
  put_phase phase.

Definition mux_handle_input (data : bytes) : X unit :=
  if bool_decide (data = []) then mret tt
  else
    phase ← take_phase;
    phase ← feed_phase phase data;
    put_phase phase.

Definition mux_poll_output : X (option SessionOutput) := λ s,
  match mux_outputs s with
  | [] => (s, Ok None)
  | o :: rest => ({| s with mux_outputs := rest |}, Ok (Some o))
  end.

Definition is_established (s : SecureMuxSession) : bool :=
  match mux_phase s with Some (Ready _ _ _) => true | _ => false end.
Definition mux_next_deadline (s : SecureMuxSession) : option Deadline :=
  match mux_phase s with Some (Ready _ yamux _) => YamuxSession.next_deadline yamux | _ => None end.
Definition mux_peer (s : SecureMuxSession) : option PeerId :=
  match mux_phase s with Some (SelectYamux _ _ peer) | Some (Ready _ _ peer) => Some peer | _ => None end.

Definition with_yamux {A} (operation : M YamuxSession YamuxError A) : X A := λ s,
  match mux_phase s with
  | Some (Ready noise yamux peer) =>
      ('(yamux, result) ← call operation yamux;
       '(noise, yamux) ← drain_yamux noise yamux;
       _ ← put_phase (Ready noise yamux peer);
       match result with inl a => mret a | inr e => throw (SYamux e) end) {| s with mux_phase := None |}
  | _ => (s, Err NotEstablished)
  end.
Definition with_yamux_stream {A} (stream : Z) (operation : M YamuxSession YamuxError A) : X A := λ s,
  match with_yamux operation s with
  | (s', Err (SYamux (UnknownStream _))) => (s', Err (SUnknownStream stream))
  | out => out
  end.
(** [u32::try_from]. *)
Definition yamux_stream (stream : Z) : res SessionError Z :=
  if stream <=? u32_max then Ok stream else Err (SUnknownStream stream).

Definition mux_poll (now : Now) : X unit := λ s,
  match with_yamux (YamuxSession.poll now) s with
  | (s', Err NotEstablished) => (s', Ok tt)
  | out => out
  end.
Definition mux_open_stream : X Z := with_yamux YamuxSession.open_stream.
Definition mux_send (stream : Z) (data : bytes) : X unit :=
  id ← lift (yamux_stream stream); with_yamux_stream stream (YamuxSession.send id data).
Definition close_stream_write (stream : Z) : X unit :=
  id ← lift (yamux_stream stream); with_yamux_stream stream (YamuxSession.close_write id).
Definition reset_stream (stream : Z) : X unit :=
  id ← lift (yamux_stream stream); with_yamux_stream stream (YamuxSession.reset id).
Definition mux_go_away (code : Z) : X unit := with_yamux (YamuxSession.go_away code).
End SecureMux.
