(* ===== verification/SecureMuxSafety.v ===== *)
(** What a secure session guarantees whatever its peer sends: no call panics or
    loops; nothing but bytes to write comes out before the session reports that
    it is established, once, with the peer Noise has authenticated; and a
    session that has failed stays failed. *)

From Stdlib Require Import Strings.Byte.
From S2P Require Import Prelude Varint Deadline SansIo YamuxFrame YamuxSession YamuxStream YamuxInvariant Yamux Multistream Base58 PeerIdentity Keys Noise NoiseHandshake NoiseFrames NoiseSafety SecureMux.

(** ** Polling a machine until it is empty *)

Section Polls.
Context {T I O E : Type} `{!SansIoProtocol T I O E}.

Inductive polls : T → list O → T → Prop :=
  | polls_end t t' : SansIo.poll_output t = (t', Ok None) → polls t [] t'
  | polls_next t t1 o os t' : SansIo.poll_output t = (t1, Ok (Some o)) → polls t1 os t' → polls t (o :: os) t'.

Lemma contract_polls (inv : T → Prop) (admissible : T → I → Prop) {C : SansIoContract inv admissible} t :
  inv t → ∃ os t', polls t os t' ∧ (length os ≤ backlog t)%nat ∧ inv t' ∧ SansIo.is_idle t' = true.
Proof.
  remember (backlog t) as n eqn:Hn. revert t Hn. induction n as [n IH] using lt_wf_ind. intros t -> Ht.
  destruct (output_step t Ht) as (o & t1 & Hp & H1 & Ho). destruct o as [o|].
  - destruct Ho as [_ Hlt]. destruct (IH _ Hlt t1 eq_refl H1) as (os & t' & Hpolls & Hlen & Hinv & Hidle).
    exists (o :: os), t'. split; [by eapply polls_next|]. split; [cbn; lia|done].
  - destruct Ho as [Hidle ->]. exists [], t. split; [by apply polls_end|]. split; [cbn; lia|done].
Qed.
End Polls.

(** A queue that is popped. *)
Lemma noise_polls `{NoiseCrates} `{SigningCrate} `{HashCrates Multihash} `{!EqDecision Multihash} (noise : NoiseSession (Multihash := Multihash)) :
  polls noise (noise_pending noise) {| noise with noise_pending := [] |}.
Proof.
  destruct noise as [h sc rc d os st f]. induction os as [|o os IH]; [by apply polls_end|]. by eapply polls_next; [reflexivity|apply IH].
Qed.
Lemma select_polls (sel : MultistreamSelect) : polls sel (pending_outputs sel) {| sel with pending_outputs := [] |}.
Proof.
  destruct sel as [r st d sup b sd os]. induction os as [|o os IH]; [by apply polls_end|]. by eapply polls_next; [reflexivity|apply IH].
Qed.
(** Polling leaves the decoder of a yamux session alone. *)
Lemma yamux_polls (y : YamuxSession) :
  session_ok y → ∃ os y', polls y os y' ∧ (length os ≤ yamux_backlog y)%nat ∧ session_ok y' ∧ YamuxSession.is_idle y' = true.
Proof. intros Hy. exact (contract_polls session_ok yamux_admissible y Hy). Qed.

Definition same_decoder (s s' : YamuxSession) : Prop := decoder s' = decoder s.
#[local] Instance same_decoder_preorder : PreOrder same_decoder.
Proof. split; [done|]. intros a b c H1 H2. unfold same_decoder in *. congruence. Qed.

Lemma poll_output_decoder : moves same_decoder YamuxSession.poll_output.
Proof.
  assert (moves same_decoder pop_pending) as Hpop by (intros s; unfold pop_pending; by destruct (pending s)).
  unfold YamuxSession.poll_output, materialize_deferred_control. moves_steps; try done.
  intros s. unfold with_stream. destruct (streams s !! _); [|done]. by destruct (materialize_block _ _).
Qed.
Lemma polls_decoder (y y' : YamuxSession) os : polls y os y' → decoder y' = decoder y.
Proof.
  induction 1 as [t t' Hp|t t1 o os t' Hp _ IH]; [|rewrite IH].
  - pose proof (poll_output_decoder t) as Hd. cbn in Hp. rewrite Hp in Hd. exact Hd.
  - pose proof (poll_output_decoder t) as Hd. cbn in Hp. rewrite Hp in Hd. exact Hd.
Qed.

Section Safety.
Context `{NC : NoiseCrates} `{!NoiseCratesSpec} `{SC : SigningCrate} `{HC : HashCrates Multihash} `{!HashCratesSpec Multihash} `{!EqDecision Multihash}.
Abbreviation PeerId := (PeerIdentity.PeerId (Multihash := Multihash)).
Abbreviation NoiseSession := (Noise.NoiseSession (Multihash := Multihash)).
Abbreviation NoiseOutput := (Noise.NoiseOutput (Multihash := Multihash)).
Abbreviation SessionOutput := (SecureMux.SessionOutput (Multihash := Multihash)).
Abbreviation SecureMuxSession := (SecureMux.SecureMuxSession (Multihash := Multihash)).
Abbreviation SessionConfig := (SecureMux.SessionConfig (Multihash := Multihash)).
Abbreviation X := (M SecureMuxSession SessionError).
Implicit Types (s : SecureMuxSession) (noise : NoiseSession) (cfg : SessionConfig).

(** ** Loops over outputs *)

Fixpoint fold_m {A B} (body : B → A → X A) (acc : A) (os : list B) : X A :=
  match os with
  | [] => mret acc
  | o :: os => acc ← body o acc; fold_m body acc os
  end.

Lemma call_ok {T E A} (m : M T E A) (t t' : T) a s : m t = (t', Ok a) → call m t s = (s, Ok (t', inl a)).
Proof. intros Hm. unfold call. by rewrite Hm. Qed.

Lemma while_output_polls {T I O E A} `{!SansIoProtocol T I O E} (body : O → A → X A) fuel os (t t' : T) acc s :
  polls t os t' → (length os ≤ fuel)%nat →
  while_output fuel body acc t s = (acc ← fold_m body acc os; mret (t', acc)) s.
Proof.
  intros Hp. revert fuel acc s. induction Hp as [t t' Hp|t t1 o os t' Hp _ IH]; intros fuel acc s Hf.
  - destruct fuel; cbn [while_output]; by rewrite (run_ok _ _ _ _ _ (call_ok _ _ _ _ s Hp)).
  - destruct fuel as [|fuel]; [cbn in Hf; lia|]. cbn [while_output fold_m]. rewrite (run_ok _ _ _ _ _ (call_ok _ _ _ _ s Hp)).
    unfold mbind, M_bind in *. destruct (body o acc s) as [s' [a|e| |]]; try done. apply IH. cbn in Hf. lia.
Qed.

(** More outputs at the end of the queue. *)
Definition add (new : list SessionOutput) s : SecureMuxSession := {| s with mux_outputs := mux_outputs s ++ new |}.
Lemma add_nil s : add [] s = s.
Proof. destruct s. unfold add. cbn. by rewrite app_nil_r. Qed.
Lemma add_add l k s : add k (add l s) = add (l ++ k) s.
Proof. unfold add. cbn. by rewrite app_assoc. Qed.

(** What a list of noise outputs amounts to. *)
Definition writes_of (os : list NoiseOutput) : list SessionOutput := omap (λ o, match o with NOutbound bs => Some (Write bs) | _ => None end) os.
Definition plain_of (os : list NoiseOutput) : list bytes := omap (λ o, match o with NDecrypted bs => Some bs | _ => None end) os.
Definition peer_step (p : option PeerId) (o : NoiseOutput) : option PeerId :=
  match o with NHandshakeComplete q _ => Some q | _ => p end.
Definition peer_of (os : list NoiseOutput) : option PeerId := foldl peer_step None os.
Definition idle noise : NoiseSession := {| noise with noise_pending := [] |}.

Lemma drain_noise_eq noise s :
  drain_noise noise s = (add (writes_of (noise_pending noise)) s, Ok (idle noise, (peer_of (noise_pending noise), plain_of (noise_pending noise)))).
Proof.
  unfold drain_noise. rewrite (while_output_polls _ _ _ _ _ _ _ (noise_polls noise)) by done. unfold peer_of.
  set (body := λ (o : NoiseOutput) '(peer, decrypted), _).
  assert (∀ os p ds s, fold_m body (p, ds) os s = (add (writes_of os) s, Ok (foldl peer_step p os, ds ++ plain_of os))) as Hfold.
  { intros os. induction os as [|o os IH]; intros p ds s'; cbn [fold_m].
    - cbn. by rewrite add_nil, app_nil_r.
    - destruct o as [bs|q k|bs]; cbn [body writes_of plain_of omap list_omap foldl peer_step]; unfold write, push_output.
      + unfold mbind at 1, M_bind at 1, mbind at 1, M_bind at 1, modify. cbn [mret M_ret]. rewrite IH. f_equal. exact (add_add [Write bs] _ s').
      + by rewrite run_ret, IH.
      + rewrite run_ret, IH. by rewrite <- app_assoc. }
  by rewrite (run_ok _ _ _ _ _ (Hfold _ _ _ _)).
Qed.

(** ** Memory *)

(** What a session has decrypted and not handed out yet. *)
Definition plain_len noise : Z := zlen (concat (plain_of (noise_pending noise))).

Lemma plain_of_app os os' : plain_of (os ++ os') = plain_of os ++ plain_of os'.
Proof. apply omap_app. Qed.

Lemma receive_frame_plain m noise noise' u : receive_frame m noise = (noise', Ok u) → plain_len noise' ≤ plain_len noise + zlen m.
Proof.
  unfold receive_frame. rewrite run_gets. pose proof (zlen_nonneg m).
  assert (∀ o n n' v, push_frame o n = (n', Ok v) → plain_len n' = plain_len n) as Hpush.
  { intros o n n' v. unfold push_frame, noise_encode_frame. rewrite run_lift. destruct (zlen o <=? u16_max); [|done]. intros [= <- _].
    unfold plain_len. cbn. rewrite plain_of_app. cbn. by rewrite app_nil_r. }
  destruct (is_handshake_complete noise).
  - unfold mbind, M_bind, on_receive_cipher. destruct (receive_cipher noise) as [c|]; [|done].
    destruct (decrypt_with_ad [] m c) as [c' [pt|e| |]] eqn:Hd; try done. intros [= <- _].
    assert (zlen pt ≤ zlen m) as Hpt.
    { revert Hd. unfold decrypt_with_ad. run_simpl. destruct (cs_key c) as [k|]; [|intros [= _ <-]; lia].
      destruct (next_nonce c) as [nonce|e| |]; try done. destruct (aead_decrypt k nonce [] m) as [m'|] eqn:Ha; [|done].
      intros [= _ <-]. apply aead_decrypt_length in Ha. lia. }
    unfold plain_len. cbn. rewrite plain_of_app, concat_app, zlen_app. cbn. rewrite app_nil_r. lia.
  - unfold mbind, M_bind, on_handshake. destruct (handshake noise) as [h|]; [|done].
    destruct (read_message m h) as [h' [[out res]|e| |]]; try done. set (n1 := {| noise with handshake := Some h' |}).
    assert (plain_len n1 = plain_len noise) as Hn1 by done. cbn beta iota. destruct out as [out|].
    + destruct (push_frame out n1) as [n2 [v|e| |]] eqn:Hp; try done. apply Hpush in Hp. destruct res as [r|]; intros [= <- _]; [|lia].
      unfold plain_len in *. cbn. rewrite plain_of_app. cbn. rewrite app_nil_r. lia.
    + destruct res as [r|]; intros [= <- _]; [|lia]. unfold plain_len in *. cbn. rewrite plain_of_app. cbn. rewrite app_nil_r. lia.
Qed.
Lemma receive_loop_plain fuel noise noise' u :
  NoiseFrames.decoder_ok (noise_decoder noise) → receive_loop fuel noise = (noise', Ok u) →
  plain_len noise' ≤ plain_len noise + zlen (NoiseFrames.unread (noise_decoder noise)).
Proof.
  revert noise. induction fuel as [|fuel IH]; intros noise Hd; cbn [Noise.receive_loop]; unfold mbind, M_bind;
    destruct (next_frame_cases _ Hd) as [[_ ->]|(p & rest & d & _ & Hu & -> & Hd' & Hrest & _)]; try done.
  - intros [= <- _]. pose proof (zlen_nonneg (NoiseFrames.unread (noise_decoder noise))). change (plain_len {| noise with noise_decoder := noise_decoder noise |}) with (plain_len noise). lia.
  - intros [= <- _]. pose proof (zlen_nonneg (NoiseFrames.unread (noise_decoder noise))). change (plain_len {| noise with noise_decoder := noise_decoder noise |}) with (plain_len noise). lia.
  - set (n1 := {| noise with noise_decoder := d |}). destruct (receive_frame p n1) as [n2 [v|e| |]] eqn:Hf; try done. intros Hl.
    pose proof (blind_keeps _ n1 (blind_receive_frame p)) as Hk. rewrite Hf in Hk. cbn in Hk.
    apply IH in Hl; [|by rewrite Hk]. apply receive_frame_plain in Hf. rewrite Hk, Hrest in Hl. rewrite Hu, zlen_app, zlen_framed.
    assert (plain_len n1 = plain_len noise) as Hn1 by done. lia.
Qed.
Lemma noise_data_plain bs noise noise' u :
  NoiseFrames.decoder_ok (noise_decoder noise) → zlen (nd_buffer (noise_decoder noise)) + zlen bs ≤ usize_max →
  noise_handle_input (NData bs) noise = (noise', Ok u) →
  plain_len noise' ≤ plain_len noise + zlen (nd_buffer (noise_decoder noise)) + zlen bs.
Proof.
  intros Hd Hl. unfold noise_handle_input. destruct (noise_failed noise); [done|].
  destruct (Noise.receive bs noise) as [n' [v|e| |]] eqn:Hr; try done. intros [= <- _]. revert Hr.
  unfold Noise.receive. rewrite run_gets. destruct (negb _); [done|]. rewrite run_modify, run_gets. intros Hr.
  destruct (push_ok bs _ Hd Hl) as [Hd' Hu]. apply receive_loop_plain in Hr; [|done]. cbn [noise_decoder] in Hr. rewrite Hu, zlen_app in Hr.
  assert (zlen (NoiseFrames.unread (noise_decoder noise)) ≤ zlen (nd_buffer (noise_decoder noise))); [|change (plain_len {| noise with noise_decoder := noise_push bs (noise_decoder noise) |}) with (plain_len noise) in Hr; lia].
  pose proof (length_unread (noise_decoder noise)). unfold zlen. lia.
Qed.

(** A negotiation keeps no more than it is given. *)
Definition less_buffered (a b : MultistreamSelect) : Prop := zlen (recv_buf b) ≤ zlen (recv_buf a).
#[local] Instance less_buffered_preorder : PreOrder less_buffered.
Proof. split; [intros a|intros a b c H1 H2]; unfold less_buffered in *; lia. Qed.
Lemma select_data_buffered data (sel : MultistreamSelect) :
  zlen (recv_buf (Multistream.handle_input (Multistream.Data data) sel).1) ≤ zlen (recv_buf sel) + zlen data.
Proof.
  assert (∀ fuel os, moves less_buffered (Multistream.receive_loop fuel os)) as Hloop.
  { intros fuel. induction fuel as [|fuel IH]; intros os s; cbn [Multistream.receive_loop]; unfold mbind, M_bind, gets, reads, modify.
    - case_bool_decide; [reflexivity|]. destruct (decode_message (recv_buf s)); unfold less_buffered; cbn; lia.
    - case_bool_decide; [reflexivity|].
      destruct (decode_message (recv_buf s)) as [payload consumed| |e]; [|unfold less_buffered; cbn; lia..].
      destruct (handle_message _ _ _ _ _) as [[st' out]|e| |]; try reflexivity.
      destruct (drain_front (recv_buf s) consumed) as [buf|e| |] eqn:Hd; try reflexivity.
      etrans; [|apply IH]. unfold less_buffered. cbn. unfold drain_front in Hd. destruct (consumed <=? _); [|done]. injection Hd as <-.
      rewrite zlen_drop. pose proof (zlen_nonneg (recv_buf s)). lia. }
  unfold Multistream.handle_input, Multistream.receive, mbind, M_bind, gets, modify. pose proof (zlen_nonneg data).
  case_bool_decide; [cbn; lia|]. set (sel' := {| sel with recv_buf := recv_buf sel ++ data |}). cbn beta iota.
  assert (zlen (recv_buf sel') = zlen (recv_buf sel) + zlen data) as Hz by (unfold sel'; cbn; by rewrite zlen_app).
  pose proof (Hloop (length (recv_buf sel')) [] sel') as Hm. unfold less_buffered in Hm.
  destruct (Multistream.receive_loop _ _ sel') as [s2 [o|e| |]]; cbn in *; lia.
Qed.

(** A yamux session keeps no more than it is given. *)
Lemma fail_protocol_err {A} e (y y' : YamuxSession) (a : A) : fail_protocol e y ≠ (y', Ok a).
Proof. unfold fail_protocol. run_simpl. unfold queue_frame, close_all_streams. run_simpl. done. Qed.

Lemma handle_data_loop_buffered fuel (y y' : YamuxSession) u :
  session_ok y → is_closed y = false → handle_data_loop fuel y = (y', Ok u) → zlen (buffer (decoder y')) ≤ zlen (buffer (decoder y)).
Proof.
  revert y. induction fuel as [|fuel IH]; intros y Hy Hopen; cbn [handle_data_loop]; [done|].
  pose proof Hy as [Hbase _ _ _ _ _]. pose proof (next_frame_parse _ (bo_decoder _ Hbase)) as Hp. unfold decodes_as in Hp.
  unfold mbind, M_bind, catch, zoom. destruct (parse_frame _ _) as [[[f rest]|]|e| |] eqn:Hpf; try done.
  - destruct (next_frame (decoder y)) as [d r]. cbn in Hp. destruct Hp as (-> & Hu & Hd & Hm & Hle). cbn beta iota.
    assert (session_ok {| y with decoder := d |}) as Hy1 by (by apply session_ok_decoder).
    apply parse_frame_sound in Hpf as [[Hf _] _].
    pose proof (process_frame_ok {| y with decoder := d |} f Hy1 Hopen Hf) as Hw. unfold wp in Hw.
    destruct (process_frame f _) as [y1 [v|e| |]]; try done.
    destruct Hw as (Hy2 & Hd2 & Hgone). cbn in Hd2. unfold modify, gets. cbn beta iota. set (y2 := {| y1 with dirty := true |}).
    destruct (remote_go_away y2) eqn:Hrg.
    + intros [= <- _]. cbn [decoder clear buffer]. rewrite zlen_nil. apply zlen_nonneg.
    + intros Hl. apply IH in Hl.
      * cbn in Hl. rewrite Hd2 in Hl. lia.
      * exact (session_ok_outputs None y1 (pending y1) true (last_activity_ms y1) Hy2).
      * cbn in Hrg. destruct Hgone as [?|Hg]; [congruence|exact Hg].
  - rewrite Hp. intros [= <- _]. cbn. lia.
  - rewrite Hp. by intros ?%fail_protocol_err.
Qed.
Lemma handle_data_buffered bs (y y' : YamuxSession) u :
  session_ok y → zlen (buffer (decoder y)) + zlen bs ≤ usize_max → handle_data bs y = (y', Ok u) →
  zlen (buffer (decoder y')) ≤ zlen (buffer (decoder y)) + zlen bs.
Proof.
  intros Hy Hl. unfold handle_data. rewrite run_gets. destruct (failed y) eqn:Hf; [done|]. rewrite run_gets.
  destruct (local_go_away y || remote_go_away y) eqn:Hg; [done|]. rewrite run_modify, run_gets. intros Hr.
  destruct (push_unread bs (decoder y)) as [Hd _]; [by destruct Hy as [[]]|done|].
  apply handle_data_loop_buffered in Hr.
  - cbn in Hr. rewrite zlen_app in Hr. lia.
  - by apply session_ok_decoder.
  - change (is_closed y = false). unfold is_closed. by rewrite <- orb_assoc, Hf, Hg.
Qed.

(** ** The invariant *)

Definition is_write (o : SessionOutput) : Prop := match o with Write _ => True | _ => False end.
Definition calm (o : SessionOutput) : Prop := match o with Established _ => False | _ => True end.
Definition proven cfg (p : PeerId) : Prop := ∃ k, authenticated (noise_config cfg) p k.

(** The session has been announced, once, for the authenticated peer [p]. *)
Definition announced cfg (p : PeerId) (os : list SessionOutput) : Prop :=
  ∃ pre post, os = pre ++ Established p :: post ∧ Forall is_write pre ∧ Forall calm post ∧ proven cfg p.
Definition mux_ordered cfg (os : list SessionOutput) : Prop := Forall is_write os ∨ ∃ p, announced cfg p os.

Lemma announced_app cfg p os new : announced cfg p os → Forall calm new → announced cfg p (os ++ new).
Proof.
  intros (pre & post & -> & Hpre & Hpost & Hp) Hn. exists pre, (post ++ new). rewrite <- app_assoc. split_and!; [done..|by apply Forall_app|done].
Qed.
Lemma mux_ordered_prefix cfg os os' : mux_ordered cfg (os ++ os') → mux_ordered cfg os.
Proof.
  intros [Ho|(p & pre & post & Heq & Hpre & Hpost & Hp)]; [left; by apply Forall_app in Ho as []|].
  apply app_eq_inv in Heq as [(l & -> & Heq)|(l & -> & _)]; [|left; by apply Forall_app in Hpre as []].
  destruct l as [|x l]; [left; by rewrite app_nil_r|]. injection Heq as <- ->. right. exists p, pre, l.
  split_and!; [done|done|by apply Forall_app in Hpost as []|done].
Qed.

(** A noise session during and after its handshake, with nothing pending. *)
Definition greeting cfg noise : Prop :=
  ∃ nos, running (noise_config cfg) nos noise ∧ Forall outbound nos ∧ noise_pending noise = [].
Definition chan cfg noise : Prop :=
  ∃ nos, running (noise_config cfg) nos noise ∧ NoiseSafety.opened (noise_config cfg) nos ∧ noise_pending noise = [].

Lemma opened_not_outbound ncfg nos nos' : NoiseSafety.opened (Multihash := Multihash) ncfg nos → Forall outbound (nos ++ nos') → False.
Proof.
  intros (pre & p & k & post & -> & _). rewrite <- app_assoc. intros [_ Ho]%Forall_app. apply Forall_cons in Ho as [[] _].
Qed.
Lemma running_idle ncfg nos noise : running ncfg nos noise → running ncfg (nos ++ noise_pending noise) (idle noise).
Proof. intros [Hp Hd Hs Hf]. split; cbn; [|done..]. by rewrite app_nil_r. Qed.
Lemma chan_idle cfg nos noise :
  running (noise_config cfg) nos noise → NoiseSafety.opened (noise_config cfg) nos → chan cfg (idle noise).
Proof.
  intros Hr Ho. exists (nos ++ noise_pending noise). split; [by apply running_idle|]. split; [|done].
  pose proof (ru_phase _ _ _ Hr) as Hp. unfold phase_ok in Hp. destruct (handshake noise).
  - destruct Hp as (_ & _ & _ & Hp). by eapply opened_not_outbound in Ho.
  - by destruct Hp as (cs & cr & _ & _ & _ & _ & Hp).
Qed.

Lemma outbound_quiet os : Forall outbound os → peer_of os = None ∧ plain_of os = [].
Proof.
  unfold peer_of. induction 1 as [|o os Ho _ IH]; [done|]. by destruct o.
Qed.
Lemma transport_keeps_peer os p : Forall transport os → foldl peer_step (Some p) os = Some p.
Proof. induction 1 as [|o os Ho _ IH]; [done|]. by destruct o. Qed.

(** A handshake that goes on, or has just ended. *)
Lemma greeting_idle cfg nos noise :
  running (noise_config cfg) nos noise → Forall outbound nos →
  match peer_of (noise_pending noise) with
  | None => greeting cfg (idle noise)
  | Some p => chan cfg (idle noise) ∧ proven cfg p
  end.
Proof.
  intros Hr Ho. pose proof (ru_phase _ _ _ Hr) as Hp. unfold phase_ok in Hp. destruct (handshake noise).
  - destruct Hp as (_ & _ & _ & Hp). pose proof Hp as [_ Hpend]%Forall_app. apply outbound_quiet in Hpend as [-> _].
    exists (nos ++ noise_pending noise). split; [by apply running_idle|done].
  - destruct Hp as (cs & cr & _ & _ & _ & _ & Hop). pose proof Hop as (pre & p & k & post & Heq & Hpre & Hpost & Ha).
    assert (∃ l, noise_pending noise = l ++ NHandshakeComplete p k :: post ∧ Forall outbound l) as (l & Hl & Hout).
    { apply app_eq_inv in Heq as [(l & -> & Heq)|(l & -> & Heq)].
      - destruct l as [|x l]; [by exists []|]. injection Heq as <- _. apply Forall_app in Ho as [_ Ho]. by apply Forall_cons in Ho as [[] _].
      - exists l. split; [done|]. by apply Forall_app in Hpre as []. }
    assert (peer_of (noise_pending noise) = Some p) as ->.
    { rewrite Hl. unfold peer_of. rewrite foldl_app. cbn. by apply transport_keeps_peer. }
    split; [|by exists k]. exists (nos ++ noise_pending noise). split; [by apply running_idle|done].
Qed.

(** ** Steps that only add outputs *)

Definition grows (P : SessionOutput → Prop) s s' : Prop := ∃ new, Forall P new ∧ s' = add new s.
Lemma grows_refl P s : grows P s s.
Proof. exists []. by rewrite add_nil. Qed.
Lemma grows_trans P s1 s2 s3 : grows P s1 s2 → grows P s2 s3 → grows P s1 s3.
Proof. intros (l & Hl & ->) (k & Hk & ->). exists (l ++ k). rewrite add_add. split; [by apply Forall_app|done]. Qed.
Lemma grows_add (P : SessionOutput → Prop) new s : Forall P new → grows P s (add new s).
Proof. by exists new. Qed.
Lemma grows_calm s s' : grows is_write s s' → grows calm s s'.
Proof. intros (new & Hn & ->). apply grows_add. eapply Forall_impl; [done|]. by intros []. Qed.
Lemma writes_of_write os : Forall is_write (writes_of os).
Proof. induction os as [|[] os IH]; cbn; [done|by constructor|done|done]. Qed.
#[local] Hint Resolve grows_refl grows_add grows_calm writes_of_write : core.

Lemma wp_call {T E A} (m : M T E A) (t : T) (Q : T * (A + E) → SecureMuxSession → Prop) Ex s :
  wp m (λ a t', Q (t', inl a) s) (λ e t', Q (t', inr e) s) t → wp (call m t) Q Ex s.
Proof. unfold wp, call. by destruct (m t) as [t' [a|e| |]]. Qed.
Lemma wp_call_or {T E A} wrap (m : M T E A) (t : T) (Q : T * A → SecureMuxSession → Prop) (Ex : SessionError → SecureMuxSession → Prop) s :
  wp m (λ a t', Q (t', a) s) (λ e t', Ex (Protocol (wrap e)) s) t → wp (call_or wrap m t) Q Ex s.
Proof. intros Hw. apply wp_bind, wp_call. eapply wp_mono; [exact Hw|done|done]. Qed.

Lemma wp_fold_m {A B} (body : B → A → X A) os (J : A → SecureMuxSession → Prop) Ex acc s :
  J acc s → (∀ o acc s', J acc s' → wp (body o acc) J Ex s') → wp (fold_m body acc os) J Ex s.
Proof.
  revert acc s. induction os as [|o os IH]; intros acc s HJ Hb; [done|]. cbn [fold_m]. apply wp_bind.
  eapply wp_mono; [by apply Hb| |done]. intros a s' Ha. by apply IH.
Qed.
Lemma wp_while {T I O E A} `{!SansIoProtocol T I O E} (body : O → A → X A) fuel os (t t' : T) (J : A → SecureMuxSession → Prop) Ex acc s
    (Q : T * A → SecureMuxSession → Prop) :
  polls t os t' → (length os ≤ fuel)%nat → J acc s → (∀ o acc s', J acc s' → wp (body o acc) J Ex s') →
  (∀ a s', J a s' → Q (t', a) s') → wp (while_output fuel body acc t) Q Ex s.
Proof.
  intros Hp Hf HJ Hb HQ. unfold wp. rewrite (while_output_polls _ _ _ _ _ _ _ Hp Hf).
  change (wp (acc ← fold_m body acc os; mret (t', acc)) Q Ex s). apply wp_bind. eapply wp_mono; [by apply (wp_fold_m body os J)| |done].
  intros a s' Ha. by apply wp_ret, HQ.
Qed.

Lemma wp_drain_noise noise (Q : NoiseSession * (option PeerId * list bytes) → SecureMuxSession → Prop) Ex s :
  Q (idle noise, (peer_of (noise_pending noise), plain_of (noise_pending noise))) (add (writes_of (noise_pending noise)) s) →
  wp (drain_noise noise) Q Ex s.
Proof. intros HQ. unfold wp. by rewrite drain_noise_eq. Qed.

(** An input to a noise session that is not fresh. *)
Lemma chan_input cfg noise i :
  chan cfg noise → fits noise i →
  wp (noise_handle_input i) (λ _ n', ∃ nos, running (noise_config cfg) nos n' ∧ NoiseSafety.opened (noise_config cfg) nos) (λ _ _, True) noise.
Proof.
  intros (nos & Hr & Ho & Hp) Hi. eapply wp_mono; [apply (input_history (noise_config cfg) nos); [by right; left|done]| |done].
  intros u n' Hr'. by exists nos.
Qed.
Lemma greeting_input cfg noise i :
  greeting cfg noise → fits noise i →
  wp (noise_handle_input i) (λ _ n', ∃ nos, running (noise_config cfg) nos n' ∧ Forall outbound nos) (λ _ _, True) noise.
Proof.
  intros (nos & Hr & Ho & Hp) Hi. eapply wp_mono; [apply (input_history (noise_config cfg) nos); [by right; left|done]| |done].
  intros u n' Hr'. by exists nos.
Qed.

Lemma encrypt_safe cfg noise pt s :
  chan cfg noise → wp (encrypt noise pt) (λ n' s', chan cfg n' ∧ grows is_write s s') (λ _ s', grows is_write s s') s.
Proof.
  intros Hc. unfold encrypt. apply wp_bind, wp_call_or. eapply wp_mono; [by apply (chan_input cfg)| |auto].
  intros u n' (nos & Hr & Ho). apply wp_bind, wp_drain_noise. case_match; [apply wp_throw|apply wp_ret]; auto. split; [by eapply chan_idle|auto].
Qed.

Lemma drain_encrypted_safe cfg noise (sel : MultistreamSelect) s :
  chan cfg noise → wp (drain_encrypted_select noise sel)
    (λ r s', r.1 = {| sel with pending_outputs := [] |} ∧ chan cfg r.2 ∧ grows is_write s s') (λ _ s', grows is_write s s') s.
Proof.
  intros Hc. unfold drain_encrypted_select.
  eapply (wp_while _ _ _ _ _ (λ n' s', chan cfg n' ∧ grows is_write s s')); [apply select_polls|done|auto| |done].
  intros o n' s' [Hn Hg]. destruct o; try done. eapply wp_mono; [by apply (encrypt_safe cfg)| |].
  - intros n2 s2 [? ?]. split; [done|by eapply grows_trans].
  - intros e s2 ?. by eapply grows_trans.
Qed.

(** The outputs of a yamux session. *)
Lemma drain_yamux_safe cfg noise (y : YamuxSession) s :
  chan cfg noise → session_ok y →
  wp (drain_yamux noise y) (λ r s', chan cfg r.1 ∧ session_ok r.2 ∧ decoder r.2 = decoder y ∧ grows calm s s') (λ _ s', grows calm s s') s.
Proof.
  intros Hc Hy. destruct (yamux_polls y Hy) as (os & y' & Hp & Hlen & Hy' & _). unfold drain_yamux. apply wp_bind.
  eapply (wp_while _ _ _ _ _ (λ r s', chan cfg r.1 ∧ grows calm s s')); [exact Hp|done|auto| |].
  - intros o [n' ga] s' [Hn Hg]. cbn [fst] in Hn.
    assert (∀ o', calm o' → grows calm s (add [o'] s')) as Hpush by (intros o' Ho'; eapply grows_trans; [done|by apply grows_add; constructor]).
    destruct o; try (apply wp_bind, wp_modify, wp_ret; split; [done|by apply Hpush]); [|by apply wp_ret].
    apply wp_bind. eapply wp_mono; [by apply (encrypt_safe cfg)| |].
    + intros n2 s2 [? ?]. apply wp_ret. split; [done|]. eapply grows_trans; [done|auto].
    + intros e s2 ?. eapply grows_trans; [done|auto].
  - intros [n' ga] s' [Hn Hg]. destruct ga; [by apply wp_throw|apply wp_ret]. split_and!; [done|done|by eapply polls_decoder|done].
Qed.

Lemma feed_yamux_safe cfg noise (y : YamuxSession) pt s :
  chan cfg noise → session_ok y → input_fits y pt →
  wp (feed_yamux noise y pt)
    (λ r s', chan cfg r.1 ∧ session_ok r.2 ∧ zlen (buffer (decoder r.2)) ≤ zlen (buffer (decoder y)) + zlen pt ∧ grows calm s s')
    (λ _ s', grows calm s s') s.
Proof.
  intros Hc Hy Hfit. unfold feed_yamux. apply wp_bind, wp_call. cbn [YamuxSession.handle_input].
  eapply wp_mono; [apply wp_run, handle_data_ok; done|intros u y' [Hrun Hy']|intros e y' [Hrun Hy']]; apply wp_bind.
  - eapply wp_mono; [by apply (drain_yamux_safe cfg)| |done]. intros [n2 y2] s' (Hn & Hy2 & Hd & Hg). apply wp_ret.
    split_and!; try done. cbn [snd] in *. rewrite Hd. by eapply handle_data_buffered.
  - eapply wp_mono; [apply (drain_yamux_safe cfg); [done|]| |done].
    + by destruct Hy' as [[_ ->]|[]].
    + intros [n2 y2] s' (Hn & Hy2 & Hd & Hg). by apply wp_throw.
Qed.

(** ** Negotiating inside the session *)

Lemma select_outputs_safe {A} (J : A → Prop) protocol unavailable broken (out : A → bytes → X A) a (sel : MultistreamSelect) s :
  J a → (∀ a bs s, J a → wp (out a bs) (λ a' s', J a' ∧ grows is_write s s') (λ _ s', grows is_write s s') s) →
  wp (select_outputs protocol unavailable broken out a sel)
    (λ r s', r.1 = {| sel with pending_outputs := [] |} ∧ J r.2.1 ∧ grows is_write s s') (λ _ s', grows is_write s s') s.
Proof.
  intros HJ Hout. unfold select_outputs.
  eapply (wp_while _ _ _ _ _ (λ r s', J r.1 ∧ grows is_write s s')); [apply select_polls|done|auto| |by intros [b n] s' []].
  intros o [b n] s' [Hb Hg]. cbn [fst] in Hb. apply wp_bind, wp_gets. destruct o as [bs|q| |reason].
  - apply wp_bind. eapply wp_mono; [by apply Hout| |].
    + intros a' s2 [Ha' Hg']. apply wp_ret. split; [done|by eapply grows_trans].
    + intros e s2 Hg'. by eapply grows_trans.
  - case_bool_decide; [by apply wp_ret|by apply wp_throw].
  - case_bool_decide; [by apply wp_ret|by apply wp_throw].
  - by apply wp_throw.
Qed.

Lemma yamux_negotiated_safe cfg noise remaining p s :
  chan cfg noise → config_typed (mux_yamux_config s) → zlen remaining ≤ usize_max →
  wp (yamux_negotiated noise remaining p)
    (λ ph s', ∃ n y, ph = Ready n y p ∧ chan cfg n ∧ session_ok y ∧ zlen (buffer (decoder y)) ≤ zlen remaining ∧
       ∃ new, Forall calm new ∧ s' = add (Established p :: new) s) (λ _ s', s' = s) s.
Proof.
  intros Hc Hcfg Hrem. unfold yamux_negotiated. apply wp_bind, wp_gets, wp_bind, wp_gets, wp_bind, wp_lift.
  set (role := match mux_role s with SInitiator => Client | SResponder => Server end). pose proof (zlen_nonneg remaining).
  destruct (with_config role (mux_yamux_config s)) as [y|e| |] eqn:Hy; [|done|..]; cycle 1.
  { revert Hy. unfold with_config. by repeat case_match. } { revert Hy. unfold with_config. by repeat case_match. }
  pose proof (with_config_ok _ _ _ Hcfg Hy) as Hyok.
  assert (zlen (buffer (decoder y)) = 0) as Hz. { revert Hy. unfold with_config. repeat case_match; try done. by intros [= <-]. }
  apply wp_bind, wp_gets, wp_bind. case_bool_decide as Hnil.
  - apply wp_ret, wp_bind, wp_modify, wp_ret. exists noise, y. split_and!; [done..|lia|]. exists []. split; [done|].
    unfold add. by rewrite take_ge, drop_ge by lia.
  - eapply (wp_mono _ (λ r s', chan cfg r.1 ∧ session_ok r.2 ∧ zlen (buffer (decoder r.2)) ≤ zlen remaining ∧ grows calm s s') _ (λ _ s', s' = s)); [| |done].
    + pose proof (feed_yamux_safe cfg noise y remaining s Hc Hyok) as Hw. unfold input_fits in Hw. rewrite Hz in Hw. specialize (Hw ltac:(lia)).
      unfold wp, or_truncate in *. destruct (feed_yamux noise y remaining s) as [s' [[n2 y2]|e| |]]; try done.
      destruct Hw as (new & _ & ->). destruct s. unfold add. cbn. by rewrite take_app_length.
    + intros [n2 y2] s' (Hn & Hy2 & Hb & new & Hnew & ->). cbn [fst snd] in *. apply wp_bind, wp_modify, wp_ret. exists n2, y2. split_and!; [done..|].
      exists new. split; [done|]. unfold add. cbn. by rewrite take_app_length, drop_app_length.
Qed.

(** ** Plaintext after the handshake *)

Definition transport_ok cfg (os : list SessionOutput) (ph : Phase) (n : Z) s : Prop :=
  match ph with
  | SelectYamux noise sel p =>
      chan cfg noise ∧ select_ok sel ∧ pending_outputs sel = [] ∧ proven cfg p ∧ Forall is_write (os ++ mux_outputs s) ∧
      zlen (recv_buf sel) + n ≤ usize_max
  | Ready noise y p => chan cfg noise ∧ session_ok y ∧ announced cfg p (os ++ mux_outputs s) ∧ zlen (buffer (decoder y)) + n ≤ usize_max
  | _ => False
  end.
(** Only outputs have been added. *)
Abbreviation extends := (grows (λ _, True)).
Lemma grows_extends P s s' : grows P s s' → extends s s'.
Proof. intros (new & _ & ->). exists new. split; [by apply Forall_true|done]. Qed.
Lemma writes_more os s s' : Forall is_write (os ++ mux_outputs s) → grows is_write s s' → Forall is_write (os ++ mux_outputs s').
Proof. intros Ho (new & Hn & ->). cbn. rewrite app_assoc. by apply Forall_app. Qed.
Lemma announced_more cfg p os s s' : announced cfg p (os ++ mux_outputs s) → grows calm s s' → announced cfg p (os ++ mux_outputs s').
Proof. intros Ho (new & Hn & ->). cbn. rewrite app_assoc. by apply announced_app. Qed.

(** What every failing call still guarantees. *)
Definition broken cfg (os : list SessionOutput) s (e : SessionError) s' : Prop := mux_ordered cfg (os ++ mux_outputs s') ∧ extends s s'.
Lemma broken_writes cfg os s e s' : Forall is_write (os ++ mux_outputs s) → grows is_write s s' → broken cfg os s e s'.
Proof. intros Ho Hg. split; [left; by eapply writes_more|by eapply grows_extends]. Qed.
Lemma broken_announced cfg p os s e s' : announced cfg p (os ++ mux_outputs s) → grows calm s s' → broken cfg os s e s'.
Proof. intros Ho Hg. split; [right; exists p; by eapply announced_more|by eapply grows_extends]. Qed.

Lemma feed_decrypted_yamux_select_safe cfg os noise (sel : MultistreamSelect) p pt n s :
  transport_ok cfg os (SelectYamux noise sel p) (zlen pt + n) s → config_typed (mux_yamux_config s) → 0 ≤ n →
  wp (feed_decrypted_yamux_select noise sel p pt) (λ ph' s', transport_ok cfg os ph' n s' ∧ extends s s') (broken cfg os s) s.
Proof.
  intros (Hc & Hs & Hpend & Hp & Ho & Hfit) Hcfg Hn. unfold feed_decrypted_yamux_select. apply wp_bind, wp_call_or.
  pose proof (input_safe (P := MultistreamSelect) sel (Multistream.Data pt) Hs I) as Hw. cbn in Hw.
  eapply wp_mono; [apply wp_run; exact Hw|intros u sel1 [Hrun Hs1]|intros e sel1 _; by apply broken_writes].
  pose proof (select_data_buffered pt sel) as Hbuf. rewrite Hrun in Hbuf. cbn in Hbuf.
  apply wp_bind. eapply wp_mono; [apply (select_outputs_safe (chan cfg)); [done|intros; by apply encrypt_safe]| |intros e s1 Hg; by apply broken_writes].
  intros [sel2 [noise2 negotiated]] s1 (Hsel & Hc2 & Hg). cbn [fst snd] in *. subst sel2. destruct negotiated; cbn [negb].
  - apply wp_bind, wp_call_or. unfold take_remaining_buffer. apply wp_bind, wp_gets, wp_bind, wp_modify, wp_ret. cbn [recv_buf].
    pose proof Hg as (new & Hnew & ->).
    eapply wp_mono; [apply (yamux_negotiated_safe cfg); [done|done|lia]| |]; [|intros e s' ->; by apply broken_writes].
    intros ph s' (n3 & y & -> & Hn3 & Hy & Hb & new2 & Hnew2 & ->). split; [|exists (new ++ Established p :: new2); split; [by apply Forall_true|by rewrite add_add]].
    split; [done|]. split; [done|]. split; [|lia]. cbn. exists (os ++ mux_outputs s ++ new), new2. rewrite <- !app_assoc. split; [done|].
    split; [|done]. rewrite !app_assoc. by apply Forall_app.
  - apply wp_ret. split; [|by eapply grows_extends]. split_and!; [done|done|done|done|by eapply writes_more|cbn; lia].
Qed.

Lemma feed_decrypted_transport_safe cfg os ph pt n s :
  transport_ok cfg os ph (zlen pt + n) s → config_typed (mux_yamux_config s) → 0 ≤ n →
  wp (feed_decrypted_transport ph pt) (λ ph' s', transport_ok cfg os ph' n s' ∧ extends s s') (broken cfg os s) s.
Proof.
  intros Ht Hcfg Hn. destruct ph as [sel no|no|no sel p|no y p]; [done|done|by apply feed_decrypted_yamux_select_safe|].
  destruct Ht as (Hc & Hy & Ha & Hfit). apply wp_bind.
  eapply wp_mono; [apply (feed_yamux_safe cfg); [done|done|unfold input_fits; lia]| |intros e s' Hg; by eapply broken_announced].
  intros [n2 y2] s' (Hn2 & Hy2 & Hb & Hg). cbn [fst snd] in *. apply wp_ret. split; [|by eapply grows_extends].
  split_and!; [done|done|by eapply announced_more|lia].
Qed.

Lemma broken_later cfg os s s' e s'' : extends s s' → broken cfg os s' e s'' → broken cfg os s e s''.
Proof. intros He [Ho He']. split; [done|by eapply grows_trans]. Qed.

Lemma feed_all_safe cfg os pts ph s :
  transport_ok cfg os ph (zlen (concat pts)) s → config_typed (mux_yamux_config s) →
  wp (feed_all ph pts) (λ ph' s', transport_ok cfg os ph' 0 s' ∧ extends s s') (broken cfg os s) s.
Proof.
  revert ph s. induction pts as [|pt pts IH]; intros ph s Ht Hcfg; cbn [feed_all]; [by apply wp_ret|].
  rewrite concat_cons, zlen_app in Ht. apply wp_bind. eapply wp_mono; [apply (feed_decrypted_transport_safe cfg os _ _ (zlen (concat pts))); [done|done|apply zlen_nonneg]| |done].
  intros ph1 s1 [Ht1 He]. pose proof He as (new & _ & ->). eapply wp_mono; [by apply IH| |].
  - intros ph2 s2 [Ht2 He2]. split; [done|by eapply grows_trans].
  - intros e s2 Hb. by eapply broken_later.
Qed.

(** ** The handshake *)

Lemma select_for_ok r protocol : select_ok (select_for r protocol).
Proof. destruct r; cbn; [intros _; by eexists|by intros [|]]. Qed.

Lemma feed_handshake_safe cfg os noise data s :
  greeting cfg noise → Forall is_write (os ++ mux_outputs s) → config_typed (mux_yamux_config s) →
  zlen (nd_buffer (noise_decoder noise)) + zlen data ≤ usize_max →
  wp (feed_handshake noise data)
    (λ ph s', (match ph with PNoise n => greeting cfg n ∧ Forall is_write (os ++ mux_outputs s') | _ => transport_ok cfg os ph 0 s' end) ∧ extends s s')
    (broken cfg os s) s.
Proof.
  intros Hgr Ho Hcfg Hfit. unfold feed_handshake, feed_noise. apply wp_bind, wp_bind, wp_call_or.
  pose proof Hgr as (nos0 & Hr0 & _ & Hp0).
  eapply wp_mono; [apply wp_run; by apply (greeting_input cfg)|intros u n1 [Hrun (nos & Hr & Hout)]|intros e n1 _; by apply broken_writes].
  apply noise_data_plain in Hrun; [|apply Hr0|done]. unfold plain_len in Hrun. rewrite Hp0 in Hrun. change (zlen (concat (plain_of []))) with 0 in Hrun.
  apply wp_drain_noise. set (s1 := add _ s). assert (grows is_write s s1) as Hg1 by (apply grows_add, writes_of_write).
  pose proof (greeting_idle cfg nos n1 Hr Hout) as Hpeer. destruct (peer_of (noise_pending n1)) as [p|].
  - destruct Hpeer as [Hc Hp]. apply wp_bind, wp_gets. cbv zeta. apply wp_bind, wp_call_or.
    set (sel := select_for (mux_role s1) YAMUX_PROTOCOL_ID).
    pose proof (select_for_ok (mux_role s1) YAMUX_PROTOCOL_ID) as Hsel. fold sel in Hsel.
    pose proof (input_safe (P := MultistreamSelect) sel Start Hsel I) as Hw. cbn in Hw.
    eapply wp_mono; [apply wp_run; exact Hw|intros v sel1 [Hrun1 Hs1]|intros e sel1 _; by apply broken_writes].
    assert (recv_buf sel1 = []) as Hrb.
    { revert Hrun1. unfold sel, select_for, Multistream.handle_input, start. run_simpl. destruct (mux_role s1); cbn; by intros [= <-]. }
    apply wp_bind. eapply wp_mono; [by apply (drain_encrypted_safe cfg)| |intros e s2 Hg2; apply broken_writes; [done|by eapply grows_trans]].
    intros [sel2 n2] s2 (Hsel2 & Hc2 & Hg2). cbn [fst snd] in *. subst sel2. assert (grows is_write s s2) as Hg by (by eapply grows_trans).
    pose proof Hg as (new & Hnew & Hs2).
    eapply wp_mono; [apply (feed_all_safe cfg os)| |].
    + split_and!; [done|done|done|done|by eapply writes_more|]. cbn [recv_buf]. rewrite Hrb, zlen_nil. lia.
    + by rewrite Hs2.
    + intros ph s3 [Ht He]. split; [|eapply grows_trans; [by eapply grows_extends|done]]. by destruct ph.
    + intros e s3 Hb. eapply broken_later; [by eapply grows_extends|done].
  - case_match; [apply wp_throw; by apply broken_writes|]. apply wp_ret. split; [|by eapply grows_extends]. split; [done|by eapply writes_more].
Qed.

Lemma noise_start_decoder ncfg noise u :
  noise_handle_input NStart (NoiseSession_new (Multihash := Multihash) ncfg) = (noise, Ok u) → noise_decoder noise = FrameDecoder_new.
Proof.
  unfold noise_handle_input. cbn [noise_failed NoiseSession_new]. unfold noise_start. rewrite run_gets. cbn [noise_started NoiseSession_new].
  rewrite run_modify. set (n1 := {| (NoiseSession_new ncfg) with noise_started := true |}).
  match goal with |- context [?m n1] => assert (blind m) as Hb end.
  { apply blind_bind; [apply blind_on_handshake|]. intros [out|]; [apply blind_push_frame|by split]. }
  pose proof (blind_keeps _ n1 Hb) as Hk. match type of Hb with blind ?m => destruct (m n1) as [n2 [v|e| |]] end; try done. by intros [= <- _].
Qed.

(** ** The phases *)

Definition phase_fine cfg (os : list SessionOutput) (ph : Phase) s : Prop :=
  match ph with
  | SelectNoise sel n =>
      select_ok sel ∧ pending_outputs sel = [] ∧ n = Some (NoiseSession_new (noise_config cfg)) ∧ Forall is_write (os ++ mux_outputs s)
  | PNoise n => greeting cfg n ∧ Forall is_write (os ++ mux_outputs s)
  | _ => transport_ok cfg os ph 0 s
  end.

(** The bytes the machines inside have buffered. *)
Definition held (ph : Phase (Multihash := Multihash)) : Z :=
  match ph with
  | SelectNoise sel _ => zlen (recv_buf sel)
  | PNoise n => zlen (nd_buffer (noise_decoder n))
  | SelectYamux n sel _ => zlen (nd_buffer (noise_decoder n)) + zlen (recv_buf sel)
  | Ready n y _ => zlen (nd_buffer (noise_decoder n)) + zlen (buffer (decoder y))
  end.

Lemma feed_noise_chan cfg prefix noise data s (Q : NoiseSession * (option PeerId * list bytes) → SecureMuxSession → Prop) Ex :
  chan cfg noise → zlen (nd_buffer (noise_decoder noise)) + zlen data ≤ usize_max →
  (∀ e, Ex e s) →
  (∀ n' p pts s', chan cfg n' → zlen (concat pts) ≤ zlen (nd_buffer (noise_decoder noise)) + zlen data → grows is_write s s' → Q (n', (p, pts)) s') →
  wp (feed_noise prefix noise data) Q Ex s.
Proof.
  intros Hc Hfit Hex HQ. pose proof Hc as (nos0 & Hr0 & _ & Hp0). unfold feed_noise. apply wp_bind, wp_call_or.
  eapply wp_mono; [apply wp_run; by apply (chan_input cfg)|intros u n1 [Hrun (nos & Hr & Hout)]|done].
  apply noise_data_plain in Hrun; [|apply Hr0|done]. unfold plain_len in Hrun. rewrite Hp0 in Hrun. change (zlen (concat (plain_of []))) with 0 in Hrun.
  apply wp_drain_noise, HQ; [by eapply chan_idle|lia|auto].
Qed.
Lemma authenticated_once_safe (p : option PeerId) (Q : unit → SecureMuxSession → Prop) (Ex : SessionError → SecureMuxSession → Prop) s :
  Q tt s → (∀ e, Ex e s) → wp (authenticated_once p) Q Ex s.
Proof. intros HQ Hex. unfold authenticated_once. case_bool_decide; [apply wp_throw, Hex|by apply wp_ret]. Qed.

Lemma feed_phase_safe cfg os ph data s :
  phase_fine cfg os ph s → config_typed (mux_yamux_config s) → held ph + zlen data ≤ usize_max →
  wp (feed_phase ph data) (λ ph' s', phase_fine cfg os ph' s' ∧ extends s s') (broken cfg os s) s.
Proof.
  intros Hf Hcfg Hheld. pose proof (zlen_nonneg data).
  destruct ph as [sel n|n|n sel p|n y p]; cbn [feed_phase].
  - destruct Hf as (Hs & Hpend & -> & Ho). cbn [held] in Hheld. apply wp_bind, wp_call_or.
    pose proof (input_safe (P := MultistreamSelect) sel (Multistream.Data data) Hs I) as Hw. cbn in Hw.
    eapply wp_mono; [apply wp_run; exact Hw|intros u sel1 [Hrun Hs1]|intros e sel1 _; by apply broken_writes].
    pose proof (select_data_buffered data sel) as Hbuf. rewrite Hrun in Hbuf. cbn in Hbuf. apply wp_bind.
    eapply wp_mono; [apply (select_outputs_safe (λ _, True)); [done|]| |intros e s1 Hg; by apply broken_writes].
    { intros [] bs s0 _. apply wp_modify. split; [done|]. apply (grows_add is_write [Write bs]). by repeat constructor. }
    intros [sel2 [[] negotiated]] s1 (Hsel & _ & Hg). cbn [fst snd] in *. subst sel2. destruct negotiated; cbn [negb]; cycle 1.
    { apply wp_ret. split; [|by eapply grows_extends]. split_and!; [done|done|done|by eapply writes_more]. }
    apply wp_bind, wp_call_or. unfold take_remaining_buffer. apply wp_bind, wp_gets, wp_bind, wp_modify, wp_ret. cbn [recv_buf].
    apply wp_bind, wp_lift. cbn [ok_or]. apply wp_bind, wp_call_or.
    eapply wp_mono; [apply wp_run, (input_history (noise_config cfg) []); [by left|done]|intros v n1 [Hrun1 Hr]|intros e n1 _; by apply broken_writes].
    apply noise_start_decoder in Hrun1. apply wp_bind, wp_drain_noise. set (s2 := add _ s1).
    assert (grows is_write s s2) as Hg2 by (eapply grows_trans; [done|apply grows_add, writes_of_write]).
    pose proof (greeting_idle cfg [] n1 Hr ltac:(done)) as Hpeer. destruct (peer_of (noise_pending n1)) as [p|].
    { rewrite bool_decide_true by eauto. apply wp_throw. by apply broken_writes. }
    rewrite bool_decide_false by (by intros []). cbn [orb].
    destruct (negb (bool_decide (plain_of (noise_pending n1) = []))); [apply wp_throw; by apply broken_writes|].
    case_bool_decide; [apply wp_ret; split; [split; [done|by eapply writes_more]|by eapply grows_extends]|].
    pose proof Hg2 as (new & _ & Hs2).
    eapply wp_mono; [apply (feed_handshake_safe cfg os); [done|by eapply writes_more|by rewrite Hs2|]| |].
    + cbn [idle noise_decoder]. rewrite Hrun1. cbn [nd_buffer FrameDecoder_new]. rewrite zlen_nil. lia.
    + intros ph s3 [Hph He]. split; [by destruct ph|]. eapply grows_trans; [by eapply grows_extends|done].
    + intros e s3 Hb. eapply broken_later; [by eapply grows_extends|done].
  - destruct Hf as [Hgr Ho]. eapply wp_mono; [by apply (feed_handshake_safe cfg os)| |done]. intros ph s3 [Hph He]. split; [by destruct ph|done].
  - cbn [held] in Hheld. destruct Hf as (Hc & Hs & Hpend & Hp & Ho & Hfit). pose proof (zlen_nonneg (recv_buf sel)).
    apply wp_bind, (feed_noise_chan cfg); [done|lia|intros; by apply broken_writes|]. intros n1 p1 pts s1 Hc1 Hpts Hg1.
    apply wp_bind, authenticated_once_safe; [|intros; by apply broken_writes]. pose proof Hg1 as (new & _ & Hs1).
    eapply wp_mono; [apply (feed_all_safe cfg os); [|by rewrite Hs1]| |].
    + split_and!; [done..|by eapply writes_more|lia].
    + intros ph s3 [Hph He]. split; [by destruct ph|]. eapply grows_trans; [by eapply grows_extends|done].
    + intros e s3 Hb. eapply broken_later; [by eapply grows_extends|done].
  - cbn [held] in Hheld. destruct Hf as (Hc & Hy & Ha & Hfit). pose proof (zlen_nonneg (buffer (decoder y))).
    apply wp_bind, (feed_noise_chan cfg); [done|lia|intros; eapply broken_announced; [done|auto]|]. intros n1 p1 pts s1 Hc1 Hpts Hg1.
    apply wp_bind, authenticated_once_safe; [|intros; eapply broken_announced; [done|auto]]. pose proof Hg1 as (new & _ & Hs1).
    eapply wp_mono; [apply (feed_all_safe cfg os); [|by rewrite Hs1]| |].
    + split_and!; [done..|eapply announced_more; [done|auto]|lia].
    + intros ph s3 [Hph He]. split; [by destruct ph|]. eapply grows_trans; [by eapply grows_extends|done].
    + intros e s3 Hb. eapply broken_later; [by eapply grows_extends|done].
Qed.

(** ** Calls *)

(** Every method that changes the session, and what its host may offer. *)
Inductive MuxCall :=
  | CallStart
  | CallInput (data : bytes)
  | CallOpen
  | CallSend (stream : Z) (data : bytes)
  | CallCloseWrite (stream : Z)
  | CallReset (stream : Z)
  | CallGoAway (code : Z)
  | CallPoll (now : Now).
Definition run_call (c : MuxCall) : X unit :=
  match c with
  | CallStart => mux_start
  | CallInput data => mux_handle_input data
  | CallOpen => _ ← mux_open_stream; mret tt
  | CallSend stream data => mux_send stream data
  | CallCloseWrite stream => close_stream_write stream
  | CallReset stream => reset_stream stream
  | CallGoAway code => mux_go_away code
  | CallPoll now => mux_poll now
  end.
(** Received bytes fit the address space with what is buffered. *)
Definition mux_fits s (c : MuxCall) : Prop :=
  match c, mux_phase s with
  | CallInput data, Some ph => held ph + zlen data ≤ usize_max
  | _, _ => True
  end.

(** Calls and polls in any order, and the outputs taken. *)
Inductive mux_trace cfg : list SessionOutput → SecureMuxSession → Prop :=
  | mux_trace_new : mux_trace cfg [] (SecureMuxSession_new cfg)
  | mux_trace_call os s c : mux_trace cfg os s → mux_fits s c → mux_trace cfg os (run_call c s).1
  | mux_trace_poll os s o s' : mux_trace cfg os s → mux_poll_output s = (s', Ok (Some o)) → mux_trace cfg (os ++ [o]) s'.

Record mux_ok cfg (os : list SessionOutput) s : Prop := {
  mk_config : mux_yamux_config s = sc_yamux cfg;
  mk_phase : match mux_phase s with Some ph => phase_fine cfg os ph s | None => mux_ordered cfg (os ++ mux_outputs s) end;
}.

(** The properties of a phase look at the outputs alone. *)
Lemma phase_fine_state cfg os os' ph s s' :
  phase_fine cfg os ph s → os ++ mux_outputs s = os' ++ mux_outputs s' → phase_fine cfg os' ph s'.
Proof. intros Hf Heq. destruct ph; cbn in *; by rewrite <- Heq. Qed.
Lemma phase_fine_ordered cfg os ph s : phase_fine cfg os ph s → mux_ordered cfg (os ++ mux_outputs s).
Proof. destruct ph; cbn; [by left; naive_solver|by left; naive_solver|by left; naive_solver|right; naive_solver]. Qed.
Lemma mux_ok_ordered cfg os s : mux_ok cfg os s → mux_ordered cfg (os ++ mux_outputs s).
Proof. intros [_ Hp]. destruct (mux_phase s); [by eapply phase_fine_ordered|done]. Qed.

(** A call that has taken the phase and puts a new one back. *)
Lemma taken_ok cfg os s ph : mux_ok cfg os s → mux_phase s = Some ph → phase_fine cfg os ph {| s with mux_phase := None |}.
Proof. intros [_ Hp] Hph. rewrite Hph in Hp. by eapply phase_fine_state. Qed.
Lemma put_ok cfg os ph s0 s :
  mux_yamux_config s0 = sc_yamux cfg → extends s0 s → phase_fine cfg os ph s → mux_ok cfg os {| s with mux_phase := Some ph |}.
Proof. intros Hc (new & _ & ->) Hf. split; [done|]. cbn. by eapply phase_fine_state. Qed.
Lemma broken_ok cfg os s0 e s :
  mux_yamux_config s0 = sc_yamux cfg → mux_phase s0 = None → broken cfg os s0 e s → mux_ok cfg os s.
Proof. intros Hc Hp [Ho (new & _ & ->)]. split; [done|]. cbn. by rewrite Hp. Qed.

(** An error that ends the session. *)
Definition fatal (e : SessionError) : bool := match e with Protocol _ | GoAway _ => true | _ => false end.
Definition ended cfg (os : list SessionOutput) (e : SessionError) s : Prop := mux_ok cfg os s ∧ (fatal e = true → mux_phase s = None).
Lemma broken_ended cfg os s0 e s :
  mux_yamux_config s0 = sc_yamux cfg → mux_phase s0 = None → broken cfg os s0 e s → ended cfg os e s.
Proof. intros Hc Hp Hb. split; [by eapply broken_ok|]. by destruct Hb as [_ (new & _ & ->)]. Qed.

Lemma mux_start_ok cfg os s : mux_ok cfg os s → wp mux_start (λ _, mux_ok cfg os) (ended cfg os) s.
Proof.
  intros Hs. unfold mux_start. apply wp_bind. unfold take_phase. unfold wp at 1. destruct (mux_phase s) as [ph|] eqn:Hph; [|done].
  pose proof (taken_ok cfg os s ph Hs Hph) as Hf. set (s0 := {| s with mux_phase := None |}) in *. pose proof (mk_config _ _ _ Hs) as Hc.
  assert (∀ ph' s', phase_fine cfg os ph' s' → extends s0 s' → wp (put_phase ph') (λ _, mux_ok cfg os) (ended cfg os) s') as Hput.
  { intros ph' s' Hf' He. apply wp_modify. by eapply (put_ok cfg os ph' s0). }
  apply wp_bind. destruct ph as [sel n|n|n sel p|n y p]; try (apply wp_ret, Hput; [done|apply grows_refl]).
  destruct Hf as (Hsel & Hpend & -> & Ho). apply wp_bind, wp_call_or.
  pose proof (input_safe (P := MultistreamSelect) sel Start Hsel I) as Hw. cbn in Hw.
  eapply wp_mono; [exact Hw|intros u sel1 Hs1|intros e sel1 _; by apply (broken_ended cfg os s0); [| |apply broken_writes]].
  unfold drain_raw_select. apply wp_bind, wp_bind.
  eapply (wp_while _ _ _ _ _ (λ _ s', grows is_write s0 s')); [apply select_polls|done|auto| |].
  - intros o u' s' Hg. destruct o; try done. apply wp_modify. eapply grows_trans; [done|]. apply (grows_add is_write [Write _]). by repeat constructor.
  - intros u' s' Hg. apply wp_ret, wp_ret, Hput; [|by eapply grows_extends]. split_and!; [done|done|done|by eapply writes_more].
Qed.

Lemma mux_handle_input_ok cfg os data s :
  mux_ok cfg os s → config_typed (sc_yamux cfg) → mux_fits s (CallInput data) →
  wp (mux_handle_input data) (λ _, mux_ok cfg os) (ended cfg os) s.
Proof.
  intros Hs Hcfg Hfit. unfold mux_handle_input. case_bool_decide; [done|]. apply wp_bind. unfold take_phase. unfold wp at 1. unfold mux_fits in Hfit.
  destruct (mux_phase s) as [ph|] eqn:Hph; [|done]. pose proof (taken_ok cfg os s ph Hs Hph) as Hf.
  set (s0 := {| s with mux_phase := None |}) in *. pose proof (mk_config _ _ _ Hs) as Hc. apply wp_bind.
  eapply wp_mono; [apply (feed_phase_safe cfg os); [done|cbn; by rewrite Hc|done]| |].
  - intros ph' s' [Hf' He]. apply wp_modify. by eapply (put_ok cfg os ph' s0).
  - intros e s' Hb. by apply (broken_ended cfg os s0).
Qed.

(** An operation on the yamux session, whatever it is. *)
Lemma with_yamux_ok {A} cfg os (op : M YamuxSession YamuxError A) s :
  mux_ok cfg os s → (∀ y, session_ok y → wp op (λ _, session_ok) (λ _, session_ok) y) →
  wp (with_yamux op) (λ _, mux_ok cfg os) (ended cfg os) s.
Proof.
  intros Hs Hop. unfold wp, with_yamux. destruct (mux_phase s) as [[sel n|n|n sel p|n y p]|] eqn:Hph; try done.
  pose proof (taken_ok cfg os s _ Hs Hph) as (Hc & Hy & Ha & Hfit). set (s0 := {| s with mux_phase := None |}) in *.
  pose proof (mk_config _ _ _ Hs) as Hcf.
  match goal with |- match ?m s0 with _ => _ end => change (wp m (λ _, mux_ok cfg os) (ended cfg os) s0) end.
  assert (∀ y' (r : A + YamuxError), session_ok y' → wp ('(n', y'') ← drain_yamux n y'; _ ← put_phase (Ready n' y'' p);
    match r with inl a => mret a | inr e => throw (SYamux e) end) (λ _, mux_ok cfg os) (ended cfg os) s0) as Hrest.
  { intros y' r Hy'. apply wp_bind. eapply wp_mono; [by apply (drain_yamux_safe cfg)| |].
    - intros [n2 y2] s1 (Hc2 & Hy2 & Hd & Hg). apply wp_bind, wp_modify. cbn [fst snd] in *.
      assert (mux_ok cfg os {| s1 with mux_phase := Some (Ready n2 y2 p) |}) as Hok.
      { eapply (put_ok cfg os _ s0); [done|by eapply grows_extends|]. split_and!; [done|done|by eapply announced_more|].
        pose proof (bo_decoder _ (se_base _ _ Hy2)) as [_ Hz]. lia. }
      destruct r; [by apply wp_ret|by apply wp_throw].
    - intros e s1 Hg. apply (broken_ended cfg os s0); [done|done|]. by eapply broken_announced. }
  apply wp_bind, wp_call. eapply wp_mono; [by apply Hop|intros a y' Hy'; by apply (Hrest y' (inl a))|intros e y' Hy'; by apply (Hrest y' (inr e))].
Qed.
Lemma with_yamux_stream_ok {A} cfg os stream (op : M YamuxSession YamuxError A) s :
  mux_ok cfg os s → (∀ y, session_ok y → wp op (λ _, session_ok) (λ _, session_ok) y) →
  wp (with_yamux_stream stream op) (λ _, mux_ok cfg os) (ended cfg os) s.
Proof.
  intros Hs Hop. pose proof (with_yamux_ok cfg os op s Hs Hop) as Hw. unfold wp, with_yamux_stream in *.
  destruct (with_yamux op s) as [s' [a|e| |]]; try done. by destruct e as [| | | |[]].
Qed.

Lemma wp_yamux_stream st (Q : Z → SecureMuxSession → Prop) (Ex : SessionError → SecureMuxSession → Prop) s :
  Q st s → Ex (SUnknownStream st) s → wp (lift (yamux_stream st)) Q Ex s.
Proof. intros HQ Hex. apply wp_lift. unfold yamux_stream. by destruct (st <=? u32_max). Qed.
Lemma mux_call_ok cfg os c s :
  mux_ok cfg os s → config_typed (sc_yamux cfg) → mux_fits s c → wp (run_call c) (λ _, mux_ok cfg os) (ended cfg os) s.
Proof.
  intros Hs Hcfg Hfit.
  assert (∀ op, (∀ data, op ≠ OpData data) → ∀ y, session_ok y → wp (run_op op) (λ _, session_ok) (λ _, session_ok) y) as Hop.
  { intros op Hop y Hy. apply run_op_ok; [done|]. destruct op; try done. by destruct (Hop data). }
  destruct c as [|data| |st data|st|st|code|now]; cbn [run_call].
  - by apply mux_start_ok.
  - by apply mux_handle_input_ok.
  - apply wp_bind. eapply wp_mono; [apply (with_yamux_ok cfg os)|done|done]; [done|]. intros y Hy.
    eapply wp_mono; [by apply open_stream_ok|by intros ? ? []|by intros ? ? ->].
  - apply wp_bind, wp_yamux_stream; [|done]. apply with_yamux_stream_ok; [done|]. by apply (Hop (OpSend st data)).
  - apply wp_bind, wp_yamux_stream; [|done]. apply with_yamux_stream_ok; [done|]. by apply (Hop (OpCloseWrite st)).
  - apply wp_bind, wp_yamux_stream; [|done]. apply with_yamux_stream_ok; [done|]. by apply (Hop (OpReset st)).
  - apply with_yamux_ok; [done|]. by apply (Hop (OpGoAway code)).
  - pose proof (with_yamux_ok cfg os (YamuxSession.poll now) s Hs (Hop (OpPoll now) ltac:(done))) as Hw.
    unfold wp, mux_poll in *. destruct (with_yamux _ s) as [s' [a|e| |]]; try done. destruct e; try done. by destruct Hw.
Qed.

Lemma mux_trace_ok cfg os s : config_typed (sc_yamux cfg) → mux_trace cfg os s → mux_ok cfg os s.
Proof.
  intros Hcfg. induction 1 as [|os s c _ IH Hfit|os s o s' _ IH Hp].
  - split; [done|]. split_and!; [apply select_for_ok|by destruct (sc_role cfg)|done|done].
  - apply wp_final. eapply wp_mono; [by apply mux_call_ok|done|by intros e s' []].
  - unfold mux_poll_output in Hp. destruct (mux_outputs s) as [|o' rest] eqn:Hr; [done|]. injection Hp as <- ->.
    destruct IH as [Hc Hph]. split; [done|]. cbn. destruct (mux_phase s) as [ph|].
    + eapply phase_fine_state; [done|]. cbn. by rewrite Hr, <- app_assoc.
    + by rewrite Hr, <- app_assoc in *.
Qed.

(** A session that has failed is not changed by anything. *)
Lemma dead_stays s c : mux_phase s = None → (run_call c s).1 = s.
Proof.
  intros Hp.
  assert (∀ A (op : M YamuxSession YamuxError A), with_yamux op s = (s, Err NotEstablished)) as Hw by (intros A op; unfold with_yamux; by rewrite Hp).
  assert (take_phase s = (s, Err (fault (str "session already failed")))) as Ht by (unfold take_phase; by rewrite Hp).
  destruct c as [|data| |st data|st|st|code|now]; cbn [run_call];
    unfold mux_start, mux_handle_input, mux_open_stream, mux_send, close_stream_write, reset_stream, mux_go_away, mux_poll, with_yamux_stream.
  - unfold mbind, M_bind. by rewrite Ht.
  - case_bool_decide; [done|]. unfold mbind, M_bind. by rewrite Ht.
  - unfold mbind, M_bind. by rewrite Hw.
  - rewrite run_lift. unfold yamux_stream. destruct (st <=? u32_max); [by rewrite Hw|done].
  - rewrite run_lift. unfold yamux_stream. destruct (st <=? u32_max); [by rewrite Hw|done].
  - rewrite run_lift. unfold yamux_stream. destruct (st <=? u32_max); [by rewrite Hw|done].
  - by rewrite Hw.
  - by rewrite Hw.
Qed.

(** C18: Whatever the remote sends, a secure session puts out nothing but bytes to
    write until it reports, once, that it is established, for a peer whose
    identity Noise has authenticated and which is the expected one; stream
    events come only after that. A session that considers itself established
    has reported the peer it names. *)
Theorem secure_mux_announces_once cfg os s :
  config_typed (sc_yamux cfg) → mux_trace cfg os s →
  mux_ordered cfg os ∧
  (is_established s = true → ∃ p, mux_peer s = Some p ∧ announced cfg p (os ++ mux_outputs s)).
Proof.
  intros Hcfg Ht. pose proof (mux_trace_ok cfg os s Hcfg Ht) as Hok. split; [by eapply mux_ordered_prefix, mux_ok_ordered|].
  destruct Hok as [_ Hp]. unfold is_established, mux_peer. destruct (mux_phase s) as [[| | |n y p]|]; try done. intros _. exists p. by split; [|apply Hp].
Qed.

(** C36: Every call on a secure session, in any state a host can bring about, is
    answered without a panic and without an endless loop. A protocol failure or
    a GoAway of the remote ends the session for good: no later call changes it
    or puts anything out. *)
Theorem secure_mux_calls_answered cfg os s c :
  config_typed (sc_yamux cfg) → mux_trace cfg os s → mux_fits s c →
  wp (run_call c) (λ _ _, True) (λ e s', fatal e = true → mux_phase s' = None ∧ ∀ c', (run_call c' s').1 = s') s.
Proof.
  intros Hcfg Ht Hfit. eapply wp_mono; [by apply (mux_call_ok cfg os), Hfit; [apply mux_trace_ok|]|done|].
  intros e s' [_ Hf] He. split; [auto|]. intros c'. by apply dead_stays, Hf.
Qed.
End Safety.

(** ** A session *)

#[local] Existing Instance demo_crates.
#[local] Existing Instance demo_crates_spec.
#[local] Existing Instance demo_noise.
#[local] Existing Instance demo_noise_spec.
#[local] Existing Instance demo_signing.
#[local] Existing Instance demo_signing_spec.
Definition demo_mux_config (role : SessionRole) (b : byte) : SessionConfig (Multihash := Z * bytes) :=
  mkSessionConfig role (from_secret_key_bytes (replicate 32 b)) (replicate 31 b ++ [x05]) (replicate 31 b ++ [x06]) None YamuxConfig_default.

Lemma secure_mux_announces_once_witness :
  let s := (run_call CallStart (SecureMuxSession_new (demo_mux_config SInitiator x01))).1 in
  ∃ o s', mux_poll_output s = (s', Ok (Some o)) ∧ mux_ordered (demo_mux_config SInitiator x01) [o].
Proof.
  intros s. destruct (mux_poll_output s) as [s' [[o|]|e| |]] eqn:Hp; [|by vm_compute in Hp..].
  exists o, s'. split; [done|]. apply (secure_mux_announces_once (demo_mux_config SInitiator x01) [o] s'); [apply default_typed|].
  change [o] with ([] ++ [o]). eapply mux_trace_poll; [|exact Hp]. by apply mux_trace_call; [apply mux_trace_new|].
Defined.

Lemma secure_mux_calls_answered_witness :
  let s := SecureMuxSession_new (demo_mux_config SResponder x02) in
  wp (run_call (CallInput (str "hello"))) (λ _ _, True) (λ e s', fatal e = true → mux_phase s' = None ∧ ∀ c', (run_call c' s').1 = s') s.
Proof.
  intros s. apply (secure_mux_calls_answered (demo_mux_config SResponder x02) []); [apply default_typed|apply mux_trace_new|by vm_compute].
Defined.
