(* ===== verification/SecureMuxUpgrade.v ===== *)
(** Two honest parties upgrade a byte stream: under every schedule, and however
    the bytes are cut, both sessions end established, each with the other's
    authenticated name. *)

From Stdlib Require Import Strings.Byte.
From S2P Require Import Prelude Varint Deadline SansIo Duplex YamuxFrame YamuxSession YamuxStream YamuxInvariant Yamux Multistream Negotiation Base58 PeerIdentity Keys Noise NoiseHandshake NoiseFrames NoiseSafety NoiseChannel SecureMux SecureMuxSafety.

(** ** Frames at the front of a stream *)

(** A front of a sequence of frames: some whole frames, and a part of the next. *)
Lemma prefix_frames (fs : list bytes) x :
  Forall small fs → x `prefix_of` concat (framed <$> fs) →
  ∃ hs gs rest, fs = hs ++ gs ∧ parsed x hs rest ∧
    match gs with [] => rest = [] | g :: _ => ∃ z, framed g = rest ++ z ∧ z ≠ [] end.
Proof.
  intros Hs. revert x. induction Hs as [|f fs Hf _ IH]; intros x Hx.
  - apply prefix_nil_inv in Hx as ->. exists [], [], []. split_and!; [done|by apply parsed_rest, incomplete_nil|done].
  - rewrite fmap_cons, concat_cons in Hx. apply prefix_cases in Hx as [(z & Hz & Hne)|(y & -> & Hy)].
    + exists [], (f :: fs), x. split_and!; [done| |by exists z]. apply parsed_rest.
      destruct (incomplete_dec x) as [|Hc]; [done|]. apply complete_framed in Hc as (p & r & Hp & ->).
      rewrite <- (app_nil_r (framed f)), <- app_assoc in Hz. apply framed_inj in Hz as [-> Hz]; [|done..]. by destruct r, z.
    + destruct (IH y Hy) as (hs & gs & rest & -> & Hp & Hg). exists (f :: hs), gs, rest. split_and!; [done|by apply parsed_cons|done].
Qed.

Lemma framed_ne f : framed f ≠ [].
Proof. intros Hf. pose proof (zlen_framed f) as Hl. pose proof (zlen_nonneg f). rewrite Hf, zlen_nil in Hl. lia. Qed.
Lemma zlen_frames (fs : list bytes) : Forall small fs → zlen (concat (framed <$> fs)) ≤ zlen fs * (2 + u16_max).
Proof.
  induction 1 as [|f fs Hf _ IH]; [done|]. rewrite fmap_cons, concat_cons, zlen_app, zlen_framed, zlen_cons. unfold small in Hf. lia.
Qed.
(** How far into a sequence of messages a stream has come is determined. *)
Lemma messages_count (ms : list bytes) n m part :
  Forall (λ x : bytes, x ≠ []) ms → (n ≤ length ms)%nat → (m ≤ length ms)%nat →
  match ms !! n with Some x => ∃ z, x = part ++ z ∧ z ≠ [] | None => part = [] end →
  concat (take n ms) ++ part = concat (take m ms) → n = m.
Proof.
  intros Hms. revert n m. induction Hms as [|x ms Hx _ IH]; intros n m Hn Hm Hpart Heq; [cbn in *; lia|].
  destruct n as [|n], m as [|m]; cbn in Heq, Hpart, Hn, Hm; [done| | |].
  - destruct Hpart as (z & -> & Hz). exfalso. apply Hz. rewrite <- !app_assoc in Heq. apply (f_equal length) in Heq. rewrite !length_app in Heq.
    by destruct z; [|cbn in Heq; lia].
  - by destruct x.
  - rewrite <- app_assoc in Heq. apply app_inv_head in Heq. f_equal. apply IH; [lia|lia|done|done].
Qed.

Section Pieces.
Context `{NC : NoiseCrates} `{SC : SigningCrate} `{HC : HashCrates Multihash} `{!HashCratesSpec Multihash} `{!EqDecision Multihash}.
Abbreviation NoiseSession := (Noise.NoiseSession (Multihash := Multihash)).
Abbreviation SecureMuxSession := (SecureMux.SecureMuxSession (Multihash := Multihash)).
Implicit Types (s : SecureMuxSession) (noise : NoiseSession).

(** A decoder that has read [n] bytes in all and has [rest] left over. *)
Record holds (d : FrameDecoder) (rest : bytes) (n : Z) : Prop := {
  hd_ok : NoiseFrames.decoder_ok d;
  hd_rest : NoiseFrames.unread d = rest;
  hd_small : zlen (nd_buffer d) ≤ n;
}.

Lemma holds_mono d rest n n' : holds d rest n → n ≤ n' → holds d rest n'.
Proof. intros [] Hn. split; [done|done|lia]. Qed.

Lemma feed_noise_frames prefix noise c hs rest rest' n n1 s :
  holds (noise_decoder noise) rest n → noise_started noise = true → noise_failed noise = false →
  n + zlen c ≤ usize_max → parsed (rest ++ c) hs rest' → for_each receive_frame hs noise = (n1, Ok tt) →
  ∃ d, feed_noise prefix noise c s =
      (add (writes_of (noise_pending n1)) s, Ok (with_decoder d (idle n1), (peer_of (noise_pending n1), plain_of (noise_pending n1)))) ∧
    holds d rest' (n + zlen c).
Proof.
  intros [Hd Hu Hn] Hst Hfa Hfit Hp Hrun. destruct (push_ok c (noise_decoder noise) Hd ltac:(lia)) as [Hd1 Hu1].
  set (d1 := noise_push c (noise_decoder noise)) in *. pose proof (blind_for_each _ hs blind_receive_frame) as Hb. rewrite Hu in Hu1.
  destruct (receive_loop_frames (length (nd_buffer d1)) (with_decoder d1 noise) hs rest' (with_decoder d1 n1) tt) as (d2 & Hloop & Hd2 & Hu2 & Hle2).
  - done.
  - by rewrite <- Hu1 in Hp.
  - apply parsed_length in Hp. rewrite <- Hu1 in Hp. pose proof (length_unread d1). lia.
  - rewrite (bl_decoder _ Hb), Hrun. done.
  - exists d2. split; [|split; [done|done|]].
    + unfold feed_noise, call_or, mbind, M_bind, call. unfold noise_handle_input. rewrite Hfa. unfold Noise.receive. rewrite run_gets, Hst. cbn [negb].
      rewrite run_modify, run_gets. cbn [noise_decoder]. fold d1. change ({| noise with noise_decoder := d1 |}) with (with_decoder d1 noise).
      rewrite Hloop. cbn beta iota. cbn [mret M_ret]. rewrite drain_noise_eq. done.
    + cbn [noise_decoder with_decoder] in Hle2. unfold d1, noise_push in Hle2. cbn [nd_buffer] in Hle2. rewrite zlen_app in Hle2. lia.
Qed.

(** A cipher text for [x]: the [n]-th segment sent under [k]. *)
Record sealed (k : bytes) (n : Z) (x c : bytes) : Prop := {
  sl_small : small c;
  sl_send noise : send_cipher noise = Some (mkCipher (Some k) n) →
    encrypt_segment x noise = (advance_send k (n + 1) [NOutbound (framed c)] noise, Ok tt);
  sl_receive noise : receive_cipher noise = Some (mkCipher (Some k) n) → is_Some (send_cipher noise) →
    receive_frame c noise = (advance_receive k (n + 1) [NDecrypted x] noise, Ok tt);
}.

(** A session after its handshake. *)
Definition trans (k l : bytes) (ns nr : Z) (d : FrameDecoder) : NoiseSession :=
  mkNoise None (Some (mkCipher (Some k) ns)) (Some (mkCipher (Some l) nr)) d [] true false.

Lemma segments_one x : x ≠ [] → fits_segment x → segments x = [x].
Proof.
  intros Hne Hf. unfold fits_segment, zlen in Hf. destruct x as [|b x]; [done|]. unfold segments. cbn [length chunks].
  assert (length (b :: x) ≤ segment_length)%nat as Hl by (unfold segment_length; lia).
  rewrite take_ge, drop_ge by done. by destruct x.
Qed.

Lemma encrypt_sealed k l ns nr d x c s :
  sealed k ns x c → x ≠ [] → fits_segment x →
  encrypt (trans k l ns nr d) x s = (add [Write (framed c)] s, Ok (trans k l (ns + 1) nr d)).
Proof.
  intros [Hs Hsend _] Hne Hf. unfold encrypt, call_or.
  assert (noise_handle_input (NEncrypt x) (trans k l ns nr d) = (advance_send k (ns + 1) [NOutbound (framed c)] (trans k l ns nr d), Ok tt)) as Hin.
  { unfold noise_handle_input. cbn [noise_failed trans]. rewrite noise_encrypt_segments by done. rewrite segments_one by done.
    cbn [for_each]. rewrite (run_ok _ _ _ _ _ (Hsend (trans k l ns nr d) eq_refl)). done. }
  unfold mbind at 1, M_bind at 1. unfold mbind at 1, M_bind at 1. rewrite (call_ok _ _ _ _ s Hin). cbn beta iota. cbn [mret M_ret].
  rewrite (run_ok _ _ _ _ _ (drain_noise_eq _ s)). cbn. done.
Qed.
End Pieces.

Section Upgrade.
Context `{NC : NoiseCrates} `{!NoiseCratesSpec} `{SC : SigningCrate} `{!SigningSpec}.
Context `{HC : HashCrates Multihash} `{!HashCratesSpec Multihash} `{!EqDecision Multihash}.
Abbreviation PeerId := (PeerIdentity.PeerId (Multihash := Multihash)).
Abbreviation NoiseSession := (Noise.NoiseSession (Multihash := Multihash)).
Abbreviation SecureMuxSession := (SecureMux.SecureMuxSession (Multihash := Multihash)).
Abbreviation SessionOutput := (SecureMux.SessionOutput (Multihash := Multihash)).
Abbreviation SessionConfig := (SecureMux.SessionConfig (Multihash := Multihash)).
Abbreviation Phase := (SecureMux.Phase (Multihash := Multihash)).
Abbreviation HandshakeState := (Noise.HandshakeState (Multihash := Multihash)).
Implicit Types (s : SecureMuxSession) (noise : NoiseSession).

(** ** Negotiating yamux inside the channel *)

Definition offer (p : bytes) : bytes := encode_message p.

(** The two sides of a negotiation for one protocol, by what they have heard:
    nothing, the header, or also the answer. *)
Definition sel (r : SessionRole) (p : bytes) (i : nat) (buf : bytes) : MultistreamSelect :=
  match r, i with
  | SInitiator, O => dialer_at p WaitingForRemoteHeader buf []
  | SInitiator, S O => dialer_at p WaitingForProtocolResponse buf []
  | SInitiator, _ => dialer_at p Done buf []
  | SResponder, O => listener_at [p] WaitingForRemoteHeader buf []
  | SResponder, S O => listener_at [p] WaitingForProtocolRequest buf []
  | SResponder, _ => listener_at [p] Done buf []
  end.
(** What it says in answer to what it hears. *)
Definition says (r : SessionRole) (p : bytes) (i : nat) : list MultistreamOutput :=
  match r, i with
  | SInitiator, O => [OutboundData (offer p)]
  | SInitiator, _ => [Negotiated p]
  | SResponder, O => []
  | SResponder, _ => [OutboundData (offer p); Negotiated p]
  end.
Definition heard (p : bytes) (i : nat) : bytes := match i with O => header | _ => offer p end.

Lemma yamux_ok : message_ok YAMUX_PROTOCOL_ID.
Proof. split_and!; by vm_compute. Qed.
Lemma noise_ok : message_ok NOISE_PROTOCOL_ID.
Proof. split_and!; by vm_compute. Qed.

(** A negotiation reads on: from what it has to what is there. *)
Lemma sel_answer r p x tail :
  message_ok p → p ≠ NOT_AVAILABLE → x `prefix_of` offer p ++ tail →
  ∃ j buf, (1 ≤ j ≤ 2)%nat ∧ runs (sel r p 1 x) (concat (says r p <$> seq 1 (j - 1))) (sel r p j buf) ∧
    x = concat (heard p <$> seq 1 (j - 1)) ++ buf ∧ (if (j <? 2)%nat then ∃ z, heard p j = buf ++ z ∧ z ≠ [] else buf `prefix_of` tail).
Proof.
  intros Hp Hna [(z & Hz & Hne)|(y & -> & Hy)]%prefix_cases.
  - exists 1%nat, x. split_and!; [lia|lia| |done|by exists z].
    eapply (runs_incomplete _ p); [done|by destruct r|by destruct r|done].
  - exists 2%nat, y. split_and!; [lia|lia| |cbn; by rewrite app_nil_r|done]. cbn [seq Nat.sub fmap list_fmap concat].
    destruct r; cbn [sel says].
    + eapply (runs_msg _ p _ y Done [Negotiated p] []); cbn; [done|by apply decode_message_complete|done|by rewrite bool_decide_true|by apply runs_done].
    + eapply (runs_msg _ p _ y Done [OutboundData (offer p); Negotiated p] []); cbn;
        [done|by apply decode_message_complete|done|by rewrite bool_decide_true by set_solver|by apply runs_done].
Qed.
(** A negotiation reads on: from what it has to what is there. *)
Lemma sel_reads r p i x tail :
  message_ok p → p ≠ NOT_AVAILABLE → (i ≤ 1)%nat → x `prefix_of` concat (heard p <$> seq i (2 - i)) ++ tail →
  ∃ j buf, (i ≤ j ≤ 2)%nat ∧ runs (sel r p i x) (concat (says r p <$> seq i (j - i))) (sel r p j buf) ∧
    x = concat (heard p <$> seq i (j - i)) ++ buf ∧ (if (j <? 2)%nat then ∃ z, heard p j = buf ++ z ∧ z ≠ [] else buf `prefix_of` tail).
Proof.
  intros Hp Hna Hi Hx. destruct i as [|[|]]; [| |lia]; cbn [seq Nat.sub fmap list_fmap concat heard] in Hx; [|rewrite app_nil_r in Hx; by apply sel_answer].
   rewrite app_nil_r, <- app_assoc in Hx. apply prefix_cases in Hx as [(z & Hz & Hne)|(y & -> & Hy)].
  - exists 0%nat, x. split_and!; [lia|lia| |done|by exists z].
    eapply (runs_incomplete _ MULTISTREAM_PROTOCOL_ID); [apply header_ok|by destruct r|by destruct r|done].
  - destruct (sel_answer r p y tail Hp Hna Hy) as (j & buf & Hj & Hr & -> & Hb). exists j, buf. split; [lia|].
    replace (seq 0 (j - 0)) with (0%nat :: seq 1 (j - 1)) by (destruct j as [|j]; [lia|]; cbn; by rewrite Nat.sub_0_r).
    rewrite !fmap_cons, !concat_cons, <- app_assoc. split; [|done].
    destruct r; (eapply (runs_msg _ MULTISTREAM_PROTOCOL_ID); [done|apply decode_message_complete, header_ok|done|cbn; by rewrite bool_decide_true|done]).
Qed.

Lemma sel_feed r p i buf chunk tail :
  message_ok p → p ≠ NOT_AVAILABLE → (i ≤ 1)%nat → buf ++ chunk `prefix_of` concat (heard p <$> seq i (2 - i)) ++ tail →
  ∃ j buf', (i ≤ j ≤ 2)%nat ∧
    Multistream.handle_input (Multistream.Data chunk) (sel r p i buf) =
      ({| (sel r p j buf') with pending_outputs := concat (says r p <$> seq i (j - i)) |}, Ok tt) ∧
    buf ++ chunk = concat (heard p <$> seq i (j - i)) ++ buf' ∧ (if (j <? 2)%nat then ∃ z, heard p j = buf' ++ z ∧ z ≠ [] else buf' `prefix_of` tail).
Proof.
  intros Hp Hna Hi Hx. destruct (sel_reads r p i (buf ++ chunk) tail Hp Hna Hi Hx) as (j & buf' & Hj & Hr & Heq & Hb).
  exists j, buf'. split; [done|]. split; [|done]. rewrite (handle_data_runs _ chunk (concat (says r p <$> seq i (j - i))) (sel r p j buf')).
  - by destruct r, j as [|[|]].
  - destruct r, i as [|[|]]; cbn; (by eexists) || (by intros [|]).
  - by destruct r, i as [|[|]]; try lia.
  - by destruct r, i as [|[|]].
Qed.

(** Whether something is said between the two stages. *)
Definition speaks (r : SessionRole) (i j : nat) : bool :=
  match r with SInitiator => (i =? 0)%nat && (1 <=? j)%nat | SResponder => (j =? 2)%nat end.

Lemma select_says {A} r p i j unavailable broken (out : A → bytes → M SecureMuxSession SessionError A) (a : A) (sl : MultistreamSelect) s :
  pending_outputs sl = concat (says r p <$> seq i (j - i)) → (i ≤ 1)%nat → (i ≤ j ≤ 2)%nat →
  select_outputs p unavailable broken out a sl s =
    (a' ← if speaks r i j then out a (offer p) else mret a; mret ({| sl with pending_outputs := [] |}, (a', (j =? 2)%nat))) s.
Proof.
  intros Hp Hi Hj. unfold select_outputs. rewrite (while_output_polls _ _ _ _ _ _ _ (select_polls sl)) by done. rewrite Hp.
  destruct r, i as [|[|]], j as [|[|[|]]]; try lia; cbn [speaks says seq Nat.sub fmap list_fmap concat app fold_m Nat.eqb Nat.leb andb];
    unfold mbind, M_bind, gets; cbn beta iota; try done;
    try (destruct (out a (offer p) s) as [s1 [a1|e| |]]; cbn beta iota; try done); by rewrite (bool_decide_true (p = p)).
Qed.

(** ** The two parties *)

Definition other (r : SessionRole) : SessionRole := match r with SInitiator => SResponder | SResponder => SInitiator end.
Lemma other_other r : other (other r) = r.
Proof. by destruct r. Qed.

(** What a run between two honest parties is made of: their configurations and
    names, the three handshake messages and the states between them, the keys,
    and the sealed negotiation. *)
Record script := mkScript {
  conf : SessionRole → SessionConfig;
  name_of : SessionRole → PeerId;
  msg1 : bytes; msg2 : bytes; msg3 : bytes;
  hsI : HandshakeState; hsR : HandshakeState; hsI' : HandshakeState; hsR' : HandshakeState;
  key_of : SessionRole → bytes;
  cipher : SessionRole → nat → bytes;
  yamux_of : SessionRole → YamuxSession;
}.
Definition result_of (sc : script) (r : SessionRole) : HandshakeResult :=
  mkResult (mkCipher (Some (key_of sc r)) 0) (mkCipher (Some (key_of sc (other r))) 0) (name_of sc (other r))
    (keypair_public_key (sc_identity (conf sc (other r)))).
Definition started_party (sc : script) (r : SessionRole) : HandshakeState := new_party (noise_role r) (party_of (noise_config (conf sc r))).

Record script_ok (sc : script) : Prop := {
  so_role r : sc_role (conf sc r) = r;
  so_small1 : small (msg1 sc); so_small2 : small (msg2 sc); so_small3 : small (msg3 sc);
  so_startI : handshake_start (started_party sc SInitiator) = (hsI sc, Ok (Some (msg1 sc)));
  so_startR : handshake_start (started_party sc SResponder) = (started_party sc SResponder, Ok None);
  so_read1 : read_message (msg1 sc) (started_party sc SResponder) = (hsR sc, Ok (Some (msg2 sc), None));
  so_read2 : read_message (msg2 sc) (hsI sc) = (hsI' sc, Ok (Some (msg3 sc), Some (result_of sc SInitiator)));
  so_read3 : read_message (msg3 sc) (hsR sc) = (hsR' sc, Ok (None, Some (result_of sc SResponder)));
  so_sealed r i : (i ≤ 1)%nat → sealed (key_of sc r) (Z.of_nat i) (heard YAMUX_PROTOCOL_ID i) (cipher sc r i);
  so_yamux r : with_config (match r with SInitiator => Client | SResponder => Server end) (sc_yamux (conf sc r)) = Ok (yamux_of sc r);
}.

Section Script.
Context (sc : script) (Hsc : script_ok sc).
Abbreviation P1 := NOISE_PROTOCOL_ID.
Abbreviation P2 := YAMUX_PROTOCOL_ID.

(** The frames a side hears after the first negotiation. *)
Definition hs_frames (r : SessionRole) : list bytes := match r with SInitiator => [msg2 sc] | SResponder => [msg1 sc; msg3 sc] end.
Definition frames (r : SessionRole) : list bytes := hs_frames r ++ (cipher sc (other r) <$> seq 0 2).

(** The session after the handshake and [i] messages of the second negotiation;
    [nr] ciphertexts have been opened. *)
Definition sends (r : SessionRole) (i : nat) : Z :=
  match i with O => 1 | S i => match r, i with SResponder, O => 1 | _, _ => 2 end end.
Definition tail_noise (r : SessionRole) (i nr : nat) (d : FrameDecoder) : NoiseSession :=
  trans (key_of sc r) (key_of sc (other r)) (sends r i) (Z.of_nat nr) d.
Definition tail_phase (r : SessionRole) (i nr : nat) (d : FrameDecoder) : Phase :=
  match i with
  | O | S O => SelectYamux (tail_noise r i nr d) (sel r P2 i []) (name_of sc (other r))
  | _ => Ready (tail_noise r i nr d) (yamux_of sc r) (name_of sc (other r))
  end.
(** What hearing message [i] makes it put out. *)
Definition tail_out (r : SessionRole) (i : nat) : list SessionOutput :=
  match r, i with
  | SInitiator, O => [Write (framed (cipher sc SInitiator 1))]
  | SInitiator, _ => [Established (name_of sc SResponder)]
  | SResponder, O => []
  | SResponder, _ => [Write (framed (cipher sc SResponder 1)); Established (name_of sc SInitiator)]
  end.

(** A session of side [r] that is in the middle of a call. *)
Definition mine (r : SessionRole) s : Prop := mux_role s = r ∧ mux_yamux_config s = sc_yamux (conf sc r).
Lemma mine_add r new s : mine r s → mine r (add new s).
Proof. done. Qed.

Lemma heard_fits i : heard P2 i ≠ [] ∧ fits_segment (heard P2 i).
Proof. destruct i; by vm_compute. Qed.

Lemma sel_exact r i : (i ≤ 1)%nat →
  Multistream.handle_input (Multistream.Data (heard P2 i)) (sel r P2 i []) =
    ({| (sel r P2 (S i) []) with pending_outputs := concat (says r P2 <$> seq i (S i - i)) |}, Ok tt).
Proof. intros Hi. destruct r, i as [|[|]]; try lia; by vm_compute. Qed.

Lemma call_or_ok {T E A} wrap (m : M T E A) (t t' : T) a s : m t = (t', Ok a) → call_or wrap m t s = (s, Ok (t', a)).
Proof. intros Hm. unfold call_or. by rewrite (run_ok _ _ _ _ _ (call_ok _ _ _ _ s Hm)). Qed.

Lemma speak r i nr d s :
  mine r s → (i ≤ 1)%nat →
  (if speaks r i (S i) then encrypt (tail_noise r i nr d) (offer P2) else mret (tail_noise r i nr d)) s =
    (add (if speaks r i (S i) then [Write (framed (cipher sc r 1))] else []) s, Ok (tail_noise r (S i) nr d)).
Proof.
  intros Hm Hi. pose proof (so_sealed _ Hsc r 1 ltac:(lia)) as Hs. destruct (heard_fits 1) as [Hne Hf].
  destruct r, i as [|[|]]; try lia; cbn [speaks Nat.eqb Nat.leb andb]; try (by rewrite add_nil); by apply encrypt_sealed.
Qed.

Lemma feed_tail r i nr d s :
  mine r s → (i ≤ 1)%nat →
  feed_decrypted_transport (tail_phase r i nr d) (heard P2 i) s = (add (tail_out r i) s, Ok (tail_phase r (S i) nr d)).
Proof.
  intros [Hrole Hcfg] Hi.
  assert (tail_phase r i nr d = SelectYamux (tail_noise r i nr d) (sel r P2 i []) (name_of sc (other r))) as -> by (by destruct i as [|[|]]; try lia).
  cbn [feed_decrypted_transport]. unfold feed_decrypted_yamux_select.
  rewrite (run_ok _ _ _ _ _ (call_or_ok _ _ _ _ _ s (sel_exact r i Hi))).
  set (sl := {| (sel r P2 (S i) []) with pending_outputs := _ |}).
  set (s1 := add (if speaks r i (S i) then [Write (framed (cipher sc r 1))] else []) s).
  rewrite (run_ok _ _ s s1 ({| sl with pending_outputs := [] |}, (tail_noise r (S i) nr d, (S i =? 2)%nat))); cycle 1.
  { rewrite (select_says r P2 i (S i)) by (done || lia). by rewrite (run_ok _ _ _ _ _ (speak r i nr d s ltac:(done) Hi)). }
  assert ({| sl with pending_outputs := [] |} = sel r P2 (S i) []) as -> by (by destruct r, i as [|[|]]).
  destruct i as [|[|]]; [| |lia]; cbn [Nat.eqb negb].
  - destruct r; done.
  - rewrite (run_ok _ _ s1 s1 (sel r P2 2 [], [])); [|by destruct r].
    unfold yamux_negotiated. rewrite run_gets, run_gets. cbn [s1 add mux_role mux_yamux_config]. rewrite Hrole, Hcfg, (so_yamux _ Hsc r), run_lift.
    rewrite run_gets, bool_decide_true by done. rewrite run_ret, run_modify. cbn [mux_outputs s1 add]. rewrite take_ge, drop_ge by lia. rewrite app_nil_r.
    destruct r; cbn [speaks Nat.eqb Nat.leb andb tail_out]; unfold add; cbn; by rewrite ?app_nil_r, <- ?app_assoc.
Qed.

Lemma feed_tail_all r i n nr d s :
  mine r s → (i + n ≤ 2)%nat →
  feed_all (tail_phase r i nr d) (heard P2 <$> seq i n) s = (add (concat (tail_out r <$> seq i n)) s, Ok (tail_phase r (i + n) nr d)).
Proof.
  revert i s. induction n as [|n IH]; intros i s Hm Hi; cbn [seq fmap list_fmap feed_all concat]; [by rewrite Nat.add_0_r, add_nil|].
  rewrite (run_ok _ _ _ _ _ (feed_tail r i nr d s Hm ltac:(lia))). replace (i + S n)%nat with (S i + n)%nat by lia.
  etrans; [apply IH; [done|lia]|]. by rewrite add_add.
Qed.

(** Opening the sealed messages. *)
Lemma open_sealed r i n noise :
  (i + n ≤ 2)%nat → receive_cipher noise = Some (mkCipher (Some (key_of sc (other r))) (Z.of_nat i)) → is_Some (send_cipher noise) →
  for_each receive_frame (cipher sc (other r) <$> seq i n) noise =
    (advance_receive (key_of sc (other r)) (Z.of_nat (i + n)) (NDecrypted <$> (heard P2 <$> seq i n)) noise, Ok tt).
Proof.
  revert i noise. induction n as [|n IH]; intros i noise Hin Hr Hs.
  - rewrite Nat.add_0_r. cbn. by rewrite advance_receive_same.
  - cbn [seq fmap list_fmap for_each]. rewrite (run_ok _ _ _ _ _ (sl_receive _ _ _ _ (so_sealed _ Hsc (other r) i ltac:(lia)) noise Hr Hs)).
    replace (Z.of_nat i + 1) with (Z.of_nat (S i)) by lia. replace (i + S n)%nat with (S i + n)%nat by lia.
    etrans; [apply IH; [lia|done|done]|]. by rewrite advance_receive_trans.
Qed.
Lemma plain_of_decrypted ps : plain_of ((NDecrypted <$> ps) : list (NoiseOutput (Multihash := Multihash))) = ps.
Proof. induction ps as [|p ps IH]; [done|]. cbn. by f_equal. Qed.
Lemma writes_of_decrypted ps : writes_of ((NDecrypted <$> ps) : list (NoiseOutput (Multihash := Multihash))) = [].
Proof. by induction ps. Qed.
Lemma peer_of_decrypted ps p : foldl peer_step p ((NDecrypted <$> ps) : list (NoiseOutput (Multihash := Multihash))) = p.
Proof. by induction ps. Qed.

(** Bytes that arrive after the handshake. *)
Lemma tail_feed r i n d rest c rest' k s :
  mine r s → (i + n ≤ 2)%nat → holds d rest k → k + zlen c ≤ usize_max →
  parsed (rest ++ c) (cipher sc (other r) <$> seq i n) rest' →
  ∃ d', feed_phase (tail_phase r i i d) c s =
      (add (concat (tail_out r <$> seq i n)) s, Ok (tail_phase r (i + n) (i + n) d')) ∧ holds d' rest' (k + zlen c).
Proof.
  intros Hm Hi Hd Hk Hp. set (noise := tail_noise r i i d).
  pose proof (open_sealed r i n noise Hi eq_refl ltac:(by eexists)) as Ho.
  destruct (feed_noise_frames (str "Noise transport failed: ") noise c _ rest rest' k _ s Hd eq_refl eq_refl Hk Hp Ho) as (d' & Hf & Hd').
  exists d'. split; [|done]. cbn [noise_pending advance_receive noise tail_noise trans app] in Hf.
  unfold peer_of in Hf. rewrite plain_of_decrypted, writes_of_decrypted, peer_of_decrypted, add_nil in Hf.
  assert (with_decoder d' (idle (advance_receive (key_of sc (other r)) (Z.of_nat (i + n)) (NDecrypted <$> (heard P2 <$> seq i n)) noise)) =
    tail_noise r i (i + n) d') as Hn by done.
  rewrite Hn in Hf. pose proof (feed_tail_all r i n (i + n) d' s Hm Hi) as Hall.
  destruct i as [|[|[|]]]; [| | |lia]; cbn [tail_phase feed_phase]; rewrite (run_ok _ _ _ _ _ Hf); unfold authenticated_once;
    (rewrite bool_decide_false by (by intros [])); rewrite run_ret; exact Hall.
Qed.

(** ** The handshake *)

Definition hs_at (r : SessionRole) (q : nat) : HandshakeState :=
  match r, q with SInitiator, _ => hsI sc | SResponder, O => started_party sc SResponder | SResponder, _ => hsR sc end.
Definition greet (r : SessionRole) (q : nat) (d : FrameDecoder) : NoiseSession := mkNoise (Some (hs_at r q)) None None d [] true false.

(** The last message of the handshake a side hears, and its answer. *)
Definition last_frame (r : SessionRole) : bytes := match r with SInitiator => msg2 sc | SResponder => msg3 sc end.
Definition last_answer (r : SessionRole) : option bytes := match r with SInitiator => Some (msg3 sc) | SResponder => None end.
Definition last_at (r : SessionRole) : HandshakeState := match r with SInitiator => hsI sc | SResponder => hsR sc end.
Definition last_after (r : SessionRole) : HandshakeState := match r with SInitiator => hsI' sc | SResponder => hsR' sc end.
Lemma read_last r : read_message (last_frame r) (last_at r) = (last_after r, Ok (last_answer r, Some (result_of sc r))).
Proof. destruct Hsc. by destruct r. Qed.
Lemma last_answer_small r : small_opt (last_answer r).
Proof. destruct Hsc. by destruct r. Qed.

Definition answer_out (o : option bytes) : list SessionOutput := match o with Some m => [Write (framed m)] | None => [] end.

Lemma writes_of_app a b : writes_of (a ++ b : list (NoiseOutput (Multihash := Multihash))) = writes_of a ++ writes_of b.
Proof. apply omap_app. Qed.
Lemma writes_of_outbound ws : writes_of ((NOutbound <$> ws) : list (NoiseOutput (Multihash := Multihash))) = Write <$> ws.
Proof. induction ws as [|w ws IH]; [done|]. cbn. by f_equal. Qed.
Lemma plain_of_outbound ws : plain_of ((NOutbound <$> ws) : list (NoiseOutput (Multihash := Multihash))) = [].
Proof. by induction ws. Qed.

Lemma peer_of_outbound ws : peer_of ((NOutbound <$> ws) : list (NoiseOutput (Multihash := Multihash))) = None.
Proof. unfold peer_of. by induction ws. Qed.

Lemma drain_start r nr d s :
  mine r s →
  ('(sl, _) ← call_or (MultistreamFailed (str "Yamux multistream start failed: ")) (Multistream.handle_input Start) (select_for r P2);
   drain_encrypted_select (trans (key_of sc r) (key_of sc (other r)) 0 nr d) sl) s =
  (add [Write (framed (cipher sc r 0))] s, Ok (sel r P2 0 [], trans (key_of sc r) (key_of sc (other r)) 1 nr d)).
Proof.
  intros Hm. set (sl0 := {| (sel r P2 0 []) with pending_outputs := [OutboundData header] |}).
  assert (Multistream.handle_input Start (select_for r P2) = (sl0, Ok tt)) as Hs by (by destruct r).
  rewrite (run_ok _ _ _ _ _ (call_or_ok _ _ _ _ _ s Hs)). unfold drain_encrypted_select.
  rewrite (while_output_polls _ _ _ _ _ _ _ (select_polls sl0)) by done. cbn [pending_outputs sl0 fold_m].
  destruct (heard_fits 0) as [Hne Hf]. rewrite (run_ok _ _ _ _ _ (run_ok _ _ _ _ _ (encrypt_sealed _ _ _ _ _ _ _ s (so_sealed _ Hsc r 0 ltac:(lia)) Hne Hf))).
  by destruct r.
Qed.

Lemma handshake_finish r ws noise0 c hs0 rest rest' k n s :
  mine r s → (n ≤ 2)%nat → holds (noise_decoder noise0) rest k → noise_started noise0 = true → noise_failed noise0 = false → k + zlen c ≤ usize_max →
  for_each receive_frame hs0 noise0 =
    (with_pending (NOutbound <$> ws) (mkNoise (Some (last_at r)) None None (noise_decoder noise0) [] true false), Ok tt) →
  parsed (rest ++ c) (hs0 ++ last_frame r :: (cipher sc (other r) <$> seq 0 n)) rest' →
  ∃ d', feed_handshake noise0 c s =
      (add ((Write <$> ws) ++ answer_out (last_answer r) ++ [Write (framed (cipher sc r 0))] ++ concat (tail_out r <$> seq 0 n)) s,
       Ok (tail_phase r n n d')) ∧ holds d' rest' (k + zlen c).
Proof.
  intros Hm Hn Hd Hst Hfa Hk E0 Hp. set (n1 := with_pending _ _) in E0.
  pose proof (receive_handshake (last_frame r) (last_at r) _ _ _ n1 eq_refl eq_refl eq_refl (read_last r) (last_answer_small r)) as E1.
  set (n2 := with_pending _ _) in E1.
  pose proof (open_sealed r 0 n n2 Hn eq_refl ltac:(by eexists)) as E2.
  assert (for_each receive_frame (hs0 ++ last_frame r :: (cipher sc (other r) <$> seq 0 n)) noise0 =
    (advance_receive (key_of sc (other r)) (Z.of_nat (0 + n)) (NDecrypted <$> (heard P2 <$> seq 0 n)) n2, Ok tt)) as Hall.
  { rewrite for_each_app, (run_ok _ _ _ _ _ E0). cbn [for_each]. by rewrite (run_ok _ _ _ _ _ E1). }
  destruct (feed_noise_frames (str "Noise handshake failed: ") noise0 c _ rest rest' k _ s Hd Hst Hfa Hk Hp Hall) as (d' & Hf & Hd').
  exists d'. split; [|done]. cbn [noise_pending advance_receive n2 with_pending n1] in Hf.
  unfold peer_of in Hf. rewrite !foldl_app, peer_of_decrypted in Hf. cbn [out_complete foldl peer_step result_of hr_peer] in Hf.
  rewrite !plain_of_app, plain_of_decrypted, plain_of_outbound, !writes_of_app, writes_of_decrypted, writes_of_outbound in Hf.
  assert (plain_of (out_frame (last_answer r) : list (NoiseOutput (Multihash := Multihash))) = []) as Hpo by (by destruct r).
  assert (writes_of (out_frame (last_answer r) : list (NoiseOutput (Multihash := Multihash))) = answer_out (last_answer r)) as Hwo by (by destruct r).
  rewrite Hpo, Hwo in Hf. cbn [plain_of writes_of out_complete omap list_omap app] in Hf. rewrite !app_nil_r in Hf.
  unfold feed_handshake. rewrite (run_ok _ _ _ _ _ Hf). rewrite run_gets. cbn [add mux_role]. rewrite (proj1 Hm). cbv zeta.
  set (s1 := add _ s). pose proof (drain_start r (Z.of_nat n) d' s1 Hm) as Hs.
  unfold mbind at 1, M_bind at 1 in Hs. unfold mbind at 1, M_bind at 1.
  destruct (call_or (MultistreamFailed (str "Yamux multistream start failed: ")) (Multistream.handle_input Start) (select_for r P2) s1) as [s2 [[sl u]|e| |]]; try done.
  assert (with_decoder d' (idle (advance_receive (key_of sc (other r)) (Z.of_nat (0 + n)) (NDecrypted <$> (heard P2 <$> seq 0 n)) n2)) =
    trans (key_of sc r) (key_of sc (other r)) 0 (Z.of_nat n) d') as -> by done.
  rewrite (run_ok _ _ _ _ _ Hs). etrans; [apply (feed_tail_all r 0 n n d'); [done|lia]|]. cbn [Nat.add]. unfold s1. rewrite !add_add. by rewrite <- !app_assoc.
Qed.

(** The handshake is not over yet. *)
Lemma handshake_wait noise0 h ws c hs0 rest rest' k s :
  holds (noise_decoder noise0) rest k → noise_started noise0 = true → noise_failed noise0 = false → k + zlen c ≤ usize_max →
  for_each receive_frame hs0 noise0 =
    (with_pending (NOutbound <$> ws) (mkNoise (Some h) None None (noise_decoder noise0) [] true false), Ok tt) →
  parsed (rest ++ c) hs0 rest' →
  ∃ d', feed_handshake noise0 c s = (add (Write <$> ws) s, Ok (PNoise (mkNoise (Some h) None None d' [] true false))) ∧ holds d' rest' (k + zlen c).
Proof.
  clear Hsc. intros Hd Hst Hfa Hk E0 Hp.
  destruct (feed_noise_frames (str "Noise handshake failed: ") noise0 c _ rest rest' k _ s Hd Hst Hfa Hk Hp E0) as (d' & Hf & Hd').
  exists d'. split; [|done]. cbn [noise_pending with_pending] in Hf. rewrite writes_of_outbound, plain_of_outbound in Hf.
  rewrite peer_of_outbound in Hf. unfold feed_handshake. by rewrite (run_ok _ _ _ _ _ Hf).
Qed.

(** ** Where a side stands after [q] frames *)

Definition phase_at (r : SessionRole) (q : nat) (d : FrameDecoder) : Phase :=
  match r, q with
  | SInitiator, O => PNoise (greet SInitiator 0 d)
  | SInitiator, S i => tail_phase SInitiator i i d
  | SResponder, O => PNoise (greet SResponder 0 d)
  | SResponder, S O => PNoise (greet SResponder 1 d)
  | SResponder, S (S i) => tail_phase SResponder i i d
  end.
Definition frame_out (r : SessionRole) (q : nat) : list SessionOutput :=
  match r, q with
  | SInitiator, O => [Write (framed (msg3 sc)); Write (framed (cipher sc SInitiator 0))]
  | SInitiator, S i => tail_out SInitiator i
  | SResponder, O => [Write (framed (msg2 sc))]
  | SResponder, S O => [Write (framed (cipher sc SResponder 0))]
  | SResponder, S (S i) => tail_out SResponder i
  end.

Lemma seq_front {A} (f : nat → A) i n hs gs : f <$> seq i n = hs ++ gs → (length hs ≤ n)%nat ∧ hs = f <$> seq i (length hs).
Proof.
  clear Hsc. revert i n. induction hs as [|h hs IH]; intros i n Heq; [split; [cbn; lia|done]|]. destruct n as [|n]; [done|].
  cbn in Heq. injection Heq as <- Heq. apply IH in Heq as [Hl Heq]. cbn. split; [lia|]. by f_equal.
Qed.
Lemma outs_shift (f g : nat → list SessionOutput) i n a b :
  b = (a + i)%nat → (∀ j, f (a + j)%nat = g j) → concat (f <$> seq b n) = concat (g <$> seq i n).
Proof.
  clear Hsc. intros -> Hfg. revert i. induction n as [|n IH]; intros i; [done|]. cbn. rewrite Hfg. f_equal.
  rewrite <- IH. f_equal. f_equal. f_equal. lia.
Qed.

Lemma frames_small r : Forall small (frames r).
Proof.
  destruct Hsc. unfold frames. apply Forall_app. split; [destruct r; by repeat constructor|]. repeat constructor; apply so_sealed0; lia.
Qed.

Lemma tail_noise_feed r i hs gs d rest c rest' k s :
  mine r s → (i ≤ 2)%nat → cipher sc (other r) <$> seq i (2 - i) = hs ++ gs → holds d rest k → k + zlen c ≤ usize_max → parsed (rest ++ c) hs rest' →
  ∃ d', feed_phase (tail_phase r i i d) c s =
    (add (concat (tail_out r <$> seq i (length hs))) s, Ok (tail_phase r (i + length hs) (i + length hs) d')) ∧ holds d' rest' (k + zlen c).
Proof.
  intros Hm Hi Heq Hd Hk Hp. apply seq_front in Heq as [Hl Heq]. rewrite Heq in Hp. by apply (tail_feed r i (length hs) d rest c rest' k s); [|lia|..].
Qed.

Lemma receive_first d :
  for_each receive_frame [msg1 sc] (greet SResponder 0 d) =
    (with_pending (NOutbound <$> [framed (msg2 sc)]) (mkNoise (Some (hsR sc)) None None d [] true false), Ok tt).
Proof.
  cbn [for_each]. destruct Hsc.
  by rewrite (run_ok _ _ _ _ _ (receive_handshake (msg1 sc) _ (hsR sc) (Some (msg2 sc)) None (greet SResponder 0 d) eq_refl eq_refl eq_refl so_read4 so_small5)).
Qed.

Lemma noise_feed r q hs gs d rest c rest' k s :
  mine r s → (q ≤ length (frames r))%nat → drop q (frames r) = hs ++ gs → holds d rest k → k + zlen c ≤ usize_max → parsed (rest ++ c) hs rest' →
  ∃ d', feed_phase (phase_at r q d) c s =
    (add (concat (frame_out r <$> seq q (length hs))) s, Ok (phase_at r (q + length hs) d')) ∧ holds d' rest' (k + zlen c).
Proof.
  intros Hm Hq Heq Hd Hk Hp.
  assert (∀ hs', hs' ++ gs = cipher sc (other r) <$> seq 0 2 → (length hs' ≤ 2)%nat ∧ hs' = cipher sc (other r) <$> seq 0 (length hs')) as Hfront.
  { intros hs' Hh. by apply (seq_front _ _ _ _ gs). }
  destruct r; cbn [frames hs_frames app length fmap list_fmap seq] in Hq; cbn [other] in *.
  - destruct q as [|i]; cbn [phase_at frame_out].
    + destruct hs as [|h hs].
      * destruct (handshake_wait (greet SInitiator 0 d) (hsI sc) [] c [] rest rest' k s Hd eq_refl eq_refl Hk eq_refl Hp) as (d' & Hf & Hd').
        by exists d'.
      * injection Heq as <- Heq. destruct (Hfront hs) as [Hl Hhs]; [by symmetry|]. rewrite Hhs in Hp.
        destruct (handshake_finish SInitiator [] (greet SInitiator 0 d) c [] rest rest' k (length hs) s Hm Hl Hd eq_refl eq_refl Hk eq_refl Hp) as (d' & Hf & Hd').
        exists d'. split; [|done]. cbn [feed_phase]. rewrite Hf. cbn [length seq fmap list_fmap concat phase_at frame_out Nat.add answer_out last_answer app].
        by rewrite (outs_shift (frame_out SInitiator) (tail_out SInitiator) 0 (length hs) 1 1).
    + rewrite (outs_shift (frame_out SInitiator) (tail_out SInitiator) i (length hs) 1 (S i)) by done. cbn [Nat.add].
      destruct i as [|[|[|]]]; [..|lia]; (eapply (tail_noise_feed SInitiator); [done|lia|exact Heq|done|done|done]).
  - destruct q as [|[|i]]; cbn [phase_at frame_out].
    + destruct hs as [|h [|h2 hs]].
      * destruct (handshake_wait (greet SResponder 0 d) (started_party sc SResponder) [] c [] rest rest' k s Hd eq_refl eq_refl Hk eq_refl Hp) as (d' & Hf & Hd').
        by exists d'.
      * injection Heq as <- Heq.
        destruct (handshake_wait (greet SResponder 0 d) (hsR sc) _ c _ rest rest' k s Hd eq_refl eq_refl Hk (receive_first d) Hp) as (d' & Hf & Hd').
        by exists d'.
      * injection Heq as <- <- Heq. destruct (Hfront hs) as [Hl Hhs]; [by symmetry|]. rewrite Hhs in Hp.
        destruct (handshake_finish SResponder _ (greet SResponder 0 d) c [msg1 sc] rest rest' k (length hs) s Hm Hl Hd eq_refl eq_refl Hk (receive_first d) Hp) as (d' & Hf & Hd').
        exists d'. split; [|done]. cbn [feed_phase]. rewrite Hf. cbn [length seq fmap list_fmap concat phase_at frame_out Nat.add answer_out last_answer app].
        by rewrite (outs_shift (frame_out SResponder) (tail_out SResponder) 0 (length hs) 2 2).
    + destruct hs as [|h hs].
      * destruct (handshake_wait (greet SResponder 1 d) (hsR sc) [] c [] rest rest' k s Hd eq_refl eq_refl Hk eq_refl Hp) as (d' & Hf & Hd').
        by exists d'.
      * injection Heq as <- Heq. destruct (Hfront hs) as [Hl Hhs]; [by symmetry|]. rewrite Hhs in Hp.
        destruct (handshake_finish SResponder [] (greet SResponder 1 d) c [] rest rest' k (length hs) s Hm Hl Hd eq_refl eq_refl Hk eq_refl Hp) as (d' & Hf & Hd').
        exists d'. split; [|done]. cbn [feed_phase]. rewrite Hf. cbn [length seq fmap list_fmap concat phase_at frame_out Nat.add answer_out last_answer app].
        by rewrite (outs_shift (frame_out SResponder) (tail_out SResponder) 0 (length hs) 2 2).
    + rewrite (outs_shift (frame_out SResponder) (tail_out SResponder) i (length hs) 2 (S (S i))) by done. cbn [Nat.add].
      destruct i as [|[|[|]]]; [..|lia]; (eapply (tail_noise_feed SResponder); [done|lia|exact Heq|done|done|done]).
Qed.

(** ** The first negotiation *)

Definition sel_out (r : SessionRole) (i : nat) : list SessionOutput :=
  match r, i with
  | SInitiator, O => [Write header]
  | SInitiator, S O => [Write header; Write (offer P1)]
  | SInitiator, _ => [Write header; Write (offer P1); Write (framed (msg1 sc))]
  | SResponder, O | SResponder, S O => [Write header]
  | SResponder, _ => [Write header; Write (offer P1)]
  end.
Definition fresh_noise (r : SessionRole) : NoiseSession := NoiseSession_new (noise_config (conf sc r)).
Definition start_out (r : SessionRole) : option bytes := match r with SInitiator => Some (msg1 sc) | SResponder => None end.

Lemma start_noise r :
  noise_handle_input NStart (fresh_noise r) = (with_pending (out_frame (start_out r)) (greet r 0 FrameDecoder_new), Ok tt).
Proof.
  unfold fresh_noise. destruct Hsc. pose proof (so_role0 r) as Hr. apply (start_input (noise_config (conf sc r)) (hs_at r 0) (start_out r)); [|by destruct r].
  cbn [noise_config nc_role]. rewrite Hr. destruct r; [apply so_startI0|apply so_startR0].
Qed.

Definition boundary (gs : list bytes) (rest : bytes) : Prop := match gs with [] => rest = [] | g :: _ => ∃ z, framed g = rest ++ z ∧ z ≠ [] end.

Lemma select_feed r i buf chunk s :
  mine r s → (i ≤ 1)%nat → buf ++ chunk `prefix_of` concat (heard P1 <$> seq i (2 - i)) ++ concat (framed <$> frames r) → zlen (buf ++ chunk) ≤ usize_max →
  (∃ j buf' new, (i ≤ j ≤ 1)%nat ∧ buf ++ chunk = concat (heard P1 <$> seq i (j - i)) ++ buf' ∧ (∃ z, heard P1 j = buf' ++ z ∧ z ≠ []) ∧
     sel_out r j = sel_out r i ++ new ∧
     feed_phase (SelectNoise (sel r P1 i buf) (Some (fresh_noise r))) chunk s = (add new s, Ok (SelectNoise (sel r P1 j buf') (Some (fresh_noise r))))) ∨
  (∃ hs gs rest d new, frames r = hs ++ gs ∧ buf ++ chunk = concat (heard P1 <$> seq i (2 - i)) ++ concat (framed <$> hs) ++ rest ∧ boundary gs rest ∧
     holds d rest (zlen (buf ++ chunk)) ∧ sel_out r 2 = sel_out r i ++ new ∧
     feed_phase (SelectNoise (sel r P1 i buf) (Some (fresh_noise r))) chunk s =
       (add (new ++ concat (frame_out r <$> seq 0 (length hs))) s, Ok (phase_at r (length hs) d))).
Proof.
  intros Hm Hi Hx Hz. destruct (sel_feed r P1 i buf chunk _ noise_ok ltac:(by vm_compute) Hi Hx) as (j & buf' & Hj & Hrun & Heq & Hb).
  cbn [feed_phase]. rewrite (run_ok _ _ _ _ _ (call_or_ok _ _ _ _ _ s Hrun)). set (sl := {| (sel r P1 j buf') with pending_outputs := _ |}).
  set (spoken := if speaks r i j then [Write (offer P1)] else [] : list SessionOutput).
  rewrite (run_ok _ _ s (add spoken s) (sel r P1 j buf', (tt, (j =? 2)%nat))); cycle 1.
  { rewrite (select_says r P1 i j) by (done || lia).
    assert ({| sl with pending_outputs := [] |} = sel r P1 j buf') as -> by (by destruct r, j as [|[|[|]]]).
    unfold spoken. destruct (speaks r i j); [done|]. by rewrite add_nil. }
  destruct (Nat.ltb_spec j 2).
  - left. exists j, buf', spoken. split; [lia|]. split; [done|]. split; [done|]. split.
    + unfold spoken. by destruct r, i as [|[|]], j as [|[|]]; try lia.
    + replace (j =? 2)%nat with false by (symmetry; apply Nat.eqb_neq; lia). done.
  - right. assert (j = 2%nat) as -> by lia. cbn [Nat.eqb negb].
    destruct (prefix_frames (frames r) buf' (frames_small r) Hb) as (hs & gs & rest & Hfr & Hp & Hbd).
    rewrite (run_ok _ _ _ (add spoken s) (sel r P1 2 [], buf')) by (by destruct r). rewrite run_lift. cbn [ok_or].
    rewrite (run_ok _ _ _ _ _ (call_or_ok _ _ _ _ _ (add spoken s) (start_noise r))).
    rewrite (run_ok _ _ _ _ _ (drain_noise_eq _ (add spoken s))).
    set (s2 := add _ (add spoken s)).
    assert (s2 = add (spoken ++ answer_out (start_out r)) s) as Hs2 by (unfold s2; rewrite add_add; by destruct r).
    assert (sel_out r 2 = sel_out r i ++ spoken ++ answer_out (start_out r)) as Hso by (unfold spoken; by destruct r, i as [|[|]]; try lia).
    assert (holds FrameDecoder_new [] 0) as Hnew by (by split; [split; vm_compute|..]).
    assert (∃ d, (if bool_decide (buf' = []) then mret (PNoise (greet r 0 FrameDecoder_new)) else feed_handshake (greet r 0 FrameDecoder_new) buf') s2 =
      (add (concat (frame_out r <$> seq 0 (length hs))) s2, Ok (phase_at r (length hs) d)) ∧ holds d rest (zlen buf')) as (d & Hfeed & Hd).
    { case_bool_decide as Hnil.
      - subst buf'. destruct Hp as [Hnil _ _]. assert (hs = [] ∧ rest = []) as [-> ->].
        { destruct hs as [|h hs]; [done|]. rewrite fmap_cons, concat_cons in Hnil. pose proof (zlen_framed h). pose proof (zlen_nonneg h).
          destruct (framed h); [unfold zlen in *; cbn in *; lia|done]. }
        exists FrameDecoder_new. cbn. rewrite add_nil. split; [by destruct r|done].
      - destruct (noise_feed r 0 hs gs FrameDecoder_new [] buf' rest 0 s2) as (d & Hf & Hd); [done|lia|done|done| |done|].
        { rewrite Heq, zlen_app in Hz. pose proof (zlen_nonneg (concat (heard P1 <$> seq i (2 - i)))). lia. }
        exists d. split; [|done]. etrans; [|exact Hf]. by destruct r. }
    exists hs, gs, rest, d, (spoken ++ answer_out (start_out r)).
    split; [done|]. split; [rewrite Heq; by rewrite (pa_bytes _ _ _ Hp)|]. split; [done|]. split.
    { destruct Hd as [Hd1 Hd2 Hd3]. split; [done|done|]. rewrite Heq, zlen_app. pose proof (zlen_nonneg (concat (heard P1 <$> seq i (2 - i)))). lia. }
    split; [done|]. rewrite <- add_add, <- Hs2, <- Hfeed. by destruct r.
Qed.

(** ** A side by the messages it has heard *)

Definition messages (r : SessionRole) : list bytes := [header; offer P1] ++ (framed <$> frames r).
(** Everything a side has put out after [n] messages. *)
Definition out_at (r : SessionRole) (n : nat) : list SessionOutput :=
  match n with S (S q) => sel_out r 2 ++ concat (frame_out r <$> seq 0 q) | _ => sel_out r n end.
(** How many messages of its own that is. *)
Definition replies (r : SessionRole) (n : nat) : nat :=
  match r with
  | SInitiator => default 6%nat ([1; 2; 3; 5]%nat !! n)
  | SResponder => default 5%nat ([1; 1; 2; 3; 4; 4]%nat !! n)
  end.
Definition part_of (ms : list bytes) (n : nat) (part : bytes) : Prop :=
  match ms !! n with Some m => ∃ z, m = part ++ z ∧ z ≠ [] | None => part = [] end.
Definition stands (r : SessionRole) (n : nat) (part : bytes) (total : Z) (ph : option Phase) : Prop :=
  match n with
  | S (S q) => ∃ d, holds d part total ∧ ph = Some (phase_at r q d)
  | _ => ph = Some (SelectNoise (sel r P1 n part) (Some (fresh_noise r)))
  end.
Definition view (r : SessionRole) (rx : bytes) (outs : list SessionOutput) s : Prop :=
  mine r s ∧ ∃ n part, (n ≤ length (messages r))%nat ∧ rx = concat (take n (messages r)) ++ part ∧ part_of (messages r) n part ∧
    outs = out_at r n ∧ stands r n part (zlen rx) (mux_phase s).

Definition wire (o : SessionOutput) : bytes := match o with Write bs => bs | _ => [] end.
Definition event (o : SessionOutput) : list PeerId := match o with Established p => [p] | _ => [] end.

Lemma wires_out r n : (n ≤ length (messages r))%nat → Duplex.wires wire (out_at r n) = concat (take (replies r n) (messages (other r))).
Proof.
  clear Hsc. intros Hn. destruct r; do 7 (destruct n as [|n]; [cbn; by rewrite ?app_nil_r, <- ?app_assoc|]); cbn in Hn; lia.
Qed.
Lemma events_out r n : (n ≤ length (messages r))%nat →
  Duplex.events event (out_at r n) = if (n =? length (messages r))%nat then [name_of sc (other r)] else [].
Proof. clear Hsc. intros Hn. destruct r; do 7 (destruct n as [|n]; [done || (cbn in Hn; lia)|]); cbn in Hn; lia. Qed.
Lemma length_out r n : (n ≤ length (messages r))%nat → (length (out_at r n) ≤ 7)%nat.
Proof. clear Hsc. intros Hn. destruct r; do 7 (destruct n as [|n]; [cbn in *; lia|]); cbn in Hn; lia. Qed.

Lemma messages_nonempty r : Forall (λ m : bytes, m ≠ []) (messages r).
Proof.
  clear Hsc. unfold messages. apply Forall_app. split; [by repeat constructor|]. apply Forall_fmap, Forall_true. intros f. apply framed_ne.
Qed.
Lemma messages_short r : zlen (concat (messages r)) ≤ 28 + 4 * (2 + u16_max).
Proof.
  pose proof (frames_small r) as Hs. unfold messages. rewrite concat_app, zlen_app.
  apply zlen_frames in Hs. assert (zlen (frames r) ≤ 4) as Hlen by (by destruct r).
  assert (zlen (concat [header; offer P1]) = 28) as -> by (by vm_compute). unfold u16_max in *. lia.
Qed.
Lemma messages_fit r : zlen (concat (messages r)) ≤ usize_max.
Proof. pose proof (messages_short r). unfold u16_max, usize_max, u64_max in *. lia. Qed.

Lemma messages_split r n k : concat (take (n + k) (messages r)) = concat (take n (messages r)) ++ concat (take k (drop n (messages r))).
Proof. clear Hsc. by rewrite <- take_take_drop, concat_app. Qed.
Lemma heard_messages r i k : (i + k ≤ 2)%nat → heard P1 <$> seq i k = take k (drop i (messages r)).
Proof. clear Hsc. intros Hk. destruct i as [|[|[|]]], k as [|[|[|]]]; done || lia. Qed.
Lemma frames_messages r hs gs : frames r = hs ++ gs → drop (2 + length hs) (messages r) = framed <$> gs ∧ take (length hs) (drop 2 (messages r)) = framed <$> hs.
Proof. clear Hsc. intros Hf. 
  assert (messages r = [header; offer P1] ++ (framed <$> hs) ++ (framed <$> gs)) as -> by (unfold messages; by rewrite Hf, fmap_app).
  cbn [app drop Nat.add]. split; [apply drop_app_length'|apply take_app_length']; by rewrite length_fmap.
Qed.
Lemma concat_front r n : (n ≤ 1)%nat → concat (take (2 - n) (drop n (messages r))) ++ concat (framed <$> frames r) = concat (drop n (messages r)).
Proof. clear Hsc. intros Hn. rewrite <- concat_app. by destruct n as [|[|]]; [..|lia]. Qed.
Lemma boundary_part r hs gs rest : frames r = hs ++ gs → boundary gs rest → part_of (messages r) (2 + length hs) rest.
Proof.
  clear Hsc. intros Hf Hb. unfold part_of. rewrite <- (Nat.add_0_r (2 + length hs)), <- lookup_drop. destruct (frames_messages r hs gs Hf) as [-> _].
  by destruct gs.
Qed.

Lemma handle_input_phase data ph ph' new s :
  data ≠ [] → mux_phase s = Some ph → feed_phase ph data {| s with mux_phase := None |} = (add new {| s with mux_phase := None |}, Ok ph') →
  mux_handle_input data s = ({| (add new s) with mux_phase := Some ph' |}, Ok tt).
Proof.
  clear Hsc. intros Hne Hph Hf. unfold mux_handle_input. rewrite bool_decide_false by done. unfold mbind at 1, M_bind at 1. unfold take_phase. rewrite Hph.
  cbn beta iota. by rewrite (run_ok _ _ _ _ _ Hf).
Qed.

Lemma view_input r rx outs s chunk :
  view r rx outs s → chunk ≠ [] → rx ++ chunk `prefix_of` concat (messages r) →
  ∃ s' new, mux_handle_input chunk s = (s', Ok tt) ∧ mux_outputs s' = mux_outputs s ++ new ∧ view r (rx ++ chunk) (outs ++ new) s'.
Proof.
  intros (Hm & n & part & Hn & -> & Hpart & -> & Hst) Hne Hx. pose proof (messages_fit r) as Hfit.
  assert (zlen (concat (take n (messages r)) ++ part ++ chunk) ≤ usize_max) as Hz.
  { apply prefix_length in Hx. rewrite <- app_assoc in Hx. unfold zlen in *. lia. }
  set (s0 := {| s with mux_phase := None |}). assert (mine r s0) as Hm0 by done.
  rewrite <- app_assoc in Hx |- *.
  assert (part ++ chunk `prefix_of` concat (drop n (messages r))) as Hrest.
  { apply (prefix_app_inv (concat (take n (messages r)))). by rewrite <- concat_app, take_drop. }
  assert (0 ≤ zlen (concat (take n (messages r)))) as Hpos by apply zlen_nonneg.
  destruct (decide (n ≤ 1)%nat) as [Hn1|Hn1].
  - assert (mux_phase s = Some (SelectNoise (sel r P1 n part) (Some (fresh_noise r)))) as Hph by (by destruct n as [|[|]]; [..|lia]).
    assert (out_at r n = sel_out r n) as -> by (by destruct n as [|[|]]; [..|lia]).
    destruct (select_feed r n part chunk s0 Hm0 Hn1) as [(j & buf' & new & Hj & Heq & Hz' & Hso & Hf)|(hs & gs & rest & d & new & Hfr & Heq & Hb & Hd & Hso & Hf)].
    + by rewrite (heard_messages r), concat_front by lia.
    + rewrite zlen_app in Hz. lia.
    + eexists _, new. split; [exact (handle_input_phase chunk _ _ _ s Hne Hph Hf)|]. split; [done|]. split; [done|]. exists j, buf'.
      split; [cbn; lia|]. rewrite (heard_messages r) in Heq by lia. replace j with (n + (j - n))%nat at 1 by lia.
      rewrite messages_split, Heq, <- app_assoc. split; [done|]. destruct j as [|[|]]; [..|lia]; done.
    + eexists _, _. split; [exact (handle_input_phase chunk _ _ _ s Hne Hph Hf)|]. split; [done|]. split; [done|]. exists (2 + length hs)%nat, rest.
      destruct (frames_messages r hs gs Hfr) as [_ Hmsg]. rewrite (heard_messages r) in Heq by lia.
      split; [unfold messages; rewrite Hfr, fmap_app; cbn; rewrite length_app, length_fmap; lia|]. split.
      { rewrite messages_split, Hmsg. replace 2%nat with (n + (2 - n))%nat at 1 by lia. by rewrite messages_split, <- !app_assoc, Heq. }
      split; [by eapply boundary_part|]. split; [cbn; by rewrite app_assoc, Hso|]. exists d. split; [|done].
      eapply holds_mono; [exact Hd|]. rewrite (zlen_app (concat _)). lia.
  - destruct n as [|[|q]]; [lia..|]. destruct Hst as (d & Hd & Hph).
    set (hs := take q (frames r)). set (gs := drop q (frames r)). assert (length hs = q) as Hq.
    { unfold hs. rewrite length_take. unfold messages in Hn. cbn in Hn. rewrite length_fmap in Hn. lia. }
    assert (frames r = hs ++ gs) as Hfr by (symmetry; apply take_drop).
    destruct (frames_messages r hs gs Hfr) as [Hdrop _]. rewrite Hq in Hdrop. cbn [Nat.add] in Hdrop. rewrite Hdrop in Hrest.
    apply prefix_frames in Hrest as (hs' & gs' & rest' & Hgs & Hp & Hb); [|pose proof (frames_small r) as Hs; rewrite Hfr in Hs; by apply Forall_app in Hs as [_ ?]].
    destruct (noise_feed r q hs' gs' d part chunk rest' _ s0 Hm0 ltac:(rewrite Hfr, length_app; lia) Hgs Hd) as (d' & Hf & Hd'); [by rewrite <- zlen_app, <- app_assoc|done|].
    eexists _, _. split; [exact (handle_input_phase chunk _ _ _ s Hne Hph Hf)|]. split; [done|]. split; [done|]. exists (2 + (q + length hs'))%nat, rest'.
    assert (frames r = (hs ++ hs') ++ gs') as Hfr' by (by rewrite Hfr, Hgs, app_assoc).
    destruct (frames_messages r (hs ++ hs') gs' Hfr') as [_ Hmsg].
    split; [unfold messages; rewrite Hfr', fmap_app; cbn; rewrite length_app, !length_fmap, length_app; lia|]. split.
    { change (2 + (q + length hs'))%nat with (S (S q) + length hs')%nat. rewrite messages_split, Hdrop, Hgs, fmap_app, take_app_length', (pa_bytes _ _ _ Hp), <- app_assoc by (by rewrite length_fmap). done. }
    replace (q + length hs')%nat with (length (hs ++ hs')) by (rewrite length_app; lia).
    split; [by eapply boundary_part|]. split.
    { cbn. rewrite length_app, Hq, <- app_assoc. f_equal. rewrite seq_app, fmap_app, concat_app. done. }
    exists d'. rewrite length_app, Hq. split; [|done]. eapply holds_mono; [exact Hd'|]. rewrite <- zlen_app, <- app_assoc. done.
Qed.

Lemma view_said r rx outs s : view r rx outs s →
  Duplex.wires wire outs `prefix_of` concat (messages (other r)) ∧ (length outs ≤ 7)%nat ∧ Duplex.events event outs `prefix_of` [name_of sc (other r)].
Proof.
  clear Hsc. intros (_ & n & part & Hn & _ & _ & -> & _). rewrite wires_out, events_out by done. split; [|split].
  - rewrite <- (take_drop (replies r n) (messages (other r))) at 2. rewrite concat_app. by apply prefix_app_r.
  - by apply length_out.
  - case_match; [done|apply prefix_nil].
Qed.

(** When both have heard all that was said, all was said. *)
Lemma counts_over n m : (n ≤ 5)%nat → n = replies SResponder m → m = replies SInitiator n → n = 5%nat ∧ m = 6%nat.
Proof. clear Hsc. intros Hn -> Hm. revert Hm. do 7 (destruct m as [|m]; [cbn; lia|]). cbn. lia. Qed.

Lemma stands_end r d total ph : stands r (length (messages r)) d total ph → ∃ noise, ph = Some (Ready noise (yamux_of sc r) (name_of sc (other r))).
Proof. clear Hsc. destruct r; intros (d' & _ & ->); by eexists. Qed.

Lemma view_ends rx outs (ss : SessionRole → SecureMuxSession) :
  (∀ r, view r (rx r) (outs r) (ss r)) → (∀ r, rx r = Duplex.wires wire (outs (other r))) →
  ∀ r, Duplex.events event (outs r) = [name_of sc (other r)] ∧ ∃ noise, mux_phase (ss r) = Some (Ready noise (yamux_of sc r) (name_of sc (other r))).
Proof.
  clear Hsc. intros Hv Hrx. destruct (Hv SInitiator) as (_ & n & pI & Hn & HrI & HpI & HoI & HsI).
  destruct (Hv SResponder) as (_ & m & pR & Hm & HrR & HpR & HoR & HsR).
  pose proof (Hrx SInitiator) as HI. pose proof (Hrx SResponder) as HR. cbn [other] in HI, HR. rewrite HoR, wires_out in HI by done. rewrite HoI, wires_out in HR by done.
  rewrite HrI in HI. rewrite HrR in HR. cbn [other] in HI, HR.
  apply messages_count in HI; [|apply messages_nonempty|done|do 7 (destruct m as [|m]; [cbn; lia|]); cbn in Hm; lia|done].
  apply messages_count in HR; [|apply messages_nonempty|done|do 6 (destruct n as [|n]; [cbn; lia|]); cbn in Hn; lia|done].
  destruct (counts_over n m Hn HI HR) as [-> ->].
  intros []; (split; [by rewrite ?HoI, ?HoR, events_out|]); [by apply (stands_end SInitiator pI (zlen (rx SInitiator)))|by apply (stands_end SResponder pR (zlen (rx SResponder)))].
Qed.

Definition opened_mux (c : SessionConfig) : SecureMuxSession := (mux_start (SecureMuxSession_new c)).1.
Lemma view_start r : view r [] (mux_outputs (opened_mux (conf sc r))) (opened_mux (conf sc r)).
Proof.
  assert (opened_mux (conf sc r) = mkMux r (sc_yamux (conf sc r)) (Some (SelectNoise (sel r P1 0 []) (Some (fresh_noise r)))) [Write header]) as ->.
  { unfold opened_mux, SecureMuxSession_new. rewrite (so_role _ Hsc r). by destruct r. }
  split; [done|]. exists 0%nat, []. split; [cbn; lia|]. split; [done|]. split; [by exists header|]. split; [by destruct r|done].
Qed.
End Script.

(** ** The link *)

Definition role_of (b : bool) : SessionRole := if b then SInitiator else SResponder.
Definition mux_pop s : option (SessionOutput * SecureMuxSession) := match mux_poll_output s with (s', Ok (Some o)) => Some (o, s') | _ => None end.
Definition mux_feed (chunk : bytes) s : option SecureMuxSession := match mux_handle_input chunk s with (s', Ok _) => Some s' | _ => None end.
Abbreviation Link := (Duplex (S := SecureMuxSession) (Ev := PeerId)).
Definition link_step : Link → Link → Prop := duplex_step mux_pop mux_feed wire event.
Definition link_quiescent : Link → Prop := duplex_quiescent mux_outputs.
Definition link_start (conf : SessionRole → SessionConfig) : Link := duplex_init (λ b, opened_mux (conf (role_of b))).

Record link_good (name : SessionRole → PeerId) (k : nat) (n : Link) : Prop := {
  lg_bounded : Z.of_nat k ≤ 2 * (28 + 4 * (2 + u16_max)) + 14;
  lg_progress : ¬ link_quiescent n → ∃ n', link_step n n';
  lg_accepts b chunk rest : pipe n b = chunk ++ rest → ∃ s', mux_handle_input chunk (machine n b) = (s', Ok tt);
  lg_log b : log n b `prefix_of` [name (role_of (negb b))];
  lg_over b : link_quiescent n → log n b = [name (role_of (negb b))] ∧ is_established (machine n b) = true ∧
    mux_peer (machine n b) = Some (name (role_of (negb b)));
}.

Lemma other_role b : other (role_of b) = role_of (negb b).
Proof. by destruct b. Qed.
Lemma mux_pop_Some s o s' : mux_pop s = Some (o, s') → mux_outputs s = o :: mux_outputs s' ∧ s' = {| s with mux_outputs := mux_outputs s' |}.
Proof. unfold mux_pop, mux_poll_output. destruct (mux_outputs s); [done|]. intros [= <- <-]. done. Qed.
Lemma mux_pop_None s : mux_pop s = None → mux_outputs s = [].
Proof. unfold mux_pop, mux_poll_output. by destruct (mux_outputs s). Qed.

Definition ended_well (sc : script) (b : bool) s : Prop := is_established s = true ∧ mux_peer s = Some (name_of sc (role_of (negb b))).

Lemma mux_duplex sc : script_ok sc →
  duplex_spec mux_pop mux_feed mux_outputs wire event (λ b, view sc (role_of b)) (λ b, concat (messages sc (role_of (negb b)))) 7
    (λ b, [name_of sc (role_of (negb b))]) (ended_well sc) (λ b, opened_mux (conf sc (role_of b))).
Proof.
  intros Hsc. split.
  - intros s o s' Hp. by apply mux_pop_Some in Hp as [? _].
  - apply mux_pop_None.
  - intros b rx outs s o s' Hv [_ ->]%mux_pop_Some. exact Hv.
  - intros b rx outs s chunk Hv Hne Hx. rewrite negb_involutive in Hx.
    destruct (view_input sc Hsc (role_of b) rx outs s chunk Hv Hne Hx) as (s' & new & Hin & Ho & Hv'). exists s', new. unfold mux_feed. by rewrite Hin.
  - intros b rx outs s Hv. rewrite <- other_role. by eapply view_said.
  - intros rx outs ss Hv Hrx b. set (side r := match r with SInitiator => true | SResponder => false end).
    destruct (view_ends sc (λ r, rx (side r)) (λ r, outs (side r)) (λ r, ss (side r))) with (r := role_of b) as [He (noise & Hph)].
    + intros []; [apply (Hv true)|apply (Hv false)].
    + intros []; [apply (Hrx true)|apply (Hrx false)].
    + rewrite other_role in He, Hph. destruct b; cbn in He, Hph; (split; [done|]); unfold ended_well, is_established, mux_peer; by rewrite Hph.
  - intros b. by apply view_start.
Qed.

Lemma script_link sc k n : script_ok sc → nsteps link_step k (link_start (conf sc)) n → link_good (name_of sc) k n.
Proof.
  intros Hsc Hrun. pose proof (mux_duplex sc Hsc) as Hd. split.
  - pose proof (duplex_bounded _ _ _ _ _ _ _ _ _ _ _ Hd k n Hrun) as Hb.
    pose proof (messages_short sc Hsc SInitiator). pose proof (messages_short sc Hsc SResponder). cbn [negb role_of] in Hb. unfold zlen in *. lia.
  - by apply (duplex_progress _ _ _ _ _ _ _ _ _ _ _ Hd k n).
  - intros b chunk rest Hp. destruct (decide (chunk = [])) as [->|Hne].
    { eexists. unfold mux_handle_input. by rewrite bool_decide_true. }
    destruct (duplex_accepts _ _ _ _ _ _ _ _ _ _ _ Hd k n b chunk rest Hrun Hp Hne) as [s' Hs']. exists s'. unfold mux_feed in Hs'.
    destruct (mux_handle_input chunk (machine n b)) as [s1 [[]|e| |]]; try done. by injection Hs' as ->.
  - intros b. apply (duplex_logs _ _ _ _ _ _ _ _ _ _ _ Hd k n b Hrun).
  - intros b Hq. apply (duplex_over _ _ _ _ _ _ _ _ _ _ _ Hd k n b Hrun Hq).
Qed.

(** ** The upgrade *)

Definition valid_yamux (conf : SessionRole → SessionConfig) : Prop :=
  ∀ r, ∃ y, with_config (match r with SInitiator => Client | SResponder => Server end) (sc_yamux (conf r)) = Ok y.

Lemma sealed_exists k n x : zlen k = 32 → 0 ≤ n < u64_max → fits_segment x → ∃ c, sealed k n x c.
Proof. intros Hk Hn Hx. destruct (segment_step k n x Hk Hn Hx) as (c & ? & ? & ?). by exists c. Qed.
Lemma sealed_pair k : zlen k = 32 → ∃ f, ∀ i, (i ≤ 1)%nat → sealed k (Z.of_nat i) (heard YAMUX_PROTOCOL_ID i) (f i).
Proof.
  intros Hk. destruct (sealed_exists k 0 (heard YAMUX_PROTOCOL_ID 0) Hk) as [c0 Hc0]; [by vm_compute..|].
  destruct (sealed_exists k 1 (heard YAMUX_PROTOCOL_ID 1) Hk) as [c1 Hc1]; [by vm_compute..|].
  exists (λ i, match i with O => c0 | _ => c1 end). intros [|[|]] Hi; [done|done|lia].
Qed.

Lemma script_exists (config : SessionRole → SessionConfig) (name : SessionRole → PeerId) :
  (∀ r, sc_role (config r) = r) → (∀ r, honest (party_of (noise_config (config r))) (name r)) →
  contributory (sc_ephemeral_secret (config SInitiator)) (sc_ephemeral_secret (config SResponder)) →
  contributory (sc_ephemeral_secret (config SInitiator)) (sc_static_secret (config SResponder)) →
  contributory (sc_static_secret (config SInitiator)) (sc_ephemeral_secret (config SResponder)) →
  (∀ r, match sc_expected_peer (config r) with Some q => q = name (other r) | None => True end) → valid_yamux config →
  ∃ sc, script_ok sc ∧ conf sc = config ∧ name_of sc = name.
Proof.
  intros Hrole Hhon Cee Ces Cse Hexp Hy. destruct (Hy SInitiator) as [yI HyI]. destruct (Hy SResponder) as [yR HyR].
  destruct (handshake_run (party_of (noise_config (config SInitiator))) (party_of (noise_config (config SResponder))) (name SInitiator) (name SResponder)
    (Hhon _) (Hhon _) Cee Ces Cse (Hexp SInitiator) (Hexp SResponder))
    as (m1 & m2 & m3 & h1 & h2 & h3 & h4 & k1 & k2 & L1 & L2 & L3 & Lk1 & Lk2 & S1 & S2 & D1 & D2 & D3).
  destruct (sealed_pair k1 Lk1) as [f1 Hf1]. destruct (sealed_pair k2 Lk2) as [f2 Hf2].
  exists (mkScript config name m1 m2 m3 h1 h2 h3 h4 (λ r, match r with SInitiator => k1 | SResponder => k2 end)
    (λ r, match r with SInitiator => f1 | SResponder => f2 end) (λ r, match r with SInitiator => yI | SResponder => yR end)).
  split; [|done]. split; try done; by intros [].
Qed.

(** C8: Two honest parties, each expecting the other or nobody in particular,
    upgrade an ordered byte stream under every schedule of polls and arrivals
    and whatever pieces the bytes come in: every run is bounded, no piece is
    refused and no run is stuck before everything has been said and heard; each
    side reports the other's authenticated name and nothing else, at most once;
    and at the end both have and both sessions are established. *)
Theorem secure_mux_upgrades (conf : SessionRole → SessionConfig) (name : SessionRole → PeerId) k n :
  (∀ r, sc_role (conf r) = r) → (∀ r, honest (party_of (noise_config (conf r))) (name r)) →
  contributory (sc_ephemeral_secret (conf SInitiator)) (sc_ephemeral_secret (conf SResponder)) →
  contributory (sc_ephemeral_secret (conf SInitiator)) (sc_static_secret (conf SResponder)) →
  contributory (sc_static_secret (conf SInitiator)) (sc_ephemeral_secret (conf SResponder)) →
  (∀ r, match sc_expected_peer (conf r) with Some q => q = name (other r) | None => True end) → valid_yamux conf →
  nsteps link_step k (link_start conf) n → link_good name k n.
Proof.
  intros Hrole Hhon Cee Ces Cse Hexp Hy Hrun.
  destruct (script_exists conf name Hrole Hhon Cee Ces Cse Hexp Hy) as (sc & Hsc & <- & <-). by apply script_link.
Qed.
End Upgrade.

(** ** Two sessions *)

#[local] Existing Instance demo_crates.
#[local] Existing Instance demo_crates_spec.
#[local] Existing Instance demo_noise.
#[local] Existing Instance demo_noise_spec.
#[local] Existing Instance demo_signing.
#[local] Existing Instance demo_signing_spec.
Definition demo_byte (r : SessionRole) : byte := match r with SInitiator => x01 | SResponder => x02 end.
Definition demo_conf (r : SessionRole) : SessionConfig (Multihash := Z * bytes) := demo_mux_config r (demo_byte r).

(** The first side speaks, the second hears half of it. *)
Lemma secure_mux_upgrades_witness :
  ∃ n1 n2, link_step (link_start demo_conf) n1 ∧ pipe n1 false = header ∧ link_step n1 n2 ∧ pipe n2 false = drop 10 header ∧
    link_good (λ r, demo_name (demo_byte r)) 2 n2.
Proof.
  assert (∀ k n, nsteps link_step k (link_start demo_conf) n → link_good (λ r, demo_name (demo_byte r)) k n) as Hall.
  { intros k n. apply (secure_mux_upgrades demo_conf (λ r, demo_name (demo_byte r))).
    - by intros [].
    - intros r. apply (demo_honest (noise_role r) (demo_byte r) None).
    - by vm_compute.
    - by vm_compute.
    - by vm_compute.
    - done.
    - intros []; by eexists. }
  eexists _, _. split; [apply (duplex_poll _ _ _ _ true (Write header)); reflexivity|]. split; [by vm_compute|].
  split; [apply (duplex_arrive _ _ _ _ false (take 10 header) (drop 10 header)); [by vm_compute|done|reflexivity]|].
  split; [by vm_compute|]. apply Hall. eapply nsteps_l; [apply (duplex_poll _ _ _ _ true (Write header)); reflexivity|].
  eapply nsteps_l; [apply (duplex_arrive _ _ _ _ false (take 10 header) (drop 10 header)); [by vm_compute|done|reflexivity]|]. apply nsteps_O.
Defined.
