(* ===== verification/RelayMessage.v ===== *)
(** Circuit Relay v2 messages, from [crates/relay/src/message.rs], and the
    framing helpers of [crates/relay/src/lib.rs]. *)

From Stdlib Require Import Strings.Byte.
From S2P Require Import Prelude Varint Text Frame Proto.

Definition MAX_MESSAGE_SIZE : Z := 8192.
Definition MAX_PENDING_BRIDGE_SIZE : Z := 64 * 1024.
Definition MAX_FRAME_PREFIX_LEN : Z := 2.

Inductive HopMessageType := HopReserve | HopConnectKind | HopStatusKind.
Definition HopMessageType_from_u64 (value : Z) : option HopMessageType :=
  match value with
  | 0 => Some HopReserve
  | 1 => Some HopConnectKind
  | 2 => Some HopStatusKind
  | _ => None
  end.
(** [kind as u64]. *)
Definition HopMessageType_tag (k : HopMessageType) : Z :=
  match k with HopReserve => 0 | HopConnectKind => 1 | HopStatusKind => 2 end.

Inductive StopMessageType := StopConnectKind | StopStatusKind.
Definition StopMessageType_from_u64 (value : Z) : option StopMessageType :=
  match value with
  | 0 => Some StopConnectKind
  | 1 => Some StopStatusKind
  | _ => None
  end.
Definition StopMessageType_tag (k : StopMessageType) : Z :=
  match k with StopConnectKind => 0 | StopStatusKind => 1 end.

#[global] Instance HopMessageType_eq_dec : EqDecision HopMessageType.
Proof. solve_decision. Defined.
#[global] Instance StopMessageType_eq_dec : EqDecision StopMessageType.
Proof. solve_decision. Defined.

(** [Ok] is [StatusOk] here. *)
Inductive Status :=
  | Unused
  | StatusOk
  | ReservationRefused
  | ResourceLimitExceeded
  | PermissionDenied
  | ConnectionFailed
  | NoReservation
  | MalformedMessage
  | UnexpectedMessageStatus
  | Unknown (value : Z).

#[global] Instance Status_eq_dec : EqDecision Status.
Proof. solve_decision. Defined.

Definition Status_from_u64 (value : Z) : Status :=
  match value with
  | 100 => StatusOk
  | 200 => ReservationRefused
  | 201 => ResourceLimitExceeded
  | 202 => PermissionDenied
  | 203 => ConnectionFailed
  | 204 => NoReservation
  | 400 => MalformedMessage
  | 401 => UnexpectedMessageStatus
  | 0 => Unused
  | other => Unknown other
  end.

Definition Status_to_u64 (s : Status) : Z :=
  match s with
  | Unused => 0
  | StatusOk => 100
  | ReservationRefused => 200
  | ResourceLimitExceeded => 201
  | PermissionDenied => 202
  | ConnectionFailed => 203
  | NoReservation => 204
  | MalformedMessage => 400
  | UnexpectedMessageStatus => 401
  | Unknown value => value
  end.

Record Peer := mkPeer { peer_id_bytes : bytes; peer_addrs : list bytes }.
Record Reservation := mkReservation {
  expire : option Z;
  reservation_addrs : list bytes;
  voucher : option bytes;
}.
Record Limit := mkLimit { duration : option Z; data_limit : option Z }.

Record HopMessage := mkHop {
  hop_kind : HopMessageType;
  hop_peer : option Peer;
  hop_reservation : option Reservation;
  hop_limit : option Limit;
  hop_status : option Status;
}.
Record StopMessage := mkStop {
  stop_kind : StopMessageType;
  stop_peer : option Peer;
  stop_limit : option Limit;
  stop_status : option Status;
}.

Inductive RelayMessageError :=
  | RVarint (e : VarintError)
  | RFieldOverflow (offset length remaining : Z)
  | RUnsupportedWireType (wire_type offset : Z)
  | MissingType
  | InvalidMessageType (value : Z).

(** A length that does not fit a [usize] is reported as a varint overflow. *)
#[global] Instance relay_proto_errors : ProtoErrors RelayMessageError := {|
  err_varint := RVarint;
  err_past_end := λ _, RVarint BufferTooShort;
  err_overflow := RFieldOverflow;
  err_wide := λ _ _ _, RVarint Overflow;
  err_wire_type := RUnsupportedWireType;
|}.

Abbreviation RC := (M Z RelayMessageError).

(** ** The nested messages *)

Definition Peer_default : Peer := mkPeer [] [].
Definition Peer_encode (p : Peer) : bytes :=
  (match peer_id_bytes p with
   | [] => []
   | _ => encode_bytes_field (tag_byte 1 WIRE_LEN) (peer_id_bytes p)
   end) ++
  concat (encode_bytes_field (tag_byte 2 WIRE_LEN) <$> peer_addrs p).

Definition Peer_step (input : bytes) (field wire_type : Z) (msg : Peer) : RC Peer :=
  if (field =? 1) && (wire_type =? WIRE_LEN) then
    b ← read_len_delimited input; mret {| msg with peer_id_bytes := b |}
  else if (field =? 2) && (wire_type =? WIRE_LEN) then
    b ← read_len_delimited input; mret {| msg with peer_addrs := peer_addrs msg ++ [b] |}
  else _ ← skip_unknown_field input wire_type; mret msg.
Definition Peer_decode (input : bytes) : res RelayMessageError Peer :=
  decode_fields input (Peer_step input) Peer_default.

Definition Reservation_default : Reservation := mkReservation None [] None.
Definition Reservation_encode (r : Reservation) : bytes :=
  (match expire r with
   | Some e => encode_varint_field (tag_byte 1 WIRE_VARINT) e
   | None => []
   end) ++
  concat (encode_bytes_field (tag_byte 2 WIRE_LEN) <$> reservation_addrs r) ++
  (match voucher r with
   | Some v => encode_bytes_field (tag_byte 3 WIRE_LEN) v
   | None => []
   end).

Definition Reservation_step (input : bytes) (field wire_type : Z) (msg : Reservation) : RC Reservation :=
  if (field =? 1) && (wire_type =? WIRE_VARINT) then
    v ← read_varint_value input; mret {| msg with expire := Some v |}
  else if (field =? 2) && (wire_type =? WIRE_LEN) then
    b ← read_len_delimited input;
    mret {| msg with reservation_addrs := reservation_addrs msg ++ [b] |}
  else if (field =? 3) && (wire_type =? WIRE_LEN) then
    b ← read_len_delimited input; mret {| msg with voucher := Some b |}
  else _ ← skip_unknown_field input wire_type; mret msg.
Definition Reservation_decode (input : bytes) : res RelayMessageError Reservation :=
  decode_fields input (Reservation_step input) Reservation_default.

Definition Limit_default : Limit := mkLimit None None.
Definition Limit_encode (l : Limit) : bytes :=
  (match duration l with
   | Some d => encode_varint_field (tag_byte 1 WIRE_VARINT) d
   | None => []
   end) ++
  (match data_limit l with
   | Some d => encode_varint_field (tag_byte 2 WIRE_VARINT) d
   | None => []
   end).

(** [as u32] keeps the low 32 bits. *)
Definition Limit_step (input : bytes) (field wire_type : Z) (msg : Limit) : RC Limit :=
  if (field =? 1) && (wire_type =? WIRE_VARINT) then
    v ← read_varint_value input; mret {| msg with duration := Some (v mod (u32_max + 1)) |}
  else if (field =? 2) && (wire_type =? WIRE_VARINT) then
    v ← read_varint_value input; mret {| msg with data_limit := Some v |}
  else _ ← skip_unknown_field input wire_type; mret msg.
Definition Limit_decode (input : bytes) : res RelayMessageError Limit :=
  decode_fields input (Limit_step input) Limit_default.

(** ** The messages *)

Definition HopMessage_encode (m : HopMessage) : bytes :=
  encode_varint_field (tag_byte 1 WIRE_VARINT) (HopMessageType_tag (hop_kind m)) ++
  opt_bytes (λ p, encode_bytes_field (tag_byte 2 WIRE_LEN) (Peer_encode p)) (hop_peer m) ++
  opt_bytes (λ r, encode_bytes_field (tag_byte 3 WIRE_LEN) (Reservation_encode r)) (hop_reservation m) ++
  opt_bytes (λ l, encode_bytes_field (tag_byte 4 WIRE_LEN) (Limit_encode l)) (hop_limit m) ++
  opt_bytes (λ s, encode_varint_field (tag_byte 5 WIRE_VARINT) (Status_to_u64 s)) (hop_status m).

(** The local variables of [HopMessage::decode]. *)
Record HopFields := mkHopFields {
  f_kind : option HopMessageType;
  f_peer : option Peer;
  f_reservation : option Reservation;
  f_limit : option Limit;
  f_status : option Status;
}.

Definition HopMessage_step (input : bytes) (field wire_type : Z) (m : HopFields) : RC HopFields :=
  if (field =? 1) && (wire_type =? WIRE_VARINT) then
    value ← read_varint_value input;
    kind ← lift (ok_or (HopMessageType_from_u64 value) (InvalidMessageType value));
    mret {| m with f_kind := Some kind |}
  else if (field =? 2) && (wire_type =? WIRE_LEN) then
    body ← read_len_delimited input;
    p ← lift (Peer_decode body);
    mret {| m with f_peer := Some p |}
  else if (field =? 3) && (wire_type =? WIRE_LEN) then
    body ← read_len_delimited input;
    r ← lift (Reservation_decode body);
    mret {| m with f_reservation := Some r |}
  else if (field =? 4) && (wire_type =? WIRE_LEN) then
    body ← read_len_delimited input;
    l ← lift (Limit_decode body);
    mret {| m with f_limit := Some l |}
  else if (field =? 5) && (wire_type =? WIRE_VARINT) then
    value ← read_varint_value input;
    mret {| m with f_status := Some (Status_from_u64 value) |}
  else _ ← skip_unknown_field input wire_type; mret m.

Definition HopMessage_decode (input : bytes) : res RelayMessageError HopMessage :=
  m ← decode_fields input (HopMessage_step input) (mkHopFields None None None None None);
  kind ← ok_or (f_kind m) MissingType;
  mret (mkHop kind (f_peer m) (f_reservation m) (f_limit m) (f_status m)).

Definition StopMessage_encode (m : StopMessage) : bytes :=
  encode_varint_field (tag_byte 1 WIRE_VARINT) (StopMessageType_tag (stop_kind m)) ++
  opt_bytes (λ p, encode_bytes_field (tag_byte 2 WIRE_LEN) (Peer_encode p)) (stop_peer m) ++
  opt_bytes (λ l, encode_bytes_field (tag_byte 3 WIRE_LEN) (Limit_encode l)) (stop_limit m) ++
  opt_bytes (λ s, encode_varint_field (tag_byte 4 WIRE_VARINT) (Status_to_u64 s)) (stop_status m).

Record StopFields := mkStopFields {
  s_kind : option StopMessageType;
  s_peer : option Peer;
  s_limit : option Limit;
  s_status : option Status;
}.

Definition StopMessage_step (input : bytes) (field wire_type : Z) (m : StopFields) : RC StopFields :=
  if (field =? 1) && (wire_type =? WIRE_VARINT) then
    value ← read_varint_value input;
    kind ← lift (ok_or (StopMessageType_from_u64 value) (InvalidMessageType value));
    mret {| m with s_kind := Some kind |}
  else if (field =? 2) && (wire_type =? WIRE_LEN) then
    body ← read_len_delimited input;
    p ← lift (Peer_decode body);
    mret {| m with s_peer := Some p |}
  else if (field =? 3) && (wire_type =? WIRE_LEN) then
    body ← read_len_delimited input;
    l ← lift (Limit_decode body);
    mret {| m with s_limit := Some l |}
  else if (field =? 4) && (wire_type =? WIRE_VARINT) then
    value ← read_varint_value input;
    mret {| m with s_status := Some (Status_from_u64 value) |}
  else _ ← skip_unknown_field input wire_type; mret m.

Definition StopMessage_decode (input : bytes) : res RelayMessageError StopMessage :=
  m ← decode_fields input (StopMessage_step input) (mkStopFields None None None None);
  kind ← ok_or (s_kind m) MissingType;
  mret (mkStop kind (s_peer m) (s_limit m) (s_status m)).

Definition describe_status (s : Status) : bytes :=
  match s with
  | StatusOk => str "OK"
  | other =>
      let name :=
        match other with
        | Unused => str "UNUSED"
        | StatusOk => str "OK"
        | ReservationRefused => str "RESERVATION_REFUSED"
        | ResourceLimitExceeded => str "RESOURCE_LIMIT_EXCEEDED"
        | PermissionDenied => str "PERMISSION_DENIED"
        | ConnectionFailed => str "CONNECTION_FAILED"
        | NoReservation => str "NO_RESERVATION"
        | MalformedMessage => str "MALFORMED_MESSAGE"
        | UnexpectedMessageStatus => str "UNEXPECTED_MESSAGE"
        | Unknown _ => str "UNKNOWN"
        end in
      name ++ str " (" ++ dec (Status_to_u64 other) ++ str ")"
  end.

(** ** Framing *)

Inductive RelayError :=
  | MessageTooLarge (len : Z)
  | FrameTooLarge (len : Z)
  | Malformed (e : RelayMessageError)
  | UnexpectedMessage (reason : bytes)
  | DecisionPending
  | PendingBridgeTooLarge (len : Z).

Definition relay_decode_frame (input : bytes) : FrameDecode := decode_frame input MAX_MESSAGE_SIZE.

Definition enforce_max_size (buf : bytes) : res RelayError unit :=
  if MAX_MESSAGE_SIZE + MAX_FRAME_PREFIX_LEN <? zlen buf then Err (MessageTooLarge (zlen buf)) else Ok tt.

Definition checked_outbound_frame (payload : bytes) : res RelayError bytes :=
  if MAX_MESSAGE_SIZE <? zlen payload then Err (MessageTooLarge (zlen payload))
  else Ok (encode_frame payload).

Definition encode_hop_status (status : Status) (reservation : option Reservation) (limit : option Limit)
    : res RelayError bytes :=
  checked_outbound_frame
    (HopMessage_encode (mkHop HopStatusKind None reservation limit (Some status))).

Definition encode_stop_status (status : Status) : res RelayError bytes :=
  checked_outbound_frame (StopMessage_encode (mkStop StopStatusKind None None (Some status))).

Example relay_demo :
  let m := mkHop HopStatusKind None (Some (mkReservation (Some 77) [str "a"; str "bc"] None))
             (Some (mkLimit (Some 120) (Some 131072))) (Some StatusOk) in
  HopMessage_decode (HopMessage_encode m) = Ok m ∧
  HopMessage_decode [x08; x07] = Err (InvalidMessageType 7) ∧
  HopMessage_decode [] = Err MissingType ∧
  describe_status NoReservation = str "NO_RESERVATION (204)".
Proof. by vm_compute. Qed.

(** ** What the fields mean *)

Definition Peer_interp (f : Z) (v : Value) (m : Peer) : res RelayMessageError Peer :=
  match v with
  | VLen b =>
      if f =? 1 then Ok {| m with peer_id_bytes := b |}
      else if f =? 2 then Ok {| m with peer_addrs := peer_addrs m ++ [b] |}
      else Ok m
  | _ => Ok m
  end.

Definition Reservation_interp (f : Z) (v : Value) (m : Reservation) : res RelayMessageError Reservation :=
  match v with
  | VVarint v => if f =? 1 then Ok {| m with expire := Some v |} else Ok m
  | VLen b =>
      if f =? 2 then Ok {| m with reservation_addrs := reservation_addrs m ++ [b] |}
      else if f =? 3 then Ok {| m with voucher := Some b |}
      else Ok m
  | _ => Ok m
  end.

Definition Limit_interp (f : Z) (v : Value) (m : Limit) : res RelayMessageError Limit :=
  match v with
  | VVarint v =>
      if f =? 1 then Ok {| m with duration := Some (v mod (u32_max + 1)) |}
      else if f =? 2 then Ok {| m with data_limit := Some v |}
      else Ok m
  | _ => Ok m
  end.

Definition HopMessage_interp (f : Z) (v : Value) (m : HopFields) : res RelayMessageError HopFields :=
  match v with
  | VVarint v =>
      if f =? 1 then
        kind ← ok_or (HopMessageType_from_u64 v) (InvalidMessageType v);
        Ok {| m with f_kind := Some kind |}
      else if f =? 5 then Ok {| m with f_status := Some (Status_from_u64 v) |}
      else Ok m
  | VLen b =>
      if f =? 2 then p ← Peer_decode b; Ok {| m with f_peer := Some p |}
      else if f =? 3 then r ← Reservation_decode b; Ok {| m with f_reservation := Some r |}
      else if f =? 4 then l ← Limit_decode b; Ok {| m with f_limit := Some l |}
      else Ok m
  | _ => Ok m
  end.

Definition StopMessage_interp (f : Z) (v : Value) (m : StopFields) : res RelayMessageError StopFields :=
  match v with
  | VVarint v =>
      if f =? 1 then
        kind ← ok_or (StopMessageType_from_u64 v) (InvalidMessageType v);
        Ok {| m with s_kind := Some kind |}
      else if f =? 4 then Ok {| m with s_status := Some (Status_from_u64 v) |}
      else Ok m
  | VLen b =>
      if f =? 2 then p ← Peer_decode b; Ok {| m with s_peer := Some p |}
      else if f =? 3 then l ← Limit_decode b; Ok {| m with s_limit := Some l |}
      else Ok m
  | _ => Ok m
  end.

Lemma Peer_reads input : zlen input ≤ usize_max → reads_fields input (Peer_step input) Peer_interp.
Proof. intros. solve_reads_fields Peer_step Peer_interp. Qed.
Lemma Reservation_reads input :
  zlen input ≤ usize_max → reads_fields input (Reservation_step input) Reservation_interp.
Proof. intros. solve_reads_fields Reservation_step Reservation_interp. Qed.
Lemma Limit_reads input : zlen input ≤ usize_max → reads_fields input (Limit_step input) Limit_interp.
Proof. intros. solve_reads_fields Limit_step Limit_interp. Qed.
Lemma Hop_reads input : zlen input ≤ usize_max → reads_fields input (HopMessage_step input) HopMessage_interp.
Proof. intros. solve_reads_fields HopMessage_step HopMessage_interp. Qed.
Lemma Stop_reads input : zlen input ≤ usize_max → reads_fields input (StopMessage_step input) StopMessage_interp.
Proof. intros. solve_reads_fields StopMessage_step StopMessage_interp. Qed.

(** ** Every input is decoded or refused *)

Lemma Peer_decode_returns input : zlen input ≤ usize_max → returns (Peer_decode input).
Proof.
  intros Hl. apply (decode_fields_returns _ Hl _ _ (Peer_reads _ Hl)).
  intros f v m _. unfold Peer_interp. by repeat case_match.
Qed.
Lemma Reservation_decode_returns input : zlen input ≤ usize_max → returns (Reservation_decode input).
Proof.
  intros Hl. apply (decode_fields_returns _ Hl _ _ (Reservation_reads _ Hl)).
  intros f v m _. unfold Reservation_interp. by repeat case_match.
Qed.
Lemma Limit_decode_returns input : zlen input ≤ usize_max → returns (Limit_decode input).
Proof.
  intros Hl. apply (decode_fields_returns _ Hl _ _ (Limit_reads _ Hl)).
  intros f v m _. unfold Limit_interp. by repeat case_match.
Qed.

Lemma HopMessage_decode_returns input : zlen input ≤ usize_max → returns (HopMessage_decode input).
Proof.
  intros Hl. apply returns_bind.
  - apply (decode_fields_returns _ Hl _ _ (Hop_reads _ Hl)).
    intros f v m Hv. unfold HopMessage_interp. destruct v as [v|b|b|b]; try done.
    + repeat case_match; try done. by destruct (HopMessageType_from_u64 _).
    + apply len_value_small in Hv. repeat case_match; try done; apply returns_bind; try done;
        [apply Peer_decode_returns|apply Reservation_decode_returns|apply Limit_decode_returns]; lia.
  - intros m. by destruct (f_kind m).
Qed.
Lemma StopMessage_decode_returns input : zlen input ≤ usize_max → returns (StopMessage_decode input).
Proof.
  intros Hl. apply returns_bind.
  - apply (decode_fields_returns _ Hl _ _ (Stop_reads _ Hl)).
    intros f v m Hv. unfold StopMessage_interp. destruct v as [v|b|b|b]; try done.
    + repeat case_match; try done. by destruct (StopMessageType_from_u64 _).
    + apply len_value_small in Hv. repeat case_match; try done; apply returns_bind; try done;
        [apply Peer_decode_returns|apply Limit_decode_returns]; lia.
  - intros m. by destruct (s_kind m).
Qed.

(** ** Round trips *)

Definition Peer_tokens (p : Peer) : list token :=
  (match peer_id_bytes p with [] => [] | _ => [(1, VLen (peer_id_bytes p))] end) ++
  ((λ a, (2, VLen a)) <$> peer_addrs p).
Definition Reservation_tokens (r : Reservation) : list token :=
  (match expire r with Some e => [(1, VVarint e)] | None => [] end) ++
  ((λ a, (2, VLen a)) <$> reservation_addrs r) ++
  (match voucher r with Some v => [(3, VLen v)] | None => [] end).
Definition Limit_tokens (l : Limit) : list token :=
  (match duration l with Some d => [(1, VVarint d)] | None => [] end) ++
  (match data_limit l with Some d => [(2, VVarint d)] | None => [] end).
Definition HopMessage_tokens (m : HopMessage) : list token :=
  [(1, VVarint (HopMessageType_tag (hop_kind m)))] ++
  opt_token (λ p, (2, VLen (Peer_encode p))) (hop_peer m) ++
  opt_token (λ r, (3, VLen (Reservation_encode r))) (hop_reservation m) ++
  opt_token (λ l, (4, VLen (Limit_encode l))) (hop_limit m) ++
  opt_token (λ s, (5, VVarint (Status_to_u64 s))) (hop_status m).
Definition StopMessage_tokens (m : StopMessage) : list token :=
  [(1, VVarint (StopMessageType_tag (stop_kind m)))] ++
  opt_token (λ p, (2, VLen (Peer_encode p))) (stop_peer m) ++
  opt_token (λ l, (3, VLen (Limit_encode l))) (stop_limit m) ++
  opt_token (λ s, (4, VVarint (Status_to_u64 s))) (stop_status m).

Lemma Peer_encode_tokens p : Peer_encode p = concat (token_bytes <$> Peer_tokens p).
Proof.
  unfold Peer_encode, Peer_tokens. autorewrite with tokens. f_equal.
  destruct (peer_id_bytes p); [done|]. cbn [fmap list_fmap concat]. by rewrite app_nil_r.
Qed.
Lemma Reservation_encode_tokens r : Reservation_encode r = concat (token_bytes <$> Reservation_tokens r).
Proof.
  unfold Reservation_encode, Reservation_tokens. destruct (expire r), (voucher r);
    autorewrite with tokens; cbn [fmap list_fmap concat]; by rewrite ?app_nil_r.
Qed.
Lemma Limit_encode_tokens l : Limit_encode l = concat (token_bytes <$> Limit_tokens l).
Proof.
  unfold Limit_encode, Limit_tokens. destruct (duration l), (data_limit l);
    autorewrite with tokens; cbn [fmap list_fmap concat]; by rewrite ?app_nil_r.
Qed.
Lemma Hop_encode_tokens m : HopMessage_encode m = concat (token_bytes <$> HopMessage_tokens m).
Proof.
  unfold HopMessage_encode, HopMessage_tokens.
  destruct (hop_peer m), (hop_reservation m), (hop_limit m), (hop_status m); cbn [opt_token opt_bytes];
    autorewrite with tokens; cbn [fmap list_fmap concat]; by rewrite ?app_nil_r.
Qed.
Lemma Stop_encode_tokens m : StopMessage_encode m = concat (token_bytes <$> StopMessage_tokens m).
Proof.
  unfold StopMessage_encode, StopMessage_tokens.
  destruct (stop_peer m), (stop_limit m), (stop_status m); cbn [opt_token opt_bytes];
    autorewrite with tokens; cbn [fmap list_fmap concat]; by rewrite ?app_nil_r.
Qed.

(** Values a Rust message can hold at all; an [Unknown] status is a number that
    the protocol gives no name. *)
Definition Reservation_typed (r : Reservation) : Prop := opt_typed (λ e, 0 ≤ e ≤ u64_max) (expire r).
Definition Limit_typed (l : Limit) : Prop :=
  opt_typed (λ d, 0 ≤ d ≤ u32_max) (duration l) ∧ opt_typed (λ d, 0 ≤ d ≤ u64_max) (data_limit l).
Definition Status_typed (s : Status) : Prop :=
  match s with
  | Unknown v => 0 ≤ v ≤ u64_max ∧ v ∉ [0; 100; 200; 201; 202; 203; 204; 400; 401]
  | _ => True
  end.
Definition Hop_typed (m : HopMessage) : Prop :=
  opt_typed Reservation_typed (hop_reservation m) ∧ opt_typed Limit_typed (hop_limit m) ∧
  opt_typed Status_typed (hop_status m).
Definition Stop_typed (m : StopMessage) : Prop :=
  opt_typed Limit_typed (stop_limit m) ∧ opt_typed Status_typed (stop_status m).

Lemma Status_round_trip s : Status_typed s → Status_from_u64 (Status_to_u64 s) = s.
Proof.
  destruct s as [| | | | | | | | |v]; try done. cbn. intros [_ Hv]. rewrite !not_elem_of_cons in Hv.
  unfold Status_from_u64. destruct_and? Hv. repeat (case_match; try done).
Qed.
Lemma Status_range s : Status_typed s → 0 ≤ Status_to_u64 s ≤ u64_max.
Proof. unfold u64_max. destruct s; cbn; try (unfold u64_max; lia). Qed.

Lemma Peer_round_trip p : zlen (Peer_encode p) ≤ usize_max → Peer_decode (Peer_encode p) = Ok p.
Proof.
  intros Hl. apply (decode_fields_ok _ Hl _ _ (Peer_reads _ Hl)). exists (Peer_tokens p).
  rewrite Peer_encode_tokens in *. split_and!; [|done|].
  - apply tokens_fit; [|done]. unfold Peer_tokens. apply Forall_app. split.
    + destruct (peer_id_bytes p); repeat constructor; cbn; lia.
    + apply Forall_fmap, Forall_true. intros a. cbn. split; [cbn; lia|done].
  - destruct p as [id addrs]. unfold Peer_tokens. cbn [peer_id_bytes peer_addrs].
    rewrite (interpret_app _ _ _ _ (mkPeer id [])) by (by destruct id).
    by apply (interpret_repeated _ (λ a, (2, VLen a)) (mkPeer id) _ []).
Qed.

Lemma Reservation_round_trip r :
  Reservation_typed r → zlen (Reservation_encode r) ≤ usize_max →
  Reservation_decode (Reservation_encode r) = Ok r.
Proof.
  intros Ht Hl. apply (decode_fields_ok _ Hl _ _ (Reservation_reads _ Hl)). exists (Reservation_tokens r).
  rewrite Reservation_encode_tokens in *. split_and!; [|done|].
  - apply tokens_fit; [|done]. unfold Reservation_tokens, Reservation_typed in *. rewrite !Forall_app. split_and!.
    + destruct (expire r); repeat constructor; cbn in *; lia.
    + apply Forall_fmap, Forall_true. intros a. cbn. split; [cbn; lia|done].
    + destruct (voucher r); repeat constructor; cbn in *; lia.
  - destruct r as [e addrs v]. unfold Reservation_tokens. cbn [expire reservation_addrs voucher].
    rewrite (interpret_app _ _ _ _ (mkReservation e [] None)) by (by destruct e).
    rewrite (interpret_app _ _ _ _ (mkReservation e addrs None))
      by (by apply (interpret_repeated _ (λ a, (2, VLen a)) (λ l, mkReservation e l None) _ [])).
    by destruct v.
Qed.

Lemma Limit_round_trip l :
  Limit_typed l → zlen (Limit_encode l) ≤ usize_max → Limit_decode (Limit_encode l) = Ok l.
Proof.
  intros Ht Hl. apply (decode_fields_ok _ Hl _ _ (Limit_reads _ Hl)). exists (Limit_tokens l).
  rewrite Limit_encode_tokens in *. destruct l as [d b], Ht as [Hd Hb]. cbn in Hd, Hb. split_and!; [|done|].
  - apply tokens_fit; [|done]. unfold Limit_tokens, u32_max, u64_max in *. cbn in *.
    destruct d, b; cbn in *; repeat constructor; cbn; unfold u64_max; lia.
  - destruct d as [d|], b as [b|]; cbn in *; rewrite ?Z.mod_small by (unfold u32_max in *; lia); done.
Qed.

(** What the fields of an encoded message say. *)
Lemma Hop_interpret m :
  Hop_typed m → (∀ f b, (f, VLen b) ∈ HopMessage_tokens m → zlen b ≤ usize_max) →
  interpret HopMessage_interp (HopMessage_tokens m) (mkHopFields None None None None None) =
    Ok (mkHopFields (Some (hop_kind m)) (hop_peer m) (hop_reservation m) (hop_limit m) (hop_status m)).
Proof.
  destruct m as [k p r l s]. intros (Hr & Hl & Hs) Hin. unfold HopMessage_tokens, opt_token in *. cbn in *.
  assert (HopMessageType_from_u64 (HopMessageType_tag k) = Some k) as -> by (by destruct k). cbn.
  destruct p as [p|]; [cbn; rewrite Peer_round_trip by (apply (Hin 2); set_solver); cbn|cbn];
  (destruct r as [r|]; [cbn; rewrite Reservation_round_trip by (done || (apply (Hin 3); set_solver)); cbn|cbn]);
  (destruct l as [l|]; [cbn; rewrite Limit_round_trip by (done || (apply (Hin 4); set_solver)); cbn|cbn]);
  (destruct s as [s|]; [cbn; rewrite Status_round_trip by done; cbn|cbn]); done.
Qed.

Lemma Stop_interpret m :
  Stop_typed m → (∀ f b, (f, VLen b) ∈ StopMessage_tokens m → zlen b ≤ usize_max) →
  interpret StopMessage_interp (StopMessage_tokens m) (mkStopFields None None None None) =
    Ok (mkStopFields (Some (stop_kind m)) (stop_peer m) (stop_limit m) (stop_status m)).
Proof.
  destruct m as [k p l s]. intros (Hl & Hs) Hin. unfold StopMessage_tokens, opt_token in *. cbn in *.
  assert (StopMessageType_from_u64 (StopMessageType_tag k) = Some k) as -> by (by destruct k). cbn.
  destruct p as [p|]; [cbn; rewrite Peer_round_trip by (apply (Hin 2); set_solver); cbn|cbn];
  (destruct l as [l|]; [cbn; rewrite Limit_round_trip by (done || (apply (Hin 3); set_solver)); cbn|cbn]);
  (destruct s as [s|]; [cbn; rewrite Status_round_trip by done; cbn|cbn]); done.
Qed.

Lemma Hop_tokens_typed m : Hop_typed m → Forall token_typed (HopMessage_tokens m).
Proof.
  destruct m as [k p r l s]. intros (Hr & Hl & Hs). unfold HopMessage_tokens, opt_token. cbn in *.
  assert (0 ≤ HopMessageType_tag k ≤ u64_max) by (destruct k; unfold u64_max; cbn; lia).
  constructor; [split; cbn; lia|]. rewrite !Forall_app.
  destruct p, r, l, s as [s|]; try (pose proof (Status_range s Hs)); cbn; split_and!; repeat constructor; cbn; lia.
Qed.

Lemma Stop_tokens_typed m : Stop_typed m → Forall token_typed (StopMessage_tokens m).
Proof.
  destruct m as [k p l s]. intros (Hl & Hs). unfold StopMessage_tokens, opt_token. cbn in *.
  assert (0 ≤ StopMessageType_tag k ≤ u64_max) by (destruct k; unfold u64_max; cbn; lia).
  constructor; [split; cbn; lia|]. rewrite !Forall_app.
  destruct p, l, s as [s|]; try (pose proof (Status_range s Hs)); cbn; split_and!; repeat constructor; cbn; lia.
Qed.

Lemma Hop_ignores ts : unknown_fields 5 ts → Forall (λ t, ∀ m, HopMessage_interp t.1 t.2 m = Ok m) ts.
Proof.
  intros Hts. eapply Forall_impl; [exact Hts|]. intros [f v] [_ Hf] m. cbn in *. unfold HopMessage_interp.
  rewrite !(proj2 (Z.eqb_neq f _)) by lia. by destruct v.
Qed.
Lemma Stop_ignores ts : unknown_fields 4 ts → Forall (λ t, ∀ m, StopMessage_interp t.1 t.2 m = Ok m) ts.
Proof.
  intros Hts. eapply Forall_impl; [exact Hts|]. intros [f v] [_ Hf] m. cbn in *. unfold StopMessage_interp.
  rewrite !(proj2 (Z.eqb_neq f _)) by lia. by destruct v.
Qed.

Lemma Hop_round_trip m us vs :
  Hop_typed m → unknown_fields 5 us → unknown_fields 5 vs →
  zlen (fields_bytes us ++ HopMessage_encode m ++ fields_bytes vs) ≤ usize_max →
  HopMessage_decode (fields_bytes us ++ HopMessage_encode m ++ fields_bytes vs) = Ok m.
Proof.
  intros Hm Hus Hvs Hl. unfold HopMessage_decode. rewrite Hop_encode_tokens in *.
  rewrite <- !concat_app, <- !fmap_app in *.
  erewrite (proj2 (decode_fields_ok _ Hl _ _ (Hop_reads _ Hl) _
    (mkHopFields (Some (hop_kind m)) (hop_peer m) (hop_reservation m) (hop_limit m) (hop_status m)))).
  { cbn. by destruct m. }
  eexists. split_and!; [|reflexivity|].
  - apply tokens_fit; [|done]. rewrite !Forall_app. split_and!; [|by apply Hop_tokens_typed|];
      (eapply Forall_impl; [eassumption|]; by intros ? [? _]).
  - rewrite (interpret_app _ _ _ _ (mkHopFields None None None None None))
      by (by apply interpret_ignored, Hop_ignores).
    erewrite interpret_app; [apply interpret_ignored, Hop_ignores; done|].
    apply Hop_interpret; [done|]. intros f b Hin. eapply (token_part_le f); [|exact Hl]. set_solver.
Qed.

Lemma Stop_round_trip m us vs :
  Stop_typed m → unknown_fields 4 us → unknown_fields 4 vs →
  zlen (fields_bytes us ++ StopMessage_encode m ++ fields_bytes vs) ≤ usize_max →
  StopMessage_decode (fields_bytes us ++ StopMessage_encode m ++ fields_bytes vs) = Ok m.
Proof.
  intros Hm Hus Hvs Hl. unfold StopMessage_decode. rewrite Stop_encode_tokens in *.
  rewrite <- !concat_app, <- !fmap_app in *.
  erewrite (proj2 (decode_fields_ok _ Hl _ _ (Stop_reads _ Hl) _
    (mkStopFields (Some (stop_kind m)) (stop_peer m) (stop_limit m) (stop_status m)))).
  { cbn. by destruct m. }
  eexists. split_and!; [|reflexivity|].
  - apply tokens_fit; [|done]. rewrite !Forall_app. split_and!; [|by apply Stop_tokens_typed|];
      (eapply Forall_impl; [eassumption|]; by intros ? [? _]).
  - rewrite (interpret_app _ _ _ _ (mkStopFields None None None None))
      by (by apply interpret_ignored, Stop_ignores).
    erewrite interpret_app; [apply interpret_ignored, Stop_ignores; done|].
    apply Stop_interpret; [done|]. intros f b Hin. eapply (token_part_le f); [|exact Hl]. set_solver.
Qed.

(** ** Frames on a stream *)

Lemma relay_frame_complete p rest :
  zlen p ≤ MAX_MESSAGE_SIZE →
  relay_decode_frame (encode_frame p ++ rest) = Complete p (zlen (encode_frame p)).
Proof. intros Hp. by apply decode_frame_complete. Qed.

Lemma zlen_relay_frame p :
  zlen p ≤ MAX_MESSAGE_SIZE → 0 < zlen (encode_frame p) ≤ MAX_MESSAGE_SIZE + MAX_FRAME_PREFIX_LEN.
Proof. unfold MAX_MESSAGE_SIZE, MAX_FRAME_PREFIX_LEN. intros Hp. pose proof (zlen_short_frame p). lia. Qed.

(** While a legal frame is incomplete, more bytes are waited for. *)
Definition awaits (b : bytes) : Prop := relay_decode_frame b = Incomplete ∧ enforce_max_size b = Ok tt.

Lemma frame_awaits p b :
  zlen p ≤ MAX_MESSAGE_SIZE → strict_prefix b (encode_frame p) → awaits b.
Proof.
  intros Hp Hb. split; [by eapply decode_frame_prefix|]. destruct Hb as (k & _ & Hf). pose proof (zlen_relay_frame p Hp) as Hz.
  unfold enforce_max_size. rewrite Hf, zlen_app in Hz. pose proof (zlen_nonneg k).
  by destruct (Z.ltb_spec (MAX_MESSAGE_SIZE + MAX_FRAME_PREFIX_LEN) (zlen b)); [lia|].
Qed.

(** A message that fits in a frame is decoded. *)
Lemma Hop_decode_fits m :
  Hop_typed m → zlen (HopMessage_encode m) ≤ MAX_MESSAGE_SIZE →
  HopMessage_decode (HopMessage_encode m) = Ok m.
Proof.
  intros Hm Hz. pose proof (Hop_round_trip m [] [] Hm ltac:(constructor) ltac:(constructor)) as H.
  cbn [fmap list_fmap concat app] in H. rewrite app_nil_r in H. apply H.
  unfold MAX_MESSAGE_SIZE, usize_max, u64_max in *. lia.
Qed.
Lemma Stop_decode_fits m :
  Stop_typed m → zlen (StopMessage_encode m) ≤ MAX_MESSAGE_SIZE →
  StopMessage_decode (StopMessage_encode m) = Ok m.
Proof.
  intros Hm Hz. pose proof (Stop_round_trip m [] [] Hm ltac:(constructor) ltac:(constructor)) as H.
  cbn [fmap list_fmap concat app] in H. rewrite app_nil_r in H. apply H.
  unfold MAX_MESSAGE_SIZE, usize_max, u64_max in *. lia.
Qed.

Lemma relay_frame_fits b p c :
  relay_decode_frame b = Complete p c → zlen p ≤ MAX_MESSAGE_SIZE ∧ 0 ≤ c ≤ zlen b.
Proof.
  intros (Hp & -> & _ & rest & ->)%decode_frame_iff. pose proof (zlen_nonneg (encode_frame p)).
  split; [done|zlen_lia].
Qed.

(** The most a machine holds of a frame that is not complete. *)
Definition RECV_LIMIT : Z := MAX_MESSAGE_SIZE + 10.

Lemma relay_frame_short b : relay_decode_frame b = Incomplete → zlen b < RECV_LIMIT.
Proof.
  apply decode_frame_short; unfold MAX_MESSAGE_SIZE, usize_max, u64_max; lia.
Qed.

Lemma Hop_decode_payload p : zlen p ≤ MAX_MESSAGE_SIZE → returns (HopMessage_decode p).
Proof.
  intros. apply HopMessage_decode_returns. unfold MAX_MESSAGE_SIZE, usize_max, u64_max in *. lia.
Qed.
Lemma Stop_decode_payload p : zlen p ≤ MAX_MESSAGE_SIZE → returns (StopMessage_decode p).
Proof.
  intros. apply StopMessage_decode_returns. unfold MAX_MESSAGE_SIZE, usize_max, u64_max in *. lia.
Qed.

(** ** Properties *)

(** C34: encoding a HOP or STOP message and decoding it gives the message back,
    also with fields from a later version of the protocol in front of it and
    behind it. *)
Theorem relay_messages_round_trip hop stop us vs :
  Hop_typed hop → Stop_typed stop → unknown_fields 5 us → unknown_fields 5 vs →
  zlen (fields_bytes us ++ HopMessage_encode hop ++ fields_bytes vs) ≤ usize_max →
  zlen (fields_bytes us ++ StopMessage_encode stop ++ fields_bytes vs) ≤ usize_max →
  HopMessage_decode (fields_bytes us ++ HopMessage_encode hop ++ fields_bytes vs) = Ok hop ∧
  StopMessage_decode (fields_bytes us ++ StopMessage_encode stop ++ fields_bytes vs) = Ok stop.
Proof.
  intros Hh Hs Hus Hvs H1 H2.
  assert (∀ ts, unknown_fields 5 ts → unknown_fields 4 ts) as Hmono
    by (intros ts Hts; eapply Forall_impl; [exact Hts|]; intros t [? ?]; split; [done|lia]).
  split; [by apply Hop_round_trip|]. apply Stop_round_trip; auto.
Qed.

Lemma relay_messages_round_trip_witness :
  let peer := Some (mkPeer (str "id") [str "addr"]) in
  HopMessage_decode (fields_bytes [(9, VVarint 300)] ++
    HopMessage_encode (mkHop HopConnectKind peer None None None) ++ fields_bytes [(7, VLen (str "new"))]) =
    Ok (mkHop HopConnectKind peer None None None).
Proof.
  refine (proj1 (relay_messages_round_trip (mkHop HopConnectKind (Some (mkPeer (str "id") [str "addr"])) None None None)
    (mkStop StopStatusKind None None (Some StatusOk)) [(9, VVarint 300)] [(7, VLen (str "new"))] _ _ _ _ _ _)).
  - repeat split.
  - repeat split.
  - apply Forall_cons. split; [by vm_compute|constructor].
  - apply Forall_cons. split; [by vm_compute|constructor].
  - by vm_compute.
  - by vm_compute.
Defined.
