(* ===== verification/RelayServer.v ===== *)
(** The relay's side of a circuit, from [crates/relay/src/server.rs]: one
    machine per inbound HOP stream and one per outbound STOP stream. *)

From Stdlib Require Import Strings.Byte.
From S2P Require Import Prelude Varint Text Frame Proto RelayMessage Base58 PeerIdentity SansIo.

#[global] Arguments HopMessage_encode : simpl never.
#[global] Arguments StopMessage_encode : simpl never.
#[global] Arguments HopMessage_decode : simpl never.
#[global] Arguments StopMessage_decode : simpl never.
#[global] Arguments encode_frame : simpl never.
#[global] Arguments relay_decode_frame : simpl never.
#[global] Arguments encode_hop_status : simpl never.
#[global] Arguments encode_stop_status : simpl never.

Section Server.
Context `{HashCrates Multihash}.
Abbreviation PeerId := (PeerIdentity.PeerId (Multihash := Multihash)).

(** ** The HOP responder *)

(** The constructors that another enum also has carry a prefix. *)
Inductive HopRequest :=
  | Reserve
  | Connect (destination_peer_id : PeerId).

Inductive HopResponderInput :=
  | HRData (data : bytes)
  | HRRemoteWriteClosed
  | HRRemoteReset
  | AcceptReservation (reservation : Reservation) (limit : option Limit)
  | AcceptConnect (limit : option Limit)
  | HRReject (status : Status).

Inductive HopResponderOutput :=
  | HRRequest (request : HopRequest)
  | HROutbound (frame : bytes)
  | HRCloseWrite
  | HRReset
  | HRBridgeData (data : bytes).

Inductive PendingRequest := PendingReserve | PendingConnect.
#[global] Instance PendingRequest_eq_dec : EqDecision PendingRequest.
Proof. solve_decision. Defined.

Record HopResponder := mkHopResponder {
  hr_recv_buf : bytes;
  hr_outputs : list HopResponderOutput;
  hr_pending_request : option PendingRequest;
  hr_pending_bridge : bytes;
  hr_bridged : bool;
  hr_remote_write_closed : bool;
  hr_done : bool;
}.

Definition HopResponder_new : HopResponder := mkHopResponder [] [] None [] false false false.

Abbreviation HR := (M HopResponder RelayError).

Definition hr_push (o : HopResponderOutput) : HR unit :=
  modify (λ s, {| s with hr_outputs := hr_outputs s ++ [o] |}).

Definition HopResponder_queue_reset : HR unit :=
  _ ← modify (λ s, {| s with hr_recv_buf := []; hr_pending_request := None; hr_pending_bridge := [] |});
  _ ← hr_push HRReset;
  modify (λ s, {| s with hr_done := true |}).

Definition queue_terminal_hop_response (response : res RelayError bytes) : HR unit :=
  frame ← attempt response;
  _ ← match frame with
      | Some frame => _ ← hr_push (HROutbound frame); hr_push HRCloseWrite
      | None => hr_push HRReset
      end;
  modify (λ s, {| s with hr_pending_request := None; hr_pending_bridge := [];
                         hr_recv_buf := []; hr_done := true |}).

Definition queue_status_and_close (status : Status) : HR unit :=
  queue_terminal_hop_response (encode_hop_status status None None).

(** The request a HOP message makes, or the status that answers a message
    which makes none. *)
Definition hop_request_of (message : HopMessage)
    : res RelayError (Status + HopRequest * PendingRequest) :=
  match hop_kind message with
  | HopReserve => Ok (inr (Reserve, PendingReserve))
  | HopConnectKind =>
      match hop_peer message with
      | None => Ok (inl MalformedMessage)
      | Some peer =>
          match from_bytes (peer_id_bytes peer) with
          | Ok destination_peer_id => Ok (inr (Connect destination_peer_id, PendingConnect))
          | Err _ => Ok (inl MalformedMessage)
          | Panic => Panic
          | Diverge => Diverge
          end
      end
  | HopStatusKind => Ok (inl UnexpectedMessageStatus)
  end.

Definition HopResponder_on_data (data : bytes) : HR unit :=
  s ← gets id;
  if hr_remote_write_closed s then mret tt
  else if hr_bridged s then
    match data with [] => mret tt | _ => hr_push (HRBridgeData data) end
  else if hr_done s then mret tt
  else if bool_decide (is_Some (hr_pending_request s)) then throw DecisionPending
  else
    _ ← modify (λ s, {| s with hr_recv_buf := hr_recv_buf s ++ data |});
    recv_buf ← gets hr_recv_buf;
    match relay_decode_frame recv_buf with
    | Incomplete => mret tt
    | TooLarge _ | FrameError _ => HopResponder_queue_reset
    | Complete payload consumed =>
        left ← lift (sub_or_panic (zlen recv_buf) consumed);
        if MAX_PENDING_BRIDGE_SIZE <? left then HopResponder_queue_reset
        else
          message ← attempt (HopMessage_decode payload);
          match message with
          | None => queue_status_and_close MalformedMessage
          | Some message =>
              request ← lift (hop_request_of message);
              match request with
              | inl status => queue_status_and_close status
              | inr (request, pending_request) =>
                  _ ← (if bool_decide (pending_request = PendingConnect) then
                         rest ← lift (drain_front recv_buf consumed);
                         modify (λ s, {| s with hr_pending_bridge := rest |})
                       else mret tt);
                  _ ← modify (λ s, {| s with hr_recv_buf := []; hr_pending_request := Some pending_request |});
                  hr_push (HRRequest request)
              end
          end
    end.

Definition accept_reservation (reservation : Reservation) (limit : option Limit) : HR unit :=
  pending ← gets hr_pending_request;
  if negb (bool_decide (pending = Some PendingReserve))
  then throw (UnexpectedMessage (str "cannot accept HOP RESERVE without a pending RESERVE request"))
  else
    queue_terminal_hop_response
      (encode_hop_status StatusOk (Some {| reservation with voucher := None |}) limit).

Definition accept_connect (limit : option Limit) : HR unit :=
  pending ← gets hr_pending_request;
  if negb (bool_decide (pending = Some PendingConnect))
  then throw (UnexpectedMessage (str "cannot accept HOP CONNECT without a pending CONNECT request"))
  else
    frame ← attempt (encode_hop_status StatusOk None limit);
    match frame with
    | None => HopResponder_queue_reset
    | Some frame =>
        _ ← hr_push (HROutbound frame);
        bridge ← gets hr_pending_bridge;
        _ ← match bridge with
            | [] => mret tt
            | _ =>
                _ ← modify (λ s, {| s with hr_pending_bridge := [] |});
                hr_push (HRBridgeData bridge)
            end;
        modify (λ s, {| s with hr_pending_request := None;
                               hr_bridged := negb (hr_remote_write_closed s); hr_done := true |})
    end.

Definition HopResponder_reject (status : Status) : HR unit :=
  pending ← gets hr_pending_request;
  if negb (bool_decide (is_Some pending))
  then throw (UnexpectedMessage (str "cannot reject without a pending HOP request"))
  else
    match status with
    | StatusOk | Unused => HopResponder_queue_reset
    | _ => queue_status_and_close status
    end.

Definition HopResponder_remote_write_closed : HR unit :=
  _ ← modify (λ s, {| s with hr_remote_write_closed := true; hr_recv_buf := [] |});
  _ ← modify (λ s, if bool_decide (hr_pending_request s = None) && negb (hr_done s)
                   then {| s with hr_pending_bridge := []; hr_done := true |} else s);
  modify (λ s, {| s with hr_bridged := false |}).

Definition HopResponder_remote_reset : HR unit :=
  modify (λ _, {| hr_recv_buf := []; hr_pending_request := None; hr_pending_bridge := [];
                  hr_outputs := []; hr_bridged := false; hr_remote_write_closed := true;
                  hr_done := true |}).

Definition HopResponder_handle_input (input : HopResponderInput) : HR unit :=
  match input with
  | HRData data => HopResponder_on_data data
  | HRRemoteWriteClosed => HopResponder_remote_write_closed
  | HRRemoteReset => HopResponder_remote_reset
  | AcceptReservation reservation limit => accept_reservation reservation limit
  | AcceptConnect limit => accept_connect limit
  | HRReject status => HopResponder_reject status
  end.

Definition HopResponder_poll_output : HR (option HopResponderOutput) := λ s,
  match hr_outputs s with
  | [] => (s, Ok None)
  | o :: outputs => ({| s with hr_outputs := outputs |}, Ok (Some o))
  end.

Definition HopResponder_is_idle (s : HopResponder) : bool := bool_decide (hr_outputs s = []).

#[export] Instance HopResponder_protocol :
    SansIoProtocol HopResponder HopResponderInput HopResponderOutput RelayError := {|
  handle_input := HopResponder_handle_input;
  poll_output := HopResponder_poll_output;
  is_idle := HopResponder_is_idle;
|}.

(** ** The STOP initiator *)

Inductive StopInitiatorOutcome :=
  | SIAccepted
  | SIRefused (status : Status)
  | SIProtocolError (status : Status)
  | SIClosed
  | SIResetByRemote.

Definition outcome_hop_status (o : StopInitiatorOutcome) : Status :=
  match o with
  | SIAccepted => StatusOk
  | SIRefused ResourceLimitExceeded => ResourceLimitExceeded
  | SIRefused PermissionDenied => PermissionDenied
  | SIRefused _ => UnexpectedMessageStatus
  | SIProtocolError status => status
  | SIClosed | SIResetByRemote => ConnectionFailed
  end.

Inductive StopInitiatorInput := SIData (data : bytes) | SIRemoteWriteClosed | SIRemoteReset.

Inductive StopInitiatorOutput :=
  | SIOutbound (frame : bytes)
  | SIOutcome (outcome : StopInitiatorOutcome)
  | SIBridgeData (data : bytes)
  | SICloseWrite
  | SIReset.

Record StopInitiator := mkStopInitiator {
  si_recv_buf : bytes;
  si_outputs : list StopInitiatorOutput;
  si_bridged : bool;
  si_done : bool;
}.

Definition stop_connect_request (source : bytes) (limit : option Limit) : StopMessage :=
  mkStop StopConnectKind (Some (mkPeer source [])) limit None.

Definition StopInitiator_new (source_peer_id : PeerId) (limit : option Limit) : StopInitiator :=
  mkStopInitiator []
    [SIOutbound (encode_frame (StopMessage_encode (stop_connect_request (to_bytes source_peer_id) limit)))]
    false false.

Abbreviation SI := (M StopInitiator RelayError).

Definition si_push (o : StopInitiatorOutput) : SI unit :=
  modify (λ s, {| s with si_outputs := si_outputs s ++ [o] |}).

Definition queue_protocol_error (status : Status) : SI unit :=
  frame ← attempt (encode_stop_status status);
  _ ← match frame with
      | Some frame => _ ← si_push (SIOutbound frame); si_push SICloseWrite
      | None => si_push SIReset
      end;
  _ ← si_push (SIOutcome (SIProtocolError status));
  modify (λ s, {| s with si_recv_buf := []; si_done := true |}).

Definition StopInitiator_queue_reset (status : Status) : SI unit :=
  _ ← si_push SIReset;
  _ ← si_push (SIOutcome (SIProtocolError status));
  modify (λ s, {| s with si_recv_buf := []; si_done := true |}).

Definition StopInitiator_on_data (data : bytes) : SI unit :=
  s ← gets id;
  if si_bridged s then
    match data with [] => mret tt | _ => si_push (SIBridgeData data) end
  else if si_done s then mret tt
  else
    _ ← modify (λ s, {| s with si_recv_buf := si_recv_buf s ++ data |});
    recv_buf ← gets si_recv_buf;
    match relay_decode_frame recv_buf with
    | Incomplete => mret tt
    | TooLarge _ | FrameError _ => StopInitiator_queue_reset MalformedMessage
    | Complete payload consumed =>
        message ← attempt (StopMessage_decode payload);
        match message with
        | None => queue_protocol_error MalformedMessage
        | Some message =>
            if negb (bool_decide (stop_kind message = StopStatusKind))
            then queue_protocol_error UnexpectedMessageStatus
            else
              match stop_status message with
              | None => queue_protocol_error MalformedMessage
              | Some status =>
                  outcome ← (if bool_decide (status = StatusOk) then
                               _ ← modify (λ s, {| s with si_bridged := true |}); mret SIAccepted
                             else mret (SIRefused status));
                  _ ← si_push (SIOutcome outcome);
                  bridged ← gets si_bridged;
                  _ ← (if bridged && (consumed <? zlen recv_buf) then
                         rest ← lift (drain_front recv_buf consumed);
                         si_push (SIBridgeData rest)
                       else mret tt);
                  modify (λ s, {| s with si_recv_buf := []; si_done := true |})
              end
        end
    end.

Definition finish_remote_terminal : SI unit :=
  modify (λ s, {| s with si_recv_buf := []; si_bridged := false; si_done := true |}).

Definition StopInitiator_remote_write_closed : SI unit :=
  done ← gets si_done;
  _ ← (if negb done then
         _ ← modify (λ s, {| s with si_outputs := [] |}); si_push (SIOutcome SIClosed)
       else mret tt);
  finish_remote_terminal.

(** The outputs that say what the handshake came to. *)
Definition semantic_output (o : StopInitiatorOutput) : bool :=
  match o with SIOutcome _ | SIBridgeData _ => true | _ => false end.

Definition StopInitiator_remote_reset : SI unit :=
  done ← gets si_done;
  _ ← (if done : bool then
         modify (λ s, {| s with si_outputs := filter semantic_output (si_outputs s) |})
       else
         _ ← modify (λ s, {| s with si_outputs := [] |}); si_push (SIOutcome SIResetByRemote));
  finish_remote_terminal.

Definition StopInitiator_handle_input (input : StopInitiatorInput) : SI unit :=
  match input with
  | SIData data => StopInitiator_on_data data
  | SIRemoteWriteClosed => StopInitiator_remote_write_closed
  | SIRemoteReset => StopInitiator_remote_reset
  end.

Definition StopInitiator_poll_output : SI (option StopInitiatorOutput) := λ s,
  match si_outputs s with
  | [] => (s, Ok None)
  | o :: outputs => ({| s with si_outputs := outputs |}, Ok (Some o))
  end.

Definition StopInitiator_is_idle (s : StopInitiator) : bool := bool_decide (si_outputs s = []).

#[export] Instance StopInitiator_protocol :
    SansIoProtocol StopInitiator StopInitiatorInput StopInitiatorOutput RelayError := {|
  handle_input := StopInitiator_handle_input;
  poll_output := StopInitiator_poll_output;
  is_idle := StopInitiator_is_idle;
|}.
(** ** A request arriving in pieces *)

(** A responder that has received [b] of its request. *)
Definition hr_waiting (b : bytes) : HopResponder := mkHopResponder b [] None [] false false false.

Lemma hr_collects b d : awaits (b ++ d) → handle_input (HRData d) (hr_waiting b) = (hr_waiting (b ++ d), Ok tt).
Proof. intros [Hi _]. cbn. unfold HopResponder_on_data. run_simpl. cbn. by rewrite Hi. Qed.

(** What [hop_request_of] said is now to be decided on; a CONNECT keeps the
    bytes that followed it. *)
Definition hr_deciding (outs : list HopResponderOutput) (pend : PendingRequest) (rest : bytes) : HopResponder :=
  mkHopResponder [] outs (Some pend) (if bool_decide (pend = PendingConnect) then rest else []) false false false.

Lemma hr_completes m b d rest req pend :
  Hop_typed m → zlen (HopMessage_encode m) ≤ MAX_MESSAGE_SIZE → zlen rest ≤ MAX_PENDING_BRIDGE_SIZE →
  b ++ d = encode_frame (HopMessage_encode m) ++ rest → hop_request_of m = Ok (inr (req, pend)) →
  handle_input (HRData d) (hr_waiting b) = (hr_deciding [HRRequest req] pend rest, Ok tt).
Proof.
  intros Hm Hz Hr Hb Hreq. cbn. unfold HopResponder_on_data. run_simpl. cbn.
  rewrite Hb, relay_frame_complete by done. unfold sub_or_panic. rewrite checked_sub_Some by zlen_lia. cbn.
  rewrite zlen_app. destruct (Z.ltb_spec MAX_PENDING_BRIDGE_SIZE
    (zlen (encode_frame (HopMessage_encode m)) + zlen rest - zlen (encode_frame (HopMessage_encode m)))); [lia|].
  unfold attempt. rewrite Hop_decode_fits by done. cbn. rewrite Hreq. cbn. unfold hr_deciding.
  destruct pend; cbn; [done|]. by rewrite drain_front_app.
Qed.

(** ** What a reachable responder looks like *)

Context `{!HashCratesSpec Multihash}.

Record hr_ok (s : HopResponder) : Prop := {
  hr_buf_short : hr_recv_buf s ≠ [] →
    relay_decode_frame (hr_recv_buf s) = Incomplete ∧ hr_done s = false ∧ hr_pending_request s = None;
  hr_bridge_short : zlen (hr_pending_bridge s) ≤ MAX_PENDING_BRIDGE_SIZE;
  hr_bridge_pending : hr_pending_bridge s ≠ [] → hr_pending_request s = Some PendingConnect;
  hr_pending_open : is_Some (hr_pending_request s) → hr_done s = false;
  hr_bridged_done : hr_bridged s = true → hr_done s = true;
}.

Lemma hop_request_total m : ∃ r, hop_request_of m = Ok r.
Proof.
  unfold hop_request_of. destruct (hop_kind m), (hop_peer m) as [p|]; eauto.
  pose proof (from_bytes_returns (peer_id_bytes p)) as Hr. destruct (from_bytes (peer_id_bytes p)); eauto; done.
Qed.

Lemma hop_request_pending m r p : hop_request_of m = Ok (inr (r, p)) → (p = PendingConnect ↔ r ≠ Reserve).
Proof. unfold hop_request_of. intros. repeat case_match; simplify_eq; naive_solver. Qed.

Lemma encode_hop_status_returns st r l : returns (encode_hop_status st r l).
Proof. unfold encode_hop_status, checked_outbound_frame. by case_match. Qed.
Lemma encode_stop_status_returns st : returns (encode_stop_status st).
Proof. unfold encode_stop_status, checked_outbound_frame. by case_match. Qed.

Lemma wp_attempt {S E E' A} (r : res E A) (Q : option A → S → Prop) (X : E' → S → Prop) s :
  returns r → (∀ a, r = Ok a → Q (Some a) s) → (∀ e, r = Err e → Q None s) → wp (attempt r) Q X s.
Proof. intros Hr Ho He. unfold wp, attempt. destruct r; try done; eauto. Qed.

(** ** The conversation a responder leads *)

Inductive HopPhase := Receiving | Deciding (k : PendingRequest) | Closing | Bridging | Finished.

(** What the service decides about a request. *)
Definition decision (i : HopResponderInput) : Prop :=
  match i with AcceptReservation _ _ | AcceptConnect _ | HRReject _ => True | _ => False end.
#[global] Instance decision_dec i : Decision (decision i).
Proof. destruct i; cbn; apply _. Defined.

(** A decision that no status can express. *)
Definition unspeakable (i : HopResponderInput) : Prop :=
  match i with
  | AcceptReservation r l => ¬ ∃ f, encode_hop_status StatusOk (Some {| r with voucher := None |}) l = Ok f
  | AcceptConnect l => ¬ ∃ f, encode_hop_status StatusOk None l = Ok f
  | HRReject st => st = StatusOk ∨ st = Unused ∨ ¬ ∃ f, encode_hop_status st None None = Ok f
  | _ => False
  end.

(** One output at a time: a request is announced once; its answer is one
    status, which says what a [given] decision was: [OK] for a grant, with what
    was granted but for the voucher, and the service's reason for a refusal.
    The stream is then closed, or carries the circuit's bytes. *)
Inductive hop_step (given : HopResponderInput → Prop) : HopPhase → HopResponderOutput → HopPhase → Prop :=
  | step_reserve : hop_step given Receiving (HRRequest Reserve) (Deciding PendingReserve)
  | step_connect d : hop_step given Receiving (HRRequest (Connect d)) (Deciding PendingConnect)
  | step_bad st f :
      st = MalformedMessage ∨ st = UnexpectedMessageStatus → encode_hop_status st None None = Ok f →
      hop_step given Receiving (HROutbound f) Closing
  | step_break : hop_step given Receiving HRReset Finished
  | step_grant r l f :
      given (AcceptReservation r l) →
      encode_hop_status StatusOk (Some {| r with voucher := None |}) l = Ok f →
      hop_step given (Deciding PendingReserve) (HROutbound f) Closing
  | step_bridge l f :
      given (AcceptConnect l) → encode_hop_status StatusOk None l = Ok f →
      hop_step given (Deciding PendingConnect) (HROutbound f) Bridging
  | step_refuse k st f :
      given (HRReject st) → st ≠ StatusOk → st ≠ Unused → encode_hop_status st None None = Ok f →
      hop_step given (Deciding k) (HROutbound f) Closing
  | step_abort k i : given i → unspeakable i → hop_step given (Deciding k) HRReset Finished
  | step_close : hop_step given Closing HRCloseWrite Finished
  | step_data d : d ≠ [] → hop_step given Bridging (HRBridgeData d) Bridging.

Inductive hop_run (given : HopResponderInput → Prop) : HopPhase → list HopResponderOutput → HopPhase → Prop :=
  | hop_run_nil ph : hop_run given ph [] ph
  | hop_run_cons ph o ph1 os ph2 :
      hop_step given ph o ph1 → hop_run given ph1 os ph2 → hop_run given ph (o :: os) ph2.

Lemma hop_run_app given ph1 os1 ph2 os2 ph3 :
  hop_run given ph1 os1 ph2 → hop_run given ph2 os2 ph3 → hop_run given ph1 (os1 ++ os2) ph3.
Proof. induction 1; cbn; [done|]. intros. econstructor; eauto. Qed.
Lemma hop_run_snoc given ph1 os ph2 o ph3 :
  hop_run given ph1 os ph2 → hop_step given ph2 o ph3 → hop_run given ph1 (os ++ [o]) ph3.
Proof. intros. eapply hop_run_app; [done|]. econstructor; [done|constructor]. Qed.

Lemma hop_step_mono (given given' : HopResponderInput → Prop) ph o ph' :
  (∀ i, given i → given' i) → hop_step given ph o ph' → hop_step given' ph o ph'.
Proof. intros Hg. destruct 1; econstructor; eauto. Qed.
Lemma hop_run_mono (given given' : HopResponderInput → Prop) ph os ph' :
  (∀ i, given i → given' i) → hop_run given ph os ph' → hop_run given' ph os ph'.
Proof. intros Hg. induction 1; econstructor; eauto using hop_step_mono. Qed.

(** The phase the last queued output leads to. *)
Definition phase_of (s : HopResponder) (ph : HopPhase) : Prop :=
  if hr_done s then (hr_bridged s = true → ph = Bridging)
  else ph = match hr_pending_request s with None => Receiving | Some k => Deciding k end.

(** On [i], [s'] has queued what takes the conversation on from the phase of
    [s], or it dropped everything and the conversation is over. *)
Definition speaks (i : HopResponderInput) (s s' : HopResponder) : Prop :=
  ∀ ph, phase_of s ph →
    (∃ os ph', hr_outputs s' = hr_outputs s ++ os ∧ hop_run (eq i) ph os ph' ∧ phase_of s' ph') ∨
    (hr_outputs s' = [] ∧ ∀ ph', phase_of s' ph').

Lemma speaks_quiet i s s' : hr_outputs s' = hr_outputs s → (∀ ph, phase_of s ph → phase_of s' ph) → speaks i s s'.
Proof. intros Ho Hp ph Hph. left. exists [], ph. rewrite app_nil_r. eauto using hop_run_nil. Qed.
Lemma speaks_refl i s : speaks i s s.
Proof. by apply speaks_quiet. Qed.

Lemma speaks_one i s s' o ph ph' :
  (∀ ph0, phase_of s ph0 → ph0 = ph) → hr_outputs s' = hr_outputs s ++ [o] → hop_step (eq i) ph o ph' → phase_of s' ph' →
  speaks i s s'.
Proof.
  intros Hph Ho Hstep Hp ph0 H0%Hph. subst ph0. left. exists [o], ph'. split_and!; [done| |done].
  econstructor; [done|constructor].
Qed.

(** A responder that can still be spoken to, and how its handlers leave it: a
    decision is final, and what is refused changes nothing. *)
Definition hr_open (s : HopResponder) : Prop := hr_done s = false ∧ hr_bridged s = false.
Definition settles (i : HopResponderInput) (s s' : HopResponder) : Prop :=
  (hr_done s = true → ¬ decision i) ∧ (hr_done s = true ∨ decision i → hr_done s' = true).
Abbreviation hr_post i s := (λ _ s', hr_ok s' ∧ speaks i s s' ∧ settles i s s').
Abbreviation hr_refused s := (λ _ s', s' = s).

Lemma open_phase s ph : hr_open s → phase_of s ph →
  ph = match hr_pending_request s with None => Receiving | Some k => Deciding k end.
Proof. intros [Hd _]. unfold phase_of. by rewrite Hd. Qed.

Lemma hr_reset_post i s X :
  hr_open s → (is_Some (hr_pending_request s) → unspeakable i) →
  wp HopResponder_queue_reset (hr_post i s) X s.
Proof.
  intros Ho Hi. unfold HopResponder_queue_reset, hr_push. wp_steps. pose proof Ho as [Hd Hb].
  split_and!; [by split; cbn; rewrite ?Hb| |by split; [rewrite Hd|]].
  eapply (speaks_one _ _ _ HRReset _ Finished); [by intros ph ->%open_phase|done| |unfold phase_of; cbn; by rewrite Hb].
  destruct (hr_pending_request s); econstructor; eauto.
Qed.

Lemma hr_terminal_post i s r X :
  hr_open s → returns r →
  (∀ f, r = Ok f → hop_step (eq i) match hr_pending_request s with None => Receiving | Some k => Deciding k end
                    (HROutbound f) Closing) →
  (is_Some (hr_pending_request s) → (¬ ∃ f, r = Ok f) → unspeakable i) →
  wp (queue_terminal_hop_response r) (hr_post i s) X s.
Proof.
  intros Ho Hr Hstep Habort. pose proof Ho as [Hd Hb]. unfold queue_terminal_hop_response, hr_push. wp_step.
  apply wp_attempt; [done|intros f Hf|intros e He]; wp_steps;
    (split_and!; [by split; cbn; rewrite ?Hb| |by split; [rewrite Hd|]]).
  - intros ph ->%open_phase; [|done]. left. exists [HROutbound f; HRCloseWrite], Finished. cbn.
    rewrite <- app_assoc. split_and!; [done| |unfold phase_of; cbn; by rewrite Hb].
    econstructor; [by apply Hstep|]. econstructor; constructor.
  - eapply (speaks_one _ _ _ HRReset _ Finished); [by intros ph ->%open_phase|done| |unfold phase_of; cbn; by rewrite Hb].
    destruct (hr_pending_request s); econstructor; [done|]. apply Habort; [done|]. rewrite He. by intros [? ?].
Qed.

Lemma hr_bad_post i s st X :
  hr_open s → hr_pending_request s = None → st = MalformedMessage ∨ st = UnexpectedMessageStatus →
  wp (queue_status_and_close st) (hr_post i s) X s.
Proof.
  intros Ho Hn Hst. apply hr_terminal_post; [done|apply encode_hop_status_returns| |].
  - intros f Hf. rewrite Hn. by econstructor.
  - rewrite Hn. by intros [? ?].
Qed.

Lemma hop_request_status m st :
  hop_request_of m = Ok (inl st) → st = MalformedMessage ∨ st = UnexpectedMessageStatus.
Proof. unfold hop_request_of. intros. repeat case_match; simplify_eq; auto. Qed.

Lemma hop_request_step given m r k :
  hop_request_of m = Ok (inr (r, k)) → hop_step given Receiving (HRRequest r) (Deciding k).
Proof. unfold hop_request_of. intros. repeat case_match; simplify_eq; constructor. Qed.

Lemma hr_data_post d s : hr_ok s → wp (HopResponder_on_data d) (hr_post (HRData d) s) (hr_refused s) s.
Proof.
  intros Hs. destruct (Hs) as [Hbuf Hbr Hbp Hpo Hbd]. pose proof (speaks_refl (HRData d) s) as Hrefl.
  assert (∀ s', hr_done s' = hr_done s → settles (HRData d) s s') as Hset
    by (intros s' Hd; split; [auto|intros [?|[]]; congruence]).
  unfold HopResponder_on_data. wp_step. apply wp_gets. cbn [id].
  destruct (hr_remote_write_closed s) eqn:Hrwc; [by apply wp_ret; auto|].
  destruct (hr_bridged s) eqn:Hbridged.
  { destruct d as [|b d]; [by apply wp_ret; auto|]. apply wp_modify.
    split_and!; [by split; cbn; rewrite ?Hbridged| |by apply Hset].
    apply (speaks_one _ _ _ (HRBridgeData (b :: d)) Bridging Bridging); [|done|by constructor|];
      unfold phase_of; cbn; rewrite Hbd, Hbridged by done; auto. }
  destruct (hr_done s) eqn:Hdone; [by apply wp_ret; auto|].
  case_bool_decide as Hpend; [by apply wp_throw|].
  assert (hr_pending_request s = None) as Hnone by (destruct (hr_pending_request s); [by destruct Hpend|done]).
  wp_steps. cbn [hr_recv_buf].
  set (s1 := mkHopResponder _ _ _ _ _ _ _).
  assert (∀ m : HR unit, wp m (hr_post (HRData d) s1) (λ _ _, False) s1 → wp m (hr_post (HRData d) s) (hr_refused s) s1) as Hvia
    by (intros m Hm; eapply wp_mono; [exact Hm|intros ? ? Hpost; exact Hpost|done]).
  assert (hr_open s1) as Ho by done.
  destruct (relay_decode_frame (hr_recv_buf s ++ d)) as [p c| |len|e] eqn:Hf; [|..].
  2:{ apply wp_ret. split_and!; [split; cbn; congruence || done|done|by apply Hset]. }
  2,3: by apply Hvia, hr_reset_post; [|intros [? Hq]; change (hr_pending_request s1) with (hr_pending_request s) in Hq; congruence].
  apply relay_frame_fits in Hf as (Hp & Hc). wp_step. apply wp_lift. unfold sub_or_panic.
  rewrite checked_sub_Some by lia. cbn [expect].
  destruct (Z.ltb_spec MAX_PENDING_BRIDGE_SIZE (zlen (hr_recv_buf s ++ d) - c));
    [by apply Hvia, hr_reset_post; [|intros [? Hq]; change (hr_pending_request s1) with (hr_pending_request s) in Hq; congruence]|].
  wp_step. apply wp_attempt; [by apply Hop_decode_payload|intros m _|intros e _].
  2:{ apply Hvia, hr_bad_post; auto. }
  wp_step. apply wp_lift. destruct (hop_request_total m) as [[st|[r pend]] Hreq]; rewrite Hreq.
  - apply Hvia, hr_bad_post; eauto using hop_request_status.
  - apply (hop_request_step (eq (HRData d))) in Hreq.
    assert (∀ s', hr_outputs s' = hr_outputs s ++ [HRRequest r] → hr_pending_request s' = Some pend →
      hr_done s' = false → speaks (HRData d) s s' ∧ settles (HRData d) s s') as Hsp.
    { intros s' Ho' Hp' Hd'. split; [|apply Hset; congruence].
      apply (speaks_one _ _ _ (HRRequest r) Receiving (Deciding pend)); [|done|done|].
      - by intros ph ->%open_phase; [rewrite Hnone|].
      - unfold phase_of. by rewrite Hd', Hp'. }
    case_bool_decide as Hpc; wp_steps.
    + apply wp_lift. unfold drain_front. destruct (Z.leb_spec c (zlen (hr_recv_buf s ++ d))); [|lia].
      wp_steps. apply wp_modify. split; [|by apply Hsp]. split; cbn; try congruence. rewrite zlen_drop. lia.
    + apply wp_modify. split; [|by apply Hsp]. split; cbn; try congruence. intros Hb. specialize (Hbp Hb). congruence.
Qed.

Lemma hr_closed_post s :
  hr_ok s → wp HopResponder_remote_write_closed (hr_post HRRemoteWriteClosed s) (hr_refused s) s.
Proof.
  intros Hs. destruct (Hs) as [Hbuf Hbr Hbp Hpo Hbd]. unfold HopResponder_remote_write_closed. wp_steps. cbn.
  destruct (hr_pending_request s) as [k|] eqn:Hp; cbn; [|destruct (hr_done s) eqn:Hd; cbn];
    (split_and!; [split; cbn; rewrite ?Hp, ?Hd; auto; done| |split; [auto|cbn; intros [?|[]]; congruence]]);
    apply speaks_quiet; try done;
    unfold phase_of; cbn; rewrite ?Hp, ?Hd; try done.
  by rewrite Hpo.
Qed.

Lemma pending_open s : hr_ok s → is_Some (hr_pending_request s) → hr_open s.
Proof.
  intros [_ _ _ Hpo Hbd] Hp. split; [by apply Hpo|]. destruct (hr_bridged s); [|done].
  rewrite Hpo in Hbd by done. by specialize (Hbd eq_refl).
Qed.

Lemma hr_connect_post l s : hr_ok s → wp (accept_connect l) (hr_post (AcceptConnect l) s) (hr_refused s) s.
Proof.
  intros Hs. destruct (Hs) as [Hbuf Hbr Hbp Hpo Hbd]. unfold accept_connect. wp_step. apply wp_gets.
  case_bool_decide as Hp; cbn [negb]; [|by apply wp_throw].
  assert (hr_open s) as Ho by (apply pending_open; [done|by rewrite Hp]). pose proof Ho as [Hd _].
  wp_step. apply wp_attempt; [apply encode_hop_status_returns|intros f Hf|intros e He];
    [|apply hr_reset_post; [done|intros _; cbn; rewrite He; by intros [? ?]]].
  unfold hr_push. wp_steps; cbn in *; (split_and!; [split; cbn; try done;
    try (intros Hn; apply Hbuf in Hn as (_ & _ & Hn); congruence); congruence| |by split; [rewrite Hd|]]).
  - apply (speaks_one _ _ _ (HROutbound f) (Deciding PendingConnect) Bridging); [|done|by econstructor|done].
    intros ph ->%open_phase; [by rewrite Hp|done].
  - intros ph ->%open_phase; [rewrite Hp|done]. left. eexists [HROutbound f; HRBridgeData _], Bridging.
    cbn. rewrite <- app_assoc. split_and!; [done| |done].
    econstructor; [by econstructor|]. econstructor; [by constructor|constructor].
Qed.

Lemma hr_input_post i s : hr_ok s → wp (handle_input i) (hr_post i s) (hr_refused s) s.
Proof.
  intros Hs. destruct i as [d| | |r l|l|st]; cbn -[wp].
  - by apply hr_data_post.
  - by apply hr_closed_post.
  - apply wp_modify. split_and!; [by split; cbn|by right|split; [by intros _ []|done]].
  - unfold accept_reservation. wp_step. apply wp_gets.
    case_bool_decide as Hp; cbn [negb]; [|by apply wp_throw].
    apply hr_terminal_post; [apply pending_open; [done|by rewrite Hp]|apply encode_hop_status_returns| |done].
    intros f Hf. rewrite Hp. by econstructor.
  - by apply hr_connect_post.
  - unfold HopResponder_reject. wp_step. apply wp_gets.
    case_bool_decide as Hp; cbn [negb]; [|by apply wp_throw].
    pose proof (pending_open s Hs Hp) as Ho.
    destruct st; try (by apply hr_reset_post; [|cbn; auto]);
      (apply hr_terminal_post; [done|apply encode_hop_status_returns| |by cbn; auto]);
      intros f Hf; destruct Hp as [k ->]; by eapply step_refuse; [..|exact Hf].
Qed.

Lemma hr_input_safe i s :
  hr_ok s → wp (handle_input i) (λ _ s', hr_ok s') (λ _ s', hr_ok s') s.
Proof. intros Hs. eapply wp_mono; [by apply hr_input_post|by intros ? ? []|by intros ? ? ->]. Qed.

#[export] Instance HopResponder_contract : SansIoContract hr_ok (λ _ (_ : HopResponderInput), True).
Proof.
  unshelve refine {| backlog s := length (hr_outputs s) |}.
  - intros s i Hs _. by apply hr_input_safe.
  - intros s Hs. cbn. unfold HopResponder_poll_output, HopResponder_is_idle.
    destruct (hr_outputs s) as [|o outs] eqn:Ho; [by exists None, s|].
    eexists (Some o), _. split_and!; [done| |done|cbn; lia]. by destruct Hs.
Defined.

(** The decisions among the accepted inputs, and that the first is the last. *)
Definition decisions (ins : list HopResponderInput) : list HopResponderInput := filter decision ins.
Definition decided_once (ins : list HopResponderInput) (s : HopResponder) : Prop :=
  (length (decisions ins) ≤ 1)%nat ∧ (decisions ins ≠ [] → hr_done s = true).

Lemma decided_once_step ins i s s' :
  settles i s s' → decided_once ins s → decided_once (ins ++ [i]) s'.
Proof.
  intros [Hopen Hdone] [Hlen Hd]. unfold decided_once, decisions in *. rewrite filter_app, filter_cons, filter_nil.
  destruct (decide (decision i)) as [Hi|Hi].
  - destruct (filter decision ins) as [|j js]; [split; [cbn; lia|auto]|]. by destruct Hopen; [apply Hd|].
  - rewrite app_nil_r. auto.
Qed.

Lemma hr_exchange ins os s :
  exchange HopResponder_new ins os s →
  hr_ok s ∧ decided_once ins s ∧
  ∃ ph ph', hop_run (λ i, i ∈ ins) Receiving os ph ∧ hop_run (λ i, i ∈ ins) ph (hr_outputs s) ph' ∧ phase_of s ph'.
Proof.
  induction 1 as [|ins os s i s' _ (Hs & Hd & ph & ph' & Hr1 & Hr2 & Hph) Hi|ins os s i s' e _ (Hs & IH) Hi
    |ins os s o s' _ (Hs & Hd & ph & ph' & Hr1 & Hr2 & Hph) Hp|ins os s s' _ IH Hp].
  - split; [by split; cbn|]. split; [split; cbn; [lia|done]|]. exists Receiving, Receiving. repeat constructor.
  - pose proof (hr_input_post i s Hs) as Hw. unfold wp in Hw. rewrite Hi in Hw. destruct Hw as (Hs' & Hsp & Hset).
    split; [done|]. split; [by eapply decided_once_step|].
    assert (∀ j, j ∈ ins → j ∈ ins ++ [i]) as Hold by set_solver.
    pose proof (hop_run_mono _ _ _ _ _ Hold Hr1) as Hr1'. pose proof (hop_run_mono _ _ _ _ _ Hold Hr2) as Hr2'.
    destruct (Hsp ph' Hph) as [(o & ph2 & -> & Ho & Hph2)|[-> Hph2]].
    + exists ph, ph2. split_and!; [done| |done]. eapply hop_run_app; [done|].
      eapply hop_run_mono; [|exact Ho]. intros j <-. set_solver.
    + exists ph, ph. split_and!; [done|constructor|done].
  - pose proof (hr_input_post i s Hs) as Hw. unfold wp in Hw. rewrite Hi in Hw. by subst s'.
  - cbn in Hp. unfold HopResponder_poll_output in Hp. destruct (hr_outputs s) as [|o' outs] eqn:Ho; [done|].
    injection Hp as <- ->. split; [by destruct Hs|]. split; [exact Hd|]. inversion Hr2; subst.
    eexists _, ph'. split_and!; [by eapply hop_run_snoc|done|done].
  - cbn in Hp. unfold HopResponder_poll_output in Hp. destruct (hr_outputs s) eqn:Ho; [|done].
    injection Hp as <-. by rewrite Ho.
Qed.

(** ** Answers *)

(** The chunks of a circuit that carry something. *)
Fixpoint carried (cs : list bytes) : list bytes :=
  match cs with
  | [] => []
  | [] :: cs => carried cs
  | c :: cs => c :: carried cs
  end.
Lemma concat_carried cs : concat (carried cs) = concat cs.
Proof. induction cs as [|[|b c] cs IH]; cbn; by rewrite ?IH. Qed.

(** A responder whose circuit stands. *)
Definition hr_bridging (outs : list HopResponderOutput) : HopResponder :=
  mkHopResponder [] outs None [] true false true.

Lemma hr_accepts l f rest :
  encode_hop_status StatusOk None l = Ok f →
  handle_input (AcceptConnect l) (hr_deciding [] PendingConnect rest) =
    (hr_bridging (HROutbound f :: (HRBridgeData <$> carried [rest])), Ok tt).
Proof. intros Hf. cbn. unfold accept_connect. run_simpl. cbn. unfold attempt. rewrite Hf. by destruct rest. Qed.

Lemma hr_grants r l f :
  encode_hop_status StatusOk (Some {| r with voucher := None |}) l = Ok f →
  handle_input (AcceptReservation r l) (hr_deciding [] PendingReserve []) =
    (mkHopResponder [] [HROutbound f; HRCloseWrite] None [] false false true, Ok tt).
Proof. intros Hf. cbn. unfold accept_reservation, queue_terminal_hop_response, attempt. run_simpl. cbn. by rewrite Hf. Qed.

Lemma hr_rejects st k rest f :
  st ≠ StatusOk → st ≠ Unused → encode_hop_status st None None = Ok f →
  handle_input (HRReject st) (hr_deciding [] k rest) =
    (mkHopResponder [] [HROutbound f; HRCloseWrite] None [] false false true, Ok tt).
Proof.
  intros H1 H2 Hf. cbn. unfold HopResponder_reject, queue_status_and_close, queue_terminal_hop_response, attempt.
  run_simpl. cbn. by destruct st; rewrite ?Hf.
Qed.

Lemma hr_forwards cs outs :
  handle_inputs (HRData <$> cs) (hr_bridging outs) = (hr_bridging (outs ++ (HRBridgeData <$> carried cs)), Ok tt).
Proof.
  revert outs. induction cs as [|[|b c] cs IH]; intros outs; cbn; [by rewrite app_nil_r|apply IH|].
  rewrite cons_middle, app_assoc. apply IH.
Qed.

(** ** The STOP initiator *)

Record si_ok (s : StopInitiator) : Prop := {
  si_buf_short : si_recv_buf s ≠ [] →
    relay_decode_frame (si_recv_buf s) = Incomplete ∧ si_done s = false;
  si_bridged_done : si_bridged s = true → si_done s = true;
}.

Lemma si_error_ok st s :
  si_bridged s = false → wp (queue_protocol_error st) (λ _, si_ok) (λ _, si_ok) s.
Proof.
  intros Hb. unfold queue_protocol_error, si_push. wp_step.
  apply wp_attempt; [apply encode_stop_status_returns|intros f _|intros e _]; wp_steps; by split; cbn; rewrite ?Hb.
Qed.

Lemma si_data_ok d s : si_ok s → wp (StopInitiator_on_data d) (λ _, si_ok) (λ _, si_ok) s.
Proof.
  intros Hs. destruct (Hs) as [Hbuf Hbd]. unfold StopInitiator_on_data. wp_step. apply wp_gets. cbn [id].
  destruct (si_bridged s) eqn:Hbridged.
  { destruct d; [by apply wp_ret|]. apply wp_modify. by split; cbn; rewrite ?Hbridged. }
  destruct (si_done s) eqn:Hdone; [by apply wp_ret|]. wp_steps. cbn [si_recv_buf].
  destruct (relay_decode_frame (si_recv_buf s ++ d)) as [p c| |len|e] eqn:Hf; [|..].
  2:{ apply wp_ret. split; cbn; congruence || auto. }
  2,3: unfold StopInitiator_queue_reset, si_push; wp_steps; by split; cbn; rewrite ?Hbridged.
  apply relay_frame_fits in Hf as (Hp & Hc). wp_step.
  apply wp_attempt; [by apply Stop_decode_payload|intros m _|intros e _]; [|by apply si_error_ok].
  case_bool_decide; cbn [negb]; [|by apply si_error_ok].
  destruct (stop_status m) as [st|]; [|by apply si_error_ok].
  unfold si_push. case_bool_decide; wp_steps; try apply wp_lift; unfold drain_front;
    try (destruct (Z.leb_spec c (zlen (si_recv_buf s ++ d))); [|lia]); wp_steps; by split; cbn; rewrite ?Hbridged.
Qed.

#[export] Instance StopInitiator_contract : SansIoContract si_ok (λ _ (_ : StopInitiatorInput), True).
Proof.
  unshelve refine {| backlog s := length (si_outputs s) |}.
  - intros s [d| |] Hs _; cbn -[wp]; [by apply si_data_ok| |].
    all: unfold StopInitiator_remote_write_closed, StopInitiator_remote_reset, finish_remote_terminal, si_push.
    all: wp_steps; by split; cbn.
  - intros s Hs. cbn. unfold StopInitiator_poll_output, StopInitiator_is_idle.
    destruct (si_outputs s) as [|o outs] eqn:Ho; [by exists None, s|].
    eexists (Some o), _. split_and!; [done| |done|cbn; lia]. by destruct Hs.
Defined.

(** An initiator that has received [b] of the answer. *)
Definition si_waiting (b : bytes) : StopInitiator := mkStopInitiator b [] false false.

Lemma si_collects b d : awaits (b ++ d) → handle_input (SIData d) (si_waiting b) = (si_waiting (b ++ d), Ok tt).
Proof. intros [Hi _]. cbn. unfold StopInitiator_on_data. run_simpl. cbn. by rewrite Hi. Qed.

Lemma si_completes m st b d rest :
  Stop_typed m → zlen (StopMessage_encode m) ≤ MAX_MESSAGE_SIZE →
  b ++ d = encode_frame (StopMessage_encode m) ++ rest → stop_kind m = StopStatusKind → stop_status m = Some st →
  handle_input (SIData d) (si_waiting b) =
    (if bool_decide (st = StatusOk)
     then mkStopInitiator [] (SIOutcome SIAccepted :: (SIBridgeData <$> carried [rest])) true true
     else mkStopInitiator [] [SIOutcome (SIRefused st)] false true, Ok tt).
Proof.
  intros Hm Hz Hb Hk Hst. cbn. unfold StopInitiator_on_data. run_simpl. cbn.
  rewrite Hb, relay_frame_complete by done. unfold attempt. rewrite Stop_decode_fits by done. cbn.
  rewrite Hk, Hst, (bool_decide_true (StopStatusKind = _)) by done. cbn. case_bool_decide; cbn; [|done].
  destruct rest as [|x rest].
  - rewrite app_nil_r. by rewrite Z.ltb_irrefl.
  - destruct (Z.ltb_spec (zlen (encode_frame (StopMessage_encode m)))
      (zlen (encode_frame (StopMessage_encode m) ++ x :: rest))); [|zlen_lia].
    by rewrite drain_front_app.
Qed.

Lemma si_forwards cs outs :
  handle_inputs (SIData <$> cs) (mkStopInitiator [] outs true true) =
    (mkStopInitiator [] (outs ++ (SIBridgeData <$> carried cs)) true true, Ok tt).
Proof.
  revert outs. induction cs as [|[|b c] cs IH]; intros outs; cbn; [by rewrite app_nil_r|apply IH|].
  rewrite cons_middle, app_assoc. apply IH.
Qed.
Lemma si_ignores cs outs :
  handle_inputs (SIData <$> cs) (mkStopInitiator [] outs false true) = (mkStopInitiator [] outs false true, Ok tt).
Proof. induction cs as [|c cs IH]; [done|]. apply IH. Qed.

(** Taking every output. *)
Lemma hr_drains s n :
  (length (hr_outputs s) < n)%nat → drain n s = ({| s with hr_outputs := [] |}, Ok (hr_outputs s)).
Proof.
  destruct s as [b outs p br bd rc d]. revert outs. induction n as [|n IH]; intros outs Hn; cbn in Hn; [lia|].
  cbn [drain]. unfold mbind, M_bind. cbn. destruct outs as [|o outs]; [done|]. cbn in *.
  specialize (IH outs ltac:(lia)). unfold mbind, M_bind in IH. by rewrite IH.
Qed.
Lemma si_drains s n :
  (length (si_outputs s) < n)%nat → drain n s = ({| s with si_outputs := [] |}, Ok (si_outputs s)).
Proof.
  destruct s as [b outs bd d]. revert outs. induction n as [|n IH]; intros outs Hn; cbn in Hn; [lia|].
  cbn [drain]. unfold mbind, M_bind. cbn. destruct outs as [|o outs]; [done|]. cbn in *.
  specialize (IH outs ltac:(lia)). unfold mbind, M_bind in IH. by rewrite IH.
Qed.
End Server.
