(* ===== verification/RelayClient.v ===== *)
(** The peers' side of a circuit, from [crates/relay/src/client.rs]: the RESERVE
    and CONNECT flows towards a relay, and the responder for its STOP streams. *)

From Stdlib Require Import Strings.Byte.
From S2P Require Import Prelude Varint Text Frame Proto RelayMessage SansIo Pieces.

Definition hop_kind_debug (k : HopMessageType) : bytes :=
  match k with HopReserve => str "Reserve" | HopConnectKind => str "Connect" | HopStatusKind => str "Status" end.
Definition stop_kind_debug (k : StopMessageType) : bytes :=
  match k with StopConnectKind => str "Connect" | StopStatusKind => str "Status" end.

Definition unexpected_hop_reason (actual : HopMessageType) (expected : bytes) : bytes :=
  str "expected HOP message of type " ++ expected ++ str " but got " ++ hop_kind_debug actual.
Definition unexpected_stop_reason (actual : StopMessageType) (expected : bytes) : bytes :=
  str "expected STOP message of type " ++ expected ++ str " but got " ++ stop_kind_debug actual.

Inductive FlowState := FlowPending | AwaitingResponse | FlowDone.
#[global] Instance FlowState_eq_dec : EqDecision FlowState.
Proof. solve_decision. Defined.

(** ** RESERVE *)

Inductive ReservationOutcome :=
  | Accepted (reservation : option Reservation) (limit : option Limit)
  | ReservationDenied (status : Status) (reason : bytes).

Inductive HopReservationInput := RFlush | RData (data : bytes) | RRemoteWriteClosed.
Inductive HopReservationOutput := ROutbound (frame : bytes) | ROutcome (outcome : ReservationOutcome).

Record HopReservation := mkHopReservation {
  r_outbound : bytes;
  r_recv_buf : bytes;
  r_state : FlowState;
  r_outcome : option ReservationOutcome;
  r_emitted_outcome : bool;
}.

Definition HopReservation_new : HopReservation :=
  mkHopReservation (encode_frame (HopMessage_encode (mkHop HopReserve None None None None)))
    [] FlowPending None false.

Abbreviation R := (M HopReservation RelayError).

Definition HopReservation_take_outbound : R bytes := λ s,
  ({| s with r_state := if bool_decide (r_state s = FlowPending) then AwaitingResponse else r_state s;
             r_outbound := [] |}, Ok (r_outbound s)).

Definition r_finish : R unit := modify (λ s, {| s with r_state := FlowDone |}).

Definition HopReservation_try_decode_response : R unit :=
  state ← gets r_state;
  if bool_decide (state = FlowDone) then mret tt
  else
    recv_buf ← gets r_recv_buf;
    match relay_decode_frame recv_buf with
    | Incomplete =>
        match enforce_max_size recv_buf with
        | Ok _ => mret tt
        | r => _ ← r_finish; lift r
        end
    | TooLarge len => _ ← r_finish; throw (FrameTooLarge len)
    | FrameError e => _ ← r_finish; throw (Malformed (RVarint e))
    | Complete payload consumed =>
        match HopMessage_decode payload with
        | Err e => _ ← r_finish; throw (Malformed e)
        | Panic => lift Panic
        | Diverge => lift Diverge
        | Ok msg =>
            rest ← lift (drain_front recv_buf consumed);
            _ ← modify (λ s, {| s with r_recv_buf := rest |});
            if negb (bool_decide (hop_kind msg = HopStatusKind)) then
              _ ← r_finish;
              throw (UnexpectedMessage (unexpected_hop_reason (hop_kind msg) (str "STATUS")))
            else
              let status := default Unused (hop_status msg) in
              _ ← r_finish;
              modify (λ s, {| s with
                r_outcome := Some (if bool_decide (status = StatusOk)
                                   then Accepted (hop_reservation msg) (hop_limit msg)
                                   else ReservationDenied status (describe_status status));
                r_emitted_outcome := false |})
        end
    end.

Definition HopReservation_on_data (data : bytes) : R unit :=
  state ← gets r_state;
  if bool_decide (state = FlowDone) then mret tt
  else
    _ ← modify (λ s, {| s with r_recv_buf := r_recv_buf s ++ data |});
    HopReservation_try_decode_response.

Definition HopReservation_handle_input (input : HopReservationInput) : R unit :=
  match input with
  | RFlush => mret tt
  | RData data => HopReservation_on_data data
  | RRemoteWriteClosed => HopReservation_try_decode_response
  end.

Definition HopReservation_poll_output : R (option HopReservationOutput) :=
  outbound ← HopReservation_take_outbound;
  match outbound with
  | _ :: _ => mret (Some (ROutbound outbound))
  | [] =>
      s ← gets id;
      match r_emitted_outcome s, r_outcome s with
      | false, Some outcome =>
          _ ← modify (λ s, {| s with r_emitted_outcome := true |});
          mret (Some (ROutcome outcome))
      | _, _ => mret None
      end
  end.

Definition HopReservation_is_idle (s : HopReservation) : bool :=
  bool_decide (r_outbound s = []) && (r_emitted_outcome s || bool_decide (r_outcome s = None)).

#[export] Instance HopReservation_protocol :
    SansIoProtocol HopReservation HopReservationInput HopReservationOutput RelayError := {|
  handle_input := HopReservation_handle_input;
  poll_output := HopReservation_poll_output;
  is_idle := HopReservation_is_idle;
|}.

(** ** CONNECT *)

Inductive ConnectOutcome :=
  | Bridged (limit : option Limit)
  | ConnectDenied (status : Status) (reason : bytes).

Inductive HopConnectInput := CFlush | CData (data : bytes) | CRemoteWriteClosed.
Inductive HopConnectOutput :=
  | COutbound (frame : bytes)
  | COutcome (outcome : ConnectOutcome)
  | CBridgeData (data : bytes).

Record HopConnect := mkHopConnect {
  c_outbound : bytes;
  c_recv_buf : bytes;
  c_state : FlowState;
  c_outcome : option ConnectOutcome;
  c_emitted_outcome : bool;
  c_bridge_bytes : bytes;
  c_pending_error : option RelayError;
}.

Definition hop_connect_request (target_peer_id : bytes) : HopMessage :=
  mkHop HopConnectKind (Some (mkPeer target_peer_id [])) None None None.

Definition HopConnect_new (target_peer_id : bytes) : HopConnect :=
  match checked_outbound_frame (HopMessage_encode (hop_connect_request target_peer_id)) with
  | Ok frame => mkHopConnect frame [] FlowPending None false [] None
  | Err err => mkHopConnect [] [] FlowDone None false [] (Some err)
  | Panic | Diverge => mkHopConnect [] [] FlowDone None false [] None
  end.

Abbreviation C := (M HopConnect RelayError).

Definition HopConnect_take_outbound : C bytes := λ s,
  ({| s with c_state := if bool_decide (c_state s = FlowPending) then AwaitingResponse else c_state s;
             c_outbound := [] |}, Ok (c_outbound s)).
Definition HopConnect_take_bridge_bytes : C bytes := λ s,
  ({| s with c_bridge_bytes := [] |}, Ok (c_bridge_bytes s)).

Definition c_finish : C unit := modify (λ s, {| s with c_state := FlowDone |}).

Definition HopConnect_try_decode_response : C unit :=
  state ← gets c_state;
  if bool_decide (state = FlowDone) then mret tt
  else
    recv_buf ← gets c_recv_buf;
    match relay_decode_frame recv_buf with
    | Incomplete =>
        match enforce_max_size recv_buf with
        | Ok _ => mret tt
        | r => _ ← c_finish; lift r
        end
    | TooLarge len => _ ← c_finish; throw (FrameTooLarge len)
    | FrameError e => _ ← c_finish; throw (Malformed (RVarint e))
    | Complete payload consumed =>
        match HopMessage_decode payload with
        | Err e => _ ← c_finish; throw (Malformed e)
        | Panic => lift Panic
        | Diverge => lift Diverge
        | Ok msg =>
            rest ← lift (drain_front recv_buf consumed);
            _ ← modify (λ s, {| s with c_recv_buf := rest |});
            if negb (bool_decide (hop_kind msg = HopStatusKind)) then
              _ ← c_finish;
              throw (UnexpectedMessage (unexpected_hop_reason (hop_kind msg) (str "STATUS")))
            else
              let status := default Unused (hop_status msg) in
              _ ← c_finish;
              outcome ← (if bool_decide (status = StatusOk) then
                           _ ← modify (λ s, {| s with c_bridge_bytes := c_bridge_bytes s ++ c_recv_buf s;
                                                      c_recv_buf := [] |});
                           mret (Bridged (hop_limit msg))
                         else mret (ConnectDenied status (describe_status status)));
              modify (λ s, {| s with c_outcome := Some outcome; c_emitted_outcome := false |})
        end
    end.

Definition HopConnect_on_data (data : bytes) : C unit :=
  state ← gets c_state;
  if bool_decide (state = FlowDone) then
    outcome ← gets c_outcome;
    match outcome with
    | Some (Bridged _) => modify (λ s, {| s with c_bridge_bytes := c_bridge_bytes s ++ data |})
    | _ => mret tt
    end
  else
    _ ← modify (λ s, {| s with c_recv_buf := c_recv_buf s ++ data |});
    HopConnect_try_decode_response.

Definition HopConnect_handle_input (input : HopConnectInput) : C unit :=
  pending ← gets c_pending_error;
  match pending with
  | Some err => _ ← modify (λ s, {| s with c_pending_error := None |}); throw err
  | None =>
      match input with
      | CFlush => mret tt
      | CData data => HopConnect_on_data data
      | CRemoteWriteClosed => HopConnect_try_decode_response
      end
  end.

Definition HopConnect_poll_output : C (option HopConnectOutput) :=
  outbound ← HopConnect_take_outbound;
  match outbound with
  | _ :: _ => mret (Some (COutbound outbound))
  | [] =>
      s ← gets id;
      match c_emitted_outcome s, c_outcome s with
      | false, Some outcome =>
          _ ← modify (λ s, {| s with c_emitted_outcome := true |});
          mret (Some (COutcome outcome))
      | _, _ =>
          bridge_bytes ← HopConnect_take_bridge_bytes;
          match bridge_bytes with
          | _ :: _ => mret (Some (CBridgeData bridge_bytes))
          | [] => mret None
          end
      end
  end.

Definition HopConnect_is_idle (s : HopConnect) : bool :=
  bool_decide (c_pending_error s = None) && bool_decide (c_outbound s = []) &&
  bool_decide (c_bridge_bytes s = []) && (c_emitted_outcome s || bool_decide (c_outcome s = None)).

#[export] Instance HopConnect_protocol :
    SansIoProtocol HopConnect HopConnectInput HopConnectOutput RelayError := {|
  handle_input := HopConnect_handle_input;
  poll_output := HopConnect_poll_output;
  is_idle := HopConnect_is_idle;
|}.

(** ** STOP *)

Record StopConnectRequest := mkStopConnectRequest { source_peer_id : bytes; request_limit : option Limit }.

Inductive StopResponderInput :=
  | SFlush
  | SData (data : bytes)
  | SRemoteWriteClosed
  | SAccept
  | SReject (status : Status).

Inductive StopResponderOutput :=
  | SRequest (request : StopConnectRequest)
  | SOutbound (frame : bytes)
  | SBridgeData (data : bytes).

Inductive StopState := AwaitingConnect | AwaitingDecision | StopDone | StopBridged.
#[global] Instance StopState_eq_dec : EqDecision StopState.
Proof. solve_decision. Defined.
Definition stop_state_debug (s : StopState) : bytes :=
  match s with
  | AwaitingConnect => str "AwaitingConnect"
  | AwaitingDecision => str "AwaitingDecision"
  | StopDone => str "Done"
  | StopBridged => str "Bridged"
  end.

Record StopResponder := mkStopResponder {
  s_outbound : bytes;
  s_recv_buf : bytes;
  s_state : StopState;
  s_request : option StopConnectRequest;
  s_emitted_request : bool;
  s_bridge_bytes : bytes;
}.

Definition StopResponder_new : StopResponder := mkStopResponder [] [] AwaitingConnect None false [].

Abbreviation SR := (M StopResponder RelayError).

Definition StopResponder_take_outbound : SR bytes := λ s,
  ({| s with s_outbound := [] |}, Ok (s_outbound s)).
Definition StopResponder_take_bridge_bytes : SR bytes := λ s,
  ({| s with s_bridge_bytes := [] |}, Ok (s_bridge_bytes s)).

Definition send_status (status : Status) (next_state : StopState) : SR unit :=
  state ← gets s_state;
  if negb (bool_decide (state = AwaitingDecision))
  then throw (UnexpectedMessage (str "cannot respond from state " ++ stop_state_debug state))
  else
    modify (λ s, {| s with
      s_outbound := s_outbound s ++
        encode_frame (StopMessage_encode (mkStop StopStatusKind None None (Some status)));
      s_state := next_state |}).

Definition StopResponder_accept : SR unit :=
  _ ← send_status StatusOk StopBridged;
  modify (λ s, {| s with s_bridge_bytes := s_bridge_bytes s ++ s_recv_buf s; s_recv_buf := [] |}).

Definition StopResponder_reject (status : Status) : SR unit := send_status status StopDone.

Definition s_finish : SR unit := modify (λ s, {| s with s_state := StopDone |}).

Definition try_decode_connect : SR unit :=
  state ← gets s_state;
  if negb (bool_decide (state = AwaitingConnect)) then mret tt
  else
    recv_buf ← gets s_recv_buf;
    match relay_decode_frame recv_buf with
    | Incomplete =>
        match enforce_max_size recv_buf with
        | Ok _ => mret tt
        | r => _ ← s_finish; lift r
        end
    | TooLarge len => _ ← s_finish; throw (FrameTooLarge len)
    | FrameError e => _ ← s_finish; throw (Malformed (RVarint e))
    | Complete payload consumed =>
        match StopMessage_decode payload with
        | Err e => _ ← s_finish; throw (Malformed e)
        | Panic => lift Panic
        | Diverge => lift Diverge
        | Ok msg =>
            pending_len ← lift (sub_or_panic (zlen recv_buf) consumed);
            if MAX_PENDING_BRIDGE_SIZE <? pending_len then
              _ ← modify (λ s, {| s with s_recv_buf := [] |});
              _ ← s_finish;
              throw (PendingBridgeTooLarge pending_len)
            else
              rest ← lift (drain_front recv_buf consumed);
              _ ← modify (λ s, {| s with s_recv_buf := rest |});
              if negb (bool_decide (stop_kind msg = StopConnectKind)) then
                _ ← s_finish;
                throw (UnexpectedMessage (unexpected_stop_reason (stop_kind msg) (str "CONNECT")))
              else
                match stop_peer msg with
                | None =>
                    _ ← s_finish;
                    throw (UnexpectedMessage (str "STOP CONNECT missing peer field"))
                | Some peer =>
                    modify (λ s, {| s with
                      s_request := Some (mkStopConnectRequest (peer_id_bytes peer) (stop_limit msg));
                      s_emitted_request := false;
                      s_state := AwaitingDecision |})
                end
        end
    end.

Definition StopResponder_on_data (data : bytes) : SR unit :=
  state ← gets s_state;
  if bool_decide (state = StopBridged)
  then modify (λ s, {| s with s_bridge_bytes := s_bridge_bytes s ++ data |})
  else if bool_decide (state = StopDone) then mret tt
  else if bool_decide (state = AwaitingDecision) then throw DecisionPending
  else
    _ ← modify (λ s, {| s with s_recv_buf := s_recv_buf s ++ data |});
    try_decode_connect.

Definition StopResponder_handle_input (input : StopResponderInput) : SR unit :=
  match input with
  | SFlush => mret tt
  | SData data => StopResponder_on_data data
  | SRemoteWriteClosed => try_decode_connect
  | SAccept => StopResponder_accept
  | SReject status => StopResponder_reject status
  end.

Definition StopResponder_poll_output : SR (option StopResponderOutput) :=
  s ← gets id;
  match s_emitted_request s, s_request s with
  | false, Some request =>
      _ ← modify (λ s, {| s with s_emitted_request := true |});
      mret (Some (SRequest request))
  | _, _ =>
      outbound ← StopResponder_take_outbound;
      match outbound with
      | _ :: _ => mret (Some (SOutbound outbound))
      | [] =>
          bridge_bytes ← StopResponder_take_bridge_bytes;
          match bridge_bytes with
          | _ :: _ => mret (Some (SBridgeData bridge_bytes))
          | [] => mret None
          end
      end
  end.

Definition StopResponder_is_idle (s : StopResponder) : bool :=
  bool_decide (s_outbound s = []) && bool_decide (s_bridge_bytes s = []) &&
  (s_emitted_request s || bool_decide (s_request s = None)).

#[export] Instance StopResponder_protocol :
    SansIoProtocol StopResponder StopResponderInput StopResponderOutput RelayError := {|
  handle_input := StopResponder_handle_input;
  poll_output := StopResponder_poll_output;
  is_idle := StopResponder_is_idle;
|}.

#[global] Arguments HopMessage_encode : simpl never.
#[global] Arguments StopMessage_encode : simpl never.
#[global] Arguments HopMessage_decode : simpl never.
#[global] Arguments StopMessage_decode : simpl never.
#[global] Arguments encode_frame : simpl never.
#[global] Arguments relay_decode_frame : simpl never.
#[global] Arguments enforce_max_size : simpl never.

(** ** Reachable machines *)

(** A machine in need of bytes holds less than a frame. *)
Definition receiving (b : bytes) : Prop := relay_decode_frame b = Incomplete ∧ enforce_max_size b = Ok tt.

Lemma receiving_nil : receiving [].
Proof. done. Qed.
Lemma receiving_short b : receiving b → zlen b ≤ MAX_MESSAGE_SIZE + MAX_FRAME_PREFIX_LEN.
Proof. intros [_ He]. unfold enforce_max_size in He. by destruct (Z.ltb_spec (MAX_MESSAGE_SIZE + MAX_FRAME_PREFIX_LEN) (zlen b)). Qed.
Lemma enforce_cases b : enforce_max_size b = Ok tt ∨ ∃ e, enforce_max_size b = Err e.
Proof. unfold enforce_max_size. case_match; eauto. Qed.
Lemma wp_drained {S E} (b : bytes) (c : Z) (Q : bytes → S → Prop) (X : E → S → Prop) s :
  0 ≤ c ≤ zlen b → (∀ rest, zlen rest = zlen b - c → Q rest s) → wp (lift (drain_front b c)) Q X s.
Proof.
  intros Hc Hq. apply wp_lift. unfold drain_front. destruct (Z.leb_spec c (zlen b)); [|lia].
  apply Hq. rewrite zlen_drop. lia.
Qed.

Record r_ok (s : HopReservation) : Prop := {
  r_sends : r_state s = FlowPending → r_outbound s ≠ [];
  r_receives : r_state s ≠ FlowDone → receiving (r_recv_buf s) ∧ r_outcome s = None;
}.

Lemma r_decode_ok s :
  (r_state s = FlowPending → r_outbound s ≠ []) → (r_state s ≠ FlowDone → r_outcome s = None) →
  wp HopReservation_try_decode_response (λ _, r_ok) (λ _, r_ok) s.
Proof.
  intros Hs Ho. unfold HopReservation_try_decode_response. wp_step. apply wp_gets.
  case_bool_decide as Hd; [apply wp_ret; by split|]. wp_step. apply wp_gets.
  destruct (relay_decode_frame (r_recv_buf s)) as [p c| |len|e] eqn:Hf; unfold r_finish.
  - apply relay_frame_fits in Hf as (Hp & Hc). pose proof (Hop_decode_payload p Hp) as Hr.
    destruct (HopMessage_decode p) as [m|e| |]; try done.
    wp_step. apply wp_drained; [done|]. intros rest _. wp_steps; by split.
  - destruct (enforce_cases (r_recv_buf s)) as [He|[e He]]; rewrite He.
    + apply wp_ret. split; [done|]. intros _. by split; [|apply Ho].
    + wp_steps. apply wp_lift. by split.
  - wp_steps. by split.
  - wp_steps. by split.
Qed.

#[export] Instance HopReservation_contract : SansIoContract r_ok (λ _ (_ : HopReservationInput), True).
Proof.
  unshelve refine {| backlog s := (match r_outbound s with [] => 0 | _ => 1 end +
    match r_emitted_outcome s, r_outcome s with false, Some _ => 1 | _, _ => 0 end)%nat |}.
  - intros s [|d|] [Hs Hr] _; cbn -[wp]; [by apply wp_ret| |].
    + unfold HopReservation_on_data. wp_step. apply wp_gets.
      case_bool_decide as Hd; [apply wp_ret; by split|]. wp_steps. apply r_decode_ok; cbn; naive_solver.
    + apply r_decode_ok; naive_solver.
  - intros [out buf st oc em] [Hs Hr]. cbn in *. unfold HopReservation_poll_output, HopReservation_is_idle. run_simpl. cbn.
    destruct out as [|x out]; cbn.
    + rewrite bool_decide_false by (intros ->; naive_solver).
      destruct em, oc as [oc|]; cbn; eexists _, _; (split; [reflexivity|]); (split; [by split|]); try done. split; [done|cbn; lia].
    + eexists _, _. split; [reflexivity|]. split; [|split; [done|cbn; lia]]. split; cbn.
      * by case_bool_decide.
      * case_bool_decide as Hp; [|done]. intros _. apply Hr. by rewrite Hp.
Defined.

(** A CONNECT that could be sent. *)
Record c_ok (s : HopConnect) : Prop := {
  c_no_error : c_pending_error s = None;
  c_sends : c_state s = FlowPending → c_outbound s ≠ [];
  c_receives : c_state s ≠ FlowDone → receiving (c_recv_buf s) ∧ c_outcome s = None;
}.

Lemma c_decode_ok s :
  c_pending_error s = None → (c_state s = FlowPending → c_outbound s ≠ []) →
  (c_state s ≠ FlowDone → c_outcome s = None) →
  wp HopConnect_try_decode_response (λ _, c_ok) (λ _, c_ok) s.
Proof.
  intros He Hs Ho. unfold HopConnect_try_decode_response. wp_step. apply wp_gets.
  case_bool_decide as Hd; [apply wp_ret; by split|]. wp_step. apply wp_gets.
  destruct (relay_decode_frame (c_recv_buf s)) as [p c| |len|e] eqn:Hf; unfold c_finish.
  - apply relay_frame_fits in Hf as (Hp & Hc). pose proof (Hop_decode_payload p Hp) as Hr.
    destruct (HopMessage_decode p) as [m|e| |]; try done.
    wp_step. apply wp_drained; [done|]. intros rest _. wp_steps; by split.
  - destruct (enforce_cases (c_recv_buf s)) as [Hm|[e Hm]]; rewrite Hm.
    + apply wp_ret. split; [done|done|]. intros _. by split; [|apply Ho].
    + wp_steps. apply wp_lift. by split.
  - wp_steps. by split.
  - wp_steps. by split.
Qed.

#[export] Instance HopConnect_contract : SansIoContract c_ok (λ _ (_ : HopConnectInput), True).
Proof.
  unshelve refine {| backlog s := (match c_outbound s with [] => 0 | _ => 1 end +
    match c_emitted_outcome s, c_outcome s with false, Some _ => 1 | _, _ => 0 end +
    match c_bridge_bytes s with [] => 0 | _ => 1 end)%nat |}.
  - intros s i [He Hs Hr] _. cbn -[wp]. unfold HopConnect_handle_input. wp_step. apply wp_gets. rewrite He.
    destruct i as [|d|]; [by apply wp_ret| |].
    + unfold HopConnect_on_data. wp_step. apply wp_gets. case_bool_decide as Hd.
      * wp_step. apply wp_gets. destruct (c_outcome s) as [[]|]; [apply wp_modify|apply wp_ret..]; by split.
      * wp_steps. apply c_decode_ok; [done|done|cbn; naive_solver].
    + apply c_decode_ok; naive_solver.
  - intros [out buf st oc em br er] [He Hs Hr]. cbn in *. unfold HopConnect_poll_output, HopConnect_is_idle. run_simpl. cbn.
    subst er. destruct out as [|x out]; cbn.
    + rewrite bool_decide_false by (intros ->; naive_solver).
      destruct em, oc as [oc|], br as [|y br]; cbn; eexists _, _; (split; [reflexivity|]); (split; [by split|]);
        try done; split; cbn; done || lia.
    + eexists _, _. split; [reflexivity|]. split; [|split; [done|cbn; lia]]. split; cbn; [done| |].
      * by case_bool_decide.
      * case_bool_decide as Hp; [|done]. intros _. apply Hr. by rewrite Hp.
Defined.

Record s_ok (s : StopResponder) : Prop := {
  s_receives : s_state s = AwaitingConnect → receiving (s_recv_buf s);
  s_holds : s_state s = AwaitingDecision → zlen (s_recv_buf s) ≤ MAX_PENDING_BRIDGE_SIZE ∧ is_Some (s_request s);
}.

Lemma s_decode_ok s :
  (s_state s = AwaitingDecision → zlen (s_recv_buf s) ≤ MAX_PENDING_BRIDGE_SIZE ∧ is_Some (s_request s)) →
  wp try_decode_connect (λ _, s_ok) (λ _, s_ok) s.
Proof.
  intros Hh. unfold try_decode_connect. wp_step. apply wp_gets.
  case_bool_decide as Hd; cbn [negb]; [|apply wp_ret; by split]. wp_step. apply wp_gets.
  destruct (relay_decode_frame (s_recv_buf s)) as [p c| |len|e] eqn:Hf; unfold s_finish.
  - apply relay_frame_fits in Hf as (Hp & Hc). pose proof (Stop_decode_payload p Hp) as Hr.
    destruct (StopMessage_decode p) as [m|e| |]; try done.
    wp_step. apply wp_lift. unfold sub_or_panic. rewrite checked_sub_Some by lia. cbn [expect].
    destruct (Z.ltb_spec MAX_PENDING_BRIDGE_SIZE (zlen (s_recv_buf s) - c)); [by wp_steps; split|].
    wp_step. apply wp_drained; [done|]. intros rest Hrest. wp_steps; [by split|].
    destruct (stop_peer m) as [peer|]; wp_steps; split; cbn; try done.
    intros _. split; [lia|done].
  - destruct (enforce_cases (s_recv_buf s)) as [Hm|[e Hm]]; rewrite Hm.
    + apply wp_ret. by split; [|rewrite Hd].
    + wp_steps. apply wp_lift. by split.
  - wp_steps. by split.
  - wp_steps. by split.
Qed.

#[export] Instance StopResponder_contract : SansIoContract s_ok (λ _ (_ : StopResponderInput), True).
Proof.
  unshelve refine {| backlog s := (match s_outbound s with [] => 0 | _ => 1 end +
    match s_emitted_request s, s_request s with false, Some _ => 1 | _, _ => 0 end +
    match s_bridge_bytes s with [] => 0 | _ => 1 end)%nat |}.
  - intros s i [Hr Hh] _. destruct i as [|d| | |st]; cbn -[wp]; [by apply wp_ret| | | |].
    + unfold StopResponder_on_data. wp_step. apply wp_gets.
      case_bool_decide; [apply wp_modify; split; cbn; congruence|].
      case_bool_decide; [apply wp_ret; by split|]. case_bool_decide; [apply wp_throw; by split|].
      wp_steps. apply s_decode_ok. done.
    + by apply s_decode_ok.
    + unfold StopResponder_accept, send_status. wp_steps; by split.
    + unfold StopResponder_reject, send_status. wp_steps; by split.
  - intros [out buf st rq em br] [Hr Hh]. cbn in *. unfold StopResponder_poll_output, StopResponder_is_idle. run_simpl. cbn.
    destruct em, rq as [rq|], out as [|x out], br as [|y br]; cbn; eexists _, _; (split; [reflexivity|]); (split; [by split|]);
        try done; split; cbn; done || lia.
Defined.

(** ** An answer arriving in pieces *)

Definition r_waiting (b : bytes) : HopReservation := mkHopReservation [] b AwaitingResponse None false.
Definition c_waiting (b : bytes) : HopConnect := mkHopConnect [] b AwaitingResponse None false [] None.
Definition s_waiting (b : bytes) : StopResponder := mkStopResponder [] b AwaitingConnect None false [].

Lemma r_collects b d : awaits (b ++ d) → handle_input (RData d) (r_waiting b) = (r_waiting (b ++ d), Ok tt).
Proof.
  intros [Hi He]. cbn. unfold HopReservation_on_data, HopReservation_try_decode_response. run_simpl. cbn.
  known_states. by rewrite Hi, He.
Qed.
Lemma c_collects b d : awaits (b ++ d) → handle_input (CData d) (c_waiting b) = (c_waiting (b ++ d), Ok tt).
Proof.
  intros [Hi He]. cbn. unfold HopConnect_handle_input, HopConnect_on_data, HopConnect_try_decode_response.
  run_simpl. cbn. known_states. by rewrite Hi, He.
Qed.
Lemma s_collects b d : awaits (b ++ d) → handle_input (SData d) (s_waiting b) = (s_waiting (b ++ d), Ok tt).
Proof.
  intros [Hi He]. cbn. unfold StopResponder_on_data, try_decode_connect. run_simpl. cbn. known_states. by rewrite Hi, He.
Qed.

Definition answer_outcome (m : HopMessage) : ReservationOutcome :=
  let status := default Unused (hop_status m) in
  if bool_decide (status = StatusOk) then Accepted (hop_reservation m) (hop_limit m)
  else ReservationDenied status (describe_status status).

Section Answer.
Context (m : HopMessage) (Hm : Hop_typed m) (Hz : zlen (HopMessage_encode m) ≤ MAX_MESSAGE_SIZE).
Context (Hk : hop_kind m = HopStatusKind).
Abbreviation frame := (encode_frame (HopMessage_encode m)).

Lemma r_completes b d rest :
  b ++ d = frame ++ rest →
  handle_input (RData d) (r_waiting b) = (mkHopReservation [] rest FlowDone (Some (answer_outcome m)) false, Ok tt).
Proof.
  intros Hb. cbn. unfold HopReservation_on_data, HopReservation_try_decode_response. run_simpl. cbn. known_states.
  rewrite Hb, relay_frame_complete, Hop_decode_fits, drain_front_app by done. cbn.
  rewrite Hk. by known_states.
Qed.

Lemma c_completes b d rest :
  b ++ d = frame ++ rest →
  handle_input (CData d) (c_waiting b) =
    (let status := default Unused (hop_status m) in
     if bool_decide (status = StatusOk)
     then mkHopConnect [] [] FlowDone (Some (Bridged (hop_limit m))) false rest None
     else mkHopConnect [] rest FlowDone (Some (ConnectDenied status (describe_status status))) false [] None, Ok tt).
Proof.
  intros Hb. cbn. unfold HopConnect_handle_input, HopConnect_on_data, HopConnect_try_decode_response. run_simpl. cbn. known_states.
  rewrite Hb, relay_frame_complete, Hop_decode_fits, drain_front_app by done. cbn.
  rewrite Hk. known_states. by case_bool_decide.
Qed.
End Answer.

Lemma s_completes m peer b d rest :
  Stop_typed m → zlen (StopMessage_encode m) ≤ MAX_MESSAGE_SIZE → zlen rest ≤ MAX_PENDING_BRIDGE_SIZE →
  stop_kind m = StopConnectKind → stop_peer m = Some peer →
  b ++ d = encode_frame (StopMessage_encode m) ++ rest →
  handle_input (SData d) (s_waiting b) =
    (mkStopResponder [] rest AwaitingDecision
       (Some (mkStopConnectRequest (peer_id_bytes peer) (stop_limit m))) false [], Ok tt).
Proof.
  intros Hm Hz Hr Hk Hp Hb. cbn. unfold StopResponder_on_data, try_decode_connect. run_simpl. cbn. known_states.
  rewrite Hb, relay_frame_complete, Stop_decode_fits by done. unfold sub_or_panic.
  rewrite checked_sub_Some by zlen_lia. cbn. rewrite zlen_app.
  destruct (Z.ltb_spec MAX_PENDING_BRIDGE_SIZE (zlen (encode_frame (StopMessage_encode m)) + zlen rest
    - zlen (encode_frame (StopMessage_encode m)))); [lia|].
  rewrite drain_front_app. cbn. rewrite Hk, Hp. by known_states.
Qed.

Lemma c_forwards lim em br cs :
  handle_inputs (CData <$> cs) (mkHopConnect [] [] FlowDone (Some (Bridged lim)) em br None) =
    (mkHopConnect [] [] FlowDone (Some (Bridged lim)) em (br ++ concat cs) None, Ok tt).
Proof.
  by apply (handle_inputs_collect CData (λ b, mkHopConnect [] [] FlowDone (Some (Bridged lim)) em b None) (λ _, True)).
Qed.
Lemma s_forwards out rq em br cs :
  handle_inputs (SData <$> cs) (mkStopResponder out [] StopBridged rq em br) =
    (mkStopResponder out [] StopBridged rq em (br ++ concat cs), Ok tt).
Proof.
  by apply (handle_inputs_collect SData (λ b, mkStopResponder out [] StopBridged rq em b) (λ _, True)).
Qed.
Lemma r_ignores out buf oc em cs :
  handle_inputs (RData <$> cs) (mkHopReservation out buf FlowDone oc em) = (mkHopReservation out buf FlowDone oc em, Ok tt).
Proof. induction cs as [|c cs IH]; [done|]. apply IH. Qed.
Lemma c_ignores out buf st rs em br cs :
  handle_inputs (CData <$> cs) (mkHopConnect out buf FlowDone (Some (ConnectDenied st rs)) em br None) =
    (mkHopConnect out buf FlowDone (Some (ConnectDenied st rs)) em br None, Ok tt).
Proof. induction cs as [|c cs IH]; [done|]. apply IH. Qed.

(** A CONNECT that does not fit in a frame: nothing is queued, but the machine
    does not call itself idle until the first input has reported the error. *)
Lemma connect_oversized id :
  MAX_MESSAGE_SIZE < zlen (HopMessage_encode (hop_connect_request id)) →
  ∃ s', poll_output (HopConnect_new id) = (HopConnect_new id, Ok None) ∧ is_idle (HopConnect_new id) = false ∧
    (∀ i, handle_input i (HopConnect_new id) =
      (s', Err (MessageTooLarge (zlen (HopMessage_encode (hop_connect_request id)))))) ∧
    is_idle s' = true ∧ c_ok s'.
Proof.
  intros Hz. unfold HopConnect_new, checked_outbound_frame.
  destruct (Z.ltb_spec MAX_MESSAGE_SIZE (zlen (HopMessage_encode (hop_connect_request id)))); [|lia].
  eexists. split_and!; [reflexivity|reflexivity|reflexivity|reflexivity|]. by split.
Qed.
