(* ===== verification/RelayExchange.v ===== *)
(** The relay protocol from end to end: the client machines of
    [crates/relay/src/client.rs] talking to the relay's machines of
    [crates/relay/src/server.rs] over streams that deliver their bytes in
    arbitrary pieces. *)

From Stdlib Require Import Strings.Byte.
From S2P Require Import Prelude Varint Text Frame Proto RelayMessage Base58 PeerIdentity SansIo Pieces RelayServer RelayClient.

(** ** Pieces of a frame *)

Section Pieces.
Context {P Input Output Error : Type} `{!SansIoProtocol P Input Output Error}.
Context (mk : bytes → Input) (waiting : bytes → P).
Context (collects : ∀ b d, awaits (b ++ d) → handle_input (mk d) (waiting b) = (waiting (b ++ d), Ok tt)).
Context (payload : bytes) (Hfits : zlen payload ≤ MAX_MESSAGE_SIZE).

Lemma frame_collects b d :
  strict_prefix (b ++ d) (encode_frame payload) → handle_input (mk d) (waiting b) = (waiting (b ++ d), Ok tt).
Proof. intros Hp. apply collects. by eapply frame_awaits. Qed.

Lemma pieces_wait cs b :
  strict_prefix (b ++ concat cs) (encode_frame payload) →
  handle_inputs (mk <$> cs) (waiting b) = (waiting (b ++ concat cs), Ok tt).
Proof. apply arrive_wait, frame_collects. Qed.

Lemma pieces_complete (after : bytes → P) cs rest :
  (∀ b d r, b ++ d = encode_frame payload ++ r → zlen r ≤ zlen rest →
     handle_input (mk d) (waiting b) = (after r, Ok tt)) →
  concat cs = encode_frame payload ++ rest →
  ∃ r post, rest = r ++ concat post ∧ ([] ∉ cs → rest = [] → post = []) ∧
    handle_inputs (mk <$> cs) (waiting []) = handle_inputs (mk <$> post) (after r).
Proof. apply arrive_complete; [apply encode_frame_nonempty|apply frame_collects]. Qed.

Lemma frame_delivered cut (after : P) :
  delivers cut →
  (∀ b d, b ++ d = encode_frame payload → handle_input (mk d) (waiting b) = (after, Ok tt)) →
  handle_inputs (mk <$> cut (encode_frame payload)) (waiting []) = (after, Ok tt).
Proof. apply arrive_whole; [apply encode_frame_nonempty|apply frame_collects]. Qed.
End Pieces.

(** ** Sizes *)

Lemma zlen_varint_field t v : 0 ≤ v ≤ u64_max → zlen (encode_varint_field t v) ≤ 11.
Proof.
  intros Hv. unfold encode_varint_field. rewrite zlen_cons, zlen_write_uvarint by lia.
  pose proof (uvarint_len_bound v Hv). lia.
Qed.
Lemma zlen_bytes_field t b : zlen b ≤ u64_max → zlen (encode_bytes_field t b) ≤ 11 + zlen b.
Proof.
  intros Hv. pose proof (zlen_nonneg b). unfold encode_bytes_field. rewrite zlen_cons, zlen_app, zlen_write_uvarint by lia.
  pose proof (uvarint_len_bound (zlen b) ltac:(lia)). lia.
Qed.

Lemma zlen_limit l : Limit_typed l → zlen (Limit_encode l) ≤ 22.
Proof.
  intros [Hd Hb]. unfold Limit_encode. rewrite zlen_app.
  assert (∀ t o, opt_typed (λ d, 0 ≤ d ≤ u64_max) o →
    zlen (match o with Some d => encode_varint_field t d | None => [] end) ≤ 11) as Ho.
  { intros t [d|]; cbn; [apply zlen_varint_field|]. rewrite zlen_nil. lia. }
  pose proof (Ho (tag_byte 2 WIRE_VARINT) _ Hb).
  assert (opt_typed (λ d, 0 ≤ d ≤ u64_max) (duration l)) as Hd'
    by (destruct (duration l); cbn in *; unfold u32_max, u64_max in *; lia).
  pose proof (Ho (tag_byte 1 WIRE_VARINT) _ Hd'). lia.
Qed.

Lemma zlen_peer b : zlen b ≤ u64_max → zlen (Peer_encode (mkPeer b [])) ≤ 11 + zlen b.
Proof.
  intros Hb. unfold Peer_encode. cbn [peer_id_bytes peer_addrs fmap list_fmap concat]. rewrite app_nil_r.
  destruct b as [|x b]; [zlen_lia|]. by apply zlen_bytes_field.
Qed.

(** The control messages that carry no reservation fit in a frame. *)
Section Sizes.
Context (lim : option Limit) (Hlim : opt_typed Limit_typed lim) (st : Status) (Hst : Status_typed st).

Lemma zlen_opt_limit t : zlen (opt_bytes (λ l, encode_bytes_field t (Limit_encode l)) lim) ≤ 33.
Proof.
  destruct lim as [l|]; cbn; [|zlen_lia]. pose proof (zlen_limit l Hlim).
  pose proof (zlen_bytes_field t (Limit_encode l)). unfold u64_max in *. lia.
Qed.

Lemma hop_status_fits : zlen (HopMessage_encode (mkHop HopStatusKind None None lim (Some st))) ≤ MAX_MESSAGE_SIZE.
Proof.
  unfold HopMessage_encode. cbn [hop_kind hop_peer hop_reservation hop_limit hop_status opt_bytes app].
  rewrite !zlen_app. pose proof (zlen_opt_limit (tag_byte 4 WIRE_LEN)).
  pose proof (zlen_varint_field (tag_byte 1 WIRE_VARINT) (HopMessageType_tag HopStatusKind) ltac:(by vm_compute)).
  pose proof (zlen_varint_field (tag_byte 5 WIRE_VARINT) _ (Status_range st Hst)).
  unfold MAX_MESSAGE_SIZE. lia.
Qed.

Lemma stop_status_fits : zlen (StopMessage_encode (mkStop StopStatusKind None None (Some st))) ≤ MAX_MESSAGE_SIZE.
Proof.
  unfold StopMessage_encode. cbn [stop_kind stop_peer stop_limit stop_status opt_bytes app].
  rewrite !zlen_app.
  pose proof (zlen_varint_field (tag_byte 1 WIRE_VARINT) (StopMessageType_tag StopStatusKind) ltac:(by vm_compute)).
  pose proof (zlen_varint_field (tag_byte 4 WIRE_VARINT) _ (Status_range st Hst)).
  unfold MAX_MESSAGE_SIZE. lia.
Qed.

Context (id : bytes) (Hid : zlen id ≤ 4096).

Lemma zlen_opt_peer t : zlen (encode_bytes_field t (Peer_encode (mkPeer id []))) ≤ 4118.
Proof.
  pose proof (zlen_peer id ltac:(unfold u64_max; lia)).
  pose proof (zlen_bytes_field t (Peer_encode (mkPeer id [])) ltac:(unfold u64_max; lia)). lia.
Qed.

Lemma hop_connect_fits : zlen (HopMessage_encode (hop_connect_request id)) ≤ MAX_MESSAGE_SIZE.
Proof.
  unfold HopMessage_encode, hop_connect_request.
  cbn [hop_kind hop_peer hop_reservation hop_limit hop_status opt_bytes app].
  rewrite !zlen_app, ?(zlen_nil (A := byte)). pose proof (zlen_opt_peer (tag_byte 2 WIRE_LEN)).
  pose proof (zlen_varint_field (tag_byte 1 WIRE_VARINT) (HopMessageType_tag HopConnectKind) ltac:(by vm_compute)).
  unfold MAX_MESSAGE_SIZE. lia.
Qed.

Lemma stop_connect_fits : zlen (StopMessage_encode (stop_connect_request id lim)) ≤ MAX_MESSAGE_SIZE.
Proof.
  unfold StopMessage_encode, stop_connect_request. cbn [stop_kind stop_peer stop_limit stop_status].
  cbn [opt_bytes] in *. rewrite !zlen_app, ?(zlen_nil (A := byte)). pose proof (zlen_opt_peer (tag_byte 2 WIRE_LEN)).
  pose proof (zlen_opt_limit (tag_byte 3 WIRE_LEN)).
  pose proof (zlen_varint_field (tag_byte 1 WIRE_VARINT) (StopMessageType_tag StopConnectKind) ltac:(by vm_compute)).
  unfold MAX_MESSAGE_SIZE. lia.
Qed.
End Sizes.

Section Exchange.
Context `{HashCratesSpec Multihash}.

Lemma zlen_peer_id (p : PeerId) : peer_ok p → zlen (to_bytes p) ≤ 4096.
Proof.
  intros [[Hc Hd] _]. unfold to_bytes. rewrite mh_format by done. rewrite !zlen_app.
  pose proof (zlen_nonneg (mh_digest (multihash p))). unfold PEER_ID_MULTIHASH_SIZE, u64_max in *.
  rewrite !zlen_write_uvarint by lia. pose proof (uvarint_len_bound (mh_code (multihash p)) Hc).
  assert (1 ≤ uvarint_len (zlen (mh_digest (multihash p))) ≤ 10) by (apply uvarint_len_bound; unfold u64_max; lia).
  lia.
Qed.

Lemma connect_request_of (p : PeerId) : peer_ok p →
  hop_request_of (hop_connect_request (to_bytes p)) = Ok (inr (Connect p, PendingConnect)).
Proof. intros Hp. unfold hop_request_of. cbn. by rewrite from_bytes_to_bytes. Qed.

(** ** Turns *)

Lemma hr_talk ins s s1 outs :
  handle_inputs ins s = (s1, Ok tt) → hr_outputs s1 = outs → talk ins s = ({| s1 with hr_outputs := [] |}, Ok outs).
Proof. intros Hi <-. unfold talk, mbind, M_bind. rewrite Hi. unfold drain_all. apply hr_drains. cbn. lia. Qed.
Lemma si_talk ins s s1 outs :
  handle_inputs ins s = (s1, Ok tt) → si_outputs s1 = outs → talk ins s = ({| s1 with si_outputs := [] |}, Ok outs).
Proof. intros Hi <-. unfold talk, mbind, M_bind. rewrite Hi. unfold drain_all. apply si_drains. cbn. lia. Qed.

(** A request reaches the relay. *)
Lemma request_delivered cut m req pend :
  delivers cut → Hop_typed m → zlen (HopMessage_encode m) ≤ MAX_MESSAGE_SIZE →
  hop_request_of m = Ok (inr (req, pend)) →
  talk (HRData <$> cut (encode_frame (HopMessage_encode m))) HopResponder_new =
    (hr_deciding [] pend [], Ok [HRRequest req]).
Proof.
  intros Hcut Hm Hz Hreq.
  assert (handle_inputs (HRData <$> cut (encode_frame (HopMessage_encode m))) (hr_waiting []) =
    (hr_deciding [HRRequest req] pend [], Ok tt)) as Hrun; [|exact (hr_talk _ _ _ _ Hrun eq_refl)].
  apply frame_delivered; [exact hr_collects|done|done|].
  intros b d Hb. apply (hr_completes m); try done. by rewrite app_nil_r.
Qed.

(** The relay's answer reaches the client. *)
Lemma reservation_answered cut m :
  delivers cut → Hop_typed m → zlen (HopMessage_encode m) ≤ MAX_MESSAGE_SIZE → hop_kind m = HopStatusKind →
  talk (RData <$> cut (encode_frame (HopMessage_encode m))) (r_waiting []) =
    (mkHopReservation [] [] FlowDone (Some (answer_outcome m)) true, Ok [ROutcome (answer_outcome m)]).
Proof.
  intros Hcut Hm Hz Hk.
  rewrite (talk_then _ _ (mkHopReservation [] [] FlowDone (Some (answer_outcome m)) false)); [done|].
  apply frame_delivered; [exact r_collects|done|done|].
  intros b d Hb. apply r_completes; try done. by rewrite app_nil_r.
Qed.

Lemma encode_hop_status_frame st r l f :
  encode_hop_status st r l = Ok f ↔
  zlen (HopMessage_encode (mkHop HopStatusKind None r l (Some st))) ≤ MAX_MESSAGE_SIZE ∧
  f = encode_frame (HopMessage_encode (mkHop HopStatusKind None r l (Some st))).
Proof.
  unfold encode_hop_status, checked_outbound_frame. destruct (Z.ltb_spec MAX_MESSAGE_SIZE
    (zlen (HopMessage_encode (mkHop HopStatusKind None r l (Some st))))); [|naive_solver]. split; [done|lia].
Qed.

(** C33: a reservation is granted or refused as the relay decides, over streams
    that deliver in any pieces. The client's RESERVE is announced to the
    relay's service as one request; a grant whose answer is within the size
    limit is answered with exactly the reservation (without its voucher) and
    the limit, then the stream is closed; a refusal with a status other than
    [OK] and [Unused] is answered with that status, and the stream is closed.
    The client's only outcome is what was granted, or the status. *)
Theorem reservation_exchange cut :
  delivers cut →
  ∃ client req relay,
    talk [RFlush] HopReservation_new = (client, Ok [ROutbound req]) ∧
    talk (HRData <$> cut req) HopResponder_new = (relay, Ok [HRRequest Reserve]) ∧
    (∀ r l f, Reservation_typed r → opt_typed Limit_typed l →
       encode_hop_status StatusOk (Some {| r with voucher := None |}) l = Ok f →
       ∃ relay' client', talk [AcceptReservation r l] relay = (relay', Ok [HROutbound f; HRCloseWrite]) ∧
         talk (RData <$> cut f) client = (client', Ok [ROutcome (Accepted (Some {| r with voucher := None |}) l)])) ∧
    (∀ st, Status_typed st → st ≠ StatusOk → st ≠ Unused →
       ∃ f relay' client', talk [HRReject st] relay = (relay', Ok [HROutbound f; HRCloseWrite]) ∧
         talk (RData <$> cut f) client = (client', Ok [ROutcome (ReservationDenied st (describe_status st))])).
Proof.
  intros Hcut. eexists (r_waiting []), _, (hr_deciding [] PendingReserve []). split_and!; [reflexivity| | |].
  - by apply request_delivered.
  - intros r l f Hr Hl Hf. pose proof Hf as [Hz ->]%encode_hop_status_frame. eexists _, _. split.
    + eapply hr_talk; [by eapply one_input, hr_grants|done].
    + by apply reservation_answered.
  - intros st Hst Hok Hun.
    assert (encode_hop_status st None None = Ok (encode_frame (HopMessage_encode (mkHop HopStatusKind None None None (Some st)))))
      as Hf by (apply encode_hop_status_frame; split; [by apply hop_status_fits|done]).
    eexists _, _, _. split.
    + eapply hr_talk; [by eapply one_input, hr_rejects|done].
    + erewrite reservation_answered by (done || by apply hop_status_fits).
      unfold answer_outcome. cbn. by rewrite bool_decide_false.
Qed.

(** ** A circuit *)

(** What a client hands over in one piece. *)
Definition handed {A} (mk : bytes → A) (b : bytes) : list A := match b with [] => [] | _ => [mk b] end.

Abbreviation hop_answer l st := (encode_frame (HopMessage_encode (mkHop HopStatusKind None None l (Some st)))).
Abbreviation stop_answer st := (encode_frame (StopMessage_encode (mkStop StopStatusKind None None (Some st)))).

Lemma connect_sent (p : PeerId) : peer_ok p →
  talk [CFlush] (HopConnect_new (to_bytes p)) =
    (c_waiting [], Ok [COutbound (encode_frame (HopMessage_encode (hop_connect_request (to_bytes p))))]).
Proof.
  intros Hp%zlen_peer_id. pose proof (hop_connect_fits _ Hp) as Hz.
  unfold HopConnect_new, checked_outbound_frame.
  destruct (Z.ltb_spec MAX_MESSAGE_SIZE (zlen (HopMessage_encode (hop_connect_request (to_bytes p))))); [lia|].
  unfold talk, drain_all. run_simpl. cbn [handle_inputs handle_input HopConnect_protocol].
  pose proof (encode_frame_nonempty (HopMessage_encode (hop_connect_request (to_bytes p)))) as Hn.
  destruct (encode_frame (HopMessage_encode (hop_connect_request (to_bytes p)))); [done|reflexivity].
Qed.

Lemma stop_delivered cut id lim :
  delivers cut → zlen id ≤ 4096 → opt_typed Limit_typed lim →
  talk (SData <$> cut (encode_frame (StopMessage_encode (stop_connect_request id lim)))) StopResponder_new =
    (mkStopResponder [] [] AwaitingDecision (Some (mkStopConnectRequest id lim)) true [],
     Ok [SRequest (mkStopConnectRequest id lim)]).
Proof.
  intros Hcut Hid Hl.
  rewrite (talk_then _ _ (mkStopResponder [] [] AwaitingDecision (Some (mkStopConnectRequest id lim)) false [])); [done|].
  apply (frame_delivered SData s_waiting s_collects); [by apply stop_connect_fits|done|].
  intros b d Hb. apply (s_completes (stop_connect_request id lim) (mkPeer id []) b d []); try done; [by apply stop_connect_fits|].
  by rewrite app_nil_r.
Qed.

Lemma stop_answer_drained st next rq :
  drain_all (mkStopResponder (stop_answer st) [] next rq true []) =
    (mkStopResponder [] [] next rq true [], Ok [SOutbound (stop_answer st)]).
Proof.
  pose proof (encode_frame_nonempty (StopMessage_encode (mkStop StopStatusKind None None (Some st)))) as Hn.
  by destruct (stop_answer st).
Qed.

Lemma stop_accepts rq :
  talk [SAccept] (mkStopResponder [] [] AwaitingDecision rq true []) =
    (mkStopResponder [] [] StopBridged rq true [], Ok [SOutbound (stop_answer StatusOk)]).
Proof.
  rewrite (talk_then _ _ (mkStopResponder (stop_answer StatusOk) [] StopBridged rq true []));
    [apply stop_answer_drained|done].
Qed.
Lemma stop_rejects rq st :
  talk [SReject st] (mkStopResponder [] [] AwaitingDecision rq true []) =
    (mkStopResponder [] [] StopDone rq true [], Ok [SOutbound (stop_answer st)]).
Proof.
  rewrite (talk_then _ _ (mkStopResponder (stop_answer st) [] StopDone rq true []));
    [apply stop_answer_drained|done].
Qed.

Lemma stop_accepted cut down :
  delivers cut →
  ∃ ds, talk (SIData <$> cut (stop_answer StatusOk ++ down)) (si_waiting []) =
    (mkStopInitiator [] [] true true, Ok (SIOutcome SIAccepted :: (SIBridgeData <$> ds))) ∧ concat ds = down.
Proof.
  intros Hcut. destruct (Hcut (stop_answer StatusOk ++ down)) as [Hc _].
  destruct (pieces_complete SIData si_waiting si_collects _ (stop_status_fits StatusOk I)
    (λ r, mkStopInitiator [] (SIOutcome SIAccepted :: (SIBridgeData <$> carried [r])) true true)
    (cut (stop_answer StatusOk ++ down)) down) as (r & post & -> & _ & Hrun); [|exact Hc|].
  { intros b d r Hb _. rewrite (si_completes (mkStop StopStatusKind None None (Some StatusOk)) StatusOk b d r);
      by try apply stop_status_fits. }
  rewrite si_forwards in Hrun. exists (carried [r] ++ carried post). split.
  - rewrite (si_talk _ _ _ _ Hrun eq_refl). by rewrite fmap_app.
  - rewrite concat_app, !concat_carried. cbn. by rewrite app_nil_r.
Qed.

Lemma stop_refused cut st :
  delivers cut → Status_typed st → st ≠ StatusOk →
  talk (SIData <$> cut (stop_answer st)) (si_waiting []) =
    (mkStopInitiator [] [] false true, Ok [SIOutcome (SIRefused st)]).
Proof.
  intros Hcut Hst Hne. rewrite (si_talk _ _ (mkStopInitiator [] [SIOutcome (SIRefused st)] false true) [SIOutcome (SIRefused st)]); [done| |done].
  apply (frame_delivered SIData si_waiting si_collects); [by apply stop_status_fits|done|].
  intros b d Hb. rewrite (si_completes (mkStop StopStatusKind None None (Some st)) st b d []);
    rewrite ?app_nil_r; try done; [by rewrite bool_decide_false|by apply stop_status_fits].
Qed.

Lemma connect_bridged cut lim down :
  delivers cut → opt_typed Limit_typed lim →
  talk (CData <$> cut (hop_answer lim StatusOk ++ down)) (c_waiting []) =
    (mkHopConnect [] [] FlowDone (Some (Bridged lim)) true [] None,
     Ok (COutcome (Bridged lim) :: handed CBridgeData down)).
Proof.
  intros Hcut Hl. destruct (Hcut (hop_answer lim StatusOk ++ down)) as [Hc _].
  destruct (pieces_complete CData c_waiting c_collects _ (hop_status_fits lim Hl StatusOk I)
    (λ r, mkHopConnect [] [] FlowDone (Some (Bridged lim)) false r None)
    (cut (hop_answer lim StatusOk ++ down)) down) as (r & post & -> & _ & Hrun); [|exact Hc|].
  { intros b d r Hb _. rewrite (c_completes (mkHop HopStatusKind None None lim (Some StatusOk))) with (rest := r);
      by try apply hop_status_fits. }
  rewrite c_forwards in Hrun. rewrite (talk_then _ _ _ Hrun). by destruct (r ++ concat post).
Qed.

Lemma connect_refused cut st :
  delivers cut → Status_typed st → st ≠ StatusOk →
  ∃ client, talk (CData <$> cut (hop_answer None st)) (c_waiting []) =
    (client, Ok [COutcome (ConnectDenied st (describe_status st))]).
Proof.
  intros Hcut Hst Hne. eexists.
  rewrite (talk_then _ _ (mkHopConnect [] [] FlowDone (Some (ConnectDenied st (describe_status st))) false [] None));
    [reflexivity|].
  apply (frame_delivered CData c_waiting c_collects); [by apply hop_status_fits|done|].
  intros b d Hb. rewrite (c_completes (mkHop HopStatusKind None None None (Some st))) with (rest := []);
    rewrite ?app_nil_r; try done; [cbn; by rewrite bool_decide_false|by apply hop_status_fits].
Qed.

Lemma hop_answer_ok l st : opt_typed Limit_typed l → Status_typed st → encode_hop_status st None l = Ok (hop_answer l st).
Proof. intros Hl Hst. apply encode_hop_status_frame. split; [by apply hop_status_fits|done]. Qed.

(** The four machines of a circuit that is being set up, each after its part. *)
Definition circuit_ready (cut : bytes → list bytes) (src dst : PeerId) (lim : option Limit)
    (source : HopConnect) (relay : HopResponder) (init : StopInitiator) (dest : StopResponder) : Prop :=
  ∃ req stop_req,
    talk [CFlush] (HopConnect_new (to_bytes dst)) = (source, Ok [COutbound req]) ∧
    talk (HRData <$> cut req) HopResponder_new = (relay, Ok [HRRequest (Connect dst)]) ∧
    talk [] (StopInitiator_new src lim) = (init, Ok [SIOutbound stop_req]) ∧
    talk (SData <$> cut stop_req) StopResponder_new = (dest, Ok [SRequest (mkStopConnectRequest (to_bytes src) lim)]).

Lemma circuit_sets_up cut src dst lim :
  delivers cut → peer_ok src → peer_ok dst → opt_typed Limit_typed lim →
  circuit_ready cut src dst lim (c_waiting []) (hr_deciding [] PendingConnect []) (si_waiting [])
    (mkStopResponder [] [] AwaitingDecision (Some (mkStopConnectRequest (to_bytes src) lim)) true []).
Proof.
  intros Hcut Hsrc Hdst Hl. eexists _, _. split_and!; [by apply connect_sent| | |].
  - apply request_delivered; [done|done| |by apply connect_request_of].
    by apply hop_connect_fits, zlen_peer_id.
  - exact (si_talk [] (StopInitiator_new src lim) _ _ eq_refl eq_refl).
  - by apply stop_delivered; [|apply zlen_peer_id|].
Qed.

(** C7: a circuit is set up between the peers that were named, or refused with
    the destination's reason, over streams that deliver in any pieces. The
    relay's service is asked for exactly the destination the source named, and
    the destination for exactly that source, with the limit. If it accepts, the
    source learns of the bridge and the limit, and from then on what the
    destination sends after its answer reaches the source in order and
    complete, and what the source sends reaches the destination. If it refuses,
    the source learns the status the relay maps the refusal to. *)
Theorem circuit_exchange cut src dst lim :
  delivers cut → peer_ok src → peer_ok dst → opt_typed Limit_typed lim →
  ∃ source relay init dest, circuit_ready cut src dst lim source relay init dest ∧
    (∃ dest' answer, talk [SAccept] dest = (dest', Ok [SOutbound answer]) ∧
     ∀ down up, ∃ init' ds relay' h source' relay'' us dest'',
       talk (SIData <$> cut (answer ++ down)) init = (init', Ok (SIOutcome SIAccepted :: (SIBridgeData <$> ds))) ∧
       concat ds = down ∧
       talk [AcceptConnect lim] relay = (relay', Ok [HROutbound h]) ∧
       talk (CData <$> cut (h ++ concat ds)) source =
         (source', Ok (COutcome (Bridged lim) :: handed CBridgeData down)) ∧
       talk (HRData <$> cut up) relay' = (relay'', Ok (HRBridgeData <$> us)) ∧ concat us = up ∧
       talk (SData <$> cut (concat us)) dest' = (dest'', Ok (handed SBridgeData up))) ∧
    (∀ st, Status_typed st → st ≠ StatusOk →
     let told := outcome_hop_status (SIRefused st) in
     ∃ dest' answer init' relay' h source',
       talk [SReject st] dest = (dest', Ok [SOutbound answer]) ∧
       talk (SIData <$> cut answer) init = (init', Ok [SIOutcome (SIRefused st)]) ∧
       talk [HRReject told] relay = (relay', Ok [HROutbound h; HRCloseWrite]) ∧
       talk (CData <$> cut h) source = (source', Ok [COutcome (ConnectDenied told (describe_status told))])).
Proof.
  intros Hcut Hsrc Hdst Hl. eexists _, _, _, _. split; [by apply circuit_sets_up|]. split.
  - eexists _, _. split; [apply stop_accepts|].
    intros down up. destruct (stop_accepted cut down Hcut) as (ds & Hds & <-). destruct (Hcut up) as [Hup _].
    eexists _, ds, _, _, _, _, (carried (cut up)), _. split_and!.
    + exact Hds.
    + done.
    + exact (hr_talk _ _ _ [HROutbound (hop_answer lim StatusOk)]
        (one_input _ _ _ (hr_accepts lim _ [] (hop_answer_ok lim StatusOk Hl I))) eq_refl).
    + by apply connect_bridged.
    + exact (hr_talk _ _ _ _ (hr_forwards (cut up) []) eq_refl).
    + by rewrite concat_carried.
    + rewrite concat_carried, Hup.
      erewrite talk_then by (apply (s_forwards [] (Some (mkStopConnectRequest (to_bytes src) lim)) true [] (cut up))).
      rewrite Hup. by destruct up.
  - intros st Hst Hne told.
    assert (told ≠ StatusOk ∧ told ≠ Unused ∧ Status_typed told) as (H1 & H2 & H3) by (by destruct st).
    destruct (connect_refused cut told Hcut H3 H1) as [source' Hsource].
    eexists _, _, _, _, _, source'. split_and!; [| | |exact Hsource].
    + apply stop_rejects.
    + by apply stop_refused.
    + exact (hr_talk _ _ _ [HROutbound (hop_answer None told); HRCloseWrite]
        (one_input _ _ _ (hr_rejects told PendingConnect [] _ H1 H2 (hop_answer_ok None told I H3))) eq_refl).
Qed.

(** ** What a relay holds for a peer *)

(** C27: every run of a HOP responder, whatever the remote peer sends and the
    service answers when, is a HOP conversation, or as much of one as has been
    polled: bytes that make no request are answered with an error status or a
    reset; a request is announced once and answered with one status or a
    reset; then the stream is closed, or carries the bytes of the circuit. The
    responder takes at most one decision of the service, and the answer to a
    request says what it was: [OK] with the reservation and the limit of an
    accepted [AcceptReservation], but never its voucher, [OK] with the limit of
    an accepted [AcceptConnect], the status of an accepted [Reject], or a reset
    for a decision that has no such status. On the way no input makes it panic,
    an input it refuses changes nothing, and it holds at most one incomplete
    frame and 64 KiB of early circuit data. *)
Theorem hop_conversation ins outs s :
  exchange HopResponder_new ins outs s →
  (∃ ph, hop_run (λ i, i ∈ ins) Receiving outs ph) ∧ (length (decisions ins) ≤ 1)%nat ∧
  zlen (hr_recv_buf s) < RECV_LIMIT ∧ zlen (hr_pending_bridge s) ≤ MAX_PENDING_BRIDGE_SIZE ∧
  (∀ i, (∃ s', handle_input i s = (s', Ok tt)) ∨ (∃ e, handle_input i s = (s, Err e))).
Proof.
  intros (Hs & [Hd _] & ph & ph' & Hrun & _)%hr_exchange. split_and!; [by exists ph|done| |apply Hs|].
  - destruct (decide (hr_recv_buf s = [])) as [->|Hne]; [by vm_compute|].
    by apply relay_frame_short, (hr_buf_short s Hs).
  - intros i. pose proof (hr_input_post i s Hs) as Hw. unfold wp in Hw.
    destruct (handle_input i s) as [s' [[]|e| |]]; try done; [left|right]; naive_solver.
Qed.

(** Bytes that a peer sends together with its CONNECT, before the relay has
    decided, are kept up to the limit and handed on after the grant, before
    everything that follows; beyond the limit the stream is reset. While the
    decision is pending the stream is not read: more data is refused and
    changes nothing. *)
Theorem early_data_kept (dst : PeerId) pre c early lim more :
  peer_ok dst → opt_typed Limit_typed lim →
  strict_prefix (concat pre) (encode_frame (HopMessage_encode (hop_connect_request (to_bytes dst)))) →
  concat pre ++ c = encode_frame (HopMessage_encode (hop_connect_request (to_bytes dst))) ++ early →
  (zlen early ≤ MAX_PENDING_BRIDGE_SIZE →
   ∃ relay relay' relay'' h, talk (HRData <$> pre ++ [c]) HopResponder_new = (relay, Ok [HRRequest (Connect dst)]) ∧
     (∀ d, handle_input (HRData d) relay = (relay, Err DecisionPending)) ∧
     talk [AcceptConnect lim] relay = (relay', Ok (HROutbound h :: handed HRBridgeData early)) ∧
     talk (HRData <$> more) relay' = (relay'', Ok (HRBridgeData <$> carried more))) ∧
  (MAX_PENDING_BRIDGE_SIZE < zlen early →
   ∃ relay, talk (HRData <$> pre ++ [c]) HopResponder_new = (relay, Ok [HRReset]) ∧ hr_recv_buf relay = [] ∧
     hr_pending_bridge relay = []).
Proof.
  intros Hdst Hl Hpre Hc. set (m := hop_connect_request (to_bytes dst)) in *.
  pose proof (hop_connect_fits _ (zlen_peer_id dst Hdst)) as Hz. fold m in Hz.
  assert (∀ after, handle_input (HRData c) (hr_waiting (concat pre)) = (after, Ok tt) →
    handle_inputs (HRData <$> pre ++ [c]) HopResponder_new = (after, Ok tt)) as Hlast.
  { intros after Ha. rewrite fmap_app, handle_inputs_app. unfold mbind, M_bind.
    pose proof (pieces_wait HRData hr_waiting hr_collects _ Hz pre [] Hpre) as Hw. cbn [app] in Hw.
    change (handle_inputs (HRData <$> pre) HopResponder_new = (hr_waiting (concat pre), Ok tt)) in Hw. rewrite Hw. by apply one_input. }
  split; intros He.
  - eexists _, _, _, _. split_and!.
    + refine (hr_talk _ _ (hr_deciding [HRRequest (Connect dst)] PendingConnect early) _ _ eq_refl).
      by apply Hlast, (hr_completes m _ _ early); [..|apply connect_request_of].
    + done.
    + refine (hr_talk _ _ _ (HROutbound (hop_answer lim StatusOk) :: handed HRBridgeData early)
        (one_input _ _ _ (hr_accepts lim _ early (hop_answer_ok lim StatusOk Hl I))) _). by destruct early.
    + exact (hr_talk _ _ _ _ (hr_forwards more []) eq_refl).
  - eexists. split; [refine (hr_talk _ _ (mkHopResponder [] [HRReset] None [] false false true) _ _ eq_refl)|done].
    apply Hlast. cbn. unfold HopResponder_on_data. run_simpl. cbn. rewrite Hc, relay_frame_complete by done.
    unfold sub_or_panic. rewrite checked_sub_Some by zlen_lia. cbn. rewrite zlen_app.
    destruct (Z.ltb_spec MAX_PENDING_BRIDGE_SIZE
      (zlen (encode_frame (HopMessage_encode m)) + zlen early - zlen (encode_frame (HopMessage_encode m)))); [done|lia].
Qed.
End Exchange.

(** ** Instances *)

#[local] Existing Instance demo_crates.
#[local] Existing Instance demo_crates_spec.

(** A stream that delivers one byte at a time. *)
Definition bytewise (b : bytes) : list bytes := (λ x, [x]) <$> b.
Lemma bytewise_delivers : delivers bytewise.
Proof.
  intros b. unfold bytewise. split.
  - induction b as [|x b IH]; cbn; [done|]. by rewrite IH.
  - intros (x & ? & _)%list_elem_of_fmap. done.
Qed.

Definition demo_src : PeerId (Multihash := Z * bytes) := mkPeerId (0, str "source").
Definition demo_dst : PeerId (Multihash := Z * bytes) := mkPeerId (0, str "destination").

Lemma reservation_exchange_witness :
  ∃ client req, talk [RFlush] HopReservation_new = (client, Ok [ROutbound req]) ∧
    ∃ f client', talk (RData <$> bytewise f) client =
      (client', Ok [ROutcome (ReservationDenied ReservationRefused (str "RESERVATION_REFUSED (200)"))]).
Proof.
  destruct (reservation_exchange bytewise bytewise_delivers) as (client & req & relay & Hreq & _ & _ & Href).
  exists client, req. split; [exact Hreq|].
  destruct (Href ReservationRefused I) as (f & relay' & client' & _ & Hout); [discriminate|discriminate|].
  exists f, client'. exact Hout.
Defined.

Lemma circuit_exchange_witness :
  ∃ source relay init dest, circuit_ready bytewise demo_src demo_dst None source relay init dest ∧
    ∃ dest' answer, talk [SAccept] dest = (dest', Ok [SOutbound answer]).
Proof.
  destruct (circuit_exchange bytewise demo_src demo_dst None) as (source & relay & init & dest & Hready & (dest' & answer & Ha & _) & _).
  - exact bytewise_delivers.
  - by vm_compute.
  - by vm_compute.
  - exact I.
  - exists source, relay, init, dest. split; [exact Hready|]. exists dest', answer. exact Ha.
Defined.

(** A CONNECT that the service refuses. *)
Lemma demo_refusal :
  let req := encode_frame (HopMessage_encode (hop_connect_request (to_bytes demo_dst))) in
  ∃ f s, encode_hop_status PermissionDenied None None = Ok f ∧
    exchange (HopResponder_new (Multihash := Z * bytes)) [HRData req; HRReject PermissionDenied]
      [HRRequest (Connect demo_dst); HROutbound f] s.
Proof.
  set (f := encode_frame (HopMessage_encode (mkHop HopStatusKind None None None (Some PermissionDenied)))).
  exists f, (mkHopResponder [] [HRCloseWrite] None [] false false true). split; [reflexivity|].
  apply (exchange_poll _ _ [HRRequest (Connect demo_dst)] (mkHopResponder [] [HROutbound f; HRCloseWrite] None [] false false true));
    [|reflexivity].
  apply (exchange_accept _ [HRData _] _ (mkHopResponder [] [] (Some PendingConnect) [] false false false)); [|by vm_compute].
  apply (exchange_poll _ _ [] (mkHopResponder [] [HRRequest (Connect demo_dst)] (Some PendingConnect) [] false false false));
    [|reflexivity].
  eapply (exchange_accept _ [] []); [constructor|by vm_compute].
Qed.

Lemma hop_conversation_witness :
  ∃ f, encode_hop_status PermissionDenied None None = Ok f ∧
    ∃ given ph, hop_run (Multihash := Z * bytes) given Receiving [HRRequest (Connect demo_dst); HROutbound f] ph ∧
      ¬ given (AcceptConnect None).
Proof.
  destruct demo_refusal as (f & s & Hf & Hx). exists f. split; [exact Hf|].
  destruct (hop_conversation _ _ s Hx) as ((ph & Hrun) & _).
  eexists _, ph. split; [exact Hrun|]. intros Hin. apply elem_of_cons in Hin as [Hin|Hin]; [discriminate|].
  apply elem_of_cons in Hin as [Hin|Hin]; [discriminate|]. by apply not_elem_of_nil in Hin.
Defined.

Lemma early_data_kept_witness :
  let f := encode_frame (HopMessage_encode (hop_connect_request (to_bytes demo_dst))) in
  ∃ relay, talk (HRData <$> [f ++ str "hello"]) HopResponder_new = (relay, Ok [HRRequest (Connect demo_dst)]).
Proof.
  destruct (early_data_kept demo_dst [] (encode_frame (HopMessage_encode (hop_connect_request (to_bytes demo_dst))) ++ str "hello")
    (str "hello") None []) as [Hk _].
  - by vm_compute.
  - exact I.
  - exists (encode_frame (HopMessage_encode (hop_connect_request (to_bytes demo_dst)))). split; [by vm_compute|reflexivity].
  - reflexivity.
  - destruct Hk as (relay & _ & _ & _ & Hreq & _); [by vm_compute|]. exists relay. exact Hreq.
Defined.
