(* ===== verification/Seen.v ===== *)
(** The cache of recently seen message ids, from [crates/pubsub/src/seen.rs]:
    bounded in number, each id kept for a fixed time. *)

From Stdlib Require Import Strings.Byte.
From S2P Require Import Prelude.

Abbreviation MessageId := bytes.

Definition message_id (from seqno : bytes) : MessageId := from ++ seqno.

Definition seen_message_id_from_wire (id : MessageId) (signed : bool) : MessageId :=
  (if signed then x01 else x00) :: id.

Definition seen_message_id (from seqno : bytes) (signed : bool) : MessageId :=
  seen_message_id_from_wire (message_id from seqno) signed.

Record SeenCache := mkSeen {
  ids : gset bytes;
  order : list (Z * MessageId);
}.

Definition SeenCache_default : SeenCache := mkSeen ∅ [].

(** [while self.order.len() > max_entries]. *)
Fixpoint evict (max_entries : Z) (known : gset bytes) (queue : list (Z * MessageId)) : SeenCache :=
  match queue with
  | (_, evicted) :: rest =>
      if max_entries <? zlen queue then evict max_entries (known ∖ {[evicted]}) rest
      else mkSeen known queue
  | [] => mkSeen known []
  end.

Definition insert (id : MessageId) (now_ms ttl_ms max_entries : Z) (s : SeenCache) : SeenCache * bool :=
  if bool_decide (id ∈ ids s) then (s, false)
  else
    (evict max_entries ({[id]} ∪ ids s) (order s ++ [(saturating_add u64_max now_ms ttl_ms, id)]), true).

Definition contains (id : MessageId) (s : SeenCache) : bool := bool_decide (id ∈ ids s).

(** [while let Some((expires, _)) = self.order.front()]. *)
Fixpoint gc_loop (now_ms : Z) (known : gset bytes) (queue : list (Z * MessageId)) : SeenCache :=
  match queue with
  | (expires, expired) :: rest =>
      if now_ms <? expires then mkSeen known queue
      else gc_loop now_ms (known ∖ {[expired]}) rest
  | [] => mkSeen known []
  end.

Definition gc (now_ms : Z) (s : SeenCache) : SeenCache := gc_loop now_ms (ids s) (order s).

Definition next_expiry (s : SeenCache) : option Z := fst <$> head (order s).

(** ** The invariant *)

(** The set and the queue agree, the queue is in the order of expiry and, at
    time [now], nothing expires later than an id recorded now would. *)
Record seen_ok (now ttl max : Z) (s : SeenCache) : Prop := {
  sk_ids : ids s = list_to_set (order s).*2;
  sk_nodup : NoDup (order s).*2;
  sk_sorted : StronglySorted Z.le (order s).*1;
  sk_last : Forall (λ e, e.1 ≤ saturating_add u64_max now ttl) (order s);
  sk_len : zlen (order s) ≤ max;
}.

Lemma seen_ok_default now ttl max : 0 ≤ max → seen_ok now ttl max SeenCache_default.
Proof. intros. split; cbn; try done; constructor. Qed.

Lemma seen_ok_later now now' ttl max s :
  now ≤ now' → seen_ok now ttl max s → seen_ok now' ttl max s.
Proof.
  intros Hle []. split; try done. eapply Forall_impl; [done|].
  intros e He. cbn in *. unfold saturating_add in *. lia.
Qed.

Lemma list_to_set_tail (x : bytes) (l : list bytes) :
  x ∉ l → list_to_set (x :: l) ∖ {[x]} =@{gset bytes} list_to_set l.
Proof. intros. set_solver. Qed.

(** Dropping a front of the queue. *)
Lemma seen_ok_drop now ttl max k s :
  StronglySorted Z.le (order s).*1 → NoDup (order s).*2 →
  Forall (λ e, e.1 ≤ saturating_add u64_max now ttl) (order s) →
  zlen (drop k (order s)) ≤ max →
  seen_ok now ttl max (mkSeen (list_to_set (drop k (order s)).*2) (drop k (order s))).
Proof.
  intros Hs Hn Hf Hl. split; cbn; try done.
  - rewrite fmap_drop. rewrite <- (take_drop k) in Hn. by apply NoDup_app in Hn as (_ & _ & Hn).
  - rewrite fmap_drop. clear -Hs. revert k. induction Hs as [|x l Hl IH]; intros [|k]; cbn; by try constructor.
  - by apply Forall_drop.
Qed.

Lemma evict_spec max known queue :
  0 ≤ max → known = list_to_set queue.*2 → NoDup queue.*2 →
  evict max known queue =
    let kept := drop (Z.to_nat (zlen queue - max)) queue in mkSeen (list_to_set kept.*2) kept.
Proof.
  intros Hmax. revert known. induction queue as [|[e x] queue IH]; intros known -> Hn; cbn [evict].
  - by rewrite drop_nil.
  - cbn in Hn. apply NoDup_cons in Hn as [Hx Hn].
    destruct (Z.ltb_spec max (zlen ((e, x) :: queue))) as [Hlt|Hge].
    + rewrite IH; [|by apply list_to_set_tail|done]. rewrite zlen_cons in *.
      replace (Z.to_nat (zlen queue + 1 - max)) with (S (Z.to_nat (zlen queue - max))) by lia.
      done.
    + replace (Z.to_nat (zlen ((e, x) :: queue) - max)) with 0%nat by lia. done.
Qed.

Lemma gc_loop_spec now known queue :
  known = list_to_set queue.*2 → NoDup queue.*2 →
  ∃ k, gc_loop now known queue = mkSeen (list_to_set (drop k queue).*2) (drop k queue) ∧
    Forall (λ e, e.1 ≤ now) (take k queue) ∧
    match drop k queue with e :: _ => now < e.1 | [] => True end.
Proof.
  revert known. induction queue as [|[e x] queue IH]; intros known -> Hn; cbn [gc_loop].
  - by exists 0%nat.
  - cbn in Hn. apply NoDup_cons in Hn as [Hx Hn]. destruct (Z.ltb_spec now e) as [Hlt|Hge].
    + by exists 0%nat.
    + destruct (IH (list_to_set ((e, x) :: queue).*2 ∖ {[x]})) as (k & -> & Ht & Hd);
        [by apply list_to_set_tail|done|].
      exists (S k). split_and!; [done| |done]. by constructor.
Qed.

(** ** Properties *)

(** What one id's fate is when [id] is recorded. *)
Definition insert_result (id : MessageId) (now ttl max : Z) (s s' : SeenCache) (fresh : bool) : Prop :=
  fresh = negb (contains id s) ∧
  if fresh
  then order s' = drop (Z.to_nat (zlen (order s) + 1 - max))
                       (order s ++ [(saturating_add u64_max now ttl, id)]) ∧
       contains id s' = true
  else s' = s.

(** Recording an id answers whether it is new. A known id changes nothing; a
    new one joins the queue behind the others, and only the oldest entries
    beyond the limit are forgotten, never the new one. The cache stays
    consistent and within its limit. *)
Theorem seen_insert_exact now now' ttl max id s :
  1 ≤ max → now ≤ now' → seen_ok now ttl max s →
  seen_ok now' ttl max (insert id now' ttl max s).1 ∧
  insert_result id now' ttl max s (insert id now' ttl max s).1 (insert id now' ttl max s).2.
Proof.
  intros Hmax Hle Hs. apply (seen_ok_later _ now') in Hs; [|done]. pose proof Hs as [Hids Hnd Hso Hla Hle'].
  unfold insert, insert_result, contains. case_bool_decide as Hin; [done|]. cbn [fst snd negb].
  set (e := saturating_add u64_max now' ttl). set (q := order s ++ [(e, id)]).
  assert (id ∉ (order s).*2) as Hnin by (rewrite Hids in Hin; by rewrite elem_of_list_to_set in Hin).
  assert (NoDup q.*2) as Hq.
  { unfold q. rewrite fmap_app. apply NoDup_app. split_and!; [done| |apply NoDup_singleton].
    intros x Hx ->%list_elem_of_singleton. done. }
  assert ({[id]} ∪ ids s = list_to_set q.*2) as Hset.
  { unfold q. rewrite fmap_app, list_to_set_app_L, Hids. cbn. set_solver. }
  rewrite evict_spec by (done || lia). cbn zeta.
  assert (zlen q = zlen (order s) + 1) as Hzq by (unfold q; by rewrite zlen_app).
  rewrite Hzq. set (k := Z.to_nat (zlen (order s) + 1 - max)).
  assert (Forall (λ e', e'.1 ≤ e) q) as Hbound.
  { apply Forall_app. split; [done|]. constructor; [done|constructor]. }
  split_and!; [|done|done|].
  - refine (seen_ok_drop now' ttl max k (mkSeen ∅ q) _ Hq Hbound _); cbn.
    + unfold q. rewrite fmap_app. clear -Hso Hla. revert Hla. generalize (order s) Hso. clear.
      intros l Hl Hb. induction l as [|[a x] l IH]; cbn in *; [repeat constructor|].
      apply StronglySorted_inv in Hl as [Hl Ha]. apply Forall_cons in Hb as [Hax Hb].
      constructor; [by apply IH|]. apply Forall_app. split; [done|]. by repeat constructor.
    + unfold zlen in *. rewrite length_drop. lia.
  - cbn. apply bool_decide_eq_true. rewrite elem_of_list_to_set. unfold q.
    rewrite drop_app_le by (unfold zlen in *; lia). rewrite fmap_app. apply elem_of_app. right. by left.
Qed.

Lemma seen_insert_exact_witness :
  contains [x01] (insert [x01] 5 100 2 SeenCache_default).1 = true.
Proof.
  destruct (seen_insert_exact 0 5 100 2 [x01] SeenCache_default) as [_ [_ H]];
    [lia|lia|by apply seen_ok_default|]. exact (proj2 H).
Defined.

(** Collecting garbage at [now] forgets exactly the ids whose time is over:
    an id is still known afterwards if and only if its entry expires later than
    [now]; the next expiry reported is the earliest one left, and it is in the
    future. *)
Theorem seen_gc_exact now now' ttl max s :
  now ≤ now' → seen_ok now ttl max s →
  seen_ok now' ttl max (gc now' s) ∧
  (∀ id, contains id (gc now' s) = true ↔ ∃ e, (e, id) ∈ order s ∧ now' < e) ∧
  match next_expiry (gc now' s) with
  | Some e => now' < e ∧ ∀ e' id, (e', id) ∈ order (gc now' s) → e ≤ e'
  | None => ∀ id, contains id (gc now' s) = false
  end.
Proof.
  intros Hle Hs. apply (seen_ok_later _ now') in Hs; [|done]. pose proof Hs as [Hids Hnd Hso Hla Hlen].
  destruct (gc_loop_spec now' (ids s) (order s) Hids Hnd) as (k & Hgc & Htake & Hdrop).
  unfold gc. rewrite Hgc. cbn [order].
  assert (seen_ok now' ttl max (mkSeen (list_to_set (drop k (order s)).*2) (drop k (order s)))) as Hok'.
  { apply seen_ok_drop; try done. unfold zlen in *. rewrite length_drop. lia. }
  assert (∀ e, e ∈ drop k (order s) → now' < e.1 ∧
    ∀ e0 l, drop k (order s) = e0 :: l → e0.1 ≤ e.1) as Hlate.
  { destruct (drop k (order s)) as [|e0 l] eqn:Hd; [by intros e He%not_elem_of_nil|].
    destruct Hok' as [_ _ Hso' _ _]. cbn in Hso'. apply StronglySorted_inv in Hso' as [_ Hall].
    intros e [->|He]%elem_of_cons; [split; [done|intros ? ? [= -> ->]; done]|].
    rewrite Forall_forall in Hall. specialize (Hall e.1 ltac:(by apply list_elem_of_fmap_2)).
    split; [lia|]. by intros ? ? [= -> ->]. }
  split_and!; [done| |].
  - intros id. unfold contains. cbn [ids]. rewrite bool_decide_eq_true, elem_of_list_to_set.
    rewrite list_elem_of_fmap. split.
    + intros ([e x] & -> & He). exists e. destruct (Hlate _ He) as [Hl _]. split; [|done].
      rewrite <- (take_drop k (order s)). apply elem_of_app. by right.
    + intros (e & He & Hlt). exists (e, id). split; [done|].
      rewrite <- (take_drop k (order s)) in He. apply elem_of_app in He as [He|He]; [|done].
      rewrite Forall_forall in Htake. specialize (Htake _ He). cbn in Htake. lia.
  - unfold next_expiry, contains. cbn [order ids]. destruct (drop k (order s)) as [|e0 l] eqn:Hd; cbn.
    + intros id. by apply bool_decide_eq_false.
    + split; [done|]. intros e' id He. by apply (proj2 (Hlate (e', id) He) e0 l).
Qed.

Lemma seen_gc_exact_witness :
  contains [x01] (gc 50 (insert [x01] 5 100 2 SeenCache_default).1) = true.
Proof.
  destruct (seen_gc_exact 5 50 100 2 (insert [x01] 5 100 2 SeenCache_default).1) as (_ & H & _).
  - lia.
  - split; [by vm_compute|exact (NoDup_singleton [x01])| | |by vm_compute];
      repeat constructor; by vm_compute.
  - apply H. exists 105. split; [by left|lia].
Defined.
