(* ===== verification/Limiter.v ===== *)
(** The relay server's rate limiter, from [crates/relay-server/src/limiter.rs]:
    one token bucket per key, created on first use, forgotten when it is full
    again, with the due times of the refills kept in order. *)

From S2P Require Import Prelude.

(** From [crates/relay-server/src/config.rs]. *)
Record RateLimit := mkLimit { capacity : Z; refill_interval_ms : Z }.

Record Bucket := mkBucket { tokens : Z; last_refill_ms : Z; generation : Z }.

Section Limiter.
Context `{BTreeKey K}.

Record TokenBuckets := mkBuckets {
  config : RateLimit;
  buckets : gmap K Bucket;
  due : gmap Z (list (K * Z));
  next_generation : Z;
}.

Abbreviation L := (M TokenBuckets Empty_set).

Definition limiter_new (config : RateLimit) : TokenBuckets := mkBuckets config ∅ ∅ 1.

(** Dividing by a zero interval panics. *)
Definition refill (bucket : Bucket) (config : RateLimit) (now_ms : Z) : res Empty_set Bucket :=
  let elapsed := saturating_sub now_ms (last_refill_ms bucket) in
  if refill_interval_ms config =? 0 then Panic
  else
    let intervals := elapsed / refill_interval_ms config in
    if intervals =? 0 then mret bucket
    else
      let added := Z.min intervals u32_max in
      mret {| bucket with
        tokens := Z.min (saturating_add u32_max (tokens bucket) added) (capacity config);
        last_refill_ms := saturating_add u64_max (last_refill_ms bucket)
          (Z.min u64_max (intervals * refill_interval_ms config)) |}.

Definition schedule (key : K) (bucket : Bucket) : L Bucket :=
  if negb (generation bucket =? 0) then mret bucket
  else
    c ← gets config;
    let deadline := saturating_add u64_max (last_refill_ms bucket) (refill_interval_ms c) in
    if deadline =? u64_max then mret bucket
    else
      gen ← gets next_generation;
      _ ← modify (λ s, {| s with next_generation := Z.max (wrapping_add u64_max (next_generation s) 1) 1 |});
      _ ← modify (λ s, {| s with due :=
            <[deadline := default [] (due s !! deadline) ++ [(key, gen)]]> (due s) |});
      mret {| bucket with generation := gen |}.

Definition insert_bucket (key : K) (b : Bucket) : L unit :=
  modify (λ s, {| s with buckets := <[key := b]> (buckets s) |}).
Definition remove_bucket (key : K) : L unit :=
  modify (λ s, {| s with buckets := delete key (buckets s) |}).

(** The [for (key, generation) in entries] loop of [sweep]. *)
Fixpoint sweep_entries (now_ms : Z) (entries : list (K * Z)) : L unit :=
  match entries with
  | [] => mret tt
  | (key, gen) :: entries =>
      _ ← (o ← gets (λ s, buckets s !! key);
           match o with
           | None => mret tt
           | Some bucket =>
               _ ← remove_bucket key;
               if negb (generation bucket =? gen) then insert_bucket key bucket
               else
                 c ← gets config;
                 bucket ← lift (refill {| bucket with generation := 0 |} c now_ms);
                 if tokens bucket <? capacity c
                 then bucket ← schedule key bucket; insert_bucket key bucket
                 else mret tt
           end);
      sweep_entries now_ms entries
  end.

Fixpoint sweep_loop (fuel : nat) (now_ms : Z) : L unit :=
  ds ← gets (λ s, btree_keys (due s));
  match ds with
  | [] => mret tt
  | deadline :: _ =>
      if now_ms <? deadline then mret tt
      else
        match fuel with
        | O => lift Diverge
        | S fuel =>
            entries ← gets (λ s, default [] (due s !! deadline));
            _ ← modify (λ s, {| s with due := delete deadline (due s) |});
            _ ← sweep_entries now_ms entries;
            sweep_loop fuel now_ms
        end
  end.

(** Each round removes one due time, and what it schedules is in the future. *)
Definition sweep (now_ms : Z) : L unit :=
  fuel ← gets (λ s, size (due s));
  sweep_loop fuel now_ms.

Definition consume (key : K) (now_ms : Z) : L bool :=
  _ ← sweep now_ms;
  c ← gets config;
  bucket ← gets (λ s, default (mkBucket (capacity c) now_ms 0) (buckets s !! key));
  _ ← remove_bucket key;
  bucket ← lift (refill bucket c now_ms);
  if tokens bucket =? 0
  then
    bucket ← schedule key bucket;
    _ ← insert_bucket key bucket;
    mret false
  else
    bucket ← schedule key {| bucket with tokens := tokens bucket - 1 |};
    _ ← insert_bucket key bucket;
    mret true.

Definition next_due (s : TokenBuckets) : option Z := head (btree_keys (due s)).

(** ** Refilling *)

Definition limit_ok (c : RateLimit) : Prop :=
  1 ≤ capacity c ≤ u32_max ∧ 1 ≤ refill_interval_ms c ≤ u64_max.

Definition bucket_ok (c : RateLimit) (now : Z) (b : Bucket) : Prop :=
  0 ≤ tokens b ≤ capacity c ∧ 0 ≤ last_refill_ms b ≤ now.

(** [b'] is [b] with [n] intervals credited. *)
Lemma refill_spec c now b :
  limit_ok c → bucket_ok c now b → now ≤ u64_max →
  ∃ n b', refill b c now = Ok b' ∧ 0 ≤ n ∧
    last_refill_ms b' = last_refill_ms b + n * refill_interval_ms c ∧
    tokens b' = Z.min (capacity c) (tokens b + n) ∧ generation b' = generation b ∧
    last_refill_ms b' ≤ now < last_refill_ms b' + refill_interval_ms c.
Proof.
  intros [Hcap HI] [Ht Hl] Hnow. unfold refill, saturating_sub.
  destruct (Z.eqb_spec (refill_interval_ms c) 0) as [|_]; [lia|]. rewrite Z.max_r by lia.
  set (n := (now - last_refill_ms b) / refill_interval_ms c).
  assert (0 ≤ n) as Hn by (apply Z.div_pos; lia).
  pose proof (Z.mul_div_le (now - last_refill_ms b) (refill_interval_ms c) ltac:(lia)) as Hlo.
  pose proof (Z.mul_succ_div_gt (now - last_refill_ms b) (refill_interval_ms c) ltac:(lia)) as Hhi.
  fold n in Hlo, Hhi. exists n.
  destruct (Z.eqb_spec n 0) as [Hz|Hnz].
  - exists b. split_and!; try done; nia.
  - eexists. split; [reflexivity|]. unfold saturating_add, u32_max in *. cbn. split_and!; nia.
Qed.

(** A bucket's entry of the table, [Q], that a sweep at [now] keeps. *)
Definition sweepable (c : RateLimit) (now : Z) (Q : K → option Bucket → Prop) : Prop :=
  ∀ k b, Q k (Some b) → bucket_ok c now b ∧
    ∀ b', refill b c now = Ok b' →
      (∀ g, Q k (Some {| b' with generation := g |})) ∧ (tokens b' = capacity c → Q k None).

Definition table_ok (c : RateLimit) (Q : K → option Bucket → Prop) (s : TokenBuckets) : Prop :=
  config s = c ∧ ∀ k, Q k (buckets s !! k).

(** The due times a sweep at [now] still has to work off. *)
Definition overdue (now : Z) (s : TokenBuckets) : gset Z := filter (λ d, d ≤ now) (dom (due s)).

(** What is scheduled after a refill is due in the future. *)
Lemma schedule_spec key b now s :
  now ≤ u64_max → now < last_refill_ms b + refill_interval_ms (config s) →
  wp (schedule key b) (λ b' s', (∃ g, b' = {| b with generation := g |}) ∧ config s' = config s ∧
    buckets s' = buckets s ∧ overdue now s' = overdue now s) (λ _ _, False) s.
Proof.
  intros Hnow Hlt. unfold schedule. wp_steps; try (split; [by exists (generation b); destruct b|done]).
  split; [by eexists|]. split_and!; [done|done|]. unfold overdue. cbn.
  assert (¬ saturating_add u64_max (last_refill_ms b) (refill_interval_ms (config s)) ≤ now) as Hfar.
  { unfold saturating_add in *. rewrite <- not_true_iff_false, Z.eqb_eq in *. lia. }
  rewrite dom_insert_L. set_solver.
Qed.

Section Sweeping.
Context (c : RateLimit) (now : Z) (Q : K → option Bucket → Prop).
Context (Hlimit : limit_ok c) (Hnow : now ≤ u64_max) (HQ : sweepable c now Q).

Lemma sweep_entries_spec entries s :
  table_ok c Q s →
  wp (sweep_entries now entries) (λ _ s', table_ok c Q s' ∧ overdue now s' = overdue now s)
    (λ _ _, False) s.
Proof.
  revert s. induction entries as [|[key gen] entries IH]; intros s [Hc Hs]; cbn [sweep_entries]; [done|].
  apply wp_bind. eapply (wp_mono _ (λ _ s', table_ok c Q s' ∧ overdue now s' = overdue now s));
    [|intros _ s' [Hs' Ho]; eapply wp_mono; [by apply IH| |done]; cbn; intros _ s'' [? ->]; done|done].
  apply wp_bind, wp_gets. destruct (buckets s !! key) as [b|] eqn:Hb; [|done].
  apply wp_bind, wp_modify. destruct (negb _) eqn:Hg.
  - apply wp_modify. split; [split; [done|]|done]. cbn. intros k.
    rewrite insert_delete_id by done. apply Hs.
  - apply wp_bind, wp_gets. cbn [config]. rewrite Hc.
    destruct (HQ key b) as [Hok Hnext]; [by rewrite <- Hb|].
    destruct (refill_spec c now b Hlimit Hok Hnow) as (n & b' & Hr & Hn & Hl & Ht & _ & Hlt).
    destruct (Hnext _ Hr) as [Hkeep Hdrop].
    assert (refill {| b with generation := 0 |} c now = Ok {| b' with generation := 0 |}) as Hr0.
    { revert Hr. unfold refill. destruct b. cbn. repeat case_match; intros [= <-]; done. }
    apply wp_bind, wp_lift. rewrite Hr0. cbn [tokens].
    destruct (Z.ltb_spec (tokens b') (capacity c)).
    + apply wp_bind. eapply wp_mono; [apply schedule_spec; [done|cbn; lia]| |done].
      cbn. intros b'' s' ([g ->] & Hc' & Hb' & Ho). split; [split; cbn; [congruence|]|done].
      intros k. rewrite Hb'. rewrite insert_delete_eq.
      destruct (decide (k = key)) as [->|]; [rewrite lookup_insert_eq; apply Hkeep|by rewrite lookup_insert_ne].
    + apply wp_ret. split; [split; [done|]|done]. cbn. intros k.
      destruct (decide (k = key)) as [->|]; [rewrite lookup_delete_eq; apply Hdrop; lia|by rewrite lookup_delete_ne].
Qed.

Lemma sweep_loop_spec fuel s :
  (size (overdue now s) ≤ fuel)%nat → table_ok c Q s →
  wp (sweep_loop fuel now) (λ _ s', table_ok c Q s' ∧ overdue now s' = ∅) (λ _ _, False) s.
Proof.
  revert s. induction fuel as [|fuel IH]; intros s Hf Hs; cbn [sweep_loop];
    apply wp_bind, wp_gets; destruct (btree_keys (due s)) as [|d ds] eqn:Hd.
  1,3: apply wp_ret; split; [done|]; unfold overdue; apply set_eq; intros d; rewrite elem_of_filter, elem_of_dom,
    <- elem_of_btree_keys, Hd; set_solver.
  all: assert (d ∈ dom (due s)) as Hin
    by (apply elem_of_dom, elem_of_btree_keys; rewrite Hd; by left).
  all: destruct (Z.ltb_spec now d) as [Hlt|Hge].
  1,3: apply wp_ret; split; [done|]; unfold overdue; apply set_eq; intros d'; rewrite elem_of_filter, elem_of_dom,
    <- elem_of_btree_keys, Hd; pose proof (Sorted_btree_keys (due s)) as Hso; rewrite Hd in Hso;
    apply Sorted_StronglySorted in Hso; [|intros ? ? ? ? ?; cbn in *; lia]; apply StronglySorted_inv in Hso as [_ Hso];
    rewrite Forall_forall in Hso; rewrite elem_of_cons; cbn in Hso; split; [|set_solver];
    intros [Hle [->|Hd'%Hso]]; lia.
  - exfalso. assert (d ∈ overdue now s) as Ho by (unfold overdue; set_solver).
    assert (overdue now s = ∅) as He by (apply leibniz_equiv, size_empty_iff; lia). set_solver.
  - apply wp_bind, wp_gets, wp_bind, wp_modify, wp_bind.
    eapply wp_mono; [apply sweep_entries_spec; by destruct Hs| |done]. cbn.
    intros _ s' [Hs' Ho]. apply IH; [|done]. rewrite Ho. unfold overdue in *. cbn.
    rewrite dom_delete_L.
    assert (filter (λ d, d ≤ now) (dom (due s) ∖ {[d]}) ⊂ filter (λ d, d ≤ now) (dom (due s))) as Hss
      by (split; [set_solver|intros Hsub; specialize (Hsub d); set_solver]).
    apply subset_size in Hss. lia.
Qed.

Lemma sweep_spec s :
  table_ok c Q s →
  wp (sweep now) (λ _ s', table_ok c Q s' ∧ overdue now s' = ∅) (λ _ _, False) s.
Proof.
  intros Hs. unfold sweep. apply wp_bind, wp_gets. apply sweep_loop_spec; [|done].
  rewrite <- (size_dom (D := gset Z)). apply subseteq_size. unfold overdue. set_solver.
Qed.

Lemma consume_spec key s :
  0 ≤ now → table_ok c Q s →
  wp (consume key now) (λ ok s', ∃ o b n s1,
      Q key o ∧ b = default (mkBucket (capacity c) now 0) o ∧ bucket_ok c now b ∧ 0 ≤ n ∧
      ok = negb (Z.min (capacity c) (tokens b + n) =? 0) ∧
      table_ok c Q s1 ∧ config s' = c ∧ overdue now s' = ∅ ∧
      ∃ b', buckets s' = <[key := b']> (buckets s1) ∧
        last_refill_ms b' = last_refill_ms b + n * refill_interval_ms c ∧
        last_refill_ms b' ≤ now < last_refill_ms b' + refill_interval_ms c ∧
        tokens b' = Z.min (capacity c) (tokens b + n) - (if ok then 1 else 0))
    (λ _ _, False) s.
Proof.
  intros Hpos Hs. unfold consume. apply wp_bind. eapply wp_mono; [by apply sweep_spec| |done].
  cbn. intros _ s1 [[Hc Hs1] Hov]. apply wp_bind, wp_gets. rewrite Hc. apply wp_bind, wp_gets.
  set (b := default _ _).
  assert (bucket_ok c now b) as Hb.
  { unfold b. pose proof (Hs1 key) as Hk. destruct (buckets s1 !! key) as [b0|]; cbn; [by eapply HQ|].
    destruct Hlimit. split; cbn; lia. }
  destruct (refill_spec c now b Hlimit Hb Hnow) as (n & b' & Hr & Hn & Hl & Ht & _ & Hlt).
  apply wp_bind, wp_modify, wp_bind, wp_lift. rewrite Hr.
  destruct (Z.eqb_spec (tokens b') 0) as [Hz|Hz]; apply wp_bind;
    (eapply wp_mono; [apply schedule_spec; [exact Hnow|cbn; rewrite Hc; lia]| |done]); cbn;
    intros b'' s2 ([g ->] & Hc2 & Hb2 & Ho2);
    exists (buckets s1 !! key), b, n, s1;
    (split_and!; [done|done|done|done| |done|cbn in *; congruence|transitivity (overdue now s2); [done|by rewrite Ho2]|eexists; cbn; rewrite Hb2, insert_delete_eq; split; [done|cbn; split_and!; lia]]).
  - symmetry. apply negb_false_iff, Z.eqb_eq. lia.
  - symmetry. apply negb_true_iff, Z.eqb_neq. lia.
Qed.
End Sweeping.

(** ** Runs *)

(** The calls the relay server makes of a limiter, with the time of each. *)
Inductive Call := Consume (key : K) (now_ms : Z) | Sweep (now_ms : Z).
Definition call_time (a : Call) : Z := match a with Consume _ t | Sweep t => t end.

(** The answers to the [Consume] calls, in order. *)
Fixpoint run_calls (calls : list Call) : L (list (K * bool)) :=
  match calls with
  | [] => mret []
  | Consume key t :: calls => ok ← consume key t; l ← run_calls calls; mret ((key, ok) :: l)
  | Sweep t :: calls => _ ← sweep t; run_calls calls
  end.

(** The clock never goes back, and fits in a [u64]. *)
Fixpoint clocked (t : Z) (calls : list Call) : Prop :=
  match calls with [] => True | a :: calls => t ≤ call_time a ≤ u64_max ∧ clocked (call_time a) calls end.
Fixpoint end_time (t : Z) (calls : list Call) : Z :=
  match calls with [] => t | a :: calls => end_time (call_time a) calls end.

Definition admitted (k : K) (l : list (K * bool)) : Z := zlen (filter (λ e, e = (k, true)) l).

Lemma admitted_cons k k' ok l :
  admitted k ((k', ok) :: l) = (if decide (k' = k) then if ok then 1 else 0 else 0) + admitted k l.
Proof.
  unfold admitted. rewrite filter_cons. destruct (decide (k' = k)) as [->|Hk].
  - destruct ok; [rewrite decide_True by done; rewrite zlen_cons; lia|by rewrite decide_False].
  - rewrite decide_False by congruence. lia.
Qed.

(** [A k] tokens were granted for [k] between [t0] and [now]: those a bucket
    still holds are part of the allowance up to its last refill, and a bucket
    that was forgotten was full. A bucket from which nothing was granted may
    be older than [t0], if its next refill is not. *)
Definition budget (c : RateLimit) (t0 now : Z) (A : K → Z) (k : K) (o : option Bucket) : Prop :=
  match o with
  | Some b => bucket_ok c now b ∧
      (A k ≤ 0 ∧ t0 + refill_interval_ms c ≤ now + 1 ∨
       t0 ≤ last_refill_ms b ∧
       A k + tokens b ≤ capacity c + (last_refill_ms b - t0) / refill_interval_ms c)
  | None => A k ≤ (now - t0) / refill_interval_ms c
  end.

Lemma budget_later c t0 now now' A k o :
  limit_ok c → now ≤ now' → budget c t0 now A k o → budget c t0 now' A k o.
Proof.
  intros [_ HI] Hle. destruct o as [b|]; cbn.
  - intros [[Ht Hl] Hb]. split; [split; [done|lia]|]. destruct Hb as [?|?]; [left; lia|by right].
  - pose proof (Z.div_le_mono (now - t0) (now' - t0) (refill_interval_ms c) ltac:(lia) ltac:(lia)). lia.
Qed.

(** A refill at [now] puts the refill clock past [t0], with what was granted
    and what the bucket holds within the allowance. *)
Lemma budget_credited c t0 now A k b b' n :
  limit_ok c → budget c t0 now A k (Some b) → 0 ≤ n →
  last_refill_ms b' = last_refill_ms b + n * refill_interval_ms c →
  tokens b' = Z.min (capacity c) (tokens b + n) →
  now < last_refill_ms b' + refill_interval_ms c →
  t0 ≤ last_refill_ms b' ∧
  A k + tokens b' ≤ capacity c + (last_refill_ms b' - t0) / refill_interval_ms c.
Proof.
  intros [Hcap HI] [_ Hb] Hn Hl Ht Hlt. assert (0 ≤ n * refill_interval_ms c) by nia.
  destruct Hb as [[HA Hnow]|[Ht0 HA]]; split; try lia.
  - pose proof (Z.div_pos (last_refill_ms b' - t0) (refill_interval_ms c) ltac:(lia) ltac:(lia)). lia.
  - replace (last_refill_ms b' - t0) with (last_refill_ms b - t0 + n * refill_interval_ms c) by lia.
    rewrite Z.div_add by lia. lia.
Qed.

Lemma budget_sweepable c t0 now A :
  limit_ok c → t0 ≤ now ≤ u64_max → sweepable c now (budget c t0 now A).
Proof.
  intros Hc Hnow k b Hb. pose proof Hb as [Hok _]. split; [done|]. intros b' Hr.
  destruct (refill_spec c now b Hc Hok ltac:(lia)) as (n & b'' & Hr' & Hn & Hl & Ht & _ & Hlt).
  rewrite Hr in Hr'. injection Hr' as <-.
  destruct (budget_credited c t0 now A k b b' n Hc Hb Hn Hl Ht (proj2 Hlt)) as [Ht0 HA].
  destruct Hc as [Hcap HI], Hok as [Htk Hlr]. assert (0 ≤ n * refill_interval_ms c) by nia. split.
  - intros g. cbn. split; [split; cbn; lia|by right].
  - intros Hfull. cbn.
    pose proof (Z.div_le_mono (last_refill_ms b' - t0) (now - t0) (refill_interval_ms c)
      ltac:(lia) ltac:(lia)). lia.
Qed.

(** [A] with the answer for [key] counted. *)
Definition grant (A : K → Z) (key : K) (ok : bool) (k : K) : Z :=
  A k + if decide (key = k) then if ok then 1 else 0 else 0.

Lemma consume_budget c t0 now A key s :
  limit_ok c → t0 ≤ now → 0 ≤ now ≤ u64_max → table_ok c (budget c t0 now A) s →
  wp (consume key now)
    (λ ok s', table_ok c (budget c t0 now (grant A key ok)) s' ∧ overdue now s' = ∅) (λ _ _, False) s.
Proof.
  intros Hc Ht Hnow Hs. pose proof (budget_sweepable c t0 now A Hc ltac:(lia)) as Hsw.
  eapply wp_mono; [apply (consume_spec c now (budget c t0 now A) Hc); [lia|done|lia|done]| |done]. cbn.
  intros ok s' (o & b & n & s1 & Ho & Hb & Hbok & Hn & Hok & [Hc1 Hs1] & Hc' & Hov & b' & Hbs & Hl & Hlt & Htk).
  split; [|done]. split; [done|]. intros k. rewrite Hbs. unfold grant. destruct (decide (k = key)) as [->|Hk].
  - rewrite lookup_insert_eq. cbn. rewrite decide_True by done.
    assert (budget c t0 now A key (Some b)) as Hbud.
    { destruct o as [b0|]; subst b; [done|]. cbn in *. split; [done|right; lia]. }
    destruct (budget_credited c t0 now A key b {| b' with tokens := Z.min (capacity c) (tokens b + n) |} n
      Hc Hbud Hn Hl eq_refl (proj2 Hlt)) as [Ht0 HA]. cbn in Ht0, HA.
    destruct Hc as [Hcap HI], Hbok as [Htb Hlb]. assert (0 ≤ n * refill_interval_ms c) by nia.
    destruct ok; symmetry in Hok; [apply negb_true_iff, Z.eqb_neq in Hok|];
      (split; [split|right; split]); lia.
  - rewrite lookup_insert_ne by done. specialize (Hs1 k). unfold budget in *.
    rewrite decide_False by done. by rewrite Z.add_0_r.
Qed.

Lemma sweep_budget c t0 now A s :
  limit_ok c → t0 ≤ now ≤ u64_max → table_ok c (budget c t0 now A) s →
  wp (sweep now) (λ _ s', table_ok c (budget c t0 now A) s' ∧ overdue now s' = ∅) (λ _ _, False) s.
Proof. intros Hc Ht Hs. apply sweep_spec; [done|lia|by apply budget_sweepable|done]. Qed.

(** Fewer grants than the budget allows is within the budget. *)
Lemma budget_weaken c t0 now now' A A' s :
  limit_ok c → now ≤ now' → (∀ k, A' k ≤ A k) →
  table_ok c (budget c t0 now A) s → table_ok c (budget c t0 now' A') s.
Proof.
  intros Hc Hle HA [? Hs]. split; [done|]. intros k. pose proof (budget_later c t0 now now' A k _ Hc Hle (Hs k)) as Hk.
  specialize (HA k). revert Hk. destruct (buckets s !! k); cbn; [|lia].
  intros [? [?|?]]; (split; [done|]); [left|right]; lia.
Qed.

(** What the budget promises of each key. *)
Lemma budget_bound c t0 now A s k :
  limit_ok c → t0 ≤ now → table_ok c (budget c t0 now A) s →
  A k ≤ capacity c + (now - t0) / refill_interval_ms c.
Proof.
  intros [Hcap HI] Ht [_ Hs]. specialize (Hs k).
  pose proof (Z.div_pos (now - t0) (refill_interval_ms c) ltac:(lia) ltac:(lia)).
  destruct (buckets s !! k) as [b|]; cbn in Hs; [|lia]. destruct Hs as ([Htk Hlr] & [?|[Ht0 HA]]); [lia|].
  pose proof (Z.div_le_mono (last_refill_ms b - t0) (now - t0) (refill_interval_ms c)
    ltac:(lia) ltac:(lia)). lia.
Qed.

Lemma run_calls_budget c t0 calls t A s :
  limit_ok c → 0 ≤ t0 ≤ t → clocked t calls → table_ok c (budget c t0 t A) s →
  wp (run_calls calls) (λ l s',
      table_ok c (budget c t0 (end_time t calls) (λ k, A k + admitted k l)) s')
    (λ _ _, False) s.
Proof.
  intros Hc. revert t A s. induction calls as [|a calls IH]; intros t A s Ht Hcl Hs; cbn [run_calls].
  - apply wp_ret. eapply budget_weaken; [done|apply Z.le_refl|intros k; change (admitted k []) with 0; apply Z.eq_le_incl, Z.add_0_r|exact Hs].
  - destruct Hcl as [Hta Hcl].
    assert (table_ok c (budget c t0 (call_time a) A) s) as Hs'
      by (eapply budget_weaken; [done| |done|exact Hs]; lia).
    destruct a as [key now|now]; cbn [call_time end_time] in *; apply wp_bind.
    + eapply wp_mono; [apply (consume_budget c t0 now A); [done|lia|lia|done]| |done]. cbn. intros ok s' [Hs1 _].
      apply wp_bind. eapply wp_mono; [apply (IH now (grant A key ok) s'); [lia|done|exact Hs1]| |done]. cbn.
      intros l s2 Hs2. eapply budget_weaken; [done| |intros k|exact Hs2]; cbn; [lia|].
      rewrite admitted_cons. unfold grant. lia.
    + eapply wp_mono; [apply (sweep_budget c t0 now A); [done|lia|done]| |done]. cbn.
      intros _ s' [Hs1 _]. apply IH; [lia|done|done].
Qed.

Lemma budget_new c t0 : limit_ok c → table_ok c (budget c t0 t0 (λ _, 0)) (limiter_new c).
Proof.
  intros [_ HI]. split; [done|]. intros k. cbn. rewrite lookup_empty. cbn.
  by rewrite Z.sub_diag, Z.div_0_l by lia.
Qed.

(** Counting afresh from [t]: what was granted before leaves every bucket
    within one capacity, and its next refill less than an interval away. *)
Lemma budget_rebase c t0 t A s :
  limit_ok c → table_ok c (budget c t0 t A) s →
  table_ok c (budget c (t - refill_interval_ms c + 1) t (λ _, 0)) s.
Proof.
  intros [Hcap HI] [? Hs]. split; [done|]. intros k. specialize (Hs k).
  destruct (buckets s !! k) as [b|]; cbn in *; [split; [by apply Hs|left; lia]|].
  apply Z.div_pos; lia.
Qed.

(** [k] was last asked about at [t1]: it has a token, or the refill clock has
    not moved past [t1]. *)
Definition waiting (c : RateLimit) (k : K) (t1 now : Z) (k' : K) (o : option Bucket) : Prop :=
  match o with
  | Some b => bucket_ok c now b ∧ (k' = k → 1 ≤ tokens b ∨ last_refill_ms b ≤ t1)
  | None => True
  end.

Lemma waiting_sweepable c k t1 now :
  limit_ok c → now ≤ u64_max → sweepable c now (waiting c k t1 now).
Proof.
  intros Hc Hnow k' b [Hok Hw]. split; [done|]. intros b' Hr. split; [|done]. intros g.
  destruct (refill_spec c now b Hc Hok Hnow) as (n & b'' & Hr' & Hn & Hl & Ht & _ & Hlt).
  rewrite Hr in Hr'. injection Hr' as <-. destruct Hc as [Hcap HI], Hok as [Htk Hlr].
  assert (0 ≤ n * refill_interval_ms c) by nia. cbn. split; [split; cbn; lia|].
  intros [Hw'|Hw']%Hw; [left; lia|]. destruct (decide (n = 0)) as [->|]; [right|left]; lia.
Qed.

Lemma waiting_later c k t1 now now' k' o :
  now ≤ now' → waiting c k t1 now k' o → waiting c k t1 now' k' o.
Proof. destruct o as [b|]; [|done]. intros Hle [[Ht Hl] Hw]. split; [split; lia|done]. Qed.

Definition asks (k : K) (a : Call) : Prop := match a with Consume k' _ => k' = k | Sweep _ => False end.

(** One call keeps every bucket in range, and [k] waiting unless it is about [k]. *)
Lemma waiting_consume c k t1 now key s :
  limit_ok c → 0 ≤ now ≤ u64_max → key ≠ k ∨ now ≤ t1 → table_ok c (waiting c k t1 now) s →
  wp (consume key now) (λ _ s', table_ok c (waiting c k t1 now) s') (λ _ _, False) s.
Proof.
  intros Hc Hnow Hk Hs. pose proof (waiting_sweepable c k t1 now Hc ltac:(lia)) as Hsw.
  eapply wp_mono; [apply (consume_spec c now (waiting c k t1 now) Hc); [lia|done|lia|done]| |done].
  cbn. intros ok s' (o & b & n & s1 & Ho & Hb & [Htb Hlb] & Hn & Hok & [Hc1 Hs1] & Hc' & _ & b' & Hbs & Hl & Hlt & Htk).
  split; [done|]. intros k'. rewrite Hbs. destruct (decide (k' = key)) as [->|Hne];
    [|by rewrite lookup_insert_ne]. rewrite lookup_insert_eq.
  destruct Hc as [Hcap HI]. assert (0 ≤ n * refill_interval_ms c) by nia. split.
  - split; [|lia]. destruct ok; symmetry in Hok; [apply negb_true_iff, Z.eqb_neq in Hok|]; lia.
  - intros ->. destruct Hk; [done|]. right. lia.
Qed.

Lemma run_calls_waiting c k t1 calls t s :
  limit_ok c → 0 ≤ t → clocked t calls →
  Forall (λ a, ¬ asks k a ∨ call_time a ≤ t1) calls → table_ok c (waiting c k t1 t) s →
  wp (run_calls calls) (λ l s', table_ok c (waiting c k t1 (end_time t calls)) s') (λ _ _, False) s.
Proof.
  intros Hc. revert t s. induction calls as [|a calls IH]; intros t s Ht Hcl Hk Hs; cbn [run_calls]; [done|].
  destruct Hcl as [Hta Hcl]. apply Forall_cons in Hk as [Ha Hk].
  assert (table_ok c (waiting c k t1 (call_time a)) s) as Hs'.
  { destruct Hs as [? Hs]. split; [done|]. intros k'. eapply waiting_later; [|apply Hs]. lia. }
  destruct a as [key now|now]; cbn [call_time end_time asks] in *; apply wp_bind.
  - eapply wp_mono; [apply waiting_consume; [done|lia|by destruct Ha; [left|right]|done]| |done]. cbn.
    intros ok s' Hs1. apply wp_bind. eapply wp_mono; [apply (IH now); [lia|done|done|done]| |done].
    by intros l s2 Hs2.
  - eapply wp_mono; [apply (sweep_spec c now (waiting c k t1 now) Hc);
      [lia|apply waiting_sweepable; [done|lia]|done]| |done].
    cbn. intros _ s' [Hs1 _]. apply IH; [lia|done|done|done].
Qed.

Lemma run_calls_app calls1 calls2 s s1 l1 :
  run_calls calls1 s = (s1, Ok l1) →
  run_calls (calls1 ++ calls2) s =
    (let '(s2, r) := run_calls calls2 s1 in
     (s2, l2 ← r; mret (l1 ++ l2))).
Proof.
  revert s s1 l1. induction calls1 as [|a calls1 IH]; cbn; intros s s1 l1.
  - intros [= <- <-]. by destruct (run_calls calls2 s) as [s2 []].
  - destruct a as [key now|now]; unfold mbind, M_bind.
    + destruct (consume key now s) as [s' [ok| | |]]; try done.
      destruct (run_calls calls1 s') as [s'' [l| | |]] eqn:Hr; try done. intros [= <- <-].
      rewrite (IH _ _ _ Hr). by destruct (run_calls calls2 s'') as [s2 []].
    + destruct (sweep now s) as [s' [ok| | |]]; try done. apply IH.
Qed.

Lemma clocked_app t calls1 calls2 :
  clocked t (calls1 ++ calls2) ↔ clocked t calls1 ∧ clocked (end_time t calls1) calls2.
Proof. revert t. induction calls1 as [|a calls1 IH]; intros t; cbn; [tauto|]. rewrite IH. tauto. Qed.

Lemma clocked_end t calls :
  clocked t calls → t ≤ end_time t calls ∧ Forall (λ a, call_time a ≤ end_time t calls) calls.
Proof.
  revert t. induction calls as [|a calls IH]; intros t; cbn [clocked end_time]; [split; [lia|constructor]|].
  intros [Ha [Hle Hall]%IH]. split; [lia|]. by constructor.
Qed.

(** A key that has waited an interval has a token. *)
Lemma consume_waiting c k t1 now s :
  limit_ok c → 0 ≤ now ≤ u64_max → t1 + refill_interval_ms c ≤ now →
  table_ok c (waiting c k t1 now) s →
  wp (consume k now) (λ ok _, ok = true) (λ _ _, False) s.
Proof.
  intros Hc Hnow Hw Hs. pose proof (waiting_sweepable c k t1 now Hc ltac:(lia)) as Hsw.
  eapply wp_mono; [apply (consume_spec c now (waiting c k t1 now) Hc); [lia|done|lia|done]| |done].
  cbn. intros ok s' (o & b & n & s1 & Ho & Hb & [Htb Hlb] & Hn & -> & _ & _ & _ & b' & _ & Hl & Hlt & _).
  destruct Hc as [Hcap HI]. apply negb_true_iff, Z.eqb_neq.
  destruct o as [b0|]; cbn in *; subst b; [|cbn; lia]. destruct Ho as [_ Ho].
  destruct (Ho eq_refl); [lia|]. assert (n ≠ 0) by (intros ->; lia). lia.
Qed.
End Limiter.

(** ** Properties *)

(** However a limiter is used, with calls timed by a clock that does not go
    back, no call fails and every sweep ends; and no key is granted more than
    its bucket's capacity plus one token per elapsed refill interval, although
    full buckets are forgotten and recreated. *)
Theorem limiter_rate_bound `{BTreeKey K} c t0 (calls : list (Call (K := K))) :
  limit_ok c → 0 ≤ t0 → clocked t0 calls →
  ∃ s answers, run_calls calls (limiter_new c) = (s, Ok answers) ∧
    ∀ k, admitted k answers ≤ capacity c + (end_time t0 calls - t0) / refill_interval_ms c.
Proof.
  intros Hc Ht Hcl.
  pose proof (run_calls_budget c t0 calls t0 (λ _, 0) (limiter_new c) Hc ltac:(lia) Hcl
    (budget_new c t0 Hc)) as Hwp.
  apply wp_ok_run in Hwp as (l & s & Hrun & Hcfg & Hs). exists s, l. split; [done|].
  intros k. exact (budget_bound _ _ _ _ _ k Hc (proj1 (clocked_end _ _ Hcl)) (conj Hcfg Hs)).
Qed.

Lemma limiter_rate_bound_witness :
  ∃ s answers,
    run_calls [Consume 7 0; Consume 7 1; Consume 7 2; Sweep 11; Consume 7 12]
      (limiter_new (mkLimit 2 10)) = (s, Ok answers) ∧ admitted 7 answers ≤ 3.
Proof.
  destruct (limiter_rate_bound (mkLimit 2 10) 0
    [Consume 7 0; Consume 7 1; Consume 7 2; Sweep 11; Consume 7 12]) as (s & l & Hrun & Hk).
  - split; cbn; unfold u32_max, u64_max; lia.
  - lia.
  - cbn. unfold u64_max. lia.
  - exists s, l. split; [exact Hrun|]. apply (Z.le_trans _ _ _ (Hk 7)). by vm_compute.
Defined.

(** A key is never starved: whatever the answer at [t1] was, and whatever
    other keys ask and sweeps happen in between, a key that waits one refill
    interval is granted a token. *)
Theorem limiter_readmits `{BTreeKey K} c t0 (before after : list (Call (K := K))) k t1 t2 :
  limit_ok c → 0 ≤ t0 → Forall (λ a, ¬ asks k a) after → t1 + refill_interval_ms c ≤ t2 →
  clocked t0 (before ++ [Consume k t1] ++ after ++ [Consume k t2]) →
  ∃ s answers,
    run_calls (before ++ [Consume k t1] ++ after ++ [Consume k t2]) (limiter_new c) =
      (s, Ok (answers ++ [(k, true)])).
Proof.
  intros Hc Ht Hafter Hw. rewrite (app_assoc before), app_assoc.
  set (calls := (before ++ [Consume k t1]) ++ after). intros [Hcl [H2 _]]%clocked_app. cbn in H2.
  pose proof (proj1 (clocked_end _ _ Hcl)) as Hend.
  pose proof (run_calls_waiting c k t1 calls t0 (limiter_new c) Hc Ht Hcl) as Hrun.
  apply wp_ok_run in Hrun as (l & s & Hrun & Hs').
  - pose proof (consume_waiting c k t1 t2 s Hc ltac:(lia) Hw) as Hlast.
    apply wp_ok_run in Hlast as (ok & s' & Hlast & ->).
    + exists s', l. rewrite (run_calls_app _ _ _ _ _ Hrun). cbn. unfold mbind, M_bind.
      by rewrite Hlast.
    + destruct Hs' as [? Hs']. split; [done|]. intros k'. eapply waiting_later; [|apply Hs']. lia.
  - unfold calls. apply Forall_app. split.
    + apply clocked_app in Hcl as [Hcl _]. apply clocked_end in Hcl as [_ Hcl].
      eapply Forall_impl; [exact Hcl|]. cbn. intros a Ha. right. revert Ha. clear.
      enough (end_time t0 (before ++ [Consume k t1]) = t1) as -> by done.
      generalize t0. induction before; cbn; [done|]. intros. by rewrite IHbefore.
    + eapply Forall_impl; [exact Hafter|]. cbn. tauto.
  - split; [done|]. intros k'. cbn. by rewrite lookup_empty.
Qed.

Lemma limiter_readmits_witness :
  ∃ s answers,
    run_calls ([Consume 7 0] ++ [Consume 7 1] ++ [Consume 8 2; Sweep 3] ++ [Consume 7 11])
      (limiter_new (mkLimit 1 10)) = (s, Ok (answers ++ [(7, true)])).
Proof.
  apply (limiter_readmits (mkLimit 1 10) 0 [Consume 7 0] [Consume 8 2; Sweep 3] 7 1 11).
  - split; cbn; unfold u32_max, u64_max; lia.
  - lia.
  - repeat constructor; cbn; lia.
  - cbn. lia.
  - cbn. unfold u64_max. lia.
Defined.
