(* ===== verification/Admission.v ===== *)
(** The relay server's configuration, from [crates/relay-server/src/config.rs],
    and the admission limiters its agent builds from it,
    [AdmissionLimiters] of [crates/relay-server/src/agent.rs]. *)

From S2P Require Import Prelude Limiter.

(** ** Configuration *)

Record RelayServerConfig := mkRelayServerConfig {
  max_reservations : Z;
  reservation_duration_secs : Z;
  max_circuits : Z;
  max_circuits_per_peer : Z;
  max_circuit_duration_secs : Z;
  max_circuit_bytes : Z;
  max_pending_hop_requests_per_connection : Z;
  max_pending_stop_requests_per_connection : Z;
  control_stream_timeout_ms : Z;
  reservation_rate_limit_per_peer : option RateLimit;
  reservation_rate_limit_per_ip : option RateLimit;
  circuit_rate_limit_per_peer : option RateLimit;
  circuit_rate_limit_per_ip : option RateLimit;
}.

Definition RelayServerConfig_default : RelayServerConfig :=
  let per_peer := Some (mkLimit 30 120000) in
  let per_ip := Some (mkLimit 60 60000) in
  {| max_reservations := 128;
     reservation_duration_secs := 3600;
     max_circuits := 16;
     max_circuits_per_peer := 4;
     max_circuit_duration_secs := 120;
     max_circuit_bytes := 131072;
     max_pending_hop_requests_per_connection := 10;
     max_pending_stop_requests_per_connection := 10;
     control_stream_timeout_ms := 60000;
     reservation_rate_limit_per_peer := per_peer;
     reservation_rate_limit_per_ip := per_ip;
     circuit_rate_limit_per_peer := per_peer;
     circuit_rate_limit_per_ip := per_ip |}.

Inductive RelayServerConfigErrorKind := MustBeNonZero | ExceedsWireU32.
Record RelayServerConfigError := invalid { field : string; reason : RelayServerConfigErrorKind }.

Definition validate_rate_limit (name : string) (limit : option RateLimit) :
    res RelayServerConfigError unit :=
  match limit with
  | None => Ok tt
  | Some limit =>
      if capacity limit =? 0 then
        let field :=
          if bool_decide (name = "reservation_rate_limit_per_peer"%string)
          then "reservation_rate_limit_per_peer.capacity"%string
          else if bool_decide (name = "reservation_rate_limit_per_ip"%string)
          then "reservation_rate_limit_per_ip.capacity"%string
          else if bool_decide (name = "circuit_rate_limit_per_peer"%string)
          then "circuit_rate_limit_per_peer.capacity"%string
          else "circuit_rate_limit_per_ip.capacity"%string in
        Err (invalid field MustBeNonZero)
      else if refill_interval_ms limit =? 0 then
        let field :=
          if bool_decide (name = "reservation_rate_limit_per_peer"%string)
          then "reservation_rate_limit_per_peer.refill_interval_ms"%string
          else if bool_decide (name = "reservation_rate_limit_per_ip"%string)
          then "reservation_rate_limit_per_ip.refill_interval_ms"%string
          else if bool_decide (name = "circuit_rate_limit_per_peer"%string)
          then "circuit_rate_limit_per_peer.refill_interval_ms"%string
          else "circuit_rate_limit_per_ip.refill_interval_ms"%string in
        Err (invalid field MustBeNonZero)
      else Ok tt
  end.

Definition validate (c : RelayServerConfig) : res RelayServerConfigError unit :=
  if reservation_duration_secs c =? 0
  then Err (invalid "reservation_duration_secs" MustBeNonZero)
  else if u32_max <? max_circuit_duration_secs c
  then Err (invalid "max_circuit_duration_secs" ExceedsWireU32)
  else if control_stream_timeout_ms c =? 0
  then Err (invalid "control_stream_timeout_ms" MustBeNonZero)
  else
    _ ← validate_rate_limit "reservation_rate_limit_per_peer" (reservation_rate_limit_per_peer c);
    _ ← validate_rate_limit "reservation_rate_limit_per_ip" (reservation_rate_limit_per_ip c);
    _ ← validate_rate_limit "circuit_rate_limit_per_peer" (circuit_rate_limit_per_peer c);
    _ ← validate_rate_limit "circuit_rate_limit_per_ip" (circuit_rate_limit_per_ip c);
    Ok tt.

(** The values a configured rate limit can have at all. *)
Definition limit_typed (o : option RateLimit) : Prop :=
  match o with
  | Some l => 0 ≤ capacity l ≤ u32_max ∧ 0 ≤ refill_interval_ms l ≤ u64_max
  | None => True
  end.
Definition limit_usable (o : option RateLimit) : Prop :=
  match o with Some l => limit_ok l | None => True end.

Lemma validate_rate_limit_usable name o :
  limit_typed o → validate_rate_limit name o = Ok tt → limit_usable o.
Proof.
  destruct o as [l|]; [|done]. cbn. unfold limit_ok.
  destruct (Z.eqb_spec (capacity l) 0); [done|].
  destruct (Z.eqb_spec (refill_interval_ms l) 0); [done|]. lia.
Qed.

Lemma validate_limits c :
  limit_typed (reservation_rate_limit_per_peer c) → limit_typed (reservation_rate_limit_per_ip c) →
  limit_typed (circuit_rate_limit_per_peer c) → limit_typed (circuit_rate_limit_per_ip c) →
  validate c = Ok tt →
  limit_usable (reservation_rate_limit_per_peer c) ∧ limit_usable (reservation_rate_limit_per_ip c) ∧
  limit_usable (circuit_rate_limit_per_peer c) ∧ limit_usable (circuit_rate_limit_per_ip c).
Proof.
  intros T1 T2 T3 T4. unfold validate, mbind, res_bind. do 3 (case_match; [done|]).
  repeat case_match; try done. intros _. repeat match goal with u : unit |- _ => destruct u end.
  split_and!; eapply validate_rate_limit_usable; eassumption.
Qed.

(** ** Admission *)

Section Admission.
Context `{BTreeKey PeerId} `{BTreeKey IpKey}.

Record AdmissionLimiters := mkAdmission {
  peer : option (TokenBuckets (K := PeerId));
  ip : option (TokenBuckets (K := IpKey));
}.

Definition AdmissionLimiters_new (peer ip : option RateLimit) : AdmissionLimiters :=
  mkAdmission (limiter_new <$> peer) (limiter_new <$> ip).

(** [if let Some(limiter) = &mut self.peer]: run [m] on the limiter. *)
Definition on_peer {A} (m : M (TokenBuckets (K := PeerId)) Empty_set A) : M AdmissionLimiters Empty_set (option A) :=
  λ s, match peer s with
       | Some l => let '(l', r) := m l in ({| s with peer := Some l' |}, a ← r; mret (Some a))
       | None => (s, Ok None)
       end.
Definition on_ip {A} (m : M (TokenBuckets (K := IpKey)) Empty_set A) : M AdmissionLimiters Empty_set (option A) :=
  λ s, match ip s with
       | Some l => let '(l', r) := m l in ({| s with ip := Some l' |}, a ← r; mret (Some a))
       | None => (s, Ok None)
       end.

(** The address limiter is not asked when the peer limiter refuses. *)
Definition admission_consume (peer_id : PeerId) (addr : option IpKey) (now_ms : Z) :
    M AdmissionLimiters Empty_set bool :=
  o ← on_peer (consume peer_id now_ms);
  match o with
  | Some false => mret false
  | _ =>
      match addr with
      | Some key => o ← on_ip (consume key now_ms); mret (default true o)
      | None => mret true
      end
  end.

Definition admission_sweep (now_ms : Z) : M AdmissionLimiters Empty_set unit :=
  _ ← on_peer (sweep now_ms);
  _ ← on_ip (sweep now_ms);
  mret tt.

Definition admission_next_due (s : AdmissionLimiters) : option Z :=
  match peer s ≫= next_due, ip s ≫= next_due with
  | Some a, Some b => Some (Z.min a b)
  | Some a, None => Some a
  | None, o => o
  end.

(** ** Runs *)

(** What the agent does with one pair of limiters over time. *)
Inductive Request := Attempt (peer_id : PeerId) (addr : option IpKey) (now_ms : Z) | SweepAll (now_ms : Z).
Definition request_time (r : Request) : Z := match r with Attempt _ _ t | SweepAll t => t end.

Fixpoint run_requests (rs : list Request) : M AdmissionLimiters Empty_set (list (PeerId * option IpKey * bool)) :=
  match rs with
  | [] => mret []
  | Attempt p a t :: rs => ok ← admission_consume p a t; l ← run_requests rs; mret ((p, a, ok) :: l)
  | SweepAll t :: rs => _ ← admission_sweep t; run_requests rs
  end.

Fixpoint timed (t : Z) (rs : list Request) : Prop :=
  match rs with [] => True | r :: rs => t ≤ request_time r ≤ u64_max ∧ timed (request_time r) rs end.
Fixpoint last_time (t : Z) (rs : list Request) : Z :=
  match rs with [] => t | r :: rs => last_time (request_time r) rs end.

Definition peer_admitted (p : PeerId) (l : list (PeerId * option IpKey * bool)) : Z :=
  zlen (filter (λ e, e.1.1 = p ∧ e.2 = true) l).
Definition ip_admitted (a : IpKey) (l : list (PeerId * option IpKey * bool)) : Z :=
  zlen (filter (λ e, e.1.2 = Some a ∧ e.2 = true) l).

(** An optional limiter within its budget. *)
Definition within `{BTreeKey K} (limit : option RateLimit) (t0 now : Z) (A : K → Z)
    (o : option (TokenBuckets (K := K))) : Prop :=
  match limit, o with
  | Some c, Some s => limit_ok c ∧ table_ok c (budget c t0 now A) s
  | None, None => True
  | _, _ => False
  end.

Lemma within_weaken `{BTreeKey K} limit t0 now now' (A A' : K → Z) o :
  now ≤ now' → (∀ k, A' k ≤ A k) → within limit t0 now A o → within limit t0 now' A' o.
Proof.
  intros Hle HA. destruct limit as [c|], o as [s|]; try done. intros [? ?]. split; [done|].
  by eapply budget_weaken.
Qed.

Lemma within_new `{BTreeKey K} limit t0 :
  limit_usable limit → within limit t0 t0 (λ _ : K, 0) (limiter_new <$> limit).
Proof. destruct limit as [c|]; [|done]. intros. split; [done|]. by apply budget_new. Qed.

Lemma within_bound `{BTreeKey K} limit t0 now (A : K → Z) o k :
  t0 ≤ now → within limit t0 now A o →
  match limit with Some c => A k ≤ capacity c + (now - t0) / refill_interval_ms c | None => True end.
Proof. destruct limit as [c|], o as [s|]; try done. intros ? [? ?]. by eapply budget_bound. Qed.

(** The part of a refill interval that a span which begins between two
    refills may use in addition. *)
Definition slack (limit : option RateLimit) : Z :=
  match limit with Some c => refill_interval_ms c - 1 | None => 0 end.

Lemma within_rebase `{BTreeKey K} limit t0 t (A : K → Z) o :
  within limit t0 t A o → within limit (t - slack limit) t (λ _, 0) o.
Proof.
  destruct limit as [c|], o as [s|]; try done. intros [? Hs]. split; [done|].
  replace (t - slack (Some c)) with (t - refill_interval_ms c + 1) by (cbn; lia). by eapply budget_rebase.
Qed.

Lemma wp_on_peer {A} (m : M (TokenBuckets (K := PeerId)) Empty_set A) Q s :
  match peer s with
  | Some l => wp m (λ a l', Q (Some a) {| s with peer := Some l' |}) (λ _ _, False) l
  | None => Q None s
  end → wp (on_peer m) Q (λ _ _, False) s.
Proof. unfold wp, on_peer. destruct (peer s); [|done]. by destruct (m t) as [l' []]. Qed.

Lemma wp_on_ip {A} (m : M (TokenBuckets (K := IpKey)) Empty_set A) Q s :
  match ip s with
  | Some l => wp m (λ a l', Q (Some a) {| s with ip := Some l' |}) (λ _ _, False) l
  | None => Q None s
  end → wp (on_ip m) Q (λ _ _, False) s.
Proof. unfold wp, on_ip. destruct (ip s); [|done]. by destruct (m t) as [l' []]. Qed.

Lemma within_consume `{BTreeKey K} limit t0 now A (key : K) l :
  t0 ≤ now → 0 ≤ now ≤ u64_max → within limit t0 now A (Some l) →
  wp (consume key now) (λ ok l', within limit t0 now (grant A key ok) (Some l')) (λ _ _, False) l.
Proof.
  intros Ht Hn Hw. destruct limit as [c|]; [|done]. destruct Hw as [Hc Hl].
  eapply wp_mono; [apply (consume_budget c t0 now A); [done|lia|lia|done]| |done].
  by intros ok l' [? _].
Qed.

Lemma within_sweep `{BTreeKey K} limit t0 now (A : K → Z) l :
  t0 ≤ now ≤ u64_max → within limit t0 now A (Some l) →
  wp (sweep now) (λ _ l', within limit t0 now A (Some l') ∧ overdue now l' = ∅) (λ _ _, False) l.
Proof.
  intros Hn Hw. destruct limit as [c|]; [|done]. destruct Hw as [Hc Hl].
  eapply wp_mono; [apply (sweep_budget c t0 now A); [done|lia|done]| |done].
  by intros ok l' [? ?].
Qed.

Section Budgets.
Context (limP limI : option RateLimit) (tP tI : Z).

Definition grant_opt (A : IpKey → Z) (a : option IpKey) (ok : bool) : IpKey → Z :=
  match a with Some k => grant A k ok | None => A end.

Lemma grant_le `{Countable K} (A : K → Z) key ok k : A k ≤ grant A key ok k ≤ grant A key true k.
Proof. unfold grant. destruct ok; case_decide; lia. Qed.

Lemma admission_consume_within p a now Ap Ai s :
  tP ≤ now → tI ≤ now → 0 ≤ now ≤ u64_max → within limP tP now Ap (peer s) → within limI tI now Ai (ip s) →
  wp (admission_consume p a now) (λ ok s',
      within limP tP now (grant Ap p ok) (peer s') ∧ within limI tI now (grant_opt Ai a ok) (ip s'))
    (λ _ _, False) s.
Proof.
  intros HtP HtI Hn HP HI. unfold admission_consume. apply wp_bind, wp_on_peer.
  assert (∀ s, within limP tP now (grant Ap p true) (peer s) → within limI tI now Ai (ip s) →
    wp (match a with
        | Some key => o ← on_ip (consume key now); mret (default true o)
        | None => mret true
        end) (λ ok s', within limP tP now (grant Ap p ok) (peer s') ∧
                       within limI tI now (grant_opt Ai a ok) (ip s')) (λ _ _, False) s) as Hip.
  { clear s HP HI. intros s HP HI. destruct a as [key|]; [|done]. apply wp_bind, wp_on_ip.
    destruct (ip s) as [l|] eqn:Hi.
    - eapply wp_mono; [by eapply (within_consume limI tI)| |done]. cbn. intros ok l' Hl'. split; [|done].
      eapply within_weaken; [apply Z.le_refl|apply grant_le|done].
    - split; [done|]. cbn. rewrite Hi. by destruct limI. }
  destruct (peer s) as [l|] eqn:Hp.
  - eapply wp_mono; [by eapply (within_consume limP tP)| |done]. cbn. intros [] l' Hl'; [by apply Hip|].
    split; [done|]. cbn. destruct a as [k|]; cbn; [|done].
    eapply within_weaken; [apply Z.le_refl| |done]. intros k'. unfold grant. case_decide; cbn; lia.
  - cbn. apply Hip; [|done]. rewrite Hp. by destruct limP.
Qed.

Lemma admission_sweep_within now Ap Ai s :
  tP ≤ now → tI ≤ now → 0 ≤ now ≤ u64_max → within limP tP now Ap (peer s) → within limI tI now Ai (ip s) →
  wp (admission_sweep now) (λ _ s',
      within limP tP now Ap (peer s') ∧ within limI tI now Ai (ip s') ∧
      (∀ l, peer s' = Some l → overdue now l = ∅) ∧ (∀ l, ip s' = Some l → overdue now l = ∅))
    (λ _ _, False) s.
Proof.
  intros HtP HtI Hn HP HI. unfold admission_sweep. apply wp_bind, wp_on_peer.
  assert (∀ s, within limP tP now Ap (peer s) → within limI tI now Ai (ip s) →
    (∀ l, peer s = Some l → overdue now l = ∅) →
    wp (_ ← on_ip (sweep now); mret tt) (λ _ s',
      within limP tP now Ap (peer s') ∧ within limI tI now Ai (ip s') ∧
      (∀ l, peer s' = Some l → overdue now l = ∅) ∧ (∀ l, ip s' = Some l → overdue now l = ∅))
    (λ _ _, False) s) as Hip.
  { clear s HP HI. intros s HP HI Ho. apply wp_bind, wp_on_ip.
    destruct (ip s) as [l|] eqn:Hi.
    - eapply wp_mono; [eapply (within_sweep limI tI); [lia|done]| |done]. cbn. intros _ l' [Hl' Ho'].
      split_and!; [exact HP|exact Hl'|exact Ho|by intros ? [= <-]].
    - cbn. split_and!; [done|by rewrite Hi|done|by rewrite Hi]. }
  destruct (peer s) as [l|] eqn:Hp.
  - eapply wp_mono; [eapply (within_sweep limP tP); [lia|done]| |done]. cbn. intros _ l' [Hl' Ho'].
    apply Hip; [done|done|]. by intros ? [= <-].
  - cbn. apply Hip; [by rewrite Hp|done|by rewrite Hp].
Qed.

Lemma peer_admitted_cons p p' a ok l :
  peer_admitted p ((p', a, ok) :: l) =
    (if decide (p' = p) then if ok then 1 else 0 else 0) + peer_admitted p l.
Proof.
  unfold peer_admitted. rewrite filter_cons. destruct ok, (decide (p' = p)); case_decide; cbn in *;
    rewrite ?zlen_cons; naive_solver lia.
Qed.

Lemma ip_admitted_cons k p a ok l :
  ip_admitted k ((p, a, ok) :: l) =
    (if decide (a = Some k) then if ok then 1 else 0 else 0) + ip_admitted k l.
Proof.
  unfold ip_admitted. rewrite filter_cons. destruct ok, (decide (a = Some k)); case_decide; cbn in *;
    rewrite ?zlen_cons; naive_solver lia.
Qed.

Lemma timed_end t rs : timed t rs → t ≤ last_time t rs.
Proof. revert t. induction rs as [|r rs IH]; intros t; cbn; [lia|]. intros [? ?%IH]. lia. Qed.

Lemma run_requests_within rs t Ap Ai s :
  tP ≤ t → tI ≤ t → 0 ≤ t → timed t rs → within limP tP t Ap (peer s) → within limI tI t Ai (ip s) →
  wp (run_requests rs) (λ l s',
      within limP tP (last_time t rs) (λ k, Ap k + peer_admitted k l) (peer s') ∧
      within limI tI (last_time t rs) (λ k, Ai k + ip_admitted k l) (ip s'))
    (λ _ _, False) s.
Proof.
  revert t Ap Ai s. induction rs as [|r rs IH]; intros t Ap Ai s HtP HtI Ht Htm HP HI; cbn [run_requests].
  - apply wp_ret. split; (eapply within_weaken; [apply Z.le_refl| |eassumption]); intros k;
      apply Z.eq_le_incl, Z.add_0_r.
  - destruct Htm as [Hr Htm].
    assert (within limP tP (request_time r) Ap (peer s)) as HP' by (eapply within_weaken; [| |exact HP]; [lia|done]).
    assert (within limI tI (request_time r) Ai (ip s)) as HI' by (eapply within_weaken; [| |exact HI]; [lia|done]).
    destruct r as [p a now|now]; cbn [request_time last_time] in *; apply wp_bind.
    + eapply wp_mono; [apply (admission_consume_within p a now Ap Ai s); [lia|lia|lia|done|done]| |done]. cbn.
      intros ok s1 [HP1 HI1]. apply wp_bind.
      eapply wp_mono; [apply (IH now (grant Ap p ok) (grant_opt Ai a ok) s1); [lia|lia|lia|done..]| |done]. cbn.
      intros l s2 [HP2 HI2]. split; [eapply within_weaken; [apply Z.le_refl| |exact HP2]
        |eapply within_weaken; [apply Z.le_refl| |exact HI2]]; cbn; intros k.
      * rewrite peer_admitted_cons. unfold grant. lia.
      * rewrite ip_admitted_cons. unfold grant_opt, grant. destruct a as [k'|]; [|rewrite decide_False by done; lia].
        repeat case_decide; try lia; naive_solver.
    + eapply wp_mono; [apply (admission_sweep_within now Ap Ai s); [lia|lia|lia|done|done]| |done]. cbn.
      intros _ s1 (HP1 & HI1 & _). by apply IH; [lia|lia|lia| | |].
Qed.
End Budgets.

Lemma timed_app t rs1 rs2 : timed t (rs1 ++ rs2) ↔ timed t rs1 ∧ timed (last_time t rs1) rs2.
Proof. revert t. induction rs1 as [|r rs1 IH]; intros t; cbn; [tauto|]. rewrite IH. tauto. Qed.

Lemma slack_nonneg limit : limit_usable limit → 0 ≤ slack limit.
Proof. destruct limit as [c|]; [intros [_ ?]; cbn; lia|done]. Qed.

(** What limiters that are within their budgets grant in a run. *)
Lemma requests_bounded limP limI tP tI rs t s :
  tP ≤ t → tI ≤ t → 0 ≤ t → timed t rs →
  within limP tP t (λ _, 0) (peer s) → within limI tI t (λ _, 0) (ip s) →
  ∃ l s', run_requests rs s = (s', Ok l) ∧
    within limP tP (last_time t rs) (λ k, 0 + peer_admitted k l) (peer s') ∧
    within limI tI (last_time t rs) (λ k, 0 + ip_admitted k l) (ip s') ∧
    match limP with
    | Some c => ∀ p, peer_admitted p l ≤ capacity c + (last_time t rs - tP) / refill_interval_ms c
    | None => True
    end ∧
    match limI with
    | Some c => ∀ a, ip_admitted a l ≤ capacity c + (last_time t rs - tI) / refill_interval_ms c
    | None => True
    end.
Proof.
  intros HtP HtI Ht Htm HP HI. pose proof (timed_end _ _ Htm) as Hend.
  pose proof (run_requests_within _ _ _ _ rs t (λ _, 0) (λ _, 0) s HtP HtI Ht Htm HP HI) as Hwp.
  apply wp_ok_run in Hwp as (l & s' & Hrun & HPs & HIs). exists l, s'. split_and!; [done..| |].
  - destruct limP as [c|]; [|done]. intros p. exact (within_bound _ _ _ _ _ p (Z.le_trans _ _ _ HtP Hend) HPs).
  - destruct limI as [c|]; [|done]. intros a. exact (within_bound _ _ _ _ _ a (Z.le_trans _ _ _ HtI Hend) HIs).
Qed.

Lemma run_requests_app rs1 rs2 s s1 l1 :
  run_requests rs1 s = (s1, Ok l1) →
  run_requests (rs1 ++ rs2) s =
    (let '(s2, r) := run_requests rs2 s1 in (s2, l2 ← r; mret (l1 ++ l2))).
Proof.
  revert s s1 l1. induction rs1 as [|r rs1 IH]; cbn; intros s s1 l1.
  - intros [= <- <-]. by destruct (run_requests rs2 s) as [s2 []].
  - destruct r as [p a now|now]; unfold mbind, M_bind.
    + destruct (admission_consume p a now s) as [s' [ok| | |]]; try done.
      destruct (run_requests rs1 s') as [s'' [l| | |]] eqn:Hr; try done. intros [= <- <-].
      rewrite (IH _ _ _ Hr). by destruct (run_requests rs2 s'') as [s2 []].
    + destruct (admission_sweep now s) as [s' [ok| | |]]; try done. apply IH.
Qed.

Lemma next_due_future `{BTreeKey K} now (l : TokenBuckets (K := K)) d :
  overdue now l = ∅ → next_due l = Some d → now < d.
Proof.
  intros Ho Hd. unfold next_due in Hd. destruct (btree_keys (due l)) as [|d' ds] eqn:Hk; [done|].
  injection Hd as ->. assert (d ∈ dom (due l)) as Hin
    by (apply elem_of_dom, elem_of_btree_keys; rewrite Hk; by left).
  assert (d ∉ overdue now l) as Hnot by (rewrite Ho; set_solver).
  unfold overdue in Hnot. rewrite elem_of_filter in Hnot. destruct (decide (d ≤ now)); [tauto|lia].
Qed.
End Admission.

(** ** Properties *)

(** C26: however often reservations are asked for, no call of the limiters of
    a validated configuration fails, and they let through a bounded number of
    attempts: from the start of the limiters on, those of one peer, and those
    from one address, are at most that limiter's capacity plus one per elapsed
    refill interval; and after any history, in every later span of time, at
    most the capacity plus one per refill interval begun. *)
Theorem admission_is_bounded `{BTreeKey PeerId} `{BTreeKey IpKey} cfg t0
    (before span : list (Request (PeerId := PeerId) (IpKey := IpKey))) :
  limit_typed (reservation_rate_limit_per_peer cfg) → limit_typed (reservation_rate_limit_per_ip cfg) →
  limit_typed (circuit_rate_limit_per_peer cfg) → limit_typed (circuit_rate_limit_per_ip cfg) →
  validate cfg = Ok tt → 0 ≤ t0 → timed t0 (before ++ span) →
  let t1 := last_time t0 before in
  let t2 := last_time t1 span in
  ∃ s1 l1 s2 l2,
    run_requests before (AdmissionLimiters_new (reservation_rate_limit_per_peer cfg)
      (reservation_rate_limit_per_ip cfg)) = (s1, Ok l1) ∧
    run_requests span s1 = (s2, Ok l2) ∧
    (∀ p c, reservation_rate_limit_per_peer cfg = Some c →
      peer_admitted p l1 ≤ capacity c + (t1 - t0) / refill_interval_ms c ∧
      peer_admitted p l2 ≤ capacity c + (t2 - t1 + refill_interval_ms c - 1) / refill_interval_ms c) ∧
    (∀ a c, reservation_rate_limit_per_ip cfg = Some c →
      ip_admitted a l1 ≤ capacity c + (t1 - t0) / refill_interval_ms c ∧
      ip_admitted a l2 ≤ capacity c + (t2 - t1 + refill_interval_ms c - 1) / refill_interval_ms c).
Proof.
  intros T1 T2 T3 T4 Hv Ht [Hb Hs]%timed_app t1 t2. destruct (validate_limits cfg) as (HP & HI & _); try done.
  pose proof (timed_end _ _ Hb) as Hend1. pose proof (timed_end _ _ Hs) as Hend2.
  destruct (requests_bounded _ _ t0 t0 before t0 (AdmissionLimiters_new _ _)
    ltac:(lia) ltac:(lia) ltac:(lia) Hb (within_new _ t0 HP) (within_new _ t0 HI))
    as (l1 & s1 & Hrun1 & HP1 & HI1 & HPb1 & HIb1).
  pose proof (slack_nonneg _ HP) as HsP. pose proof (slack_nonneg _ HI) as HsI.
  destruct (requests_bounded _ _ (t1 - slack (reservation_rate_limit_per_peer cfg))
    (t1 - slack (reservation_rate_limit_per_ip cfg)) span t1 s1 ltac:(lia) ltac:(lia) ltac:(unfold t1; lia) Hs
    (within_rebase _ _ _ _ _ HP1) (within_rebase _ _ _ _ _ HI1)) as (l2 & s2 & Hrun2 & _ & _ & HPb2 & HIb2).
  exists s1, l1, s2, l2. split_and!; [done|done| |].
  - intros p c Hc. rewrite Hc in HPb1, HPb2. split; [apply HPb1|].
    etransitivity; [apply HPb2|]. apply Z.eq_le_incl. do 2 f_equal. cbn. fold t1 t2. lia.
  - intros a c Hc. rewrite Hc in HIb1, HIb2. split; [apply HIb1|].
    etransitivity; [apply HIb2|]. apply Z.eq_le_incl. do 2 f_equal. cbn. fold t1 t2. lia.
Qed.

Lemma admission_is_bounded_witness :
  ∃ s1 l1 s2 l2,
    run_requests [Attempt 1 (Some 9) 5; SweepAll 7]
      (AdmissionLimiters_new (Some (mkLimit 30 120000)) (Some (mkLimit 60 60000))) = (s1, Ok l1) ∧
    run_requests [Attempt 1 (Some 9) 8; Attempt 2 (Some 9) 60007] s1 = (s2, Ok l2) ∧
    ip_admitted 9 l1 ≤ 60 ∧ ip_admitted 9 l2 ≤ 61.
Proof.
  destruct (admission_is_bounded RelayServerConfig_default 0
    [Attempt 1 (Some 9) 5; SweepAll 7] [Attempt 1 (Some 9) 8; Attempt 2 (Some 9) 60007])
    as (s1 & l1 & s2 & l2 & Hrun1 & Hrun2 & _ & Ha).
  1-4: split; cbn; unfold u32_max, u64_max; lia.
  - reflexivity.
  - lia.
  - cbn. unfold u64_max. lia.
  - exists s1, l1, s2, l2. split; [exact Hrun1|]. split; [exact Hrun2|]. exact (Ha 9 _ eq_refl).
Defined.

(** After a sweep, the time at which the limiters next want to be swept is
    in the future, so that a host that sleeps until then does not spin. *)
Theorem admission_sweep_is_due_later `{BTreeKey PeerId} `{BTreeKey IpKey} limP limI t0 t
    (rs : list (Request (PeerId := PeerId) (IpKey := IpKey))) :
  limit_usable limP → limit_usable limI → 0 ≤ t0 → timed t0 rs → last_time t0 rs ≤ t ≤ u64_max →
  ∃ s l, run_requests (rs ++ [SweepAll t]) (AdmissionLimiters_new limP limI) = (s, Ok l) ∧
    ∀ d, admission_next_due s = Some d → t < d.
Proof.
  intros HP HI Ht Htm Hlt. pose proof (timed_end _ _ Htm) as Hend.
  destruct (requests_bounded _ _ t0 t0 rs t0 (AdmissionLimiters_new _ _)
    ltac:(lia) ltac:(lia) ltac:(lia) Htm (within_new _ t0 HP) (within_new _ t0 HI)) as (l & s & Hrun & HPs & HIs & _).
  apply (within_weaken _ _ _ t _ _ _ (proj1 Hlt) (λ k, Z.le_refl _)) in HPs.
  apply (within_weaken _ _ _ t _ _ _ (proj1 Hlt) (λ k, Z.le_refl _)) in HIs.
  pose proof (admission_sweep_within _ _ t0 t0 t _ _ s ltac:(lia) ltac:(lia) ltac:(lia) HPs HIs) as Hsw.
  apply wp_ok_run in Hsw as (u & s' & Hsw & _ & _ & Ho1 & Ho2).
  exists s', (l ++ []). split.
  { rewrite (run_requests_app _ _ _ _ _ Hrun). cbn. unfold mbind, M_bind. by rewrite Hsw. }
  intros d. unfold admission_next_due.
  assert (∀ d1, peer s' ≫= next_due = Some d1 → t < d1) as Hp.
  { intros d1. destruct (peer s') as [x|]; [|done]. by apply next_due_future, Ho1. }
  assert (∀ d2, ip s' ≫= next_due = Some d2 → t < d2) as Hi.
  { intros d2. destruct (ip s') as [x|]; [|done]. by apply next_due_future, Ho2. }
  destruct (peer s' ≫= next_due) as [d1|]; [specialize (Hp d1 eq_refl)|];
    destruct (ip s' ≫= next_due) as [d2|]; try specialize (Hi d2 eq_refl); intros [= <-]; lia.
Qed.

Lemma admission_sweep_is_due_later_witness :
  ∃ s l, run_requests ([Attempt 1 (Some 9) 5] ++ [SweepAll 7])
      (AdmissionLimiters_new (Some (mkLimit 2 10)) (Some (mkLimit 1 10))) = (s, Ok l) ∧
    ∀ d, admission_next_due s = Some d → 7 < d.
Proof.
  apply (admission_sweep_is_due_later (Some (mkLimit 2 10)) (Some (mkLimit 1 10)) 0 7 [Attempt 1 (Some 9) 5]).
  1-2: split; cbn; unfold u32_max, u64_max; lia.
  - lia.
  - cbn. unfold u64_max. lia.
  - cbn. unfold u64_max. lia.
Defined.
