(* ===== verification/RelayAddress.v ===== *)
(** The addresses a relay announces, from
    [crates/relay-server/src/address.rs]. *)

From Stdlib Require Import Strings.Byte.
From S2P Require Import Prelude Base58 PeerIdentity Multiaddr.

Section Address.
Context `{HashCrates Multihash} `{!EqDecision Multihash}.
Abbreviation PeerId := (PeerIdentity.PeerId (Multihash := Multihash)).
Abbreviation Multiaddr := (Multiaddr.Multiaddr (Multihash := Multihash)).
Abbreviation Protocol := (Multiaddr.Protocol (Multihash := Multihash)).

Inductive RelayServerAddressErrorKind :=
  | Wildcard
  | Circuit
  | ConflictingPeerId (expected found : PeerId)
  | UnsupportedShape.

Record RelayServerAddressError := mkAddressError {
  error_index : Z;
  error_address : Multiaddr;
  error_reason : RelayServerAddressErrorKind;
}.

Definition is_p2p_circuit (p : Protocol) : bool := match p with P2pCircuit => true | _ => false end.

(** The host that comes first, then a port that is not zero. *)
Definition supported_shape (ps : list Protocol) : bool :=
  match ps with
  | [_; Tcp port] => negb (port =? 0)
  | [_; Udp port; QuicV1] => negb (port =? 0)
  | _ => false
  end.

Definition normalize_addr (local_peer_id : PeerId) (address : Multiaddr)
    : res RelayServerAddressErrorKind Multiaddr :=
  let ps := protocols address in
  if existsb is_p2p_circuit ps then Err Circuit
  else
    ps ← match split_last ps with
         | Some (P2p found, rest) =>
             if bool_decide (found ≠ local_peer_id) then Err (ConflictingPeerId local_peer_id found)
             else Ok rest
         | _ => Ok ps
         end;
    match ps with
    | [] => Err UnsupportedShape
    | host :: _ =>
        if match host with
           | Ip4 b => bool_decide (b = replicate 4 x00)
           | Ip6 b => bool_decide (b = replicate 16 x00)
           | _ => false
           end then Err Wildcard
        else if negb (is_host host) then Err UnsupportedShape
        else if negb (supported_shape ps) then Err UnsupportedShape
        else Ok (mkMultiaddr ps)
    end.

(** The loop of [normalize_addrs], from [index] on. *)
Fixpoint normalize_loop (local_peer_id : PeerId) (index : Z) (addrs normalized : list Multiaddr)
    : res RelayServerAddressError (list Multiaddr) :=
  match addrs with
  | [] => Ok normalized
  | address :: addrs =>
      match normalize_addr local_peer_id address with
      | Ok value =>
          normalize_loop local_peer_id (index + 1) addrs
            (if bool_decide (value ∈ normalized) then normalized else normalized ++ [value])
      | Err reason => Err (mkAddressError index address reason)
      | Panic => Panic
      | Diverge => Diverge
      end
  end.
Definition normalize_addrs (local_peer_id : PeerId) (addrs : list Multiaddr)
    : res RelayServerAddressError (list Multiaddr) := normalize_loop local_peer_id 0 addrs [].

(** A host that can be dialled, with a TCP port or a QUIC port, and no more. *)
Definition announceable (a : Multiaddr) : Prop :=
  is_wildcard_host a = false ∧
  ∃ host port, is_host host = true ∧ port ≠ 0 ∧
    (protocols a = [host; Tcp port] ∨ protocols a = [host; Udp port; QuicV1]).

Lemma announceable_dials a : announceable a → is_Some (transport_kind a).
Proof.
  intros (_ & host & port & Hh & _ & Hp). unfold transport_kind, transport_kind_of, is_tcp_transport_slice.
  destruct Hp as [-> | ->]; cbn; rewrite Hh; by eexists.
Qed.

(** What is left of an address once the relay's own name is taken off. *)
Lemma normalize_shape (local_peer_id : PeerId) ps a :
  match ps with
  | [] => Err UnsupportedShape
  | host :: _ =>
      if match host with
         | Ip4 b => bool_decide (b = replicate 4 x00)
         | Ip6 b => bool_decide (b = replicate 16 x00)
         | _ => false
         end then Err Wildcard
      else if negb (is_host host) then Err UnsupportedShape
      else if negb (supported_shape ps) then Err UnsupportedShape
      else Ok (mkMultiaddr ps)
  end = Ok a ↔ announceable a ∧ protocols a = ps.
Proof.
  destruct ps as [|host ps].
  { split; [done|]. intros [(_ & h & p & _ & _ & [Hp|Hp]) Hn]; by rewrite Hn in Hp. }
  change (match host with Ip4 b => bool_decide (b = replicate 4 x00) | Ip6 b => bool_decide (b = replicate 16 x00)
          | _ => false end) with (is_wildcard_host (mkMultiaddr (host :: ps))).
  destruct (is_wildcard_host _) eqn:Hw.
  { split; [done|]. intros [[Hw' _] Hp]. destruct a. cbn in Hp. subst. congruence. }
  destruct (is_host host) eqn:Hh; cbn [negb]; cycle 1.
  { split; [done|]. intros [(_ & h & p & Hh' & _ & [Hp|Hp]) Hn]; rewrite Hn in Hp; injection Hp as -> ->; congruence. }
  destruct (supported_shape (host :: ps)) eqn:Hs; cbn [negb]; split; try done.
  - intros [= <-]. split; [|done]. split; [done|]. cbn.
    destruct ps as [|[] [|[] []]]; try done; cbn in Hs; exists host, port; apply negb_true_iff, Z.eqb_neq in Hs; auto.
  - destruct a. cbn. by intros [_ ->].
  - intros [(_ & h & p & _ & Hp0 & [Hp|Hp]) Hn]; rewrite Hn in Hp; injection Hp as -> ->; cbn in Hs;
      destruct (Z.eqb_spec p 0); done.
Qed.

Lemma announceable_plain a : announceable a → existsb is_p2p_circuit (protocols a) = false ∧
  ∀ p r, split_last (protocols a) ≠ Some (P2p p, r).
Proof.
  intros (_ & h & p & Hh & _ & [-> | ->]); (split; [by destruct h|]); intros q r; cbn; done.
Qed.

Lemma normalize_addr_exact l m a :
  normalize_addr l m = Ok a ↔ announceable a ∧ (m = a ∨ m = push a (P2p l)).
Proof.
  unfold normalize_addr. split.
  - destruct (existsb is_p2p_circuit (protocols m)); [done|]. intros (ps & Hps & Ha)%bind_res_ok.
    apply (normalize_shape l) in Ha as [Ha <-]. split; [done|]. destruct m as [mps], a as [aps]. cbn in *.
    destruct mps as [|x r _] using rev_ind; cbn in *; [by left; injection Hps as ->|].
    rewrite split_last_snoc in Hps. destruct x; try (by left; injection Hps as ->).
    case_bool_decide as Hf; [done|]. injection Hps as ->. right. unfold push. cbn.
    by destruct (decide (peer_id = l)) as [->|].
  - intros [Ha Hm]. pose proof (announceable_plain a Ha) as [Hc Hl]. destruct Hm as [-> | ->].
    + rewrite Hc. destruct (split_last (protocols a)) as [[x r]|] eqn:Hs; [destruct x|]; cbn;
        try (by apply normalize_shape). by destruct (Hl peer_id r).
    + cbn. rewrite existsb_app, Hc. cbn. rewrite split_last_snoc, bool_decide_false by tauto. cbn.
      by apply normalize_shape.
Qed.

Lemma normalize_addr_returns l m : returns (normalize_addr l m).
Proof. unfold normalize_addr, mbind, res_bind. repeat case_match; simplify_eq; done. Qed.

Lemma normalize_loop_spec l i addrs acc :
  NoDup acc →
  match normalize_loop l i addrs acc with
  | Ok out => NoDup out ∧ (∀ m, m ∈ addrs → ∃ a, normalize_addr l m = Ok a) ∧
      ∀ a, a ∈ out ↔ a ∈ acc ∨ ∃ m, m ∈ addrs ∧ normalize_addr l m = Ok a
  | Err e => ∃ pre post, addrs = pre ++ error_address e :: post ∧ error_index e = i + zlen pre ∧
      normalize_addr l (error_address e) = Err (error_reason e) ∧
      ∀ m, m ∈ pre → ∃ a, normalize_addr l m = Ok a
  | _ => False
  end.
Proof.
  revert i acc. induction addrs as [|m addrs IH]; intros i acc Hacc; cbn.
  { split_and!; [done|set_solver|set_solver]. }
  pose proof (normalize_addr_returns l m) as Hr. destruct (normalize_addr l m) as [v|e| |] eqn:Hm; try done; cycle 1.
  { exists [], addrs. split_and!; [done|cbn [error_index]; zlen_lia|done|set_solver]. }
  set (acc' := if bool_decide (v ∈ acc) then acc else acc ++ [v]).
  assert (NoDup acc' ∧ ∀ a, a ∈ acc' ↔ a ∈ acc ∨ a = v) as [Hnd Hin].
  { unfold acc'. case_bool_decide; (split; [|set_solver]); [done|]. apply NoDup_app. split_and!; [done|set_solver|].
    apply NoDup_singleton. }
  specialize (IH (i + 1) acc' Hnd). destruct (normalize_loop l (i + 1) addrs acc') as [out|e| |]; try done.
  - destruct IH as (H1 & H2 & H3). split_and!; [done| |].
    + intros m' [->|Hm']%elem_of_cons; [by exists v|auto].
    + intros a. rewrite H3, Hin. setoid_rewrite elem_of_cons. naive_solver congruence.
  - destruct IH as (pre & post & -> & Hi & He & Hpre). exists (m :: pre), post. split_and!; [done|zlen_lia|done|].
    intros m' [->|Hm']%elem_of_cons; [by exists v|auto].
Qed.

(** A relay announces exactly what it was told to announce, as a direct
    address without its own name: the accepted list has no duplicates and holds
    an address precisely when it is dialable over TCP or QUIC and was given
    with or without the relay's name at its end; a list with any other address
    is refused as a whole, and the error names the first such address. *)
Theorem announced_addrs_exact l addrs :
  match normalize_addrs l addrs with
  | Ok out => NoDup out ∧ (∀ m, m ∈ addrs → ∃ a, normalize_addr l m = Ok a) ∧
      ∀ a, a ∈ out ↔ announceable a ∧ (a ∈ addrs ∨ push a (P2p l) ∈ addrs)
  | Err e => ∃ pre post, addrs = pre ++ error_address e :: post ∧ error_index e = zlen pre ∧
      normalize_addr l (error_address e) = Err (error_reason e) ∧
      ∀ m, m ∈ pre → ∃ a, normalize_addr l m = Ok a
  | _ => False
  end.
Proof.
  pose proof (normalize_loop_spec l 0 addrs [] ltac:(apply NoDup_nil_2)) as Hs. unfold normalize_addrs.
  destruct (normalize_loop l 0 addrs []) as [out|e| |]; try done. destruct Hs as (H1 & H2 & H3).
  split_and!; [done|done|]. intros a. rewrite H3, elem_of_nil. setoid_rewrite normalize_addr_exact. naive_solver.
Qed.
End Address.
