(* ===== verification/RelayAgent.v ===== *)
(** The relay service, from [crates/relay-server/src/agent.rs] and
    [crates/relay-server/src/types.rs]: reservations, circuits, the HOP and
    STOP streams they are negotiated on, and the bytes they forward. The agent
    performs no I/O: it queues actions for its host, each with a token that the
    host echoes with the result. *)

From Stdlib Require Import Strings.Byte.
From S2P Require Import Prelude Text Deadline Proto RelayMessage Base58 PeerIdentity Multiaddr RelayAddress.
From S2P Require Import SansIo RelayServer Limiter Admission.

Definition HOP_PROTOCOL_ID : bytes := str "/libp2p/circuit/relay/0.2.0/hop".
Definition STOP_PROTOCOL_ID : bytes := str "/libp2p/circuit/relay/0.2.0/stop".

(** [ConnectionId], [StreamId] and [RelayServerToken] wrap a [u64]. *)
Record StreamKey := mkStreamKey { conn_id : Z; stream_id : Z }.

Definition stream_key_pair (k : StreamKey) : Z * Z := (conn_id k, stream_id k).
#[global] Instance StreamKey_eq_dec : EqDecision StreamKey.
Proof. solve_decision. Defined.
#[global] Program Instance StreamKey_countable : Countable StreamKey :=
  inj_countable' stream_key_pair (λ p, mkStreamKey p.1 p.2) _.
Next Obligation. by intros []. Qed.
#[global] Instance stream_key_pair_inj : Inj (=) (=) stream_key_pair.
Proof. intros [] []. by unfold stream_key_pair; intros [= -> ->]. Qed.
#[global] Instance StreamKey_btree_key : BTreeKey StreamKey := inj_btree_key stream_key_pair.

Inductive IpKey := V4 (b : bytes) | V6 (b : bytes).

Definition ip_key_pair (k : IpKey) : Z * (Z * Z) :=
  match k with V4 b => (0, bytes_key b) | V6 b => (1, bytes_key b) end.
#[global] Instance IpKey_eq_dec : EqDecision IpKey.
Proof. solve_decision. Defined.
#[global] Program Instance IpKey_countable : Countable IpKey :=
  inj_countable' (λ k, match k with V4 b => inl b | V6 b => inr b end)
    (λ s, match s with inl b => V4 b | inr b => V6 b end) _.
Next Obligation. by intros []. Qed.
#[global] Instance ip_key_pair_inj : Inj (=) (=) ip_key_pair.
Proof. intros [b|b] [c|c] Heq; injection Heq as Hl Hv; try done; f_equal; apply (inj bytes_key); unfold bytes_key; congruence. Qed.
#[global] Instance IpKey_btree_key : BTreeKey IpKey := inj_btree_key ip_key_pair.

Inductive ConnectionCloseCause := CauseTransport | CauseSuperseded.

Inductive ReservationCloseReason :=
  | Expired
  | ReservationConnectionClosed
  | ReservationSuperseded
  | ReservationInternalFailure.

Inductive CircuitDirection := SourceToDestination | DestinationToSource.
Inductive CircuitLeg := Source | Destination.

Record CircuitByteCounts := mkByteCounts {
  source_to_destination : Z;
  destination_to_source : Z;
}.

Inductive CircuitCloseReason :=
  | Eof
  | ByteLimit (direction : CircuitDirection)
  | DurationLimit
  | StreamReset (leg : CircuitLeg)
  | ForwardFailed (direction : CircuitDirection)
  | CircuitConnectionClosed (leg : CircuitLeg) (cause : ConnectionCloseCause)
  | CircuitInternalFailure.

Inductive RelayServerRuntimeErrorKind :=
  | ErrorOpenStream
  | ErrorSendStream
  | ErrorCloseStream
  | ErrorResetStream
  | InternalInvariant.

(** The context of a diagnostic. The source prints the responder's or the
    initiator's error into it; here it is the error itself. *)
Inductive Detail :=
  | DetailText (text : bytes)
  | HopRejectedInput (e : RelayError)
  | StopRejectedInput (e : RelayError).

Section Agent.
Context `{HashCrates Multihash} `{!EqDecision Multihash} `{!Countable Multihash}.
Abbreviation PeerId := (PeerIdentity.PeerId (Multihash := Multihash)).
Abbreviation Multiaddr := (Multiaddr.Multiaddr (Multihash := Multihash)).
Abbreviation Protocol := (Multiaddr.Protocol (Multihash := Multihash)).

(** The order of peer identifiers is that of the [multihash] crate. *)
Context `{!BTreeKey PeerId}.

Record RelayServerRuntimeError := mkRuntimeError {
  error_kind : RelayServerRuntimeErrorKind;
  error_peer_id : option PeerId;
  error_detail : Detail;
}.

Inductive RelayServerAction :=
  | OpenStream (token : Z) (peer_id : PeerId) (expected_conn_id : Z) (protocol_id : bytes)
  | SendStream (token : Z) (peer_id : PeerId) (stream : StreamKey) (data : bytes)
  | CloseStreamWrite (token : Z) (peer_id : PeerId) (stream : StreamKey)
  | ResetStream (token : Z) (peer_id : PeerId) (stream : StreamKey).

Definition action_token (a : RelayServerAction) : Z :=
  match a with
  | OpenStream token _ _ _ | SendStream token _ _ _ | CloseStreamWrite token _ _ | ResetStream token _ _ => token
  end.

Inductive RelayServerEvent :=
  | ReservationAccepted (peer_id : PeerId) (renewed : bool) (expires_unix_secs : option Z)
  | ReservationDenied (peer_id : PeerId) (status : Status)
  | ReservationClosed (peer_id : PeerId) (reason : ReservationCloseReason)
  | CircuitDenied (source_peer_id destination_peer_id : PeerId) (status : Status)
  | CircuitOpened (source_peer_id destination_peer_id : PeerId)
  | CircuitClosed (source_peer_id destination_peer_id : PeerId) (bytes : CircuitByteCounts)
      (reason : CircuitCloseReason)
  | RelayServerError (e : RelayServerRuntimeError).

(** What the swarm reports; [OtherSwarmEvent] stands for the kinds the service
    does not look at. *)
Inductive SwarmEvent :=
  | ConnectionEstablished (peer_id : PeerId) (conn_id : Z)
  | ConnectionClosed (peer_id : PeerId) (conn_id : Z) (cause : ConnectionCloseCause)
  | StreamReady (peer_id : PeerId) (conn_id stream_id : Z) (protocol_id : bytes) (initiated_locally : bool)
  | StreamData (peer_id : PeerId) (conn_id stream_id : Z) (data : bytes)
  | StreamRemoteWriteClosed (peer_id : PeerId) (conn_id stream_id : Z)
  | StreamClosed (peer_id : PeerId) (conn_id stream_id : Z)
  | OtherSwarmEvent.

Record Connection := mkConnection {
  connection_peer_id : PeerId;
  address : option Multiaddr;
  connection_is_circuit : bool;
}.

Record ReservationRecord := mkReservationRecord {
  reservation_conn_id : Z;
  reservation_deadline_ms : Z;
  reservation_expires : option Z;
}.

Record PendingReservation := mkPendingReservation {
  pr_stream : StreamKey;
  pr_peer_id : PeerId;
  pr_conn_id : Z;
  pr_renewed : bool;
  pr_deadline_ms : Z;
  pr_expires_unix_secs : option Z;
}.

Inductive SendEffect :=
  | CompleteHop (stream : StreamKey)
  | CommitReservation (pending : PendingReservation)
  | CommitCircuit (source_stream : StreamKey)
  | StopRequest (source_stream : StreamKey)
  | Forward (source_stream : StreamKey) (direction : CircuitDirection) (bytes : Z).

Inductive PendingOperation :=
  | OpenStop (source_stream : StreamKey) (peer_id : PeerId) (expected_conn_id : Z)
  | Send (peer_id : PeerId) (effect : SendEffect)
  | Close (peer_id : PeerId) (stream : StreamKey) (circuit : option (StreamKey * CircuitLeg))
  | Reset_ (peer_id : PeerId).

Record HopWorker := mkHopWorker {
  hw_peer_id : PeerId;
  responder : HopResponder (Multihash := Multihash);
  hw_deadline_ms : option Z;
  request_known : bool;
  hw_is_circuit : bool;
}.

Record PendingCircuit := mkPendingCircuit {
  pc_source_peer_id : PeerId;
  pc_destination_peer_id : PeerId;
  destination_conn_id : Z;
  stop_stream : option StreamKey;
  stop : option StopInitiator;
  stop_deadline_ms : option Z;
  source_pipelined : bytes;
  destination_pipelined : bytes;
  pc_source_eof : bool;
  pc_destination_eof : bool;
}.

Record Circuit := mkCircuit {
  source_peer_id : PeerId;
  destination_peer_id : PeerId;
  source_stream : StreamKey;
  destination_stream : StreamKey;
  circuit_deadline_ms : option Z;
  circuit_bytes : CircuitByteCounts;
  source_eof : bool;
  destination_eof : bool;
  source_write_closed : bool;
  destination_write_closed : bool;
  source_to_destination_in_flight : bool;
  destination_to_source_in_flight : bool;
}.

Record RelayServerAgent := mkAgent {
  local_peer_id : PeerId;
  agent_config : RelayServerConfig;
  accepting : bool;
  explicit_addrs : option (list Multiaddr);
  confirmed_addrs : list Multiaddr;
  listener_addrs : list Multiaddr;
  connections : gmap Z Connection;
  reservations : gmap PeerId ReservationRecord;
  hop_workers : gmap StreamKey HopWorker;
  rejected_hop_streams : gmap StreamKey PeerId;
  pending_circuits : gmap StreamKey PendingCircuit;
  stop_to_source : gmap StreamKey StreamKey;
  circuits : gmap StreamKey Circuit;
  actions : list RelayServerAction;
  events : list RelayServerEvent;
  pending_operations : gmap Z PendingOperation;
  next_token : Z;
  last_event_tick_ms : option Z;
  reservation_limiters : AdmissionLimiters (PeerId := PeerId) (IpKey := IpKey);
  circuit_limiters : AdmissionLimiters (PeerId := PeerId) (IpKey := IpKey);
}.

(** Methods that return a [Result] only do so for announce addresses. *)
Abbreviation A := (M RelayServerAgent Empty_set).

Definition RelayServerAgent_new (local : PeerId) (config : RelayServerConfig)
    : res RelayServerConfigError RelayServerAgent :=
  _ ← validate config;
  mret {|
    local_peer_id := local;
    reservation_limiters :=
      AdmissionLimiters_new (reservation_rate_limit_per_peer config) (reservation_rate_limit_per_ip config);
    circuit_limiters :=
      AdmissionLimiters_new (circuit_rate_limit_per_peer config) (circuit_rate_limit_per_ip config);
    agent_config := config;
    accepting := true;
    explicit_addrs := None;
    confirmed_addrs := [];
    listener_addrs := [];
    connections := ∅;
    reservations := ∅;
    hop_workers := ∅;
    rejected_hop_streams := ∅;
    pending_circuits := ∅;
    stop_to_source := ∅;
    circuits := ∅;
    actions := [];
    events := [];
    pending_operations := ∅;
    next_token := 1;
    last_event_tick_ms := None;
  |}.

(** ** Writing to one field *)

Definition push_event (e : RelayServerEvent) : A unit :=
  modify (λ s, {| s with events := events s ++ [e] |}).
Definition push_action (a : RelayServerAction) : A unit :=
  modify (λ s, {| s with actions := actions s ++ [a] |}).
Definition put_worker (k : StreamKey) (w : HopWorker) : A unit :=
  modify (λ s, {| s with hop_workers := <[k := w]> (hop_workers s) |}).
Definition drop_worker (k : StreamKey) : A unit :=
  modify (λ s, {| s with hop_workers := delete k (hop_workers s) |}).
Definition put_pending (k : StreamKey) (c : PendingCircuit) : A unit :=
  modify (λ s, {| s with pending_circuits := <[k := c]> (pending_circuits s) |}).
Definition drop_pending (k : StreamKey) : A unit :=
  modify (λ s, {| s with pending_circuits := delete k (pending_circuits s) |}).
Definition put_circuit (k : StreamKey) (c : Circuit) : A unit :=
  modify (λ s, {| s with circuits := <[k := c]> (circuits s) |}).
Definition drop_circuit (k : StreamKey) : A unit :=
  modify (λ s, {| s with circuits := delete k (circuits s) |}).
Definition put_reservation (p : PeerId) (r : ReservationRecord) : A unit :=
  modify (λ s, {| s with reservations := <[p := r]> (reservations s) |}).
Definition drop_reservation (p : PeerId) : A unit :=
  modify (λ s, {| s with reservations := delete p (reservations s) |}).
Definition put_operation (t : Z) (o : PendingOperation) : A unit :=
  modify (λ s, {| s with pending_operations := <[t := o]> (pending_operations s) |}).
Definition drop_operation (t : Z) : A unit :=
  modify (λ s, {| s with pending_operations := delete t (pending_operations s) |}).
Definition drop_stop_stream (k : StreamKey) : A unit :=
  modify (λ s, {| s with stop_to_source := delete k (stop_to_source s) |}).
Definition put_rejected (k : StreamKey) (p : PeerId) : A unit :=
  modify (λ s, {| s with rejected_hop_streams := <[k := p]> (rejected_hop_streams s) |}).

(** ** Queueing *)

(** The loop turns at most twice: the number after [0] is [1]. *)
Fixpoint token_loop (fuel : nat) : A Z :=
  match fuel with
  | O => lift Diverge
  | S fuel =>
      t ← gets next_token;
      _ ← modify (λ s, {| s with next_token := wrapping_add u64_max t 1 |});
      if negb (t =? 0) then mret t else token_loop fuel
  end.
Definition token : A Z := token_loop 2.

Definition runtime_error (kind : RelayServerRuntimeErrorKind) (peer_id : option PeerId) (detail : Detail) : A unit :=
  push_event (RelayServerError (mkRuntimeError kind peer_id detail)).

Definition queue_send (peer_id : PeerId) (stream : StreamKey) (data : bytes) (effect : SendEffect) : A unit :=
  t ← token;
  _ ← put_operation t (Send peer_id effect);
  push_action (SendStream t peer_id stream data).

Definition queue_close_for (peer_id : PeerId) (stream : StreamKey) (circuit : option (StreamKey * CircuitLeg)) : A unit :=
  t ← token;
  _ ← put_operation t (Close peer_id stream circuit);
  push_action (CloseStreamWrite t peer_id stream).
Definition queue_close (peer_id : PeerId) (stream : StreamKey) : A unit := queue_close_for peer_id stream None.
Definition queue_circuit_close (peer_id : PeerId) (stream src : StreamKey) (leg : CircuitLeg) : A unit :=
  queue_close_for peer_id stream (Some (src, leg)).

Definition queue_reset (peer_id : PeerId) (stream : StreamKey) : A unit :=
  t ← token;
  _ ← put_operation t (Reset_ peer_id);
  push_action (ResetStream t peer_id stream).

(** ** Cancelling *)

Definition cancel_operations (tokens : list Z) : A unit :=
  _ ← for_each drop_operation tokens;
  modify (λ s, {| s with actions := filter (λ a, action_token a ∉ tokens) (actions s) |}).

(** The tokens of the operations that a test selects. *)
Definition tokens_of (f : PendingOperation → bool) (s : RelayServerAgent) : list Z :=
  omap (λ '(t, o), if f o then Some t else None) (btree_iter (pending_operations s)).

Definition is_control_op (src : StreamKey) (o : PendingOperation) : bool :=
  match o with
  | OpenStop stream _ _ => bool_decide (stream = src)
  | Send _ (StopRequest stream) | Send _ (CommitCircuit stream) => bool_decide (stream = src)
  | _ => false
  end.
Definition cancel_pending_control_ops (src : StreamKey) : A unit :=
  tokens ← gets (tokens_of (is_control_op src));
  cancel_operations tokens.

Definition is_hop_op (stream : StreamKey) (o : PendingOperation) : bool :=
  match o with
  | Send _ (CommitReservation pending) => bool_decide (pr_stream pending = stream)
  | Send _ (CompleteHop operation_stream) => bool_decide (operation_stream = stream)
  | Close _ operation_stream _ => bool_decide (operation_stream = stream)
  | _ => false
  end.
Definition cancel_pending_hop_ops (stream : StreamKey) : A unit :=
  tokens ← gets (tokens_of (is_hop_op stream));
  cancel_operations tokens.

Definition is_forward_op (src : StreamKey) (o : PendingOperation) : bool :=
  match o with Send _ (Forward stream _ _) => bool_decide (stream = src) | _ => false end.
Definition cancel_forward_ops (src : StreamKey) : A unit :=
  tokens ← gets (tokens_of (is_forward_op src));
  cancel_operations tokens.

Definition complete_hop (stream : StreamKey) : A unit :=
  worker ← gets (λ s, hop_workers s !! stream);
  match worker with
  | Some worker => put_worker stream {| worker with hw_deadline_ms := None |}
  | None => mret tt
  end.

(** ** Circuits *)

Definition reset_legs (reason : CircuitCloseReason) : bool * bool :=
  match reason with
  | Eof => (false, false)
  | StreamReset Source | CircuitConnectionClosed Source _ => (false, true)
  | StreamReset Destination | CircuitConnectionClosed Destination _ => (true, false)
  | _ => (true, true)
  end.

Definition close_circuit (src : StreamKey) (reason : CircuitCloseReason) : A unit :=
  circuit ← gets (λ s, circuits s !! src);
  match circuit with
  | None => mret tt
  | Some circuit =>
      _ ← drop_circuit src;
      _ ← drop_worker src;
      _ ← drop_stop_stream (destination_stream circuit);
      _ ← cancel_forward_ops src;
      let '(reset_source, reset_destination) := reset_legs reason in
      _ ← (if reset_source : bool then queue_reset (source_peer_id circuit) (source_stream circuit) else mret tt);
      _ ← (if reset_destination : bool
           then queue_reset (destination_peer_id circuit) (destination_stream circuit) else mret tt);
      push_event (CircuitClosed (source_peer_id circuit) (destination_peer_id circuit) (circuit_bytes circuit) reason)
  end.

Definition finished (c : Circuit) : bool :=
  source_eof c && destination_eof c && source_write_closed c && destination_write_closed c &&
  negb (source_to_destination_in_flight c) && negb (destination_to_source_in_flight c).

Definition finish_eof_if_drained (src : StreamKey) : A unit :=
  circuit ← gets (λ s, circuits s !! src);
  if match circuit with Some circuit => finished circuit | None => false end
  then close_circuit src Eof else mret tt.

Definition queue_forward (src : StreamKey) (direction : CircuitDirection) (data : bytes) : A unit :=
  match data with
  | [] => mret tt
  | _ =>
      circuit ← gets (λ s, circuits s !! src);
      match circuit with
      | None => mret tt
      | Some circuit =>
          let in_flight :=
            match direction with
            | SourceToDestination => source_to_destination_in_flight circuit
            | DestinationToSource => destination_to_source_in_flight circuit
            end in
          if in_flight : bool then
            _ ← close_circuit src CircuitInternalFailure;
            runtime_error InternalInvariant None
              (DetailText (str "same-direction forwarding send was not echoed before new input"))
          else
            _ ← put_circuit src
                  match direction with
                  | SourceToDestination => {| circuit with source_to_destination_in_flight := true |}
                  | DestinationToSource => {| circuit with destination_to_source_in_flight := true |}
                  end;
            let '(peer_id, stream) :=
              match direction with
              | SourceToDestination => (destination_peer_id circuit, destination_stream circuit)
              | DestinationToSource => (source_peer_id circuit, source_stream circuit)
              end in
            queue_send peer_id stream data (Forward src direction (Z.min (zlen data) u64_max))
      end
  end.

Definition forward_accepted (src : StreamKey) (direction : CircuitDirection) (n : Z) : A unit :=
  circuit ← gets (λ s, circuits s !! src);
  match circuit with
  | None => mret tt
  | Some circuit =>
      let counts := circuit_bytes circuit in
      let '(circuit, total) :=
        match direction with
        | SourceToDestination =>
            let total := saturating_add u64_max (source_to_destination counts) n in
            ({| circuit with source_to_destination_in_flight := false;
                             circuit_bytes := {| counts with source_to_destination := total |} |}, total)
        | DestinationToSource =>
            let total := saturating_add u64_max (destination_to_source counts) n in
            ({| circuit with destination_to_source_in_flight := false;
                             circuit_bytes := {| counts with destination_to_source := total |} |}, total)
        end in
      _ ← put_circuit src circuit;
      config ← gets agent_config;
      if negb (max_circuit_bytes config =? 0) && (max_circuit_bytes config <? total)
      then close_circuit src (ByteLimit direction)
      else finish_eof_if_drained src
  end.

Definition circuit_eof (src : StreamKey) (leg : CircuitLeg) : A unit :=
  circuit ← gets (λ s, circuits s !! src);
  match circuit with
  | None => mret tt
  | Some circuit =>
      match leg with
      | Source =>
          if source_eof circuit then mret tt
          else
            _ ← put_circuit src {| circuit with source_eof := true |};
            _ ← queue_circuit_close (destination_peer_id circuit) (destination_stream circuit) src Destination;
            finish_eof_if_drained src
      | Destination =>
          if destination_eof circuit then mret tt
          else
            _ ← put_circuit src {| circuit with destination_eof := true |};
            _ ← queue_circuit_close (source_peer_id circuit) (source_stream circuit) src Source;
            finish_eof_if_drained src
      end
  end.

Definition circuit_close_accepted (src : StreamKey) (leg : CircuitLeg) : A unit :=
  circuit ← gets (λ s, circuits s !! src);
  match circuit with
  | None => mret tt
  | Some circuit =>
      _ ← put_circuit src
            match leg with
            | Source => {| circuit with source_write_closed := true |}
            | Destination => {| circuit with destination_write_closed := true |}
            end;
      finish_eof_if_drained src
  end.

Definition commit_circuit (src : StreamKey) (now : Now) : A unit :=
  pending ← gets (λ s, pending_circuits s !! src);
  match pending with
  | None => mret tt
  | Some pending =>
      _ ← drop_pending src;
      match stop_stream pending with
      | None => mret tt
      | Some destination =>
          config ← gets agent_config;
          let deadline_ms :=
            if negb (max_circuit_duration_secs config =? 0)
            then Some (saturating_add u64_max (monotonic_ms now)
                         (Z.min u64_max (max_circuit_duration_secs config * 1000)))
            else None in
          _ ← put_circuit src {|
                source_peer_id := pc_source_peer_id pending;
                destination_peer_id := pc_destination_peer_id pending;
                source_stream := src;
                destination_stream := destination;
                circuit_deadline_ms := deadline_ms;
                circuit_bytes := mkByteCounts 0 0;
                source_eof := false;
                destination_eof := false;
                source_write_closed := false;
                destination_write_closed := false;
                source_to_destination_in_flight := false;
                destination_to_source_in_flight := false |};
          _ ← push_event (CircuitOpened (pc_source_peer_id pending) (pc_destination_peer_id pending));
          _ ← match source_pipelined pending with
              | [] => mret tt
              | data => queue_forward src SourceToDestination data
              end;
          _ ← match destination_pipelined pending with
              | [] => mret tt
              | data => queue_forward src DestinationToSource data
              end;
          _ ← (if pc_source_eof pending then circuit_eof src Source else mret tt);
          if pc_destination_eof pending then circuit_eof src Destination else mret tt
      end
  end.

(** ** Feeding the protocol machines *)

(** A machine run in place: what it did stays done, its error is returned. *)
Definition feed_hop (key : StreamKey) (input : HopResponderInput) : A bool :=
  worker ← gets (λ s, hop_workers s !! key);
  match worker with
  | None => mret false
  | Some worker =>
      let '(r, result) := handle_input input (responder worker) in
      _ ← put_worker key {| worker with responder := r |};
      match result with
      | Ok _ => mret true
      | Err error =>
          _ ← runtime_error InternalInvariant (Some (hw_peer_id worker)) (HopRejectedInput error);
          mret false
      | Panic => lift Panic
      | Diverge => lift Diverge
      end
  end.

Definition feed_stop (src : StreamKey) (input : StopInitiatorInput) : A bool :=
  circuit ← gets (λ s, pending_circuits s !! src);
  match circuit with
  | None => mret false
  | Some circuit =>
      match stop circuit with
      | None => mret false
      | Some machine =>
          let '(m, result) := handle_input input machine in
          _ ← put_pending src {| circuit with stop := Some m |};
          match result with
          | Ok _ => mret true
          | Err error =>
              _ ← runtime_error InternalInvariant (Some (pc_source_peer_id circuit)) (StopRejectedInput error);
              mret false
          | Panic => lift Panic
          | Diverge => lift Diverge
          end
      end
  end.

(** [self.hop_workers.get_mut(&key).and_then(|worker| worker.responder.poll_output())]. *)
Definition poll_hop (key : StreamKey) : A (option HopResponderOutput) :=
  worker ← gets (λ s, hop_workers s !! key);
  match worker with
  | None => mret None
  | Some worker =>
      let '(r, output) := poll_output (responder worker) in
      _ ← put_worker key {| worker with responder := r |};
      match output with
      | Ok output => mret output
      | Err _ => mret None
      | Panic => lift Panic
      | Diverge => lift Diverge
      end
  end.

Definition poll_stop (src : StreamKey) : A (option StopInitiatorOutput) :=
  circuit ← gets (λ s, pending_circuits s !! src);
  match circuit with
  | None => mret None
  | Some circuit =>
      match stop circuit with
      | None => mret None
      | Some machine =>
          let '(m, output) := poll_output machine in
          _ ← put_pending src {| circuit with stop := Some m |};
          match output with
          | Ok output => mret output
          | Err _ => mret None
          | Panic => lift Panic
          | Diverge => lift Diverge
          end
      end
  end.

(** ** Admission *)

(** An IPv4 address mapped into IPv6 counts as the IPv4 address. *)
Definition v4_mapped : bytes := replicate 10 x00 ++ [xff; xff].
Definition ip_of (p : Protocol) : option IpKey :=
  match p with
  | Ip4 b => Some (V4 b)
  | Ip6 b => if bool_decide (take 12 b = v4_mapped) then Some (V4 (drop 12 b)) else Some (V6 b)
  | _ => None
  end.
Definition first_ip (m : Multiaddr) : option IpKey := head (omap ip_of (protocols m)).

Definition connection_ip (conn : Z) (s : RelayServerAgent) : option IpKey :=
  connection ← connections s !! conn;
  m ← address connection;
  first_ip m.

(** A limiter has no error to report. *)
Definition consume_reservation_limits (peer_id : PeerId) (conn now_ms : Z) : A bool :=
  ip ← gets (connection_ip conn);
  zoom reservation_limiters (λ l s, {| s with reservation_limiters := l |}) (admission_consume peer_id ip now_ms).
Definition consume_circuit_limits (peer_id : PeerId) (conn now_ms : Z) : A bool :=
  ip ← gets (connection_ip conn);
  zoom circuit_limiters (λ l s, {| s with circuit_limiters := l |}) (admission_consume peer_id ip now_ms).

Definition selected_addrs (s : RelayServerAgent) : list Multiaddr :=
  match explicit_addrs s with
  | Some addrs => addrs
  | None => match confirmed_addrs s with [] => listener_addrs s | addrs => addrs end
  end.

(** [config.max_circuit_duration_secs as u32] and [max_circuit_bytes]. *)
Definition circuit_limit (c : RelayServerConfig) : Limit :=
  RelayMessage.mkLimit (Some (max_circuit_duration_secs c mod (u32_max + 1))) (Some (max_circuit_bytes c)).

(** The longest beginning of the addresses that fits in one message; one
    address is dropped in each round. *)
Fixpoint wire_loop (fuel : nat) (expires : option Z) (limit : Limit) (addrs : list bytes)
    : res Empty_set (option (Reservation * Limit)) :=
  match split_last addrs with
  | None => mret None
  | Some (_, shorter) =>
      let reservation := mkReservation expires addrs None in
      match encode_hop_status StatusOk (Some reservation) (Some limit) with
      | Ok _ => mret (Some (reservation, limit))
      | Err _ => match fuel with O => Diverge | S fuel => wire_loop fuel expires limit shorter end
      | Panic => Panic
      | Diverge => Diverge
      end
  end.
Definition reservation_wire (expires : option Z) (s : RelayServerAgent) : res Empty_set (option (Reservation * Limit)) :=
  let addrs := (λ m, multiaddr_to_bytes (push m (P2p (local_peer_id s)))) <$> selected_addrs s in
  wire_loop (length addrs) expires (circuit_limit (agent_config s)) addrs.

Definition is_commit_for (peer_id : PeerId) (o : PendingOperation) : bool :=
  match o with Send _ (CommitReservation pending) => bool_decide (pr_peer_id pending = peer_id) | _ => false end.
Definition is_initial_commit (o : PendingOperation) : bool :=
  match o with Send _ (CommitReservation pending) => negb (pr_renewed pending) | _ => false end.

Definition decide_reservation (key : StreamKey) (now : Now) : A unit :=
  worker ← gets (λ s, hop_workers s !! key);
  match worker with
  | None => mret tt
  | Some worker =>
      let peer_id := hw_peer_id worker in
      s ← gets id;
      let renewed :=
        match reservations s !! peer_id with
        | Some r => reservation_conn_id r =? conn_id key
        | None => false
        end in
      let pending_for_peer := negb (map_count (λ _, is_commit_for peer_id) (pending_operations s) =? 0) in
      let pending_initial := map_count (λ _, is_initial_commit) (pending_operations s) in
      let duration := reservation_duration_secs (agent_config s) in
      let deadline_ms := saturating_add u64_max (monotonic_ms now) (Z.min u64_max (duration * 1000)) in
      let expires := (λ unix, saturating_add u64_max unix duration) <$> unix_seconds now in
      wire ← (if accepting s then reads (reservation_wire expires) else mret None);
      status ← match wire with
               | None => mret (Some ReservationRefused)
               | Some _ =>
                   ok ← consume_reservation_limits peer_id (conn_id key) (monotonic_ms now);
                   if negb ok then mret (Some ResourceLimitExceeded)
                   else if pending_for_peer ||
                     (negb renewed &&
                      (max_reservations (agent_config s) <=?
                         saturating_add usize_max (Z.of_nat (size (reservations s))) pending_initial))
                   then mret (Some ResourceLimitExceeded)
                   else mret None
               end;
      match status with
      | Some status =>
          _ ← push_event (ReservationDenied peer_id status);
          _ ← feed_hop key (HRReject status);
          mret tt
      | None =>
          '(reservation, limit) ← lift (expect wire);
          fed ← feed_hop key (AcceptReservation reservation (Some limit));
          if negb fed then mret tt
          else
            worker ← gets (λ s, hop_workers s !! key);
            match worker with
            | None => mret tt
            | Some _ =>
                output ← poll_hop key;
                match output with
                | Some (HROutbound data) =>
                    queue_send peer_id key data (CommitReservation {|
                      pr_stream := key;
                      pr_peer_id := peer_id;
                      pr_conn_id := conn_id key;
                      pr_renewed := renewed;
                      pr_deadline_ms := deadline_ms;
                      pr_expires_unix_secs := expires |})
                | _ =>
                    runtime_error InternalInvariant (Some peer_id)
                      (DetailText (str "accepted reservation produced no response"))
                end
            end
      end
  end.

Definition deny_connect (key : StreamKey) (destination : PeerId) (status : Status) : A unit :=
  worker ← gets (λ s, hop_workers s !! key);
  match worker with
  | None => mret tt
  | Some worker =>
      _ ← push_event (CircuitDenied (hw_peer_id worker) destination status);
      _ ← feed_hop key (HRReject status);
      mret tt
  end.

Definition pending_involves (p : PeerId) (_ : StreamKey) (c : PendingCircuit) : bool :=
  bool_decide (pc_source_peer_id c = p) || bool_decide (pc_destination_peer_id c = p).
Definition circuit_involves (p : PeerId) (_ : StreamKey) (c : Circuit) : bool :=
  bool_decide (source_peer_id c = p) || bool_decide (destination_peer_id c = p).
Definition peer_circuit_count (p : PeerId) (s : RelayServerAgent) : Z :=
  map_count (pending_involves p) (pending_circuits s) + map_count (circuit_involves p) (circuits s).

Definition awaits_stop_on (conn : option Z) (_ : StreamKey) (c : PendingCircuit) : bool :=
  bool_decide (Some (destination_conn_id c) = conn) && bool_decide (is_Some (stop_deadline_ms c)).

Definition decide_connect (key : StreamKey) (destination : PeerId) (now : Now) : A unit :=
  worker ← gets (λ s, hop_workers s !! key);
  match worker with
  | None => mret tt
  | Some worker =>
      let source := hw_peer_id worker in
      destination_conn ← gets (λ s, reservation_conn_id <$> reservations s !! destination);
      closed ← gets (λ s, negb (accepting s) ||
        match connections s !! conn_id key with Some c => connection_is_circuit c | None => false end);
      status ←
        (if closed : bool then mret (Some PermissionDenied)
         else
           ok ← consume_circuit_limits source (conn_id key) (monotonic_ms now);
           s ← gets id;
           let config := agent_config s in
           if negb ok
              || (max_circuits_per_peer config <=? peer_circuit_count source s)
              || (bool_decide (source ≠ destination) &&
                  (max_circuits_per_peer config <=? peer_circuit_count destination s))
              || (max_circuits config <=?
                    saturating_add usize_max (Z.of_nat (size (pending_circuits s))) (Z.of_nat (size (circuits s))))
           then mret (Some ResourceLimitExceeded)
           else if match destination_conn with
                   | None => true
                   | Some conn =>
                       match connections s !! conn with
                       | None => true
                       | Some c => bool_decide (connection_peer_id c ≠ destination)
                       end
                   end
           then mret (Some NoReservation)
           else if max_pending_stop_requests_per_connection config <=?
                     map_count (awaits_stop_on destination_conn) (pending_circuits s)
           then mret (Some ResourceLimitExceeded)
           else mret None);
      match status with
      | Some status => deny_connect key destination status
      | None =>
          dest_conn ← lift (expect destination_conn);
          config ← gets agent_config;
          _ ← put_pending key {|
                pc_source_peer_id := source;
                pc_destination_peer_id := destination;
                destination_conn_id := dest_conn;
                stop_stream := None;
                stop := None;
                stop_deadline_ms :=
                  Some (saturating_add u64_max (monotonic_ms now) (control_stream_timeout_ms config));
                source_pipelined := [];
                destination_pipelined := [];
                pc_source_eof := false;
                pc_destination_eof := false |};
          t ← token;
          _ ← put_operation t (OpenStop key destination dest_conn);
          push_action (OpenStream t destination dest_conn STOP_PROTOCOL_ID)
      end
  end.

(** ** Giving up on a circuit that is being set up *)

Definition abort_pending_connect (src : StreamKey) : A unit :=
  circuit ← gets (λ s, pending_circuits s !! src);
  match circuit with
  | None => mret tt
  | Some circuit =>
      _ ← drop_pending src;
      _ ← cancel_pending_control_ops src;
      match stop_stream circuit with
      | None => mret tt
      | Some stream =>
          _ ← drop_stop_stream stream;
          queue_reset (pc_destination_peer_id circuit) stream
      end
  end.

Definition abort_pending_connect_both (src : StreamKey) : A unit :=
  _ ← abort_pending_connect src;
  worker ← gets (λ s, hop_workers s !! src);
  match worker with
  | None => mret tt
  | Some worker =>
      _ ← drop_worker src;
      queue_reset (hw_peer_id worker) src
  end.

Definition append_pending_payload (src : StreamKey) (direction : CircuitDirection) (data : bytes) : A unit :=
  circuit ← gets (λ s, pending_circuits s !! src);
  match circuit with
  | None => mret tt
  | Some circuit =>
      let buffer :=
        match direction with
        | SourceToDestination => source_pipelined circuit
        | DestinationToSource => destination_pipelined circuit
        end in
      if match checked_add usize_max (zlen buffer) (zlen data) with
         | Some len => len <=? MAX_PENDING_BRIDGE_SIZE
         | None => false
         end
      then
        put_pending src
          match direction with
          | SourceToDestination => {| circuit with source_pipelined := buffer ++ data |}
          | DestinationToSource => {| circuit with destination_pipelined := buffer ++ data |}
          end
      else
        let peer_id :=
          match direction with
          | SourceToDestination => pc_source_peer_id circuit
          | DestinationToSource => pc_destination_peer_id circuit
          end in
        _ ← abort_pending_connect_both src;
        runtime_error InternalInvariant (Some peer_id)
          (DetailText (str "pending circuit payload exceeded the 64 KiB directional bound"))
  end.

(** ** Draining the protocol machines *)

(** [get_mut(&key).map(|worker| { worker.request_known = true; .. })]. *)
Definition mark_known (key : StreamKey) : A (option HopWorker) :=
  worker ← gets (λ s, hop_workers s !! key);
  match worker with
  | None => mret None
  | Some worker => _ ← put_worker key {| worker with request_known := true |}; mret (Some worker)
  end.

(** One round of the loop of [drain_hop]; [false] is its [break]. *)
Definition drain_hop_round (key : StreamKey) (now : Now) (output : HopResponderOutput) : A bool :=
  match output with
  | HRRequest Reserve =>
      worker ← mark_known key;
      match worker with
      | None => mret false
      | Some worker =>
          _ ← (if hw_is_circuit worker then
                 _ ← push_event (ReservationDenied (hw_peer_id worker) PermissionDenied);
                 _ ← feed_hop key (HRReject PermissionDenied);
                 mret tt
               else decide_reservation key now);
          mret true
      end
  | HRRequest (Connect destination) =>
      worker ← mark_known key;
      match worker with
      | None => mret false
      | Some worker =>
          _ ← (if hw_is_circuit worker then deny_connect key destination PermissionDenied
               else decide_connect key destination now);
          mret true
      end
  | HROutbound data =>
      worker ← gets (λ s, hop_workers s !! key);
      match worker with
      | None => mret false
      | Some worker => _ ← queue_send (hw_peer_id worker) key data (CompleteHop key); mret true
      end
  | HRCloseWrite =>
      worker ← gets (λ s, hop_workers s !! key);
      match worker with
      | None => mret false
      | Some worker => _ ← queue_close (hw_peer_id worker) key; mret true
      end
  | HRReset =>
      worker ← gets (λ s, hop_workers s !! key);
      match worker with
      | None => mret false
      | Some worker => _ ← queue_reset (hw_peer_id worker) key; mret true
      end
  | HRBridgeData data =>
      s ← gets id;
      _ ← (if bool_decide (is_Some (pending_circuits s !! key))
           then append_pending_payload key SourceToDestination data
           else if bool_decide (is_Some (circuits s !! key))
           then queue_forward key SourceToDestination data
           else mret tt);
      mret true
  end.

Fixpoint drain_hop_loop (fuel : nat) (key : StreamKey) (now : Now) : A unit :=
  output ← poll_hop key;
  match output with
  | None => mret tt
  | Some output =>
      match fuel with
      | O => lift Diverge
      | S fuel =>
          go_on ← drain_hop_round key now output;
          if go_on : bool then drain_hop_loop fuel key now else mret tt
      end
  end.

Definition hop_outputs (key : StreamKey) (s : RelayServerAgent) : list HopResponderOutput :=
  match hop_workers s !! key with Some w => hr_outputs (responder w) | None => [] end.

(** A request is answered with at most two outputs, neither a request. *)
Definition drain_hop (key : StreamKey) (now : Now) : A unit :=
  outputs ← gets (hop_outputs key);
  drain_hop_loop (3 * length outputs) key now.

Definition fail_pending_connect (src : StreamKey) (status : Status) : A unit :=
  circuit ← gets (λ s, pending_circuits s !! src);
  match circuit with
  | None => mret tt
  | Some circuit =>
      _ ← drop_pending src;
      _ ← cancel_pending_control_ops src;
      _ ← match stop_stream circuit with
          | None => mret tt
          | Some stream =>
              _ ← drop_stop_stream stream;
              queue_reset (pc_destination_peer_id circuit) stream
          end;
      _ ← deny_connect src (pc_destination_peer_id circuit) status;
      drain_hop src (Now_from_millis 0)
  end.

(** One round of the loop of [drain_stop]; [false] is its [return]. *)
Definition drain_stop_round (src : StreamKey) (now : Now) (output : StopInitiatorOutput) : A bool :=
  match output with
  | SIOutcome SIAccepted =>
      circuit ← gets (λ s, pending_circuits s !! src);
      _ ← match circuit with
          | Some circuit => put_pending src {| circuit with stop_deadline_ms := None |}
          | None => mret tt
          end;
      config ← gets agent_config;
      fed ← feed_hop src (AcceptConnect (Some (circuit_limit config)));
      if negb fed then _ ← fail_pending_connect src ConnectionFailed; mret false
      else
        worker ← gets (λ s, hop_workers s !! src);
        match worker with
        | None => _ ← fail_pending_connect src ConnectionFailed; mret false
        | Some worker =>
            response ← poll_hop src;
            match response with
            | Some (HROutbound data) =>
                _ ← queue_send (hw_peer_id worker) src data (CommitCircuit src);
                _ ← drain_hop src now;
                mret true
            | _ => _ ← fail_pending_connect src ConnectionFailed; mret false
            end
        end
  | SIOutcome outcome => _ ← fail_pending_connect src (outcome_hop_status outcome); mret false
  | SIBridgeData data => _ ← append_pending_payload src DestinationToSource data; mret true
  | SIOutbound data =>
      circuit ← gets (λ s, pending_circuits s !! src);
      match circuit with
      | None => mret true
      | Some circuit =>
          stream ← lift (expect (stop_stream circuit));
          _ ← queue_send (pc_destination_peer_id circuit) stream data (StopRequest src);
          mret true
      end
  | SICloseWrite =>
      circuit ← gets (λ s, pending_circuits s !! src);
      match circuit with
      | None => mret true
      | Some circuit =>
          stream ← lift (expect (stop_stream circuit));
          _ ← queue_close (pc_destination_peer_id circuit) stream;
          mret true
      end
  | SIReset =>
      circuit ← gets (λ s, pending_circuits s !! src);
      match circuit with
      | None => mret true
      | Some circuit =>
          stream ← lift (expect (stop_stream circuit));
          _ ← queue_reset (pc_destination_peer_id circuit) stream;
          mret true
      end
  end.

Fixpoint drain_stop_loop (fuel : nat) (src : StreamKey) (now : Now) : A unit :=
  output ← poll_stop src;
  match output with
  | None => mret tt
  | Some output =>
      match fuel with
      | O => lift Diverge
      | S fuel =>
          go_on ← drain_stop_round src now output;
          if go_on : bool then drain_stop_loop fuel src now else mret tt
      end
  end.

Definition stop_outputs (src : StreamKey) (s : RelayServerAgent) : list StopInitiatorOutput :=
  match pending_circuits s !! src ≫= stop with Some m => si_outputs m | None => [] end.

Definition drain_stop (src : StreamKey) (now : Now) : A unit :=
  outputs ← gets (stop_outputs src);
  drain_stop_loop (length outputs) src now.

(** ** Connections and streams *)

Definition closed_leg (conn : Z) (c : Circuit) : option CircuitLeg :=
  if conn_id (source_stream c) =? conn then Some Source
  else if conn_id (destination_stream c) =? conn then Some Destination
  else None.

Definition on_connection_closed (peer_id : PeerId) (conn : Z) (cause : ConnectionCloseCause) : A unit :=
  affected ← gets (λ s, omap (λ '(key, c), (key,.) <$> closed_leg conn c) (btree_iter (circuits s)));
  _ ← for_each (λ '(key, leg), close_circuit key (CircuitConnectionClosed leg cause)) affected;
  pending ← gets (λ s, omap (λ '(src, c),
      if (conn_id src =? conn) || (destination_conn_id c =? conn)
      then Some (src, conn_id src =? conn) else None) (btree_iter (pending_circuits s)));
  _ ← for_each (λ '(src, source_closed),
        if source_closed : bool then abort_pending_connect src
        else
          circuit ← gets (λ s, pending_circuits s !! src);
          _ ← match circuit with
              | Some circuit =>
                  match stop_stream circuit with
                  | Some stream =>
                      _ ← put_pending src {| circuit with stop_stream := None |};
                      drop_stop_stream stream
                  | None => mret tt
                  end
              | None => mret tt
              end;
          fail_pending_connect src ConnectionFailed) pending;
  _ ← modify (λ s, {| s with connections := delete conn (connections s) |});
  reservation ← gets (λ s, reservations s !! peer_id);
  _ ← (if match reservation with Some r => reservation_conn_id r =? conn | None => false end then
         _ ← drop_reservation peer_id;
         push_event (ReservationClosed peer_id
           match cause with CauseTransport => ReservationConnectionClosed | CauseSuperseded => ReservationSuperseded end)
       else mret tt);
  closed_hop_streams ← gets (λ s, filter (λ key, conn_id key = conn) (btree_keys (hop_workers s)));
  _ ← for_each (λ stream, _ ← cancel_pending_hop_ops stream; drop_worker stream) closed_hop_streams;
  modify (λ s, {| s with rejected_hop_streams :=
    filter (λ e, conn_id e.1 ≠ conn) (rejected_hop_streams s) |}).

Definition on_connection_established (peer_id : PeerId) (conn : Z) (is_circuit : bool) : A unit :=
  replaced ← gets (λ s, omap (λ '(id, c),
      if bool_decide (connection_peer_id c = peer_id) && negb (id =? conn) then Some id else None)
      (btree_iter (connections s)));
  _ ← for_each (λ old, on_connection_closed peer_id old CauseSuperseded) replaced;
  old ← gets (λ s, reservations s !! peer_id);
  _ ← (if match old with Some r => negb (reservation_conn_id r =? conn) | None => false end then
         _ ← drop_reservation peer_id;
         push_event (ReservationClosed peer_id ReservationSuperseded)
       else mret tt);
  modify (λ s, {| s with connections := <[conn := mkConnection peer_id None is_circuit]> (connections s) |}).

Definition waits_on (conn : Z) (k : StreamKey) (w : HopWorker) : bool :=
  (conn_id k =? conn) && bool_decide (is_Some (hw_deadline_ms w)).

Definition on_hop_ready (peer_id : PeerId) (key : StreamKey) (is_circuit : bool) (now : Now) : A unit :=
  connection ← gets (λ s, connections s !! conn_id key);
  match connection with
  | None => _ ← put_rejected key peer_id; queue_reset peer_id key
  | Some connection =>
      if bool_decide (connection_peer_id connection ≠ peer_id)
      then _ ← put_rejected key peer_id; queue_reset peer_id key
      else
        count ← gets (λ s, map_count (waits_on (conn_id key)) (hop_workers s));
        config ← gets agent_config;
        if max_pending_hop_requests_per_connection config <=? count
        then _ ← put_rejected key peer_id; queue_reset peer_id key
        else
          put_worker key {|
            hw_peer_id := peer_id;
            responder := HopResponder_new;
            hw_deadline_ms := Some (saturating_add u64_max (monotonic_ms now) (control_stream_timeout_ms config));
            request_known := false;
            hw_is_circuit := is_circuit || connection_is_circuit connection |}
  end.

(** ** Time *)

Definition due_at (now : Now) (deadline : option Z) : bool :=
  match deadline with Some d => d <=? monotonic_ms now | None => false end.

Definition tick_hop (now : Now) (key : StreamKey) : A unit :=
  s ← gets id;
  if bool_decide (is_Some (pending_circuits s !! key)) then
    _ ← complete_hop key;
    fail_pending_connect key ConnectionFailed
  else
    match hop_workers s !! key with
    | None => mret tt
    | Some worker =>
        _ ← drop_worker key;
        _ ← cancel_pending_hop_ops key;
        _ ← abort_pending_connect key;
        _ ← queue_reset (hw_peer_id worker) key;
        if request_known worker
        then runtime_error ErrorResetStream (Some (hw_peer_id worker))
               (DetailText (str "inbound HOP control stream timed out"))
        else mret tt
    end.

Definition handle_tick (now : Now) : A unit :=
  _ ← modify (λ s, {| s with last_event_tick_ms := Some (monotonic_ms now) |});
  expired ← gets (λ s, omap (λ '(peer, r),
      if reservation_deadline_ms r <=? monotonic_ms now then Some peer else None) (btree_iter (reservations s)));
  _ ← for_each (λ peer, _ ← drop_reservation peer; push_event (ReservationClosed peer Expired)) expired;
  duration_limited ← gets (λ s, omap (λ '(key, c),
      if due_at now (circuit_deadline_ms c) then Some key else None) (btree_iter (circuits s)));
  _ ← for_each (λ key, close_circuit key DurationLimit) duration_limited;
  timed_out ← gets (λ s, omap (λ '(key, w),
      if due_at now (hw_deadline_ms w) then Some key else None) (btree_iter (hop_workers s)));
  _ ← for_each (tick_hop now) timed_out;
  stop_timed_out ← gets (λ s, omap (λ '(key, c),
      if due_at now (stop_deadline_ms c) then Some key else None) (btree_iter (pending_circuits s)));
  _ ← for_each (λ key, fail_pending_connect key ConnectionFailed) stop_timed_out;
  _ ← zoom reservation_limiters (λ l s, {| s with reservation_limiters := l |}) (admission_sweep (monotonic_ms now));
  zoom circuit_limiters (λ l s, {| s with circuit_limiters := l |}) (admission_sweep (monotonic_ms now)).

Definition tick_before_event (now : Now) : A unit :=
  last ← gets last_event_tick_ms;
  if (monotonic_ms now =? u64_max) || negb (bool_decide (last = Some (monotonic_ms now)))
  then handle_tick now else mret tt.

Definition next_timeout (now : Now) (s : RelayServerAgent) : option Z :=
  let reservation := list_min ((λ e, reservation_deadline_ms e.2) <$> btree_iter (reservations s)) in
  let hop := list_min (omap (λ e, hw_deadline_ms e.2) (btree_iter (hop_workers s))) in
  let stop := list_min (omap (λ e, stop_deadline_ms e.2) (btree_iter (pending_circuits s))) in
  let circuit := list_min (omap (λ e, circuit_deadline_ms e.2) (btree_iter (circuits s))) in
  let limiter := min_of [admission_next_due (reservation_limiters s); admission_next_due (circuit_limiters s)] in
  (λ due, saturating_sub due (monotonic_ms now)) <$> min_of [reservation; hop; stop; circuit; limiter].

(** ** Events of the swarm *)

Definition has_circuit (key : StreamKey) (s : RelayServerAgent) : bool := bool_decide (is_Some (circuits s !! key)).
Definition has_pending (key : StreamKey) (s : RelayServerAgent) : bool := bool_decide (is_Some (pending_circuits s !! key)).
Definition has_worker (key : StreamKey) (s : RelayServerAgent) : bool := bool_decide (is_Some (hop_workers s !! key)).
Definition has_rejected (key : StreamKey) (s : RelayServerAgent) : bool :=
  bool_decide (is_Some (rejected_hop_streams s !! key)).

Definition on_stream_data (key : StreamKey) (data : bytes) (now : Now) : A bool :=
  s ← gets id;
  if has_pending key s then _ ← append_pending_payload key SourceToDestination data; mret true
  else if has_worker key s then
    fed ← feed_hop key (HRData data);
    _ ← (if fed : bool then drain_hop key now else mret tt);
    mret true
  else if has_rejected key s then mret true
  else if has_circuit key s then _ ← queue_forward key SourceToDestination data; mret true
  else
    match stop_to_source s !! key with
    | Some src =>
        fed ← feed_stop src (SIData data);
        _ ← (if fed : bool then drain_stop src now
             else
               live ← gets (has_circuit src);
               if live : bool then queue_forward src DestinationToSource data else mret tt);
        mret true
    | None => mret false
    end.

(** The destination leg of a live circuit. *)
Definition circuit_of_stop (key : StreamKey) (s : RelayServerAgent) : option StreamKey :=
  src ← stop_to_source s !! key;
  if has_circuit src s then Some src else None.

(** [if let Some(source_stream) = stop_to_source.get(&key) && self.feed_stop(..)]. *)
Definition feed_stop_of (key : StreamKey) (input : StopInitiatorInput) : A (option StreamKey) :=
  src ← gets (λ s, stop_to_source s !! key);
  match src with
  | None => mret None
  | Some src => fed ← feed_stop src input; mret (if fed : bool then Some src else None)
  end.

Definition on_remote_write_closed (key : StreamKey) (now : Now) : A bool :=
  s ← gets id;
  if has_circuit key s then _ ← circuit_eof key Source; mret true
  else
    match circuit_of_stop key s with
    | Some src => _ ← circuit_eof src Destination; mret true
    | None =>
        if has_worker key s then
          _ ← match pending_circuits s !! key with
              | Some circuit => put_pending key {| circuit with pc_source_eof := true |}
              | None => mret tt
              end;
          fed ← feed_hop key HRRemoteWriteClosed;
          _ ← (if fed : bool then drain_hop key now else mret tt);
          mret true
        else
          fed ← feed_stop_of key SIRemoteWriteClosed;
          match fed with
          | Some src =>
              circuit ← gets (λ s, pending_circuits s !! src);
              _ ← match circuit with
                  | Some circuit => put_pending src {| circuit with pc_destination_eof := true |}
                  | None => mret tt
                  end;
              _ ← drain_stop src now;
              mret true
          | None =>
              if has_pending key s then
                _ ← abort_pending_connect key;
                _ ← drop_worker key;
                mret true
              else mret (has_rejected key s)
          end
    end.

Definition on_stream_closed (key : StreamKey) (now : Now) : A bool :=
  s ← gets id;
  if has_circuit key s then _ ← close_circuit key (StreamReset Source); mret true
  else
    match circuit_of_stop key s with
    | Some src => _ ← close_circuit src (StreamReset Destination); mret true
    | None =>
        fed ← feed_stop_of key SIRemoteReset;
        match fed with
        | Some src => _ ← drain_stop src now; mret true
        | None =>
            if has_pending key s then
              _ ← abort_pending_connect key;
              _ ← drop_worker key;
              mret true
            else
              let owned := has_worker key s in
              _ ← (if owned : bool then _ ← cancel_pending_hop_ops key; drop_worker key else mret tt);
              if owned : bool then mret true
              else
                rejected ← gets (has_rejected key);
                _ ← modify (λ s, {| s with rejected_hop_streams := delete key (rejected_hop_streams s) |});
                mret rejected
        end
    end.

Definition handle_event (event : SwarmEvent) (is_circuit : bool) (now : Now) : A bool :=
  _ ← tick_before_event now;
  match event with
  | ConnectionEstablished peer_id conn =>
      _ ← on_connection_established peer_id conn is_circuit; mret false
  | ConnectionClosed peer_id conn cause =>
      _ ← on_connection_closed peer_id conn cause; mret false
  | StreamReady peer_id conn stream protocol_id initiated_locally =>
      if bool_decide (protocol_id = HOP_PROTOCOL_ID) && negb initiated_locally
      then _ ← on_hop_ready peer_id (mkStreamKey conn stream) is_circuit now; mret true
      else mret false
  | StreamData _ conn stream data => on_stream_data (mkStreamKey conn stream) data now
  | StreamRemoteWriteClosed _ conn stream => on_remote_write_closed (mkStreamKey conn stream) now
  | StreamClosed _ conn stream => on_stream_closed (mkStreamKey conn stream) now
  | OtherSwarmEvent => mret false
  end.

(** ** Results of actions *)

Definition take_operation (t : Z) : A (option PendingOperation) :=
  o ← gets (λ s, pending_operations s !! t);
  _ ← drop_operation t;
  mret o.

Definition stream_open_result (t : Z) (result : StreamKey + bytes) (now : Now) : A unit :=
  op ← take_operation t;
  match op with
  | Some (OpenStop src peer_id expected_conn_id) =>
      match result with
      | inl stream =>
          if conn_id stream =? expected_conn_id then
            circuit ← gets (λ s, pending_circuits s !! src);
            match circuit with
            | Some circuit =>
                config ← gets agent_config;
                let machine := StopInitiator_new (pc_source_peer_id circuit) (Some (circuit_limit config)) in
                let '(machine, outbound) := poll_output machine in
                _ ← put_pending src {| circuit with stop_stream := Some stream; stop := Some machine |};
                _ ← modify (λ s, {| s with stop_to_source := <[stream := src]> (stop_to_source s) |});
                match outbound with
                | Ok (Some (SIOutbound data)) => queue_send peer_id stream data (StopRequest src)
                | _ => mret tt
                end
            | None => queue_reset peer_id stream
            end
          else
            connection ← gets (λ s, connections s !! conn_id stream);
            _ ← queue_reset (match connection with Some c => connection_peer_id c | None => peer_id end) stream;
            fail_pending_connect src NoReservation
      | inr detail =>
          _ ← runtime_error ErrorOpenStream (Some peer_id) (DetailText detail);
          fail_pending_connect src ConnectionFailed
      end
  | _ =>
      match result with
      | inl stream =>
          connection ← gets (λ s, connections s !! conn_id stream);
          match connection with
          | Some c => queue_reset (connection_peer_id c) stream
          | None => mret tt
          end
      | inr _ => mret tt
      end
  end.

Definition send_accepted (effect : SendEffect) (now : Now) : A unit :=
  match effect with
  | CommitReservation pending =>
      connection ← gets (λ s, connections s !! pr_conn_id pending);
      _ ← (if match connection with
              | Some c => bool_decide (connection_peer_id c = pr_peer_id pending)
              | None => false
              end then
             _ ← put_reservation (pr_peer_id pending)
                   (mkReservationRecord (pr_conn_id pending) (pr_deadline_ms pending) (pr_expires_unix_secs pending));
             push_event (ReservationAccepted (pr_peer_id pending) (pr_renewed pending) (pr_expires_unix_secs pending))
           else mret tt);
      complete_hop (pr_stream pending)
  | CommitCircuit src => _ ← complete_hop src; commit_circuit src now
  | StopRequest _ => mret tt
  | Forward src direction n => forward_accepted src direction n
  | CompleteHop stream => complete_hop stream
  end.

(** [true] where the failure is to be reported. *)
Definition send_refused (effect : SendEffect) : A bool :=
  match effect with
  | Forward src direction _ =>
      live ← gets (has_circuit src);
      if live : bool then _ ← close_circuit src (ForwardFailed direction); mret true else mret false
  | CommitCircuit src =>
      pending ← gets (has_pending src);
      if pending : bool then _ ← abort_pending_connect_both src; mret true else mret false
  | StopRequest src =>
      pending ← gets (has_pending src);
      if pending : bool then _ ← fail_pending_connect src ConnectionFailed; mret true else mret false
  | CommitReservation pending => _ ← complete_hop (pr_stream pending); mret true
  | CompleteHop stream => _ ← complete_hop stream; mret true
  end.

Definition send_stream_result (t : Z) (result : unit + bytes) (now : Now) : A unit :=
  op ← take_operation t;
  match op with
  | Some (Send peer_id effect) =>
      match result with
      | inl _ => send_accepted effect now
      | inr detail =>
          relevant ← send_refused effect;
          if relevant : bool then runtime_error ErrorSendStream (Some peer_id) (DetailText detail) else mret tt
      end
  | _ => mret tt
  end.

Definition close_stream_write_result (t : Z) (result : unit + bytes) (now : Now) : A unit :=
  op ← take_operation t;
  match op with
  | Some (Close peer_id _ circuit) =>
      match result with
      | inl _ =>
          match circuit with
          | Some (src, leg) => circuit_close_accepted src leg
          | None => mret tt
          end
      | inr detail =>
          match circuit with
          | Some (src, _) =>
              live ← gets (has_circuit src);
              if negb live then mret tt
              else
                _ ← close_circuit src CircuitInternalFailure;
                runtime_error ErrorCloseStream (Some peer_id) (DetailText detail)
          | None => runtime_error ErrorCloseStream (Some peer_id) (DetailText detail)
          end
      end
  | _ => mret tt
  end.

Definition reset_stream_result (t : Z) (result : unit + bytes) (now : Now) : A unit :=
  op ← take_operation t;
  match op with
  | Some (Reset_ peer_id) =>
      match result with
      | inl _ => mret tt
      | inr detail => runtime_error ErrorResetStream (Some peer_id) (DetailText detail)
      end
  | _ => mret tt
  end.

(** ** The rest of the interface *)

Definition poll_action : A (option RelayServerAction) := λ s,
  match actions s with [] => (s, Ok None) | a :: l => ({| s with actions := l |}, Ok (Some a)) end.
Definition poll_event : A (option RelayServerEvent) := λ s,
  match events s with [] => (s, Ok None) | e :: l => ({| s with events := l |}, Ok (Some e)) end.

Definition set_accepting (b : bool) : A unit := modify (λ s, {| s with accepting := b |}).

Definition replace_announce_addrs (addrs : list Multiaddr) : M RelayServerAgent RelayServerAddressError unit :=
  normalized ← reads (λ s, normalize_addrs (local_peer_id s) addrs);
  modify (λ s, {| s with explicit_addrs := match normalized with [] => None | _ => Some normalized end |}).
Definition set_confirmed_addrs (addrs : list Multiaddr) : M RelayServerAgent RelayServerAddressError unit :=
  normalized ← reads (λ s, normalize_addrs (local_peer_id s) addrs);
  modify (λ s, {| s with confirmed_addrs := normalized |}).
Definition set_listener_addrs (addrs : list Multiaddr) : M RelayServerAgent RelayServerAddressError unit :=
  normalized ← reads (λ s, normalize_addrs (local_peer_id s) addrs);
  modify (λ s, {| s with listener_addrs := normalized |}).

Definition set_connection_addr (conn : Z) (m : Multiaddr) : A unit :=
  connection ← gets (λ s, connections s !! conn);
  match connection with
  | Some c => modify (λ s, {| s with connections := <[conn := {| c with address := Some m |}]> (connections s) |})
  | None => mret tt
  end.

Definition connection_addr (conn : Z) (s : RelayServerAgent) : option Multiaddr := connections s !! conn ≫= address.
Definition owns_stream (stream : StreamKey) (s : RelayServerAgent) : bool :=
  has_worker stream s || has_rejected stream s || bool_decide (is_Some (stop_to_source s !! stream)) ||
  has_circuit stream s.
Definition has_reservation (p : PeerId) (s : RelayServerAgent) : bool := bool_decide (is_Some (reservations s !! p)).
Definition reservation_connection (p : PeerId) (s : RelayServerAgent) : option Z :=
  reservation_conn_id <$> reservations s !! p.
Definition reservation_expires_unix_secs (p : PeerId) (s : RelayServerAgent) : option Z :=
  reservations s !! p ≫= reservation_expires.
Definition reservation_count (s : RelayServerAgent) : Z := Z.of_nat (size (reservations s)).
Definition circuit_count (s : RelayServerAgent) : Z :=
  saturating_add usize_max (Z.of_nat (size (pending_circuits s))) (Z.of_nat (size (circuits s))).
Definition agent_is_idle (s : RelayServerAgent) : bool :=
  bool_decide (actions s = []) && bool_decide (events s = []) && bool_decide (pending_operations s = ∅).

(** ** Calls *)

(** What a host can do to the service, in any order. *)
Inductive Call :=
  | CallEvent (event : SwarmEvent) (is_circuit : bool) (now : Now)
  | CallTick (now : Now)
  | CallOpened (t : Z) (result : StreamKey + bytes) (now : Now)
  | CallSent (t : Z) (result : unit + bytes) (now : Now)
  | CallClosed (t : Z) (result : unit + bytes) (now : Now)
  | CallReset (t : Z) (result : unit + bytes) (now : Now)
  | CallAccepting (b : bool)
  | CallAnnounce (addrs : list Multiaddr)
  | CallConfirmed (addrs : list Multiaddr)
  | CallListener (addrs : list Multiaddr)
  | CallAddress (conn : Z) (m : Multiaddr)
  | CallPollAction
  | CallPollEvent.
End Agent.
