(* ===== verification/RelaySteps.v ===== *)
(** How the relay service's operations change its state: nearly all of them
    admit nothing new, they only move on or remove what is in its tables. That
    relation, [shrinks], is proved here for each of them, together with the
    absence of panics and the termination of the two draining loops. *)

From Stdlib Require Import Strings.Byte.
From S2P Require Import Prelude Text Deadline Proto RelayMessage Base58 PeerIdentity Multiaddr RelayAddress.
From S2P Require Import SansIo RelayServer Limiter Admission RelayAgent.

#[global] Arguments handle_input : simpl never.
#[global] Arguments poll_output : simpl never.

Section Steps.
Context `{HashCrates Multihash} `{!HashCratesSpec Multihash} `{!EqDecision Multihash} `{!Countable Multihash}.
Abbreviation PeerId := (PeerIdentity.PeerId (Multihash := Multihash)).
Context `{!BTreeKey PeerId}.
Abbreviation Agent := (RelayServerAgent (Multihash := Multihash)).
Abbreviation A := (M Agent Empty_set).
(** The outputs a step may add to: those of one HOP worker, or those of the
    STOP initiators. *)
Inductive Speaker := HopOf (key : StreamKey) | Stops.
Implicit Types (s : Agent) (K : option Speaker).

(** ** Accounts *)

Definition is_opened (e : RelayServerEvent (Multihash := Multihash)) : bool :=
  match e with CircuitOpened _ _ => true | _ => false end.
Definition is_closed_event (e : RelayServerEvent (Multihash := Multihash)) : bool :=
  match e with CircuitClosed _ _ _ _ => true | _ => false end.
Definition count_events (f : RelayServerEvent (Multihash := Multihash) → bool) (l : list RelayServerEvent) : Z :=
  zlen (filter (λ e, f e = true) l).

Lemma count_events_snoc f l e : count_events f (l ++ [e]) = count_events f l + (if f e then 1 else 0).
Proof.
  unfold count_events. rewrite filter_app, zlen_app. f_equal. rewrite filter_cons, filter_nil.
  destruct (f e); by case_decide.
Qed.
Lemma count_events_cons f l e : count_events f (e :: l) = (if f e then 1 else 0) + count_events f l.
Proof.
  unfold count_events. rewrite filter_cons. destruct (f e); case_decide; try done. by rewrite zlen_cons, Z.add_comm.
Qed.

(** The circuits closed or still open, less those opened. *)
Definition accounts s : Z :=
  count_events is_closed_event (events s) + Z.of_nat (size (circuits s)) - count_events is_opened (events s).

(** ** Well-formed parts *)

Record pending_ok (c : PendingCircuit (Multihash := Multihash)) : Prop := {
  po_source : zlen (source_pipelined c) ≤ MAX_PENDING_BRIDGE_SIZE;
  po_destination : zlen (destination_pipelined c) ≤ MAX_PENDING_BRIDGE_SIZE;
  po_stream : is_Some (stop c) → is_Some (stop_stream c);
  po_machine : ∀ m, stop c = Some m → si_ok m;
}.

Record counts_ok (max : Z) (b : CircuitByteCounts) : Prop := {
  co_sd : 0 ≤ source_to_destination b ≤ u64_max;
  co_ds : 0 ≤ destination_to_source b ≤ u64_max;
  co_max : max ≠ 0 → source_to_destination b ≤ max ∧ destination_to_source b ≤ max;
}.

(** The machines of the service are in states they can be in. *)
Record base_ok s : Prop := {
  bo_pending : ∀ k c, pending_circuits s !! k = Some c → pending_ok c;
  bo_workers : ∀ k w, hop_workers s !! k = Some w → hr_ok (responder w);
}.

(** What a forwarded chunk will be counted as. *)
Definition op_ok (o : PendingOperation (Multihash := Multihash)) : Prop :=
  match o with Send _ (Forward _ _ n) => 0 ≤ n | _ => True end.
Definition ops_ok s : Prop := map_Forall (λ _, op_ok) (pending_operations s).

(** A pending circuit, a circuit and a worker that have only moved on. *)
Record pending_from (c c' : PendingCircuit (Multihash := Multihash)) : Prop := {
  pf_source : pc_source_peer_id c' = pc_source_peer_id c;
  pf_destination : pc_destination_peer_id c' = pc_destination_peer_id c;
  pf_conn : destination_conn_id c' = destination_conn_id c;
  pf_deadline : stop_deadline_ms c' = stop_deadline_ms c ∨ stop_deadline_ms c' = None;
  pf_ok : pending_ok c → pending_ok c';
}.
Record circuit_from (max : Z) (c c' : Circuit (Multihash := Multihash)) : Prop := {
  cf_source : source_peer_id c' = source_peer_id c;
  cf_destination : destination_peer_id c' = destination_peer_id c;
  cf_streams : source_stream c' = source_stream c ∧ destination_stream c' = destination_stream c;
  cf_deadline : circuit_deadline_ms c' = circuit_deadline_ms c;
  cf_counts : counts_ok max (circuit_bytes c) → counts_ok max (circuit_bytes c');
}.
Record worker_from (w w' : HopWorker (Multihash := Multihash)) : Prop := {
  wf_peer : hw_peer_id w' = hw_peer_id w;
  wf_deadline : hw_deadline_ms w' = hw_deadline_ms w ∨ hw_deadline_ms w' = None;
  wf_ok : hr_ok (responder w) → hr_ok (responder w');
}.

#[local] Instance pending_from_order : PreOrder pending_from.
Proof.
  split; [by intros c; split; auto|]. intros c1 c2 c3 [] []. split; [congruence..| |auto].
  intuition congruence.
Qed.
#[local] Instance circuit_from_order max : PreOrder (circuit_from max).
Proof.
  split; [by intros c; split; auto|]. intros c1 c2 c3 [] []. split; [congruence|congruence| |congruence|auto].
  intuition congruence.
Qed.
#[local] Instance worker_from_order : PreOrder worker_from.
Proof.
  split; [by intros c; split; auto|]. intros c1 c2 c3 [] []. split; [congruence| |auto]. intuition congruence.
Qed.

(** [m'] has entries of [m] only, moved on by [R]. *)
Definition map_from `{Countable J} {X} (R : X → X → Prop) (m m' : gmap J X) : Prop :=
  ∀ i x', m' !! i = Some x' → ∃ x, m !! i = Some x ∧ R x x'.

#[local] Instance map_from_order `{Countable J} {X} (R : X → X → Prop) `{!PreOrder R} :
  PreOrder (map_from (J := J) R).
Proof.
  split; [intros m i x Hx; by exists x|]. intros m1 m2 m3 H12 H23 i x3 H3.
  destruct (H23 i x3 H3) as (x2 & H2 & ?). destruct (H12 i x2 H2) as (x1 & ? & ?).
  exists x1. split; [done|]. by etrans.
Qed.
Lemma map_from_delete `{Countable J} {X} (R : X → X → Prop) `{!PreOrder R} (m : gmap J X) i :
  map_from R m (delete i m).
Proof. intros j x [_ Hj]%lookup_delete_Some. by exists x. Qed.
Lemma map_from_insert `{Countable J} {X} (R : X → X → Prop) `{!PreOrder R} (m : gmap J X) i x x' :
  m !! i = Some x → R x x' → map_from R m (<[i := x']> m).
Proof.
  intros Hi HR j y [[<- <-]|[_ Hj]]%lookup_insert_Some; [by exists x|by exists y].
Qed.

(** [s'] is [s] after steps that admit nothing new: every entry of its tables
    is one of [s], moved on; [d] more circuits were closed than [accounts] of
    [s] knew; and only [K] has outputs it did not have. *)
Record shrinks K (d : Z) s s' : Prop := {
  sh_config : agent_config s' = agent_config s;
  sh_limiters : reservation_limiters s' = reservation_limiters s ∧ circuit_limiters s' = circuit_limiters s;
  sh_reservations : map_from eq (reservations s) (reservations s');
  sh_pending : map_from pending_from (pending_circuits s) (pending_circuits s');
  sh_circuits : map_from (circuit_from (max_circuit_bytes (agent_config s))) (circuits s) (circuits s');
  sh_workers : map_from worker_from (hop_workers s) (hop_workers s');
  sh_accounts : accounts s' + d ≤ accounts s;
  sh_ops : ops_ok s → ops_ok s';
  sh_outputs : ∀ k, K ≠ Some (HopOf k) → hop_outputs k s' = hop_outputs k s ∨ hop_outputs k s' = [];
  sh_stops : ∀ k, K ≠ Some Stops → stop_outputs k s' = stop_outputs k s ∨ stop_outputs k s' = [];
}.

Lemma shrinks_refl K s : shrinks K 0 s s.
Proof. split; try reflexivity; [done|lia|done|by left|by left]. Qed.
Lemma shrinks_trans K d1 d2 s1 s2 s3 : shrinks K d1 s1 s2 → shrinks K d2 s2 s3 → shrinks K (d1 + d2) s1 s3.
Proof.
  intros [C1 [L1 L1'] R1 P1 X1 W1 A1 N1 O1 T1] [C2 [L2 L2'] R2 P2 X2 W2 A2 N2 O2 T2]. rewrite C1 in X2.
  split; [congruence|split; congruence|by etrans..|lia|by auto| |].
  - intros k Hk. destruct (O1 k Hk) as [H1|H1], (O2 k Hk) as [H2|H2]; auto; [left|right]; congruence.
  - intros k Hk. destruct (T1 k Hk) as [H1|H1], (T2 k Hk) as [H2|H2]; auto; [left|right]; congruence.
Qed.

Lemma base_ok_shrinks K d s s' : shrinks K d s s' → base_ok s → base_ok s'.
Proof.
  intros [_ _ _ Hp _ Hw _ _ _ _] [Bp Bw]. split.
  - intros k c' Hc. destruct (Hp k c' Hc) as (c & Hk & []). eauto.
  - intros k w' Hk'. destruct (Hw k w' Hk') as (w & Hk & []). eauto.
Qed.

Lemma shrinks_exempt K d s s' : shrinks None d s s' → shrinks K d s s'.
Proof. intros []. split; auto. Qed.

(** Steps that touch none of the tables. *)
Lemma shrinks_same K s s' :
  agent_config s' = agent_config s → reservation_limiters s' = reservation_limiters s →
  circuit_limiters s' = circuit_limiters s → reservations s' = reservations s →
  pending_circuits s' = pending_circuits s → circuits s' = circuits s → hop_workers s' = hop_workers s →
  events s' = events s → (ops_ok s → ops_ok s') → shrinks K 0 s s'.
Proof.
  intros Hc Hl1 Hl2 Hr Hp Hx Hw He Hops. unfold accounts. split; unfold accounts, hop_outputs, stop_outputs;
    rewrite ?Hr, ?Hp, ?Hx, ?Hw, ?He; try reflexivity; [done|done|lia|done|by left|by left].
Qed.

(** ** Computations that only shrink the state *)

Definition calm {X} K (d : Z) (m : A X) s : Prop :=
  base_ok s → wp m (λ _ s', shrinks K d s s') (λ _ _, False) s.

Lemma calm_ret {X} K (x : X) s : calm K 0 (mret x) s.
Proof. intros _. apply wp_ret, shrinks_refl. Qed.
Lemma calm_modify K d f s : shrinks K d s (f s) → calm K d (modify f) s.
Proof. intros ? _. by apply wp_modify. Qed.
Lemma calm_bind {X Y} K d d1 d2 (m : A X) (f : X → A Y) s :
  d = d1 + d2 → calm K d1 m s → (∀ x s', m s = (s', Ok x) → shrinks K d1 s s' → calm K d2 (f x) s') → calm K d (m ≫= f) s.
Proof.
  intros -> Hm Hf Hb. apply wp_bind. eapply wp_mono; [apply wp_run, Hm, Hb| |naive_solver].
  intros x s' [Hr Hs]. eapply wp_mono; [eapply Hf; [done|done|]| |done].
  - by eapply base_ok_shrinks.
  - intros y s'' Hs'. by eapply shrinks_trans.
Qed.
Lemma calm_seq {X Y} K (m : A X) (f : X → A Y) s :
  calm K 0 m s → (∀ x s', calm K 0 (f x) s') → calm K 0 (m ≫= f) s.
Proof. intros Hm Hf. by apply (calm_bind K 0 0 0). Qed.
Lemma calm_gets {X Y} K d (g : Agent → X) (f : X → A Y) s : calm K d (f (g s)) s → calm K d (gets g ≫= f) s.
Proof. intros Hf Hb. apply wp_bind, wp_gets. by apply Hf. Qed.
Lemma wp_calm {X Y} K d (m : A X) (f : X → A Y) Q s :
  base_ok s → calm K d m s →
  (∀ x s', shrinks K d s s' → base_ok s' → wp (f x) Q (λ _ _, False) s') → wp (m ≫= f) Q (λ _ _, False) s.
Proof.
  intros Hb Hm Hf. apply wp_bind. eapply wp_mono; [by apply Hm| |done]. cbn beta. intros x s' Hs.
  apply Hf; [done|by eapply base_ok_shrinks].
Qed.
Lemma calm_exempt {X} K d (m : A X) s : calm None d m s → calm K d m s.
Proof. intros Hm Hb. eapply wp_mono; [by apply Hm|intros; by apply shrinks_exempt|done]. Qed.
Lemma calm_for_each {X} K (f : X → A unit) l s : (∀ x s', x ∈ l → calm K 0 (f x) s') → calm K 0 (for_each f l) s.
Proof.
  revert s. induction l as [|x l IH]; intros s Hf; cbn [for_each]; [apply calm_ret|].
  apply calm_seq; [apply Hf; by left|]. intros _ s'. apply IH. intros y s'' Hy. apply Hf. by right.
Qed.

(** One field. *)
Ltac shrink_fields :=
  apply calm_modify; split; try reflexivity; try done; try (unfold accounts; cbn -[size]; lia); try (by left).
Lemma calm_event K e s : is_opened e = false → is_closed_event e = false → calm K 0 (push_event e) s.
Proof.
  intros Ho Hc. shrink_fields.
  unfold accounts. cbn. rewrite !count_events_snoc, Ho, Hc. lia.
Qed.
Lemma calm_closed_event K p q b r s : calm K (-1) (push_event (CircuitClosed p q b r)) s.
Proof.
  shrink_fields.
  unfold accounts. cbn [events circuits]. rewrite !count_events_snoc. cbn. lia.
Qed.
Lemma calm_drop_worker K k s : calm K 0 (drop_worker k) s.
Proof.
  shrink_fields; [apply map_from_delete; apply _|].
  intros k' _. unfold hop_outputs. cbn. destruct (decide (k = k')) as [<-|].
  - rewrite lookup_delete_eq. by right.
  - rewrite lookup_delete_ne by done. by left.
Qed.
Lemma calm_drop_pending K k s : calm K 0 (drop_pending k) s.
Proof.
  shrink_fields; [apply map_from_delete; apply _|].
  intros k' _. unfold stop_outputs. cbn. destruct (decide (k = k')) as [<-|].
  - rewrite lookup_delete_eq. by right.
  - rewrite lookup_delete_ne by done. by left.
Qed.
Lemma calm_drop_reservation K p s : calm K 0 (drop_reservation p) s.
Proof. shrink_fields. apply map_from_delete; apply _. Qed.
Lemma calm_drop_circuit K k c s : circuits s !! k = Some c → calm K 1 (drop_circuit k) s.
Proof.
  intros Hk. shrink_fields; [apply map_from_delete; apply _|].
  unfold accounts. cbn. rewrite map_size_delete, Hk. cbn.
  assert (size (circuits s) ≠ 0%nat); [|lia]. intros Hz%map_size_empty_inv. rewrite Hz in Hk. done.
Qed.
Lemma calm_put_pending K k c c' s :
  pending_circuits s !! k = Some c → pending_from c c' → (K = Some Stops ∨ stop c' = stop c) →
  calm K 0 (put_pending k c') s.
Proof.
  intros Hk Hf Ho. shrink_fields; [by eapply map_from_insert; [apply _|..]|].
  intros k' Hne. unfold stop_outputs. cbn. destruct (decide (k = k')) as [<-|].
  - rewrite lookup_insert_eq, Hk. cbn. destruct Ho as [|Ho]; [done|]. left. by rewrite Ho.
  - rewrite lookup_insert_ne by done. by left.
Qed.
Lemma calm_put_circuit K k c c' s :
  circuits s !! k = Some c → circuit_from (max_circuit_bytes (agent_config s)) c c' → calm K 0 (put_circuit k c') s.
Proof.
  intros Hk Hf. shrink_fields.
  - by eapply map_from_insert; [apply _|..].
  - unfold accounts. cbn. rewrite map_size_insert_Some by done. lia.
Qed.
Lemma calm_put_worker K k w w' s :
  hop_workers s !! k = Some w → worker_from w w' →
  (K = Some (HopOf k) ∨ hr_outputs (responder w') = hr_outputs (responder w) ∨ hr_outputs (responder w') = []) →
  calm K 0 (put_worker k w') s.
Proof.
  intros Hk Hf Ho. shrink_fields; [by eapply map_from_insert; [apply _|..]|].
  intros k' Hne. unfold hop_outputs. cbn. destruct (decide (k = k')) as [<-|].
  - rewrite lookup_insert_eq, Hk. naive_solver.
  - rewrite lookup_insert_ne by done. by left.
Qed.

Lemma calm_put_operation K t o s : op_ok o → calm K 0 (put_operation t o) s.
Proof.
  intros Ho. apply calm_modify, shrinks_same; [reflexivity..|]. intros Hops. by apply map_Forall_insert_2.
Qed.
Lemma calm_drop_operation K t s : calm K 0 (drop_operation t) s.
Proof.
  apply calm_modify, shrinks_same; [reflexivity..|]. intros Hops. by apply map_Forall_delete.
Qed.

Create HintDb calm.
Ltac calm_same := apply calm_modify, shrinks_same; [reflexivity..|done].
(** Split a computation into its steps and close the known ones. *)
Ltac calm_step :=
  first
    [ solve [auto with calm]
    | apply calm_ret
    | apply calm_gets
    | apply calm_seq; [|intros]
    | calm_same
    | apply calm_event; reflexivity
    | case_match ].
Ltac calm_steps := repeat calm_step.

#[local] Hint Resolve calm_drop_worker calm_drop_pending calm_drop_reservation calm_drop_operation : calm.

Lemma calm_token K s : calm K 0 token s.
Proof.
  unfold token. cbn [token_loop]. apply calm_gets. destruct (Z.eqb_spec (next_token s) 0) as [Hz|Hz]; cbn [negb].
  - apply (calm_bind K 0 0 0); [done|calm_same|]. intros u s' Hr _.
    assert (next_token s' = 1) as Hn by (injection Hr as <-; cbn; by rewrite Hz). apply calm_gets. rewrite Hn.
    apply calm_seq; [calm_same|]. intros. apply calm_ret.
  - apply calm_seq; [calm_same|]. intros. apply calm_ret.
Qed.
#[local] Hint Resolve calm_token : calm.
Lemma op_ok_forward p src d (data : bytes) : op_ok (Send p (Forward src d (Z.min (zlen data) u64_max))).
Proof. pose proof (zlen_nonneg data). unfold op_ok, u64_max. lia. Qed.
#[local] Hint Resolve op_ok_forward : calm.
#[local] Hint Extern 1 (op_ok _) => exact I : calm.

Lemma calm_queue_send K p k data e s : op_ok (Send p e) → calm K 0 (queue_send p k data e) s.
Proof. intros. unfold queue_send, push_action. calm_steps. by apply calm_put_operation. Qed.
Lemma calm_queue_close_for K p k c s : calm K 0 (queue_close_for p k c) s.
Proof. unfold queue_close_for, push_action. calm_steps. by apply calm_put_operation. Qed.
Lemma calm_queue_close K p k s : calm K 0 (queue_close p k) s.
Proof. apply calm_queue_close_for. Qed.
Lemma calm_queue_circuit_close K p k c l s : calm K 0 (queue_circuit_close p k c l) s.
Proof. apply calm_queue_close_for. Qed.
Lemma calm_queue_reset K p k s : calm K 0 (queue_reset p k) s.
Proof. unfold queue_reset, push_action. calm_steps. by apply calm_put_operation. Qed.
Lemma calm_runtime_error K k p d s : calm K 0 (runtime_error k p d) s.
Proof. by apply calm_event. Qed.
Lemma calm_cancel_operations K l s : calm K 0 (cancel_operations l) s.
Proof.
  unfold cancel_operations. apply calm_seq; [|intros; calm_same].
  apply calm_for_each. intros. apply calm_drop_operation.
Qed.
#[local] Hint Resolve calm_queue_send calm_queue_close calm_queue_circuit_close calm_queue_reset calm_runtime_error
  calm_cancel_operations : calm.
Lemma calm_cancel_control K k s : calm K 0 (cancel_pending_control_ops k) s.
Proof. unfold cancel_pending_control_ops. calm_steps. Qed.
Lemma calm_cancel_hop K k s : calm K 0 (cancel_pending_hop_ops k) s.
Proof. unfold cancel_pending_hop_ops. calm_steps. Qed.
Lemma calm_cancel_forward K k s : calm K 0 (cancel_forward_ops k) s.
Proof. unfold cancel_forward_ops. calm_steps. Qed.
#[local] Hint Resolve calm_cancel_control calm_cancel_hop calm_cancel_forward : calm.

Lemma calm_complete_hop K k s : calm K 0 (complete_hop k) s.
Proof.
  unfold complete_hop. apply calm_gets. destruct (hop_workers s !! k) as [w|] eqn:Hk; [|apply calm_ret].
  eapply calm_put_worker; [done| |by right; left]. by split; auto.
Qed.
#[local] Hint Resolve calm_complete_hop : calm.

(** ** Circuits *)

(** What [close_circuit] does once the circuit is out of the table. *)
Definition close_rest (src : StreamKey) (circuit : Circuit (Multihash := Multihash)) (reason : CircuitCloseReason) : A unit :=
  _ ← drop_worker src;
  _ ← drop_stop_stream (destination_stream circuit);
  _ ← cancel_forward_ops src;
  let '(reset_source, reset_destination) := reset_legs reason in
  _ ← (if reset_source : bool then queue_reset (source_peer_id circuit) (source_stream circuit) else mret tt);
  _ ← (if reset_destination : bool
       then queue_reset (destination_peer_id circuit) (destination_stream circuit) else mret tt);
  push_event (CircuitClosed (source_peer_id circuit) (destination_peer_id circuit) (circuit_bytes circuit) reason).

Lemma calm_close_rest K src c r s : calm K (-1) (close_rest src c r) s.
Proof.
  unfold close_rest, drop_stop_stream. destruct (reset_legs r) as [rs rd].
  do 5 (apply (calm_bind K (-1) 0 (-1)); [done|calm_steps|intros]). apply calm_closed_event.
Qed.

Lemma close_circuit_run src r s c :
  circuits s !! src = Some c → close_circuit src r s = close_rest src c r {| s with circuits := delete src (circuits s) |}.
Proof. intros Hc. unfold close_circuit, mbind at 1, M_bind at 1, gets. by rewrite Hc. Qed.

Lemma calm_close_circuit K src r s : calm K 0 (close_circuit src r) s.
Proof.
  unfold close_circuit. apply calm_gets. destruct (circuits s !! src) as [c|] eqn:Hc; [|apply calm_ret].
  apply (calm_bind K 0 1 (-1)); [done|by eapply calm_drop_circuit|]. intros _ s' _ _. apply calm_close_rest.
Qed.
#[local] Hint Resolve calm_close_circuit : calm.

(** Closing a circuit whose entry was just overwritten. *)
Lemma close_after_put K src r s c c' :
  base_ok s → circuits s !! src = Some c →
  wp (close_circuit src r) (λ _ s', shrinks K 0 s s') (λ _ _, False) {| s with circuits := <[src := c']> (circuits s) |}.
Proof.
  intros Hb Hc. unfold wp. erewrite close_circuit_run by apply lookup_insert_eq. cbn.
  rewrite delete_insert_eq. pose proof (calm_drop_circuit K src c s Hc Hb) as Hd. unfold wp, drop_circuit, modify in Hd.
  pose proof (calm_close_rest K src c' r _ (base_ok_shrinks _ _ _ _ Hd Hb)) as Hr. unfold wp in Hr.
  destruct (close_rest _ _ _ _) as [s' [u|e| |]]; try done. by eapply (shrinks_trans K 1 (-1)).
Qed.

Lemma calm_finish K src s : calm K 0 (finish_eof_if_drained src) s.
Proof. unfold finish_eof_if_drained. calm_steps. Qed.
#[local] Hint Resolve calm_finish : calm.

Lemma calm_queue_forward K src d data s : calm K 0 (queue_forward src d data) s.
Proof.
  unfold queue_forward. destruct data as [|b data]; [apply calm_ret|]. apply calm_gets.
  destruct (circuits s !! src) as [c|] eqn:Hc; [|apply calm_ret].
  destruct (match d with SourceToDestination => _ | DestinationToSource => _ end); [calm_steps|].
  apply calm_seq; [|intros; calm_steps]. eapply calm_put_circuit; [done|]. by destruct d; split; auto.
Qed.
#[local] Hint Resolve calm_queue_forward : calm.

Lemma counts_add max b n :
  0 ≤ n → counts_ok max b →
  (max = 0 ∨ saturating_add u64_max (source_to_destination b) n ≤ max →
     counts_ok max {| b with source_to_destination := saturating_add u64_max (source_to_destination b) n |}) ∧
  (max = 0 ∨ saturating_add u64_max (destination_to_source b) n ≤ max →
     counts_ok max {| b with destination_to_source := saturating_add u64_max (destination_to_source b) n |}).
Proof.
  intros Hn [Hs Hd Hm]. unfold saturating_add. split; intros Hle; split;
    cbn [source_to_destination destination_to_source]; unfold u64_max in *; try lia; intros Hz; specialize (Hm Hz); lia.
Qed.

Lemma calm_forward_accepted K src d n s : 0 ≤ n → calm K 0 (forward_accepted src d n) s.
Proof.
  intros Hn. unfold forward_accepted. apply calm_gets. destruct (circuits s !! src) as [c|] eqn:Hc; [|apply calm_ret].
  destruct (match d with SourceToDestination => _ | DestinationToSource => _ end) as [c' total] eqn:Hd. intros Hb.
  apply wp_bind, wp_modify, wp_bind, wp_gets. cbn [agent_config].
  destruct (negb (max_circuit_bytes (agent_config s) =? 0) && (max_circuit_bytes (agent_config s) <? total)) eqn:Hbig.
  { by eapply close_after_put. }
  assert (max_circuit_bytes (agent_config s) = 0 ∨ total ≤ max_circuit_bytes (agent_config s)) as Hle.
  { destruct (Z.eqb_spec (max_circuit_bytes (agent_config s)) 0); [by left|].
    destruct (Z.ltb_spec (max_circuit_bytes (agent_config s)) total); [done|by right]. }
  assert (circuit_from (max_circuit_bytes (agent_config s)) c c') as Hf.
  { destruct d; injection Hd as <- <-; (split; [done..|]); intros Hok; by apply counts_add. }
  pose proof (calm_put_circuit K src c c' s Hc Hf Hb) as Hp. unfold wp, put_circuit, modify in Hp.
  eapply wp_mono; [apply (calm_finish K)| |done]; [by eapply base_ok_shrinks|].
  intros u s' Hs'. by eapply (shrinks_trans K 0 0).
Qed.

Lemma calm_circuit_eof K src leg s : calm K 0 (circuit_eof src leg) s.
Proof.
  unfold circuit_eof. apply calm_gets. destruct (circuits s !! src) as [c|] eqn:Hc; [|apply calm_ret].
  destruct leg; case_match; try apply calm_ret; (apply calm_seq; [|intros; calm_steps]);
    (eapply calm_put_circuit; [done|]; by split; auto).
Qed.
Lemma calm_circuit_close_accepted K src leg s : calm K 0 (circuit_close_accepted src leg) s.
Proof.
  unfold circuit_close_accepted. apply calm_gets. destruct (circuits s !! src) as [c|] eqn:Hc; [|apply calm_ret].
  apply calm_seq; [|intros; calm_steps]. eapply calm_put_circuit; [done|]. by destruct leg; split; auto.
Qed.
#[local] Hint Resolve calm_circuit_eof calm_circuit_close_accepted : calm.

(** ** Giving up *)

Lemma calm_abort K src s : calm K 0 (abort_pending_connect src) s.
Proof. unfold abort_pending_connect, drop_stop_stream. calm_steps. Qed.
#[local] Hint Resolve calm_abort : calm.
Lemma calm_abort_both K src s : calm K 0 (abort_pending_connect_both src) s.
Proof. unfold abort_pending_connect_both. calm_steps. Qed.
#[local] Hint Resolve calm_abort_both : calm.

Lemma calm_append K src d data s : calm K 0 (append_pending_payload src d data) s.
Proof.
  unfold append_pending_payload. apply calm_gets. destruct (pending_circuits s !! src) as [c|] eqn:Hc; [|apply calm_ret].
  destruct (match checked_add _ _ _ with Some len => _ | None => _ end) eqn:Hfit; [|calm_steps].
  eapply calm_put_pending; [done| |by right; destruct d]. unfold checked_add in Hfit. destruct (_ <=? usize_max); [|done]. apply Z.leb_le in Hfit.
  rewrite <- zlen_app in Hfit. by destruct d; (split; auto); intros []; split.
Qed.
#[local] Hint Resolve calm_append : calm.

(** ** HOP streams *)

Definition is_request (o : HopResponderOutput (Multihash := Multihash)) : bool :=
  match o with HRRequest _ => true | _ => false end.
(** Outputs that ask for no decision. *)
Definition quiet (os : list (HopResponderOutput (Multihash := Multihash))) : Prop :=
  Forall (λ o, is_request o = false) os.

(** The outputs of a decision, and of the bytes before it. *)
Definition is_decision (i : HopResponderInput) : bool :=
  match i with AcceptReservation _ _ | AcceptConnect _ | HRReject _ => true | _ => false end.

(** A few more outputs, none of them a request. *)
Definition adds_quiet (r r' : HopResponder (Multihash := Multihash)) : Prop :=
  ∃ news, hr_outputs r' = hr_outputs r ++ news ∧ quiet news ∧ (length news ≤ 2)%nat.

Lemma adds_quiet_refl r : adds_quiet r r.
Proof. exists []. rewrite app_nil_r. split_and!; [done|by constructor|cbn; lia]. Qed.
Lemma terminal_outputs resp r : adds_quiet r (queue_terminal_hop_response resp r).1.
Proof.
  unfold queue_terminal_hop_response, attempt, hr_push. run_simpl. destruct resp as [f|e| |]; cbn; try apply adds_quiet_refl.
  - exists [HROutbound f; HRCloseWrite]. rewrite <- app_assoc. split_and!; [done|by repeat constructor|cbn; lia].
  - exists [HRReset]. split_and!; [done|by repeat constructor|cbn; lia].
Qed.
Lemma reset_outputs r : adds_quiet r (HopResponder_queue_reset r).1.
Proof. exists [HRReset]. split_and!; [done|by repeat constructor|cbn; lia]. Qed.

Lemma decision_outputs i r : is_decision i = true → adds_quiet r (handle_input i r).1.
Proof.
  intros Hi. unfold handle_input. cbn [HopResponder_protocol]. destruct i as [| | |v l|l|st]; try done; cbn [HopResponder_handle_input].
  - unfold accept_reservation. rewrite run_gets. destruct (negb _); [apply adds_quiet_refl|]. apply terminal_outputs.
  - unfold accept_connect. rewrite run_gets. destruct (negb _); [apply adds_quiet_refl|].
    rewrite run_attempt. destruct (encode_hop_status StatusOk None l) as [f|e| |];
      try apply adds_quiet_refl; [|apply reset_outputs].
    unfold hr_push. run_simpl. cbn. destruct (hr_pending_bridge r); cbn.
    + exists [HROutbound f]. split_and!; [done|by repeat constructor|cbn; lia].
    + eexists [HROutbound f; HRBridgeData _]. rewrite <- app_assoc. split_and!; [done|by repeat constructor|cbn; lia].
  - unfold HopResponder_reject. rewrite run_gets. destruct (negb _); [apply adds_quiet_refl|].
    destruct st; try apply reset_outputs; apply terminal_outputs.
Qed.

Lemma data_outputs d r :
  hr_outputs r = [] →
  let os := hr_outputs (handle_input (HRData d) r).1 in
  quiet os ∧ (length os ≤ 2)%nat ∨ ∃ q, os = [HRRequest q].
Proof.
  intros Ho. assert (∀ r', hr_outputs r' = [] → ∀ r'', adds_quiet r' r'' →
    quiet (hr_outputs r'') ∧ (length (hr_outputs r'') ≤ 2)%nat ∨ ∃ q, hr_outputs r'' = [HRRequest q]) as Hq.
  { intros r' Hr' r'' (news & -> & Hn). left. by rewrite Hr'. }
  cbv zeta. unfold handle_input. cbn [HopResponder_protocol HopResponder_handle_input].
  unfold HopResponder_on_data. rewrite run_gets. cbn [id].
  destruct (hr_remote_write_closed r); [by apply (Hq r), adds_quiet_refl|].
  destruct (hr_bridged r).
  { destruct d; [by apply (Hq r), adds_quiet_refl|]. apply (Hq r); [done|].
    eexists [HRBridgeData _]. split_and!; [done|by repeat constructor|cbn; lia]. }
  destruct (hr_done r); [by apply (Hq r), adds_quiet_refl|].
  case_bool_decide; [by apply (Hq r), adds_quiet_refl|]. rewrite run_modify, run_gets.
  set (r1 := mkHopResponder _ _ _ _ _ _ _). change (hr_recv_buf r1) with (hr_recv_buf r ++ d).
  assert (hr_outputs r1 = []) as Ho1 by done.
  destruct (relay_decode_frame _) as [p c| |len|e];
    [|by apply (Hq r1), adds_quiet_refl|by apply (Hq r1), reset_outputs|by apply (Hq r1), reset_outputs].
  rewrite run_lift. destruct (sub_or_panic _ _) as [left_|?| |]; try (by apply (Hq r1), adds_quiet_refl).
  destruct (_ <? left_); [by apply (Hq r1), reset_outputs|]. rewrite run_attempt.
  destruct (HopMessage_decode p) as [m|e| |];
    [|by apply (Hq r1), terminal_outputs|by apply (Hq r1), adds_quiet_refl|by apply (Hq r1), adds_quiet_refl].
  rewrite run_lift.
  destruct (hop_request_of m) as [[st|[q pend]]|e| |]; try (by apply (Hq r1), adds_quiet_refl); [by apply (Hq r1), terminal_outputs|].
  unfold hr_push. run_simpl. case_bool_decide; cbn.
  - destruct (drain_front _ _); cbn; rewrite Ho; [right; by eexists|left; split; [by constructor|cbn; lia]..].
  - rewrite Ho. right. by eexists.
Qed.

Lemma closed_outputs (r : HopResponder (Multihash := Multihash)) :
  hr_outputs (handle_input HRRemoteWriteClosed r).1 = hr_outputs r.
Proof.
  unfold handle_input. cbn [HopResponder_protocol HopResponder_handle_input]. unfold HopResponder_remote_write_closed.
  run_simpl. cbn. by case_match.
Qed.

(** An input that is refused changes nothing. *)
Lemma data_error d r r' e : handle_input (HRData d) r = (r', Err e) → r' = r.
Proof.
  unfold handle_input. cbn [HopResponder_protocol HopResponder_handle_input]. unfold HopResponder_on_data. rewrite run_gets. cbn [id].
  destruct (hr_remote_write_closed r); [done|]. destruct (hr_bridged r); [by destruct d|].
  destruct (hr_done r); [done|]. case_bool_decide; [by intros [= <-]|]. rewrite run_modify, run_gets.
  destruct (relay_decode_frame _) as [p c| |len|x]; try done. rewrite run_lift. unfold sub_or_panic.
  destruct (checked_sub _ _) as [left_|]; [cbn [expect]|done]. destruct (_ <? left_); [done|]. rewrite run_attempt.
  assert (∀ st r, queue_status_and_close st r = (r', Err e) → False) as Hst.
  { intros st r0. unfold queue_status_and_close, queue_terminal_hop_response. rewrite run_attempt.
    by destruct (encode_hop_status _ _ _). }
  destruct (HopMessage_decode p) as [m|x| |]; try done. rewrite run_lift.
  destruct (hop_request_total m) as [[st|[q pend]] ->]; [by intros ?%Hst|].
  unfold hr_push, drain_front. case_bool_decide; [|done]. rewrite run_lift_bind. by destruct (_ <=? _).
Qed.
Lemma closed_no_error (r r' : HopResponder (Multihash := Multihash)) e : handle_input HRRemoteWriteClosed r = (r', Err e) → False.
Proof. done. Qed.

(** A worker whose responder took an input. *)
Lemma hop_outputs_put k w s : hop_outputs k {| s with hop_workers := <[k := w]> (hop_workers s) |} = hr_outputs (responder w).
Proof. unfold hop_outputs. cbn. by rewrite lookup_insert_eq. Qed.

Lemma feed_hop_spec key i s :
  base_ok s →
  wp (feed_hop key i) (λ fed s', shrinks (Some (HopOf key)) 0 s s' ∧ pending_circuits s' = pending_circuits s ∧
      match hop_workers s !! key with
      | Some w => hop_outputs key s' = hr_outputs (handle_input i (responder w)).1 ∧
          (fed = false → ∃ r e, handle_input i (responder w) = (r, Err e))
      | None => hop_outputs key s' = []
      end) (λ _ _, False) s.
Proof.
  intros Hb. unfold feed_hop. apply wp_bind, wp_gets. destruct (hop_workers s !! key) as [w|] eqn:Hk; cycle 1.
  { apply wp_ret. split_and!; [apply shrinks_refl|done|]. unfold hop_outputs. by rewrite Hk. }
  pose proof (hr_input_safe i (responder w) (bo_workers _ Hb _ _ Hk)) as Hr. unfold wp in Hr.
  destruct (handle_input i (responder w)) as [r res]. cbn [fst].
  assert (hr_ok r → shrinks (Some (HopOf key)) 0 s {| s with hop_workers := <[key := {| w with responder := r |}]> (hop_workers s) |}) as Hsh.
  { intros Hok. pose proof (calm_put_worker (Some (HopOf key)) key w {| w with responder := r |} s Hk) as Hc.
    apply Hc; [|by left|done]. split; auto. }
  apply wp_bind, wp_modify. destruct res as [[]|e| |]; try done; specialize (Hsh Hr).
  - apply wp_ret. split; [done|split; [done|split; [apply hop_outputs_put|done]]].
  - unfold runtime_error, push_event. apply wp_bind, wp_modify, wp_ret. split; [|split; [done|split]].
    + apply (shrinks_trans _ 0 0 _ _ _ Hsh). by apply calm_event; [..|by eapply base_ok_shrinks].
    + unfold hop_outputs. cbn. by rewrite lookup_insert_eq.
    + eauto.
Qed.

Lemma calm_feed_hop key i s : calm (Some (HopOf key)) 0 (feed_hop key i) s.
Proof. intros Hb. eapply wp_mono; [by apply feed_hop_spec|by intros ? ? []|done]. Qed.

(** Feeding a decision to a worker with nothing queued. *)
Definition few_quiet key s : Prop := quiet (hop_outputs key s) ∧ (length (hop_outputs key s) ≤ 2)%nat.

Lemma few_quiet_nil key s : hop_outputs key s = [] → few_quiet key s.
Proof. unfold few_quiet. intros ->. split; [by constructor|cbn; lia]. Qed.
Lemma few_quiet_shrinks key d s s' : shrinks None d s s' → few_quiet key s → few_quiet key s'.
Proof.
  intros Hs Hq. destruct (sh_outputs _ _ _ _ Hs key ltac:(done)) as [Ho|Ho]; [|by apply few_quiet_nil].
  unfold few_quiet. by rewrite Ho.
Qed.

Lemma decide_hop key i s :
  is_decision i = true → base_ok s → hop_outputs key s = [] →
  wp (feed_hop key i) (λ _ s', shrinks (Some (HopOf key)) 0 s s' ∧ few_quiet key s') (λ _ _, False) s.
Proof.
  intros Hi Hb Ho. eapply wp_mono; [by apply feed_hop_spec| |done]. intros fed s' (Hs & _ & Hout). split; [done|].
  unfold hop_outputs in Ho. destruct (hop_workers s !! key) as [w|]; [|by apply few_quiet_nil].
  destruct (decision_outputs i (responder w) Hi) as (news & Hn & Hq & Hl). destruct Hout as [Hout _].
  unfold few_quiet. by rewrite Hout, Hn, Ho.
Qed.

Lemma calm_deny K key d st s : K = Some (HopOf key) → calm K 0 (deny_connect key d st) s.
Proof.
  intros ->. unfold deny_connect. apply calm_gets. destruct (hop_workers s !! key); [|apply calm_ret].
  apply calm_seq; [by apply calm_event|]. intros _ s'. apply calm_seq; [apply calm_feed_hop|]. intros. apply calm_ret.
Qed.

(** Polling takes the first output and nothing else. *)
Lemma poll_hop_spec key s :
  base_ok s →
  wp (poll_hop key) (λ o s', shrinks (Some (HopOf key)) 0 s s' ∧ pending_circuits s' = pending_circuits s ∧
      match hop_outputs key s with
      | [] => o = None ∧ hop_outputs key s' = []
      | x :: os => o = Some x ∧ hop_outputs key s' = os ∧ is_Some (hop_workers s' !! key)
      end) (λ _ _, False) s.
Proof.
  intros Hb. unfold poll_hop, hop_outputs. apply wp_bind, wp_gets. destruct (hop_workers s !! key) as [w|] eqn:Hk; cycle 1.
  { apply wp_ret. split; [apply shrinks_refl|split; [done|]]. by rewrite Hk. }
  unfold poll_output. cbn [HopResponder_protocol]. unfold HopResponder_poll_output.
  assert (∀ os, shrinks (Some (HopOf key)) 0 s {| s with hop_workers :=
    <[key := {| w with responder := {| (responder w) with hr_outputs := os |} |}]> (hop_workers s) |}) as Hsh.
  { intros os. eapply calm_put_worker; [done| |by left|done]. split; [done|by left|]. by intros []. }
  destruct (hr_outputs (responder w)) as [|x os] eqn:Ho; apply wp_bind, wp_modify, wp_ret.
  - split; [|split; [done|split; [done|cbn; by rewrite lookup_insert_eq]]]. specialize (Hsh []). destruct w as [p []]. cbn in *. by subst.
  - split; [apply Hsh|split; [done|split; [done|]]]. cbn. rewrite lookup_insert_eq. by eexists.
Qed.

(** A round that asks for no decision. *)
Lemma calm_round K key now o s : is_request o = false → calm K 0 (drain_hop_round key now o) s.
Proof. destruct o; try done; intros _; cbn [drain_hop_round]; calm_steps. Qed.

Lemma round_goes_on key now o s s' :
  is_request o = false → is_Some (hop_workers s !! key) → drain_hop_round key now o s = (s', Ok false) → False.
Proof.
  intros Ho [w Hw] Hr. destruct o; try done; cbn [drain_hop_round] in Hr; rewrite run_gets in Hr; try rewrite Hw in Hr;
    by apply bind_ok in Hr as (? & ? & _ & [= ]).
Qed.

(** The loop of [drain_hop] empties a worker's quiet outputs. *)
Lemma drain_quiet n key now s :
  base_ok s → quiet (hop_outputs key s) → (length (hop_outputs key s) ≤ n)%nat →
  wp (drain_hop_loop n key now) (λ _ s', shrinks (Some (HopOf key)) 0 s s' ∧ hop_outputs key s' = []) (λ _ _, False) s.
Proof.
  revert s. induction n as [|n IH]; intros s Hb Hq Hl; cbn [drain_hop_loop]; apply wp_bind;
    (eapply wp_mono; [by apply poll_hop_spec| |done]); cbn beta; intros o s1 (Hs1 & _ & Hout);
    destruct (hop_outputs key s) as [|x os]; cbn in Hl; try lia.
  1,2: destruct Hout as [-> Ho]; by apply wp_ret.
  destruct Hout as (-> & Ho & Hw). inversion Hq as [|? ? Hx Hos]; subst. apply wp_bind.
  assert (base_ok s1) as Hb1 by (by eapply base_ok_shrinks).
  eapply wp_mono; [by apply wp_run, (calm_round None)| |naive_solver]. intros go s2 [Hrun Hs2].
  destruct go; [|by edestruct round_goes_on]. destruct (sh_outputs _ _ _ _ Hs2 key ltac:(done)) as [Ho2|Ho2].
  all: (eapply wp_mono; [apply IH; [by eapply base_ok_shrinks|rewrite Ho2; done || by constructor|rewrite Ho2; cbn; lia]| |done]).
  all: intros u s3 [Hs3 Ho3]; split; [|done]; apply (shrinks_trans _ 0 0 _ _ _ Hs1);
    apply (shrinks_trans _ 0 0 _ _ _ (shrinks_exempt _ _ _ _ Hs2) Hs3).
Qed.

Lemma drain_hop_quiet key now s :
  base_ok s → quiet (hop_outputs key s) →
  wp (drain_hop key now) (λ _ s', shrinks (Some (HopOf key)) 0 s s' ∧ hop_outputs key s' = []) (λ _ _, False) s.
Proof. intros Hb Hq. unfold drain_hop. apply wp_bind, wp_gets. apply drain_quiet; [done|done|lia]. Qed.

(** With nothing queued before and after, nothing new is queued. *)
Lemma shrinks_settle key d s s' :
  hop_outputs key s' = [] → shrinks (Some (HopOf key)) d s s' → shrinks None d s s'.
Proof.
  intros Ho []. split; auto. intros k _. destruct (decide (k = key)) as [->|]; [by right|]. apply sh_outputs0. congruence.
Qed.

Lemma feed_quiet key i s :
  is_decision i = true → base_ok s → quiet (hop_outputs key s) →
  wp (feed_hop key i) (λ _ s', shrinks (Some (HopOf key)) 0 s s' ∧ pending_circuits s' = pending_circuits s ∧
    quiet (hop_outputs key s')) (λ _ _, False) s.
Proof.
  intros Hi Hb Ho. eapply wp_mono; [by apply feed_hop_spec| |done]. intros fed s' (Hs & Hp & Hout). split_and!; [done|done|].
  unfold hop_outputs in Ho. destruct (hop_workers s !! key) as [w|]; [destruct Hout as [-> _]|rewrite Hout; by constructor].
  destruct (decision_outputs i (responder w) Hi) as (news & -> & Hq & Hl). by apply Forall_app.
Qed.

Lemma quiet_shrinks key d s s' : shrinks None d s s' → quiet (hop_outputs key s) → quiet (hop_outputs key s').
Proof. intros Hs Hq. destruct (sh_outputs _ _ _ _ Hs key ltac:(done)) as [-> | ->]; [done|by constructor]. Qed.

Lemma deny_quiet key d st s :
  base_ok s → quiet (hop_outputs key s) →
  wp (deny_connect key d st) (λ _ s', shrinks (Some (HopOf key)) 0 s s' ∧ quiet (hop_outputs key s')) (λ _ _, False) s.
Proof.
  intros Hb Hq. unfold deny_connect. apply wp_bind, wp_gets. destruct (hop_workers s !! key) as [w|]; cycle 1.
  { apply wp_ret. split; [apply shrinks_refl|done]. }
  apply (wp_calm None 0); [done|by apply calm_event|]. intros u s1 Hs1 Hb1.
  apply wp_bind. eapply wp_mono; [apply feed_quiet; [done|done|by eapply quiet_shrinks]| |done].
  intros fed s2 (Hs2 & _ & Hq2). apply wp_ret. split; [|done].
  by apply (shrinks_trans _ 0 0 _ _ _ (shrinks_exempt _ _ _ _ Hs1)).
Qed.

(** What [fail_pending_connect] does once the circuit is out of the table. *)
Definition fail_rest (src : StreamKey) (circuit : PendingCircuit (Multihash := Multihash)) (status : Status) : A unit :=
  _ ← cancel_pending_control_ops src;
  _ ← match stop_stream circuit with
      | None => mret tt
      | Some stream =>
          _ ← drop_stop_stream stream;
          queue_reset (pc_destination_peer_id circuit) stream
      end;
  _ ← deny_connect src (pc_destination_peer_id circuit) status;
  drain_hop src (Now_from_millis 0).

Lemma fail_pending_run src st s c :
  pending_circuits s !! src = Some c →
  fail_pending_connect src st s = fail_rest src c st {| s with pending_circuits := delete src (pending_circuits s) |}.
Proof. intros Hc. unfold fail_pending_connect. rewrite run_gets, Hc. done. Qed.

Lemma fail_rest_spec src c st s :
  base_ok s → quiet (hop_outputs src s) →
  wp (fail_rest src c st) (λ _ s', shrinks (Some (HopOf src)) 0 s s' ∧ hop_outputs src s' = []) (λ _ _, False) s.
Proof.
  intros Hb Hq. unfold fail_rest, drop_stop_stream.
  apply (wp_calm None 0); [done|apply calm_cancel_control|]. intros u s1 Hs1 Hb1.
  apply (wp_calm None 0); [done|calm_steps|]. intros u' s2 Hs2 Hb2.
  pose proof (shrinks_trans _ 0 0 _ _ _ Hs1 Hs2) as Hs02.
  apply wp_bind. eapply wp_mono; [apply deny_quiet; [done|by eapply quiet_shrinks]| |done].
  intros u'' s3 [Hs3 Hq3]. eapply wp_mono; [apply drain_hop_quiet; [by eapply base_ok_shrinks|done]| |done].
  intros u3 s4 [Hs4 Ho]. split; [|done].
  apply (shrinks_trans _ 0 0 _ _ _ (shrinks_exempt _ _ _ _ Hs02)). by apply (shrinks_trans _ 0 0 _ s3).
Qed.

Lemma fail_quiet src st s :
  base_ok s → quiet (hop_outputs src s) → is_Some (pending_circuits s !! src) ∨ hop_outputs src s = [] →
  wp (fail_pending_connect src st) (λ _ s', shrinks (Some (HopOf src)) 0 s s' ∧ hop_outputs src s' = []) (λ _ _, False) s.
Proof.
  intros Hb Hq Hor. destruct (pending_circuits s !! src) as [c|] eqn:Hc; cycle 1.
  { destruct Hor as [[]|Ho]; [done|]. unfold fail_pending_connect. apply wp_bind, wp_gets. rewrite Hc. apply wp_ret.
    split; [apply shrinks_refl|done]. }
  unfold wp. rewrite (fail_pending_run _ _ _ _ Hc). pose proof (calm_drop_pending None src s Hb) as Hd.
  unfold wp, drop_pending, modify in Hd.
  pose proof (fail_rest_spec src c st _ (base_ok_shrinks _ _ _ _ Hd Hb) (quiet_shrinks src _ _ _ Hd Hq)) as Hr.
  unfold wp in Hr. destruct (fail_rest _ _ _ _) as [s' [u|e| |]]; try done. destruct Hr as [Hs Ho]. split; [|done].
  by apply (shrinks_trans _ 0 0 _ _ _ (shrinks_exempt _ _ _ _ Hd)).
Qed.

(** ** Between the host's calls *)

(** No responder has an output waiting. *)
Definition settled s : Prop := ∀ k, hop_outputs k s = [].

Lemma settled_shrinks K d s s' : (∀ k, K ≠ Some (HopOf k)) → shrinks K d s s' → settled s → settled s'.
Proof. intros HK Hs Hset k. destruct (sh_outputs _ _ _ _ Hs k (HK k)) as [-> | ->]; auto. Qed.

Definition steady {X} (m : A X) s : Prop :=
  base_ok s → settled s → wp m (λ _ s', shrinks None 0 s s') (λ _ _, False) s.

Lemma steady_calm {X} (m : A X) s : calm None 0 m s → steady m s.
Proof. intros Hm Hb _. by apply Hm. Qed.
Lemma steady_seq {X Y} (m : A X) (f : X → A Y) s :
  steady m s → (∀ x s', steady (f x) s') → steady (m ≫= f) s.
Proof.
  intros Hm Hf Hb Hset. apply wp_bind. eapply wp_mono; [by apply Hm| |done]. cbn beta. intros x s' Hs.
  eapply wp_mono; [apply Hf; [by eapply base_ok_shrinks|by eapply (settled_shrinks None)]| |done].
  cbn beta. intros y s'' Hs'. by apply (shrinks_trans _ 0 0 _ s').
Qed.
Lemma steady_gets {X Y} (g : Agent → X) (f : X → A Y) s : steady (f (g s)) s → steady (gets g ≫= f) s.
Proof. intros Hf Hb Hset. apply wp_bind, wp_gets. by apply Hf. Qed.
Lemma steady_for_each {X} (f : X → A unit) l s : (∀ x s', steady (f x) s') → steady (for_each f l) s.
Proof.
  revert s. induction l as [|x l IH]; intros s Hf; cbn [for_each]; [apply steady_calm, calm_ret|].
  apply steady_seq; [apply Hf|]. auto.
Qed.

Lemma steady_fail src st s : steady (fail_pending_connect src st) s.
Proof.
  intros Hb Hset. eapply wp_mono; [apply fail_quiet; [done|rewrite Hset; by constructor|by right]| |done].
  intros u s' [Hs Ho]. by eapply shrinks_settle.
Qed.

(** Failing a circuit whose entry was just overwritten. *)
Lemma fail_after_put src st s c c' :
  base_ok s → settled s → pending_circuits s !! src = Some c →
  wp (fail_pending_connect src st) (λ _ s', shrinks None 0 s s') (λ _ _, False)
    {| s with pending_circuits := <[src := c']> (pending_circuits s) |}.
Proof.
  intros Hb Hset Hc. unfold wp. erewrite fail_pending_run by apply lookup_insert_eq. cbn. rewrite delete_insert_eq.
  pose proof (calm_drop_pending None src s Hb) as Hd. unfold wp, drop_pending, modify in Hd.
  pose proof (fail_rest_spec src c' st _ (base_ok_shrinks _ _ _ _ Hd Hb)
    (quiet_shrinks src _ _ _ Hd ltac:(rewrite Hset; by constructor))) as Hr.
  unfold wp in Hr. destruct (fail_rest _ _ _ _) as [s' [u|e| |]]; try done. destruct Hr as [Hs Ho].
  apply (shrinks_trans _ 0 0 _ _ _ Hd). by eapply shrinks_settle.
Qed.

(** ** STOP streams *)

Lemma calm_put_stop src c m s :
  pending_circuits s !! src = Some c → (pending_ok c → si_ok m) → is_Some (stop c) →
  calm (Some Stops) 0 (put_pending src {| c with stop := Some m |}) s.
Proof.
  intros Hc Hm Hst. eapply calm_put_pending; [done| |by left]. split; [done..|by left|].
  intros Hok. specialize (Hm Hok). destruct Hok. split; cbn; auto. by intros ? [= <-].
Qed.

Lemma calm_feed_stop src i s : calm (Some Stops) 0 (feed_stop src i) s.
Proof.
  intros Hb. unfold feed_stop. apply wp_bind, wp_gets. destruct (pending_circuits s !! src) as [c|] eqn:Hc; [|by apply calm_ret].
  destruct (stop c) as [m|] eqn:Hst; [|by apply calm_ret].
  pose proof (po_machine _ (bo_pending _ Hb _ _ Hc) _ Hst) as Hm.
  pose proof (input_safe m i Hm I) as Hw. unfold wp in Hw. destruct (handle_input i m) as [m' r].
  destruct r as [u|e| |]; try done.
  all: apply (wp_calm (Some Stops) 0); [done|eapply calm_put_stop; [done|done|by rewrite Hst]|]; intros u' s1 Hs1 Hb1.
  - by apply wp_ret.
  - apply (wp_calm None 0); [done|apply calm_runtime_error|]. intros u'' s2 Hs2 _. apply wp_ret.
    by apply (shrinks_trans _ 0 0 _ _ _ Hs1), shrinks_exempt.
Qed.

Lemma poll_stop_spec src s :
  base_ok s →
  wp (poll_stop src) (λ o s', shrinks (Some Stops) 0 s s' ∧
      match stop_outputs src s with
      | [] => o = None
      | x :: os => o = Some x ∧ stop_outputs src s' = os ∧ is_Some (pending_circuits s' !! src ≫= stop)
      end) (λ _ _, False) s.
Proof.
  intros Hb. unfold poll_stop, stop_outputs. apply wp_bind, wp_gets.
  destruct (pending_circuits s !! src) as [c|] eqn:Hc; [|apply wp_ret; split; [apply shrinks_refl|done]].
  change (Some c ≫= stop) with (stop c).
  destruct (stop c) as [m|] eqn:Hst; [|apply wp_ret; split; [apply shrinks_refl|done]].
  unfold poll_output. cbn [StopInitiator_protocol]. unfold StopInitiator_poll_output.
  assert (∀ os, shrinks (Some Stops) 0 s {| s with pending_circuits :=
    <[src := {| c with stop := Some {| m with si_outputs := os |} |}]> (pending_circuits s) |}) as Hsh.
  { intros os. apply (calm_put_stop src c {| m with si_outputs := os |} s Hc); [|by rewrite Hst|done].
    intros Hok. destruct (po_machine _ Hok _ Hst). by split. }
  destruct (si_outputs m) as [|x os] eqn:Ho; apply wp_bind, wp_modify, wp_ret.
  - split; [|done]. specialize (Hsh []). destruct m. cbn in *. by subst.
  - split; [apply Hsh|split; [done|]]. cbn. rewrite lookup_insert_eq. by eexists.
Qed.

(** Going on from a state reached by speaking for [K]. *)
Lemma wp_speak {X Y} K s s1 (m : A X) (f : X → A Y) (P : X → Agent → Prop) Q :
  shrinks K 0 s s1 → base_ok s1 → wp m (λ x s', shrinks K 0 s1 s' ∧ P x s') (λ _ _, False) s1 →
  (∀ x s', shrinks K 0 s s' → base_ok s' → P x s' → wp (f x) Q (λ _ _, False) s') → wp (m ≫= f) Q (λ _ _, False) s1.
Proof.
  intros Hs Hb Hm Hf. apply wp_bind. eapply wp_mono; [exact Hm| |done]. cbn beta. intros x s' [Hs' HP].
  apply Hf; [by apply (shrinks_trans _ 0 0 _ s1)|by eapply base_ok_shrinks|done].
Qed.

Lemma fail_after src st s s1 :
  shrinks (Some (HopOf src)) 0 s s1 → base_ok s1 → quiet (hop_outputs src s1) → is_Some (pending_circuits s1 !! src) →
  wp (_ ← fail_pending_connect src st; mret false)
    (λ _ s', shrinks (Some (HopOf src)) 0 s s' ∧ hop_outputs src s' = []) (λ _ _, False) s1.
Proof.
  intros Hs Hb Hq Hp. eapply (wp_speak _ s); [done|done|by apply fail_quiet; auto|]. intros u s' ? ? ?. by apply wp_ret.
Qed.

(** A STOP stream that was accepted: the HOP side answers and bridges. *)
Lemma accepted_round src now s :
  base_ok s → settled s → is_Some (pending_circuits s !! src) →
  wp (drain_stop_round src now (SIOutcome SIAccepted))
    (λ _ s', shrinks (Some (HopOf src)) 0 s s' ∧ hop_outputs src s' = []) (λ _ _, False) s.
Proof.
  intros Hb Hset [c Hc]. cbn [drain_stop_round]. apply wp_bind, wp_gets. rewrite Hc.
  apply wp_bind, wp_modify, wp_bind, wp_gets.
  set (s1 := mkAgent _ _ _ _ _ _ _ _ _ _ _ _ _ _ _ _ _ _ _ _).
  assert (shrinks None 0 s s1) as Hs1.
  { apply (calm_put_pending None src c {| c with stop_deadline_ms := None |} s Hc); [|by right|done].
    split; [done..|by right|]. by intros []. }
  assert (base_ok s1) as Hb1 by (by eapply base_ok_shrinks).
  assert (is_Some (pending_circuits s1 !! src)) as Hp1 by (cbn; rewrite lookup_insert_eq; by eexists).
  assert (quiet (hop_outputs src s1)) as Hq1 by (change (hop_outputs src s1) with (hop_outputs src s); rewrite Hset; by constructor).
  apply (shrinks_exempt (Some (HopOf src))) in Hs1. clearbody s1.
  eapply (wp_speak _ s); [done|done|by apply feed_quiet|]. cbn beta. intros fed s2 Hs2 Hb2 [Hp2 Hq2]. rewrite <- Hp2 in Hp1.
  destruct fed; cbn [negb]; [|by apply fail_after]. apply wp_bind, wp_gets.
  destruct (hop_workers s2 !! src) as [w|]; [|by apply fail_after].
  eapply (wp_speak _ s); [done|done|by apply poll_hop_spec|]. cbn beta. intros o s3 Hs3 Hb3 [Hp3 Hq3]. rewrite <- Hp3 in Hp1.
  assert (quiet (hop_outputs src s3)) as Hq3'.
  { destruct (hop_outputs src s2) as [|x os]; [destruct Hq3 as [_ ->]; by constructor|].
    destruct Hq3 as (_ & -> & _). by inversion Hq2. }
  destruct o as [[| data| | |]|]; try by apply fail_after.
  apply (wp_calm None 0); [done|by apply calm_queue_send|]. intros u s4 Hs4 Hb4.
  assert (shrinks (Some (HopOf src)) 0 s s4) as Hs04 by (by apply (shrinks_trans _ 0 0 _ s3), shrinks_exempt).
  eapply (wp_speak _ s); [done|done|apply drain_hop_quiet; [done|by eapply quiet_shrinks]|].
  intros u' s5 ? ? ?. by apply wp_ret.
Qed.

Lemma steady_round src now o s :
  is_Some (pending_circuits s !! src ≫= stop) → steady (drain_stop_round src now o) s.
Proof.
  intros Hp Hb Hset. assert (∀ st, steady (_ ← fail_pending_connect src st; mret false) s) as Hfail.
  { intros st. apply steady_seq; [apply steady_fail|]. intros. apply steady_calm, calm_ret. }
  destruct (pending_circuits s !! src) as [c|] eqn:Hc; [|by destruct Hp].
  destruct (po_stream _ (bo_pending _ Hb _ _ Hc) Hp) as [k Hk].
  destruct o as [data|[|st|st| |]|data| |]; try by apply Hfail.
  2:{ eapply wp_mono; [apply accepted_round; [done|done|by eexists]| |done]. intros u s' [Hs Ho]. by eapply shrinks_settle. }
  2:{ apply steady_calm; [|done|done]. cbn [drain_stop_round]. calm_steps. }
  all: cbn [drain_stop_round]; apply wp_bind, wp_gets; rewrite Hc; apply wp_bind, wp_lift; rewrite Hk; cbn [expect].
  all: apply (wp_calm None 0); [done|auto with calm|]; intros u s' ? ?; by apply wp_ret.
Qed.

(** Emptying a STOP initiator. *)
Lemma drain_stop_steady n src now s :
  base_ok s → settled s → (length (stop_outputs src s) ≤ n)%nat →
  wp (drain_stop_loop n src now) (λ _ s', shrinks (Some Stops) 0 s s') (λ _ _, False) s.
Proof.
  revert s. induction n as [|n IH]; intros s Hb Hset Hl; cbn [drain_stop_loop]; apply wp_bind;
    (eapply wp_mono; [by apply poll_stop_spec| |done]); cbn beta; intros o s1 [Hs1 Hout];
    destruct (stop_outputs src s) as [|x os]; cbn in Hl; try lia.
  1,2: subst; by apply wp_ret.
  destruct Hout as (-> & Ho & Hp). apply wp_bind. assert (base_ok s1) as Hb1 by (by eapply base_ok_shrinks).
  assert (settled s1) as Hset1 by (by eapply (settled_shrinks (Some Stops))).
  eapply wp_mono; [by apply steady_round| |done]. cbn beta. intros go s2 Hs2.
  assert (shrinks (Some Stops) 0 s s2) as Hs02 by (by apply (shrinks_trans _ 0 0 _ s1), shrinks_exempt).
  destruct go; [|by apply wp_ret]. eapply wp_mono; [apply IH| |done].
  - by eapply base_ok_shrinks.
  - by eapply (settled_shrinks None).
  - destruct (sh_stops _ _ _ _ Hs2 src ltac:(done)) as [-> | ->]; [rewrite Ho; lia|cbn; lia].
  - cbn beta. intros u s3 Hs3. by apply (shrinks_trans _ 0 0 _ s2).
Qed.

(** The host's view: [Stops] are the agent's own business. *)
Abbreviation keeps s := (λ _ s', shrinks (Some Stops) 0 s s').
Lemma drain_stop_keeps src now s :
  base_ok s → settled s → wp (drain_stop src now) (keeps s) (λ _ _, False) s.
Proof. intros Hb Hset. unfold drain_stop. apply wp_bind, wp_gets. by apply drain_stop_steady. Qed.

(** ** Deadlines *)

Definition reservation_due (now : Now) (p : PeerId) s : Prop :=
  ∃ r, reservations s !! p = Some r ∧ (reservation_deadline_ms r <=? monotonic_ms now) = true.
Definition circuit_due (now : Now) (k : StreamKey) s : Prop :=
  ∃ c, circuits s !! k = Some c ∧ due_at now (circuit_deadline_ms c) = true.
Definition hop_due (now : Now) (k : StreamKey) s : Prop :=
  ∃ w, hop_workers s !! k = Some w ∧ due_at now (hw_deadline_ms w) = true.
Definition stop_due (now : Now) (k : StreamKey) s : Prop :=
  ∃ c, pending_circuits s !! k = Some c ∧ due_at now (stop_deadline_ms c) = true.

(** What is due was due before. *)
Definition stays_clear {X} (D : X → Agent → Prop) : Prop := ∀ K x s s', shrinks K 0 s s' → D x s' → D x s.

Lemma reservation_due_clear now : stays_clear (reservation_due now).
Proof. intros K p s s' Hs (r & Hr & Hd). destruct (sh_reservations _ _ _ _ Hs p r Hr) as (r' & ? & ->). by exists r. Qed.
Lemma circuit_due_clear now : stays_clear (circuit_due now).
Proof.
  intros K k s s' Hs (c & Hc & Hd). destruct (sh_circuits _ _ _ _ Hs k c Hc) as (c0 & H0 & Hf).
  exists c0. by rewrite <- (cf_deadline _ _ _ Hf).
Qed.
Lemma hop_due_clear now : stays_clear (hop_due now).
Proof.
  intros K k s s' Hs (w & Hw & Hd). destruct (sh_workers _ _ _ _ Hs k w Hw) as (w0 & H0 & Hf).
  exists w0. split; [done|]. by destruct (wf_deadline _ _ Hf) as [<-|Hn]; [|rewrite Hn in Hd].
Qed.
Lemma stop_due_clear now : stays_clear (stop_due now).
Proof.
  intros K k s s' Hs (c & Hc & Hd). destruct (sh_pending _ _ _ _ Hs k c Hc) as (c0 & H0 & Hf).
  exists c0. split; [done|]. by destruct (pf_deadline _ _ Hf) as [<-|Hn]; [|rewrite Hn in Hd].
Qed.

(** A loop over what is due leaves nothing due. *)
Lemma clears {X} (D : X → Agent → Prop) (f : X → A unit) l s :
  stays_clear D → base_ok s → settled s →
  (∀ x s, base_ok s → settled s → wp (f x) (λ _ s', shrinks None 0 s s' ∧ ¬ D x s') (λ _ _, False) s) →
  (∀ x, D x s → x ∈ l) →
  wp (for_each f l) (λ _ s', shrinks None 0 s s' ∧ ∀ x, ¬ D x s') (λ _ _, False) s.
Proof.
  intros HD Hb Hset Hf. revert s Hb Hset. induction l as [|x l IH]; intros s Hb Hset Hl; cbn [for_each].
  { apply wp_ret. split; [apply shrinks_refl|]. intros x Hx%Hl. by apply elem_of_nil in Hx. }
  apply wp_bind. eapply wp_mono; [by apply Hf| |done]. cbn beta. intros u s1 [Hs1 Hx].
  eapply wp_mono; [apply IH| |done].
  - by eapply base_ok_shrinks.
  - by eapply (settled_shrinks None).
  - intros y Hy. pose proof (Hl y (HD _ _ _ _ Hs1 Hy)) as [|]%elem_of_cons; [by subst|done].
  - cbn beta. intros u' s2 [Hs2 Hn]. split; [|done]. by apply (shrinks_trans _ 0 0 _ s1).
Qed.

Lemma elem_of_due `{BTreeKey J} {X} (m : gmap J X) (f : X → bool) k :
  (∃ x, m !! k = Some x ∧ f x = true) → k ∈ omap (λ '(k, x), if f x then Some k else None) (btree_iter m).
Proof.
  intros (x & Hx & Hf). apply list_elem_of_omap. exists (k, x). split; [by apply elem_of_btree_iter|]. cbn. by rewrite Hf.
Qed.

(** Each kind of deadline, cleared. *)
Lemma expire_one now p s :
  base_ok s → settled s →
  wp (_ ← drop_reservation p; push_event (ReservationClosed p Expired))
    (λ _ s', shrinks None 0 s s' ∧ ¬ reservation_due now p s') (λ _ _, False) s.
Proof.
  intros Hb _. apply wp_bind, wp_modify, wp_modify. split.
  - apply (shrinks_trans _ 0 0 _ {| s with reservations := delete p (reservations s) |}).
    + exact (calm_drop_reservation None p s Hb).
    + apply (calm_event None (ReservationClosed p Expired)); [done|done|]. eapply base_ok_shrinks; [|done].
      exact (calm_drop_reservation None p s Hb).
  - intros (r & Hr & _). cbn in Hr. by rewrite lookup_delete_eq in Hr.
Qed.

Lemma close_one now k r s :
  base_ok s → settled s →
  wp (close_circuit k r) (λ _ s', shrinks None 0 s s' ∧ ¬ circuit_due now k s') (λ _ _, False) s.
Proof.
  intros Hb _. pose proof (calm_close_circuit None k r s Hb) as Hw. unfold wp in *.
  destruct (circuits s !! k) as [c|] eqn:Hc.
  - rewrite (close_circuit_run _ _ _ _ Hc) in *.
    pose proof (calm_drop_circuit None k c s Hc Hb) as Hd. unfold wp, drop_circuit, modify in Hd.
    pose proof (calm_close_rest None k c r _ (base_ok_shrinks _ _ _ _ Hd Hb)) as Hr. unfold wp in Hr.
    destruct (close_rest _ _ _ _) as [s' [u|e| |]]; try done. split; [done|]. intros (c' & Hc' & _).
    destruct (sh_circuits _ _ _ _ Hr k c' Hc') as (c0 & H0 & _). cbn in H0. by rewrite lookup_delete_eq in H0.
  - unfold close_circuit in *. rewrite run_gets, Hc in *. split; [done|]. intros (c & Hc' & _). congruence.
Qed.

Lemma fail_one now k st s :
  base_ok s → settled s →
  wp (fail_pending_connect k st) (λ _ s', shrinks None 0 s s' ∧ ¬ stop_due now k s') (λ _ _, False) s.
Proof.
  intros Hb Hset. pose proof (steady_fail k st s Hb Hset) as Hw. unfold wp in *.
  destruct (pending_circuits s !! k) as [c|] eqn:Hc.
  - rewrite (fail_pending_run _ _ _ _ Hc) in *.
    pose proof (calm_drop_pending None k s Hb) as Hd. unfold wp, drop_pending, modify in Hd.
    pose proof (fail_rest_spec k c st _ (base_ok_shrinks _ _ _ _ Hd Hb)
      (quiet_shrinks k _ _ _ Hd ltac:(rewrite Hset; by constructor))) as Hr. unfold wp in Hr.
    destruct (fail_rest _ _ _ _) as [s' [u|e| |]]; try done. split; [done|]. intros (c' & Hc' & _).
    destruct (sh_pending _ _ _ _ (proj1 Hr) k c' Hc') as (c0 & H0 & _). cbn in H0. by rewrite lookup_delete_eq in H0.
  - unfold fail_pending_connect in *. rewrite run_gets, Hc in *. split; [done|]. intros (c & Hc' & _). congruence.
Qed.
End Steps.

#[export] Hint Resolve calm_drop_worker calm_drop_pending calm_drop_reservation calm_drop_operation calm_token
  op_ok_forward calm_queue_send calm_queue_close calm_queue_circuit_close calm_queue_reset calm_runtime_error
  calm_cancel_operations calm_cancel_control calm_cancel_hop calm_cancel_forward calm_complete_hop
  calm_close_circuit calm_finish calm_queue_forward calm_circuit_eof calm_circuit_close_accepted
  calm_abort calm_abort_both calm_append : calm.
#[export] Hint Extern 1 (op_ok _) => exact I : calm.

Ltac calm_same := apply calm_modify, shrinks_same; [reflexivity..|done].
Ltac calm_steps :=
  repeat first
    [ solve [auto with calm]
    | apply calm_ret
    | apply calm_gets
    | apply calm_seq; [|intros]
    | calm_same
    | apply calm_event; reflexivity
    | case_match ].
