(* ===== verification/RelayPolicy.v ===== *)
(** What the relay service keeps true whatever its host and the network do:
    the limits of its configuration, the state of its protocol machines, and
    the accounts of the circuits it reported. *)

From Stdlib Require Import Strings.Byte.
From S2P Require Import Prelude Text Deadline Proto RelayMessage Base58 PeerIdentity Multiaddr RelayAddress.
From S2P Require Import SansIo RelayServer Limiter Admission RelayAgent RelaySteps.

Section Policy.
Context `{HashCrates Multihash} `{!HashCratesSpec Multihash} `{!EqDecision Multihash} `{!Countable Multihash}.
Abbreviation PeerId := (PeerIdentity.PeerId (Multihash := Multihash)).
Context `{!BTreeKey PeerId}.
Abbreviation Agent := (RelayServerAgent (Multihash := Multihash)).
Abbreviation A := (M Agent Empty_set).
Implicit Types (s : Agent) (K : option Speaker).

(** ** The invariant *)

(** A pair of limiters at time [t], for the limits it was made with. *)
Definition limiters_ok (limP limI : option RateLimit) (t : Z)
    (l : AdmissionLimiters (PeerId := PeerId) (IpKey := IpKey)) : Prop :=
  within limP 0 t (λ _, 0) (peer l) ∧ within limI 0 t (λ _, 0) (ip l).

(** A configuration as Rust values can be, and as [new] accepts it. *)
Record config_ok (c : RelayServerConfig) : Prop := {
  cg_max_circuits : 0 ≤ max_circuits c ≤ usize_max;
  cg_per_peer : 0 ≤ max_circuits_per_peer c;
  cg_bytes : 0 ≤ max_circuit_bytes c ≤ u64_max;
  cg_hops : 0 ≤ max_pending_hop_requests_per_connection c;
  cg_stops : 0 ≤ max_pending_stop_requests_per_connection c;
  cg_limits : limit_typed (reservation_rate_limit_per_peer c) ∧ limit_typed (reservation_rate_limit_per_ip c) ∧
    limit_typed (circuit_rate_limit_per_peer c) ∧ limit_typed (circuit_rate_limit_per_ip c);
  cg_valid : validate c = Ok tt;
}.

(** Only the worker [K] may have outputs waiting. *)
Definition settled_but K s : Prop := ∀ k, K ≠ Some (HopOf k) → hop_outputs k s = [].

(** [n] is what the events the host has taken leave open: those that opened a
    circuit less those that closed one. [K] is the worker in the middle of an
    exchange, if any. *)
Context (cfg : RelayServerConfig).
Record agent_ok K (n t : Z) s : Prop := {
  ao_config : agent_config s = cfg ∧ config_ok (agent_config s);
  ao_base : base_ok s;
  ao_settled : settled_but K s;
  ao_ops : ops_ok s;
  ao_accounts : accounts s ≤ n;
  ao_slots : Z.of_nat (size (pending_circuits s)) + Z.of_nat (size (circuits s)) ≤ max_circuits (agent_config s);
  ao_peers : ∀ p, peer_circuit_count p s ≤ max_circuits_per_peer (agent_config s);
  ao_stops : ∀ conn, map_count (awaits_stop_on (Some conn)) (pending_circuits s) ≤
    max_pending_stop_requests_per_connection (agent_config s);
  ao_hops : ∀ conn, map_count (waits_on conn) (hop_workers s) ≤
    max_pending_hop_requests_per_connection (agent_config s);
  ao_counts : ∀ k c, circuits s !! k = Some c → counts_ok (max_circuit_bytes (agent_config s)) (circuit_bytes c);
  ao_reservation_limits :
    limiters_ok (reservation_rate_limit_per_peer (agent_config s)) (reservation_rate_limit_per_ip (agent_config s))
      t (reservation_limiters s);
  ao_circuit_limits :
    limiters_ok (circuit_rate_limit_per_peer (agent_config s)) (circuit_rate_limit_per_ip (agent_config s))
      t (circuit_limiters s);
}.

Lemma map_from_size `{Countable J} {X} (R : X → X → Prop) (m m' : gmap J X) : map_from R m m' → (size m' ≤ size m)%nat.
Proof.
  intros Hf. pose proof (map_count_mono (λ _ _, true) (λ _ _, true) m' m) as Hc. rewrite !map_count_size in Hc.
  apply Nat2Z.inj_le, Hc. intros k x Hx _. destruct (Hf k x Hx) as (y & Hy & _). by exists y.
Qed.
Lemma map_from_count `{Countable J} {X} (R : X → X → Prop) (f : J → X → bool) (m m' : gmap J X) :
  map_from R m m' → (∀ k x x', R x x' → f k x' = true → f k x = true) → map_count f m' ≤ map_count f m.
Proof.
  intros Hf HR. apply map_count_mono. intros k x' Hx' Hk. destruct (Hf k x' Hx') as (x & Hx & Hr).
  exists x. split; [done|]. by eapply HR.
Qed.

Lemma shrinks_counts K d s s' :
  shrinks K d s s' →
  (∀ p, peer_circuit_count p s' ≤ peer_circuit_count p s) ∧
  (∀ conn, map_count (awaits_stop_on (Some conn)) (pending_circuits s') ≤
     map_count (awaits_stop_on (Some conn)) (pending_circuits s)) ∧
  (∀ conn, map_count (waits_on conn) (hop_workers s') ≤ map_count (waits_on conn) (hop_workers s)).
Proof.
  intros []. unfold peer_circuit_count. split_and!.
  - intros p. apply Z.add_le_mono; (eapply map_from_count; [done|]); unfold pending_involves, circuit_involves; intros k x x' [].
    + by rewrite pf_source, pf_destination.
    + by rewrite cf_source, cf_destination.
  - intros conn. eapply map_from_count; [done|]. unfold awaits_stop_on. intros k x x' []. rewrite pf_conn.
    rewrite !andb_true_iff, !bool_decide_eq_true. intros [? [y Hy]]. split; [done|].
    destruct pf_deadline as [<-|Hn]; [by exists y|congruence].
  - intros conn. eapply map_from_count; [done|]. unfold waits_on. intros k x x' [].
    rewrite !andb_true_iff, !bool_decide_eq_true. intros [? [y Hy]]. split; [done|].
    destruct wf_deadline as [<-|Hn]; [by exists y|congruence].
Qed.

Lemma ok_shrinks K n t s s' : shrinks K 0 s s' → agent_ok K n t s → agent_ok K n t s'.
Proof.
  intros Hs [Hcfg Hb Hset Ho Ha Hsl Hp Hst Hh Hc HR HC].
  destruct (shrinks_counts _ _ _ _ Hs) as (C1 & C2 & C3).
  assert (base_ok s') as Hb' by (by eapply base_ok_shrinks). destruct Hs.
  split; rewrite ?sh_config; try done.
  - intros k Hk. destruct (sh_outputs k Hk) as [-> | ->]; auto.
  - auto.
  - lia.
  - pose proof (map_from_size _ _ _ sh_pending). pose proof (map_from_size _ _ _ sh_circuits). lia.
  - intros p. specialize (C1 p). specialize (Hp p). lia.
  - intros conn. specialize (C2 conn). specialize (Hst conn). lia.
  - intros conn. specialize (C3 conn). specialize (Hh conn). lia.
  - intros k c Hk. destruct (sh_circuits k c Hk) as (c0 & Hk0 & Hf). eapply cf_counts; [done|]. by eapply Hc.
  - by destruct sh_limiters as [-> _].
  - by destruct sh_limiters as [_ ->].
Qed.

(** [K] may change when no worker is left in the middle. *)
Lemma ok_speaker K K' n t s : settled_but K' s → agent_ok K n t s → agent_ok K' n t s.
Proof. intros Hset []. by split. Qed.
Lemma ok_settle key n t s : hop_outputs key s = [] → agent_ok (Some (HopOf key)) n t s → agent_ok None n t s.
Proof.
  intros Ho Hok. eapply ok_speaker; [|done]. intros k _. destruct (decide (k = key)) as [->|]; [done|].
  apply (ao_settled _ _ _ _ Hok). congruence.
Qed.
Lemma ok_open K n t s : agent_ok None n t s → agent_ok K n t s.
Proof. intros Hok. eapply ok_speaker; [|done]. intros k _. by apply (ao_settled _ _ _ _ Hok). Qed.
Lemma ok_stops n t s s' : shrinks (Some Stops) 0 s s' → agent_ok None n t s → agent_ok None n t s'.
Proof.
  intros Hs Hok%(ok_open (Some Stops)). apply (ok_speaker (Some Stops)); [|by eapply ok_shrinks].
  intros k _. by apply (ao_settled _ _ _ _ (ok_shrinks _ _ _ _ _ Hs Hok)).
Qed.
Lemma ok_settled K n t s : (∀ k, K ≠ Some (HopOf k)) → agent_ok K n t s → settled s.
Proof. intros HK Hok k. by apply (ao_settled _ _ _ _ Hok). Qed.

(** What keeps the invariant. *)
Definition safe {X} K (n t : Z) (m : A X) s : Prop :=
  agent_ok K n t s → wp m (λ _ s', agent_ok K n t s') (λ _ _, False) s.

Lemma safe_calm {X} K n t (m : A X) s : calm K 0 m s → safe K n t m s.
Proof.
  intros Hm Hok. eapply wp_mono; [by apply Hm, (ao_base _ _ _ _ Hok)| |done]. cbn beta. intros x s' Hs.
  by eapply ok_shrinks.
Qed.
Lemma safe_steady {X} n t (m : A X) s : steady m s → safe None n t m s.
Proof.
  intros Hm Hok. eapply wp_mono; [apply Hm; [by apply (ao_base _ _ _ _ Hok)|by apply (ok_settled None n t)]| |done].
  cbn beta. intros x s' Hs. by eapply ok_shrinks.
Qed.
Lemma safe_seq {X Y} K n t (m : A X) (f : X → A Y) s :
  safe K n t m s → (∀ x s', safe K n t (f x) s') → safe K n t (m ≫= f) s.
Proof.
  intros Hm Hf Hok. apply wp_bind. eapply wp_mono; [by apply Hm| |done]. cbn beta. intros x s' Hs. by apply Hf.
Qed.
Lemma safe_gets {X Y} K n t (g : Agent → X) (f : X → A Y) s : safe K n t (f (g s)) s → safe K n t (gets g ≫= f) s.
Proof. intros Hf Hok. apply wp_bind, wp_gets. by apply Hf. Qed.
Lemma safe_ret {X} K n t (x : X) s : safe K n t (mret x) s.
Proof. intros Hok. by apply wp_ret. Qed.

(** ** Time *)

Lemma limiters_later limP limI t t' l : t ≤ t' → limiters_ok limP limI t l → limiters_ok limP limI t' l.
Proof. intros Ht [HP HI]. split; (eapply within_weaken; [exact Ht|intros; apply Z.le_refl|done]). Qed.
Lemma ok_later K n t t' s : t ≤ t' → agent_ok K n t s → agent_ok K n t' s.
Proof. intros Ht []. split; try done; by eapply limiters_later. Qed.

Lemma steady_clear {X Y} (D : X → Agent → Prop) (x : X) (m : A Y) s :
  stays_clear D → steady m s → ¬ D x s → base_ok s → settled s →
  wp m (λ _ s', shrinks None 0 s s' ∧ ¬ D x s') (λ _ _, False) s.
Proof.
  intros HD Hm Hn Hb Hset. eapply wp_mono; [by apply Hm| |done]. cbn beta. intros y s' Hs. split; [done|]. eauto.
Qed.

(** First a step that clears, then steps that keep it clear. *)
Lemma clear_then {X} (D : X → Agent → Prop) (x : X) (g : Agent → Agent) (m : A unit) s :
  stays_clear D → base_ok s → settled s → calm None 0 (modify g) s → ¬ D x (g s) → steady m (g s) →
  wp m (λ _ s', shrinks None 0 s s' ∧ ¬ D x s') (λ _ _, False) (g s).
Proof.
  intros HD Hb Hset Hm Hn Hf. specialize (Hm Hb). unfold wp, modify in Hm.
  eapply wp_mono; [apply (steady_clear D x); auto| |done].
  - by eapply base_ok_shrinks.
  - by eapply (settled_shrinks None).
  - cbn beta. intros u s' [Hs HD']. split; [|done]. by apply (shrinks_trans _ 0 0 _ (g s)).
Qed.

Lemma tick_one now key s :
  base_ok s → settled s →
  wp (tick_hop now key) (λ _ s', shrinks None 0 s s' ∧ ¬ hop_due now key s') (λ _ _, False) s.
Proof.
  intros Hb Hset. unfold tick_hop. apply wp_bind, wp_gets. cbn [id]. case_bool_decide as Hp.
  - unfold complete_hop. apply wp_bind, wp_bind, wp_gets. destruct (hop_workers s !! key) as [w|] eqn:Hw.
    + apply wp_modify, (clear_then (hop_due now) key (λ s, {| s with hop_workers := _ |}));
        [apply hop_due_clear|done|done| | |apply steady_fail].
      * eapply calm_put_worker; [done| |by right; left]. by split; auto.
      * intros (w' & Hw' & Hd). cbn in Hw'. rewrite lookup_insert_eq in Hw'. by injection Hw' as <-.
    + apply wp_ret, (steady_clear (hop_due now) key); [apply hop_due_clear|apply steady_fail| |done|done].
      intros (w' & Hw' & _). congruence.
  - destruct (hop_workers s !! key) as [w|] eqn:Hw.
    + apply wp_bind, wp_modify, (clear_then (hop_due now) key (λ s, {| s with hop_workers := _ |}));
        [apply hop_due_clear|done|done|apply calm_drop_worker| |].
      * intros (w' & Hw' & _). cbn in Hw'. by rewrite lookup_delete_eq in Hw'.
      * apply steady_calm. calm_steps.
    + apply wp_ret. split; [apply shrinks_refl|]. intros (w' & Hw' & _). congruence.
Qed.

(** No deadline has passed, and no limiter wants to be swept. *)
Definition swept (now : Now) (l : AdmissionLimiters (PeerId := PeerId) (IpKey := IpKey)) : Prop :=
  (∀ b, peer l = Some b → overdue (monotonic_ms now) b = ∅) ∧ (∀ b, ip l = Some b → overdue (monotonic_ms now) b = ∅).
Record nothing_due (now : Now) s : Prop := {
  nd_reservations : ∀ p, ¬ reservation_due now p s;
  nd_circuits : ∀ k, ¬ circuit_due now k s;
  nd_hops : ∀ k, ¬ hop_due now k s;
  nd_stops : ∀ k, ¬ stop_due now k s;
  nd_reservation_limits : swept now (reservation_limiters s);
  nd_circuit_limits : swept now (circuit_limiters s);
}.

Lemma tick_tables now s :
  base_ok s → settled s →
  ∀ (rest : A unit) Q,
    (∀ s', shrinks None 0 s s' → (∀ p, ¬ reservation_due now p s') → (∀ k, ¬ circuit_due now k s') →
      (∀ k, ¬ hop_due now k s') → (∀ k, ¬ stop_due now k s') → wp rest Q (λ _ _, False) s') →
  wp (expired ← gets (λ s, omap (λ '(peer, r),
         if reservation_deadline_ms r <=? monotonic_ms now then Some peer else None) (btree_iter (reservations s)));
     _ ← for_each (λ peer, _ ← drop_reservation peer; push_event (ReservationClosed peer Expired)) expired;
     duration_limited ← gets (λ s, omap (λ '(key, c),
         if due_at now (circuit_deadline_ms c) then Some key else None) (btree_iter (circuits s)));
     _ ← for_each (λ key, close_circuit key DurationLimit) duration_limited;
     timed_out ← gets (λ s, omap (λ '(key, w),
         if due_at now (hw_deadline_ms w) then Some key else None) (btree_iter (hop_workers s)));
     _ ← for_each (tick_hop now) timed_out;
     stop_timed_out ← gets (λ s, omap (λ '(key, c),
         if due_at now (stop_deadline_ms c) then Some key else None) (btree_iter (pending_circuits s)));
     _ ← for_each (λ key, fail_pending_connect key ConnectionFailed) stop_timed_out;
     rest) Q (λ _ _, False) s.
Proof.
  intros Hb Hset rest Q Hrest.
  assert (∀ {X} (D : X → Agent → Prop) (f : X → A unit) l s1 (k : A unit),
    stays_clear D → shrinks None 0 s s1 →
    (∀ x s, base_ok s → settled s → wp (f x) (λ _ s', shrinks None 0 s s' ∧ ¬ D x s') (λ _ _, False) s) →
    (∀ x, D x s1 → x ∈ l) →
    (∀ s2, shrinks None 0 s1 s2 → shrinks None 0 s s2 → (∀ x, ¬ D x s2) → wp k Q (λ _ _, False) s2) →
    wp (_ ← for_each f l; k) Q (λ _ _, False) s1) as Hloop.
  { intros X D f l s1 k HD Hs1 Hf Hl Hk. apply wp_bind.
    eapply wp_mono; [apply (clears D); [done|by eapply base_ok_shrinks|by eapply (settled_shrinks None)|done|done]| |done].
    cbn beta. intros u s2 [Hs2 Hn]. apply Hk; [done| |done]. by apply (shrinks_trans _ 0 0 _ s1). }
  apply wp_bind, wp_gets, (Hloop _ (reservation_due now)); [apply reservation_due_clear|apply shrinks_refl|
    intros; by apply expire_one|intros p Hp; by apply (elem_of_due _ (λ r, reservation_deadline_ms r <=? monotonic_ms now))|].
  intros s1 H1 Hs1 C1. apply wp_bind, wp_gets, (Hloop _ (circuit_due now)); [apply circuit_due_clear|done|
    intros; by apply close_one|intros k Hk; by apply (elem_of_due _ (λ c, due_at now (circuit_deadline_ms c)))|].
  intros s2 H2 Hs2 C2. apply wp_bind, wp_gets, (Hloop _ (hop_due now)); [apply hop_due_clear|done|
    intros; by apply tick_one|intros k Hk; by apply (elem_of_due _ (λ w, due_at now (hw_deadline_ms w)))|].
  intros s3 H3 Hs3 C3. apply wp_bind, wp_gets, (Hloop _ (stop_due now)); [apply stop_due_clear|done|
    intros; by apply fail_one|intros k Hk; by apply (elem_of_due _ (λ c, due_at now (stop_deadline_ms c)))|].
  intros s4 H4 Hs4 C4. apply Hrest; try done; intros x Hx.
  - eapply C1. eapply reservation_due_clear; [done|]. eapply reservation_due_clear; [done|]. by eapply reservation_due_clear.
  - eapply C2. eapply circuit_due_clear; [done|]. by eapply circuit_due_clear.
  - eapply C3. by eapply hop_due_clear.
Qed.

Lemma sweep_limiters limP limI now l :
  0 ≤ monotonic_ms now ≤ u64_max → limiters_ok limP limI (monotonic_ms now) l →
  wp (admission_sweep (monotonic_ms now)) (λ _ l', limiters_ok limP limI (monotonic_ms now) l' ∧ swept now l') (λ _ _, False) l.
Proof.
  intros Hn [HP HI]. eapply wp_mono; [apply (admission_sweep_within limP limI 0 0 (monotonic_ms now) (λ _, 0) (λ _, 0)); by try apply Hn| |done].
  intros u l' (? & ? & ? & ?). by repeat split.
Qed.

Lemma ok_reservation_limiters K n t s l :
  limiters_ok (reservation_rate_limit_per_peer (agent_config s)) (reservation_rate_limit_per_ip (agent_config s)) t l →
  agent_ok K n t s → agent_ok K n t {| s with reservation_limiters := l |}.
Proof. intros Hl [? [] ]. split; [done|by split|done..]. Qed.
Lemma ok_circuit_limiters K n t s l :
  limiters_ok (circuit_rate_limit_per_peer (agent_config s)) (circuit_rate_limit_per_ip (agent_config s)) t l →
  agent_ok K n t s → agent_ok K n t {| s with circuit_limiters := l |}.
Proof. intros Hl [? [] ]. split; [done|by split|done..]. Qed.

Lemma handle_tick_ok n t now s :
  t ≤ monotonic_ms now → 0 ≤ monotonic_ms now ≤ u64_max → agent_ok None n t s →
  wp (handle_tick now) (λ _ s', agent_ok None n (monotonic_ms now) s' ∧ nothing_due now s') (λ _ _, False) s.
Proof.
  intros Ht Hn Hok%(ok_later _ _ _ (monotonic_ms now)); [|done]. unfold handle_tick. apply wp_bind, wp_modify.
  assert (agent_ok None n (monotonic_ms now) {| s with last_event_tick_ms := Some (monotonic_ms now) |}) as Hok0.
  { eapply (ok_shrinks None); [|done]. by apply shrinks_same. }
  apply tick_tables; [by apply (ao_base _ _ _ _ Hok0)|by apply (ok_settled None _ _ _ ltac:(done) Hok0)|].
  intros s1 Hs1 D1 D2 D3 D4. pose proof (ok_shrinks _ _ _ _ _ Hs1 Hok0) as Hok1.
  apply wp_bind, wp_zoom. eapply wp_mono; [apply sweep_limiters; [done|by apply (ao_reservation_limits _ _ _ _ Hok1)]| |done].
  cbn beta. intros u l1 [Hl1 Hw1]. apply (ok_reservation_limiters _ _ _ _ _ Hl1) in Hok1.
  apply wp_zoom. eapply wp_mono; [apply sweep_limiters; [done|by apply (ao_circuit_limits _ _ _ _ Hok1)]| |done].
  cbn beta. intros u' l2 [Hl2 Hw2]. apply (ok_circuit_limiters _ _ _ _ _ Hl2) in Hok1. split; [done|]. by split.
Qed.

Lemma tick_before_event_ok n t now s :
  t ≤ monotonic_ms now → 0 ≤ monotonic_ms now ≤ u64_max → agent_ok None n t s →
  wp (tick_before_event now) (λ _ s', agent_ok None n (monotonic_ms now) s') (λ _ _, False) s.
Proof.
  intros Ht Hn Hok. unfold tick_before_event. apply wp_bind, wp_gets. destruct (_ || _).
  - eapply wp_mono; [by eapply handle_tick_ok| |done]. by intros ? ? [].
  - apply wp_ret. by eapply ok_later.
Qed.

(** ** Connections *)

Lemma steady_connection_closed p conn cause s : steady (on_connection_closed p conn cause) s.
Proof.
  unfold on_connection_closed. apply steady_gets, steady_seq.
  { apply steady_for_each. intros [k leg] s'. apply steady_calm, calm_close_circuit. }
  intros _ s1. apply steady_gets, steady_seq.
  { apply steady_for_each. intros [src []] s'; [apply steady_calm, calm_abort|]. intros Hb Hset.
    apply wp_bind, wp_gets. destruct (pending_circuits s' !! src) as [c|] eqn:Hc; [|by apply steady_fail].
    destruct (stop_stream c) as [k|] eqn:Hk; [|by apply steady_fail].
    apply wp_bind, wp_bind, wp_modify, wp_modify.
    set (s2 := {| s' with stop_to_source := delete k (stop_to_source s') |}).
    assert (shrinks None 0 s' s2) as Hs2 by (by apply shrinks_same).
    eapply wp_mono; [apply (fail_after_put src ConnectionFailed s2 c {| c with stop_stream := None |})| |done].
    - by eapply base_ok_shrinks.
    - by eapply (settled_shrinks None).
    - done.
    - cbn beta. intros u s3 Hs3. by apply (shrinks_trans _ 0 0 _ s2). }
  intros _ s2. apply steady_seq; [apply steady_calm; calm_same|]. intros _ s3. apply steady_gets.
  apply steady_seq; [apply steady_calm; calm_steps|]. intros _ s4. apply steady_gets.
  apply steady_seq; [apply steady_for_each; intros; apply steady_calm; calm_steps|]. intros _ s5.
  apply steady_calm. calm_same.
Qed.

Lemma steady_connection_established p conn c s : steady (on_connection_established p conn c) s.
Proof.
  unfold on_connection_established. apply steady_gets, steady_seq.
  { apply steady_for_each. intros. apply steady_connection_closed. }
  intros _ s1. apply steady_gets, steady_seq; [apply steady_calm; calm_steps|]. intros _ s2. apply steady_calm. calm_same.
Qed.
(** ** Decisions *)

Lemma consume_limiters limP limI p a now l :
  0 ≤ now ≤ u64_max → limiters_ok limP limI now l →
  wp (admission_consume p a now) (λ _ l', limiters_ok limP limI now l') (λ _ _, False) l.
Proof.
  intros Hn [HP HI]. eapply wp_mono; [apply (admission_consume_within limP limI 0 0 p a now (λ _, 0) (λ _, 0)); by try apply Hn| |done].
  intros ok l' [HP' HI']. split; (eapply within_weaken; [apply Z.le_refl| |done]); intros k; cbn beta.
  - unfold grant. destruct ok; case_decide; lia.
  - unfold grant_opt, grant. destruct a, ok; try case_decide; lia.
Qed.

Lemma consume_reservation_ok K n p conn now s :
  0 ≤ now ≤ u64_max → agent_ok K n now s →
  wp (consume_reservation_limits p conn now)
    (λ _ s', agent_ok K n now s' ∧ s' = {| s with reservation_limiters := reservation_limiters s' |}) (λ _ _, False) s.
Proof.
  intros Hn Hok. unfold consume_reservation_limits. apply wp_bind, wp_gets, wp_zoom.
  eapply wp_mono; [apply consume_limiters; [done|by apply (ao_reservation_limits _ _ _ _ Hok)]| |done].
  cbn beta. intros ok l Hl. split; [by apply ok_reservation_limiters|done].
Qed.
Lemma consume_circuit_ok K n p conn now s :
  0 ≤ now ≤ u64_max → agent_ok K n now s →
  wp (consume_circuit_limits p conn now)
    (λ _ s', agent_ok K n now s' ∧ s' = {| s with circuit_limiters := circuit_limiters s' |}) (λ _ _, False) s.
Proof.
  intros Hn Hok. unfold consume_circuit_limits. apply wp_bind, wp_gets, wp_zoom.
  eapply wp_mono; [apply consume_limiters; [done|by apply (ao_circuit_limits _ _ _ _ Hok)]| |done].
  cbn beta. intros ok l Hl. split; [by apply ok_circuit_limiters|done].
Qed.

(** Turning a request down leaves a worker with at most two things to say. *)
Abbreviation answered key n t := (λ (_ : unit) s', agent_ok (Some (HopOf key)) n t s' ∧ few_quiet key s').

Lemma reject_ok key e st n t s :
  is_opened e = false → is_closed_event e = false → hop_outputs key s = [] → agent_ok (Some (HopOf key)) n t s →
  wp (_ ← push_event e; _ ← feed_hop key (HRReject st); mret tt) (answered key n t) (λ _ _, False) s.
Proof.
  intros He1 He2 Ho Hok. pose proof (ao_base _ _ _ _ Hok) as Hb.
  apply (wp_calm None 0); [done|by apply calm_event|]. intros u s1 Hs1 Hb1.
  eapply (wp_speak _ s); [by apply shrinks_exempt|done|apply decide_hop; [done|done|]|].
  { by destruct (sh_outputs _ _ _ _ Hs1 key ltac:(done)) as [-> | ->]. }
  cbn beta. intros fed s2 Hs2 Hb2 Hq. apply wp_ret. split; [by eapply ok_shrinks|done].
Qed.

Lemma deny_ok key d st n t s :
  hop_outputs key s = [] → agent_ok (Some (HopOf key)) n t s →
  wp (deny_connect key d st) (answered key n t) (λ _ _, False) s.
Proof.
  intros Ho Hok. unfold deny_connect. apply wp_bind, wp_gets. destruct (hop_workers s !! key); [by apply reject_ok|].
  apply wp_ret. split; [done|by apply few_quiet_nil].
Qed.

Lemma wire_loop_returns fuel e l addrs : (length addrs ≤ fuel)%nat → ∃ w, wire_loop fuel e l addrs = Ok w.
Proof.
  revert addrs. induction fuel as [|fuel IH]; intros addrs Hl.
  { destruct addrs; [|cbn in Hl; lia]. by eexists. }
  cbn [wire_loop]. destruct addrs as [|x r _] using rev_ind; [by eexists|]. rewrite split_last_snoc.
  pose proof (encode_hop_status_returns StatusOk (Some (mkReservation e (r ++ [x]) None)) (Some l)) as Hr.
  destruct (encode_hop_status _ _ _); try done; [by eexists|]. apply IH. rewrite length_app in Hl. cbn in Hl. lia.
Qed.

Lemma decide_reservation_ok key now n s :
  0 ≤ monotonic_ms now ≤ u64_max → hop_outputs key s = [] → agent_ok (Some (HopOf key)) n (monotonic_ms now) s →
  wp (decide_reservation key now) (answered key n (monotonic_ms now)) (λ _ _, False) s.
Proof.
  intros Hn Ho Hok. unfold decide_reservation. apply wp_bind, wp_gets.
  destruct (hop_workers s !! key) as [w|]; [|apply wp_ret; split; [done|by apply few_quiet_nil]].
  apply wp_bind, wp_gets. cbn [id]. apply wp_bind.
  assert (∃ wire, ∀ Q, Q wire s →
    wp (if accepting s then reads (reservation_wire ((λ unix, saturating_add u64_max unix
      (reservation_duration_secs (agent_config s))) <$> unix_seconds now)) else mret None) Q (λ _ _, False) s) as [wire Hwire].
  { destruct (accepting s); [|exists None; intros; by apply wp_ret].
    destruct (wire_loop_returns (length ((λ m, multiaddr_to_bytes (push m (P2p (local_peer_id s)))) <$> selected_addrs s))
      ((λ unix, saturating_add u64_max unix (reservation_duration_secs (agent_config s))) <$> unix_seconds now)
      (circuit_limit (agent_config s)) _ (Nat.le_refl _)) as [wire Hw].
    exists wire. intros Q HQ. apply wp_reads. unfold reservation_wire. by rewrite Hw. }
  apply Hwire. clear Hwire. apply wp_bind.
  (* the status *)
  destruct wire as [[res_ lim]|]; cycle 1.
  { apply wp_ret. by apply reject_ok. }
  apply wp_bind. eapply wp_mono; [by apply consume_reservation_ok| |done]. cbn beta. intros ok s1 [Hok1 Heq].
  assert (hop_outputs key s1 = []) as Ho1 by (by rewrite Heq). clear Heq.
  destruct ok; cbn [negb]; [|by apply wp_ret, reject_ok].
  match goal with |- wp (if ?b then _ else _) _ _ _ => destruct b end; [by apply wp_ret, reject_ok|].
  apply wp_ret. apply wp_bind, wp_lift. cbn [expect]. pose proof (ao_base _ _ _ _ Hok1) as Hb1.
  eapply (wp_speak _ s1); [apply shrinks_refl|done|by apply decide_hop|]. cbn beta. intros fed s2 Hs2 Hb2 Hq2.
  pose proof (ok_shrinks _ _ _ _ _ Hs2 Hok1) as Hok2. destruct fed; cbn [negb]; [|by apply wp_ret].
  apply wp_bind, wp_gets. destruct (hop_workers s2 !! key); [|by apply wp_ret].
  eapply (wp_speak _ s1); [done|done|by apply poll_hop_spec|]. cbn beta. intros o s3 Hs3 Hb3 [_ Hq3].
  pose proof (ok_shrinks _ _ _ _ _ Hs3 Hok1) as Hok3.
  assert (few_quiet key s3) as Hf3.
  { destruct Hq2 as [Hq2 Hl2]. unfold few_quiet. destruct (hop_outputs key s2) as [|x os].
    - destruct Hq3 as [_ ->]. split; [by constructor|cbn; lia].
    - destruct Hq3 as (_ & -> & _). inversion Hq2. cbn in Hl2. split; [done|lia]. }
  destruct o as [[]|]; (eapply wp_mono;
    [first [by apply (calm_runtime_error None)|by apply (calm_queue_send None)]| |done]); cbn beta; intros u s4 Hs4;
    (split; [eapply ok_shrinks; [by apply shrinks_exempt|done]|by eapply few_quiet_shrinks]).
Qed.
Lemma size_insert_le `{Countable J} {X} (m : gmap J X) k x :
  Z.of_nat (size (<[k := x]> m)) ≤ Z.of_nat (size m) + 1.
Proof. rewrite map_size_insert. destruct (m !! k); cbn; lia. Qed.

(** The entry of a circuit that is let in. *)
Record fresh_pending (c : PendingCircuit (Multihash := Multihash)) : Prop := {
  fp_stop : stop c = None;
  fp_pipelined : source_pipelined c = [] ∧ destination_pipelined c = [];
}.

(** A circuit let in below every limit stays within them. *)
Lemma ok_admit K n t s key c :
  fresh_pending c → agent_ok K n t s →
  peer_circuit_count (pc_source_peer_id c) s < max_circuits_per_peer (agent_config s) →
  (pc_source_peer_id c ≠ pc_destination_peer_id c →
    peer_circuit_count (pc_destination_peer_id c) s < max_circuits_per_peer (agent_config s)) →
  Z.of_nat (size (pending_circuits s)) + Z.of_nat (size (circuits s)) < max_circuits (agent_config s) →
  map_count (awaits_stop_on (Some (destination_conn_id c))) (pending_circuits s) <
    max_pending_stop_requests_per_connection (agent_config s) →
  agent_ok K n t {| s with pending_circuits := <[key := c]> (pending_circuits s) |}.
Proof.
  intros [Hst [Hp1 Hp2]] [Hcfg [Hbp Hbw] Hset Ho Ha Hsl Hp Hstop Hh Hc HR HC] G1 G2 G3 G4. split; cbn; try done.
  - split; cbn; [|done]. apply map_Forall_insert_2; [|done].
    by split; rewrite ?Hp1, ?Hp2, ?Hst.
  - pose proof (size_insert_le (pending_circuits s) key c). lia.
  - intros p. unfold peer_circuit_count in *. cbn. specialize (Hp p).
    pose proof (map_count_insert_le (pending_involves p) (pending_circuits s) key c) as Hi.
    unfold pending_involves at 2 in Hi. destruct (decide (pc_source_peer_id c = p)) as [<-|Hs1].
    + destruct (_ || _) in Hi; lia.
    + rewrite (bool_decide_false (pc_source_peer_id c = p)) in Hi by done. cbn [orb] in Hi.
      destruct (decide (pc_destination_peer_id c = p)) as [<-|Hd1].
      * specialize (G2 Hs1). destruct (bool_decide _) in Hi; lia.
      * rewrite bool_decide_false in Hi by done. lia.
  - intros conn. pose proof (map_count_insert_le (awaits_stop_on (Some conn)) (pending_circuits s) key c) as Hi.
    unfold awaits_stop_on at 2 in Hi. specialize (Hstop conn).
    destruct (decide (destination_conn_id c = conn)) as [<-|Hne].
    + destruct (_ && _) in Hi; lia.
    + rewrite bool_decide_false in Hi by congruence. cbn [andb] in Hi. lia.
Qed.

Lemma decide_connect_ok key d now n s :
  0 ≤ monotonic_ms now ≤ u64_max → hop_outputs key s = [] → agent_ok (Some (HopOf key)) n (monotonic_ms now) s →
  wp (decide_connect key d now) (answered key n (monotonic_ms now)) (λ _ _, False) s.
Proof.
  intros Hn Ho Hok. unfold decide_connect. apply wp_bind, wp_gets.
  destruct (hop_workers s !! key) as [w|]; [|apply wp_ret; split; [done|by apply few_quiet_nil]].
  apply wp_bind, wp_gets, wp_bind, wp_gets, wp_bind.
  match goal with |- wp (if ?b then _ else _) _ _ _ => destruct b end; [by apply wp_ret, deny_ok|].
  apply wp_bind. eapply wp_mono; [by apply consume_circuit_ok| |done]. cbn beta. intros ok s1 [Hok1 Heq].
  assert (hop_outputs key s1 = [] ∧ reservations s1 = reservations s) as [Ho1 Hr1] by (rewrite Heq; by split). clear Heq.
  apply wp_bind, wp_gets. cbn [id]. rewrite <- Hr1.
  match goal with |- wp (if ?b then _ else _) _ _ _ => destruct b eqn:Hlimits end; [by apply wp_ret, deny_ok|].
  match goal with |- wp (if ?b then _ else _) _ _ _ => destruct b eqn:Hnone end; [by apply wp_ret, deny_ok|].
  match goal with |- wp (if ?b then _ else _) _ _ _ => destruct b eqn:Hstops end; [by apply wp_ret, deny_ok|].
  apply wp_ret. destruct (reservation_conn_id <$> reservations s1 !! d) as [conn|]; [|done].
  apply wp_bind, wp_lift. cbn [expect]. apply wp_bind, wp_gets, wp_bind, wp_modify.
  apply orb_false_iff in Hlimits as [Hlimits L4%Z.leb_gt]. apply orb_false_iff in Hlimits as [Hlimits L3].
  apply orb_false_iff in Hlimits as [_ L2%Z.leb_gt]. apply Z.leb_gt in Hstops.
  destruct (ao_config _ _ _ _ Hok1) as [_ Hcfg]. pose proof (cg_max_circuits _ Hcfg) as Hmax.
  match goal with |- wp _ _ _ {| pending_circuits := <[key := ?c]> _ |} =>
    assert (agent_ok (Some (HopOf key)) n (monotonic_ms now) {| s1 with pending_circuits := <[key := c]> (pending_circuits s1) |}) as Hok2
  end.
  { apply ok_admit; try done; cbn.
    - intros Hne. rewrite bool_decide_true in L3 by done. by apply Z.leb_gt in L3.
    - unfold saturating_add in L4. lia. }
  match goal with |- wp ?m _ _ ?s2 => assert (calm None 0 m s2) as Hc end.
  { unfold push_action. calm_steps. by apply calm_put_operation. }
  eapply wp_mono; [by apply Hc, (ao_base _ _ _ _ Hok2)| |done]. cbn beta. intros u s3 Hs3. split.
  - eapply ok_shrinks; [by apply shrinks_exempt|done].
  - eapply few_quiet_shrinks; [done|]. by apply few_quiet_nil.
Qed.
Lemma request_round key now q n s :
  0 ≤ monotonic_ms now ≤ u64_max → hop_outputs key s = [] → agent_ok (Some (HopOf key)) n (monotonic_ms now) s →
  wp (drain_hop_round key now (HRRequest q))
    (λ go s', agent_ok (Some (HopOf key)) n (monotonic_ms now) s' ∧ few_quiet key s' ∧
      (go = false → hop_outputs key s' = [])) (λ _ _, False) s.
Proof.
  intros Hn Ho Hok.
  assert (∀ k : HopWorker → A unit,
    (∀ w s', hop_outputs key s' = [] → agent_ok (Some (HopOf key)) n (monotonic_ms now) s' →
       wp (k w) (answered key n (monotonic_ms now)) (λ _ _, False) s') →
    wp (worker ← mark_known key;
        match worker with None => mret false | Some w => _ ← k w; mret true end)
      (λ go s', agent_ok (Some (HopOf key)) n (monotonic_ms now) s' ∧ few_quiet key s' ∧
      (go = false → hop_outputs key s' = [])) (λ _ _, False) s) as Hmark.
  { intros k Hk. unfold mark_known. apply wp_bind, wp_bind, wp_gets. destruct (hop_workers s !! key) as [w|] eqn:Hw; cycle 1.
    { apply wp_ret, wp_ret. split_and!; [done|by apply few_quiet_nil|done]. }
    apply wp_bind, wp_modify, wp_ret, wp_bind.
    eapply wp_mono; [apply Hk| |done].
    - unfold hop_outputs in *. cbn. rewrite lookup_insert_eq. by rewrite Hw in Ho.
    - eapply ok_shrinks; [|done]. apply (calm_put_worker _ key w {| w with request_known := true |} s Hw);
        [by split; auto|by right; left|by apply (ao_base _ _ _ _ Hok)].
    - intros u s' []. by apply wp_ret. }
  destruct q as [|d]; cbn [drain_hop_round]; apply Hmark; intros w s' Ho' Hok'; destruct (hw_is_circuit w).
  - by apply reject_ok.
  - by apply decide_reservation_ok.
  - by apply deny_ok.
  - by apply decide_connect_ok.
Qed.

Lemma drain_hop_ok key now n s :
  0 ≤ monotonic_ms now ≤ u64_max → agent_ok (Some (HopOf key)) n (monotonic_ms now) s →
  quiet (hop_outputs key s) ∨ (∃ q, hop_outputs key s = [HRRequest q]) →
  wp (drain_hop key now) (λ _ s', agent_ok None n (monotonic_ms now) s') (λ _ _, False) s.
Proof.
  intros Hn Hok. pose proof (ao_base _ _ _ _ Hok) as Hb.
  assert (∀ (m : A unit) s1, agent_ok (Some (HopOf key)) n (monotonic_ms now) s1 →
    wp m (λ _ s', shrinks (Some (HopOf key)) 0 s1 s' ∧ hop_outputs key s' = []) (λ _ _, False) s1 →
    wp m (λ _ s', agent_ok None n (monotonic_ms now) s') (λ _ _, False) s1) as Hfin.
  { intros m s1 Hok1 Hm. eapply wp_mono; [exact Hm| |done]. cbn beta. intros u s' [Hs Ho].
    eapply ok_settle; [done|]. by eapply ok_shrinks. }
  intros [Hq|[q Hq]]; [by apply Hfin, drain_hop_quiet|].
  unfold drain_hop. apply wp_bind, wp_gets. rewrite Hq. cbn [length Nat.mul Nat.add drain_hop_loop].
  eapply (wp_speak _ s); [apply shrinks_refl|done|by apply poll_hop_spec|]. cbn beta. rewrite Hq.
  intros o s1 Hs1 Hb1 (_ & -> & Ho1 & _). pose proof (ok_shrinks _ _ _ _ _ Hs1 Hok) as Hok1.
  apply wp_bind. eapply wp_mono; [by apply request_round| |done]. cbn beta. intros go s2 (Hok2 & [Hq2 Hl2] & Hgo).
  destruct go.
  - apply Hfin; [done|]. apply (drain_quiet 2); [by apply (ao_base _ _ _ _ Hok2)|done|done].
  - apply wp_ret. eapply ok_settle; [|done]. by apply Hgo.
Qed.
(** ** New workers and circuits *)

Lemma hop_ready_ok p key c now n t s : safe None n t (on_hop_ready p key c now) s.
Proof.
  unfold on_hop_ready, put_rejected. apply safe_gets. destruct (connections s !! conn_id key) as [conn|].
  2:{ apply safe_calm. calm_steps. }
  case_bool_decide; [apply safe_calm; calm_steps|]. apply safe_gets, safe_gets.
  destruct (Z.leb_spec (max_pending_hop_requests_per_connection (agent_config s)) (map_count (waits_on (conn_id key)) (hop_workers s)));
    [apply safe_calm; calm_steps|].
  intros [Hcfg [Hbp Hbw] Hset Ho Ha Hsl Hp Hstop Hh Hc HR HC]. apply wp_modify. split; cbn; try done.
  - split; cbn; [done|]. apply map_Forall_insert_2; [|done]. by split; cbn.
  - intros k Hk. unfold hop_outputs. cbn. destruct (decide (key = k)) as [<-|Hne].
    + by rewrite lookup_insert_eq.
    + rewrite lookup_insert_ne by done. by apply Hset.
  - intros conn'. specialize (Hh conn'). match goal with |- context [<[key := ?w]> _] =>
      pose proof (map_count_insert_le (waits_on conn') (hop_workers s) key w) as Hi end.
    unfold waits_on at 2 in Hi. destruct (Z.eqb_spec (conn_id key) conn') as [<-|]; cbn [andb] in Hi; [|lia].
    destruct (bool_decide _) in Hi; lia.
Qed.

(** A pending circuit becomes a circuit: a slot changes hands. *)
Lemma ok_commit n t s src c C :
  pending_circuits s !! src = Some c →
  source_peer_id C = pc_source_peer_id c → destination_peer_id C = pc_destination_peer_id c → circuit_bytes C = mkByteCounts 0 0 →
  agent_ok None n t s →
  agent_ok None n t {| s with pending_circuits := delete src (pending_circuits s); circuits := <[src := C]> (circuits s);
    events := events s ++ [CircuitOpened (pc_source_peer_id c) (pc_destination_peer_id c)] |}.
Proof.
  intros Hc E1 E2 E3 [Hcfg [Hbp Hbw] Hset Ho Ha Hsl Hp Hstop Hh Hcnt HR HC].
  pose proof (size_insert_le (circuits s) src C) as Hsz. split; cbn; try done.
  - split; cbn; [|done]. by apply map_Forall_delete.
  - unfold accounts in *. cbn. rewrite !count_events_snoc. cbn. lia.
  - rewrite map_size_delete, Hc. cbn.
    assert (size (pending_circuits s) ≠ 0%nat); [|lia]. intros Hz%map_size_empty_inv. by rewrite Hz in Hc.
  - intros p. specialize (Hp p). unfold peer_circuit_count in *. cbn.
    rewrite (map_count_delete (pending_involves p) _ _ _ Hc) in Hp.
    pose proof (map_count_insert_le (circuit_involves p) (circuits s) src C) as Hi.
    assert (circuit_involves p src C = pending_involves p src c) as Heq
      by (unfold circuit_involves, pending_involves; by rewrite E1, E2). rewrite Heq in Hi. lia.
  - intros conn. specialize (Hstop conn). rewrite (map_count_delete _ _ _ _ Hc) in Hstop. destruct (awaits_stop_on _ _ _); lia.
  - apply map_Forall_insert_2; [|done]. rewrite E3. pose proof (cg_bytes _ (proj2 Hcfg)). split; cbn; unfold u64_max; lia.
Qed.

Lemma commit_circuit_ok src now n t s : safe None n t (commit_circuit src now) s.
Proof.
  intros Hok. unfold commit_circuit. apply wp_bind, wp_gets. destruct (pending_circuits s !! src) as [c|] eqn:Hc; [|by apply wp_ret].
  apply wp_bind, wp_modify. destruct (stop_stream c) as [k|].
  - apply wp_bind, wp_gets, wp_bind, wp_modify, wp_bind, wp_modify. cbn [agent_config].
    match goal with |- wp ?m _ _ ?st => match st with context [<[src := ?C]> _] =>
      pose proof (ok_commit n t s src c C Hc eq_refl eq_refl eq_refl Hok) as Hok1; assert (∀ s, calm None 0 m s) as Hcalm end end.
    { intros. calm_steps. }
    by apply (safe_calm None n t); [apply Hcalm|].
  - apply wp_ret. eapply (ok_shrinks None); [|done]. by apply (calm_drop_pending None src s), (ao_base _ _ _ _ Hok).
Qed.

(** ** The host's calls *)

Lemma safe_keeps {X} n t (m : A X) s :
  (base_ok s → settled s → wp m (λ _ s', shrinks (Some Stops) 0 s s') (λ _ _, False) s) → safe None n t m s.
Proof.
  intros Hm Hok. eapply wp_mono; [apply Hm; [by apply (ao_base _ _ _ _ Hok)|by apply (ok_settled None n t)]| |done].
  cbn beta. intros x s' Hs. by eapply ok_stops.
Qed.
Lemma safe_feed_stop src i n t s : safe None n t (feed_stop src i) s.
Proof. apply safe_keeps. intros Hb _. by apply calm_feed_stop. Qed.
Lemma safe_drain_stop src now n t s : safe None n t (drain_stop src now) s.
Proof. apply safe_keeps. intros. by apply drain_stop_keeps. Qed.
Lemma safe_fail src st n t s : safe None n t (fail_pending_connect src st) s.
Proof. apply safe_steady, steady_fail. Qed.

(** A worker with nothing queued takes an input from the network. *)
Lemma feed_and_drain key i now n s :
  0 ≤ monotonic_ms now ≤ u64_max → (∃ d, i = HRData d) ∨ i = HRRemoteWriteClosed →
  safe None n (monotonic_ms now) (fed ← feed_hop key i; _ ← (if fed : bool then drain_hop key now else mret tt); mret true) s.
Proof.
  intros Hn Hi Hok. pose proof (ao_base _ _ _ _ Hok) as Hb. pose proof (ok_settled None _ _ _ ltac:(done) Hok key) as Ho.
  apply wp_bind. eapply wp_mono; [by apply feed_hop_spec| |done]. cbn beta. intros fed s1 (Hs1 & _ & Hout).
  pose proof (ok_shrinks _ _ _ _ _ Hs1 (ok_open _ _ _ _ Hok)) as Hok1.
  assert (quiet (hop_outputs key s1) ∨ ∃ q, hop_outputs key s1 = [HRRequest q]) as Hq.
  { unfold hop_outputs at 1 in Ho. destruct (hop_workers s !! key) as [w|]; [destruct Hout as [-> _]|rewrite Hout; left; by constructor].
    destruct Hi as [[d ->]| ->].
    - destruct (data_outputs d (responder w) Ho) as [[Hq _]|Hq]; auto.
    - left. rewrite closed_outputs, Ho. by constructor. }
  apply wp_bind. destruct fed.
  - eapply wp_mono; [by apply drain_hop_ok| |done]. cbn beta. intros u s2 Hok2. by apply wp_ret.
  - apply wp_ret, wp_ret. eapply ok_settle; [|done]. destruct (hop_workers s !! key) as [w|] eqn:Hw; [|done].
    destruct Hout as [Hout Herr]. rewrite Hout. unfold hop_outputs in Ho. rewrite Hw in Ho.
    destruct (Herr eq_refl) as (r & e & He). rewrite He. destruct Hi as [[d ->]| ->].
    + by rewrite (data_error _ _ _ _ He).
    + by destruct (closed_no_error _ _ _ He).
Qed.
Create HintDb safe.
#[local] Hint Resolve safe_ret safe_feed_stop safe_drain_stop safe_fail : safe.
Ltac safe_steps :=
  repeat first
    [ solve [auto with safe]
    | solve [apply safe_calm; calm_steps]
    | apply safe_gets
    | apply safe_seq; [|intros]
    | case_match ].

Lemma stream_data_ok key data now n s :
  0 ≤ monotonic_ms now ≤ u64_max → safe None n (monotonic_ms now) (on_stream_data key data now) s.
Proof.
  intros Hn. unfold on_stream_data. apply safe_gets. cbn [id]. destruct (has_pending key s); [safe_steps|].
  destruct (has_worker key s); [apply feed_and_drain; eauto|]. safe_steps.
Qed.

Lemma safe_put_pending key c c' n t s :
  pending_circuits s !! key = Some c → pending_from c c' → stop c' = stop c → safe None n t (put_pending key c') s.
Proof. intros. apply safe_calm. eapply calm_put_pending; [done|done|by right]. Qed.

Lemma write_closed_ok key now n s :
  0 ≤ monotonic_ms now ≤ u64_max → safe None n (monotonic_ms now) (on_remote_write_closed key now) s.
Proof.
  intros Hn. unfold on_remote_write_closed, feed_stop_of. apply safe_gets. cbn [id].
  destruct (has_circuit key s); [safe_steps|]. destruct (circuit_of_stop key s); [safe_steps|].
  destruct (has_worker key s).
  { apply safe_seq; [|intros; apply feed_and_drain; auto].
    destruct (pending_circuits s !! key) as [c|] eqn:Hc; [|apply safe_ret].
    eapply safe_put_pending; [done| |done]. split; [done..|by left|]. by intros []. }
  apply safe_seq; [safe_steps|]. intros [src|] s1; [|safe_steps]. apply safe_gets, safe_seq; [|intros; safe_steps].
  destruct (pending_circuits s1 !! src) as [c|] eqn:Hc; [|apply safe_ret].
  eapply safe_put_pending; [done| |done]. split; [done..|by left|]. by intros [].
Qed.

Lemma relay_stream_closed_ok key now n t s : safe None n t (on_stream_closed key now) s.
Proof.
  unfold on_stream_closed, feed_stop_of. apply safe_gets. cbn [id]. safe_steps.
Qed.

Lemma handle_event_ok e b now n t s :
  t ≤ monotonic_ms now → 0 ≤ monotonic_ms now ≤ u64_max → agent_ok None n t s →
  wp (handle_event e b now) (λ _ s', agent_ok None n (monotonic_ms now) s') (λ _ _, False) s.
Proof.
  intros Ht Hn Hok. unfold handle_event. apply wp_bind. eapply wp_mono; [by eapply tick_before_event_ok| |done].
  cbn beta. intros u s1 Hok1.
  destruct e as [p conn|p conn cause|p conn st proto loc|p conn st data|p conn st|p conn st|]; revert Hok1;
    match goal with |- _ → wp ?m _ _ ?s1 => change (safe None n (monotonic_ms now) m s1) end.
  - apply safe_seq; [apply safe_steady, steady_connection_established|intros; apply safe_ret].
  - apply safe_seq; [apply safe_steady, steady_connection_closed|intros; apply safe_ret].
  - destruct (_ && _); [|apply safe_ret]. apply safe_seq; [apply hop_ready_ok|intros; apply safe_ret].
  - by apply stream_data_ok.
  - by apply write_closed_ok.
  - apply relay_stream_closed_ok.
  - apply safe_ret.
Qed.
(** ** Results of actions *)

(** A result takes its operation out of the table first. *)
Lemma take_operation_ok {X} t0 n t (f : option PendingOperation → A X) s :
  (∀ o s', (∀ op, o = Some op → op_ok op) → safe None n t (f o) s') → safe None n t (take_operation t0 ≫= f) s.
Proof.
  intros Hf Hok. unfold take_operation. apply wp_bind, wp_bind, wp_gets, wp_bind, wp_modify, wp_ret. apply Hf.
  - intros op Hop. exact (ao_ops _ _ _ _ Hok _ _ Hop).
  - eapply (ok_shrinks None); [|done]. apply (calm_drop_operation None t0 s), (ao_base _ _ _ _ Hok).
Qed.

Lemma ok_reservations K n t s r : agent_ok K n t s → agent_ok K n t {| s with reservations := r |}.
Proof. intros [? [] ]. split; [done|by split|done..]. Qed.
Lemma open_result_ok t0 r now n t s : safe None n t (stream_open_result t0 r now) s.
Proof.
  apply take_operation_ok. intros o s1 _.
  destruct o as [[src p conn|p e|p k c|p]|]; destruct r as [stream|detail]; try (safe_steps; fail).
  destruct (_ =? _); [|safe_steps]. apply safe_gets. destruct (pending_circuits s1 !! src) as [c|] eqn:Hc; [|safe_steps].
  apply safe_gets. unfold poll_output. cbn [StopInitiator_protocol StopInitiator_poll_output StopInitiator_new si_outputs].
  apply safe_seq; [|intros; safe_steps].
  apply safe_keeps. intros Hb _. eapply calm_put_pending; [done| |by left|done]. split; [done..|by left|].
  intros []. split; cbn; auto. intros m [= <-]. by split.
Qed.

Lemma send_accepted_ok e now n t s p : op_ok (Send p e) → safe None n t (send_accepted e now) s.
Proof.
  intros He. destruct e as [k|pr|src|src|src d b]; cbn [send_accepted]; [safe_steps| |..].
  - apply safe_gets, safe_seq; [|intros; safe_steps].
    match goal with |- safe _ _ _ (if ?b then _ else _) _ => destruct b end; [|apply safe_ret].
    intros Hok. apply wp_bind, wp_modify. apply safe_calm; [by apply calm_event|]. by apply ok_reservations.
  - apply safe_seq; [safe_steps|]. intros. apply commit_circuit_ok.
  - apply safe_ret.
  - apply safe_calm. by apply calm_forward_accepted.
Qed.

Lemma send_result_ok t0 r now n t s : safe None n t (send_stream_result t0 r now) s.
Proof.
  apply take_operation_ok. intros o s1 Ho. destruct o as [[| p e| |]|]; try apply safe_ret. specialize (Ho _ eq_refl).
  destruct r as [[]|detail]; [by eapply send_accepted_ok|].
  apply safe_seq; [|intros; safe_steps]. destruct e; cbn [send_refused]; safe_steps.
Qed.

Lemma close_result_ok t0 r now n t s : safe None n t (close_stream_write_result t0 r now) s.
Proof. apply take_operation_ok. intros o s1 Ho. safe_steps. Qed.
Lemma reset_result_ok t0 r now n t s : safe None n t (reset_stream_result t0 r now) s.
Proof. apply take_operation_ok. intros o s1 Ho. safe_steps. Qed.

(** ** Runs *)

Abbreviation Event := (RelayServerEvent (Multihash := Multihash)).

(** A call whose result the run does not depend on. *)
Definition ignore {E X} (m : M Agent E X) : A (option Event) := λ s,
  let '(s', r) := m s in
  (s', match r with Ok _ | Err _ => Ok None | Panic => Panic | Diverge => Diverge end).

(** The event taken by the call, if it took one. *)
Definition run_call (c : Call (Multihash := Multihash)) : A (option Event) :=
  match c with
  | CallEvent e b now => ignore (handle_event e b now)
  | CallTick now => ignore (handle_tick now)
  | CallOpened t r now => ignore (stream_open_result t r now)
  | CallSent t r now => ignore (send_stream_result t r now)
  | CallClosed t r now => ignore (close_stream_write_result t r now)
  | CallReset t r now => ignore (reset_stream_result t r now)
  | CallAccepting b => ignore (set_accepting b)
  | CallAnnounce addrs => ignore (replace_announce_addrs addrs)
  | CallConfirmed addrs => ignore (set_confirmed_addrs addrs)
  | CallListener addrs => ignore (set_listener_addrs addrs)
  | CallAddress conn m => ignore (set_connection_addr conn m)
  | CallPollAction => ignore poll_action
  | CallPollEvent => poll_event
  end.

Fixpoint run_calls (cs : list (Call (Multihash := Multihash))) : A (list Event) :=
  match cs with
  | [] => mret []
  | c :: cs =>
      e ← run_call c;
      l ← run_calls cs;
      mret match e with Some e => e :: l | None => l end
  end.

Definition call_time (c : Call (Multihash := Multihash)) : option Z :=
  match c with CallEvent _ _ now | CallTick now => Some (monotonic_ms now) | _ => None end.
(** The clock the host reads does not go back. *)
Fixpoint clocked (t : Z) (cs : list (Call (Multihash := Multihash))) : Prop :=
  match cs with
  | [] => True
  | c :: cs =>
      match call_time c with
      | Some t' => t ≤ t' ≤ u64_max ∧ clocked t' cs
      | None => clocked t cs
      end
  end.
Definition later (t : Z) (c : Call (Multihash := Multihash)) : Z := default t (call_time c).

Definition end_time (t : Z) (cs : list (Call (Multihash := Multihash))) : Z := foldl later t cs.

Definition opens (e : option Event) : Z :=
  match e with Some e => (if is_opened e then 1 else 0) - (if is_closed_event e then 1 else 0) | None => 0 end.

Lemma wp_ignore {E X} (m : M Agent E X) (P : Agent → Prop) s :
  wp m (λ _, P) (λ _, P) s → wp (ignore m) (λ o s', o = None ∧ P s') (λ _ _, False) s.
Proof. unfold wp, ignore. by destruct (m s) as [s' [x|e| |]]. Qed.

(** The parts of the state the invariant is about. *)
Lemma ok_frame K n t s s' :
  agent_config s' = agent_config s → reservation_limiters s' = reservation_limiters s →
  circuit_limiters s' = circuit_limiters s → pending_circuits s' = pending_circuits s → circuits s' = circuits s →
  hop_workers s' = hop_workers s → reservations s' = reservations s → events s' = events s →
  pending_operations s' = pending_operations s → agent_ok K n t s → agent_ok K n t s'.
Proof.
  intros Hc Hl1 Hl2 Hp Hx Hw Hr He Hops Hok. eapply ok_shrinks; [|done]. apply shrinks_same; try done. unfold ops_ok. by rewrite Hops.
Qed.

Lemma set_addrs_ok (g : list (Multiaddr.Multiaddr (Multihash := Multihash)) → Agent → Agent) addrs n t s :
  (∀ l s, agent_ok None n t s → agent_ok None n t (g l s)) → agent_ok None n t s →
  wp (normalized ← reads (λ s, normalize_addrs (local_peer_id s) addrs); modify (g normalized))
    (λ _ s', agent_ok None n t s') (λ _ s', agent_ok None n t s') s.
Proof.
  intros Hg Hok. apply wp_bind, wp_reads.
  pose proof (normalize_loop_spec (local_peer_id s) 0 addrs [] ltac:(apply NoDup_nil_2)) as Hs. unfold normalize_addrs.
  destruct (normalize_loop _ _ _ _); try done. by apply wp_modify, Hg.
Qed.

Lemma poll_event_ok n t s :
  agent_ok None n t s → wp poll_event (λ e s', agent_ok None (n + opens e) t s') (λ _ _, False) s.
Proof.
  intros Hok. unfold wp, poll_event. destruct (events s) as [|e l] eqn:He; cbn.
  { by rewrite Z.add_0_r. }
  destruct Hok as [? [] ? ? Ha]. split; try done.
  unfold accounts in *. cbn. rewrite He, !count_events_cons in Ha. lia.
Qed.

Lemma run_call_ok c n t s :
  0 ≤ t → match call_time c with Some t' => t ≤ t' ≤ u64_max | None => True end → agent_ok None n t s →
  wp (run_call c) (λ e s', agent_ok None (n + opens e) (later t c) s') (λ _ _, False) s.
Proof.
  intros Ht Hc Hok.
  assert (∀ {E X} (m : M Agent E X) t', wp m (λ _ s', agent_ok None n t' s') (λ _ s', agent_ok None n t' s') s →
    wp (ignore m) (λ e s', agent_ok None (n + opens e) t' s') (λ _ _, False) s) as Hig.
  { intros E X m t' Hm%wp_ignore. eapply wp_mono; [exact Hm| |done]. cbn beta. intros o s' [-> ?]. cbn. by rewrite Z.add_0_r. }
  assert (∀ {X} (m : A X) t', wp m (λ _ s', agent_ok None n t' s') (λ _ _, False) s →
    wp (ignore m) (λ e s', agent_ok None (n + opens e) t' s') (λ _ _, False) s) as HigA.
  { intros X m t' Hm. apply Hig. by eapply wp_mono. }
  destruct c; cbn [run_call call_time later default] in *.
  - apply HigA. apply (handle_event_ok _ _ _ _ t); [lia|lia|done].
  - apply HigA. eapply wp_mono; [apply (handle_tick_ok n t); [lia|lia|done]|by intros ? ? []|done].
  - by apply HigA, open_result_ok.
  - by apply HigA, send_result_ok.
  - by apply HigA, close_result_ok.
  - by apply HigA, reset_result_ok.
  - apply HigA. by apply safe_calm; [calm_same|].
  - apply Hig, set_addrs_ok; [|done]. intros l s' ?. by apply (ok_frame _ _ _ s').
  - apply Hig, set_addrs_ok; [|done]. intros l s' ?. by apply (ok_frame _ _ _ s').
  - apply Hig, set_addrs_ok; [|done]. intros l s' ?. by apply (ok_frame _ _ _ s').
  - apply HigA, (safe_calm None n t); [|done]. unfold set_connection_addr. calm_steps.
  - apply HigA. unfold wp, poll_action. destruct (actions s) as [|a l]; [done|]. by apply (ok_frame _ _ _ s).
  - by apply poll_event_ok.
Qed.

Lemma run_calls_ok cs n t s :
  0 ≤ t → clocked t cs → agent_ok None n t s →
  wp (run_calls cs) (λ l s', agent_ok None (n + count_events is_opened l - count_events is_closed_event l) (end_time t cs) s')
    (λ _ _, False) s.
Proof.
  revert n t s. induction cs as [|c cs IH]; intros n t s Ht Hcl Hok; cbn [run_calls].
  { apply wp_ret. cbn. by rewrite Z.add_0_r, Z.sub_0_r. }
  assert (match call_time c with Some t' => t ≤ t' ≤ u64_max | None => True end ∧ 0 ≤ later t c ∧ clocked (later t c) cs)
    as (Hc & Ht' & Hcl').
  { cbn [clocked] in Hcl. unfold later. destruct (call_time c) as [t1|]; cbn [from_option id]; [|done].
    destruct Hcl. split; [done|split; [unfold id; lia|done]]. }
  apply wp_bind. eapply wp_mono; [by apply (run_call_ok c n t)| |done]. cbn beta. intros e s1 Hok1.
  apply wp_bind. eapply wp_mono; [by apply (IH _ _ _ Ht' Hcl' Hok1)| |done]. cbn beta. intros l s2 Hok2. apply wp_ret.
  replace (n + count_events is_opened _ - _) with (n + opens e + count_events is_opened l - count_events is_closed_event l); [done|].
  destruct e as [e|]; cbn [opens]; [rewrite !count_events_cons|]; lia.
Qed.

Lemma new_ok local : config_ok cfg → ∃ s, RelayServerAgent_new local cfg = Ok s ∧ agent_ok None 0 0 s.
Proof.
  intros Hcfg. unfold RelayServerAgent_new. rewrite (cg_valid _ Hcfg). eexists. split; [reflexivity|].
  destruct (cg_limits _ Hcfg) as (T1 & T2 & T3 & T4).
  destruct (validate_limits cfg T1 T2 T3 T4 (cg_valid _ Hcfg)) as (U1 & U2 & U3 & U4).
  destruct (Hcfg). split; cbn; try done.
  - rewrite !map_size_empty. lia.
  - split; by apply within_new.
  - split; by apply within_new.
Qed.

(** A run of the service from its creation. *)
Definition service_run (local : PeerId) (cs : list (Call (Multihash := Multihash)))
    : res RelayServerConfigError (Agent * res Empty_set (list Event)) :=
  s ← RelayServerAgent_new local cfg;
  mret (run_calls cs s).

Lemma service_run_ok local cs :
  config_ok cfg → clocked 0 cs →
  ∃ s l, service_run local cs = Ok (s, Ok l) ∧
    agent_ok None (count_events is_opened l - count_events is_closed_event l) (end_time 0 cs) s.
Proof.
  intros Hcfg Hcl. destruct (new_ok local Hcfg) as (s0 & Hnew & Hok).
  pose proof (run_calls_ok cs 0 0 s0 (Z.le_refl 0) Hcl Hok) as Hw. apply wp_ok_run in Hw as (l & s & Hrun & Hs).
  unfold service_run. rewrite Hnew. cbn. rewrite Hrun. by exists s, l.
Qed.

(** C2: whatever the network and the host do, in any order, a relay service
    with a valid configuration neither panics nor loops, and at every moment
    holds no more circuits, in all and for each peer, no more unanswered HOP and
    STOP streams per connection, no more buffered bytes per circuit being set
    up, and no circuit that has carried more bytes, than it is configured for. *)
Theorem relay_limits_hold local cs :
  config_ok cfg → clocked 0 cs →
  ∃ s l, service_run local cs = Ok (s, Ok l) ∧
    circuit_count s ≤ max_circuits cfg ∧
    (∀ p, peer_circuit_count p s ≤ max_circuits_per_peer cfg) ∧
    (∀ conn, map_count (waits_on conn) (hop_workers s) ≤ max_pending_hop_requests_per_connection cfg) ∧
    (∀ conn, map_count (awaits_stop_on (Some conn)) (pending_circuits s) ≤
       max_pending_stop_requests_per_connection cfg) ∧
    (∀ k c, pending_circuits s !! k = Some c →
       zlen (source_pipelined c) ≤ MAX_PENDING_BRIDGE_SIZE ∧ zlen (destination_pipelined c) ≤ MAX_PENDING_BRIDGE_SIZE) ∧
    (∀ k c, circuits s !! k = Some c → max_circuit_bytes cfg ≠ 0 →
       source_to_destination (circuit_bytes c) ≤ max_circuit_bytes cfg ∧
       destination_to_source (circuit_bytes c) ≤ max_circuit_bytes cfg).
Proof.
  intros Hcfg Hcl. destruct (service_run_ok local cs Hcfg Hcl) as (s & l & Hrun & [[Hc _] Hb _ _ _ Hsl Hp Hst Hh Hcnt _ _]).
  rewrite Hc in *. exists s, l. split_and!; try done.
  - unfold circuit_count, saturating_add. lia.
  - intros k c Hk. destruct (bo_pending _ Hb _ _ Hk). by split.
  - intros k c Hk. exact (co_max _ _ (Hcnt _ _ Hk)).
Qed.

(** C23: the circuits the service has reported closed, together with those it
    still holds, are at most those it has reported opened: no circuit is
    reported closed twice, or closed without having been opened. *)
Theorem relay_closes_once local cs :
  config_ok cfg → clocked 0 cs →
  ∃ s l, service_run local cs = Ok (s, Ok l) ∧
    count_events is_closed_event (l ++ events s) + Z.of_nat (size (circuits s)) ≤ count_events is_opened (l ++ events s).
Proof.
  intros Hcfg Hcl. destruct (service_run_ok local cs Hcfg Hcl) as (s & l & Hrun & Hok).
  exists s, l. split; [done|]. pose proof (ao_accounts _ _ _ _ Hok) as Ha. unfold accounts in Ha.
  unfold count_events in *. rewrite !filter_app, !zlen_app. lia.
Qed.

(** ** Timers *)

Lemma min_of_Some l d : min_of l = Some d → Some d ∈ l.
Proof.
  unfold min_of. intros [Hin _]%list_min_Some. apply list_elem_of_omap in Hin as (o & Ho & Hid). cbn in Hid. by subst.
Qed.

Lemma limiter_due now l d : swept now l → admission_next_due l = Some d → monotonic_ms now < d.
Proof.
  intros [HP HI]. unfold admission_next_due.
  assert (∀ d, peer l ≫= next_due = Some d → monotonic_ms now < d) as H1.
  { intros d1. destruct (peer l) as [b|]; [|done]. by apply next_due_future, HP. }
  assert (∀ d, ip l ≫= next_due = Some d → monotonic_ms now < d) as H2.
  { intros d2. destruct (ip l) as [b|]; [|done]. by apply next_due_future, HI. }
  destruct (peer l ≫= next_due) as [d1|]; [specialize (H1 d1 eq_refl)|];
    destruct (ip l ≫= next_due) as [d2|]; try specialize (H2 d2 eq_refl); intros [= <-]; lia.
Qed.

Lemma due_later `{BTreeKey J} {X} (m : gmap J X) (f : X → option Z) now d :
  (∀ k, ¬ ∃ x, m !! k = Some x ∧ due_at now (f x) = true) →
  list_min (omap (λ e, f e.2) (btree_iter m)) = Some d → monotonic_ms now < d.
Proof.
  intros Hnd [Hin _]%list_min_Some. apply list_elem_of_omap in Hin as ([k x] & Hx & Hf). apply elem_of_btree_iter in Hx.
  cbn in Hf. apply Z.leb_gt. destruct (_ <=? _) eqn:Hle; [|done]. destruct (Hnd k). exists x. unfold due_at. by rewrite Hf.
Qed.

Lemma nothing_due_later now s d : nothing_due now s → next_timeout now s = Some d → 0 < d.
Proof.
  intros [N1 N2 N3 N4 N5 N6] Hd. unfold next_timeout in Hd.
  destruct (min_of _) as [due|] eqn:Hm in Hd; [|done]. cbn in Hd. injection Hd as <-.
  assert (monotonic_ms now < due); [|unfold saturating_sub; lia].
  apply min_of_Some in Hm. rewrite !elem_of_cons, elem_of_nil in Hm.
  destruct Hm as [Hm|[Hm|[Hm|[Hm|[Hm|[]]]]]]; symmetry in Hm;
    [|exact (due_later _ _ _ _ N3 Hm)|exact (due_later _ _ _ _ N4 Hm)|exact (due_later _ _ _ _ N2 Hm)|].
  - apply list_min_Some in Hm as [Hin _]. apply list_elem_of_fmap in Hin as ([p r] & -> & Hr). apply elem_of_btree_iter in Hr.
    apply Z.leb_gt. destruct (_ <=? _) eqn:Hle; [|done]. destruct (N1 p). by exists r.
  - apply min_of_Some in Hm. rewrite !elem_of_cons, elem_of_nil in Hm. destruct Hm as [Hm|[Hm|[]]]; symmetry in Hm;
      (eapply limiter_due; [|exact Hm]; done).
Qed.

(** C24: a tick handles everything that is due: in any state the service can
    be in, a tick at a later time succeeds, leaves no expired reservation,
    overdue circuit or overdue stream, and the timeout the service then reports
    is positive, so that a host that sleeps until then does not spin. *)
Theorem relay_tick_clears local cs now :
  config_ok cfg → clocked 0 cs → end_time 0 cs ≤ monotonic_ms now ≤ u64_max → 0 ≤ monotonic_ms now →
  ∃ s l s', service_run local cs = Ok (s, Ok l) ∧ handle_tick now s = (s', Ok tt) ∧
    (∀ p r, reservations s' !! p = Some r → monotonic_ms now < reservation_deadline_ms r) ∧
    (∀ k c d, circuits s' !! k = Some c → circuit_deadline_ms c = Some d → monotonic_ms now < d) ∧
    (∀ d, next_timeout now s' = Some d → 0 < d).
Proof.
  intros Hcfg Hcl Hle Hn. destruct (service_run_ok local cs Hcfg Hcl) as (s & l & Hrun & Hok).
  pose proof (handle_tick_ok _ _ now s (proj1 Hle) ltac:(lia) Hok) as Hw. apply wp_ok_run in Hw as ([] & s' & Ht & _ & Hnd).
  exists s, l, s'. split_and!; [done|done| | |].
  - intros p r Hr. apply Z.leb_gt. destruct (_ <=? _) eqn:Hd; [|done]. destruct (nd_reservations _ _ Hnd p). by exists r.
  - intros k c d Hc Hd. apply Z.leb_gt. destruct (_ <=? _) eqn:Hd'; [|done]. destruct (nd_circuits _ _ Hnd k).
    exists c. split; [done|]. unfold due_at. by rewrite Hd.
  - intros d. by apply nothing_due_later.
Qed.
End Policy.

(** ** A concrete service *)

#[local] Existing Instance demo_crates.
#[local] Existing Instance demo_crates_spec.

Abbreviation DemoPeer := (PeerIdentity.PeerId (Multihash := Z * bytes)).
Definition demo_key (p : DemoPeer) : Z * (Z * Z) := ((multihash p).1, bytes_key (multihash p).2).
#[local] Instance demo_key_inj : Inj (=) (=) demo_key.
Proof.
  intros [[c d]] [[c' d']] Heq. unfold demo_key in Heq. cbn in Heq. injection Heq as -> Hl Hv. do 2 f_equal.
  apply (inj bytes_key). unfold bytes_key. congruence.
Qed.
#[local] Instance demo_btree_key : BTreeKey DemoPeer := inj_btree_key demo_key.

Definition demo_peer (b : byte) : DemoPeer := mkPeerId (18, replicate 32 b).
Definition demo_addr : Multiaddr.Multiaddr (Multihash := Z * bytes) := mkMultiaddr [Ip4 [x01; x02; x03; x04]; Tcp 4001].
Definition hop_frame (m : HopMessage) : bytes := Frame.encode_frame (HopMessage_encode m).
Definition reserve_frame : bytes := hop_frame (mkHop HopReserve None None None None).
Definition connect_frame (p : DemoPeer) : bytes := hop_frame (mkHop HopConnectKind (Some (mkPeer (to_bytes p) [])) None None None).
Definition at_ms (t : Z) : Now := Now_from_millis t.

(** A peer reserves, another connects to it through the relay, and they talk. *)
Definition demo_calls : list (Call (Multihash := Z * bytes)) :=
  let alice := demo_peer x02 in
  let bob := demo_peer x03 in
  [ CallListener [demo_addr];
    CallEvent (ConnectionEstablished alice 1) false (at_ms 0);
    CallEvent (ConnectionEstablished bob 2) false (at_ms 0);
    CallEvent (StreamReady alice 1 0 HOP_PROTOCOL_ID false) false (at_ms 1);
    CallEvent (StreamData alice 1 0 reserve_frame) false (at_ms 1);
    CallSent 1 (inl tt) (at_ms 1);
    CallPollEvent;
    CallEvent (StreamReady bob 2 0 HOP_PROTOCOL_ID false) false (at_ms 2);
    CallEvent (StreamData bob 2 0 (connect_frame alice)) false (at_ms 2);
    CallOpened 3 (inl (mkStreamKey 1 1)) (at_ms 3);
    CallSent 4 (inl tt) (at_ms 3);
    CallEvent (StreamData alice 1 1 (Frame.encode_frame (StopMessage_encode (mkStop StopStatusKind None None (Some StatusOk)))))
      false (at_ms 4);
    CallSent 5 (inl tt) (at_ms 4);
    CallPollEvent;
    CallEvent (StreamData bob 2 0 (str "hello")) false (at_ms 5);
    CallSent 6 (inl tt) (at_ms 5) ].

Lemma default_config_ok : config_ok RelayServerConfig_default.
Proof. split; cbn; unfold usize_max, u64_max, u32_max; try reflexivity; try lia. Qed.
Lemma demo_clocked : clocked 0 demo_calls.
Proof. cbn. unfold u64_max. lia. Qed.

Lemma relay_limits_hold_witness :
  ∃ s l, service_run RelayServerConfig_default (demo_peer x01) demo_calls = Ok (s, Ok l) ∧ circuit_count s ≤ 16.
Proof.
  destruct (relay_limits_hold RelayServerConfig_default (demo_peer x01) demo_calls) as (s & l & Hrun & Hc & _).
  - exact default_config_ok.
  - exact demo_clocked.
  - exists s, l. split; [exact Hrun|exact Hc].
Defined.

Lemma relay_closes_once_witness :
  ∃ s l, service_run RelayServerConfig_default (demo_peer x01) demo_calls = Ok (s, Ok l) ∧
    count_events is_closed_event (l ++ events s) + Z.of_nat (size (circuits s)) ≤ count_events is_opened (l ++ events s).
Proof. exact (relay_closes_once RelayServerConfig_default (demo_peer x01) demo_calls default_config_ok demo_clocked). Defined.

Lemma relay_tick_clears_witness :
  ∃ s l s', service_run RelayServerConfig_default (demo_peer x01) demo_calls = Ok (s, Ok l) ∧
    handle_tick (at_ms 200000) s = (s', Ok tt) ∧ (∀ d, next_timeout (at_ms 200000) s' = Some d → 0 < d).
Proof.
  destruct (relay_tick_clears RelayServerConfig_default (demo_peer x01) demo_calls (at_ms 200000))
    as (s & l & s' & Hrun & Ht & _ & _ & Hd).
  - exact default_config_ok.
  - exact demo_clocked.
  - cbn. unfold u64_max. lia.
  - cbn. lia.
  - exists s, l, s'. split; [exact Hrun|]. split; [exact Ht|exact Hd].
Defined.

(** ** A limit that does not hold *)

(** One reservation is allowed. A peer's renewal is granted and its answer is on
    its way when the reservation lapses; another peer reserves; then both
    answers are accepted by the transport. *)
Definition renewal_calls : list (Call (Multihash := Z * bytes)) :=
  let alice := demo_peer x02 in
  let bob := demo_peer x03 in
  [ CallListener [demo_addr];
    CallEvent (ConnectionEstablished alice 1) false (at_ms 0);
    CallEvent (ConnectionEstablished bob 2) false (at_ms 0);
    CallEvent (StreamReady alice 1 0 HOP_PROTOCOL_ID false) false (at_ms 0);
    CallEvent (StreamData alice 1 0 reserve_frame) false (at_ms 0);
    CallSent 1 (inl tt) (at_ms 0);
    CallEvent (StreamReady alice 1 4 HOP_PROTOCOL_ID false) false (at_ms 999);
    CallEvent (StreamData alice 1 4 reserve_frame) false (at_ms 999);
    CallEvent (StreamReady bob 2 0 HOP_PROTOCOL_ID false) false (at_ms 1000);
    CallEvent (StreamData bob 2 0 reserve_frame) false (at_ms 1000);
    CallSent 3 (inl tt) (at_ms 1000);
    CallSent 5 (inl tt) (at_ms 1000) ].

(** A renewal that outlives its reservation is not counted against
    [max_reservations] when the next peer asks. *)
Lemma lapsed_renewal_exceeds_limit :
  match service_run {| RelayServerConfig_default with max_reservations := 1; reservation_duration_secs := 1 |}
    (demo_peer x01) renewal_calls with
  | Ok (s, Ok _) => max_reservations (agent_config s) = 1 ∧ reservation_count s = 2
  | _ => False
  end.
Proof. vm_compute. done. Qed.
