(* ===== verification/RelayForward.v ===== *)
(** What a circuit does with the bytes it is given: the host hands the agent a
    chunk from one leg, performs the send the agent asks for on the other leg,
    and reports that the transport took it. *)

From Stdlib Require Import Strings.Byte.
From S2P Require Import Prelude Text Deadline Proto RelayMessage Base58 PeerIdentity Multiaddr RelayAddress.
From S2P Require Import SansIo RelayServer Limiter Admission RelayAgent RelaySteps RelayPolicy.

Section Forward.
Context `{HashCrates Multihash} `{!EqDecision Multihash} `{!Countable Multihash}.
Abbreviation PeerId := (PeerIdentity.PeerId (Multihash := Multihash)).
Context `{!BTreeKey PeerId}.
Abbreviation Agent := (RelayServerAgent (Multihash := Multihash)).
Abbreviation A := (M Agent Empty_set).
Abbreviation Circuit := (RelayAgent.Circuit (Multihash := Multihash)).
Implicit Types (s : Agent) (c : Circuit).

(** One turn of the host. *)
Definition relay_step (key : StreamKey) (data : bytes) (now : Now) : A (option (PeerId * StreamKey * bytes)) :=
  _ ← on_stream_data key data now;
  action ← poll_action;
  match action with
  | Some (SendStream t p stream d) => _ ← send_stream_result t (inl tt) now; mret (Some (p, stream, d))
  | _ => mret None
  end.

(** The leg a direction's bytes come from, and the one they go to. *)
Definition from_leg c (dir : CircuitDirection) : StreamKey :=
  match dir with SourceToDestination => source_stream c | DestinationToSource => destination_stream c end.
Definition to_leg c (dir : CircuitDirection) : PeerId * StreamKey :=
  match dir with
  | SourceToDestination => (destination_peer_id c, destination_stream c)
  | DestinationToSource => (source_peer_id c, source_stream c)
  end.

Fixpoint relay_run (c : Circuit) (chunks : list (CircuitDirection * bytes)) (now : Now)
    : A (list (option (PeerId * StreamKey * bytes))) :=
  match chunks with
  | [] => mret []
  | (dir, data) :: chunks =>
      sent ← relay_step (from_leg c dir) data now;
      rest ← relay_run c chunks now;
      mret (sent :: rest)
  end.

(** A circuit that is up and at rest: nothing in flight, neither side has
    closed, and the host has performed every action. *)
Record standing c s : Prop := {
  sg_circuit : circuits s !! source_stream c = Some c;
  sg_idle : source_to_destination_in_flight c = false ∧ destination_to_source_in_flight c = false;
  sg_open : source_eof c = false;
  sg_worker : ∃ w, hop_workers s !! source_stream c = Some w ∧ responder w = hr_bridging [];
  sg_pending : pending_circuits s !! source_stream c = None;
  sg_stop : stop_to_source s !! destination_stream c = Some (source_stream c);
  sg_stop_free : pending_circuits s !! destination_stream c = None ∧ hop_workers s !! destination_stream c = None ∧
    rejected_hop_streams s !! destination_stream c = None ∧ circuits s !! destination_stream c = None;
  sg_actions : actions s = [];
}.

Definition total (dir : CircuitDirection) (b : CircuitByteCounts) : Z :=
  match dir with SourceToDestination => source_to_destination b | DestinationToSource => destination_to_source b end.
(** [c] once it has carried [n] more bytes one way. *)
Definition carried_by (dir : CircuitDirection) (n : Z) c : Circuit :=
  let b := circuit_bytes c in
  {| c with circuit_bytes :=
       match dir with
       | SourceToDestination => {| b with source_to_destination := source_to_destination b + n |}
       | DestinationToSource => {| b with destination_to_source := destination_to_source b + n |}
       end |}.

(** ** Running the pieces *)

Lemma token_run s : ∃ t nt, token s = ({| s with next_token := nt |}, Ok t).
Proof.
  unfold token. cbn [token_loop]. rewrite run_gets, run_modify. destruct (Z.eqb_spec (next_token s) 0) as [Hz|]; cbn [negb]; cycle 1.
  { by eexists _, _. }
  rewrite run_gets, run_modify. cbn [next_token]. rewrite Hz.
  change (negb (wrapping_add u64_max 0 1 =? 0)) with true. by eexists _, _.
Qed.

Definition in_flight (dir : CircuitDirection) c : Circuit :=
  match dir with
  | SourceToDestination => {| c with source_to_destination_in_flight := true |}
  | DestinationToSource => {| c with destination_to_source_in_flight := true |}
  end.

Lemma queue_forward_run c dir data s :
  circuits s !! source_stream c = Some c →
  source_to_destination_in_flight c = false ∧ destination_to_source_in_flight c = false → data ≠ [] →
  ∃ t nt, queue_forward (source_stream c) dir data s =
    ({| s with circuits := <[source_stream c := in_flight dir c]> (circuits s);
               pending_operations := <[t := Send (to_leg c dir).1
                 (Forward (source_stream c) dir (Z.min (zlen data) u64_max))]> (pending_operations s);
               actions := actions s ++ [SendStream t (to_leg c dir).1 (to_leg c dir).2 data];
               next_token := nt |}, Ok tt).
Proof.
  intros Hc [H1 H2] Hd. unfold queue_forward. destruct data as [|b data]; [done|]. rewrite run_gets, Hc.
  destruct dir; [rewrite H1|rewrite H2]; unfold put_circuit; rewrite run_modify; unfold queue_send;
    (match goal with |- context [(token ≫= _) ?st] => destruct (token_run st) as (t & nt & Ht) end);
    exists t, nt; rewrite (run_ok _ _ _ _ _ Ht); reflexivity.
Qed.

Lemma feed_hop_run key i w r s :
  hop_workers s !! key = Some w → handle_input i (responder w) = (r, Ok tt) →
  feed_hop key i s = ({| s with hop_workers := <[key := {| w with responder := r |}]> (hop_workers s) |}, Ok true).
Proof. intros Hw Hi. unfold feed_hop. rewrite run_gets, Hw, Hi. done. Qed.

Lemma poll_hop_run key w os s :
  hop_workers s !! key = Some w → hr_outputs (responder w) = os →
  poll_hop key s =
    ({| s with hop_workers := <[key := {| w with responder := {| (responder w) with hr_outputs := tail os |} |}]> (hop_workers s) |},
     Ok (head os)).
Proof.
  intros Hw <-. unfold poll_hop. rewrite run_gets, Hw. unfold poll_output. cbn [HopResponder_protocol]. unfold HopResponder_poll_output.
  destruct w as [p [b outs pr pb br rc dn] ? ? ?]. cbn. by destruct outs.
Qed.

(** [s] with these outputs waiting at the responder of a standing circuit. *)
Definition with_outputs (k : StreamKey) (w : HopWorker (Multihash := Multihash)) os s : Agent :=
  {| s with hop_workers := <[k := {| w with responder := hr_bridging os |}]> (hop_workers s) |}.

Lemma with_no_outputs k w s : hop_workers s !! k = Some w → responder w = hr_bridging [] → with_outputs k w [] s = s.
Proof.
  intros Hw Hr. unfold with_outputs. replace (mkHopWorker _ _ _ _ _) with w by (destruct w; cbn in *; by subst).
  rewrite insert_id by done. by destruct s.
Qed.
Lemma poll_with_outputs k w os s : poll_hop k (with_outputs k w os s) = (with_outputs k w (tail os) s, Ok (head os)).
Proof.
  rewrite (poll_hop_run k {| w with responder := hr_bridging os |} os); [|apply lookup_insert_eq|done].
  unfold with_outputs. cbn. by rewrite insert_insert_eq.
Qed.

(** What a chunk in one direction leaves behind until the host echoes the send. *)
Definition forwarding c dir (data : bytes) (t nt : Z) s : Agent :=
  {| s with circuits := <[source_stream c := in_flight dir c]> (circuits s);
            pending_operations := <[t := Send (to_leg c dir).1
              (Forward (source_stream c) dir (Z.min (zlen data) u64_max))]> (pending_operations s);
            actions := actions s ++ [SendStream t (to_leg c dir).1 (to_leg c dir).2 data];
            next_token := nt |}.

(** A chunk from the source passes through its HOP responder. *)
Lemma source_data_run c data now s :
  standing c s → data ≠ [] →
  ∃ t nt, on_stream_data (source_stream c) data now s = (forwarding c SourceToDestination data t nt s, Ok true).
Proof.
  intros [Hc Hidle Ho (w & Hw & Hr) Hp Hs Hfree Ha] Hd. unfold on_stream_data. rewrite run_gets. cbn [id].
  unfold has_pending, has_worker. rewrite Hp, Hw, bool_decide_false, bool_decide_true by (by eexists || by intros []).
  assert (handle_input (HRData data) (responder w) = (hr_bridging [HRBridgeData data], Ok tt)) as Hi.
  { rewrite Hr. by destruct data. }
  rewrite (run_ok _ _ _ _ _ (feed_hop_run _ _ _ _ _ Hw Hi)).
  change (mkAgent _ _ _ _ _ _ _ _ _ _ _ _ _ _ _ _ _ _ _ _) with (with_outputs (source_stream c) w [HRBridgeData data] s).
  destruct (queue_forward_run c SourceToDestination data s Hc Hidle Hd) as (t & nt & Hf). exists t, nt.
  assert (drain_hop (source_stream c) now (with_outputs (source_stream c) w [HRBridgeData data] s) =
    (forwarding c SourceToDestination data t nt s, Ok tt)) as Hdrain; [|by rewrite (run_ok _ _ _ _ _ Hdrain)].
  unfold drain_hop. rewrite run_gets. unfold hop_outputs. cbn [hop_workers with_outputs]. rewrite lookup_insert_eq.
  cbn [responder hr_outputs hr_bridging length Nat.mul Nat.add drain_hop_loop].
  rewrite (run_ok _ _ _ _ _ (poll_with_outputs _ _ _ _)). cbn [head tail]. rewrite with_no_outputs by done.
  cbn [drain_hop_round]. rewrite run_gets_bind. cbn [id].
  rewrite Hp, Hc, bool_decide_false, bool_decide_true by (by eexists || by intros []).
  assert ((_ ← queue_forward (source_stream c) SourceToDestination data; mret true) s =
    (forwarding c SourceToDestination data t nt s, Ok true)) as Hround by (by rewrite (run_ok _ _ _ _ _ Hf)).
  rewrite (run_ok _ _ _ _ _ Hround). cbn [drain_hop_loop].
  pose proof (poll_with_outputs (source_stream c) w [] (forwarding c SourceToDestination data t nt s)) as Hpoll.
  cbn [tail head] in Hpoll. rewrite !with_no_outputs in Hpoll by done. by rewrite (run_ok _ _ _ _ _ Hpoll).
Qed.

(** A chunk from the destination goes to the source as it is. *)
Lemma destination_data_run c data now s :
  standing c s → data ≠ [] →
  ∃ t nt, on_stream_data (destination_stream c) data now s = (forwarding c DestinationToSource data t nt s, Ok true).
Proof.
  intros [Hc Hidle Ho _ Hp Hs (F1 & F2 & F3 & F4) Ha] Hd. unfold on_stream_data. rewrite run_gets. cbn [id].
  unfold has_pending, has_worker, has_rejected, has_circuit. rewrite F1, F2, F3, F4, Hs, !bool_decide_false by (by intros []).
  assert (feed_stop (source_stream c) (SIData data) s = (s, Ok false)) as Hfeed.
  { unfold feed_stop. by rewrite run_gets, Hp. }
  rewrite (run_ok _ _ _ _ _ Hfeed). rewrite run_gets_bind, Hc, bool_decide_true by (by eexists).
  destruct (queue_forward_run c DestinationToSource data s Hc Hidle Hd) as (t & nt & Hf). exists t, nt.
  by rewrite (run_ok _ _ _ _ _ Hf).
Qed.

(** The echo of the send counts the chunk, and then looks at the limit. *)
Lemma echo_counts c dir data t nt now s :
  standing c s → 0 ≤ total dir (circuit_bytes c) → total dir (circuit_bytes c) + zlen data ≤ u64_max →
  ∃ ops, send_stream_result t (inl tt) now {| (forwarding c dir data t nt s) with actions := [] |} =
    (if negb (max_circuit_bytes (agent_config s) =? 0) &&
        (max_circuit_bytes (agent_config s) <? total dir (circuit_bytes c) + zlen data)
     then close_circuit (source_stream c) (ByteLimit dir) else finish_eof_if_drained (source_stream c))
      {| s with circuits := <[source_stream c := carried_by dir (zlen data) c]> (circuits s);
                pending_operations := ops; actions := []; next_token := nt |}.
Proof.
  intros [_ [H1 H2] _ _ _ _ _ _] Hpos Hu. pose proof (zlen_nonneg data) as Hz.
  destruct c as [p q ss ds dl [b1 b2] e1 e2 w1 w2 f1 f2]. cbn in H1, H2. subst. eexists.
  unfold send_stream_result, take_operation. rewrite run_gets_bind. cbn [pending_operations forwarding]. rewrite lookup_insert_eq.
  unfold drop_operation. rewrite run_modify_bind. cbn [pending_operations send_accepted].
  rewrite run_ret. cbn [send_accepted]. unfold forward_accepted. rewrite run_gets. cbn [circuits forwarding].
  rewrite lookup_insert_eq, (Z.min_l (zlen data)) by lia.
  destruct dir; cbn [in_flight circuit_bytes source_to_destination destination_to_source]; unfold saturating_add;
    (rewrite Z.min_r by (cbn in Hu; lia)); rewrite (run_ok (put_circuit _ _) _ _ _ tt eq_refl), run_gets; cbn [circuits forwarding];
    rewrite insert_insert_eq; reflexivity.
Qed.

Lemma echo_run c dir data t nt now s :
  standing c s → 0 ≤ total dir (circuit_bytes c) → total dir (circuit_bytes c) + zlen data ≤ u64_max →
  (max_circuit_bytes (agent_config s) = 0 ∨ total dir (circuit_bytes c) + zlen data ≤ max_circuit_bytes (agent_config s)) →
  ∃ s', send_stream_result t (inl tt) now {| (forwarding c dir data t nt s) with actions := [] |} = (s', Ok tt) ∧
    standing (carried_by dir (zlen data) c) s' ∧ agent_config s' = agent_config s.
Proof.
  intros Hs Hpos Hu Hlim. destruct (echo_counts c dir data t nt now s Hs Hpos Hu) as (ops & ->).
  replace (negb _ && _) with false; cycle 1.
  { destruct (Z.eqb_spec (max_circuit_bytes (agent_config s)) 0); [done|].
    destruct (Z.ltb_spec (max_circuit_bytes (agent_config s)) (total dir (circuit_bytes c) + zlen data)); [lia|done]. }
  destruct Hs as [Hc [H1 H2] Ho (w & Hw & Hr) Hp Hs (F1 & F2 & F3 & F4) Ha].
  unfold finish_eof_if_drained. rewrite run_gets. cbn [circuits]. rewrite lookup_insert_eq.
  replace (finished _) with false by (unfold finished; destruct dir; cbn; by rewrite Ho).
  eexists. split; [reflexivity|]. split; [|done].
  assert (destination_stream c ≠ source_stream c) as Hne by (intros Heq; congruence).
  destruct dir; (split; cbn; [by rewrite lookup_insert_eq|done|done|by exists w|done|done| |done]);
    by rewrite lookup_insert_ne by congruence.
Qed.

Lemma data_run c dir data now s :
  standing c s → data ≠ [] →
  ∃ t nt, on_stream_data (from_leg c dir) data now s = (forwarding c dir data t nt s, Ok true).
Proof. destruct dir; [apply source_data_run|apply destination_data_run]. Qed.

(** The host's turn, up to the echo. *)
Lemma relay_step_sends c dir data now s :
  standing c s → data ≠ [] →
  ∃ t nt, relay_step (from_leg c dir) data now s =
    (_ ← send_stream_result t (inl tt) now; mret (Some ((to_leg c dir).1, (to_leg c dir).2, data)))
      {| (forwarding c dir data t nt s) with actions := [] |}.
Proof.
  intros Hs Hd. destruct (data_run c dir data now s Hs Hd) as (t & nt & Hr). exists t, nt.
  unfold relay_step. rewrite (run_ok _ _ _ _ _ Hr).
  assert (poll_action (forwarding c dir data t nt s) = ({| (forwarding c dir data t nt s) with actions := [] |},
    Ok (Some (SendStream t (to_leg c dir).1 (to_leg c dir).2 data)))) as Hpoll.
  { unfold poll_action, forwarding. cbn. by rewrite (sg_actions _ _ Hs). }
  by rewrite (run_ok _ _ _ _ _ Hpoll).
Qed.

(** The bytes a list of chunks carries one way. *)
Definition bytes_of (dir : CircuitDirection) (chunk : CircuitDirection * bytes) : Z :=
  match dir, chunk.1 with
  | SourceToDestination, SourceToDestination | DestinationToSource, DestinationToSource => zlen chunk.2
  | _, _ => 0
  end.
Fixpoint bytes_in (dir : CircuitDirection) (chunks : list (CircuitDirection * bytes)) : Z :=
  match chunks with [] => 0 | chunk :: chunks => bytes_of dir chunk + bytes_in dir chunks end.

Lemma bytes_in_nonneg dir chunks : 0 ≤ bytes_in dir chunks.
Proof.
  induction chunks as [|[d data] chunks IH]; cbn; [lia|]. pose proof (zlen_nonneg data). unfold bytes_of. cbn. destruct dir, d; lia.
Qed.
Lemma total_carried dir dir' data c :
  total dir (circuit_bytes (carried_by dir' (zlen data) c)) = total dir (circuit_bytes c) + bytes_of dir (dir', data).
Proof. destruct dir, dir'; cbn; lia. Qed.

(** A circuit has room for [n] more bytes one way. *)
Definition room (max : Z) (dir : CircuitDirection) (n : Z) c : Prop :=
  0 ≤ total dir (circuit_bytes c) ∧ total dir (circuit_bytes c) + n ≤ u64_max ∧
  (max = 0 ∨ total dir (circuit_bytes c) + n ≤ max).

(** C6: a circuit that is up delivers what it is given: chunks arriving from
    its two legs in any interleaving are each sent, whole, unchanged and in the
    order they came, on the other leg; the circuit stays up while neither
    direction has used up its limit, and the totals it keeps are the bytes it
    has carried. *)
Theorem relay_forwards c chunks now s :
  standing c s → Forall (λ chunk, chunk.2 ≠ []) chunks →
  (∀ dir, room (max_circuit_bytes (agent_config s)) dir (bytes_in dir chunks) c) →
  ∃ s' c', relay_run c chunks now s = (s', Ok ((λ chunk, Some ((to_leg c chunk.1).1, (to_leg c chunk.1).2, chunk.2)) <$> chunks)) ∧
    standing c' s' ∧ source_stream c' = source_stream c ∧
    ∀ dir, total dir (circuit_bytes c') = total dir (circuit_bytes c) + bytes_in dir chunks.
Proof.
  assert (∀ chunks c0 c s, from_leg c0 = from_leg c → to_leg c0 = to_leg c →
    standing c s → Forall (λ chunk, chunk.2 ≠ []) chunks →
    (∀ dir, room (max_circuit_bytes (agent_config s)) dir (bytes_in dir chunks) c) →
    ∃ s' c', relay_run c0 chunks now s = (s', Ok ((λ chunk, Some ((to_leg c0 chunk.1).1, (to_leg c0 chunk.1).2, chunk.2)) <$> chunks)) ∧
      standing c' s' ∧ source_stream c' = source_stream c ∧
      ∀ dir, total dir (circuit_bytes c') = total dir (circuit_bytes c) + bytes_in dir chunks) as Hgen; [|by apply Hgen].
  clear. induction chunks as [|[dir data] chunks IH]; intros c0 c s Hf Ht Hs Hne Hroom.
  { exists s, c. split_and!; [done|done|done|]. intros dir. cbn. lia. }
  inversion Hne as [|? ? Hd Hne']; subst. cbn in Hd. cbn [relay_run]. rewrite Hf.
  destruct (relay_step_sends c dir data now s Hs Hd) as (t & nt & Hstep).
  pose proof (bytes_in_nonneg dir chunks) as Hpos. pose proof (zlen_nonneg data) as Hz.
  destruct (echo_run c dir data t nt now s Hs) as (s1 & Hecho & Hs1 & Hc1).
  1-3: destruct (Hroom dir) as (R1 & R2 & R3); cbn in R2, R3; unfold bytes_of in R2, R3; cbn in R2, R3; destruct dir; lia.
  rewrite (run_ok _ _ _ _ _ Hecho) in Hstep. rewrite (run_ok _ _ _ _ _ Hstep).
  destruct (IH c0 (carried_by dir (zlen data) c) s1) as (s2 & c2 & Hrun & Hs2 & Hk & Htot).
  - rewrite Hf. by destruct dir.
  - rewrite Ht. by destruct dir.
  - done.
  - done.
  - intros d. rewrite Hc1. destruct (Hroom d) as (R1 & R2 & R3). cbn [bytes_in] in R2, R3. unfold room. rewrite total_carried.
    assert (0 ≤ bytes_of d (dir, data)) by (unfold bytes_of; cbn; destruct d, dir; lia). split; [lia|split; lia].
  - exists s2, c2. rewrite (run_ok _ _ _ _ _ Hrun). split; [|split; [done|split]].
    + cbn. by rewrite Ht.
    + rewrite Hk. by destruct dir.
    + intros d. rewrite Htot, total_carried. cbn [bytes_in]. lia.
Qed.

(** ** The limit on bytes *)

(** Steps that leave the circuits and the events alone; [more] are the actions
    they add. *)
Record acts (m : A unit) (more : list RelayServerAction) s s' : Prop := {
  ac_run : m s = (s', Ok tt);
  ac_circuits : circuits s' = circuits s;
  ac_events : events s' = events s;
  ac_actions : actions s = [] → actions s' = more;
}.

Lemma cancel_acts l s : ∃ s', acts (cancel_operations l) [] s s'.
Proof.
  assert (∀ l' s, ∃ ops, for_each (drop_operation (Multihash := Multihash)) l' s = ({| s with pending_operations := ops |}, Ok tt)) as Hfor.
  { induction l' as [|t l' IH]; intros s0; cbn [for_each]; [exists (pending_operations s0); by destruct s0|].
    destruct (IH {| s0 with pending_operations := delete t (pending_operations s0) |}) as [ops Hops]. exists ops.
    rewrite (run_ok (drop_operation t) _ _ _ tt eq_refl). exact Hops. }
  destruct (Hfor l s) as [ops Hops]. eexists. split; [unfold cancel_operations; rewrite (run_ok _ _ _ _ _ Hops); reflexivity|done|done|].
  intros Ha. cbn [actions]. by rewrite Ha.
Qed.

Lemma reset_acts p k s : ∃ t s', queue_reset p k s = (s', Ok tt) ∧ circuits s' = circuits s ∧ events s' = events s ∧
  actions s' = actions s ++ [ResetStream t p k].
Proof.
  destruct (token_run s) as (t & nt & Ht). exists t. eexists. unfold queue_reset. rewrite (run_ok _ _ _ _ _ Ht).
  split; [reflexivity|done].
Qed.

(** Closing a circuit at its byte limit, with no other action waiting. *)
Lemma close_at_limit src c dir s :
  circuits s !! src = Some c → actions s = [] →
  ∃ s' t1 t2, close_circuit src (ByteLimit dir) s = (s', Ok tt) ∧
    circuits s' = delete src (circuits s) ∧
    events s' = events s ++ [CircuitClosed (source_peer_id c) (destination_peer_id c) (circuit_bytes c) (ByteLimit dir)] ∧
    actions s' = [ResetStream t1 (source_peer_id c) (source_stream c); ResetStream t2 (destination_peer_id c) (destination_stream c)].
Proof.
  intros Hc Ha. rewrite (close_circuit_run _ _ _ _ Hc). unfold close_rest, drop_worker, drop_stop_stream.
  rewrite run_modify, run_modify. unfold cancel_forward_ops. rewrite run_gets_bind.
  match goal with |- context [(cancel_operations ?l ≫= _) ?st] =>
    destruct (cancel_acts l st) as (s1 & [R1 C1 E1 A1]) end.
  specialize (A1 Ha). cbn [circuits events] in C1, E1. rewrite (run_ok _ _ _ _ _ R1). clear R1. cbn [reset_legs].
  destruct (reset_acts (source_peer_id c) (source_stream c) s1) as (t1 & s2 & R2 & C2 & E2 & A2).
  rewrite (run_ok _ _ _ _ _ R2).
  destruct (reset_acts (destination_peer_id c) (destination_stream c) s2) as (t2 & s3 & R3 & C3 & E3 & A3).
  rewrite (run_ok _ _ _ _ _ R3). eexists _, t1, t2. split; [reflexivity|]. cbn [circuits events actions].
  rewrite C3, C2, C1, E3, E2, E1, A3, A2, A1. by split_and!.
Qed.

(** C25: the chunk that takes a direction past its limit is still forwarded
    whole; once the transport has taken it the circuit is gone, its end is
    reported with the direction at fault and the bytes carried, and both of its
    streams are reset. *)
Theorem relay_stops_at_limit c dir data now s :
  standing c s → data ≠ [] → 0 ≤ total dir (circuit_bytes c) → total dir (circuit_bytes c) + zlen data ≤ u64_max →
  max_circuit_bytes (agent_config s) ≠ 0 → max_circuit_bytes (agent_config s) < total dir (circuit_bytes c) + zlen data →
  ∃ s' t1 t2,
    relay_step (from_leg c dir) data now s = (s', Ok (Some ((to_leg c dir).1, (to_leg c dir).2, data))) ∧
    circuits s' !! source_stream c = None ∧
    events s' = events s ++ [CircuitClosed (source_peer_id c) (destination_peer_id c)
      (circuit_bytes (carried_by dir (zlen data) c)) (ByteLimit dir)] ∧
    actions s' = [ResetStream t1 (source_peer_id c) (source_stream c);
                  ResetStream t2 (destination_peer_id c) (destination_stream c)].
Proof.
  intros Hs Hd Hpos Hu Hz Hover. pose proof (zlen_nonneg data) as Hlen.
  destruct (relay_step_sends c dir data now s Hs Hd) as (t & nt & ->).
  destruct (echo_counts c dir data t nt now s Hs Hpos Hu) as (ops & Hecho).
  replace (negb _ && _) with true in Hecho; cycle 1.
  { destruct (Z.eqb_spec (max_circuit_bytes (agent_config s)) 0); [done|].
    by destruct (Z.ltb_spec (max_circuit_bytes (agent_config s)) (total dir (circuit_bytes c) + zlen data)); [|lia]. }
  match type of Hecho with _ = close_circuit _ _ ?st =>
    destruct (close_at_limit (source_stream c) (carried_by dir (zlen data) c) dir st) as (s' & t1 & t2 & Hclose & Hcs & He & Ha)
  end; [apply lookup_insert_eq|done|].
  exists s', t1, t2. unfold mbind, M_bind. rewrite Hecho, Hclose. split; [done|]. rewrite Hcs, He, Ha. cbn.
  rewrite lookup_delete_eq. by destruct dir.
Qed.
End Forward.

(** ** A circuit that is up *)

#[local] Existing Instance demo_crates.
#[local] Existing Instance demo_crates_spec.
#[local] Existing Instance demo_btree_key.

(** The state after some calls. *)
Definition demo_run (config : RelayServerConfig) (cs : list (Call (Multihash := Z * bytes)))
    : option (RelayServerAgent (Multihash := Z * bytes)) :=
  match service_run config (demo_peer x01) cs with Ok (s, Ok _) => Some s | _ => None end.
(** The calls of [demo_calls], and every action taken. *)
Definition demo_up (config : RelayServerConfig) : option (RelayServerAgent (Multihash := Z * bytes)) :=
  demo_run config (demo_calls ++ replicate 8 CallPollAction).
Definition demo_circuit (s : RelayServerAgent (Multihash := Z * bytes)) : option (RelayAgent.Circuit (Multihash := Z * bytes)) :=
  circuits s !! mkStreamKey 2 0.
(** At most ten bytes each way. *)
Definition ten_bytes : RelayServerConfig := {| RelayServerConfig_default with max_circuit_bytes := 10 |}.


(** What the two witnesses need of the demonstration. *)
Definition demo_ready (config : RelayServerConfig) : Prop :=
  match demo_up config with
  | Some s =>
      match demo_circuit s with
      | Some c => standing c s ∧ circuit_bytes c = mkByteCounts 5 0 ∧
          max_circuit_bytes (agent_config s) = max_circuit_bytes config
      | None => False
      end
  | None => False
  end.

(** The parts of the state those facts read. *)
Definition demo_view (s : RelayServerAgent (Multihash := Z * bytes)) :=
  let src := mkStreamKey 2 0 in
  let dst := mkStreamKey 1 1 in
  ((demo_circuit s, responder <$> hop_workers s !! src, pending_circuits s !! src, stop_to_source s !! dst),
   (pending_circuits s !! dst, hop_workers s !! dst, rejected_hop_streams s !! dst, circuits s !! dst),
   (actions s, max_circuit_bytes (agent_config s))).
Definition circuit_up : RelayAgent.Circuit (Multihash := Z * bytes) :=
  {| source_peer_id := demo_peer x03; destination_peer_id := demo_peer x02;
     source_stream := mkStreamKey 2 0; destination_stream := mkStreamKey 1 1;
     circuit_deadline_ms := Some 120004; circuit_bytes := mkByteCounts 5 0;
     source_eof := false; destination_eof := false; source_write_closed := false; destination_write_closed := false;
     source_to_destination_in_flight := false; destination_to_source_in_flight := false |}.

Lemma view_ready config :
  demo_view <$> demo_up config =
    Some ((Some circuit_up, Some (hr_bridging []), None, Some (mkStreamKey 2 0)), (None, None, None, None),
          ([], max_circuit_bytes config)) →
  demo_ready config.
Proof.
  unfold demo_ready. destruct (demo_up config) as [s|]; [|done]. cbn. unfold demo_view.
  intros [= Hc Hw Hp Hst Hp' Hw' Hr' Hc' Ha Hm]. rewrite Hc. split; [|done]. split; cbn; try done.
  destruct (hop_workers s !! mkStreamKey 2 0) as [w|]; [|done]. injection Hw as Hw. by exists w.
Qed.
Lemma demo_default_ready : demo_ready RelayServerConfig_default.
Proof. apply view_ready. vm_compute. reflexivity. Qed.
Lemma demo_ten_ready : demo_ready ten_bytes.
Proof. apply view_ready. vm_compute. reflexivity. Qed.

Lemma relay_forwards_witness :
  ∃ s c s', demo_up RelayServerConfig_default = Some s ∧ demo_circuit s = Some c ∧
    relay_run c [(SourceToDestination, str "one"); (DestinationToSource, str "two")] (at_ms 6) s =
      (s', Ok [Some (destination_peer_id c, destination_stream c, str "one"); Some (source_peer_id c, source_stream c, str "two")]).
Proof.
  pose proof demo_default_ready as Hr. unfold demo_ready in Hr. destruct (demo_up RelayServerConfig_default) as [s|]; [|done].
  destruct (demo_circuit s) as [c|] eqn:Hc; [|done]. destruct Hr as (Hs & Hb & Hm).
  destruct (relay_forwards c [(SourceToDestination, str "one"); (DestinationToSource, str "two")] (at_ms 6) s)
    as (s' & c' & Hrun & _).
  - exact Hs.
  - by repeat constructor.
  - intros dir. unfold room. rewrite Hb, Hm. destruct dir; (split; [|split; [|right]]); by vm_compute.
  - exists s, c, s'. split; [reflexivity|]. split; [exact Hc|exact Hrun].
Defined.

Lemma relay_stops_at_limit_witness :
  ∃ s c s', demo_up ten_bytes = Some s ∧ demo_circuit s = Some c ∧
    relay_step (source_stream c) (str "sesame") (at_ms 6) s =
      (s', Ok (Some (destination_peer_id c, destination_stream c, str "sesame"))) ∧
    circuits s' !! source_stream c = None.
Proof.
  pose proof demo_ten_ready as Hr. unfold demo_ready in Hr. destruct (demo_up ten_bytes) as [s|]; [|done].
  destruct (demo_circuit s) as [c|] eqn:Hc; [|done]. destruct Hr as (Hs & Hb & Hm).
  destruct (relay_stops_at_limit c SourceToDestination (str "sesame") (at_ms 6) s)
    as (s' & t1 & t2 & Hrun & Hgone & _).
  - exact Hs.
  - done.
  - rewrite Hb. by vm_compute.
  - rewrite Hb. by vm_compute.
  - rewrite Hm. done.
  - rewrite Hm, Hb. reflexivity.
  - exists s, c, s'. split; [reflexivity|]. split; [exact Hc|]. split; [exact Hrun|exact Hgone].
Defined.
