(* ===== verification/PubsubMessage.v ===== *)
(** The messages of pubsub, from [crates/pubsub/src/message.rs]: the RPC and its
    parts with their protobuf codec, framing, and the signing and verification
    of published messages. *)

From Stdlib Require Import Strings.Byte.
From S2P Require Import Prelude Varint Text Frame Proto Base58 PeerIdentity Multiaddr Keys.

Definition FLOODSUB_PROTOCOL_ID : bytes := str "/floodsub/1.0.0".
Definition MESHSUB_PROTOCOL_ID_V10 : bytes := str "/meshsub/1.0.0".
Definition MESHSUB_PROTOCOL_ID_V11 : bytes := str "/meshsub/1.1.0".
Definition MAX_RPC_SIZE : Z := 65536.
Definition MAX_TOPIC_LEN : Z := 1024.
Definition MAX_SEQNO_LEN : Z := 64.
Definition SIGN_PREFIX : bytes := str "libp2p-pubsub:".
Definition SIGNATURE_LEN : Z := 64.

(** ** The messages *)

Record SubOpts := mkSubOpts { subscribe_opt : option bool; sub_topic : option bytes }.

Record RawMessage := mkRawMessage {
  raw : bytes;
  msg_from : option bytes;
  msg_data : option bytes;
  msg_seqno : option bytes;
  topic_ids : list bytes;
  signature : option bytes;
  msg_key : option bytes;
}.

Record ControlIHave := mkIHave { ihave_topic : option bytes; ihave_ids : list bytes }.
Record ControlIWant := mkIWant { iwant_ids : list bytes }.
Record ControlGraft := mkGraft { graft_topic : option bytes }.
Record PeerInfo := mkPeerInfo { px_peer_id : option bytes; signed_peer_record : option bytes }.
Record ControlPrune := mkPrune { prune_topic : option bytes; px_peers : list PeerInfo; prune_backoff : option Z }.
Record ControlMessage := mkControl {
  ihave : list ControlIHave;
  iwant : list ControlIWant;
  graft : list ControlGraft;
  prune : list ControlPrune;
}.
Record Rpc := mkRpc { subscriptions : list SubOpts; rpc_publish : list RawMessage; control : option ControlMessage }.

(** The [Default]s. *)
Definition RawMessage_default : RawMessage := mkRawMessage [] None None None [] None None.
Definition ControlMessage_default : ControlMessage := mkControl [] [] [] [].

Inductive PubsubWireError :=
  | WVarint (e : VarintError)
  | WFieldOverflow (offset length remaining : Z)
  | WUnsupportedWireType (wire_type offset : Z)
  | WInvalidUtf8 (offset : Z)
  | WInvalidFieldNumber (offset : Z).

(** ** Reading fields *)

Abbreviation R := (M Z PubsubWireError).

Definition varint_tail (input : bytes) (idx : Z) : res PubsubWireError bytes :=
  ok_or (get_from input idx) (WVarint BufferTooShort).
Definition from_varint {A} (r : res VarintError A) : res PubsubWireError A :=
  match r with Ok a => Ok a | Err e => Err (WVarint e) | Panic => Panic | Diverge => Diverge end.
(** [*idx += used]. *)
Definition bump (used : Z) : R unit := idx ← reads (λ idx, add_or_panic usize_max idx used); modify (λ _, idx).

Definition pub_read_varint_value (input : bytes) : R Z :=
  tail ← reads (varint_tail input);
  '(value, used) ← lift (from_varint (read_uvarint tail));
  _ ← bump used;
  mret value.

Definition pub_read_tag (input : bytes) : R (option (Z * Z)) := λ idx,
  if zlen input <=? idx then (idx, Ok None)
  else
    (offset ← gets id;
     tail ← reads (varint_tail input);
     '(tag_value, used) ← lift (from_varint (read_uvarint tail));
     _ ← bump used;
     let wire_type := Z.land tag_value 7 in
     let field_number := Z.shiftr tag_value 3 in
     if field_number =? 0 then throw (WInvalidFieldNumber offset) else mret (Some (field_number, wire_type))) idx.

Definition pub_read_len_delimited (input : bytes) : R bytes :=
  tail ← reads (varint_tail input);
  '(length, used) ← lift (from_varint (read_uvarint tail));
  _ ← bump used;
  length ← lift (if length <=? usize_max then Ok length else Err (WVarint Overflow));
  idx ← gets id;
  let remaining := saturating_sub (zlen input) idx in
  if remaining <? length then throw (WFieldOverflow idx length remaining)
  else
    stop ← lift (ok_or (checked_add usize_max idx length) (WFieldOverflow idx length remaining));
    value ← lift (ok_or (slice input idx stop) (WFieldOverflow idx length remaining));
    _ ← modify (λ _, stop);
    mret value.

Definition pub_read_string (input : bytes) : R bytes :=
  offset ← gets id;
  b ← pub_read_len_delimited input;
  if utf8_valid b then mret b else throw (WInvalidUtf8 offset).

(** [if *idx + n > input.len() { return Err(..) } *idx += n]. *)
Definition skip_fixed (input : bytes) (n : Z) : R unit :=
  stop ← reads (λ idx, add_or_panic usize_max idx n);
  idx ← gets id;
  if zlen input <? stop then throw (WFieldOverflow idx n (saturating_sub (zlen input) idx))
  else bump n.
Definition pub_skip_unknown_field (input : bytes) (wire_type : Z) : R unit :=
  if wire_type =? WIRE_VARINT then
    tail ← reads (varint_tail input);
    '(_, used) ← lift (from_varint (read_uvarint tail));
    bump used
  else if wire_type =? WIRE_LEN then _ ← pub_read_len_delimited input; mret tt
  else if wire_type =? WIRE_I32 then skip_fixed input 4
  else if wire_type =? WIRE_I64 then skip_fixed input 8
  else idx ← gets id; throw (WUnsupportedWireType wire_type idx).

(** [while let Some((field, wire_type)) = read_tag(input, &mut idx)?]. *)
Fixpoint pub_fields_loop {Msg} (fuel : nat) (input : bytes) (step : Z → Z → Msg → R Msg) (msg : Msg) : R Msg :=
  tag ← pub_read_tag input;
  match tag with
  | None => mret msg
  | Some (field, wire_type) =>
      match fuel with
      | O => lift Diverge
      | S fuel => msg ← step field wire_type msg; pub_fields_loop fuel input step msg
      end
  end.
Definition pub_decode_fields {Msg} (input : bytes) (step : Z → Z → Msg → R Msg) (msg : Msg) : res PubsubWireError Msg :=
  (pub_fields_loop (length input) input step msg 0).2.

(** ** The codec *)

Abbreviation bytes_field n := (encode_bytes_field (tag_byte n WIRE_LEN)).
Abbreviation varint_field n := (encode_varint_field (tag_byte n WIRE_VARINT)).
(** [encode_nested_field] is [encode_bytes_field]. *)

Definition SubOpts_encode (o : SubOpts) : bytes :=
  opt_bytes (λ b : bool, varint_field 1 (if b then 1 else 0)) (subscribe_opt o) ++ opt_bytes (bytes_field 2) (sub_topic o).
Definition SubOpts_step (input : bytes) (field wire_type : Z) (o : SubOpts) : R SubOpts :=
  if (field =? 1) && (wire_type =? WIRE_VARINT) then
    v ← pub_read_varint_value input; mret {| o with subscribe_opt := Some (negb (v =? 0)) |}
  else if (field =? 2) && (wire_type =? WIRE_LEN) then
    t ← pub_read_string input; mret {| o with sub_topic := Some t |}
  else _ ← pub_skip_unknown_field input wire_type; mret o.
Definition SubOpts_decode (input : bytes) : res PubsubWireError SubOpts :=
  pub_decode_fields input (SubOpts_step input) (mkSubOpts None None).

Definition encode_fields (m : RawMessage) (include_signature : bool) : bytes :=
  opt_bytes (bytes_field 1) (msg_from m) ++ opt_bytes (bytes_field 2) (msg_data m) ++ opt_bytes (bytes_field 3) (msg_seqno m) ++
  concat (bytes_field 4 <$> topic_ids m) ++
  (if include_signature then opt_bytes (bytes_field 5) (signature m) ++ opt_bytes (bytes_field 6) (msg_key m) else []).
Definition RawMessage_step (input : bytes) (field wire_type : Z) (m : RawMessage) : R RawMessage :=
  if (field =? 1) && (wire_type =? WIRE_LEN) then b ← pub_read_len_delimited input; mret {| m with msg_from := Some b |}
  else if (field =? 2) && (wire_type =? WIRE_LEN) then b ← pub_read_len_delimited input; mret {| m with msg_data := Some b |}
  else if (field =? 3) && (wire_type =? WIRE_LEN) then b ← pub_read_len_delimited input; mret {| m with msg_seqno := Some b |}
  else if (field =? 4) && (wire_type =? WIRE_LEN) then t ← pub_read_string input; mret {| m with topic_ids := topic_ids m ++ [t] |}
  else if (field =? 5) && (wire_type =? WIRE_LEN) then b ← pub_read_len_delimited input; mret {| m with signature := Some b |}
  else if (field =? 6) && (wire_type =? WIRE_LEN) then b ← pub_read_len_delimited input; mret {| m with msg_key := Some b |}
  else _ ← pub_skip_unknown_field input wire_type; mret m.
Definition RawMessage_decode (input : bytes) : res PubsubWireError RawMessage :=
  pub_decode_fields input (RawMessage_step input) {| RawMessage_default with raw := input |}.
Definition to_wire (m : RawMessage) : bytes := match raw m with [] => encode_fields m true | r => r end.
Definition sign_bytes (m : RawMessage) : bytes := SIGN_PREFIX ++ encode_fields m false.
#[global] Arguments sign_bytes : simpl never.

Definition IHave_encode (m : ControlIHave) : bytes := opt_bytes (bytes_field 1) (ihave_topic m) ++ concat (bytes_field 2 <$> ihave_ids m).
Definition IHave_step (input : bytes) (field wire_type : Z) (m : ControlIHave) : R ControlIHave :=
  if (field =? 1) && (wire_type =? WIRE_LEN) then t ← pub_read_string input; mret {| m with ihave_topic := Some t |}
  else if (field =? 2) && (wire_type =? WIRE_LEN) then b ← pub_read_len_delimited input; mret {| m with ihave_ids := ihave_ids m ++ [b] |}
  else _ ← pub_skip_unknown_field input wire_type; mret m.
Definition IHave_decode (input : bytes) : res PubsubWireError ControlIHave := pub_decode_fields input (IHave_step input) (mkIHave None []).

Definition IWant_encode (m : ControlIWant) : bytes := concat (bytes_field 1 <$> iwant_ids m).
Definition IWant_step (input : bytes) (field wire_type : Z) (m : ControlIWant) : R ControlIWant :=
  if (field =? 1) && (wire_type =? WIRE_LEN) then b ← pub_read_len_delimited input; mret (mkIWant (iwant_ids m ++ [b]))
  else _ ← pub_skip_unknown_field input wire_type; mret m.
Definition IWant_decode (input : bytes) : res PubsubWireError ControlIWant := pub_decode_fields input (IWant_step input) (mkIWant []).

Definition Graft_encode (m : ControlGraft) : bytes := opt_bytes (bytes_field 1) (graft_topic m).
Definition Graft_step (input : bytes) (field wire_type : Z) (m : ControlGraft) : R ControlGraft :=
  if (field =? 1) && (wire_type =? WIRE_LEN) then t ← pub_read_string input; mret (mkGraft (Some t))
  else _ ← pub_skip_unknown_field input wire_type; mret m.
Definition Graft_decode (input : bytes) : res PubsubWireError ControlGraft := pub_decode_fields input (Graft_step input) (mkGraft None).

Definition PeerInfo_encode (p : PeerInfo) : bytes := opt_bytes (bytes_field 1) (px_peer_id p) ++ opt_bytes (bytes_field 2) (signed_peer_record p).
Definition PeerInfo_step (input : bytes) (field wire_type : Z) (p : PeerInfo) : R PeerInfo :=
  if (field =? 1) && (wire_type =? WIRE_LEN) then b ← pub_read_len_delimited input; mret {| p with px_peer_id := Some b |}
  else if (field =? 2) && (wire_type =? WIRE_LEN) then b ← pub_read_len_delimited input; mret {| p with signed_peer_record := Some b |}
  else _ ← pub_skip_unknown_field input wire_type; mret p.
Definition PeerInfo_decode (input : bytes) : res PubsubWireError PeerInfo := pub_decode_fields input (PeerInfo_step input) (mkPeerInfo None None).

Definition Prune_encode (m : ControlPrune) : bytes :=
  opt_bytes (bytes_field 1) (prune_topic m) ++ concat ((λ p, bytes_field 2 (PeerInfo_encode p)) <$> px_peers m) ++
  opt_bytes (varint_field 3) (prune_backoff m).
Definition Prune_step (input : bytes) (field wire_type : Z) (m : ControlPrune) : R ControlPrune :=
  if (field =? 1) && (wire_type =? WIRE_LEN) then t ← pub_read_string input; mret {| m with prune_topic := Some t |}
  else if (field =? 2) && (wire_type =? WIRE_LEN) then
    b ← pub_read_len_delimited input; p ← lift (PeerInfo_decode b); mret {| m with px_peers := px_peers m ++ [p] |}
  else if (field =? 3) && (wire_type =? WIRE_VARINT) then v ← pub_read_varint_value input; mret {| m with prune_backoff := Some v |}
  else _ ← pub_skip_unknown_field input wire_type; mret m.
Definition Prune_decode (input : bytes) : res PubsubWireError ControlPrune := pub_decode_fields input (Prune_step input) (mkPrune None [] None).

Definition Control_encode (c : ControlMessage) : bytes :=
  concat ((λ m, bytes_field 1 (IHave_encode m)) <$> ihave c) ++ concat ((λ m, bytes_field 2 (IWant_encode m)) <$> iwant c) ++
  concat ((λ m, bytes_field 3 (Graft_encode m)) <$> graft c) ++ concat ((λ m, bytes_field 4 (Prune_encode m)) <$> prune c).
Definition Control_step (input : bytes) (field wire_type : Z) (c : ControlMessage) : R ControlMessage :=
  if (field =? 1) && (wire_type =? WIRE_LEN) then
    b ← pub_read_len_delimited input; m ← lift (IHave_decode b); mret {| c with ihave := ihave c ++ [m] |}
  else if (field =? 2) && (wire_type =? WIRE_LEN) then
    b ← pub_read_len_delimited input; m ← lift (IWant_decode b); mret {| c with iwant := iwant c ++ [m] |}
  else if (field =? 3) && (wire_type =? WIRE_LEN) then
    b ← pub_read_len_delimited input; m ← lift (Graft_decode b); mret {| c with graft := graft c ++ [m] |}
  else if (field =? 4) && (wire_type =? WIRE_LEN) then
    b ← pub_read_len_delimited input; m ← lift (Prune_decode b); mret {| c with prune := prune c ++ [m] |}
  else _ ← pub_skip_unknown_field input wire_type; mret c.
Definition merge_from (c : ControlMessage) (input : bytes) : res PubsubWireError ControlMessage :=
  pub_decode_fields input (Control_step input) c.
Definition Control_decode (input : bytes) : res PubsubWireError ControlMessage := merge_from ControlMessage_default input.

Definition Rpc_encode (r : Rpc) : bytes :=
  concat ((λ o, bytes_field 1 (SubOpts_encode o)) <$> subscriptions r) ++
  concat ((λ m, bytes_field 2 (to_wire m)) <$> rpc_publish r) ++
  opt_bytes (λ c, bytes_field 3 (Control_encode c)) (control r).
Definition Rpc_step (decode_control : bool) (input : bytes) (field wire_type : Z) (r : Rpc) : R Rpc :=
  if (field =? 1) && (wire_type =? WIRE_LEN) then
    nested ← pub_read_len_delimited input; o ← lift (SubOpts_decode nested); mret {| r with subscriptions := subscriptions r ++ [o] |}
  else if (field =? 2) && (wire_type =? WIRE_LEN) then
    nested ← pub_read_len_delimited input; m ← lift (RawMessage_decode nested); mret {| r with rpc_publish := rpc_publish r ++ [m] |}
  else if (field =? 3) && (wire_type =? WIRE_LEN) then
    nested ← pub_read_len_delimited input;
    if decode_control then
      c ← lift (merge_from (default ControlMessage_default (control r)) nested); mret {| r with control := Some c |}
    else mret r
  else _ ← pub_skip_unknown_field input wire_type; mret r.
Definition decode_inner (input : bytes) (decode_control : bool) : res PubsubWireError Rpc :=
  pub_decode_fields input (Rpc_step decode_control input) (mkRpc [] [] None).
Definition Rpc_decode (input : bytes) : res PubsubWireError Rpc := decode_inner input true.
Definition decode_floodsub (input : bytes) : res PubsubWireError Rpc := decode_inner input false.

Definition pub_decode_frame (input : bytes) : FrameDecode := decode_frame input MAX_RPC_SIZE.
(** The [debug_assert!] of the source is a panic. *)
Definition pub_encode_frame {E} (payload : bytes) : res E bytes :=
  if zlen payload <=? MAX_RPC_SIZE then Ok (encode_frame payload) else Panic.

(** ** Signatures *)

Inductive MessageVerifyError :=
  | MissingFrom | InvalidFrom | InvalidSeqno | MissingSignature | KeyWithoutSignature | InvalidSignatureLength
  | InvalidKey | KeyPeerIdMismatch | SignatureInvalid.

Section Signing.
Context `{SigningCrate} `{HC : HashCrates Multihash} `{!EqDecision Multihash}.
Abbreviation PeerId := (PeerIdentity.PeerId (Multihash := Multihash)).

(** [.map_err(|_| error)]. *)
Definition or_error {E E' A} (r : res E A) (error : E') : res E' A :=
  match r with Ok a => Ok a | Err _ => Err error | Panic => Panic | Diverge => Diverge end.
(** A function that has no error of its own. *)
Definition no_error {E E' A} (r : res E A) : res E' A :=
  match r with Ok a => Ok a | Err _ => Panic | Panic => Panic | Diverge => Diverge end.

Definition build_signed {E} (keypair : Ed25519Keypair) (topic data : bytes) (seqno : Z) : res E RawMessage :=
  peer ← no_error (keypair_peer_id (Multihash := Multihash) keypair);
  let message := mkRawMessage [] (Some (to_bytes peer)) (Some data) (Some (be_bytes 8 seqno)) [topic] None None in
  let message := {| message with signature := Some (sign keypair (sign_bytes message)) |} in
  Ok {| message with raw := encode_fields message true |}.

Definition source_and_seqno (m : RawMessage) : res MessageVerifyError (PeerId * bytes) :=
  from_bytes' ← ok_or (msg_from m) MissingFrom;
  from ← or_error (from_bytes from_bytes') InvalidFrom;
  seqno ← ok_or (match msg_seqno m with
                 | Some s => if negb (bool_decide (s = [])) && (zlen s <=? MAX_SEQNO_LEN) then Some s else None
                 | None => None
                 end) InvalidSeqno;
  Ok (from, seqno).

Definition signing_key (m : RawMessage) (from : PeerId) : res MessageVerifyError PublicKey :=
  match msg_key m with
  | Some key => or_error (decode_protobuf key) InvalidKey
  | None => or_error (decode_protobuf (digest_bytes from)) KeyPeerIdMismatch
  end.
Definition verify_message (m : RawMessage) (allow_unsigned : bool) : res MessageVerifyError (PeerId * bytes * bool) :=
  '(from, seqno) ← source_and_seqno m;
  match signature m with
  | None =>
      if bool_decide (is_Some (msg_key m)) then Err KeyWithoutSignature
      else if allow_unsigned then Ok (from, seqno, false)
      else Err MissingSignature
  | Some sig =>
      _ ← (if zlen sig =? SIGNATURE_LEN then Ok tt else Err InvalidSignatureLength);
      public_key ← signing_key m from;
      owner ← no_error (from_public_key public_key);
      if negb (bool_decide (owner = from)) then Err KeyPeerIdMismatch
      else
        _ ← or_error (verify public_key (sign_bytes m) sig) SignatureInvalid;
        Ok (from, seqno, true)
  end.
End Signing.

(** ** What the reader accepts *)

#[global] Instance pubsub_proto_errors : ProtoErrors PubsubWireError := {|
  err_varint := WVarint;
  err_past_end := λ _, WVarint BufferTooShort;
  err_overflow := WFieldOverflow;
  err_wide := λ _ _ _, WVarint Overflow;
  err_wire_type := WUnsupportedWireType;
|}.

(** A slice leaves room for the additions of the reader; in Rust it has at most
    [isize::MAX] bytes. *)
Definition fits (input : bytes) : Prop := zlen input + 8 ≤ usize_max.

(** Two runs that end in the same way, whatever the error says. *)
Definition alike {A} (x y : Z * res PubsubWireError A) : Prop :=
  match x, y with
  | (i, Ok a), (j, Ok b) => i = j ∧ a = b
  | (_, Err _), (_, Err _) | (_, Panic), (_, Panic) | (_, Diverge), (_, Diverge) => True
  | _, _ => False
  end.
Lemma alike_refl {A} (x : Z * res PubsubWireError A) : alike x x.
Proof. by destruct x as [i []]. Qed.
Lemma alike_bind {A B} (m1 m2 : R A) (f1 f2 : A → R B) idx :
  alike (m1 idx) (m2 idx) → (∀ a idx', m2 idx = (idx', Ok a) → alike (f1 a idx') (f2 a idx')) →
  alike ((m1 ≫= f1) idx) ((m2 ≫= f2) idx).
Proof.
  unfold mbind, M_bind. destruct (m1 idx) as [i [a|e| |]], (m2 idx) as [j [b|e'| |]]; cbn; try done.
  intros [-> ->] Hf. by apply Hf.
Qed.
Lemma alike_ok {A} (x y : Z * res PubsubWireError A) a : alike x y → x.2 = Ok a ↔ y.2 = Ok a.
Proof. destruct x as [i []], y as [j []]; cbn; try done. by intros [_ ->]. Qed.
Lemma alike_returns {A} (x y : Z * res PubsubWireError A) : alike x y → returns y.2 → returns x.2.
Proof. by destruct x as [i []], y as [j []]. Qed.

Section Reading.
Context (input : bytes) (Hfits : fits input).
#[local] Lemma fits_usize : zlen input ≤ usize_max.
Proof. unfold fits in Hfits. lia. Qed.
#[local] Hint Resolve fits_usize : core.

Lemma bump_advance idx n : 0 ≤ idx → 0 ≤ n → idx + n ≤ zlen input → bump n idx = advance input n idx.
Proof.
  intros Hi Hn Hle. pose proof fits_usize. rewrite (proj2 (advance_ok input fits_usize idx n (idx + n) tt ltac:(lia) Hn)) by lia.
  unfold bump, add_or_panic, mbind, M_bind, reads, modify. by rewrite checked_add_Some by lia.
Qed.
Lemma pub_varint_same {A} (k : Z → R A) idx :
  0 ≤ idx ≤ zlen input →
  (tail ← reads (varint_tail input); '(value, used) ← lift (from_varint (read_uvarint tail)); _ ← bump used; k value) idx =
  (value ← read_varint_value input; k value) idx.
Proof.
  intros Hi. unfold read_varint_value, varint_tail, get_from, mbind, M_bind, reads, lift.
  destruct (Z.leb_spec idx (zlen input)); [|lia]. cbn. pose proof (zlen_drop idx input) as Hd.
  destruct (read_uvarint _) as [[w used]|e| |] eqn:Hr; cbn; try done.
  apply read_uvarint_ok_iff in Hr as (Hw & -> & rest & Ht). rewrite Ht, zlen_app, zlen_write_uvarint in Hd by lia.
  pose proof (zlen_nonneg rest). pose proof (uvarint_len_pos w ltac:(lia)).
  rewrite bump_advance by lia. by destruct (advance _ _ _) as [? []].
Qed.
Lemma pub_read_varint_same idx : 0 ≤ idx ≤ zlen input → pub_read_varint_value input idx = read_varint_value input idx.
Proof.
  intros Hi. unfold pub_read_varint_value. rewrite pub_varint_same by done.
  unfold mbind, M_bind. by destruct (read_varint_value input idx) as [? []].
Qed.
Lemma pub_read_len_same idx : 0 ≤ idx ≤ zlen input → pub_read_len_delimited input idx = read_len_delimited input idx.
Proof.
  intros Hi. unfold pub_read_len_delimited. rewrite pub_varint_same by done. unfold read_len_delimited, try_usize.
  unfold mbind, M_bind, lift, gets, reads, throw. destruct (read_varint_value input idx) as [i [v|e| |]]; try done. cbn.
  destruct (v <=? usize_max); [|done]. destruct (saturating_sub (zlen input) i <? v); [done|].
  destruct (checked_add usize_max i v) as [stop|]; [|done]. cbn. by destruct (slice input i stop).
Qed.
Lemma pub_skip_same idx w : 0 ≤ idx ≤ zlen input → alike (pub_skip_unknown_field input w idx) (skip_unknown_field input w idx).
Proof.
  intros Hi. unfold pub_skip_unknown_field, skip_unknown_field. unfold fits in Hfits.
  destruct (w =? WIRE_VARINT) eqn:Hw1.
  { replace (_ idx) with ((_ ← read_varint_value input; mret (M := R) tt) idx); [apply alike_refl|].
    rewrite <- (pub_varint_same (λ _, mret tt)) by done. unfold mbind, M_bind. destruct (reads _ idx) as [i [tl|e| |]]; try done.
    destruct (lift _ i) as [i' [[v u]|e| |]]; try done. unfold bump, mbind, M_bind, modify, reads. by destruct (add_or_panic _ _ _). }
  destruct (w =? WIRE_LEN) eqn:Hw2.
  { change (alike ((_ ← pub_read_len_delimited input; mret tt) idx)
      ((length ← read_varint_value input; length ← try_usize input length;
        remaining ← gets (λ idx, saturating_sub (zlen input) idx);
        if remaining <? length then idx ← gets id; throw (err_overflow idx length remaining) else advance input length) idx)).
    apply Z.eqb_eq in Hw2. subst w. pose proof (skip_read input fits_usize idx WIRE_LEN Hi) as Hs.
    unfold skip_unknown_field in Hs. cbn [Z.eqb WIRE_LEN WIRE_VARINT Pos.eqb] in Hs. rewrite Hs. unfold read_any. cbn [Z.eqb WIRE_LEN WIRE_VARINT Pos.eqb].
    unfold mbind at 1 2, M_bind at 1 2. rewrite pub_read_len_same by done. unfold mbind, M_bind.
    by destruct (read_len_delimited input idx) as [j [b|e'| |]]. }
  assert (∀ n, 0 < n ≤ 8 → alike (skip_fixed input n idx) (advance input n idx)) as Hfix.
  { intros n Hn. unfold skip_fixed, mbind at 1, M_bind at 1, reads at 1, add_or_panic. rewrite checked_add_Some by lia. cbn.
    unfold mbind at 1, M_bind at 1, gets. destruct (Z.ltb_spec (zlen input) (idx + n)).
    - unfold advance. rewrite checked_add_Some by lia. by destruct (Z.leb_spec (idx + n) (zlen input)); [lia|].
    - rewrite bump_advance by lia. apply alike_refl. }
  destruct (w =? WIRE_I32); [apply Hfix; lia|]. destruct (w =? WIRE_I64); [apply Hfix; lia|]. done.
Qed.

(** A loop body that reads the value its wire type announces and then looks at
    the field number. *)
Definition reads_like {Msg} (step : Z → Z → Msg → R Msg) (interp : Z → Value → Msg → res PubsubWireError Msg) : Prop :=
  ∀ f w msg idx, 0 ≤ idx ≤ zlen input → alike (step f w msg idx) ((v ← read_any input w; lift (interp f v msg)) idx).

Lemma like_varint {A} (k1 k2 : Z → R A) idx :
  0 ≤ idx ≤ zlen input → (∀ v i, alike (k1 v i) (k2 v i)) →
  alike ((v ← pub_read_varint_value input; k1 v) idx) ((v ← read_varint_value input; k2 v) idx).
Proof. intros Hi Hk. apply alike_bind; [rewrite pub_read_varint_same by done; apply alike_refl|by intros; apply Hk]. Qed.
Lemma like_len {A} (k1 k2 : bytes → R A) idx :
  0 ≤ idx ≤ zlen input → (∀ b i, alike (k1 b i) (k2 b i)) →
  alike ((b ← pub_read_len_delimited input; k1 b) idx) ((b ← read_len_delimited input; k2 b) idx).
Proof. intros Hi Hk. apply alike_bind; [rewrite pub_read_len_same by done; apply alike_refl|by intros; apply Hk]. Qed.
Lemma like_string {A} (k1 k2 : bytes → R A) idx :
  0 ≤ idx ≤ zlen input → (∀ b i, alike (if utf8_valid b then k1 b i else (i, Err (WInvalidUtf8 0))) (k2 b i)) →
  alike ((t ← pub_read_string input; k1 t) idx) ((b ← read_len_delimited input; k2 b) idx).
Proof.
  intros Hi Hk. unfold pub_read_string, mbind, M_bind, gets. cbn. rewrite pub_read_len_same by done.
  destruct (read_len_delimited input idx) as [i [b|e| |]]; try done. specialize (Hk b i). by destruct (utf8_valid b), (k2 b i) as [j []].
Qed.
Lemma like_skip {A} (m : A) w (k : Value → R A) idx :
  0 ≤ idx ≤ zlen input → (∀ v i, alike (i, Ok m) (k v i)) →
  alike ((_ ← pub_skip_unknown_field input w; mret m) idx) ((v ← read_any input w; k v) idx).
Proof.
  intros Hi Hk. pose proof (pub_skip_same idx w Hi) as Hs. rewrite (skip_read input fits_usize idx w Hi) in Hs.
  unfold mbind, M_bind in *. destruct (read_any input w idx) as [i [v|e| |]], (pub_skip_unknown_field input w idx) as [j [[]|e'| |]]; try done.
  destruct Hs as [-> _]. apply Hk.
Qed.

Lemma like_skip_varint {A} (m : A) idx :
  0 ≤ idx ≤ zlen input →
  alike ((_ ← pub_skip_unknown_field input WIRE_VARINT; mret m) idx) ((_ ← read_varint_value input; lift (Ok m)) idx).
Proof.
  intros Hi. pose proof (like_skip m WIRE_VARINT (λ _, lift (Ok m)) idx Hi ltac:(by intros)) as Hs.
  unfold read_any in Hs. cbn [Z.eqb WIRE_VARINT] in Hs. unfold mbind, M_bind in *. by destruct (read_varint_value input idx) as [? []].
Qed.
Lemma like_skip_len {A} (m : A) idx :
  0 ≤ idx ≤ zlen input →
  alike ((_ ← pub_skip_unknown_field input WIRE_LEN; mret m) idx) ((_ ← read_len_delimited input; lift (Ok m)) idx).
Proof.
  intros Hi. pose proof (like_skip m WIRE_LEN (λ _, lift (Ok m)) idx Hi ltac:(by intros)) as Hs.
  unfold read_any in Hs. cbn [Z.eqb WIRE_LEN WIRE_VARINT Pos.eqb] in Hs. unfold mbind, M_bind in *. by destruct (read_len_delimited input idx) as [? []].
Qed.

(** Every decoder is shown to read fields in the same way: one obligation per
    wire type. *)
Lemma reads_like_intro {Msg} (step : Z → Z → Msg → R Msg) interp :
  (∀ f msg idx, 0 ≤ idx ≤ zlen input →
    alike (step f WIRE_VARINT msg idx) ((v ← read_varint_value input; lift (interp f (VVarint v) msg)) idx)) →
  (∀ f msg idx, 0 ≤ idx ≤ zlen input →
    alike (step f WIRE_LEN msg idx) ((b ← read_len_delimited input; lift (interp f (VLen b) msg)) idx)) →
  (∀ f w msg idx, w ≠ WIRE_VARINT → w ≠ WIRE_LEN → step f w msg idx = (_ ← pub_skip_unknown_field input w; mret msg) idx) →
  (∀ f b msg, interp f (VI32 b) msg = Ok msg) → (∀ f b msg, interp f (VI64 b) msg = Ok msg) →
  reads_like step interp.
Proof.
  intros Hv Hl Ho H32 H64 f w msg idx Hi.
  destruct (decide (w = WIRE_VARINT)) as [->|Hnv].
  { unfold read_any. cbn [Z.eqb WIRE_VARINT]. specialize (Hv f msg idx Hi). unfold mbind, M_bind in *.
    by destruct (read_varint_value input idx) as [? []]. }
  destruct (decide (w = WIRE_LEN)) as [->|Hnl].
  { unfold read_any. cbn [Z.eqb WIRE_LEN WIRE_VARINT Pos.eqb]. specialize (Hl f msg idx Hi). unfold mbind, M_bind in *.
    by destruct (read_len_delimited input idx) as [? []]. }
  rewrite Ho by done. pose proof (pub_skip_same idx w Hi) as Hs. rewrite (skip_read input fits_usize idx w Hi) in Hs.
  unfold mbind, M_bind in *. destruct (read_any input w idx) as [i [v|e| |]] eqn:Hr; cbn in Hs; destruct (pub_skip_unknown_field input w idx) as [j [[]|e'| |]]; try done.
  apply read_any_ok in Hr as (_ & <- & _); [|apply fits_usize|done]. destruct Hs as [-> _].
  destruct v; cbn in *; try done; unfold lift; by rewrite ?H32, ?H64.
Qed.

(** ** Decoders accept sequences of well-formed fields *)

Section Decoder.
Context {Msg : Type} (step : Z → Z → Msg → R Msg) (interp : Z → Value → Msg → res PubsubWireError Msg).
Context (Hstep : reads_like step interp).
Abbreviation tail idx := (drop (Z.to_nat idx) input).

(** Field number zero is refused. *)
Definition known_number (f : Z) (v : Value) (msg : Msg) : res PubsubWireError Msg :=
  if f =? 0 then Err (WInvalidFieldNumber 0) else interp f v msg.
Definition number_step (f w : Z) (msg : Msg) : R Msg := v ← read_any input w; lift (known_number f v msg).

Lemma pub_read_tag_same idx :
  0 ≤ idx ≤ zlen input →
  pub_read_tag input idx =
    match read_tag input idx with
    | (i, Ok (Some (f, w))) => if f =? 0 then (i, Err (WInvalidFieldNumber idx)) else (i, Ok (Some (f, w)))
    | out => out
    end.
Proof.
  intros Hi. unfold pub_read_tag, read_tag. destruct (Z.leb_spec (zlen input) idx); [done|].
  rewrite run_gets. rewrite pub_varint_same by done. unfold mbind, M_bind.
  destruct (read_varint_value input idx) as [i [v|e| |]]; try done. cbn. by destruct (Z.shiftr v 3 =? 0).
Qed.

Lemma pub_loop_alike fuel msg idx :
  0 ≤ idx ≤ zlen input → (length (tail idx) ≤ fuel)%nat →
  alike (pub_fields_loop fuel input step msg idx) (fields_loop fuel input number_step msg idx).
Proof.
  assert (∀ A B (m : R A) (k : A → R B) i, (m ≫= k) i =
    match m i with (j, Ok a) => k a j | (j, Err e) => (j, Err e) | (j, Panic) => (j, Panic) | (j, Diverge) => (j, Diverge) end) as Hb by done.
  revert msg idx. induction fuel as [|fuel IH]; intros msg idx Hi Hf; cbn [pub_fields_loop fields_loop];
    rewrite (Hb _ _ (pub_read_tag input)), (Hb _ _ (read_tag input)), pub_read_tag_same by done; (destruct (decide (idx = zlen input)) as [->|Hne]; [by rewrite read_tag_end|]).
  { unfold zlen in *. rewrite length_drop in Hf. lia. }
  destruct (read_tag_outcome input idx ltac:(lia)) as [(i & f & w & Hr)|(i & e & Hr)]; rewrite Hr; [|done].
  apply read_tag_ok in Hr as (Hf' & Hw & -> & rest & Ht); [|apply fits_usize|done].
  destruct (varint_range input idx (f * 8 + w) rest ltac:(lia) ltac:(lia) Ht) as (Hle & Htl & Hp).
  set (i := idx + uvarint_len (f * 8 + w)) in *.
  assert (0 ≤ i ≤ zlen input) as Hi' by lia. specialize (Hstep f w msg i Hi').
  unfold number_step. unfold known_number. destruct (Z.eqb_spec f 0) as [->|Hnz].
  { rewrite !Hb. destruct (read_any_outcome input i w Hi') as (j & r & -> & H1 & H2).
    destruct r as [v|e| |]; done. }
  apply alike_bind; [exact Hstep|]. intros m1 j (v & i1 & (Hv & _ & -> & rest' & Ht')%read_any_ok & [= <- _])%bind_ok; [|apply fits_usize|done].
  pose proof (zlen_drop i input) as Hd. rewrite Ht', zlen_app in Hd. pose proof (zlen_nonneg rest'). pose proof (zlen_nonneg (value_bytes v)).
  apply IH; [lia|]. rewrite Z2Nat.inj_add by lia. rewrite <- drop_drop, Ht', to_nat_zlen, drop_app_length.
  rewrite Ht, length_app in Hf. rewrite <- Htl, Ht', length_app in Hf. pose proof (zlen_write_uvarint (f * 8 + w) ltac:(lia)) as Hz.
  unfold zlen in Hz. lia.
Qed.

Lemma pub_decode_alike msg : alike (pub_fields_loop (length input) input step msg 0) (fields_loop (length input) input number_step msg 0).
Proof. apply pub_loop_alike; [pose proof (zlen_nonneg input); lia|done]. Qed.

Definition numbered (ts : list token) : Prop := Forall (λ t, token_ok t ∧ t.1 ≠ 0) ts.

Lemma interpret_known ts m m' :
  Forall token_ok ts → interpret known_number ts m = Ok m' ↔ numbered ts ∧ interpret interp ts m = Ok m'.
Proof.
  intros Hts. revert m. induction Hts as [|[f v] ts Ht _ IH]; intros m; cbn; [split; [by split; [constructor|]|by intros [_ ?]]|].
  unfold numbered in *. rewrite Forall_cons. assert (known_number f v m = if f =? 0 then Err (WInvalidFieldNumber 0) else interp f v m) as -> by done.
  destruct (Z.eqb_spec f 0) as [->|Hnz]; cbn; [split; [done|by intros [[[_ ?] _] _]]|].
  destruct (interp f v m) as [m1|e| |]; cbn; [rewrite IH; tauto|split; [done|by intros [_ ?]]..].
Qed.

Lemma pub_decode_ok msg msg' :
  pub_decode_fields input step msg = Ok msg' ↔
  ∃ ts, numbered ts ∧ input = concat (token_bytes <$> ts) ∧ interpret interp ts msg = Ok msg'.
Proof.
  unfold pub_decode_fields. rewrite (alike_ok _ _ _ (pub_decode_alike msg)).
  change (decode_fields input number_step msg = Ok msg' ↔ ∃ ts, numbered ts ∧ input = concat (token_bytes <$> ts) ∧ interpret interp ts msg = Ok msg').
  rewrite (decode_fields_ok input fits_usize number_step known_number) by done. split.
  - intros (ts & Hts & -> & [Hn Hin]%interpret_known); [|done]. eauto.
  - intros (ts & Hn & -> & Hin). assert (Forall token_ok ts) as Hts by (eapply Forall_impl; [exact Hn|by intros t []]).
    exists ts. split_and!; [done|done|]. by apply interpret_known.
Qed.

Lemma pub_decode_returns msg :
  (∀ f v m, zlen (value_bytes v) ≤ zlen input → returns (interp f v m)) → returns (pub_decode_fields input step msg).
Proof.
  intros Hr. eapply alike_returns; [apply pub_decode_alike|].
  apply (decode_fields_returns input fits_usize number_step known_number); [done|]. intros f v m Hv. unfold known_number.
  destruct (f =? 0); [done|by apply Hr].
Qed.
End Decoder.
End Reading.

(** ** What the fields mean *)

Definition text (b : bytes) : res PubsubWireError bytes := if utf8_valid b then Ok b else Err (WInvalidUtf8 0).

Definition SubOpts_interp (f : Z) (v : Value) (o : SubOpts) : res PubsubWireError SubOpts :=
  match v with
  | VVarint v => if f =? 1 then Ok {| o with subscribe_opt := Some (negb (v =? 0)) |} else Ok o
  | VLen b => if f =? 2 then t ← text b; Ok {| o with sub_topic := Some t |} else Ok o
  | _ => Ok o
  end.
Definition RawMessage_interp (f : Z) (v : Value) (m : RawMessage) : res PubsubWireError RawMessage :=
  match v with
  | VLen b =>
      if f =? 1 then Ok {| m with msg_from := Some b |}
      else if f =? 2 then Ok {| m with msg_data := Some b |}
      else if f =? 3 then Ok {| m with msg_seqno := Some b |}
      else if f =? 4 then t ← text b; Ok {| m with topic_ids := topic_ids m ++ [t] |}
      else if f =? 5 then Ok {| m with signature := Some b |}
      else if f =? 6 then Ok {| m with msg_key := Some b |}
      else Ok m
  | _ => Ok m
  end.
Definition IHave_interp (f : Z) (v : Value) (m : ControlIHave) : res PubsubWireError ControlIHave :=
  match v with
  | VLen b =>
      if f =? 1 then t ← text b; Ok {| m with ihave_topic := Some t |}
      else if f =? 2 then Ok {| m with ihave_ids := ihave_ids m ++ [b] |}
      else Ok m
  | _ => Ok m
  end.
Definition IWant_interp (f : Z) (v : Value) (m : ControlIWant) : res PubsubWireError ControlIWant :=
  match v with VLen b => if f =? 1 then Ok (mkIWant (iwant_ids m ++ [b])) else Ok m | _ => Ok m end.
Definition Graft_interp (f : Z) (v : Value) (m : ControlGraft) : res PubsubWireError ControlGraft :=
  match v with VLen b => if f =? 1 then t ← text b; Ok (mkGraft (Some t)) else Ok m | _ => Ok m end.
Definition PeerInfo_interp (f : Z) (v : Value) (p : PeerInfo) : res PubsubWireError PeerInfo :=
  match v with
  | VLen b =>
      if f =? 1 then Ok {| p with px_peer_id := Some b |}
      else if f =? 2 then Ok {| p with signed_peer_record := Some b |}
      else Ok p
  | _ => Ok p
  end.
Definition Prune_interp (f : Z) (v : Value) (m : ControlPrune) : res PubsubWireError ControlPrune :=
  match v with
  | VLen b =>
      if f =? 1 then t ← text b; Ok {| m with prune_topic := Some t |}
      else if f =? 2 then p ← PeerInfo_decode b; Ok {| m with px_peers := px_peers m ++ [p] |}
      else Ok m
  | VVarint v => if f =? 3 then Ok {| m with prune_backoff := Some v |} else Ok m
  | _ => Ok m
  end.
Definition Control_interp (f : Z) (v : Value) (c : ControlMessage) : res PubsubWireError ControlMessage :=
  match v with
  | VLen b =>
      if f =? 1 then m ← IHave_decode b; Ok {| c with ihave := ihave c ++ [m] |}
      else if f =? 2 then m ← IWant_decode b; Ok {| c with iwant := iwant c ++ [m] |}
      else if f =? 3 then m ← Graft_decode b; Ok {| c with graft := graft c ++ [m] |}
      else if f =? 4 then m ← Prune_decode b; Ok {| c with prune := prune c ++ [m] |}
      else Ok c
  | _ => Ok c
  end.
Definition Rpc_interp (decode_control : bool) (f : Z) (v : Value) (r : Rpc) : res PubsubWireError Rpc :=
  match v with
  | VLen b =>
      if f =? 1 then o ← SubOpts_decode b; Ok {| r with subscriptions := subscriptions r ++ [o] |}
      else if f =? 2 then m ← RawMessage_decode b; Ok {| r with rpc_publish := rpc_publish r ++ [m] |}
      else if f =? 3 then
        if decode_control then c ← merge_from (default ControlMessage_default (control r)) b; Ok {| r with control := Some c |} else Ok r
      else Ok r
  | _ => Ok r
  end.

Ltac like_field :=
  first
    [ apply like_skip_varint; [assumption..|lia]
    | apply like_skip_len; [assumption..|lia]
    | apply like_varint; [assumption..|]; intros ? ?; apply alike_refl
    | apply like_string; [assumption..|]; intros b' ?; unfold text, mbind, M_bind, res_bind, lift; by destruct (utf8_valid b')
    | apply like_len; [assumption..|]; intros ? ?; unfold mbind, M_bind, res_bind, lift; repeat case_match; simplify_eq; first [done|apply alike_refl] ].
Ltac solve_reads_like step interp :=
  apply reads_like_intro;
  [ assumption
  | intros f msg idx Hidx; unfold step, interp;
    change (WIRE_VARINT =? WIRE_LEN) with false; change (WIRE_VARINT =? WIRE_VARINT) with true; rewrite ?andb_true_r, ?andb_false_r;
    repeat match goal with |- context [?f =? ?n] => is_var f; destruct (f =? n) end; like_field
  | intros f msg idx Hidx; unfold step, interp;
    change (WIRE_LEN =? WIRE_LEN) with true; change (WIRE_LEN =? WIRE_VARINT) with false; rewrite ?andb_true_r, ?andb_false_r;
    repeat match goal with |- context [?f =? ?n] => is_var f; destruct (f =? n) end; like_field
  | intros f w msg idx Hv Hl; unfold step;
    rewrite ?(proj2 (Z.eqb_neq w WIRE_VARINT) Hv), ?(proj2 (Z.eqb_neq w WIRE_LEN) Hl), ?andb_false_r; reflexivity
  | done
  | done ].

Lemma SubOpts_reads input : fits input → reads_like input (SubOpts_step input) SubOpts_interp.
Proof. intros. solve_reads_like SubOpts_step SubOpts_interp. Qed.
Lemma RawMessage_reads input : fits input → reads_like input (RawMessage_step input) RawMessage_interp.
Proof. intros. solve_reads_like RawMessage_step RawMessage_interp. Qed.
Lemma IHave_reads input : fits input → reads_like input (IHave_step input) IHave_interp.
Proof. intros. solve_reads_like IHave_step IHave_interp. Qed.
Lemma IWant_reads input : fits input → reads_like input (IWant_step input) IWant_interp.
Proof. intros. solve_reads_like IWant_step IWant_interp. Qed.
Lemma Graft_reads input : fits input → reads_like input (Graft_step input) Graft_interp.
Proof. intros. solve_reads_like Graft_step Graft_interp. Qed.
Lemma PeerInfo_reads input : fits input → reads_like input (PeerInfo_step input) PeerInfo_interp.
Proof. intros. solve_reads_like PeerInfo_step PeerInfo_interp. Qed.
Lemma Prune_reads input : fits input → reads_like input (Prune_step input) Prune_interp.
Proof. intros. solve_reads_like Prune_step Prune_interp. Qed.
Lemma Control_reads input : fits input → reads_like input (Control_step input) Control_interp.
Proof. intros. solve_reads_like Control_step Control_interp. Qed.
Lemma Rpc_reads dc input : fits input → reads_like input (Rpc_step dc input) (Rpc_interp dc).
Proof. intros. solve_reads_like Rpc_step Rpc_interp. Qed.

(** ** Every input is decoded or refused *)

Lemma text_returns b : returns (text b).
Proof. unfold text. by destruct (utf8_valid b). Qed.
Lemma fits_le (a b : bytes) : zlen a ≤ zlen b → fits b → fits a.
Proof. unfold fits. lia. Qed.
Ltac interp_returns unf :=
  intros ? v ? Hv; unf; destruct v as [v|b|b|b]; try done; try apply len_value_small in Hv;
  repeat case_match; try done; (apply returns_bind; [eauto using text_returns, fits_le|done]).

Lemma SubOpts_returns input : fits input → returns (SubOpts_decode input).
Proof. intros Hf. apply (pub_decode_returns input Hf _ _ (SubOpts_reads _ Hf)). interp_returns ltac:(unfold SubOpts_interp). Qed.
Lemma RawMessage_returns input : fits input → returns (RawMessage_decode input).
Proof. intros Hf. apply (pub_decode_returns input Hf _ _ (RawMessage_reads _ Hf)). interp_returns ltac:(unfold RawMessage_interp). Qed.
Lemma IHave_returns input : fits input → returns (IHave_decode input).
Proof. intros Hf. apply (pub_decode_returns input Hf _ _ (IHave_reads _ Hf)). interp_returns ltac:(unfold IHave_interp). Qed.
Lemma IWant_returns input : fits input → returns (IWant_decode input).
Proof. intros Hf. apply (pub_decode_returns input Hf _ _ (IWant_reads _ Hf)). interp_returns ltac:(unfold IWant_interp). Qed.
Lemma Graft_returns input : fits input → returns (Graft_decode input).
Proof. intros Hf. apply (pub_decode_returns input Hf _ _ (Graft_reads _ Hf)). interp_returns ltac:(unfold Graft_interp). Qed.
Lemma PeerInfo_returns input : fits input → returns (PeerInfo_decode input).
Proof. intros Hf. apply (pub_decode_returns input Hf _ _ (PeerInfo_reads _ Hf)). interp_returns ltac:(unfold PeerInfo_interp). Qed.
#[local] Hint Resolve SubOpts_returns RawMessage_returns IHave_returns IWant_returns Graft_returns PeerInfo_returns : core.
Lemma Prune_returns input : fits input → returns (Prune_decode input).
Proof. intros Hf. apply (pub_decode_returns input Hf _ _ (Prune_reads _ Hf)). interp_returns ltac:(unfold Prune_interp). Qed.
#[local] Hint Resolve Prune_returns : core.
Lemma merge_returns c input : fits input → returns (merge_from c input).
Proof. intros Hf. apply (pub_decode_returns input Hf _ _ (Control_reads _ Hf)). interp_returns ltac:(unfold Control_interp). Qed.
#[local] Hint Resolve merge_returns : core.
Lemma decode_inner_returns input dc : fits input → returns (decode_inner input dc).
Proof. intros Hf. apply (pub_decode_returns input Hf _ _ (Rpc_reads dc _ Hf)). interp_returns ltac:(unfold Rpc_interp). Qed.

(** ** Round trips *)

Definition is_text (b : bytes) : Prop := utf8_valid b = true.
Lemma text_ok b : is_text b → text b = Ok b.
Proof. unfold is_text, text. by intros ->. Qed.

Definition known_typed (ts : list token) : Prop := Forall (λ t, token_typed t ∧ t.1 ≠ 0) ts.
Lemma known_app ts1 ts2 : known_typed (ts1 ++ ts2) ↔ known_typed ts1 ∧ known_typed ts2.
Proof. apply Forall_app. Qed.
Lemma known_opt {A} (tok : A → token) (P : A → Prop) o :
  opt_typed P o → (∀ a, P a → token_typed (tok a) ∧ (tok a).1 ≠ 0) → known_typed (opt_token tok o).
Proof. intros Ho Ht. destruct o as [a|]; repeat constructor; by apply Ht. Qed.
Lemma known_each {A} (f : Z) (enc : A → bytes) l : 0 < f < 16 → known_typed ((λ a, (f, VLen (enc a))) <$> l).
Proof. intros Hf. apply Forall_fmap, Forall_true. intros a. cbn. unfold token_typed. cbn. split_and!; [lia|lia|done|lia]. Qed.
Lemma known_bytes {A} (f : Z) (enc : A → bytes) o : 0 < f < 16 → known_typed (opt_token (λ a, (f, VLen (enc a))) o).
Proof. intros Hf. apply (known_opt _ (λ _, True)); [by destruct o|]. intros a _. unfold token_typed. cbn. split_and!; [lia|lia|done|lia]. Qed.

Lemma concat_nested {A} (f : Z) (enc : A → bytes) (l : list A) :
  0 < f < 16 → concat ((λ a, bytes_field f (enc a)) <$> l) = fields_bytes ((λ a, (f, VLen (enc a))) <$> l).
Proof. intros Hf. rewrite <- list_fmap_compose. f_equal. apply list_fmap_ext. intros i b _. apply encode_bytes_token. lia. Qed.
Lemma opt_nested {A} (f : Z) (enc : A → bytes) (o : option A) :
  0 < f < 16 → opt_bytes (λ a, bytes_field f (enc a)) o = fields_bytes (opt_token (λ a, (f, VLen (enc a))) o).
Proof. intros Hf. destruct o; [|done]. cbn. rewrite app_nil_r. apply encode_bytes_token. lia. Qed.
Lemma opt_varint {A} (f : Z) (enc : A → Z) (o : option A) :
  0 < f < 16 → opt_bytes (λ a, varint_field f (enc a)) o = fields_bytes (opt_token (λ a, (f, VVarint (enc a))) o).
Proof. intros Hf. destruct o; [|done]. cbn. rewrite app_nil_r. apply encode_varint_token. lia. Qed.

(** A repeated field whose elements read back. *)
Lemma interpret_each_as {Msg A B} (interp : Z → Value → Msg → res PubsubWireError Msg) (tok : A → token) (g : A → B) (put : list B → Msg) l :
  (∀ l0 a, a ∈ l → interp (tok a).1 (tok a).2 (put l0) = Ok (put (l0 ++ [g a]))) →
  ∀ l0, interpret interp (tok <$> l) (put l0) = Ok (put (l0 ++ (g <$> l))).
Proof.
  intros Hp. induction l as [|a l IH]; cbn; intros l0; [by rewrite app_nil_r|].
  pose proof (Hp l0 a ltac:(by left)) as Ha. destruct (tok a) as [f v]. cbn in Ha. rewrite Ha. cbn. rewrite IH.
  - by rewrite <- app_assoc.
  - intros l1 b Hb. apply Hp. by right.
Qed.
Lemma interpret_each {Msg A} (interp : Z → Value → Msg → res PubsubWireError Msg) (tok : A → token) (put : list A → Msg) l :
  (∀ l0 a, a ∈ l → interp (tok a).1 (tok a).2 (put l0) = Ok (put (l0 ++ [a]))) →
  ∀ l0, interpret interp (tok <$> l) (put l0) = Ok (put (l0 ++ l)).
Proof. intros Hp l0. rewrite <- (list_fmap_id l) at 2. by apply interpret_each_as. Qed.

Lemma decode_tokens {Msg} input (step : Z → Z → Msg → R Msg) interp ts m0 m :
  fits input → reads_like input step interp → input = fields_bytes ts → known_typed ts → interpret interp ts m0 = Ok m →
  pub_decode_fields input step m0 = Ok m.
Proof.
  intros Hf Hr -> Hk Hi. apply (pub_decode_ok _ Hf _ _ Hr). exists ts. split_and!; [|done|done].
  assert (Forall token_ok ts) as Hok.
  { apply tokens_fit; [eapply Forall_impl; [exact Hk|by intros t []]|by apply fits_usize]. }
  apply Forall_and. split; [done|]. eapply Forall_impl; [exact Hk|by intros t []].
Qed.
Lemma part_fits f b ts : (f, VLen b) ∈ ts → fits (fields_bytes ts) → fits b.
Proof. intros Hin Hf. eapply fits_le; [|exact Hf]. by eapply token_part_le. Qed.
Lemma each_fits {A} (f : Z) (enc : A → bytes) l a ts1 ts2 :
  a ∈ l → fits (fields_bytes (ts1 ++ ((λ a, (f, VLen (enc a))) <$> l) ++ ts2)) → fits (enc a).
Proof. intros Ha. apply part_fits with f. rewrite !elem_of_app, list_elem_of_fmap. eauto. Qed.

Definition SubOpts_tokens (o : SubOpts) : list token :=
  opt_token (λ b : bool, (1, VVarint (if b then 1 else 0))) (subscribe_opt o) ++ opt_token (λ b, (2, VLen b)) (sub_topic o).
Definition RawMessage_tokens (m : RawMessage) (include_signature : bool) : list token :=
  opt_token (λ b, (1, VLen b)) (msg_from m) ++ opt_token (λ b, (2, VLen b)) (msg_data m) ++ opt_token (λ b, (3, VLen b)) (msg_seqno m) ++
  ((λ b, (4, VLen b)) <$> topic_ids m) ++
  (if include_signature then opt_token (λ b, (5, VLen b)) (signature m) ++ opt_token (λ b, (6, VLen b)) (msg_key m) else []).
Definition IHave_tokens (m : ControlIHave) : list token :=
  opt_token (λ b, (1, VLen b)) (ihave_topic m) ++ ((λ b, (2, VLen b)) <$> ihave_ids m).
Definition IWant_tokens (m : ControlIWant) : list token := (λ b, (1, VLen b)) <$> iwant_ids m.
Definition Graft_tokens (m : ControlGraft) : list token := opt_token (λ b, (1, VLen b)) (graft_topic m).
Definition PeerInfo_tokens (p : PeerInfo) : list token :=
  opt_token (λ b, (1, VLen b)) (px_peer_id p) ++ opt_token (λ b, (2, VLen b)) (signed_peer_record p).
Definition Prune_tokens (m : ControlPrune) : list token :=
  opt_token (λ b, (1, VLen b)) (prune_topic m) ++ ((λ p, (2, VLen (PeerInfo_encode p))) <$> px_peers m) ++
  opt_token (λ v, (3, VVarint v)) (prune_backoff m).
Definition Control_tokens (c : ControlMessage) : list token :=
  ((λ m, (1, VLen (IHave_encode m))) <$> ihave c) ++ ((λ m, (2, VLen (IWant_encode m))) <$> iwant c) ++
  ((λ m, (3, VLen (Graft_encode m))) <$> graft c) ++ ((λ m, (4, VLen (Prune_encode m))) <$> prune c).
Definition Rpc_tokens (r : Rpc) : list token :=
  ((λ o, (1, VLen (SubOpts_encode o))) <$> subscriptions r) ++ ((λ m, (2, VLen (to_wire m))) <$> rpc_publish r) ++
  opt_token (λ c, (3, VLen (Control_encode c))) (control r).

Ltac encode_tokens :=
  rewrite ?fmap_app, ?concat_app;
  rewrite ?(opt_nested _ (λ b, b)), ?opt_nested, ?(opt_varint _ (λ v, v)), ?opt_varint, ?(concat_nested _ (λ b, b)), ?concat_nested by lia; try done.
Lemma SubOpts_encodes o : SubOpts_encode o = fields_bytes (SubOpts_tokens o).
Proof. unfold SubOpts_encode, SubOpts_tokens. encode_tokens. Qed.
Lemma RawMessage_encodes m sig : encode_fields m sig = fields_bytes (RawMessage_tokens m sig).
Proof. unfold encode_fields, RawMessage_tokens. encode_tokens. destruct sig; [|done]. encode_tokens. Qed.
Lemma IHave_encodes m : IHave_encode m = fields_bytes (IHave_tokens m).
Proof. unfold IHave_encode, IHave_tokens. encode_tokens. Qed.
Lemma IWant_encodes m : IWant_encode m = fields_bytes (IWant_tokens m).
Proof. unfold IWant_encode, IWant_tokens. encode_tokens. Qed.
Lemma Graft_encodes m : Graft_encode m = fields_bytes (Graft_tokens m).
Proof. unfold Graft_encode, Graft_tokens. encode_tokens. Qed.
Lemma PeerInfo_encodes p : PeerInfo_encode p = fields_bytes (PeerInfo_tokens p).
Proof. unfold PeerInfo_encode, PeerInfo_tokens. encode_tokens. Qed.
Lemma Prune_encodes m : Prune_encode m = fields_bytes (Prune_tokens m).
Proof. unfold Prune_encode, Prune_tokens. encode_tokens. Qed.
Lemma Control_encodes c : Control_encode c = fields_bytes (Control_tokens c).
Proof. unfold Control_encode, Control_tokens. encode_tokens. Qed.
Lemma Rpc_encodes r : Rpc_encode r = fields_bytes (Rpc_tokens r).
Proof. unfold Rpc_encode, Rpc_tokens. encode_tokens. Qed.

(** Values a Rust message can hold: strings are UTF-8, numbers are [u64]. *)
Definition SubOpts_typed (o : SubOpts) : Prop := opt_typed is_text (sub_topic o).
Definition RawMessage_typed (m : RawMessage) : Prop := Forall is_text (topic_ids m).
Definition Prune_typed (m : ControlPrune) : Prop := opt_typed is_text (prune_topic m) ∧ opt_typed (λ v, 0 ≤ v ≤ u64_max) (prune_backoff m).
Definition Control_typed (c : ControlMessage) : Prop :=
  Forall (λ m, opt_typed is_text (ihave_topic m)) (ihave c) ∧ Forall (λ m, opt_typed is_text (graft_topic m)) (graft c) ∧ Forall Prune_typed (prune c).

Ltac known_fields :=
  rewrite ?known_app; repeat match goal with |- _ ∧ _ => split end;
  first [ by apply known_each | by apply (known_each _ (λ b, b)) | by apply known_bytes | by apply (known_bytes _ (λ b, b)) | idtac ].

Lemma SubOpts_round_trip o : SubOpts_typed o → fits (SubOpts_encode o) → SubOpts_decode (SubOpts_encode o) = Ok o.
Proof.
  intros Ht Hf. eapply decode_tokens; [done|by apply SubOpts_reads|apply SubOpts_encodes|..]; unfold SubOpts_tokens.
  - known_fields. apply (known_opt _ (λ _, True)); [by destruct (subscribe_opt o)|].
    intros [] _; unfold token_typed; cbn; unfold u64_max; split_and!; lia.
  - destruct o as [[[]|] [t|]]; cbn in *; rewrite ?text_ok by done; done.
Qed.
Lemma IHave_round_trip m : opt_typed is_text (ihave_topic m) → fits (IHave_encode m) → IHave_decode (IHave_encode m) = Ok m.
Proof.
  intros Ht Hf. eapply decode_tokens; [done|by apply IHave_reads|apply IHave_encodes|..]; unfold IHave_tokens; [known_fields|].
  destruct m as [t l]. cbn in *. rewrite (interpret_app _ _ _ _ (mkIHave t [])) by (destruct t; cbn in *; rewrite ?text_ok by done; done).
  by apply (interpret_each _ (λ b, (2, VLen b)) (mkIHave t) l).
Qed.
Lemma IWant_round_trip m : fits (IWant_encode m) → IWant_decode (IWant_encode m) = Ok m.
Proof.
  intros Hf. eapply decode_tokens; [done|by apply IWant_reads|apply IWant_encodes|..]; unfold IWant_tokens; [known_fields|].
  destruct m as [l]. by apply (interpret_each _ (λ b, (1, VLen b)) mkIWant l).
Qed.
Lemma Graft_round_trip m : opt_typed is_text (graft_topic m) → fits (Graft_encode m) → Graft_decode (Graft_encode m) = Ok m.
Proof.
  intros Ht Hf. eapply decode_tokens; [done|by apply Graft_reads|apply Graft_encodes|..]; unfold Graft_tokens; [known_fields|].
  destruct m as [[t|]]; cbn in *; rewrite ?text_ok by done; done.
Qed.
Lemma PeerInfo_round_trip p : fits (PeerInfo_encode p) → PeerInfo_decode (PeerInfo_encode p) = Ok p.
Proof.
  intros Hf. eapply decode_tokens; [done|by apply PeerInfo_reads|apply PeerInfo_encodes|..]; unfold PeerInfo_tokens; [known_fields|].
  by destruct p as [[] []].
Qed.
Lemma Prune_round_trip m : Prune_typed m → fits (Prune_encode m) → Prune_decode (Prune_encode m) = Ok m.
Proof.
  intros [Ht Hv] Hf. eapply decode_tokens; [done|by apply Prune_reads|apply Prune_encodes|..].
  - unfold Prune_tokens. known_fields. eapply known_opt; [exact Hv|]. intros v Hr. cbn in Hr. unfold token_typed. cbn. split_and!; lia.
  - rewrite Prune_encodes in Hf. unfold Prune_tokens in *. destruct m as [t ps v]. cbn [prune_topic px_peers prune_backoff] in *.
    rewrite (interpret_app _ _ _ _ (mkPrune t [] None)) by (destruct t; cbn in *; rewrite ?text_ok by done; done).
    rewrite (interpret_app _ _ _ _ (mkPrune t ps None)); [by destruct v|].
    apply (interpret_each _ (λ p, (2, VLen (PeerInfo_encode p))) (λ l, mkPrune t l None) ps). intros l p Hp. cbn.
    by rewrite PeerInfo_round_trip by (eapply each_fits; [exact Hp|exact Hf]).
Qed.
Lemma merge_round_trip c :
  Control_typed c → fits (Control_encode c) → merge_from ControlMessage_default (Control_encode c) = Ok c.
Proof.
  intros (Hh & Hg & Hp) Hf. eapply decode_tokens; [done|by apply Control_reads|apply Control_encodes|..]; unfold Control_tokens; [known_fields|].
  rewrite Control_encodes in Hf. unfold Control_tokens in Hf. destruct c as [hs ws gs ps]. cbn [ihave iwant graft prune] in *.
  pose proof (λ m (Hm : m ∈ hs), each_fits 1 IHave_encode hs m [] _ Hm Hf) as Hfh.
  pose proof (λ m (Hm : m ∈ ws), each_fits 2 IWant_encode ws m _ _ Hm Hf) as Hfw.
  rewrite app_assoc in Hf. pose proof (λ m (Hm : m ∈ gs), each_fits 3 Graft_encode gs m _ _ Hm Hf) as Hfg.
  rewrite app_assoc in Hf. rewrite <- (app_nil_r (_ <$> ps)) in Hf.
  pose proof (λ m (Hm : m ∈ ps), each_fits 4 Prune_encode ps m _ _ Hm Hf) as Hfp. clear Hf.
  rewrite Forall_forall in Hh. rewrite Forall_forall in Hg. rewrite Forall_forall in Hp.
  rewrite (interpret_app _ _ _ _ (mkControl hs [] [] [])); [rewrite (interpret_app _ _ _ _ (mkControl hs ws [] []));
    [rewrite (interpret_app _ _ _ _ (mkControl hs ws gs []))|]|].
  - apply (interpret_each _ (λ m, (4, VLen (Prune_encode m))) (mkControl hs ws gs) ps). intros l m Hm. cbn. by rewrite Prune_round_trip by auto.
  - apply (interpret_each _ (λ m, (3, VLen (Graft_encode m))) (λ l, mkControl hs ws l []) gs). intros l m Hm. cbn. by rewrite Graft_round_trip by auto.
  - apply (interpret_each _ (λ m, (2, VLen (IWant_encode m))) (λ l, mkControl hs l [] []) ws). intros l m Hm. cbn. by rewrite IWant_round_trip by auto.
  - apply (interpret_each _ (λ m, (1, VLen (IHave_encode m))) (λ l, mkControl l [] [] []) hs). intros l m Hm. cbn. by rewrite IHave_round_trip by auto.
Qed.

(** A message whose wire form reads back as itself. *)
Definition wire_exact (m : RawMessage) : Prop := RawMessage_decode (to_wire m) = Ok m.

Lemma RawMessage_interpreted m sig r :
  RawMessage_typed m →
  interpret RawMessage_interp (RawMessage_tokens m sig) {| RawMessage_default with raw := r |} =
    Ok (if sig : bool then {| m with raw := r |} else {| m with raw := r; signature := None; msg_key := None |}).
Proof.
  intros Ht. destruct m as [r' f d s ts g k]. unfold RawMessage_tokens, RawMessage_typed, RawMessage_default in *.
  cbn [msg_from msg_data msg_seqno topic_ids signature msg_key] in *.
  rewrite (interpret_app _ _ _ _ (mkRawMessage r f None None [] None None)) by (by destruct f).
  rewrite (interpret_app _ _ _ _ (mkRawMessage r f d None [] None None)) by (by destruct d).
  rewrite (interpret_app _ _ _ _ (mkRawMessage r f d s [] None None)) by (by destruct s).
  rewrite (interpret_app _ _ _ _ (mkRawMessage r f d s ts None None)); [by destruct sig, g, k|].
  apply (interpret_each _ (λ b, (4, VLen b)) (λ l, mkRawMessage r f d s l None None) ts). intros l b Hb. cbn.
  rewrite Forall_forall in Ht. by rewrite text_ok by auto.
Qed.
Lemma RawMessage_decodes m sig :
  RawMessage_typed m → fits (encode_fields m sig) →
  RawMessage_decode (encode_fields m sig) =
    Ok (if sig : bool then {| m with raw := encode_fields m sig |}
        else {| m with raw := encode_fields m sig; signature := None; msg_key := None |}).
Proof.
  intros Ht Hf. eapply decode_tokens; [done|by apply RawMessage_reads|apply RawMessage_encodes| |by apply RawMessage_interpreted].
  unfold RawMessage_tokens. known_fields. destruct sig; [known_fields|constructor].
Qed.
Lemma canonical_wire_exact m :
  RawMessage_typed m → raw m = encode_fields m true → fits (raw m) → wire_exact m.
Proof.
  intros Ht Hr Hf. unfold wire_exact. assert (to_wire m = raw m) as ->.
  { unfold to_wire. destruct (raw m) eqn:He; [|done]. done. }
  rewrite Hr in Hf. rewrite Hr. rewrite RawMessage_decodes by done. f_equal. rewrite <- Hr. by destruct m.
Qed.

(** Every message [m] of the RPC is read as [g m]. *)
Lemma Rpc_reads_back (g : RawMessage → RawMessage) r :
  Forall SubOpts_typed (subscriptions r) → Forall (λ m, RawMessage_decode (to_wire m) = Ok (g m)) (rpc_publish r) →
  opt_typed Control_typed (control r) → fits (Rpc_encode r) →
  let r' := {| r with rpc_publish := g <$> rpc_publish r |} in
  Rpc_decode (Rpc_encode r) = Ok r' ∧ decode_floodsub (Rpc_encode r) = Ok {| r' with control := None |}.
Proof.
  intros Hs Hm Hc Hf r'. enough (∀ dc : bool, decode_inner (Rpc_encode r) dc = Ok (if dc then r' else {| r' with control := None |})) as Hd
    by (split; [apply (Hd true)|apply (Hd false)]).
  intros dc. eapply decode_tokens; [done|by apply Rpc_reads|apply Rpc_encodes|..]; unfold Rpc_tokens; [known_fields|].
  rewrite Rpc_encodes in Hf. unfold Rpc_tokens in Hf. subst r'. destruct r as [ss ms c]. cbn [subscriptions rpc_publish control] in *.
  pose proof (λ o (Ho : o ∈ ss), each_fits 1 SubOpts_encode ss o [] _ Ho Hf) as Hfs.
  assert (∀ b, (3, VLen b) ∈ opt_token (λ c, (3, VLen (Control_encode c))) c → fits b) as Hfc
    by (intros b Hb; eapply part_fits; [|exact Hf]; rewrite !elem_of_app; eauto).
  rewrite Forall_forall in Hs. rewrite Forall_forall in Hm.
  rewrite (interpret_app _ _ _ _ (mkRpc ss [] None)); [rewrite (interpret_app _ _ _ _ (mkRpc ss (g <$> ms) None))|].
  - destruct c as [c|]; [|by destruct dc]. cbn in *. destruct dc; [|done]. cbn. rewrite merge_round_trip; [done|done|]. apply Hfc. by left.
  - apply (interpret_each_as _ (λ m, (2, VLen (to_wire m))) g (λ l, mkRpc ss l None) ms). intros l m Hin. cbn. by rewrite (Hm m Hin).
  - apply (interpret_each _ (λ o, (1, VLen (SubOpts_encode o))) (λ l, mkRpc l [] None) ss). intros l o Ho. cbn. by rewrite SubOpts_round_trip by auto.
Qed.
Lemma Rpc_round_trip r :
  Forall SubOpts_typed (subscriptions r) → Forall wire_exact (rpc_publish r) → opt_typed Control_typed (control r) → fits (Rpc_encode r) →
  Rpc_decode (Rpc_encode r) = Ok r ∧ decode_floodsub (Rpc_encode r) = Ok {| r with control := None |}.
Proof.
  intros Hs Hm Hc Hf. pose proof (Rpc_reads_back id r Hs Hm Hc Hf) as H. rewrite list_fmap_id in H. by destruct r.
Qed.

(** ** What was received is passed on as it was *)

Lemma RawMessage_decode_raw input m :
  fits input → RawMessage_decode input = Ok m → to_wire m = input ∧ wire_exact m ∧ RawMessage_typed m ∧ raw m = input.
Proof.
  intros Hf Hd. pose proof Hd as (ts & Hn & Hin & Hi)%(pub_decode_ok input Hf _ _ (RawMessage_reads _ Hf)).
  assert (Forall token_ok ts) as Hts by (eapply Forall_impl; [exact Hn|by intros t []]).
  apply (interpret_preserves RawMessage_interp (λ m, raw m = input ∧ RawMessage_typed m)) in Hi as Hr; [|..|done|by split; [|constructor]].
  2: { intros f v m1 m2 _ [Hr Ht] Hm2. unfold RawMessage_interp, text in Hm2. unfold RawMessage_typed in *.
       repeat case_match; simplify_eq; cbn in *; simplify_eq; try done. split; [done|]. apply Forall_app. by repeat constructor. }
  destruct Hr as [Hr Htyped].
  assert (to_wire m = input) as Hw.
  { unfold to_wire. rewrite Hr. destruct input as [|b input]; [|done].
    rewrite (no_tokens ts) in Hi by done. by injection Hi as <-. }
  split_and!; [done| |done|done]. unfold wire_exact. by rewrite Hw.
Qed.

(** A message of an RPC: one that was built here, with or without its wire form
    ([raw]), or one that has been received. *)
Definition sendable (m : RawMessage) : Prop :=
  RawMessage_typed m ∧ (raw m = [] ∨ raw m = encode_fields m true) ∨ ∃ input, fits input ∧ RawMessage_decode input = Ok m.
(** The message as the receiver has it: with its wire form. *)
Definition as_read (m : RawMessage) : RawMessage := if bool_decide (raw m = []) then {| m with raw := encode_fields m true |} else m.
Lemma sendable_reads m : sendable m → fits (to_wire m) → RawMessage_decode (to_wire m) = Ok (as_read m).
Proof.
  intros [[Ht [Hr|Hr]]|(input & Hf & Hd)] Hw; unfold as_read.
  - unfold to_wire in *. rewrite Hr in *. rewrite bool_decide_eq_true_2 by done. by rewrite RawMessage_decodes.
  - assert (to_wire m = raw m) as Hwr by (unfold to_wire; by destruct (raw m)). rewrite Hwr in *. case_bool_decide as He.
    + rewrite He in *. rewrite <- Hr. by rewrite Hr, RawMessage_decodes by (by rewrite <- ?Hr).
    + by rewrite <- Hwr, (canonical_wire_exact m).
  - destruct (RawMessage_decode_raw input m Hf Hd) as (Hin & Hex & _ & Hr). rewrite Hex. case_bool_decide as He; [|done]. f_equal.
    unfold to_wire in Hin. rewrite He in Hin. rewrite Hin, <- Hr. by destruct m.
Qed.

Definition Rpc_typed (r : Rpc) : Prop :=
  Forall SubOpts_typed (subscriptions r) ∧ Forall sendable (rpc_publish r) ∧ opt_typed Control_typed (control r).

(** C35: an RPC that is encoded is decoded to what it was, with every
    subscription, every field of every message and every control item; a
    message that was built here is read with its wire form attached, one that
    was received is passed on byte for byte; a floodsub node reads the same RPC
    and leaves the control part aside. The strings of the RPC are UTF-8 and its
    numbers 64 bits wide, as their Rust types say. *)
Theorem pubsub_rpc_round_trip r :
  Rpc_typed r → fits (Rpc_encode r) →
  let r' := {| r with rpc_publish := as_read <$> rpc_publish r |} in
  Rpc_decode (Rpc_encode r) = Ok r' ∧ decode_floodsub (Rpc_encode r) = Ok {| r' with control := None |}.
Proof.
  intros (Hs & Hm & Hc) Hf. apply (Rpc_reads_back as_read r); [done| |done|done]. rewrite Forall_forall in Hm. apply Forall_forall. intros m Hin.
  apply sendable_reads; [by apply Hm|]. rewrite Rpc_encodes in Hf. eapply part_fits; [|exact Hf]. unfold Rpc_tokens. rewrite !elem_of_app. right. left.
  apply list_elem_of_fmap. by exists m.
Qed.

Lemma Rpc_messages dc ts r0 r m :
  interpret (Rpc_interp dc) ts r0 = Ok r → m ∈ rpc_publish r →
  m ∈ rpc_publish r0 ∨ ∃ b, (2, VLen b) ∈ ts ∧ RawMessage_decode b = Ok m.
Proof.
  revert r0. induction ts as [|[f v] ts IH]; intros r0; cbn; [by intros [= <-]; left|].
  destruct (Rpc_interp dc f v r0) as [r1|e| |] eqn:Hr1; try done. cbn. intros Hi Hm.
  destruct (IH r1 Hi Hm) as [Hin|(b & Hb & Hd)]; [|right; exists b; split; [by right|done]].
  unfold Rpc_interp in Hr1. destruct v as [v|b|b|b]; simplify_eq; try by left.
  destruct (f =? 1); [destruct (SubOpts_decode b); by simplify_eq/=; left|].
  destruct (Z.eqb_spec f 2) as [->|_].
  - destruct (RawMessage_decode b) as [m'|e| |] eqn:Hb; simplify_eq/=. apply elem_of_app in Hin as [Hin|Hin]; [by left|].
    apply list_elem_of_singleton in Hin as ->. right. exists b. split; [by left|done].
  - destruct (f =? 3), dc; try (destruct (merge_from _ b)); simplify_eq/=; by left.
Qed.
Lemma token_le t ts : t ∈ ts → zlen (token_bytes t) ≤ zlen (fields_bytes ts).
Proof.
  induction ts as [|t' ts IH]; [by intros ?%not_elem_of_nil|]. rewrite elem_of_cons, fmap_cons, concat_cons, zlen_app.
  pose proof (zlen_nonneg (token_bytes t')). pose proof (zlen_nonneg (fields_bytes ts)). intros [->|Hin]; [lia|]. specialize (IH Hin). lia.
Qed.

(** The RPC that carries one message, as it is forwarded. *)
Definition message_rpc (m : RawMessage) : Rpc := mkRpc [] [m] None.
Lemma message_rpc_encode m : Rpc_encode (message_rpc m) = token_bytes (2, VLen (to_wire m)).
Proof. rewrite Rpc_encodes. cbn. by rewrite app_nil_r. Qed.

Lemma Rpc_decode_messages input dc r :
  fits input → decode_inner input dc = Ok r →
  Forall (λ m, wire_exact m ∧ RawMessage_typed m ∧ zlen (Rpc_encode (message_rpc m)) ≤ zlen input) (rpc_publish r).
Proof.
  intros Hf (ts & Hn & -> & Hi)%(pub_decode_ok input Hf _ _ (Rpc_reads dc _ Hf)). apply Forall_forall. intros m Hm.
  destruct (Rpc_messages _ _ _ _ _ Hi Hm) as [Hin|(b & Hb & Hd)]; [by apply elem_of_nil in Hin|].
  destruct (RawMessage_decode_raw b m) as (Hw & He & Ht & _); [by eapply part_fits|done|]. split_and!; [done|done|].
  rewrite message_rpc_encode, Hw. by apply token_le.
Qed.

(** ** Signatures *)

Section Signed.
Context `{SigningCrate} `{HC : HashCrates Multihash} `{!EqDecision Multihash} {HS : HashCratesSpec Multihash}.
Abbreviation PeerId := (PeerIdentity.PeerId (Multihash := Multihash)).

Lemma source_ok m p s :
  source_and_seqno m = Ok (p, s) ↔
  (∃ fb, msg_from m = Some fb ∧ from_bytes fb = Ok p) ∧ msg_seqno m = Some s ∧ 1 ≤ zlen s ≤ MAX_SEQNO_LEN.
Proof.
  unfold source_and_seqno, or_error. destruct (msg_from m) as [fb|]; cbn; [|naive_solver].
  destruct (from_bytes fb) as [q|e| |] eqn:Hq; cbn; [|split; [done|]; intros ((? & [= <-] & ?) & _); congruence..].
  destruct (msg_seqno m) as [b|]; cbn; [|split; [done|]; by intros (_ & ? & _)].
  pose proof (zlen_nonneg b). case_bool_decide as Hb; cbn; [subst b; split; [done|]; intros (_ & [= <-] & Hz); rewrite (zlen_nil (A := byte)) in Hz; lia|].
  destruct (Z.leb_spec (zlen b) MAX_SEQNO_LEN); cbn; [|split; [done|]; intros (_ & [= <-] & ?); lia].
  assert (zlen b ≠ 0) by (by intros ?%zlen_zero_inv). split; [intros [= <- <-]; split_and!; eauto; lia|].
  intros ((fb' & [= <-] & Hq') & [= ->] & _). congruence.
Qed.
Lemma source_returns m : returns (source_and_seqno m).
Proof.
  unfold source_and_seqno, or_error. destruct (msg_from m) as [fb|]; [|done]. cbn. pose proof (from_bytes_returns fb) as Hr.
  destruct (from_bytes fb); try done. cbn. by destruct (match msg_seqno m with Some s => _ | None => _ end).
Qed.

(** The key a message was signed with is the publisher's. *)
Definition signed_by (m : RawMessage) (p : PeerId) : Prop :=
  ∃ k sig, signature m = Some sig ∧ zlen sig = SIGNATURE_LEN ∧ from_public_key k = Ok p ∧ verify k (sign_bytes m) sig = Ok tt.

Lemma verify_ok m allow p s signed :
  verify_message m allow = Ok (p, s, signed) →
  source_and_seqno m = Ok (p, s) ∧
  if signed : bool then signed_by m p else allow = true ∧ signature m = None ∧ msg_key m = None.
Proof.
  unfold verify_message. destruct (source_and_seqno m) as [[p' s']|e| |]; try done. cbn. destruct (signature m) as [sig|] eqn:Hsig.
  - destruct (Z.eqb_spec (zlen sig) SIGNATURE_LEN) as [Hl|]; [|done]. cbn.
    destruct (signing_key m p') as [k|e| |]; try done. cbn. unfold no_error. destruct (from_public_key k) as [o|e| |] eqn:Ho; try done. cbn.
    case_bool_decide as Heq; [|done]. cbn. unfold or_error. destruct (verify k (sign_bytes m) sig) as [[]|e| |] eqn:Hv; try done.
    cbn. intros ?. simplify_eq. split; [done|]. by exists k, sig.
  - case_bool_decide as Hk; [done|]. destruct allow; [|done]. intros ?. simplify_eq. split_and!; try done. destruct (msg_key m); [by destruct Hk|done].
Qed.
Lemma verify_returns m allow : returns (verify_message m allow).
Proof.
  unfold verify_message. pose proof (source_returns m) as Hs. destruct (source_and_seqno m) as [[p s]|e| |]; try done. cbn.
  destruct (signature m) as [sig|]; [|by case_bool_decide; destruct allow]. destruct (zlen sig =? SIGNATURE_LEN); [|done]. cbn.
  apply returns_bind.
  { unfold signing_key, or_error. destruct (msg_key m) as [key|];
      [pose proof (decode_protobuf_returns key) as Hd; by destruct (decode_protobuf key)|].
    pose proof (decode_protobuf_returns (digest_bytes p)) as Hd. by destruct (decode_protobuf (digest_bytes p)). }
  intros k. unfold from_public_key. destruct (public_key_peer_ok (encode_protobuf k)) as (q & -> & _). cbn.
  case_bool_decide; [|done]. cbn. unfold or_error, verify. by repeat case_match.
Qed.

(** A signature covers all that is delivered: messages that sign the same bytes
    have the same publisher, data, sequence number and topics. *)
Lemma sign_bytes_cover m1 m2 :
  RawMessage_typed m1 → RawMessage_typed m2 → fits (sign_bytes m1) → sign_bytes m1 = sign_bytes m2 →
  msg_from m1 = msg_from m2 ∧ msg_data m1 = msg_data m2 ∧ msg_seqno m1 = msg_seqno m2 ∧ topic_ids m1 = topic_ids m2.
Proof.
  intros H1 H2 Hf He. assert (fits (encode_fields m1 false)) as Hf1.
  { eapply fits_le; [|exact Hf]. unfold sign_bytes. rewrite zlen_app. pose proof (zlen_nonneg SIGN_PREFIX). lia. }
  unfold sign_bytes in He. apply app_inv_head in He.
  pose proof (RawMessage_decodes m1 false H1 Hf1) as D1. rewrite He in Hf1, D1.
  rewrite (RawMessage_decodes m2 false H2 Hf1) in D1. by injection D1.
Qed.

(** C17: a message that is accepted as signed was signed by the key of the peer
    it names as its publisher, with a 64-byte signature over bytes that no
    message with another publisher, data, sequence number or topics has; an
    unsigned message is accepted only where the configuration says so, and never
    with a key; verification always answers. *)
Theorem pubsub_verify_sound m allow :
  RawMessage_typed m → fits (sign_bytes m) →
  match verify_message m allow with
  | Ok (p, s, signed) =>
      (∃ fb, msg_from m = Some fb ∧ from_bytes fb = Ok p) ∧ msg_seqno m = Some s ∧ 1 ≤ zlen s ≤ MAX_SEQNO_LEN ∧
      if signed : bool then
        signed_by m p ∧
        ∀ m', RawMessage_typed m' → sign_bytes m' = sign_bytes m →
          msg_from m' = msg_from m ∧ msg_data m' = msg_data m ∧ msg_seqno m' = msg_seqno m ∧ topic_ids m' = topic_ids m
      else allow = true ∧ signature m = None ∧ msg_key m = None
  | Err _ => True
  | Panic | Diverge => False
  end.
Proof.
  intros Ht Hf. pose proof (verify_returns m allow) as Hr. pose proof (verify_ok m allow) as Hv.
  destruct (verify_message m allow) as [[[p s] signed]|e| |]; try done.
  destruct (Hv p s signed eq_refl) as [(Hfrom & Hs & Hl)%source_ok Hsig]. split_and!; [done|done|lia|lia|].
  destruct signed; [|done]. split; [done|]. intros m' Ht' He. apply sign_bytes_cover; [done|done|by rewrite He|done].
Qed.

Context `{!SigningSpec}.

Lemma ed25519_encoded k : zlen (key_data k) = 32 → key_type k = Ed25519 → zlen (encode_protobuf k) = 36.
Proof. intros Hl Ht. unfold encode_protobuf. by rewrite Ht, Hl, !zlen_app, Hl. Qed.
Lemma ed25519_inline k p :
  zlen (key_data k) = 32 → key_type k = Ed25519 → from_public_key k = Ok p → digest_bytes p = encode_protobuf k.
Proof.
  intros Hl Ht. unfold from_public_key, from_public_key_protobuf.
  assert (zlen (encode_protobuf k) ≤ MAX_INLINE_KEY_LENGTH) as Hz.
  { rewrite ed25519_encoded by done. by vm_compute. }
  destruct (Z.leb_spec (zlen (encode_protobuf k)) MAX_INLINE_KEY_LENGTH); [|lia]. unfold build_multihash.
  destruct (mh_wrap_spec IDENTITY_MULTIHASH_CODE (encode_protobuf k)) as (m & -> & _ & Hd);
    [by vm_compute|unfold PEER_ID_MULTIHASH_SIZE, MAX_INLINE_KEY_LENGTH in *; lia|]. cbn. by intros [= <-].
Qed.

(** What a node publishes is accepted as its own. *)
Lemma build_signed_verifies {E} kp topic data seqno p :
  keypair_ok kp → keypair_peer_id kp = Ok p →
  ∃ m, build_signed (E := E) (Multihash := Multihash) kp topic data seqno = Ok m ∧ raw m = encode_fields m true ∧
    msg_from m = Some (to_bytes p) ∧ msg_data m = Some data ∧ msg_seqno m = Some (be_bytes 8 seqno) ∧ topic_ids m = [topic] ∧
    ∀ allow, verify_message m allow = Ok (p, be_bytes 8 seqno, true).
Proof.
  intros [Hsk Hpk] Hp. unfold build_signed. rewrite Hp. cbn [no_error mbind res_bind].
  set (m0 := mkRawMessage [] (Some (to_bytes p)) (Some data) (Some (be_bytes 8 seqno)) [topic] None None).
  set (sig := sign kp (sign_bytes m0)).
  eexists. split; [reflexivity|]. split_and!; try done. intros allow. unfold verify_message.
  pose proof (ed_public_length (secret_key kp) Hsk) as Hkl.
  unfold keypair_peer_id in Hp. assert (peer_ok p) as Hok.
  { unfold from_public_key in Hp. destruct (public_key_peer_ok (encode_protobuf (keypair_public_key kp))) as (q & Hq & Hok & _). congruence. }
  assert (∀ m, msg_from m = Some (to_bytes p) → msg_seqno m = Some (be_bytes 8 seqno) → source_and_seqno m = Ok (p, be_bytes 8 seqno)) as Hsrc.
  { intros m Hf Hs. apply source_ok. split_and!; [exists (to_bytes p); split; [done|by apply from_bytes_to_bytes]|done|..];
      unfold zlen; rewrite length_be_bytes; unfold MAX_SEQNO_LEN; lia. }
  rewrite Hsrc by done. cbn [mbind res_bind signature]. unfold sign in sig.
  destruct (Z.eqb_spec (zlen sig) SIGNATURE_LEN) as [_|Hn]; [|by destruct Hn; apply ed_sign_length]. cbn [mbind res_bind].
  unfold signing_key. cbn [msg_key m0]. rewrite (ed25519_inline (keypair_public_key kp) p); [|by cbn; rewrite Hpk|done|done].
  rewrite decode_protobuf_complete.
  2: { rewrite ed25519_encoded; [by vm_compute|by cbn; rewrite Hpk|done]. }
  change (msg_key m0) with (@None bytes). cbn [or_error mbind res_bind]. rewrite Hp. cbn [no_error mbind res_bind]. rewrite bool_decide_true by done. cbn [negb].
  unfold verify. cbn [key_type key_data keypair_public_key]. rewrite Hpk, Hkl. cbn [Z.eqb Pos.eqb negb].
  rewrite ed_public_ok by done. cbn [negb].
  assert (∀ m, sign_bytes m = sign_bytes m0 → ed_verify (ed_public (secret_key kp)) (sign_bytes m) sig = true) as Hv
    by (intros m ->; by apply ed_verify_sign).
  by rewrite Hv.
Qed.
End Signed.
