(* ===== verification/PubsubTypes.v ===== *)
(** What the two pubsub routers share, from [crates/pubsub/src]: the actions for
    the host and the events for the application ([events.rs]), the checks on
    topics, and the order in which a [BTreeSet<String>] is walked. *)

From Stdlib Require Import Strings.Byte.
From S2P Require Import Prelude Varint Base58 PeerIdentity Multiaddr PubsubMessage.

(** ** [Vec<u8>] and [String] in order *)

Fixpoint bytes_leb (x y : bytes) : bool :=
  match x, y with
  | [], _ => true
  | _, [] => false
  | a :: x, b :: y => (b2z a <? b2z b) || ((b2z a =? b2z b) && bytes_leb x y)
  end.
Definition bytes_le (x y : bytes) : Prop := bytes_leb x y = true.
#[global] Instance bytes_le_dec : RelDecision bytes_le.
Proof. intros x y. unfold bytes_le. apply _. Defined.

Lemma bytes_le_cons a b x y : bytes_le (a :: x) (b :: y) ↔ b2z a < b2z b ∨ a = b ∧ bytes_le x y.
Proof.
  unfold bytes_le. cbn. rewrite orb_true_iff, andb_true_iff, Z.ltb_lt, Z.eqb_eq. split; (intros [?|[? ?]]; [by left|right; split; try done]).
  - by apply (inj b2z).
  - by subst.
Qed.
#[global] Instance bytes_le_order : TotalOrder bytes_le.
Proof.
  split; [split; [split|]|].
  - intros x. induction x as [|a x IH]; [done|]. apply bytes_le_cons. by right.
  - intros x y. revert x. induction y as [|b y IH]; intros [|a x] [|c z]; try done.
    rewrite !bytes_le_cons. intros [?|[-> ?]] [?|[-> ?]]; [left; lia|by left|by left|right; eauto].
  - intros x. induction x as [|a x IH]; intros [|b y]; try done. rewrite !bytes_le_cons.
    intros [?|[-> ?]] [?|[? ?]]; subst; try lia. f_equal. auto.
  - intros x. unfold strict. induction x as [|a x IH]; intros [|b y]; [by right; left|by left|by right; right|].
    rewrite !bytes_le_cons. destruct (Z.lt_trichotomy (b2z a) (b2z b)) as [?|[He|?]]; [left|apply (inj b2z) in He; subst b|right; right].
    + split; [by left|]. intros [?|[-> ?]]; lia.
    + destruct (IH y) as [[? ?]|[->|[? ?]]]; [left|by right; left|right; right]; (split; [by right|]; intros [?|[_ ?]]; [lia|done]).
    + split; [by left|]. intros [?|[-> ?]]; lia.
Qed.
#[global] Instance bytes_btree_key : BTreeKey bytes := {| key_le := bytes_le |}.

(** The elements of a [BTreeSet] in its iteration order. *)
Definition set_iter `{BTreeKey K} (x : gset K) : list K := merge_sort key_le (elements x).
Lemma elem_of_set_iter `{BTreeKey K} (x : gset K) k : k ∈ set_iter x ↔ k ∈ x.
Proof. unfold set_iter. rewrite merge_sort_Permutation. apply elem_of_elements. Qed.
Lemma NoDup_set_iter `{BTreeKey K} (x : gset K) : NoDup (set_iter x).
Proof. unfold set_iter. rewrite merge_sort_Permutation. apply NoDup_elements. Qed.

(** ** Topics *)

Inductive TopicError := TopicEmpty | TopicTooLong | SetTooLarge.
Inductive PublishError := PublishTopic (e : TopicError) | PublishTooLarge | Backpressure.

Definition validate_topic (topic : bytes) : res TopicError unit :=
  if bool_decide (topic = []) then Err TopicEmpty
  else if MAX_TOPIC_LEN <? zlen topic then Err TopicTooLong
  else Ok tt.
Definition topic_ok (topic : bytes) : bool := match validate_topic topic with Ok _ => true | _ => false end.

(** ** Actions and events *)

Section Types.
Context `{HC : HashCrates Multihash}.
Abbreviation PeerId := (PeerIdentity.PeerId (Multihash := Multihash)).

Inductive PubsubAction :=
  | OpenStream (token : Z) (peer : PeerId) (protocol_id : bytes)
  | SendStream (token : Z) (peer : PeerId) (stream_id : Z) (data : bytes)
  | CloseStreamWrite (peer : PeerId) (stream_id : Z)
  | ResetStream (peer : PeerId) (stream_id : Z).

(** The texts: what is formatted into them. *)
Inductive Reason :=
  | RText (text : bytes)
  | RDropped (cause : bytes) (dropped : Z)
  | RDiscarded (work : bytes) (why : bytes) (detail : option bytes)
  | RFailed (what : bytes) (detail : bytes)
  | RFrame (len : Z)
  | RMalformedFrame (e : VarintError)
  | RMalformedRpc (e : PubsubWireError)
  | RRejected (e : MessageVerifyError).

Inductive PubsubEvent :=
  | Message (from : PeerId) (topics : list bytes) (data seqno : bytes) (signed : bool)
  | PeerSubscribed (peer : PeerId) (topic : bytes)
  | PeerUnsubscribed (peer : PeerId) (topic : bytes)
  | OutboundFailure (peer : PeerId) (reason : Reason)
  | ProtocolViolation (peer : PeerId) (reason : Reason).
End Types.

Inductive StreamRole := Outbound | Inbound | Rejected.
#[global] Instance StreamRole_eq_dec : EqDecision StreamRole.
Proof. solve_decision. Defined.

(** Longest possible frame prefix. *)
Definition MAX_PREFIX_LEN : Z := 10.
Definition CAP : Z := MAX_RPC_SIZE + MAX_PREFIX_LEN.
