(* ===== verification/MessageCache.v ===== *)
(** The cache of recent messages of gossipsub, from
    [crates/pubsub/src/gossipsub/mcache.rs]: what is served to IWANT and
    announced by IHAVE, kept for a number of heartbeats and bounded in number.
    The three indices of the code are shown to implement one queue of messages
    with their ages. *)

From Stdlib Require Import Strings.Byte.
From S2P Require Import Prelude PubsubMessage PubsubTypes Seen.

Record CacheEntry := mkEntry { message : RawMessage; topics : list bytes; generation : Z }.

Record MessageCache := mkCache {
  messages : gmap bytes CacheEntry;
  history : list (gmap bytes Z);
  insertion_order : list (MessageId * Z);
  history_len : Z;
  max_messages : Z;
  next_generation : Z;
}.

Definition MessageCache_new (history_len max_messages : Z) : MessageCache :=
  {| messages := ∅; history := [∅]; insertion_order := []; history_len := history_len; max_messages := max_messages;
     next_generation := 0 |}.

(** [self.messages.get(id).is_some_and(|entry| entry.generation == generation)]. *)
Definition is_live (c : MessageCache) (id : MessageId) (g : Z) : bool :=
  match messages c !! id with Some entry => generation entry =? g | None => false end.

(** [for window in &mut self.history]. *)
Fixpoint remove_from_windows (id : MessageId) (g : Z) (windows : list (gmap bytes Z)) : list (gmap bytes Z) :=
  match windows with
  | window :: rest =>
      if bool_decide (window !! id = Some g) then delete id window :: rest
      else window :: remove_from_windows id g rest
  | [] => []
  end.

Definition remove_generation (id : MessageId) (g : Z) (c : MessageCache) : MessageCache :=
  if negb (is_live c id g) then c
  else {| c with messages := delete id (messages c); history := remove_from_windows id g (history c) |}.

(** [while self.insertion_order.front().is_some_and(..)]. *)
Fixpoint discard_loop (c : MessageCache) (queue : list (MessageId * Z)) : list (MessageId * Z) :=
  match queue with
  | (id, g) :: rest => if negb (is_live c id g) then discard_loop c rest else queue
  | [] => []
  end.
Definition discard_stale_order_front (c : MessageCache) : MessageCache :=
  {| c with insertion_order := discard_loop c (insertion_order c) |}.

(** [while self.messages.len() > self.max_messages]: with nothing left to pop
    the loop goes round for ever. *)
Fixpoint evict_loop (queue : list (MessageId * Z)) (c : MessageCache) : res Empty_set MessageCache :=
  if max_messages c <? Z.of_nat (size (messages c)) then
    match queue with
    | (oldest, g) :: rest => evict_loop rest (remove_generation oldest g {| c with insertion_order := rest |})
    | [] => Diverge
    end
  else Ok c.

Definition put (id : MessageId) (m : RawMessage) (ts : list bytes) (c : MessageCache) : res Empty_set MessageCache :=
  if bool_decide (is_Some (messages c !! id)) then Ok c
  else
    let g := next_generation c in
    match history c with
    | front :: windows =>
        let c := {| c with
          next_generation := wrapping_add u64_max g 1;
          messages := <[id := mkEntry m ts g]> (messages c);
          history := <[id := g]> front :: windows;
          insertion_order := insertion_order c ++ [(id, g)] |} in
        c ← evict_loop (insertion_order c) c;
        Ok (discard_stale_order_front c)
    | [] => Panic
    end.

Definition get (c : MessageCache) (id : MessageId) : option RawMessage := message <$> messages c !! id.

Definition gossip_ids (c : MessageCache) (topic : bytes) (windows : Z) : list MessageId :=
  set_iter (list_to_set (omap (λ '(id, g),
    match messages c !! id with
    | Some entry => if (generation entry =? g) && bool_decide (topic ∈ topics entry) then Some id else None
    | None => None
    end) (take (Z.to_nat windows) (history c) ≫= btree_iter))).

(** [for (id, generation) in expired]. *)
Definition expire_window (expired : gmap bytes Z) (c : MessageCache) : MessageCache :=
  foldl (λ c '(id, g), if is_live c id g then {| c with messages := delete id (messages c) |} else c) c (btree_iter expired).

(** [while self.history.len() > self.history_len], from the back. *)
Fixpoint expire_loop (oldest_first : list (gmap bytes Z)) (c : MessageCache) : MessageCache :=
  match oldest_first with
  | expired :: rest =>
      if history_len c <? zlen (history c) then expire_loop rest (expire_window expired {| c with history := reverse rest |})
      else c
  | [] => c
  end.

Definition shift (c : MessageCache) : MessageCache :=
  let c := {| c with history := ∅ :: history c |} in
  discard_stale_order_front (expire_loop (reverse (history c)) c).

(** ** The queue it implements *)

(** A message, and for how many heartbeats it has been kept. *)
Record Aged := mkAged { aged_id : MessageId; aged_message : RawMessage; aged_topics : list bytes; age : nat }.

(** The queue is kept with the oldest first. *)
Definition spec_put (max : Z) (id : MessageId) (m : RawMessage) (ts : list bytes) (q : list Aged) : list Aged :=
  if bool_decide (id ∈ aged_id <$> q) then q
  else let q := q ++ [mkAged id m ts 0] in drop (length q - Z.to_nat max) q.
Definition older (x : Aged) : Aged := {| x with age := S (age x) |}.
Definition spec_shift (len : Z) (q : list Aged) : list Aged := filter (λ x, Z.of_nat (age x) < len) (older <$> q).
Definition spec_get (q : list Aged) (id : MessageId) : option RawMessage :=
  aged_message <$> head (filter (λ x, aged_id x = id) q).
Definition spec_gossip (q : list Aged) (topic : bytes) (windows : Z) : list MessageId :=
  set_iter (list_to_set (aged_id <$> filter (λ x, Z.of_nat (age x) < windows ∧ topic ∈ aged_topics x) q)).

Inductive CacheOp := Put (id : MessageId) (m : RawMessage) (ts : list bytes) | Shift.
Definition cache_step (op : CacheOp) (c : MessageCache) : res Empty_set MessageCache :=
  match op with Put id m ts => put id m ts c | Shift => Ok (shift c) end.
Fixpoint cache_run (ops : list CacheOp) (c : MessageCache) : res Empty_set MessageCache :=
  match ops with [] => Ok c | op :: ops => c ← cache_step op c; cache_run ops c end.
Definition spec_step (len max : Z) (q : list Aged) (op : CacheOp) : list Aged :=
  match op with Put id m ts => spec_put max id m ts q | Shift => spec_shift len q end.

(** ** The indices *)

(** An entry of the cache with the window it is in. *)
Abbreviation Slot := (MessageId * CacheEntry * nat)%type.
Definition slot_id (x : Slot) : MessageId := x.1.1.
Definition slot_order (x : Slot) : MessageId * Z := (x.1.1, generation x.1.2).
Definition aged (x : Slot) : Aged := mkAged x.1.1 (message x.1.2) (topics x.1.2) x.2.

(** Every index of the cache holds exactly the slots [g], the oldest first. *)
Record indexed (c : MessageCache) (g : list Slot) : Prop := {
  ix_nodup : NoDup (slot_id <$> g);
  ix_messages : messages c = list_to_map g.*1;
  ix_window w window id n : history c !! w = Some window → window !! id = Some n ↔ ∃ e, (id, e, w) ∈ g ∧ generation e = n;
  ix_age id e w : (id, e, w) ∈ g → (w < length (history c))%nat;
  ix_order : insertion_order c = slot_order <$> g;
  ix_sorted : StronglySorted ge g.*2;
  ix_history : 1 ≤ zlen (history c) ≤ history_len c;
}.

Lemma slot_ids (g : list Slot) : slot_id <$> g = (g.*1).*1.
Proof. by rewrite <- list_fmap_compose. Qed.
Lemma slot_lookup (g : list Slot) id e :
  NoDup (slot_id <$> g) → (list_to_map g.*1 : gmap bytes CacheEntry) !! id = Some e ↔ ∃ w, (id, e, w) ∈ g.
Proof.
  intros Hn. rewrite slot_ids in Hn. rewrite <- elem_of_list_to_map by done. rewrite list_elem_of_fmap. split.
  - intros ([[i e'] w] & [= -> ->] & H). by exists w.
  - intros [w H]. by exists (id, e, w).
Qed.
Lemma slot_unique (g : list Slot) id e1 w1 e2 w2 :
  NoDup (slot_id <$> g) → (id, e1, w1) ∈ g → (id, e2, w2) ∈ g → e1 = e2 ∧ w1 = w2.
Proof.
  intros Hn H1 H2. apply list_elem_of_lookup in H1 as [i H1], H2 as [j H2].
  assert (i = j) as -> by (eapply NoDup_lookup; [exact Hn| |]; by rewrite list_lookup_fmap, ?H1, ?H2).
  rewrite H1 in H2. by injection H2 as -> ->.
Qed.
Lemma slots_size (g : list Slot) :
  NoDup (slot_id <$> g) → size (list_to_map g.*1 : gmap bytes CacheEntry) = length g.
Proof.
  rewrite slot_ids. intros Hn. rewrite <- length_map_to_list, map_to_list_to_map by done. by rewrite length_fmap.
Qed.

Lemma slot_live c g id e w : indexed c g → (id, e, w) ∈ g → is_live c id (generation e) = true.
Proof.
  intros [] H. unfold is_live. rewrite ix_messages0.
  rewrite (proj2 (slot_lookup g id e ix_nodup0)) by eauto. by apply Z.eqb_refl.
Qed.
Lemma discard_stops c x g : is_live c (slot_id x) (generation x.1.2) = true → discard_loop c (slot_order <$> x :: g) = slot_order <$> x :: g.
Proof. destruct x as [[id e] w]. cbn. by intros ->. Qed.
Lemma discard_skips c dead g :
  (∀ x, x ∈ dead → is_live c (slot_id x) (generation x.1.2) = false) →
  discard_loop c (slot_order <$> dead ++ g) = discard_loop c (slot_order <$> g).
Proof.
  induction dead as [|[[id e] w] dead IH]; intros H; [done|].
  pose proof (H (id, e, w) ltac:(left)) as H0. cbn in *. rewrite H0. cbn.
  apply IH. intros x Hx. apply H. by right.
Qed.
Lemma discard_indexed c g : indexed c g → discard_stale_order_front c = c.
Proof.
  intros Hc. unfold discard_stale_order_front. rewrite (ix_order _ _ Hc).
  assert (discard_loop c (slot_order <$> g) = slot_order <$> g) as ->.
  { destruct g as [|[[id e] w] g]; [done|]. apply discard_stops. eapply slot_live; [done|left]. }
  rewrite <- (ix_order _ _ Hc). by destruct c.
Qed.

(** ** Eviction *)

Lemma remove_from_window id n ws w window :
  ws !! w = Some window → window !! id = Some n →
  (∀ v window', (v < w)%nat → ws !! v = Some window' → window' !! id ≠ Some n) →
  remove_from_windows id n ws = <[w := delete id window]> ws.
Proof.
  revert w. induction ws as [|win ws IH]; intros [|w] Hw Hn Hv; try done; cbn in *.
  - injection Hw as ->. by rewrite bool_decide_eq_true_2.
  - rewrite bool_decide_eq_false_2 by (apply (Hv 0%nat); [lia|done]). f_equal. apply IH; [done|done|].
    intros v window' ? ?. apply (Hv (S v)); [lia|done].
Qed.

Lemma remove_oldest c x g :
  indexed c (x :: g) → indexed (remove_generation (slot_id x) (generation x.1.2) {| c with insertion_order := slot_order <$> g |}) g.
Proof.
  intros Hc. pose proof Hc as [Hn Hm Hw Ha Ho Hs Hh]. destruct x as [[id e] w]. unfold remove_generation.
  assert (is_live {| c with insertion_order := slot_order <$> g |} id (generation e) = true) as Hl
    by (eapply (slot_live c); [done|left]). cbn [slot_id fst snd]. rewrite Hl. cbn.
  destruct (lookup_lt_is_Some_2 (history c) w) as [window Hwin]; [eapply Ha; left|].
  apply NoDup_cons in Hn as [Hid Hn].
  assert (∀ e' w', (id, e', w') ∉ g) as Hout by (intros e' w' H; apply Hid, list_elem_of_fmap; by exists (id, e', w')).
  rewrite (remove_from_window id (generation e) (history c) w window); [|done| |].
  2:{ apply (Hw w window); [done|]. exists e. split; [left|done]. }
  2:{ intros v window' Hv Hwin' H. apply (Hw v window') in H as (e' & H & _); [|done].
      apply elem_of_cons in H as [[= _ ?]|H]; [lia|by eapply Hout]. }
  constructor; cbn; [done| | | |done| |].
  - rewrite Hm. cbn. apply delete_insert_id. apply not_elem_of_list_to_map. by rewrite <- slot_ids.
  - intros v window' id' n Hv. destruct (decide (v = w)) as [->|Hne].
    + rewrite list_lookup_insert_eq in Hv by (by eapply lookup_lt_Some). injection Hv as <-.
      rewrite lookup_delete_Some, (Hw w window id' n Hwin). setoid_rewrite elem_of_cons. split.
      * intros (Hi & e' & [[= -> ->]|H] & <-); [done|eauto].
      * intros (e' & H & <-). split; [intros ->; by eapply Hout|eauto].
    + rewrite list_lookup_insert_ne in Hv by done. rewrite (Hw v window' id' n Hv). setoid_rewrite elem_of_cons. split.
      * intros (e' & [[= -> -> ->]|H] & <-); [done|eauto].
      * intros (e' & H & <-). eauto.
  - intros id' e' w' H. rewrite length_insert. eapply (Ha id' e'). by right.
  - by apply StronglySorted_cons in Hs as [? ?].
  - unfold zlen in *. by rewrite length_insert.
Qed.

Lemma remove_keeps id n c :
  max_messages (remove_generation id n c) = max_messages c ∧ history_len (remove_generation id n c) = history_len c.
Proof. unfold remove_generation. by destruct (is_live _ _ _). Qed.

Lemma evict_oldest g c :
  0 ≤ max_messages c → indexed c g →
  ∃ c', evict_loop (slot_order <$> g) c = Ok c' ∧ indexed c' (drop (length g - Z.to_nat (max_messages c)) g) ∧
    max_messages c' = max_messages c ∧ history_len c' = history_len c.
Proof.
  revert c. induction g as [|x g IH]; intros c Hmax Hc.
  - exists c. pose proof (slots_size [] (ix_nodup _ _ Hc)) as Hsz. cbn. rewrite (ix_messages _ _ Hc).
    rewrite (proj2 (Z.ltb_ge _ _)) by (cbn in *; lia). done.
  - pose proof (slots_size _ (ix_nodup _ _ Hc)) as Hsz. rewrite <- (ix_messages _ _ Hc) in Hsz.
    cbn [evict_loop fmap list_fmap]. rewrite Hsz. destruct (Z.ltb_spec (max_messages c) (Z.of_nat (length (x :: g)))).
    + unfold slot_order at 1. cbn [fst snd]. destruct (remove_keeps x.1.1 (generation x.1.2) {| c with insertion_order := slot_order <$> g |}) as [Hk1 Hk2].
      destruct (IH (remove_generation x.1.1 (generation x.1.2) {| c with insertion_order := slot_order <$> g |})) as (c' & He & Hi & Hm & Hl).
      { by rewrite Hk1. } { by apply (remove_oldest c x g). }
      exists c'. split; [exact He|]. rewrite Hm, Hl, Hk1, Hk2. split; [|done]. rewrite Hk1 in Hi. cbn in Hi, H |- *.
      by replace (S (length g) - Z.to_nat (max_messages c))%nat with (S (length g - Z.to_nat (max_messages c))) by lia.
    + exists c. split; [done|]. split; [|done]. cbn in H. by replace (length (x :: g) - Z.to_nat (max_messages c))%nat with 0%nat by (cbn; lia).
Qed.

(** ** The operations *)

Lemma sorted_snoc_zero l : StronglySorted ge l → StronglySorted ge (l ++ [0%nat]).
Proof.
  induction 1 as [|x l H IH Hx]; cbn; [repeat constructor|]. constructor; [done|]. apply Forall_app. split; [done|]. constructor; [lia|constructor].
Qed.

Lemma put_new c g id m ts :
  0 ≤ max_messages c → indexed c g → id ∉ slot_id <$> g →
  ∃ c' n, put id m ts c = Ok c' ∧ max_messages c' = max_messages c ∧ history_len c' = history_len c ∧
    let g' := g ++ [(id, mkEntry m ts n, 0%nat)] in indexed c' (drop (length g' - Z.to_nat (max_messages c)) g').
Proof.
  intros Hmax Hc Hid. pose proof Hc as [Hn Hm Hw Ha Ho Hs Hh]. set (n := next_generation c). unfold put.
  rewrite bool_decide_eq_false_2; [|intros [e H]; rewrite Hm, slot_lookup in H by done; destruct H as [w H]; apply Hid, list_elem_of_fmap; by exists (id, e, w)].
  destruct (history c) as [|front windows] eqn:Hhist; [rewrite zlen_nil in Hh; lia|]. fold n.
  set (g' := g ++ [(id, mkEntry m ts n, 0%nat)]).
  match goal with |- context [evict_loop (insertion_order ?x)] => set (c1 := x) end.
  assert (indexed c1 g') as Hc1.
  { assert (∀ e w, (id, e, w) ∉ g) as Hout by (intros e w H; apply Hid, list_elem_of_fmap; by exists (id, e, w)).
    unfold g'. constructor; cbn.
    - rewrite fmap_app. apply NoDup_app. split_and!; [done| |apply NoDup_singleton]. intros i Hi ->%list_elem_of_singleton. done.
    - rewrite fmap_app, list_to_map_app, Hm. cbn. rewrite insert_empty. rewrite map_union_comm, <- insert_union_singleton_l; [done|].
      apply map_disjoint_singleton_r. apply not_elem_of_list_to_map. by rewrite <- slot_ids.
    - intros [|w] window id' k Hwin; cbn in Hwin; setoid_rewrite elem_of_app; setoid_rewrite list_elem_of_singleton.
      + injection Hwin as <-. rewrite lookup_insert_Some, (Hw 0%nat front id' k eq_refl). split.
        * intros [[-> <-]|[Hi (e & H & <-)]]; [exists (mkEntry m ts n); auto|eauto].
        * intros (e & [H|[= -> ->]] & <-); [right; split; [intros ->; by eapply Hout|eauto]|by left].
      + rewrite (Hw (S w) window id' k Hwin). split; [intros (e & H & <-); eauto|]. intros (e & [H|[= ]] & <-). eauto.
    - intros i e w [H|H%list_elem_of_singleton]%elem_of_app; [eapply (Ha i e w H)|injection H as -> -> ->; lia].
    - rewrite fmap_app, Ho. done.
    - rewrite fmap_app. by apply sorted_snoc_zero.
    - by rewrite zlen_cons in *. }
  destruct (evict_oldest g' c1 Hmax Hc1) as (c' & He & Hi & Hk1 & Hk2). rewrite (ix_order _ _ Hc1), He. cbn.
  exists (discard_stale_order_front c'), n. rewrite (discard_indexed _ _ Hi). done.
Qed.

Lemma expire_foldl l c :
  let c' := foldl (λ c '(id, n), if is_live c id n then {| c with messages := delete id (messages c) |} else c) c l in
  messages c' = filter (λ x, (x.1, generation x.2) ∉ l) (messages c) ∧ history c' = history c ∧
  insertion_order c' = insertion_order c ∧ history_len c' = history_len c ∧ max_messages c' = max_messages c.
Proof.
  revert c. induction l as [|[id n] l IH]; intros c; cbn.
  - split; [|done]. symmetry. apply map_filter_id. intros. apply not_elem_of_nil.
  - destruct (IH (if is_live c id n then {| c with messages := delete id (messages c) |} else c)) as (Hm & Hrest).
    cbn in Hm. rewrite Hm. unfold is_live in *. split; [|by destruct (messages c !! id) as [e|]; [destruct (_ =? _)|]].
    apply map_eq. intros i. apply option_eq. intros e. rewrite !map_lookup_filter_Some. cbn.
    rewrite not_elem_of_cons. destruct (messages c !! id) as [e'|] eqn:He; [destruct (Z.eqb_spec (generation e') n)|]; cbn;
      rewrite ?lookup_delete_Some; naive_solver.
Qed.

Definition shifted (x : Slot) : Slot := (x.1, S x.2).
Definition young (len : Z) (x : Slot) : Prop := Z.of_nat x.2 < len.
#[local] Instance young_dec len x : Decision (young len x).
Proof. unfold young. apply _. Defined.

Lemma elem_of_shifted (g : list Slot) id e w : (id, e, w) ∈ shifted <$> g ↔ ∃ v, w = S v ∧ (id, e, v) ∈ g.
Proof.
  rewrite list_elem_of_fmap. split.
  - intros ([[i e'] v] & [= -> -> ->] & H). eauto.
  - intros (v & -> & H). by exists (id, e, v).
Qed.
Lemma sorted_shifted (g : list Slot) : StronglySorted ge g.*2 → StronglySorted ge (shifted <$> g).*2.
Proof.
  induction g as [|x g IH]; cbn; [done|]. intros H%StronglySorted_cons. destruct H as [Hx H]. constructor; [auto|].
  rewrite !Forall_fmap in *. eapply Forall_impl; [exact Hx|]. intros y; cbn; lia.
Qed.
Lemma filter_keeps {A} (P : A → Prop) `{!∀ x, Decision (P x)} l : Forall P l → filter P l = l.
Proof. induction 1 as [|x l Hx _ IH]; [done|]. rewrite filter_cons, decide_True by done. by rewrite IH. Qed.
Lemma filter_drops {A} (P : A → Prop) `{!∀ x, Decision (P x)} l : Forall (λ x, ¬ P x) l → filter P l = [].
Proof. induction 1 as [|x l Hx _ IH]; [done|]. by rewrite filter_cons, decide_False by done. Qed.
(** The messages that are kept come after the ones that expire. *)
Lemma young_suffix len (g : list Slot) : StronglySorted ge g.*2 → g = filter (λ x, ¬ young len x) g ++ filter (young len) g.
Proof.
  induction g as [|x g IH]; [done|]. rewrite fmap_cons. intros H%StronglySorted_cons. destruct H as [Hx H]. rewrite !filter_cons.
  destruct (decide (young len x)) as [Hy|Hy].
  - rewrite decide_False by tauto. rewrite Forall_fmap in Hx.
    assert (Forall (young len) g) as Hall by (eapply Forall_impl; [exact Hx|]; unfold young in *; cbn; intros y ?; lia).
    rewrite (filter_keeps (young len)) by done. by rewrite filter_drops by (eapply Forall_impl; [exact Hall|]; tauto).
  - rewrite decide_True by done. cbn. f_equal. auto.
Qed.
Lemma sorted_young len (g : list Slot) : StronglySorted ge g.*2 → StronglySorted ge (filter (young len) g).*2.
Proof.
  induction g as [|x g IH]; [done|]. rewrite fmap_cons. intros H%StronglySorted_cons. destruct H as [Hx H]. rewrite filter_cons. case_decide; [|auto].
  cbn. constructor; [auto|]. rewrite Forall_fmap in *. apply Forall_forall. intros y [_ Hy]%list_elem_of_filter. by apply (proj1 (Forall_forall _ _) Hx).
Qed.

(** A window has been opened. *)
Lemma windows_opened c g w window id n :
  indexed c g → (∅ :: history c) !! w = Some window →
  window !! id = Some n ↔ ∃ e, (id, e, w) ∈ shifted <$> g ∧ generation e = n.
Proof.
  intros Hc Hw. setoid_rewrite elem_of_shifted. destruct w as [|w]; cbn in Hw.
  - injection Hw as <-. rewrite lookup_empty. split; [done|]. by intros (e & (v & ? & _) & _).
  - rewrite (ix_window _ _ Hc w window id n Hw). split; [intros (e & H & <-); eauto|]. intros (e & (v & [= ->] & H) & <-). eauto.
Qed.
Lemma shifted_fst (g : list Slot) : (shifted <$> g).*1 = g.*1.
Proof. rewrite <- list_fmap_compose. by apply list_fmap_ext. Qed.
Lemma shifted_ids (g : list Slot) : slot_id <$> (shifted <$> g) = slot_id <$> g.
Proof. rewrite <- list_fmap_compose. by apply list_fmap_ext. Qed.
Lemma shifted_order (g : list Slot) : slot_order <$> (shifted <$> g) = slot_order <$> g.
Proof. rewrite <- list_fmap_compose. by apply list_fmap_ext. Qed.

Lemma expire_window_filter expired c :
  let c' := expire_window expired c in
  messages c' = filter (λ x, expired !! x.1 ≠ Some (generation x.2)) (messages c) ∧ history c' = history c ∧
  insertion_order c' = insertion_order c ∧ history_len c' = history_len c ∧ max_messages c' = max_messages c.
Proof.
  unfold expire_window. destruct (expire_foldl (btree_iter expired) c) as [-> Hrest]. split; [|done].
  apply map_filter_ext. intros i x _. cbn. by rewrite elem_of_btree_iter.
Qed.

(** The oldest window goes once the history is full. *)
Lemma expire_full c init expired :
  let c1 := {| c with history := ∅ :: init ++ [expired] |} in
  zlen (∅ :: init) = history_len c →
  expire_loop (reverse (history c1)) c1 = expire_window expired {| c with history := ∅ :: init |}.
Proof.
  intros c1 Hlen. unfold c1. cbn [history]. rewrite app_comm_cons, reverse_snoc. cbn [expire_loop history history_len].
  rewrite (proj2 (Z.ltb_lt _ _)) by (rewrite zlen_app; change (zlen [expired]) with 1; lia). rewrite reverse_involutive.
  cbn [messages insertion_order history_len max_messages next_generation].
  set (c2 := expire_window expired {| c with history := ∅ :: init |}).
  destruct (expire_window_filter expired {| c with history := ∅ :: init |}) as (_ & Hh & _ & Hl & _). fold c2 in Hh, Hl.
  destruct (reverse (∅ :: init)) as [|window rest]; [reflexivity|]. cbn [expire_loop]. rewrite Hh, Hl. cbn [history history_len].
  by rewrite (proj2 (Z.ltb_ge _ _)) by lia.
Qed.

Lemma shift_room c g :
  indexed c g → zlen (history c) < history_len c → indexed (shift c) (shifted <$> g) ∧ filter (young (history_len c)) (shifted <$> g) = shifted <$> g.
Proof.
  intros Hc Hroom. pose proof Hc as [Hn Hm Hw Ha Ho Hs Hh].
  assert (indexed {| c with history := ∅ :: history c |} (shifted <$> g)) as Hc1.
  { constructor; cbn.
    - by rewrite shifted_ids.
    - by rewrite shifted_fst.
    - intros w window id n. by apply windows_opened.
    - intros id e w (v & -> & H)%elem_of_shifted. specialize (Ha _ _ _ H). lia.
    - by rewrite shifted_order.
    - by apply sorted_shifted.
    - rewrite zlen_cons. lia. }
  split.
  - unfold shift. cbn [history]. assert (expire_loop (reverse (∅ :: history c)) {| c with history := ∅ :: history c |} = {| c with history := ∅ :: history c |}) as ->.
    { destruct (reverse (∅ :: history c)); [done|]. cbn [expire_loop history history_len]. by rewrite (proj2 (Z.ltb_ge _ _)) by (rewrite zlen_cons; lia). }
    by rewrite (discard_indexed _ _ Hc1).
  - apply filter_keeps. apply Forall_fmap, Forall_forall. intros [[id e] w] H. specialize (Ha _ _ _ H). unfold young, zlen in *. cbn. lia.
Qed.

Lemma young_nodup len (g : list Slot) : NoDup (slot_id <$> g) → NoDup (slot_id <$> filter (young len) g).
Proof. intros Hn. eapply sublist_NoDup; [exact Hn|]. apply fmap_sublist, sublist_filter. Qed.
Lemma filtered_slots (g : list Slot) len (Q : bytes * CacheEntry → Prop) `{!∀ x, Decision (Q x)} :
  NoDup (slot_id <$> g) → (∀ id e w, (id, e, w) ∈ g → Q (id, e) ↔ young len (id, e, w)) →
  filter Q (list_to_map g.*1 : gmap bytes CacheEntry) = list_to_map (filter (young len) g).*1.
Proof.
  intros Hn HQ.
  pose proof (young_nodup len g Hn) as Hn'.
  apply map_eq. intros id. apply option_eq. intros e. rewrite map_lookup_filter_Some, !slot_lookup by done. split.
  - intros [[w Hw] Hq]. exists w. apply list_elem_of_filter. split; [by apply (HQ id e w)|done].
  - intros [w [Hy Hw]%list_elem_of_filter]. split; [eauto|]. by apply (HQ id e w).
Qed.

(** The expired entries are the front of the queue, and all of them are discarded. *)
Lemma discard_expired c len (g : list Slot) :
  NoDup (slot_id <$> g) → StronglySorted ge g.*2 → messages c = list_to_map (filter (young len) g).*1 →
  discard_loop c (slot_order <$> g) = slot_order <$> filter (young len) g.
Proof.
  intros Hn Hs Hm. pose proof (young_nodup len g Hn) as Hn2.
  assert (∀ id e w, (id, e, w) ∈ filter (young len) g → is_live c id (generation e) = true) as Hlive.
  { intros id e w H. unfold is_live. rewrite Hm, (proj2 (slot_lookup _ id e Hn2)) by eauto. by apply Z.eqb_refl. }
  rewrite (young_suffix len g Hs) at 1. rewrite discard_skips.
  - destruct (filter (young len) g) as [|[[id e] w] g2]; [done|]. apply discard_stops. eapply (Hlive id e w). left.
  - intros [[id e] w] [Hy H]%list_elem_of_filter. unfold is_live. cbn.
    destruct (messages c !! id) as [e'|] eqn:He; [|done]. exfalso. rewrite Hm in He. apply slot_lookup in He as [w' [Hy' H']%list_elem_of_filter]; [|done].
    destruct (slot_unique g id e w e' w') as [_ ->]; done.
Qed.

Lemma shift_full c g :
  indexed c g → zlen (history c) = history_len c → indexed (shift c) (filter (young (history_len c)) (shifted <$> g)).
Proof.
  intros Hc Hfull. pose proof Hc as [Hn Hm Hw Ha Ho Hs Hh]. set (len := history_len c) in *.
  destruct (history c) as [|expired init _] eqn:Hhist using rev_ind; [rewrite zlen_nil in *; lia|]. rewrite <- Hhist in *.
  assert (zlen (∅ :: init) = len) as Hlen by (rewrite Hhist, zlen_app in Hfull; rewrite zlen_cons; change (zlen [expired]) with 1 in Hfull; lia).
  unfold shift. rewrite Hhist, (expire_full c init expired Hlen).
  destruct (expire_window_filter expired {| c with history := ∅ :: init |}) as (Hm2 & Hh2 & Ho2 & Hl2 & _).
  set (c2 := expire_window expired {| c with history := ∅ :: init |}) in *. cbn in Hm2, Hh2, Ho2, Hl2.
  set (g2 := filter (young len) (shifted <$> g)).
  assert (NoDup (slot_id <$> g2)) as Hn2.
  { apply young_nodup. by rewrite shifted_ids. }
  assert (messages c2 = list_to_map g2.*1) as Hm3.
  { rewrite Hm2, Hm, <- (shifted_fst g). apply filtered_slots; [by rewrite shifted_ids|]. intros id e w H. cbn.
    rewrite (windows_opened c g (length (∅ :: init)) expired id (generation e) Hc).
    2:{ rewrite Hhist, app_comm_cons. by apply list_lookup_middle. }
    unfold young. cbn [snd]. split.
    - intros Hno. assert (w ≠ length (∅ :: init)) by (intros ->; apply Hno; eauto). apply elem_of_shifted in H as (v & -> & H).
      specialize (Ha _ _ _ H). rewrite Hhist, length_app in Ha. unfold zlen in Hlen. cbn in *. lia.
    - intros Hy (e' & H' & _). apply (slot_unique _ id e w e' _) in H' as [_ ->]; [|by rewrite shifted_ids|done]. unfold zlen in Hlen. lia. }
  assert (discard_stale_order_front c2 = {| c2 with insertion_order := slot_order <$> g2 |}) as ->.
  { unfold discard_stale_order_front. rewrite Ho2, Ho, <- (shifted_order g), (discard_expired c2 len (shifted <$> g)); [done|by rewrite shifted_ids|by apply sorted_shifted|done]. }
  constructor; cbn; [done|done| | |done| |].
  - intros w window id n Hwin. rewrite Hh2 in Hwin.
    assert (w < length (∅ :: init))%nat as Hlt by (by eapply lookup_lt_Some).
    rewrite (windows_opened c g w window id n Hc) by (rewrite Hhist, app_comm_cons, lookup_app_l by done; exact Hwin).
    split; intros (e & H & <-); exists e; (split; [|done]).
    + apply list_elem_of_filter. split; [|done]. unfold young. cbn [snd]. unfold zlen in Hlen. lia.
    + by apply list_elem_of_filter in H as [_ ?].
  - intros id e w [Hy H]%list_elem_of_filter. rewrite Hh2. unfold young in Hy. cbn [snd] in Hy. unfold zlen in Hlen. lia.
  - by apply sorted_young, sorted_shifted.
  - rewrite Hh2, Hl2. unfold len in *. lia.
Qed.

Lemma shift_indexed c g : indexed c g → indexed (shift c) (filter (young (history_len c)) (shifted <$> g)).
Proof.
  intros Hc. destruct (Z.eq_dec (zlen (history c)) (history_len c)); [by apply shift_full|].
  destruct (shift_room c g Hc) as [Hi ->]; [|done]. pose proof (ix_history _ _ Hc). lia.
Qed.

Lemma expire_keeps l c : history_len (expire_loop l c) = history_len c ∧ max_messages (expire_loop l c) = max_messages c.
Proof.
  revert c. induction l as [|expired l IH]; intros c; cbn; [done|]. destruct (_ <? _); [|done].
  destruct (expire_window_filter expired {| c with history := reverse l |}) as (_ & _ & _ & Hl & Hm).
  destruct (IH (expire_window expired {| c with history := reverse l |})) as [-> ->]. done.
Qed.
Lemma shift_keeps c : history_len (shift c) = history_len c ∧ max_messages (shift c) = max_messages c.
Proof. apply (expire_keeps _ {| c with history := ∅ :: history c |}). Qed.

(** ** The refinement *)

(** The cache stands for the queue [q]. *)
Definition cache_refines (len max : Z) (c : MessageCache) (q : list Aged) : Prop :=
  history_len c = len ∧ max_messages c = max ∧ Z.of_nat (length q) ≤ max ∧ ∃ g, indexed c g ∧ q = aged <$> g.

Lemma aged_ids (g : list Slot) : aged_id <$> (aged <$> g) = slot_id <$> g.
Proof. rewrite <- list_fmap_compose. by apply list_fmap_ext. Qed.
Lemma aged_shifted len (g : list Slot) : aged <$> filter (young len) (shifted <$> g) = spec_shift len (aged <$> g).
Proof.
  unfold spec_shift. induction g as [|x g IH]; [done|]. rewrite !fmap_cons, !filter_cons.
  destruct (decide (young len (shifted x))) as [Hy|Hy], (decide (Z.of_nat (age (older (aged x))) < len));
    [rewrite fmap_cons; by f_equal|done|done|exact IH].
Qed.

Lemma new_refines len max : 1 ≤ len → 0 ≤ max → cache_refines len max (MessageCache_new len max) [].
Proof.
  intros Hl Hm. split_and!; [done|done|done|]. exists []. split; [|done]. constructor; cbn; [constructor|done| | |done|constructor|unfold zlen; cbn; lia].
  - intros [|w] window id n [= <-]. rewrite lookup_empty. split; [done|]. intros (e & H & _). by apply elem_of_nil in H.
  - intros id e w H. by apply elem_of_nil in H.
Qed.

Lemma step_refines len max c q op :
  0 ≤ max → cache_refines len max c q →
  ∃ c', cache_step op c = Ok c' ∧ cache_refines len max c' (spec_step len max q op).
Proof.
  intros H0 (Hl & Hm & Hq & g & Hc & ->). rewrite length_fmap in Hq. destruct op as [id m ts|]; cbn.
  - unfold spec_put. case_bool_decide as Hid; rewrite aged_ids in Hid.
    + exists c. split.
      * unfold put. rewrite bool_decide_eq_true_2; [done|]. apply list_elem_of_fmap in Hid as ([[i e] w] & -> & H).
        exists e. rewrite (ix_messages _ _ Hc). apply slot_lookup; [apply Hc|]. by exists w.
      * split_and!; [done|done|by rewrite length_fmap|]. by exists g.
    + destruct (put_new c g id m ts) as (c' & n & Hp & Hm' & Hl' & Hi); [by rewrite Hm|done|done|]. cbn zeta in Hi.
      exists c'. split; [done|]. rewrite Hm in *. split_and!; [congruence|congruence|rewrite length_drop; lia|].
      eexists. split; [exact Hi|]. rewrite fmap_drop, fmap_app. by rewrite !length_app, !length_fmap.
  - exists (shift c). split; [done|]. destruct (shift_keeps c) as [Hl' Hm']. unfold cache_refines. rewrite Hl', Hm'. split_and!; [done|done| |].
    + unfold spec_shift. etrans; [apply inj_le, length_filter|]. by rewrite !length_fmap.
    + exists (filter (young (history_len c)) (shifted <$> g)). split; [by apply shift_indexed|]. by rewrite aged_shifted, Hl.
Qed.

Lemma get_refines c g id : indexed c g → get c id = spec_get (aged <$> g) id.
Proof.
  intros Hc. unfold get, spec_get. rewrite (ix_messages _ _ Hc). clear Hc. induction g as [|[[i e] w] g IH]; [done|].
  rewrite !fmap_cons, filter_cons. cbn [list_to_map foldr aged aged_id fst snd]. destruct (decide (i = id)) as [->|Hne].
  - cbn. by rewrite lookup_insert_eq.
  - cbn. rewrite lookup_insert_ne by done. exact IH.
Qed.
Lemma gossip_refines c g topic windows :
  indexed c g → gossip_ids c topic windows = spec_gossip (aged <$> g) topic windows.
Proof.
  intros Hc. pose proof Hc as [Hn Hm Hw Ha _ _ _]. unfold gossip_ids, spec_gossip. f_equal. apply leibniz_equiv. intros id.
  rewrite !elem_of_list_to_set, list_elem_of_omap, list_elem_of_fmap. split.
  - intros ([i n] & (window & Hit & Hwin)%list_elem_of_bind & H).
    destruct (messages c !! i) as [e|] eqn:He; [|done]. destruct (Z.eqb_spec (generation e) n); [|done]. case_bool_decide as Ht; [|done]. injection H as ->.
    apply list_elem_of_lookup in Hwin as [w Hwin]. apply lookup_take_Some in Hwin as [Hwin Hlt].
    apply elem_of_btree_iter in Hit. apply (proj1 (Hw w window id n Hwin)) in Hit. destruct Hit as (e' & H & _).
    rewrite Hm in He. apply slot_lookup in He as [w' H']; [|done]. destruct (slot_unique g id e w' e' w) as [-> ->]; [done..|].
    exists (aged (id, e', w)). split; [done|]. apply list_elem_of_filter. split; [cbn; split; [lia|done]|]. apply list_elem_of_fmap. by exists (id, e', w).
  - intros (x & -> & [[Hlt Ht] H]%list_elem_of_filter). apply list_elem_of_fmap in H as ([[i e] w] & -> & H). cbn in *.
    destruct (lookup_lt_is_Some_2 (history c) w (Ha _ _ _ H)) as [window Hwin]. exists (i, generation e). split.
    + apply list_elem_of_bind. exists window. split; [apply elem_of_btree_iter, (Hw w window i _ Hwin); eauto|].
      apply list_elem_of_lookup. exists w. apply lookup_take_Some. split; [done|lia].
    + assert (messages c !! i = Some e) as -> by (rewrite Hm; apply slot_lookup; eauto).
      by rewrite Z.eqb_refl, bool_decide_eq_true_2.
Qed.

(** C16: The message cache is a queue of messages with ages.  Whatever is put
    and however often the heartbeat shifts, the cache returns (its [expect] and
    its eviction loop never fail), holds at most [max_messages] messages, serves
    exactly the messages of the queue, and announces for a topic exactly the
    ids of its messages younger than the asked number of heartbeats: a message
    is kept until [history_len] heartbeats have passed or [max_messages] newer
    ones have come, and the oldest goes first. *)
Theorem message_cache_is_a_queue len max ops :
  1 ≤ len → 0 ≤ max →
  ∃ c, cache_run ops (MessageCache_new len max) = Ok c ∧
    let q := foldl (spec_step len max) [] ops in
    Z.of_nat (size (messages c)) ≤ max ∧
    (∀ id, get c id = spec_get q id) ∧
    ∀ topic windows, gossip_ids c topic windows = spec_gossip q topic windows.
Proof.
  intros Hlen Hmax.
  assert (∀ c q, cache_refines len max c q →
    ∃ c', cache_run ops c = Ok c' ∧ cache_refines len max c' (foldl (spec_step len max) q ops)) as Hrun.
  { induction ops as [|op ops IH]; intros c q Hr; [by exists c|]. cbn.
    destruct (step_refines len max c q op Hmax Hr) as (c1 & -> & Hr1). cbn. by apply IH. }
  destruct (Hrun _ _ (new_refines len max Hlen Hmax)) as (c & Hc & _ & _ & Hq & g & Hi & Hg). exists c. split; [done|]. cbn zeta. rewrite Hg in *.
  split_and!; [|intros id; by apply get_refines|intros topic windows; by apply gossip_refines].
  rewrite (ix_messages _ _ Hi), (slots_size g (ix_nodup _ _ Hi)). by rewrite length_fmap in Hq.
Qed.

Lemma message_cache_is_a_queue_witness :
  ∃ c, cache_run [Put [x01] RawMessage_default [str "t"]; Shift; Put [x02] RawMessage_default [str "t"]; Put [x03] RawMessage_default []]
      (MessageCache_new 2 2) = Ok c ∧ get c [x01] = None ∧ get c [x02] = Some RawMessage_default ∧ gossip_ids c (str "t") 1 = [[x02]].
Proof.
  destruct (message_cache_is_a_queue 2 2 [Put [x01] RawMessage_default [str "t"]; Shift; Put [x02] RawMessage_default [str "t"]; Put [x03] RawMessage_default []])
    as (c & Hc & _ & Hg & Hi); [lia|lia|]. exists c. split; [exact Hc|]. rewrite !Hg, Hi. vm_compute. auto.
Defined.
