(* ===== verification/Floodsub.v ===== *)
(** The floodsub router, from [crates/pubsub/src/config.rs] and
    [crates/pubsub/src/agent.rs]: subscriptions and their announcement, signed
    publishing, forwarding of what arrives, and the one-shot senders. The agent
    performs no I/O: it is fed the events of the swarm, and queues actions for
    its host and events for the application. *)

From Stdlib Require Import Strings.Byte.
From S2P Require Import Prelude Varint Frame Proto Base58 PeerIdentity Multiaddr Keys Swarm.
From S2P Require Import PubsubMessage PubsubTypes Seen.

Record FloodsubConfig := mkFloodsubConfig {
  seen_ttl_ms : Z;
  max_seen_messages : Z;
  max_pending_per_peer : Z;
  max_topics_per_peer : Z;
  max_inbound_streams_per_peer : Z;
  send_timeout_ms : Z;
  allow_unsigned : bool;
}.
Definition FloodsubConfig_default : FloodsubConfig :=
  {| seen_ttl_ms := 120000; max_seen_messages := 4096; max_pending_per_peer := 32; max_topics_per_peer := 256;
     max_inbound_streams_per_peer := 4; send_timeout_ms := 10000; allow_unsigned := false |}.

(** The work of a sender in flight. *)
Inductive OutboundWork :=
  | Subscriptions (frame : bytes) (snapshot : gset bytes)
  | Publish (frame : bytes).
Definition work_frame (w : OutboundWork) : bytes := match w with Subscriptions frame _ | Publish frame => frame end.
Definition describe (w : OutboundWork) : bytes :=
  match w with Subscriptions _ _ => str "subscription update" | Publish _ => str "message" end.

Inductive SendState :=
  | Idle
  | Opening (token since_ms : Z) (work : OutboundWork)
  | Negotiating (send_token stream_id since_ms : Z) (work : OutboundWork)
  | AwaitingClose (send_token stream_id since_ms : Z) (work : OutboundWork).
Definition since_ms (s : SendState) : option Z :=
  match s with Idle => None | Opening _ since _ | Negotiating _ _ since _ | AwaitingClose _ _ since _ => Some since end.
Definition work_of (s : SendState) : option OutboundWork :=
  match s with Idle => None | Opening _ _ work | Negotiating _ _ _ work | AwaitingClose _ _ _ work => Some work end.

Record PeerState := mkPeerState {
  sender : SendState;
  pending : list bytes;
  sent_topics : gset bytes;
  inbound : gmap Z bytes;
  remote_topics : gset bytes;
}.
Definition PeerState_default : PeerState :=
  {| sender := Idle; pending := []; sent_topics := ∅; inbound := ∅; remote_topics := ∅ |}.

Definition queued_work (state : PeerState) : Z :=
  zlen (pending state) + match work_of (sender state) with Some (Subscriptions _ _) => 1 | _ => 0 end.

Section Floodsub.
Context `{SigningCrate} `{HC : HashCrates Multihash} `{!EqDecision Multihash} `{!Countable Multihash}.
Abbreviation PeerId := (PeerIdentity.PeerId (Multihash := Multihash)).
Abbreviation SwarmEvent := (Swarm.SwarmEvent (Multihash := Multihash)).
Abbreviation PubsubAction := (PubsubTypes.PubsubAction (Multihash := Multihash)).
Abbreviation PubsubEvent := (PubsubTypes.PubsubEvent (Multihash := Multihash)).

(** The order of peer identifiers is that of the [multihash] crate. *)
Context `{!BTreeKey PeerId}.

Record FloodsubAgent := mkFloodsub {
  keypair : Ed25519Keypair;
  local_peer_id : PeerId;
  config : FloodsubConfig;
  actions : list PubsubAction;
  events : list PubsubEvent;
  topics : gset bytes;
  peers : gmap PeerId PeerState;
  roles : gmap PeerId (gmap Z StreamRole);
  next_token : Z;
  next_seqno : Z;
  seen : SeenCache;
}.

Definition Floodsub_new (keypair : Ed25519Keypair) (config : FloodsubConfig) (initial_seqno : Z) : res Empty_set FloodsubAgent :=
  local_peer_id ← no_error (keypair_peer_id keypair);
  Ok {| keypair := keypair; local_peer_id := local_peer_id; config := config; actions := []; events := []; topics := ∅;
        peers := ∅; roles := ∅; next_token := 0; next_seqno := initial_seqno; seen := SeenCache_default |}.

Abbreviation F := (M FloodsubAgent Empty_set).

Definition push_action (a : PubsubAction) : F unit := modify (λ s, {| s with actions := actions s ++ [a] |}).
Definition push_event (e : PubsubEvent) : F unit := modify (λ s, {| s with events := events s ++ [e] |}).
(** [if let Some(state) = self.peers.get_mut(peer)]. *)
Definition on_state (peer : PeerId) (f : PeerState → PeerState) : F unit := modify (λ s, {| s with peers := alter f peer (peers s) |}).

(** ** Streams *)

Definition role (s : FloodsubAgent) (peer : PeerId) (stream_id : Z) : option StreamRole :=
  match roles s !! peer with Some streams => streams !! stream_id | None => None end.
Definition owns_stream (s : FloodsubAgent) (peer : PeerId) (stream_id : Z) : bool := bool_decide (is_Some (role s peer stream_id)).

(** [self.roles.entry(peer.clone()).or_default().insert(stream_id, r)]. *)
Definition set_role (peer : PeerId) (stream_id : Z) (r : StreamRole) : F unit :=
  modify (λ s, {| s with roles := <[peer := <[stream_id := r]> (default ∅ (roles s !! peer))]> (roles s) |}).

Definition reject_stream (peer : PeerId) (stream_id : Z) : F unit :=
  _ ← push_action (PubsubTypes.ResetStream peer stream_id);
  _ ← set_role peer stream_id Rejected;
  on_state peer (λ state, {| state with inbound := delete stream_id (inbound state) |}).

Definition violation_reset (peer : PeerId) (stream_id : Z) (reason : Reason) : F unit :=
  _ ← push_event (ProtocolViolation peer reason);
  reject_stream peer stream_id.

(** ** Senders *)

Definition subscription_entry (subscribe : bool) (topic : bytes) : SubOpts := mkSubOpts (Some subscribe) (Some topic).
(** The RPC that announces how [current] differs from [sent]. *)
Definition diff_rpc (sent current : gset bytes) : Rpc :=
  mkRpc ((subscription_entry true <$> set_iter (current ∖ sent)) ++ (subscription_entry false <$> set_iter (sent ∖ current))) [] None.

Definition next_work (s : FloodsubAgent) (state : PeerState) : res Empty_set (option OutboundWork) :=
  if negb (bool_decide (sent_topics state = topics s)) then
    frame ← pub_encode_frame (Rpc_encode (diff_rpc (sent_topics state) (topics s)));
    Ok (Some (Subscriptions frame (topics s)))
  else Ok (Publish <$> head (pending state)).

Definition drive_sender (peer : PeerId) (now_ms : Z) : F unit :=
  s ← gets id;
  match peers s !! peer with
  | Some state =>
      match sender state with
      | Idle =>
          work ← lift (next_work s state);
          match work with
          | Some work =>
              let token := next_token s in
              next ← lift (add_or_panic u64_max token 1);
              _ ← modify (λ s, {| s with next_token := next |});
              _ ← on_state peer (λ state, {| state with sender := Opening token now_ms work |});
              push_action (PubsubTypes.OpenStream token peer FLOODSUB_PROTOCOL_ID)
          | None => mret tt
          end
      | _ => mret tt
      end
  | None => mret tt
  end.

Definition drive_all_senders (now_ms : Z) : F unit :=
  ps ← gets (λ s, btree_keys (peers s));
  for_each (λ peer, drive_sender peer now_ms) ps.

Definition fail_in_flight (peer : PeerId) (work : OutboundWork) (why : bytes) (detail : option bytes) : F unit :=
  _ ← match work with
      | Publish _ => on_state peer (λ state, {| state with pending := tail (pending state) |})
      | Subscriptions _ _ => mret tt
      end;
  push_event (OutboundFailure peer (RDiscarded (describe work) why detail)).

(** [core::mem::take(&mut state.sender)]. *)
Definition take_sender (peer : PeerId) : F unit := on_state peer (λ state, {| state with sender := Idle |}).

(** ** The calls of the application *)

Definition subscribe (topic : bytes) (now_ms : Z) : F (res TopicError bool) :=
  match validate_topic topic with
  | Ok _ =>
      s ← gets id;
      if bool_decide (topic ∈ topics s) then mret (Ok false)
      else
        let rpc := mkRpc (subscription_entry true <$> set_iter (topics s) ++ [topic]) [] None in
        if MAX_RPC_SIZE / 2 <? zlen (Rpc_encode rpc) then mret (Err SetTooLarge)
        else
          _ ← modify (λ s, {| s with topics := {[topic]} ∪ topics s |});
          _ ← drive_all_senders now_ms;
          mret (Ok true)
  | Err e => mret (Err e)
  | Panic => lift Panic
  | Diverge => lift Diverge
  end.

Definition unsubscribe (topic : bytes) (now_ms : Z) : F bool :=
  s ← gets id;
  if negb (bool_decide (topic ∈ topics s)) then mret false
  else
    _ ← modify (λ s, {| s with topics := topics s ∖ {[topic]} |});
    _ ← drive_all_senders now_ms;
    mret true.

Definition peer_has (P : PeerState → bool) (s : FloodsubAgent) (peer : PeerId) : bool :=
  match peers s !! peer with Some state => P state | None => false end.
Definition subscribed_to (topic : bytes) (state : PeerState) : bool := bool_decide (topic ∈ remote_topics state).
Definition is_full (s : FloodsubAgent) (state : PeerState) : bool := max_pending_per_peer (config s) <=? zlen (pending state).

Definition record_seen (id : MessageId) (now_ms : Z) : F unit :=
  modify (λ s, {| s with seen := (Seen.insert id now_ms (seen_ttl_ms (config s)) (max_seen_messages (config s)) (seen s)).1 |}).

(** [state.pending.push_back(frame.clone())]. *)
Definition push_pending (peer : PeerId) (frame : bytes) : F unit :=
  on_state peer (λ state, {| state with pending := pending state ++ [frame] |}).

Definition publish (topic data : bytes) (now_ms : Z) : F (res PublishError unit) :=
  match validate_topic topic with
  | Ok _ =>
      s ← gets id;
      let recipients := filter (λ p, Is_true (peer_has (subscribed_to topic) s p)) (btree_keys (peers s)) in
      if existsb (peer_has (is_full s) s) recipients then mret (Err Backpressure)
      else
        let seqno := next_seqno s in
        message ← lift (build_signed (Multihash := Multihash) (keypair s) topic data seqno);
        let body := Rpc_encode (mkRpc [] [message] None) in
        if MAX_RPC_SIZE <? zlen body then mret (Err PublishTooLarge)
        else
          _ ← modify (λ s, {| s with next_seqno := wrapping_add u64_max (next_seqno s) 1 |});
          _ ← record_seen (seen_message_id (to_bytes (local_peer_id s)) (be_bytes 8 seqno) true) now_ms;
          frame ← lift (pub_encode_frame body);
          _ ← for_each (λ peer, _ ← push_pending peer frame; drive_sender peer now_ms) recipients;
          mret (Ok tt)
  | Err e => mret (Err (PublishTopic e))
  | Panic => lift Panic
  | Diverge => lift Diverge
  end.

(** ** Connections *)

Definition drop_peer_work (peer : PeerId) (cause : bytes) : F unit :=
  s ← gets id;
  match peers s !! peer with
  | Some state =>
      if 0 <? queued_work state then push_event (OutboundFailure peer (RDropped cause (queued_work state))) else mret tt
  | None => mret tt
  end.

Definition on_connection_established (peer : PeerId) : F unit :=
  s ← gets id;
  if bool_decide (is_Some (peers s !! peer)) then
    _ ← drop_peer_work peer (str "connection superseded");
    modify (λ s, {| s with roles := delete peer (roles s); peers := <[peer := PeerState_default]> (peers s) |})
  else mret tt.

Definition on_connection_closed (peer : PeerId) : F unit :=
  s ← gets id;
  if bool_decide (is_Some (peers s !! peer)) then
    _ ← drop_peer_work peer (str "connection closed");
    modify (λ s, {| s with roles := delete peer (roles s); peers := delete peer (peers s) |})
  else mret tt.

(** [self.peers.entry(peer.clone()).or_default()]. *)
Definition entry_or_default (peer : PeerId) : F unit :=
  modify (λ s, {| s with peers := <[peer := default PeerState_default (peers s !! peer)]> (peers s) |}).

(** ** Received RPCs *)

(** The subscriptions of an RPC applied to the topics of a peer, and whether
    one of them was skipped. *)
Definition apply_sub (acc : gset bytes * bool) (sub : SubOpts) : gset bytes * bool :=
  match subscribe_opt sub, sub_topic sub with
  | Some subscribe, Some topic =>
      if topic_ok topic then (if subscribe : bool then {[topic]} ∪ acc.1 else acc.1 ∖ {[topic]}, acc.2)
      else (acc.1, true)
  | _, _ => acc
  end.
Definition apply_subs (remote : gset bytes) (subs : list SubOpts) : gset bytes * bool := foldl apply_sub (remote, false) subs.

Definition process_message (arrival : PeerId) (message : RawMessage) (now_ms : Z) : F unit :=
  s ← gets id;
  match verify_message message (allow_unsigned (config s)) with
  | Ok (from, seqno, signed) =>
      let seen_id := seen_message_id (to_bytes from) seqno signed in
      if contains seen_id (seen s) then mret tt
      else
        _ ← record_seen seen_id now_ms;
        _ ← (if existsb (λ t, bool_decide (t ∈ topics s)) (topic_ids message)
             then push_event (Message from (topic_ids message) (default [] (msg_data message)) seqno signed)
             else mret tt);
        frame ← lift (pub_encode_frame (Rpc_encode (mkRpc [] [message] None)));
        let wants (state : PeerState) := existsb (λ t, subscribed_to t state) (topic_ids message) in
        let recipients := filter (λ p, p ≠ arrival ∧ p ≠ from ∧ Is_true (peer_has wants s p)) (btree_keys (peers s)) in
        for_each (λ peer,
          s ← gets id;
          match peers s !! peer with
          | Some state =>
              if is_full s state then mret tt
              else
                _ ← push_pending peer frame;
                drive_sender peer now_ms
          | None => mret tt
          end) recipients
  | Err e => push_event (ProtocolViolation arrival (RRejected e))
  | Panic => lift Panic
  | Diverge => lift Diverge
  end.

Definition process_rpc (peer : PeerId) (stream_id : Z) (rpc : Rpc) (now_ms : Z) : F bool :=
  let messages :=
    _ ← for_each (λ message, process_message peer message now_ms) (rpc_publish rpc);
    mret true in
  if bool_decide (subscriptions rpc = []) then messages
  else
    s ← gets id;
    match peers s !! peer with
    | Some state =>
        let '(candidate, skipped_invalid) := apply_subs (remote_topics state) (subscriptions rpc) in
        if max_topics_per_peer (config s) <? Z.of_nat (size candidate) then
          _ ← violation_reset peer stream_id (RText (str "subscription set exceeds the bound"));
          mret false
        else
          _ ← on_state peer (λ state, {| state with remote_topics := candidate |});
          _ ← (if skipped_invalid : bool
               then push_event (ProtocolViolation peer (RText (str "subscription entries with invalid topics skipped")))
               else mret tt);
          _ ← for_each (λ topic, push_event (PeerSubscribed peer topic)) (set_iter (candidate ∖ remote_topics state));
          _ ← for_each (λ topic, push_event (PeerUnsubscribed peer topic)) (set_iter (remote_topics state ∖ candidate));
          messages
    | None => mret true
    end.

(** ** The streams of a peer *)

(** The buffer of an inbound stream. *)
Definition buffer (s : FloodsubAgent) (peer : PeerId) (stream_id : Z) : option bytes :=
  match peers s !! peer with Some state => inbound state !! stream_id | None => None end.

Definition take_frame (peer : PeerId) (stream_id head : Z) (s : FloodsubAgent) : option (bytes * Z + Reason) :=
  match buffer s peer stream_id with
  | Some buf =>
      match get_from buf head with
      | Some tail =>
          match pub_decode_frame tail with
          | Complete payload consumed => Some (inl (payload, consumed))
          | Incomplete => None
          | TooLarge len => Some (inr (RFrame len))
          | FrameError e => Some (inr (RMalformedFrame e))
          end
      | None => None
      end
  | None => None
  end.

(** [while let Some(step) = self.take_frame(..)]. [None] is a [return] of the
    whole handler; every frame takes bytes of the buffer, so its length is
    enough fuel. *)
Fixpoint frames_loop (fuel : nat) (peer : PeerId) (stream_id now_ms head : Z) : F (option Z) :=
  match fuel with
  | O => lift Diverge
  | S fuel =>
      step ← gets (take_frame peer stream_id head);
      match step with
      | Some (inl (payload, consumed)) =>
          head ← lift (add_or_panic usize_max head consumed);
          match decode_floodsub payload with
          | Ok rpc =>
              go_on ← process_rpc peer stream_id rpc now_ms;
              if go_on : bool then frames_loop fuel peer stream_id now_ms head else mret None
          | Err e =>
              _ ← violation_reset peer stream_id (RMalformedRpc e);
              mret None
          | Panic => lift Panic
          | Diverge => lift Diverge
          end
      | Some (inr reason) =>
          _ ← violation_reset peer stream_id reason;
          mret None
      | None => mret (Some head)
      end
  end.

Definition set_buffer (peer : PeerId) (stream_id : Z) (buf : bytes) : F unit :=
  on_state peer (λ state, {| state with inbound := <[stream_id := buf]> (inbound state) |}).

(** [while offset < data.len()]: [data] is what is left of it. Every round takes
    a byte or returns. *)
Fixpoint data_loop (fuel : nat) (peer : PeerId) (stream_id now_ms : Z) (data : bytes) : F unit :=
  match fuel with
  | O => lift Diverge
  | S fuel =>
      if bool_decide (data = []) then mret tt
      else
        s ← gets id;
        match buffer s peer stream_id with
        | Some buf =>
            let room := saturating_sub CAP (zlen buf) in
            if room =? 0 then violation_reset peer stream_id (RText (str "inbound buffer overflow"))
            else
              let n := Z.to_nat (Z.min room (zlen data)) in
              let buf := buf ++ take n data in
              _ ← set_buffer peer stream_id buf;
              head ← frames_loop (S (length buf)) peer stream_id now_ms 0;
              match head with
              | Some head =>
                  s ← gets id;
                  _ ← match buffer s peer stream_id with
                      | Some buf => if 0 <? head then buf ← lift (drain_front buf head); set_buffer peer stream_id buf else mret tt
                      | None => mret tt
                      end;
                  data_loop fuel peer stream_id now_ms (drop n data)
              | None => mret tt
              end
        | None => mret tt
        end
  end.

Definition on_stream_data (peer : PeerId) (stream_id : Z) (data : bytes) (now_ms : Z) : F bool :=
  s ← gets id;
  match role s peer stream_id with
  | Some Inbound =>
      _ ← data_loop (S (length data)) peer stream_id now_ms data;
      mret true
  | Some _ => mret true
  | None => mret false
  end.

Definition on_stream_ready (peer : PeerId) (stream_id : Z) (protocol_id : bytes) (initiated_locally : bool) : F bool :=
  s ← gets id;
  if initiated_locally then
    match sender <$> peers s !! peer with
    | Some (Negotiating send_token expected since work) =>
        if negb (expected =? stream_id) then mret (owns_stream s peer stream_id)
        else
          _ ← push_action (PubsubTypes.SendStream send_token peer stream_id (work_frame work));
          _ ← push_action (PubsubTypes.CloseStreamWrite peer stream_id);
          _ ← on_state peer (λ state, {| state with sender := AwaitingClose send_token stream_id since work |});
          mret true
    | _ => mret (owns_stream s peer stream_id)
    end
  else if negb (bool_decide (protocol_id = FLOODSUB_PROTOCOL_ID)) then mret (owns_stream s peer stream_id)
  else
    _ ← entry_or_default peer;
    s ← gets id;
    if max_inbound_streams_per_peer (config s) <=? Z.of_nat (size (inbound (default PeerState_default (peers s !! peer)))) then
      _ ← push_event (ProtocolViolation peer (RText (str "too many concurrent inbound streams")));
      _ ← reject_stream peer stream_id;
      mret true
    else
      _ ← set_buffer peer stream_id [];
      _ ← set_role peer stream_id Inbound;
      mret true.

Definition on_stream_remote_write_closed (peer : PeerId) (stream_id : Z) : F bool :=
  s ← gets id;
  match role s peer stream_id with
  | Some Inbound =>
      let leftover := match buffer s peer stream_id with Some buf => negb (bool_decide (buf = [])) | None => false end in
      _ ← on_state peer (λ state, {| state with inbound := delete stream_id (inbound state) |});
      if leftover then
        _ ← violation_reset peer stream_id (RText (str "EOF inside a frame"));
        mret true
      else
        _ ← push_action (PubsubTypes.CloseStreamWrite peer stream_id);
        mret true
  | Some _ => mret true
  | None => mret false
  end.

(** The only place where work is committed. *)
Definition commit (peer : PeerId) (work : OutboundWork) : F unit :=
  match work with
  | Subscriptions _ snapshot => on_state peer (λ state, {| state with sent_topics := snapshot |})
  | Publish _ => on_state peer (λ state, {| state with pending := tail (pending state) |})
  end.

Definition on_outbound_closed (peer : PeerId) (stream_id now_ms : Z) : F unit :=
  s ← gets id;
  match sender <$> peers s !! peer with
  | Some (AwaitingClose _ expected _ work) =>
      if expected =? stream_id then
        _ ← take_sender peer;
        _ ← commit peer work;
        drive_sender peer now_ms
      else mret tt
  | Some (Negotiating _ expected _ work) =>
      if expected =? stream_id then
        _ ← take_sender peer;
        _ ← fail_in_flight peer work (str "stream closed before send") None;
        drive_sender peer now_ms
      else mret tt
  | _ => mret tt
  end.

(** A peer with no stream left has no entry. *)
Definition forget_role (peer : PeerId) (stream_id : Z) : F unit :=
  modify (λ s, {| s with roles :=
    match roles s !! peer with
    | Some streams =>
        let streams := delete stream_id streams in
        if bool_decide (streams = ∅) then delete peer (roles s) else <[peer := streams]> (roles s)
    | None => roles s
    end |}).

Definition on_stream_closed (peer : PeerId) (stream_id now_ms : Z) : F bool :=
  s ← gets id;
  match role s peer stream_id with
  | Some r =>
      _ ← forget_role peer stream_id;
      _ ← match r with
          | Outbound => on_outbound_closed peer stream_id now_ms
          | Inbound => on_state peer (λ state, {| state with inbound := delete stream_id (inbound state) |})
          | Rejected => mret tt
          end;
      mret true
  | None => mret false
  end.

(** ** What the host reports *)

Definition handle_event (event : SwarmEvent) (now_ms : Z) : F bool :=
  match event with
  | ConnectionEstablished peer_id _ => _ ← on_connection_established peer_id; mret false
  | ConnectionClosed peer_id _ _ => _ ← on_connection_closed peer_id; mret false
  | PeerReady peer_id protocols =>
      _ ← (if bool_decide (FLOODSUB_PROTOCOL_ID ∈ protocols) then
             _ ← entry_or_default peer_id;
             drive_sender peer_id now_ms
           else mret tt);
      mret false
  | StreamReady peer_id _ stream_id protocol_id initiated_locally =>
      on_stream_ready peer_id stream_id protocol_id initiated_locally
  | StreamData peer_id _ stream_id data => on_stream_data peer_id stream_id data now_ms
  | StreamRemoteWriteClosed peer_id _ stream_id => on_stream_remote_write_closed peer_id stream_id
  | StreamClosed peer_id _ stream_id => on_stream_closed peer_id stream_id now_ms
  | _ => mret false
  end.

Definition send_result (peer : PeerId) (stream_id token : Z) (result : unit + bytes) (now_ms : Z) : F unit :=
  s ← gets id;
  match sender <$> peers s !! peer, result with
  | Some (AwaitingClose send_token expected _ work), inr reason =>
      if (expected =? stream_id) && (send_token =? token) then
        _ ← take_sender peer;
        _ ← reject_stream peer stream_id;
        _ ← fail_in_flight peer work (str "send failed") (Some reason);
        drive_sender peer now_ms
      else mret tt
  | _, _ => mret tt
  end.

Definition stream_open_result (peer : PeerId) (token : Z) (result : Z + bytes) : F unit :=
  s ← gets id;
  let retired := match result with inl stream_id => reject_stream peer stream_id | inr _ => mret tt end in
  match sender <$> peers s !! peer with
  | Some (Opening expected since work) =>
      if negb (expected =? token) then retired
      else
        _ ← take_sender peer;
        match result with
        | inl stream_id =>
            _ ← on_state peer (λ state, {| state with sender := Negotiating expected stream_id since work |});
            set_role peer stream_id Outbound
        | inr reason => fail_in_flight peer work (str "open failed") (Some reason)
        end
  | _ => retired
  end.

(** A sender that has been at its work for too long. *)
Definition is_stuck (s : FloodsubAgent) (now_ms : Z) (state : PeerState) : bool :=
  match since_ms (sender state) with Some since => send_timeout_ms (config s) <=? saturating_sub now_ms since | None => false end.

Definition abandon_send (peer : PeerId) (now_ms : Z) : F unit :=
  s ← gets id;
  match sender <$> peers s !! peer with
  | None | Some Idle => mret tt
  | Some (Opening _ _ work) =>
      _ ← take_sender peer;
      _ ← fail_in_flight peer work (str "send timed out") None;
      drive_sender peer now_ms
  | Some (Negotiating _ stream_id _ work) | Some (AwaitingClose _ stream_id _ work) =>
      _ ← take_sender peer;
      _ ← reject_stream peer stream_id;
      _ ← fail_in_flight peer work (str "send timed out") None;
      drive_sender peer now_ms
  end.

Definition handle_tick (now_ms : Z) : F unit :=
  _ ← modify (λ s, {| s with seen := gc now_ms (seen s) |});
  s ← gets id;
  for_each (λ peer, abandon_send peer now_ms) (filter (λ p, Is_true (peer_has (is_stuck s now_ms) s p)) (btree_keys (peers s))).

Definition poll_action : F (option PubsubAction) :=
  s ← gets id;
  _ ← modify (λ s, {| s with actions := tail (actions s) |});
  mret (head (actions s)).
Definition poll_event : F (option PubsubEvent) :=
  s ← gets id;
  _ ← modify (λ s, {| s with events := tail (events s) |});
  mret (head (events s)).

Definition next_timeout (s : FloodsubAgent) (now_ms : Z) : option Z :=
  let deadlines := omap (λ x, (λ since, saturating_add u64_max since (send_timeout_ms (config s))) <$> since_ms (sender x.2)) (btree_iter (peers s)) in
  (λ deadline, saturating_sub deadline now_ms) <$> min_of (next_expiry (seen s) :: (Some <$> deadlines)).
End Floodsub.
