(* ===== verification/FloodsubSafety.v ===== *)
(** The floodsub router stays within its bounds. *)

From Stdlib Require Import Strings.Byte.
From S2P Require Import Prelude Varint Frame Proto Base58 PeerIdentity Multiaddr Keys Swarm.
From S2P Require Import PubsubMessage PubsubTypes Seen Floodsub.

(** ** The size of a set of subscriptions *)

(** What the announcement of the topics [l] takes. *)
Definition entries_size (l : list bytes) : Z := zlen (Rpc_encode (mkRpc (subscription_entry true <$> l) [] None)).
Definition topics_size (x : gset bytes) : Z := entries_size (elements x).

Definition entry_size (t : bytes) : Z := zlen (token_bytes (1, VLen (SubOpts_encode (subscription_entry true t)))).
Lemma entry_size_nonneg t : 0 ≤ entry_size t.
Proof. apply zlen_nonneg. Qed.
Lemma subscription_entry_size b t : zlen (token_bytes (1, VLen (SubOpts_encode (subscription_entry b t)))) = entry_size t.
Proof.
  assert (zlen (SubOpts_encode (subscription_entry b t)) = zlen (SubOpts_encode (subscription_entry true t))) as Hl.
  { destruct b; [done|]. unfold SubOpts_encode. by rewrite !zlen_app. }
  unfold entry_size, token_bytes. cbn [fst snd value_bytes wire]. by rewrite !zlen_app, Hl.
Qed.

Lemma Rpc_subs_encode subs : Rpc_encode (mkRpc subs [] None) = fields_bytes ((λ o, (1, VLen (SubOpts_encode o))) <$> subs).
Proof. rewrite Rpc_encodes. unfold Rpc_tokens. cbn. by rewrite app_nil_r. Qed.
Lemma fields_bytes_app ts1 ts2 : fields_bytes (ts1 ++ ts2) = fields_bytes ts1 ++ fields_bytes ts2.
Proof. by rewrite fmap_app, concat_app. Qed.

Lemma entries_size_nil : entries_size [] = 0.
Proof. done. Qed.
Lemma entries_size_cons t l : entries_size (t :: l) = entry_size t + entries_size l.
Proof. unfold entries_size. rewrite !Rpc_subs_encode. by rewrite !fmap_cons, concat_cons, zlen_app. Qed.
Lemma entries_size_nonneg l : 0 ≤ entries_size l.
Proof. apply zlen_nonneg. Qed.
#[global] Instance entries_size_perm : Proper ((≡ₚ) ==> (=)) entries_size.
Proof. induction 1; rewrite ?entries_size_cons; lia. Qed.
Lemma entries_size_app l1 l2 : entries_size (l1 ++ l2) = entries_size l1 + entries_size l2.
Proof. induction l1 as [|t l1 IH]; cbn; [by rewrite entries_size_nil|]. rewrite !entries_size_cons, IH. lia. Qed.

Lemma topics_size_mono x y : x ⊆ y → topics_size x ≤ topics_size y.
Proof.
  intros H. unfold topics_size. rewrite (union_difference_L x y H), elements_disj_union, entries_size_app by set_solver.
  pose proof (entries_size_nonneg (elements (y ∖ x))). lia.
Qed.
Lemma topics_size_add t x : t ∉ x → topics_size ({[t]} ∪ x) = entries_size (set_iter x ++ [t]).
Proof.
  intros H. unfold topics_size, set_iter. rewrite elements_union_singleton by done.
  rewrite merge_sort_Permutation, entries_size_app, !entries_size_cons, entries_size_nil. lia.
Qed.
Lemma diff_size sent current : zlen (Rpc_encode (diff_rpc sent current)) = topics_size (current ∖ sent) + topics_size (sent ∖ current).
Proof.
  unfold diff_rpc. rewrite Rpc_subs_encode, fmap_app, fields_bytes_app, zlen_app.
  assert (∀ b (x : gset bytes), zlen (fields_bytes ((λ o, (1, VLen (SubOpts_encode o))) <$> (subscription_entry b <$> set_iter x))) = topics_size x) as Hs.
  { intros b x. unfold topics_size. transitivity (entries_size (set_iter x)); [|unfold set_iter; by rewrite merge_sort_Permutation].
    induction (set_iter x) as [|t l IH]; [done|]. rewrite entries_size_cons, <- IH, <- (subscription_entry_size b t).
    by rewrite !fmap_cons, concat_cons, zlen_app. }
  by rewrite !Hs.
Qed.

(** A set of topics that can be announced. *)
Definition topics_ok (x : gset bytes) : Prop := (∀ t, t ∈ x → topic_ok t = true ∧ is_text t) ∧ topics_size x ≤ MAX_RPC_SIZE / 2.
Lemma topics_ok_empty : topics_ok ∅.
Proof. split; [set_solver|]. unfold topics_size. rewrite elements_empty. by vm_compute. Qed.
Lemma topics_ok_mono x y : x ⊆ y → topics_ok y → topics_ok x.
Proof. intros Hs [Hv Hz]. split; [set_solver|]. pose proof (topics_size_mono x y Hs). lia. Qed.
Lemma diff_fits sent current : topics_ok sent → topics_ok current → zlen (Rpc_encode (diff_rpc sent current)) ≤ MAX_RPC_SIZE.
Proof.
  intros [_ Hs] [_ Hc]. rewrite diff_size. pose proof (topics_size_mono (current ∖ sent) current ltac:(set_solver)).
  pose proof (topics_size_mono (sent ∖ current) sent ltac:(set_solver)). change (MAX_RPC_SIZE / 2) with 32768 in *. unfold MAX_RPC_SIZE. lia.
Qed.

(** ** The invariant *)

(** A frame whose length the framing of the other side accepts; what is in it
    may still be refused there, as too many topics are. *)
Definition legal_frame (f : bytes) : Prop := ∃ p, f = encode_frame p ∧ zlen p ≤ MAX_RPC_SIZE.
Lemma legal_encode {E} p : zlen p ≤ MAX_RPC_SIZE → pub_encode_frame (E := E) p = Ok (encode_frame p) ∧ legal_frame (encode_frame p).
Proof. intros H. unfold pub_encode_frame. rewrite (proj2 (Z.leb_le _ _) H). split; [done|by exists p]. Qed.

(** The work in flight: the difference to what has been committed, or the front
    of the queue. *)
Definition work_ok (state : PeerState) (w : OutboundWork) : Prop :=
  match w with
  | Subscriptions frame snapshot => topics_ok snapshot ∧ frame = encode_frame (Rpc_encode (diff_rpc (sent_topics state) snapshot))
  | Publish frame => head (pending state) = Some frame
  end.

Record state_ok (cfg : FloodsubConfig) (state : PeerState) : Prop := {
  st_pending : zlen (pending state) ≤ max_pending_per_peer cfg;
  st_frames : Forall legal_frame (pending state);
  st_sent : topics_ok (sent_topics state);
  st_streams : Z.of_nat (size (inbound state)) ≤ max_inbound_streams_per_peer cfg;
  st_buffers : map_Forall (λ _ buf, zlen buf ≤ CAP) (inbound state);
  st_remote : Z.of_nat (size (remote_topics state)) ≤ max_topics_per_peer cfg;
  st_topics t : t ∈ remote_topics state → topic_ok t = true;
  st_work w : work_of (sender state) = Some w → work_ok state w;
}.

Definition config_ok (cfg : FloodsubConfig) : Prop :=
  0 ≤ max_seen_messages cfg ∧ 0 ≤ max_pending_per_peer cfg ∧ 0 ≤ max_topics_per_peer cfg ∧ 0 ≤ max_inbound_streams_per_peer cfg.

Definition seen_sound (max : Z) (s : SeenCache) : Prop :=
  ids s = list_to_set (order s).*2 ∧ NoDup (order s).*2 ∧ zlen (order s) ≤ max.
Lemma seen_sound_insert id now ttl max s : 0 ≤ max → seen_sound max s → seen_sound max (Seen.insert id now ttl max s).1.
Proof.
  intros Hm (Hi & Hn & Hl). unfold Seen.insert. case_bool_decide as Hin; [done|]. cbn [fst].
  rewrite evict_spec; [|done|rewrite fmap_app, Hi; cbn; rewrite list_to_set_app_L; set_solver|].
  - cbn zeta. split_and!; [done| |cbn; rewrite zlen_drop, zlen_app; unfold zlen in *; cbn; lia].
    cbn. rewrite fmap_drop. eapply sublist_NoDup; [|apply sublist_drop]. rewrite fmap_app. apply NoDup_app. rewrite Hi, elem_of_list_to_set in Hin.
    split_and!; [done| |apply NoDup_singleton]. intros x Hx ->%list_elem_of_singleton. done.
  - rewrite fmap_app. apply NoDup_app. rewrite Hi, elem_of_list_to_set in Hin. split_and!; [done| |apply NoDup_singleton].
    intros x Hx ->%list_elem_of_singleton. done.
Qed.
Lemma seen_sound_gc now max s : seen_sound max s → seen_sound max (gc now s).
Proof.
  intros (Hi & Hn & Hl). unfold gc. destruct (gc_loop_spec now (ids s) (order s) Hi Hn) as (k & -> & _ & _). split_and!; [done| |].
  - cbn. rewrite fmap_drop. eapply sublist_NoDup; [exact Hn|apply sublist_drop].
  - cbn. unfold zlen in *. rewrite length_drop. lia.
Qed.

Lemma state_ok_default cfg : config_ok cfg → state_ok cfg PeerState_default.
Proof.
  intros (? & ? & ? & ?). constructor; cbn; [by rewrite zlen_nil|constructor|apply topics_ok_empty|done|done|done|set_solver|done].
Qed.

Section Safety.
Context `{HS : SigningCrate} `{HC : HashCrates Multihash} `{!EqDecision Multihash} `{!Countable Multihash} {HSpec : HashCratesSpec Multihash}.
Abbreviation PeerId := (PeerIdentity.PeerId (Multihash := Multihash)).
Context `{!BTreeKey PeerId}.
Abbreviation FloodsubAgent := (Floodsub.FloodsubAgent (Multihash := Multihash)).
Abbreviation F := (M FloodsubAgent Empty_set).

Definition action_ok (a : PubsubAction (Multihash := Multihash)) : Prop :=
  match a with PubsubTypes.SendStream _ _ _ data => legal_frame data | _ => True end.

(** [safe m Q s]: [m] run from [s] ends with [Q], or has used up the tokens. *)
Definition safe {A} (m : F A) (Q : A → FloodsubAgent → Prop) (s : FloodsubAgent) : Prop :=
  match m s with
  | (s', Ok a) => Q a s'
  | (s', Panic) => next_token s' = u64_max
  | _ => False
  end.
Lemma safe_done {A} (a : A) (Q : A → FloodsubAgent → Prop) s : Q a s → safe (mret a) Q s.
Proof. done. Qed.
Lemma safe_bind {A B} (m : F A) (f : A → F B) Q s : safe m (λ a s', safe (f a) Q s') s → safe (m ≫= f) Q s.
Proof. unfold safe, mbind, M_bind. by destruct (m s) as [s' [a|[]| |]]. Qed.
Lemma safe_read {A} (f : FloodsubAgent → A) (Q : A → FloodsubAgent → Prop) s : Q (f s) s → safe (gets f) Q s.
Proof. done. Qed.
Lemma safe_modify (f : FloodsubAgent → FloodsubAgent) (Q : unit → FloodsubAgent → Prop) s : Q tt (f s) → safe (modify f) Q s.
Proof. done. Qed.
Lemma safe_mono {A} (m : F A) (Q Q' : A → FloodsubAgent → Prop) s : safe m Q s → (∀ a s', Q a s' → Q' a s') → safe m Q' s.
Proof. unfold safe. destruct (m s) as [s' [a|[]| |]]; naive_solver. Qed.
Lemma safe_for_each {A} (f : A → F unit) l (I : FloodsubAgent → Prop) s :
  I s → (∀ x s', x ∈ l → I s' → safe (f x) (λ _, I) s') → safe (for_each f l) (λ _, I) s.
Proof.
  revert s. induction l as [|x l IH]; intros s Hs Hf; [done|]. cbn [for_each]. apply safe_bind.
  eapply safe_mono; [apply Hf; [by left|done]|]. intros [] s' Hs'. apply IH; [done|]. intros y s'' Hy. apply Hf. by right.
Qed.
End Safety.

Ltac safe_step :=
  lazymatch goal with
  | |- safe (mret _) _ _ => apply safe_done
  | |- safe (mbind _ _) _ _ => apply safe_bind
  | |- safe (gets _) _ _ => apply safe_read; unfold id
  | |- safe (modify _) _ _ => apply safe_modify
  | |- safe (if ?b then _ else _) _ _ => destruct b eqn:?
  end; cbn beta.
Ltac safe_steps := repeat safe_step.

Section Steps.
Context `{HS : SigningCrate} `{HC : HashCrates Multihash} `{!EqDecision Multihash} `{!Countable Multihash} {HSpec : HashCratesSpec Multihash}.
Abbreviation PeerId := (PeerIdentity.PeerId (Multihash := Multihash)).
Context `{!BTreeKey PeerId}.
Abbreviation FloodsubAgent := (Floodsub.FloodsubAgent (Multihash := Multihash)).
Abbreviation F := (M FloodsubAgent Empty_set).
Implicit Types (s : FloodsubAgent) (peer : PeerId).

(** The agent with the configuration [cfg]. *)
Context (cfg : FloodsubConfig).

Record agent_ok (s : FloodsubAgent) : Prop := {
  ao_cfg : config s = cfg;
  ao_config : config_ok (config s);
  ao_topics : topics_ok (topics s);
  ao_peers p state : peers s !! p = Some state → state_ok (config s) state;
  ao_token : 0 ≤ next_token s ≤ u64_max;
  ao_seen : seen_sound (max_seen_messages (config s)) (seen s);
  ao_actions : Forall action_ok (actions s);
}.

(** ** What a sender changes *)

Definition idle (state : PeerState) : PeerState := {| state with sender := Idle |}.

(** All but the senders, the tokens and the actions. *)
Record steady s s' : Prop := {
  sd_config : config s' = config s;
  sd_keypair : keypair s' = keypair s;
  sd_local : local_peer_id s' = local_peer_id s;
  sd_topics : topics s' = topics s;
  sd_events : events s' = events s;
  sd_roles : roles s' = roles s;
  sd_seqno : next_seqno s' = next_seqno s;
  sd_seen : seen s' = seen s;
  sd_peers p : idle <$> peers s' !! p = idle <$> peers s !! p;
}.
#[global] Instance steady_preorder : PreOrder steady.
Proof. split; [by split|]. intros s1 s2 s3 [] []. split; intros; congruence. Qed.

(** Only inbound buffers are kept. *)
Record quiet s s' : Prop := {
  qu_config : config s' = config s;
  qu_inbound p : inbound <$> peers s' !! p = inbound <$> peers s !! p;
}.
#[global] Instance quiet_preorder : PreOrder quiet.
Proof. split; [by split|]. intros s1 s2 s3 [] []. split; intros; congruence. Qed.

Lemma steady_peer s s' p state : steady s s' → peers s !! p = Some state → ∃ state', peers s' !! p = Some state' ∧ idle state' = idle state.
Proof. intros H Hp. pose proof (sd_peers _ _ H p) as He. rewrite Hp in He. destruct (peers s' !! p) as [st|]; [|done]. exists st. split; [done|]. by apply (inj Some). Qed.
Lemma steady_quiet s s' : steady s s' → quiet s s'.
Proof.
  intros H. split; [apply H|]. intros p. pose proof (sd_peers _ _ H p) as He.
  destruct (peers s' !! p) as [x|], (peers s !! p) as [y|]; try done.
  apply (inj Some), (f_equal inbound) in He. cbn in *. by rewrite He.
Qed.
Lemma quiet_buffer s s' p i : quiet s s' → buffer s' p i = buffer s p i.
Proof.
  intros H. unfold buffer. pose proof (qu_inbound _ _ H p) as He. destruct (peers s' !! p), (peers s !! p); try done. cbn in He. by injection He as ->.
Qed.
Lemma alter_inbound s p f :
  (∀ st, inbound (f st) = inbound st) → quiet s {| s with peers := alter f p (peers s) |}.
Proof.
  intros Hf. split; [done|]. intros q. cbn. destruct (decide (p = q)) as [->|Hne].
  - rewrite lookup_alter_eq. destruct (peers s !! q); cbn; [by rewrite Hf|done].
  - by rewrite lookup_alter_ne.
Qed.

(** ** Keeping the invariant *)

Lemma ok_alter s p f :
  agent_ok s → (∀ st, peers s !! p = Some st → state_ok (config s) st → state_ok (config s) (f st)) →
  agent_ok {| s with peers := alter f p (peers s) |}.
Proof.
  intros [] Hf. constructor; try done. intros q st Hq. cbn in *. destruct (decide (p = q)) as [->|Hne].
  - rewrite lookup_alter_eq in Hq. destruct (peers s !! q) as [st0|] eqn:H0; [|done]. injection Hq as <-. eauto.
  - rewrite lookup_alter_ne in Hq by done. eauto.
Qed.
Lemma ok_insert s p st : agent_ok s → state_ok (config s) st → agent_ok {| s with peers := <[p := st]> (peers s) |}.
Proof. intros [] Hst. constructor; try done. cbn. intros q st' [[-> <-]|[_ Hq]]%lookup_insert_Some; eauto. Qed.
Lemma ok_action s a : agent_ok s → action_ok a → agent_ok {| s with actions := actions s ++ [a] |}.
Proof. intros [] Ha. constructor; try done. apply Forall_app. by repeat constructor. Qed.
Lemma ok_event s e : agent_ok s → agent_ok {| s with events := events s ++ [e] |}.
Proof. intros []. by constructor. Qed.
Lemma ok_roles s r : agent_ok s → agent_ok {| s with roles := r |}.
Proof. intros []. by constructor. Qed.
Lemma ok_idle c st : state_ok c st → state_ok c (idle st).
Proof. intros []. by constructor. Qed.
Lemma ok_delete_inbound c st i : state_ok c st → state_ok c {| st with inbound := delete i (inbound st) |}.
Proof.
  intros []. constructor; try done; cbn.
  - rewrite map_size_delete. destruct (inbound st !! i); cbn; lia.
  - by apply map_Forall_delete.
Qed.

Lemma ok_reject s peer stream_id (Q : unit → FloodsubAgent → Prop) :
  agent_ok s → (∀ s', agent_ok s' → config s' = config s → (∀ p, idle <$> peers s' !! p = idle <$> alter (λ st, {| st with inbound := delete stream_id (inbound st) |}) peer (peers s) !! p) →
     sender <$> peers s' !! peer = sender <$> peers s !! peer → Q tt s') → safe (reject_stream peer stream_id) Q s.
Proof.
  intros Hs HQ. unfold reject_stream, push_action, set_role, on_state. safe_steps. apply HQ.
  - apply (ok_alter {| s with actions := _; roles := _ |}); [by apply (ok_roles {| s with actions := _ |}), ok_action|].
    intros st _ Hst. by apply ok_delete_inbound.
  - done.
  - done.
  - cbn. rewrite lookup_alter_eq. by destruct (peers s !! peer).
Qed.

(** ** Senders *)

Lemma next_work_ok s st :
  agent_ok s → state_ok (config s) st →
  ∃ w, next_work s st = Ok w ∧ match w with Some w => work_ok st w | None => True end.
Proof.
  intros Hs Hst. unfold next_work. case_bool_decide; cbn [negb].
  - exists (Publish <$> head (pending st)). split; [done|]. by destruct (head (pending st)) eqn:Hh.
  - destruct (@legal_encode Empty_set (Rpc_encode (diff_rpc (sent_topics st) (topics s)))) as [-> _]; [apply diff_fits; [apply Hst|apply Hs]|].
    cbn. eexists. split; [done|]. split; [apply Hs|done].
Qed.

Lemma ok_sender c st x : state_ok c st → (∀ w, work_of x = Some w → work_ok st w) → state_ok c {| st with sender := x |}.
Proof. intros [] Hw. constructor; try done. Qed.

Lemma safe_drive s peer now :
  agent_ok s → safe (drive_sender peer now) (λ _ s', agent_ok s' ∧ steady s s') s.
Proof.
  intros Hs. unfold drive_sender. safe_steps. destruct (peers s !! peer) as [st|] eqn:Hst; [|by apply safe_done].
  destruct (sender st) eqn:Hsd; try by apply safe_done.
  pose proof (ao_peers _ Hs _ _ Hst) as Hok. destruct (next_work_ok s st Hs Hok) as (w & Hw & Hwok). safe_step. unfold lift at 1, safe at 1. rewrite Hw.
  destruct w as [w|]; [|by apply safe_done]. safe_step. unfold lift at 1, safe at 1, add_or_panic, checked_add.
  destruct (Z.leb_spec (next_token s + 1) u64_max) as [Hle|Hgt]; cbn [expect];
    [|pose proof (ao_token _ Hs); cbn; lia].
  unfold on_state, push_action. safe_steps.
  set (f := λ state : PeerState, {| state with sender := Opening (next_token s) now w |}).
  split.
  - apply (ok_action {| s with next_token := next_token s + 1; peers := alter f peer (peers s) |}); [|done].
    apply (ok_alter {| s with next_token := next_token s + 1 |}).
    + destruct Hs. constructor; try done. cbn. lia.
    + intros st' Hst'. cbn in Hst'. rewrite Hst in Hst'. injection Hst' as <-. intros Hst1. apply ok_sender; [done|]. cbn. by intros w' [= <-].
  - constructor; try done. intros q. cbn. destruct (decide (peer = q)) as [->|Hne].
    + by rewrite lookup_alter_eq, Hst.
    + by rewrite lookup_alter_ne.
Qed.

Lemma safe_drive_all s now : agent_ok s → safe (drive_all_senders now) (λ _ s', agent_ok s' ∧ steady s s') s.
Proof.
  intros Hs. unfold drive_all_senders. safe_steps. apply (safe_for_each _ _ (λ s', agent_ok s' ∧ steady s s')); [done|].
  intros p s' _ [Hs' Hst]. eapply safe_mono; [by apply safe_drive|]. intros [] s'' [? ?]. split; [done|]. by etrans.
Qed.

(** Dropping the front of the queue, with no work in flight. *)
Lemma ok_pop c st : state_ok c st → sender st = Idle → state_ok c {| st with pending := tail (pending st) |}.
Proof.
  intros [] Hi. constructor; try done; cbn.
  - destruct (pending st); cbn in *; [done|]. rewrite zlen_cons in *. lia.
  - destruct (pending st); cbn in *; [done|]. by inversion st_frames0.
  - rewrite Hi. done.
Qed.

(** The sender of [peer] is idle, if it is there at all. *)
Definition no_sender s peer : Prop := ∀ st, peers s !! peer = Some st → sender st = Idle.

Lemma safe_failed s peer w why detail :
  agent_ok s → no_sender s peer → safe (fail_in_flight peer w why detail) (λ _ s', agent_ok s' ∧ quiet s s' ∧ no_sender s' peer) s.
Proof.
  intros Hs Hi. unfold fail_in_flight, push_event, on_state. destruct w as [f x|f]; safe_steps.
  - split_and!; [by apply ok_event|by split|done].
  - set (g := λ state : PeerState, {| state with pending := tail (pending state) |}). split_and!.
    + apply (ok_event {| s with peers := alter g peer (peers s) |}), ok_alter; [done|]. intros st Hst Hok. apply ok_pop; eauto.
    + etrans; [by apply (alter_inbound s peer g)|by split].
    + intros st Hst. cbn in Hst. rewrite lookup_alter_eq in Hst. destruct (peers s !! peer) as [st0|] eqn:H0; [|done]. injection Hst as <-. apply (Hi _ H0).
Qed.
Lemma safe_take s peer : agent_ok s → safe (take_sender peer) (λ _ s', agent_ok s' ∧ quiet s s' ∧ no_sender s' peer ∧
  ∀ p, idle <$> peers s' !! p = idle <$> peers s !! p) s.
Proof.
  intros Hs. unfold take_sender, on_state. safe_steps. split_and!.
  - apply ok_alter; [done|]. intros st _ Hst. by apply ok_idle.
  - by apply alter_inbound.
  - intros st Hst. cbn in Hst. rewrite lookup_alter_eq in Hst. destruct (peers s !! peer); [|done]. by injection Hst as <-.
  - intros p. cbn. destruct (decide (peer = p)) as [->|Hne]; [rewrite lookup_alter_eq; by destruct (peers s !! p)|by rewrite lookup_alter_ne].
Qed.

(** ** Received RPCs *)

Lemma safe_lift_ok {A} (r : res Empty_set A) a Q s : r = Ok a → Q a s → safe (lift r) Q s.
Proof. intros ->. done. Qed.

Lemma ok_seen s now id :
  agent_ok s → agent_ok {| s with seen := (Seen.insert id now (seen_ttl_ms (config s)) (max_seen_messages (config s)) (seen s)).1 |}.
Proof. intros []. constructor; try done. cbn. apply seen_sound_insert; [apply ao_config0|done]. Qed.

Lemma ok_push c st f :
  state_ok c st → legal_frame f → zlen (pending st) < max_pending_per_peer c → state_ok c {| st with pending := pending st ++ [f] |}.
Proof.
  intros [] Hf Hlt. constructor; try done; cbn.
  - rewrite zlen_app. change (zlen [f]) with 1. lia.
  - apply Forall_app. by repeat constructor.
  - intros w Hw. specialize (st_work0 w Hw). destruct w; [done|]. cbn in *. by destruct (pending st).
Qed.

(** Queueing a frame for a peer with room, and starting its sender. *)
Lemma safe_queue s peer f now :
  agent_ok s → legal_frame f → (∀ st, peers s !! peer = Some st → zlen (pending st) < max_pending_per_peer (config s)) →
  safe (push_pending peer f ≫= λ _, drive_sender peer now)
    (λ _ s', agent_ok s' ∧ steady {| s with peers := alter (λ st, {| st with pending := pending st ++ [f] |}) peer (peers s) |} s') s.
Proof.
  intros Hs Hf Hroom. unfold push_pending, on_state. safe_steps. apply safe_drive. apply ok_alter; [done|]. intros st Hst Hok. apply ok_push; eauto.
Qed.

Lemma safe_message s arrival m now :
  agent_ok s → zlen (Rpc_encode (message_rpc m)) ≤ MAX_RPC_SIZE →
  safe (process_message arrival m now) (λ _ s', agent_ok s' ∧ quiet s s') s.
Proof.
  intros Hs Hm. unfold process_message. safe_steps. pose proof (verify_returns m (allow_unsigned (config s))) as Hv.
  destruct (verify_message m (allow_unsigned (config s))) as [[[from seqno] signed]|e| |]; try done.
  2:{ unfold push_event. safe_steps. split; [by apply ok_event|by split]. }
  safe_step; [by apply safe_done|]. unfold record_seen. do 3 safe_step.
  set (s1 := {| s with seen := _ |}). assert (agent_ok s1) as Hs1 by (by apply ok_seen).
  apply (safe_mono _ (λ _ s2, agent_ok s2 ∧ quiet s s2)); [|intros _ s2 [Hs2 Hq]].
  { unfold push_event. destruct (existsb _ _); safe_steps; (split; [first [by apply ok_event|exact Hs1]|by split]). }
  destruct (@legal_encode Empty_set _ Hm) as [He Hlegal]. safe_step. eapply safe_lift_ok; [exact He|].
  apply (safe_for_each _ _ (λ s', agent_ok s' ∧ quiet s s')); [done|]. intros p s3 _ [Hs3 Hq3]. safe_steps.
  destruct (peers s3 !! p) as [st|] eqn:Hst; [|by apply safe_done]. unfold is_full. safe_step; [by apply safe_done|].
  eapply safe_mono; [apply (safe_queue s3 p); [done|exact Hlegal|]|].
  - intros st' Hst'. rewrite Hst in Hst'. injection Hst' as <-. lia.
  - intros [] s4 [Hs4 Hst4]. split; [done|]. etrans; [exact Hq3|]. etrans; [|by apply steady_quiet]. by apply alter_inbound.
Qed.

Lemma apply_subs_ok remote subs :
  (∀ t, t ∈ remote → topic_ok t = true) → ∀ t, t ∈ (apply_subs remote subs).1 → topic_ok t = true.
Proof.
  unfold apply_subs. generalize false. revert remote. induction subs as [|sub subs IH]; intros remote b Hr t; [apply Hr|]. cbn.
  destruct (apply_sub (remote, b) sub) as [remote' b'] eqn:Ha. apply IH. intros t' Ht'. unfold apply_sub in Ha. cbn in Ha.
  destruct (subscribe_opt sub) as [sb|]; [|simplify_eq; auto]. destruct (sub_topic sub) as [t0|]; [|simplify_eq; auto].
  destruct (topic_ok t0) eqn:Ht0; [|simplify_eq; auto]. injection Ha as <- <-. destruct sb; set_solver.
Qed.

Lemma safe_events {A} s (f : A → PubsubEvent) l :
  agent_ok s → safe (for_each (λ x, push_event (f x)) l) (λ _ s', agent_ok s' ∧ quiet s s') s.
Proof.
  intros Hs. apply (safe_for_each _ _ (λ s', agent_ok s' ∧ quiet s s')); [done|]. intros x s' _ [Hs' Hq]. unfold push_event. safe_steps.
  split; [by apply ok_event|]. etrans; [exact Hq|by split].
Qed.

Lemma safe_violation s peer i r : agent_ok s → safe (violation_reset peer i r) (λ _ s', agent_ok s' ∧ config s' = config s) s.
Proof.
  intros Hs. unfold violation_reset, push_event. safe_steps. apply ok_reject; [by apply ok_event|]. done.
Qed.

Lemma safe_rpc s peer i rpc now :
  agent_ok s → Forall (λ m, zlen (Rpc_encode (message_rpc m)) ≤ MAX_RPC_SIZE) (rpc_publish rpc) →
  safe (process_rpc peer i rpc now) (λ go_on s', agent_ok s' ∧ config s' = config s ∧ (go_on = true → quiet s s')) s.
Proof.
  intros Hs Hms. rewrite Forall_forall in Hms. unfold process_rpc.
  assert (∀ s1, agent_ok s1 → quiet s s1 →
    safe (_ ← for_each (λ message, process_message peer message now) (rpc_publish rpc); mret true)
      (λ go_on s', agent_ok s' ∧ config s' = config s ∧ (go_on = true → quiet s s')) s1) as Hmsgs.
  { intros s1 Hs1 Hq1. safe_step. eapply safe_mono; [apply (safe_for_each _ _ (λ s', agent_ok s' ∧ quiet s s')); [done|]|].
    - intros m s' Hm [Hs' Hq']. eapply safe_mono; [apply safe_message; auto|]. intros [] s2 [? ?]. split; [done|by etrans].
    - intros [] s2 [Hs2 Hq2]. safe_steps. split_and!; [done|apply Hq2|done]. }
  case_bool_decide; [by apply Hmsgs|]. safe_steps. destruct (peers s !! peer) as [st|] eqn:Hst; [|by apply safe_done].
  destruct (apply_subs (remote_topics st) (subscriptions rpc)) as [candidate skipped] eqn:Hc. safe_step.
  { safe_step. eapply safe_mono; [by apply safe_violation|]. intros [] s1 [? ?]. by safe_steps. }
  pose proof (ao_peers _ Hs _ _ Hst) as Hok. unfold on_state at 1. do 3 safe_step. set (f := λ state : PeerState, {| state with remote_topics := candidate |}).
  set (s1 := {| s with peers := alter f peer (peers s) |}).
  assert (agent_ok s1 ∧ quiet s s1) as [Hs1 Hq1].
  { split; [|by apply alter_inbound]. apply ok_alter; [done|]. intros st' Hst' []. rewrite Hst in Hst'. injection Hst' as <-. constructor; try done; cbn; [lia|].
    intros t Ht. eapply (apply_subs_ok (remote_topics st) (subscriptions rpc)); [done|]. by rewrite Hc. }
  apply (safe_mono _ (λ _ s2, agent_ok s2 ∧ quiet s s2)); [|intros _ s2 [Hs2 Hq2]].
  { unfold push_event. destruct skipped; safe_steps; [|done]. split; [by apply ok_event|]. etrans; [exact Hq1|by split]. }
  safe_step. eapply safe_mono; [by apply safe_events|]. intros [] s3 [Hs3 Hq3]. safe_step.
  eapply safe_mono; [by apply safe_events|]. intros [] s4 [Hs4 Hq4]. apply Hmsgs; [done|]. etrans; [exact Hq2|]. by etrans.
Qed.

(** ** Received bytes *)

Lemma take_frame_complete s peer i head buf payload consumed :
  0 ≤ head ≤ zlen buf → buffer s peer i = Some buf → take_frame peer i head s = Some (inl (payload, consumed)) →
  1 ≤ consumed ∧ head + consumed ≤ zlen buf ∧ zlen payload ≤ MAX_RPC_SIZE.
Proof.
  intros Hh Hb. unfold take_frame. rewrite Hb. destruct (get_from buf head) as [tail|] eqn:Ht; [|done].
  destruct (pub_decode_frame tail) as [p c| | |] eqn:Hd; try done. intros [= -> ->].
  apply decode_frame_iff in Hd as (Hp & -> & _ & rest & ->). pose proof (zlen_encode_frame payload). pose proof (zlen_nonneg payload).
  pose proof (uvarint_len_pos (zlen payload) ltac:(lia)).
  unfold get_from in Ht. case_match; [|done]. injection Ht as Ht. apply (f_equal zlen) in Ht. rewrite zlen_app in Ht. rewrite zlen_drop in Ht.
  pose proof (zlen_nonneg rest). lia.
Qed.

Lemma payload_fits payload : zlen payload ≤ MAX_RPC_SIZE → fits payload.
Proof. unfold fits, MAX_RPC_SIZE, usize_max, u64_max. lia. Qed.

Lemma safe_frames fuel s peer i now head buf :
  agent_ok s → buffer s peer i = Some buf → 0 ≤ head ≤ zlen buf → zlen buf ≤ CAP → zlen buf - head < Z.of_nat fuel →
  safe (frames_loop fuel peer i now head)
    (λ r s', agent_ok s' ∧ config s' = config s ∧
       match r with Some head' => buffer s' peer i = Some buf ∧ 0 ≤ head' ≤ zlen buf | None => True end) s.
Proof.
  revert s head. induction fuel as [|fuel IH]; intros s head Hs Hb Hh Hcap Hfuel; [lia|]. cbn [frames_loop]. safe_steps.
  destruct (take_frame peer i head s) as [[[payload consumed]|reason]|] eqn:Ht.
  - destruct (take_frame_complete s peer i head buf payload consumed Hh Hb Ht) as (Hc1 & Hc2 & Hp). apply payload_fits in Hp as Hf.
    safe_step. eapply safe_lift_ok; [unfold add_or_panic; rewrite checked_add_Some; [done|unfold CAP, MAX_RPC_SIZE, MAX_PREFIX_LEN, usize_max, u64_max in *; lia]|].
    pose proof (decode_inner_returns payload false Hf) as Hr. pose proof (Rpc_decode_messages payload false) as Hms. unfold decode_floodsub.
    destruct (decode_inner payload false) as [rpc|e| |]; try done.
    + safe_step. eapply safe_mono; [apply safe_rpc; [done|]|].
      { eapply Forall_impl; [by apply Hms|]. intros m (_ & _ & ?). cbn in *. lia. }
      intros go_on s1 (Hs1 & Hcfg & Hq). cbn beta. destruct go_on; [|safe_steps; done]. eapply safe_mono; [apply IH; [done| |lia|done|lia]|].
      { rewrite (quiet_buffer s s1); auto. }
      intros r s2 (Hs2 & Hcfg2 & Hr2). split_and!; [done|congruence|done].
    + safe_step. eapply safe_mono; [by apply safe_violation|]. intros [] s1 [? ?]. by safe_steps.
  - safe_step. eapply safe_mono; [by apply safe_violation|]. intros [] s1 [? ?]. by safe_steps.
  - by safe_steps.
Qed.

Lemma buffer_state s peer i buf : buffer s peer i = Some buf → ∃ st, peers s !! peer = Some st ∧ inbound st !! i = Some buf.
Proof. unfold buffer. destruct (peers s !! peer) as [st|]; [eauto|done]. Qed.
Lemma ok_set_buffer s peer i buf :
  agent_ok s → is_Some (buffer s peer i) → zlen buf ≤ CAP →
  agent_ok {| s with peers := alter (λ st, {| st with inbound := <[i := buf]> (inbound st) |}) peer (peers s) |} ∧
  buffer {| s with peers := alter (λ st, {| st with inbound := <[i := buf]> (inbound st) |}) peer (peers s) |} peer i = Some buf.
Proof.
  intros Hs [b (st & Hst & Hi)%buffer_state] Hl. split.
  - apply ok_alter; [done|]. intros st' Hst' []. rewrite Hst in Hst'. injection Hst' as <-. constructor; try done; cbn.
    + by rewrite map_size_insert_Some by eauto.
    + by apply map_Forall_insert_2.
  - unfold buffer. cbn. rewrite lookup_alter_eq, Hst. cbn. by rewrite lookup_insert_eq.
Qed.

Lemma safe_data fuel s peer i now data :
  agent_ok s → (length data < fuel)%nat → safe (data_loop fuel peer i now data) (λ _ s', agent_ok s' ∧ config s' = config s) s.
Proof.
  revert s data. induction fuel as [|fuel IH]; intros s data Hs Hfuel; [lia|]. cbn [data_loop]. case_bool_decide as Hd; [by safe_steps|]. safe_steps.
  destruct (buffer s peer i) as [buf|] eqn:Hb; [|by safe_steps].
  destruct (Z.eqb_spec (saturating_sub CAP (zlen buf)) 0) as [H0|Hroom]; [by apply safe_violation|].
  assert (0 < zlen data) as Hdl by (assert (zlen data ≠ 0) by (by intros ?%zlen_zero_inv); pose proof (zlen_nonneg data); lia).
  set (n := Z.to_nat (Z.min (saturating_sub CAP (zlen buf)) (zlen data))).
  assert (1 ≤ Z.of_nat n ∧ zlen buf + Z.of_nat n ≤ CAP) as [Hn1 Hn2] by (unfold n, saturating_sub in *; lia).
  assert (zlen (buf ++ take n data) ≤ CAP) as Hcap by (rewrite zlen_app; unfold zlen in *; rewrite length_take; lia).
  apply safe_bind, safe_modify.
  destruct (ok_set_buffer s peer i (buf ++ take n data) Hs ltac:(by rewrite Hb) Hcap) as [Hs1 Hb1]. safe_step.
  eapply safe_mono; [apply (safe_frames _ _ _ _ _ _ (buf ++ take n data)); [exact Hs1|exact Hb1|pose proof (zlen_nonneg (buf ++ take n data)); lia|done|unfold zlen; lia]|].
  intros r s2 (Hs2 & Hcfg & Hr). cbn beta. destruct r as [head|]; [|by safe_steps]. destruct Hr as [Hb2 Hh]. safe_step. safe_step. rewrite Hb2. safe_step.
  apply (safe_mono _ (λ _ s3, agent_ok s3 ∧ config s3 = config s)).
  - destruct (Z.ltb_spec 0 head); [|by safe_steps]. safe_step. eapply safe_lift_ok; [unfold drain_front; by rewrite (proj2 (Z.leb_le _ _)) by lia|].
    unfold set_buffer, on_state. safe_steps. split; [|done]. apply ok_set_buffer; [done|by rewrite Hb2|]. unfold zlen in *. rewrite length_drop. lia.
  - intros [] s3 [Hs3 Hcfg3]. eapply safe_mono; [apply IH; [done|rewrite length_drop; clear -Hn1 Hdl Hfuel; unfold zlen in *; lia]|]. intros [] s4 [? ?]. split; [done|congruence].
Qed.

(** ** The handlers *)

Lemma safe_on_stream_data s peer i data now : agent_ok s → safe (on_stream_data peer i data now) (λ _, agent_ok) s.
Proof.
  intros Hs. unfold on_stream_data. safe_steps. destruct (role s peer i) as [[| |]|]; safe_steps; try done.
  eapply safe_mono; [apply safe_data; [done|lia]|]. intros [] s1 [? _]. by safe_steps.
Qed.

Lemma ok_entry s peer : agent_ok s → agent_ok {| s with peers := <[peer := default PeerState_default (peers s !! peer)]> (peers s) |}.
Proof.
  intros Hs. apply ok_insert; [done|]. destruct (peers s !! peer) as [st|] eqn:Hst; cbn; [by eapply ao_peers|apply state_ok_default, Hs].
Qed.

(** An accepted stream starts with an empty buffer. *)
Lemma ok_accept s peer i :
  agent_ok s → (∀ st, peers s !! peer = Some st → Z.of_nat (size (inbound st)) < max_inbound_streams_per_peer (config s)) →
  agent_ok {| s with peers := alter (λ st, {| st with inbound := <[i := []]> (inbound st) |}) peer (peers s) |}.
Proof.
  intros Hs Hroom. apply ok_alter; [done|]. intros st Hst []. constructor; try done; cbn.
  - specialize (Hroom st Hst). rewrite map_size_insert. destruct (inbound st !! i); cbn; lia.
  - apply map_Forall_insert_2; [by vm_compute|done].
Qed.

Lemma sender_some s peer x : sender <$> peers s !! peer = Some x → ∃ st, peers s !! peer = Some st ∧ sender st = x.
Proof. destruct (peers s !! peer) as [st|]; [|done]. intros [= <-]. eauto. Qed.
Lemma work_frame_legal c st w : state_ok c st → work_ok st w → legal_frame (work_frame w).
Proof.
  intros Hst Hw. destruct w as [f x|f]; cbn in *.
  - destruct Hw as [Hx ->]. apply (legal_encode (E := Empty_set)). apply diff_fits; [apply Hst|done].
  - pose proof (st_frames _ _ Hst) as Hf. destruct (pending st); [done|]. injection Hw as ->. by inversion Hf.
Qed.

Lemma safe_on_stream_ready s peer i protocol local : agent_ok s → safe (on_stream_ready peer i protocol local) (λ _, agent_ok) s.
Proof.
  intros Hs. unfold on_stream_ready. do 2 safe_step. destruct local.
  - destruct (sender <$> peers s !! peer) as [[|tk since w|tk e since w|tk e since w]|] eqn:Hsd; try by safe_steps. safe_step; [by safe_steps|].
    apply sender_some in Hsd as (st & Hst & Hsd). pose proof (ao_peers _ Hs _ _ Hst) as Hok.
    assert (work_ok st w) as Hw by (apply (st_work _ _ Hok); by rewrite Hsd). unfold push_action, on_state. safe_steps.
    apply (ok_alter {| s with actions := _ |}).
    + apply (ok_action {| s with actions := _ |}); [|done]. apply ok_action; [done|]. by eapply work_frame_legal.
    + intros st' Hst' Hok'. cbn in Hst'. rewrite Hst in Hst'. injection Hst' as <-. apply ok_sender; [done|]. by intros w' [= <-].
  - safe_step; [by safe_steps|]. safe_step. unfold entry_or_default at 1. safe_step. do 2 safe_step. set (s1 := {| s with peers := _ |}).
    assert (agent_ok s1) as Hs1 by (by apply ok_entry). destruct (_ <=? _) eqn:Hfull.
    + safe_step. unfold push_event at 1. do 2 safe_step. apply ok_reject; [by apply ok_event|]. intros. by safe_steps.
    + unfold set_buffer, set_role, on_state. safe_steps. apply (ok_roles {| s1 with peers := _ |}), ok_accept; [done|].
      intros st Hst. rewrite Hst in Hfull. cbn [default] in Hfull. lia.
Qed.

Lemma safe_on_eof s peer i : agent_ok s → safe (on_stream_remote_write_closed peer i) (λ _, agent_ok) s.
Proof.
  intros Hs. unfold on_stream_remote_write_closed. safe_steps. destruct (role s peer i) as [[| |]|]; try by safe_steps.
  cbv zeta. apply safe_bind, safe_modify. set (s1 := {| s with peers := _ |}).
  assert (agent_ok s1) as Hs1 by (apply ok_alter; [done|]; intros st _ Hst; by apply ok_delete_inbound).
  safe_step; safe_step; [eapply safe_mono; [by apply safe_violation|]; intros [] s2 [? _]; by safe_steps|].
  unfold push_action. safe_steps. by apply ok_action.
Qed.

Lemma safe_retry s peer w why detail now :
  agent_ok s → no_sender s peer →
  safe (fail_in_flight peer w why detail ≫= λ _, drive_sender peer now) (λ _, agent_ok) s.
Proof.
  intros Hs Hi. safe_step. eapply safe_mono; [by apply safe_failed|]. intros [] s1 (Hs1 & _ & _).
  eapply safe_mono; [by apply safe_drive|]. by intros [] s2 [? _].
Qed.

Lemma ok_committed s peer st w :
  agent_ok s → peers s !! peer = Some st → work_of (sender st) = Some w →
  safe (take_sender peer ≫= λ _, commit peer w) (λ _, agent_ok) s.
Proof.
  intros Hs Hst Hw. pose proof (st_work _ _ (ao_peers _ Hs _ _ Hst) w Hw) as Hok. safe_step.
  eapply safe_mono; [by apply safe_take|]. intros [] s1 (Hs1 & _ & Hi & _). unfold commit, on_state. destruct w as [f x|f]; safe_steps.
  - apply ok_alter; [done|]. intros st' Hst' Hok'. specialize (Hi _ Hst'). destruct Hok as [Hx _], Hok'. constructor; try done. cbn. by rewrite Hi.
  - apply ok_alter; [done|]. intros st' Hst' Hok'. apply ok_pop; eauto.
Qed.

Lemma safe_assoc {A B C} (m : F A) (f : A → F B) (g : B → F C) Q s :
  safe ((m ≫= f) ≫= g) Q s → safe (m ≫= λ a, f a ≫= g) Q s.
Proof. unfold safe, mbind, M_bind. by destruct (m s) as [s' [a|[]| |]]. Qed.

Lemma safe_outbound_closed s peer i now : agent_ok s → safe (on_outbound_closed peer i now) (λ _, agent_ok) s.
Proof.
  intros Hs. unfold on_outbound_closed. do 2 safe_step.
  destruct (sender <$> peers s !! peer) as [[|tk since w|tk e since w|tk e since w]|] eqn:Hsd; try by safe_steps.
  - safe_step; [|by safe_steps]. safe_step. eapply safe_mono; [by apply safe_take|]. intros [] s1 (Hs1 & _ & Hi & _). by apply safe_retry.
  - safe_step; [|by safe_steps]. apply sender_some in Hsd as (st & Hst & Hsd). apply safe_assoc. safe_step. eapply safe_mono; [apply (ok_committed s peer st); [done|done|by rewrite Hsd]|].
    intros [] s1 Hs1. eapply safe_mono; [by apply safe_drive|]. by intros [] s2 [? _].
Qed.

Lemma safe_on_stream_closed s peer i now : agent_ok s → safe (on_stream_closed peer i now) (λ _, agent_ok) s.
Proof.
  intros Hs. unfold on_stream_closed. do 2 safe_step. destruct (role s peer i) as [r|]; [|by safe_steps].
  unfold forget_role at 1. do 3 safe_step. apply (safe_mono _ (λ _, agent_ok)); [|intros [] s1 Hs1; by safe_steps].
  destruct r.
  - by apply safe_outbound_closed, ok_roles.
  - unfold on_state. safe_steps. apply (ok_alter {| s with roles := _ |}); [by apply ok_roles|]. intros st _ Hst. by apply ok_delete_inbound.
  - safe_steps. by apply ok_roles.
Qed.

Lemma ok_drop_work s peer cause : agent_ok s → safe (drop_peer_work peer cause) (λ _ s', agent_ok s' ∧ config s' = config s) s.
Proof.
  intros Hs. unfold drop_peer_work, push_event. safe_steps. destruct (peers s !! peer); safe_steps; try done. split; [by apply ok_event|done].
Qed.

Lemma ok_replaced s peer (f : gmap PeerId PeerState → gmap PeerId PeerState) :
  agent_ok s → (∀ p st, f (peers s) !! p = Some st → st = PeerState_default ∨ peers s !! p = Some st) →
  agent_ok {| s with roles := delete peer (roles s); peers := f (peers s) |}.
Proof.
  intros [] Hf. constructor; try done. intros p st Hp. cbn in *. destruct (Hf p st Hp) as [->|?]; [by apply state_ok_default|eauto].
Qed.

Lemma safe_event s e now : agent_ok s → safe (handle_event e now) (λ _, agent_ok) s.
Proof.
  intros Hs. destruct e; cbn [handle_event]; try by safe_steps.
  - safe_step. apply (safe_mono _ (λ _, agent_ok)); [|intros [] s1 ?; by safe_steps].
    unfold on_connection_established. safe_steps; [|done]. eapply safe_mono; [by apply ok_drop_work|]. intros [] s1 [Hs1 _]. safe_steps.
    apply (ok_replaced s1 _ (λ m, <[_ := PeerState_default]> m)); [done|]. intros p st [[_ <-]|[_ ?]]%lookup_insert_Some; auto.
  - safe_step. apply (safe_mono _ (λ _, agent_ok)); [|intros [] s1 ?; by safe_steps].
    unfold on_connection_closed. safe_steps; [|done]. eapply safe_mono; [by apply ok_drop_work|]. intros [] s1 [Hs1 _]. safe_steps.
    apply (ok_replaced s1 _ (λ m, delete _ m)); [done|]. intros p st [_ ?]%lookup_delete_Some; auto.
  - safe_step. apply (safe_mono _ (λ _, agent_ok)); [|intros [] s1 ?; by safe_steps].
    unfold entry_or_default. safe_steps; [|done]. eapply safe_mono; [by apply safe_drive, ok_entry|]. by intros [] s1 [? _].
  - by apply safe_on_stream_ready.
  - by apply safe_on_stream_data.
  - by apply safe_on_eof.
  - by apply safe_on_stream_closed.
Qed.

Lemma safe_send_result s peer i tk r now : agent_ok s → safe (send_result peer i tk r now) (λ _, agent_ok) s.
Proof.
  intros Hs. unfold send_result. do 2 safe_step. destruct (sender <$> peers s !! peer) as [[|? ? w|? ? ? w|? ? ? w]|], r; try by safe_steps.
  safe_step; [|by safe_steps]. safe_step. eapply safe_mono; [by apply safe_take|]. intros [] s1 (Hs1 & _ & Hi & _). safe_step.
  apply ok_reject; [done|]. intros s2 Hs2 _ _ Hsd. apply safe_retry; [done|]. intros st Hst. rewrite Hst in Hsd. symmetry in Hsd.
  apply sender_some in Hsd as (st1 & H1 & <-). apply (Hi _ H1).
Qed.

Lemma safe_open_result s peer tk r : agent_ok s → safe (stream_open_result peer tk r) (λ _, agent_ok) s.
Proof.
  intros Hs. unfold stream_open_result. do 2 safe_step. cbv zeta.
  assert (safe (match r with inl i => reject_stream peer i | inr _ => mret () end) (λ _, agent_ok) s) as Hret
    by (destruct r; [by apply ok_reject|by safe_steps]).
  destruct (sender <$> peers s !! peer) as [[|e since w|? ? ? w|? ? ? w]|] eqn:Hsd; try exact Hret. safe_step; [exact Hret|].
  apply sender_some in Hsd as (st & Hst & Hsd). pose proof (st_work _ _ (ao_peers _ Hs _ _ Hst) w ltac:(by rewrite Hsd)) as Hw.
  safe_step. eapply safe_mono; [by apply safe_take|]. intros [] s1 (Hs1 & _ & Hi & Hsame). destruct r as [i|why].
  - unfold on_state, set_role. safe_steps. apply (ok_roles {| s1 with peers := _ |}), ok_alter; [done|]. intros st' Hst' Hok. apply ok_sender; [done|].
    intros w' [= <-]. specialize (Hsame peer). rewrite Hst, Hst' in Hsame. apply (inj Some) in Hsame.
    pose proof (f_equal sent_topics Hsame) as E1. pose proof (f_equal pending Hsame) as E2. cbn in E1, E2. unfold work_ok in *. by rewrite E1, E2.
  - eapply safe_mono; [by apply safe_failed|]. by intros [] s2 (? & _).
Qed.

Lemma safe_abandon s peer now : agent_ok s → safe (abandon_send peer now) (λ _, agent_ok) s.
Proof.
  intros Hs. unfold abandon_send. do 2 safe_step.
  assert (∀ w i, safe (_ ← take_sender peer; _ ← reject_stream peer i; _ ← fail_in_flight peer w (str "send timed out") None; drive_sender peer now)
    (λ _, agent_ok) s) as Hreset.
  { intros w i. safe_step. eapply safe_mono; [by apply safe_take|]. intros [] s1 (Hs1 & _ & Hi & _). safe_step.
    apply ok_reject; [done|]. intros s2 Hs2 _ _ Hsd. apply safe_retry; [done|]. intros st Hst. rewrite Hst in Hsd. symmetry in Hsd.
    apply sender_some in Hsd as (st1 & H1 & <-). apply (Hi _ H1). }
  destruct (sender <$> peers s !! peer) as [[|? ? w|? ? ? w|? ? ? w]|]; try exact (Hreset _ _); try by safe_steps.
  safe_step. eapply safe_mono; [by apply safe_take|]. intros [] s1 (Hs1 & _ & Hi & _). by apply safe_retry.
Qed.
Lemma safe_tick s now : agent_ok s → safe (handle_tick now) (λ _, agent_ok) s.
Proof.
  intros Hs. unfold handle_tick. safe_steps. apply (safe_for_each _ _ agent_ok).
  - destruct Hs. constructor; try done. by apply seen_sound_gc.
  - intros p s1 _ Hs1. by apply safe_abandon.
Qed.

(** ** Publishing *)

(** The frame [f] queued for the peers [l]. *)
Definition enqueue (f : bytes) (st : PeerState) : PeerState := {| st with pending := pending st ++ [f] |}.
Definition enqueued (f : bytes) (l : list PeerId) s : FloodsubAgent :=
  {| s with peers := map_imap (λ p st, Some (if decide (p ∈ l) then enqueue f st else st)) (peers s) |}.
Lemma enqueued_lookup f l s p : peers (enqueued f l s) !! p = (λ st, if decide (p ∈ l) then enqueue f st else st) <$> peers s !! p.
Proof. cbn. rewrite map_lookup_imap. by destruct (peers s !! p). Qed.

Lemma enqueued_cons f x l s s1 :
  x ∉ l → steady {| s with peers := alter (enqueue f) x (peers s) |} s1 → steady (enqueued f (x :: l) s) (enqueued f l s1).
Proof.
  intros Hx []. constructor; try done. intros p. rewrite !enqueued_lookup, <- !option_fmap_compose.
  specialize (sd_peers0 p). cbn in sd_peers0. destruct (decide (p = x)) as [->|Hne].
  - rewrite lookup_alter_eq in sd_peers0. destruct (peers s1 !! x), (peers s !! x); try done. cbn in *. rewrite decide_False by done.
    rewrite decide_True by left. done.
  - rewrite lookup_alter_ne in sd_peers0 by done.
    assert (p ∈ x :: l ↔ p ∈ l) as Hl by set_solver.
    destruct (peers s1 !! p) as [st1|], (peers s !! p) as [st|]; try done. apply (inj Some) in sd_peers0. cbn. f_equal.
    destruct (decide (p ∈ l)), (decide (p ∈ x :: l)); try tauto. pose proof (f_equal pending sd_peers0) as Hp. pose proof (f_equal inbound sd_peers0) as Hi.
    pose proof (f_equal sent_topics sd_peers0) as Ht. pose proof (f_equal remote_topics sd_peers0) as Hr. cbn in *. unfold idle, enqueue. cbn. congruence.
Qed.

Lemma safe_queue_all s f l now :
  NoDup l → agent_ok s → legal_frame f → (∀ p st, p ∈ l → peers s !! p = Some st → zlen (pending st) < max_pending_per_peer (config s)) →
  safe (for_each (λ peer, _ ← push_pending peer f; drive_sender peer now) l) (λ _ s', agent_ok s' ∧ steady (enqueued f l s) s') s.
Proof.
  intros Hn. revert s. induction Hn as [|x l Hx Hn IH]; intros s Hs Hf Hroom.
  - cbn. safe_steps. split; [done|]. constructor; try done. intros p. rewrite enqueued_lookup. by destruct (peers s !! p).
  - cbn [for_each]. safe_step. eapply safe_mono; [apply safe_queue; [done|done|]; intros st; by apply Hroom; left|].
    intros [] s1 [Hs1 Hst1]. eapply safe_mono; [apply IH; [done|done|]|].
    + intros p st1 Hp Hp1. assert (p ≠ x) as Hne by (by intros ->). pose proof (sd_peers _ _ Hst1 p) as He. cbn in He. rewrite lookup_alter_ne, Hp1 in He by done.
      destruct (peers s !! p) as [st|] eqn:Hst; [|done]. apply (inj Some), (f_equal pending) in He. cbn in He. rewrite He.
      rewrite (sd_config _ _ Hst1). cbn. apply (Hroom p st); [by right|done].
    + intros [] s2 [Hs2 Hst2]. split; [done|]. etrans; [|exact Hst2]. by apply enqueued_cons.
Qed.

Definition subscribers (topic : bytes) s : list PeerId := filter (λ p, Is_true (peer_has (subscribed_to topic) s p)) (btree_keys (peers s)).

(** The identity of a key pair. *)
Lemma build_signed_ok {E} kp topic data seqno : ∃ m, build_signed (E := E) (Multihash := Multihash) kp topic data seqno = Ok m.
Proof.
  unfold build_signed, keypair_peer_id, from_public_key.
  destruct (public_key_peer_ok (encode_protobuf (keypair_public_key kp))) as (q & -> & _). cbn. eauto.
Qed.

Lemma topic_ok_iff t : topic_ok t = true ↔ validate_topic t = Ok tt.
Proof. unfold topic_ok. destruct (validate_topic t) as [[]| | |]; naive_solver. Qed.
Lemma validate_returns t : returns (validate_topic t).
Proof. unfold validate_topic. case_bool_decide; [done|]. by destruct (_ <? _). Qed.

Lemma not_full s l p st :
  existsb (peer_has (is_full s) s) l = false → p ∈ l → peers s !! p = Some st → zlen (pending st) < max_pending_per_peer (config s).
Proof.
  intros Hfull Hp Hst. destruct (Z.ltb_spec (zlen (pending st)) (max_pending_per_peer (config s))) as [?|Hge]; [done|].
  enough (existsb (peer_has (is_full s) s) l = true) by congruence. apply existsb_exists. exists p. split; [by apply list_elem_of_In|].
  unfold peer_has, is_full. rewrite Hst. lia.
Qed.

Lemma safe_publish s topic data now : agent_ok s → safe (publish topic data now) (λ _, agent_ok) s.
Proof.
  intros Hs. unfold publish. pose proof (validate_returns topic) as Hv. destruct (validate_topic topic); try done. do 2 safe_step. cbv zeta.
  fold (subscribers topic s). destruct (existsb _ _) eqn:Hfull; [by safe_steps|].
  destruct (@build_signed_ok Empty_set (keypair s) topic data (next_seqno s)) as [m Hm]. safe_step. eapply safe_lift_ok; [exact Hm|].
  destruct (Z.ltb_spec MAX_RPC_SIZE (zlen (Rpc_encode (mkRpc [] [m] None)))) as [?|Hsz]; [by safe_steps|].
  unfold record_seen. do 4 safe_step. destruct (@legal_encode Empty_set _ Hsz) as [He Hlegal]. safe_step. eapply safe_lift_ok; [exact He|].
  lazymatch goal with |- safe _ _ ?x => set (s1 := x) end. assert (agent_ok s1) as Hs1.
  { destruct Hs. constructor; try done. apply seen_sound_insert; [apply ao_config0|done]. }
  safe_step. eapply safe_mono; [apply safe_queue_all; [|exact Hs1|exact Hlegal|]|].
  - apply NoDup_filter, NoDup_btree_keys.
  - intros p st Hp Hst. by eapply not_full.
  - intros [] s2 [Hs2 _]. by safe_steps.
Qed.

Lemma safe_subscribe s topic now : agent_ok s → is_text topic → safe (subscribe topic now) (λ _, agent_ok) s.
Proof.
  intros Hs Ht. unfold subscribe. pose proof (validate_returns topic) as Hv. destruct (validate_topic topic) as [[]|e| |] eqn:Hval; try done.
  do 2 safe_step. case_bool_decide as Hin; [by safe_steps|]. cbv zeta. destruct (Z.ltb_spec (MAX_RPC_SIZE / 2) (zlen (Rpc_encode (mkRpc (subscription_entry true <$> set_iter (topics s) ++ [topic]) [] None)))) as [?|Hsz]; [by safe_steps|].
  do 3 safe_step. eapply safe_mono; [apply safe_drive_all|intros [] s1 [? _]; by safe_steps].
  pose proof Hs as []. constructor; try done. cbn. split.
  - intros t [->%elem_of_singleton|Hin']%elem_of_union; [split; [by apply topic_ok_iff|done]|by apply (proj1 ao_topics0)].
  - rewrite topics_size_add by done. exact Hsz.
Qed.
Lemma safe_unsubscribe s topic now : agent_ok s → safe (unsubscribe topic now) (λ _, agent_ok) s.
Proof.
  intros Hs. unfold unsubscribe. do 2 safe_step. safe_step; [by safe_steps|]. do 3 safe_step.
  eapply safe_mono; [apply safe_drive_all|intros [] s1 [? _]; by safe_steps].
  destruct Hs. constructor; try done. cbn. eapply topics_ok_mono; [|done]. set_solver.
Qed.

(** ** Runs *)

Inductive FloodsubInput :=
  | FSubscribe (topic : bytes) (now_ms : Z)
  | FUnsubscribe (topic : bytes) (now_ms : Z)
  | FPublish (topic data : bytes) (now_ms : Z)
  | FEvent (event : SwarmEvent (Multihash := Multihash)) (now_ms : Z)
  | FSendResult (peer : PeerId) (stream_id token : Z) (result : unit + bytes) (now_ms : Z)
  | FOpenResult (peer : PeerId) (token : Z) (result : Z + bytes)
  | FTick (now_ms : Z)
  | FPollAction
  | FPollEvent.
(** A topic is a [&str]. *)
Definition input_ok (i : FloodsubInput) : Prop := match i with FSubscribe topic _ => is_text topic | _ => True end.

Definition discard {A} (m : F A) : F unit := _ ← m; mret tt.
Definition flood_step (i : FloodsubInput) : F unit :=
  match i with
  | FSubscribe topic now => discard (subscribe topic now)
  | FUnsubscribe topic now => discard (unsubscribe topic now)
  | FPublish topic data now => discard (publish topic data now)
  | FEvent event now => discard (handle_event event now)
  | FSendResult peer i token result now => send_result peer i token result now
  | FOpenResult peer token result => stream_open_result peer token result
  | FTick now => handle_tick now
  | FPollAction => discard poll_action
  | FPollEvent => discard poll_event
  end.

Lemma safe_discard {A} (m : F A) s : safe m (λ _, agent_ok) s → safe (discard m) (λ _, agent_ok) s.
Proof. intros Hm. unfold discard. safe_step. eapply safe_mono; [exact Hm|]. intros a s' Hs'. by safe_steps. Qed.

Lemma safe_input s i : agent_ok s → input_ok i → safe (flood_step i) (λ _, agent_ok) s.
Proof.
  intros Hs Hi. destruct i; cbn [flood_step]; try apply safe_discard.
  - by apply safe_subscribe.
  - by apply safe_unsubscribe.
  - by apply safe_publish.
  - by apply safe_event.
  - by apply safe_send_result.
  - by apply safe_open_result.
  - by apply safe_tick.
  - unfold poll_action. safe_steps. destruct Hs. constructor; try done. cbn. destruct (actions s); [done|]. by inversion ao_actions0.
  - unfold poll_event. safe_steps. destruct Hs. by constructor.
Qed.

Lemma agent_new_ok kp seqno : config_ok cfg → ∃ s, Floodsub_new kp cfg seqno = Ok s ∧ agent_ok s.
Proof.
  intros Hc. unfold Floodsub_new, keypair_peer_id, from_public_key.
  destruct (public_key_peer_ok (encode_protobuf (keypair_public_key kp))) as (q & -> & _). cbn. eexists. split; [done|].
  constructor; cbn; [done|done|apply topics_ok_empty|done|done| |constructor].
  split_and!; [done|constructor|]. change (0 ≤ max_seen_messages cfg). apply Hc.
Qed.

Lemma runs_are_safe inputs s : agent_ok s → Forall input_ok inputs → safe (for_each flood_step inputs) (λ _, agent_ok) s.
Proof.
  intros Hs Hi. rewrite Forall_forall in Hi. apply (safe_for_each flood_step inputs agent_ok); [done|]. intros i s' Hin Hs'. apply safe_input; auto.
Qed.

(** C13: However the application, the swarm and the host use it, and whatever a
    remote peer sends, the floodsub router keeps within its configuration: for
    every peer the queue of outbound frames, the number of inbound streams, the
    topics it is remembered for and every reassembly buffer stay bounded, as
    does the cache of seen messages; every frame it queues or sends is
    well-framed and within the size limit that the framing of the other side
    checks; the work in flight is the front of the queue or the exact
    difference between the committed and a permitted set of topics. No call
    panics or runs for ever, unless all [u64] tokens have been used. *)
Theorem floodsub_stays_in_bounds kp seqno inputs :
  config_ok cfg → Forall input_ok inputs →
  ∃ s0, Floodsub_new kp cfg seqno = Ok s0 ∧
  match for_each flood_step inputs s0 with
  | (s, Ok _) => agent_ok s
  | (s, Panic) => next_token s = u64_max
  | _ => False
  end.
Proof.
  intros Hc Hi. destruct (agent_new_ok kp seqno Hc) as (s0 & Hn & Hs0). exists s0. split; [done|]. exact (runs_are_safe inputs s0 Hs0 Hi).
Qed.
End Steps.
