(* ===== verification/FloodsubFlow.v ===== *)
(** Two floodsub routers together: announced subscriptions reach the other side
    as they are, and published messages are delivered and passed on. *)

From Stdlib Require Import Strings.Byte.
From S2P Require Import Prelude Varint Frame Proto Base58 PeerIdentity Multiaddr Keys Swarm.
From S2P Require Import PubsubMessage PubsubTypes Seen Floodsub FloodsubSafety.

Section Flow.
Context `{HS : SigningCrate} `{HC : HashCrates Multihash} `{!EqDecision Multihash} `{!Countable Multihash} {HSpec : HashCratesSpec Multihash}.
Abbreviation PeerId := (PeerIdentity.PeerId (Multihash := Multihash)).
Context `{!BTreeKey PeerId}.
Abbreviation FloodsubAgent := (Floodsub.FloodsubAgent (Multihash := Multihash)).
Abbreviation F := (M FloodsubAgent Empty_set).
Implicit Types (s : FloodsubAgent) (peer : PeerId).

(** ** A frame that arrives in pieces *)

Definition with_buffer s peer (i : Z) (buf : bytes) : FloodsubAgent :=
  {| s with peers := alter (λ st, {| st with inbound := <[i := buf]> (inbound st) |}) peer (peers s) |}.

Lemma with_buffer_twice s peer i b1 b2 : with_buffer (with_buffer s peer i b1) peer i b2 = with_buffer s peer i b2.
Proof.
  unfold with_buffer. cbn. f_equal. apply map_eq. intros q. destruct (decide (peer = q)) as [->|Hne].
  - rewrite !lookup_alter_eq. destruct (peers s !! q); [|done]. cbn. by rewrite insert_insert_eq.
  - by rewrite !lookup_alter_ne.
Qed.
Lemma with_buffer_buffer s peer i b b' : buffer s peer i = Some b → buffer (with_buffer s peer i b') peer i = Some b'.
Proof.
  unfold buffer, with_buffer. cbn. rewrite lookup_alter_eq. destruct (peers s !! peer); [|done]. cbn. by rewrite lookup_insert_eq.
Qed.

Lemma legal_frame_cap p : zlen p ≤ MAX_RPC_SIZE → 0 < zlen (encode_frame p) ≤ CAP.
Proof.
  intros Hp. rewrite zlen_encode_frame. pose proof (zlen_nonneg p). pose proof (uvarint_len_pos (zlen p) ltac:(lia)).
  assert (uvarint_len (zlen p) ≤ 10) by (apply uvarint_len_bound; unfold MAX_RPC_SIZE, u64_max in *; lia). unfold CAP, MAX_PREFIX_LEN. lia.
Qed.
Lemma decode_whole p : zlen p ≤ MAX_RPC_SIZE → pub_decode_frame (encode_frame p) = Complete p (zlen (encode_frame p)).
Proof.
  intros Hp. pose proof (legal_frame_cap p Hp). apply decode_frame_iff. split_and!; [done|done|unfold CAP, MAX_RPC_SIZE, MAX_PREFIX_LEN, usize_max, u64_max in *; lia|].
  exists []. by rewrite app_nil_r.
Qed.
Lemma decode_part b p : zlen p ≤ MAX_RPC_SIZE → strict_prefix b (encode_frame p) → pub_decode_frame b = Incomplete.
Proof.
  intros Hp (k & Hk & He). pose proof (decode_whole p Hp) as Hw. destruct (pub_decode_frame b) as [q c| | |] eqn:Hb; [|done|..];
    (unfold pub_decode_frame in *; rewrite He, decode_frame_app, Hb in Hw by (by rewrite Hb)); [|done..].
  injection Hw as -> ->. apply decode_frame_iff in Hb as (_ & _ & _ & rest & ->). apply (f_equal zlen) in He. rewrite !zlen_app in He.
  assert (zlen k ≠ 0) by (by intros ?%zlen_zero_inv). pose proof (zlen_nonneg k). pose proof (zlen_nonneg rest). lia.
Qed.

Lemma safe_bind_inv {A B} (m : F A) (f : A → F B) Q s : safe (m ≫= f) Q s → safe m (λ a s', safe (f a) Q s') s.
Proof. unfold safe, mbind, M_bind. by destruct (m s) as [s' [a|[]| |]]. Qed.

(** Bytes that fit are appended, and the frames they complete are taken. *)
Lemma safe_topup s peer i now c buf (Q : bool → FloodsubAgent → Prop) :
  role s peer i = Some Inbound → buffer s peer i = Some buf → c ≠ [] → zlen (buf ++ c) ≤ CAP →
  safe (head ← frames_loop (S (length (buf ++ c))) peer i now 0;
        match head with
        | Some head =>
            s ← gets id;
            match buffer s peer i with
            | Some buf => if 0 <? head then buf ← lift (drain_front buf head); set_buffer peer i buf else mret tt
            | None => mret tt
            end
        | None => mret tt
        end) (λ _, Q true) (with_buffer s peer i (buf ++ c)) →
  safe (on_stream_data peer i c now) Q s.
Proof.
  intros Hr Hb Hc Hcap H. unfold on_stream_data. do 2 safe_step. rewrite Hr. safe_step. cbn [data_loop]. rewrite bool_decide_eq_false_2 by done.
  do 2 safe_step. rewrite Hb. rewrite zlen_app in Hcap. assert (0 < zlen c) by (pose proof (zlen_nonneg c); assert (zlen c ≠ 0) by (by intros ?%zlen_zero_inv); lia).
  assert (saturating_sub CAP (zlen buf) = CAP - zlen buf) as Hroom by (unfold saturating_sub; lia). rewrite Hroom.
  destruct (Z.eqb_spec (CAP - zlen buf) 0); [lia|]. cbv zeta. rewrite Z.min_r by lia. rewrite to_nat_zlen, take_ge, drop_ge by lia.
  apply safe_bind, safe_modify. fold (with_buffer s peer i (buf ++ c)). apply safe_bind.
  apply safe_bind_inv in H. eapply safe_mono; [exact H|]. intros [head|] s2 H2; cbn beta; [|by safe_steps].
  do 2 safe_step. apply safe_bind_inv in H2. unfold safe at 1 in H2. cbn [gets] in H2. unfold id in H2. safe_step.
  eapply safe_mono; [exact H2|]. intros [] s3 H3. destruct c as [|x c]; [done|].
  cbn [length data_loop]. rewrite bool_decide_eq_true_2 by done. by safe_steps.
Qed.

Definition receive peer (i now : Z) (chunks : list bytes) : F unit := for_each (λ c, discard (on_stream_data peer i c now)) chunks.

Lemma safe_empty s peer i now (Q : unit → FloodsubAgent → Prop) : is_Some (role s peer i) → Q tt s → safe (discard (on_stream_data peer i [] now)) Q s.
Proof. intros [r Hr] HQ. unfold discard, on_stream_data. do 3 safe_step. rewrite Hr. by destruct r. Qed.
Lemma safe_empties chunks s peer i now : concat chunks = [] → is_Some (role s peer i) → safe (receive peer i now chunks) (λ _ s', s' = s) s.
Proof.
  intros Hc Hr. induction chunks as [|c chunks IH]; [done|]. cbn in Hc. apply app_eq_nil in Hc as [-> Hc]. unfold receive. cbn [for_each]. safe_step.
  apply safe_empty; [done|]. by apply IH.
Qed.
Lemma safe_part s peer i now c buf p (Q : unit → FloodsubAgent → Prop) :
  role s peer i = Some Inbound → buffer s peer i = Some buf → c ≠ [] → zlen p ≤ MAX_RPC_SIZE → strict_prefix (buf ++ c) (encode_frame p) →
  Q tt (with_buffer s peer i (buf ++ c)) → safe (discard (on_stream_data peer i c now)) Q s.
Proof.
  intros Hr Hb Hc Hp Hpre HQ. unfold discard. safe_step. pose proof (legal_frame_cap p Hp) as Hcap.
  apply (safe_topup s peer i now c buf); [done|done|done| |].
  - destruct Hpre as (k & _ & He). rewrite He, zlen_app in Hcap. pose proof (zlen_nonneg k). lia.
  - cbn [frames_loop]. do 3 safe_step. unfold take_frame. rewrite (with_buffer_buffer s peer i buf) by done.
    unfold get_from. rewrite (proj2 (Z.leb_le _ _)) by apply zlen_nonneg. rewrite drop_0. rewrite (decode_part _ p Hp Hpre). do 3 safe_step.
    rewrite (with_buffer_buffer s peer i buf) by done. by safe_steps.
Qed.

(** The last piece of a frame: its RPC is processed. *)
Lemma safe_whole s peer i now c buf p rpc (Q : unit → FloodsubAgent → Prop) :
  role s peer i = Some Inbound → buffer s peer i = Some buf → c ≠ [] → zlen p ≤ MAX_RPC_SIZE → buf ++ c = encode_frame p →
  decode_floodsub p = Ok rpc →
  safe (process_rpc peer i rpc now)
    (λ go_on s2, if go_on : bool then buffer s2 peer i = Some (encode_frame p) ∧ Q tt (with_buffer s2 peer i []) else Q tt s2)
    (with_buffer s peer i (encode_frame p)) →
  safe (discard (on_stream_data peer i c now)) Q s.
Proof.
  intros Hr Hb Hc Hp Hw Hd HQ. unfold discard. safe_step. pose proof (legal_frame_cap p Hp) as Hcap.
  apply (safe_topup s peer i now c buf); [done|done|done|rewrite Hw; lia|]. rewrite Hw.
  cbn [frames_loop]. do 3 safe_step. unfold take_frame at 1. rewrite (with_buffer_buffer s peer i buf) by done.
  unfold get_from. rewrite (proj2 (Z.leb_le _ _)) by apply zlen_nonneg. rewrite drop_0, decode_whole by done. safe_step.
  eapply safe_lift_ok; [unfold add_or_panic; rewrite checked_add_Some; [done|unfold CAP, MAX_RPC_SIZE, MAX_PREFIX_LEN, usize_max, u64_max in *; lia]|].
  rewrite Hd. safe_step. eapply safe_mono; [exact HQ|]. intros go_on s2 HQ2. cbn beta. destruct go_on; [destruct HQ2 as [Hb2 HQ2]|by safe_steps].
  destruct (length (encode_frame p)) as [|n] eqn:Hn; [unfold zlen in Hcap; lia|]. cbn [frames_loop]. do 2 safe_step. unfold take_frame. rewrite Hb2.
  unfold get_from. rewrite (proj2 (Z.leb_le _ _)) by lia. rewrite Z.add_0_l, to_nat_zlen, drop_all.
  change (pub_decode_frame []) with Incomplete. cbv iota. do 3 safe_step. rewrite Hb2.
  destruct (Z.ltb_spec 0 (zlen (encode_frame p))); [|lia]. safe_step. eapply safe_lift_ok.
  - unfold drain_front. by rewrite (proj2 (Z.leb_le _ _)), to_nat_zlen, drop_all by lia.
  - unfold set_buffer, on_state. by safe_steps.
Qed.

(** A stream that a violation has reset ignores what is left of the data. *)
Lemma safe_receive chunks s peer i now buf p rpc (Q : FloodsubAgent → Prop) :
  role s peer i = Some Inbound → buffer s peer i = Some buf → zlen p ≤ MAX_RPC_SIZE → strict_prefix buf (encode_frame p) →
  buf ++ concat chunks = encode_frame p → decode_floodsub p = Ok rpc →
  safe (process_rpc peer i rpc now)
    (λ go_on s2, is_Some (role s2 peer i) ∧
       if go_on : bool then buffer s2 peer i = Some (encode_frame p) ∧ Q (with_buffer s2 peer i []) else Q s2)
    (with_buffer s peer i (encode_frame p)) →
  safe (receive peer i now chunks) (λ _, Q) s.
Proof.
  intros Hr Hb Hp Hpre Hcat Hd HQ. revert s buf Hr Hb Hpre Hcat HQ. induction chunks as [|c chunks IH]; intros s buf Hr Hb Hpre Hcat HQ.
  { destruct Hpre as (k & Hk & He). cbn in Hcat. rewrite app_nil_r in Hcat. rewrite <- Hcat in He. apply (f_equal length) in He. rewrite length_app in He. destruct k; cbn in He; [done|lia]. }
  unfold receive. cbn [for_each]. safe_step. destruct (decide (c = [])) as [->|Hc].
  { apply safe_empty; [by rewrite Hr|]. by apply (IH s buf). }
  cbn [concat] in Hcat. rewrite app_assoc in Hcat. destruct (decide (concat chunks = [])) as [Hl|Hl].
  - rewrite Hl, app_nil_r in Hcat. eapply (safe_whole s peer i now c buf p rpc); [done..|]. eapply safe_mono; [exact HQ|].
    assert (∀ s3, is_Some (role s3 peer i) → Q s3 → safe (receive peer i now chunks) (λ _, Q) s3) as Hrest
      by (intros s3 Hr3 HQ3; eapply safe_mono; [by apply safe_empties|by intros ? ? ->]).
    intros [|] s2 (Hr2 & HQ2); [destruct HQ2 as [Hb2 HQ2]; split; [done|]|]; by apply Hrest.
  - assert (strict_prefix (buf ++ c) (encode_frame p)) as Hpre2 by (by exists (concat chunks)).
    eapply safe_part; [done..|]. apply (IH _ (buf ++ c)); [done|by eapply with_buffer_buffer|done|done|]. by rewrite with_buffer_twice.
Qed.

(** ** Subscriptions *)

Lemma push_events {A} (f : A → PubsubEvent) l s : for_each (λ x, push_event (f x)) l s = ({| s with events := events s ++ (f <$> l) |}, Ok tt).
Proof.
  revert s. induction l as [|x l IH]; intros s; cbn [for_each].
  - cbn. rewrite app_nil_r. by destruct s.
  - rewrite (run_ok _ _ _ {| s with events := events s ++ [f x] |} tt) by done. rewrite IH. cbn. by rewrite <- app_assoc.
Qed.

Lemma set_iter_set (x : gset bytes) : list_to_set (set_iter x) = x.
Proof. apply set_eq. intros t. by rewrite elem_of_list_to_set, elem_of_set_iter. Qed.
Lemma apply_entries (sb : bool) x b l :
  (∀ t, t ∈ l → topic_ok t = true) →
  foldl apply_sub (x, b) (subscription_entry sb <$> l) = (if sb then list_to_set l ∪ x else x ∖ list_to_set l, b).
Proof.
  revert x. induction l as [|t l IH]; intros x Hl.
  - cbn. f_equal. destruct sb; set_solver.
  - rewrite fmap_cons. cbn [foldl].
    assert (apply_sub (x, b) (subscription_entry sb t) = (if sb then {[t]} ∪ x else x ∖ {[t]}, b)) as -> by (unfold apply_sub; cbn; by rewrite (Hl t) by left).
    rewrite IH by (intros t' Ht'; apply Hl; by right). f_equal. destruct sb; set_solver.
Qed.
(** A difference leads from one set to the other. *)
Lemma apply_diff sent current :
  topics_ok sent → topics_ok current → apply_subs sent (subscriptions (diff_rpc sent current)) = (current, false).
Proof.
  intros [Hs _] [Hc _]. unfold apply_subs, diff_rpc. cbn [subscriptions]. rewrite foldl_app, !apply_entries, !set_iter_set.
  - f_equal. apply set_eq. intros t. destruct (decide (t ∈ current)), (decide (t ∈ sent)); set_solver.
  - intros t Ht%elem_of_set_iter. apply Hs. set_solver.
  - intros t Ht%elem_of_set_iter. apply Hc. set_solver.
Qed.
Lemma diff_typed sent current : topics_ok sent → topics_ok current → Forall SubOpts_typed (subscriptions (diff_rpc sent current)).
Proof.
  intros [Hs _] [Hc _]. apply Forall_app. rewrite !Forall_fmap, !Forall_forall.
  split; intros t Ht%elem_of_set_iter; unfold SubOpts_typed; cbn; [apply Hc|apply Hs]; set_solver.
Qed.
Lemma diff_empty sent current : subscriptions (diff_rpc sent current) = [] → current = sent.
Proof.
  unfold diff_rpc. cbn. intros [H1 H2]%app_eq_nil. apply fmap_nil_inv in H1, H2. apply set_eq. intros t. split; intros Ht.
  - destruct (decide (t ∈ sent)); [done|]. assert (t ∈ set_iter (current ∖ sent)) as Hin by (apply elem_of_set_iter; set_solver). rewrite H1 in Hin. by apply elem_of_nil in Hin.
  - destruct (decide (t ∈ current)); [done|]. assert (t ∈ set_iter (sent ∖ current)) as Hin by (apply elem_of_set_iter; set_solver). rewrite H2 in Hin. by apply elem_of_nil in Hin.
Qed.
Lemma diff_decodes sent current :
  topics_ok sent → topics_ok current → decode_floodsub (Rpc_encode (diff_rpc sent current)) = Ok (diff_rpc sent current).
Proof.
  intros Hs Hc. destruct (Rpc_round_trip (diff_rpc sent current)) as [_ ->]; [by apply diff_typed|constructor|done|by apply payload_fits, diff_fits|done].
Qed.

Definition announced peer (sent current : gset bytes) : list PubsubEvent :=
  (PeerSubscribed peer <$> set_iter (current ∖ sent)) ++ (PeerUnsubscribed peer <$> set_iter (sent ∖ current)).

Lemma rpc_diff s peer i now st sent current :
  peers s !! peer = Some st → remote_topics st = sent → topics_ok sent → topics_ok current →
  Z.of_nat (size current) ≤ max_topics_per_peer (config s) →
  process_rpc peer i (diff_rpc sent current) now s =
    ({| s with events := events s ++ announced peer sent current; peers := <[peer := {| st with remote_topics := current |}]> (peers s) |}, Ok true).
Proof.
  intros Hst Hrem Hs Hc Hmax. unfold process_rpc. case_bool_decide as He.
  - apply diff_empty in He as ->. unfold diff_rpc at 1. cbn. unfold announced. rewrite difference_diag_L. cbn.
    rewrite app_nil_r. rewrite insert_id by (rewrite Hst; subst sent; by destruct st). by destruct s.
  - rewrite run_gets. unfold id. rewrite Hst, Hrem, apply_diff by done. rewrite (proj2 (Z.ltb_ge _ _)) by done.
    unfold on_state. rewrite run_modify, run_ret. erewrite run_ok by apply push_events. erewrite run_ok by apply push_events. cbn [for_each rpc_publish diff_rpc].
    rewrite run_ret. unfold announced, mret, M_ret. cbn. rewrite <- app_assoc. f_equal. f_equal. apply map_eq. intros q.
    destruct (decide (peer = q)) as [->|Hne]; [by rewrite lookup_alter_eq, lookup_insert_eq, Hst|by rewrite lookup_alter_ne, lookup_insert_ne].
Qed.

(** A set of topics beyond the bound of the receiver costs the stream. *)
Definition refused s peer (i : Z) (st : PeerState) : FloodsubAgent :=
  {| s with events := events s ++ [ProtocolViolation peer (RText (str "subscription set exceeds the bound"))];
            actions := actions s ++ [PubsubTypes.ResetStream peer i];
            roles := <[peer := <[i := Rejected]> (default ∅ (roles s !! peer))]> (roles s);
            peers := <[peer := {| st with inbound := delete i (inbound st) |}]> (peers s) |}.
Lemma rpc_diff_refused s peer i now st sent current :
  peers s !! peer = Some st → remote_topics st = sent → topics_ok sent → topics_ok current →
  Z.of_nat (size sent) ≤ max_topics_per_peer (config s) < Z.of_nat (size current) →
  process_rpc peer i (diff_rpc sent current) now s = (refused s peer i st, Ok false).
Proof.
  intros Hst Hrem Hs Hc Hmax. unfold process_rpc. rewrite bool_decide_eq_false_2 by (intros ->%diff_empty; lia).
  rewrite run_gets. unfold id. rewrite Hst, Hrem, apply_diff by done. rewrite (proj2 (Z.ltb_lt _ _)) by lia.
  unfold violation_reset, reject_stream, push_event, push_action, set_role, on_state. cbn. unfold mbind, M_bind, modify, mret, M_ret, refused. cbn.
  do 2 f_equal. apply map_eq. intros q. destruct (decide (peer = q)) as [->|Hne]; [by rewrite lookup_alter_eq, lookup_insert_eq, Hst|by rewrite lookup_alter_ne, lookup_insert_ne].
Qed.

(** The close of the stream commits what was sent on it. *)
Lemma safe_committed cfg s peer st tk j since frame snapshot now :
  agent_ok cfg s → peers s !! peer = Some st → sender st = AwaitingClose tk j since (Subscriptions frame snapshot) → role s peer j = Some Outbound →
  safe (on_stream_closed peer j now) (λ _ s', ∃ st', peers s' !! peer = Some st' ∧ sent_topics st' = snapshot ∧ remote_topics st' = remote_topics st ∧ pending st' = pending st) s.
Proof.
  intros Hs Hst Hsd Hr. unfold on_stream_closed. do 2 safe_step. rewrite Hr. unfold forget_role at 1. do 3 safe_step.
  lazymatch goal with |- safe _ _ ?x => set (s1 := x) end. assert (agent_ok cfg s1) as Hs1 by (by apply ok_roles).
  unfold on_outbound_closed. do 2 safe_step. change (peers s1) with (peers s). rewrite Hst. cbn [fmap option_fmap option_map]. rewrite Hsd, Z.eqb_refl.
  pose proof (ok_committed cfg s1 peer st (Subscriptions frame snapshot) Hs1 Hst ltac:(by rewrite Hsd)) as Hc. apply safe_assoc. safe_step.
  unfold take_sender, commit, on_state in *. do 3 safe_step. unfold safe in Hc. cbn in Hc.
  eapply safe_mono; [eapply safe_drive; exact Hc|]. intros [] s2 [_ Hst2]. safe_steps.
  destruct (steady_peer _ s2 peer (idle {| st with sent_topics := snapshot |}) Hst2) as (st2 & Hp2 & He).
  { cbn. by rewrite !lookup_alter_eq, Hst. }
  exists st2. split; [done|]. split_and!; [apply (f_equal sent_topics) in He|apply (f_equal remote_topics) in He|apply (f_equal pending) in He]; exact He.
Qed.

(** C15: What a router announces is what the other side learns, as far as the
    other side takes that many topics.  Let a sender have a subscription update
    in flight, and let the other router remember for this peer the topics that
    were last committed, no more than it allows a peer.  However the frame is
    cut on its way: if the snapshot is within the receiver's [max_topics_per_peer], the receiver ends with
    exactly the topics of the snapshot and reports exactly the topics that were
    added and those that were removed, in order; if it is beyond, the receiver
    keeps the topics it had, reports the violation and resets the stream.  When
    the sender's stream closes, the snapshot is what it holds as committed, in
    the first case as in the second: the two agree again in the first, and in
    the second they do not. *)
Theorem floodsub_subscriptions_agree cfg (a b : FloodsubAgent) (pa pb : PeerId) sta stb frame snapshot i now chunks :
  agent_ok cfg a → peers a !! pb = Some sta → work_of (sender sta) = Some (Subscriptions frame snapshot) →
  peers b !! pa = Some stb → role b pa i = Some Inbound → inbound stb !! i = Some [] → remote_topics stb = sent_topics sta →
  Z.of_nat (size (remote_topics stb)) ≤ max_topics_per_peer (config b) → concat chunks = frame →
  safe (receive pa i now chunks) (λ _ b', b' =
    if Z.of_nat (size snapshot) <=? max_topics_per_peer (config b) then
      {| b with events := events b ++ announced pa (sent_topics sta) snapshot; peers := <[pa := {| stb with remote_topics := snapshot |}]> (peers b) |}
    else refused b pa i stb) b ∧
  ∀ tk j since now', sender sta = AwaitingClose tk j since (Subscriptions frame snapshot) → role a pb j = Some Outbound →
    safe (on_stream_closed pb j now') (λ _ a', ∃ sta', peers a' !! pb = Some sta' ∧ sent_topics sta' = snapshot) a.
Proof.
  intros Ha Hsta Hw Hstb Hr Hi Hsync Hmax Hcat. destruct (st_work _ _ (ao_peers _ _ Ha _ _ Hsta) _ Hw) as [Hsnap Hf].
  pose proof (st_sent _ _ (ao_peers _ _ Ha _ _ Hsta)) as Hsent. split.
  2:{ intros tk j since now' Hsd Hro. eapply safe_mono; [by eapply safe_committed|]. intros _ a' (st' & ? & ? & _). eauto. }
  rewrite Hf in Hcat. pose proof (diff_fits _ _ Hsent Hsnap) as Hsz. pose proof (legal_frame_cap _ Hsz) as Hcap.
  set (f := encode_frame (Rpc_encode (diff_rpc (sent_topics sta) snapshot))) in *. set (b1 := with_buffer b pa i f).
  assert (peers b1 !! pa = Some {| stb with inbound := <[i := f]> (inbound stb) |}) as Hb1 by (unfold b1, with_buffer; cbn; by rewrite lookup_alter_eq, Hstb).
  eapply (safe_receive chunks b pa i now [] _ (diff_rpc (sent_topics sta) snapshot)); [done|by unfold buffer; rewrite Hstb|done| |done|by apply diff_decodes|].
  { exists f. split; [|done]. intros He. apply (f_equal zlen) in He. change (zlen []) with 0 in He. lia. }
  fold f b1. unfold safe. destruct (Z.leb_spec (Z.of_nat (size snapshot)) (max_topics_per_peer (config b))) as [Hle|Hgt].
  - rewrite (rpc_diff b1 pa i now _ (sent_topics sta) snapshot Hb1) by done.
    split_and!; [exists Inbound; exact Hr|unfold buffer; cbn; rewrite lookup_insert_eq; cbn; by rewrite lookup_insert_eq|].
    unfold with_buffer at 1. unfold b1, with_buffer. cbn. f_equal. apply map_eq. intros q. destruct (decide (pa = q)) as [<-|Hne].
    + rewrite lookup_alter_eq, !lookup_insert_eq. cbn. by rewrite insert_insert_eq, insert_id.
    + by rewrite !lookup_alter_ne, !lookup_insert_ne, lookup_alter_ne.
  - rewrite (rpc_diff_refused b1 pa i now _ (sent_topics sta) snapshot Hb1); [|done|done|done|rewrite <- Hsync; cbn; lia]. split.
    + unfold role, refused. cbn. rewrite lookup_insert_eq, lookup_insert_eq. done.
    + unfold refused, b1, with_buffer. cbn. f_equal. apply map_eq. intros q. destruct (decide (pa = q)) as [<-|Hne].
      * rewrite !lookup_insert_eq. by rewrite delete_insert_eq.
      * by rewrite !lookup_insert_ne, lookup_alter_ne.
Qed.

(** ** Messages *)

Definition has_room s peer : bool := peer_has (λ st, negb (is_full s st)) s peer.
Definition forward_one (f : bytes) (now : Z) peer : F unit :=
  s ← gets id;
  match peers s !! peer with
  | Some state => if is_full s state then mret tt else (_ ← push_pending peer f; drive_sender peer now)
  | None => mret tt
  end.

Lemma filter_ext_in {A} (P Q : A → Prop) `{!∀ x, Decision (P x), !∀ x, Decision (Q x)} (l : list A) :
  (∀ x, x ∈ l → P x ↔ Q x) → filter P l = filter Q l.
Proof.
  induction l as [|x l IH]; intros Hpq; [done|]. rewrite !filter_cons. specialize (IH (λ y Hy, Hpq y (list_elem_of_further y x l Hy))).
  pose proof (Hpq x (list_elem_of_here x l)). destruct (decide (P x)), (decide (Q x)); try tauto; by rewrite IH.
Qed.

Lemma enqueued_nothing f s : steady (enqueued f [] s) s.
Proof. constructor; try done. intros p. rewrite enqueued_lookup. by destruct (peers s !! p). Qed.

(** Every peer with room gets the frame, the others do not. *)
Lemma safe_forward cfg s f l now :
  NoDup l → agent_ok cfg s → legal_frame f →
  safe (for_each (forward_one f now) l) (λ _ s', agent_ok cfg s' ∧ steady (enqueued f (filter (λ p, Is_true (has_room s p)) l) s) s') s.
Proof.
  intros Hn. revert s. induction Hn as [|x l Hx Hn IH]; intros s Hs Hf; [cbn; safe_steps; split; [done|apply enqueued_nothing]|].
  cbn [for_each]. safe_step. unfold forward_one at 1. do 2 safe_step. rewrite filter_cons.
  destruct (decide (Is_true (has_room s x))) as [Hr|Hr]; unfold has_room, peer_has in Hr; destruct (peers s !! x) as [st|] eqn:Hst; try done; try (by safe_steps; apply IH);
    destruct (is_full s st) eqn:Hfull; try done; try (by safe_steps; apply IH).
  eapply safe_mono; [apply (safe_queue cfg s x f); [done|done|]|].
  { intros st' Hst'. rewrite Hst in Hst'. injection Hst' as <-. unfold is_full in Hfull. lia. }
  intros [] s1 [Hs1 Hst1]. eapply safe_mono; [by apply IH|]. intros [] s2 [Hs2 Hst2]. split; [done|].
  assert (filter (λ p, Is_true (has_room s1 p)) l = filter (λ p, Is_true (has_room s p)) l) as Heq.
  { apply filter_ext_in. intros p Hp. enough (has_room s1 p = has_room s p) as -> by done. assert (p ≠ x) as Hne by (by intros ->).
    pose proof (sd_peers _ _ Hst1 p) as He. cbn in He. rewrite lookup_alter_ne in He by done. unfold has_room, peer_has, is_full.
    rewrite (sd_config _ _ Hst1). destruct (peers s1 !! p), (peers s !! p); try done. apply (inj Some), (f_equal pending) in He. cbn in He. by rewrite He. }
  rewrite Heq in Hst2. etrans; [|exact Hst2]. apply enqueued_cons; [|done]. by intros [_ ?]%list_elem_of_filter.
Qed.

Definition forward_targets s (arrival from : PeerId) (m : RawMessage) : list PeerId :=
  filter (λ p, p ≠ arrival ∧ p ≠ from ∧ Is_true (peer_has (λ st, existsb (λ t, subscribed_to t st) (topic_ids m)) s p)) (btree_keys (peers s)).
Definition delivered s (m : RawMessage) (from : PeerId) (seqno : bytes) (signed : bool) : list PubsubEvent :=
  if existsb (λ t, bool_decide (t ∈ topics s)) (topic_ids m) then [Message from (topic_ids m) (default [] (msg_data m)) seqno signed] else [].

(** The state after a new message: recorded, delivered and queued for the peers
    that want it. *)
Definition after_message s (arrival from : PeerId) (m : RawMessage) (seqno : bytes) (signed : bool) (now : Z) : FloodsubAgent :=
  let s1 := {| s with
    seen := (Seen.insert (seen_message_id (to_bytes from) seqno signed) now (seen_ttl_ms (config s)) (max_seen_messages (config s)) (seen s)).1;
    events := events s ++ delivered s m from seqno signed |} in
  enqueued (encode_frame (Rpc_encode (message_rpc m))) (filter (λ p, Is_true (has_room s p)) (forward_targets s arrival from m)) s1.

Lemma safe_delivered cfg s arrival m from seqno signed now :
  agent_ok cfg s → zlen (Rpc_encode (message_rpc m)) ≤ MAX_RPC_SIZE → verify_message m (allow_unsigned (config s)) = Ok (from, seqno, signed) →
  safe (process_message arrival m now)
    (λ _ s', if contains (seen_message_id (to_bytes from) seqno signed) (seen s) then s' = s
             else steady (after_message s arrival from m seqno signed now) s') s.
Proof.
  intros Hs Hm Hv. unfold process_message. do 2 safe_step. rewrite Hv. cbv zeta. destruct (contains _ (seen s)); [by safe_steps|].
  unfold record_seen. do 3 safe_step.
  apply (safe_mono _ (λ _ s1, s1 = {| s with
    seen := (Seen.insert (seen_message_id (to_bytes from) seqno signed) now (seen_ttl_ms (config s)) (max_seen_messages (config s)) (seen s)).1;
    events := events s ++ delivered s m from seqno signed |})).
  { unfold delivered. destruct (existsb _ (topic_ids m)); [unfold push_event; by safe_steps|]. safe_steps. by rewrite app_nil_r. }
  intros [] s1 Hs1. cbn beta. destruct (@legal_encode Empty_set _ Hm) as [He Hlegal]. safe_step. eapply safe_lift_ok; [exact He|].
  eapply safe_mono; [apply (safe_forward cfg s1); [apply NoDup_filter, NoDup_btree_keys| |exact Hlegal]|].
  - subst s1. destruct Hs. constructor; try done. apply seen_sound_insert; [apply ao_config|done].
  - intros [] s2 [_ Hst2]. by subst s1.
Qed.

Lemma seen_insert_contains id now ttl max sn :
  1 ≤ max → seen_sound max sn → contains id (Seen.insert id now ttl max sn).1 = true.
Proof.
  intros Hm (Hi & Hn & Hl). unfold contains, Seen.insert. apply bool_decide_eq_true_2.
  destruct (bool_decide (id ∈ ids sn)) eqn:Hin; [by apply bool_decide_eq_true in Hin|apply bool_decide_eq_false in Hin]. cbn [fst].
  rewrite Hi, elem_of_list_to_set in Hin. rewrite evict_spec; [|lia|rewrite fmap_app, Hi; cbn; rewrite list_to_set_app_L; set_solver|].
  - cbn. rewrite drop_app_le by (rewrite zlen_app; unfold zlen in *; cbn; lia). rewrite fmap_app, list_to_set_app_L. set_solver.
  - rewrite fmap_app. apply NoDup_app. split_and!; [done| |apply NoDup_singleton]. intros x Hx ->%list_elem_of_singleton. done.
Qed.

(** The peers a message of one topic is passed on to. *)
Definition wanted_by s (arrival from : PeerId) (topic : bytes) (p : PeerId) (st : PeerState) : Prop :=
  p ≠ arrival ∧ p ≠ from ∧ topic ∈ remote_topics st ∧ zlen (pending st) < max_pending_per_peer (config s).
#[global] Instance wanted_by_dec s arrival from topic p st : Decision (wanted_by s arrival from topic p st).
Proof. unfold wanted_by. apply _. Defined.

Lemma after_message_pending s s' arrival from m topic seqno signed now p st :
  topic_ids m = [topic] → steady (after_message s arrival from m seqno signed now) s' → peers s !! p = Some st →
  ∃ st', peers s' !! p = Some st' ∧
    pending st' = pending st ++ (if decide (wanted_by s arrival from topic p st) then [encode_frame (Rpc_encode (message_rpc m))] else []).
Proof.
  intros Ht Hst Hp. unfold after_message in Hst.
  eapply steady_peer in Hst as (st' & Hp' & He); [|rewrite enqueued_lookup; cbn; by rewrite Hp]. exists st'. split; [done|].
  apply (f_equal pending) in He. cbn in He. rewrite He. clear He.
  assert (p ∈ filter (λ p, Is_true (has_room s p)) (forward_targets s arrival from m) ↔ wanted_by s arrival from topic p st) as Hiff.
  { unfold forward_targets, wanted_by. rewrite !list_elem_of_filter, elem_of_btree_keys. unfold has_room, peer_has. rewrite Hp, Ht. cbn.
    unfold is_full, subscribed_to. rewrite orb_false_r, bool_decide_spec.
    destruct (Z.leb_spec (max_pending_per_peer (config s)) (zlen (pending st))); cbn; split; intros H'; split_and?; try tauto; [lia|lia|eauto]. }
  destruct (decide (p ∈ filter (λ p, Is_true (has_room s p)) (forward_targets s arrival from m))) as [Hin|Hin],
    (decide (wanted_by s arrival from topic p st)); [done|tauto|tauto|]. by rewrite app_nil_r.
Qed.

Lemma with_buffer_same s peer st i b : peers s !! peer = Some st → inbound st !! i = Some b → with_buffer s peer i b = s.
Proof.
  intros Hst Hi. unfold with_buffer. destruct s. cbn in *. f_equal. apply map_eq. intros q. destruct (decide (peer = q)) as [<-|Hne].
  - rewrite lookup_alter_eq, Hst. cbn. rewrite insert_id by done. by destruct st.
  - by rewrite lookup_alter_ne.
Qed.

Lemma with_buffer_pending s peer i b p st :
  peers s !! p = Some st → ∃ st', peers (with_buffer s peer i b) !! p = Some st' ∧ pending st' = pending st ∧ remote_topics st' = remote_topics st.
Proof.
  intros Hp. unfold with_buffer. cbn. destruct (decide (peer = p)) as [->|Hne]; [rewrite lookup_alter_eq|rewrite lookup_alter_ne by done]; rewrite Hp; cbn; eauto.
Qed.

(** The effect of a message that was received, on a router with nothing of it in
    its buffer. *)
Definition message_effect s s' (arrival from : PeerId) (topic data seqno : bytes) (frame : bytes) : Prop :=
  let id := seen_message_id (to_bytes from) seqno true in
  if contains id (seen s) then s' = s
  else
    events s' = events s ++ (if decide (topic ∈ topics s) then [Message from [topic] data seqno true] else []) ∧
    (1 ≤ max_seen_messages (config s) → contains id (seen s') = true) ∧
    ∀ p st, peers s !! p = Some st → ∃ st', peers s' !! p = Some st' ∧
      pending st' = pending st ++ (if decide (wanted_by s arrival from topic p st) then [frame] else []).

Lemma message_arrives cfg s arrival st i now chunks m from topic data seqno :
  agent_ok cfg s → role s arrival i = Some Inbound → peers s !! arrival = Some st → inbound st !! i = Some [] →
  concat chunks = encode_frame (Rpc_encode (message_rpc m)) → zlen (Rpc_encode (message_rpc m)) ≤ MAX_RPC_SIZE → wire_exact m →
  topic_ids m = [topic] → msg_data m = Some data → (∀ allow, verify_message m allow = Ok (from, seqno, true)) →
  safe (receive arrival i now chunks) (λ _ s', message_effect s s' arrival from topic data seqno (encode_frame (Rpc_encode (message_rpc m)))) s.
Proof.
  intros Hs Hr Hst Hi Hcat Hsz Hwe Ht Hd Hv. pose proof (legal_frame_cap _ Hsz) as Hcap.
  eapply (safe_receive chunks s arrival i now [] _ (message_rpc m)); [done|by unfold buffer; rewrite Hst|done| |done| |].
  { exists (encode_frame (Rpc_encode (message_rpc m))). split; [|done]. intros He. apply (f_equal zlen) in He. change (zlen []) with 0 in He. lia. }
  { destruct (Rpc_round_trip (message_rpc m)) as [_ ->]; [constructor|by repeat constructor|done|by apply payload_fits|done]. }
  set (f := encode_frame (Rpc_encode (message_rpc m))) in *. set (s1 := with_buffer s arrival i f).
  assert (agent_ok cfg s1) as Hs1 by (apply ok_set_buffer; [done|by unfold buffer; rewrite Hst, Hi|lia]).
  assert (buffer s1 arrival i = Some f) as Hb1 by (eapply with_buffer_buffer; unfold buffer; by rewrite Hst).
  unfold process_rpc. rewrite bool_decide_eq_true_2 by done. cbn [rpc_publish message_rpc for_each]. do 2 safe_step.
  eapply safe_mono; [apply (safe_delivered cfg s1 arrival m from seqno true now); [done|done|apply Hv]|].
  intros [] s2 H2. safe_steps. unfold message_effect. change (seen s1) with (seen s) in H2. destruct (contains _ (seen s)).
  - subst s2. split; [by exists Inbound|]. split; [done|]. unfold s1. by rewrite with_buffer_twice, (with_buffer_same s arrival st).
  - pose proof H2 as []. split; [exists Inbound; by unfold role in *; rewrite sd_roles; cbn|]. split_and!.
    + rewrite (quiet_buffer s1 s2); [done|]. etrans; [|by apply steady_quiet]. split; [done|]. intros p. unfold after_message. rewrite enqueued_lookup. cbn.
      destruct (alter _ arrival (peers s) !! p); [|done]. cbn. by destruct (decide _).
    + cbn. rewrite sd_events. cbn. unfold delivered. rewrite Ht, Hd. cbn. rewrite orb_false_r. by case_bool_decide; case_decide.
    + intros Hmax. cbn. rewrite sd_seen. cbn. apply seen_insert_contains; [done|apply Hs].
    + intros p stp Hp. destruct (with_buffer_pending s arrival i f p stp Hp) as (st1 & Hp1 & Hpe & Hre).
      destruct (after_message_pending s1 s2 arrival from m topic seqno true now p st1 Ht H2 Hp1) as (st2 & Hp2 & Hpe2).
      destruct (with_buffer_pending s2 arrival i [] p st2 Hp2) as (st3 & Hp3 & Hpe3 & _). exists st3. split; [done|]. rewrite Hpe3, Hpe2, Hpe.
      f_equal. apply decide_ext. unfold wanted_by. change (config s1) with (config s). by rewrite Hpe, Hre.
Qed.

(** What was published: one frame for every peer that subscribes. *)
Lemma safe_published cfg s topic data now :
  agent_ok cfg s →
  safe (publish topic data now) (λ r s', r = Ok tt → ∃ m,
    build_signed (E := Empty_set) (Multihash := Multihash) (keypair s) topic data (next_seqno s) = Ok m ∧ zlen (Rpc_encode (message_rpc m)) ≤ MAX_RPC_SIZE ∧
    events s' = events s ∧ next_seqno s' = wrapping_add u64_max (next_seqno s) 1 ∧
    ∀ p st, peers s !! p = Some st → ∃ st', peers s' !! p = Some st' ∧
      pending st' = pending st ++ (if decide (topic ∈ remote_topics st) then [encode_frame (Rpc_encode (message_rpc m))] else [])) s.
Proof.
  intros Hs. unfold publish. pose proof (validate_returns topic) as Hv. destruct (validate_topic topic); try done. do 2 safe_step. cbv zeta.
  fold (subscribers topic s). destruct (existsb _ _) eqn:Hfull; [by safe_steps|].
  destruct (build_signed_ok (E := Empty_set) (keypair s) topic data (next_seqno s)) as [m Hm]. safe_step. eapply safe_lift_ok; [exact Hm|].
  destruct (Z.ltb_spec MAX_RPC_SIZE (zlen (Rpc_encode (mkRpc [] [m] None)))) as [?|Hsz]; [by safe_steps|].
  unfold record_seen. do 4 safe_step. destruct (@legal_encode Empty_set _ Hsz) as [He Hlegal]. safe_step. eapply safe_lift_ok; [exact He|].
  lazymatch goal with |- safe _ _ ?x => set (s1 := x) end. assert (agent_ok cfg s1) as Hs1.
  { destruct Hs. constructor; try done. apply seen_sound_insert; [apply ao_config|done]. }
  safe_step. eapply safe_mono; [apply (safe_queue_all cfg); [|exact Hs1|exact Hlegal|]|].
  - apply NoDup_filter, NoDup_btree_keys.
  - intros p st Hp Hst. by eapply not_full.
  - intros [] s2 [Hs2 Hst2]. safe_steps. intros _. exists m. split_and!; [done|done|by rewrite (sd_events _ _ Hst2)|by rewrite (sd_seqno _ _ Hst2)|].
    intros p st Hp. eapply steady_peer in Hst2 as (st' & Hp' & He'); [|rewrite enqueued_lookup; cbn; by rewrite Hp]. exists st'. split; [done|].
    apply (f_equal pending) in He'. cbn in He'. rewrite He'.
    assert (p ∈ subscribers topic s ↔ topic ∈ remote_topics st) as Hiff.
    { unfold subscribers. rewrite list_elem_of_filter, elem_of_btree_keys. unfold peer_has, subscribed_to. rewrite Hp, bool_decide_spec. naive_solver. }
    destruct (decide (p ∈ subscribers topic s)), (decide (topic ∈ remote_topics st)); [done|tauto|tauto|]. by rewrite app_nil_r.
Qed.

Context `{!SigningSpec}.

(** C14: What is published reaches the subscribers.  A publish that succeeds
    queues one frame for exactly the peers that announced the topic.  A router
    that receives this frame, cut in any way, delivers the message with its
    publisher, data and sequence number, as signed, if it subscribes to the
    topic; remembers it, if its cache of seen messages has room for one; and
    queues the same bytes for exactly those of its peers that subscribe, other
    than the one it came from and the publisher, and have room.  A message it
    has seen changes nothing. *)
Theorem floodsub_delivers cfg (a : FloodsubAgent) topic data now :
  agent_ok cfg a → keypair_ok (keypair a) → keypair_peer_id (keypair a) = Ok (local_peer_id a) → is_text topic →
  safe (publish topic data now) (λ r a', r = Ok tt → ∃ f,
    events a' = events a ∧
    (∀ p st, peers a !! p = Some st → ∃ st', peers a' !! p = Some st' ∧
      pending st' = pending st ++ (if decide (topic ∈ remote_topics st) then [f] else [])) ∧
    ∀ cfgb (b : FloodsubAgent) arrival st i now' chunks,
      agent_ok cfgb b → role b arrival i = Some Inbound → peers b !! arrival = Some st → inbound st !! i = Some [] → concat chunks = f →
      safe (receive arrival i now' chunks)
        (λ _ b', message_effect b b' arrival (local_peer_id a) topic data (be_bytes 8 (next_seqno a)) f) b) a.
Proof.
  intros Ha Hk Hl Ht. eapply safe_mono; [by apply (safe_published cfg)|]. intros r a' Hpub Hr. destruct (Hpub Hr) as (m & Hm & Hsz & Hev & _ & Hq).
  exists (encode_frame (Rpc_encode (message_rpc m))). split_and!; [done|done|].
  destruct (build_signed_verifies (E := Empty_set) (keypair a) topic data (next_seqno a) (local_peer_id a) Hk Hl) as (m' & Hm' & Hraw & _ & Hd & _ & Htp & Hv).
  rewrite Hm in Hm'. injection Hm' as <-. intros cfgb b arrival st i now' chunks Hb Hro Hst Hi Hcat. eapply message_arrives; [done..| |done|done|done].
  apply canonical_wire_exact; [|done|].
  - unfold RawMessage_typed. rewrite Htp. by repeat constructor.
  - apply payload_fits. assert (raw m = to_wire m) as -> by (unfold to_wire; by destruct (raw m)). rewrite message_rpc_encode in Hsz.
    unfold token_bytes in Hsz. rewrite zlen_app in Hsz. pose proof (zlen_nonneg (write_uvarint (2 * 8 + wire (VLen (to_wire m))) [])).
    apply len_value_small. cbn in *. lia.
Qed.
End Flow.
