(* ===== verification/FloodsubDemo.v ===== *)
(** The properties of pubsub on concrete messages and runs. *)

From Stdlib Require Import Strings.Byte.
From S2P Require Import Prelude Varint Frame Proto Base58 PeerIdentity Multiaddr Keys Swarm.
From S2P Require Import PubsubMessage PubsubTypes Seen Floodsub FloodsubSafety FloodsubFlow.

#[local] Existing Instance demo_crates.
#[local] Existing Instance demo_crates_spec.
#[local] Existing Instance demo_signing.
#[local] Existing Instance demo_signing_spec.

Abbreviation PubPeer := (PeerIdentity.PeerId (Multihash := Z * bytes)).
Definition pub_key (p : PubPeer) : Z := Zpos (encode p).
#[local] Instance pub_key_inj : Inj (=) (=) pub_key.
Proof. intros p q [= H]. by apply (inj encode). Qed.
#[local] Instance pub_btree_key : BTreeKey PubPeer := inj_btree_key pub_key.
Abbreviation DemoFloodsub := (FloodsubAgent (Multihash := Z * bytes)).

(** ** Messages *)

Definition alice_keys : Ed25519Keypair := mkKeypair (replicate 32 x01) (ed_public (replicate 32 x01)).
Definition bob_keys : Ed25519Keypair := mkKeypair (replicate 32 x02) (ed_public (replicate 32 x02)).
Definition news : bytes := str "news".
Definition hello : bytes := str "hello".
Definition hello_message : RawMessage :=
  match build_signed (E := Empty_set) (Multihash := Z * bytes) alice_keys news hello 7 with Ok m => m | _ => RawMessage_default end.

(** The first message is still without its wire form. *)
Definition plain_message : RawMessage := {| RawMessage_default with msg_data := Some hello |}.
Definition full_rpc : Rpc :=
  mkRpc [subscription_entry true news; mkSubOpts (Some false) None] [plain_message; hello_message]
    (Some (mkControl [mkIHave (Some news) [[x01]; []]] [mkIWant [[x02]]] [mkGraft None] [mkPrune (Some news) [mkPeerInfo (Some [x03]) None] (Some 60)])).
Definition full_rpc_read : Rpc := {| full_rpc with rpc_publish := [{| plain_message with raw := encode_fields plain_message true |}; hello_message] |}.
Lemma pubsub_rpc_round_trip_witness :
  Rpc_decode (Rpc_encode full_rpc) = Ok full_rpc_read ∧ decode_floodsub (Rpc_encode full_rpc) = Ok {| full_rpc_read with control := None |}.
Proof.
  apply (pubsub_rpc_round_trip full_rpc); [|vm_compute; discriminate].
  split_and!; [repeat constructor| |].
  - constructor; [left; split; [repeat constructor|by left]|]. constructor; [left; split; [repeat constructor|right; vm_compute; reflexivity]|constructor].
  - split_and!; repeat constructor; vm_compute; discriminate.
Defined.

Lemma pubsub_verify_sound_witness : ∃ p s, verify_message (Multihash := Z * bytes) hello_message false = Ok (p, s, true) ∧ signed_by hello_message p.
Proof.
  pose proof (pubsub_verify_sound (Multihash := Z * bytes) hello_message false) as H.
  destruct (verify_message hello_message false) as [[[p s] b]|e| |] eqn:Hv; [|vm_compute in Hv; discriminate Hv..].
  assert (b = true) as -> by (vm_compute in Hv; congruence). exists p, s. split; [reflexivity|]. apply H.
  - repeat constructor.
  - vm_compute. discriminate.
Defined.

(** ** Runs *)

Definition no_agent : DemoFloodsub := mkFloodsub alice_keys (mkPeerId (0, [])) FloodsubConfig_default [] [] ∅ ∅ ∅ 0 0 SeenCache_default.
Definition start (kp : Ed25519Keypair) : DemoFloodsub := match Floodsub_new kp FloodsubConfig_default 7 with Ok s => s | _ => no_agent end.
Definition alice_id : PubPeer := local_peer_id (start alice_keys).
Definition bob_id : PubPeer := local_peer_id (start bob_keys).

Lemma default_ok : config_ok FloodsubConfig_default.
Proof. repeat split; vm_compute; discriminate. Qed.
Lemma start_ok kp : agent_ok FloodsubConfig_default (start kp).
Proof.
  destruct (agent_new_ok (Multihash := Z * bytes) FloodsubConfig_default kp 7 default_ok) as (s & Hs & Hok). unfold start. by rewrite Hs.
Qed.
Definition after (kp : Ed25519Keypair) (inputs : list (FloodsubInput (Multihash := Z * bytes))) : DemoFloodsub := (for_each flood_step inputs (start kp)).1.
Lemma after_ok kp inputs :
  Forall input_ok inputs → (for_each flood_step inputs (start kp)).2 = Ok tt → agent_ok FloodsubConfig_default (after kp inputs).
Proof.
  intros Hi Hr. pose proof (runs_are_safe FloodsubConfig_default inputs (start kp) (start_ok kp) Hi) as H. unfold safe in H. unfold after.
  destruct (for_each flood_step inputs (start kp)) as [s [u|[]| |]]; try done.
Qed.

(** Alice subscribes and announces it to Bob, whose stream to her tells her of
    his subscription. *)
Definition announce : bytes := encode_frame (Rpc_encode (diff_rpc ∅ {[news]})).
Definition alice_inputs : list (FloodsubInput (Multihash := Z * bytes)) :=
  [ FSubscribe news 0;
    FEvent (PeerReady bob_id [FLOODSUB_PROTOCOL_ID]) 1;
    FOpenResult bob_id 0 (inl 4);
    FEvent (StreamReady bob_id 1 4 FLOODSUB_PROTOCOL_ID true) 2;
    FEvent (StreamReady bob_id 1 5 FLOODSUB_PROTOCOL_ID false) 3;
    FEvent (StreamData bob_id 1 5 announce) 3 ].
Definition alice : DemoFloodsub := after alice_keys alice_inputs.
Definition bob_inputs : list (FloodsubInput (Multihash := Z * bytes)) :=
  [ FSubscribe news 0; FEvent (StreamReady alice_id 1 9 FLOODSUB_PROTOCOL_ID false) 3 ].
Definition bob : DemoFloodsub := after bob_keys bob_inputs.
Lemma alice_ok : agent_ok FloodsubConfig_default alice.
Proof. apply after_ok; [repeat constructor|vm_compute; reflexivity]. Qed.
Lemma bob_ok : agent_ok FloodsubConfig_default bob.
Proof. apply after_ok; [repeat constructor|vm_compute; reflexivity]. Qed.

Lemma floodsub_stays_in_bounds_witness :
  ∃ s0, Floodsub_new (Multihash := Z * bytes) alice_keys FloodsubConfig_default 7 = Ok s0 ∧
  match for_each flood_step (alice_inputs ++ [FPublish news hello 4; FTick 20000; FPollAction; FPollEvent]) s0 with
  | (s, Ok _) => agent_ok FloodsubConfig_default s
  | (s, Panic) => next_token s = u64_max
  | _ => False
  end.
Proof.
  apply (floodsub_stays_in_bounds FloodsubConfig_default alice_keys 7 (alice_inputs ++ [FPublish news hello 4; FTick 20000; FPollAction; FPollEvent])).
  - exact default_ok.
  - repeat constructor.
Defined.

Definition alice_state : PeerState := default PeerState_default (peers alice !! bob_id).
Definition bob_state : PeerState := default PeerState_default (peers bob !! alice_id).
Lemma floodsub_subscriptions_agree_witness :
  safe (receive alice_id 9 5 [take 3 announce; drop 3 announce]) (λ _ b', events b' = events bob ++ [PeerSubscribed alice_id news]) bob.
Proof.
  destruct (floodsub_subscriptions_agree FloodsubConfig_default alice bob alice_id bob_id alice_state bob_state announce {[news]} 9 5
    [take 3 announce; drop 3 announce] alice_ok) as [H _]; [try (vm_compute; reflexivity)..|]; [vm_compute; discriminate|].
  eapply safe_mono; [exact H|]. intros u b' Hb. rewrite Hb. vm_compute. reflexivity.
Defined.

Lemma floodsub_delivers_witness :
  safe (publish news hello 6) (λ r a', r = Ok tt → ∃ f,
    safe (receive alice_id 9 8 [f]) (λ _ b', message_effect bob b' alice_id alice_id news hello (be_bytes 8 7) f) bob) alice.
Proof.
  eapply safe_mono; [apply (floodsub_delivers FloodsubConfig_default alice news hello 6 alice_ok)|].
  - split; vm_compute; reflexivity.
  - vm_compute. reflexivity.
  - vm_compute. reflexivity.
  - intros r a' H Hr. destruct (H Hr) as (f & _ & _ & Hf). exists f.
    apply (Hf FloodsubConfig_default bob alice_id bob_state 9 8 [f] bob_ok); [vm_compute; reflexivity|vm_compute; reflexivity|vm_compute; reflexivity|].
    cbn. apply app_nil_r.
Defined.
